(* ===== verification/_CoqProject ===== *)
-Q . S2P
Prelude.v
Text.v
JsMap.v
Bytes.v
Effects.v
Wire.v
Mmr.v
MmrProofs.v
MmrTheorems.v
MmrSound.v
OnlineToken.v
Relay.v
RelayTheorems.v
SealChain.v
Merkle.v
SealChainTheorems.v
RelaySession.v
RelaySessionInvariant.v
RelaySessionTheorems.v
RelaySessionDemo.v
RelayGater.v
RelayGaterTheorems.v
RelayAuth.v
RelayAuthTheorems.v
SealFinalRoot.v
SealCosign.v
SealLegibility.v
SealLegibilityTheorems.v
SealNotary.v
SealNotaryInvariant.v
SealNotaryTheorems.v
SealHandover.v
SealNotaryDemo.v
FrostShares.v
FrostSharesTheorems.v
FrostFrames.v
FrostHandler.v
FrostNode.v
FrostInvariant.v
FrostAuthorised.v
FrostTheorems.v
FrostDemo.v
ContentStore.v
ContentStoreTheorems.v
Json.v
HashChain.v
HashChainTheorems.v
Reconcile.v
ReconcileTheorems.v
Merges.v
MergesTheorems.v
AntiEntropy.v
AntiEntropyTheorems.v
AntiEntropyConvergence.v
Registration.v
RegistrationRepository.v
RegistrationMachine.v
RegistrationEngine.v
RegistrationSafety.v
RegistrationTheorems.v
RegistrationReminders.v
RegistrationDemo.v
DkgTopology.v
Signaling.v
SignalStreams.v
SignalConnections.v
SignalSessions.v
SignalRegister.v
SignalNode.v
SignalInvariant.v
SignalHandlers.v
SignalTheorems.v
SignalDemo.v
SignalFlights.v
ApiStore.v
TrustSignals.v
PreAuthTokens.v
InternalApi.v
ApiRuns.v
ApiLedger.v
