(* ===== verification/Prelude.v ===== *)
(** Verification library for CELLO.

    CELLO is a federation of directory nodes and relays that carry signed
    conversations between agents.  Directories record agents, seal finished
    conversations into an append-only Merkle mountain range and keep one another
    in step by anti-entropy; relays order the signed leaves of a live session and
    park content for recipients that are away.  This library models the parts of
    the program that decide something, as functions on explicit state, and
    proves what makes each of them correct.

    ** Files

    A file bears the name of its module; some keep several modules in one file:
    MmrProofs.v ([MmrSpec], [MmrProofs]), FrostAuthorised.v ([FrostOrigin],
    [FrostAuthorised]), RegistrationSafety.v ([RegistrationInvariant],
    [RegistrationSafety]), RelayAuthTheorems.v ([RelayAuthInvariant],
    [RelayAuthTheorems]), RelaySessionInvariant.v ([RelaySessionInvariant],
    [RelaySessionEvolution]), SealNotaryTheorems.v ([SealNotaryTheorems],
    [SealNotaryRetry]); of the signaling, SignalInvariant.v ([SignalTable], [SignalTrace],
    [SignalInvariant]), SignalHandlers.v (the four modules of handlers), SignalTheorems.v
    ([SignalRuns], [SignalTheorems]), SignalFlights.v ([SignalFlights],
    [SignalFlightsTheorems]); of the internal API, ApiRuns.v ([ApiLogic], [ApiRuns]).

    Shared: [Prelude] (results, tactics, lists), [Text] (texts and decimal
    numbers), [JsMap] (insertion-ordered maps), [Bytes] (slices and big-endian
    integers), [Wire] (decoded CBOR values, numbers, hexadecimal), [Json]
    (JSON texts), [Effects] (actions with state and exceptions, and the weakest
    preconditions the proofs about them use).

    Directory, packages/directory/src/:
    - [Mmr], [MmrSpec], [MmrProofs], [MmrTheorems], [MmrSound]: mmr.ts.  The state is
      the list of peaks and the rows appended so far; [MmrSpec] is the forest of
      perfect trees they stand for.
    - [HashChain], [HashChainTheorems]: hash-chain.ts.
    - [Reconcile], [ReconcileTheorems]: record-hash.ts, set-reconciliation.ts,
      version-reconcile.ts, ae-mutable-version.ts, ae-round.ts.
    - [Merges], [MergesTheorems]: suspension-merge.ts, presence-merge.ts,
      directory-node-heartbeat-merge.ts.
    - [AntiEntropy], [AntiEntropyTheorems], [AntiEntropyConvergence]:
      anti-entropy-engine.ts.  The stores are behind the class [AeStoreView]; what a
      store promises is the class [LawfulStore], and an in-memory store is an
      instance of both.
    - [SealFinalRoot]: seal-final-root.ts and seal-unilateral-verify.ts.
    - [SealCosign]: seal-cosign-evidence.ts.
    - [SealLegibility], [SealLegibilityTheorems]: seal-legibility.ts, the receipt of a seal.
    - [SealNotary]: the handlers of directory-node.ts that seal a conversation, one action
      per method, over the rows of stubs/in-memory-directory-store.ts; the state is what
      the node keeps in memory about sessions and seals, its rows, its queues and what it
      sent.  [SealNotaryInvariant]: everything recorded or sent is justified by the inputs,
      kept by every handler; [SealNotaryTheorems], [SealNotaryRetry];
      [SealHandover]: from the relay's log to the verdict, and from the verdict to the
      co-signers; [SealNotaryDemo]: the theorems at concrete runs.
    - [FrostShares], [FrostSharesTheorems]: share-store.ts, persistent-share-store.ts,
      encrypted-share-store.ts, the shares in memory and in their table.  [FrostFrames]:
      frost-dkg-frames.ts.  [FrostHandler]: frost-handler.ts, one action per method, the
      methods that wait for the database as two.  [FrostNode]: the frost stream of
      directory-node.ts, the burns, and the nonce binder; its state is the handler, the
      streams that wait, the bindings and what was sent, and its inputs are requests,
      answers of stores, statements that land, burns and restarts.  [FrostInvariant] (one
      lemma per operation, lifted to runs), [FrostOrigin] (where shares come from),
      [FrostAuthorised] (what stands behind an answer), [FrostTheorems], [FrostDemo].
    - the signaling streams of directory-node.ts, over the contract of
      stubs/in-memory-directory-store.ts.  [DkgTopology]: dkg-topology.ts,
      discovery-lookup.ts.  [Signaling]: frames and state (the table of streams, the desk of
      connection requests, the offers and sessions, the registry of agents, the handlers
      that wait).  [SignalStreams] (authentication, streams, presence, deliveries),
      [SignalConnections], [SignalSessions] (offers, ceremonies, assignments),
      [SignalRegister] (registration, revocation): one action per method or part of a
      method between two waits.  [SignalNode]: the dispatch, the inputs, [step] and [run].
      [SignalTable] (what the table of streams is, and that its operations keep it),
      [SignalTrace] (what stands behind a state, in terms of the inputs), [SignalInvariant],
      [SignalHandlers], [SignalSessionHandlers], [SignalCeremonyHandlers],
      [SignalStreamHandlers], [SignalRuns] (every handler and every run keeps it),
      [SignalTheorems], [SignalDemo]; [SignalFlights], [SignalFlightsTheorems]: the mark of
      an agent that is in a ceremony.
    - the internal API, over the tables of PostgreSQL.  [ApiStore]: the tables, the
      statements as constructors indexed by their answers, the view of effective statuses
      (migration V62), and programs of statements.  [TrustSignals]: signal-write.ts,
      signal-present.ts, account-facts.ts.  [PreAuthTokens]: pre-auth-token-repository.ts.
      [InternalApi]: the routes of internal-api-server.ts with agent-write-validation.ts,
      agent-write-repository.ts, account-lookup.ts, agent-presence-repository.ts,
      submission-queue-repository.ts, submission-results-repository.ts, and a node that
      serves requests; its state is the tables, the programs in flight, the answers and a
      journal of what was read and written.  [ApiLogic]: a logic for programs whose
      assertions see the earlier events of the request; [ApiRuns]: one lemma per route, and
      that every run keeps what they say; [ApiLedger]: what the tables hold after any run.
    Shared by directory and relay, packages/interfaces/src/:
    - [SealChain], [SealChainTheorems]: seal-chain-verify.ts, seal-leaf-types.ts;
      [Merkle] is the RFC 6962 tree hash as a reference.
    - [OnlineToken]: relay-online-token.ts.
    - [ContentStore], [ContentStoreTheorems]: content-store.ts and
      stubs/in-memory-content-store.ts.
    Relay, packages/relay/src/:
    - [Relay], [RelayTheorems]: deposit-rate-limiter.ts, relay-store.ts,
      relay-types.ts, leaf-witness.ts.
    - [RelaySession]: the session core of relay-node.ts, one action per method: the
      state is the store, what the node tracks of its sessions, its limiters and what
      it sent.  [RelaySessionInvariant] (the invariant, kept by every input),
      [RelaySessionEvolution] (how a session may change, outcomes of a seal),
      [RelaySessionTheorems], [RelaySessionDemo] (the theorems at concrete runs).
    - [RelayGater], [RelayGaterTheorems]: relay-connection-gater.ts.  [RelayAuth]: how a
      stream of relay-node.ts is authenticated, and the hooks that call the gater; the
      state holds the nonces, the limiters, the gater and a log of what was decided.
      [RelayAuthInvariant], [RelayAuthTheorems]: every decision of the log is justified.

    Operations agent, packages/operations-agent/src/:
    - [Registration] (data, parsers), [RegistrationRepository] (repository.ts, otp.ts,
      phone.ts: each statement as an action), [RegistrationMachine] (state-machine.ts:
      one action per handler), [RegistrationEngine] (engine.ts and the dispatch of
      telegram-adapter.ts: messages, sweeps, restarts).  The state is a [world]: the
      tables, what the process keeps in memory, and a trace of what was received, sent
      and mailed, in which the model also marks when a code is drawn and when a user is
      found to continue an earlier registration.
    - [RegistrationInvariant], [RegistrationSafety]: the invariant and that every
      handler, sweep and restart keeps it; [RegistrationTheorems],
      [RegistrationReminders], [RegistrationDemo]: the theorems and concrete runs.

    ** How the parts meet

    An agent opens a signaling stream to its directory ([SignalStreams.authenticate]),
    registers ([SignalRegister.processRegisterRequest], whose key generation runs on the
    frost stream), is connected to others ([SignalConnections.processConnectionRequest])
    and asks for sessions ([SignalSessions.processSessionRequest]): the in-flight mark of a
    ceremony is that of [FrostHandler.checkConflict], and the assignment that both parties
    get is what [RelaySession.recordAssignment] takes and what [SealNotary.assign] records.
    An agent authenticates at a relay with a directory's token
    ([RelayAuth.authenticate], [OnlineToken.verifyOnlineToken]), which lets its
    receivers hold reservations ([RelayGater.denyInboundRelayReservation]); the
    sessions bound there let pairs dial ([RelayGater.denyOutboundRelayedConnection]).
    A live session's leaves are ordered by a relay ([RelaySession.processHashSubmit],
    over the store of [Relay]), which adopts the history of a session handed over by
    another relay after the checks of [SealChain]
    ([RelaySession.processSessionReplay]) and hands a finished session to a directory
    ([RelaySession.maybeProcessSeal]).  The directory judges it ([SealNotary.processSeal]:
    chain, closing leaves, the parties' own signed roots by
    [SealFinalRoot.verifySealFinalRoots]), derives the receipt
    ([SealLegibility.buildSealLegibility]) and asks the initiator for the group's
    signature ([SealNotary.processSealFrostSignature]); a party that is left alone has
    its carried leaves judged instead ([SealNotary.processSealUnilateral],
    [SealChain.reconstructCarriedSealLeaves], [SealChain.verifySealLeafChain]), and the
    absent one may come back ([SealNotary.processSealUpgradeRequest]).  That signature is
    made of partial ones, which directories give on their frost streams
    ([FrostNode.handleFrostStream], [FrostHandler.signRawMessage]) with the share that the
    key generation left them; for a seal they first repeat the reading from the
    leaves alone ([SealCosign.verifySealCosignEvidence], whose specification is
    stated through [SealFinalRoot]).  The root enters the range of sealed
    conversations ([Mmr.appendLeafToMmr]).  Rows of the directory's tables are hash
    chained ([HashChain]) and exchanged between nodes by [AntiEntropy], which
    plans with [Reconcile] and joins mutable rows with [Merges].
    The portal writes through the internal API ([InternalApi.serve]): it notarizes
    signals and revokes them ([TrustSignals.submitSignal], [TrustSignals.revokeSignal]),
    whose presented hashes a session request has checked
    ([TrustSignals.checkPresentedSignals]), issues the tokens and claim codes that a
    registration redeems ([PreAuthTokens.redeemClaimCode]), and works the switch that
    [FrostNode] reads before it signs ([InternalApi.applyRevocationFlag]).

    ** What the theorems show

    Seals: the verifiers accept exactly the submissions, chains, roots and
    statements that a declarative reading accepts, and an accepted chain fixes the
    order of a sender's messages.  After any inputs of a directory, every row and frame
    about a seal rests on what both parties closed, or on a request that could be
    granted and a verified chain, and goes to whom it concerns; rows are never replaced;
    the bilateral and the incremental chain check agree; what a relay hands over is not
    refused for its arithmetic, and what a directory accepts its co-signers sign.  The
    receipt's numbers come from signed bytes and are fixed by its binding, but its
    countersigned prefix overstates; and one bad signature ends a unilateral seal.  Range: an invariant over any appends,
    completeness and soundness of inclusion proofs, termination of the climb, the
    positions and the one class of leaves without a proof.  Anti-entropy: digests
    are functions of sets, plans are exact, a failing table costs only itself, two
    rounds converge, the merges are order-independent.  Stores: counters and caps
    are invariants, reads and sweeps are exact, queues and limits are bounded.
    Threshold keys: after any requests, landing statements, burns and restarts, a partial
    signature was asked for by the agent's key for that message, read as not suspended,
    with evidence if it is a seal, and made by a nonce committed for the same key within
    the minute; no nonce signs twice; every share was dealt here or refreshed from one
    that was; a reported completion is in the table; a capability admits one agent; a
    refresh expires older epochs for good; what is written of a share is read back.
    Where the code fails: a name cut elsewhere evades suspension and expiry, and a refresh
    that was not stored can still expire the old epoch.
    Signaling: after any inputs, every assignment was asked for by its initiator with
    neither party revoked or read as paused, over an agreed connection where the gate is
    on, with the endpoint its target accepted, and its signature answers the statement of
    its own fields; frames for one agent go to streams that proved its key, for a reason
    the inputs give; connections, profiles and revocations rest on what the holders of the
    keys said, or came from another node, whose revocations are enforced from the next
    start on; frames go to the newest home stream, the presence writes follow the streams
    and so does the stored row if they land in order, but one failed delivery of a seal
    breaks this for its agent; an agent has one ceremony at a time, and one that is never
    answered ends.  A returning agent loses the requests after
    a failed send, and a registration may name another agent's key.
    Trust signals and the internal API: after any interleaving of statements, failures,
    restarts and rows from peers, every record was submitted under an active issuer's
    signature with bytes of its hash, every pickup is of a record, the registry's version
    rises, and a suspension is changed only for the owner's account and wins every merge;
    an agent's signal is revoked only under its issuer's own signature, and a revocation
    that was answered stands; presented hashes are judged by the view; submissions replay
    without effect; a token is consumed once.  Where the code fails: a predecessor does not
    come back when its successor is withdrawn, and a body of null ends the process.
    Relay sessions: after any inputs every session is numbered, rooted, signed and
    linked as its log says; what the relay orders fails the directory's verifier in at
    most one way; sessions only move forward, retransmissions are answered from the
    record, every answer of a directory has its effect, and two submits lose a session.
    Relay authentication: every reservation rests on a fresh proof of possession of a
    registered key by that very peer over a nonce that was minted for it, was not expired
    and was taken once, nonces are answered once, no agent exceeds its
    share of the table, an admitted proof is honoured, the reaper frees the quietest.
    Hash chains and record hashes: tampering is found or gives a hash collision.
    Registration: after any run, whatever call fails before or after its effect, a
    completed registration went through admission, a phone number and the code drawn
    and mailed for its address; one that was welcomed back has the address of the earlier
    one; no number is asked for before admission; the table
    stays consistent; reminders are bounded by a potential; and one run whose phone
    number was only typed completes.

    ** Parameters, bounds, fuel

    SHA-256, Ed25519, the CBOR codec, Unicode normalization, Date.parse and the
    number printer are parameters; a theorem that needs more of them than being
    functions says so in its hypotheses, and its witness instantiates them.
    Collision resistance is never assumed: safety theorems produce the colliding
    pair.  A number that the wire supplies is a [jsnum] (an integer, a fraction or
    NaN) and comparisons with it are those of the language.  [Mmr.walk_loop] has
    fuel 31, more than the height of any tree whose rows lie at positions below 2^30, and
    [inclusion_proof_terminates] shows that the loop ends within it.  The 32-bit operators of the position arithmetic wrap as
    in the language; counters that cannot reach 2^53 are unbounded integers.

    The relay handles one input at a time: the code serialises the submits of a
    session by a lock, and inputs of different sessions share only the limiters, the
    tracking and the queues.  A frame may fail to be sent before or after it left.
    In registration a call that leaves the process draws its [fate] from the
    environment by a tick that counts the calls, so a theorem about every environment
    is one about every pattern of failures; an SQL statement is atomic, messages are
    handled one at a time as the adapter awaits them, and a sweep runs between two
    messages.  A directory handles a sealing input to its end, except that other inputs
    may come while a unilateral request waits for the relay's answer; the handlers'
    other waits (a key lookup, a read of the store) are not interrupted.

    A frost stream is interrupted at its waits for a suspension, a profile, a claim code, a
    binding, a token and a durable write.  A statement sent to the share table lands at any
    later time, in any order, or never, also after a restart; its caller is told of success
    only when it has landed, and of failure at any time.  Calls of the clock, of the FROST
    package's random functions and of the envelope provider are named by a tick; that the
    provider decrypts to what it encrypted ([FrostOrigin.provider_sound]) and that nonces do
    not repeat ([FrostInvariant.fresh_commits]) are hypotheses of the theorems that need them.
    The fields of a request have their declared types; the reasons of a failed round keep
    the handler's names, which the stream translates one to one.  Rows load in the order of
    the table.  The share store is the one over a database.

    A signaling handler is split where it waits for the store, a client or a timer; the
    answer is a later input, which may come in any order with others, or never.  A store
    answers as the in-memory one does; its failures are inputs of their own.  A stream and
    a waiting handler are named by the number of their step, calls of the clock, the random
    source, a stream and the directory's key by a tick.  That drawn ids do not repeat
    ([ids_unique]) is a hypothesis of the theorems; that no delivery of a seal failed
    ([SignalTrace.calm]) is one of those about the table and presence.  A presence write is
    issued and lands, or fails, at any later time, in any order with others and also after
    a restart; what is said of the stored row has as hypothesis that the agent's landed in
    order ([SignalTrace.orderly]).  Rows of agent_revocations and agent_profiles that
    anti-entropy applies are inputs.  Revocations follow the adapter over the database
    (adapters/pg-directory-store.ts), whose indexes are made from the table at a start.
    Encoding a frame does not fail; frames have their declared types; a frame that comes
    while its stream's loop waits is not yet read.  The encoders of signed statements, the
    genesis root, the choice of a relay and the validators of a manifest are parameters.

    A request to the internal API is interrupted between any two statements; a statement
    is atomic, and fails before or after its effect.  The digits of a token have fuel 35,
    enough for 200 bits ([digits58_spec]); its loop has the fuel of its draws, and
    [generate_first] shows that enough fuel gives the first draw that is accepted.  That no
    row carries the mark of the node's own tombstones ([ApiLedger.marks_free]) is a
    hypothesis of the theorem on answered revocations.  Answers are decoded values; fields
    of an envelope have their declared types.  Of the rows that anti-entropy applies, only
    those of signals and their revocations are inputs of that node.

    ** Not modelled

    The libp2p and HTTP handlers (of relay-node.ts all but the session core and
    authentication: data frames of a stream, content deposits, timers; of
    directory-node.ts device transfers, submissions, pickups, the rows of the database that
    a returning agent is sent, manifest polls, relay-key queries, the discovery handler
    around its decision, construction and start-up), the PostgreSQL adapters (SQL text), the
    frame codecs over a third-party CBOR library, start-up code, tests, the demo and
    deployment files.  The prose of diagnostic fields and log lines is left out
    throughout. *)
From Stdlib Require Export ZArith Lia.
From Stdlib Require Import Ascii.
From stdpp Require Export base tactics list gmap strings sorting numbers.

(** * Scope, hints and tactics of the development *)

Declare Scope cello_scope.
Delimit Scope cello_scope with cello.

Create HintDb cello.

(** Invert a hypothesis, substitute, and drop it. *)
Ltac invert H := inversion H; subst; try clear H.

(** Case split on the discriminee of the first [if]/[match] of the goal or of a
    hypothesis, repeatedly, closing the branches that contradict the context. *)
Ltac split_matches := repeat (case_match; simplify_eq/=; try done).

(** Move every boolean test of the context to its propositional reading. *)
Ltac bools :=
  repeat match goal with
  | H : (_ && _)%bool = true |- _ => apply andb_true_iff in H as [? ?]
  | H : (_ || _)%bool = false |- _ => apply orb_false_iff in H as [? ?]
  | H : negb _ = true |- _ => apply negb_true_iff in H
  | H : negb _ = false |- _ => apply negb_false_iff in H
  | H : (_ <? _)%Z = true |- _ => apply Z.ltb_lt in H
  | H : (_ <? _)%Z = false |- _ => apply Z.ltb_ge in H
  | H : (_ <=? _)%Z = true |- _ => apply Z.leb_le in H
  | H : (_ <=? _)%Z = false |- _ => apply Z.leb_gt in H
  | H : (_ =? _)%nat = true |- _ => apply Nat.eqb_eq in H
  | H : (_ =? _)%Z = true |- _ => apply Z.eqb_eq in H
  | H : (_ =? _)%Z = false |- _ => apply Z.eqb_neq in H
  | H : bool_decide _ = true |- _ => apply bool_decide_eq_true in H
  | H : bool_decide _ = false |- _ => apply bool_decide_eq_false in H
  end.

(** * Errors as values *)

Inductive result (E A : Type) : Type :=
| Ok (a : A)
| Err (e : E).
Arguments Ok {E A} a.
Arguments Err {E A} e.

#[global] Instance result_ret {E} : MRet (result E) := fun _ => Ok.
#[global] Instance result_bind {E} : MBind (result E) :=
  fun _ _ k m => match m with Ok a => k a | Err e => Err e end.

#[global] Instance result_eq_dec `{EqDecision E, EqDecision A} : EqDecision (result E A).
Proof. solve_decision. Defined.

Lemma Ok_inj {E A} (a b : A) : @Ok E A a = Ok b → a = b.
Proof. congruence. Qed.

(** Run a check for its error only. *)
Definition guard_or {E} (b : bool) (e : E) : result E unit := if b then Ok tt else Err e.

Lemma guard_or_ok {E A} (b : bool) (e : E) (k : result E A) v :
  (_ ← guard_or b e; k) = Ok v ↔ b = true ∧ k = Ok v.
Proof. destruct b; cbn; naive_solver. Qed.

(** * Byte strings and hexadecimal *)

(** A [Uint8Array] is a byte string: Stdlib strings are lists of 8-bit characters. *)
Abbreviation bytes := string (only parsing).

Definition hex_digit (n : N) : ascii :=
  ascii_of_N (if (n <? 10)%N then (48 + n)%N else (87 + n)%N).

(** [Buffer.from(b).toString("hex")]: two lowercase digits per byte. *)
Fixpoint hex (b : bytes) : string :=
  match b with
  | EmptyString => EmptyString
  | String c r =>
      String (hex_digit (N_of_ascii c / 16))
        (String (hex_digit (N_of_ascii c mod 16)) (hex r))
  end.

Definition unhex_digit (a : ascii) : option N :=
  let n := N_of_ascii a in
  if ((48 <=? n) && (n <=? 57))%N then Some (n - 48)%N
  else if ((97 <=? n) && (n <=? 102))%N then Some (n - 87)%N
  else if ((65 <=? n) && (n <=? 70))%N then Some (n - 55)%N
  else None.

(** [Buffer.from(s, "hex")] on a well-formed string of hex digits (either case). *)
Fixpoint unhex (s : string) : option bytes :=
  match s with
  | EmptyString => Some EmptyString
  | String a (String b r) =>
      x ← unhex_digit a; y ← unhex_digit b; t ← unhex r;
      Some (String (ascii_of_N (16 * x + y)) t)
  | _ => None
  end.

Lemma hex_byte_roundtrip (c : ascii) :
  unhex_digit (hex_digit (N_of_ascii c / 16)) = Some (N_of_ascii c / 16)%N ∧
  unhex_digit (hex_digit (N_of_ascii c mod 16)) = Some (N_of_ascii c mod 16)%N ∧
  ascii_of_N (16 * (N_of_ascii c / 16) + N_of_ascii c mod 16) = c.
Proof. destruct c as [[][][][][][][][]]; vm_compute; auto. Qed.

Lemma unhex_hex (b : bytes) : unhex (hex b) = Some b.
Proof.
  induction b as [|c r IH]; [done|].
  destruct (hex_byte_roundtrip c) as (H1 & H2 & H3).
  cbn -[N.div N.modulo hex_digit unhex_digit ascii_of_N N.mul N.add].
  rewrite H1; cbn -[N.div N.modulo hex_digit unhex_digit ascii_of_N N.mul N.add].
  rewrite H2; cbn -[N.div N.modulo hex_digit unhex_digit ascii_of_N N.mul N.add].
  rewrite IH. cbn -[N.div N.modulo ascii_of_N N.mul N.add]. by rewrite H3.
Qed.

(** [Buffer.from(s, "hex")] on any string: decoding ends at the first pair that is
    not two hex digits, and a last single character is dropped. *)
Fixpoint hex_prefix (s : string) : bytes :=
  match s with
  | String a (String b r) =>
      match unhex_digit a, unhex_digit b with
      | Some x, Some y => String (ascii_of_N (16 * x + y)) (hex_prefix r)
      | _, _ => EmptyString
      end
  | _ => EmptyString
  end.

#[global] Instance hex_inj : Inj (=) (=) hex.
Proof. intros a b E. apply (f_equal unhex) in E. rewrite !unhex_hex in E. congruence. Qed.

Lemma hex_prefix_app (b : bytes) (s : string) : hex_prefix (hex b +:+ s) = b +:+ hex_prefix s.
Proof.
  induction b as [|c r IH]; [done|]. destruct (hex_byte_roundtrip c) as (H1 & H2 & H3).
  change (hex (String c r) +:+ s) with
    (String (hex_digit (N_of_ascii c / 16)) (String (hex_digit (N_of_ascii c mod 16)) (hex r +:+ s))).
  cbn -[N.div N.modulo hex_digit unhex_digit ascii_of_N N.mul N.add hex String.append].
  rewrite H1, H2, IH. by rewrite H3.
Qed.

Lemma hex_prefix_hex (b : bytes) : hex_prefix (hex b) = b.
Proof.
  induction b as [|c r IH]; [done|]. destruct (hex_byte_roundtrip c) as (H1 & H2 & H3).
  cbn -[N.div N.modulo hex_digit unhex_digit ascii_of_N N.mul N.add].
  rewrite H1, H2, IH. by rewrite H3.
Qed.

(** * Strings *)

Lemma str_app_cons c (a b : string) : String c a +:+ b = String c (a +:+ b).
Proof. reflexivity. Qed.

Lemma str_app_nil_l (a : string) : EmptyString +:+ a = a.
Proof. reflexivity. Qed.

Lemma str_app_nil_r (a : string) : a +:+ EmptyString = a.
Proof. induction a; [done|]. by rewrite str_app_cons, IHa. Qed.

Lemma str_app_assoc (a b c : string) : (a +:+ b) +:+ c = a +:+ (b +:+ c).
Proof. induction a; [done|]. by rewrite !str_app_cons, IHa. Qed.

Lemma str_app_length (a b : string) :
  String.length (a +:+ b) = String.length a + String.length b.
Proof. induction a; [done|]. rewrite str_app_cons. cbn. by rewrite IHa. Qed.

Lemma str_app_inj_len (a b c d : string) :
  String.length a = String.length c → a +:+ b = c +:+ d → a = c ∧ b = d.
Proof.
  revert c. induction a as [|x a IH]; intros [|y c] HL HE; try done.
  rewrite !str_app_cons in HE. injection HE as -> HE.
  injection HL as HL. destruct (IH c HL HE) as [-> ->]. done.
Qed.

Lemma str_app_inj_l (a b d : string) : a +:+ b = a +:+ d → b = d.
Proof. intros E. by apply str_app_inj_len in E as [_ ?]. Qed.

(** [Array.prototype.join] with the empty separator. *)
Definition sjoin (l : list string) : string := foldr String.append EmptyString l.

(** Joining is injective on lists of strings of one fixed width. *)
Lemma sjoin_inj_width w (l l' : list string) :
  w ≠ 0 →
  Forall (λ s, String.length s = w) l → Forall (λ s, String.length s = w) l' →
  sjoin l = sjoin l' → l = l'.
Proof.
  intros Hw Hl. revert l'. induction Hl as [|x l Hx _ IH]; intros l' Hl' E.
  - destruct Hl' as [|y l' Hy _]; [done|]. apply (f_equal String.length) in E.
    cbn in E. rewrite str_app_length in E. lia.
  - destruct Hl' as [|y l' Hy Hl'].
    + apply (f_equal String.length) in E. cbn in E. rewrite str_app_length in E. lia.
    + apply str_app_inj_len in E as [-> E]; [|lia]. f_equal. by apply IH.
Qed.

(** [a >= b] on strings. *)
Definition str_geb (a b : string) : bool := String.leb b a.

Lemma str_geb_total a b : str_geb a b = false → str_geb b a = true.
Proof.
  unfold str_geb. intros H. destruct (String.leb_total a b) as [|E]; [done|]. congruence.
Qed.

Lemma str_geb_antisym a b : str_geb a b = true → str_geb b a = true → a = b.
Proof. unfold str_geb. intros. by apply String.leb_antisym. Qed.

Lemma str_geb_trans a b c : str_geb a b = true → str_geb b c = true → str_geb a c = true.
Proof.
  unfold str_geb. intros H1 H2.
  assert (String.le c b) as H3 by (unfold String.le; by rewrite H2).
  assert (String.le b a) as H4 by (unfold String.le; by rewrite H1).
  pose proof (transitivity H3 H4) as H5. unfold String.le in H5.
  by apply Is_true_true_1 in H5.
Qed.

(** * Hash collisions *)

(** Hashes are parameters of the models. Theorems about authenticated data
    conclude "or two of the inputs hashed here collide", which names the finite
    list of inputs; nothing is assumed of the hash function. *)
Definition collision_among (H : string → string) (l : list string) : Prop :=
  ∃ x y, x ∈ l ∧ y ∈ l ∧ x ≠ y ∧ H x = H y.

Lemma collision_or_eq H l x y :
  x ∈ l → y ∈ l → H x = H y → x = y ∨ collision_among H l.
Proof.
  intros Hx Hy E. destruct (decide (x = y)); [by left|]. right. by exists x, y.
Qed.

Lemma collision_mono H l l' : l ⊆ l' → collision_among H l → collision_among H l'.
Proof. intros S (x & y & Hx & Hy & HN & HE). exists x, y. set_solver. Qed.

(** An injective function that is never empty: what the examples use as a hash. *)
Definition tag_hash (s : string) : string := "h" +:+ s.

Lemma tag_hash_nonempty s : tag_hash s ≠ EmptyString.
Proof. done. Qed.

(** * JavaScript numbers *)

(** An IEEE double as far as the modelled code can tell two of them apart: an
    integer, a fraction between [z] and [z+1], an infinity, or NaN. *)
Inductive jsnum : Type :=
| JInt (z : Z)
| JFrac (z : Z)
| JPosInf
| JNegInf
| JNaN.

#[global] Instance jsnum_eq_dec : EqDecision jsnum.
Proof. solve_decision. Defined.

(** [x > n] for an integer [n]; every comparison with NaN is false. *)
Definition js_gtb (x : jsnum) (n : Z) : bool :=
  match x with
  | JInt z => (n <? z)%Z
  | JFrac z => (n <=? z)%Z
  | JPosInf => true
  | JNegInf | JNaN => false
  end.

Definition js_is_integer (x : jsnum) : bool := match x with JInt _ => true | _ => false end.

(** [Number(n)] of a bigint: the nearest double, ties to even. *)
Definition number_of_bigint (z : Z) : jsnum :=
  let a := Z.abs z in
  let r :=
    if (a <=? 2 ^ 53)%Z then a
    else
      let e := (Z.log2 a - 52)%Z in
      let q := Z.shiftr a e in
      let rest := (a - Z.shiftl q e)%Z in
      let half := Z.shiftl 1 (e - 1) in
      let up := (half <? rest)%Z || ((rest =? half)%Z && Z.odd q) in
      Z.shiftl (if up then q + 1 else q)%Z e in
  if (2 ^ 1024 <=? r)%Z then (if (z <? 0)%Z then JNegInf else JPosInf)
  else JInt (Z.sgn z * r).

Lemma number_of_bigint_small z : (- 2 ^ 53 <= z <= 2 ^ 53)%Z → number_of_bigint z = JInt z.
Proof.
  intros Hz. unfold number_of_bigint. cbv zeta.
  assert (Z.abs z <=? 2 ^ 53 = true)%Z as -> by (apply Z.leb_le; lia).
  assert (2 ^ 1024 <=? Z.abs z = false)%Z as ->.
  { apply Z.leb_gt, (Z.le_lt_trans _ (2 ^ 53)); [lia|reflexivity]. }
  by rewrite Z.mul_comm, Z.abs_sgn.
Qed.

(** ** The 32-bit operators *)

Definition to_int32 (z : Z) : Z :=
  let m := (z mod 2 ^ 32)%Z in if (m <? 2 ^ 31)%Z then m else (m - 2 ^ 32)%Z.

(** [a & 1], [a >> 1] and [1 << n]. *)
Definition js_and1 (a : Z) : Z := Z.land (to_int32 a) 1.
Definition js_sar1 (a : Z) : Z := Z.shiftr (to_int32 a) 1.
Definition js_shl1 (n : Z) : Z := to_int32 (Z.shiftl 1 (n mod 32)).

Lemma to_int32_small z : (0 <= z < 2 ^ 31)%Z → to_int32 z = z.
Proof.
  intros H. unfold to_int32. cbv zeta. rewrite Z.mod_small by lia.
  destruct (z <? 2 ^ 31)%Z eqn:E; bools; lia.
Qed.

Lemma js_shl1_small n : (0 <= n < 31)%Z → js_shl1 n = (2 ^ n)%Z.
Proof.
  intros H. unfold js_shl1. rewrite Z.mod_small by lia. rewrite Z.shiftl_1_l.
  apply to_int32_small. split; [apply Z.pow_nonneg; lia|].
  apply Z.pow_lt_mono_r; lia.
Qed.

(** * Lists *)

Lemma filter_elem {A} (p : A → bool) l x : x ∈ List.filter p l ↔ x ∈ l ∧ p x = true.
Proof. by rewrite !list_elem_of_In, List.filter_In. Qed.

Lemma find_some_elem {A} (f : A → bool) l x :
  List.find f l = Some x → x ∈ l ∧ f x = true.
Proof. intros H. apply List.find_some in H. by rewrite list_elem_of_In. Qed.

(** The sum of a measure over a list. *)
Fixpoint sum_by {A} (f : A → Z) (l : list A) : Z :=
  match l with [] => 0%Z | x :: r => (f x + sum_by f r)%Z end.

Lemma sum_by_app {A} (f : A → Z) l k : sum_by f (l ++ k) = (sum_by f l + sum_by f k)%Z.
Proof. induction l as [|x l IH]; cbn; [done|]. rewrite IH. lia. Qed.

Lemma sum_by_nonneg {A} (f : A → Z) l : (∀ x, x ∈ l → 0 <= f x)%Z → (0 <= sum_by f l)%Z.
Proof.
  intros H. induction l as [|x l IH]; cbn; [lia|].
  assert (0 <= f x)%Z by (apply H; left).
  assert (0 <= sum_by f l)%Z by (apply IH; intros; apply H; by right). lia.
Qed.

#[export] Hint Resolve sum_by_nonneg : cello.

(** The first element with a given key is the only one when keys are distinct. *)
Lemma find_by_key {A} (key : A → Z) (l : list A) x :
  NoDup (map key l) → x ∈ l → List.find (λ y, key y =? key x)%Z l = Some x.
Proof.
  induction l as [|y l IH]; [by intros _ ?%not_elem_of_nil|].
  cbn. intros [Hn Hd]%list.NoDup_cons [->|Hx]%elem_of_cons.
  - by rewrite Z.eqb_refl.
  - destruct (key y =? key x)%Z eqn:E; bools; [|by apply IH].
    exfalso. apply Hn. rewrite E. by apply (list_elem_of_fmap_2 key).
Qed.

(** Filling a map by successive insertions. *)
Definition insert_all {K V} `{Countable K} (m : gmap K V) (l : list (K * V)) : gmap K V :=
  foldl (λ m e, <[e.1 := e.2]> m) m l.

Lemma insert_all_lookup {K V} `{Countable K} (l : list (K * V)) k v :
  NoDup (map fst l) → insert_all ∅ l !! k = Some v ↔ (k, v) ∈ l.
Proof.
  unfold insert_all. induction l as [|[k' v'] l IH] using rev_ind; intros Hd.
  - cbn. rewrite lookup_empty. split; [done|by intros ?%not_elem_of_nil].
  - rewrite map_app in Hd. apply list.NoDup_app in Hd as (Hd & Hn & _).
    rewrite foldl_app, elem_of_app, list_elem_of_singleton. cbn. rewrite lookup_insert.
    case_decide as E; [subst|].
    + split; [intros [= ->]; by right|]. intros [Hin|?]; [|congruence].
      exfalso. apply (Hn k); [by apply (list_elem_of_fmap_2 fst) in Hin|left].
    + rewrite IH by done. split; [by left|]. intros [?|?]; [done|congruence].
Qed.

Lemma insert_all_map {A K V} `{Countable K} (f : A → K * V) (l : list A) (m : gmap K V) :
  foldl (λ m x, <[(f x).1 := (f x).2]> m) m l = insert_all m (map f l).
Proof. revert m. induction l as [|x l IH]; intros m; [done|]. cbn. by rewrite IH. Qed.
