(* ===== verification/Text.v ===== *)
(** Text encodings the components share: decimal numbers, separators, and how
    a string built with separators is taken apart again. *)
From S2P Require Import Prelude.
From Stdlib Require Import Ascii.
From stdpp Require Export pretty.

Module Text.

(** * Text functions of the language, on ASCII text *)

(** The ASCII characters of [\s], which [trim] removes too. *)
Definition is_space (c : ascii) : bool :=
  let n := N_of_ascii c in (((9 <=? n) && (n <=? 13)) || (n =? 32))%N.

Definition is_digit (c : ascii) : bool :=
  let n := N_of_ascii c in ((48 <=? n) && (n <=? 57))%N.

Fixpoint filter_chars (p : ascii → bool) (s : string) : string :=
  match s with
  | EmptyString => EmptyString
  | String c r => if p c then String c (filter_chars p r) else filter_chars p r
  end.

Fixpoint all_chars (p : ascii → bool) (s : string) : bool :=
  match s with EmptyString => true | String c r => p c && all_chars p r end.

Fixpoint trim_start (s : string) : string :=
  match s with
  | String c r => if is_space c then trim_start r else s
  | EmptyString => EmptyString
  end.

Fixpoint trim_end (s : string) : string :=
  match s with
  | EmptyString => EmptyString
  | String c r =>
      match trim_end r with
      | EmptyString => if is_space c then EmptyString else String c EmptyString
      | r' => String c r'
      end
  end.

Definition trim (s : string) : string := trim_end (trim_start s).

Definition lower_char (c : ascii) : ascii :=
  let n := N_of_ascii c in
  if ((65 <=? n) && (n <=? 90))%N then ascii_of_N (n + 32) else c.

(** [toLowerCase] on ASCII text. *)
Fixpoint to_lower (s : string) : string :=
  match s with EmptyString => EmptyString | String c r => String (lower_char c) (to_lower r) end.

(** The parts around the last occurrence of [sep] that has a character after it. *)
Fixpoint last_split (sep : ascii) (s : string) : option (string * string) :=
  match s with
  | EmptyString => None
  | String c r =>
      match last_split sep r with
      | Some (a, b) => Some (String c a, b)
      | None => if bool_decide (c = sep) && negb (bool_decide (r = EmptyString))
                then Some (EmptyString, r) else None
      end
  end.

Fixpoint strip_prefix (p s : string) : option string :=
  match p, s with
  | EmptyString, _ => Some s
  | String a p, String b s => if bool_decide (a = b) then strip_prefix p s else None
  | _, _ => None
  end.

(** Position of the first occurrence, and of the last. *)
Fixpoint indexOf (c : ascii) (s : string) : option nat :=
  match s with
  | EmptyString => None
  | String d r => if bool_decide (c = d) then Some 0 else S <$> indexOf c r
  end.

Fixpoint lastIndexOf (c : ascii) (s : string) : option nat :=
  match s with
  | EmptyString => None
  | String d r =>
      match lastIndexOf c r with
      | Some i => Some (S i)
      | None => if bool_decide (c = d) then Some 0 else None
      end
  end.

(** What a test for truth makes of a text that may be missing. *)
Definition truthy (o : option string) : option string :=
  match o with Some EmptyString => None | _ => o end.

(** * Characters of a string *)

Fixpoint has_char (c : ascii) (s : string) : bool :=
  match s with
  | EmptyString => false
  | String d r => bool_decide (c = d) || has_char c r
  end.

Lemma has_char_app c a b : has_char c (a +:+ b) = has_char c a || has_char c b.
Proof.
  induction a as [|d a IH]; [done|]. rewrite str_app_cons. cbn. by rewrite IH, orb_assoc.
Qed.

Lemma has_char_cons c d s : has_char c (String d s) = bool_decide (c = d) || has_char c s.
Proof. reflexivity. Qed.

Lemma str_cons_length c s : String.length (String c s) = S (String.length s).
Proof. reflexivity. Qed.

(** Cutting at the first separator. *)
Lemma cut_at c a b a' b' :
  has_char c a = false → has_char c a' = false →
  a +:+ String c b = a' +:+ String c b' → a = a' ∧ b = b'.
Proof.
  revert a'. induction a as [|x a IH]; intros [|x' a'] Ha Ha' E;
    rewrite ?str_app_nil_l, ?str_app_cons in E; cbn in Ha, Ha'.
  - by injection E.
  - injection E as -> _. by rewrite bool_decide_eq_true_2 in Ha'.
  - injection E as -> _. by rewrite bool_decide_eq_true_2 in Ha.
  - injection E as -> E. apply orb_false_iff in Ha as [_ Ha]. apply orb_false_iff in Ha' as [_ Ha'].
    by destruct (IH a' Ha Ha' E) as [-> ->].
Qed.

(** A window at the end, or at the start, of a concatenation. *)
Lemma window_end s c a b :
  s +:+ c = a +:+ b → String.length b <= String.length c → ∃ d, c = d +:+ b.
Proof.
  revert a. induction s as [|x s IH]; intros a E Hl.
  - rewrite str_app_nil_l in E. by exists a.
  - destruct a as [|y a].
    + rewrite str_app_nil_l in E. subst b. rewrite str_app_cons in Hl. cbn in Hl.
      rewrite str_app_length in Hl. lia.
    + rewrite !str_app_cons in E. injection E as _ E. by apply (IH a).
Qed.

Lemma window_start c s a b :
  c +:+ s = a +:+ b → String.length a <= String.length c → ∃ d, c = a +:+ d.
Proof.
  revert c. induction a as [|x a IH]; intros c E Hl; [by exists c|].
  destruct c as [|y c]; [cbn in Hl; lia|]. rewrite !str_app_cons in E. injection E as -> E.
  cbn in Hl. destruct (IH c E ltac:(lia)) as [d ->]. exists d. by rewrite str_app_cons.
Qed.

(** * Decimal numbers *)

Lemma pretty_N_go_char (c : ascii) (x : N) (s : string) :
  (∀ d, (d < 10)%N → c ≠ pretty_N_char d) → has_char c (pretty_N_go x s) = has_char c s.
Proof.
  intros Hc. revert s. induction (N.lt_wf_0 x) as [x _ IH]; intros s.
  destruct (decide (0 < x)%N) as [Hx|].
  2:{ assert (x = 0)%N as -> by lia. by rewrite pretty_N_go_0. }
  rewrite pretty_N_go_step by done. rewrite IH by (by apply N.div_lt).
  rewrite has_char_cons. rewrite bool_decide_eq_false_2; [done|].
  apply Hc. by apply N.mod_lt.
Qed.

Lemma digit_char (d : N) : pretty_N_char d ∈ String.list_ascii_of_string "0123456789".
Proof. unfold pretty_N_char. repeat case_match; set_solver. Qed.

(** The decimal form of an integer holds digits and a minus sign only. *)
Lemma pretty_Z_char (c : ascii) (z : Z) :
  c ∉ String.list_ascii_of_string "-0123456789" → has_char c (pretty z) = false.
Proof.
  intros Hc.
  assert (∀ n : N, has_char c (pretty n) = false) as HN.
  { intros n. unfold pretty, pretty_N. case_decide.
    - cbn. rewrite bool_decide_eq_false_2; [done|]. intros ->. apply Hc. set_solver.
    - apply pretty_N_go_char. intros d _ ->. apply Hc. cbn. right. apply digit_char. }
  destruct z as [|p|p].
  - apply (HN 0%N).
  - apply (HN (Npos p)).
  - change (pretty (Zneg p)) with ("-" +:+ pretty (Npos p)).
    rewrite has_char_app, HN. cbn. rewrite bool_decide_eq_false_2; [done|].
    intros ->. apply Hc. set_solver.
Qed.

Lemma pretty_N_go_length (k : nat) (x : N) (s : string) :
  (x < 10 ^ N.of_nat k)%N → String.length (pretty_N_go x s) <= String.length s + k.
Proof.
  revert x s. induction k as [|k IH]; intros x s Hx.
  - change (10 ^ N.of_nat 0)%N with 1%N in Hx. assert (x = 0)%N as -> by lia.
    rewrite pretty_N_go_0. lia.
  - destruct (decide (0 < x)%N) as [Hp|].
    2:{ assert (x = 0)%N as -> by lia. rewrite pretty_N_go_0. lia. }
    rewrite pretty_N_go_step by done.
    rewrite Nat2N.inj_succ, N.pow_succ_r in Hx by lia.
    assert (x `div` 10 < 10 ^ N.of_nat k)%N as Hd by (apply N.Div0.div_lt_upper_bound; lia).
    pose proof (IH _ (String (pretty_N_char (x `mod` 10)) s) Hd) as E.
    rewrite str_cons_length in E. lia.
Qed.

Lemma pretty_Z_length (k : nat) (z : Z) :
  (0 < k) → (0 <= z < 10 ^ Z.of_nat k)%Z → String.length (pretty z) <= k.
Proof.
  intros Hk Hz. destruct z as [|p|p]; [cbn; lia| |lia].
  change (pretty (Zpos p)) with (pretty_N_go (Npos p) EmptyString).
  pose proof (pretty_N_go_length k (Npos p) EmptyString) as E. cbn in E.
  apply E. apply N2Z.inj_lt. rewrite N2Z.inj_pow, nat_N_Z. cbn. lia.
Qed.

(** * Strings of 64 characters without a colon, as hex digests are *)

Definition hex64 (s : string) : Prop := String.length s = 64 ∧ has_char ":" s = false.

#[global] Instance hex64_dec s : Decision (hex64 s).
Proof. unfold hex64. solve_decision. Defined.

Lemma sjoin_cons x l : sjoin (x :: l) = x +:+ sjoin l.
Proof. reflexivity. Qed.

Lemma hex64_join l : Forall hex64 l → has_char ":" (sjoin l) = false.
Proof.
  induction 1 as [|x l [_ Hx] _ IH]; [done|]. by rewrite sjoin_cons, has_char_app, Hx, IH.
Qed.

(** A digest used as a hash in the examples: 64 decimal digits of a running
    remainder. *)
Fixpoint demo_fold (acc : N) (s : string) : N :=
  match s with
  | EmptyString => acc
  | String c r => demo_fold ((acc * 257 + N_of_ascii c + 1) mod 18446744073709551557)%N r
  end.

Fixpoint demo_digits (k : nat) (n : N) : string :=
  match k with
  | O => EmptyString
  | S k => String (pretty_N_char (n mod 10)) (demo_digits k (n / 10))
  end.

Definition demo_digest (s : string) : string := demo_digits 64 (demo_fold 7 s).

Lemma demo_digits_ok k n :
  String.length (demo_digits k n) = k ∧ has_char ":" (demo_digits k n) = false.
Proof.
  revert n. induction k as [|k IH]; intros n; [done|]. destruct (IH (n / 10)%N) as [Hl Hc].
  cbn [demo_digits]. rewrite str_cons_length, Hl, has_char_cons, Hc. split; [done|].
  rewrite bool_decide_eq_false_2; [done|]. intros E. pose proof (digit_char (n mod 10)) as D.
  rewrite <- E in D. set_solver.
Qed.

Lemma demo_digest_hex64 s : hex64 (demo_digest s).
Proof. apply demo_digits_ok. Qed.

End Text.
