(* ===== verification/JsMap.v ===== *)
(** The JavaScript [Map]: an association list in insertion order.  Setting a key
    that is present keeps its place; deleting and setting again moves it to the
    end.  Iteration order is the order of the list. *)
From S2P Require Import Prelude.

Module JsMap.

Section Map.
Context {K V : Type} `{EqDecision K}.

Definition jsmap : Type := list (K * V).

Fixpoint jget (m : jsmap) (k : K) : option V :=
  match m with
  | [] => None
  | (k', v) :: r => if decide (k' = k) then Some v else jget r k
  end.

Definition jhas (m : jsmap) (k : K) : bool := bool_decide (is_Some (jget m k)).

Fixpoint jset (m : jsmap) (k : K) (v : V) : jsmap :=
  match m with
  | [] => [(k, v)]
  | (k', v') :: r => if decide (k' = k) then (k', v) :: r else (k', v') :: jset r k v
  end.

Fixpoint jdel (m : jsmap) (k : K) : jsmap :=
  match m with
  | [] => []
  | (k', v) :: r => if decide (k' = k) then r else (k', v) :: jdel r k
  end.

Definition jkeys (m : jsmap) : list K := map fst m.
Definition jvals (m : jsmap) : list V := map snd m.

(** Keys are unique: the invariant of every map built with [jset] and [jdel]. *)
Definition jwf (m : jsmap) : Prop := NoDup (jkeys m).

Lemma jget_jset m k v k' : jget (jset m k v) k' = if decide (k = k') then Some v else jget m k'.
Proof.
  induction m as [|[q w] m IH]; cbn.
  - done.
  - destruct (decide (q = k)) as [->|]; cbn.
    + by destruct (decide (k = k')).
    + destruct (decide (q = k')) as [->|]; [|done]. by rewrite decide_False by done.
Qed.

Lemma jget_jset_eq m k v : jget (jset m k v) k = Some v.
Proof. by rewrite jget_jset, decide_True. Qed.

Lemma jget_jset_ne m k v k' : k ≠ k' → jget (jset m k v) k' = jget m k'.
Proof. intros. by rewrite jget_jset, decide_False. Qed.

Lemma jget_elem m k v : jget m k = Some v → (k, v) ∈ m.
Proof.
  induction m as [|[q w] m IH]; cbn; [done|].
  case_decide; [subst; intros [= ->]; left|]. intros ?. right. by apply IH.
Qed.

Lemma jget_elem_iff m k v : jwf m → jget m k = Some v ↔ (k, v) ∈ m.
Proof.
  intros Hwf. split; [apply jget_elem|]. unfold jwf, jkeys in Hwf.
  induction m as [|[q w] m IH]; [by intros ?%not_elem_of_nil|]. cbn in *.
  apply list.NoDup_cons in Hwf as [Hn Hwf]. intros [[= -> ->]|Hm]%elem_of_cons.
  - by rewrite decide_True.
  - case_decide as E; [|by apply IH]. subst. exfalso. apply Hn.
    by apply (list_elem_of_fmap_2 fst) in Hm.
Qed.

Lemma jget_None m k : jget m k = None ↔ k ∉ jkeys m.
Proof.
  induction m as [|[q w] m IH]; cbn.
  - split; [intros _ ?%not_elem_of_nil; done|done].
  - case_decide as E.
    + subst. split; [done|]. intros Hn. exfalso. apply Hn. left.
    + rewrite IH, not_elem_of_cons. naive_solver.
Qed.

Lemma jkeys_jset m k v :
  jkeys (jset m k v) = if decide (k ∈ jkeys m) then jkeys m else jkeys m ++ [k].
Proof.
  induction m as [|[q w] m IH]; cbn.
  - done.
  - destruct (decide (q = k)) as [->|Hne]; cbn.
    + rewrite decide_True; [done|left].
    + unfold jkeys in *. rewrite IH. destruct (decide (k ∈ map fst m)) as [Hin|Hin].
      * rewrite decide_True; [done|by right].
      * rewrite decide_False; [done|]. rewrite not_elem_of_cons. naive_solver.
Qed.

Lemma elem_jset m k v e : e ∈ jset m k v → e ∈ m ∨ e.2 = v.
Proof.
  induction m as [|[q w] m IH]; cbn.
  - intros ->%list_elem_of_singleton. by right.
  - case_decide; rewrite !elem_of_cons; [intros [->|?]; [by right|by left; right]|].
    intros [->|He]; [by left; left|]. destruct (IH He); [by left; right|by right].
Qed.

Lemma jwf_jset m k v : jwf m → jwf (jset m k v).
Proof.
  unfold jwf. rewrite jkeys_jset. case_decide as E; [done|]. intros Hm.
  apply list.NoDup_app. split; [done|]. split; [|apply NoDup_singleton].
  intros x Hx ->%list_elem_of_singleton. done.
Qed.

Lemma jset_fresh m k v : k ∉ jkeys m → jset m k v = m ++ [(k, v)].
Proof.
  induction m as [|[q w] m IH]; cbn; [done|]. rewrite not_elem_of_cons. intros [Hne Hn].
  rewrite decide_False by congruence. by rewrite IH.
Qed.

Lemma jdel_sublist m k : jdel m k `sublist_of` m.
Proof.
  induction m as [|[q w] m IH]; cbn; [done|]. case_decide.
  - by apply sublist_cons.
  - by apply sublist_skip.
Qed.

Lemma jwf_jdel m k : jwf m → jwf (jdel m k).
Proof. intros Hm. eapply sublist_NoDup; [exact Hm|]. apply fmap_sublist, jdel_sublist. Qed.

Lemma jget_jdel m k k' : jwf m → jget (jdel m k) k' = if decide (k = k') then None else jget m k'.
Proof.
  unfold jwf, jkeys. induction m as [|[q w] m IH]; cbn; intros Hwf.
  - by case_decide.
  - apply list.NoDup_cons in Hwf as [Hn Hwf]. destruct (decide (q = k)) as [->|Hne].
    + case_decide as E; [subst|done]. apply jget_None, Hn.
    + cbn. rewrite IH by done. destruct (decide (q = k')) as [->|]; [|done].
      by rewrite decide_False by done.
Qed.

Lemma jkeys_jdel m k : jkeys (jdel m k) ⊆ jkeys m.
Proof.
  apply sublist_subseteq, fmap_sublist, jdel_sublist.
Qed.

Lemma jdel_absent m k : k ∉ jkeys m → jdel m k = m.
Proof.
  induction m as [|[q w] m IH]; cbn; [done|]. rewrite not_elem_of_cons. intros [? ?].
  rewrite decide_False by congruence. by rewrite IH.
Qed.

(** Filtering keeps the invariant and acts pointwise. *)
Lemma jwf_filter (P : K * V → bool) m : jwf m → jwf (List.filter P m).
Proof.
  unfold jwf, jkeys. induction m as [|[q w] m IH]; cbn; [done|].
  intros [Hn Hm]%list.NoDup_cons. destruct (P (q, w)); cbn; [|by apply IH].
  apply list.NoDup_cons. split; [|by apply IH]. intros Hin. apply Hn.
  apply list_elem_of_fmap in Hin as ([a b] & -> & Hin).
  apply list_elem_of_In, List.filter_In in Hin as [Hin _].
  apply list_elem_of_In in Hin. by apply (list_elem_of_fmap_2 fst) in Hin.
Qed.

Lemma jget_filter (P : K * V → bool) m k :
  jwf m → jget (List.filter P m) k = (v ← jget m k; if P (k, v) then Some v else None).
Proof.
  intros Hwf. destruct (jget m k) as [v|] eqn:E; cbn.
  - apply jget_elem in E as Hin. destruct (P (k, v)) eqn:EP.
    + apply jget_elem_iff; [by apply jwf_filter|]. apply list_elem_of_In, List.filter_In.
      split; [by apply list_elem_of_In|done].
    + destruct (jget (List.filter P m) k) as [w|] eqn:E'; [|done].
      apply jget_elem, list_elem_of_In, List.filter_In in E' as [Hin' HP].
      apply list_elem_of_In in Hin'. apply jget_elem_iff in Hin'; [|done]. congruence.
  - destruct (jget (List.filter P m) k) as [w|] eqn:E'; [|done].
    apply jget_elem, list_elem_of_In, List.filter_In in E' as [Hin' HP].
    apply list_elem_of_In in Hin'. apply jget_elem_iff in Hin'; [|done]. congruence.
Qed.

End Map.

Arguments jsmap K V : clear implicits.

(** The total measure of a map after an update. *)
Section Sum.
Context {K V : Type} `{EqDecision K} (f : V → Z).

Definition jsum (m : jsmap K V) : Z := sum_by (λ e, f e.2) m.

Lemma jsum_jset m k v :
  jsum (jset m k v) = (jsum m + f v - from_option f 0 (jget m k))%Z.
Proof.
  unfold jsum. induction m as [|[q w] m IH]; cbn; [lia|].
  destruct (decide (q = k)) as [->|]; cbn; [lia|]. rewrite IH. lia.
Qed.

Lemma jsum_jdel m k : jsum (jdel m k) = (jsum m - from_option f 0 (jget m k))%Z.
Proof.
  unfold jsum. induction m as [|[q w] m IH]; cbn; [lia|].
  destruct (decide (q = k)) as [->|]; cbn; [lia|]. rewrite IH. lia.
Qed.
End Sum.

(** The number of entries with a property. *)
Section Count.
Context {K V : Type} `{EqDecision K} (P : K * V → bool).

Definition jcount (m : jsmap K V) : nat := length (List.filter P m).

Lemma jcount_cons e m : jcount (e :: m) = Nat.b2n (P e) + jcount m.
Proof. unfold jcount. cbn. by destruct (P e). Qed.

Lemma jcount_jset m k v :
  jcount (jset m k v) + from_option (λ v0, Nat.b2n (P (k, v0))) 0 (jget m k) = jcount m + Nat.b2n (P (k, v)).
Proof.
  induction m as [|[q w] m IH]; cbn [jset jget]; [rewrite jcount_cons; cbn; lia|].
  destruct (decide (q = k)) as [->|]; rewrite !jcount_cons; cbn [from_option]; lia.
Qed.

Lemma jcount_jdel m k :
  jcount (jdel m k) + from_option (λ v0, Nat.b2n (P (k, v0))) 0 (jget m k) = jcount m.
Proof.
  induction m as [|[q w] m IH]; cbn [jdel jget]; [done|].
  destruct (decide (q = k)) as [->|]; rewrite !jcount_cons; cbn [from_option]; lia.
Qed.

End Count.

End JsMap.
