(* ===== verification/Bytes.v ===== *)
(** Byte buffers: slices, writes at an offset, and big-endian integers, as the
    fixed-width encodings use [Uint8Array] and [DataView]. *)
From Stdlib Require Import Ascii.
From S2P Require Import Prelude.

Module Bytes.

(** * Slices *)

Fixpoint str_take (n : nat) (s : bytes) : bytes :=
  match n, s with S n, String c r => String c (str_take n r) | _, _ => EmptyString end.

Fixpoint str_drop (n : nat) (s : bytes) : bytes :=
  match n, s with S n, String _ r => str_drop n r | _, _ => s end.

Lemma str_take_drop n s : str_take n s +:+ str_drop n s = s.
Proof.
  revert s. induction n as [|n IH]; intros [|c s]; try done. cbn [str_take str_drop].
  by rewrite str_app_cons, IH.
Qed.

Lemma str_take_app n a b : String.length a = n → str_take n (a +:+ b) = a.
Proof.
  revert n. induction a as [|c a IH]; intros n <-; [done|]. rewrite str_app_cons. cbn. by rewrite IH.
Qed.

Lemma str_drop_app n a b : String.length a = n → str_drop n (a +:+ b) = b.
Proof. revert n. induction a as [|c a IH]; intros n <-; [done|]. rewrite str_app_cons. cbn. by rewrite IH. Qed.

Lemma str_take_length n s : n <= String.length s → String.length (str_take n s) = n.
Proof. revert s. induction n as [|n IH]; intros [|c s] Hn; cbn in *; try lia. rewrite IH; lia. Qed.

Lemma str_drop_length n s : String.length (str_drop n s) = String.length s - n.
Proof. revert s. induction n as [|n IH]; intros [|c s]; cbn; try lia. apply IH. Qed.

(** [new Uint8Array(n)] *)
Fixpoint zeros (n : nat) : bytes :=
  match n with O => EmptyString | S n => String "000" (zeros n) end.

Lemma zeros_length n : String.length (zeros n) = n.
Proof. induction n; cbn; congruence. Qed.

Lemma zeros_app n m : zeros (n + m) = zeros n +:+ zeros m.
Proof. induction n; [done|]. cbn. by rewrite str_app_cons, IHn. Qed.

(** [buf.set(src, off)]: a range error when [src] does not fit. *)
Definition set_bytes (buf : bytes) (off : nat) (src : bytes) : option bytes :=
  if (off + String.length src <=? String.length buf)%nat
  then Some (str_take off buf +:+ (src +:+ str_drop (off + String.length src) buf)) else None.

Lemma set_bytes_app a z b src off :
  String.length a = off → String.length z = String.length src →
  set_bytes (a +:+ (z +:+ b)) off src = Some (a +:+ (src +:+ b)).
Proof.
  intros Ha Hz. unfold set_bytes. rewrite !str_app_length.
  replace (_ <=? _)%nat with true by (symmetry; apply Nat.leb_le; lia).
  rewrite (str_take_app off) by done. rewrite <- (str_app_assoc a z b).
  by rewrite (str_drop_app (off + String.length src)) by (rewrite str_app_length; lia).
Qed.

Lemma set_bytes_start z b src :
  String.length z = String.length src → set_bytes (z +:+ b) 0 src = Some (src +:+ b).
Proof. intros Hz. exact (set_bytes_app EmptyString z b src 0 eq_refl Hz). Qed.

(** * Big-endian integers *)

(** The low [n] bytes of [z]: [setBigUint64] when [n] is 8. *)
Fixpoint be_bytes (n : nat) (z : Z) : bytes :=
  match n with
  | O => EmptyString
  | S n => String (ascii_of_N (Z.to_N ((z / 256 ^ Z.of_nat n) mod 256))) (be_bytes n z)
  end.

Fixpoint be_fold (acc : Z) (s : bytes) : Z :=
  match s with
  | EmptyString => acc
  | String c r => be_fold (acc * 256 + Z.of_N (N_of_ascii c)) r
  end.

(** [getBigUint64] of eight bytes. *)
Definition be_value (s : bytes) : Z := be_fold 0 s.

Lemma be_bytes_length n z : String.length (be_bytes n z) = n.
Proof. induction n; cbn; congruence. Qed.

Lemma byte_range c : (0 <= Z.of_N (N_of_ascii c) < 256)%Z.
Proof. pose proof (N_ascii_bounded c). lia. Qed.

Lemma be_fold_acc acc s : be_fold acc s = (acc * 256 ^ Z.of_nat (String.length s) + be_value s)%Z.
Proof.
  unfold be_value. revert acc. induction s as [|c s IH]; intros acc; [cbn; lia|].
  cbn [be_fold String.length]. rewrite (IH (acc * 256 + _)%Z), (IH (0 * 256 + _)%Z), Nat2Z.inj_succ, Z.pow_succ_r by lia.
  ring.
Qed.

Lemma be_value_range s : (0 <= be_value s < 256 ^ Z.of_nat (String.length s))%Z.
Proof.
  induction s as [|c s IH]; [cbn; lia|]. unfold be_value. cbn [be_fold String.length].
  rewrite be_fold_acc, Nat2Z.inj_succ, Z.pow_succ_r by lia. pose proof (byte_range c). nia.
Qed.

Lemma be_value_bytes n z : be_value (be_bytes n z) = (z mod 256 ^ Z.of_nat n)%Z.
Proof.
  induction n as [|n IH]; [cbn; by rewrite Z.mod_1_r|].
  unfold be_value. cbn [be_bytes be_fold].
  assert (0 <= (z / 256 ^ Z.of_nat n) mod 256 < 256)%Z as Hb by (apply Z.mod_pos_bound; lia).
  rewrite N_ascii_embedding by lia. rewrite Z2N.id by lia.
  rewrite be_fold_acc, IH, be_bytes_length, Nat2Z.inj_succ, Z.pow_succ_r by lia.
  rewrite (Z.mul_comm 256), (Z.rem_mul_r z (256 ^ Z.of_nat n) 256) by lia. ring.
Qed.

Lemma be_value_inj s s' : String.length s = String.length s' → be_value s = be_value s' → s = s'.
Proof.
  revert s'. induction s as [|c s IH]; intros [|c' s'] Hl E; try done. injection Hl as Hl.
  unfold be_value in E. cbn [be_fold] in E. rewrite !be_fold_acc, Hl in E.
  pose proof (be_value_range s) as R. pose proof (be_value_range s') as R'. rewrite Hl in R.
  set (P := (256 ^ Z.of_nat (String.length s'))%Z) in *.
  assert (Z.of_N (N_of_ascii c) = Z.of_N (N_of_ascii c')) as Ec by nia.
  assert (be_value s = be_value s') as Ev by (rewrite Ec in E; lia).
  f_equal; [|by apply IH]. apply N2Z.inj in Ec.
  by rewrite <- (ascii_N_embedding c), <- (ascii_N_embedding c'), Ec.
Qed.

Lemma be_bytes_value n s : String.length s = n → be_bytes n (be_value s) = s.
Proof.
  intros Hl. apply be_value_inj; [by rewrite be_bytes_length|].
  rewrite be_value_bytes. apply Z.mod_small. rewrite <- Hl. apply be_value_range.
Qed.

End Bytes.
