(* ===== verification/Effects.v ===== *)
(** Actions on a world with exceptions, as asynchronous code runs them one at a
    time: an exception keeps the effects made before it, and a handler may
    catch it.  With the weakest preconditions that the proofs about such code
    are carried out in. *)
From S2P Require Import Prelude.

Module Effects.

(** What happens to a call that leaves the process. *)
Inductive fate : Type := Works | FailsBefore | FailsAfter.

Definition act (W E A : Type) : Type := W → W * result E A.

#[global] Instance act_ret {W E} : MRet (act W E) := λ _ a w, (w, Ok a).
#[global] Instance act_bind {W E} : MBind (act W E) := λ _ _ k m w,
  match m w with (w', Ok a) => k a w' | (w', Err e) => (w', Err e) end.

Section Actions.
Context {W E : Type}.

Definition throw {A} (e : E) : act W E A := λ w, (w, Err e).

(** [try { m } catch (e) { h(e) }] *)
Definition try_catch {A} (m : act W E A) (h : E → act W E A) : act W E A := λ w,
  match m w with (w', Ok a) => (w', Ok a) | (w', Err e) => h e w' end.

Definition gets {A} (f : W → A) : act W E A := λ w, (w, Ok (f w)).

Definition modify (f : W → W) : act W E unit := λ w, (f w, Ok tt).

(** [for (const x of l) await body(x)]; an exception ends the loop. *)
Fixpoint for_each {A} (body : A → act W E unit) (l : list A) : act W E unit :=
  match l with
  | [] => mret tt
  | x :: l => _ ← body x; for_each body l
  end.

(** From [w] the action ends in a world of [Q] with its value, or throws in a world
    of [R]. *)
Definition wp {A} (m : act W E A) (w : W) (Q : A → W → Prop) (R : W → Prop) : Prop :=
  match m w with (w', Ok a) => Q a w' | (w', Err _) => R w' end.

Lemma wp_mono {A} (m : act W E A) w Q Q' R R' :
  wp m w Q R → (∀ a w', Q a w' → Q' a w') → (∀ w', R w' → R' w') → wp m w Q' R'.
Proof. unfold wp. destruct (m w) as [w' [a|e]]; naive_solver. Qed.

Lemma wp_conj {A} (m : act W E A) w Q Q' R R' :
  wp m w Q R → wp m w Q' R' → wp m w (λ a w', Q a w' ∧ Q' a w') (λ w', R w' ∧ R' w').
Proof. unfold wp. by destruct (m w) as [w' [a|e]]. Qed.

Lemma wp_ret {A} (a : A) w Q R : Q a w → wp (mret a) w Q R.
Proof. done. Qed.

Lemma wp_throw {A} (e : E) w Q R : R w → wp (throw e : act W E A) w Q R.
Proof. done. Qed.

Lemma wp_bind {A B} (m : act W E A) (k : A → act W E B) w Q R :
  wp m w (λ a w', wp (k a) w' Q R) R → wp (m ≫= k) w Q R.
Proof. unfold wp, mbind, act_bind. destruct (m w) as [w' [a|e]]; done. Qed.

Lemma wp_try {A} (m : act W E A) h w Q R :
  wp m w Q (λ w', ∀ e, wp (h e) w' Q R) → wp (try_catch m h) w Q R.
Proof. unfold wp, try_catch. destruct (m w) as [w' [a|e]]; naive_solver. Qed.

Lemma wp_gets {A} (f : W → A) w Q R : Q (f w) w → wp (gets f) w Q R.
Proof. done. Qed.

Lemma wp_modify f w Q R : Q tt (f w) → wp (modify f) w Q R.
Proof. done. Qed.

Lemma wp_for_each {A} (body : A → act W E unit) (l : list A) (I R : W → Prop) w :
  (∀ x w, x ∈ l → I w → wp (body x) w (λ _, I) R) → I w → wp (for_each body l) w (λ _, I) R.
Proof.
  revert w. induction l as [|x l IH]; intros w Hb Hw; [done|]. cbn [for_each]. apply wp_bind.
  eapply wp_mono; [apply Hb; [left|done]| |done]. intros [] w' Hw'. apply IH; [|done].
  intros y w'' Hy. apply Hb. by right.
Qed.

(** The world an action leaves, whether or not it threw. *)
Lemma wp_final {A} (m : act W E A) w (I : W → Prop) : wp m w (λ _, I) I → I (m w).1.
Proof. unfold wp. by destruct (m w) as [w' [a|e]]. Qed.

(** An action that keeps a property of the world, whether or not it throws. *)
Definition preserves {A} (I : W → Prop) (m : act W E A) : Prop := ∀ w, I w → wp m w (λ _, I) I.

Lemma preserves_bind {A B} I (m : act W E A) (k : A → act W E B) :
  preserves I m → (∀ a, preserves I (k a)) → preserves I (m ≫= k).
Proof. intros Hm Hk w Hw. apply wp_bind. eapply wp_mono; [by apply Hm| |done]. intros a w' Hw'. by apply Hk. Qed.

Lemma preserves_ret {A} I (a : A) : preserves I (mret a : act W E A).
Proof. intros w Hw. by apply wp_ret. Qed.

Lemma preserves_throw {A} I (e : E) : preserves I (throw e : act W E A).
Proof. intros w Hw. by apply wp_throw. Qed.

Lemma preserves_gets {A} I (f : W → A) : preserves I (gets f : act W E A).
Proof. intros w Hw. by apply wp_gets. Qed.

Lemma preserves_modify I f : (∀ w, I w → I (f w)) → preserves I (modify f).
Proof. intros Hf w Hw. apply wp_modify. by apply Hf. Qed.

Lemma preserves_try {A} I (m : act W E A) h :
  preserves I m → (∀ e, preserves I (h e)) → preserves I (try_catch m h).
Proof.
  intros Hm Hh w Hw. apply wp_try. eapply wp_mono; [by apply Hm|done|]. intros w' Hw' e. by apply Hh.
Qed.

Lemma preserves_for_each {A} I (body : A → act W E unit) l :
  (∀ x, preserves I (body x)) → preserves I (for_each body l).
Proof. intros Hb w Hw. apply wp_for_each; [|done]. intros x w' _. apply Hb. Qed.

Lemma preserves_final {A} I (m : act W E A) w : preserves I m → I w → I (m w).1.
Proof. intros Hm Hw. by apply wp_final, Hm. Qed.

(** An action that never throws. *)
Definition total {A} (m : act W E A) : Prop := ∀ w, ∃ w' a, m w = (w', Ok a).

Lemma total_ret {A} (a : A) : total (mret a).
Proof. intros w. by exists w, a. Qed.

Lemma total_gets {A} (f : W → A) : total (gets f).
Proof. intros w. by exists w, (f w). Qed.

Lemma total_modify f : total (modify f).
Proof. intros w. by exists (f w), tt. Qed.

Lemma total_bind {A B} (m : act W E A) (k : A → act W E B) :
  total m → (∀ a, total (k a)) → total (m ≫= k).
Proof.
  intros Hm Hk w. unfold mbind, act_bind. destruct (Hm w) as (w' & a & ->). apply Hk.
Qed.

Lemma total_for_each {A} (body : A → act W E unit) l : (∀ x, total (body x)) → total (for_each body l).
Proof. intros Hb. induction l as [|x l IH]; [apply total_ret|]. cbn. by apply total_bind. Qed.

Lemma wp_total {A} (m : act W E A) w Q R R' : total m → wp m w Q R → wp m w Q R'.
Proof. intros Hm. unfold wp. by destruct (Hm w) as (w' & a & ->). Qed.

End Actions.

Create HintDb total.
#[export] Hint Resolve total_ret total_gets total_modify : total.

(** Totality of a straight-line action, by the lemmas of the database. *)
Ltac total :=
  repeat match goal with
  | |- total (_ ≫= _) => apply total_bind; [|intros ?]
  | |- total (for_each _ _) => apply total_for_each; intros ?
  | |- total (if ?b then _ else _) => destruct b
  | |- total _ => solve [eauto with total]
  end.

(** One step of a proof about a straight-line action. *)
Ltac wp_step :=
  match goal with
  | |- wp (_ ≫= _) _ _ _ => apply wp_bind
  | |- wp (mret _) _ _ _ => apply wp_ret
  | |- wp (throw _) _ _ _ => apply wp_throw
  | |- wp (gets _) _ _ _ => apply wp_gets
  | |- wp (modify _) _ _ _ => apply wp_modify
  | |- wp (try_catch _ _) _ _ _ => apply wp_try
  end.

Create HintDb preserves.
#[export] Hint Resolve preserves_ret preserves_throw preserves_gets : preserves.

(** Preservation by a straight-line action, by the lemmas of the database. *)
Ltac preserve :=
  repeat match goal with
  | |- ∀ w, _ → wp ?m w _ ?R => change (preserves R m)
  | |- preserves _ (_ ≫= _) => apply preserves_bind; [|intros ?]
  | |- preserves _ (for_each _ _) => apply preserves_for_each; intros ?
  | |- preserves _ (try_catch _ _) => apply preserves_try; [|intros ?]
  | |- preserves _ (modify _) => apply preserves_modify; intros ? ?
  | |- preserves _ (if ?b then _ else _) => destruct b
  | |- preserves _ (match ?b with _ => _ end) => destruct b
  | |- _ => solve [eauto with preserves]
  end.

End Effects.
