(* ===== verification/Wire.v ===== *)
(** Values as they come off the wire: what decoding CBOR or JSON hands to the
    code before any check has run. *)
From S2P Require Import Prelude.

Module Wire.

(** A decoded value.  [Buffer] is a [Uint8Array], so one constructor covers both;
    objects keep the order of their keys. *)
Inductive jsval : Type :=
| VUndef
| VNull
| VBool (b : bool)
| VNum (n : jsnum)
| VBig (z : Z)
| VStr (s : string)
| VBytes (b : bytes)
| VArr (l : list jsval)
| VObj (fields : list (string * jsval)).

(** [arr[i]]: out of range is [undefined]. *)
Definition at_index (l : list jsval) (i : nat) : jsval := default VUndef (l !! i).

(** [obj.k]. *)
Fixpoint field (k : string) (fs : list (string * jsval)) : jsval :=
  match fs with
  | [] => VUndef
  | (k', v) :: r => if bool_decide (k' = k) then v else field k r
  end.

Definition as_bytes (v : jsval) : option bytes :=
  match v with VBytes b => Some b | _ => None end.

(** Bytes of an exact length, or nothing. *)
Definition bytes_of_length (n : nat) (v : jsval) : option bytes :=
  b ← as_bytes v; if String.length b =? n then Some b else None.

Lemma bytes_of_length_spec n v b :
  bytes_of_length n v = Some b ↔ v = VBytes b ∧ String.length b = n.
Proof.
  unfold bytes_of_length. destruct v; cbn; try naive_solver.
  destruct (String.length b0 =? n)%nat eqn:E; [apply Nat.eqb_eq in E|apply Nat.eqb_neq in E];
    naive_solver.
Qed.

End Wire.
