(* ===== verification/Mmr.v ===== *)
(** The Merkle Mountain Range of sealed conversations
    (packages/directory/src/mmr.ts).

    The hash is a parameter [H] (hex SHA-256 of a string).  Log lines are not
    modelled; everything the functions return is.  JavaScript's 32-bit
    operators are kept ([js_and1], [js_sar1], [js_shl1]). *)
From S2P Require Import Prelude.
From stdpp Require Import pretty.

Module Mmr.

(** * Data *)

Record MmrLeaf : Type := mkLeaf {
  leaf_index : Z;
  mmr_position : Z;
  leaf_hash : string;
  seal_merkle_root : string;
  recorded_at : string;
  session_id : option string;
  checkpoint_id : option string;
}.

Record MmrNode : Type := mkNode {
  node_position : Z;
  node_hash : string;
  node_height : Z;
}.

Record MmrPeak : Type := mkPeak {
  position : Z;
  hash : string;
  height : Z;
}.

Record AppendLeafResult : Type := mkAppend {
  newLeaf : MmrLeaf;
  newNodes : list MmrNode;
  newPeaks : list MmrPeak;
}.

Record ConversationInclusionProof : Type := mkProof {
  p_leaf_index : Z;
  p_leaf_hash : string;
  p_recorded_at : string;
  sibling_hashes : list string;
  is_right_sibling : list bool;
  peak_index : Z;
  peaks : list string;
  p_checkpoint_id : string;
}.

Inductive ProofResult : Type :=
| PROOF_NOT_YET_AVAILABLE
| Proof_of (p : ConversationInclusionProof).

Section WithHash.
Variable H : string → string.

(** * Hashes and positions *)

Definition leaf_preimage (leafIndex : Z) (sealMerkleRoot recordedAt : string) : string :=
  pretty leafIndex +:+ (":" +:+ (sealMerkleRoot +:+ (":" +:+ recordedAt))).

Definition computeLeafHash (leafIndex : Z) (sealMerkleRoot recordedAt : string) : string :=
  H (leaf_preimage leafIndex sealMerkleRoot recordedAt).

Definition computeNodeHash (leftHash rightHash : string) : string := H (leftHash +:+ rightHash).

(** [while (n > 0) { popcount += n & 1; n >>= 1 }]; [None] is out of fuel. *)
Fixpoint popcount_loop (fuel : nat) (n popcount : Z) : option Z :=
  match fuel with
  | O => None
  | S fuel =>
      if (0 <? n)%Z then popcount_loop fuel (js_sar1 n) (popcount + js_and1 n)%Z
      else Some popcount
  end.

Definition popcount_fuel : nat := 33.

Definition computeMmrPosition (leafIndex : Z) : Z :=
  (2 * leafIndex - default 0 (popcount_loop popcount_fuel leafIndex 0))%Z.

(** * Append *)

(** The merge loop, on the peaks from right to left: [rightPeak] is the
    rightmost peak, [left_rev] the others, nearest first. *)
Fixpoint merge_peaks (rightPeak : MmrPeak) (left_rev : list MmrPeak)
    : list MmrPeak * list MmrNode :=
  match left_rev with
  | [] => ([rightPeak], [])
  | leftPeak :: rest =>
      if (height leftPeak =? height rightPeak)%Z then
        let parentPosition := (position rightPeak + 1)%Z in
        let parentHash := computeNodeHash (hash leftPeak) (hash rightPeak) in
        let parentHeight := (height leftPeak + 1)%Z in
        let '(ps, ns) := merge_peaks (mkPeak parentPosition parentHash parentHeight) rest in
        (ps, mkNode parentPosition parentHash parentHeight :: ns)
      else (rightPeak :: left_rev, [])
  end.

Definition appendLeafToMmr (leafIndex : Z) (sealMerkleRoot recordedAt : string)
    (currentPeaks : list MmrPeak) : AppendLeafResult :=
  let leafHash := computeLeafHash leafIndex sealMerkleRoot recordedAt in
  let leafPosition := computeMmrPosition leafIndex in
  let leaf := mkLeaf leafIndex leafPosition leafHash sealMerkleRoot recordedAt None None in
  let '(ps, ns) := merge_peaks (mkPeak leafPosition leafHash 0) (rev currentPeaks) in
  mkAppend leaf ns (rev ps).

(** * Inclusion proofs *)

Definition nodeByPosition (leaves : list MmrLeaf) (nodes : list MmrNode) : gmap Z string :=
  let m := foldl (λ m l, <[mmr_position l := leaf_hash l]> m) ∅ leaves in
  foldl (λ m n, <[node_position n := node_hash n]> m) m nodes.

Definition reachableFromPeak (fromPos peakPos peakHeight : Z) (m : gmap Z string) : bool :=
  let totalNodes := (js_shl1 (peakHeight + 1) - 1)%Z in
  let leftmostPos := (peakPos - totalNodes + 1)%Z in
  (leftmostPos <=? fromPos)%Z && (fromPos <=? peakPos)%Z && bool_decide (is_Some (m !! fromPos)).

(** The index of the first peak that covers the position. *)
Fixpoint find_peak (pi : Z) (fromPos : Z) (ps : list MmrPeak) (m : gmap Z string)
    : option (Z * MmrPeak) :=
  match ps with
  | [] => None
  | peak :: rest =>
      if reachableFromPeak fromPos (position peak) (height peak) m then Some (pi, peak)
      else find_peak (pi + 1) fromPos rest m
  end.

Definition isRightChildLeaf (pos : Z) (leaves : list MmrLeaf) : bool :=
  if (pos =? 0)%Z then false
  else bool_decide (is_Some (List.find (λ l, mmr_position l =? pos - 1)%Z leaves)).

Definition isRightChildNode (pos height : Z) (m : gmap Z string) (subtreeNodeCount : Z) : bool :=
  if (height <=? 0)%Z then false
  else bool_decide (is_Some (m !! (pos - subtreeNodeCount)%Z)).

(** A hash that is present and not the empty string. *)
Definition present (o : option string) : option string :=
  match o with Some EmptyString => None | _ => o end.

(** The variables of the climbing loop. *)
Record walk_state : Type := mkWalk {
  currentPos : Z;
  currentHeight : Z;
  siblingHashes : list string;
  isRightSibling : list bool;
}.

(** One turn of the loop; [None] is the early return without a proof. *)
Definition walk_step (leaves : list MmrLeaf) (m : gmap Z string) (w : walk_state)
    : option walk_state :=
  let pos := currentPos w in
  let subtreeNodeCount := (js_shl1 (currentHeight w + 1) - 1)%Z in
  let isRightChild :=
    if (currentHeight w =? 0)%Z then isRightChildLeaf pos leaves
    else isRightChildNode pos (currentHeight w) m subtreeNodeCount in
  if isRightChild then
    h ← present (m !! (pos - subtreeNodeCount)%Z);
    Some (mkWalk (pos + 1) (currentHeight w + 1)
            (siblingHashes w ++ [h]) (isRightSibling w ++ [true]))
  else
    h ← present (m !! (pos + subtreeNodeCount)%Z);
    Some (mkWalk (pos + subtreeNodeCount + 1) (currentHeight w + 1)
            (siblingHashes w ++ [h]) (isRightSibling w ++ [false])).

(** [while (currentPos !== peak.position)]: the outer [None] is out of fuel,
    the inner one the early return. *)
Fixpoint walk_loop (fuel : nat) (leaves : list MmrLeaf) (m : gmap Z string)
    (peakPos : Z) (w : walk_state) : option (option walk_state) :=
  if (currentPos w =? peakPos)%Z then Some (Some w)
  else match fuel with
  | O => None
  | S fuel =>
      match walk_step leaves m w with
      | None => Some None
      | Some w' => walk_loop fuel leaves m peakPos w'
      end
  end.

Definition walk_fuel : nat := 31.

(** [None] is out of fuel. *)
Definition computeInclusionProof (leafIndex : Z) (leaves : list MmrLeaf) (nodes : list MmrNode)
    (ps : list MmrPeak) (committedCheckpointPeakHash : option string) : option ProofResult :=
  match committedCheckpointPeakHash with
  | None => Some PROOF_NOT_YET_AVAILABLE
  | Some _ =>
  match List.find (λ l, leaf_index l =? leafIndex)%Z leaves with
  | None => Some PROOF_NOT_YET_AVAILABLE
  | Some leaf =>
  let m := nodeByPosition leaves nodes in
  match find_peak 0 (mmr_position leaf) ps m with
  | None => Some PROOF_NOT_YET_AVAILABLE
  | Some (pi, peak) =>
  match walk_loop walk_fuel leaves m (position peak) (mkWalk (mmr_position leaf) 0 [] []) with
  | None => None
  | Some None => Some PROOF_NOT_YET_AVAILABLE
  | Some (Some w) =>
  match present (checkpoint_id leaf) with
  | None => Some PROOF_NOT_YET_AVAILABLE
  | Some cid =>
      Some (Proof_of (mkProof leafIndex (leaf_hash leaf) (recorded_at leaf)
        (siblingHashes w) (isRightSibling w) pi (map hash ps) cid))
  end end end end end.

(** * Verification *)

Fixpoint walkToSubtreeRoot (siblings : list string) (isRight : list bool) (current : string)
    : option string :=
  match siblings with
  | [] => Some current
  | sibling :: ss =>
      match isRight with
      | [] => None
      | r :: rs =>
          walkToSubtreeRoot ss rs
            (if r then computeNodeHash sibling current else computeNodeHash current sibling)
      end
  end.

Definition zero_hash : string := sjoin (replicate 64 "0").

Definition bagPeakHashes (peakHashes : list string) : string :=
  match peakHashes with
  | [] => zero_hash
  | [h] => h
  | _ => H (sjoin peakHashes)
  end.

Definition verifyInclusionProof (proof : ConversationInclusionProof)
    (sealMerkleRoot checkpointPeakHash : string) : bool :=
  if negb (bool_decide (computeLeafHash (p_leaf_index proof) sealMerkleRoot (p_recorded_at proof)
                        = p_leaf_hash proof)) then false
  else match walkToSubtreeRoot (sibling_hashes proof) (is_right_sibling proof) (p_leaf_hash proof) with
  | None => false
  | Some subtreeRoot =>
      if bool_decide (peaks proof = []) then false
      else if ((peak_index proof <? 0) || (Z.of_nat (length (peaks proof)) <=? peak_index proof))%Z
      then false
      else if negb (bool_decide (peaks proof !! Z.to_nat (peak_index proof) = Some subtreeRoot))
      then false
      else bool_decide (bagPeakHashes (peaks proof) = checkpointPeakHash)
  end.

End WithHash.
End Mmr.
