(* ===== verification/MmrProofs.v ===== *)
(** What a Merkle Mountain Range is, independently of the code of [Mmr]: a
    forest of perfect trees kept as a binary counter.  The lemmas relate the
    positions, the peaks and the node table the code computes to that forest. *)
From S2P Require Import Prelude Mmr.
From stdpp Require Import pretty.
Import Mmr.

Module MmrSpec.

(** * Population count *)

Fixpoint pos_popcount (p : positive) : Z :=
  match p with
  | xH => 1
  | xO p => pos_popcount p
  | xI p => 1 + pos_popcount p
  end.

Definition Zpopcount (z : Z) : Z := match z with Zpos p => pos_popcount p | _ => 0%Z end.

(** * Trees and forests *)

(** A sealed conversation: its leaf index, its root and its timestamp. *)
Record seal : Type := mkSeal { s_index : Z; s_root : string; s_recorded : string }.

Inductive tree : Type :=
| Leaf (s : seal)
| Node (l r : tree).

Fixpoint theight (t : tree) : nat :=
  match t with Leaf _ => 0 | Node l _ => S (theight l) end.

Fixpoint perfect (t : tree) : Prop :=
  match t with
  | Leaf _ => True
  | Node l r => perfect l ∧ perfect r ∧ theight l = theight r
  end.

(** Number of nodes, leaves and inner nodes together. *)
Fixpoint tsize (t : tree) : Z :=
  match t with Leaf _ => 1 | Node l r => tsize l + tsize r + 1 end.

Fixpoint tseals (t : tree) : list seal :=
  match t with Leaf s => [s] | Node l r => tseals l ++ tseals r end.

(** A forest is kept rightmost tree first, like the merge loop reads it. *)
Definition fsize (f : list tree) : Z := sum_by tsize f.
Definition fseals (f : list tree) : list seal := concat (map tseals (rev f)).

(** The binary-counter append. *)
Fixpoint fappend (t : tree) (f : list tree) : list tree :=
  match f with
  | [] => [t]
  | l :: rest => if decide (theight l = theight t) then fappend (Node l t) rest else t :: f
  end.

(** Perfect trees of strictly decreasing height from left to right. *)
Definition forest_ok (f : list tree) : Prop :=
  Forall perfect f ∧ StronglySorted lt (map theight f).

(** Which leaves the climbing loop of the code reaches the peak from: on the way
    up, an inner node that is a left child must start at position 0. *)
Fixpoint climbable (b : Z) (t : tree) (k : nat) : bool :=
  match t with
  | Leaf _ => true
  | Node l r =>
      let n := length (tseals l) in
      if k <? n then ((theight l =? 0) || (b =? 0)%Z) && climbable b l k
      else climbable (b + tsize l) r (k - n)
  end.

Section WithHash.
Variable H : string → string.

Definition seal_hash (s : seal) : string :=
  computeLeafHash H (s_index s) (s_root s) (s_recorded s).

Fixpoint troot (t : tree) : string :=
  match t with
  | Leaf s => seal_hash s
  | Node l r => computeNodeHash H (troot l) (troot r)
  end.

(** Positions and hashes of the nodes of a tree whose leftmost leaf is at [b]. *)
Fixpoint tnodes (b : Z) (t : tree) : list (Z * string) :=
  match t with
  | Leaf s => [(b, seal_hash s)]
  | Node l r =>
      tnodes b l ++ tnodes (b + tsize l) r ++ [((b + tsize l + tsize r)%Z, troot t)]
  end.

Fixpoint tleaves (b : Z) (t : tree) : list (Z * seal) :=
  match t with
  | Leaf s => [(b, s)]
  | Node l r => tleaves b l ++ tleaves (b + tsize l) r
  end.

Fixpoint fnodes (f : list tree) : list (Z * string) :=
  match f with [] => [] | t :: rest => fnodes rest ++ tnodes (fsize rest) t end.

Fixpoint fleaves (f : list tree) : list (Z * seal) :=
  match f with [] => [] | t :: rest => fleaves rest ++ tleaves (fsize rest) t end.

Definition tree_peak (b : Z) (t : tree) : MmrPeak :=
  mkPeak (b + tsize t - 1) (troot t) (Z.of_nat (theight t)).

(** The authentication path of the [k]-th leaf, from the leaf upwards. *)
Fixpoint auth_siblings (t : tree) (k : nat) : list string :=
  match t with
  | Leaf _ => []
  | Node l r =>
      let n := length (tseals l) in
      if k <? n then auth_siblings l k ++ [troot r] else auth_siblings r (k - n) ++ [troot l]
  end.

Fixpoint auth_dirs (t : tree) (k : nat) : list bool :=
  match t with
  | Leaf _ => []
  | Node l r =>
      let n := length (tseals l) in
      if k <? n then auth_dirs l k ++ [false] else auth_dirs r (k - n) ++ [true]
  end.

(** The peaks of a forest, rightmost first. *)
Fixpoint fpeaks (f : list tree) : list MmrPeak :=
  match f with [] => [] | t :: rest => tree_peak (fsize rest) t :: fpeaks rest end.

(** * Population count of a decreasing sum of powers of two *)

Lemma Zpopcount_double x b :
  (0 <= x)%Z → (b = 0 ∨ b = 1)%Z → Zpopcount (2 * x + b) = (Zpopcount x + b)%Z.
Proof.
  intros Hx [-> | ->].
  - rewrite !Z.add_0_r. by destruct x.
  - rewrite (Z.add_comm (Zpopcount x)). by destruct x.
Qed.

Lemma Zpopcount_add_pow (h : nat) m :
  (0 <= m < 2 ^ Z.of_nat h)%Z → Zpopcount (2 ^ Z.of_nat h + m) = (1 + Zpopcount m)%Z.
Proof.
  revert m. induction h as [|h IH]; intros m Hm.
  - assert (m = 0)%Z as -> by lia. reflexivity.
  - rewrite Nat2Z.inj_succ, Z.pow_succ_r in * by lia.
    pose proof (Z.div_mod m 2 ltac:(lia)) as D.
    pose proof (Z.mod_pos_bound m 2 ltac:(lia)) as B.
    set (q := (m / 2)%Z) in *. set (r := (m mod 2)%Z) in *.
    replace (2 * 2 ^ Z.of_nat h + m)%Z with (2 * (2 ^ Z.of_nat h + q) + r)%Z by lia.
    rewrite Zpopcount_double by lia. rewrite IH by lia.
    rewrite D at 1. rewrite Zpopcount_double by lia. lia.
Qed.

Lemma popcount_loop_ok fuel n acc :
  (0 <= n < 2 ^ 31)%Z → (n < 2 ^ Z.of_nat fuel)%Z →
  popcount_loop (S fuel) n acc = Some (acc + Zpopcount n)%Z.
Proof.
  revert n acc. induction fuel as [|fuel IH]; intros n acc Hn Hf.
  - assert (n = 0)%Z as -> by (cbn in Hf; lia). cbn. f_equal. lia.
  - cbn [popcount_loop]. destruct (0 <? n)%Z eqn:E; bools.
    2:{ assert (n = 0)%Z as -> by lia. cbn. f_equal. lia. }
    unfold js_sar1, js_and1. rewrite to_int32_small by lia.
    rewrite Z.shiftr_div_pow2 by lia. change (2 ^ 1)%Z with 2%Z.
    replace (Z.land n 1) with (n mod 2)%Z by (symmetry; apply (Z.land_ones n 1); lia).
    rewrite Nat2Z.inj_succ, Z.pow_succ_r in Hf by lia.
    pose proof (Z.div_mod n 2 ltac:(lia)) as D.
    pose proof (Z.mod_pos_bound n 2 ltac:(lia)) as B.
    change (popcount_loop (S fuel) (n / 2) (acc + n mod 2) = Some (acc + Zpopcount n)%Z).
    rewrite IH by lia. f_equal.
    replace (Zpopcount n) with (Zpopcount (2 * (n / 2) + n mod 2)) by (f_equal; lia).
    rewrite Zpopcount_double by lia. lia.
Qed.

(** * Shape of perfect trees *)

Lemma tsize_pos t : (1 <= tsize t)%Z.
Proof. induction t; cbn; lia. Qed.

Lemma tsize_perfect t : perfect t → tsize t = (2 ^ Z.of_nat (S (theight t)) - 1)%Z.
Proof.
  induction t as [s|l IHl r IHr]; intros Hp; [reflexivity|].
  destruct Hp as (Hl & Hr & E). cbn [tsize theight].
  rewrite (IHl Hl), (IHr Hr), <- E.
  rewrite !(Nat2Z.inj_succ (S _)), !(Z.pow_succ_r 2 (Z.of_nat (S _))) by lia. lia.
Qed.

Lemma tseals_length t : perfect t → Z.of_nat (length (tseals t)) = (2 ^ Z.of_nat (theight t))%Z.
Proof.
  induction t as [s|l IHl r IHr]; intros Hp; [reflexivity|].
  destruct Hp as (Hl & Hr & E). cbn [tseals theight]. rewrite length_app, Nat2Z.inj_add.
  rewrite (IHl Hl), (IHr Hr), <- E, Nat2Z.inj_succ, Z.pow_succ_r by lia. lia.
Qed.

Lemma fsize_nonneg f : (0 <= fsize f)%Z.
Proof. apply sum_by_nonneg. intros t _. pose proof (tsize_pos t). lia. Qed.

Lemma fseals_cons t f : fseals (t :: f) = fseals f ++ tseals t.
Proof.
  unfold fseals. cbn. rewrite map_app, concat_app. cbn. by rewrite app_nil_r.
Qed.

Lemma forest_ok_cons t f :
  forest_ok (t :: f) ↔ perfect t ∧ forest_ok f ∧ Forall (λ u, theight t < theight u) f.
Proof.
  unfold forest_ok. cbn. rewrite Forall_cons. split.
  - intros [[? ?] Hs]. inversion Hs as [|? ? Hs' Hf]; subst. by rewrite Forall_map in Hf.
  - intros (? & [? ?] & Hf). split; [done|]. constructor; [done|]. by rewrite Forall_map.
Qed.

Lemma fappend_ok t f :
  perfect t → forest_ok f → Forall (λ u, theight t <= theight u) f → forest_ok (fappend t f).
Proof.
  revert t. induction f as [|l f IH]; intros t Ht Hf Hle; cbn.
  - apply forest_ok_cons. split; [done|]. split; [|constructor]. split; constructor.
  - apply forest_ok_cons in Hf as (Hl & Hf & Hlt). apply Forall_cons in Hle as [Hle _].
    case_decide as E.
    + apply IH; [by repeat split|done|].
      eapply Forall_impl; [exact Hlt|]. cbn. intros; lia.
    + apply forest_ok_cons. split; [done|]. split; [by apply forest_ok_cons|].
      apply Forall_cons. split; [lia|]. eapply Forall_impl; [exact Hlt|]. cbn; intros; lia.
Qed.

Lemma fappend_seals t f : fseals (fappend t f) = fseals f ++ tseals t.
Proof.
  revert t. induction f as [|l f IH]; intros t; cbn [fappend].
  - by rewrite fseals_cons.
  - case_decide; [rewrite IH|]; rewrite !fseals_cons; cbn [tseals]; by rewrite <- ?app_assoc.
Qed.

(** The number of leaves is below the next power of two above every tree. *)
Lemma fseals_lt f h :
  forest_ok f → Forall (λ u, theight u < h) f →
  (Z.of_nat (length (fseals f)) < 2 ^ Z.of_nat h)%Z.
Proof.
  (* from the left: the leftmost tree is the largest *)
  revert h. induction f as [|t f IH] using rev_ind; intros h Hf Hh.
  - cbn. apply Z.pow_pos_nonneg; lia.
  - unfold fseals. rewrite rev_app_distr. cbn. rewrite length_app.
    change (concat (map tseals (rev f))) with (fseals f).
    apply Forall_app in Hh as [_ Ht]. apply Forall_cons in Ht as [Ht _].
    destruct Hf as [Hp Hs]. rewrite map_app in Hs. apply StronglySorted_app in Hs as (Hc & Hs & _).
    apply Forall_app in Hp as [Hp Hpt]. apply Forall_cons in Hpt as [Hpt _].
    assert (Z.of_nat (length (fseals f)) < 2 ^ Z.of_nat (theight t))%Z as Hlt.
    { apply IH; [by split|]. apply Forall_forall. intros u Hu.
      apply (Hc (theight u)); [by apply list_elem_of_fmap_2 with (f := theight)|left]. }
    rewrite Nat2Z.inj_add, (tseals_length t Hpt).
    assert (2 ^ Z.of_nat (S (theight t)) <= 2 ^ Z.of_nat h)%Z by (apply Z.pow_le_mono_r; lia).
    rewrite Nat2Z.inj_succ, Z.pow_succ_r in * by lia. lia.
Qed.

Lemma fseals_popcount f :
  forest_ok f → Zpopcount (Z.of_nat (length (fseals f))) = Z.of_nat (length f).
Proof.
  induction f as [|t f IH] using rev_ind; intros Hf; [reflexivity|].
  destruct Hf as [Hp Hs]. rewrite map_app in Hs. apply StronglySorted_app in Hs as (Hc & Hs & _).
  apply Forall_app in Hp as [Hp Hpt]. apply Forall_cons in Hpt as [Hpt _].
  assert (Z.of_nat (length (fseals f)) < 2 ^ Z.of_nat (theight t))%Z as Hlt.
  { apply fseals_lt; [by split|]. apply Forall_forall. intros u Hu.
    apply (Hc (theight u)); [by apply list_elem_of_fmap_2 with (f := theight)|left]. }
  unfold fseals. rewrite rev_app_distr. cbn. rewrite length_app.
  change (concat (map tseals (rev f))) with (fseals f).
  rewrite Nat2Z.inj_add, (tseals_length t Hpt), Zpopcount_add_pow by lia.
  rewrite IH by (by split). rewrite length_app. cbn. lia.
Qed.

Lemma fsize_count f :
  Forall perfect f → fsize f = (2 * Z.of_nat (length (fseals f)) - Z.of_nat (length f))%Z.
Proof.
  induction 1 as [|t f Ht _ IH]; [reflexivity|].
  rewrite fseals_cons, length_app. unfold fsize in *. cbn [sum_by length].
  rewrite IH, (tsize_perfect t Ht), Nat2Z.inj_add, (tseals_length t Ht).
  rewrite (Nat2Z.inj_succ (theight t)), Z.pow_succ_r by lia. lia.
Qed.

(** * What one append does to the forest *)

Definition node_entry (n : MmrNode) : Z * string := (node_position n, node_hash n).

Lemma fsize_cons t f : fsize (t :: f) = (tsize t + fsize f)%Z.
Proof. reflexivity. Qed.

Lemma merge_peaks_spec t f :
  let '(ps, ns) := merge_peaks H (tree_peak (fsize f) t) (fpeaks f) in
  ps = fpeaks (fappend t f) ∧
  fnodes (fappend t f) = fnodes (t :: f) ++ map node_entry ns.
Proof.
  revert t. induction f as [|l f IH]; intros t; cbn [merge_peaks fpeaks fappend].
  { split; [done|]. by rewrite app_nil_r. }
  cbn [height tree_peak position hash].
  destruct (Z.of_nat (theight l) =? Z.of_nat (theight t))%Z eqn:E; bools.
  - rewrite decide_True by lia.
    specialize (IH (Node l t)).
    assert (tree_peak (fsize f) (Node l t) =
            mkPeak (fsize (l :: f) + tsize t - 1 + 1)
              (computeNodeHash H (troot l) (troot t)) (Z.of_nat (theight l) + 1)) as EP.
    { unfold tree_peak. rewrite fsize_cons. cbn [tsize theight troot]. f_equal; lia. }
    rewrite <- EP. destruct (merge_peaks H (tree_peak (fsize f) (Node l t)) (fpeaks f)) as [ps ns].
    destruct IH as [-> ->]. split; [done|].
    cbn [fnodes tnodes map node_entry node_position node_hash troot].
    rewrite fsize_cons. rewrite <- !app_assoc. cbn [app].
    rewrite (Z.add_comm (tsize l) (fsize f)).
    do 4 f_equal. unfold node_entry; cbn. f_equal. lia.
  - rewrite decide_False by lia. split; [done|]. by rewrite app_nil_r.
Qed.

Lemma fappend_leaves t f : fleaves (fappend t f) = fleaves f ++ tleaves (fsize f) t.
Proof.
  revert t. induction f as [|l f IH]; intros t; cbn [fappend fleaves]; [done|].
  case_decide; [|done]. rewrite IH. cbn [tleaves]. rewrite <- app_assoc, fsize_cons.
  by rewrite (Z.add_comm (tsize l)).
Qed.

(** * Positions are dense *)

Lemma seqZ_split b m n : (0 <= m)%Z → (0 <= n)%Z → seqZ b (m + n) = seqZ b m ++ seqZ (b + m) n.
Proof. intros. by apply seqZ_app. Qed.

Lemma tnodes_positions b t : map fst (tnodes b t) = seqZ b (tsize t).
Proof.
  revert b. induction t as [s|l IHl r IHr]; intros b; [done|].
  cbn [tnodes tsize]. rewrite !map_app, IHl, IHr. cbn [map fst].
  pose proof (tsize_pos l). pose proof (tsize_pos r).
  rewrite !seqZ_split by lia. rewrite <- app_assoc. do 2 f_equal.
  by rewrite Z.add_assoc.
Qed.

Lemma fnodes_positions f : map fst (fnodes f) = seqZ 0 (fsize f).
Proof.
  induction f as [|t f IH]; [done|]. cbn [fnodes]. rewrite map_app, IH, tnodes_positions.
  rewrite fsize_cons. pose proof (fsize_nonneg f). pose proof (tsize_pos t).
  rewrite Z.add_comm, seqZ_split by lia. done.
Qed.

Lemma fnodes_NoDup f : NoDup (map fst (fnodes f)).
Proof. rewrite fnodes_positions. apply NoDup_seqZ. Qed.

Lemma tleaves_tnodes b t q s : (q, s) ∈ tleaves b t → (q, seal_hash s) ∈ tnodes b t.
Proof.
  revert b. induction t as [s'|l IHl r IHr]; intros b; cbn [tleaves tnodes].
  - rewrite !list_elem_of_singleton. congruence.
  - rewrite !elem_of_app. intros [?|?]; [left|right; left]; auto.
Qed.

Lemma fleaves_fnodes f q s : (q, s) ∈ fleaves f → (q, seal_hash s) ∈ fnodes f.
Proof.
  induction f as [|t f IH]; cbn [fleaves fnodes]; [by intros ?%not_elem_of_nil|].
  rewrite !elem_of_app. intros [?|?]; [left|right]; [by apply IH|by apply tleaves_tnodes].
Qed.

Lemma tleaves_range b t q s : (q, s) ∈ tleaves b t → (b <= q < b + tsize t)%Z.
Proof.
  intros Hq. apply tleaves_tnodes in Hq.
  assert (q ∈ map fst (tnodes b t)) as Hin by (by apply list_elem_of_fmap_2 with (f := fst) in Hq).
  rewrite tnodes_positions, elem_of_seqZ in Hin. lia.
Qed.

Lemma fleaves_range f q s : (q, s) ∈ fleaves f → (0 <= q < fsize f)%Z.
Proof.
  intros Hq. apply fleaves_fnodes in Hq.
  assert (q ∈ map fst (fnodes f)) as Hin by (by apply list_elem_of_fmap_2 with (f := fst) in Hq).
  rewrite fnodes_positions, elem_of_seqZ in Hin. lia.
Qed.

(** The last position of a tree with inner nodes is not a leaf. *)
Lemma root_not_leaf b t q s :
  theight t ≠ 0 → (q, s) ∈ tleaves b t → q ≠ (b + tsize t - 1)%Z.
Proof.
  destruct t as [s'|l r]; cbn [theight tleaves tsize]; [done|]. intros _.
  pose proof (tsize_pos r).
  rewrite elem_of_app. intros [Hq|Hq]; apply tleaves_range in Hq; lia.
Qed.

Lemma tleaves_seals b t : map snd (tleaves b t) = tseals t.
Proof.
  revert b. induction t as [s|l IHl r IHr]; intros b; [done|].
  cbn [tleaves tseals]. by rewrite map_app, IHl, IHr.
Qed.

Lemma fleaves_seals f : map snd (fleaves f) = fseals f.
Proof.
  induction f as [|t f IH]; [done|]. cbn [fleaves]. by rewrite map_app, IH, tleaves_seals, fseals_cons.
Qed.

End WithHash.
End MmrSpec.

(** Lemmas about the Merkle Mountain Range of [Mmr]: states built by appends
    represent the forest of [MmrSpec], and the climbing loop of the inclusion
    proof follows the authentication path of that forest. *)
Import Mmr MmrSpec.

Module MmrProofs.

Section WithHash.
Variable H : string → string.

(** * States built by appends *)

Record mmr_state : Type := mkState {
  st_leaves : list MmrLeaf;
  st_nodes : list MmrNode;
  st_peaks : list MmrPeak;
}.

Definition mmr_empty : mmr_state := mkState [] [] [].

(** Append a seal, with the next free leaf index, as [MmrStore.appendSeal] does. *)
Definition mmr_append (st : mmr_state) (x : string * string) : mmr_state :=
  let r := appendLeafToMmr H (Z.of_nat (length (st_leaves st))) x.1 x.2 (st_peaks st) in
  mkState (st_leaves st ++ [newLeaf r]) (st_nodes st ++ newNodes r) (newPeaks r).

Definition mmr_build (seals : list (string * string)) : mmr_state :=
  foldl mmr_append mmr_empty seals.

(** * The representation invariant *)

Definition leaf_seal (l : MmrLeaf) : seal :=
  mkSeal (leaf_index l) (seal_merkle_root l) (recorded_at l).
Definition leaf_entry (l : MmrLeaf) : Z * seal := (mmr_position l, leaf_seal l).
Definition leaf_node (l : MmrLeaf) : Z * string := (mmr_position l, leaf_hash l).

(** The state represents the forest [f]. *)
Record represents (st : mmr_state) (f : list tree) : Prop := mkRepresents {
  rep_ok : forest_ok f;
  rep_peaks : st_peaks st = rev (fpeaks H f);
  rep_leaves : map leaf_entry (st_leaves st) = fleaves f;
  rep_hashes : Forall (λ l, leaf_hash l = seal_hash H (leaf_seal l)) (st_leaves st);
  rep_indices : map leaf_index (st_leaves st) = seqZ 0 (Z.of_nat (length (st_leaves st)));
  rep_nodes : map leaf_node (st_leaves st) ++ map node_entry (st_nodes st) ≡ₚ fnodes H f;
}.

Lemma represents_empty : represents mmr_empty [].
Proof. split; try done; try constructor; constructor. Qed.

Lemma represents_length st f :
  represents st f → length (fseals f) = length (st_leaves st).
Proof.
  intros R. rewrite <- fleaves_seals, <- (rep_leaves _ _ R). by rewrite !length_map.
Qed.

(** The position the code gives leaf [N] is the number of nodes before it. *)
Lemma position_is_size f :
  forest_ok f → (Z.of_nat (length (fseals f)) < 2 ^ 31)%Z →
  computeMmrPosition (Z.of_nat (length (fseals f))) = fsize f.
Proof.
  intros Hf Hlt. unfold computeMmrPosition, popcount_fuel.
  rewrite popcount_loop_ok by lia. cbn [default from_option id].
  rewrite fseals_popcount by done. rewrite (fsize_count f) by apply Hf. lia.
Qed.

Lemma append_represents st f x :
  represents st f → (Z.of_nat (length (st_leaves st)) < 2 ^ 31)%Z →
  represents (mmr_append st x)
    (fappend (Leaf (mkSeal (Z.of_nat (length (st_leaves st))) x.1 x.2)) f).
Proof.
  intros R Hlt. set (n := length (st_leaves st)) in *.
  pose proof (represents_length _ _ R) as HL.
  pose proof (position_is_size f (rep_ok _ _ R)) as HP. rewrite HL in HP. specialize (HP Hlt).
  unfold mmr_append, appendLeafToMmr. fold n in HP |- *.
  rewrite HP, (rep_peaks _ _ R), rev_involutive.
  set (s := mkSeal (Z.of_nat n) x.1 x.2).
  pose proof (merge_peaks_spec H (Leaf s) f) as M.
  assert (tree_peak H (fsize f) (Leaf s) = mkPeak (fsize f) (seal_hash H s) 0) as ET.
  { unfold tree_peak. cbn. f_equal. lia. }
  rewrite ET in M. change (computeLeafHash H (Z.of_nat n) x.1 x.2) with (seal_hash H s).
  destruct (merge_peaks H _ _) as [ps ns]. destruct M as [-> Mn].
  split; cbn [st_leaves st_nodes st_peaks newLeaf newNodes newPeaks].
  - apply fappend_ok; [done|apply R|]. apply Forall_forall. intros; cbn; lia.
  - done.
  - rewrite map_app, (rep_leaves _ _ R), fappend_leaves. done.
  - apply Forall_app. split; [apply R|]. by apply Forall_singleton.
  - rewrite map_app, (rep_indices _ _ R), length_app, Nat2Z.inj_add. fold n.
    rewrite seqZ_split by lia. done.
  - rewrite Mn. cbn [fnodes tnodes]. rewrite !map_app, <- (rep_nodes _ _ R).
    cbn [map leaf_node mmr_position leaf_hash].
    rewrite <- !app_assoc. apply Permutation_app_head.
    rewrite (Permutation_app_comm [_]). rewrite <- app_assoc.
    apply Permutation_app_head, Permutation_app_comm.
Qed.

Lemma append_length st x : length (st_leaves (mmr_append st x)) = S (length (st_leaves st)).
Proof. cbn. rewrite length_app. cbn. lia. Qed.

(** The forest of a list of seals, numbered from 0. *)
Definition forest_add (f : list tree) (x : string * string) : list tree :=
  fappend (Leaf (mkSeal (Z.of_nat (length (fseals f))) x.1 x.2)) f.
Definition mmr_forest (seals : list (string * string)) : list tree := foldl forest_add [] seals.

Lemma forest_length seals : length (fseals (mmr_forest seals)) = length seals.
Proof.
  unfold mmr_forest. induction seals as [|x seals IH] using rev_ind; [done|].
  rewrite foldl_app. cbn [foldl]. unfold forest_add at 1. by rewrite fappend_seals, !length_app, IH.
Qed.

Lemma forest_seals seals :
  fseals (mmr_forest seals) = imap (λ i x, mkSeal (Z.of_nat i) x.1 x.2) seals.
Proof.
  induction seals as [|x seals IH] using rev_ind; [done|].
  pose proof (forest_length seals) as HL.
  unfold mmr_forest in *. rewrite foldl_app, imap_app. cbn [foldl]. unfold forest_add at 1.
  rewrite fappend_seals, HL, IH. cbn. by rewrite Nat.add_0_r.
Qed.

Lemma build_represents seals :
  (Z.of_nat (length seals) <= 2 ^ 31)%Z → represents (mmr_build seals) (mmr_forest seals).
Proof.
  unfold mmr_build, mmr_forest. induction seals as [|x seals IH] using rev_ind; intros Hlt.
  - apply represents_empty.
  - rewrite !foldl_app. rewrite length_app in *. cbn [foldl length] in *.
    assert (represents (mmr_build seals) (mmr_forest seals)) as R by (apply IH; lia).
    pose proof (represents_length _ _ R) as HL. rewrite forest_length in HL.
    pose proof (forest_length seals) as HL'.
    unfold mmr_build, mmr_forest, forest_add in *. rewrite HL', HL.
    apply append_represents; [done|]. lia.
Qed.

Lemma build_length seals :
  (Z.of_nat (length seals) <= 2 ^ 31)%Z → length (st_leaves (mmr_build seals)) = length seals.
Proof. intros E. by rewrite <- (represents_length _ _ (build_represents _ E)), forest_length. Qed.

(** * Climbing from a leaf to its peak *)

Section Climb.
Variables (L : list MmrLeaf) (m : gmap Z string) (f : list tree).
Hypothesis m_spec : ∀ q h, m !! q = Some h ↔ (q, h) ∈ fnodes H f.
Hypothesis L_spec : map leaf_entry L = fleaves f.
Hypothesis H_nonempty : ∀ x, H x ≠ EmptyString.

Lemma m_range q : is_Some (m !! q) → (0 <= q < fsize f)%Z.
Proof.
  intros [h Hh]. apply m_spec in Hh.
  assert (q ∈ map fst (fnodes H f)) as Hin by (by apply list_elem_of_fmap_2 with (f := fst) in Hh).
  rewrite fnodes_positions, elem_of_seqZ in Hin. lia.
Qed.

Lemma isRightChildLeaf_spec q :
  isRightChildLeaf q L = true ↔ ∃ s, ((q - 1)%Z, s) ∈ fleaves f.
Proof.
  unfold isRightChildLeaf. destruct (q =? 0)%Z eqn:E; bools.
  - subst. split; [done|]. intros [s Hs%(fleaves_range H)]. lia.
  - rewrite bool_decide_eq_true. rewrite <- L_spec. split.
    + intros [l Hl]. apply find_some_elem in Hl as [Hl Hq]. bools.
      exists (leaf_seal l). rewrite <- Hq. by apply (list_elem_of_fmap_2 leaf_entry) in Hl.
    + intros [s Hs]. apply list_elem_of_fmap in Hs as (l & Hl & Hin).
      destruct (List.find (λ l, (mmr_position l =? q - 1)%Z) L) eqn:F; [done|].
      rewrite list_elem_of_In in Hin. apply (List.find_none _ _ F) in Hin.
      injection Hl as Hl _. bools. congruence.
Qed.

Lemma present_root q t b :
  tnodes H b t ⊆ fnodes H f → q = (b + tsize t - 1)%Z → present (m !! q) = Some (troot H t).
Proof.
  intros Hsub ->. assert (m !! (b + tsize t - 1)%Z = Some (troot H t)) as ->.
  { apply m_spec, Hsub. destruct t as [s|l r]; cbn [tnodes tsize].
    - replace (b + 1 - 1)%Z with b by lia. left.
    - rewrite !elem_of_app. right. right.
      replace (b + (tsize l + tsize r + 1) - 1)%Z with (b + tsize l + tsize r)%Z by lia. left. }
  cbn. destruct (troot H t) eqn:E; [|done].
  destruct t; cbn in E; by apply H_nonempty in E.
Qed.

Lemma subtree_count t :
  perfect t → theight t < 30 → (js_shl1 (Z.of_nat (theight t) + 1) - 1)%Z = tsize t.
Proof.
  intros Hp Hh. rewrite js_shl1_small by lia. rewrite tsize_perfect by done.
  by rewrite Nat2Z.inj_succ.
Qed.

(** What the climb needs to know of a subtree at base [b]. *)
Record placed (b : Z) (t : tree) : Prop := mkPlaced {
  pl_perfect : perfect t;
  pl_height : theight t < 30;
  pl_nodes : tnodes H b t ⊆ fnodes H f;
  pl_leaves : tleaves b t ⊆ fleaves f;
  pl_local : ∀ q s, (q, s) ∈ fleaves f → (b <= q < b + tsize t)%Z → (q, s) ∈ tleaves b t;
  pl_before : theight t ≠ 0 → ∀ s, ((b - 1)%Z, s) ∉ fleaves f;
  pl_base : (0 <= b)%Z;
}.

Lemma placed_left b l r : placed b (Node l r) → placed b l.
Proof.
  intros [(Hl & _ & _) Hh Hn Hv Hloc Hb H0]. cbn in *. split; try done; try lia.
  - intros x Hx. apply Hn. cbn. rewrite !elem_of_app. by left.
  - intros x Hx. apply Hv. cbn. rewrite !elem_of_app. by left.
  - intros q s Hq Hr. pose proof (tsize_pos r). specialize (Hloc q s Hq ltac:(lia)).
    apply elem_of_app in Hloc as [?|Hx]; [done|]. apply (tleaves_range H) in Hx. lia.
  - intros _. by apply Hb.
Qed.

Lemma placed_right b l r : placed b (Node l r) → placed (b + tsize l) r.
Proof.
  intros [(Hl & Hr & E) Hh Hn Hv Hloc Hb H0]. cbn in *. pose proof (tsize_pos l).
  split; try done; try lia.
  - intros x Hx. apply Hn. cbn. rewrite !elem_of_app. right; by left.
  - intros x Hx. apply Hv. cbn. rewrite !elem_of_app. by right.
  - intros q s Hq Hrg. specialize (Hloc q s Hq ltac:(lia)).
    apply elem_of_app in Hloc as [Hx|?]; [|done]. apply (tleaves_range H) in Hx. lia.
  - intros Hh' s Hs. specialize (Hloc _ s Hs). pose proof (tsize_pos r).
    specialize (Hloc ltac:(lia)). apply elem_of_app in Hloc as [Hx|Hx].
    + revert Hx. rewrite <- E in Hh'. intros Hx.
      by apply (root_not_leaf H b l _ s Hh' Hx).
    + apply (tleaves_range H) in Hx. lia.
Qed.

(** One turn of the loop at the root of the left, or of the right, child. *)
Lemma walk_step_left b l r ss ds :
  placed b (Node l r) → (theight l =? 0) || (b =? 0)%Z = true →
  walk_step L m (mkWalk (b + tsize l - 1) (Z.of_nat (theight l)) ss ds) =
  Some (mkWalk (b + tsize (Node l r) - 1) (Z.of_nat (theight (Node l r)))
          (ss ++ [troot H r]) (ds ++ [false])).
Proof.
  intros P Hok. pose proof (placed_left _ _ _ P) as Pl. pose proof (placed_right _ _ _ P) as Pr.
  destruct (pl_perfect _ _ P) as (Hl & Hr & E).
  unfold walk_step. cbn [currentPos currentHeight siblingHashes isRightSibling].
  rewrite subtree_count by apply Pl.
  assert (tsize l = tsize r) as Es by (rewrite !tsize_perfect, E by done; done).
  match goal with |- context [if ?x then _ else _] => assert (x = false) as -> end.
  { destruct (Z.of_nat (theight l) =? 0)%Z eqn:E0; bools.
    - apply not_true_is_false. rewrite isRightChildLeaf_spec. intros [s Hs].
      rewrite (tsize_perfect l Hl) in Hs. replace (theight l) with 0 in Hs by lia.
      change (2 ^ Z.of_nat 1)%Z with 2%Z in Hs.
      replace (b + (2 - 1) - 1 - 1)%Z with (b - 1)%Z in Hs by lia.
      by apply (pl_before _ _ P) in Hs.
    - unfold isRightChildNode. destruct (Z.of_nat (theight l) <=? 0)%Z eqn:E1; [done|].
      apply bool_decide_eq_false. intros Hs%m_range.
      apply orb_true_iff in Hok as [Hok|Hok]; [apply Nat.eqb_eq in Hok; lia|bools; lia]. }
  rewrite (present_root _ r (b + tsize l)) by (try apply Pr; lia). cbn [mbind option_bind].
  f_equal. cbn [tsize theight]. f_equal; lia.
Qed.

Lemma walk_step_right b l r ss ds :
  placed b (Node l r) →
  walk_step L m (mkWalk (b + tsize l + tsize r - 1) (Z.of_nat (theight r)) ss ds) =
  Some (mkWalk (b + tsize (Node l r) - 1) (Z.of_nat (theight (Node l r)))
          (ss ++ [troot H l]) (ds ++ [true])).
Proof.
  intros P. pose proof (placed_left _ _ _ P) as Pl. pose proof (placed_right _ _ _ P) as Pr.
  destruct (pl_perfect _ _ P) as (Hl & Hr & E).
  unfold walk_step. cbn [currentPos currentHeight siblingHashes isRightSibling].
  rewrite subtree_count by apply Pr.
  assert (tsize l = tsize r) as Es by (rewrite !tsize_perfect, E by done; done).
  pose proof (present_root (b + tsize l - 1) l b (pl_nodes _ _ Pl) eq_refl) as HP.
  match goal with |- context [if ?x then _ else _] => assert (x = true) as -> end.
  { destruct (Z.of_nat (theight r) =? 0)%Z eqn:E0; bools.
    - apply isRightChildLeaf_spec.
      destruct l as [s|]; cbn in E; [|lia]. exists s. apply (pl_leaves _ _ Pl). cbn.
      destruct r; cbn in *; [|lia]. apply list_elem_of_singleton. f_equal. lia.
    - unfold isRightChildNode. destruct (Z.of_nat (theight r) <=? 0)%Z eqn:E1; bools; [lia|].
      apply bool_decide_eq_true.
      replace (b + tsize l + tsize r - 1 - tsize r)%Z with (b + tsize l - 1)%Z by lia.
      by destruct (m !! _). }
  replace (b + tsize l + tsize r - 1 - tsize r)%Z with (b + tsize l - 1)%Z by lia.
  rewrite HP. cbn [mbind option_bind]. f_equal. cbn [tsize theight]. f_equal; lia.
Qed.

Lemma walk_loop_step fuel peakPos w w' :
  currentPos w ≠ peakPos → walk_step L m w = Some w' →
  walk_loop (S fuel) L m peakPos w = walk_loop fuel L m peakPos w'.
Proof. intros Hne Hs. cbn. destruct (currentPos w =? peakPos)%Z eqn:E; bools; [done|]. by rewrite Hs. Qed.

Lemma climb_below p h ss ds peakPos :
  (p < peakPos)%Z → currentPos (mkWalk p h ss ds) ≠ peakPos.
Proof. cbn. lia. Qed.

Lemma tleaves_length b t : length (tleaves b t) = length (tseals t).
Proof. by rewrite <- (tleaves_seals b t), length_map. Qed.

Lemma climb t b k fuel peakPos q s :
  placed b t → tleaves b t !! k = Some (q, s) → climbable b t k = true →
  (b + tsize t - 1 <= peakPos)%Z →
  walk_loop (theight t + fuel) L m peakPos (mkWalk q 0 [] []) =
  walk_loop fuel L m peakPos
    (mkWalk (b + tsize t - 1) (Z.of_nat (theight t)) (auth_siblings H t k) (auth_dirs t k)).
Proof.
  revert b k fuel. induction t as [s'|l IHl r IHr]; intros b k fuel P Hk Hc Hp.
  - cbn in Hk. destruct k as [|k]; [|by destruct k]. injection Hk as <- <-. cbn.
    by replace (b + 1 - 1)%Z with b by lia.
  - pose proof (placed_left _ _ _ P) as Pl. pose proof (placed_right _ _ _ P) as Pr.
    destruct (pl_perfect _ _ P) as (Hpl & Hpr & E).
    pose proof (tsize_pos l). pose proof (tsize_pos r).
    cbn [tleaves] in Hk. rewrite lookup_app in Hk.
    cbn [climbable theight auth_siblings auth_dirs tsize] in *.
    rewrite <- (tleaves_length b l) in *.
    replace (S (theight l) + fuel) with (theight l + S fuel) by lia.
    destruct (k <? length (tleaves b l)) eqn:El.
    + apply Nat.ltb_lt in El. destruct (tleaves b l !! k) eqn:Ek.
      2:{ apply lookup_ge_None in Ek. lia. }
      injection Hk as ->. apply andb_true_iff in Hc as [Hc1 Hc2].
      rewrite (IHl b k (S fuel) Pl Ek Hc2) by lia.
      erewrite walk_loop_step; [|apply climb_below; lia|by apply walk_step_left]. done.
    + apply Nat.ltb_ge in El. destruct (tleaves b l !! k) eqn:Ek.
      1:{ apply lookup_lt_Some in Ek. lia. }
      rewrite E.
      rewrite (IHr (b + tsize l)%Z (k - length (tleaves b l)) (S fuel) Pr Hk Hc) by lia.
      erewrite walk_loop_step; [|apply climb_below; lia|by apply walk_step_right].
      cbn [theight tsize]. by rewrite E.
Qed.

(** * Finding the peak *)

Lemma tree_placed g t rest :
  f = g ++ t :: rest → forest_ok f → Forall (λ u, theight u < 30) f → placed (fsize rest) t.
Proof.
  intros Ef Hf Hh.
  assert (forest_ok (t :: rest) ∧
          (∀ x, x ∈ fnodes H (t :: rest) → x ∈ fnodes H f) ∧
          (∀ x, x ∈ fleaves (t :: rest) → x ∈ fleaves f) ∧
          (∀ q s, (q, s) ∈ fleaves f → (q < fsize (t :: rest))%Z → (q, s) ∈ fleaves (t :: rest)))
    as (Hok & Hn & Hv & Hloc).
  { subst f. clear - Hf. induction g as [|u g IH]; [by cbn|].
    apply forest_ok_cons in Hf as (_ & Hf & _). destruct (IH Hf) as (I1 & I2 & I3 & I4).
    split; [done|]. cbn [app fnodes fleaves]. split_and!.
    - intros x Hx. rewrite elem_of_app. left. by apply I2.
    - intros x Hx. rewrite elem_of_app. left. by apply I3.
    - intros q s [Hq|Hq]%elem_of_app Hlt; [by apply I4|].
      apply (tleaves_range H) in Hq.
      assert (fsize (t :: rest) <= fsize (g ++ t :: rest))%Z; [|lia].
      unfold fsize. rewrite sum_by_app. pose proof (fsize_nonneg g). unfold fsize in *. lia. }
  apply forest_ok_cons in Hok as (Hp & Hr & Hlt). pose proof (tsize_pos t).
  rewrite fsize_cons in Hloc. pose proof (fsize_nonneg rest).
  split; try done.
  - rewrite Forall_forall in Hh. apply Hh. rewrite Ef. set_solver.
  - intros x Hx. apply Hn. cbn [fnodes]. rewrite elem_of_app. by right.
  - intros x Hx. apply Hv. cbn [fleaves]. rewrite elem_of_app. by right.
  - intros q s Hq Hrg. specialize (Hloc q s Hq ltac:(lia)). cbn [fleaves] in Hloc.
    apply elem_of_app in Hloc as [Hx|?]; [|done]. apply (fleaves_range H) in Hx. lia.
  - intros Hh0 s Hs. specialize (Hloc _ s Hs ltac:(lia)). cbn [fleaves] in Hloc.
    apply elem_of_app in Hloc as [Hx|Hx].
    + destruct rest as [|u rest]; [by apply not_elem_of_nil in Hx|].
      cbn [fleaves] in Hx. rewrite fsize_cons in *. apply Forall_cons in Hlt as [Hlt _].
      apply elem_of_app in Hx as [Hx|Hx].
      * apply (fleaves_range H) in Hx. pose proof (tsize_pos u). lia.
      * apply (root_not_leaf H (fsize rest) u _ s) in Hx; lia.
    + apply (tleaves_range H) in Hx. lia.
Qed.

(** The peaks from left to right. *)
Fixpoint peaks_from (b : Z) (ts : list tree) : list MmrPeak :=
  match ts with [] => [] | t :: r => tree_peak H b t :: peaks_from (b + tsize t) r end.

Lemma peaks_from_app b ts us :
  peaks_from b (ts ++ us) = peaks_from b ts ++ peaks_from (b + fsize ts) us.
Proof.
  revert b. induction ts as [|t ts IH]; intros b; cbn [app peaks_from].
  - by rewrite Z.add_0_r.
  - rewrite IH, fsize_cons. by rewrite Z.add_assoc.
Qed.

Lemma fsize_rev g : fsize (rev g) = fsize g.
Proof.
  unfold fsize. induction g as [|t g IH]; [done|]. cbn. rewrite sum_by_app, IH. cbn. lia.
Qed.

Lemma peaks_left_to_right g : rev (fpeaks H g) = peaks_from 0 (rev g).
Proof.
  induction g as [|t g IH]; [done|]. cbn. rewrite peaks_from_app, IH, fsize_rev. done.
Qed.

Lemma find_peak_spec pi q b ts t us :
  is_Some (m !! q) → Forall (λ u, perfect u ∧ theight u < 30) (ts ++ t :: us) →
  (b + fsize ts <= q < b + fsize ts + tsize t)%Z →
  find_peak pi q (peaks_from b (ts ++ t :: us)) m =
  Some ((pi + Z.of_nat (length ts))%Z, tree_peak H (b + fsize ts) t).
Proof.
  intros Hq. revert pi b. induction ts as [|u ts IH]; intros pi b Hall Hr.
  - apply Forall_cons in Hall as [[Hp Hh] _]. cbn [app peaks_from find_peak].
    unfold reachableFromPeak. cbn [position height tree_peak].
    rewrite subtree_count by done. change (fsize []) with 0%Z in *. rewrite Z.add_0_r in *.
    rewrite !(proj2 (Z.leb_le _ _)), bool_decide_eq_true_2 by (done || lia).
    cbn. by rewrite Z.add_0_r.
  - cbn [app] in *. apply Forall_cons in Hall as [[Hp Hh] Hall].
    rewrite fsize_cons in *. pose proof (fsize_nonneg ts).
    cbn [peaks_from find_peak]. unfold reachableFromPeak at 1. cbn [position height tree_peak].
    rewrite (proj2 (Z.leb_gt q _)) by lia. rewrite andb_false_r. cbn [andb].
    rewrite IH by (done || lia). cbn [length]. f_equal. f_equal; [lia|]. f_equal. lia.
Qed.

End Climb.

End WithHash.
End MmrProofs.
