(* ===== verification/MmrTheorems.v ===== *)
(** Properties of the Merkle Mountain Range: the append refines the forest of
    [MmrSpec], positions are dense, inclusion proofs verify, proof generation
    terminates, and the exact places where the code falls short. *)
From S2P Require Import Prelude Mmr MmrProofs.
From stdpp Require Import pretty.
Import Mmr MmrSpec MmrProofs.

Module MmrTheorems.

(** * Leaves as they are read back for a proof *)

(** A leaf without what staging and checkpointing add to it. *)
Definition uncommitted (l : MmrLeaf) : MmrLeaf :=
  mkLeaf (leaf_index l) (mmr_position l) (leaf_hash l) (seal_merkle_root l) (recorded_at l) None None.

(** Whether the code can produce a proof of leaf [k], the trees from left to right. *)
Fixpoint climbable_in (b : Z) (ts : list tree) (k : nat) : bool :=
  match ts with
  | [] => false
  | t :: r =>
      let n := length (tseals t) in
      if k <? n then climbable b t k else climbable_in (b + tsize t) r (k - n)
  end.

Definition provable_leaf (seals : list (string * string)) (i : nat) : bool :=
  climbable_in 0 (rev (mmr_forest seals)) i.

Section WithHash.
Variable H : string → string.

Lemma map_uncommitted {B} (g : MmrLeaf → B) (L L' : list MmrLeaf) :
  (∀ l, g (uncommitted l) = g l) → map uncommitted L = L' → map g L = map g L'.
Proof.
  intros Hg <-. rewrite map_map. apply map_ext. intros l. by rewrite Hg.
Qed.

Lemma build_uncommitted seals l : l ∈ st_leaves (mmr_build H seals) → uncommitted l = l.
Proof.
  unfold mmr_build. revert l. induction seals as [|x seals IH] using rev_ind; intros l.
  { by intros ?%not_elem_of_nil. }
  rewrite foldl_app. cbn [foldl mmr_append st_leaves]. rewrite elem_of_app, list_elem_of_singleton.
  intros [Hl| ->]; [by apply IH|]. unfold appendLeafToMmr. by destruct (merge_peaks _ _ _).
Qed.

(** ** The node table *)

Lemma nodeByPosition_spec (L : list MmrLeaf) (ns : list MmrNode) f :
  map leaf_node L ++ map node_entry ns ≡ₚ fnodes H f →
  ∀ q h, nodeByPosition L ns !! q = Some h ↔ (q, h) ∈ fnodes H f.
Proof.
  intros E q h. unfold nodeByPosition.
  rewrite (insert_all_map leaf_node L ∅), (insert_all_map node_entry ns).
  assert (insert_all (insert_all ∅ (map leaf_node L)) (map node_entry ns) =
          insert_all ∅ (map leaf_node L ++ map node_entry ns)) as ->.
  { unfold insert_all. by rewrite foldl_app. }
  rewrite insert_all_lookup.
  - by rewrite E.
  - rewrite E. apply fnodes_NoDup.
Qed.

(** ** Where leaf [i] lies *)

Lemma walk_auth t b k q s :
  tleaves b t !! k = Some (q, s) →
  walkToSubtreeRoot H (auth_siblings H t k) (auth_dirs t k) (seal_hash H s) = Some (troot H t).
Proof.
  assert (∀ ss ds ss' ds' c r, length ss = length ds →
    walkToSubtreeRoot H ss ds c = Some r →
    walkToSubtreeRoot H (ss ++ ss') (ds ++ ds') c = walkToSubtreeRoot H ss' ds' r) as Happ.
  { induction ss as [|x ss IH]; intros [|d ds] ss' ds' c r HL Hw; try done; cbn in *; [congruence|].
    apply IH; [lia|done]. }
  assert (∀ t k, length (auth_siblings H t k) = length (auth_dirs t k)) as HL.
  { clear. induction t as [|l IHl r IHr]; intros k; [done|]. cbn.
    case_match; rewrite !length_app; cbn; congruence. }
  revert b k. induction t as [s'|l IHl r IHr]; intros b k Hk.
  - cbn in Hk. destruct k; [|by destruct k]. by injection Hk as <- <-.
  - cbn [tleaves] in Hk. rewrite lookup_app in Hk. cbn [auth_siblings auth_dirs].
    rewrite <- (tleaves_length b l). destruct (k <? length (tleaves b l)) eqn:El.
    + apply Nat.ltb_lt in El. destruct (tleaves b l !! k) eqn:Ek.
      2:{ apply lookup_ge_None in Ek. lia. }
      injection Hk as ->. by rewrite (Happ _ _ _ _ _ _ (HL _ _) (IHl _ _ Ek)).
    + apply Nat.ltb_ge in El. destruct (tleaves b l !! k) eqn:Ek.
      1:{ apply lookup_lt_Some in Ek. lia. }
      by rewrite (Happ _ _ _ _ _ _ (HL _ _) (IHr _ _ Hk)).
Qed.

Lemma tleaf_position b t k q s :
  tleaves b t !! k = Some (q, s) → (b <= q < b + tsize t)%Z.
Proof. intros E. apply (tleaves_range H b t q s). by apply list_elem_of_lookup_2 in E. Qed.

(** Leaves of a list of trees read from left to right. *)
Fixpoint leaves_from (b : Z) (ts : list tree) : list (Z * seal) :=
  match ts with [] => [] | t :: r => tleaves b t ++ leaves_from (b + tsize t) r end.

Lemma leaves_from_app b ts us :
  leaves_from b (ts ++ us) = leaves_from b ts ++ leaves_from (b + fsize ts) us.
Proof.
  revert b. induction ts as [|t ts IH]; intros b; cbn [app leaves_from].
  - by rewrite Z.add_0_r.
  - by rewrite IH, fsize_cons, Z.add_assoc, app_assoc.
Qed.

Lemma leaves_left_to_right f : fleaves f = leaves_from 0 (rev f).
Proof.
  induction f as [|t f IH]; [done|]. cbn. rewrite leaves_from_app, <- IH, fsize_rev. cbn.
  by rewrite app_nil_r.
Qed.

(** The tree that holds leaf [i]. *)
Lemma locate_leaf b us i q s :
  leaves_from b us !! i = Some (q, s) → climbable_in b us i = true →
  ∃ ts t vs k, us = ts ++ t :: vs ∧ tleaves (b + fsize ts) t !! k = Some (q, s) ∧
    climbable (b + fsize ts) t k = true.
Proof.
  revert b i. induction us as [|u us IH]; intros b i Hi Hc; [done|].
  cbn [leaves_from climbable_in] in *. rewrite lookup_app in Hi.
  rewrite <- (tleaves_length b u) in Hc.
  destruct (tleaves b u !! i) eqn:Ei.
  - pose proof (lookup_lt_Some _ _ _ Ei) as Hlt%Nat.ltb_lt. rewrite Hlt in Hc.
    injection Hi as ->. exists [], u, us, i. change (fsize []) with 0%Z. by rewrite Z.add_0_r.
  - apply lookup_ge_None in Ei. rewrite (proj2 (Nat.ltb_ge _ _) Ei) in Hc.
    destruct (IH _ _ Hi Hc) as (ts & t & vs & k & -> & Hk & Hck).
    exists (u :: ts), t, vs, k. rewrite fsize_cons, Z.add_assoc. done.
Qed.

Lemma forest_heights seals :
  (Z.of_nat (length seals) < 2 ^ 30)%Z →
  (Z.of_nat (length seals) <= 2 ^ 31)%Z ∧ Forall (λ u, perfect u ∧ theight u < 30) (mmr_forest seals).
Proof.
  intros Hlt. split; [lia|]. pose proof (build_represents H seals ltac:(lia)) as R.
  apply Forall_forall. intros u Hu. destruct (rep_ok _ _ _ R) as [Hp _].
  rewrite Forall_forall in Hp. split; [by apply Hp|].
  assert (length (tseals u) <= length (fseals (mmr_forest seals))) as HL.
  { clear -Hu. induction (mmr_forest seals) as [|v f IH]; [by apply not_elem_of_nil in Hu|].
    rewrite fseals_cons, length_app. apply elem_of_cons in Hu as [->|Hu]; [lia|].
    specialize (IH Hu). lia. }
  rewrite forest_length in HL. pose proof (tseals_length u (Hp u Hu)) as E.
  destruct (decide (theight u < 30)) as [|Hge]; [done|].
  assert (2 ^ 30 <= 2 ^ Z.of_nat (theight u))%Z by (apply Z.pow_le_mono_r; lia). lia.
Qed.

(** ** The proof of a leaf the loop can climb from *)

Lemma committed_state seals L :
  (Z.of_nat (length seals) < 2 ^ 30)%Z →
  map uncommitted L = st_leaves (mmr_build H seals) →
  map leaf_entry L = fleaves (mmr_forest seals) ∧
  map leaf_node L = map leaf_node (st_leaves (mmr_build H seals)) ∧
  map leaf_index L = seqZ 0 (Z.of_nat (length L)) ∧ length L = length seals ∧
  Forall (λ l, leaf_hash l = seal_hash H (leaf_seal l)) L.
Proof.
  intros Hlt HL. pose proof (build_represents H seals ltac:(lia)) as R.
  assert (length L = length (st_leaves (mmr_build H seals))) as EL by (by rewrite <- HL, length_map).
  split_and!.
  - rewrite <- (rep_leaves _ _ _ R). by apply map_uncommitted.
  - by apply map_uncommitted.
  - rewrite EL, <- (rep_indices _ _ _ R). by apply map_uncommitted.
  - rewrite EL. apply build_length. lia.
  - pose proof (rep_hashes _ _ _ R) as HF. rewrite <- HL, Forall_map in HF. exact HF.
Qed.

Lemma walk_loop_done fuel L m w : walk_loop fuel L m (currentPos w) w = Some (Some w).
Proof. destruct fuel; cbn; by rewrite Z.eqb_refl. Qed.

Lemma climb_from_leaf seals L i q s (m := nodeByPosition L (st_nodes (mmr_build H seals))) :
  (∀ x, H x ≠ EmptyString) →
  (Z.of_nat (length seals) < 2 ^ 30)%Z →
  map uncommitted L = st_leaves (mmr_build H seals) →
  fleaves (mmr_forest seals) !! i = Some (q, s) →
  provable_leaf seals i = true →
  ∃ pi t w, find_peak 0 q (st_peaks (mmr_build H seals)) m = Some (Z.of_nat pi, t) ∧
    st_peaks (mmr_build H seals) !! pi = Some t ∧
    walk_loop walk_fuel L m (position t) (mkWalk q 0 [] []) = Some (Some w) ∧
    walkToSubtreeRoot H (siblingHashes w) (isRightSibling w) (seal_hash H s) = Some (hash t).
Proof.
  intros Hne Hlt HL Hi Hc. pose proof (build_represents H seals ltac:(lia)) as R.
  destruct (committed_state _ _ Hlt HL) as (Le & Ln & _ & _ & _).
  destruct (forest_heights _ Hlt) as [_ Hh].
  assert (∀ q h, m !! q = Some h ↔ (q, h) ∈ fnodes H (mmr_forest seals)) as Hm.
  { apply nodeByPosition_spec. rewrite Ln. apply R. }
  rewrite leaves_left_to_right in Hi.
  destruct (locate_leaf _ _ _ _ _ Hi Hc) as (ts & t & vs & k & Ef & Hk & Hck).
  change (0 + fsize ts)%Z with (fsize ts) in *.
  assert (mmr_forest seals = rev vs ++ t :: rev ts) as Ef'.
  { rewrite <- (rev_involutive (mmr_forest seals)), Ef, rev_app_distr. cbn. by rewrite <- app_assoc. }
  assert (is_Some (m !! q)) as Hq.
  { exists (seal_hash H s). apply Hm, fleaves_fnodes. rewrite leaves_left_to_right.
    by apply list_elem_of_lookup_2 in Hi. }
  assert (Forall (λ u, perfect u ∧ theight u < 30) (ts ++ t :: vs)) as Hts.
  { rewrite <- Ef. by apply Forall_rev. }
  pose proof (tleaf_position _ _ _ _ _ Hk) as Hrange.
  assert (st_peaks (mmr_build H seals) = peaks_from H 0 (ts ++ t :: vs)) as Ep.
  { by rewrite (rep_peaks _ _ _ R), peaks_left_to_right, Ef. }
  pose proof (find_peak_spec H m 0 q 0 ts t vs Hq Hts ltac:(lia)) as Fp.
  pose proof (tree_placed H L m (mmr_forest seals) Hm Le Hne _ _ _ Ef' (rep_ok _ _ _ R)) as Pl.
  rewrite fsize_rev in Pl. specialize (Pl ltac:(eapply Forall_impl; [exact Hh|naive_solver])).
  exists (length ts), (tree_peak H (fsize ts) t),
    (mkWalk (fsize ts + tsize t - 1) (Z.of_nat (theight t)) (auth_siblings H t k) (auth_dirs t k)).
  rewrite Ep. split_and!.
  - exact Fp.
  - rewrite peaks_from_app, lookup_app_r.
    + assert (∀ us b, length (peaks_from H b us) = length us) as HLen.
      { induction us as [|u us IH]; intros b; cbn; [done|]. by rewrite IH. }
      rewrite HLen, Nat.sub_diag. done.
    + clear. generalize 0%Z. induction ts as [|u ts IH]; intros b; cbn; [done|]. specialize (IH (b + tsize u)%Z). lia.
  - assert (theight t < 30) as Ht by apply Pl.
    replace walk_fuel with (theight t + (31 - theight t)) by (unfold walk_fuel; lia).
    rewrite (climb H L m (mmr_forest seals) Hm Le Hne t (fsize ts) k _ _ q s Pl Hk Hck) by (cbn; lia).
    apply (walk_loop_done _ L m (mkWalk (fsize ts + tsize t - 1) _ _ _)).
  - exact (walk_auth _ _ _ _ _ Hk).
Qed.

(** Completeness of inclusion proofs.  Append any list of seals (below 2^30 of
    them) to an empty MMR and commit the leaf [i] to a checkpoint, so that its
    recorded [checkpoint_id] is non-empty.  Unless [i] is one of the leaves
    the climbing loop loses (see the counterexample below), asking for the
    proof of leaf [i] yields a proof that names that checkpoint, and the
    verifier accepts it for the sealed root of that conversation and the
    checkpoint's bagged peak hash. *)
Theorem inclusion_proof_complete seals L i l cid committed :
  (∀ x, H x ≠ EmptyString) →
  (Z.of_nat (length seals) < 2 ^ 30)%Z →
  map uncommitted L = st_leaves (mmr_build H seals) →
  L !! i = Some l →
  present (checkpoint_id l) = Some cid →
  provable_leaf seals i = true →
  ∃ proof,
    computeInclusionProof (Z.of_nat i) L (st_nodes (mmr_build H seals))
      (st_peaks (mmr_build H seals)) (Some committed) = Some (Proof_of proof) ∧
    p_checkpoint_id proof = cid ∧
    p_leaf_index proof = Z.of_nat i ∧
    verifyInclusionProof H proof (seal_merkle_root l)
      (bagPeakHashes H (map hash (st_peaks (mmr_build H seals)))) = true.
Proof.
  intros Hne Hlt HL Hi Hcid Hc.
  destruct (committed_state _ _ Hlt HL) as (Le & _ & Lx & Ll & Lh).
  assert (fleaves (mmr_forest seals) !! i = Some (mmr_position l, leaf_seal l)) as Hfi.
  { rewrite <- Le. rewrite list_lookup_fmap, Hi. done. }
  assert (leaf_index l = Z.of_nat i) as Hidx.
  { assert (map leaf_index L !! i = Some (leaf_index l)) as E by (rewrite list_lookup_fmap, Hi; done).
    rewrite Lx in E. apply lookup_seqZ in E as [-> _]. lia. }
  assert (leaf_hash l = seal_hash H (leaf_seal l)) as Hhash.
  { rewrite Forall_forall in Lh. apply Lh. by apply list_elem_of_lookup_2 in Hi. }
  destruct (climb_from_leaf _ _ _ _ _ Hne Hlt HL Hfi Hc) as (pi & t & w & Hfp & Hpk & Hw & Hroot).
  assert (List.find (λ l, leaf_index l =? Z.of_nat i)%Z L = Some l) as Hfind.
  { rewrite <- Hidx. apply find_by_key; [rewrite Lx; apply NoDup_seqZ|].
    by apply list_elem_of_lookup_2 in Hi. }
  eexists. unfold computeInclusionProof. rewrite Hfind, Hfp, Hw, Hcid.
  split_and!; [done..|].
  unfold verifyInclusionProof. cbn [p_leaf_index p_recorded_at p_leaf_hash sibling_hashes
    is_right_sibling peaks peak_index].
  rewrite bool_decide_eq_true_2 by (rewrite <- Hidx, Hhash; done). cbn [negb].
  rewrite Hhash, Hroot. pose proof (lookup_lt_Some _ _ _ Hpk) as Hlen.
  rewrite (bool_decide_eq_false_2 (_ = [])).
  2:{ intros E. apply (f_equal length) in E. rewrite length_map in E. cbn in E. lia. }
  rewrite length_map, (proj2 (Z.ltb_ge _ _)), (proj2 (Z.leb_gt _ _)) by lia. cbn [orb].
  rewrite Nat2Z.id, (bool_decide_eq_true_2 (_ !! pi = _)).
  2:{ by rewrite list_lookup_fmap, Hpk. }
  cbn [negb]. by apply bool_decide_eq_true.
Qed.

(** ** Positions, peaks and hashes after any number of appends *)

Lemma fpeaks_heights f : map height (fpeaks H f) = map (λ t, Z.of_nat (theight t)) f.
Proof. induction f as [|t f IH]; [done|]. cbn. by rewrite IH. Qed.

Lemma sorted_peaks f :
  StronglySorted lt (map theight f) → StronglySorted Z.lt (map height (fpeaks H f)).
Proof.
  rewrite fpeaks_heights. induction f as [|t f IH]; cbn; [constructor|].
  intros Hs. inversion Hs as [|? ? Hs' Hf]; subst. constructor; [by apply IH|].
  rewrite Forall_map in *. eapply Forall_impl; [exact Hf|]. cbn. intros; lia.
Qed.

Lemma peaks_cover f :
  Forall perfect f →
  sum_by (λ p, 2 ^ height p)%Z (fpeaks H f) = Z.of_nat (length (fseals f)).
Proof.
  induction 1 as [|t f Ht _ IH]; [done|]. cbn [fpeaks sum_by]. rewrite IH, fseals_cons, length_app.
  rewrite Nat2Z.inj_add, (tseals_length t Ht). cbn. lia.
Qed.

(** The append invariant.  After appending any list of at most 2^31 seals
    one by one: the leaves carry the indices 0, 1, 2, ... and the seals in
    order; the positions of leaves and inner nodes are exactly
    0 .. 2N - popcount(N) - 1, each used once; the peaks have strictly
    decreasing heights from left to right and cover exactly N leaves. *)
Theorem append_invariant seals (st := mmr_build H seals) (N := Z.of_nat (length seals)) :
  (N <= 2 ^ 31)%Z →
  map leaf_index (st_leaves st) = seqZ 0 N ∧
  map (λ l, (seal_merkle_root l, recorded_at l)) (st_leaves st) = seals ∧
  map mmr_position (st_leaves st) ++ map node_position (st_nodes st)
    ≡ₚ seqZ 0 (2 * N - Zpopcount N) ∧
  StronglySorted Z.lt (rev (map height (st_peaks st))) ∧
  sum_by (λ p, 2 ^ height p)%Z (rev (st_peaks st)) = N.
Proof.
  intros Hlt. pose proof (build_represents H seals Hlt) as R. fold st in R.
  pose proof (build_length H seals Hlt) as HL. fold st in HL.
  pose proof (rep_ok _ _ _ R) as Hok. split_and!.
  - rewrite (rep_indices _ _ _ R). by rewrite HL.
  - assert (map leaf_seal (st_leaves st) = imap (λ i x, mkSeal (Z.of_nat i) x.1 x.2) seals) as E.
    { rewrite <- forest_seals, <- fleaves_seals, <- (rep_leaves _ _ _ R), map_map. done. }
    apply (f_equal (map (λ s, (s_root s, s_recorded s)))) in E. rewrite map_map in E.
    etransitivity; [exact E|]. clear. apply list_eq. intros i.
    rewrite list_lookup_fmap, list_lookup_imap. destruct (seals !! i) as [[? ?]|]; done.
  - assert (map mmr_position (st_leaves st) ++ map node_position (st_nodes st) =
            map fst (map leaf_node (st_leaves st) ++ map node_entry (st_nodes st))) as ->.
    { rewrite map_app, !map_map. done. }
    rewrite (Permutation_map fst (rep_nodes _ _ _ R)), fnodes_positions, (fsize_count _ (proj1 Hok)).
    unfold N. rewrite <- (forest_length seals) at 2. by rewrite fseals_popcount, forest_length.
  - rewrite (rep_peaks _ _ _ R), map_rev, rev_involutive. apply sorted_peaks, Hok.
  - rewrite (rep_peaks _ _ _ R), rev_involutive, peaks_cover by apply Hok.
    by rewrite forest_length.
Qed.

(** ** Termination of the climbing loop *)

Lemma nodeByPosition_range (L : list MmrLeaf) (ns : list MmrNode) lo hi :
  (∀ l, l ∈ L → lo <= mmr_position l < hi)%Z → (∀ n, n ∈ ns → lo <= node_position n < hi)%Z →
  ∀ q, is_Some (nodeByPosition L ns !! q) → (lo <= q < hi)%Z.
Proof.
  intros HL Hn q. unfold nodeByPosition.
  assert (∀ (m : gmap Z string), (∀ q, is_Some (m !! q) → (lo <= q < hi)%Z) →
    ∀ q, is_Some (foldl (λ m n, <[node_position n := node_hash n]> m) m ns !! q) → (lo <= q < hi)%Z) as A.
  { clear HL q. induction ns as [|n ns IH]; intros m Hm q; [by apply Hm|]. cbn.
    apply IH; [intros; apply Hn; by right|]. intros q'. rewrite lookup_insert.
    case_decide; [|by apply Hm]. subst. intros _. apply Hn. left. }
  assert (∀ (m : gmap Z string), (∀ q, is_Some (m !! q) → (lo <= q < hi)%Z) →
    ∀ q, is_Some (foldl (λ m l, <[mmr_position l := leaf_hash l]> m) m L !! q) → (lo <= q < hi)%Z) as B.
  { clear A Hn q. induction L as [|l L IH]; intros m Hm q; [by apply Hm|]. cbn.
    apply IH; [intros; apply HL; by right|]. intros q'. rewrite lookup_insert.
    case_decide; [|by apply Hm]. subst. intros _. apply HL. left. }
  apply A, B. intros q' [? Hx]. by rewrite lookup_empty in Hx.
Qed.

Lemma present_is_some o h : present o = Some h → is_Some o.
Proof. destruct o; [done|]. done. Qed.

Lemma walk_loop_total L m peakPos fuel w :
  (∀ q, is_Some (m !! q) → 0 <= q < 2 ^ 30)%Z →
  (0 <= currentHeight w)%Z → (currentHeight w + Z.of_nat fuel = 31)%Z → fuel ≠ 0 →
  (0 <= currentPos w <= 2 ^ 30 + currentHeight w)%Z →
  walk_loop fuel L m peakPos w ≠ None.
Proof.
  intros Hm. revert w. induction fuel as [|fuel IH]; intros [pos h ss ds] Hh Hf Hz Hp; [done|].
  cbn [currentHeight currentPos] in *. cbn [walk_loop].
  destruct (_ =? _)%Z; [done|]. destruct (walk_step L m _) as [w'|] eqn:Es; [|done].
  unfold walk_step in Es. cbn [currentPos currentHeight siblingHashes isRightSibling] in Es.
  destruct (decide (h = 30%Z)) as [->|Hne].
  - (* the next shift overflows: no entry is found *)
    exfalso. change (js_shl1 (30 + 1) - 1)%Z with (- 2147483649)%Z in Es.
    assert (∀ q, m !! q = None ∨ (0 <= q < 2 ^ 30)%Z) as Hn.
    { intros q. destruct (m !! q) eqn:E; [right; apply Hm; by rewrite E|by left]. }
    destruct (Hn (pos - -2147483649)%Z) as [E1|?]; [|lia].
    destruct (Hn (pos + -2147483649)%Z) as [E2|?]; [|lia].
    rewrite E1, E2 in Es. cbn in Es. case_match; done.
  - rewrite js_shl1_small in Es by lia.
    assert (2 ^ 1 <= 2 ^ (h + 1))%Z by (apply Z.pow_le_mono_r; lia).
    case_match; (destruct (present _) eqn:Epr; [|done]); injection Es as <-;
      apply present_is_some, Hm in Epr; apply IH; cbn; lia.
Qed.

(** Termination: for leaves and nodes at positions below 2^30 and a leaf
    height loop that starts at height 0, proof generation always returns. *)
Theorem inclusion_proof_terminates leafIndex L ns ps committed :
  (∀ l, l ∈ L → 0 <= mmr_position l < 2 ^ 30)%Z →
  (∀ n, n ∈ ns → 0 <= node_position n < 2 ^ 30)%Z →
  computeInclusionProof leafIndex L ns ps committed ≠ None.
Proof.
  intros HL Hn. unfold computeInclusionProof.
  destruct committed; [|done]. destruct (List.find _ L) as [l|] eqn:El; [|done].
  apply find_some_elem in El as [El _].
  destruct (find_peak _ _ _ _) as [[pi peak]|]; [|done].
  pose proof (walk_loop_total L (nodeByPosition L ns) (position peak) walk_fuel
    (mkWalk (mmr_position l) 0 [] []) (nodeByPosition_range L ns 0 (2 ^ 30) HL Hn)) as Hw.
  specialize (HL l El). cbn [currentHeight currentPos] in Hw.
  specialize (Hw ltac:(lia) eq_refl ltac:(done) ltac:(lia)).
  destruct (walk_loop _ _ _ _ _) as [[w|]|]; [|done|done].
  by destruct (present _).
Qed.

End WithHash.

(** * Bounds *)

(** Leaf positions: for every leaf index below 2^31 the code computes
    2i - popcount(i) with its 32-bit operators, and never runs out of fuel. *)
Theorem position_exact leafIndex :
  (0 <= leafIndex < 2 ^ 31)%Z →
  computeMmrPosition leafIndex = (2 * leafIndex - Zpopcount leafIndex)%Z ∧
  is_Some (popcount_loop popcount_fuel leafIndex 0).
Proof.
  intros Hi. unfold computeMmrPosition, popcount_fuel. rewrite popcount_loop_ok by lia.
  cbn. split; [lia|done].
Qed.

(** The bound of C4 is sharp: at leaf index 2^31 the sign bit of the 32-bit
    operators ends the loop at once and the position is one too high. *)
Theorem position_overflow :
  computeMmrPosition (2 ^ 31) = (2 ^ 32)%Z ∧ (2 * 2 ^ 31 - Zpopcount (2 ^ 31) = 2 ^ 32 - 1)%Z.
Proof. by split; vm_compute. Qed.

(** * Leaves the code cannot prove *)

Definition commit_leaf (cid : string) (l : MmrLeaf) : MmrLeaf :=
  mkLeaf (leaf_index l) (mmr_position l) (leaf_hash l) (seal_merkle_root l) (recorded_at l)
    (session_id l) (Some cid).

Lemma commit_uncommitted cid L : map uncommitted (map (commit_leaf cid) L) = map uncommitted L.
Proof. rewrite map_map. by apply map_ext. Qed.

Definition eight_seals : list (string * string) := replicate 8 ("r", "t").

Definition eight_state : mmr_state := mmr_build tag_hash eight_seals.
Definition eight_leaves : list MmrLeaf := map (commit_leaf "cp") (st_leaves eight_state).

Definition proof_kind (leaf : Z) : option bool :=
  match computeInclusionProof leaf eight_leaves (st_nodes eight_state)
          (st_peaks eight_state) (Some "root") with
  | Some (Proof_of _) => Some true
  | Some PROOF_NOT_YET_AVAILABLE => Some false
  | None => None
  end.

(** A defect, by evaluation.  In an MMR of eight leaves that are all committed,
    the code returns proofs of the leaves 0-3, 6 and 7 and reports that the
    proofs of the leaves 4 and 5 are not yet available: on the way up from
    them [isRightChildNode] takes a left child for a right one, because the
    position before its subtree is occupied. *)
Theorem committed_leaf_without_proof :
  map proof_kind [0; 1; 2; 3; 4; 5; 6; 7]%Z =
  map Some [true; true; true; true; false; false; true; true] ∧
  map (provable_leaf eight_seals) (seq 0 8) = [true; true; true; true; false; false; true; true].
Proof. split; vm_compute; reflexivity. Qed.

(** * Witnesses *)

Lemma inclusion_proof_complete_witness :
  ∃ proof,
    computeInclusionProof 3 eight_leaves (st_nodes eight_state) (st_peaks eight_state) (Some "root")
      = Some (Proof_of proof) ∧
    p_checkpoint_id proof = "cp" ∧ p_leaf_index proof = 3%Z ∧
    verifyInclusionProof tag_hash proof "r"
      (bagPeakHashes tag_hash (map hash (st_peaks eight_state))) = true.
Proof.
  apply (inclusion_proof_complete tag_hash eight_seals eight_leaves 3
    (mkLeaf 3 4 (computeLeafHash tag_hash 3 "r" "t") "r" "t" None (Some "cp")) "cp" "root").
  - exact tag_hash_nonempty.
  - vm_compute; reflexivity.
  - vm_compute; reflexivity.
  - vm_compute; reflexivity.
  - vm_compute; reflexivity.
  - vm_compute; reflexivity.
Defined.

Lemma append_invariant_witness :
  map leaf_index (st_leaves eight_state) = seqZ 0 8 ∧
  map mmr_position (st_leaves eight_state) ++ map node_position (st_nodes eight_state)
    ≡ₚ seqZ 0 15.
Proof.
  destruct (append_invariant tag_hash eight_seals) as (H1 & _ & H2 & _).
  - vm_compute. discriminate.
  - split; [exact H1|exact H2].
Defined.

Lemma inclusion_proof_terminates_witness :
  computeInclusionProof 1 [mkLeaf 0 0 "a" "r" "t" None None; mkLeaf 1 1 "b" "r" "t" None (Some "c")]
    [mkNode 2 "ab" 1] [mkPeak 2 "ab" 1] (Some "root") ≠ None.
Proof.
  apply inclusion_proof_terminates.
  - intros l Hl. repeat (apply elem_of_cons in Hl as [->|Hl]; [vm_compute; intuition congruence|]).
    by apply not_elem_of_nil in Hl.
  - intros n Hn. apply elem_of_cons in Hn as [->|Hn]; [vm_compute; intuition congruence|].
    by apply not_elem_of_nil in Hn.
Defined.

Lemma position_exact_witness : computeMmrPosition 7 = 11%Z.
Proof. destruct (position_exact 7) as [E _]; [lia|exact E]. Defined.

End MmrTheorems.
