(* ===== verification/MmrSound.v ===== *)
(** Soundness of the inclusion-proof verifier of [Mmr]: what an accepted proof,
    however it was made, says about the conversations that were sealed. *)
From Stdlib Require Import Ascii.
From S2P Require Import Prelude Text Mmr MmrProofs MmrTheorems.
Import Text Mmr MmrSpec MmrProofs MmrTheorems.

Module MmrSound.

Section WithHash.
Variable H : string → string.
Hypothesis H_hex : ∀ x, hex64 (H x).

(** What is hashed: a sealed leaf, or a concatenation of hashes (two children, or
    all peaks). *)
Inductive pre : Type :=
| PLeaf (s : seal)
| PJoin (hs : list string).

Definition pre_string (p : pre) : string :=
  match p with
  | PLeaf s => leaf_preimage (s_index s) (s_root s) (s_recorded s)
  | PJoin hs => sjoin hs
  end.

Fixpoint tpres (t : tree) : list pre :=
  match t with
  | Leaf s => [PLeaf s]
  | Node l r => tpres l ++ tpres r ++ [PJoin [troot H l; troot H r]]
  end.

Definition fpres (f : list tree) : list pre := concat (map tpres f).

Definition bag_pres (hs : list string) : list pre :=
  match hs with [] | [_] => [] | _ => [PJoin hs] end.

(** Everything hashed to build the MMR of a forest and its checkpoint hash. *)
Definition honest (f : list tree) : list pre :=
  fpres f ++ bag_pres (map hash (rev (fpeaks H f))).

(** Everything the verifier hashes while it walks up. *)
Fixpoint walk_inputs (ss : list string) (ds : list bool) (c : string) : list string :=
  match ss, ds with
  | x :: ss, d :: ds =>
      let i := if d then x +:+ c else c +:+ x in i :: walk_inputs ss ds (H i)
  | _, _ => []
  end.

Definition verifier_inputs (proof : ConversationInclusionProof) (root : string) : list string :=
  leaf_preimage (p_leaf_index proof) root (p_recorded_at proof) ::
  walk_inputs (sibling_hashes proof) (is_right_sibling proof) (p_leaf_hash proof) ++
  map pre_string (bag_pres (peaks proof)).

(** ** Genuine hashes *)

Definition genuine (ps : list pre) (h : string) : Prop := ∃ p, p ∈ ps ∧ h = H (pre_string p).

Lemma genuine_mono ps ps' h : ps ⊆ ps' → genuine ps h → genuine ps' h.
Proof. intros Hs (p & Hp & E). exists p. auto. Qed.

Lemma troot_genuine t : genuine (tpres t) (troot H t).
Proof.
  destruct t as [s|l r].
  - exists (PLeaf s). split; [left|done].
  - exists (PJoin [troot H l; troot H r]). split; [cbn; set_solver|].
    cbn. unfold computeNodeHash. by rewrite str_app_nil_r.
Qed.

(** Joined hashes are digests, at least two of them, all genuine. *)
Definition pre_ok (ps : list pre) (p : pre) : Prop :=
  match p with
  | PLeaf _ => True
  | PJoin hs => 2 <= length hs ∧ Forall hex64 hs ∧ Forall (genuine ps) hs
  end.

Lemma troot_hex64 t : hex64 (troot H t).
Proof. destruct t; apply H_hex. Qed.

Lemma pre_ok_mono ps ps' p : ps ⊆ ps' → pre_ok ps p → pre_ok ps' p.
Proof.
  intros Hs. destruct p; [done|]. cbn. intros (? & ? & Hg). split_and!; [done..|].
  eapply Forall_impl; [exact Hg|]. intros. by eapply genuine_mono.
Qed.

Lemma tpres_ok t p : p ∈ tpres t → pre_ok (tpres t) p.
Proof.
  revert p. induction t as [s|l IHl r IHr]; cbn [tpres]; intros p Hp.
  - apply list_elem_of_singleton in Hp as ->. done.
  - rewrite !elem_of_app, list_elem_of_singleton in Hp. destruct Hp as [Hp|[Hp| ->]].
    + eapply pre_ok_mono; [|by apply IHl]. intros x Hx. rewrite !elem_of_app. by left.
    + eapply pre_ok_mono; [|by apply IHr]. intros x Hx. rewrite !elem_of_app. right; by left.
    + cbn. split; [lia|]. split.
      * repeat constructor; apply H_hex || apply troot_hex64.
      * repeat constructor; (eapply genuine_mono; [|apply troot_genuine]);
          intros x Hx; rewrite !elem_of_app; auto.
Qed.

Lemma fpres_tree f t : t ∈ f → tpres t ⊆ fpres f.
Proof.
  unfold fpres. induction f as [|u f IH]; [by intros ?%not_elem_of_nil|].
  cbn. intros [->|Ht]%elem_of_cons x Hx; rewrite elem_of_app; [by left|right; by apply IH].
Qed.

Lemma fpres_inv f p : p ∈ fpres f → ∃ t, t ∈ f ∧ p ∈ tpres t.
Proof.
  unfold fpres. induction f as [|u f IH]; [by intros ?%not_elem_of_nil|].
  cbn. rewrite elem_of_app. intros [?|Hp]; [exists u; split; [left|done]|].
  destruct (IH Hp) as (t & ? & ?). exists t. split; [by right|done].
Qed.

Lemma peak_hashes_genuine f : Forall (genuine (fpres f)) (map hash (rev (fpeaks H f))).
Proof.
  rewrite map_rev. apply Forall_rev.
  assert (∀ g, g ⊆ f → Forall (genuine (fpres f)) (map hash (fpeaks H g))) as G; [|by apply G].
  induction g as [|t g IH]; intros Hg; cbn; constructor.
  - eapply genuine_mono; [|apply troot_genuine]. apply fpres_tree, Hg. left.
  - apply IH. intros x Hx. apply Hg. by right.
Qed.

Lemma peak_hashes_hex f : Forall hex64 (map hash (rev (fpeaks H f))).
Proof.
  rewrite map_rev. apply Forall_rev. induction f as [|t f IH]; cbn; constructor; [|done].
  apply troot_hex64.
Qed.

Lemma honest_ok f p : p ∈ honest f → pre_ok (honest f) p.
Proof.
  unfold honest. rewrite elem_of_app. intros [Hp|Hp].
  - apply fpres_inv in Hp as (t & Ht & Hp). apply tpres_ok in Hp.
    eapply pre_ok_mono; [|exact Hp]. intros x Hx. rewrite elem_of_app. left.
    by apply (fpres_tree f t).
  - pose proof (peak_hashes_genuine f) as Hg. pose proof (peak_hashes_hex f) as Hx.
    destruct (map hash (rev (fpeaks H f))) as [|a [|b l]]; try (by apply not_elem_of_nil in Hp).
    cbn in Hp. apply list_elem_of_singleton in Hp as ->. cbn. split; [lia|]. split; [done|].
    eapply Forall_impl; [exact Hg|]. intros h. apply genuine_mono.
    intros y Hy. rewrite elem_of_app. by left.
Qed.

(** The checkpoint hash of a non-empty forest is itself genuine. *)
Lemma bag_genuine f : f ≠ [] → genuine (honest f) (bagPeakHashes H (map hash (rev (fpeaks H f)))).
Proof.
  intros Hne. unfold honest. pose proof (peak_hashes_genuine f) as Hg.
  assert (map hash (rev (fpeaks H f)) ≠ []) as Hnn.
  { destruct f as [|t f]; [done|]. cbn. rewrite map_app. intros E.
    apply (f_equal length) in E. rewrite length_app in E. cbn in E. lia. }
  destruct (map hash (rev (fpeaks H f))) as [|a [|b l]]; [done| |].
  - cbn. apply Forall_cons in Hg as [Hg _]. rewrite app_nil_r. done.
  - exists (PJoin (a :: b :: l)). split; [|done]. cbn [bag_pres]. set_solver.
Qed.

(** ** One level up *)

(** A seal the directory records: the index of a leaf, a root of 64 characters,
    a timestamp of fewer than 64 (an ISO date has 24). *)
Definition seal_shape (s : seal) : Prop :=
  (0 <= s_index s < 2 ^ 31)%Z ∧ String.length (s_root s) = 64 ∧ String.length (s_recorded s) < 63.

Definition pre_shape (p : pre) : Prop :=
  match p with PLeaf s => seal_shape s | PJoin _ => True end.

Lemma leaf_index_short s : seal_shape s → String.length (pretty (s_index s)) <= 10.
Proof. intros (Hi & _). apply pretty_Z_length; lia. Qed.

Lemma has_colon_mid a b : has_char ":" (a +:+ (":" +:+ b)) = true.
Proof. rewrite has_char_app. cbn. apply orb_true_r. Qed.

(** A digest is neither the start nor the end of a leaf preimage. *)
Lemma digest_not_in_leaf s c x :
  seal_shape s → hex64 c → pre_string (PLeaf s) = x +:+ c ∨ pre_string (PLeaf s) = c +:+ x → False.
Proof.
  intros Hs [Hc Hn] E. pose proof (leaf_index_short s Hs) as Hl. destruct Hs as (_ & Hr & Ht).
  cbn [pre_string] in E. unfold leaf_preimage in E. destruct E as [E|E]; symmetry in E.
  - rewrite <- !str_app_assoc in E. rewrite (str_app_assoc _ ":" (s_recorded s)) in E.
    destruct (window_end x c _ (":" +:+ s_recorded s) E) as [d ->].
    { rewrite str_app_length. cbn. lia. }
    by rewrite has_colon_mid in Hn.
  - rewrite <- (str_app_assoc (pretty _) ":") in E.
    destruct (window_start c x _ _ E) as [d ->].
    { rewrite str_app_length. cbn. lia. }
    rewrite str_app_assoc in Hn. by rewrite has_colon_mid in Hn.
Qed.

Lemma sjoin_app l k : sjoin (l ++ k) = sjoin l +:+ sjoin k.
Proof. induction l as [|x l IH]; [done|]. cbn [app]. by rewrite !sjoin_cons, IH, str_app_assoc. Qed.

Lemma genuine_child ps q c x i :
  pre_ok ps q → pre_shape q → hex64 c →
  i = x +:+ c ∨ i = c +:+ x → i = pre_string q → genuine ps c.
Proof.
  intros Hq Hs Hc Hi Ei. destruct q as [s|hs].
  - exfalso. apply (digest_not_in_leaf s c x Hs Hc). rewrite <- Ei. exact Hi.
  - destruct Hq as (Hlen & Hx & Hg). cbn [pre_string] in Ei. destruct Hc as [Hc _].
    destruct Hi as [Hi|Hi]; rewrite Hi in Ei.
    + destruct (exists_last (l := hs)) as (l & y & ->); [by intros ->; cbn in Hlen; lia|].
      apply Forall_app in Hx as [_ Hx]. apply Forall_app in Hg as [_ Hg].
      apply Forall_cons in Hx as [[Hy _] _]. apply Forall_cons in Hg as [Hg _].
      rewrite sjoin_app in Ei. change (sjoin [y]) with (y +:+ EmptyString) in Ei.
      rewrite str_app_nil_r in Ei.
      assert (c = y) as ->; [|done].
      apply (f_equal String.length) in Ei as El. rewrite !str_app_length in El.
      by destruct (str_app_inj_len x c (sjoin l) y ltac:(lia) Ei).
    + destruct hs as [|y hs]; [cbn in Hlen; lia|].
      apply Forall_cons in Hx as [[Hy _] _]. apply Forall_cons in Hg as [Hg _].
      rewrite sjoin_cons in Ei. by destruct (str_app_inj_len c x y (sjoin hs) ltac:(lia) Ei) as [-> _].
Qed.

(** ** The whole walk *)

Lemma walk_genuine ps ss ds c r :
  (∀ p, p ∈ ps → pre_ok ps p ∧ pre_shape p) → hex64 c →
  walkToSubtreeRoot H ss ds c = Some r → genuine ps r →
  genuine ps c ∨ collision_among H (map pre_string ps ++ walk_inputs ss ds c).
Proof.
  intros Hps. revert ds c. induction ss as [|x ss IH]; intros ds c Hc Hw Hr; cbn in Hw.
  { injection Hw as ->. by left. }
  destruct ds as [|d ds]; [done|]. cbn [walk_inputs]. set (i := if d then x +:+ c else c +:+ x).
  assert ((if d then computeNodeHash H x c else computeNodeHash H c x) = H i) as Ei by (by destruct d).
  rewrite Ei in Hw. destruct (IH ds (H i) (H_hex i) Hw Hr) as [(q & Hq & E)|Hcol].
  - destruct (Hps q Hq) as [Hok Hsh].
    destruct (collision_or_eq H (map pre_string ps ++ i :: walk_inputs ss ds (H i)) i (pre_string q)) as [Eq|];
      [| |done| |by right].
    + rewrite elem_of_app. right. left.
    + rewrite elem_of_app. left. by apply list_elem_of_fmap_2.
    + left. apply (genuine_child ps q c x i Hok Hsh Hc); [|done].
      unfold i. destruct d; [by left|by right].
  - right. eapply collision_mono; [|exact Hcol]. intros y. rewrite !elem_of_app. intros [?|?]; [by left|].
    right. by right.
Qed.

(** A genuine claimed leaf is one of the sealed leaves. *)
Lemma leaf_preimage_inj i root ts i' root' ts' :
  String.length root = 64 → String.length root' = 64 →
  leaf_preimage i root ts = leaf_preimage i' root' ts' → i = i' ∧ root = root' ∧ ts = ts'.
Proof.
  intros Hr Hr' E. unfold leaf_preimage in E.
  apply (cut_at ":") in E as [Ei E].
  - apply (inj pretty) in Ei. apply str_app_inj_len in E as [Er E]; [|congruence].
    apply str_app_inj_l in E. done.
  - apply pretty_Z_char. set_solver.
  - apply pretty_Z_char. set_solver.
Qed.

Lemma leaf_genuine ps i root ts l :
  (∀ p, p ∈ ps → pre_ok ps p ∧ pre_shape p) → String.length root = 64 →
  genuine ps (computeLeafHash H i root ts) →
  leaf_preimage i root ts ∈ l → map pre_string ps ⊆ l →
  PLeaf (mkSeal i root ts) ∈ ps ∨ collision_among H l.
Proof.
  intros Hps Hroot (q & Hq & E) Hin Hsub. destruct (Hps q Hq) as [Hok Hsh].
  destruct (collision_or_eq H l (leaf_preimage i root ts) (pre_string q)) as [Eq|]; [done| |done| |by right].
  - by apply Hsub, list_elem_of_fmap_2.
  - left. destruct q as [[i' root' ts']|hs].
    + destruct Hsh as (_ & Hr & _). apply leaf_preimage_inj in Eq as (-> & -> & ->); done.
    + exfalso. destruct Hok as (_ & Hx & _). apply hex64_join in Hx.
      cbn [pre_string] in Eq. rewrite <- Eq in Hx. unfold leaf_preimage in Hx.
      by rewrite has_colon_mid in Hx.
Qed.

(** ** Accepted proofs *)

Lemma fpres_leaf f s : PLeaf s ∈ fpres f → s ∈ fseals f.
Proof.
  intros (t & Ht & Hp)%fpres_inv.
  assert (s ∈ tseals t) as Hs.
  { clear Ht. induction t as [s'|l IHl r IHr]; cbn [tpres tseals] in *.
    - apply list_elem_of_singleton in Hp. injection Hp as ->. left.
    - rewrite !elem_of_app, list_elem_of_singleton in Hp. rewrite elem_of_app. naive_solver. }
  clear Hp. induction f as [|u f IH]; [by apply not_elem_of_nil in Ht|].
  rewrite fseals_cons, elem_of_app. apply elem_of_cons in Ht as [->|Ht]; [by right|]. left. by apply IH.
Qed.

Lemma honest_leaf f s : PLeaf s ∈ honest f → s ∈ fseals f.
Proof.
  unfold honest. rewrite elem_of_app. intros [Hp|Hp]; [by apply fpres_leaf|].
  unfold bag_pres in Hp. repeat case_match; try (by apply not_elem_of_nil in Hp).
  by apply list_elem_of_singleton in Hp.
Qed.

Lemma honest_shape f p : Forall seal_shape (fseals f) → p ∈ honest f → pre_shape p.
Proof.
  intros Hf Hp. destruct p as [s|hs]; [|done]. apply honest_leaf in Hp.
  rewrite Forall_forall in Hf. by apply Hf.
Qed.

(** The root the walk reached is one of the proof's peaks, so it is genuine. *)
Lemma peak_genuine ps hs k r l (inputs := map pre_string ps ++ l ++ map pre_string (bag_pres hs)) :
  (∀ p, p ∈ ps → pre_ok ps p ∧ pre_shape p) →
  Forall hex64 hs → hs !! k = Some r → genuine ps (bagPeakHashes H hs) →
  genuine ps r ∨ collision_among H inputs.
Proof.
  intros Hps Hhs Hk Hg. destruct hs as [|a [|b hs]]; [done| |].
  - destruct k; [|by destruct k]. injection Hk as ->. by left.
  - change (bagPeakHashes H (a :: b :: hs)) with (H (sjoin (a :: b :: hs))) in Hg.
    destruct Hg as (q & Hq & E). destruct (Hps q Hq) as [Hok Hsh].
    destruct (collision_or_eq H inputs (sjoin (a :: b :: hs)) (pre_string q)) as [Eq|];
      [| |done| |by right].
    + unfold inputs. rewrite !elem_of_app. right. right. left.
    + unfold inputs. rewrite elem_of_app. left. by apply list_elem_of_fmap_2.
    + left. destruct q as [s|hs'].
      * exfalso. apply Forall_cons in Hhs as [Ha _].
        apply (digest_not_in_leaf s a (sjoin (b :: hs)) Hsh Ha). right. rewrite <- Eq. done.
      * destruct Hok as (_ & Hx & Hg). cbn [pre_string] in Eq.
        apply (sjoin_inj_width 64) in Eq as <-; [|done| |].
        -- rewrite Forall_forall in Hg. apply Hg. by apply list_elem_of_lookup_2 in Hk.
        -- eapply Forall_impl; [exact Hhs|]. by intros ? [? _].
        -- eapply Forall_impl; [exact Hx|]. by intros ? [? _].
Qed.

(** C39. Soundness of the verifier.  Let the MMR hold a non-empty list of sealed
    conversations, with roots of 64 characters and timestamps shorter than
    63, and let a proof, made by anyone, with arbitrary siblings and
    directions, whose peaks look like digests, be accepted for a root of 64
    characters against the checkpoint hash of that MMR.  Then the directory
    did seal that root, at the proof's leaf index and with the proof's
    timestamp, or two of the strings hashed while building the MMR and while
    verifying the proof collide. *)
Theorem inclusion_proof_sound seals proof root :
  seals ≠ [] → (Z.of_nat (length seals) < 2 ^ 31)%Z →
  Forall (λ x, String.length x.1 = 64 ∧ String.length x.2 < 63) seals →
  String.length root = 64 → Forall hex64 (peaks proof) →
  verifyInclusionProof H proof root
    (bagPeakHashes H (map hash (st_peaks (mmr_build H seals)))) = true →
  ((0 <= p_leaf_index proof)%Z ∧
   seals !! Z.to_nat (p_leaf_index proof) = Some (root, p_recorded_at proof)) ∨
  collision_among H (map pre_string (honest (mmr_forest seals)) ++ verifier_inputs proof root).
Proof.
  intros Hne Hlt Hseals Hroot Hpk Hv. set (ps := honest (mmr_forest seals)).
  pose proof (build_represents H seals ltac:(lia)) as R.
  assert (Forall seal_shape (fseals (mmr_forest seals))) as Hsh.
  { rewrite forest_seals. apply Forall_lookup_2. intros i s Hi.
    rewrite list_lookup_imap in Hi. destruct (seals !! i) as [x|] eqn:E; [|done]. injection Hi as <-.
    pose proof (lookup_lt_Some _ _ _ E). rewrite Forall_lookup in Hseals.
    destruct (Hseals _ _ E) as [??]. repeat split; cbn; try done; lia. }
  assert (∀ p, p ∈ ps → pre_ok ps p ∧ pre_shape p) as Hps.
  { intros p Hp. split; [by apply honest_ok|by eapply honest_shape]. }
  unfold verifyInclusionProof in Hv. rewrite (rep_peaks _ _ _ R) in Hv.
  destruct (bool_decide (_ = p_leaf_hash proof)) eqn:Eleaf; [|done]. bools. cbn [negb] in Hv.
  destruct (walkToSubtreeRoot _ _ _ _) as [r|] eqn:Ew; [|done].
  destruct (bool_decide (peaks proof = [])); [done|]. destruct (_ || _); [done|].
  destruct (bool_decide (_ !! _ = _)) eqn:Ek; [|done]. bools. cbn [negb] in Hv. bools.
  assert (mmr_forest seals ≠ []) as Hfne.
  { intros E. pose proof (forest_length seals) as El. rewrite E in El. by destruct seals. }
  pose proof (bag_genuine _ Hfne) as Hbag. rewrite <- Hv in Hbag. fold ps in Hbag.
  unfold verifier_inputs. rewrite app_comm_cons.
  destruct (peak_genuine ps _ _ r (leaf_preimage (p_leaf_index proof) root (p_recorded_at proof)
    :: walk_inputs (sibling_hashes proof) (is_right_sibling proof) (p_leaf_hash proof))
    Hps Hpk Ek Hbag) as [Hr|]; [|by right].
  assert (hex64 (p_leaf_hash proof)) as Hlh by (rewrite <- Eleaf; apply H_hex).
  destruct (walk_genuine ps _ _ _ r Hps Hlh Ew Hr) as [Hg|Hcol].
  2:{ right. eapply collision_mono; [|exact Hcol]. intros y. rewrite !elem_of_app, elem_of_cons. tauto. }
  rewrite <- Eleaf in Hg. destruct (leaf_genuine ps (p_leaf_index proof) root (p_recorded_at proof)
    (map pre_string ps ++ (leaf_preimage (p_leaf_index proof) root (p_recorded_at proof)
       :: walk_inputs (sibling_hashes proof) (is_right_sibling proof) (p_leaf_hash proof))
       ++ map pre_string (bag_pres (peaks proof))) Hps Hroot Hg) as [Hin|]; [..|by right].
  - rewrite !elem_of_app, elem_of_cons. tauto.
  - intros y. rewrite elem_of_app. tauto.
  - left. apply honest_leaf in Hin. rewrite forest_seals in Hin.
    apply list_elem_of_lookup in Hin as [i Hi]. rewrite list_lookup_imap in Hi.
    destruct (seals !! i) as [[a b]|] eqn:E; [|done]. cbn in Hi. injection Hi as Hidx <- <-.
    rewrite <- Hidx, Nat2Z.id. split; [lia|done].
Qed.

End WithHash.

(** * Witness *)

Definition demo_root (c : string) : string := sjoin (replicate 64 c).
Definition two_seals : list (string * string) := [(demo_root "a", "t1"); (demo_root "b", "t2")].

Definition two_proof : ConversationInclusionProof :=
  let st := mmr_build demo_digest two_seals in
  match computeInclusionProof 1 (map (commit_leaf "cp") (st_leaves st)) (st_nodes st)
          (st_peaks st) (Some "root") with
  | Some (Proof_of p) => p
  | _ => mkProof 0 "x" "x" [] [] 0 [] "x"
  end.

Lemma inclusion_proof_sound_witness :
  (0 <= 1)%Z ∧ two_seals !! 1 = Some (demo_root "b", "t2") ∨
  collision_among demo_digest
    (map pre_string (honest demo_digest (mmr_forest two_seals)) ++
     verifier_inputs demo_digest two_proof (demo_root "b")).
Proof.
  assert (p_leaf_index two_proof = 1%Z ∧ p_recorded_at two_proof = "t2") as [E1 E2]
    by (split; vm_compute; reflexivity).
  pose proof (inclusion_proof_sound demo_digest demo_digest_hex64 two_seals two_proof
    (demo_root "b")) as T. rewrite E1, E2 in T. apply T.
  - discriminate.
  - vm_compute. reflexivity.
  - repeat constructor.
  - reflexivity.
  - repeat constructor; vm_compute; reflexivity.
  - vm_compute. reflexivity.
Defined.

End MmrSound.
