(* ===== verification/OnlineToken.v ===== *)
(** The relay online token: a directory's short-lived statement that a key is a
    registered agent's (packages/interfaces/src/relay-online-token.ts).

    Ed25519 is a parameter: [sign] for the minting directory, and [ed_verify],
    which may throw ([None]).  Awaiting the signature is sequencing. *)
From Stdlib Require Import Ascii.
From S2P Require Import Prelude Bytes.
Import Bytes.

Module OnlineToken.

(** * Layout *)

Definition ONLINE_TOKEN_DOMAIN : string := "cello-relay-online-token-v1".
Definition ONLINE_TOKEN_BYTES : nat := 104.
Definition PUBKEY_BYTES : nat := 32.
Definition EXPIRY_BYTES : nat := 8.
Definition SIGNATURE_BYTES : nat := 64.
Definition EXPIRY_OFFSET : nat := PUBKEY_BYTES.
Definition SIGNATURE_OFFSET : nat := PUBKEY_BYTES + EXPIRY_BYTES.
Definition ONLINE_TOKEN_MAX_LIFETIME_MS : Z := 2 * 60 * 60 * 1000.
Definition ONLINE_TOKEN_ISSUE_LIFETIME_MS : Z := 60 * 60 * 1000.
Definition MAX_SAFE_INTEGER : Z := 2 ^ 53 - 1.

Inductive OnlineTokenFailure : Type :=
| online_token_malformed
| online_token_signature_invalid
| online_token_expired
| online_token_lifetime_too_long
| online_token_no_directory_key.

(** The byte 0x00 after the domain. *)
Definition NUL : bytes := String "000" EmptyString.

(** The signed bytes.  [None] is an exception: [BigInt] of a number that is no
    integer, or a key that does not fit the buffer. *)
Definition onlineTokenTbs (agentPubkey : bytes) (expiresAtMs : jsnum) : option bytes :=
  let n := String.length ONLINE_TOKEN_DOMAIN in
  let tbs := zeros (n + 1 + PUBKEY_BYTES + EXPIRY_BYTES) in
  tbs ← set_bytes tbs 0 ONLINE_TOKEN_DOMAIN;
  tbs ← set_bytes tbs n NUL;
  tbs ← set_bytes tbs (n + 1) agentPubkey;
  match expiresAtMs with
  | JInt z => set_bytes tbs (n + 1 + PUBKEY_BYTES) (be_bytes 8 z)
  | _ => None
  end.

(** [Number.isSafeInteger] *)
Definition is_safe_integer (x : jsnum) : bool :=
  match x with JInt z => (Z.abs z <=? MAX_SAFE_INTEGER)%Z | _ => false end.

Definition js_ltb0 (x : jsnum) : bool :=
  match x with JInt z | JFrac z => (z <? 0)%Z | JNegInf => true | _ => false end.

Section Token.
Variable sign : bytes → bytes.
Variable ed_verify : bytes → bytes → bytes → option bool.

Definition mintOnlineToken (agentPubkey : bytes) (expiresAtMs : jsnum) : option bytes :=
  if negb (String.length agentPubkey =? PUBKEY_BYTES)%nat then None
  else if negb (is_safe_integer expiresAtMs) || js_ltb0 expiresAtMs then None
  else
    tbs ← onlineTokenTbs agentPubkey expiresAtMs;
    let signature := sign tbs in
    if negb (String.length signature =? SIGNATURE_BYTES)%nat then None
    else
      let token := zeros ONLINE_TOKEN_BYTES in
      token ← set_bytes token 0 agentPubkey;
      token ← match expiresAtMs with JInt z => set_bytes token EXPIRY_OFFSET (be_bytes 8 z) | _ => None end;
      set_bytes token SIGNATURE_OFFSET signature.

(** A configured key that makes the verification throw counts as no match. *)
Definition key_signed (signature tbs pk : bytes) : bool := default false (ed_verify signature tbs pk).

(** The outer [None] is an exception; there is none, see [online_token_accepts]. *)
(** The outer [None] is an exception; there is none, see [online_token_accepts]. *)
Definition verifyOnlineToken (token : bytes) (directoryPubkeys : list bytes) (nowMs : Z)
    : option (result OnlineTokenFailure (bytes * Z)) :=
  if negb (String.length token =? ONLINE_TOKEN_BYTES)%nat then Some (Err online_token_malformed)
  else match directoryPubkeys with
  | [] => Some (Err online_token_no_directory_key)
  | _ =>
      let agentPubkey := str_take PUBKEY_BYTES token in
      let expiresAt := be_value (str_take 8 (str_drop EXPIRY_OFFSET token)) in
      let signature := str_drop SIGNATURE_OFFSET token in
      if (MAX_SAFE_INTEGER <? expiresAt)%Z then Some (Err online_token_malformed)
      else
        tbs ← onlineTokenTbs agentPubkey (JInt expiresAt);
        Some
          (if negb (existsb (key_signed signature tbs) directoryPubkeys) then Err online_token_signature_invalid
           else if (expiresAt <=? nowMs)%Z then Err online_token_expired
           else if (ONLINE_TOKEN_MAX_LIFETIME_MS <? expiresAt - nowMs)%Z then Err online_token_lifetime_too_long
           else Ok (agentPubkey, expiresAt))
  end.

(** * The bytes *)

(** What is signed, and what travels. *)
Definition signed_bytes (pk : bytes) (exp : Z) : bytes :=
  ONLINE_TOKEN_DOMAIN +:+ (NUL +:+ (pk +:+ be_bytes 8 exp)).
Definition token_bytes (pk : bytes) (exp : Z) (sig : bytes) : bytes :=
  pk +:+ (be_bytes 8 exp +:+ sig).

Lemma tbs_bytes pk z :
  String.length pk = PUBKEY_BYTES → onlineTokenTbs pk (JInt z) = Some (signed_bytes pk z).
Proof.
  intros Hl. unfold onlineTokenTbs. cbv zeta. set (n := String.length ONLINE_TOKEN_DOMAIN).
  rewrite !zeros_app, !str_app_assoc.
  rewrite (set_bytes_start (zeros n)) by apply zeros_length. cbn [mbind option_bind].
  rewrite (set_bytes_app ONLINE_TOKEN_DOMAIN (zeros 1) _ NUL n) by done. cbn [mbind option_bind].
  rewrite <- (str_app_assoc ONLINE_TOKEN_DOMAIN NUL).
  rewrite (set_bytes_app _ (zeros PUBKEY_BYTES) _ pk (n + 1)) by (rewrite ?zeros_length; done).
  cbn [mbind option_bind].
  rewrite <- (str_app_assoc _ pk), <- (str_app_nil_r (zeros EXPIRY_BYTES)).
  rewrite (set_bytes_app _ (zeros EXPIRY_BYTES) _ (be_bytes 8 z) (n + 1 + PUBKEY_BYTES))
    by (rewrite ?str_app_length, ?be_bytes_length, ?zeros_length, ?Hl; done).
  unfold signed_bytes. by rewrite str_app_nil_r, !str_app_assoc.
Qed.

(** A token of the right length is its three fields. *)
Lemma token_fields t :
  String.length t = ONLINE_TOKEN_BYTES →
  ∃ pk sig, String.length pk = PUBKEY_BYTES ∧ String.length sig = SIGNATURE_BYTES ∧
    t = token_bytes pk (be_value (str_take 8 (str_drop EXPIRY_OFFSET t))) sig ∧
    str_take PUBKEY_BYTES t = pk ∧ str_drop SIGNATURE_OFFSET t = sig.
Proof.
  intros Hl. exists (str_take PUBKEY_BYTES t), (str_drop SIGNATURE_OFFSET t).
  unfold SIGNATURE_OFFSET, EXPIRY_OFFSET, ONLINE_TOKEN_BYTES, PUBKEY_BYTES, SIGNATURE_BYTES, EXPIRY_BYTES in *.
  split; [apply str_take_length; lia|]. split; [rewrite str_drop_length; lia|]. split; [|done].
  unfold token_bytes. rewrite be_bytes_value by (apply str_take_length; rewrite str_drop_length; lia).
  assert (∀ n m s, str_drop (n + m) s = str_drop m (str_drop n s)) as D.
  { induction n as [|n IH]; intros m s; [done|]. destruct s; [by destruct m|]. apply IH. }
  by rewrite (D 32 8), !str_take_drop.
Qed.

(** The fields of a token read back. *)
Lemma token_read pk exp sig :
  String.length pk = PUBKEY_BYTES → (0 <= exp < 2 ^ 64)%Z →
  str_take PUBKEY_BYTES (token_bytes pk exp sig) = pk ∧
  be_value (str_take 8 (str_drop EXPIRY_OFFSET (token_bytes pk exp sig))) = exp ∧
  str_drop SIGNATURE_OFFSET (token_bytes pk exp sig) = sig.
Proof.
  intros Hl He. unfold token_bytes, SIGNATURE_OFFSET, EXPIRY_OFFSET, EXPIRY_BYTES.
  split; [by apply str_take_app|]. rewrite (str_drop_app PUBKEY_BYTES) by done.
  rewrite (str_take_app 8) by apply be_bytes_length. split.
  - rewrite be_value_bytes. by apply Z.mod_small.
  - rewrite <- str_app_assoc. apply str_drop_app. rewrite str_app_length, be_bytes_length. lia.
Qed.

(** * Acceptance *)

(** What minting writes. *)
Lemma mint_bytes pk exp :
  String.length pk = PUBKEY_BYTES → (0 <= exp <= MAX_SAFE_INTEGER)%Z →
  String.length (sign (signed_bytes pk exp)) = SIGNATURE_BYTES →
  mintOnlineToken pk (JInt exp) = Some (token_bytes pk exp (sign (signed_bytes pk exp))).
Proof.
  intros Hp He Hs. unfold mintOnlineToken. rewrite Hp, Nat.eqb_refl. cbn [negb is_safe_integer js_ltb0].
  replace (Z.abs exp <=? MAX_SAFE_INTEGER)%Z with true by (symmetry; apply Z.leb_le; lia).
  replace (exp <? 0)%Z with false by (symmetry; apply Z.ltb_ge; lia). cbn [negb orb].
  rewrite tbs_bytes by done. cbn [mbind option_bind]. cbv zeta. rewrite Hs, Nat.eqb_refl. cbn [negb].
  change (zeros ONLINE_TOKEN_BYTES) with (zeros (PUBKEY_BYTES + (8 + SIGNATURE_BYTES))). rewrite !zeros_app.
  rewrite (set_bytes_start (zeros PUBKEY_BYTES)) by (by rewrite zeros_length). cbn [mbind option_bind].
  rewrite (set_bytes_app pk (zeros 8) _ (be_bytes 8 exp) EXPIRY_OFFSET) by (rewrite ?be_bytes_length, ?zeros_length; done).
  cbn [mbind option_bind]. rewrite <- str_app_assoc, <- (str_app_nil_r (zeros SIGNATURE_BYTES)).
  rewrite (set_bytes_app _ (zeros SIGNATURE_BYTES) _ _ SIGNATURE_OFFSET)
    by (rewrite ?str_app_length, ?be_bytes_length, ?zeros_length; rewrite ?Hp, ?Hs; done).
  unfold token_bytes. by rewrite str_app_nil_r, str_app_assoc.
Qed.

Lemma accepts_exact token keys now pk exp :
  is_Some (verifyOnlineToken token keys now) ∧
  (verifyOnlineToken token keys now = Some (Ok (pk, exp)) ↔
   ∃ sig, token = token_bytes pk exp sig ∧
     String.length pk = PUBKEY_BYTES ∧ String.length sig = SIGNATURE_BYTES ∧
     (0 <= exp <= MAX_SAFE_INTEGER)%Z ∧
     (∃ key, key ∈ keys ∧ ed_verify sig (signed_bytes pk exp) key = Some true) ∧
     (now < exp <= now + ONLINE_TOKEN_MAX_LIFETIME_MS)%Z).
Proof.
  assert (∀ sig tbs, existsb (key_signed sig tbs) keys = true ↔ ∃ key, key ∈ keys ∧ ed_verify sig tbs key = Some true) as HS.
  { intros sig tbs. rewrite existsb_exists. unfold key_signed. split; intros (k & Hk & Hv); exists k.
    - split; [by apply list_elem_of_In|]. by destruct (ed_verify sig tbs k) as [[]|].
    - split; [by apply list_elem_of_In|]. by rewrite Hv. }
  unfold verifyOnlineToken. destruct (String.length token =? ONLINE_TOKEN_BYTES)%nat eqn:El; cbn [negb].
  2:{ split; [done|]. split; [done|]. intros (sig & -> & Hp & Hs & _). exfalso. apply Nat.eqb_neq in El. apply El.
      unfold token_bytes. rewrite !str_app_length, be_bytes_length, Hp, Hs. done. }
  bools. destruct keys as [|k0 keys'] eqn:Ek.
  { split; [done|]. split; [done|]. by intros (sig & _ & _ & _ & _ & (k & ?%not_elem_of_nil & _) & _). }
  rewrite <- Ek in *. clear Ek k0 keys'. cbv zeta.
  destruct (token_fields token El) as (pk0 & sig0 & Hp0 & Hs0 & Et & -> & ->).
  assert (0 <= be_value (str_take 8 (str_drop EXPIRY_OFFSET token)) < 2 ^ 64)%Z as Hr.
  { pose proof (be_value_range (str_take 8 (str_drop EXPIRY_OFFSET token))) as R.
    rewrite str_take_length in R; [exact R|]. rewrite str_drop_length, El. cbn. lia. }
  set (e0 := be_value (str_take 8 (str_drop EXPIRY_OFFSET token))) in *. clearbody e0. subst token.
  assert (∀ sig, token_bytes pk0 e0 sig0 = token_bytes pk exp sig → String.length pk = PUBKEY_BYTES →
    (0 <= exp <= MAX_SAFE_INTEGER)%Z → pk0 = pk ∧ e0 = exp ∧ sig0 = sig) as Hinj.
  { intros sig E Hp He. destruct (token_read pk0 e0 sig0 Hp0 Hr) as (R1 & R2 & R3).
    assert (0 <= exp < 2 ^ 64)%Z as He' by (split; [lia|eapply Z.le_lt_trans; [apply He|reflexivity]]).
    destruct (token_read pk exp sig Hp He') as (R1' & R2' & R3'). rewrite E in R1, R2, R3.
    split; [congruence|]. split; congruence. }
  destruct (MAX_SAFE_INTEGER <? e0)%Z eqn:Em; bools.
  { split; [done|]. split; [done|]. intros (sig & E & Hp & _ & He & _). exfalso.
    destruct (Hinj sig E Hp He) as (_ & -> & _). lia. }
  rewrite tbs_bytes by done. cbn [mbind option_bind]. split; [by eexists|].
  destruct (existsb _ keys) eqn:Ex; cbn [negb].
  2:{ split; [done|]. intros (sig & E & Hp & _ & He & Hv & _). exfalso.
      destruct (Hinj sig E Hp He) as (-> & -> & ->). apply HS in Hv. congruence. }
  apply HS in Ex. destruct (e0 <=? now)%Z eqn:E1; bools.
  { split; [done|]. intros (sig & E & Hp & _ & He & _ & Hn). destruct (Hinj sig E Hp He) as (_ & -> & _). lia. }
  destruct (ONLINE_TOKEN_MAX_LIFETIME_MS <? e0 - now)%Z eqn:E2; bools.
  { split; [done|]. intros (sig & E & Hp & _ & He & _ & Hn). destruct (Hinj sig E Hp He) as (_ & -> & _). lia. }
  split.
  - intros [= <- <-]. exists sig0. split; [done|]. split; [done|]. split; [done|]. split; [lia|]. split; [done|lia].
  - intros (sig & E & Hp & _ & He & _ & _). by destruct (Hinj sig E Hp He) as (-> & -> & _).
Qed.

(** What a relay accepts.  Verification never throws; it accepts a token, for a key
    and an expiry, exactly when the token is the key's 32 bytes, the expiry as
    eight big-endian bytes of a safe integer, and 64 bytes that some configured
    directory key verifies over the domain-separated statement of that key and
    that expiry; and the expiry is in the future by at most two hours. *)
Theorem online_token_accepts token keys now pk exp :
  is_Some (verifyOnlineToken token keys now) ∧
  (verifyOnlineToken token keys now = Some (Ok (pk, exp)) ↔
   ∃ sig, token = token_bytes pk exp sig ∧
     String.length pk = PUBKEY_BYTES ∧ String.length sig = SIGNATURE_BYTES ∧
     (0 <= exp <= MAX_SAFE_INTEGER)%Z ∧
     (∃ key, key ∈ keys ∧ ed_verify sig (signed_bytes pk exp) key = Some true) ∧
     (now < exp <= now + ONLINE_TOKEN_MAX_LIFETIME_MS)%Z).
Proof. apply accepts_exact. Qed.

(** Minting round-trips.  For a 32-byte key and an expiry that is a non-negative safe
    integer, and a signer that returns 64 bytes, minting returns a token of 104
    bytes; and a relay holding a key under which the directory's signature
    verifies accepts that token, for that key and expiry, from two hours before
    the expiry up to it, and at no other time. *)
Theorem online_token_roundtrip pk exp keys now :
  String.length pk = PUBKEY_BYTES → (0 <= exp <= MAX_SAFE_INTEGER)%Z →
  String.length (sign (signed_bytes pk exp)) = SIGNATURE_BYTES →
  (∃ key, key ∈ keys ∧ ed_verify (sign (signed_bytes pk exp)) (signed_bytes pk exp) key = Some true) →
  ∃ token, mintOnlineToken pk (JInt exp) = Some token ∧ String.length token = ONLINE_TOKEN_BYTES ∧
    (verifyOnlineToken token keys now = Some (Ok (pk, exp)) ↔ (now < exp <= now + ONLINE_TOKEN_MAX_LIFETIME_MS)%Z).
Proof.
  intros Hp He Hs Hk. exists (token_bytes pk exp (sign (signed_bytes pk exp))). split; [|split].
  - by apply mint_bytes.
  - unfold token_bytes. by rewrite !str_app_length, be_bytes_length, Hp, Hs.
  - destruct (accepts_exact (token_bytes pk exp (sign (signed_bytes pk exp))) keys now pk exp) as [_ ->]. split.
    + by intros (_ & _ & _ & _ & _ & _ & ?).
    + intros Hn. by exists (sign (signed_bytes pk exp)).
Qed.

End Token.

(** A toy signature: the low bits of the statement, padded to 64 bytes. *)
Definition demo_sign (tbs : bytes) : bytes := be_bytes 64 (be_value tbs).
Definition demo_ed_verify (sig tbs key : bytes) : option bool :=
  if bool_decide (key = "bad") then None else Some (bool_decide (sig = demo_sign tbs)).
Definition demo_key : bytes := be_bytes 32 12345.

Lemma online_token_roundtrip_witness :
  ∃ token, mintOnlineToken demo_sign demo_key (JInt 1700000000000) = Some token ∧
    verifyOnlineToken demo_ed_verify token ["bad"; "good"] 1699999000000 = Some (Ok (demo_key, 1700000000000%Z)).
Proof.
  destruct (online_token_roundtrip demo_sign demo_ed_verify demo_key 1700000000000 ["bad"; "good"] 1699999000000)
    as (token & E & _ & V).
  - reflexivity.
  - split; discriminate.
  - apply be_bytes_length.
  - exists "good". split; [right; left|]. vm_compute. reflexivity.
  - exists token. split; [exact E|]. apply V. split; [reflexivity|discriminate].
Defined.

End OnlineToken.
