(* ===== verification/Relay.v ===== *)
(** The relay's own bookkeeping: the per-depositor rate limiter
    (packages/relay/src/deposit-rate-limiter.ts), the in-memory store of sessions,
    queues and liveness (relay-store.ts), and the signature witness of submitted
    leaves (leaf-witness.ts).

    Times are integers of milliseconds; [Date.now()] is an argument.  Log lines are
    not modelled. *)
From S2P Require Import Prelude JsMap Wire.
Import JsMap Wire.

Module Relay.

(** * The rate limiter *)

Record DepositRateLimitConfig : Type := mkConfig { maxPerWindow : Z; windowMs : Z }.

Definition DEFAULT_DEPOSIT_RATE_LIMIT : DepositRateLimitConfig := mkConfig 30 60000.

Record Window : Type := mkWindow { startedAt : Z; w_count : Z }.

Record RateLimitDecision : Type := mkDecision { allowed : bool; count : Z; retryAfterMs : Z }.

Abbreviation limiter := (jsmap string Window).

Section Limiter.
Variable config : DepositRateLimitConfig.

Definition idle (now : Z) (w : Window) : bool := (windowMs config <=? now - startedAt w)%Z.

Definition evictIdle (windows : limiter) (now : Z) : limiter :=
  List.filter (λ e : string * Window, negb (idle now e.2)) windows.

(** One attempt of a known peer, given its current window. *)
Definition judge (existing : option Window) (now : Z) : Window * RateLimitDecision :=
  match existing with
  | None => (mkWindow now 1, mkDecision true 1 0)
  | Some w =>
      if idle now w then (mkWindow now 1, mkDecision true 1 0)
      else
        let w := mkWindow (startedAt w) (w_count w + 1) in
        (w, if (maxPerWindow config <? w_count w)%Z
            then mkDecision false (w_count w) (Z.max 0 (startedAt w + windowMs config - now))
            else mkDecision true (w_count w) 0)
  end.

Definition check (windows : limiter) (peerId : option string) (now : Z) : limiter * RateLimitDecision :=
  let windows := evictIdle windows now in
  match peerId with
  | None | Some EmptyString => (windows, mkDecision true 0 0)
  | Some peer =>
      let '(w, d) := judge (jget windows peer) now in (jset windows peer w, d)
  end.

Definition size (windows : limiter) : nat := length windows.

(** A sequence of attempts. *)
Fixpoint checks (windows : limiter) (reqs : list (option string * Z)) : limiter * list RateLimitDecision :=
  match reqs with
  | [] => (windows, [])
  | (p, now) :: rest =>
      let '(windows, d) := check windows p now in
      let '(windows, ds) := checks windows rest in (windows, d :: ds)
  end.

End Limiter.

(** * The store *)

Record SessionAssignment : Type := mkAssignment {
  session_id : bytes;
  participant_a : bytes;
  participant_b : bytes;
  session_timestamp : Z;
  directory_signature : bytes;
  initiator_session_peer_id : option string;
  counterparty_session_peer_id : option string;
  transport_mode : option string;
  a_prior_relay_id : option string;
}.

Inductive SessionStatus : Type := active | sealing | seal_rejected | diverged.

#[global] Instance SessionStatus_eq_dec : EqDecision SessionStatus.
Proof. solve_decision. Defined.

(** The fields a fresh session does not have; no acks issued is the empty map. *)
Record session_extras (Ack : Type) : Type := mkExtras {
  issued_acks : jsmap string Ack;
  seal_rejected_reason : option string;
  prior_relay_id : option string;
  awaiting_replay : bool;
  diverged_reason : option string;
}.
Arguments mkExtras {Ack} _ _ _ _ _. Arguments issued_acks {Ack} _. Arguments seal_rejected_reason {Ack} _.
Arguments prior_relay_id {Ack} _. Arguments awaiting_replay {Ack} _. Arguments diverged_reason {Ack} _.

Definition no_extras {Ack} : session_extras Ack := mkExtras [] None None false None.

Record RelaySessionState (Leaf Ack : Type) : Type := mkSession {
  assignment : SessionAssignment;
  genesis_prev_root : bytes;
  seq_counter : Z;
  leaf_log : list Leaf;
  status : SessionStatus;
  tree_stack : list (bytes * Z);
  running_root : bytes;
  lastActivityAt : Z;
  extras : session_extras Ack;
}.
Arguments mkSession {Leaf Ack} _ _ _ _ _ _ _ _ _.
Arguments assignment {Leaf Ack} _. Arguments genesis_prev_root {Leaf Ack} _. Arguments seq_counter {Leaf Ack} _.
Arguments leaf_log {Leaf Ack} _. Arguments status {Leaf Ack} _. Arguments tree_stack {Leaf Ack} _.
Arguments running_root {Leaf Ack} _. Arguments lastActivityAt {Leaf Ack} _. Arguments extras {Leaf Ack} _.

Inductive liveness_state : Type := alive | gone.

#[global] Instance liveness_eq_dec : EqDecision liveness_state.
Proof. solve_decision. Defined.

Definition DELIVERY_QUEUE_BOUND : nat := 256.
Definition WITNESS_ALERT_QUEUE_BOUND : nat := 16.

Section Store.
Context {Leaf Ack Delivery Alert : Type}.

Record RelayStore : Type := mkStore {
  sessions : jsmap string (RelaySessionState Leaf Ack);
  deliveryQueues : jsmap string (list Delivery);
  witnessAlertQueues : jsmap string (list Alert);
  liveness : jsmap string (liveness_state * Z);
}.

Definition empty_store : RelayStore := mkStore [] [] [] [].

Definition with_sessions (s : RelayStore) (m : jsmap string (RelaySessionState Leaf Ack)) : RelayStore :=
  mkStore m (deliveryQueues s) (witnessAlertQueues s) (liveness s).
Definition with_deliveries (s : RelayStore) (m : jsmap string (list Delivery)) : RelayStore :=
  mkStore (sessions s) m (witnessAlertQueues s) (liveness s).
Definition with_alerts (s : RelayStore) (m : jsmap string (list Alert)) : RelayStore :=
  mkStore (sessions s) (deliveryQueues s) m (liveness s).
Definition with_liveness (s : RelayStore) (m : jsmap string (liveness_state * Z)) : RelayStore :=
  mkStore (sessions s) (deliveryQueues s) (witnessAlertQueues s) m.

Definition touch (st : RelaySessionState Leaf Ack) (ts : Z) : RelaySessionState Leaf Ack :=
  mkSession (assignment st) (genesis_prev_root st) (seq_counter st) (leaf_log st) (status st)
    (tree_stack st) (running_root st) ts (extras st).

Definition recordSession (s : RelayStore) (a : SessionAssignment) (genesisRoot : bytes) (now : Z)
    : RelayStore * bool :=
  let key := hex (session_id a) in
  if jhas (sessions s) key then (s, false)
  else (with_sessions s (jset (sessions s) key
          (mkSession a genesisRoot 0 [] active [] genesisRoot now no_extras)), true).

Definition getSession (s : RelayStore) (sessionIdHex : string) : option (RelaySessionState Leaf Ack) :=
  jget (sessions s) sessionIdHex.

Definition setSession (s : RelayStore) (sessionIdHex : string) (st : RelaySessionState Leaf Ack) (now : Z) : RelayStore :=
  with_sessions s (jset (sessions s) sessionIdHex (touch st now)).

Definition destroySession (s : RelayStore) (sessionIdHex : string) : RelayStore :=
  with_sessions s (jdel (sessions s) sessionIdHex).

(** The queue is a shared array: what is set is the array the map holds. *)
Definition enqueueDelivery (s : RelayStore) (pubkeyHex : string) (d : Delivery) : RelayStore :=
  let queue := default [] (jget (deliveryQueues s) pubkeyHex) in
  let queue := if (DELIVERY_QUEUE_BOUND <=? length queue)%nat then tail queue else queue in
  with_deliveries s (jset (deliveryQueues s) pubkeyHex (queue ++ [d])).

Definition drainDeliveries (s : RelayStore) (pubkeyHex : string) : RelayStore * list Delivery :=
  match jget (deliveryQueues s) pubkeyHex with
  | None | Some [] => (s, [])
  | Some queue => (with_deliveries s (jset (deliveryQueues s) pubkeyHex []), queue)
  end.

Definition enqueueWitnessAlert (s : RelayStore) (pubkeyHex : string) (a : Alert) : RelayStore :=
  let queue := default [] (jget (witnessAlertQueues s) pubkeyHex) in
  with_alerts s (jset (witnessAlertQueues s) pubkeyHex
    (if (WITNESS_ALERT_QUEUE_BOUND <=? length queue)%nat then queue else queue ++ [a])).

Definition drainWitnessAlerts (s : RelayStore) (pubkeyHex : string) : RelayStore * list Alert :=
  match jget (witnessAlertQueues s) pubkeyHex with
  | None | Some [] => (s, [])
  | Some queue => (with_alerts s (jset (witnessAlertQueues s) pubkeyHex []), queue)
  end.

(** The flag is [changed]. *)
Definition recordRecipientAlive (s : RelayStore) (pubkeyHex : string) (now : Z) : RelayStore * bool :=
  let prior := jget (liveness s) pubkeyHex in
  let changed := negb (bool_decide (fst <$> prior = Some alive)) in
  (with_liveness s (jset (liveness s) pubkeyHex (alive, now)), changed).

Definition recordRecipientGone (s : RelayStore) (pubkeyHex : string) (now : Z) : RelayStore * bool :=
  match jget (liveness s) pubkeyHex with
  | None => (s, false)
  | Some (prior, _) =>
      (with_liveness s (jset (liveness s) pubkeyHex (gone, now)), negb (bool_decide (prior = gone)))
  end.

(** [None] is "unknown". *)
Definition getRecipientLiveness (s : RelayStore) (pubkeyHex : string) : option liveness_state * Z :=
  match jget (liveness s) pubkeyHex with
  | None => (None, 0%Z)
  | Some (l, observedAt) => (Some l, observedAt)
  end.

Definition setLastActivityAtForTest (s : RelayStore) (sessionIdHex : string) (ts : Z) : option RelayStore :=
  st ← jget (sessions s) sessionIdHex;
  Some (with_sessions s (jset (sessions s) sessionIdHex (touch st ts))).

Definition sweepable (now maxIdleMs : Z) (e : string * RelaySessionState Leaf Ack) : bool :=
  bool_decide (status e.2 = active) && (lastActivityAt e.2 <? now - maxIdleMs)%Z.

(** Both passes. *)
Definition sweepIdleSessions (s : RelayStore) (maxIdleMs now : Z) : RelayStore * list string :=
  let toSweep := map fst (List.filter (sweepable now maxIdleMs) (sessions s)) in
  (with_sessions s (foldl jdel (sessions s) toSweep), toSweep).

End Store.

(** * The witness *)

Definition RELAY_WITNESS_DOMAIN : string := "CELLO-RELAY-WITNESS-v1".

Section Witness.
Variable verify : bytes → bytes → bytes → bool.
Variable encodeCbor : list jsval → bytes.
Variable sha256 : bytes → bytes.

(** The signer, or the refusal. *)
Fixpoint witnessLeafSignature (expectedKeys : list bytes) (structure1Cbor senderSignature : bytes)
    : result string bytes :=
  match expectedKeys with
  | [] => Err "leaf_signed_by_neither_participant"
  | key :: rest =>
      if verify key structure1Cbor senderSignature then Ok key
      else witnessLeafSignature rest structure1Cbor senderSignature
  end.

Definition buildWitnessAlertTbs (sessionId : bytes) (reason : string) (observedAt : jsnum)
    (submitterIsCounterparty : bool) : bytes :=
  sha256 (encodeCbor [VStr RELAY_WITNESS_DOMAIN; VBytes sessionId; VStr reason; VNum observedAt;
                      VBool submitterIsCounterparty]).
End Witness.
End Relay.
