(* ===== verification/RelayTheorems.v ===== *)
(** Properties of the relay's bookkeeping: the rate limit holds per depositor and in
    any interval, one depositor never affects another, memory is bounded; queues
    keep what they promise to keep; only idle active sessions are swept. *)
From S2P Require Import Prelude JsMap Wire Relay.
Import JsMap Wire Relay.

Module RelayTheorems.

(** * The rate limiter *)

Section Limiter.
Variable config : DepositRateLimitConfig.

(** The attempts of one peer, judged alone. *)
Fixpoint judge_all (w : option Window) (times : list Z) : list RateLimitDecision :=
  match times with
  | [] => []
  | now :: rest => let '(w', d) := judge config w now in d :: judge_all (Some w') rest
  end.

(** The times of a peer's attempts, and the decisions it got. *)
Fixpoint of_peer {A} (p : string) (reqs : list (option string * Z)) (l : list A) : list A :=
  match reqs, l with
  | (q, _) :: reqs, x :: l => if decide (q = Some p) then x :: of_peer p reqs l else of_peer p reqs l
  | _, _ => []
  end.

Definition times_of (p : string) (reqs : list (option string * Z)) : list Z := of_peer p reqs (map snd reqs).

(** The limiter's entry for a peer and the peer's own window, at time [now]: the
    same, or the entry was dropped after it went idle. *)
Definition tracks (entry own : option Window) (now : Z) : Prop :=
  entry = own ∨ (entry = None ∧ ∃ w, own = Some w ∧ idle config now w = true).

Lemma idle_mono w now now' : (now <= now')%Z → idle config now w = true → idle config now' w = true.
Proof. unfold idle. intros ? ?. bools. apply Z.leb_le. lia. Qed.

Lemma judge_tracks entry own now :
  tracks entry own now → judge config entry now = judge config own now.
Proof. intros [->|(-> & w & -> & Hi)]; [done|]. unfold judge. by rewrite Hi. Qed.

Lemma jget_evict m now p :
  jwf m → jget (evictIdle config m now) p = (w ← jget m p; if negb (idle config now w) then Some w else None).
Proof. intros Hm. unfold evictIdle. by rewrite jget_filter. Qed.

Lemma evict_tracks m own now now' p :
  jwf m → (now <= now')%Z → tracks (jget m p) own now → tracks (jget (evictIdle config m now') p) own now'.
Proof.
  intros Hm Hle Ht. rewrite jget_evict by done. destruct Ht as [E|(E & w & -> & Hi)]; rewrite E; cbn.
  - destruct own as [w|]; cbn; [|by left]. destruct (idle config now' w) eqn:Ei; [right|by left]. eauto.
  - right. split; [done|]. exists w. split; [done|]. by eapply idle_mono.
Qed.

Lemma check_wf m p now : jwf m → jwf (check config m p now).1.
Proof.
  intros Hm. assert (jwf (evictIdle config m now)) as He by (by apply jwf_filter). unfold check.
  destruct p as [[|c p]|]; cbn; try done. destruct (judge _ _ _) as [w d]. by apply jwf_jset.
Qed.

(** A named peer is a non-empty identifier. *)
Definition named (p : string) : Prop := p ≠ EmptyString.

Lemma check_named m p now :
  named p → check config m (Some p) now =
  (let '(w, d) := judge config (jget (evictIdle config m now) p) now in (jset (evictIdle config m now) p w, d)).
Proof. by destruct p. Qed.

Lemma check_other m q p now :
  q ≠ Some p → jget (check config m q now).1 p = jget (evictIdle config m now) p.
Proof.
  intros Hne. unfold check. destruct q as [[|c q]|]; cbn; try done.
  destruct (judge _ _ _) as [w d]. cbn. rewrite jget_jset_ne; [done|]. intros <-. done.
Qed.

(** Attempts in time order, none before [t0]. *)
Fixpoint in_order (t0 : Z) (reqs : list (option string * Z)) : Prop :=
  match reqs with [] => True | (_, t) :: rest => (t0 <= t)%Z ∧ in_order t rest end.

(** One peer's decisions do not depend on the others' attempts. *)
Lemma checks_of_peer p reqs m own t0 :
  named p → jwf m → in_order t0 reqs → tracks (jget m p) own t0 →
  of_peer p reqs (checks config m reqs).2 = judge_all own (times_of p reqs).
Proof.
  intros Hp. revert m own t0. induction reqs as [|[q now] reqs IH]; intros m own t0 Hm Ho Ht; [done|].
  destruct Ho as [Hle Ho]. cbn [checks]. pose proof (check_wf m q now Hm) as Hm'.
  pose proof (evict_tracks m own t0 now p Hm Hle Ht) as Ht'. unfold times_of in *. cbn [map snd of_peer].
  destruct (decide (q = Some p)) as [->|Hne].
  - rewrite (check_named m p now Hp) in *. rewrite (judge_tracks _ _ _ Ht') in *.
    cbn [judge_all]. destruct (judge config own now) as [w d] eqn:Ej. cbn [fst] in Hm'.
    specialize (IH (jset (evictIdle config m now) p w) (Some w) now Hm' Ho).
    destruct (checks config (jset (evictIdle config m now) p w) reqs) as [m'' ds]. cbn [snd of_peer] in *.
    f_equal. apply IH. left. apply jget_jset_eq.
  - pose proof (check_other m q p now Hne) as Eo. destruct (check config m q now) as [m' d]. cbn [fst] in *.
    specialize (IH m' own now Hm' Ho). destruct (checks config m' reqs) as [m'' ds]. cbn [snd of_peer] in *.
    apply IH. by rewrite Eo.
Qed.

(** ** Counting *)

(** How many of the attempts at [times] were allowed at a time in [[a, b)]. *)
Fixpoint allowed_in (a b : Z) (times : list Z) (ds : list RateLimitDecision) : Z :=
  match times, ds with
  | t :: times, d :: ds =>
      ((if allowed d && (a <=? t)%Z && (t <? b)%Z then 1 else 0) + allowed_in a b times ds)%Z
  | _, _ => 0%Z
  end.

(** The most one window allows: its first attempt is always allowed. *)
Definition per_window : Z := Z.max 1 (maxPerWindow config).

Fixpoint sorted_from (t0 : Z) (times : list Z) : Prop :=
  match times with [] => True | t :: rest => (t0 <= t)%Z ∧ sorted_from t rest end.

Lemma allowed_in_nonneg a b times ds : (0 <= allowed_in a b times ds)%Z.
Proof. revert ds. induction times as [|t times IH]; intros [|d ds]; cbn; try lia. specialize (IH ds). destruct (_ && _); lia. Qed.

Lemma allowed_in_late a b t0 times ds : sorted_from t0 times → (b <= t0)%Z → allowed_in a b times ds = 0%Z.
Proof.
  revert t0 ds. induction times as [|t times IH]; intros t0 [|d ds] Hs Hb; try done.
  destruct Hs as [Ht Hs]. cbn. rewrite (IH t) by (done || lia).
  replace (t <? b)%Z with false by (symmetry; apply Z.ltb_ge; lia). by rewrite andb_false_r.
Qed.

(** Inside the window that began at [startedAt w], with [w_count w] attempts
    counted: what is still allowed before [b], when the window ends at or after
    [b], and in any interval of a window's length. *)
Lemma judge_all_bound w times now a b :
  sorted_from now times → (startedAt w <= now)%Z → (1 <= w_count w)%Z → (b <= a + windowMs config)%Z →
  (allowed_in a b times (judge_all (Some w) times) <=
   (if (b <=? startedAt w + windowMs config)%Z then Z.max 0 (per_window - w_count w)
    else if (a <? startedAt w + windowMs config)%Z then Z.max 0 (per_window - w_count w) + per_window
    else 2 * per_window))%Z.
Proof.
  assert (1 <= per_window)%Z as HM by (unfold per_window; lia).
  revert w now. induction times as [|t times IH]; intros w now Hs Hw Hc Hb.
  { cbn. destruct (_ <=? _)%Z; [lia|]. destruct (_ <? _)%Z; lia. }
  destruct Hs as [Ht Hs]. cbn [judge_all]. unfold judge.
  destruct (idle config t w) eqn:Ei; unfold idle in Ei; bools.
  - cbn [allowed_in allowed andb]. specialize (IH (mkWindow t 1) t Hs). cbn [startedAt w_count] in IH.
    specialize (IH ltac:(lia) ltac:(lia) Hb). pose proof (allowed_in_late a b t times) as Hl.
    destruct (b <=? t)%Z eqn:Ebt; bools.
    + rewrite Hl by done. replace (t <? b)%Z with false by (symmetry; apply Z.ltb_ge; lia).
      rewrite andb_false_r. cbv iota. destruct (b <=? startedAt w + _)%Z; [lia|]. destruct (a <? startedAt w + _)%Z; lia.
    + set (n := allowed_in a b times _) in *. clearbody n. clear Hl.
      assert ((a <=? t)%Z && (t <? b)%Z = true → (a <= t)%Z) as Ha by (intros ?; bools; lia).
      destruct ((a <=? t)%Z && (t <? b)%Z) eqn:Eab; [specialize (Ha eq_refl)|clear Ha];
        destruct (b <=? t + windowMs config)%Z eqn:E1, (a <? t + windowMs config)%Z eqn:E2,
          (b <=? startedAt w + windowMs config)%Z eqn:E3, (a <? startedAt w + windowMs config)%Z eqn:E4; bools; lia.
  - specialize (IH (mkWindow (startedAt w) (w_count w + 1)) t Hs). cbn [startedAt w_count] in IH.
    specialize (IH ltac:(lia) ltac:(lia) Hb). cbn [startedAt w_count].
    destruct (maxPerWindow config <? w_count w + 1)%Z eqn:Em; bools; cbn [allowed_in allowed andb];
      set (n := allowed_in a b times _) in *; clearbody n.
    + destruct (b <=? startedAt w + windowMs config)%Z; [lia|]. destruct (a <? startedAt w + windowMs config)%Z; lia.
    + assert (w_count w + 1 <= per_window)%Z by (unfold per_window; lia).
      destruct ((a <=? t)%Z && (t <? b)%Z) eqn:Eab; destruct (b <=? startedAt w + windowMs config)%Z eqn:E1,
        (a <? startedAt w + windowMs config)%Z eqn:E2; bools; lia.
Qed.

Lemma times_sorted p t0 reqs : in_order t0 reqs → sorted_from t0 (times_of p reqs).
Proof.
  unfold times_of. revert t0. induction reqs as [|[q t] reqs IH]; intros t0 Ho; [done|].
  destruct Ho as [Ht Ho]. cbn [map snd of_peer]. specialize (IH t Ho). destruct (decide (q = Some p)); [done|].
  destruct (of_peer p reqs (map snd reqs)) as [|x l]; [done|]. destruct IH. split; [lia|done].
Qed.

(** The rate limit, per depositor.  In any sequence of attempts in time order, on
    an empty limiter: a named peer's decisions are those it would get alone, so
    one peer's flood never costs another; in every interval of the window's
    length, wherever it starts, at most twice the limit of a peer's attempts are
    allowed, the limit being at least one; and afterwards the limiter tracks
    only peers whose window had not ended at the last attempt. *)
Theorem rate_limit_spec reqs t0 p a :
  in_order t0 reqs → named p →
  let ds := (checks config [] reqs).2 in
  of_peer p reqs ds = judge_all None (times_of p reqs) ∧
  (allowed_in a (a + windowMs config) (times_of p reqs) (of_peer p reqs ds) <= 2 * per_window)%Z ∧
  (∀ m q now e, jwf m → (0 < windowMs config)%Z → e ∈ (check config m q now).1 → idle config now e.2 = false).
Proof.
  intros Ho Hp ds. assert (of_peer p reqs ds = judge_all None (times_of p reqs)) as E.
  { apply (checks_of_peer p reqs [] None t0 Hp); [constructor|done|by left]. }
  split; [done|]. split.
  - rewrite E. assert (sorted_from t0 (times_of p reqs)) as Hs by (by apply times_sorted).
    destruct (times_of p reqs) as [|t times]; [cbn; unfold per_window; lia|]. destruct Hs as [Ht Hs].
    cbn [judge_all judge allowed_in allowed andb].
    pose proof (judge_all_bound (mkWindow t 1) times t a (a + windowMs config) Hs) as B. cbn [startedAt w_count] in B.
    specialize (B ltac:(lia) ltac:(lia) ltac:(lia)). set (n := allowed_in _ _ _ _) in *. clearbody n.
    assert (1 <= per_window)%Z as HM by (unfold per_window; lia).
    destruct ((a <=? t)%Z && (t <? a + windowMs config)%Z) eqn:Eab;
      destruct (a + windowMs config <=? t + windowMs config)%Z eqn:E1, (a <? t + windowMs config)%Z eqn:E2; bools; lia.
  - intros m q now e Hm HW He. unfold check in He.
    assert (∀ e, e ∈ evictIdle config m now → idle config now e.2 = false) as Hev.
    { intros x [_ Hx]%list_elem_of_In%List.filter_In. by apply negb_true_iff. }
    destruct q as [[|c q]|]; cbn in He; try by apply Hev.
    destruct (judge _ _ _) as [w d] eqn:Ej. cbn in He. destruct e as [k v].
    assert (jwf (evictIdle config m now)) as Hw by (by apply jwf_filter).
    apply jget_elem_iff in He; [|by apply jwf_jset]. rewrite jget_jset in He. case_decide as Ek.
    + injection He as <-. cbn. unfold judge in Ej. unfold idle. apply Z.leb_gt.
      destruct (jget _ _) as [w0|]; [|injection Ej as <- _; cbn; lia].
      destruct (idle config now w0) eqn:Ei; injection Ej as <- _; cbn; [lia|]. unfold idle in Ei. by bools.
    + apply jget_elem in He. by apply (Hev (k, v)).
Qed.
End Limiter.

(** * The store *)

Section Store.
Context {Leaf Ack Delivery Alert : Type}.
Abbreviation RStore := (RelayStore (Leaf := Leaf) (Ack := Ack) (Delivery := Delivery) (Alert := Alert)).

(** A call of the store, with the time it is made at where it reads the clock. *)
Inductive store_op : Type :=
| Record (a : SessionAssignment) (root : bytes) (now : Z)
| SetS (k : string) (st : RelaySessionState Leaf Ack) (now : Z)
| Destroy (k : string)
| Deliver (k : string) (d : Delivery)
| Drain (k : string)
| AlertTo (k : string) (a : Alert)
| DrainAlerts (k : string)
| Alive (k : string) (now : Z)
| Gone (k : string) (now : Z)
| Sweep (maxIdleMs now : Z).

Definition step_store (s : RStore) (o : store_op) : RStore :=
  match o with
  | Record a root now => (recordSession s a root now).1
  | SetS k st now => setSession s k st now
  | Destroy k => destroySession s k
  | Deliver k d => enqueueDelivery s k d
  | Drain k => (drainDeliveries s k).1
  | AlertTo k a => enqueueWitnessAlert s k a
  | DrainAlerts k => (drainWitnessAlerts s k).1
  | Alive k now => (recordRecipientAlive s k now).1
  | Gone k now => (recordRecipientGone s k now).1
  | Sweep maxIdleMs now => (sweepIdleSessions s maxIdleMs now).1
  end.

Definition run_store (ops : list store_op) : RStore := foldl step_store empty_store ops.

Lemma run_snoc ops o : run_store (ops ++ [o]) = step_store (run_store ops) o.
Proof. unfold run_store. by rewrite foldl_app. Qed.

(** ** What the history says *)

(** What was enqueued for [k] since it was last drained. *)
Definition pending (k : string) (ops : list store_op) : list Delivery :=
  foldl (λ l o, match o with
    | Deliver k' d => if decide (k' = k) then l ++ [d] else l
    | Drain k' => if decide (k' = k) then [] else l
    | _ => l end) [] ops.

Definition pending_alerts (k : string) (ops : list store_op) : list Alert :=
  foldl (λ l o, match o with
    | AlertTo k' a => if decide (k' = k) then l ++ [a] else l
    | DrainAlerts k' => if decide (k' = k) then [] else l
    | _ => l end) [] ops.

(** The last transition of a recipient that was ever seen. *)
Definition last_seen (k : string) (ops : list store_op) : option (liveness_state * Z) :=
  foldl (λ v o, match o with
    | Alive k' now => if decide (k' = k) then Some (alive, now) else v
    | Gone k' now => if decide (k' = k) then (λ _, (gone, now)) <$> v else v
    | _ => v end) None ops.

Definition last_n {A} (n : nat) (l : list A) : list A := drop (length l - n) l.

Lemma last_n_snoc {A} n (l : list A) x :
  0 < n → last_n n (l ++ [x]) = (if (n <=? length (last_n n l))%nat then tail (last_n n l) else last_n n l) ++ [x].
Proof.
  intros Hn. unfold last_n. rewrite length_app, length_drop. cbn [length].
  destruct (n <=? length l - (length l - n))%nat eqn:E; [apply Nat.leb_le in E|apply Nat.leb_gt in E].
  - rewrite drop_app_le by lia. f_equal. replace (tail (drop (length l - n) l)) with (drop 1 (drop (length l - n) l)).
    + rewrite drop_drop. f_equal. lia.
    + by destruct (drop _ l).
  - assert (length l - n = 0) as -> by lia. assert (length l + 1 - n = 0) as -> by lia. done.
Qed.

Lemma take_snoc {A} n (l : list A) x :
  take n (l ++ [x]) = if (n <=? length (take n l))%nat then take n l else take n l ++ [x].
Proof.
  rewrite length_take. destruct (n <=? n `min` length l)%nat eqn:E; [apply Nat.leb_le in E|apply Nat.leb_gt in E].
  - by rewrite take_app_le by lia.
  - rewrite (take_ge l), (take_ge (l ++ [x])) by (rewrite ?length_app; cbn; lia). done.
Qed.

Ltac other_key := rewrite ?decide_False by done; rewrite ?jget_jset_ne by done; done.

Lemma drain_map {A} (m : jsmap string (list A)) k k' :
  default [] (jget (match jget m k' with None | Some [] => m | Some _ => jset m k' [] end) k) =
  if decide (k' = k) then [] else default [] (jget m k).
Proof.
  destruct (decide (k' = k)) as [->|Hne].
  - destruct (jget m k) as [[|x l]|] eqn:E; rewrite ?jget_jset_eq, ?E; done.
  - destruct (jget m k') as [[|x l]|]; rewrite ?jget_jset_ne by done; done.
Qed.

Lemma deliveries_exact ops k :
  default [] (jget (deliveryQueues (run_store ops)) k) = last_n DELIVERY_QUEUE_BOUND (pending k ops).
Proof.
  induction ops as [|o ops IH] using rev_ind; [done|].
  rewrite run_snoc. unfold pending in *. rewrite foldl_app. cbn [foldl].
  set (l := foldl _ [] ops) in *. clearbody l.
  assert (∀ s' : RStore, deliveryQueues s' = deliveryQueues (run_store ops) →
    default [] (jget (deliveryQueues s') k) = last_n DELIVERY_QUEUE_BOUND l) as Hsame by (by intros s' ->).
  destruct o as [a root now|k' st now|k'|k' d|k'|k' a|k'|k' now|k' now|m now]; cbn [step_store]; try by apply Hsame.
  - apply Hsame. unfold recordSession. by destruct (jhas _ _).
  - unfold enqueueDelivery. cbn [deliveryQueues with_deliveries]. destruct (decide (k' = k)) as [->|Hne].
    + rewrite jget_jset_eq, IH. cbn [default from_option id]. rewrite last_n_snoc; [done|]. unfold DELIVERY_QUEUE_BOUND. lia.
    + by rewrite jget_jset_ne.
  - transitivity (default [] (jget (match jget (deliveryQueues (run_store ops)) k' with
      None | Some [] => deliveryQueues (run_store ops) | Some _ => jset (deliveryQueues (run_store ops)) k' [] end) k)).
    { unfold drainDeliveries. by destruct (jget _ k') as [[|x q]|]. }
    rewrite drain_map. destruct (decide (k' = k)); [done|exact IH].
  - apply Hsame. unfold drainWitnessAlerts. by destruct (jget _ k') as [[|x q]|].
  - apply Hsame. unfold recordRecipientGone. by destruct (jget _ k') as [[]|].
Qed.

Lemma alerts_exact ops k :
  default [] (jget (witnessAlertQueues (run_store ops)) k) = take WITNESS_ALERT_QUEUE_BOUND (pending_alerts k ops).
Proof.
  induction ops as [|o ops IH] using rev_ind; [done|].
  rewrite run_snoc. unfold pending_alerts in *. rewrite foldl_app. cbn [foldl].
  set (l := foldl _ [] ops) in *. clearbody l.
  assert (∀ s' : RStore, witnessAlertQueues s' = witnessAlertQueues (run_store ops) →
    default [] (jget (witnessAlertQueues s') k) = take WITNESS_ALERT_QUEUE_BOUND l) as Hsame by (by intros s' ->).
  destruct o as [a root now|k' st now|k'|k' d|k'|k' a|k'|k' now|k' now|m now]; cbn [step_store]; try by apply Hsame.
  - apply Hsame. unfold recordSession. by destruct (jhas _ _).
  - apply Hsame. unfold drainDeliveries. by destruct (jget _ k') as [[|x q]|].
  - unfold enqueueWitnessAlert. cbn [witnessAlertQueues with_alerts]. destruct (decide (k' = k)) as [->|Hne].
    + rewrite jget_jset_eq, IH. cbn [default from_option id]. by rewrite take_snoc.
    + by rewrite jget_jset_ne.
  - transitivity (default [] (jget (match jget (witnessAlertQueues (run_store ops)) k' with
      None | Some [] => witnessAlertQueues (run_store ops) | Some _ => jset (witnessAlertQueues (run_store ops)) k' [] end) k)).
    { unfold drainWitnessAlerts. by destruct (jget _ k') as [[|x q]|]. }
    rewrite drain_map. destruct (decide (k' = k)); [done|exact IH].
  - apply Hsame. unfold recordRecipientGone. by destruct (jget _ k') as [[]|].
Qed.

Lemma liveness_exact ops k : jget (liveness (run_store ops)) k = last_seen k ops.
Proof.
  induction ops as [|o ops IH] using rev_ind; [done|].
  rewrite run_snoc. unfold last_seen in *. rewrite foldl_app. cbn [foldl].
  set (v := foldl _ None ops) in *. clearbody v.
  assert (∀ s' : RStore, liveness s' = liveness (run_store ops) → jget (liveness s') k = v) as Hsame by (by intros s' ->).
  destruct o as [a root now|k' st now|k'|k' d|k'|k' a|k'|k' now|k' now|m now]; cbn [step_store]; try by apply Hsame.
  - apply Hsame. unfold recordSession. by destruct (jhas _ _).
  - apply Hsame. unfold drainDeliveries. by destruct (jget _ k') as [[|x q]|].
  - apply Hsame. unfold drainWitnessAlerts. by destruct (jget _ k') as [[|x q]|].
  - unfold recordRecipientAlive. cbn. rewrite jget_jset. destruct (decide (k' = k)); [done|exact IH].
  - unfold recordRecipientGone. destruct (decide (k' = k)) as [->|Hne].
    + rewrite IH. destruct v as [[p t]|]; cbn; [by rewrite jget_jset_eq|exact IH].
    + destruct (jget (liveness (run_store ops)) k') as [[p t]|]; cbn; [by rewrite jget_jset_ne|exact IH].
Qed.

(** Queues and liveness, after any sequence of calls.  A recipient's delivery queue
    is the last 256 deliveries since it was drained, and a drain returns it and
    leaves it empty; the witness alerts held are the first 16 since they were
    drained, so no later alert displaces one; a recipient is reported gone only
    after it was seen alive, and as what was seen last. *)
Theorem relay_queues_spec ops k :
  let s := run_store ops in
  (drainDeliveries s k).2 = last_n DELIVERY_QUEUE_BOUND (pending k ops) ∧
  (drainDeliveries (drainDeliveries s k).1 k).2 = [] ∧
  (drainWitnessAlerts s k).2 = take WITNESS_ALERT_QUEUE_BOUND (pending_alerts k ops) ∧
  (drainWitnessAlerts (drainWitnessAlerts s k).1 k).2 = [] ∧
  getRecipientLiveness s k = match last_seen k ops with None => (None, 0%Z) | Some (l, t) => (Some l, t) end ∧
  ((getRecipientLiveness s k).1 = Some gone → ∃ now, Alive k now ∈ ops).
Proof.
  intros s. split; [|split; [|split; [|split; [|split]]]].
  - rewrite <- deliveries_exact. fold s. unfold drainDeliveries. by destruct (jget _ k) as [[|x q]|].
  - unfold drainDeliveries at 2. destruct (jget _ k) as [[|x q]|] eqn:E; unfold drainDeliveries;
      cbn [fst deliveryQueues with_deliveries]; rewrite ?E, ?jget_jset_eq; done.
  - rewrite <- alerts_exact. fold s. unfold drainWitnessAlerts. by destruct (jget _ k) as [[|x q]|].
  - unfold drainWitnessAlerts at 2. destruct (jget _ k) as [[|x q]|] eqn:E; unfold drainWitnessAlerts;
      cbn [fst witnessAlertQueues with_alerts]; rewrite ?E, ?jget_jset_eq; done.
  - unfold getRecipientLiveness, s. by rewrite liveness_exact.
  - unfold getRecipientLiveness, s. rewrite liveness_exact. intros Hg.
    assert (is_Some (last_seen k ops)) as Hs by (destruct (last_seen k ops) as [[]|]; [by eexists|done]). clear Hg s.
    induction ops as [|o ops IH] using rev_ind; [by destruct Hs|].
    unfold last_seen in *. rewrite foldl_app in Hs. cbn [foldl] in Hs.
    assert (is_Some (foldl (λ v o, match o with
      | Alive k' now => if decide (k' = k) then Some (alive, now) else v
      | Gone k' now => if decide (k' = k) then (λ _, (gone, now)) <$> v else v
      | _ => v end) None ops) → ∃ now, Alive k now ∈ ops ++ [o]) as K.
    { intros Hi. destruct (IH Hi) as [now ?]. exists now. rewrite elem_of_app. by left. }
    destruct o as [a root now|k' st now|k'|k' d|k'|k' a|k'|k' now|k' now|m now]; try by apply K.
    + destruct (decide (k' = k)) as [->|]; [|by apply K]. exists now. rewrite elem_of_app. right. left.
    + destruct (decide (k' = k)) as [->|]; [|by apply K]. apply K. by destruct (foldl _ None ops).
Qed.

(** ** Sessions *)

Lemma sweep_map m (p : string * RelaySessionState Leaf Ack → bool) k :
  jwf m → jget (foldl jdel m (map fst (List.filter p m))) k =
  (st ← jget m k; if p (k, st) then None else Some st).
Proof.
  intros Hm. assert (∀ ks (m' : jsmap string (RelaySessionState Leaf Ack)), jwf m' →
    jwf (foldl jdel m' ks) ∧ jget (foldl jdel m' ks) k = if decide (k ∈ ks) then None else jget m' k) as K.
  { induction ks as [|k0 ks IH]; intros m' Hm'; cbn; [by rewrite decide_False by apply not_elem_of_nil|].
    destruct (IH (jdel m' k0)) as [IH1 IH2]; [by apply jwf_jdel|]. split; [done|].
    rewrite IH2, jget_jdel by done. destruct (decide (k ∈ ks)); [by rewrite decide_True by (by right)|].
    destruct (decide (k0 = k)) as [->|]; [by rewrite decide_True by left|].
    rewrite decide_False; [done|]. rewrite elem_of_cons. intros [?|?]; congruence. }
  destruct (K (map fst (List.filter p m)) m Hm) as [_ ->].
  assert (k ∈ map fst (List.filter p m) ↔ ∃ st, jget m k = Some st ∧ p (k, st) = true) as Hk.
  { change (@map (string * RelaySessionState Leaf Ack) string) with (@fmap list _ (string * RelaySessionState Leaf Ack) string).
    rewrite list_elem_of_fmap. split.
    - intros ([k0 st] & -> & Hin). apply list_elem_of_In, List.filter_In in Hin as [Hin Hp].
      exists st. split; [|done]. by apply jget_elem_iff, list_elem_of_In.
    - intros (st & Hst & Hp). exists (k, st). split; [done|]. apply list_elem_of_In, List.filter_In.
      split; [|done]. by apply list_elem_of_In, jget_elem. }
  case_decide as Hd.
  - apply Hk in Hd as (st & -> & Hp). cbn. by rewrite Hp.
  - destruct (jget m k) as [st|] eqn:E; [|done]. cbn. destruct (p (k, st)) eqn:Hp; [|done].
    exfalso. apply Hd, Hk. eauto.
Qed.

Lemma sweep_wf (m : jsmap string (RelaySessionState Leaf Ack)) ks : jwf m → jwf (foldl jdel m ks).
Proof. revert m. induction ks as [|k ks IH]; intros m Hm; [done|]. cbn. by apply IH, jwf_jdel. Qed.

Lemma sessions_wf ops : jwf (sessions (run_store ops)).
Proof.
  induction ops as [|o ops IH] using rev_ind; [constructor|]. rewrite run_snoc.
  destruct o as [a root now|k' st now|k'|k' d|k'|k' a|k'|k' now|k' now|m now]; cbn [step_store]; try done.
  - unfold recordSession. destruct (jhas _ _); [done|]. by apply jwf_jset.
  - by apply jwf_jset.
  - by apply jwf_jdel.
  - unfold drainDeliveries. by destruct (jget _ k') as [[|x q]|].
  - unfold drainWitnessAlerts. by destruct (jget _ k') as [[|x q]|].
  - unfold recordRecipientGone. by destruct (jget _ k') as [[]|].
  - by apply sweep_wf.
Qed.

(** Sessions, in any reachable store.  A session is recorded once: a second
    assignment of its id is refused and changes nothing.  A sweep destroys
    exactly the active sessions whose last write is older than the limit, returns
    their ids, and leaves every other session as it was; so a session written at
    a time survives every sweep within the limit of that time, and one that is
    not active survives them all. *)
Theorem relay_sessions_spec ops maxIdleMs now :
  let s := run_store ops in
  let swept := sweepIdleSessions s maxIdleMs now in
  (∀ k, getSession swept.1 k =
     (st ← getSession s k; if sweepable now maxIdleMs (k, st) then None else Some st)) ∧
  (∀ k, k ∈ swept.2 ↔ ∃ st, getSession s k = Some st ∧ status st = active ∧ (lastActivityAt st < now - maxIdleMs)%Z) ∧
  (∀ k st t, (now - t <= maxIdleMs)%Z →
     getSession (sweepIdleSessions (setSession s k st t) maxIdleMs now).1 k = Some (touch st t)) ∧
  (∀ a root t, (recordSession s a root t).2 = true ↔ getSession s (hex (session_id a)) = None) ∧
  (∀ a root t, (recordSession s a root t).2 = false → (recordSession s a root t).1 = s) ∧
  (∀ a root t, (recordSession s a root t).2 = true →
     getSession (recordSession s a root t).1 (hex (session_id a)) =
     Some (mkSession a root 0 [] active [] root t no_extras)).
Proof.
  intros s swept. pose proof (sessions_wf ops) as Hw. fold s in Hw. split; [|split; [|split; [|split; [|split]]]].
  - intros k. by apply sweep_map.
  - intros k. unfold swept, sweepIdleSessions. cbn [snd].
    change (@map (string * RelaySessionState Leaf Ack) string) with (@fmap list _ (string * RelaySessionState Leaf Ack) string).
    rewrite list_elem_of_fmap. split.
    + intros ([k0 st] & -> & Hin). apply list_elem_of_In, List.filter_In in Hin as [Hin Hp]. unfold sweepable in Hp.
      cbn in Hp. bools. exists st. split; [|done]. by apply jget_elem_iff, list_elem_of_In.
    + intros (st & Hst & Ha & Hl). exists (k, st). split; [done|]. apply list_elem_of_In, List.filter_In.
      split; [by apply list_elem_of_In, jget_elem|]. unfold sweepable. cbn.
      rewrite bool_decide_eq_true_2 by done. by apply Z.ltb_lt.
  - intros k st t Ht. unfold getSession, sweepIdleSessions, setSession. cbn [sessions with_sessions fst].
    rewrite sweep_map by (by apply jwf_jset). rewrite jget_jset_eq. cbn.
    unfold sweepable. cbn. replace (t <? now - maxIdleMs)%Z with false by (symmetry; apply Z.ltb_ge; lia).
    by rewrite andb_false_r.
  - intros a root t. unfold recordSession, getSession, jhas. destruct (jget _ _) as [st|]; cbn; split; done.
  - intros a root t. unfold recordSession. by destruct (jhas _ _).
  - intros a root t. unfold recordSession, getSession. destruct (jhas _ _); [done|]. intros _. apply jget_jset_eq.
Qed.
End Store.

(** * Instances at concrete inputs *)

Lemma rate_limit_spec_witness :
  of_peer "peer" [(Some "peer", 0%Z); (Some "other", 1%Z); (Some "peer", 2%Z); (None, 2%Z); (Some "peer", 3%Z)]
    (checks (mkConfig 2 1000) [] [(Some "peer", 0%Z); (Some "other", 1%Z); (Some "peer", 2%Z); (None, 2%Z); (Some "peer", 3%Z)]).2 =
  [mkDecision true 1 0; mkDecision true 2 0; mkDecision false 3 997].
Proof.
  refine (proj1 (rate_limit_spec (mkConfig 2 1000)
    [(Some "peer", 0%Z); (Some "other", 1%Z); (Some "peer", 2%Z); (None, 2%Z); (Some "peer", 3%Z)] 0 "peer" 0 _ _)).
  - cbn. lia.
  - discriminate.
Defined.

End RelayTheorems.
