(* ===== verification/SealChain.v ===== *)
(** The seal-chain verifier shared by the directory and the relay
    (packages/interfaces/src/seal-chain-verify.ts, seal-leaf-types.ts).

    The Ed25519 check, the CBOR codec, the Structure 2 and relay-ack encoders,
    the leaf and node hashes and the content tree come from other packages;
    they are parameters.  The prose of the [detail] fields is not modelled. *)
From Stdlib Require Import Ascii.
From S2P Require Import Prelude Text Wire JsMap.
Import Text Wire JsMap.

Module SealChain.

(** * Data *)

(** [RelaySealLeafKind] and the wire byte of each domain. *)
Inductive leaf_kind : Type := msg | ctrl | doc | reject.

#[global] Instance leaf_kind_eq_dec : EqDecision leaf_kind.
Proof. solve_decision. Defined.

Definition LEAF_KINDS (wire : jsnum) : option leaf_kind :=
  match wire with
  | JInt 0 => Some msg
  | JInt 2 => Some ctrl
  | JInt 4 => Some doc
  | JInt 5 => Some reject
  | _ => None
  end.

Record Structure2 : Type := mkS2 {
  sequence_number : Z;
  sender_pubkey : bytes;
  content_hash : bytes;
  sender_signature : bytes;
  prev_root : bytes;
}.

Record SealUnilateralLeaf : Type := mkWireLeaf {
  w_sequence_number : jsnum;
  w_leaf_kind : jsnum;
  w_structure2_cbor : bytes;
  w_structure1_cbor : bytes;
  w_relay_id : option string;
  w_relay_timestamp : option jsnum;
  w_relay_signature : option bytes;
  w_content_bytes : option bytes;
}.

Record RelaySealLeaf : Type := mkLeaf {
  kind : leaf_kind;
  s2 : Structure2;
  structure1_cbor : bytes;
  content_bytes : option bytes;
}.

Record Structure1Fields : Type := mkS1 {
  s1_content_hash : bytes;
  s1_session_id : bytes;
  s1_last_seen_seq : jsnum;
  s1_timestamp : jsval;
  s1_last_seen_hash : bytes;
  s1_prev_own_hash : bytes;
}.

Record SessionTipAttestation : Type := mkTip {
  t_pubkey : jsval;
  t_last_seq : jsnum;
  t_root : jsval;
  t_signature : jsval;
}.

(** ** Reasons *)

Definition ROOT_MISMATCH := "seal_chain_root_mismatch".
Definition SENDER_SIGNATURE_INVALID := "seal_chain_sender_signature_invalid".
Definition STRUCTURE1_UNDECODABLE := "seal_chain_structure1_undecodable".
Definition CONTENT_HASH_MISMATCH := "unilateral_content_hash_mismatch".
Definition PREV_ROOT_BREAK := "seal_chain_prev_root_break".
Definition CAUSAL_ORDER_VIOLATION := "seal_chain_causal_order_violation".
Definition SELF_CHAIN_BREAK := "seal_chain_self_link_break".

Definition SEAL_CHAIN_REASONS : list string :=
  [ROOT_MISMATCH; SENDER_SIGNATURE_INVALID; STRUCTURE1_UNDECODABLE; CONTENT_HASH_MISMATCH;
   PREV_ROOT_BREAK; CAUSAL_ORDER_VIOLATION; SELF_CHAIN_BREAK].

Definition DIRECTORY_COLLAPSED_CHAIN_REASONS : list string :=
  [ROOT_MISMATCH; SENDER_SIGNATURE_INVALID; STRUCTURE1_UNDECODABLE; PREV_ROOT_BREAK;
   CAUSAL_ORDER_VIOLATION].

Definition NOT_CARRIED := "not_carried".
Definition PAYLOAD_UNBOUND := "seal_payload_unbound".
Definition PAYLOAD_MALFORMED := "seal_payload_malformed".
Definition SESSION_MISMATCH := "seal_payload_session_mismatch".
Definition ROOT_DISAGREES := "seal_final_root_disagrees".
Definition PARTIES_DISAGREE := "seal_final_root_parties_disagree".
Definition SENDER_NOT_PARTICIPANT := "seal_sender_not_participant".
Definition LEAF_SESSION_MISMATCH := "seal_leaf_session_mismatch".
Definition APPROVAL_INCOMPLETE := "seal_approval_missing".

(** ** Text helpers *)

Definition is_hex_char (c : ascii) : bool :=
  let n := N_of_ascii c in
  (((48 <=? n) && (n <=? 57)) || ((97 <=? n) && (n <=? 102)) || ((65 <=? n) && (n <=? 70)))%N.

(** [/^[0-9a-fA-F]{64}$/.test(s)] *)
Definition is_hex64 (s : string) : bool :=
  (String.length s =? 64)%nat && all_chars is_hex_char s.

Section Verifier.
(** The parts of other packages. *)
Variable verify : bytes → bytes → bytes → bool.
Variable cborDecode : bytes → option jsval.
Variable encodeCbor : list jsval → bytes.
Variable encodeStructure2 : Structure2 → bytes.
Variable buildRelayAckTbs : bytes → Z → jsnum → bytes.
Variable leaf_hasher : leaf_kind → bytes → bytes.
Variable nodeHash : bytes → bytes → bytes.
(** [merkleRoot(buildMerkleTree(...))] over leaves of kind [hash]. *)
Variable hash_tree_root : list bytes → bytes.

(** * Structure 1 *)

(** [hash32], and the same shape check at another length. *)
Definition decodeStructure1Fields (cbor : bytes) : option Structure1Fields :=
  match cborDecode cbor with
  | Some (VArr arr) =>
      match at_index arr 0 with
      | VNum (JInt 3) =>
          if negb (length arr =? 8)%nat then None else
          ch ← bytes_of_length 32 (at_index arr 1);
          sid ← bytes_of_length 16 (at_index arr 3);
          lss ← (match at_index arr 4 with VNum n => Some n | _ => None end);
          ts ← (match at_index arr 5 with VNum n => Some (VNum n) | VBig z => Some (VBig z) | _ => None end);
          lsh ← bytes_of_length 32 (at_index arr 6);
          poh ← bytes_of_length 32 (at_index arr 7);
          Some (mkS1 ch sid lss ts lsh poh)
      | _ => None
      end
  | _ => None
  end.

(** The content hash and the session id only. *)
Definition decodeStructure1Signed (cbor : bytes) : option (bytes * bytes) :=
  fields ← decodeStructure1Fields cbor; Some (s1_content_hash fields, s1_session_id fields).

(** * Carried leaves *)

(** [u8]: anything that is not bytes becomes empty. *)
Definition u8 (v : jsval) : bytes := default EmptyString (as_bytes v).

Definition seq_of (v : jsval) : jsnum :=
  match v with VNum n => n | VBig z => number_of_bigint z | _ => JNaN end.

(** The receipt of a leaf of the present party. *)
Definition check_receipt (w : SealUnilateralLeaf) (hash : bytes) (seq : Z)
    (receiptRelayHex : option string) : result string unit :=
  match w_relay_id w, w_relay_timestamp w, w_relay_signature w with
  | Some relay_id, Some ts, Some sig =>
      if bool_decide (relay_id = EmptyString) then Err "unilateral_own_leaf_unwitnessed"
      else if negb (is_hex64 relay_id) then Err "unilateral_receipt_bad_relay_id"
      else if match receiptRelayHex with
              | Some r => negb (bool_decide (to_lower relay_id = to_lower r))
              | None => false
              end then Err "unilateral_receipt_wrong_relay"
      else if negb (verify (default EmptyString (unhex relay_id)) (buildRelayAckTbs hash seq ts) sig)
      then Err "unilateral_receipt_invalid"
      else Ok tt
  | _, _, _ => Err "unilateral_own_leaf_unwitnessed"
  end.

(** One turn of the loop, at index [i]. *)
Definition reconstruct_leaf (i : nat) (w : SealUnilateralLeaf) (presentHex : string)
    (receiptRelayHex : option string) : result string RelaySealLeaf :=
  match cborDecode (w_structure2_cbor w) with
  | Some (VArr arr) =>
      if negb (length arr =? 6)%nat then Err "unilateral_leaf_malformed" else
      let pk := u8 (at_index arr 1) in
      let ch := u8 (at_index arr 2) in
      let sig := u8 (at_index arr 3) in
      let pr := u8 (at_index arr 5) in
      match seq_of (at_index arr 0) with
      | JInt seq =>
          if negb ((String.length pk =? 32) && (String.length ch =? 32) &&
                   (String.length sig =? 64) && (String.length pr =? 32))%nat
          then Err "unilateral_leaf_malformed"
          else if negb (bool_decide (w_sequence_number w = JInt seq))
          then Err "unilateral_leaf_seq_mismatch"
          else if negb (seq =? Z.of_nat i + 1)%Z then Err "unilateral_chain_noncontiguous"
          else
            _ ← (if bool_decide (hex pk = presentHex) then check_receipt w ch seq receiptRelayHex
                 else Ok tt);
            match LEAF_KINDS (w_leaf_kind w) with
            | None => Err "unilateral_leaf_kind_unknown"
            | Some k =>
                Ok (mkLeaf k (mkS2 seq pk ch sig pr) (w_structure1_cbor w) (w_content_bytes w))
            end
      | _ => Err "unilateral_leaf_malformed"
      end
  | _ => Err "unilateral_leaf_malformed"
  end.

Fixpoint reconstruct_from (i : nat) (ws : list SealUnilateralLeaf) (presentHex : string)
    (receiptRelayHex : option string) : result string (list RelaySealLeaf) :=
  match ws with
  | [] => Ok []
  | w :: ws =>
      leaf ← reconstruct_leaf i w presentHex receiptRelayHex;
      rest ← reconstruct_from (S i) ws presentHex receiptRelayHex;
      Ok (leaf :: rest)
  end.

Definition reconstructCarriedSealLeaves (sealLeaves : option (list SealUnilateralLeaf))
    (presentHex : string) (receiptRelayHex : option string) : result string (list RelaySealLeaf) :=
  match sealLeaves with
  | None | Some [] => Err "unilateral_leaves_unavailable"
  | Some ws => reconstruct_from 0 ws presentHex receiptRelayHex
  end.

(** * Provenance *)

Fixpoint provenance_loop (leaves : list RelaySealLeaf) (sessionId : bytes)
    (participants : option (bytes * bytes)) : result string unit :=
  match leaves with
  | [] => Ok tt
  | leaf :: rest =>
      let pk := sender_pubkey (s2 leaf) in
      if match participants with
         | Some (p, q) => negb (bool_decide (p = pk) || bool_decide (q = pk))
         | None => false
         end then Err SENDER_NOT_PARTICIPANT
      else match decodeStructure1Signed (structure1_cbor leaf) with
      | None => Err PAYLOAD_MALFORMED
      | Some (_, sid) =>
          if negb (bool_decide (sid = sessionId)) then Err LEAF_SESSION_MISMATCH
          else provenance_loop rest sessionId participants
      end
  end.

Definition distinctSenders (leaves : list RelaySealLeaf) : list string :=
  remove_dups (map (λ l, hex (sender_pubkey (s2 l))) leaves).

Definition verifyLeafProvenance (leaves : list RelaySealLeaf) (sessionId : bytes)
    (participants : option (bytes * bytes)) : result string unit :=
  _ ← provenance_loop leaves sessionId participants;
  if bool_decide (participants = None) && (2 <? length (distinctSenders leaves))%nat
  then Err SENDER_NOT_PARTICIPANT
  else Ok tt.

(** * The chain *)

(** The incremental RFC 6962 stack, top first: (hash, height). *)
Fixpoint stack_push (node : bytes) (height : Z) (stack : list (bytes * Z)) : list (bytes * Z) :=
  match stack with
  | (h, hh) :: rest =>
      if (hh =? height)%Z then stack_push (nodeHash h node) (height + 1) rest
      else (node, height) :: stack
  | [] => [(node, height)]
  end.

Definition stack_root (stack : list (bytes * Z)) : option bytes :=
  match stack with
  | [] => None
  | (h, _) :: rest => Some (foldl (λ acc e, nodeHash e.1 acc) h rest)
  end.

(** The highest sequence number of the other senders before a leaf. *)
Definition effectiveSeen (before : list RelaySealLeaf) (senderHex : string) : Z :=
  foldl (λ seen l, if negb (bool_decide (hex (sender_pubkey (s2 l)) = senderHex)) &&
                      (seen <? sequence_number (s2 l))%Z
                   then sequence_number (s2 l) else seen) 0%Z before.

Record chain_state : Type := mkChain {
  c_stack : list (bytes * Z);
  c_runningRoot : bytes;
  c_lastOwn : jsmap string bytes;
}.

(** One turn of the loop; [before] are the leaves of the earlier turns. *)
Definition chain_step (before : list RelaySealLeaf) (c : chain_state) (leaf : RelaySealLeaf)
    : result string chain_state :=
  if negb (verify (sender_pubkey (s2 leaf)) (structure1_cbor leaf) (sender_signature (s2 leaf)))
  then Err SENDER_SIGNATURE_INVALID
  else match decodeStructure1Fields (structure1_cbor leaf) with
  | None => Err STRUCTURE1_UNDECODABLE
  | Some f =>
      if negb (bool_decide (s1_content_hash f = content_hash (s2 leaf)))
      then Err CONTENT_HASH_MISMATCH
      else if negb (bool_decide (prev_root (s2 leaf) = c_runningRoot c)) then Err PREV_ROOT_BREAK
      else
        let senderHex := hex (sender_pubkey (s2 leaf)) in
        if js_gtb (s1_last_seen_seq f) (effectiveSeen before senderHex)
        then Err CAUSAL_ORDER_VIOLATION
        else if match jget (c_lastOwn c) senderHex with
                | Some prevOwn => negb (bool_decide (s1_prev_own_hash f = prevOwn))
                | None => false
                end then Err SELF_CHAIN_BREAK
        else
          let stack := stack_push (leaf_hasher (kind leaf) (encodeStructure2 (s2 leaf))) 0 (c_stack c) in
          Ok (mkChain stack (default (c_runningRoot c) (stack_root stack))
                (jset (c_lastOwn c) senderHex (s1_content_hash f)))
  end.

Fixpoint chain_loop (before : list RelaySealLeaf) (c : chain_state) (leaves : list RelaySealLeaf)
    : result string chain_state :=
  match leaves with
  | [] => Ok c
  | leaf :: rest =>
      c' ← chain_step before c leaf;
      chain_loop (before ++ [leaf]) c' rest
  end.

Definition zero32 : bytes := sjoin (replicate 32 (String "000" EmptyString)).

Definition initial_root (leaves : list RelaySealLeaf) : bytes :=
  match leaves with leaf :: _ => prev_root (s2 leaf) | [] => zero32 end.

Definition verifySealLeafChain (leaves : list RelaySealLeaf) (reportedRoot sessionId : bytes)
    (roster : bytes * bytes) : result string bytes :=
  let recomputedRoot := hash_tree_root (map (λ l, content_hash (s2 l)) leaves) in
  if negb (bool_decide (recomputedRoot = reportedRoot)) then Err ROOT_MISMATCH
  else
    _ ← chain_loop [] (mkChain [] (initial_root leaves) []) leaves;
    _ ← verifyLeafProvenance leaves sessionId (Some roster);
    Ok recomputedRoot.

Definition verifySealCtrlLeaf (leaves : list RelaySealLeaf) (presentHex : string)
    : result string unit :=
  match List.filter (λ l, bool_decide (kind l = ctrl)) leaves with
  | [l] =>
      if negb (bool_decide (hex (sender_pubkey (s2 l)) = presentHex))
      then Err "unilateral_seal_leaf_invalid" else Ok tt
  | _ => Err "unilateral_seal_leaf_invalid"
  end.

(** * The counterparty's tip attestation *)

Definition SESSION_TIP_DOMAIN := "cello-session-tip-v1".

Definition buildSessionTipTbs (sessionId : bytes) (lastSeq : Z) (root : bytes) : bytes :=
  encodeCbor [VStr SESSION_TIP_DOMAIN; VBytes sessionId; VNum (JInt lastSeq); VBytes root].

Definition contentRootOverPrefix (leaves : list RelaySealLeaf) (count : Z) : bytes :=
  hash_tree_root (map (λ l, content_hash (s2 l)) (take (Z.to_nat count) leaves)).

(** A refusal carries whether it marks the session diverged. *)
Definition verifySessionTipAttestation (attestation : option SessionTipAttestation)
    (leaves : list RelaySealLeaf) (sessionId : bytes) (expectedAttestorHex : string)
    : result (string * bool) Z :=
  match attestation with
  | None => Err ("replay_tip_attestation_absent", false)
  | Some a =>
      match bytes_of_length 32 (t_pubkey a), bytes_of_length 32 (t_root a),
            bytes_of_length 64 (t_signature a), t_last_seq a with
      | Some pk, Some root, Some sig, JInt last_seq =>
          if (last_seq <? 1)%Z then Err ("replay_tip_attestation_malformed", false)
          else if negb (bool_decide (hex pk = expectedAttestorHex))
          then Err ("replay_tip_attestation_wrong_party", false)
          else if negb (verify pk (buildSessionTipTbs sessionId last_seq root) sig)
          then Err ("replay_tip_attestation_invalid", false)
          else if (Z.of_nat (length leaves) <? last_seq)%Z then Err ("replay_tip_unsupplied", false)
          else if negb (bool_decide (contentRootOverPrefix leaves last_seq = root))
          then Err ("replay_chain_diverged", true)
          else Ok last_seq
      | _, _, _, _ => Err ("replay_tip_attestation_malformed", false)
      end
  end.

End Verifier.
End SealChain.
