(* ===== verification/Merkle.v ===== *)
(** The RFC 6962 tree head of a list of leaf hashes, and the incremental stack
    that computes it one leaf at a time (the fold of [verifySealLeafChain] and
    of the relay's [hash_submit] handler). *)
From Equations Require Import Equations.
From S2P Require Import Prelude SealChain.
From stdpp Require Import list.
Import SealChain.

Module Merkle.

Section Merkle.
Variable nodeHash : bytes → bytes → bytes.

(** The largest power of two below [n], for [n > 1]. *)
Definition split_at (n : nat) : nat := 2 ^ Nat.log2 (n - 1).

Lemma split_at_bounds n : 2 <= n → 1 <= split_at n < n.
Proof.
  intros Hn. unfold split_at. pose proof (Nat.log2_spec (n - 1) ltac:(lia)) as [H1 _].
  assert (2 ^ Nat.log2 (n - 1) ≠ 0) by (apply Nat.pow_nonzero; lia). lia.
Qed.

(** The reference definition: MTH of RFC 6962 over hashed leaves. *)
Equations? mth (l : list bytes) : bytes by wf (length l) lt :=
mth [] := EmptyString;
mth [x] := x;
mth (x :: y :: r) :=
  let k := split_at (length (x :: y :: r)) in
  nodeHash (mth (take k (x :: y :: r))) (mth (drop k (x :: y :: r))).
Proof.
  - rewrite length_take. pose proof (split_at_bounds (length (x :: y :: r)) ltac:(cbn; lia)).
    cbn in *. lia.
  - rewrite length_drop. pose proof (split_at_bounds (length (x :: y :: r)) ltac:(cbn; lia)).
    cbn in *. lia.
Qed.

Lemma mth_two l :
  2 <= length l →
  mth l = nodeHash (mth (take (split_at (length l)) l)) (mth (drop (split_at (length l)) l)).
Proof. destruct l as [|x [|y r]]; cbn [length]; try lia. intros _. by simp mth. Qed.

Lemma split_at_pow h m : 0 < m → m <= 2 ^ h → split_at (2 ^ h + m) = 2 ^ h.
Proof.
  intros Hm Hle. unfold split_at. f_equal.
  apply Nat.log2_unique; [lia|]. rewrite Nat.pow_succ_r'. lia.
Qed.

(** A full left subtree splits off. *)
Lemma mth_split c r h :
  length c = 2 ^ h → 0 < length r → length r <= 2 ^ h → mth (c ++ r) = nodeHash (mth c) (mth r).
Proof.
  intros Hc Hr Hle. assert (2 ^ h ≠ 0) by (apply Nat.pow_nonzero; lia).
  rewrite mth_two by (rewrite length_app; lia).
  rewrite length_app, Hc, split_at_pow by lia.
  by rewrite take_app_length', drop_app_length' by done.
Qed.

(** ** The stack as a list of full chunks, the newest first *)

Record chunk_ok (e : bytes * Z) (c : list bytes) (h : nat) : Prop := mkChunk {
  ck_height : e.2 = Z.of_nat h;
  ck_length : length c = 2 ^ h;
  ck_hash : e.1 = mth c;
}.

(** The stack holds the chunks [cs], of strictly increasing heights [hs]. *)
Inductive stack_ok : list (bytes * Z) → list (list bytes) → list nat → Prop :=
| stack_nil : stack_ok [] [] []
| stack_cons e c h st cs hs :
    chunk_ok e c h → stack_ok st cs hs → Forall (λ k, h < k) hs →
    stack_ok (e :: st) (c :: cs) (h :: hs).

Definition content (cs : list (list bytes)) : list bytes := concat (rev cs).

Lemma content_cons c cs : content (c :: cs) = content cs ++ c.
Proof. unfold content. cbn. rewrite concat_app. cbn. by rewrite app_nil_r. Qed.

Lemma stack_push_ok st cs hs node c h :
  stack_ok st cs hs → mth c = node → length c = 2 ^ h → Forall (λ k, h <= k) hs →
  ∃ cs' hs', stack_ok (stack_push nodeHash node (Z.of_nat h) st) cs' hs' ∧
    content cs' = content cs ++ c.
Proof.
  intros Hst. revert node c h. induction Hst as [|[eh ez] d k st cs hs [Hz Hd Hh] Hst IH Hlt];
    intros node c h <- Hlen Hle; cbn [stack_push].
  - exists [c], [h]. split; [|by rewrite content_cons]. apply stack_cons; [by apply mkChunk|apply stack_nil|done].
  - cbn [fst snd] in *. subst ez eh. apply Forall_cons in Hle as [Hhk Hle].
    destruct (Z.of_nat k =? Z.of_nat h)%Z eqn:E; bools.
    + assert (k = h) as -> by lia.
      assert (0 < 2 ^ h) by (pose proof (Nat.pow_nonzero 2 h); lia).
      destruct (IH (nodeHash (mth d) (mth c)) (d ++ c) (S h)) as (cs' & hs' & Hok & Hc).
      * apply (mth_split d c h); lia.
      * rewrite length_app, Nat.pow_succ_r'. lia.
      * eapply Forall_impl; [exact Hlt|]. cbn. lia.
      * exists cs', hs'. rewrite Nat2Z.inj_succ, <- Z.add_1_r in Hok. split; [exact Hok|].
        rewrite Hc, content_cons. by rewrite app_assoc.
    + exists (c :: d :: cs), (h :: k :: hs). split; [|by rewrite content_cons].
      constructor; [done| |].
      * by constructor.
      * apply Forall_cons. split; [lia|]. eapply Forall_impl; [exact Hlt|]. cbn. lia.
Qed.

(** The right-to-left fold of the stack. *)
Lemma fold_root st cs hs acc r :
  stack_ok st cs hs → acc = mth r → 0 < length r → Forall (λ k, length r <= 2 ^ k) hs →
  foldl (λ acc e, nodeHash e.1 acc) acc st = mth (content cs ++ r).
Proof.
  intros Hst. revert acc r. induction Hst as [|[eh ez] c h st cs hs [Hz Hc Hh] Hst IH Hlt];
    intros acc r -> Hr Hle; cbn [foldl]; [done|].
  cbn [fst snd] in *. subst. apply Forall_cons in Hle as [Hrh _]. cbn beta in Hrh.
  rewrite content_cons, <- app_assoc. apply IH.
  - by rewrite (mth_split c r h).
  - rewrite length_app. lia.
  - eapply Forall_impl; [exact Hlt|]. intros k Hk. cbn beta in *.
    rewrite length_app, Hc. assert (2 ^ S h <= 2 ^ k) by (apply Nat.pow_le_mono_r; lia).
    rewrite (Nat.pow_succ_r' 2 h) in *. lia.
Qed.

Lemma stack_root_ok st cs hs :
  stack_ok st cs hs → stack_root nodeHash st = if decide (st = []) then None else Some (mth (content cs)).
Proof.
  intros Hst. destruct Hst as [|[eh ez] c h st cs hs [Hz Hc Hh] Hst Hlt]; [done|].
  cbn [fst snd] in *. subst. rewrite decide_False by done. cbn [stack_root]. f_equal.
  pose proof (Nat.pow_nonzero 2 h).
  rewrite content_cons. apply (fold_root _ _ hs); [done..|lia|].
  eapply Forall_impl; [exact Hlt|]. intros k Hk. cbn beta in *. rewrite Hc. apply Nat.pow_le_mono_r; lia.
Qed.

(** ** Pushing leaf by leaf *)

Definition push_all (st : list (bytes * Z)) (leaves : list bytes) : list (bytes * Z) :=
  foldl (λ st x, stack_push nodeHash x 0 st) st leaves.

Definition represents (st : list (bytes * Z)) (leaves : list bytes) : Prop :=
  ∃ cs hs, stack_ok st cs hs ∧ content cs = leaves.

Lemma represents_nil : represents [] [].
Proof. exists [], []. split; [constructor|done]. Qed.

Lemma represents_push st leaves x :
  represents st leaves → represents (stack_push nodeHash x 0 st) (leaves ++ [x]).
Proof.
  intros (cs & hs & Hok & <-).
  destruct (stack_push_ok st cs hs x [x] 0 Hok) as (cs' & hs' & Hok' & Hc).
  - by simp mth.
  - done.
  - apply Forall_forall. intros; lia.
  - by exists cs', hs'.
Qed.

Lemma represents_push_all leaves : represents (push_all [] leaves) leaves.
Proof.
  induction leaves as [|x leaves IH] using rev_ind; [apply represents_nil|].
  unfold push_all in *. rewrite foldl_app. cbn. by apply represents_push.
Qed.

Lemma represents_root st leaves :
  represents st leaves → leaves ≠ [] → stack_root nodeHash st = Some (mth leaves).
Proof.
  intros (cs & hs & Hok & <-) Hne. rewrite (stack_root_ok _ _ _ Hok), decide_False; [done|].
  intros ->. inversion Hok; subst. done.
Qed.

(** The heights on the stack are the set bits of the number of leaves. *)
Lemma stack_heights st leaves :
  represents st leaves →
  sum_by (λ e, 2 ^ e.2)%Z st = Z.of_nat (length leaves).
Proof.
  intros (cs & hs & Hok & <-). induction Hok as [|[eh ez] c h st cs hs [Hz Hc Hh] Hst IH Hlt]; [done|].
  cbn [sum_by snd] in *. rewrite content_cons, length_app, Hc, IH. subst.
  rewrite Nat2Z.inj_add, Nat2Z.inj_pow. lia.
Qed.

(** The incremental fold is RFC 6962: after pushing any non-empty list of leaf
    hashes one by one, the running root is the reference tree head of the
    list, whatever the node hash; and the heights on the stack sum to the
    number of leaves, so the stack stays logarithmic. *)
Theorem incremental_root_is_mth leaves :
  leaves ≠ [] →
  stack_root nodeHash (push_all [] leaves) = Some (mth leaves) ∧
  sum_by (λ e, 2 ^ e.2)%Z (push_all [] leaves) = Z.of_nat (length leaves).
Proof.
  intros Hne. pose proof (represents_push_all leaves) as R. split.
  - by apply represents_root.
  - by apply stack_heights.
Qed.

End Merkle.

Lemma incremental_root_is_mth_witness :
  stack_root (λ a b, "(" +:+ (a +:+ (b +:+ ")")))
    (push_all (λ a b, "(" +:+ (a +:+ (b +:+ ")"))) [] ["a"; "b"; "c"; "d"; "e"]) =
  Some "(((ab)(cd))e)".
Proof.
  destruct (incremental_root_is_mth (λ a b, "(" +:+ (a +:+ (b +:+ ")")))
    ["a"; "b"; "c"; "d"; "e"]) as [E _]; [done|].
  rewrite E. reflexivity.
Defined.

End Merkle.
