(* ===== verification/SealChainTheorems.v ===== *)
(** What the seal-chain verifier of [SealChain] promises: an abstract
    specification of a valid chain and the theorem that the loop decides exactly
    it, the guarantees about carried leaves, self links and tip attestations. *)
From S2P Require Import Prelude Text Wire JsMap SealChain Merkle.
Import Text Wire JsMap SealChain Merkle.

Module SealChainTheorems.

(** * Senders, what they have seen, and their previous leaf *)

Definition sender (l : RelaySealLeaf) : bytes := sender_pubkey (s2 l).
(** The claimed last seen sequence is at most 0, or at most that of some earlier
    leaf of another sender. *)
Definition has_seen (before : list RelaySealLeaf) (pk : bytes) (lss : jsnum) : Prop :=
  js_gtb lss 0 = false ∨
  ∃ l, l ∈ before ∧ sender l ≠ pk ∧ js_gtb lss (sequence_number (s2 l)) = false.

(** The sender's previous leaf among the earlier ones. *)
Definition previous_own (before : list RelaySealLeaf) (pk : bytes) : option RelaySealLeaf :=
  List.find (λ l, bool_decide (sender l = pk)) (rev before).

Lemma js_gtb_mono x n m : (n <= m)%Z → js_gtb x n = false → js_gtb x m = false.
Proof.
  destruct x; cbn; try done; intros Hle Hf; bools; (apply Z.ltb_ge || apply Z.leb_gt); lia.
Qed.

Lemma effectiveSeen_app before l pk :
  effectiveSeen (before ++ [l]) pk =
  if negb (bool_decide (hex (sender l) = pk)) && (effectiveSeen before pk <? sequence_number (s2 l))%Z
  then sequence_number (s2 l) else effectiveSeen before pk.
Proof. unfold effectiveSeen. by rewrite foldl_app. Qed.

Lemma effectiveSeen_spec before pk lss :
  js_gtb lss (effectiveSeen before (hex pk)) = false ↔ has_seen before pk lss.
Proof.
  unfold has_seen. induction before as [|l before IH] using rev_ind.
  - cbn. split; [by left|]. intros [?|(l & Hl & _)]; [done|]. by apply not_elem_of_nil in Hl.
  - rewrite effectiveSeen_app.
    assert (has_seen (before ++ [l]) pk lss ↔
            has_seen before pk lss ∨ (sender l ≠ pk ∧ js_gtb lss (sequence_number (s2 l)) = false)) as ->.
    { unfold has_seen. setoid_rewrite elem_of_app. setoid_rewrite list_elem_of_singleton. naive_solver. }
    rewrite <- IH. destruct (bool_decide (hex (sender l) = hex pk)) eqn:E; bools; cbn [negb andb].
    + apply (inj hex) in E. naive_solver.
    + assert (sender l ≠ pk) as Hne by congruence.
      destruct (effectiveSeen before (hex pk) <? sequence_number (s2 l))%Z eqn:El; bools.
      * split; [by right; split|]. intros [Hf|[_ Hf]]; [|done].
        eapply js_gtb_mono; [|exact Hf]. lia.
      * split; [by left|]. intros [Hf|[_ Hf]]; [done|]. eapply js_gtb_mono; [|exact Hf]. lia.
Qed.

Lemma previous_own_app before l pk :
  previous_own (before ++ [l]) pk = if decide (sender l = pk) then Some l else previous_own before pk.
Proof.
  unfold previous_own. rewrite rev_app_distr. cbn. case_decide as E.
  - by rewrite bool_decide_eq_true_2.
  - by rewrite bool_decide_eq_false_2.
Qed.

Lemma previous_own_last before l : previous_own (before ++ [l]) (sender l) = Some l.
Proof. by rewrite previous_own_app, decide_True. Qed.

Lemma remove_dups_map {A B} `{EqDecision A, EqDecision B} (g : A → B) `{!Inj (=) (=) g} (l : list A) :
  length (remove_dups (map g l)) = length (remove_dups l).
Proof.
  transitivity (length (map g (remove_dups l))); [|by rewrite length_map].
  apply Permutation_length, NoDup_Permutation.
  - apply NoDup_remove_dups.
  - apply (NoDup_fmap g), NoDup_remove_dups.
  - intros x. rewrite elem_of_remove_dups. change (@map A B) with (@fmap list _ A B).
    rewrite !list_elem_of_fmap. by setoid_rewrite elem_of_remove_dups.
Qed.

Lemma unit_result {E} (r : result E unit) : (∃ e, r = Err e) ∨ r = Ok tt.
Proof. destruct r as [[]|e]; eauto. Qed.

(** * The control leaf *)

(** Exactly one control leaf, of the submitting party. *)
Theorem ctrl_leaf_spec leaves presentHex :
  verifySealCtrlLeaf leaves presentHex = Ok tt ↔
  ∃ before l after, leaves = before ++ l :: after ∧ kind l = ctrl ∧
    hex (sender l) = presentHex ∧
    Forall (λ l, kind l ≠ ctrl) before ∧ Forall (λ l, kind l ≠ ctrl) after.
Proof.
  unfold verifySealCtrlLeaf.
  assert (∀ ls, List.filter (λ l, bool_decide (kind l = ctrl)) ls = [] ↔ Forall (λ l, kind l ≠ ctrl) ls) as F0.
  { induction ls as [|x ls IH]; cbn; [split; [constructor|done]|]. rewrite list.Forall_cons, <- IH.
    destruct (bool_decide (kind x = ctrl)) eqn:E; bools; naive_solver. }
  assert (∀ ls l, List.filter (λ l, bool_decide (kind l = ctrl)) ls = [l] ↔
    ∃ b a, ls = b ++ l :: a ∧ kind l = ctrl ∧
      Forall (λ l, kind l ≠ ctrl) b ∧ Forall (λ l, kind l ≠ ctrl) a) as F1.
  { induction ls as [|x ls IH]; intros l; cbn.
    - split; [done|]. intros (b & a & E & _). by destruct b.
    - destruct (bool_decide (kind x = ctrl)) eqn:E; bools.
      + split.
        * intros [= -> H0]. exists [], ls. split; [done|]. split; [done|]. split; [constructor|by apply F0].
        * intros (b & a & Eq & Hk & Hb & Ha). destruct b as [|y b]; injection Eq as -> ->.
          -- f_equal. by apply F0.
          -- by apply list.Forall_cons in Hb as [? _].
      + rewrite IH. split.
        * intros (b & a & -> & ? & ? & ?). exists (x :: b), a. split; [done|]. split; [done|].
          split; [by constructor|done].
        * intros (b & a & Eq & Hk & Hb & Ha). destruct b as [|y b]; injection Eq as -> ->; [done|].
          apply list.Forall_cons in Hb as [_ Hb]. by exists b, a. }
  destruct (List.filter _ leaves) as [|l [|l' ls]] eqn:Ef.
  - split; [done|]. intros (b & l & a & -> & Hk & _ & Hb & Ha).
    assert (List.filter (λ l, bool_decide (kind l = ctrl)) (b ++ l :: a) = [l]) by (apply F1; eauto 10).
    congruence.
  - apply F1 in Ef as (b & a & -> & Hk & Hb & Ha). fold (sender l).
    destruct (bool_decide (hex (sender l) = presentHex)) eqn:E; bools; cbn [negb].
    + split; [|done]. intros _. exists b, l, a. done.
    + split; [done|]. intros (b' & l' & a' & Eq & Hk' & Hs & Hb' & Ha'). exfalso. apply E.
      assert (List.filter (λ l, bool_decide (kind l = ctrl)) (b ++ l :: a) = [l]) as E1 by (apply F1; eauto 10).
      assert (List.filter (λ l, bool_decide (kind l = ctrl)) (b ++ l :: a) = [l']) as E2
        by (rewrite Eq; apply F1; eauto 10).
      congruence.
  - split; [done|]. intros (b & k & a & -> & Hk & _ & Hb & Ha).
    assert (List.filter (λ l, bool_decide (kind l = ctrl)) (b ++ k :: a) = [k]) by (apply F1; eauto 10).
    congruence.
Qed.

Section Provenance.
Variable cborDecode : bytes → option jsval.
Abbreviation decodeS1 := (decodeStructure1Fields cborDecode).
Abbreviation provenance := (verifyLeafProvenance cborDecode).

(** * Provenance *)

Definition names_session (sessionId : bytes) (l : RelaySealLeaf) : Prop :=
  ∃ f, decodeS1 (structure1_cbor l) = Some f ∧ s1_session_id f = sessionId.

Definition in_pair (participants : option (bytes * bytes)) (l : RelaySealLeaf) : Prop :=
  match participants with
  | Some (p, q) => sender l = p ∨ sender l = q
  | None => True
  end.

Lemma decodeSigned_spec cbor c sid :
  decodeStructure1Signed cborDecode cbor = Some (c, sid) ↔
  ∃ f, decodeS1 cbor = Some f ∧ s1_content_hash f = c ∧ s1_session_id f = sid.
Proof.
  unfold decodeStructure1Signed. destruct (decodeS1 cbor) as [f|]; cbn; [|naive_solver].
  split; [intros [= <- <-]; eauto|]. intros (? & [= <-] & <- & <-). done.
Qed.

Lemma provenance_loop_spec leaves sessionId participants :
  provenance_loop cborDecode leaves sessionId participants = Ok tt ↔
  Forall (λ l, in_pair participants l ∧ names_session sessionId l) leaves.
Proof.
  induction leaves as [|l leaves IH]; cbn [provenance_loop]; [split; [constructor|done]|].
  rewrite list.Forall_cons, <- IH. change (sender_pubkey (s2 l)) with (sender l).
  assert (match participants with
          | Some (p, q) => negb (bool_decide (p = sender l) || bool_decide (q = sender l))
          | None => false
          end = false ↔ in_pair participants l) as Hp.
  { destruct participants as [[p q]|]; [|done]. cbn. rewrite negb_false_iff, orb_true_iff.
    rewrite !bool_decide_eq_true. naive_solver. }
  destruct (match participants with Some _ => _ | None => _ end) eqn:E.
  - split; [done|]. intros [[H1 _] _]. apply Hp in H1. done.
  - assert (in_pair participants l) as Hpair by (by apply Hp).
    destruct (decodeStructure1Signed cborDecode (structure1_cbor l)) as [[c sid]|] eqn:Ed.
    + apply decodeSigned_spec in Ed as (f & Ef & <- & <-). unfold names_session. rewrite Ef.
      destruct (bool_decide (s1_session_id f = sessionId)) eqn:Es; bools; cbn [negb]; naive_solver.
    + split; [done|]. intros [[_ (f & Ef & Esid)] _]. exfalso.
      assert (decodeStructure1Signed cborDecode (structure1_cbor l) =
              Some (s1_content_hash f, s1_session_id f)) by (apply decodeSigned_spec; eauto). congruence.
Qed.

(** Provenance: the leaves pass exactly when every leaf's signed bytes decode and
    name the session, and every sender is one of the two participants, or,
    when the participants are unknown, at most two distinct keys sent them. *)
Theorem provenance_spec leaves sessionId participants :
  provenance leaves sessionId participants = Ok tt ↔
  Forall (λ l, in_pair participants l ∧ names_session sessionId l) leaves ∧
  (participants = None → length (remove_dups (map sender leaves)) <= 2).
Proof.
  rewrite <- provenance_loop_spec. unfold verifyLeafProvenance.
  destruct (unit_result (provenance_loop cborDecode leaves sessionId participants)) as [[e ->]| ->];
    cbn [mbind result_bind]; [naive_solver|].
  assert (length (distinctSenders leaves) = length (remove_dups (map sender leaves))) as HL.
  { unfold distinctSenders, sender. rewrite <- (map_map (λ l, sender_pubkey (s2 l)) hex).
    apply remove_dups_map, _. }
  rewrite HL. destruct participants as [p|].
  - rewrite bool_decide_eq_false_2 by done. cbn. naive_solver.
  - rewrite bool_decide_eq_true_2 by done. cbn [andb].
    destruct (2 <? length (remove_dups (map sender leaves)))%nat eqn:E; [apply Nat.ltb_lt in E|apply Nat.ltb_ge in E].
    + split; [done|]. intros [_ H2]. specialize (H2 eq_refl). lia.
    + naive_solver.
Qed.

(** Every leaf is of the two participants and names the session. *)
Definition belongs (sessionId : bytes) (roster : bytes * bytes) (l : RelaySealLeaf) : Prop :=
  (sender l = roster.1 ∨ sender l = roster.2) ∧
  ∃ f, decodeS1 (structure1_cbor l) = Some f ∧ s1_session_id f = sessionId.

End Provenance.

Section Chain.
Variable verify : bytes → bytes → bytes → bool.
Variable cborDecode : bytes → option jsval.
Variable encodeStructure2 : Structure2 → bytes.
Variable leaf_hasher : leaf_kind → bytes → bytes.
Variable nodeHash : bytes → bytes → bytes.
Variable hash_tree_root : list bytes → bytes.

Abbreviation decodeS1 := (decodeStructure1Fields cborDecode).
Abbreviation step := (chain_step verify cborDecode encodeStructure2 leaf_hasher nodeHash).
Abbreviation loop := (chain_loop verify cborDecode encodeStructure2 leaf_hasher nodeHash).
Abbreviation verifyChain :=
  (verifySealLeafChain verify cborDecode encodeStructure2 leaf_hasher nodeHash hash_tree_root).
Abbreviation provenance := (verifyLeafProvenance cborDecode).

(** * The specification of a chain *)

Definition leaf_hash (l : RelaySealLeaf) : bytes := leaf_hasher (kind l) (encodeStructure2 (s2 l)).

(** Leaf [l] may follow the leaves [before]. *)
Record leaf_valid (before : list RelaySealLeaf) (l : RelaySealLeaf) (f : Structure1Fields)
    : Prop := mkValid {
  lv_signature : verify (sender l) (structure1_cbor l) (sender_signature (s2 l)) = true;
  lv_decodes : decodeS1 (structure1_cbor l) = Some f;
  lv_content : s1_content_hash f = content_hash (s2 l);
  lv_prev_root : before ≠ [] → prev_root (s2 l) = mth nodeHash (map leaf_hash before);
  lv_causal : has_seen before (sender l) (s1_last_seen_seq f);
  lv_self : ∀ p, previous_own before (sender l) = Some p → s1_prev_own_hash f = content_hash (s2 p);
}.

(** Every leaf may follow the leaves before it. *)
Definition chain_valid (leaves : list RelaySealLeaf) : Prop :=
  ∀ before l after, leaves = before ++ l :: after → ∃ f, leaf_valid before l f.

(** * The invariant of the loop *)

Record loop_inv (before : list RelaySealLeaf) (c : chain_state) : Prop := mkInv {
  li_stack : Merkle.represents nodeHash (c_stack c) (map leaf_hash before);
  li_root : before ≠ [] → c_runningRoot c = mth nodeHash (map leaf_hash before);
  li_own : ∀ pk, jget (c_lastOwn c) (hex pk) =
                 content_hash ∘ s2 <$> previous_own before pk;
}.

Lemma loop_inv_init r : loop_inv [] (mkChain [] r []).
Proof. split; [apply represents_nil|done|done]. Qed.

(** The state after a leaf is accepted. *)
Definition next_state (c : chain_state) (l : RelaySealLeaf) (f : Structure1Fields) : chain_state :=
  let stack := stack_push nodeHash (leaf_hash l) 0 (c_stack c) in
  mkChain stack (default (c_runningRoot c) (stack_root nodeHash stack))
    (jset (c_lastOwn c) (hex (sender l)) (s1_content_hash f)).

Lemma loop_inv_next before c l f :
  loop_inv before c → s1_content_hash f = content_hash (s2 l) →
  loop_inv (before ++ [l]) (next_state c l f).
Proof.
  intros [Hs Hr Ho] Hc.
  assert (Merkle.represents nodeHash (stack_push nodeHash (leaf_hash l) 0 (c_stack c))
            (map leaf_hash (before ++ [l]))) as Hs'.
  { rewrite map_app. by apply represents_push. }
  split; [exact Hs'| |].
  - intros _. cbn. rewrite (represents_root _ _ _ Hs'); [done|]. by destruct before.
  - intros pk. cbn. rewrite jget_jset, previous_own_app. destruct (decide (sender l = pk)) as [->|Hne].
    + by rewrite decide_True, Hc.
    + rewrite decide_False; [apply Ho|]. by intros E%(inj hex).
Qed.

(** One accepted turn is exactly one valid leaf.  The first leaf's [prev_root] is the
    running root the loop starts from. *)
Lemma chain_step_spec before c l c' :
  loop_inv before c → (before = [] → c_runningRoot c = prev_root (s2 l)) →
  step before c l = Ok c' ↔ ∃ f, leaf_valid before l f ∧ c' = next_state c l f.
Proof.
  intros [Hs Hr Ho] H0. unfold chain_step.
  change (sender_pubkey (s2 l)) with (sender l). rewrite Ho.
  destruct (verify _ _ _) eqn:Ev; cbn [negb]; [|split; [done|by intros (f & [] & _); congruence]].
  destruct (decodeS1 _) as [f|] eqn:Ed; [|split; [done|by intros (f & [] & _); congruence]].
  assert (prev_root (s2 l) = c_runningRoot c ↔
          (before ≠ [] → prev_root (s2 l) = mth nodeHash (map leaf_hash before))) as Hroot.
  { destruct (decide (before = [])) as [E|E]; [rewrite H0 by done; tauto|].
    rewrite Hr by done. tauto. }
  split.
  - intros E. exists f.
    repeat (case_match; try discriminate E; bools).
    all: injection E as <-; split; [|done]; constructor; try done; try tauto.
    all: try (by apply effectiveSeen_spec).
    all: intros p Hp; rewrite Hp in *; simplify_eq/=; done.
  - intros (f' & [Hv Hd Hc Hpr Hca Hse] & ->). rewrite Ed in Hd. injection Hd as <-.
    rewrite (bool_decide_eq_true_2 _ Hc), (bool_decide_eq_true_2 (prev_root _ = _)) by (by apply Hroot).
    cbn [negb]. rewrite (proj2 (effectiveSeen_spec before (sender l) _) Hca).
    destruct (previous_own before (sender l)) as [p|] eqn:Ep; cbn; [|done].
    rewrite (bool_decide_eq_true_2 _ (Hse p eq_refl)). done.
Qed.

Lemma chain_loop_spec before c leaves :
  loop_inv before c → (before = [] → c_runningRoot c = initial_root leaves) →
  (∃ c', loop before c leaves = Ok c') ↔
  (∀ b l a, leaves = b ++ l :: a → ∃ f, leaf_valid (before ++ b) l f).
Proof.
  revert before c. induction leaves as [|l leaves IH]; intros before c Hi H0; cbn [chain_loop].
  { split; [|by eauto]. intros _ [|x b] l a E; discriminate E. }
  assert (before = [] → c_runningRoot c = prev_root (s2 l)) as H1 by done.
  destruct (step before c l) as [c'|e] eqn:Es; cbn [mbind result_bind].
  - apply (chain_step_spec before c l c' Hi H1) in Es as (f & Hv & ->).
    rewrite IH.
    + split.
      * intros Hall [|x b] l' a E; injection E as <- E.
        -- rewrite app_nil_r. by exists f.
        -- destruct (Hall b l' a E) as [f' Hf']. exists f'. by rewrite <- app_assoc in Hf'.
      * intros Hall b l' a ->. destruct (Hall (l :: b) l' a eq_refl) as [f' Hf'].
        exists f'. by rewrite <- app_assoc.
    + apply loop_inv_next; [done|apply Hv].
    + by destruct before.
  - split; [by intros [? ?]|]. intros Hall. destruct (Hall [] l leaves eq_refl) as [f Hf].
    rewrite app_nil_r in Hf.
    assert (step before c l = Ok (next_state c l f)) as E by (apply chain_step_spec; eauto).
    congruence.
Qed.

(** * The verdict on a chain *)

(** C38. The chain verifier decides its specification.  It accepts, and returns the
    reported root, exactly when the reported root is the tree over the content
    hashes, every leaf may follow the ones before it ([leaf_valid]: the
    sender's signature holds over the signed bytes, these carry the content
    hash of the envelope, [prev_root] is the RFC 6962 head of all earlier
    leaves, the claimed last seen sequence is one the sender could have seen,
    and the self link names the sender's previous leaf), and every leaf is of
    the two participants and of this session. *)
Theorem chain_verifier_spec leaves reportedRoot sessionId roster root :
  verifyChain leaves reportedRoot sessionId roster = Ok root ↔
  root = reportedRoot ∧
  hash_tree_root (map (λ l, content_hash (s2 l)) leaves) = reportedRoot ∧
  chain_valid leaves ∧
  Forall (belongs cborDecode sessionId roster) leaves.
Proof.
  unfold verifySealLeafChain.
  destruct (bool_decide (_ = reportedRoot)) eqn:Er; bools; cbn [negb]; [|naive_solver].
  pose proof (chain_loop_spec [] (mkChain [] (initial_root leaves) []) leaves
    (loop_inv_init _) (λ _, eq_refl)) as L. cbn [app] in L.
  change (∀ b l a, leaves = b ++ l :: a → ∃ f, leaf_valid b l f) with (chain_valid leaves) in L.
  pose proof (provenance_spec cborDecode leaves sessionId (Some roster)) as P.
  assert (Forall (λ l, in_pair (Some roster) l ∧ names_session cborDecode sessionId l) leaves ↔
          Forall (belongs cborDecode sessionId roster) leaves) as HB by (by destruct roster).
  destruct (loop [] _ leaves) as [c|e]; cbn [mbind result_bind].
  - destruct (unit_result (provenance leaves sessionId (Some roster))) as [[e Ep]|Ep]; rewrite Ep in *; cbn.
    + split; [done|]. intros (_ & _ & _ & HF). apply HB in HF.
      assert (Err e = Ok tt) by (apply P; split; [done|done]). done.
    + split.
      * intros [= <-]. split; [done|]. split; [done|]. split; [apply L; eauto|]. apply HB, P. done.
      * intros (-> & _). by rewrite Er.
  - split; [done|]. intros (_ & _ & Hc & _). apply L in Hc as [c' Hc']. done.
Qed.

(** ** What it rules out *)

(** Two adjacent messages of one sender cannot be swapped.  If two accepted chains
    share their beginning and one continues with leaf [a] then [b] and the
    other with [b'] then [a'], where [a'] and [b'] carry the signed bytes of
    [a] and [b] (the unsigned envelope may differ), all four of one sender,
    then each of the two messages names the other as its predecessor. *)
Theorem swap_needs_mutual_links before before' a b a' b' rest rest' root root' reported reported'
    sid roster fa fb :
  verifyChain (before ++ a :: b :: rest) reported sid roster = Ok root →
  verifyChain (before' ++ b' :: a' :: rest') reported' sid roster = Ok root' →
  sender b = sender a → sender a' = sender a → sender b' = sender a →
  structure1_cbor a' = structure1_cbor a → structure1_cbor b' = structure1_cbor b →
  decodeS1 (structure1_cbor a) = Some fa → decodeS1 (structure1_cbor b) = Some fb →
  s1_prev_own_hash fb = s1_content_hash fa ∧ s1_prev_own_hash fa = s1_content_hash fb.
Proof.
  intros H1 H2 Eb Ea' Eb' Ca Cb Da Db.
  apply chain_verifier_spec in H1 as (_ & _ & V1 & _). apply chain_verifier_spec in H2 as (_ & _ & V2 & _).
  destruct (V1 before a (b :: rest) eq_refl) as [f1 L1].
  destruct (V1 (before ++ [a]) b rest) as [f2 L2]; [by rewrite <- app_assoc|].
  destruct (V2 before' b' (a' :: rest') eq_refl) as [f3 L3].
  destruct (V2 (before' ++ [b']) a' rest') as [f4 L4]; [by rewrite <- app_assoc|].
  pose proof (lv_decodes _ _ _ L1) as D1. pose proof (lv_decodes _ _ _ L2) as D2.
  pose proof (lv_decodes _ _ _ L3) as D3. pose proof (lv_decodes _ _ _ L4) as D4.
  rewrite Ca, Cb in *. rewrite Da in *. rewrite Db in *. simplify_eq.
  pose proof (lv_self _ _ _ L2 a) as S2. pose proof (lv_self _ _ _ L4 b') as S4.
  rewrite Eb, previous_own_last in S2. rewrite Ea', <- Eb', previous_own_last in S4.
  specialize (S2 eq_refl). specialize (S4 eq_refl).
  rewrite <- (lv_content _ _ _ L1) in S2. rewrite <- (lv_content _ _ _ L3) in S4. done.
Qed.

End Chain.

Section Carried.
Variable verify : bytes → bytes → bytes → bool.
Variable cborDecode : bytes → option jsval.
Variable buildRelayAckTbs : bytes → Z → jsnum → bytes.

(** * Carried leaves *)

(** A receipt of the relay whose key is [relay_id], over the hash and the sequence. *)
Definition receipt_ok (w : SealUnilateralLeaf) (hash : bytes) (seq : Z) (want : option string) : Prop :=
  ∃ relay_id ts sig key,
    w_relay_id w = Some relay_id ∧ w_relay_timestamp w = Some ts ∧ w_relay_signature w = Some sig ∧
    is_hex64 relay_id = true ∧ key = default EmptyString (unhex relay_id) ∧
    (∀ r, want = Some r → to_lower relay_id = to_lower r) ∧
    verify key (buildRelayAckTbs hash seq ts) sig = true.

(** What an accepted carried leaf is. *)
Record carried_ok (i : nat) (w : SealUnilateralLeaf) (presentHex : string) (want : option string)
    (l : RelaySealLeaf) : Prop := mkCarried {
  cr_envelope : ∃ arr seq,
    cborDecode (w_structure2_cbor w) = Some (VArr arr) ∧ length arr = 6 ∧
    at_index arr 0 = seq ∧ seq_of seq = JInt (sequence_number (s2 l)) ∧
    at_index arr 1 = VBytes (sender l) ∧ at_index arr 2 = VBytes (content_hash (s2 l)) ∧
    at_index arr 3 = VBytes (sender_signature (s2 l)) ∧ at_index arr 5 = VBytes (prev_root (s2 l));
  cr_lengths : String.length (sender l) = 32 ∧ String.length (content_hash (s2 l)) = 32 ∧
    String.length (sender_signature (s2 l)) = 64 ∧ String.length (prev_root (s2 l)) = 32;
  cr_contiguous : sequence_number (s2 l) = (Z.of_nat i + 1)%Z;
  cr_wire_seq : w_sequence_number w = JInt (Z.of_nat i + 1);
  cr_receipt : hex (sender l) = presentHex →
    receipt_ok w (content_hash (s2 l)) (Z.of_nat i + 1) want;
  cr_kind : LEAF_KINDS (w_leaf_kind w) = Some (kind l);
  cr_carried : structure1_cbor l = w_structure1_cbor w ∧ content_bytes l = w_content_bytes w;
}.

Abbreviation receipt := (check_receipt verify buildRelayAckTbs).
Abbreviation reconstruct1 := (reconstruct_leaf verify cborDecode buildRelayAckTbs).
Abbreviation reconstruct := (reconstructCarriedSealLeaves verify cborDecode buildRelayAckTbs).

Lemma check_receipt_spec w hash seq want :
  receipt w hash seq want = Ok tt ↔ receipt_ok w hash seq want.
Proof.
  unfold check_receipt, receipt_ok.
  destruct (w_relay_id w) as [rid|]; [|naive_solver].
  destruct (w_relay_timestamp w) as [ts|]; [|naive_solver].
  destruct (w_relay_signature w) as [sig|]; [|naive_solver].
  destruct (bool_decide (rid = EmptyString)) eqn:E0; bools.
  { split; [done|]. intros (? & ? & ? & ? & [= <-] & _ & _ & Hx & _). subst. done. }
  destruct (is_hex64 rid) eqn:Ex; cbn [negb].
  2:{ split; [done|]. intros (? & ? & ? & ? & [= <-] & _ & _ & Hx & _). congruence. }
  destruct (match want with Some r => negb (bool_decide (to_lower rid = to_lower r)) | None => false end) eqn:Ew.
  { split; [done|]. intros (? & ? & ? & ? & [= <-] & _ & _ & _ & _ & Hr & _).
    destruct want as [r|]; [|done]. bools. by specialize (Hr r eq_refl). }
  destruct (verify _ _ sig) eqn:Ev; cbn [negb].
  2:{ split; [done|]. intros (? & ? & ? & ? & [= <-] & [= <-] & [= <-] & _ & -> & _ & Hv). congruence. }
  split; [|done]. intros _. exists rid, ts, sig, (default EmptyString (unhex rid)). split_and!; try done.
  intros r ->. bools. done.
Qed.

Lemma u8_bytes v n : String.length (u8 v) = S n → v = VBytes (u8 v).
Proof. by destruct v. Qed.

Lemma reconstruct_leaf_spec i w present want l :
  reconstruct1 i w present want = Ok l ↔ carried_ok i w present want l.
Proof.
  unfold reconstruct_leaf. split.
  - intros E. repeat (case_match; try discriminate E); bools;
      (match goal with H : seq_of _ = JInt ?s |- _ => assert (s = Z.of_nat i + 1)%Z as -> by lia end).
    all: try (destruct (receipt w _ _ _) as [[]|] eqn:Er; [|discriminate E]).
    all: cbn [mbind result_bind] in E; try discriminate E; injection E as <-; split; cbn; try done.
    all: try (eexists _, _; unfold sender; cbn; split_and!; try done; by eapply u8_bytes).
    intros _. by apply check_receipt_spec.
  - intros [(arr & sv & Ed & El & E0 & Es & E1 & E2 & E3 & E5) (L1 & L2 & L3 & L4) Hc Hw Hr Hk [Hs Hb]].
    rewrite Ed, El, E0, Es, E1, E2, E3, E5. cbn [negb u8 as_bytes default from_option id Nat.eqb].
    rewrite L1, L2, L3, L4, Hw, Hc, Z.eqb_refl. cbn [negb andb Nat.eqb].
    rewrite bool_decide_eq_true_2 by done. cbn [negb].
    assert ((if bool_decide (hex (sender l) = present)
             then receipt w (content_hash (s2 l)) (Z.of_nat i + 1) want else Ok tt) = Ok tt) as ->.
    { destruct (bool_decide _) eqn:Ep; bools; [|done]. by apply check_receipt_spec, Hr. }
    cbn [mbind result_bind]. rewrite Hk. f_equal.
    destruct l as [k [sq pk ch sg pr] s1 cb]. cbn in *. unfold sender in *. cbn in *. by subst.
Qed.

Lemma reconstruct_from_spec i ws present want leaves :
  reconstruct_from verify cborDecode buildRelayAckTbs i ws present want = Ok leaves ↔
  length leaves = length ws ∧
  ∀ j w l, ws !! j = Some w → leaves !! j = Some l → carried_ok (i + j) w present want l.
Proof.
  revert i leaves. induction ws as [|w ws IH]; intros i leaves; cbn [reconstruct_from].
  { split; [by intros [= <-]|]. intros [Hl _]. by destruct leaves. }
  split.
  - destruct (reconstruct1 i w present want) as [l|] eqn:E1; [|done]. cbn [mbind result_bind].
    destruct (reconstruct_from _ _ _ _ ws _ _) as [ls|] eqn:E2; [|done]. cbn. intros [= <-].
    apply IH in E2 as [Hl Hall]. split; [cbn; lia|]. intros [|j] w' l' Hw Hl'; cbn in *.
    + simplify_eq. rewrite Nat.add_0_r. by apply reconstruct_leaf_spec.
    + rewrite Nat.add_succ_r. by apply (Hall j).
  - intros [Hl Hall]. destruct leaves as [|l leaves]; [done|].
    assert (reconstruct1 i w present want = Ok l) as ->.
    { apply reconstruct_leaf_spec. rewrite <- (Nat.add_0_r i). by apply (Hall 0). }
    cbn [mbind result_bind].
    assert (reconstruct_from verify cborDecode buildRelayAckTbs (S i) ws present want = Ok leaves) as ->; [|done].
    apply IH. split; [cbn in Hl; lia|]. intros j w' l' Hw Hl'.
    rewrite Nat.add_succ_comm. by apply (Hall (S j)).
Qed.

(** Carried leaves are reconstructed exactly when there are some and every one of
    them is in order: the [i]-th leaf's envelope decodes to the fields of the
    result with keys, hashes and signatures of the right length, both
    sequence numbers are [i + 1] (no gap, no relabelling), the leaf domain is
    one of the four named ones, and a leaf of the present party carries a
    receipt that verifies under the key of the relay that signed it, which is
    the relay the caller names when it names one. *)
Theorem carried_leaves_spec sealLeaves presentHex want leaves :
  reconstruct sealLeaves presentHex want = Ok leaves ↔
  ∃ ws, sealLeaves = Some ws ∧ ws ≠ [] ∧ length leaves = length ws ∧
    ∀ i w l, ws !! i = Some w → leaves !! i = Some l → carried_ok i w presentHex want l.
Proof.
  unfold reconstructCarriedSealLeaves. destruct sealLeaves as [[|w ws]|]; [naive_solver| |naive_solver].
  rewrite reconstruct_from_spec. cbn [Nat.add]. split.
  - intros [? ?]. by exists (w :: ws).
  - intros (? & [= <-] & _ & ? & ?). done.
Qed.

End Carried.

Section Tip.
Variable verify : bytes → bytes → bytes → bool.
Variable encodeCbor : list jsval → bytes.
Variable hash_tree_root : list bytes → bytes.

(** * Tip attestations *)

Abbreviation tip := (verifySessionTipAttestation verify encodeCbor hash_tree_root).

(** A well-formed attestation of the expected party that its key signed. *)
Record tip_signed (a : SessionTipAttestation) (sid : bytes) (who : string) (n : Z) (root : bytes)
    : Prop := mkTipSigned {
  ts_fields : ∃ pk sig, t_pubkey a = VBytes pk ∧ String.length pk = 32 ∧
    t_signature a = VBytes sig ∧ String.length sig = 64 ∧ hex pk = who ∧
    verify pk (buildSessionTipTbs encodeCbor sid n root) sig = true;
  ts_root : t_root a = VBytes root ∧ String.length root = 32;
  ts_seq : t_last_seq a = JInt n ∧ (1 <= n)%Z;
}.

(** The signed statement in terms of the fields the code reads. *)
Definition tip_fields (a : SessionTipAttestation) : option (bytes * bytes * bytes * Z) :=
  match bytes_of_length 32 (t_pubkey a), bytes_of_length 32 (t_root a),
        bytes_of_length 64 (t_signature a), t_last_seq a with
  | Some pk, Some root, Some sig, JInt n => Some (pk, root, sig, n)
  | _, _, _, _ => None
  end.

Definition tip_holds (pk root sig : bytes) (n : Z) (sid : bytes) (who : string) : Prop :=
  (1 <= n)%Z ∧ hex pk = who ∧ verify pk (buildSessionTipTbs encodeCbor sid n root) sig = true.

Lemma tip_signed_fields a sid who n root :
  tip_signed a sid who n root ↔
  ∃ pk sig, tip_fields a = Some (pk, root, sig, n) ∧ tip_holds pk root sig n sid who.
Proof.
  unfold tip_fields, tip_holds. split.
  - intros [(pk & sig & E1 & L1 & E2 & L2 & E3 & E4) [E5 L5] [E6 ?]].
    exists pk, sig. rewrite E6, (proj2 (bytes_of_length_spec 32 _ pk)), (proj2 (bytes_of_length_spec 32 _ root)),
      (proj2 (bytes_of_length_spec 64 _ sig)) by done. done.
  - intros (pk & sig & E & ? & ? & ?). repeat (case_match; try discriminate E).
    injection E as -> -> -> ->.
    repeat match goal with H : bytes_of_length _ _ = Some _ |- _ => apply bytes_of_length_spec in H as [? ?] end.
    split; [eauto 10|done|done].
Qed.

Lemma tip_cases a leaves sid who :
  tip (Some a) leaves sid who =
  match tip_fields a with
  | None => Err ("replay_tip_attestation_malformed", false)
  | Some (pk, root, sig, n) =>
      if (n <? 1)%Z then Err ("replay_tip_attestation_malformed", false)
      else if negb (bool_decide (hex pk = who)) then Err ("replay_tip_attestation_wrong_party", false)
      else if negb (verify pk (buildSessionTipTbs encodeCbor sid n root) sig)
      then Err ("replay_tip_attestation_invalid", false)
      else if (Z.of_nat (length leaves) <? n)%Z then Err ("replay_tip_unsupplied", false)
      else if negb (bool_decide (contentRootOverPrefix hash_tree_root leaves n = root))
      then Err ("replay_chain_diverged", true) else Ok n
  end.
Proof. unfold verifySessionTipAttestation, tip_fields. repeat case_match; congruence. Qed.

(** The tip check covers the tail.  A replayed batch passes, up to [n], exactly when
    the counterparty signed a statement that it holds [n >= 1] leaves with a
    root, the batch has at least [n] leaves, and the root over its first [n]
    content hashes is the attested one: a batch cut below the attested tip
    never passes, and a longer one does.  The session is marked diverged
    exactly when the signed statement covers leaves the batch has and the
    roots differ. *)
Theorem tip_attestation_spec attestation leaves sid who :
  (∀ n, tip attestation leaves sid who = Ok n ↔
    ∃ a root, attestation = Some a ∧ tip_signed a sid who n root ∧
      (n <= Z.of_nat (length leaves))%Z ∧ contentRootOverPrefix hash_tree_root leaves n = root) ∧
  ((∃ reason, tip attestation leaves sid who = Err (reason, true)) ↔
    ∃ a root n, attestation = Some a ∧ tip_signed a sid who n root ∧
      (n <= Z.of_nat (length leaves))%Z ∧ contentRootOverPrefix hash_tree_root leaves n ≠ root).
Proof.
  destruct attestation as [a|]; [|naive_solver]. rewrite tip_cases.
  destruct (tip_fields a) as [[[[pk rt] sig] m]|] eqn:Ef.
  2:{ split; [intros n|]; (split; [naive_solver|]);
      [intros (? & ? & [= <-] & (? & ? & ? & _)%tip_signed_fields & _)
      |intros (? & ? & ? & [= <-] & (? & ? & ? & _)%tip_signed_fields & _)]; congruence. }
  assert (∀ a' n r, Some a = Some a' ∧ tip_signed a' sid who n r ↔
      (a' = a ∧ n = m ∧ r = rt ∧ tip_holds pk rt sig m sid who)) as HT.
  { intros a' n r. split.
    - intros [[= <-] (? & ? & E & ?)%tip_signed_fields]. rewrite Ef in E. by simplify_eq.
    - intros (-> & -> & -> & ?). split; [done|]. apply tip_signed_fields. eauto. }
  assert (∀ (P : Z → bytes → Prop), (∃ a' r n, Some a = Some a' ∧ tip_signed a' sid who n r ∧ P n r) ↔
      tip_holds pk rt sig m sid who ∧ P m rt) as G.
  { intros P. split.
    - intros (a' & r & n & E & Ht & HP). by destruct (proj1 (HT a' n r) (conj E Ht)) as (-> & -> & -> & ?).
    - intros [Ht HP]. exists a, rt, m. destruct (proj2 (HT a m rt)); [done|]. done. }
  pose proof (G (λ n r, (n <= Z.of_nat (length leaves))%Z ∧ contentRootOverPrefix hash_tree_root leaves n ≠ r)) as G2.
  cbn beta in G2. rewrite G2.
  assert (∀ n, (∃ a' r, Some a = Some a' ∧ tip_signed a' sid who n r ∧
      (n <= Z.of_nat (length leaves))%Z ∧ contentRootOverPrefix hash_tree_root leaves n = r) ↔
      n = m ∧ tip_holds pk rt sig m sid who ∧ (m <= Z.of_nat (length leaves))%Z ∧
      contentRootOverPrefix hash_tree_root leaves m = rt) as G1.
  { intros n. split.
    - intros (a' & r & E & Ht & HP). by destruct (proj1 (HT a' n r) (conj E Ht)) as (-> & -> & -> & ?).
    - intros (-> & Ht & HP). exists a, rt. destruct (proj2 (HT a m rt)); done. }
  setoid_rewrite G1. clear. unfold tip_holds.
  repeat case_match; bools; (split; [intros n|]); (split; [intros E|]);
    first [naive_solver|intros; destruct_and!; congruence|naive_solver lia].
Qed.

End Tip.

(** * Witness: two messages that name each other can be swapped *)

Definition rep32 (c : string) : bytes := sjoin (replicate 32 c).
Definition demo_sid : bytes := sjoin (replicate 16 "s").

Definition demo_s1 (own prev : string) : jsval :=
  VArr [VNum (JInt 3); VBytes (rep32 own); VBytes "k"; VBytes demo_sid; VNum (JInt 0);
        VNum (JInt 0); VBytes (rep32 "z"); VBytes (rep32 prev)].

Definition demo_decode (cbor : bytes) : option jsval :=
  if bool_decide (cbor = "A") then Some (demo_s1 "a" "b")
  else if bool_decide (cbor = "B") then Some (demo_s1 "b" "a") else None.

Definition demo_leaf (cbor own root : string) : RelaySealLeaf :=
  mkLeaf msg (mkS2 1 "k" (rep32 own) "sig" root) cbor None.

Definition demo_s1_fields (own prev : string) : Structure1Fields :=
  mkS1 (rep32 own) demo_sid (JInt 0) (VNum (JInt 0)) (rep32 "z") (rep32 prev).

Lemma swap_needs_mutual_links_witness :
  s1_prev_own_hash (demo_s1_fields "b" "a") = s1_content_hash (demo_s1_fields "a" "b") ∧
  s1_prev_own_hash (demo_s1_fields "a" "b") = s1_content_hash (demo_s1_fields "b" "a").
Proof.
  apply (swap_needs_mutual_links (λ _ _ _, true) demo_decode (λ _, "e")
    (λ _ _, "R") String.append
    (λ _, "root") [] [] (demo_leaf "A" "a" "0") (demo_leaf "B" "b" "R")
    (demo_leaf "A" "a" "R") (demo_leaf "B" "b" "0") [] [] "root" "root" "root" "root" demo_sid ("k", "j"));
    vm_compute; reflexivity.
Defined.

End SealChainTheorems.
