(* ===== verification/RelaySession.v ===== *)
(** The relay's sessions (packages/relay/src/relay-node.ts): recording an assignment,
    witnessing and ordering the leaves its participants submit, adopting the history
    of a session handed over by another relay, and handing a session to a directory
    for its seal.

    The relay handles the submits of a session one at a time; an operation is an
    action on the relay's state with what it sent as a trace.  A frame may fail to
    be sent, before or after it left. *)
From Stdlib Require Import Ascii.
From S2P Require Import Prelude Text JsMap Effects Wire Relay SealChain.
Import Text JsMap Effects Wire Relay SealChain.

Module RelaySession.

(** * Data *)

Definition SESSION_CAP_PER_PAIR : nat := 5.

Definition DEFAULT_HASH_SUBMIT_RATE_LIMIT : DepositRateLimitConfig := mkConfig 120 60000.

(** The claim a sender signs, as the relay reads it. *)
Record Structure1 : Type := mkStructure1 {
  d_fields : Structure1Fields;
  d_sender_pubkey : bytes;
}.

Record HashSubmit : Type := mkSubmit {
  hs_session_id : bytes;
  hs_leaf_kind : jsnum;
  hs_structure1_cbor : bytes;
  hs_sender_signature : bytes;
  hs_content_bytes : option bytes;
  predecessor_relay_id : option string;
  predecessor_relay_signature : option bytes;
  predecessor_relay_sequence : option Z;
  predecessor_relay_timestamp : option jsnum;
}.

(** A signed ack names the relay, its signature and the time. *)
Record HashSubmitAck : Type := mkAck {
  ack_sequence_number : Z;
  ack_structure2_cbor : bytes;
  ack_signed : option (string * bytes * Z);
}.

Record LeafDeliver : Type := mkDeliver {
  ld_session_id : bytes;
  ld_leaf_kind : jsnum;
  ld_sequence_number : Z;
  ld_structure2_cbor : bytes;
  ld_structure1_cbor : bytes;
}.

Record SessionWitnessAlert : Type := mkAlert {
  al_session_id : bytes;
  al_reason : string;
  al_signed : option (string * bytes);
  al_observed_at : Z;
  al_submitter_is_counterparty : bool;
}.

Record SealData : Type := mkSealData {
  sd_leaves : list RelaySealLeaf;
  sd_seq_count : Z;
  sd_merkle_root : bytes;
}.

Record SessionReplay : Type := mkReplay {
  rp_session_id : bytes;
  rp_reported_root : bytes;
  rp_leaves : option (list SealUnilateralLeaf);
  rp_counterparty_tip : option SessionTipAttestation;
}.

Inductive frame : Type :=
| FSubmitError (reason : string) (detail : option string) (retry_after_ms : option Z)
| FSubmitAck (a : HashSubmitAck)
| FLeafDeliver (d : LeafDeliver)
| FWitnessAlert (a : SessionWitnessAlert)
| FReplayResult (session_id : bytes) (outcome : result string nat)
| FAssignmentOk
| FAssignmentInvalid (reason : string) (concurrent : option nat).

(** What a directory answers to a seal. *)
Inductive seal_failure : Type := refused | unreachable | unknown.

Record SealRefusal : Type := mkSealRefusal {
  sr_kind : option seal_failure;
  sr_reason : string;
  sr_redirect : option (string * string * string);
}.

Inductive key_lookup : Type := FoundKey (publicKeyHex : string) | NoKey (reason : string).

(** [None] is a rejected promise. *)
Record DirectoryAdapter : Type := mkDirectory {
  processSeal : nat → bytes → SealData → option (string * string) → option (result SealRefusal unit);
  getRelayPublicKey : option (nat → string → option key_lookup);
}.

(** Everything outside the relay, by the tick at which it is asked, and the packages
    it builds on. *)
Record RelayEnv : Type := mkRelayEnv {
  fate_of : nat → fate;
  clock : nat → Z;
  verify : bytes → bytes → bytes → bool;
  cborDecode : bytes → option jsval;
  encodeCbor : list jsval → bytes;
  buildStructure2 : Z → bytes → bytes → bytes → bytes → option Structure2;
  encodeStructure2 : Structure2 → bytes;
  buildRelayAckTbs : bytes → Z → jsnum → bytes;
  leaf_hasher : leaf_kind → bytes → bytes;
  nodeHash : bytes → bytes → bytes;
  hash_tree_root : list bytes → bytes;
  merkle_tree_root : list (leaf_kind * bytes) → bytes;
  sha256 : bytes → bytes;
  computeGenesisPrevRoot : bytes → bytes → bytes → Z → bytes;
  directoryPubkeys : list bytes;
  directoryEndpointsByPubkey : string → option string;
  sessionCapPerPair : nat;
  hashSubmitRateLimit : DepositRateLimitConfig;
  relayId : option string;
  ackSigningKeyProvider : option (nat → bytes → option bytes);
  directory : option DirectoryAdapter;
}.

Abbreviation session := (RelaySessionState RelaySealLeaf HashSubmitAck).

Record relay : Type := mkRelay {
  tick : nat;
  store : RelayStore (Leaf := RelaySealLeaf) (Ack := HashSubmitAck) (Delivery := LeafDeliver)
            (Alert := SessionWitnessAlert);
  streams : list string;
  participantSessions : jsmap string (list string);
  sessionBrokerPubkey : jsmap string string;
  sessionPeerIdBindings : jsmap string (string * string);
  vouchedPubkeys : list string;
  hashSubmitPeerLimiter : limiter;
  hashSubmitPubkeyLimiter : limiter;
  sent : list (string * frame);
}.

Definition with_tick (r : relay) n :=
  mkRelay n (store r) (streams r) (participantSessions r) (sessionBrokerPubkey r) (sessionPeerIdBindings r)
    (vouchedPubkeys r) (hashSubmitPeerLimiter r) (hashSubmitPubkeyLimiter r) (sent r).
Definition with_store (r : relay) s :=
  mkRelay (tick r) s (streams r) (participantSessions r) (sessionBrokerPubkey r) (sessionPeerIdBindings r)
    (vouchedPubkeys r) (hashSubmitPeerLimiter r) (hashSubmitPubkeyLimiter r) (sent r).
Definition with_streams (r : relay) l :=
  mkRelay (tick r) (store r) l (participantSessions r) (sessionBrokerPubkey r) (sessionPeerIdBindings r)
    (vouchedPubkeys r) (hashSubmitPeerLimiter r) (hashSubmitPubkeyLimiter r) (sent r).
Definition with_tracking (r : relay) ps brokers bindings :=
  mkRelay (tick r) (store r) (streams r) ps brokers bindings
    (vouchedPubkeys r) (hashSubmitPeerLimiter r) (hashSubmitPubkeyLimiter r) (sent r).
Definition with_vouched (r : relay) l :=
  mkRelay (tick r) (store r) (streams r) (participantSessions r) (sessionBrokerPubkey r) (sessionPeerIdBindings r)
    l (hashSubmitPeerLimiter r) (hashSubmitPubkeyLimiter r) (sent r).
Definition with_limiters (r : relay) p k :=
  mkRelay (tick r) (store r) (streams r) (participantSessions r) (sessionBrokerPubkey r) (sessionPeerIdBindings r)
    (vouchedPubkeys r) p k (sent r).
Definition with_sent (r : relay) l :=
  mkRelay (tick r) (store r) (streams r) (participantSessions r) (sessionBrokerPubkey r) (sessionPeerIdBindings r)
    (vouchedPubkeys r) (hashSubmitPeerLimiter r) (hashSubmitPubkeyLimiter r) l.

Inductive exn : Type := Rejected.

Abbreviation M := (act relay exn).

(** ** Updates of a session *)

Definition set_status (st : session) (s : SessionStatus) : session :=
  mkSession (assignment st) (genesis_prev_root st) (seq_counter st) (leaf_log st) s (tree_stack st)
    (running_root st) (lastActivityAt st) (extras st).

Definition set_extras (st : session) (x : session_extras HashSubmitAck) : session :=
  mkSession (assignment st) (genesis_prev_root st) (seq_counter st) (leaf_log st) (status st) (tree_stack st)
    (running_root st) (lastActivityAt st) x.

(** The leaves and what is derived from them. *)
Definition set_log (st : session) (seq : Z) (log : list RelaySealLeaf) (stack : list (bytes * Z))
    (root : bytes) : session :=
  mkSession (assignment st) (genesis_prev_root st) seq log (status st) stack root (lastActivityAt st) (extras st).

Definition diverge (st : session) (reason : string) : session :=
  let x := extras st in
  set_status (set_extras st (mkExtras (issued_acks x) (seal_rejected_reason x) (prior_relay_id x) false (Some reason)))
    diverged.

Definition a_hex (st : session) : string := hex (participant_a (assignment st)).
Definition b_hex (st : session) : string := hex (participant_b (assignment st)).

Section Node.
Context (env : RelayEnv).

(** * Primitives *)

Definition date_now : M Z := λ r, (with_tick r (S (tick r)), Ok (clock env (tick r))).

(** Write a frame; whether the write succeeded. *)
Definition sendFrame (to : string) (f : frame) : M bool := λ r,
  let r1 := with_tick r (S (tick r)) in
  match fate_of env (tick r) with
  | Works => (with_sent r1 ((to, f) :: sent r1), Ok true)
  | FailsBefore => (r1, Ok false)
  | FailsAfter => (with_sent r1 ((to, f) :: sent r1), Ok false)
  end.

(** The answer to a submit; a failure to send it is logged only. *)
Definition reply (to error : string) (detail : option string) : M unit :=
  _ ← sendFrame to (FSubmitError error detail None); mret tt.

Definition get_session (sessionKey : string) : M (option session) :=
  gets (λ r, getSession (store r) sessionKey).

Definition set_session (sessionKey : string) (st : session) : M unit :=
  now ← date_now;
  modify (λ r, with_store r (setSession (store r) sessionKey st now)).

(** [this.#ackSigningKeyProvider.sign(tbs)], when there is a key and a relay id;
    [None] when there is not, or when signing failed. *)
Definition sign (tbs : bytes) : M (option (string * bytes)) := λ r,
  match ackSigningKeyProvider env, relayId env with
  | Some provider, Some rid =>
      (with_tick r (S (tick r)), Ok ((λ sig, (rid, sig)) <$> provider (tick r) tbs))
  | _, _ => (r, Ok None)
  end.

(** * Structure 1 *)

Definition decodeStructure1 (cbor : bytes) : option Structure1 :=
  match cborDecode env cbor with
  | Some (VArr arr) =>
      match at_index arr 0 with
      | VNum (JInt 3) =>
          if negb (length arr =? 8)%nat then None else
          ch ← bytes_of_length 32 (at_index arr 1);
          spk ← bytes_of_length 32 (at_index arr 2);
          sid ← bytes_of_length 16 (at_index arr 3);
          ack ← bytes_of_length 32 (at_index arr 6);
          own ← bytes_of_length 32 (at_index arr 7);
          lss ← (match at_index arr 4 with VNum n => Some n | _ => None end);
          ts ← (match at_index arr 5 with VNum n => Some (VNum n) | VBig z => Some (VBig z) | _ => None end);
          Some (mkStructure1 (mkS1 ch sid lss ts ack own) spk)
      | _ => None
      end
  | _ => None
  end.

(** * Alerts *)

(** One participant: on the stream, or held in the store. *)
Definition deliver_alert (recipientHex : string) (alert : SessionWitnessAlert) : M unit :=
  connected ← gets (λ r, bool_decide (recipientHex ∈ streams r));
  if (connected : bool) then
    ok ← sendFrame recipientHex (FWitnessAlert alert);
    if (ok : bool) then mret tt
    else modify (λ r, with_store (with_streams r (filter (λ s, s ≠ recipientHex) (streams r)))
                        (enqueueWitnessAlert (store r) recipientHex alert))
  else modify (λ r, with_store r (enqueueWitnessAlert (store r) recipientHex alert)).

Definition make_alert (sessionId : bytes) (reason : string) (submitterIsCounterparty : bool)
    : M SessionWitnessAlert :=
  observedAt ← date_now;
  signed ← sign (buildWitnessAlertTbs (encodeCbor env) (sha256 env) sessionId reason (JInt observedAt)
                   submitterIsCounterparty);
  mret (mkAlert sessionId reason signed observedAt submitterIsCounterparty).

Definition emitWitnessAlertTo (sessionId : bytes) (recipientHex reason : string)
    (submitterIsCounterparty : bool) : M unit :=
  alert ← make_alert sessionId reason submitterIsCounterparty;
  deliver_alert recipientHex alert.

Definition emitSelfChainAlert (sessionId : bytes) (submitterHex : string) (st : session) : M unit :=
  for_each (λ recipientHex,
    if bool_decide (recipientHex = submitterHex) then mret tt
    else emitWitnessAlertTo sessionId recipientHex "self_chain_broken" true) [a_hex st; b_hex st].

Definition emitDivergenceAlert (sessionId : bytes) (recipientHex : string) : M unit :=
  emitWitnessAlertTo sessionId recipientHex "replay_chain_diverged" true.

(** Signed once, for every participant but the submitter. *)
Definition flagUnwitnessedLeaf (sessionId : bytes) (submitterHex : string) (st : session) : M unit :=
  let submitterIsParticipant := bool_decide (submitterHex = a_hex st ∨ submitterHex = b_hex st) in
  alert ← make_alert sessionId "leaf_signed_by_neither_participant" submitterIsParticipant;
  for_each (λ recipientHex,
    if bool_decide (recipientHex = submitterHex) then mret tt else deliver_alert recipientHex alert)
    [a_hex st; b_hex st].

(** * Tracking *)

(** [sessions.delete(id) && sessions.size === 0] drops the participant. *)
Fixpoint untrack (ps : jsmap string (list string)) (sessionIdHex : string) : jsmap string (list string) :=
  match ps with
  | [] => []
  | (who, l) :: ps =>
      let l' := filter (λ s, s ≠ sessionIdHex) l in
      if bool_decide (sessionIdHex ∈ l ∧ l' = []) then untrack ps sessionIdHex
      else (who, l') :: untrack ps sessionIdHex
  end.

Definition cleanupSessionTracking (sessionIdHex : string) : M unit :=
  modify (λ r, with_tracking r (untrack (participantSessions r) sessionIdHex)
    (jdel (sessionBrokerPubkey r) sessionIdHex) (jdel (sessionPeerIdBindings r) sessionIdHex)).

Definition concurrentSessionsBetween (r : relay) (aHex bHex : string) : nat :=
  match jget (participantSessions r) aHex, jget (participantSessions r) bHex with
  | Some a, Some b =>
      let '(small, large) := if (length a <=? length b)%nat then (a, b) else (b, a) in
      length (filter (λ s, s ∈ large) small)
  | _, _ => 0
  end.

(** [set.add] on the set of a participant. *)
Definition track (ps : jsmap string (list string)) (who sessionIdHex : string) : jsmap string (list string) :=
  let l := default [] (jget ps who) in
  jset ps who (if decide (sessionIdHex ∈ l) then l else l ++ [sessionIdHex]).

(** * Assignments *)

Definition assignment_tbs (a : SessionAssignment) : list jsval :=
  [VBytes (session_id a); VBytes (participant_a a); VBytes (participant_b a);
   if (4294967295 <? session_timestamp a)%Z then VBig (session_timestamp a)
   else VNum (JInt (session_timestamp a))] ++
  match truthy (initiator_session_peer_id a), truthy (counterparty_session_peer_id a) with
  | Some i, Some c => [VStr i; VStr c]
  | _, _ => []
  end ++
  match truthy (a_prior_relay_id a) with Some p => [VStr p] | None => [] end.

(** A refusal with the number of concurrent sessions, when that is the reason. *)
Definition recordAssignment (a : SessionAssignment) : M (result (string * option nat) unit) :=
  if match truthy (a_prior_relay_id a) with Some p => negb (is_hex64 p) | None => false end
  then mret (Err ("prior_relay_id_malformed", None))
  else
    let tbs := encodeCbor env (assignment_tbs a) in
    match List.find (λ pk, verify env pk tbs (directory_signature a)) (directoryPubkeys env) with
    | None => mret (Err ("directory_signature_invalid", None))
    | Some signer =>
        let aHex := hex (participant_a a) in
        let bHex := hex (participant_b a) in
        let key := hex (session_id a) in
        concurrent ← gets (λ r, concurrentSessionsBetween r aHex bHex);
        if (sessionCapPerPair env <=? concurrent)%nat
        then mret (Err ("session_tuple_cap_exceeded", Some concurrent))
        else
          let genesisRoot := computeGenesisPrevRoot env (participant_a a) (participant_b a) (session_id a)
                               (session_timestamp a) in
          now ← date_now;
          recorded ← (λ r, let '(s, ok) := recordSession (store r) a genesisRoot now in
                           (with_store r s, Ok ok));
          if negb recorded then mret (Err ("session_already_exists", None))
          else
            _ ← (match truthy (a_prior_relay_id a) with
                 | None => mret tt
                 | Some p =>
                     fresh ← get_session key;
                     match fresh with
                     | None => mret tt
                     | Some st =>
                         let x := extras st in
                         set_session key (set_extras st
                           (mkExtras (issued_acks x) (seal_rejected_reason x) (Some p) true (diverged_reason x)))
                     end
                 end);
            _ ← modify (λ r, with_tracking r (participantSessions r)
                  (jset (sessionBrokerPubkey r) key (hex signer))
                  (match truthy (initiator_session_peer_id a), truthy (counterparty_session_peer_id a) with
                   | Some i, Some c => jset (sessionPeerIdBindings r) key (i, c)
                   | _, _ => sessionPeerIdBindings r
                   end));
            _ ← modify (λ r, with_tracking r (track (track (participantSessions r) aHex key) bHex key)
                  (sessionBrokerPubkey r) (sessionPeerIdBindings r));
            _ ← modify (λ r, with_vouched r (list_union (vouchedPubkeys r) [aHex; bHex]));
            mret (Ok tt)
    end.

Definition processClientRecordAssignment (authedPubkeyHex : string) (a : SessionAssignment) : M unit :=
  if negb (bool_decide (authedPubkeyHex = hex (participant_a a) ∨ authedPubkeyHex = hex (participant_b a)))
  then _ ← sendFrame authedPubkeyHex (FAssignmentInvalid "not_a_participant" None); mret tt
  else
    outcome ← recordAssignment a;
    _ ← sendFrame authedPubkeyHex
      (match outcome with
       | Ok _ => FAssignmentOk
       | Err (reason, concurrent) =>
           if bool_decide (reason = "session_already_exists") then FAssignmentOk
           else FAssignmentInvalid reason concurrent
       end);
    mret tt.

(** * Seals *)

Definition discardSession (sessionId : bytes) : M unit :=
  let key := hex sessionId in
  _ ← cleanupSessionTracking key;
  modify (λ r, with_store r (destroySession (store r) key)).

(** The leaves, their count and the root rebuilt over them. *)
Definition seal_data (st : session) : SealData :=
  mkSealData (leaf_log st) (seq_counter st)
    (merkle_tree_root env (map (λ l, (kind l, encodeStructure2 env (s2 l))) (leaf_log st))).

Definition submitForSeal (sessionId : bytes) : M (result string SealData) :=
  let key := hex sessionId in
  found ← get_session key;
  match found with
  | None => mret (Err "session_not_found")
  | Some st =>
      if negb (bool_decide (status st = active))
      then mret (Err (if bool_decide (status st = diverged) then "session_diverged" else "session_not_active"))
      else if awaiting_replay (extras st) then mret (Err "session_awaiting_replay")
      else
        _ ← set_session key (set_status st sealing);
        mret (Ok (seal_data st))
  end.

Definition getSealLeaves (sessionId : bytes) : M (result string SealData) :=
  found ← get_session (hex sessionId);
  mret (match found with
  | None => Err "session_not_found"
  | Some st =>
      if negb (bool_decide (status st = active ∨ status st = sealing))
      then Err (if bool_decide (status st = diverged) then "session_diverged" else "session_not_active")
      else if awaiting_replay (extras st) then Err "session_awaiting_replay"
      else Ok (seal_data st)
  end).

Definition confirmSeal (sessionId : bytes) : M unit := discardSession sessionId.

Definition rejectSeal (sessionId : bytes) (reason : string) : M unit :=
  let key := hex sessionId in
  _ ← cleanupSessionTracking key;
  found ← get_session key;
  match found with
  | None => mret tt
  | Some st =>
      let x := extras st in
      set_session key (set_status
        (set_extras st (mkExtras (issued_acks x) (Some reason) (prior_relay_id x) (awaiting_replay x)
                          (diverged_reason x))) seal_rejected)
  end.

(** The text after the first [sep], and the text before it. *)
Fixpoint after_text (sep s : string) : option string :=
  match strip_prefix sep s with
  | Some rest => Some rest
  | None => match s with EmptyString => None | String _ s => after_text sep s end
  end.

Fixpoint before_text (sep s : string) : string :=
  match strip_prefix sep s, s with
  | Some _, _ | None, EmptyString => EmptyString
  | None, String c s => String c (before_text sep s)
  end.

(** [multiaddr.split("/p2p/")[1]?.split("/")[0]] *)
Definition peer_id_of (multiaddr : string) : option string :=
  truthy ((λ rest, before_text "/" (before_text "/p2p/" rest)) <$> after_text "/p2p/" multiaddr).

Definition resolveSessionBroker (r : relay) (sessionIdHex : string) : option (string * string) :=
  broker ← jget (sessionBrokerPubkey r) sessionIdHex;
  multiaddr ← truthy (directoryEndpointsByPubkey env broker);
  peerId ← peer_id_of multiaddr;
  Some (peerId, multiaddr).

Definition ask_seal (d : DirectoryAdapter) (sessionId : bytes) (data : SealData)
    (target : option (string * string)) : M (result SealRefusal unit) := λ r,
  let r1 := with_tick r (S (tick r)) in
  match processSeal d (tick r) sessionId data target with
  | Some answer => (r1, Ok answer)
  | None => (r1, Err Rejected)
  end.

(** The broker, then the configured directory, then one redirect. *)
Definition adjudicate (d : DirectoryAdapter) (sessionId : bytes) (data : SealData)
    (brokerTarget : option (string * string)) : M (result SealRefusal unit) :=
  first ← ask_seal d sessionId data brokerTarget;
  second ← (match first, brokerTarget with
            | Err e, Some _ =>
                if bool_decide (sr_redirect e = None) then ask_seal d sessionId data None else mret first
            | _, _ => mret first
            end);
  match second with
  | Err e =>
      match sr_redirect e with
      | Some (_, peerId, multiaddr) => ask_seal d sessionId data (Some (peerId, multiaddr))
      | None => mret second
      end
  | Ok _ => mret second
  end.

Definition distinct_senders (leaves : list RelaySealLeaf) : list string :=
  remove_dups (map (λ l, hex (sender_pubkey (s2 l))) leaves).

Definition maybeProcessSeal (d : DirectoryAdapter) (sessionId : bytes) (sessionKey : string) : M unit :=
  found ← get_session sessionKey;
  match found with
  | None => mret tt
  | Some st =>
      if negb (bool_decide (status st = active)) then mret tt else
      let ctrlLeaves := List.filter (λ l, bool_decide (kind l = ctrl)) (leaf_log st) in
      if (length ctrlLeaves <? 2)%nat then mret tt
      else if (length (distinct_senders ctrlLeaves) <? 2)%nat then mret tt
      else
        sealResult ← submitForSeal sessionId;
        match sealResult with
        | Err _ => mret tt
        | Ok data =>
            brokerTarget ← gets (λ r, resolveSessionBroker r (hex sessionId));
            dirResult ← adjudicate d sessionId data brokerTarget;
            match dirResult with
            | Ok _ => confirmSeal sessionId
            | Err e =>
                match sr_kind e with
                | Some unknown => mret tt
                | Some unreachable =>
                    sealingState ← get_session (hex sessionId);
                    match sealingState with
                    | Some st' =>
                        if bool_decide (status st' = sealing)
                        then set_session (hex sessionId) (set_status st' active) else mret tt
                    | None => mret tt
                    end
                | Some refused | None => rejectSeal sessionId (sr_reason e)
                end
            end
        end
  end.

(** * Submits *)

(** Why a session takes no leaf. *)
Definition session_gate (st : session) : result (string * option string) unit :=
  match status st with
  | diverged => Err ("session_diverged", diverged_reason (extras st))
  | seal_rejected => Err ("seal_refused", seal_rejected_reason (extras st))
  | sealing => Err ("seal_in_progress", None)
  | active =>
      if awaiting_replay (extras st)
      then Err ("session_awaiting_replay", Some "this relay inherited this conversation and has not been given its history yet. Send the replay batch (session_replay) for this session first.")
      else Ok tt
  end.

(** A predecessor's ack, when the frame carries one, has to verify. *)
Definition check_predecessor (f : HashSubmit) (contentHash : bytes) : M bool :=
  match predecessor_relay_id f with
  | None => mret true
  | Some rid =>
      match predecessor_relay_signature f, predecessor_relay_sequence f, predecessor_relay_timestamp f,
            directory env ≫= getRelayPublicKey with
      | Some sig, Some seq, Some ts, Some lookup => λ r,
          let r1 := with_tick r (S (tick r)) in
          match lookup (tick r) rid with
          | None => (r1, Err Rejected)
          | Some (NoKey _) => (r1, Ok false)
          | Some (FoundKey k) =>
              (r1, Ok (verify env (default EmptyString (unhex k)) (buildRelayAckTbs env contentHash seq ts) sig))
          end
      | _, _, _, _ => mret false
      end
  end.

(** A participant hands over a leaf of the other one; whether it is refused. *)
Definition counter_submit (st : session) (sessionId contentHash : bytes) (senderPubkeyHex signerHex : string)
    : M bool :=
  if bool_decide (senderPubkeyHex = signerHex) then mret false
  else if existsb (λ l, bool_decide (hex (sender_pubkey (s2 l)) = signerHex ∧ content_hash (s2 l) = contentHash))
            (leaf_log st)
  then mret true
  else
    _ ← for_each (λ recipientHex,
          emitWitnessAlertTo sessionId recipientHex "leaf_witnessed_by_counterparty"
            (bool_decide (recipientHex = signerHex))) [a_hex st; b_hex st];
    mret false.

(** The content the relay holds at an acknowledged position. *)
Definition expected_ack (st : session) (last_seen_seq : jsnum) : option bytes :=
  match last_seen_seq with
  | JInt n =>
      if (n =? 0)%Z then Some (genesis_prev_root st)
      else if (n <? 0)%Z then None
      else (λ l, content_hash (s2 l)) <$> leaf_log st !! Z.to_nat (n - 1)
  | _ => None
  end.

Definition check_acknowledgement (st : session) (s1 : Structure1Fields) : result (string * option string) unit :=
  if js_gtb (s1_last_seen_seq s1) (seq_counter st) then Err ("last_seen_seq_ahead", None)
  else match expected_ack st (s1_last_seen_seq s1) with
  | None => Err ("ack_hash_unverifiable", None)
  | Some expectedAck =>
      if negb (bool_decide (s1_last_seen_hash s1 = expectedAck))
      then Err ("ack_hash_mismatch", Some "the acknowledged hash does not match the message at that position")
      else Ok tt
  end.

Definition submission_key (senderPubkeyHex : string) (s1 : Structure1Fields) : string :=
  senderPubkeyHex +:+ ":" +:+ hex (s1_prev_own_hash s1) +:+ ":" +:+ hex (s1_content_hash s1).

(** What the submitter's own link has to name. *)
Definition expected_own (st : session) (senderPubkeyHex : string) : bytes :=
  match last (List.filter (λ l, bool_decide (hex (sender_pubkey (s2 l)) = senderPubkeyHex)) (leaf_log st)) with
  | Some l => content_hash (s2 l)
  | None => genesis_prev_root st
  end.

(** The session with one more leaf. *)
Definition append_leaf (st : session) (leafKind : leaf_kind) (structure2 : Structure2) (f : HashSubmit) : session :=
  let stack := stack_push (nodeHash env) (leaf_hasher env leafKind (encodeStructure2 env structure2)) 0 (tree_stack st) in
  set_log st (seq_counter st + 1)
    (leaf_log st ++ [mkLeaf leafKind structure2 (hs_structure1_cbor f) (hs_content_bytes f)])
    stack (default EmptyString (stack_root (nodeHash env) stack)).

(** An ack is kept for retransmissions when it is signed, or when the relay signs none. *)
Definition record_ack (sessionKey key : string) (ack : HashSubmitAck) : M unit :=
  if bool_decide (ackSigningKeyProvider env = None) || bool_decide (is_Some (ack_signed ack)) then
    latest ← get_session sessionKey;
    match latest with
    | None => mret tt
    | Some st =>
        let x := extras st in
        set_session sessionKey (set_extras st
          (mkExtras (jset (issued_acks x) key ack) (seal_rejected_reason x) (prior_relay_id x)
             (awaiting_replay x) (diverged_reason x)))
    end
  else mret tt.

(** The echo, and the leaf to the counterparty or its queue. *)
Definition deliver_leaf (st : session) (senderPubkeyHex : string) (d : LeafDeliver) : M unit :=
  let counterpartyHex := if bool_decide (senderPubkeyHex = a_hex st) then b_hex st else a_hex st in
  _ ← sendFrame senderPubkeyHex (FLeafDeliver d);
  connected ← gets (λ r, bool_decide (counterpartyHex ∈ streams r));
  if (connected : bool) then
    ok ← sendFrame counterpartyHex (FLeafDeliver d);
    if (ok : bool) then mret tt
    else modify (λ r, with_store (with_streams r (filter (λ s, s ≠ counterpartyHex) (streams r)))
                        (enqueueDelivery (store r) counterpartyHex d))
  else modify (λ r, with_store r (enqueueDelivery (store r) counterpartyHex d)).

(** Order a leaf that passed every check. *)
Definition admit_leaf (st : session) (sessionKey senderPubkeyHex : string) (f : HashSubmit) (d : Structure1)
    (leafKind : leaf_kind) : M unit :=
  let s1 := d_fields d in
  let seq := (seq_counter st + 1)%Z in
  match buildStructure2 env seq (d_sender_pubkey d) (s1_content_hash s1) (hs_sender_signature f) (running_root st) with
  | None => reply senderPubkeyHex "signature_invalid" None
  | Some structure2 =>
      let s2Cbor := encodeStructure2 env structure2 in
      _ ← set_session sessionKey (append_leaf st leafKind structure2 f);
      ackTimestamp ← date_now;
      signed ← sign (buildRelayAckTbs env (s1_content_hash s1) seq (JInt ackTimestamp));
      let ack := mkAck seq s2Cbor ((λ s, (s.1, s.2, ackTimestamp)) <$> signed) in
      _ ← record_ack sessionKey (submission_key senderPubkeyHex s1) ack;
      _ ← sendFrame senderPubkeyHex (FSubmitAck ack);
      _ ← deliver_leaf st senderPubkeyHex
            (mkDeliver (hs_session_id f) (hs_leaf_kind f) seq s2Cbor (hs_structure1_cbor f));
      match directory env with
      | Some dir => if bool_decide (leafKind = ctrl) then maybeProcessSeal dir (hs_session_id f) sessionKey else mret tt
      | None => mret tt
      end
  end.

(** The acknowledgement, the retransmission and the own link. *)
Definition check_links (st : session) (sessionKey senderPubkeyHex : string) (f : HashSubmit) (d : Structure1)
    (leafKind : leaf_kind) : M unit :=
  let s1 := d_fields d in
  match check_acknowledgement st s1 with
  | Err (reason, detail) => reply senderPubkeyHex reason detail
  | Ok _ =>
      match jget (issued_acks (extras st)) (submission_key senderPubkeyHex s1) with
      | Some already => _ ← sendFrame senderPubkeyHex (FSubmitAck already); mret tt
      | None =>
          if negb (bool_decide (s1_prev_own_hash s1 = expected_own st senderPubkeyHex)) then
            _ ← emitSelfChainAlert (hs_session_id f) senderPubkeyHex st;
            _ ← set_session sessionKey (diverge st "a submitted message's link to its own sender's previous message does not match this relay's record of it");
            reply senderPubkeyHex "self_chain_mismatch" (Some "the link to your own previous message does not match what this relay recorded, so this relay will not witness this session any further. Your counterparty has been told. Confirm the conversation with them out of band; if your records agree, open a new session.")
          else admit_leaf st sessionKey senderPubkeyHex f d leafKind
      end
  end.

(** Who signed the leaf, as what, and who hands it over. *)
Definition check_author (st : session) (sessionKey senderPubkeyHex : string) (f : HashSubmit) (d : Structure1)
    (signer : bytes) : M unit :=
  match LEAF_KINDS (hs_leaf_kind f) with
  | None => reply senderPubkeyHex "leaf_kind_invalid" None
  | Some leafKind =>
      let signerHex := hex signer in
      if negb (bool_decide (hex (d_sender_pubkey d) = signerHex)) then reply senderPubkeyHex "sender_mismatch" None
      else
        duplicate ← counter_submit st (hs_session_id f) (s1_content_hash (d_fields d)) senderPubkeyHex signerHex;
        if (duplicate : bool) then reply senderPubkeyHex "counter_submit_duplicate" None
        else check_links st sessionKey senderPubkeyHex f d leafKind
  end.

Definition processHashSubmitLocked (senderPubkeyHex : string) (f : HashSubmit) (sessionKey : string) : M unit :=
  found ← get_session sessionKey;
  match found with
  | None => reply senderPubkeyHex "session_not_found" None
  | Some st =>
      match session_gate st with
      | Err (reason, detail) => reply senderPubkeyHex reason detail
      | Ok _ =>
          match decodeStructure1 (hs_structure1_cbor f) with
          | None => reply senderPubkeyHex "submit_malformed" None
          | Some d =>
              if negb (bool_decide (s1_session_id (d_fields d) = hs_session_id f))
              then reply senderPubkeyHex "leaf_session_mismatch" None
              else
                let pa := participant_a (assignment st) in
                let pb := participant_b (assignment st) in
                match witnessLeafSignature (verify env)
                        (if bool_decide (senderPubkeyHex = b_hex st) then [pb; pa] else [pa; pb])
                        (hs_structure1_cbor f) (hs_sender_signature f) with
                | Err _ =>
                    _ ← flagUnwitnessedLeaf (hs_session_id f) senderPubkeyHex st;
                    reply senderPubkeyHex "leaf_signed_by_neither_participant" None
                | Ok signer =>
                    if negb (bool_decide (senderPubkeyHex = a_hex st ∨ senderPubkeyHex = b_hex st))
                    then reply senderPubkeyHex "not_a_participant" None
                    else
                      vouched ← check_predecessor f (s1_content_hash (d_fields d));
                      if negb vouched then reply senderPubkeyHex "RELAY_PREDECESSOR_UNKNOWN" None
                      else check_author st sessionKey senderPubkeyHex f d signer
                end
          end
      end
  end.

(** The sender is throttled before its session is looked at. *)
Definition processHashSubmit (senderPubkeyHex : string) (remotePeerId : option string) (f : HashSubmit) : M unit :=
  now1 ← date_now;
  peerLimit ← (λ r, let '(l, dec) := check (hashSubmitRateLimit env) (hashSubmitPeerLimiter r) remotePeerId now1 in
                    (with_limiters r l (hashSubmitPubkeyLimiter r), Ok dec));
  now2 ← date_now;
  pubkeyLimit ← (λ r, let '(l, dec) := check (hashSubmitRateLimit env) (hashSubmitPubkeyLimiter r)
                                          (Some senderPubkeyHex) now2 in
                      (with_limiters r (hashSubmitPeerLimiter r) l, Ok dec));
  if negb (allowed peerLimit && allowed pubkeyLimit) then
    _ ← sendFrame senderPubkeyHex
          (FSubmitError "rate_limited" None (Some (Z.max (retryAfterMs peerLimit) (retryAfterMs pubkeyLimit))));
    mret tt
  else processHashSubmitLocked senderPubkeyHex f (hex (hs_session_id f)).

(** * Replays *)

Definition refuse_replay (who : string) (f : SessionReplay) (reason : string) : M unit :=
  _ ← sendFrame who (FReplayResult (rp_session_id f) (Err reason)); mret tt.

(** The session with the leaves it inherits. *)
Definition adopt (st : session) (leaves : list RelaySealLeaf) : session :=
  let stack := foldl (λ stack l, stack_push (nodeHash env)
                 (leaf_hasher env (kind l) (encodeStructure2 env (s2 l))) 0 stack) [] leaves in
  let x := extras st in
  set_extras
    (set_log st (Z.of_nat (length leaves))
       (map (λ l, mkLeaf (kind l) (s2 l) (structure1_cbor l) None) leaves) stack
       (default (genesis_prev_root st) (stack_root (nodeHash env) stack)))
    (mkExtras (issued_acks x) (seal_rejected_reason x) (prior_relay_id x) false (diverged_reason x)).

(** What a replayed batch has to pass: the leaves, or a reason and whether the two
    accounts diverge. *)
Definition check_replay (st : session) (authedPubkeyHex counterpartyHex priorRelayHex : string)
    (f : SessionReplay) : result (string * bool) (list RelaySealLeaf) :=
  match reconstructCarriedSealLeaves (verify env) (cborDecode env) (buildRelayAckTbs env) (rp_leaves f)
          authedPubkeyHex (Some priorRelayHex) with
  | Err reason => Err (reason, false)
  | Ok leaves =>
      match verifySealLeafChain (verify env) (cborDecode env) (encodeStructure2 env) (leaf_hasher env) (nodeHash env)
              (hash_tree_root env) leaves (rp_reported_root f) (rp_session_id f)
              (participant_a (assignment st), participant_b (assignment st)) with
      | Err reason => Err (reason, false)
      | Ok _ =>
          match verifySessionTipAttestation (verify env) (encodeCbor env) (hash_tree_root env)
                  (rp_counterparty_tip f) leaves (rp_session_id f) counterpartyHex with
          | Err e => Err e
          | Ok _ => Ok leaves
          end
      end
  end.

Definition processSessionReplay (authedPubkeyHex : string) (f : SessionReplay) : M unit :=
  let sessionKey := hex (rp_session_id f) in
  found ← get_session sessionKey;
  match found with
  | None => refuse_replay authedPubkeyHex f "session_not_found"
  | Some st =>
      if negb (bool_decide (authedPubkeyHex = a_hex st ∨ authedPubkeyHex = b_hex st))
      then refuse_replay authedPubkeyHex f "not_a_participant"
      else
        let counterpartyHex := if bool_decide (authedPubkeyHex = a_hex st) then b_hex st else a_hex st in
        match truthy (prior_relay_id (extras st)) with
        | None => refuse_replay authedPubkeyHex f "session_not_a_resume"
        | Some priorRelayHex =>
            if negb (bool_decide (status st = active))
            then refuse_replay authedPubkeyHex f
                   (if bool_decide (status st = diverged) then "session_diverged" else "session_not_active")
            else if negb (awaiting_replay (extras st)) || (0 <? length (leaf_log st))%nat
            then refuse_replay authedPubkeyHex f "replay_already_adopted"
            else
              match check_replay st authedPubkeyHex counterpartyHex priorRelayHex f with
              | Err (reason, isDiverged) =>
                  _ ← (if (isDiverged : bool) then
                         _ ← set_session sessionKey (diverge st "the replayed chain and the counterparty's signed tip disagree about a message both sides hold");
                         emitDivergenceAlert (rp_session_id f) counterpartyHex
                       else mret tt);
                  refuse_replay authedPubkeyHex f reason
              | Ok leaves =>
                  _ ← set_session sessionKey (adopt st leaves);
                  _ ← (match directory env with
                       | Some dir => maybeProcessSeal dir (rp_session_id f) sessionKey
                       | None => mret tt
                       end);
                  _ ← sendFrame authedPubkeyHex (FReplayResult (rp_session_id f) (Ok (length leaves)));
                  mret tt
              end
        end
  end.

(** * Sweeps *)

Definition idleSweep (maxIdleMs : Z) : M unit :=
  now ← date_now;
  swept ← (λ r, let '(s, keys) := sweepIdleSessions (store r) maxIdleMs now in (with_store r s, Ok keys));
  for_each cleanupSessionTracking swept.

(** * Runs *)

(** What reaches the relay; [Connected] replaces the streams that are open. *)
Inductive input : Type :=
| Assign (who : string) (a : SessionAssignment)
| Submit (who : string) (remotePeerId : option string) (f : HashSubmit)
| Replay (who : string) (f : SessionReplay)
| Discard (sessionId : bytes)
| IdleSweep (maxIdleMs : Z)
| Connected (who : list string).

Definition run_input (r : relay) (i : input) : relay :=
  match i with
  | Assign who a => (processClientRecordAssignment who a r).1
  | Submit who peer f => (processHashSubmit who peer f r).1
  | Replay who f => (processSessionReplay who f r).1
  | Discard sessionId => (discardSession sessionId r).1
  | IdleSweep maxIdleMs => (idleSweep maxIdleMs r).1
  | Connected who => with_streams r who
  end.

Definition run (r : relay) (inputs : list input) : relay := foldl run_input r inputs.

Definition initial : relay := mkRelay 0 empty_store [] [] [] [] [] [] [] [].

Definition reachable (r : relay) : Prop := ∃ inputs, r = run initial inputs.

End Node.
End RelaySession.
