(* ===== verification/RelaySessionInvariant.v ===== *)
(** What holds of every session the relay keeps, and that every input keeps it:
    the leaves are numbered from one, each over the root of those before it,
    signed by a participant for this session, acknowledging no position that is
    not there. *)
From S2P Require Import Prelude Text JsMap Effects Wire Relay SealChain Merkle SealChainTheorems RelaySession.
Import Text JsMap Effects Wire Relay SealChain Merkle SealChainTheorems RelaySession.

Module RelaySessionInvariant.

(** [buildStructure2] fills in the fields it is given. *)
Definition builds_structure2 (env : RelayEnv) : Prop :=
  ∀ seq pk ch sig root s, buildStructure2 env seq pk ch sig root = Some s → s = mkS2 seq pk ch sig root.

Section Invariant.
Context (env : RelayEnv).

(** Whether the own links of all leaves are kept, which submits by their authors do. *)
Context (links : Prop).

Abbreviation lhash := (leaf_hash (encodeStructure2 env) (leaf_hasher env)).
Abbreviation decodeS1 := (decodeStructure1Fields (cborDecode env)).
Abbreviation represents := (Merkle.represents (nodeHash env)).
Abbreviation root_of log := (mth (nodeHash env) (map lhash log)).

(** Leaf [l] of session [st] after the leaves [before]. *)
Record in_order (st : session) (before : list RelaySealLeaf) (l : RelaySealLeaf) (f : Structure1Fields)
    : Prop := mkInOrder {
  io_signature : verify env (sender l) (structure1_cbor l) (sender_signature (s2 l)) = true;
  io_decodes : decodeS1 (structure1_cbor l) = Some f;
  io_content : s1_content_hash f = content_hash (s2 l);
  io_session : s1_session_id f = session_id (assignment st);
  io_sender : sender l = participant_a (assignment st) ∨ sender l = participant_b (assignment st);
  io_number : sequence_number (s2 l) = (Z.of_nat (length before) + 1)%Z;
  io_prev_root : before ≠ [] → prev_root (s2 l) = root_of before;
  io_seen : js_gtb (s1_last_seen_seq f) (Z.of_nat (length before)) = false;
  io_self : links → ∀ p, previous_own before (sender l) = Some p → s1_prev_own_hash f = content_hash (s2 p);
}.

Definition leaves_ok (st : session) (log : list RelaySealLeaf) : Prop :=
  ∀ before l after, log = before ++ l :: after → ∃ f, in_order st before l f.

Record session_ok (st : session) : Prop := mkSessionOk {
  so_count : seq_counter st = Z.of_nat (length (leaf_log st));
  so_leaves : leaves_ok st (leaf_log st);
  so_stack : represents (tree_stack st) (map lhash (leaf_log st));
  so_root : running_root st = match leaf_log st with [] => genesis_prev_root st | _ => root_of (leaf_log st) end;
  so_first : truthy (prior_relay_id (extras st)) = None →
    ∀ l, head (leaf_log st) = Some l → prev_root (s2 l) = genesis_prev_root st;
  so_wait : awaiting_replay (extras st) = true → leaf_log st = [];
}.

(** The sessions of the store. *)
Record sessions_ok (m : jsmap string session) : Prop := mkSessionsOk {
  ss_wf : jwf m;
  ss_key : ∀ k st, jget m k = Some st → k = hex (session_id (assignment st));
  ss_ok : ∀ k st, jget m k = Some st → session_ok st;
}.

Definition inv (r : relay) : Prop := sessions_ok (sessions (store r)).

(** ** Sessions *)

Lemma leaves_ok_app st log l f : leaves_ok st log → in_order st log l f → leaves_ok st (log ++ [l]).
Proof.
  intros Hlog Hl before x after E.
  destruct after as [|y after _] using rev_ind.
  - apply app_inj_tail in E as [<- <-]. by exists f.
  - rewrite app_comm_cons, app_assoc in E. apply app_inj_tail in E as [E _]. by apply (Hlog before x after).
Qed.

Lemma in_order_assignment st st' before l f :
  assignment st' = assignment st → in_order st before l f → in_order st' before l f.
Proof. intros E []. split; rewrite ?E; done. Qed.

Lemma leaves_ok_assignment st st' log :
  assignment st' = assignment st → leaves_ok st log → leaves_ok st' log.
Proof.
  intros E Hl before l after El. destruct (Hl before l after El) as [f Hf]. exists f.
  by apply (in_order_assignment st).
Qed.

(** The invariant reads neither the status nor the time, and few of the extras. *)
Lemma session_ok_same st st' :
  session_ok st → assignment st' = assignment st → genesis_prev_root st' = genesis_prev_root st →
  seq_counter st' = seq_counter st → leaf_log st' = leaf_log st → tree_stack st' = tree_stack st →
  running_root st' = running_root st →
  truthy (prior_relay_id (extras st')) = truthy (prior_relay_id (extras st)) →
  (awaiting_replay (extras st') = true → awaiting_replay (extras st) = true) → session_ok st'.
Proof.
  intros [] Ea Eg Ec El Es Er Ep Hw.
  split; rewrite ?Ea, ?Eg, ?Ec, ?El, ?Es, ?Er, ?Ep; auto. by apply (leaves_ok_assignment st).
Qed.

Lemma session_ok_touch st now : session_ok st → session_ok (touch st now).
Proof. intros Hst. by apply (session_ok_same st). Qed.

Lemma session_ok_status st s : session_ok st → session_ok (set_status st s).
Proof. intros Hst. by apply (session_ok_same st). Qed.

Lemma session_ok_extras st x :
  session_ok st → truthy (prior_relay_id x) = truthy (prior_relay_id (extras st)) →
  (awaiting_replay x = true → awaiting_replay (extras st) = true) → session_ok (set_extras st x).
Proof. intros Hst Hp Hw. by apply (session_ok_same st). Qed.

Lemma session_ok_diverge st reason : session_ok st → session_ok (diverge st reason).
Proof. intros Hst. by apply session_ok_status, session_ok_extras. Qed.

Lemma sessions_ok_set m k st :
  sessions_ok m → k = hex (session_id (assignment st)) → session_ok st → sessions_ok (jset m k st).
Proof.
  intros [Hw Hk Ho] Hkey Hst. split; [by apply jwf_jset| |]; intros k' st'; rewrite jget_jset;
    case_decide; try (intros [= <-]; congruence); [by apply Hk|by apply Ho].
Qed.

Lemma sessions_ok_del m k : sessions_ok m → sessions_ok (jdel m k).
Proof.
  intros [Hw Hk Ho]. split; [by apply jwf_jdel| |]; intros k' st'; rewrite jget_jdel by done;
    case_decide; [done|apply Hk|done|apply Ho].
Qed.

(** ** Actions that leave the sessions alone *)

Definition stays {A} (m : M A) : Prop :=
  ∀ r, wp m r (λ _ r', sessions (store r') = sessions (store r)) (λ r', sessions (store r') = sessions (store r)).

Lemma stays_bind {A B} (m : M A) (k : A → M B) : stays m → (∀ a, stays (k a)) → stays (m ≫= k).
Proof.
  intros Hm Hk r. apply wp_bind. eapply wp_mono; [apply Hm| |done]. intros a r1 H1.
  eapply wp_mono; [apply Hk| |]; [intros b r2 H2|intros r2 H2]; congruence.
Qed.

Lemma stays_ret {A} (a : A) : stays (mret a).
Proof. done. Qed.

Lemma stays_gets {A} (f : relay → A) : stays (gets f).
Proof. done. Qed.

Lemma stays_modify f : (∀ r, sessions (store (f r)) = sessions (store r)) → stays (modify f).
Proof. intros Hf r. apply Hf. Qed.

Lemma stays_now : stays (date_now env).
Proof. done. Qed.

Lemma stays_send to f : stays (sendFrame env to f).
Proof. intros r. unfold wp, sendFrame. by destruct (fate_of env (tick r)). Qed.

Lemma stays_sign tbs : stays (sign env tbs).
Proof. intros r. unfold wp, sign. by destruct (ackSigningKeyProvider env), (relayId env). Qed.

Lemma stays_for_each {A} (body : A → M unit) l : (∀ x, stays (body x)) → stays (for_each body l).
Proof.
  intros Hb. induction l as [|x l IH]; [apply stays_ret|]. cbn. by apply stays_bind.
Qed.

Create HintDb stays.
#[local] Hint Resolve stays_ret stays_gets stays_now stays_send stays_sign : stays.

Ltac stays :=
  repeat match goal with
  | |- stays (_ ≫= _) => apply stays_bind; [|intros ?]
  | |- stays (for_each _ _) => apply stays_for_each; intros ?
  | |- stays (modify _) => apply stays_modify; intros ?; reflexivity
  | |- stays (if ?b then _ else _) => destruct b
  | |- stays (match ?x with _ => _ end) => destruct x
  | |- stays _ => solve [eauto with stays]
  end.

Lemma stays_reply to e d : stays (reply env to e d).
Proof. unfold reply. stays. Qed.

Lemma stays_alert who a : stays (deliver_alert env who a).
Proof. unfold deliver_alert. stays. Qed.

Lemma stays_make sid reason b : stays (make_alert env sid reason b).
Proof. unfold make_alert. stays. Qed.
#[local] Hint Resolve stays_reply stays_alert stays_make : stays.

Lemma stays_emit sid who reason b : stays (emitWitnessAlertTo env sid who reason b).
Proof. unfold emitWitnessAlertTo. stays. Qed.
#[local] Hint Resolve stays_emit : stays.

Lemma stays_self_chain sid who st : stays (emitSelfChainAlert env sid who st).
Proof. unfold emitSelfChainAlert. stays. Qed.

Lemma stays_flag sid who st : stays (flagUnwitnessedLeaf env sid who st).
Proof. unfold flagUnwitnessedLeaf. cbv zeta. stays. Qed.

Lemma stays_cleanup key : stays (cleanupSessionTracking key).
Proof. unfold cleanupSessionTracking. stays. Qed.

Lemma stays_predecessor f h : stays (check_predecessor env f h).
Proof.
  unfold check_predecessor. repeat (case_match; try apply stays_ret).
  intros r. unfold wp. cbv zeta. destruct (_ (tick r) _) as [[k|reason]|]; done.
Qed.

Lemma stays_counter st sid h who signer : stays (counter_submit env st sid h who signer).
Proof. unfold counter_submit. stays. Qed.

Lemma stays_deliver st who d : stays (deliver_leaf env st who d).
Proof. unfold deliver_leaf. cbv zeta. stays. Qed.

Lemma stays_refuse who f reason : stays (refuse_replay env who f reason).
Proof. unfold refuse_replay. stays. Qed.

Lemma stays_ask d sid data target : stays (ask_seal d sid data target).
Proof. intros r. unfold wp, ask_seal. cbv zeta. by destruct (processSeal d _ _ _ _). Qed.
#[local] Hint Resolve stays_self_chain stays_flag stays_cleanup stays_predecessor stays_counter stays_deliver
  stays_refuse stays_ask : stays.

Lemma stays_adjudicate d sid data target : stays (adjudicate d sid data target).
Proof. unfold adjudicate. stays. Qed.
#[local] Hint Resolve stays_adjudicate : stays.

(** ** Sequencing *)

Lemma wp_stays {A B} (m : M A) (k : A → M B) r Q R :
  stays m → (∀ r', sessions (store r') = sessions (store r) → R r') →
  (∀ a r', sessions (store r') = sessions (store r) → wp (k a) r' Q R) → wp (m ≫= k) r Q R.
Proof. intros Hm HR Hk. apply wp_bind. eapply wp_mono; [apply Hm|exact Hk|exact HR]. Qed.

(** What keeps the invariant, from where it holds. *)
Definition keeps {A} (m : M A) (r : relay) : Prop := wp m r (λ _, inv) inv.

Lemma inv_same r r' : inv r → sessions (store r') = sessions (store r) → inv r'.
Proof. unfold inv. by intros Hi ->. Qed.

Lemma keeps_stays {A} (m : M A) r : stays m → inv r → keeps m r.
Proof.
  intros Hm Hi. unfold keeps. eapply wp_mono; [apply Hm|intros a r' Hr|intros r' Hr]; by eapply inv_same.
Qed.

Lemma keeps_bind {A B} (m : M A) (k : A → M B) r :
  stays m → inv r → (∀ a r', inv r' → sessions (store r') = sessions (store r) → keeps (k a) r') →
  keeps (m ≫= k) r.
Proof.
  intros Hm Hi Hk. apply wp_stays; [done|intros r' E; by eapply inv_same|].
  intros a r' E. apply Hk; [by eapply inv_same|done].
Qed.

(** Reading a session: what is found is in order. *)
Lemma keeps_get {B} key (k : option session → M B) r :
  inv r →
  (∀ st, jget (sessions (store r)) key = Some st → key = hex (session_id (assignment st)) → session_ok st →
     keeps (k (Some st)) r) →
  (jget (sessions (store r)) key = None → keeps (k None) r) → keeps (get_session key ≫= k) r.
Proof.
  intros Hi Hs Hn. apply wp_bind, wp_gets. unfold getSession.
  destruct (jget (sessions (store r)) key) as [st|] eqn:E; [|by apply Hn].
  apply Hs; [done|by apply (ss_key _ Hi)|by apply (ss_ok _ Hi key)].
Qed.

Lemma wp_set key st r Q R :
  (∀ r' now, sessions (store r') = jset (sessions (store r)) key (touch st now) → Q tt r') →
  wp (set_session env key st) r Q R.
Proof. intros HQ. unfold set_session. apply wp_bind. eapply HQ. reflexivity. Qed.

Lemma keeps_set key st r :
  inv r → key = hex (session_id (assignment st)) → session_ok st → keeps (set_session env key st) r.
Proof.
  intros Hi Hk Hst. apply wp_set. intros r' now E. unfold inv. rewrite E.
  apply sessions_ok_set; [done|done|by apply session_ok_touch].
Qed.

Lemma keeps_seq {A B} (m : M A) (k : A → M B) r :
  keeps m r → (∀ a r', inv r' → keeps (k a) r') → keeps (m ≫= k) r.
Proof. intros Hm Hk. apply wp_bind. eapply wp_mono; [exact Hm|exact Hk|done]. Qed.

(** ** A new leaf *)

Lemma decodeStructure1_fields cbor d : decodeStructure1 env cbor = Some d → decodeS1 cbor = Some (d_fields d).
Proof.
  unfold decodeStructure1, decodeStructure1Fields. intros E.
  destruct (cborDecode env cbor) as [[]|]; try discriminate E.
  destruct (at_index l 0) as [| | |[z| | | |]| | | | |]; try discriminate E.
  destruct (decide (z = 3)%Z) as [->|Hz]; [|by repeat (case_match; try discriminate E; try congruence)].
  destruct (negb _); [discriminate E|].
  repeat match goal with
  | H : _ ≫= _ = Some _ |- _ => let Eq := fresh "Eq" in apply bind_Some in H as (? & Eq & H); rewrite ?Eq
  end.
  injection E as <-. done.
Qed.

Lemma witness_signer keys cbor sig key :
  witnessLeafSignature (verify env) keys cbor sig = Ok key → key ∈ keys ∧ verify env key cbor sig = true.
Proof.
  induction keys as [|k keys IH]; cbn; [done|]. destruct (verify env k cbor sig) eqn:E.
  - intros [= ->]. split; [by left|done].
  - intros [Hin Hv]%IH. split; [by right|done].
Qed.

Lemma last_filter {A} (P : A → bool) l : last (List.filter P l) = List.find P (rev l).
Proof.
  induction l as [|x l IH] using rev_ind; [done|]. rewrite List.filter_app, rev_app_distr. cbn.
  destruct (P x); [by rewrite last_snoc|by rewrite app_nil_r].
Qed.

Lemma expected_own_spec st pk :
  expected_own st (hex pk) =
  match previous_own (leaf_log st) pk with Some l => content_hash (s2 l) | None => genesis_prev_root st end.
Proof.
  unfold expected_own, previous_own. rewrite last_filter.
  replace (List.find (λ l, bool_decide (hex (sender_pubkey (s2 l)) = hex pk)) (rev (leaf_log st)))
    with (List.find (λ l, bool_decide (sender l = pk)) (rev (leaf_log st))); [done|].
  induction (rev (leaf_log st)) as [|l log IH]; [done|]. cbn. rewrite IH.
  by rewrite (bool_decide_ext (sender l = pk) (hex (sender_pubkey (s2 l)) = hex pk))
    by (split; [by intros <-|apply (inj hex)]).
Qed.

(** What was checked of a leaf before it is ordered. *)
Record admissible (st : session) (f : HashSubmit) (d : Structure1) : Prop := mkAdmissible {
  ad_decodes : decodeStructure1 env (hs_structure1_cbor f) = Some d;
  ad_session : s1_session_id (d_fields d) = session_id (assignment st);
  ad_signed : verify env (d_sender_pubkey d) (hs_structure1_cbor f) (hs_sender_signature f) = true;
  ad_sender : d_sender_pubkey d = participant_a (assignment st) ∨
              d_sender_pubkey d = participant_b (assignment st);
  ad_ready : awaiting_replay (extras st) = false;
  ad_seen : js_gtb (s1_last_seen_seq (d_fields d)) (seq_counter st) = false;
  ad_link : links → s1_prev_own_hash (d_fields d) = expected_own st (hex (d_sender_pubkey d));
}.

Definition ordered (st : session) (f : HashSubmit) (d : Structure1) : Structure2 :=
  mkS2 (seq_counter st + 1) (d_sender_pubkey d) (s1_content_hash (d_fields d)) (hs_sender_signature f)
    (running_root st).

Lemma in_order_new st f d k :
  session_ok st → admissible st f d →
  in_order st (leaf_log st) (mkLeaf k (ordered st f d) (hs_structure1_cbor f) (hs_content_bytes f)) (d_fields d).
Proof.
  intros Hst []. split; cbn; try done.
  - by apply decodeStructure1_fields.
  - by rewrite (so_count _ Hst).
  - intros Hne. rewrite (so_root _ Hst). by destruct (leaf_log st).
  - by rewrite <- (so_count _ Hst).
  - intros Hl p Hp. rewrite (ad_link0 Hl), expected_own_spec. cbn in Hp. by rewrite Hp.
Qed.

Lemma session_ok_append st k f d :
  session_ok st → admissible st f d → session_ok (append_leaf env st k (ordered st f d) f).
Proof.
  intros Hst Had. pose proof (in_order_new st f d k Hst Had) as Hin.
  set (l := mkLeaf k (ordered st f d) (hs_structure1_cbor f) (hs_content_bytes f)) in *.
  assert (represents (tree_stack (append_leaf env st k (ordered st f d) f)) (map lhash (leaf_log st ++ [l]))) as Hs.
  { rewrite map_app. apply represents_push, so_stack, Hst. }
  split; cbn [leaf_log append_leaf set_log seq_counter running_root extras genesis_prev_root].
  - rewrite length_app, (so_count _ Hst). cbn. lia.
  - apply (leaves_ok_assignment st); [done|]. by apply (leaves_ok_app st _ _ (d_fields d)); [apply so_leaves|].
  - exact Hs.
  - change (mkLeaf _ _ _ _) with l. cbn [tree_stack append_leaf set_log] in Hs.
    rewrite (represents_root _ _ _ Hs) by (by destruct (leaf_log st)). by destruct (leaf_log st).
  - intros Hp x Hx. pose proof (so_first _ Hst Hp) as Hf. pose proof (so_root _ Hst) as Hr.
    destruct (leaf_log st); cbn in *; [|by apply Hf]. injection Hx as <-. done.
  - rewrite (ad_ready _ _ _ Had). done.
Qed.

(** ** Handing over to a directory *)

Lemma keeps_discard sid r : inv r → keeps (discardSession sid) r.
Proof.
  intros Hi. unfold discardSession. cbv zeta. apply keeps_bind; [apply stays_cleanup|done|].
  intros _ r' Hi' _. apply wp_modify. by apply sessions_ok_del.
Qed.

Lemma keeps_reject sid reason r : inv r → keeps (rejectSeal env sid reason) r.
Proof.
  intros Hi. unfold rejectSeal. cbv zeta. apply keeps_bind; [apply stays_cleanup|done|].
  intros _ r' Hi' _. apply keeps_get; [done| |intros _; done].
  intros st _ Hk Hst. apply keeps_set; [done|done|]. by apply session_ok_status, session_ok_extras.
Qed.

Lemma keeps_submit sid r : inv r → keeps (submitForSeal env sid) r.
Proof.
  intros Hi. unfold submitForSeal. cbv zeta. apply keeps_get; [done| |intros _; done].
  intros st _ Hk Hst. repeat (case_match; try done).
  apply keeps_seq; [|intros _ r' Hi'; done]. apply keeps_set; [done|done|by apply session_ok_status].
Qed.

Lemma keeps_seal d sid key r : inv r → keeps (maybeProcessSeal env d sid key) r.
Proof.
  intros Hi. unfold maybeProcessSeal. apply keeps_get; [done| |intros _; done].
  intros st _ _ _. cbv zeta. repeat (case_match; try done).
  apply keeps_seq; [by apply keeps_submit|]. intros [data|e] r' Hi'; [|done].
  apply keeps_bind; [apply stays_gets|done|]. intros target r1 Hi1 _.
  apply keeps_bind; [apply stays_adjudicate|done|]. intros [[]|e] r2 Hi2 _; [by apply keeps_discard|].
  destruct (sr_kind e) as [[]|]; [by apply keeps_reject| |done|by apply keeps_reject].
  apply keeps_get; [done| |intros _; done]. intros st' _ Hk Hst'. case_match; [|done].
  apply keeps_set; [done|done|by apply session_ok_status].
Qed.

(** ** Submits *)

(** Submits of a leaf by its own author. *)
Definition by_author (who : string) (f : HashSubmit) : Prop :=
  ∀ d, decodeStructure1 env (hs_structure1_cbor f) = Some d → who = hex (d_sender_pubkey d).

Lemma check_acknowledgement_ok st s1 :
  check_acknowledgement st s1 = Ok tt →
  js_gtb (s1_last_seen_seq s1) (seq_counter st) = false ∧
  expected_ack st (s1_last_seen_seq s1) = Some (s1_last_seen_hash s1).
Proof.
  unfold check_acknowledgement. destruct (js_gtb _ _); [done|].
  destruct (expected_ack _ _) as [e|]; [|done].
  destruct (bool_decide _) eqn:E; bools; [|done]. by subst.
Qed.

(** What was checked of a submit before its links. *)
Record submitted (st : session) (who : string) (f : HashSubmit) (d : Structure1) : Prop := mkSubmitted {
  su_active : status st = active;
  su_ready : awaiting_replay (extras st) = false;
  su_decodes : decodeStructure1 env (hs_structure1_cbor f) = Some d;
  su_session : s1_session_id (d_fields d) = hs_session_id f;
  su_witness : witnessLeafSignature (verify env)
    (if bool_decide (who = b_hex st) then [participant_b (assignment st); participant_a (assignment st)]
     else [participant_a (assignment st); participant_b (assignment st)])
    (hs_structure1_cbor f) (hs_sender_signature f) = Ok (d_sender_pubkey d);
  su_signed : verify env (d_sender_pubkey d) (hs_structure1_cbor f) (hs_sender_signature f) = true;
  su_sender : d_sender_pubkey d = participant_a (assignment st) ∨
              d_sender_pubkey d = participant_b (assignment st);
  su_who : who = a_hex st ∨ who = b_hex st;
}.

Lemma session_gate_ok st :
  session_gate st = Ok tt ↔ status st = active ∧ awaiting_replay (extras st) = false.
Proof. unfold session_gate. destruct (status st), (awaiting_replay (extras st)); naive_solver. Qed.

(** A submit is refused with the sessions as they were, or its links are checked. *)
Lemma locked_rule who f skey r Q R :
  (∀ r', sessions (store r') = sessions (store r) → Q tt r') →
  (∀ r', sessions (store r') = sessions (store r) → R r') →
  (∀ st d k r', jget (sessions (store r)) skey = Some st → submitted st who f d →
     LEAF_KINDS (hs_leaf_kind f) = Some k → sessions (store r') = sessions (store r) →
     wp (check_links env st skey who f d k) r' Q R) →
  wp (processHashSubmitLocked env who f skey) r Q R.
Proof.
  intros HQ HR HL.
  assert (∀ (m : M unit) r', stays m → sessions (store r') = sessions (store r) → wp m r' Q R) as Hstays.
  { intros m r' Hm E. eapply wp_mono; [apply Hm|intros [] r2 E2|intros r2 E2]; [apply HQ|apply HR]; congruence. }
  unfold processHashSubmitLocked. apply wp_bind, wp_gets. unfold getSession.
  destruct (jget (sessions (store r)) skey) as [st|] eqn:Eg; [|apply Hstays; [apply stays_reply|done]].
  destruct (session_gate st) as [[]|[reason detail]] eqn:Egate; [|apply Hstays; [apply stays_reply|done]].
  apply session_gate_ok in Egate as [Hact Hw].
  destruct (decodeStructure1 env _) as [d|] eqn:Ed; [|apply Hstays; [apply stays_reply|done]].
  destruct (negb (bool_decide (s1_session_id _ = _))) eqn:Es; bools; [apply Hstays; [apply stays_reply|done]|].
  cbv zeta. destruct (witnessLeafSignature _ _ _ _) as [signer|e] eqn:Ew.
  2:{ apply Hstays; [apply stays_bind; [apply stays_flag|intros _; apply stays_reply]|done]. }
  pose proof Ew as [Hin Hv]%witness_signer.
  destruct (negb (bool_decide (who = _ ∨ _))) eqn:Ewho; bools; [apply Hstays; [apply stays_reply|done]|].
  apply wp_stays; [apply stays_predecessor|exact HR|]. intros vouched r1 E1.
  destruct (negb vouched); [by apply Hstays; [apply stays_reply|]|].
  unfold check_author. destruct (LEAF_KINDS _) as [k|] eqn:Ekind; [|by apply Hstays; [apply stays_reply|]].
  cbv zeta. destruct (negb (bool_decide (hex (d_sender_pubkey d) = hex signer))) eqn:Ep; bools;
    [by apply Hstays; [apply stays_reply|]|].
  apply (inj hex) in Ep as <-.
  apply wp_stays; [apply stays_counter|intros r' E; apply HR; congruence|]. intros dup r2 E2.
  destruct dup; [apply Hstays; [apply stays_reply|congruence]|].
  apply (HL st d k); [done| |done|congruence]. split; try done. destruct (bool_decide (who = b_hex st)); set_solver.
Qed.

(** The links are refused, answered from the recorded ack, found broken, or in order. *)
Lemma links_rule st skey who f d k r Q R :
  (∀ r', sessions (store r') = sessions (store r) → Q tt r') →
  (∀ r', sessions (store r') = sessions (store r) → R r') →
  (∀ r' now, sessions (store r') = jset (sessions (store r)) skey
       (touch (diverge st "a submitted message's link to its own sender's previous message does not match this relay's record of it") now) →
     Q tt r' ∧ R r') →
  (check_acknowledgement st (d_fields d) = Ok tt →
   jget (issued_acks (extras st)) (submission_key who (d_fields d)) = None →
   s1_prev_own_hash (d_fields d) = expected_own st who → wp (admit_leaf env st skey who f d k) r Q R) →
  wp (check_links env st skey who f d k) r Q R.
Proof.
  intros HQ HR HD HA. unfold check_links. cbv zeta.
  destruct (check_acknowledgement st (d_fields d)) as [[]|[reason detail]] eqn:Eack.
  2:{ eapply wp_mono; [apply stays_reply|intros []; apply HQ|apply HR]. }
  destruct (jget (issued_acks (extras st)) _) as [already|] eqn:Ej.
  { apply wp_stays; [apply stays_send|exact HR|]. intros _ r' E. by apply wp_ret, HQ. }
  destruct (negb (bool_decide (s1_prev_own_hash (d_fields d) = expected_own st who))) eqn:El; bools; [|by apply HA].
  apply wp_stays; [apply stays_self_chain|exact HR|]. intros _ r1 E1. apply wp_bind, wp_set.
  intros r2 now E2. rewrite E1 in E2.
  eapply wp_mono; [apply stays_reply|intros [] r3 E3|intros r3 E3]; eapply HD; rewrite E3; exact E2.
Qed.

Lemma keeps_record_ack skey key ack r : inv r → keeps (record_ack env skey key ack) r.
Proof.
  intros Hi. unfold record_ack. case_match; [|done]. apply keeps_get; [done| |intros _; done].
  intros st _ Hk Hst. cbv zeta. apply keeps_set; [done|done|by apply session_ok_extras].
Qed.

Context (Hbuild : builds_structure2 env).

Lemma keeps_admit st skey who f d k r :
  inv r → skey = hex (session_id (assignment st)) → session_ok st → admissible st f d →
  keeps (admit_leaf env st skey who f d k) r.
Proof.
  intros Hi Hk Hst Had. unfold admit_leaf. cbv zeta.
  destruct (buildStructure2 _ _ _ _ _ _) as [s|] eqn:E; [|apply keeps_stays; [apply stays_reply|done]].
  apply Hbuild in E as ->. change (mkS2 _ _ _ _ _) with (ordered st f d).
  apply keeps_seq; [apply keeps_set; [done|done|by apply session_ok_append]|]. intros _ r1 H1.
  apply keeps_bind; [apply stays_now|done|]. intros ts r2 H2 _.
  apply keeps_bind; [apply stays_sign|done|]. intros signed r3 H3 _.
  apply keeps_seq; [by apply keeps_record_ack|]. intros _ r4 H4.
  apply keeps_bind; [apply stays_send|done|]. intros _ r5 H5 _.
  apply keeps_bind; [apply stays_deliver|done|]. intros _ r6 H6 _.
  destruct (directory env) as [dir|]; [|done]. case_match; [by apply keeps_seal|done].
Qed.

Lemma keeps_locked who f skey r :
  inv r → skey = hex (hs_session_id f) → (links → by_author who f) →
  keeps (processHashSubmitLocked env who f skey) r.
Proof.
  intros Hi Hkey Ha. apply locked_rule; try (intros; by eapply inv_same).
  intros st d k r1 Eg Hs _ E. pose proof (inv_same _ _ Hi E) as Hi1.
  pose proof (ss_key _ Hi _ _ Eg) as Hk. pose proof (ss_ok _ Hi _ _ Eg) as Hst.
  assert (hs_session_id f = session_id (assignment st)) as Hsid by (apply (inj hex); congruence).
  apply links_rule; try (intros; by eapply inv_same).
  - intros r2 now E2. assert (inv r2); [|done]. unfold inv. rewrite E2. apply sessions_ok_set; [done|done|].
    by apply session_ok_touch, session_ok_diverge.
  - intros Hack _ Hown. apply keeps_admit; [done|done|done|].
    apply check_acknowledgement_ok in Hack as [Hseen _]. destruct Hs. split; try done; [congruence|].
    intros Hl. by rewrite <- (Ha Hl d).
Qed.

Lemma keeps_submit_frame who peer f r :
  inv r → (links → by_author who f) → keeps (processHashSubmit env who peer f) r.
Proof.
  intros Hi Ha. unfold processHashSubmit.
  apply keeps_bind; [apply stays_now|done|]. intros now1 r1 H1 _.
  apply keeps_bind; [|done|]. { intros r'. unfold wp. by destruct (check _ _ _ _). }
  intros peerLimit r2 H2 _.
  apply keeps_bind; [apply stays_now|done|]. intros now2 r3 H3 _.
  apply keeps_bind; [|done|]. { intros r'. unfold wp. by destruct (check _ _ _ _). }
  intros keyLimit r4 H4 _. case_match.
  - apply keeps_stays; [apply stays_bind; [apply stays_send|done]|done].
  - by apply keeps_locked.
Qed.

(** ** Replays *)

Abbreviation valid := (leaf_valid (verify env) (cborDecode env) (encodeStructure2 env) (leaf_hasher env) (nodeHash env)).

(** What a batch that passed every check is. *)
Record inherited (st : session) (leaves : list RelaySealLeaf) : Prop := mkInherited {
  ih_some : leaves ≠ [];
  ih_number : ∀ i l, leaves !! i = Some l → sequence_number (s2 l) = (Z.of_nat i + 1)%Z;
  ih_valid : ∀ before l after, leaves = before ++ l :: after → ∃ f, valid before l f;
  ih_belongs : Forall (belongs (cborDecode env) (session_id (assignment st))
                         (participant_a (assignment st), participant_b (assignment st))) leaves;
}.

Lemma reconstructed_numbers ws present want leaves :
  reconstructCarriedSealLeaves (verify env) (cborDecode env) (buildRelayAckTbs env) ws present want = Ok leaves →
  leaves ≠ [] ∧ ∀ i l, leaves !! i = Some l → sequence_number (s2 l) = (Z.of_nat i + 1)%Z.
Proof.
  unfold reconstructCarriedSealLeaves. destruct ws as [[|w ws]|]; [done| |done].
  intros [Hl Hall]%reconstruct_from_spec. split; [by intros ->|]. intros i l Hi.
  destruct (lookup_lt_is_Some_2 (w :: ws) i) as [w' Hw']; [rewrite <- Hl; by eapply lookup_lt_Some|].
  exact (cr_contiguous _ _ _ _ _ _ _ _ (Hall i w' l Hw' Hi)).
Qed.

Lemma verified_chain leaves reported sid roster root :
  verifySealLeafChain (verify env) (cborDecode env) (encodeStructure2 env) (leaf_hasher env) (nodeHash env)
    (hash_tree_root env) leaves reported sid roster = Ok root →
  (∀ before l after, leaves = before ++ l :: after → ∃ f, valid before l f) ∧
  Forall (belongs (cborDecode env) sid roster) leaves.
Proof.
  unfold verifySealLeafChain. case_match; [done|].
  destruct (chain_loop _ _ _ _ _ _ _ leaves) as [c|e] eqn:Ec; cbn [mbind result_bind]; [|done].
  unfold verifyLeafProvenance. destruct roster as [p q].
  destruct (unit_result (provenance_loop (cborDecode env) leaves sid (Some (p, q)))) as [[e E]|E];
    rewrite E; [done|]. intros _. split.
  - apply (chain_loop_spec _ _ _ _ _ [] (mkChain [] (initial_root leaves) []) leaves); [|done|by eexists].
    apply loop_inv_init.
  - by apply provenance_loop_spec in E.
Qed.

Lemma check_replay_ok st who other prior f leaves :
  hex (rp_session_id f) = hex (session_id (assignment st)) →
  check_replay env st who other prior f = Ok leaves → inherited st leaves.
Proof.
  intros Hsid%(inj hex). unfold check_replay.
  destruct (reconstructCarriedSealLeaves _ _ _ _ _ _) as [ls|] eqn:Er; [|done].
  destruct (verifySealLeafChain _ _ _ _ _ _ _ _ _ _) as [root|] eqn:Ev; [|done].
  destruct (verifySessionTipAttestation _ _ _ _ _ _ _); [|done]. intros [= <-].
  apply reconstructed_numbers in Er as [Hne Hnum]. apply verified_chain in Ev as [Hv Hb].
  rewrite Hsid in Hb. by split.
Qed.

Definition strip (l : RelaySealLeaf) : RelaySealLeaf := mkLeaf (kind l) (s2 l) (structure1_cbor l) None.

Lemma previous_own_strip before pk : previous_own (map strip before) pk = strip <$> previous_own before pk.
Proof.
  unfold previous_own. rewrite <- map_rev. induction (rev before) as [|l ls IH]; [done|]. cbn.
  change (sender (strip l)) with (sender l). by case_match.
Qed.

Lemma map_eq_middle {A B} (g : A → B) l before x after :
  map g l = before ++ x :: after → ∃ b y a, l = b ++ y :: a ∧ before = map g b ∧ x = g y.
Proof.
  intros (b & r & -> & Hr & ->)%fmap_app_inv. destruct r as [|y a]; [done|].
  injection Hr as -> ->. by exists b, y, a.
Qed.

Lemma has_seen_count st leaves b l a lss :
  inherited st leaves → leaves = b ++ l :: a → has_seen b (sender l) lss → js_gtb lss (Z.of_nat (length b)) = false.
Proof.
  intros Hin -> [H0|(x & Hx & _ & Hf)]; [by eapply js_gtb_mono; [|exact H0]; lia|].
  apply list_elem_of_lookup in Hx as [i Hi]. pose proof (lookup_lt_Some _ _ _ Hi).
  eapply js_gtb_mono; [|exact Hf].
  rewrite (ih_number _ _ Hin i x) by (by apply lookup_app_l_Some). lia.
Qed.

Lemma inherited_leaves_ok st leaves : inherited st leaves → leaves_ok st (map strip leaves).
Proof.
  intros Hin before x after E.
  apply map_eq_middle in E as (b & l & a & E & -> & ->).
  destruct (ih_valid _ _ Hin b l a E) as [f Hf]. exists f.
  assert (belongs (cborDecode env) (session_id (assignment st))
            (participant_a (assignment st), participant_b (assignment st)) l) as [Hs (f' & Hd & Hsid)].
  { pose proof (ih_belongs _ _ Hin) as H. rewrite E in H. apply list.Forall_app in H as [_ H].
    by apply list.Forall_cons in H as [? _]. }
  destruct Hf as [Hv Hd' Hc Hp Hca Hse]. simplify_eq. split; cbn; try done; rewrite ?length_map.
  - rewrite (ih_number _ _ Hin (length b) l); [done|]. by apply list_lookup_middle.
  - intros Hne. rewrite map_map. apply Hp. by intros ->.
  - by apply (has_seen_count st _ b l a _ Hin).
  - intros _ p. rewrite previous_own_strip. intros (q & Eq & ->)%fmap_Some. exact (Hse q Eq).
Qed.

Lemma session_ok_adopt st leaves :
  session_ok st → inherited st leaves → truthy (prior_relay_id (extras st)) ≠ None → session_ok (adopt env st leaves).
Proof.
  intros Hst Hin Hp. unfold adopt.
  assert (∀ stack, foldl (λ stack l, stack_push (nodeHash env) (lhash l) 0 stack) stack leaves =
            push_all (nodeHash env) stack (map lhash leaves)) as Hfold.
  { induction leaves as [|l ls IH]; [done|]. clear. intros stack. unfold push_all.
    revert stack. generalize (l :: ls). induction l0 as [|x xs IH]; intros stack; [done|]. apply IH. }
  change (λ stack l, stack_push (nodeHash env) (leaf_hasher env (kind l) (encodeStructure2 env (s2 l))) 0 stack)
    with (λ stack l, stack_push (nodeHash env) (lhash l) 0 stack).
  rewrite Hfold. pose proof (represents_push_all (nodeHash env) (map lhash leaves)) as Hs.
  assert (map lhash leaves ≠ []) as Hne by (pose proof (ih_some _ _ Hin); by destruct leaves).
  pose proof (represents_root _ _ _ Hs Hne) as Hr.
  split; cbn [leaf_log seq_counter tree_stack running_root extras set_extras set_log prior_relay_id awaiting_replay].
  - by rewrite length_map.
  - apply (leaves_ok_assignment st); [done|]. by apply inherited_leaves_ok.
  - by rewrite map_map.
  - rewrite Hr. cbn [default from_option]. rewrite map_map. by destruct leaves.
  - done.
  - done.
Qed.

Lemma keeps_replay who f r : inv r → keeps (processSessionReplay env who f) r.
Proof.
  intros Hi. unfold processSessionReplay. cbv zeta.
  apply keeps_get; [done| |intros _; apply keeps_stays; [apply stays_refuse|done]].
  intros st _ Hk Hst.
  case_match; [apply keeps_stays; [apply stays_refuse|done]|].
  destruct (truthy (prior_relay_id (extras st))) as [prior|] eqn:Ep;
    [|apply keeps_stays; [apply stays_refuse|done]].
  do 2 (case_match; [apply keeps_stays; [apply stays_refuse|done]|]).
  destruct (check_replay _ _ _ _ _ _) as [leaves|[reason div]] eqn:Er.
  - apply keeps_seq.
    { apply keeps_set; [done|done|]. apply session_ok_adopt; [done| |congruence]. by eapply check_replay_ok. }
    intros _ r1 Hi1. apply keeps_seq; [by destruct (directory env); [apply keeps_seal|]|].
    intros _ r2 Hi2. apply keeps_stays; [apply stays_bind; [apply stays_send|done]|done].
  - apply keeps_seq; [|intros _ r1 Hi1; apply keeps_stays; [apply stays_refuse|done]].
    destruct div; [|done].
    apply keeps_seq; [apply keeps_set; [done|done|by apply session_ok_diverge]|].
    intros _ r1 Hi1. apply keeps_stays; [apply stays_emit|done].
Qed.

(** ** Assignments and sweeps *)

Definition fresh_session (a : SessionAssignment) (genesisRoot : bytes) (now : Z) : session :=
  mkSession a genesisRoot 0 [] active [] genesisRoot now no_extras.

Lemma session_ok_fresh a g now x : session_ok (set_extras (fresh_session a g now) x).
Proof.
  split; cbn; try done; [|apply represents_nil]. intros [|y before] l after E; discriminate E.
Qed.

Lemma recordSession_cases (s : RelayStore) a g now :
  recordSession (Leaf := RelaySealLeaf) (Ack := HashSubmitAck) (Delivery := LeafDeliver)
    (Alert := SessionWitnessAlert) s a g now = (s, false) ∨
  ∃ s', recordSession s a g now = (s', true) ∧
    sessions s' = jset (sessions s) (hex (session_id a)) (fresh_session a g now).
Proof. unfold recordSession. cbv zeta. destruct (jhas _ _); [by left|]. right. by eexists. Qed.

Lemma keeps_assign a r : inv r → keeps (recordAssignment env a) r.
Proof.
  intros Hi. unfold recordAssignment. case_match; [done|]. cbv zeta.
  destruct (List.find _ _) as [signer|]; [|done].
  apply keeps_bind; [apply stays_gets|done|]. intros n r0 Hi0 _.
  destruct (sessionCapPerPair env <=? n)%nat; [done|].
  apply keeps_bind; [apply stays_now|done|]. intros now r1 Hi1 _.
  set (g := computeGenesisPrevRoot _ _ _ _ _). unfold keeps. apply wp_bind. unfold wp at 1.
  destruct (recordSession_cases (store r1) a g now) as [->|(s' & -> & Es)]; [done|].
  cbn [negb]. fold (fresh_session a g now) in *.
  assert (inv (with_store r1 s')) as Hi2.
  { unfold inv. cbn [store with_store]. rewrite Es. apply sessions_ok_set; [done|done|].
    exact (session_ok_fresh a g now no_extras). }
  apply keeps_seq.
  - destruct (truthy (a_prior_relay_id a)) as [p|]; [|done].
    unfold keeps. apply wp_bind, wp_gets. unfold getSession. cbn [store with_store].
    rewrite Es, jget_jset_eq. apply keeps_set; [done|done|apply session_ok_fresh].
  - intros _ r3 Hi3. do 3 (apply keeps_bind; [by apply stays_modify|done|];
      let r := fresh "r" in let H := fresh "Hi" in intros _ r H _). done.
Qed.

Lemma keeps_assign_frame who a r : inv r → keeps (processClientRecordAssignment env who a) r.
Proof.
  intros Hi. unfold processClientRecordAssignment.
  case_match; [apply keeps_stays; [apply stays_bind; [apply stays_send|done]|done]|].
  apply keeps_seq; [by apply keeps_assign|]. intros outcome r1 Hi1.
  apply keeps_stays; [apply stays_bind; [apply stays_send|done]|done].
Qed.

Lemma sessions_ok_dels keys m : sessions_ok m → sessions_ok (foldl jdel m keys).
Proof.
  revert m. induction keys as [|k keys IH]; intros m Hm; [done|]. by apply IH, sessions_ok_del.
Qed.

Lemma keeps_sweep maxIdleMs r : inv r → keeps (idleSweep env maxIdleMs) r.
Proof.
  intros Hi. unfold idleSweep. apply keeps_bind; [apply stays_now|done|]. intros now r1 Hi1 _.
  unfold keeps. apply wp_bind. unfold wp at 1, sweepIdleSessions. cbv zeta.
  apply keeps_stays; [apply stays_for_each, stays_cleanup|]. by apply sessions_ok_dels.
Qed.

(** ** Runs *)

Definition author_input (i : input) : Prop :=
  match i with Submit who _ f => by_author who f | _ => True end.

Lemma relay_input_inv r i : inv r → (links → author_input i) → inv (run_input env r i).
Proof.
  intros Hi Ha. destruct i as [who a|who peer f|who f|sid|maxIdle|who]; cbn [run_input];
    try (apply (wp_final _ _ inv)).
  - by apply keeps_assign_frame.
  - by apply keeps_submit_frame.
  - by apply keeps_replay.
  - by apply keeps_discard.
  - by apply keeps_sweep.
  - done.
Qed.

Lemma initial_inv : inv initial.
Proof. split; [constructor|done|done]. Qed.

Lemma run_inv r inputs : inv r → (links → Forall author_input inputs) → inv (run env r inputs).
Proof.
  revert r. induction inputs as [|i inputs IH]; intros r Hi Ha; [done|]. cbn. apply IH.
  - apply relay_input_inv; [done|]. intros Hl. by apply list.Forall_cons in Ha as [? _].
  - intros Hl. specialize (Ha Hl). by apply list.Forall_cons in Ha as [_ ?].
Qed.

End Invariant.
End RelaySessionInvariant.

(** How the relay's sessions evolve: what an input may do to a session, the outcome
    of a seal, and that acks, leaves and final statuses are never taken back. *)
Import Text JsMap Effects Wire Relay SealChain SealChainTheorems RelaySession RelaySessionInvariant.

Module RelaySessionEvolution.

(** * Sessions that move forward *)

(** A later state of a session: the assignment and the genesis root stay, the log and
    the recorded acks only grow, and a session that is not active takes no leaf and
    keeps its status. *)
Record advance (st st' : session) : Prop := mkAdvance {
  av_assignment : assignment st' = assignment st;
  av_genesis : genesis_prev_root st' = genesis_prev_root st;
  av_log : leaf_log st `prefix_of` leaf_log st';
  av_acks : ∀ key ack, jget (issued_acks (extras st)) key = Some ack →
    jget (issued_acks (extras st')) key = Some ack;
  av_final : status st ≠ active → status st' = status st ∧ leaf_log st' = leaf_log st;
}.

#[global] Instance advance_preorder : PreOrder advance.
Proof.
  split.
  - intros st. by split.
  - intros s1 s2 s3 [] []. split; [congruence|congruence|by etrans|auto|].
    intros H. destruct (av_final0 H) as [E1 E2]. rewrite <- E1, <- E2 in *. auto.
Qed.

(** Every session left comes from one that was there. *)
Definition evolves (m m' : jsmap string session) : Prop :=
  jwf m → jwf m' ∧ ∀ k st', jget m' k = Some st' → ∃ st, jget m k = Some st ∧ advance st st'.

#[global] Instance evolves_preorder : PreOrder evolves.
Proof.
  split.
  - intros m Hm. split; [done|]. intros k st' Hk. by exists st'.
  - intros m1 m2 m3 H12 H23 Hm. destruct (H12 Hm) as [Hm2 F12]. destruct (H23 Hm2) as [Hm3 F23].
    split; [done|]. intros k s3 (s2 & E2 & A2)%F23. apply F12 in E2 as (s1 & E1 & A1). exists s1. split; [done|by etrans].
Qed.

Lemma evolves_set m k st st' : jget m k = Some st → advance st st' → evolves m (jset m k st').
Proof.
  intros Hk Ha Hm. split; [by apply jwf_jset|]. intros k' s'. rewrite jget_jset. case_decide as E; [subst|].
  - intros [= <-]. eauto.
  - intros Hs. by exists s'.
Qed.

Lemma evolves_del m k : evolves m (jdel m k).
Proof.
  intros Hm. split; [by apply jwf_jdel|]. intros k' s'. rewrite jget_jdel by done. case_decide; [done|].
  intros Hs. by exists s'.
Qed.

Lemma evolves_dels keys m : evolves m (foldl jdel m keys).
Proof.
  revert m. induction keys as [|k keys IH]; intros m; [done|]. cbn. etrans; [apply evolves_del|apply IH].
Qed.

Section Evolution.
Context (env : RelayEnv).

Abbreviation S r := (sessions (store r)).

(** * The outcome of a seal *)

(** A session its directory is asked to seal. *)
Record sealable (st : session) : Prop := mkSealable {
  se_active : status st = active;
  se_ready : awaiting_replay (extras st) = false;
  se_both : 2 <= length (distinct_senders (List.filter (λ l, bool_decide (kind l = ctrl)) (leaf_log st)));
}.

(** What the answer makes of the session. *)
Definition after_seal (st : session) (answer : result SealRefusal unit) : option session :=
  let x := extras st in
  match answer with
  | Ok _ => None
  | Err e =>
      Some match sr_kind e with
      | Some unknown => set_status st sealing
      | Some unreachable => set_status st active
      | Some refused | None =>
          set_status (set_extras st (mkExtras (issued_acks x) (Some (sr_reason e)) (prior_relay_id x)
                                       (awaiting_replay x) (diverged_reason x))) seal_rejected
      end
  end.

Lemma distinct_senders_length leaves : length (distinct_senders leaves) <= length leaves.
Proof.
  unfold distinct_senders. rewrite <- (length_map (λ l, hex (sender_pubkey (s2 l))) leaves).
  induction (map _ leaves) as [|x l IH]; cbn; [lia|]. case_match; cbn; lia.
Qed.

(** The sessions afterwards, from the ones before. *)
Definition sealed (m m' : jsmap string session) (key : string) (st : session)
    (answer : result SealRefusal unit) : Prop :=
  jwf m' ∧ (∀ k, k ≠ key → jget m' k = jget m k) ∧
  ∃ now, jget m' key = (λ st', touch st' now) <$> after_seal st answer.

Lemma sealed_set m m1 m' key st now answer st' :
  jwf m → m1 = jset m key (touch (set_status st sealing) now) → after_seal st answer = Some st' →
  (∃ now', m' = jset m1 key (touch st' now')) ∨ (m' = m1 ∧ st' = set_status st sealing) → sealed m m' key st answer.
Proof.
  intros Hm -> Ha Hm'. unfold sealed. rewrite Ha. cbn [fmap option_fmap option_map].
  destruct Hm' as [[now' ->]|[-> ->]].
  - split; [by do 2 apply jwf_jset|]. split; [|exists now'; by rewrite jget_jset_eq].
    intros k Hk. by rewrite !jget_jset_ne.
  - split; [by apply jwf_jset|]. split; [|exists now; by rewrite jget_jset_eq].
    intros k Hk. by rewrite jget_jset_ne.
Qed.

Lemma sealed_del m m1 key st now answer :
  jwf m → m1 = jset m key (touch (set_status st sealing) now) → after_seal st answer = None →
  sealed m (jdel m1 key) key st answer.
Proof.
  intros Hm -> Ha. assert (jwf (jset m key (touch (set_status st sealing) now))) as Hm1 by (by apply jwf_jset).
  split; [by apply jwf_jdel|]. rewrite Ha. split; [|exists now].
  - intros k Hk. rewrite jget_jdel, decide_False by done. by rewrite jget_jset_ne.
  - by rewrite jget_jdel, decide_True.
Qed.

(** Either there is nothing to seal, or the session is sealing while its directory is
    asked and then becomes what the answer says. *)
Definition seal_post (d : DirectoryAdapter) (sid : bytes) (r r' : relay) : Prop :=
  (S r' = S r ∧ ∀ st, jget (S r) (hex sid) = Some st → ¬ sealable st) ∨
  ∃ st target r1 r2 answer, jget (S r) (hex sid) = Some st ∧ sealable st ∧
    adjudicate d sid (seal_data env st) target r1 = (r2, Ok answer) ∧
    sealed (S r) (S r') (hex sid) st answer.

Definition seal_thrown (sid : bytes) (r r' : relay) : Prop :=
  ∃ st now, jget (S r) (hex sid) = Some st ∧ sealable st ∧
    S r' = jset (S r) (hex sid) (touch (set_status st sealing) now).

Lemma seal_cases d sid r :
  jwf (S r) →
  wp (maybeProcessSeal env d sid (hex sid)) r (λ _, seal_post d sid r) (seal_thrown sid r).
Proof.
  intros Hwf. unfold maybeProcessSeal. apply wp_bind, wp_gets. unfold getSession.
  destruct (jget (S r) (hex sid)) as [st|] eqn:Eg.
  2:{ left. split; [done|]. by rewrite Eg. }
  assert (∀ r', r' = r → ¬ sealable st → seal_post d sid r r') as Hno.
  { intros r' -> Hn. left. split; [done|]. intros st'. rewrite Eg. by intros [= <-]. }
  destruct (negb (bool_decide (status st = active))) eqn:Ea; bools; [by apply Hno; [|intros []]|].
  set (ctrls := List.filter _ (leaf_log st)). cbv zeta.
  destruct (Nat.ltb_spec (length ctrls) 2) as [E1|E1].
  { apply Hno; [done|]. intros [_ _ H]. pose proof (distinct_senders_length ctrls). fold ctrls in H. lia. }
  destruct (Nat.ltb_spec (length (distinct_senders ctrls)) 2) as [E2|E2].
  { apply Hno; [done|]. intros [_ _ H]. fold ctrls in H. lia. }
  apply wp_bind. unfold submitForSeal. cbv zeta. apply wp_bind, wp_gets. unfold getSession. rewrite Eg.
  rewrite (bool_decide_eq_true_2 (status st = active)) by done. cbn [negb].
  destruct (awaiting_replay (extras st)) eqn:Ew; [by apply Hno; [|intros []; congruence]|].
  assert (sealable st) as Hse by (by split).
  apply wp_bind, wp_set. intros r1 now Er1. apply wp_ret. cbn beta iota.
  apply wp_bind, wp_gets. set (target := resolveSessionBroker _ _ _). apply wp_bind.
  pose proof (stays_adjudicate env d sid (seal_data env st) target r1) as Hs.
  unfold wp in Hs |- * at 1. destruct (adjudicate _ _ _ _ r1) as [r2 [answer|e]] eqn:Ead.
  2:{ exists st, now. rewrite Hs. done. }
  assert (∀ r3, sealed (S r) (S r3) (hex sid) st answer → seal_post d sid r r3) as Hpost.
  { intros r3 H3. right. by exists st, target, r1, r2, answer. }
  assert (jget (S r2) (hex sid) = Some (touch (set_status st sealing) now)) as Eg2.
  { rewrite Hs, Er1. apply jget_jset_eq. }
  destruct answer as [[]|e].
  - unfold confirmSeal, discardSession, cleanupSessionTracking. cbv zeta.
    apply wp_bind, wp_modify, wp_modify, Hpost. cbn. rewrite Hs. by apply (sealed_del _ _ _ _ now).
  - assert (∀ reason, sr_kind e = Some refused ∨ sr_kind e = None → reason = sr_reason e →
      wp (rejectSeal env sid reason) r2 (λ _, seal_post d sid r) (seal_thrown sid r)) as Hrej.
    { intros reason Hk ->. unfold rejectSeal, cleanupSessionTracking. cbv zeta.
      apply wp_bind, wp_modify, wp_bind, wp_gets. unfold getSession. cbn [store with_tracking]. rewrite Eg2.
      apply wp_set. intros r3 now' E3. apply Hpost. cbn [store with_tracking] in E3.
      eapply sealed_set; [done|exact Er1|cbn; destruct Hk as [-> | ->]; reflexivity|].
      left. exists now'. rewrite E3, Hs. reflexivity. }
    destruct (sr_kind e) as [[]|] eqn:Ek; [by apply Hrej; [left|]| | |by apply Hrej; [right|]].
    + apply wp_bind, wp_gets. unfold getSession. rewrite Eg2.
      rewrite (bool_decide_eq_true_2 (status _ = sealing)) by done.
      apply wp_set. intros r3 now' E3. apply Hpost.
      eapply sealed_set; [done|exact Er1|cbn; rewrite Ek; reflexivity|].
      left. exists now'. rewrite E3, Hs. reflexivity.
    + apply wp_ret, Hpost. eapply sealed_set; [done|exact Er1|cbn; rewrite Ek; reflexivity|].
      right. split; [exact Hs|reflexivity].
Qed.

(** * Every input but an assignment *)

Lemma advance_active st st' :
  status st = active → assignment st' = assignment st → genesis_prev_root st' = genesis_prev_root st →
  leaf_log st `prefix_of` leaf_log st' →
  (∀ key ack, jget (issued_acks (extras st)) key = Some ack → jget (issued_acks (extras st')) key = Some ack) →
  advance st st'.
Proof. by split. Qed.

Lemma advance_after_seal st answer st' now :
  status st = active → after_seal st answer = Some st' → advance st (touch st' now).
Proof.
  intros Ha E. destruct answer as [|e]; [done|]. cbn in E. injection E as <-.
  by apply advance_active; destruct (sr_kind e) as [[]|].
Qed.

Lemma evolves_sealed m m' key st answer :
  jget m key = Some st → status st = active → sealed m m' key st answer → evolves m m'.
Proof.
  intros Hk Ha (Hwf & Hother & now & Hkey) _. split; [done|]. intros k st' Hst'.
  destruct (decide (k = key)) as [->|Hne].
  - rewrite Hkey in Hst'. apply fmap_Some in Hst' as (s & Hs & ->). exists st. split; [done|].
    by eapply advance_after_seal.
  - rewrite Hother in Hst' by done. by exists st'.
Qed.

(** The action ends, or throws, with sessions that evolved from those of [r0]. *)
Abbreviation evo r0 m r := (wp m r (λ _ r', evolves (S r0) (S r')) (λ r', evolves (S r0) (S r'))).

Lemma evo_stays {A} r0 (m : M A) r : stays m → evolves (S r0) (S r) → evo r0 m r.
Proof. intros Hm He. eapply wp_mono; [apply Hm|intros a r' ->|intros r' ->]; done. Qed.

Lemma evo_bind {A B} r0 (m : M A) (k : A → M B) r :
  stays m → evolves (S r0) (S r) → (∀ a r', S r' = S r → evo r0 (k a) r') → evo r0 (m ≫= k) r.
Proof. intros Hm He Hk. apply wp_stays; [done|intros r' ->; done|done]. Qed.

Lemma evo_seal r0 d sid r :
  jwf (S r0) → evolves (S r0) (S r) → evo r0 (maybeProcessSeal env d sid (hex sid)) r.
Proof.
  intros Hwf He. destruct (He Hwf) as [Hwf1 _].
  eapply wp_mono; [by apply (seal_cases d sid r)| |].
  - intros [] r' [[-> _]|(st & target & r1 & r2 & answer & Hk & Hse & _ & Hsealed)]; [done|].
    etrans; [exact He|]. by eapply evolves_sealed; [|apply Hse|].
  - intros r' (st & now & Hk & Hse & ->). etrans; [exact He|].
    apply (evolves_set _ _ st); [done|]. by apply advance_active; [apply Hse|..].
Qed.

Lemma evo_record_ack r0 skey key ack r :
  evolves (S r0) (S r) →
  (∀ st, jget (S r) skey = Some st → jget (issued_acks (extras st)) key = None) →
  evo r0 (record_ack env skey key ack) r.
Proof.
  intros He Hnone. unfold record_ack. case_match; [|by apply wp_ret].
  apply wp_bind, wp_gets. unfold getSession. destruct (jget (S r) skey) as [st|] eqn:Eg; [|by apply wp_ret].
  specialize (Hnone st eq_refl). cbv zeta. apply wp_set. intros r' now ->. etrans; [exact He|].
  apply (evolves_set _ _ st); [done|]. split; cbn; try done. intros key' ack' Hk.
  rewrite jget_jset_ne; [done|]. by intros <-; rewrite Hnone in Hk.
Qed.

Lemma evo_admit st sid who f d k r :
  jwf (S r) → sid = hs_session_id f → jget (S r) (hex sid) = Some st → status st = active →
  jget (issued_acks (extras st)) (submission_key who (d_fields d)) = None →
  evo r (admit_leaf env st (hex sid) who f d k) r.
Proof.
  intros Hwf -> Hg Ha Hn. unfold admit_leaf. cbv zeta.
  destruct (buildStructure2 _ _ _ _ _ _) as [s|]; [|apply evo_stays; [apply stays_reply|done]].
  apply wp_bind, wp_set. intros r1 now E1.
  assert (evolves (S r) (S r1)) as He1.
  { rewrite E1. apply (evolves_set _ _ st); [done|]. apply advance_active; try done. by eexists. }
  apply evo_bind; [apply stays_now|done|]. intros ts r2 E2.
  apply evo_bind; [apply stays_sign|by rewrite E2|]. intros signed r3 E3.
  assert (evolves (S r) (S r3)) as He3 by (by rewrite E3, E2).
  apply wp_bind. eapply wp_mono; [apply (evo_record_ack r)| |done].
  { done. }
  { intros st'. rewrite E3, E2, E1, jget_jset_eq. by intros [= <-]. }
  intros [] r4 He4.
  apply evo_bind; [apply stays_send|done|]. intros _ r5 E5.
  apply evo_bind; [apply stays_deliver|by rewrite E5|]. intros _ r6 E6.
  assert (evolves (S r) (S r6)) as He6 by (by rewrite E6, E5).
  destruct (directory env) as [dir|]; [|done]. case_match; [by apply evo_seal|done].
Qed.

Lemma evo_locked who f r : jwf (S r) → evo r (processHashSubmitLocked env who f (hex (hs_session_id f))) r.
Proof.
  intros Hwf. apply locked_rule; try (by intros r' ->).
  intros st d k r1 Hg Hsub _ E1. rewrite <- E1 in Hwf, Hg |- *. apply links_rule; try (by intros r' ->).
  - intros r2 now ->. assert (evolves (S r1) (jset (S r1) (hex (hs_session_id f)) (touch (diverge st "a submitted message's link to its own sender's previous message does not match this relay's record of it") now))); [|done].
    apply (evolves_set _ _ st); [done|]. by apply advance_active; [apply Hsub|..].
  - intros _ Hn _. by apply evo_admit; [..|apply Hsub|].
Qed.

Lemma evo_submit who peer f r : jwf (S r) → evo r (processHashSubmit env who peer f) r.
Proof.
  intros Hwf. unfold processHashSubmit.
  apply evo_bind; [apply stays_now|done|]. intros now1 r1 E1.
  apply evo_bind; [|by rewrite E1|]. { intros r'. unfold wp. by destruct (check _ _ _ _). }
  intros peerLimit r2 E2.
  apply evo_bind; [apply stays_now|by rewrite E2, E1|]. intros now2 r3 E3.
  apply evo_bind; [|by rewrite E3, E2, E1|]. { intros r'. unfold wp. by destruct (check _ _ _ _). }
  intros keyLimit r4 E4. assert (S r4 = S r) as E by congruence. rewrite <- E in Hwf |- *. case_match.
  - apply evo_stays; [apply stays_bind; [apply stays_send|done]|done].
  - by apply evo_locked.
Qed.

Lemma evo_replay who f r : jwf (S r) → evo r (processSessionReplay env who f) r.
Proof.
  intros Hwf. unfold processSessionReplay. cbv zeta. apply wp_bind, wp_gets. unfold getSession.
  destruct (jget (S r) _) as [st|] eqn:Eg; [|apply evo_stays; [apply stays_refuse|done]].
  case_match; [apply evo_stays; [apply stays_refuse|done]|].
  destruct (truthy (prior_relay_id (extras st))) as [prior|]; [|apply evo_stays; [apply stays_refuse|done]].
  destruct (negb (bool_decide (status st = active))) eqn:Ea; bools; [apply evo_stays; [apply stays_refuse|done]|].
  destruct (negb _ || _) eqn:Ew; [apply evo_stays; [apply stays_refuse|done]|].
  apply orb_false_iff in Ew as [_ Ew]. apply Nat.ltb_ge in Ew.
  assert (leaf_log st = []) as El by (apply nil_length_inv; lia).
  destruct (check_replay _ _ _ _ _ _) as [leaves|[reason div]].
  - apply wp_bind, wp_set. intros r1 now E1.
    assert (evolves (S r) (S r1)) as He1.
    { rewrite E1. apply (evolves_set _ _ st); [done|]. apply advance_active; try done.
      rewrite El. apply prefix_nil. }
    apply wp_bind. eapply wp_mono with (Q := λ _ r', evolves (S r) (S r')) (R := λ r', evolves (S r) (S r')); [| |done].
    { destruct (directory env); [by apply evo_seal|done]. }
    intros [] r2 He2. apply evo_stays; [apply stays_bind; [apply stays_send|done]|done].
  - apply wp_bind. eapply wp_mono with (Q := λ _ r', evolves (S r) (S r')) (R := λ r', evolves (S r) (S r')); [| |done].
    { destruct div; [|by apply wp_ret]. apply wp_bind, wp_set. intros r1 now E1.
      apply evo_stays; [apply stays_emit|]. rewrite E1.
      apply (evolves_set _ _ st); [done|]. by apply advance_active. }
    intros [] r2 He2. apply evo_stays; [apply stays_refuse|done].
Qed.

Lemma evo_discard sid r : evo r (discardSession sid) r.
Proof.
  unfold discardSession. cbv zeta. apply evo_bind; [apply stays_cleanup|done|].
  intros _ r' E. apply wp_modify. cbn. rewrite E. apply evolves_del.
Qed.

Lemma evo_sweep maxIdleMs r : evo r (idleSweep env maxIdleMs) r.
Proof.
  unfold idleSweep. apply evo_bind; [apply stays_now|done|]. intros now r1 E1.
  apply wp_bind. unfold wp at 1, sweepIdleSessions. cbv zeta.
  apply evo_stays; [apply stays_for_each, stays_cleanup|]. cbn. rewrite E1. apply evolves_dels.
Qed.

Definition is_assign (i : input) : Prop := match i with Assign _ _ => True | _ => False end.

Lemma evolves_input r i : jwf (S r) → ¬ is_assign i → evolves (S r) (S (run_input env r i)).
Proof.
  intros Hwf Hi. destruct i as [who a|who peer f|who f|sid|maxIdle|who]; cbn [run_input];
    [by destruct Hi|apply (wp_final _ _ (λ r', evolves (S r) (S r')))..|done].
  - by apply evo_submit.
  - by apply evo_replay.
  - by apply evo_discard.
  - by apply evo_sweep.
Qed.

Lemma evolves_run r inputs :
  jwf (S r) → Forall (λ i, ¬ is_assign i) inputs → evolves (S r) (S (run env r inputs)).
Proof.
  revert r. induction inputs as [|i inputs IH]; intros r Hwf Hi; [done|].
  apply list.Forall_cons in Hi as [Hi Hrest]. pose proof (evolves_input r i Hwf Hi) as He.
  etrans; [exact He|]. apply IH; [by apply He|done].
Qed.

(** * Assignments *)

(** A session of a recorded assignment: a directory of the relay signed it, and a
    resumed session waits for its history. *)
Record assigned_session (a : SessionAssignment) (st : session) : Prop := mkAssigned {
  as_assignment : assignment st = a;
  as_signed : ∃ pk, pk ∈ directoryPubkeys env ∧
    verify env pk (encodeCbor env (assignment_tbs a)) (directory_signature a) = true;
  as_active : status st = active;
  as_empty : leaf_log st = [] ∧ issued_acks (extras st) = [];
  as_waits : awaiting_replay (extras st) = bool_decide (is_Some (truthy (a_prior_relay_id a)));
}.

(** A new session is recorded under the id of its assignment, or nothing changes. *)
Definition assigned (a : SessionAssignment) (m m' : jsmap string session) : Prop :=
  ∀ k st', jget m' k = Some st' →
    jget m k = Some st' ∨ (k = hex (session_id a) ∧ jget m k = None ∧ assigned_session a st').

Lemma assigned_refl a m : assigned a m m.
Proof. by left. Qed.

Lemma assigned_jset a m st :
  jget m (hex (session_id a)) = None → assigned_session a st → assigned a m (jset m (hex (session_id a)) st).
Proof.
  intros Hn Hst k st'. rewrite jget_jset. case_decide as E; [subst|by left]. intros [= <-]. by right.
Qed.

Lemma assigned_jset2 a m st0 st :
  jget m (hex (session_id a)) = None → assigned_session a st →
  assigned a m (jset (jset m (hex (session_id a)) st0) (hex (session_id a)) st).
Proof.
  intros Hn Hst k st'. rewrite !jget_jset. case_decide as E; [subst|by left]. intros [= <-]. by right.
Qed.

Abbreviation asg a r0 m r := (wp m r (λ _ r', assigned a (S r0) (S r')) (λ r', assigned a (S r0) (S r'))).

Lemma asg_stays {A} a r0 (m : M A) r : stays m → assigned a (S r0) (S r) → asg a r0 m r.
Proof. intros Hm He. eapply wp_mono; [apply Hm|intros x r' ->|intros r' ->]; done. Qed.

Lemma asg_record a r : asg a r (recordAssignment env a) r.
Proof.
  unfold recordAssignment. case_match; [by apply wp_ret, assigned_refl|]. cbv zeta.
  destruct (List.find _ _) as [signer|] eqn:Ef; [|by apply wp_ret, assigned_refl].
  apply find_some_elem in Ef as [Hin Hv].
  apply wp_stays; [apply stays_gets|intros r' ->; apply assigned_refl|]. intros n r1 E1.
  destruct (sessionCapPerPair env <=? n)%nat; [apply wp_ret; rewrite E1; apply assigned_refl|].
  apply wp_stays; [apply stays_now|intros r' ->; rewrite E1; apply assigned_refl|]. intros now r2 E2.
  set (g := computeGenesisPrevRoot _ _ _ _ _). apply wp_bind. unfold wp at 1, recordSession. cbv zeta.
  rewrite E2, E1. unfold jhas. destruct (bool_decide _) eqn:Eh; bools.
  { apply wp_ret. cbn. rewrite E2, E1. apply assigned_refl. }
  assert (jget (S r) (hex (session_id a)) = None) as Hn by (by apply eq_None_not_Some). cbn [negb].
  fold (fresh_session a g now). apply wp_bind.
  eapply wp_mono with (Q := λ _ r', assigned a (S r) (S r')) (R := λ r', assigned a (S r) (S r'));
    [|intros [] r3 H3; apply asg_stays; [|exact H3]|done].
  - destruct (truthy (a_prior_relay_id a)) as [p|] eqn:Ep.
    + apply wp_bind, wp_gets. unfold getSession. cbn [store with_store with_sessions sessions]. rewrite jget_jset_eq.
      apply wp_set. intros r3 now3 E3. rewrite E3. apply assigned_jset2; [done|].
      split; [done|by exists signer|done|done|by rewrite Ep].
    + apply wp_ret. cbn [store with_store with_sessions sessions]. apply assigned_jset; [done|].
      split; [done|by exists signer|done|done|by rewrite Ep].
  - do 3 (apply stays_bind; [by apply stays_modify|intros []]). apply stays_ret.
Qed.

Lemma asg_frame who a r : asg a r (processClientRecordAssignment env who a) r.
Proof.
  unfold processClientRecordAssignment.
  case_match; [apply asg_stays; [apply stays_bind; [apply stays_send|done]|apply assigned_refl]|].
  apply wp_bind. eapply wp_mono; [apply asg_record| |done]. intros outcome r1 H1.
  apply asg_stays; [apply stays_bind; [apply stays_send|done]|done].
Qed.

(** * Retransmissions *)

(** A relay that has a key signs every ack. *)
Definition always_signs : Prop :=
  ∀ provider, ackSigningKeyProvider env = Some provider →
    is_Some (relayId env) ∧ ∀ t tbs, is_Some (provider t tbs).

Lemma sign_total tbs r (Q : option (string * bytes) → relay → Prop) R :
  always_signs → (∀ signed r', S r' = S r → (is_Some signed ∨ ackSigningKeyProvider env = None) → Q signed r') →
  wp (sign env tbs) r Q R.
Proof.
  intros Hs HQ. unfold wp, sign. destruct (ackSigningKeyProvider env) as [provider|] eqn:Ep; [|by apply HQ; [|right]].
  destruct (Hs provider Ep) as [[rid ->] Hp]. apply HQ; [done|]. left. destruct (Hp (tick r) tbs) as [sig ->]. by eexists.
Qed.

Lemma wp_record_ack skey key ack st r Q R :
  jget (S r) skey = Some st → ackSigningKeyProvider env = None ∨ is_Some (ack_signed ack) →
  (∀ r' st', S r' = jset (S r) skey st' → jget (issued_acks (extras st')) key = Some ack → Q tt r') →
  wp (record_ack env skey key ack) r Q R.
Proof.
  intros Hg Hsig HQ. unfold record_ack.
  assert (bool_decide (ackSigningKeyProvider env = None) || bool_decide (is_Some (ack_signed ack)) = true) as ->.
  { apply orb_true_iff. rewrite !bool_decide_eq_true. done. }
  apply wp_bind, wp_gets. unfold getSession. rewrite Hg. cbv zeta. apply wp_set. intros r' now E.
  eapply HQ; [exact E|]. apply jget_jset_eq.
Qed.

(** The ack of an ordered leaf is in the session. *)
Definition acked (st : session) (key : string) (m : jsmap string session) (skey : string) : Prop :=
  ∀ st1, jget m skey = Some st1 →
    leaf_log st1 = leaf_log st ∨
    ∃ ack, jget (issued_acks (extras st1)) key = Some ack ∧ ack_sequence_number ack = (seq_counter st + 1)%Z.

Lemma admit_acked st sid who f d k r :
  always_signs → jwf (S r) → sid = hs_session_id f → jget (S r) (hex sid) = Some st →
  let post r' := acked st (submission_key who (d_fields d)) (S r') (hex sid) in
  wp (admit_leaf env st (hex sid) who f d k) r (λ _, post) post.
Proof.
  intros Hsig Hwf -> Hg post. unfold admit_leaf. cbv zeta.
  destruct (buildStructure2 _ _ _ _ _ _) as [s|].
  2:{ eapply wp_mono; [apply stays_reply|intros [] r' E|intros r' E]; intros st1; rewrite E, Hg; intros [= <-]; by left. }
  apply wp_bind, wp_set. intros r1 now E1. apply wp_bind. unfold wp at 1, date_now.
  apply wp_bind. apply sign_total; [done|]. intros signed r3 E3 Hsigned. cbn [store with_tick] in E3.
  apply wp_bind. eapply (wp_record_ack _ _ _ (touch (append_leaf env st k s f) now)).
  { by rewrite E3, E1, jget_jset_eq. }
  { destruct Hsigned as [[x ->]|]; [right; by eexists|by left]. }
  intros r4 st4 E4 Hack. set (ack := mkAck _ _ _) in *.
  assert (jwf (S r4)) as Hwf4 by (rewrite E4, E3, E1; by do 2 apply jwf_jset).
  assert (∀ r', evolves (S r4) (S r') → post r') as Hpost.
  { intros r' He st1 Hst1. right. exists ack. split; [|done].
    destruct (He Hwf4) as [_ Hf]. apply Hf in Hst1 as (st' & Hst' & Ha).
    rewrite E4, jget_jset_eq in Hst'. injection Hst' as <-. by apply Ha. }
  eapply wp_mono with (Q := λ _ r', evolves (S r4) (S r')) (R := λ r', evolves (S r4) (S r'));
    [|intros [] r'; apply Hpost|exact Hpost].
  apply evo_bind; [apply stays_send|done|]. intros _ r5 E5.
  apply evo_bind; [apply stays_deliver|by rewrite E5|]. intros _ r6 E6.
  assert (evolves (S r4) (S r6)) as He6 by (by rewrite E6, E5).
  destruct (directory env) as [dir|]; [|by apply wp_ret]. case_match; [by apply evo_seal|by apply wp_ret].
Qed.

(** What was accepted of a submit that grew the log. *)
Definition grown (st : session) (who : string) (f : HashSubmit) (st1 : session) : Prop :=
  leaf_log st1 = leaf_log st ∨
  ∃ d k ack, submitted env st who f d ∧ LEAF_KINDS (hs_leaf_kind f) = Some k ∧
    check_acknowledgement st (d_fields d) = Ok tt ∧
    jget (issued_acks (extras st1)) (submission_key who (d_fields d)) = Some ack ∧
    ack_sequence_number ack = (seq_counter st + 1)%Z.

Lemma locked_grown who f r st :
  always_signs → jwf (S r) → jget (S r) (hex (hs_session_id f)) = Some st →
  let post r' := ∀ st1, jget (S r') (hex (hs_session_id f)) = Some st1 → grown st who f st1 in
  wp (processHashSubmitLocked env who f (hex (hs_session_id f))) r (λ _, post) post.
Proof.
  intros Hsig Hwf Hg post.
  assert (∀ r', S r' = S r → post r') as Hsame.
  { intros r' E st1. rewrite E, Hg. intros [= <-]. by left. }
  apply locked_rule; [exact Hsame..|]. intros st' d k r1 Hg' Hsub Hk E1.
  rewrite Hg in Hg'. injection Hg' as <-. apply links_rule.
  - intros r' E. apply Hsame. congruence.
  - intros r' E. apply Hsame. congruence.
  - intros r' now E. assert (post r'); [|done]. intros st1. rewrite E, jget_jset_eq. intros [= <-]. by left.
  - intros Hack _ _. rewrite <- E1 in Hwf, Hg.
    eapply wp_mono; [by apply admit_acked| |]; [intros [] r' Ha st1 Hst1|intros r' Ha st1 Hst1];
      (destruct (Ha st1 Hst1) as [?|(ack & ? & ?)]; [by left|right; by exists d, k, ack]).
Qed.

(** A submit by its author that passes every check before its links, and carries no
    predecessor: its links are checked. *)
Lemma submitted_runs st who f d k r :
  jget (S r) (hex (hs_session_id f)) = Some st → submitted env st who f d →
  LEAF_KINDS (hs_leaf_kind f) = Some k → predecessor_relay_id f = None → who = hex (d_sender_pubkey d) →
  processHashSubmitLocked env who f (hex (hs_session_id f)) r =
  check_links env st (hex (hs_session_id f)) who f d k r.
Proof.
  intros Hg [Ha Hw Hd Hs Hwit _ _ Hwho] Hk Hp ->. unfold processHashSubmitLocked.
  unfold mbind at 1, act_bind, get_session, gets, getSession. rewrite Hg.
  rewrite (proj2 (session_gate_ok st)) by done. rewrite Hd, Hs, bool_decide_eq_true_2 by done. cbn [negb]. cbv zeta.
  rewrite Hwit, (bool_decide_eq_true_2 (_ ∨ _)) by done. cbn [negb].
  unfold check_predecessor. rewrite Hp. unfold mbind at 1, act_bind, mret, act_ret. cbn [negb].
  unfold check_author. rewrite Hk. cbv zeta. rewrite bool_decide_eq_true_2 by done. cbn [negb].
  unfold counter_submit. rewrite bool_decide_eq_true_2 by done. done.
Qed.

Lemma advance_submitted st st' who f d :
  advance st st' → submitted env st who f d → status st' = active → awaiting_replay (extras st') = false →
  submitted env st' who f d.
Proof.
  intros [Ea _ _ _ _] [] Ha Hw. unfold a_hex, b_hex in *. by split; rewrite ?Ea; unfold a_hex, b_hex; rewrite ?Ea.
Qed.

(** What a leaf acknowledges stays acknowledged as the log grows. *)
Lemma advance_acknowledgement st st' f :
  advance st st' → seq_counter st = Z.of_nat (length (leaf_log st)) →
  seq_counter st' = Z.of_nat (length (leaf_log st')) →
  check_acknowledgement st f = Ok tt → check_acknowledgement st' f = Ok tt.
Proof.
  intros [_ Eg Hlog _ _] Hc Hc' [Hseen Hex]%check_acknowledgement_ok. unfold check_acknowledgement.
  pose proof (prefix_length _ _ Hlog).
  rewrite (js_gtb_mono _ (seq_counter st)) by (done || lia).
  assert (expected_ack st' (s1_last_seen_seq f) = Some (s1_last_seen_hash f)) as ->.
  { rewrite <- Hex. unfold expected_ack in *. destruct (s1_last_seen_seq f) as [n| | | |]; try done.
    rewrite Eg. destruct (n =? 0)%Z; [done|]. destruct (n <? 0)%Z; [done|].
    apply fmap_Some in Hex as (l & Hl & _). rewrite Hl. by rewrite (prefix_lookup_Some _ _ _ _ Hl Hlog). }
  by rewrite bool_decide_eq_true_2.
Qed.

(** * Actions that never throw *)

Lemma total_now : total (date_now env).
Proof. intros r. unfold date_now. eauto. Qed.

Lemma total_send to f : total (sendFrame env to f).
Proof. intros r. unfold sendFrame. cbv zeta. destruct (fate_of env (tick r)); eauto. Qed.

Lemma total_sign tbs : total (sign env tbs).
Proof. intros r. unfold sign. destruct (ackSigningKeyProvider env), (relayId env); eauto. Qed.
#[local] Hint Resolve total_now total_send total_sign : total.

Lemma total_alert who a : total (deliver_alert env who a).
Proof. unfold deliver_alert. total. Qed.

Lemma total_make sid reason b : total (make_alert env sid reason b).
Proof. unfold make_alert. total. Qed.
#[local] Hint Resolve total_alert total_make : total.

Lemma total_emit sid who reason b : total (emitWitnessAlertTo env sid who reason b).
Proof. unfold emitWitnessAlertTo. total. Qed.
#[local] Hint Resolve total_emit : total.

Lemma total_self_chain sid who st : total (emitSelfChainAlert env sid who st).
Proof. unfold emitSelfChainAlert. total. Qed.

Lemma total_reply to e d : total (reply env to e d).
Proof. unfold reply. total. Qed.

Lemma total_set key st : total (set_session env key st).
Proof. unfold set_session. total. Qed.

Lemma total_deliver st who d : total (deliver_leaf env st who d).
Proof. unfold deliver_leaf. cbv zeta. total. Qed.

Lemma total_counter st sid h who signer : total (counter_submit env st sid h who signer).
Proof. unfold counter_submit. total. Qed.

(** A step that neither throws nor touches the sessions. *)
Lemma wp_calm {A B} (m : M A) (k : A → M B) r Q R :
  stays m → total m → (∀ a r', S r' = S r → wp (k a) r' Q R) → wp (m ≫= k) r Q R.
Proof.
  intros Hs Ht Hk. apply wp_bind. apply (wp_total _ _ _ (λ r', S r' = S r)); [done|].
  eapply wp_mono; [apply Hs|exact Hk|done].
Qed.

End Evolution.
End RelaySessionEvolution.
