(* ===== verification/RelaySessionTheorems.v ===== *)
(** What the relay's sessions promise, and the runs in which they do not: the
    invariant of the log and the verdict of the directory on it, how sessions
    change, retransmissions, seals, and the two submits that lose a session. *)
From S2P Require Import Prelude Text JsMap Effects Wire Relay SealChain Merkle.
From S2P Require Import SealChainTheorems RelaySession RelaySessionInvariant.
Import Text JsMap Effects Wire Relay SealChain Merkle SealChainTheorems.
Import RelaySession RelaySessionInvariant RelaySessionEvolution.

Module RelaySessionTheorems.

Section Theorems.
Context (env : RelayEnv).

Abbreviation S r := (sessions (store r)).

Lemma from_start (links : Prop) inputs :
  builds_structure2 env → (links → Forall (author_input env) inputs) → inv env links (run env initial inputs).
Proof. intros Hb Ha. apply run_inv; [done|apply initial_inv|done]. Qed.

Lemma from_start_ok (links : Prop) inputs k st :
  builds_structure2 env → (links → Forall (author_input env) inputs) →
  jget (S (run env initial inputs)) k = Some st → session_ok env links st.
Proof. intros Hb Ha Hg. by apply (ss_ok _ _ _ (from_start links inputs Hb Ha) k). Qed.

(** C34. The invariant of a relay session.  After any inputs, a session is kept under the
    id of its assignment, its counter is the number of its leaves, its stack and
    running root are the RFC 6962 tree over them, and every leaf is numbered one more
    than the leaves before it, stores their root, was signed by one of the two
    participants for this session, carries the signed content hash, and acknowledges
    no position that is not there; when every submit was made by the author of its
    leaf, each leaf also names its author's previous leaf. *)
Theorem relay_session_invariant inputs k st :
  builds_structure2 env →
  jget (S (run env initial inputs)) k = Some st →
  k = hex (session_id (assignment st)) ∧ session_ok env (Forall (author_input env) inputs) st.
Proof.
  intros Hb Hg.
  split; [|by apply (from_start_ok _ inputs k)].
  by apply (ss_key _ _ _ (from_start (Forall (author_input env) inputs) inputs Hb id)).
Qed.

(** ** The verdict of a directory *)

Abbreviation decodeS1 := (decodeStructure1Fields (cborDecode env)).
Abbreviation valid := (leaf_valid (verify env) (cborDecode env) (encodeStructure2 env) (leaf_hasher env) (nodeHash env)).
Abbreviation lhash := (leaf_hash (encodeStructure2 env) (leaf_hasher env)).
Abbreviation step := (chain_step (verify env) (cborDecode env) (encodeStructure2 env) (leaf_hasher env) (nodeHash env)).
Abbreviation loop := (chain_loop (verify env) (cborDecode env) (encodeStructure2 env) (leaf_hasher env) (nodeHash env)).

Lemma in_order_valid links st before l f :
  in_order env links st before l f → links → has_seen before (sender l) (s1_last_seen_seq f) → valid before l f.
Proof. intros [] Hl Hs. split; try done. auto. Qed.

Lemma step_unseen links st before c l f :
  loop_inv (encodeStructure2 env) (leaf_hasher env) (nodeHash env) before c →
  (before = [] → c_runningRoot c = prev_root (s2 l)) →
  in_order env links st before l f → ¬ has_seen before (sender l) (s1_last_seen_seq f) →
  step before c l = Err CAUSAL_ORDER_VIOLATION.
Proof.
  intros Hi H0 [Hv Hd Hc _ _ _ Hp _ _] Hs. unfold chain_step. change (sender_pubkey (s2 l)) with (sender l).
  rewrite Hv, Hd, Hc, bool_decide_eq_true_2 by done. cbn [negb].
  rewrite bool_decide_eq_true_2; cbn [negb].
  - rewrite <- effectiveSeen_spec, not_false_iff_true in Hs. by rewrite Hs.
  - destruct before as [|x before]; [by rewrite H0|].
    rewrite (li_root _ _ _ _ _ Hi) by done. by apply Hp.
Qed.

(** A leaf that acknowledges what its sender has not been sent. *)
Definition unseen (log : list RelaySealLeaf) : Prop :=
  ∃ before l after f, log = before ++ l :: after ∧ decodeS1 (structure1_cbor l) = Some f ∧
    ¬ has_seen before (sender l) (s1_last_seen_seq f).

Lemma loop_cases (links : Prop) st before c leaves :
  links → loop_inv (encodeStructure2 env) (leaf_hasher env) (nodeHash env) before c →
  (before = [] → c_runningRoot c = initial_root leaves) →
  (∀ b l a, leaves = b ++ l :: a → ∃ f, in_order env links st (before ++ b) l f) →
  (∃ c', loop before c leaves = Ok c') ∨
  (loop before c leaves = Err CAUSAL_ORDER_VIOLATION ∧ unseen (before ++ leaves)).
Proof.
  intros Hl. revert before c. induction leaves as [|l leaves IH]; intros before c Hi H0 Hall; [left; by eexists|].
  cbn [chain_loop]. destruct (Hall [] l leaves eq_refl) as [f Hf]. rewrite app_nil_r in Hf.
  assert (before = [] → c_runningRoot c = prev_root (s2 l)) as H1 by done.
  destruct (js_gtb (s1_last_seen_seq f) (effectiveSeen before (hex (sender l)))) eqn:Es.
  - assert (¬ has_seen before (sender l) (s1_last_seen_seq f)) as Hn by (rewrite <- effectiveSeen_spec; congruence).
    right. rewrite (step_unseen links st before c l f) by done. split; [done|].
    exists before, l, leaves, f. split; [done|]. split; [apply Hf|done].
  - apply effectiveSeen_spec in Es. pose proof (in_order_valid _ _ _ _ _ Hf Hl Es) as Hv.
    assert (step before c l = Ok (next_state (encodeStructure2 env) (leaf_hasher env) (nodeHash env) c l f)) as ->
      by (apply chain_step_spec; eauto).
    cbn [mbind result_bind]. replace (before ++ l :: leaves) with ((before ++ [l]) ++ leaves) by (by rewrite <- app_assoc).
    apply IH; [apply loop_inv_next; [done|apply Hv]|by destruct before|].
    intros b l' a ->. destruct (Hall (l :: b) l' a eq_refl) as [f' Hf']. exists f'. by rewrite <- app_assoc.
Qed.

Lemma session_provenance links st :
  session_ok env links st →
  provenance_loop (cborDecode env) (leaf_log st) (session_id (assignment st))
    (Some (participant_a (assignment st), participant_b (assignment st))) = Ok tt.
Proof.
  intros Hst. apply provenance_loop_spec, Forall_forall. intros l Hl.
  apply list_elem_of_split in Hl as (before & after & E). destruct (so_leaves _ _ _ Hst before l after E) as [f []].
  split; [done|]. by exists f.
Qed.

(** C33. A directory's verdict on what the relay ordered.  When every submit was made by
    the author of its leaf, the chain verifier accepts the log of any session, under
    the root over its content hashes, or it refuses it with CAUSAL_ORDER_VIOLATION, and
    then some leaf acknowledges a position its sender had not been sent: the relay
    never orders a log that fails the verifier in any other way. *)
Theorem relay_chain_verdict inputs k st :
  builds_structure2 env → Forall (author_input env) inputs →
  jget (S (run env initial inputs)) k = Some st →
  let root := hash_tree_root env (map (λ l, content_hash (s2 l)) (leaf_log st)) in
  let verdict := verifySealLeafChain (verify env) (cborDecode env) (encodeStructure2 env) (leaf_hasher env)
    (nodeHash env) (hash_tree_root env) (leaf_log st) root (session_id (assignment st))
    (participant_a (assignment st), participant_b (assignment st)) in
  verdict = Ok root ∨ (verdict = Err CAUSAL_ORDER_VIOLATION ∧ unseen (leaf_log st)).
Proof.
  intros Hb Ha Hg root. assert (session_ok env True st) as Hst.
  { by apply (from_start_ok True inputs k). }
  unfold verifySealLeafChain. fold root. rewrite bool_decide_eq_true_2 by done. cbn [negb].
  destruct (loop_cases True st [] (mkChain [] (initial_root (leaf_log st)) []) (leaf_log st))
    as [[c Hc]|[Hc Hu]]; [done|apply loop_inv_init|done|apply Hst| |].
  - left. rewrite Hc. cbn [mbind result_bind]. unfold verifyLeafProvenance.
    by rewrite (session_provenance True st Hst).
  - right. by rewrite Hc.
Qed.

(** ** How sessions change *)

(** How a session changes.  Whatever the input, a session there is afterwards either
    comes from the one that was there under the same key, with the same assignment and
    genesis root, a log and acks that only grew, and, when it was not active, with its
    status and log as they were; or it was recorded by this input under a free key
    for an assignment that a directory of the relay signed, active, empty, and waiting
    for its history exactly when it resumes a conversation of another relay. *)
Theorem session_evolution inputs i k st' :
  builds_structure2 env →
  let m := S (run env initial inputs) in
  jget (S (run_input env (run env initial inputs) i)) k = Some st' →
  (∃ st, jget m k = Some st ∧ advance st st') ∨
  (∃ who a, i = Assign who a ∧ k = hex (session_id a) ∧ jget m k = None ∧ assigned_session env a st').
Proof.
  intros Hb m Hk.
  assert (jwf m) as Hwf by exact (ss_wf _ _ _ (from_start False inputs Hb (False_ind _))).
  destruct i as [who a|who peer f|who f|sid|maxIdle|who].
  1: { destruct (wp_final _ _ (λ r', assigned env a m (S r')) (asg_frame env who a _) k st' Hk) as [Hst|(-> & Hn & Ha)].
    - left. by exists st'.
    - right. by exists who, a. }
  all: left; (match goal with H : jget (S (run_input _ _ ?i)) _ = _ |- _ =>
    destruct (evolves_input env (run env initial inputs) i Hwf (λ H, H) Hwf) as [_ Hf] end); by apply Hf.
Qed.

(** ** Seals *)

(** The outcome of a seal.  Nothing changes unless the session is active, is not
    waiting for its history, and has control leaves of two distinct senders.  Then it
    is sealing while its directory is asked, with the leaves, their count and root,
    and afterwards: destroyed when the directory sealed it, still sealing when the
    outcome is unknown or the call failed, active again when the directory could not
    be reached, rejected with the reason otherwise.  No other session changes. *)
Theorem seal_outcome d sid r :
  jwf (S r) →
  let '(r', out) := maybeProcessSeal env d sid (hex sid) r in
  match out with
  | Ok _ => seal_post env d sid r r'
  | Err _ => seal_thrown sid r r'
  end.
Proof.
  intros Hwf. pose proof (seal_cases env d sid r Hwf) as H. unfold wp in H.
  by destruct (maybeProcessSeal _ _ _ _ _) as [r' [[]|e]].
Qed.

(** What is handed over for a seal.  A session hands over exactly its leaves, their
    number and the running root that its leaves store, which is the RFC 6962 tree over
    them, and only while it is active and not waiting for its history; it is sealing
    afterwards, and is not handed over twice. *)
Theorem seal_hands_over_running_root inputs sid r' data :
  builds_structure2 env →
  (∀ leaves, leaves ≠ [] → merkle_tree_root env leaves = mth (nodeHash env) (map (λ e, leaf_hasher env e.1 e.2) leaves)) →
  submitForSeal env sid (run env initial inputs) = (r', Ok (Ok data)) →
  ∃ st, jget (S (run env initial inputs)) (hex sid) = Some st ∧ status st = active ∧
    awaiting_replay (extras st) = false ∧
    sd_leaves data = leaf_log st ∧ sd_seq_count data = Z.of_nat (length (leaf_log st)) ∧
    (leaf_log st ≠ [] → sd_merkle_root data = running_root st ∧
                        running_root st = mth (nodeHash env) (map lhash (leaf_log st))) ∧
    status <$> jget (S r') (hex sid) = Some sealing ∧
    submitForSeal env sid r' = (r', Ok (Err "session_not_active")).
Proof.
  intros Hb Hroot. set (r := run env initial inputs).
  unfold submitForSeal at 1. cbv zeta. unfold mbind at 1, act_bind, get_session, gets, getSession.
  destruct (jget (S r) (hex sid)) as [st|] eqn:Eg; [|done].
  assert (session_ok env False st) as Hst.
  { by apply (from_start_ok False inputs (hex sid)). }
  destruct (negb (bool_decide (status st = active))) eqn:Ea; bools; [done|].
  destruct (awaiting_replay (extras st)) eqn:Ew; [done|].
  unfold mbind, act_bind, set_session, date_now, modify. cbn [mbind act_bind].
  intros [= <- <-]. exists st.
  assert (jget (S (with_store (with_tick r (Datatypes.S (tick r)))
            (setSession (store r) (hex sid) (set_status st sealing) (clock env (tick r))))) (hex sid) =
          Some (touch (set_status st sealing) (clock env (tick r)))) as Eg'.
  { cbn. apply jget_jset_eq. }
  split_and!; try done; [apply Hst| |by rewrite Eg'|].
  - intros Hne. pose proof (so_root _ _ _ Hst) as Hr. split; [|rewrite Hr; by destruct (leaf_log st)].
    cbn. rewrite Hroot by (by destruct (leaf_log st)). rewrite map_map. rewrite Hr. by destruct (leaf_log st).
  - unfold submitForSeal. cbv zeta. unfold mbind at 1, act_bind, get_session, gets, getSession. by rewrite Eg'.
Qed.

(** ** Retransmissions *)

Lemma retransmit st who f d k ack r :
  jget (S r) (hex (hs_session_id f)) = Some st → submitted env st who f d →
  LEAF_KINDS (hs_leaf_kind f) = Some k → predecessor_relay_id f = None → who = hex (d_sender_pubkey d) →
  check_acknowledgement st (d_fields d) = Ok tt →
  jget (issued_acks (extras st)) (submission_key who (d_fields d)) = Some ack →
  processHashSubmitLocked env who f (hex (hs_session_id f)) r =
  (_ ← sendFrame env who (FSubmitAck ack); mret tt) r.
Proof.
  intros Hg Hsub Hk Hp Hwho Hack Hj. rewrite (submitted_runs env st who f d k) by done.
  unfold check_links. cbv zeta. by rewrite Hack, Hj.
Qed.

(** A retransmission is answered with the ack that was recorded.  Suppose a submit by
    the author of its leaf, carrying no predecessor, grew the log of a session of the
    relay, and the relay signs every ack when it has a key.  Then, whatever
    inputs but assignments follow, as long as the session is there and active, handling
    the same submit again sends its submitter the ack with the leaf's number, does
    nothing else, and leaves every session as it is. *)
Theorem retransmission_is_acknowledged inputs inputs2 who f r1 out st st1 st2 :
  let key := hex (hs_session_id f) in
  let r := run env initial inputs in
  let r2 := run env r1 inputs2 in
  builds_structure2 env → always_signs env → by_author env who f → predecessor_relay_id f = None →
  jget (S r) key = Some st → processHashSubmitLocked env who f key r = (r1, out) →
  jget (S r1) key = Some st1 → leaf_log st1 ≠ leaf_log st →
  Forall (λ i, ¬ is_assign i) inputs2 → jget (S r2) key = Some st2 → status st2 = active →
  awaiting_replay (extras st2) = false →
  ∃ ack, ack_sequence_number ack = (seq_counter st + 1)%Z ∧
    processHashSubmitLocked env who f key r2 = (_ ← sendFrame env who (FSubmitAck ack); mret tt) r2 ∧
    S (processHashSubmitLocked env who f key r2).1 = S r2.
Proof.
  intros key r r2 Hb Hsig Hau Hp Hg Hrun Hg1 Hne Hin2 Hg2 Ha2 Hw2.
  pose proof (from_start False inputs Hb (False_ind _)) as Hinv. fold r in Hinv.
  pose proof (ss_wf _ _ _ Hinv) as Hwf.
  pose proof (locked_grown env who f r st Hsig Hwf Hg) as H.
  pose proof (wp_final _ _ (inv env False) (keeps_locked env False Hb who f key r Hinv eq_refl (False_ind _))) as Hinv1.
  pose proof (wp_final _ _ (λ r', evolves (S r) (S r')) (evo_locked env who f r Hwf)) as He.
  fold key in He. rewrite Hrun in He, Hinv1. cbn [fst] in He, Hinv1.
  pose proof (run_inv env False Hb r1 inputs2 Hinv1 (False_ind _)) as Hinv2. fold r2 in Hinv2.
  pose proof (evolves_run env r1 inputs2 (ss_wf _ _ _ Hinv1) Hin2) as He2. fold r2 in He2.
  assert (grown env st who f st1) as [?|(d & k & ack & Hsub & Hk & Hack & Hj & Hn)].
  { revert H. unfold wp. fold key. rewrite Hrun. by destruct out; intros H; apply H. }
  { done. }
  assert (∀ m m' s', evolves m m' → jwf m → jget m' key = Some s' → ∀ s0, jget m key = Some s0 → advance s0 s') as Hadv.
  { intros m m' s' Hev Hm Hs' s0 Hs0. destruct (Hev Hm) as [_ Hf]. destruct (Hf key s' Hs') as (s0' & Hs0' & Ha).
    rewrite Hs0 in Hs0'. by injection Hs0' as <-. }
  pose proof (Hadv _ _ _ He2 (ss_wf _ _ _ Hinv1) Hg2 _ Hg1) as Hav.
  assert (advance st st2) as Hav0 by (etrans; [exact (Hadv _ _ _ He Hwf Hg1 _ Hg)|exact Hav]).
  pose proof (ss_ok _ _ _ Hinv key st Hg) as Hst. pose proof (ss_ok _ _ _ Hinv2 key st2 Hg2) as Hst2.
  assert (processHashSubmitLocked env who f key r2 = (_ ← sendFrame env who (FSubmitAck ack); mret tt) r2) as E.
  { apply (retransmit st2 who f d k); [done|by apply (advance_submitted env st)|done|done| | |].
    - apply Hau, Hsub.
    - apply (advance_acknowledgement st); [done|apply (so_count _ _ _ Hst)|apply (so_count _ _ _ Hst2)|done].
    - by apply Hav. }
  exists ack. split; [done|]. split; [done|]. rewrite E.
  apply (wp_final _ _ (λ r', S r' = S r2)), stays_bind; [apply stays_send|done].
Qed.

(** ** Two submits that lose a session *)

(** The session is lost to its participants, with the leaves it had. *)
Definition lost (key : string) (log : list RelaySealLeaf) (r : relay) : Prop :=
  ∃ st, jget (S r) key = Some st ∧ status st = diverged ∧ leaf_log st = log.

Lemma links_broken st skey who f d k r R :
  check_acknowledgement st (d_fields d) = Ok tt →
  jget (issued_acks (extras st)) (submission_key who (d_fields d)) = None →
  s1_prev_own_hash (d_fields d) ≠ expected_own st who →
  wp (check_links env st skey who f d k) r (λ _, lost skey (leaf_log st)) R.
Proof.
  intros Hack Hj Hown. unfold check_links. cbv zeta. rewrite Hack, Hj, bool_decide_eq_false_2 by done. cbn [negb].
  apply wp_calm; [apply stays_self_chain|apply total_self_chain|]. intros _ r1 _.
  apply wp_bind, wp_set. intros r2 now E2.
  apply (wp_total _ _ _ (λ r', S r' = S r2)); [apply total_reply|].
  eapply wp_mono; [apply stays_reply| |done]. intros [] r3 E3. eexists. split; [|split].
  - rewrite E3, E2. apply jget_jset_eq.
  - done.
  - done.
Qed.

Lemma links_admit st skey who f d k r :
  check_acknowledgement st (d_fields d) = Ok tt →
  jget (issued_acks (extras st)) (submission_key who (d_fields d)) = None →
  s1_prev_own_hash (d_fields d) = expected_own st who →
  check_links env st skey who f d k r = admit_leaf env st skey who f d k r.
Proof. intros Hack Hj Hown. unfold check_links. cbv zeta. by rewrite Hack, Hj, bool_decide_eq_true_2. Qed.

Lemma wp_ok {A} (m : M A) r Q : wp m r Q (λ _, False) → ∃ r' a, m r = (r', Ok a) ∧ Q a r'.
Proof. unfold wp. destruct (m r) as [r' [a|e]]; [|done]. intros H. by exists r', a. Qed.

Lemma counter_runs st who f d k r Q R :
  jget (S r) (hex (hs_session_id f)) = Some st → submitted env st who f d →
  LEAF_KINDS (hs_leaf_kind f) = Some k → predecessor_relay_id f = None → who ≠ hex (d_sender_pubkey d) →
  (∀ l, l ∈ leaf_log st → content_hash (s2 l) ≠ s1_content_hash (d_fields d)) →
  (∀ r', S r' = S r → wp (check_links env st (hex (hs_session_id f)) who f d k) r' Q R) →
  wp (processHashSubmitLocked env who f (hex (hs_session_id f))) r Q R.
Proof.
  intros Hg [Ha Hw Hd Hs Hwit _ _ Hwho] Hk Hp Hne Hnew HL. unfold processHashSubmitLocked.
  apply wp_bind, wp_gets. unfold getSession. rewrite Hg.
  rewrite (proj2 (session_gate_ok st)) by done. rewrite Hd, Hs, bool_decide_eq_true_2 by done. cbn [negb]. cbv zeta.
  rewrite Hwit, (bool_decide_eq_true_2 (_ ∨ _)) by done. cbn [negb].
  unfold check_predecessor. rewrite Hp. apply wp_bind, wp_ret. cbn [negb].
  unfold check_author. rewrite Hk. cbv zeta. rewrite bool_decide_eq_true_2 by done. cbn [negb].
  unfold counter_submit. rewrite bool_decide_eq_false_2 by done.
  assert (existsb (λ l, bool_decide (hex (sender_pubkey (s2 l)) = hex (d_sender_pubkey d) ∧
            content_hash (s2 l) = s1_content_hash (d_fields d))) (leaf_log st) = false) as ->.
  { apply not_true_iff_false. intros (l & Hl & E)%existsb_exists. bools.
    apply (Hnew l); [by apply list_elem_of_In|apply E]. }
  apply wp_bind, wp_calm.
  - apply stays_for_each. intros x. apply stays_emit.
  - apply total_for_each. intros x. apply total_emit.
  - intros _ r' E. by apply wp_ret, HL.
Qed.

(** A handed-over leaf is checked against the wrong chain.  When a participant hands
    over a fresh leaf of the other one, and the leaf correctly links to the previous
    leaf of its author but not to that of the participant handing it over, the relay
    marks the session diverged and orders nothing. *)
Theorem handed_over_leaf_loses_session st who f d k r :
  jget (S r) (hex (hs_session_id f)) = Some st → submitted env st who f d →
  LEAF_KINDS (hs_leaf_kind f) = Some k → predecessor_relay_id f = None → who ≠ hex (d_sender_pubkey d) →
  (∀ l, l ∈ leaf_log st → content_hash (s2 l) ≠ s1_content_hash (d_fields d)) →
  check_acknowledgement st (d_fields d) = Ok tt →
  jget (issued_acks (extras st)) (submission_key who (d_fields d)) = None →
  s1_prev_own_hash (d_fields d) = expected_own st (hex (d_sender_pubkey d)) →
  expected_own st (hex (d_sender_pubkey d)) ≠ expected_own st who →
  ∃ r', processHashSubmitLocked env who f (hex (hs_session_id f)) r = (r', Ok tt) ∧
    lost (hex (hs_session_id f)) (leaf_log st) r'.
Proof.
  intros Hg Hsub Hk Hp Hne Hnew Hack Hj Hlink Hother.
  destruct (wp_ok _ r _ (counter_runs st who f d k r (λ _, lost (hex (hs_session_id f)) (leaf_log st)) (λ _, False)
    Hg Hsub Hk Hp Hne Hnew (λ r1 _, links_broken st _ who f d k r1 _ Hack Hj ltac:(congruence))))
    as (r' & [] & E & Hl). by exists r'.
Qed.

(** A relay whose acks are all unsigned although it has a key. *)
Definition never_signs : Prop :=
  ∃ provider, ackSigningKeyProvider env = Some provider ∧ (relayId env = None ∨ ∀ t tbs, provider t tbs = None).

Lemma admit_unsigned st skey who f d k s r R :
  never_signs → k ≠ ctrl →
  buildStructure2 env (seq_counter st + 1) (d_sender_pubkey d) (s1_content_hash (d_fields d))
    (hs_sender_signature f) (running_root st) = Some s →
  wp (admit_leaf env st skey who f d k) r
    (λ _ r', ∃ now, S r' = jset (S r) skey (touch (append_leaf env st k s f) now)) R.
Proof.
  intros (provider & Hp & Hn) Hk Hb. unfold admit_leaf. cbv zeta. rewrite Hb.
  apply wp_bind, wp_set. intros r1 now E1.
  apply wp_calm; [apply stays_now|apply total_now|]. intros ts r2 E2.
  apply wp_bind. apply (wp_total _ _ _ (λ _, False)); [apply total_sign|].
  assert (∃ r3, sign env (buildRelayAckTbs env (s1_content_hash (d_fields d)) (seq_counter st + 1) (JInt ts)) r2 =
            (r3, Ok None) ∧ S r3 = S r2) as (r3 & Es & E3).
  { unfold sign. rewrite Hp. destruct Hn as [->|Hn]; [by eexists|]. destruct (relayId env); [|by eexists].
    rewrite Hn. by eexists. }
  unfold wp at 1. rewrite Es.
  unfold record_ack. rewrite Hp. rewrite !bool_decide_eq_false_2 by (cbn; first [done|by intros [? ?]]). cbn [orb].
  apply wp_bind, wp_ret.
  apply wp_calm; [apply stays_send|apply total_send|]. intros _ r4 E4.
  apply wp_calm; [apply stays_deliver|apply total_deliver|]. intros _ r5 E5.
  assert (S r5 = jset (S r) skey (touch (append_leaf env st k s f) now)) as E by congruence.
  destruct (directory env); apply wp_ret; by exists now.
Qed.

(** An unsigned ack loses the session on the retransmission.  When the relay has a
    key but its signature fails, it orders an honest leaf and answers with an unsigned
    ack that it does not record; the same submit, sent again, is then taken for a broken
    link, although its link and its acknowledgement are as honest as before, and the
    session is marked diverged. *)
Theorem unsigned_ack_loses_session inputs st who f d k s :
  let key := hex (hs_session_id f) in
  let r := run env initial inputs in
  builds_structure2 env → never_signs → jget (S r) key = Some st → submitted env st who f d →
  LEAF_KINDS (hs_leaf_kind f) = Some k → k ≠ ctrl → predecessor_relay_id f = None →
  who = hex (d_sender_pubkey d) → check_acknowledgement st (d_fields d) = Ok tt →
  jget (issued_acks (extras st)) (submission_key who (d_fields d)) = None →
  s1_prev_own_hash (d_fields d) = expected_own st who →
  s1_prev_own_hash (d_fields d) ≠ s1_content_hash (d_fields d) →
  buildStructure2 env (seq_counter st + 1) (d_sender_pubkey d) (s1_content_hash (d_fields d))
    (hs_sender_signature f) (running_root st) = Some s →
  ∃ r1 r2 st1, processHashSubmitLocked env who f key r = (r1, Ok tt) ∧
    jget (S r1) key = Some st1 ∧ status st1 = active ∧ length (leaf_log st1) = Datatypes.S (length (leaf_log st)) ∧
    processHashSubmitLocked env who f key r1 = (r2, Ok tt) ∧ lost key (leaf_log st1) r2.
Proof.
  intros key r Hb Hsig Hg Hsub Hk Hctrl Hp Hwho Hack Hj Hlink Hne Hs.
  pose proof (from_start_ok False inputs key st Hb (False_ind _) Hg) as Hst.
  pose proof (admit_unsigned st key who f d k s r (λ _, False) Hsig Hctrl Hs) as H1.
  apply wp_ok in H1 as (r1 & [] & H1 & now & E1).
  rewrite <- (links_admit st key who f d k r) in H1 by done.
  unfold key in H1. rewrite <- (submitted_runs env st who f d k r) in H1 by done.
  set (st1 := touch (append_leaf env st k s f) now) in *.
  assert (jget (S r1) key = Some st1) as Hg1 by (by rewrite E1, jget_jset_eq).
  assert (advance st st1) as Ha.
  { apply advance_active; [apply Hsub|done|done|by eexists|done]. }
  assert (submitted env st1 who f d) as Hsub1 by (apply (advance_submitted env st); [done..|apply Hsub|apply Hsub]).
  assert (length (leaf_log st1) = Datatypes.S (length (leaf_log st))) as Hlen.
  { cbn. rewrite length_app. cbn. lia. }
  assert (check_acknowledgement st1 (d_fields d) = Ok tt) as Hack1.
  { apply (advance_acknowledgement st); [done|apply (so_count _ _ _ Hst)| |done].
    rewrite Hlen. cbn. rewrite (so_count _ _ _ Hst). lia. }
  assert (expected_own st1 who = s1_content_hash (d_fields d)) as Hown1.
  { rewrite Hwho, expected_own_spec. apply Hb in Hs as ->. cbn [leaf_log st1 touch append_leaf set_log].
    rewrite previous_own_app, decide_True by done. done. }
  pose proof (links_broken st1 key who f d k r1 (λ _, False) Hack1 Hj) as H2.
  rewrite Hown1 in H2. specialize (H2 Hne). apply wp_ok in H2 as (r2 & [] & H2 & Hlost).
  unfold key in H2. rewrite <- (submitted_runs env st1 who f d k r1) in H2 by done.
  exists r1, r2, st1. split_and!; try done. apply Hsub.
Qed.

End Theorems.
End RelaySessionTheorems.
