(* ===== verification/RelaySessionDemo.v ===== *)
(** A relay on concrete functions: two participants exchange leaves, one leaf is sent
    again, one is handed over, a session is sealed.  The theorems about sessions at
    these runs. *)
From S2P Require Import Prelude Text JsMap Effects Wire Relay SealChain Merkle.
From S2P Require Import SealChainTheorems RelaySession RelaySessionInvariant.
From S2P Require Import RelaySessionTheorems.
Import Text JsMap Effects Wire Relay SealChain Merkle SealChainTheorems.
Import RelaySession RelaySessionInvariant RelaySessionEvolution RelaySessionTheorems.

Module RelaySessionDemo.

(** * The parties and their leaves *)

Definition pad (n : nat) (s : string) : bytes := sjoin (replicate n s).

Definition alice : bytes := pad 32 "A".
Definition bob : bytes := pad 32 "B".
Definition sid : bytes := pad 16 "s".
Definition genesis : bytes := pad 32 "g".
Definition h (s : string) : bytes := pad 32 s.
Definition relay_hex : string := pad 32 "0a".

Definition s1 (pk : bytes) (content : bytes) (seen : Z) (ack own : bytes) : jsval :=
  VArr [VNum (JInt 3); VBytes content; VBytes pk; VBytes sid; VNum (JInt seen); VNum (JInt 7);
        VBytes ack; VBytes own].

(** The signed bytes of each leaf, by name. *)
Definition decode (cbor : bytes) : option jsval :=
  jget [("a1", s1 alice (h "1") 0 genesis genesis);
        ("b1", s1 bob (h "2") 1 (h "1") genesis);
        ("a2", s1 alice (h "3") 2 (h "2") (h "1"));
        ("b2", s1 bob (h "4") 1 (h "1") (h "2"));
        ("a3", s1 alice (h "5") 2 (h "2") (h "1"));
        ("a2own", s1 alice (h "3") 1 (h "1") (h "1"));
        ("b3", s1 bob (h "6") 3 (h "5") (h "2"))] cbor.

Definition node (a b : bytes) : bytes := "(" +:+ a +:+ b +:+ ")".

Definition tree (leaves : list (leaf_kind * bytes)) : bytes :=
  default EmptyString (stack_root node (push_all node [] (map snd leaves))).

Definition answering (e : option SealRefusal) : DirectoryAdapter :=
  mkDirectory (λ _ _ _ _, Some (match e with Some e => Err e | None => Ok tt end)) None.

Definition demo (provider : option (nat → bytes → option bytes)) : RelayEnv := {|
  fate_of := λ _, Works;
  clock := Z.of_nat;
  verify := λ pk msg sig, bool_decide (sig = pk +:+ msg);
  cborDecode := decode;
  encodeCbor := λ _, "tbs";
  buildStructure2 := λ seq pk ch sig root, Some (mkS2 seq pk ch sig root);
  encodeStructure2 := content_hash;
  buildRelayAckTbs := λ ch _ _, ch;
  leaf_hasher := λ _ b, b;
  nodeHash := node;
  hash_tree_root := sjoin;
  merkle_tree_root := tree;
  sha256 := id;
  computeGenesisPrevRoot := λ _ _ _ _, genesis;
  directoryPubkeys := ["dir"];
  directoryEndpointsByPubkey := λ _, None;
  sessionCapPerPair := SESSION_CAP_PER_PAIR;
  hashSubmitRateLimit := DEFAULT_HASH_SUBMIT_RATE_LIMIT;
  relayId := Some relay_hex;
  ackSigningKeyProvider := provider;
  directory := Some (answering (Some (mkSealRefusal (Some unreachable) "down" None)));
|}.

Definition signing : RelayEnv := demo (Some (λ _ tbs, Some ("sig:" +:+ tbs))).
Definition failing : RelayEnv := demo (Some (λ _ _, None)).

Definition opened : input :=
  Assign (hex alice) (mkAssignment sid alice bob 5 "dirtbs" None None None None).

Definition frame_of (pk : bytes) (wire : Z) (name : string) : HashSubmit :=
  mkSubmit sid (JInt wire) name (pk +:+ name) None None None None None.

Definition says (pk : bytes) (wire : Z) (name : string) : input :=
  Submit (hex pk) None (frame_of pk wire name).

Definition key : string := hex sid.

Definition session_at (env : RelayEnv) (inputs : list input) : session :=
  default (mkSession (mkAssignment "" "" "" 0 "" None None None None) "" 0 [] diverged [] "" 0 no_extras)
    (jget (sessions (store (run env initial inputs))) key).

Definition talk : list input := [opened; says alice 0 "a1"; says bob 0 "b1"].

Example talk_log :
  map (λ l, (sequence_number (s2 l), content_hash (s2 l))) (leaf_log (session_at signing talk)) =
  [(1%Z, h "1"); (2%Z, h "2")].
Proof. vm_compute. reflexivity. Qed.

(** * The theorems at these runs *)

Lemma demo_builds p : builds_structure2 (demo p).
Proof. intros seq pk ch sig root s [= <-]. reflexivity. Qed.

Lemma demo_authors p inputs :
  Forall (λ i, match i with
    | Submit who _ f => ∀ l, decode (hs_structure1_cbor f) = Some (VArr l) →
        who = hex (default EmptyString (as_bytes (at_index l 2)))
    | _ => True end) inputs → Forall (author_input (demo p)) inputs.
Proof.
  intros H. eapply Forall_impl; [exact H|]. intros [| who peer f| | | |]; cbn beta iota; try done.
  intros Hf d Hd. unfold decodeStructure1 in Hd. cbn [cborDecode demo] in Hd.
  destruct (decode _) as [[]|]; try discriminate Hd. specialize (Hf l eq_refl). rewrite Hf.
  destruct (at_index l 0) as [| | |[z| | | |]| | | | |]; try discriminate Hd.
  destruct (decide (z = 3)%Z) as [->|Hz]; [|by repeat (case_match; try discriminate Hd; try congruence)].
  destruct (negb _); [discriminate Hd|].
  apply bind_Some in Hd as (ch & _ & Hd). apply bind_Some in Hd as (spk & Hs & Hd).
  apply bytes_of_length_spec in Hs as [-> _].
  repeat (apply bind_Some in Hd as (? & _ & Hd)). by injection Hd as <-.
Qed.

Lemma talk_authors : Forall (author_input signing) talk.
Proof.
  apply demo_authors. repeat constructor; cbn [hs_structure1_cbor frame_of says opened];
    intros l E; vm_compute in E; injection E as <-; vm_compute; reflexivity.
Qed.

Lemma relay_session_invariant_witness :
  key = hex sid ∧ session_ok signing (Forall (author_input signing) talk) (session_at signing talk).
Proof.
  apply (relay_session_invariant signing talk key (session_at signing talk)); [apply demo_builds|].
  vm_compute. reflexivity.
Defined.

Lemma relay_chain_verdict_witness :
  verifySealLeafChain (verify signing) (cborDecode signing) (encodeStructure2 signing) (leaf_hasher signing)
    (nodeHash signing) (hash_tree_root signing) (leaf_log (session_at signing talk)) (h "1" +:+ h "2") sid
    (alice, bob) = Ok (h "1" +:+ h "2").
Proof.
  destruct (relay_chain_verdict signing talk key (session_at signing talk)) as [E|[E _]];
    [apply demo_builds|exact talk_authors|vm_compute; reflexivity| |].
  - vm_compute. vm_compute in E. exact E.
  - exfalso. vm_compute in E. discriminate E.
Defined.

Lemma session_evolution_witness :
  ∃ st, jget (sessions (store (run signing initial talk))) key = Some st ∧
    advance st (session_at signing (talk ++ [says alice 0 "a2"])).
Proof.
  destruct (session_evolution signing talk (says alice 0 "a2") key (session_at signing (talk ++ [says alice 0 "a2"])))
    as [H|(who & a & E & _)]; [apply demo_builds|vm_compute; reflexivity|exact H|discriminate E].
Defined.

(** Two control leaves, with a directory that could not be reached. *)
Definition closing : list input := talk ++ [says alice 2 "a3"; says bob 2 "b3"].

Lemma closing_wf : jwf (sessions (store (run signing initial closing))).
Proof. apply (ss_wf _ _ _ (from_start signing False closing (demo_builds _) (False_ind _))). Qed.

Lemma seal_outcome_witness :
  let r := run signing initial closing in
  status (session_at signing closing) = active ∧
  jget (sessions (store (maybeProcessSeal signing (answering None) sid key r).1)) key = None ∧
  seal_post signing (answering None) sid r (maybeProcessSeal signing (answering None) sid key r).1.
Proof.
  split; [vm_compute; reflexivity|]. split; [vm_compute; reflexivity|].
  pose proof (seal_outcome signing (answering None) sid (run signing initial closing) closing_wf) as H.
  destruct (maybeProcessSeal signing (answering None) sid (hex sid) (run signing initial closing)) as [r' [[]|e]] eqn:E.
  - unfold key. rewrite E. exact H.
  - exfalso. assert ((maybeProcessSeal signing (answering None) sid (hex sid) (run signing initial closing)).2 = Ok tt) as E'
      by (vm_compute; reflexivity). rewrite E in E'. discriminate E'.
Defined.

Definition handed : relay * result exn (result string SealData) := submitForSeal signing sid (run signing initial talk).

Definition handed_data : SealData := match handed.2 with Ok (Ok d) => d | _ => mkSealData [] 0 "" end.

Lemma seal_hands_over_running_root_witness :
  ∃ st, jget (sessions (store (run signing initial talk))) key = Some st ∧
    sd_merkle_root handed_data = running_root st ∧ sd_seq_count handed_data = 2%Z.
Proof.
  destruct (seal_hands_over_running_root signing talk sid handed.1 handed_data) as (st & Hst & _ & _ & _ & Hn & Hr & _).
  - apply demo_builds.
  - intros leaves Hne. cbn [merkle_tree_root nodeHash leaf_hasher signing demo]. unfold tree.
    rewrite (represents_root node _ (map snd leaves)); [done|apply represents_push_all|by destruct leaves].
  - vm_compute. reflexivity.
  - exists st. split; [exact Hst|]. assert (st = session_at signing talk) as -> by
      (unfold session_at; unfold key in *; rewrite Hst; reflexivity).
    split; [apply Hr; vm_compute; discriminate|]. rewrite Hn. vm_compute. reflexivity.
Defined.

(** ** Retransmissions *)

Definition decoded (env : RelayEnv) (f : HashSubmit) : Structure1 :=
  default (mkStructure1 (mkS1 "" "" JNaN VUndef "" "") "") (decodeStructure1 env (hs_structure1_cbor f)).

Definition b1_handled : relay * result exn unit :=
  processHashSubmitLocked signing (hex bob) (frame_of bob 0 "b1") key
    (run signing initial [opened; says alice 0 "a1"]).

Definition after_b1 : session :=
  default (session_at signing [opened]) (jget (sessions (store b1_handled.1)) key).

Definition later : relay := run signing b1_handled.1 [says alice 0 "a2"].

Lemma retransmission_is_acknowledged_witness :
  ∃ ack, ack_sequence_number ack = 2%Z ∧
    processHashSubmitLocked signing (hex bob) (frame_of bob 0 "b1") key later =
    (_ ← sendFrame signing (hex bob) (FSubmitAck ack); mret tt) later.
Proof.
  destruct (retransmission_is_acknowledged signing [opened; says alice 0 "a1"] [says alice 0 "a2"] (hex bob)
    (frame_of bob 0 "b1") b1_handled.1 b1_handled.2 (session_at signing [opened; says alice 0 "a1"]) after_b1
    (default after_b1 (jget (sessions (store later)) key)))
    as (ack & Hn & E & _).
  - apply demo_builds.
  - intros provider [= <-]. split; eexists; reflexivity.
  - intros d Hd. vm_compute in Hd. injection Hd as <-. vm_compute. reflexivity.
  - reflexivity.
  - vm_compute. reflexivity.
  - unfold b1_handled. by destruct (processHashSubmitLocked _ _ _ _ _).
  - vm_compute. reflexivity.
  - vm_compute. discriminate.
  - repeat constructor. intros [].
  - vm_compute. reflexivity.
  - vm_compute. reflexivity.
  - vm_compute. reflexivity.
  - exists ack. split; [rewrite Hn; vm_compute; reflexivity|exact E].
Defined.

(** Alice hands over Bob's second leaf, which links to his first. *)
Lemma handed_over_leaf_loses_session_witness :
  status (session_at signing talk) = active ∧
  ∃ r', processHashSubmitLocked signing (hex alice) (frame_of bob 0 "b2") key (run signing initial talk) = (r', Ok tt) ∧
    lost key (leaf_log (session_at signing talk)) r'.
Proof.
  split; [vm_compute; reflexivity|].
  apply (handed_over_leaf_loses_session signing (session_at signing talk) (hex alice) (frame_of bob 0 "b2")
    (decoded signing (frame_of bob 0 "b2")) msg); try (vm_compute; reflexivity).
  - split; try (vm_compute; reflexivity); [by right|by left].
  - vm_compute. discriminate.
  - intros l Hl. vm_compute in Hl.
    repeat (apply elem_of_cons in Hl as [->|Hl]; [vm_compute; discriminate|]). by apply not_elem_of_nil in Hl.
  - vm_compute. discriminate.
Defined.

(** The same first leaf twice, at a relay whose signatures fail. *)
Lemma unsigned_ack_loses_session_witness :
  ∃ r1 r2 (st1 : session),
    processHashSubmitLocked failing (hex alice) (frame_of alice 0 "a1") key (run failing initial [opened]) = (r1, Ok tt) ∧
    processHashSubmitLocked failing (hex alice) (frame_of alice 0 "a1") key r1 = (r2, Ok tt) ∧
    lost key (leaf_log st1) r2.
Proof.
  destruct (unsigned_ack_loses_session failing [opened] (session_at failing [opened]) (hex alice) (frame_of alice 0 "a1")
    (decoded failing (frame_of alice 0 "a1")) msg (mkS2 1 alice (h "1") (alice +:+ "a1") genesis))
    as (r1 & r2 & st1 & E1 & _ & _ & _ & E2 & Hlost).
  1: apply demo_builds.
  1: { exists (λ _ _, None). split; [reflexivity|]. by right. }
  2: { split; try (vm_compute; reflexivity); by left. }
  3: done.
  8: { vm_compute. discriminate. }
  1-8: vm_compute; reflexivity.
  by exists r1, r2, st1.
Defined.

(** Alice acknowledges her own first leaf: the relay orders it, the chain verifier
    refuses the log. *)
Example own_position_is_ordered :
  let st := session_at signing [opened; says alice 0 "a1"; says alice 0 "a2own"] in
  map (λ l, content_hash (s2 l)) (leaf_log st) = [h "1"; h "3"] ∧
  verifySealLeafChain (verify signing) (cborDecode signing) (encodeStructure2 signing) (leaf_hasher signing)
    (nodeHash signing) (hash_tree_root signing) (leaf_log st) (h "1" +:+ h "3") sid (alice, bob) =
  Err CAUSAL_ORDER_VIOLATION.
Proof. split; vm_compute; reflexivity. Qed.

End RelaySessionDemo.
