(* ===== verification/RelayGater.v ===== *)
(** The relay's connection gater (packages/relay/src/relay-connection-gater.ts): who may
    hold a circuit reservation, who may dial through, and whose slot is reclaimed.

    The readings of [Date.now()] in a call are given in order; [connected] says whether a
    peer is still connected (a relay without a node, or whose node cannot tell, counts
    every peer as connected).  Log lines are not modelled. *)
From S2P Require Import Prelude JsMap.
Import JsMap.

Module RelayGater.

(** * Data *)

Definition SLOT_CAP_PER_AGENT : nat := 32.
Definition PROVEN_PEER_MEMORY_MS : Z := 2 * 60 * 1000.
Definition SLOT_REAP_ACTIVITY_FLOOR_MS : Z := 6 * 60 * 60 * 1000.
Definition DEFAULT_SLOT_CEILING : Z := 4096.

Record ReapedSlot : Type := mkReaped { r_peerId : string; r_agents : list string; idleMs : Z }.

(** [pressureLine] is [Math.floor(slotCeiling * reapPressureFraction)]. *)
Record Options : Type := mkOptions { slotCap : nat; pressureLine : Z }.

(** [agents] is a set in insertion order. *)
Record SlotRecord : Type := mkSlot {
  reserved : bool;
  provenForReservation : bool;
  agents : list string;
  grantedAt : Z;
  lastActivityAt : option Z;
}.

Inductive SlotAdmission : Type := Admission | SlotRefusal (held cap : nat).

Record gater : Type := mkGater {
  sessionBindings : jsmap string (string * string);
  reservedAt : jsmap string Z;
  slots : jsmap string SlotRecord;
  provenPeers : jsmap string (string * Z);
  unprovenAsks : jsmap string nat;
}.

Definition empty_gater : gater := mkGater [] [] [] [] [].

Definition with_bindings (g : gater) m := mkGater m (reservedAt g) (slots g) (provenPeers g) (unprovenAsks g).
Definition with_reservedAt (g : gater) m := mkGater (sessionBindings g) m (slots g) (provenPeers g) (unprovenAsks g).
Definition with_slots (g : gater) m := mkGater (sessionBindings g) (reservedAt g) m (provenPeers g) (unprovenAsks g).
Definition with_proven (g : gater) m := mkGater (sessionBindings g) (reservedAt g) (slots g) m (unprovenAsks g).
Definition with_asks (g : gater) m := mkGater (sessionBindings g) (reservedAt g) (slots g) (provenPeers g) m.

(** [set.add] *)
Definition add_agent (a : string) (l : list string) : list string := if decide (a ∈ l) then l else l ++ [a].

Section Gater.
Context (opts : Options).

(** * Bindings *)

Definition recordSessionBinding (g : gater) (sessionIdHex initiator counterparty : string) : gater :=
  with_bindings g (jset (sessionBindings g) sessionIdHex (initiator, counterparty)).

Definition removeSessionBinding (g : gater) (sessionIdHex : string) : gater :=
  with_bindings g (jdel (sessionBindings g) sessionIdHex).

Definition binds (s d : string) (b : string * string) : bool :=
  bool_decide (b = (s, d)) || bool_decide (b = (d, s)).

(** Whether the dial is refused. *)
Definition denyOutboundRelayedConnection (g : gater) (s d : string) : bool :=
  negb (existsb (binds s d) (jvals (sessionBindings g))).

(** * Counts *)

Definition holds (agent : string) (except : string) (e : string * SlotRecord) : bool :=
  bool_decide (e.1 ≠ except) && reserved e.2 && bool_decide (agent ∈ agents e.2).

Definition reservedSlotsForAgent (g : gater) (agent except : string) : nat :=
  length (List.filter (holds agent except) (slots g)).

Definition slotCountForAgent (g : gater) (agent : string) : nat := reservedSlotsForAgent g agent EmptyString.

Definition slotCount (g : gater) : nat := length (List.filter (λ e, reserved e.2) (slots g)).

Definition proofBookkeepingSize (g : gater) : nat := length (provenPeers g) + length (unprovenAsks g).

Definition agentsForSlot (g : gater) (peerId : string) : option (list string) := agents <$> jget (slots g) peerId.

(** * The ledger *)

Definition recordActivity (g : gater) (peerId : string) (now : Z) : gater :=
  match jget (slots g) peerId with
  | Some s => with_slots g (jset (slots g) peerId
                (mkSlot (reserved s) (provenForReservation s) (agents s) (grantedAt s) (Some now)))
  | None => g
  end.

(** What both a disconnect and a release forget; the proofs stay. *)
Definition forget (g : gater) (peerId : string) : gater :=
  mkGater (sessionBindings g) (jdel (reservedAt g) peerId) (jdel (slots g) peerId) (provenPeers g)
    (jdel (unprovenAsks g) peerId).

Definition recordDisconnect (g : gater) (peerId : string) : gater := forget g peerId.

Definition releaseSlot (g : gater) (peerId : string) : gater := forget g peerId.

(** A slot of this agent alone that never carried traffic and whose peer is gone. *)
Definition reclaimable (connected : string → bool) (peerId agent : string) (e : string * SlotRecord) : bool :=
  bool_decide (e.1 ≠ peerId) && bool_decide (agent ∈ agents e.2) && (length (agents e.2) =? 1)%nat &&
  bool_decide (lastActivityAt e.2 = None) && negb (connected e.1).

(** The ledger afterwards, the peers released, and the answer. *)
Definition admitSlot (connected : string → bool) (g : gater) (peerId agentPubkeyHex : string)
    (forReservation : bool) (now : Z) : gater * list string * SlotAdmission :=
  let existing := jget (slots g) peerId in
  let reclaimed := map fst (List.filter (reclaimable connected peerId agentPubkeyHex) (slots g)) in
  let g := foldl releaseSlot g reclaimed in
  let held := slotCountForAgent g agentPubkeyHex in
  if negb (match existing with Some s => bool_decide (agentPubkeyHex ∈ agents s) | None => false end) &&
     (slotCap opts <=? held)%nat
  then (g, reclaimed, SlotRefusal held (slotCap opts))
  else
    let g := if forReservation
             then with_asks (with_proven g (jset (provenPeers g) peerId (agentPubkeyHex, (now + PROVEN_PEER_MEMORY_MS)%Z)))
                    (jdel (unprovenAsks g) peerId)
             else g in
    let slot := match existing with
                | Some s => mkSlot (reserved s) (provenForReservation s || forReservation)
                              (add_agent agentPubkeyHex (agents s)) (grantedAt s) (lastActivityAt s)
                | None => mkSlot false forReservation [agentPubkeyHex] now None
                end in
    (with_slots g (jset (slots g) peerId slot), reclaimed, Admission).

(** * The reaper *)

Definition sweepProofBookkeeping (g : gater) (now : Z) : gater :=
  with_asks (with_proven g (List.filter (λ e, now <? e.2.2)%Z (provenPeers g))) [].

Definition candidate (now : Z) (e : string * SlotRecord) : option ReapedSlot :=
  let idle := (now - default (grantedAt e.2) (lastActivityAt e.2))%Z in
  if negb (reserved e.2) then None
  else if (idle <=? SLOT_REAP_ACTIVITY_FLOOR_MS)%Z then None
  else Some (mkReaped e.1 (agents e.2) idle).

(** [candidates.sort((a, b) => b.idleMs - a.idleMs)]: stable, quietest first. *)
Fixpoint place (c : ReapedSlot) (l : list ReapedSlot) : list ReapedSlot :=
  match l with
  | [] => [c]
  | d :: l' => if (idleMs d <=? idleMs c)%Z then c :: l else d :: place c l'
  end.

Definition quietest_first (l : list ReapedSlot) : list ReapedSlot := foldr place [] l.

Definition reapIdleSlots (g : gater) (sweepNow now : Z) : gater * list ReapedSlot :=
  let g := sweepProofBookkeeping g sweepNow in
  let reservedHeld := Z.of_nat (slotCount g) in
  if (reservedHeld <=? pressureLine opts)%Z then (g, [])
  else
    let target := Z.to_nat (reservedHeld - pressureLine opts) in
    let reaped := take target (quietest_first (omap (candidate now) (slots g))) in
    (foldl (λ g c, releaseSlot g (r_peerId c)) g reaped, reaped).

(** * The gate *)

(** The slot of a peer, re-established from a proof made on an earlier connection; an
    expired proof is dropped and ends the question. *)
Definition recall (g : gater) (id : string) (now : nat → Z) : gater * result unit (option SlotRecord) :=
  let slot := jget (slots g) id in
  if match slot with Some s => provenForReservation s | None => false end then (g, Ok slot)
  else match jget (provenPeers g) id with
  | None => (g, Ok slot)
  | Some (agent, expiresAt) =>
      if (now 0%nat <? expiresAt)%Z then
        let s := default (mkSlot false true [] (now 1%nat) None) slot in
        let s := mkSlot (reserved s) true (add_agent agent (agents s)) (grantedAt s) (lastActivityAt s) in
        (with_slots g (jset (slots g) id s), Ok (Some s))
      else (with_proven g (jdel (provenPeers g) id), Err tt)
  end.

Definition at_cap (g : gater) (id : string) (agent : string) : bool :=
  (slotCap opts <=? reservedSlotsForAgent g agent id)%nat.

(** Whether the reservation is refused. *)
Definition denyInboundRelayReservation (g : gater) (id : string) (now : nat → Z) : gater * bool :=
  match recall g id now with
  | (g, Err _) => (g, true)
  | (g, Ok slot) =>
      match slot with
      | Some s =>
          if negb (provenForReservation s) || (length (agents s) =? 0)%nat then
            (with_asks g (jset (unprovenAsks g) id (default 0 (jget (unprovenAsks g) id) + 1)), true)
          else if existsb (at_cap g id) (agents s) then (g, true)
          else
            (with_reservedAt
               (with_slots g (jset (slots g) id
                  (mkSlot true (provenForReservation s) (agents s) (grantedAt s) (lastActivityAt s))))
               (jset (reservedAt g) id (now 2%nat)), false)
      | None => (with_asks g (jset (unprovenAsks g) id (default 0 (jget (unprovenAsks g) id) + 1)), true)
      end
  end.

End Gater.
End RelayGater.
