(* ===== verification/RelayGaterTheorems.v ===== *)
(** What the gater's ledger promises on its own: no agent holds more reservations than
    its cap, and the reaper frees the quietest idle slots and nothing else. *)
From S2P Require Import Prelude JsMap RelayGater.
Import JsMap RelayGater.

Module RelayGaterTheorems.

Section Gater.
Context (opts : Options).

Abbreviation count agent except m := (jcount (holds agent except) m).

(** * The cap *)

(** Only proven peers hold reservations, and no agent more than its cap. *)
Record ledger_ok (g : gater) : Prop := mkLedger {
  lg_slots : jwf (slots g);
  lg_proofs : jwf (provenPeers g);
  lg_proven : ∀ id s, jget (slots g) id = Some s → reserved s = true → provenForReservation s = true;
  lg_cap : ∀ agent, slotCountForAgent g agent <= slotCap opts;
}.

Lemma ledger_empty : ledger_ok empty_gater.
Proof. split; [constructor|constructor|done|intros; cbn; lia]. Qed.

Lemma ledger_same g g' :
  slots g' = slots g → jwf (provenPeers g') → ledger_ok g → ledger_ok g'.
Proof.
  intros Es Hp [Hs _ Hr Hc]. split; unfold slotCountForAgent, reservedSlotsForAgent in *; rewrite ?Es; done.
Qed.

Lemma ledger_forget g id : ledger_ok g → ledger_ok (forget g id).
Proof.
  intros [Hs Hp Hr Hc]. split; cbn; [by apply jwf_jdel|done| |].
  - intros id' s. rewrite jget_jdel by done. case_decide; [done|apply Hr].
  - intros agent. etrans; [|apply (Hc agent)].
    pose proof (jcount_jdel (holds agent EmptyString) (slots g) id) as E. unfold jcount in E.
    unfold slotCountForAgent, reservedSlotsForAgent. cbn. lia.
Qed.

Lemma ledger_release g ids : ledger_ok g → ledger_ok (foldl releaseSlot g ids).
Proof. revert g. induction ids as [|id ids IH]; intros g Hg; [done|]. by apply IH, ledger_forget. Qed.

(** Writing a slot: who it counts for anew has to be below the cap. *)
Lemma ledger_put g id s' :
  ledger_ok g → (reserved s' = true → provenForReservation s' = true) →
  (∀ agent, holds agent EmptyString (id, s') = true →
     (∃ s, jget (slots g) id = Some s ∧ holds agent EmptyString (id, s) = true) ∨
     slotCountForAgent g agent < slotCap opts) →
  ledger_ok (with_slots g (jset (slots g) id s')).
Proof.
  intros [Hs Hp Hr Hc] Hres Hnew. split; cbn; [by apply jwf_jset|done| |].
  - intros id' x. rewrite jget_jset. case_decide; [by intros [= <-]|apply Hr].
  - intros agent. pose proof (jcount_jset (holds agent EmptyString) (slots g) id s') as E.
    specialize (Hc agent). specialize (Hnew agent).
    unfold slotCountForAgent, reservedSlotsForAgent in *. cbn [slots with_slots].
    fold (jcount (holds agent EmptyString) (slots g)) in *.
    fold (jcount (holds agent EmptyString) (jset (slots g) id s')) in *.
    destruct (holds agent EmptyString (id, s')) eqn:Eh; cbn [Nat.b2n] in E; [|lia].
    destruct (Hnew eq_refl) as [(s & Es & Eo)|]; [|lia]. rewrite Es in E. cbn [from_option] in E.
    rewrite Eo in E. cbn in E. lia.
Qed.

Lemma ledger_activity g id now : ledger_ok g → ledger_ok (recordActivity g id now).
Proof.
  intros Hg. unfold recordActivity. destruct (jget (slots g) id) as [s|] eqn:E; [|done].
  apply ledger_put; [done|exact (lg_proven _ Hg id s E)|]. intros agent Hh. left. by exists s.
Qed.

Lemma release_absent g ids id : ledger_ok g → id ∈ ids → jget (slots (foldl releaseSlot g ids)) id = None.
Proof.
  assert (∀ ids g, ledger_ok g → jget (slots g) id = None → jget (slots (foldl releaseSlot g ids)) id = None) as Hn.
  { clear. induction ids as [|x ids IH]; intros g Hg Hx; [done|]. cbn. apply IH; [by apply ledger_forget|].
    cbn. rewrite jget_jdel by apply Hg. by case_decide. }
  revert g. induction ids as [|x ids IH]; intros g Hg; [by intros ?%not_elem_of_nil|].
  cbn [foldl]. intros [->|Hin]%elem_of_cons.
  - apply Hn; [by apply ledger_forget|]. cbn. by rewrite jget_jdel, decide_True by (done || apply Hg).
  - apply IH; [by apply ledger_forget|done].
Qed.

Lemma release_other g ids id : ledger_ok g → id ∉ ids → jget (slots (foldl releaseSlot g ids)) id = jget (slots g) id.
Proof.
  revert g. induction ids as [|x ids IH]; intros g Hg Hn; [done|]. cbn [foldl].
  apply not_elem_of_cons in Hn as [Hx Hn]. rewrite IH by (done || by apply ledger_forget).
  cbn. by rewrite jget_jdel, decide_False by (done || apply Hg).
Qed.

Lemma release_proofs g ids : provenPeers (foldl releaseSlot g ids) = provenPeers g.
Proof. revert g. induction ids as [|x ids IH]; intros g; [done|]. cbn. by rewrite IH. Qed.

Lemma ledger_admit connected g id agent forReservation now :
  ledger_ok g → ledger_ok (admitSlot opts connected g id agent forReservation now).1.1.
Proof.
  intros Hg. unfold admitSlot. cbv zeta. set (ids := map fst _).
  assert (id ∉ ids) as Hid.
  { intros ([k s] & -> & Hin)%list_elem_of_fmap. apply list_elem_of_In, List.filter_In in Hin as [_ H].
    unfold reclaimable in H. cbn in H. bools. done. }
  pose proof (ledger_release g ids Hg) as Hg1. pose proof (release_other g ids id Hg Hid) as Eid.
  set (g1 := foldl releaseSlot g ids) in *. rewrite <- Eid.
  set (known := match jget (slots g1) id with Some s => bool_decide (agent ∈ agents s) | None => false end).
  destruct (negb known && (slotCap opts <=? slotCountForAgent g1 agent)%nat) eqn:Ecap; [done|]. cbn [fst].
  assert (known = true ∨ slotCountForAgent g1 agent < slotCap opts) as Hcap.
  { destruct known; [by left|]. right. cbn in Ecap. by apply Nat.leb_gt in Ecap. }
  set (g2 := if forReservation then _ else g1).
  assert (ledger_ok g2 ∧ slots g2 = slots g1) as [Hg2 Es2].
  { unfold g2. destruct forReservation; [|done]. split; [|done].
    apply (ledger_same g1); [done|apply jwf_jset, Hg1|done]. }
  assert (slotCountForAgent g2 agent = slotCountForAgent g1 agent) as Ec2.
  { unfold slotCountForAgent, reservedSlotsForAgent. by rewrite Es2. }
  apply ledger_put; [done| |]; destruct (jget (slots g1) id) as [s|] eqn:Es; cbn.
  - intros Hr. by rewrite (lg_proven _ Hg1 id s).
  - done.
  - intros a Hh. rewrite Es2. unfold holds in *. cbn in *. bools.
    destruct (decide (a ∈ agents s)) as [Ha|Ha].
    + left. exists s. split; [done|]. rewrite !andb_true_iff, !bool_decide_eq_true. done.
    + right. assert (a = agent) as ->.
      { unfold add_agent in *. case_decide; [done|]. set_solver. }
      destruct Hcap as [Hk|]; [|by rewrite Ec2]. unfold known in Hk. bools. done.
  - intros a Hh. unfold holds in Hh. cbn in Hh. by rewrite andb_false_r in Hh.
Qed.

(** ** The gate *)

Lemma filter_length_le {A} (P Q : A → bool) l :
  (∀ x, x ∈ l → P x = true → Q x = true) → length (List.filter P l) <= length (List.filter Q l).
Proof.
  induction l as [|x l IH]; intros H; cbn; [done|].
  assert (length (List.filter P l) <= length (List.filter Q l)) by (apply IH; intros; apply H; [by right|done]).
  destruct (P x) eqn:E; [rewrite (H x) by (done || left)|destruct (Q x)]; cbn; lia.
Qed.

Lemma count_except g agent id s :
  ledger_ok g → jget (slots g) id = Some s → holds agent EmptyString (id, s) = false →
  slotCountForAgent g agent <= reservedSlotsForAgent g agent id.
Proof.
  intros [Hs _ _ _] Hg Hh. unfold slotCountForAgent, reservedSlotsForAgent.
  apply filter_length_le. intros [k x] Hin Hx. unfold holds in *. cbn [fst snd] in *. bools.
  rewrite !andb_true_iff, !bool_decide_eq_true. split; [|done]. split; [|done]. intros ->.
  apply jget_elem_iff in Hin; [|done]. rewrite Hg in Hin. injection Hin as <-.
  rewrite !bool_decide_eq_true_2 in Hh by done. by rewrite H1 in Hh.
Qed.

Lemma ledger_recall g id now : ledger_ok g → ledger_ok (recall g id now).1.
Proof.
  intros Hg. unfold recall. destruct (match jget (slots g) id with Some s => _ | None => false end) eqn:Ep; [done|].
  destruct (jget (provenPeers g) id) as [[agent exp]|]; [|done].
  destruct (now 0%nat <? exp)%Z; cbn.
  - apply ledger_put; [done|done|]. intros a Hh. exfalso. unfold holds in Hh. cbn in Hh. bools.
    destruct (jget (slots g) id) as [s|] eqn:Es; cbn in *; [|done].
    by rewrite (lg_proven _ Hg id s Es) in Ep.
  - apply (ledger_same g); [done|apply jwf_jdel, Hg|done].
Qed.

Lemma recall_slot g id now g' s :
  recall g id now = (g', Ok (Some s)) → jget (slots g') id = Some s.
Proof.
  unfold recall. destruct (match jget (slots g) id with Some s => _ | None => false end); [by intros [= <-]|].
  destruct (jget (provenPeers g) id) as [[agent exp]|]; [|by intros [= <-]].
  destruct (now 0%nat <? exp)%Z; [|done]. intros [= <- <-]. apply jget_jset_eq.
Qed.

Lemma ledger_deny g id now : ledger_ok g → ledger_ok (denyInboundRelayReservation opts g id now).1.
Proof.
  intros Hg. pose proof (ledger_recall g id now Hg) as Hr. pose proof (recall_slot g id now) as Hs.
  unfold denyInboundRelayReservation. destruct (recall g id now) as [g1 [slot|e]]; [|done]. cbn [fst] in Hr.
  assert (∀ m, ledger_ok (with_asks g1 m)) as Hasks by (intros m; by apply (ledger_same g1); [|apply Hr|]).
  destruct slot as [s|]; [|apply Hasks].
  specialize (Hs g1 s eq_refl).
  destruct (negb _ || _) eqn:Ep; [apply Hasks|]. bools.
  destruct (existsb _ _) eqn:Ecap; [done|]. cbn [fst].
  apply (ledger_same (with_slots g1 (jset (slots g1) id (mkSlot true (provenForReservation s) (agents s) (grantedAt s) (lastActivityAt s)))));
    [done|apply Hr|].
  apply ledger_put; [done|done|]. intros a Hh.
  destruct (holds a EmptyString (id, s)) eqn:Eold; [left; by exists s|]. right.
  eapply Nat.le_lt_trans; [by eapply count_except|].
  assert (at_cap opts g1 id a = false) as Hat.
  { apply not_true_iff_false. intros Hat. apply not_true_iff_false in Ecap. apply Ecap.
    apply existsb_exists. exists a. split; [|done]. unfold holds in Hh. cbn in Hh. bools. by apply list_elem_of_In. }
  unfold at_cap in Hat. by apply Nat.leb_gt in Hat.
Qed.

(** * The reaper *)

Definition quieter (c d : ReapedSlot) : Prop := (idleMs d <= idleMs c)%Z.

#[local] Instance quieter_trans : Transitive quieter.
Proof. unfold quieter. intros x y z. lia. Qed.

Lemma place_perm c l : place c l ≡ₚ c :: l.
Proof.
  induction l as [|d l IH]; cbn; [done|]. destruct (idleMs d <=? idleMs c)%Z; [done|].
  by rewrite IH, Permutation_swap.
Qed.

Lemma place_sorted c l : StronglySorted quieter l → StronglySorted quieter (place c l).
Proof.
  induction 1 as [|d l Hs IH Hd]; cbn; [by repeat constructor|].
  destruct (idleMs d <=? idleMs c)%Z eqn:E; bools.
  - constructor; [by constructor|]. constructor; [exact E|].
    eapply Forall_impl; [|exact Hd]. intros x Hx. by etrans.
  - constructor; [done|]. rewrite place_perm. constructor; [unfold quieter; lia|done].
Qed.

Lemma quietest_perm l : quietest_first l ≡ₚ l.
Proof. induction l as [|c l IH]; [done|]. cbn. by rewrite place_perm, IH. Qed.

Lemma quietest_sorted l : StronglySorted quieter (quietest_first l).
Proof. induction l as [|c l IH]; [constructor|]. by apply place_sorted. Qed.

Lemma sorted_split l n x y :
  StronglySorted quieter l → x ∈ take n l → y ∈ drop n l → quieter x y.
Proof.
  intros Hs. revert n. induction Hs as [|d l Hs IH Hd]; intros n Hx Hy; [by rewrite take_nil in Hx; apply not_elem_of_nil in Hx|].
  destruct n as [|n]; [by apply not_elem_of_nil in Hx|]. cbn in Hx, Hy. apply elem_of_cons in Hx as [->|Hx]; [|by apply (IH n)].
  rewrite list.Forall_forall in Hd. apply Hd, (subseteq_drop n l), Hy.
Qed.

(** A slot that may be reaped, and how long it has been quiet. *)
Definition quiet_slot (s : SlotRecord) (now idle : Z) : Prop :=
  reserved s = true ∧ idle = (now - default (grantedAt s) (lastActivityAt s))%Z ∧ (SLOT_REAP_ACTIVITY_FLOOR_MS < idle)%Z.

Lemma candidate_spec now (m : list (string * SlotRecord)) c :
  jwf m → c ∈ omap (candidate now) m ↔
  ∃ s, jget m (r_peerId c) = Some s ∧ r_agents c = agents s ∧ quiet_slot s now (idleMs c).
Proof.
  intros Hm. rewrite list_elem_of_omap. unfold candidate, quiet_slot. split.
  - intros ([id s] & Hin & E). cbn [fst snd] in E. cbv zeta in E.
    destruct (negb (reserved s)) eqn:Er; [done|]. destruct (_ <=? _)%Z eqn:Ei; [done|]. injection E as <-. bools.
    exists s. cbn. split; [by apply jget_elem_iff|]. split; [done|]. split; [done|]. split; [done|lia].
  - intros (s & Hg & Ha & Hr & Hi & Hf). exists (r_peerId c, s). split; [by apply jget_elem|].
    cbn [fst snd]. cbv zeta. rewrite Hr, <- Hi, <- Ha. cbn [negb].
    rewrite (proj2 (Z.leb_gt _ _)) by done. by destruct c.
Qed.

Lemma candidates_nodup now (m : list (string * SlotRecord)) : jwf m → NoDup (map r_peerId (omap (candidate now) m)).
Proof.
  unfold jwf, jkeys. induction m as [|[id s] m IH]; cbn; [constructor|].
  intros [Hn Hm]%list.NoDup_cons. destruct (candidate now (id, s)) as [c|] eqn:E; [|by apply IH].
  cbn. apply list.NoDup_cons. split; [|by apply IH].
  assert (r_peerId c = id) as -> by (unfold candidate in E; cbn in E; by repeat (case_match; try discriminate E); injection E as <-).
  intros (d & Ed & Hin)%list_elem_of_fmap. apply (candidate_spec now m d Hm) in Hin as (s' & Hg & _).
  apply Hn. rewrite Ed. apply jget_elem in Hg. by apply (list_elem_of_fmap_2 fst) in Hg.
Qed.

Lemma slotCount_release g ids :
  ledger_ok g → NoDup ids → (∀ id, id ∈ ids → ∃ s, jget (slots g) id = Some s ∧ reserved s = true) →
  slotCount (foldl releaseSlot g ids) + length ids = slotCount g.
Proof.
  revert g. induction ids as [|id ids IH]; intros g Hg Hnd Hall; [cbn; lia|]. cbn [foldl length].
  apply list.NoDup_cons in Hnd as [Hid Hnd].
  destruct (Hall id ltac:(left)) as (s & Hs & Hr).
  pose proof (jcount_jdel (λ e : string * SlotRecord, reserved e.2) (slots g) id) as E. rewrite Hs in E. cbn in E. rewrite Hr in E.
  assert (slotCount (foldl releaseSlot (releaseSlot g id) ids) + length ids = slotCount (releaseSlot g id)) as E2.
  { apply IH; [by apply ledger_forget|done|]. intros id' Hin. destruct (Hall id' ltac:(by right)) as (s' & Hs' & Hr').
    exists s'. split; [|done]. cbn. rewrite jget_jdel by apply Hg. rewrite decide_False; [done|]. by intros <-. }
  change (jcount (λ e, reserved e.2) (jdel (slots g) id)) with (slotCount (releaseSlot g id)) in E.
  change (slotCount g) with (jcount (λ e : string * SlotRecord, reserved e.2) (slots g)).
  cbn [Nat.b2n] in E. lia.
Qed.

Lemma fold_release g l :
  foldl (λ g c, releaseSlot g (r_peerId c)) g l = foldl releaseSlot g (map r_peerId l).
Proof. revert g. induction l as [|c l IH]; intros g; [done|]. apply IH. Qed.

(** The reaper.  It frees only reservations that have been quiet for more than the
    six-hour floor, the quietest first: every slot it leaves has been quiet for at most
    as long as every one it frees.  It frees exactly as many as bring the table down to
    the pressure line, or all there are; it never goes below the line, and it leaves
    every other slot as it is. *)
Theorem reaper_spec g sweepNow now g' reaped :
  ledger_ok g → reapIdleSlots opts g sweepNow now = (g', reaped) →
  (∀ c, c ∈ reaped → ∃ s, jget (slots g) (r_peerId c) = Some s ∧ r_agents c = agents s ∧ quiet_slot s now (idleMs c)) ∧
  (∀ id s idle c, jget (slots g') id = Some s → quiet_slot s now idle → c ∈ reaped → (idle <= idleMs c)%Z) ∧
  (∀ id, jget (slots g') id = if decide (id ∈ map r_peerId reaped) then None else jget (slots g) id) ∧
  slotCount g' + length reaped = slotCount g ∧
  (reaped ≠ [] → (pressureLine opts <= Z.of_nat (slotCount g'))%Z) ∧
  ((pressureLine opts < Z.of_nat (slotCount g'))%Z →
   ∀ id s idle, jget (slots g') id = Some s → ¬ quiet_slot s now idle).
Proof.
  intros Hg. unfold reapIdleSlots. set (g1 := sweepProofBookkeeping g sweepNow).
  assert (ledger_ok g1) as Hg1 by (apply (ledger_same g); [done|apply jwf_filter, Hg|done]).
  cbv zeta. change (slotCount g1) with (slotCount g). change (slots g1) with (slots g).
  set (cs := quietest_first (omap (candidate now) (slots g))).
  assert (∀ c, c ∈ cs ↔ ∃ s, jget (slots g) (r_peerId c) = Some s ∧ r_agents c = agents s ∧ quiet_slot s now (idleMs c)) as Hcs.
  { intros c. unfold cs. rewrite quietest_perm. apply candidate_spec, Hg. }
  destruct (Z.of_nat (slotCount g) <=? pressureLine opts)%Z eqn:El; bools; intros [= <- <-].
  { split; [by intros c ?%not_elem_of_nil|]. split; [by intros ? ? ? c _ _ ?%not_elem_of_nil|].
    split; [done|]. split; [by cbn; rewrite Nat.add_0_r|]. split; [done|]. intros Hlt. exfalso. change (slotCount g1) with (slotCount g) in Hlt. lia. }
  set (n := Z.to_nat _). rewrite fold_release. set (ids := map r_peerId (take n cs)).
  assert (NoDup ids) as Hnd.
  { unfold ids. rewrite <- firstn_map. eapply sublist_NoDup; [|apply sublist_take].
    change (NoDup (r_peerId <$> cs)). unfold cs. rewrite quietest_perm. apply candidates_nodup, Hg. }
  assert (∀ id, jget (slots (foldl releaseSlot g1 ids)) id = if decide (id ∈ ids) then None else jget (slots g) id) as Hslots.
  { intros id. case_decide; [by apply release_absent|by rewrite release_other]. }
  assert (slotCount (foldl releaseSlot g1 ids) + length ids = slotCount g) as Hcount.
  { apply (slotCount_release g1); [done|done|]. intros id (c & -> & Hc)%list_elem_of_fmap.
    apply (subseteq_take n), Hcs in Hc as (s & Hs & _ & Hq). exists s. split; [done|apply Hq]. }
  assert (length ids = length (take n cs)) as Hlen by apply length_map.
  assert (∀ id s idle, jget (slots (foldl releaseSlot g1 ids)) id = Some s → quiet_slot s now idle →
            mkReaped id (agents s) idle ∈ drop n cs) as Hleft.
  { intros id s idle Hs Hq. rewrite Hslots in Hs. case_decide as Hid; [done|].
    assert (mkReaped id (agents s) idle ∈ cs) as Hin by (apply Hcs; by exists s).
    rewrite <- (take_drop n cs), elem_of_app in Hin. destruct Hin as [Hin|]; [|done].
    exfalso. apply Hid. by apply (list_elem_of_fmap_2 r_peerId) in Hin. }
  split_and!.
  - intros c Hc. by apply Hcs, (subseteq_take n).
  - intros id s idle c Hs Hq Hc. apply (sorted_split cs n c (mkReaped id (agents s) idle));
      [apply quietest_sorted|done|by apply Hleft].
  - exact Hslots.
  - by rewrite <- Hlen.
  - intros _. rewrite length_take in Hlen. lia.
  - intros Hlt id s idle Hs Hq. specialize (Hleft id s idle Hs Hq). rewrite length_take in Hlen.
    assert (drop n cs ≠ []) as Hd by (intros E; rewrite E in Hleft; by apply not_elem_of_nil in Hleft).
    destruct (decide (n < length cs)); [lia|]. exfalso. apply Hd, drop_ge. lia.
Qed.


(** * The proof is honoured *)

(** The count of the others' slots does not see the peer's own. *)
Lemma others_jset g g' agent id s :
  slots g' = jset (slots g) id s → at_cap opts g' id agent = at_cap opts g id agent.
Proof.
  intros Es. unfold at_cap, reservedSlotsForAgent. rewrite Es. f_equal.
  pose proof (jcount_jset (holds agent id) (slots g) id s) as E. unfold jcount, holds in *. cbn in E.
  rewrite bool_decide_eq_false_2 in E by (intros H; by apply H). cbn in E.
  destruct (jget (slots g) id); cbn in E; rewrite ?bool_decide_eq_false_2 in E by (intros H; by apply H); cbn in E; lia.
Qed.

Lemma others_jdel g g' agent id :
  slots g' = jdel (slots g) id → at_cap opts g' id agent = at_cap opts g id agent.
Proof.
  intros Es. unfold at_cap, reservedSlotsForAgent. rewrite Es. f_equal.
  pose proof (jcount_jdel (holds agent id) (slots g) id) as E. unfold jcount, holds in *.
  destruct (jget (slots g) id); cbn in E; rewrite ?bool_decide_eq_false_2 in E by (intros H; by apply H); cbn in E; lia.
Qed.

Lemma others_le g agent id :
  jget (slots g) EmptyString = None → reservedSlotsForAgent g agent id <= slotCountForAgent g agent.
Proof.
  intros He. apply filter_length_le. intros [k s] Hin Hh. unfold holds in *. cbn [fst snd] in *. bools.
  rewrite !andb_true_iff, !bool_decide_eq_true. split; [|done]. split; [|done]. intros ->.
  apply jget_None in He. apply He. by apply (list_elem_of_fmap_2 fst) in Hin.
Qed.

Lemma release_slots_sub g ids id s :
  ledger_ok g → jget (slots (foldl releaseSlot g ids)) id = Some s → jget (slots g) id = Some s.
Proof.
  intros Hg Hs. destruct (decide (id ∈ ids)); [by rewrite release_absent in Hs by done|by rewrite release_other in Hs by done].
Qed.

(** A reservation proof is honoured.  When a peer without a slot is admitted with a
    reservation proof, in a ledger where every peer id is non-empty, the relay
    grants it the reservation whenever it asks next on that connection; a peer
    that disconnects and returns is granted it without a new proof as long as it
    asks within two minutes of the admission, and is refused from then on. *)
Theorem proof_is_honoured g g1 connected id agent released now clock :
  ledger_ok g → jget (slots g) EmptyString = None → jget (slots g) id = None →
  admitSlot opts connected g id agent true now = (g1, released, Admission) →
  (denyInboundRelayReservation opts g1 id clock).2 = false ∧
  (denyInboundRelayReservation opts (recordDisconnect g1 id) id clock).2 =
    (now + PROVEN_PEER_MEMORY_MS <=? clock 0%nat)%Z.
Proof.
  intros Hg He Hid. unfold admitSlot. cbv zeta. set (ids := map fst _). rewrite Hid.
  pose proof (ledger_release g ids Hg) as Hr. assert (jget (slots (foldl releaseSlot g ids)) EmptyString = None) as Hre.
  { destruct (jget (slots (foldl releaseSlot g ids)) EmptyString) as [s|] eqn:E; [|done]. apply release_slots_sub in E; [congruence|done]. }
  set (gr := foldl releaseSlot g ids) in *. cbn [negb andb].
  destruct (slotCap opts <=? slotCountForAgent gr agent)%nat eqn:Ecap; [done|]. apply Nat.leb_gt in Ecap.
  intros [= <- _]. assert (at_cap opts gr id agent = false) as Hcap.
  { apply Nat.leb_gt. eapply Nat.le_lt_trans; [by apply others_le|done]. }
  set (g1 := with_slots _ _). set (g2 := recordDisconnect g1 id).
  assert (at_cap opts g1 id agent = false) as Hcap1 by by rewrite (others_jset gr g1 agent id (mkSlot false true [agent] now None)).
  assert (at_cap opts g2 id agent = false) as Hcap2 by by rewrite (others_jdel g1 g2 agent id).
  assert (jget (slots g1) id = Some (mkSlot false true [agent] now None)) as Hs1 by apply jget_jset_eq.
  assert (jget (slots g2) id = None) as Hs2 by (cbn; by rewrite jget_jdel, decide_True by (done || apply jwf_jset, Hr)).
  assert (jget (provenPeers g2) id = Some (agent, (now + PROVEN_PEER_MEMORY_MS)%Z)) as Hp2 by apply jget_jset_eq.
  clearbody g1 g2. unfold denyInboundRelayReservation, recall. split.
  - rewrite Hs1. cbn. by rewrite Hcap1.
  - rewrite Hs2, Hp2. destruct (clock 0%nat <? now + PROVEN_PEER_MEMORY_MS)%Z eqn:Et; cbn; bools.
    + set (g3 := with_slots g2 _). assert (at_cap opts g3 id agent = false) as Hcap3 by (rewrite <- Hcap2; by eapply others_jset).
      assert (add_agent agent [] = [agent]) as -> by (unfold add_agent; by rewrite decide_False by apply not_elem_of_nil).
      clearbody g3. cbn. rewrite Hcap3. cbn. symmetry. apply Z.leb_gt. lia.
    + symmetry. apply Z.leb_le. lia.
Qed.

End Gater.
End RelayGaterTheorems.
