(* ===== verification/RelayAuth.v ===== *)
(** Authentication at a relay and what it licenses (packages/relay/src/relay-node.ts,
    [#handleRelayStream] up to its data frames, [#checkOnlineToken], and the hooks the
    gater is called from): nonces, signatures, limits, the directory's token, and the
    ledger of slots.

    [streams] holds the keys that ever registered a delivery stream; a stream that
    closes is not taken out.  A call reads the clock by ticks.
    What was decided is kept in a log, the newest event first.  Frames to the peer and log lines are not modelled. *)
From S2P Require Import Prelude Text JsMap Effects Relay OnlineToken RelayGater.
Import Text JsMap Effects Relay OnlineToken RelayGater.

Module RelayAuth.

Definition AUTH_DOMAIN : string := "CELLO-RELAY-AUTH-v1".
Definition NONCE_TTL_MS : Z := 30000.
Definition DEFAULT_AUTH_RATE_LIMIT : DepositRateLimitConfig := mkConfig 20 60000.
Definition DEFAULT_RESERVATION_PROOF_RATE_LIMIT : DepositRateLimitConfig := mkConfig 30 60000.

Record NonceEntry : Type := mkNonce { nonce : bytes; expiresAt : Z; used : bool }.

Record RelayAuthResponse : Type := mkResponse {
  pubkey : bytes;
  signature : bytes;
  purpose : option string;
  online_token : option bytes;
}.

Record AuthEnv : Type := mkAuthEnv {
  clock : nat → Z;
  randomBytes : nat → bytes;
  verify : bytes → bytes → bytes → bool;
  sha256 : bytes → bytes;
  ed_verify : bytes → bytes → bytes → option bool;
  directoryPubkeys : list bytes;
  authPeerLimit : DepositRateLimitConfig;
  authPubkeyLimit : DepositRateLimitConfig;
  reservationProofLimit : DepositRateLimitConfig;
  gaterOptions : Options;
  connected : nat → string → bool;
}.

(** What was decided, and which nonces were stored.  A proof says when its nonce was
    taken, when its token was checked, and when the token expires. *)
Inductive event : Type :=
| Minted (remotePeerId : option string) (nonce : bytes) (at_ : Z)
| Refused (remotePeerId : option string) (reason : string)
| Proved (remotePeerId : option string) (pubkeyHex : string) (forReservation : bool) (nonce : bytes)
    (takenAt : Z) (checkedAt : Z) (exp : Z)
| Seated (peerId pubkeyHex : string) (forReservation : bool) (at_ : Z)
| Gone (peerId : string)
| Asked (peerId : string) (at_ : Z)
| Granted (peerId : string) (at_ : Z).

Record gate : Type := mkGate {
  tick : nat;
  nonces : jsmap string NonceEntry;
  challenged : jsmap nat (bytes * option string);
  authPeerLimiter : limiter;
  authPubkeyLimiter : limiter;
  reservationProofLimiter : limiter;
  connectionGater : gater;
  streams : list string;
  log : list event;
}.

Definition with_tick (w : gate) n :=
  mkGate n (nonces w) (challenged w) (authPeerLimiter w) (authPubkeyLimiter w) (reservationProofLimiter w)
    (connectionGater w) (streams w) (log w).
Definition with_nonces (w : gate) m :=
  mkGate (tick w) m (challenged w) (authPeerLimiter w) (authPubkeyLimiter w) (reservationProofLimiter w)
    (connectionGater w) (streams w) (log w).
Definition with_challenged (w : gate) m :=
  mkGate (tick w) (nonces w) m (authPeerLimiter w) (authPubkeyLimiter w) (reservationProofLimiter w)
    (connectionGater w) (streams w) (log w).
Definition with_limiters (w : gate) a b c :=
  mkGate (tick w) (nonces w) (challenged w) a b c (connectionGater w) (streams w) (log w).
Definition with_gater (w : gate) g :=
  mkGate (tick w) (nonces w) (challenged w) (authPeerLimiter w) (authPubkeyLimiter w) (reservationProofLimiter w)
    g (streams w) (log w).
Definition with_streams (w : gate) l :=
  mkGate (tick w) (nonces w) (challenged w) (authPeerLimiter w) (authPubkeyLimiter w) (reservationProofLimiter w)
    (connectionGater w) l (log w).
Definition with_log (w : gate) l :=
  mkGate (tick w) (nonces w) (challenged w) (authPeerLimiter w) (authPubkeyLimiter w) (reservationProofLimiter w)
    (connectionGater w) (streams w) l.

Definition initial : gate := mkGate 0 [] [] [] [] [] empty_gater [] [].

Inductive exn : Type := TokenThrew.

Abbreviation M := (act gate exn).

Section Auth.
Context (env : AuthEnv).

Definition date_now : M Z := λ w, (with_tick w (S (tick w)), Ok (clock env (tick w))).

(** A step of the state with a value. *)
Definition step {A} (f : gate → gate * A) : M A := λ w, let '(w, a) := f w in (w, Ok a).

Definition record (e : event) : M unit := modify (λ w, with_log w (e :: log w)).

Definition refuseAuth (remotePeerId : option string) (reason : string) : M unit :=
  record (Refused remotePeerId reason).

(** * A stream is opened *)

Definition check_peer (remotePeerId : option string) : M RateLimitDecision :=
  now ← date_now;
  step (λ w, let '(l, d) := check (authPeerLimit env) (authPeerLimiter w) remotePeerId now in
             (with_limiters w l (authPubkeyLimiter w) (reservationProofLimiter w), d)).

Definition sweep_nonces (now : Z) : M unit :=
  modify (λ w, with_nonces w (List.filter (λ e, negb (expiresAt e.2 <? now)%Z) (nonces w))).

Definition mint_nonce : M bytes := λ w, (with_tick w (S (tick w)), Ok (randomBytes env (tick w))).

(** [sent]: whether the challenge could be sent. *)
Definition openStream (stream : nat) (remotePeerId : option string) (sent : bool) : M unit :=
  peerLimit ← check_peer remotePeerId;
  if negb (allowed peerLimit) then refuseAuth remotePeerId "rate_limited"
  else
    now ← date_now;
    _ ← sweep_nonces now;
    n ← mint_nonce;
    now2 ← date_now;
    _ ← modify (λ w, with_nonces w (jset (nonces w) (hex n) (mkNonce n (now2 + NONCE_TTL_MS) false)));
    _ ← record (Minted remotePeerId n now2);
    if sent then modify (λ w, with_challenged w (jset (challenged w) stream (n, remotePeerId))) else mret tt.

(** * The response *)

(** The reason for a refusal, or when the token was checked and its expiry. *)
Definition checkOnlineToken (resp : RelayAuthResponse) (authedPubkeyHex : string) : M (result string (Z * Z)) :=
  match online_token resp with
  | None => mret (Err "online_token_required")
  | Some token =>
      now ← date_now;
      match verifyOnlineToken (ed_verify env) token (directoryPubkeys env) now with
      | None => throw TokenThrew
      | Some (Err reason) =>
          mret (Err match reason with
                    | online_token_malformed => "online_token_malformed"
                    | online_token_signature_invalid => "online_token_signature_invalid"
                    | online_token_expired => "online_token_expired"
                    | online_token_lifetime_too_long => "online_token_lifetime_too_long"
                    | online_token_no_directory_key => "online_token_no_directory_key"
                    end)
      | Some (Ok (agentPubkey, exp)) =>
          if negb (bool_decide (hex agentPubkey = authedPubkeyHex)) then mret (Err "online_token_pubkey_mismatch")
          else mret (Ok (now, exp))
      end
  end.

(** The nonce of the stream: known, in time and unused; it is gone afterwards.  The
    value is when it was taken. *)
Definition take_nonce (n : bytes) : M (result string Z) :=
  entry ← gets (λ w, jget (nonces w) (hex n));
  match entry with
  | None => mret (Err "nonce_unknown")
  | Some e =>
      now ← date_now;
      if (expiresAt e <? now)%Z then
        _ ← modify (λ w, with_nonces w (jdel (nonces w) (hex n))); mret (Err "nonce_expired")
      else if used e then mret (Err "nonce_reused")
      else _ ← modify (λ w, with_nonces w (jdel (nonces w) (hex n))); mret (Ok now)
  end.

Definition isReservationProof (resp : RelayAuthResponse) : bool :=
  bool_decide (purpose resp = Some "reservation").

Definition check_pubkey (resp : RelayAuthResponse) (authedPubkeyHex : string) : M RateLimitDecision :=
  now ← date_now;
  step (λ w,
    if isReservationProof resp then
      let '(l, d) := check (reservationProofLimit env) (reservationProofLimiter w) (Some authedPubkeyHex) now in
      (with_limiters w (authPeerLimiter w) (authPubkeyLimiter w) l, d)
    else
      let '(l, d) := check (authPubkeyLimit env) (authPubkeyLimiter w) (Some authedPubkeyHex) now in
      (with_limiters w (authPeerLimiter w) l (reservationProofLimiter w), d)).

(** [None] without a transport peer id. *)
Definition seat (remotePeerId : option string) (authedPubkeyHex : string) (forReservation : bool)
    : M (option SlotAdmission) :=
  match truthy remotePeerId with
  | None => mret None
  | Some peerId =>
      now ← date_now;
      admission ← step (λ w,
        let '(g, released, a) := admitSlot (gaterOptions env) (connected env (tick w)) (connectionGater w) peerId
                                   authedPubkeyHex forReservation now in
        (with_log (with_gater w g) (map Gone released ++ log w), a));
      _ ← (match admission with
           | Admission => record (Seated peerId authedPubkeyHex forReservation now)
           | SlotRefusal _ _ => mret tt
           end);
      mret (Some admission)
  end.

(** What the signature is over. *)
Definition authHash (n pk : bytes) : bytes := sha256 env (AUTH_DOMAIN +:+ n +:+ pk).

Definition authenticate (n : bytes) (remotePeerId : option string) (resp : RelayAuthResponse) : M unit :=
  taken ← take_nonce n;
  match taken with
  | Err reason => refuseAuth remotePeerId reason
  | Ok takenAt =>
      if negb (verify env (pubkey resp) (authHash n (pubkey resp)) (signature resp))
      then refuseAuth remotePeerId "signature_invalid"
      else
        let authedPubkeyHex := hex (pubkey resp) in
        pubkeyLimit ← check_pubkey resp authedPubkeyHex;
        if negb (allowed pubkeyLimit) then refuseAuth remotePeerId "rate_limited"
        else
          token ← checkOnlineToken resp authedPubkeyHex;
          match token with
          | Err reason => refuseAuth remotePeerId reason
          | Ok (checkedAt, exp) =>
              _ ← record (Proved remotePeerId authedPubkeyHex (isReservationProof resp) n takenAt checkedAt exp);
              admission ← seat remotePeerId authedPubkeyHex (isReservationProof resp);
              match admission with
              | Some (SlotRefusal _ _) => refuseAuth remotePeerId "slot_cap_exceeded"
              | Some Admission | None =>
                  if isReservationProof resp then mret tt
                  else modify (λ w, with_streams w (list_union (streams w) [authedPubkeyHex]))
              end
          end
  end.

(** The first frame of a challenged stream; [None] is any other frame. *)
Definition firstFrame (stream : nat) (resp : option RelayAuthResponse) : M unit :=
  waiting ← gets (λ w, jget (challenged w) stream);
  match waiting with
  | None => mret tt
  | Some (n, remotePeerId) =>
      _ ← modify (λ w, with_challenged w (jdel (challenged w) stream));
      match resp with
      | None => mret tt
      | Some resp => authenticate n remotePeerId resp
      end
  end.

(** * The other hooks *)

(** libp2p asks whether to grant a reservation. *)
Definition askReservation (peerId : string) : M bool := step (λ w,
  let now i := clock env (tick w + i) in
  let '(g, denied) := denyInboundRelayReservation (gaterOptions env) (connectionGater w) peerId now in
  (with_log (with_tick (with_gater w g) (tick w + 3))
     ((if denied then [] else [Granted peerId (now 0%nat)]) ++ Asked peerId (now 0%nat) :: log w), denied)).

Definition peerDisconnected (peerId : string) : M unit :=
  modify (λ w, with_log (with_gater w (recordDisconnect (connectionGater w) peerId)) (Gone peerId :: log w)).

Definition activity (peerId : string) : M unit :=
  now ← date_now;
  modify (λ w, with_gater w (recordActivity (connectionGater w) peerId now)).

Definition reap : M (list ReapedSlot) :=
  sweepNow ← date_now;
  now ← date_now;
  step (λ w, let '(g, reaped) := reapIdleSlots (gaterOptions env) (connectionGater w) sweepNow now in
             (with_log (with_gater w g) (map (λ c, Gone (r_peerId c)) reaped ++ log w), reaped)).

Inductive input : Type :=
| Open (stream : nat) (remotePeerId : option string) (sent : bool)
| First (stream : nat) (resp : option RelayAuthResponse)
| Ask (peerId : string)
| Disconnected (peerId : string)
| Activity (peerId : string)
| Reap
| Bind (sessionIdHex initiator counterparty : string)
| Unbind (sessionIdHex : string).

Definition run_input (w : gate) (i : input) : gate :=
  match i with
  | Open stream peer sent => (openStream stream peer sent w).1
  | First stream resp => (firstFrame stream resp w).1
  | Ask peerId => (askReservation peerId w).1
  | Disconnected peerId => (peerDisconnected peerId w).1
  | Activity peerId => (activity peerId w).1
  | Reap => (reap w).1
  | Bind sid a b => with_gater w (recordSessionBinding (connectionGater w) sid a b)
  | Unbind sid => with_gater w (removeSessionBinding (connectionGater w) sid)
  end.

Definition run (w : gate) (inputs : list input) : gate := foldl run_input w inputs.

End Auth.
End RelayAuth.
