(* ===== verification/RelayAuthTheorems.v ===== *)
(** The invariant of a relay's authentication: every decision of the log is justified by
    the earlier ones, every nonce is answered once, and the ledger of slots agrees with
    the log. *)
From S2P Require Import Prelude Text JsMap Bytes Effects OnlineToken Relay RelayGater RelayGaterTheorems RelayAuth.
Import Text JsMap Effects Relay OnlineToken RelayGater RelayGaterTheorems RelayAuth.

Module RelayAuthInvariant.

#[global] Instance event_eq_dec : EqDecision event.
Proof. solve_decision. Defined.

Section Auth.
Context (env : AuthEnv).

(** * What justifies a decision *)

Definition proved_nonce (e : event) : option bytes :=
  match e with Proved _ _ _ n _ _ _ => Some n | _ => None end.

Definition proved_nonces (l : list event) : list bytes := omap proved_nonce l.

(** A nonce that may be answered at a time, after the events of a log: since it was last
    stored no proof answered it, and it was stored at an earlier reading of the clock,
    at most its time to live ago. *)
Definition fresh (n : bytes) (takenAt : Z) (l : list event) : Prop :=
  ∃ peer newer older j k,
    l = newer ++ Minted peer n (clock env j) :: older ∧ n ∉ proved_nonces newer ∧
    j < k ∧ takenAt = clock env k ∧ (takenAt <= clock env j + NONCE_TTL_MS)%Z.

(** A proof of possession, made after the events of a log: a fresh nonce, minted for a
    stream of this very peer; a signature of the key over it; and a directory's token
    for that key, in force when it was checked. *)
Definition possession (peer : option string) (resp : RelayAuthResponse) (pubkeyHex : string) (n : bytes)
    (takenAt checkedAt exp : Z) (l : list event) : Prop :=
  pubkeyHex = hex (pubkey resp) ∧
  verify env (pubkey resp) (authHash env n (pubkey resp)) (signature resp) = true ∧
  fresh n takenAt l ∧ (∃ mintedAt, Minted peer n mintedAt ∈ l) ∧
  ∃ token, online_token resp = Some token ∧
    verifyOnlineToken (ed_verify env) token (directoryPubkeys env) checkedAt = Some (Ok (pubkey resp, exp)).

(** A peer's standing permission to hold a reservation, after the events of a log: it
    was admitted with a reservation proof and has been connected since, or it asked
    again within the time its proof is remembered. *)
Inductive credential (id : string) : list event → Prop :=
| cred_admitted a t l : credential id (Seated id a true t :: l)
| cred_recalled a ta t l :
    Seated id a true ta ∈ l → (t < ta + PROVEN_PEER_MEMORY_MS)%Z → credential id (Asked id t :: l)
| cred_kept e l : e ≠ Gone id → credential id l → credential id (e :: l).

Definition justified (e : event) (l : list event) : Prop :=
  match e with
  | Proved peer pk forReservation n takenAt checkedAt exp =>
      ∃ resp, possession peer resp pk n takenAt checkedAt exp l ∧ forReservation = isReservationProof resp
  | Seated id pk forReservation _ =>
      ∃ released n takenAt checkedAt exp l',
        l = map Gone released ++ Proved (Some id) pk forReservation n takenAt checkedAt exp :: l'
  | Granted id _ => credential id l
  | _ => True
  end.

Fixpoint justified_log (l : list event) : Prop :=
  match l with [] => True | e :: l => justified e l ∧ justified_log l end.

Lemma justified_at l e post pre : justified_log l → l = post ++ e :: pre → justified e pre.
Proof.
  intros Hl ->. induction post as [|x post IH]; [apply Hl|]. apply IH, Hl.
Qed.

Lemma credential_gone id released l : id ∉ released → credential id l → credential id (map Gone released ++ l).
Proof.
  intros Hn Hc. induction released as [|x released IH]; [done|]. apply not_elem_of_cons in Hn as [Hx Hn].
  apply cred_kept; [congruence|by apply IH].
Qed.

Lemma credential_admission id l :
  credential id l → ∃ a ta, Seated id a true ta ∈ l.
Proof.
  induction 1 as [a t l|a ta t l Hin _|e l _ _ (a & ta & Hin)]; exists a; eexists.
  - left.
  - right. exact Hin.
  - right. exact Hin.
Qed.

(** * The ledger and the log *)

Record slots_ok (g : gater) (l : list event) : Prop := mkSlotsOk {
  so_ledger : ledger_ok (gaterOptions env) g;
  so_slots : ∀ id s, jget (slots g) id = Some s → provenForReservation s = true → credential id l;
  so_proofs : ∀ id a exp, jget (provenPeers g) id = Some (a, exp) →
    ∃ ta, exp = (ta + PROVEN_PEER_MEMORY_MS)%Z ∧ Seated id a true ta ∈ l;
}.

Lemma slots_ok_event g l e : (∀ id, e ≠ Gone id) → slots_ok g l → slots_ok g (e :: l).
Proof.
  intros He [Hl Hs Hp]. split; [done| |].
  - intros id s Hg Hr. apply cred_kept; [done|by eapply Hs].
  - intros id a exp Hg. destruct (Hp id a exp Hg) as (ta & -> & Hin). exists ta. split; [done|by right].
Qed.

Lemma slots_ok_release g l ids : slots_ok g l → slots_ok (foldl releaseSlot g ids) (map Gone ids ++ l).
Proof.
  intros [Hl Hs Hp]. split; [by apply ledger_release| |].
  - intros id s Hg Hr. destruct (decide (id ∈ ids)) as [Hin|Hn].
    + by rewrite (release_absent (gaterOptions env)) in Hg.
    + rewrite (release_other (gaterOptions env)) in Hg by done. apply credential_gone; [done|by eapply Hs].
  - intros id a exp. rewrite release_proofs. intros Hg. destruct (Hp id a exp Hg) as (ta & -> & Hin).
    exists ta. split; [done|]. apply elem_of_app. by right.
Qed.

(** A gater that changed none of what the log speaks of. *)
Lemma slots_ok_same g g' l :
  slots_ok g l → ledger_ok (gaterOptions env) g' → provenPeers g' = provenPeers g →
  (∀ id s, jget (slots g') id = Some s → provenForReservation s = true →
     ∃ s', jget (slots g) id = Some s' ∧ provenForReservation s' = true) →
  slots_ok g' l.
Proof.
  intros [Hl Hs Hp] Hl' Ep Hsub. split; [done| |by rewrite Ep].
  intros id s Hg Hr. destruct (Hsub id s Hg Hr) as (s' & Hg' & Hr'). by eapply Hs.
Qed.

Lemma slots_ok_activity g l id now : slots_ok g l → slots_ok (recordActivity g id now) l.
Proof.
  intros Hok. eapply slots_ok_same; [exact Hok|by apply ledger_activity, Hok| |];
    unfold recordActivity; destruct (jget (slots g) id) as [s|] eqn:E; try done.
  - intros id' s'. cbn. rewrite jget_jset. case_decide as Hd; [|by eauto].
    intros [= <-] Hr. subst id'. by exists s.
  - by eauto.
Qed.

Lemma slots_ok_asks g l m : slots_ok g l → slots_ok (with_asks g m) l.
Proof.
  intros Hok. eapply slots_ok_same; [exact Hok| |done|by eauto].
  by apply (ledger_same _ g); [|apply Hok|apply Hok].
Qed.

Lemma slots_ok_sweep g l now : slots_ok g l → slots_ok (sweepProofBookkeeping g now) l.
Proof.
  intros [Hl Hs Hp]. apply slots_ok_asks. split; [|done|].
  - by apply (ledger_same _ g); [|apply jwf_filter, Hl|].
  - intros id a exp. cbn. rewrite jget_filter by apply Hl. destruct (jget (provenPeers g) id) as [[a' exp']|] eqn:E; [|done].
    cbn. destruct (now <? exp')%Z; [|done]. intros [= -> ->]. by apply Hp.
Qed.

(** What admission leaves, at the moment the agent's proof is on top of the log. *)
Lemma slots_ok_admit g l connected id agent forReservation now :
  slots_ok g l →
  let '(g', released, admission) := admitSlot (gaterOptions env) connected g id agent forReservation now in
  match admission with
  | Admission => slots_ok g' (Seated id agent forReservation now :: map Gone released ++ l)
  | SlotRefusal _ _ => slots_ok g' (map Gone released ++ l)
  end.
Proof.
  intros Hok. pose proof (ledger_admit (gaterOptions env) connected g id agent forReservation now (so_ledger _ _ Hok)) as Hled.
  revert Hled. unfold admitSlot. cbv zeta. set (ids := map fst _).
  assert (id ∉ ids) as Hid.
  { intros ([k s] & -> & Hin)%list_elem_of_fmap. apply list_elem_of_In, List.filter_In in Hin as [_ H].
    unfold reclaimable in H. cbn in H. bools. done. }
  pose proof (slots_ok_release g l ids Hok) as Hok1.
  rewrite <- (release_other (gaterOptions env) g ids id (so_ledger _ _ Hok) Hid). set (g1 := foldl releaseSlot g ids) in *.
  destruct (_ && _); [by intros _|]. cbn [fst]. intros Hled.
  apply (slots_ok_event _ _ (Seated id agent forReservation now)) in Hok1; [|done].
  destruct Hok1 as [Hl1 Hs1 Hp1]. split; [done| |].
  - intros id' s. cbn [slots with_slots]. rewrite jget_jset. case_decide as Hd.
    + intros [= <-]. subst id'. destruct forReservation; [intros _; apply cred_admitted|].
      destruct (jget (slots g1) id) as [s0|] eqn:E; cbn; [|done]. rewrite orb_false_r. intros Hr. by eapply Hs1.
    + by destruct forReservation; apply Hs1.
  - intros id' a exp. destruct forReservation; cbn; [|by apply Hp1]. rewrite jget_jset. case_decide as Hd; [|by apply Hp1].
    intros [= <- <-]. subst id'. exists now. split; [done|left].
Qed.

(** The gate: what is remembered is licensed by the ask itself. *)
Lemma slots_ok_deny g l id now :
  slots_ok g l →
  let '(g', denied) := denyInboundRelayReservation (gaterOptions env) g id now in
  slots_ok g' (Asked id (now 0%nat) :: l) ∧ (denied = false → credential id (Asked id (now 0%nat) :: l)).
Proof.
  intros Hok. pose proof (ledger_deny (gaterOptions env) g id now (so_ledger _ _ Hok)) as Hled.
  assert (slots_ok (recall g id now).1 (Asked id (now 0%nat) :: l)) as Hrec.
  { pose proof (ledger_recall (gaterOptions env) g id now (so_ledger _ _ Hok)) as Hl. revert Hl. unfold recall.
    apply (slots_ok_event _ _ (Asked id (now 0%nat))) in Hok as Hok'; [|done].
    destruct (match jget (slots g) id with Some s => provenForReservation s | None => false end); [done|].
    destruct (jget (provenPeers g) id) as [[agent exp]|] eqn:Ep; [|done].
    destruct (now 0%nat <? exp)%Z eqn:Et; cbn [fst]; intros Hl; bools.
    - split; [done| |apply Hok']. intros id' s'. cbn. rewrite jget_jset. case_decide as Hd; [|apply Hok'].
      intros [= <-] _. subst id'. destruct (so_proofs _ _ Hok id agent exp Ep) as (ta & -> & Hin).
      by eapply cred_recalled.
    - split; [done|apply Hok'|]. intros id' a e. cbn. rewrite jget_jdel by apply Hok. case_decide; [done|apply Hok']. }
  pose proof (recall_slot g id now) as Hslot. revert Hled. unfold denyInboundRelayReservation.
  destruct (recall g id now) as [g1 [slot|e]]; [|by intros _]. cbn [fst] in Hrec.
  destruct slot as [s|]; [|intros _; split; [by apply slots_ok_asks|done]].
  specialize (Hslot g1 s eq_refl). destruct (negb _ || _) eqn:Ep; [intros _; split; [by apply slots_ok_asks|done]|]. bools.
  destruct (existsb _ _); [by intros _|]. cbn [fst]. intros Hled. split; [|intros _; by eapply (so_slots _ _ Hrec)].
  eapply slots_ok_same; [exact Hrec|exact Hled|done|]. intros id' s'. cbn. rewrite jget_jset. case_decide; [|by eauto].
  intros [= <-] _. subst id'. by exists s.
Qed.

(** * The invariant *)

(** A nonce minted before now, and what its entry says. *)
Definition minted (w : gate) (h : string) (e : NonceEntry) : Prop :=
  used e = false ∧
  ∃ j peer newer older,
    S j < tick w ∧ h = hex (randomBytes env j) ∧ expiresAt e = (clock env (S j) + NONCE_TTL_MS)%Z ∧
    log w = newer ++ Minted peer (randomBytes env j) (clock env (S j)) :: older ∧
    randomBytes env j ∉ proved_nonces newer.

(** A nonce that was answered cannot be answered again. *)
Definition spent (w : gate) (n : bytes) : Prop :=
  jget (nonces w) (hex n) = None ∧ ∃ j, j < tick w ∧ n = randomBytes env j.

Record auth_inv (w : gate) : Prop := mkInv {
  ai_log : justified_log (log w);
  ai_slots : slots_ok (connectionGater w) (log w);
  ai_streams : ∀ pk, pk ∈ streams w → ∃ peer n takenAt checkedAt exp, Proved peer pk false n takenAt checkedAt exp ∈ log w;
  ai_nonces_wf : jwf (nonces w);
  ai_minted : ∀ h e, jget (nonces w) h = Some e → minted w h e;
  ai_challenged : ∀ stream n peer, jget (challenged w) stream = Some (n, peer) → ∃ at_, Minted peer n at_ ∈ log w;
  ai_challenged_wf : jwf (challenged w);
  ai_spent : Inj (=) (=) (randomBytes env) →
    NoDup (proved_nonces (log w)) ∧ ∀ n, n ∈ proved_nonces (log w) → spent w n;
}.

Lemma inv_initial : auth_inv initial.
Proof.
  split; cbn; try done; [split; [apply ledger_empty|done|done]|by intros ? ?%not_elem_of_nil|constructor|constructor|].
  intros _. split; [constructor|by intros ? ?%not_elem_of_nil].
Qed.

(** The world up to its clock and its limiters. *)
Record same (w w' : gate) : Prop := mkSame {
  sa_log : log w' = log w;
  sa_gater : connectionGater w' = connectionGater w;
  sa_streams : streams w' = streams w;
  sa_nonces : nonces w' = nonces w;
  sa_challenged : challenged w' = challenged w;
  sa_tick : tick w <= tick w';
}.

Lemma spent_later w w' n : nonces w' = nonces w → tick w <= tick w' → spent w n → spent w' n.
Proof. intros En Ht [Hs (j & Hj & ->)]. split; [by rewrite En|]. exists j. split; [lia|done]. Qed.

Lemma proved_app new l : proved_nonces (new ++ l) = proved_nonces new ++ proved_nonces l.
Proof. apply omap_app. Qed.

(** An entry stands while nobody proves anything with its nonce. *)
Lemma minted_later w w' new h e :
  tick w <= tick w' → log w' = new ++ log w → (∀ n, h = hex n → n ∉ proved_nonces new) →
  minted w h e → minted w' h e.
Proof.
  intros Ht El Hnew (Hu & j & peer & newer & older & Hj & -> & He & Ew & Hn). split; [done|].
  exists j, peer, (new ++ newer), older. split_and!; [lia|done|done|by rewrite El, Ew, app_assoc|].
  rewrite proved_app. intros [Hin|Hin]%elem_of_app; [by eapply Hnew|done].
Qed.

Lemma gate_same w w' : same w w' → auth_inv w → auth_inv w'.
Proof.
  intros [El Eg Es En Ec Ht] [Hl Hsl Hst Hwf Hm Hch Hcw Hsp].
  split; rewrite ?El, ?Eg, ?Es, ?En, ?Ec; try done.
  - intros h e He. apply (minted_later w w' []); [done|done|by intros n _ ?%not_elem_of_nil|by apply Hm].
  - intros Hi. destruct (Hsp Hi) as [Hnd Hall]. split; [done|]. intros n Hn.
    eapply spent_later; [done|exact Ht|by apply Hall].
Qed.

#[local] Instance same_preorder : PreOrder same.
Proof.
  split; [by intros w|]. intros w1 w2 w3 [] []. split; try congruence. lia.
Qed.

(** Events that prove nothing. *)
Lemma gate_grows_log w g new :
  auth_inv w → justified_log (new ++ log w) → slots_ok g (new ++ log w) → proved_nonces new = [] →
  auth_inv (with_log (with_gater w g) (new ++ log w)).
Proof.
  intros [Hl Hsl Hst Hwf Hm Hch Hcw Hsp] Hj Hg Hp. split; cbn; try done.
  - intros pk Hpk. destruct (Hst pk Hpk) as (peer & n & t & c & x & Hin). exists peer, n, t, c, x.
    apply elem_of_app. by right.
  - intros h e He. apply (minted_later w _ new); [done|done| |by apply Hm].
    rewrite Hp. by intros n _ ?%not_elem_of_nil.
  - intros stream n peer Hc. destruct (Hch stream n peer Hc) as [t Hin]. exists t. apply elem_of_app. by right.
  - intros Hi. rewrite proved_app, Hp. by apply Hsp.
Qed.

(** An event that proves nothing and takes no slot away. *)
Lemma gate_event w e :
  auth_inv w → justified e (log w) → (∀ id, e ≠ Gone id) → proved_nonce e = None →
  auth_inv (with_log w (e :: log w)).
Proof.
  intros Hw He Hg Hp. apply (gate_grows_log w (connectionGater w) [e]); [done|split; [done|apply Hw]| |].
  - by apply slots_ok_event, Hw.
  - unfold proved_nonces. cbn. by rewrite Hp.
Qed.

Lemma proved_gone ids : proved_nonces (map Gone ids) = [].
Proof. induction ids as [|id ids IH]; [done|]. exact IH. Qed.

Lemma justified_gone ids l : justified_log l → justified_log (map Gone ids ++ l).
Proof. intros Hl. by induction ids. Qed.

(** A ledger from which peers went. *)
Lemma inv_gone w g ids :
  auth_inv w → slots_ok g (map Gone ids ++ log w) → auth_inv (with_log (with_gater w g) (map Gone ids ++ log w)).
Proof.
  intros Hw Hg. apply gate_grows_log; [done|apply justified_gone, Hw|done|apply proved_gone].
Qed.

Lemma inv_gater w g : auth_inv w → slots_ok g (log w) → auth_inv (with_gater w g).
Proof. intros [] Hg. by split. Qed.

(** A first proof with a nonce. *)
Lemma inv_proved w peer resp n takenAt checkedAt exp :
  auth_inv w → possession peer resp (hex (pubkey resp)) n takenAt checkedAt exp (log w) → spent w n →
  (Inj (=) (=) (randomBytes env) → n ∉ proved_nonces (log w)) →
  auth_inv (with_log w (Proved peer (hex (pubkey resp)) (isReservationProof resp) n takenAt checkedAt exp :: log w)).
Proof.
  intros [Hl Hsl Hst Hwf Hm Hch Hcw Hsp] Hp Hs Hn. split; cbn; try done.
  - split; [|done]. by exists resp.
  - by apply slots_ok_event.
  - intros pk Hpk. destruct (Hst pk Hpk) as (p & m & t & c & x & Hin). exists p, m, t, c, x. by right.
  - intros h e He. set (new := [Proved peer (hex (pubkey resp)) (isReservationProof resp) n takenAt checkedAt exp]).
    apply (minted_later w _ new); [done|done| |by apply Hm].
    intros n' -> [->|Hin]%elem_of_cons; [|by apply not_elem_of_nil in Hin]. destruct Hs as [Hs _]. congruence.
  - intros stream m p Hc. destruct (Hch stream m p Hc) as [t Hin]. exists t. by right.
  - intros Hi. destruct (Hsp Hi) as [Hnd Hall]. split; [constructor; [by apply Hn|done]|].
    intros m [->|Hin]%elem_of_cons; [exact Hs|by apply Hall].
Qed.

Lemma inv_stream w pk :
  auth_inv w → (∃ peer n takenAt checkedAt exp, Proved peer pk false n takenAt checkedAt exp ∈ log w) →
  auth_inv (with_streams w (list_union (streams w) [pk])).
Proof.
  intros [Hl Hsl Hst Hwf Hm Hch Hcw Hsp] Hpk. split; cbn; try done.
  intros pk' [Hin|Hin]%list_elem_of_union; [by apply Hst|]. by apply list_elem_of_singleton in Hin as ->.
Qed.

(** Forgetting nonces is always sound. *)
Lemma inv_nonces w m :
  auth_inv w → jwf m → (∀ h e, jget m h = Some e → jget (nonces w) h = Some e) → auth_inv (with_nonces w m).
Proof.
  intros [Hl Hsl Hst Hwf Hm Hch Hcw Hsp] Hw Hsub. split; cbn; try done.
  - intros h e He. by apply (Hm h), Hsub.
  - intros Hi. destruct (Hsp Hi) as [Hnd Hall]. split; [done|]. intros n Hn. destruct (Hall n Hn) as [Hnone Hj].
    split; [|done]. cbn. destruct (jget m (hex n)) as [e|] eqn:E; [|done]. apply Hsub in E. congruence.
Qed.

(** A challenge that was sent carries a nonce stored for its peer; one that is answered
    waits no longer. *)
Lemma inv_challenge w stream n peer :
  auth_inv w → (∃ at_, Minted peer n at_ ∈ log w) →
  auth_inv (with_challenged w (jset (challenged w) stream (n, peer))).
Proof.
  intros [Hl Hsl Hst Hwf Hm Hch Hcw Hsp] Hn. split; cbn; try done; [|by apply jwf_jset].
  intros s n' peer'. rewrite jget_jset. case_decide as Hd; [by intros [= <- <-]|apply Hch].
Qed.

Lemma gate_answered w stream : auth_inv w → auth_inv (with_challenged w (jdel (challenged w) stream)).
Proof.
  intros [Hl Hsl Hst Hwf Hm Hch Hcw Hsp]. split; cbn; try done; [|by apply jwf_jdel].
  intros s n peer. rewrite jget_jdel by done. case_decide as Hd; [done|apply Hch].
Qed.

(** The nonce drawn at this tick is stored. *)
Lemma inv_mint w w' peer n :
  auth_inv w → n = randomBytes env (tick w) → tick w' = tick w + 2 →
  nonces w' = jset (nonces w) (hex n) (mkNonce n (clock env (S (tick w)) + NONCE_TTL_MS) false) →
  log w' = Minted peer n (clock env (S (tick w))) :: log w → connectionGater w' = connectionGater w →
  streams w' = streams w → challenged w' = challenged w → auth_inv w'.
Proof.
  intros [Hl Hsl Hst Hwf Hm Hch Hcw Hsp] -> Et En El Eg Es Ec.
  split; rewrite ?El, ?Eg, ?Es, ?Ec; [done|by apply slots_ok_event| | | | |done|].
  - intros pk Hpk. destruct (Hst pk Hpk) as (p & m & t & c & x & Hin). exists p, m, t, c, x. by right.
  - rewrite En. by apply jwf_jset.
  - intros h e. rewrite En, jget_jset. case_decide as Hd.
    + intros [= <-]. split; [done|]. exists (tick w), peer, [], (log w).
      split_and!; [lia|done|done|done|apply not_elem_of_nil].
    + intros He. apply (minted_later w _ [Minted peer (randomBytes env (tick w)) (clock env (S (tick w)))]);
        [lia|done|by intros m _ ?%not_elem_of_nil|by apply Hm].
  - intros s m p Hc. destruct (Hch s m p Hc) as [t Hin]. exists t. by right.
  - intros Hi. destruct (Hsp Hi) as [Hnd Hall]. split; [done|]. intros m Hin.
    destruct (Hall m Hin) as [Hnone (j & Hj & ->)]. split; [|exists j; split; [lia|done]].
    rewrite En, jget_jset. case_decide as Hd; [|done]. apply (inj hex), Hi in Hd. lia.
Qed.

(** * The operations keep it *)

Definition keeps {A} (m : M A) : Prop := ∀ w, auth_inv w → auth_inv (m w).1.

Lemma gate_keeps_bind {A B} (m : M A) (k : A → M B) : keeps m → (∀ a, keeps (k a)) → keeps (m ≫= k).
Proof.
  intros Hm Hk w Hw. unfold mbind, act_bind. specialize (Hm w Hw). destruct (m w) as [w' [a|e]]; [|done]. by apply Hk.
Qed.

Lemma keeps_same {A} (m : M A) : (∀ w, same w (m w).1) → keeps m.
Proof. intros Hm w. by apply gate_same. Qed.

Lemma same_date_now w : same w (date_now env w).1.
Proof. split; cbn; try done. lia. Qed.

Lemma same_check_peer peer w : same w (check_peer env peer w).1.
Proof.
  unfold check_peer, mbind, act_bind, step. cbn -[check]. destruct (check (authPeerLimit env) _ _ _). split; cbn; try done. lia.
Qed.

Lemma same_check_pubkey resp pk w : same w (check_pubkey env resp pk w).1.
Proof.
  unfold check_pubkey, mbind, act_bind, step. cbn -[check]. destruct (isReservationProof resp);
    [destruct (check (reservationProofLimit env) _ _ _)|destruct (check (authPubkeyLimit env) _ _ _)];
    split; cbn; try done; lia.
Qed.

Lemma keeps_refuse peer reason : keeps (refuseAuth peer reason).
Proof. intros w Hw. by apply gate_event. Qed.

Lemma keeps_openStream stream peer sent : keeps (openStream env stream peer sent).
Proof.
  unfold openStream. apply gate_keeps_bind; [apply keeps_same; intros w; apply same_check_peer|]. intros d.
  destruct (negb (allowed d)); [apply keeps_refuse|].
  apply gate_keeps_bind; [apply keeps_same; intros w; apply same_date_now|]. intros now.
  apply gate_keeps_bind.
  { intros w Hw. apply inv_nonces; [done|apply jwf_filter, Hw|]. intros h e. rewrite jget_filter by apply Hw.
    destruct (jget (nonces w) h) as [e'|]; [|done]. cbn. by destruct (negb _). }
  intros []. intros w Hw. unfold mint_nonce, date_now, record, mbind, act_bind, modify. cbn.
  set (w1 := with_log _ _). assert (auth_inv w1) as Hw1.
  { apply (inv_mint w w1 peer (randomBytes env (tick w))); cbn; try done. lia. }
  assert (Minted peer (randomBytes env (tick w)) (clock env (S (tick w))) ∈ log w1) as Hin by left.
  clearbody w1. destruct sent; [|done]. apply inv_challenge; [done|]. by eexists.
Qed.

(** ** Authentication *)

(** A nonce taken in time, which no proof has used since it was stored. *)
Record answerable (n : bytes) (takenAt : Z) (w : gate) : Prop := mkAnswerable {
  an_fresh : fresh n takenAt (log w);
  an_spent : spent w n;
  an_new : Inj (=) (=) (randomBytes env) → n ∉ proved_nonces (log w);
}.

Lemma answerable_same n takenAt w w' : same w w' → answerable n takenAt w → answerable n takenAt w'.
Proof.
  intros [El _ _ En _ Ht] [Hf Hs Hn]. split; [by rewrite El|by eapply spent_later|by rewrite El].
Qed.

Lemma take_nonce_spec n w :
  auth_inv w →
  auth_inv (take_nonce env n w).1 ∧ log (take_nonce env n w).1 = log w ∧
  ∀ takenAt, (take_nonce env n w).2 = Ok (Ok takenAt) → answerable n takenAt (take_nonce env n w).1.
Proof.
  intros Hw. unfold take_nonce, mbind, act_bind, gets, date_now, modify. cbn.
  destruct (jget (nonces w) (hex n)) as [e|] eqn:En; [|done]. cbn.
  set (w1 := with_tick w (S (tick w))). assert (auth_inv w1) as Hw1.
  { by apply (gate_same w); [split; cbn; try done; lia|]. }
  assert (auth_inv (with_nonces w1 (jdel (nonces w) (hex n)))) as Hw2.
  { apply inv_nonces; [done|apply jwf_jdel, Hw|]. intros h e'. rewrite jget_jdel by apply Hw. by case_decide. }
  destruct (ai_minted _ Hw _ _ En) as (Hu & j & peer & newer & older & Hj & Hh & He & El & Hn).
  destruct (expiresAt e <? clock env (tick w))%Z eqn:Et; bools; [by split|].
  rewrite Hu. cbn. split; [done|]. split; [done|]. intros takenAt [= <-]. apply (inj hex) in Hh. split.
  - exists peer, newer, older, (S j), (tick w). rewrite Hh. split_and!; [exact El|done|lia|done|lia].
  - split; [|exists j; cbn; split; [lia|done]]. cbn. by rewrite jget_jdel, decide_True by (done || apply Hw).
  - intros Hi Hin. cbn in Hin. destruct (ai_spent _ Hw Hi) as [_ Hall]. destruct (Hall n Hin) as [Hnone _]. congruence.
Qed.

(** The token that is accepted names the authenticated key. *)
Lemma checkOnlineToken_spec resp w :
  same w (checkOnlineToken env resp (hex (pubkey resp)) w).1 ∧
  ∀ checkedAt exp, (checkOnlineToken env resp (hex (pubkey resp)) w).2 = Ok (Ok (checkedAt, exp)) →
    ∃ token, online_token resp = Some token ∧
      verifyOnlineToken (ed_verify env) token (directoryPubkeys env) checkedAt = Some (Ok (pubkey resp, exp)).
Proof.
  unfold checkOnlineToken, mbind, act_bind, date_now. destruct (online_token resp) as [token|]; [|done]. cbn.
  assert (same w (with_tick w (S (tick w)))) as Hs by apply same_date_now.
  destruct (verifyOnlineToken _ _ _ _) as [[[pk exp]|reason]|] eqn:Ev; [|by destruct reason|done].
  destruct (negb _) eqn:Ep; cbn; [done|]. split; [done|]. intros checkedAt exp' [= <- <-]. bools.
  apply (inj hex) in Ep as ->. by exists token.
Qed.

Lemma truthy_id (p : option string) id : truthy p = Some id → p = Some id.
Proof. destruct p as [s|]; [|done]. cbn. by destruct s; intros [= <-]. Qed.

(** Admission, just after the proof. *)
Lemma seat_keeps w peer pk forReservation n takenAt checkedAt exp l :
  auth_inv w → log w = Proved peer pk forReservation n takenAt checkedAt exp :: l →
  auth_inv (seat env peer pk forReservation w).1 ∧
  Proved peer pk forReservation n takenAt checkedAt exp ∈ log (seat env peer pk forReservation w).1.
Proof.
  intros Hw El. unfold seat. destruct (truthy peer) as [id|] eqn:Ep; [|cbn; rewrite El; split; [done|left]].
  apply truthy_id in Ep as ->. unfold mbind, act_bind, date_now, step, record, modify. cbn -[admitSlot].
  pose proof (slots_ok_admit (connectionGater w) (log w) (connected env (S (tick w))) id pk forReservation
                (clock env (tick w)) (ai_slots _ Hw)) as Hs.
  destruct (admitSlot _ _ _ _ _ _ _) as [[g released] a]. cbn.
  assert (auth_inv (with_tick w (S (tick w)))) as Hw1 by (apply (gate_same w), Hw; apply same_date_now).
  destruct a; cbn.
  - split; [|do 1 right; apply elem_of_app; right; rewrite El; left].
    set (w1 := with_tick w (S (tick w))) in *.
    apply (gate_grows_log w1 g (Seated id pk forReservation (clock env (tick w)) :: map Gone released)); [done| |done|].
    + split; [|apply justified_gone, Hw1]. cbn. rewrite El. by repeat eexists.
    + apply (proved_gone released).
  - split; [by apply (inv_gone (with_tick w (S (tick w))))|]. apply elem_of_app. right. rewrite El. left.
Qed.

Lemma authenticate_inv n peer resp w :
  auth_inv w → (∃ at_, Minted peer n at_ ∈ log w) → auth_inv (authenticate env n peer resp w).1.
Proof.
  intros Hw Hm. unfold authenticate. destruct (take_nonce_spec n w Hw) as (Hw1 & El & Hok). revert Hw1 El Hok.
  unfold mbind at 1, act_bind at 1. destruct (take_nonce env n w) as [w1 [[takenAt|reason]|e]]; cbn [fst snd];
    intros Hw1 El Hok; [|by apply keeps_refuse|done]. specialize (Hok _ eq_refl). rewrite <- El in Hm. clear El.
  destruct (verify env _ _ _) eqn:Ev; cbn [negb]; [|by apply keeps_refuse]. cbv zeta.
  pose proof (same_check_pubkey resp (hex (pubkey resp)) w1) as Hs1.
  unfold mbind at 1, act_bind at 1. destruct (check_pubkey env resp _ w1) as [w2 [d|e]]; cbn [fst snd] in *;
    [|by apply (gate_same w1)].
  apply (answerable_same _ _ _ _ Hs1) in Hok. apply (gate_same _ _ Hs1) in Hw1.
  rewrite <- (sa_log _ _ Hs1) in Hm. clear Hs1.
  destruct (negb (allowed d)); [by apply keeps_refuse|].
  destruct (checkOnlineToken_spec resp w2) as [Hs2 Htok]. unfold mbind at 1, act_bind at 1. revert Hs2 Htok.
  destruct (checkOnlineToken env resp _ w2) as [w3 [[[checkedAt exp]|reason]|e]]; cbn [fst snd]; intros Hs2 Htok;
    [|apply keeps_refuse; by apply (gate_same w2)|by apply (gate_same w2)].
  specialize (Htok _ _ eq_refl). apply (answerable_same _ _ _ _ Hs2) in Hok. apply (gate_same _ _ Hs2) in Hw1.
  rewrite <- (sa_log _ _ Hs2) in Hm. clear Hs2. destruct Hok as [Hf Hsp Hn].
  assert (possession peer resp (hex (pubkey resp)) n takenAt checkedAt exp (log w3)) as Hposs by done.
  pose proof (inv_proved w3 peer resp n takenAt checkedAt exp Hw1 Hposs Hsp Hn) as Hw4.
  unfold mbind at 1, act_bind at 1, record, modify. cbn [fst snd].
  destruct (seat_keeps _ peer (hex (pubkey resp)) (isReservationProof resp) n takenAt checkedAt exp (log w3) Hw4 eq_refl) as [Hw5 Hin].
  unfold mbind at 1, act_bind at 1. destruct (seat env _ _ _ _) as [w5 [a|e]]; cbn [fst snd] in *; [|done].
  assert (auth_inv ((if isReservationProof resp then mret tt
    else modify (λ w, with_streams w (list_union (streams w) [hex (pubkey resp)])) : M unit) w5).1) as Hend.
  { destruct (isReservationProof resp) eqn:Er; [done|]. apply inv_stream; [done|]. by repeat eexists. }
  destruct a as [[|held cap]|]; [exact Hend|by apply keeps_refuse|exact Hend].
Qed.

Lemma keeps_firstFrame stream resp : keeps (firstFrame env stream resp).
Proof.
  intros w Hw. unfold firstFrame, mbind, act_bind, gets, modify. cbn.
  destruct (jget (challenged w) stream) as [[n peer]|] eqn:Ec; [|done]. cbn.
  pose proof (gate_answered w stream Hw) as Hw1. pose proof (ai_challenged _ Hw _ _ _ Ec) as Hm.
  destruct resp as [resp|]; [by apply authenticate_inv|done].
Qed.

(** ** The gater's hooks *)

Lemma keeps_askReservation id : keeps (askReservation env id).
Proof.
  intros w Hw. unfold askReservation, step. cbv zeta. set (now := λ i, clock env (tick w + i)).
  pose proof (slots_ok_deny (connectionGater w) (log w) id now (ai_slots _ Hw)) as Hs. revert Hs.
  destruct (denyInboundRelayReservation _ _ _ _) as [g denied]. intros [Hg Hd]. cbn.
  assert (auth_inv (with_log (with_tick (with_gater w g) (tick w + 3)) (Asked id (now 0%nat) :: log w))) as Hw1.
  { assert (auth_inv (with_tick w (tick w + 3))) as Ht by (apply (gate_same w), Hw; split; cbn; try done; lia).
    apply (gate_grows_log _ g [Asked id (now 0%nat)] Ht); [split; [done|apply Hw]|done|done]. }
  destruct denied; [done|]. apply (gate_event _ (Granted id (now 0%nat))) in Hw1; [done| |done|done]. by apply Hd.
Qed.

Lemma keeps_reap : keeps (reap env).
Proof.
  intros w Hw. unfold reap, mbind, act_bind, date_now, step. cbn -[reapIdleSlots].
  assert (auth_inv (with_tick w (S (S (tick w))))) as Hw1 by (apply (gate_same w), Hw; split; cbn; try done; lia).
  unfold reapIdleSlots. cbv zeta. set (g := sweepProofBookkeeping _ _).
  assert (slots_ok g (log w)) as Hg by (by apply slots_ok_sweep, ai_slots).
  destruct (_ <=? _)%Z; cbn; [by apply (inv_gater (with_tick w (S (S (tick w)))))|].
  set (cs := take _ _). rewrite fold_release.
  replace (map (λ c, Gone (r_peerId c)) cs) with (map Gone (map r_peerId cs)) by by rewrite map_map.
  by apply (inv_gone (with_tick w (S (S (tick w))))), slots_ok_release.
Qed.

Lemma gate_input_inv w i : auth_inv w → auth_inv (run_input env w i).
Proof.
  intros Hw. destruct i as [stream peer sent|stream resp|id|id|id| |sid a b|sid]; cbn -[reap askReservation recordActivity].
  - by apply keeps_openStream.
  - by apply keeps_firstFrame.
  - by apply keeps_askReservation.
  - apply (inv_gone w _ [id]); [done|]. apply (slots_ok_release _ _ [id]), ai_slots, Hw.
  - apply (inv_gater (with_tick w (S (tick w)))); [apply (gate_same w), Hw; apply same_date_now|].
    apply slots_ok_activity, (ai_slots w), Hw.
  - by apply keeps_reap.
  - apply inv_gater; [done|]. eapply slots_ok_same; [apply Hw| |done|by eauto].
    by apply (ledger_same _ (connectionGater w)); [|apply Hw|apply Hw].
  - apply inv_gater; [done|]. eapply slots_ok_same; [apply Hw| |done|by eauto].
    by apply (ledger_same _ (connectionGater w)); [|apply Hw|apply Hw].
Qed.

Lemma gate_run_inv inputs : auth_inv (run env initial inputs).
Proof.
  unfold run. generalize inv_initial. generalize initial. induction inputs as [|i inputs IH]; intros w Hw; [done|].
  by apply IH, gate_input_inv.
Qed.

End Auth.
End RelayAuthInvariant.

(** What a relay's authentication guarantees over any sequence of streams, answers,
    reservations, dials, disconnections and reaps, and a demonstration. *)
Import Text JsMap Bytes Effects Relay OnlineToken RelayGater RelayGaterTheorems RelayAuth RelayAuthInvariant.

Module RelayAuthTheorems.

(** * Bindings *)

(** Which pair each session is bound to, after the inputs. *)
Definition bound (inputs : list input) : gmap string (string * string) :=
  foldl (λ m i, match i with
                | Bind sid a b => <[sid := (a, b)]> m
                | Unbind sid => delete sid m
                | _ => m
                end) ∅ inputs.

Section Auth.
Context (env : AuthEnv).

(** The bindings of the relay are those of the inputs. *)
Definition agrees (w : gate) (m : gmap string (string * string)) : Prop :=
  jwf (sessionBindings (connectionGater w)) ∧ ∀ sid, jget (sessionBindings (connectionGater w)) sid = m !! sid.

(** An operation that leaves the bindings alone. *)
Definition unbinding {A} (m : M A) : Prop :=
  ∀ w, sessionBindings (connectionGater (m w).1) = sessionBindings (connectionGater w).

Lemma unbinding_bind {A B} (m : M A) (k : A → M B) : unbinding m → (∀ a, unbinding (k a)) → unbinding (m ≫= k).
Proof.
  intros Hm Hk w. unfold mbind, act_bind. specialize (Hm w). destruct (m w) as [w' [a|e]]; [|done]. cbn in Hm.
  by rewrite Hk.
Qed.

Lemma unbinding_same {A} (m : M A) : (∀ w, same w (m w).1) → unbinding m.
Proof. intros Hm w. by rewrite (sa_gater _ _ (Hm w)). Qed.

Lemma release_bindings g ids : sessionBindings (foldl releaseSlot g ids) = sessionBindings g.
Proof. revert g. induction ids as [|id ids IH]; intros g; [done|]. cbn. by rewrite IH. Qed.

Lemma unbinding_seat peer pk forReservation : unbinding (seat env peer pk forReservation).
Proof.
  unfold seat. destruct (truthy peer) as [id|]; [|done]. apply unbinding_bind; [done|]. intros now.
  apply unbinding_bind.
  - intros w. unfold step, admitSlot. cbv zeta. destruct (_ && _); cbn; [by rewrite release_bindings|].
    by destruct forReservation; cbn; rewrite release_bindings.
  - intros [|held cap]; apply unbinding_bind; done.
Qed.

Lemma unbinding_authenticate n peer resp : unbinding (authenticate env n peer resp).
Proof.
  unfold authenticate. apply unbinding_bind.
  { intros w. unfold take_nonce, mbind, act_bind, gets, date_now, modify. cbn. split_matches. }
  intros [takenAt|reason]; [|done]. destruct (negb _); [done|]. cbv zeta.
  apply unbinding_bind; [apply unbinding_same; intros w; apply same_check_pubkey|]. intros d. destruct (negb _); [done|].
  apply unbinding_bind.
  { intros w. unfold checkOnlineToken, mbind, act_bind, date_now. split_matches. }
  intros [[checkedAt exp]|reason]; [|done]. apply unbinding_bind; [done|]. intros [].
  apply unbinding_bind; [apply unbinding_seat|]. intros [[|held cap]|]; by destruct (isReservationProof resp).
Qed.

Lemma unbinding_openStream stream peer sent : unbinding (openStream env stream peer sent).
Proof.
  unfold openStream. apply unbinding_bind; [apply unbinding_same; intros w; apply same_check_peer|]. intros d.
  destruct (negb _); [done|]. repeat (apply unbinding_bind; [done|intros ?]). by destruct sent.
Qed.

Lemma unbinding_deny g id now :
  sessionBindings (denyInboundRelayReservation (gaterOptions env) g id now).1 = sessionBindings g.
Proof. unfold denyInboundRelayReservation, recall. split_matches. Qed.

Lemma unbinding_input w i :
  match i with Bind _ _ _ | Unbind _ => True | _ =>
    sessionBindings (connectionGater (run_input env w i)) = sessionBindings (connectionGater w) end.
Proof.
  destruct i as [stream peer sent|stream resp|id|id|id| |sid a b|sid]; cbn -[reap askReservation]; try done.
  - apply unbinding_openStream.
  - unfold firstFrame. apply unbinding_bind; [done|]. intros [[n peer]|]; [|done].
    apply unbinding_bind; [done|]. intros []. destruct resp; [apply unbinding_authenticate|done].
  - unfold askReservation, step. cbv zeta. pose proof (unbinding_deny (connectionGater w) id (λ i, clock env (tick w + i))) as E.
    by destruct (denyInboundRelayReservation _ _ _ _) as [g denied].
  - unfold activity, mbind, act_bind, date_now, modify, recordActivity. cbn. by case_match.
  - unfold reap, reapIdleSlots, mbind, act_bind, date_now, step. cbv zeta. cbn -[slotCount].
    destruct (_ <=? _)%Z; [done|]. cbn. by rewrite fold_release, release_bindings.
Qed.

Lemma agrees_input w m i :
  agrees w m → agrees (run_input env w i)
    match i with Bind sid a b => <[sid := (a, b)]> m | Unbind sid => delete sid m | _ => m end.
Proof.
  intros [Hw Hg]. pose proof (unbinding_input w i) as E. destruct i; unfold agrees; rewrite ?E; try done; cbn.
  - split; [by apply jwf_jset|]. intros sid. rewrite jget_jset, lookup_insert. by rewrite Hg.
  - split; [by apply jwf_jdel|]. intros sid. rewrite jget_jdel, lookup_delete by done. by rewrite Hg.
Qed.

Lemma run_agrees inputs : agrees (run env initial inputs) (bound inputs).
Proof.
  assert (agrees initial ∅) as H by (split; [constructor|done]). revert H. unfold run, bound.
  generalize initial. generalize (∅ : gmap string (string * string)).
  induction inputs as [|i inputs IH]; intros m w Hw; [done|]. cbn [foldl]. by apply IH, agrees_input.
Qed.

(** Who may dial through the relay.  After any inputs, a relayed dial between two
    peers is let through exactly when some session that was bound, and since then
    neither unbound nor bound to others, pairs the two, in either order. *)
Theorem dial_needs_binding inputs s d :
  denyOutboundRelayedConnection (connectionGater (run env initial inputs)) s d = false ↔
  ∃ sid, bound inputs !! sid = Some (s, d) ∨ bound inputs !! sid = Some (d, s).
Proof.
  destruct (run_agrees inputs) as [Hw Hg]. unfold denyOutboundRelayedConnection.
  rewrite negb_false_iff, existsb_exists. unfold binds, jvals. setoid_rewrite orb_true_iff.
  setoid_rewrite bool_decide_eq_true. setoid_rewrite <- Hg. split.
  - intros (b & Hin & Hb). apply list_elem_of_In, list_elem_of_fmap in Hin as ([sid b'] & -> & Hin).
    cbn in Hb. apply jget_elem_iff in Hin; [|done]. exists sid. rewrite Hin. destruct Hb as [->| ->]; auto.
  - intros (sid & [H|H]); apply jget_elem in H; apply (list_elem_of_fmap_2 snd) in H;
      apply list_elem_of_In in H; eauto.
Qed.

(** * Reservations *)

Lemma admission_possession l id agent forReservation ta :
  justified_log env l → Seated id agent forReservation ta ∈ l →
  ∃ resp n takenAt checkedAt exp newer older,
    l = newer ++ Proved (Some id) agent forReservation n takenAt checkedAt exp :: older ∧
    possession env (Some id) resp agent n takenAt checkedAt exp older ∧ forReservation = isReservationProof resp.
Proof.
  intros Hl (post & pre & E)%list_elem_of_split. pose proof (justified_at env _ _ _ _ Hl E) as (ids & n & t & c & x & l' & ->).
  rewrite app_comm_cons, app_assoc in E. pose proof (justified_at env _ _ _ _ Hl E) as (resp & Hp & Hr).
  by exists resp, n, t, c, x, (post ++ Seated id agent forReservation ta :: map Gone ids), l'.
Qed.

(** C36. A reservation needs a registered agent.  Whenever, after any inputs, the relay
    grants a reservation to a peer, the peer holds a standing credential: it was
    admitted with a reservation proof and has been connected since, or asked
    again, not having gone since, within two minutes of such an admission.  And
    the admission rests on a proof of possession that this very peer made, for the
    declared purpose of a reservation: the agent's key signed, over the relay's
    domain, a nonce that the relay had minted for a stream of this peer, and a
    configured directory's token vouches for that key.  The nonce was fresh: the
    relay took it at most thirty seconds after it was last stored, and no other
    proof had answered it since. *)
Theorem reservation_needs_token inputs post pre id t :
  log (run env initial inputs) = post ++ Granted id t :: pre →
  credential id pre ∧
  ∃ agent ta resp n takenAt checkedAt exp newer older,
    Seated id agent true ta ∈ pre ∧
    pre = newer ++ Proved (Some id) agent true n takenAt checkedAt exp :: older ∧
    possession env (Some id) resp agent n takenAt checkedAt exp older ∧ isReservationProof resp = true.
Proof.
  intros E. pose proof (ai_log _ _ (gate_run_inv env inputs)) as Hl.
  pose proof (justified_at env _ _ _ _ Hl E) as Hc. split; [exact Hc|].
  destruct (credential_admission _ _ Hc) as (agent & ta & Hin).
  assert (justified_log env pre) as Hpre.
  { rewrite E in Hl. clear -Hl. induction post as [|e post IH]; [apply Hl|apply IH, Hl]. }
  destruct (admission_possession _ _ _ _ _ Hpre Hin) as (resp & n & k & c & x & newer & older & Hpr & Hpo & Hr).
  by exists agent, ta, resp, n, k, c, x, newer, older.
Qed.

(** C37. No agent holds more of the table than its share.  After any inputs an agent
    holds at most its cap of reservations, only peers proven for reservation hold
    one, and every key with a delivery stream has proved possession with a token,
    on a fresh nonce, for a purpose other than a reservation. *)
Theorem gate_invariant inputs :
  let w := run env initial inputs in
  (∀ agent, slotCountForAgent (connectionGater w) agent <= slotCap (gaterOptions env)) ∧
  (∀ id s, jget (slots (connectionGater w)) id = Some s → reserved s = true → credential id (log w)) ∧
  (∀ pk, pk ∈ streams w → ∃ peer resp n takenAt checkedAt exp newer older,
     log w = newer ++ Proved peer pk false n takenAt checkedAt exp :: older ∧
     possession env peer resp pk n takenAt checkedAt exp older ∧ isReservationProof resp = false).
Proof.
  cbv zeta. pose proof (gate_run_inv env inputs) as [Hl [Hled Hs _] Hst _ _ _ _ _]. split_and!.
  - apply Hled.
  - intros id s Hg Hr. by eapply Hs, (lg_proven _ _ Hled).
  - intros pk Hpk. destruct (Hst pk Hpk) as (peer & n & t & c & x & Hin).
    destruct (list_elem_of_split _ _ Hin) as (newer & older & E).
    destruct (justified_at env _ _ _ _ Hl E) as (resp & Hp & Hr). by exists peer, resp, n, t, c, x, newer, older.
Qed.

(** A nonce is answered once.  When the random source never repeats a nonce, no two
    proofs the relay ever accepts answer the same nonce: a recorded answer cannot
    be replayed, on the same stream or another. *)
Theorem nonce_answered_once inputs :
  Inj (=) (=) (randomBytes env) → NoDup (proved_nonces (log (run env initial inputs))).
Proof. intros Hi. by apply (ai_spent _ _ (gate_run_inv env inputs) Hi). Qed.

End Auth.

(** * A demonstration *)

(** A clock that ticks by a millisecond, a random source that never repeats, the identity
    for a hash and a signature that repeats the statement; the directory's signature is
    the token's toy one. *)
Definition demo_now : Z := 1699999000000.
Definition demo_gate_env : AuthEnv := {|
  clock := λ n, (demo_now + Z.of_nat n)%Z;
  randomBytes := zeros;
  verify := λ pk hash sig, bool_decide (sig = hash);
  sha256 := λ b, b;
  ed_verify := demo_ed_verify;
  directoryPubkeys := ["good"];
  authPeerLimit := DEFAULT_AUTH_RATE_LIMIT;
  authPubkeyLimit := DEFAULT_AUTH_RATE_LIMIT;
  reservationProofLimit := DEFAULT_RESERVATION_PROOF_RATE_LIMIT;
  gaterOptions := mkOptions 1 3000;
  connected := λ _ _, true;
|}.

(** The nonce of a stream opened at a given tick is drawn two ticks later. *)
Definition demo_response (tick : nat) (purpose : option string) : RelayAuthResponse :=
  mkResponse demo_key (authHash demo_gate_env (zeros (tick + 2)) demo_key) purpose
    (mintOnlineToken demo_sign demo_key (JInt 1700000000000)).

(** A peer proves a reservation, is granted it, goes, and is granted it again; another
    peer of the same agent is refused, as the agent is at its cap. *)
Definition demo_gate_inputs : list input :=
  [ Open 1 (Some "peer") true; First 1 (Some (demo_response 0 (Some "reservation"))); Ask "peer";
    Disconnected "peer"; Ask "peer"; Open 2 (Some "other") true;
    First 2 (Some (demo_response 14 (Some "reservation"))) ].

Definition demo_gate_log : list event := log (run demo_gate_env initial demo_gate_inputs).

Lemma reservation_needs_token_witness :
  demo_gate_log !! 3 = Some (Granted "peer" (demo_now + 11)) ∧
  credential "peer" (drop 4 demo_gate_log) ∧
  (∃ agent ta, Seated "peer" agent true ta ∈ drop 4 demo_gate_log) ∧
  ∃ n takenAt l, fresh demo_gate_env n takenAt l.
Proof.
  destruct (reservation_needs_token demo_gate_env demo_gate_inputs (take 3 demo_gate_log) (drop 4 demo_gate_log)
              "peer" (demo_now + 11)) as (Hc & agent & ta & resp & n & k & c & x & l1 & l2 & Hin & _ & Hp & _).
  - vm_compute. reflexivity.
  - split; [vm_compute; reflexivity|]. split; [exact Hc|]. split; [exists agent, ta; exact Hin|].
    destruct Hp as (_ & _ & Hf & _). exists n, k, l2. exact Hf.
Defined.

Lemma nonce_answered_once_witness :
  NoDup (proved_nonces demo_gate_log) ∧ length (proved_nonces demo_gate_log) = 2.
Proof.
  split; [|vm_compute; reflexivity]. apply (nonce_answered_once demo_gate_env demo_gate_inputs).
  intros j k E. apply (f_equal String.length) in E. rewrite !zeros_length in E. exact E.
Defined.

(** The gater alone: two idle reservations over a line of one, of which the older goes. *)
Definition demo_slot (since : Z) (agent : string) : SlotRecord := mkSlot true true [agent] since None.
Definition demo_full : gater := with_slots empty_gater [("young", demo_slot 500 "a"); ("old", demo_slot 0 "b")].
Definition demo_reap_at : Z := 30000000.

Lemma demo_full_ok : ledger_ok (mkOptions 1 1) demo_full.
Proof.
  split.
  - apply list.NoDup_cons. split; [by intros ?%list_elem_of_singleton|apply NoDup_singleton].
  - constructor.
  - intros id s Hg _. apply jget_elem in Hg. cbn in Hg. set_unfold. naive_solver.
  - intros agent. unfold slotCountForAgent, reservedSlotsForAgent, holds. cbn.
    repeat case_bool_decide; cbn; try lia. set_unfold. naive_solver.
Qed.

Lemma reaper_spec_witness :
  map r_peerId (reapIdleSlots (mkOptions 1 1) demo_full 0 demo_reap_at).2 = ["old"] ∧
  slotCount (reapIdleSlots (mkOptions 1 1) demo_full 0 demo_reap_at).1 + 1 = 2.
Proof.
  split; [vm_compute; reflexivity|].
  destruct (reaper_spec (mkOptions 1 1) demo_full 0 demo_reap_at _ _ demo_full_ok eq_refl) as (_ & _ & _ & Hc & _).
  exact Hc.
Defined.

Lemma proof_is_honoured_witness :
  let g := (admitSlot (mkOptions 1 1) (λ _, true) empty_gater "peer" "a" true 1000).1.1 in
  (denyInboundRelayReservation (mkOptions 1 1) g "peer" (λ _, 2000%Z)).2 = false ∧
  (denyInboundRelayReservation (mkOptions 1 1) (recordDisconnect g "peer") "peer" (λ _, 121000%Z)).2 = true.
Proof.
  cbv zeta. destruct (proof_is_honoured (mkOptions 1 1) empty_gater
    (admitSlot (mkOptions 1 1) (λ _, true) empty_gater "peer" "a" true 1000).1.1 (λ _, true) "peer" "a" [] 1000 (λ _, 2000%Z)) as [H1 _].
  1: apply ledger_empty. 1-3: reflexivity.
  destruct (proof_is_honoured (mkOptions 1 1) empty_gater
    (admitSlot (mkOptions 1 1) (λ _, true) empty_gater "peer" "a" true 1000).1.1 (λ _, true) "peer" "a" [] 1000 (λ _, 121000%Z)) as [_ H2].
  1: apply ledger_empty. 1-3: reflexivity.
  split; [exact H1|]. rewrite H2. reflexivity.
Defined.

End RelayAuthTheorems.
