(* ===== verification/SealFinalRoot.v ===== *)
(** The directory's check of the participants' own signed roots
    (packages/directory/src/seal-final-root.ts) and of the leaves of a
    [seal_submission] frame (packages/directory/src/seal-unilateral-verify.ts).

    [decodeSealPayload], SHA-256 and the content tree are parameters. *)
From Stdlib Require Import Ascii.
From S2P Require Import Prelude Wire JsMap SealChain SealChainTheorems.
Import Wire JsMap SealChain SealChainTheorems.

Module SealFinalRoot.

(** * Submitted leaves *)

Definition MAX_CTRL_PAYLOAD_BYTES : Z := 512.

Definition SEAL_SUBMISSION_LEAF_KINDS : list string := ["msg"; "ctrl"; "doc"; "reject"].

(** [typeof v === "object"] and not null, with its own fields. *)
Definition object_fields (v : jsval) : option (list (string * jsval)) :=
  match v with
  | VObj fs => Some fs
  | VArr _ | VBytes _ => Some []
  | _ => None
  end.

Definition validate_entry (entry : jsval) : result string unit :=
  match object_fields entry with
  | None => Err "seal_submission_leaves_malformed"
  | Some fs =>
      match field "kind" fs with
      | VStr kind =>
          if negb (bool_decide (kind ∈ SEAL_SUBMISSION_LEAF_KINDS))
          then Err "seal_submission_leaf_kind_unknown"
          else match field "content_bytes" fs with
          | VUndef => Ok tt
          | VBytes cb =>
              if negb (bool_decide (kind = "ctrl"))
              then Err "seal_submission_content_bytes_not_permitted"
              else if ((Z.of_nat (String.length cb) =? 0) ||
                       (MAX_CTRL_PAYLOAD_BYTES <? Z.of_nat (String.length cb)))%Z
              then Err "seal_submission_content_bytes_malformed"
              else Ok tt
          | _ => Err "seal_submission_content_bytes_malformed"
          end
      | _ => Err "seal_submission_leaf_kind_unknown"
      end
  end.

Fixpoint validate_entries (entries : list jsval) : result string unit :=
  match entries with
  | [] => Ok tt
  | e :: r => _ ← validate_entry e; validate_entries r
  end.

Definition validateSealSubmissionLeaves (raw : jsval) : result string (list jsval) :=
  match raw with
  | VArr (e :: r) => _ ← validate_entries (e :: r); Ok (e :: r)
  | _ => Err "seal_submission_leaves_malformed"
  end.

(** An entry that may be handed to the Merkle reconstruction. *)
Definition entry_ok (entry : jsval) : Prop :=
  ∃ fs kind, object_fields entry = Some fs ∧ field "kind" fs = VStr kind ∧
    kind ∈ SEAL_SUBMISSION_LEAF_KINDS ∧
    (field "content_bytes" fs = VUndef ∨
     ∃ cb, field "content_bytes" fs = VBytes cb ∧ kind = "ctrl" ∧ 1 <= String.length cb <= 512).

Lemma validate_entry_spec e : validate_entry e = Ok tt ↔ entry_ok e.
Proof.
  unfold validate_entry, entry_ok, MAX_CTRL_PAYLOAD_BYTES. split.
  - intros E. repeat (case_match; try discriminate E); bools;
      eexists _, _; (split; [done|]); (split; [done|]); (split; [done|]); eauto.
    right. eexists. split; [done|]. split; [done|]. lia.
  - intros (fs & k & -> & -> & Hk & Hc). rewrite bool_decide_eq_true_2 by done. cbn [negb].
    destruct Hc as [-> | (cb & -> & -> & Hl)]; [done|]. rewrite bool_decide_eq_true_2 by done. cbn [negb].
    rewrite (proj2 (Z.eqb_neq _ _)), (proj2 (Z.ltb_ge _ _)) by lia. done.
Qed.

Lemma validate_entries_spec es : validate_entries es = Ok tt ↔ Forall entry_ok es.
Proof.
  induction es as [|e es IH]; cbn [validate_entries]; [split; [constructor|done]|].
  rewrite list.Forall_cons, <- IH, <- validate_entry_spec.
  destruct (unit_result (validate_entry e)) as [[x ->]| ->]; cbn; naive_solver.
Qed.

(** A submission passes, unchanged, exactly when it is a non-empty array of objects
    whose kind is one of the four leaf domains and whose [content_bytes], when
    present, are 1 to 512 bytes on a control leaf; one bad entry voids it. *)
Theorem submission_leaves_spec raw leaves :
  validateSealSubmissionLeaves raw = Ok leaves ↔
  raw = VArr leaves ∧ leaves ≠ [] ∧ Forall entry_ok leaves.
Proof.
  unfold validateSealSubmissionLeaves.
  destruct raw as [| | | | | | |[|e r]|]; try naive_solver.
  rewrite <- validate_entries_spec.
  destruct (unit_result (validate_entries (e :: r))) as [[x E]|E]; rewrite E; cbn; [|naive_solver].
  split; [done|]. intros ([= <-] & _ & E'). congruence.
Qed.

(** * The participants' signed roots *)

Record SealPayload : Type := mkPayload { pl_session_id : bytes; pl_final_root : bytes }.

Inductive Coverage : Type := both | one.

#[global] Instance Coverage_eq_dec : EqDecision Coverage.
Proof. solve_decision. Defined.

Section Roots.
Variable cborDecode : bytes → option jsval.
Variable hash_tree_root : list bytes → bytes.
Variable decodeSealPayload : bytes → option SealPayload.
Variable sha256 : bytes → bytes.

Definition rootOverNonCtrlLeaves (leaves : list RelaySealLeaf) : bytes :=
  hash_tree_root (map (λ l, content_hash (s2 l))
    (List.filter (λ l, negb (bool_decide (kind l = ctrl))) leaves)).

Definition LEAF_KIND_CTRL : ascii := "002".

Definition sealContentHash (payload : bytes) : bytes := sha256 (String LEAF_KIND_CTRL payload).

(** The payload of one carried control leaf, bound to what its sender signed. *)
Definition bind_payload (leaf : RelaySealLeaf) (payload_bytes sessionId : bytes) : result string bytes :=
  match decodeStructure1Signed cborDecode (structure1_cbor leaf) with
  | None => Err PAYLOAD_MALFORMED
  | Some (signed_hash, _) =>
      if negb (bool_decide (signed_hash = content_hash (s2 leaf))) then Err PAYLOAD_UNBOUND
      else if negb (bool_decide (sealContentHash payload_bytes = signed_hash)) then Err PAYLOAD_UNBOUND
      else match decodeSealPayload payload_bytes with
      | None => Err PAYLOAD_MALFORMED
      | Some payload =>
          if negb (bool_decide (pl_session_id payload = sessionId)) then Err SESSION_MISMATCH
          else Ok (pl_final_root payload)
      end
  end.

(** The loop over the leaves, from the map of the earlier turns. *)
Fixpoint collect_roots (leaves : list RelaySealLeaf) (sessionId : bytes)
    (bySender : jsmap string bytes) : result string (jsmap string bytes) :=
  match leaves with
  | [] => Ok bySender
  | leaf :: rest =>
      if negb (bool_decide (kind leaf = ctrl)) then collect_roots rest sessionId bySender
      else match content_bytes leaf with
      | None => collect_roots rest sessionId bySender
      | Some payload_bytes =>
          root ← bind_payload leaf payload_bytes sessionId;
          collect_roots rest sessionId (jset bySender (hex (sender_pubkey (s2 leaf))) root)
      end
  end.

Definition verifySealFinalRoots (leaves : list RelaySealLeaf) (sessionId : bytes)
    (participants : option (bytes * bytes)) : result string (Coverage * bytes) :=
  _ ← verifyLeafProvenance cborDecode leaves sessionId participants;
  let expected := rootOverNonCtrlLeaves leaves in
  bySender ← collect_roots leaves sessionId [];
  match bySender with
  | [] => Err NOT_CARRIED
  | (_, first) :: others =>
      if negb (forallb (λ e, bool_decide (e.2 = first)) others) then Err PARTIES_DISAGREE
      else if negb (bool_decide (first = expected)) then Err ROOT_DISAGREES
      else Ok (if (2 <=? length bySender)%nat then both else one, expected)
  end.

(** ** Specification *)

(** A control leaf that carries its payload. *)
Definition carried (l : RelaySealLeaf) : Prop := kind l = ctrl ∧ is_Some (content_bytes l).

#[global] Instance carried_dec l : Decision (carried l).
Proof. unfold carried. apply _. Defined.

(** The leaf's payload is bound to its sender's signed bytes, is of the session, and
    commits to [root]. *)
Definition commits_to (sessionId : bytes) (l : RelaySealLeaf) (root : bytes) : Prop :=
  ∃ b f p, content_bytes l = Some b ∧
    decodeStructure1Fields cborDecode (structure1_cbor l) = Some f ∧
    s1_content_hash f = content_hash (s2 l) ∧ sealContentHash b = s1_content_hash f ∧
    decodeSealPayload b = Some p ∧ pl_session_id p = sessionId ∧ pl_final_root p = root.

(** The last carried leaf of a sender: a retry supersedes. *)
Definition last_carried (leaves : list RelaySealLeaf) (pk : bytes) : option RelaySealLeaf :=
  List.find (λ l, bool_decide (carried l ∧ sender l = pk)) (rev leaves).

Lemma bind_payload_spec l b sid root :
  content_bytes l = Some b → bind_payload l b sid = Ok root ↔ commits_to sid l root.
Proof.
  intros Eb. unfold bind_payload, commits_to. rewrite Eb. split.
  - intros E. repeat (case_match; try discriminate E); bools.
    match goal with H : decodeStructure1Signed _ _ = _ |- _ =>
      apply (decodeSigned_spec cborDecode) in H as (f & Ef & ? & ?) end.
    injection E as <-. eexists _, f, _. split_and!; try done; congruence.
  - intros (b' & f & p & [= <-] & Ef & Ec & Es & Ep & Esid & <-).
    rewrite (proj2 (decodeSigned_spec cborDecode _ (s1_content_hash f) (s1_session_id f))) by eauto.
    rewrite !bool_decide_eq_true_2 by done. cbn [negb]. rewrite Ep.
    by rewrite bool_decide_eq_true_2.
Qed.

Lemma last_carried_app leaves l pk :
  last_carried (leaves ++ [l]) pk =
  if decide (carried l ∧ sender l = pk) then Some l else last_carried leaves pk.
Proof.
  unfold last_carried. rewrite rev_app_distr. cbn. case_decide as E.
  - by rewrite bool_decide_eq_true_2.
  - by rewrite bool_decide_eq_false_2.
Qed.

(** The map after the loop: the root of each sender's last carried leaf. *)
Record collected (sid : bytes) (done : list RelaySealLeaf) (m : jsmap string bytes) : Prop := mkCollected {
  cl_wf : jwf m;
  cl_keys : ∀ k, k ∈ jkeys m → ∃ pk, k = hex pk;
  cl_get : ∀ pk, match last_carried done pk with
                 | Some l => ∃ r, jget m (hex pk) = Some r ∧ commits_to sid l r
                 | None => jget m (hex pk) = None
                 end;
  cl_all : ∀ l, l ∈ done → carried l → ∃ r, commits_to sid l r;
}.

Lemma collected_nil sid : collected sid [] [].
Proof. split; try done; try constructor; by intros ? ?%not_elem_of_nil. Qed.

Lemma collected_skip sid pre m l : collected sid pre m → ¬ carried l → collected sid (pre ++ [l]) m.
Proof.
  intros [Hw Hk Hg Ha] Hn. split; [done|done| |].
  - intros pk. rewrite last_carried_app, decide_False by tauto. apply Hg.
  - intros l' [Hl|Hl]%elem_of_app Hc; [by apply Ha|]. apply list_elem_of_singleton in Hl as ->. done.
Qed.

Lemma collected_take sid pre m l r :
  collected sid pre m → carried l → commits_to sid l r →
  collected sid (pre ++ [l]) (jset m (hex (sender l)) r).
Proof.
  intros [Hw Hk Hg Ha] Hc Hr. split.
  - by apply jwf_jset.
  - intros k. rewrite jkeys_jset. case_decide; [apply Hk|]. rewrite elem_of_app, list_elem_of_singleton.
    intros [?| ->]; [by apply Hk|eauto].
  - intros pk. rewrite last_carried_app, jget_jset. destruct (decide (sender l = pk)) as [->|Hne].
    + rewrite decide_True by done. rewrite decide_True by done. eauto.
    + rewrite decide_False by tauto. rewrite decide_False; [apply Hg|]. by intros E%(inj hex).
  - intros l' [Hl|Hl]%elem_of_app Hc'; [by apply Ha|]. apply list_elem_of_singleton in Hl as ->. eauto.
Qed.

Lemma collect_roots_ok sid pre m leaves :
  collected sid pre m →
  (∃ m', collect_roots leaves sid m = Ok m' ∧ collected sid (pre ++ leaves) m') ∨
  (∃ e, collect_roots leaves sid m = Err e) ∧
    ∃ l, l ∈ leaves ∧ carried l ∧ ∀ r, ¬ commits_to sid l r.
Proof.
  revert pre m. induction leaves as [|l leaves IH]; intros pre m Hm; cbn [collect_roots].
  { left. exists m. by rewrite app_nil_r. }
  assert (∀ m1, collected sid (pre ++ [l]) m1 →
    (∃ m', collect_roots leaves sid m1 = Ok m' ∧ collected sid (pre ++ l :: leaves) m') ∨
    (∃ e, collect_roots leaves sid m1 = Err e) ∧
      ∃ l', l' ∈ l :: leaves ∧ carried l' ∧ ∀ r, ¬ commits_to sid l' r) as K.
  { intros m1 H1. destruct (IH _ _ H1) as [(m' & E & Hm')|(E & l' & Hl' & Hc)].
    - left. exists m'. by rewrite <- app_assoc in Hm'.
    - right. split; [done|]. exists l'. split; [by right|done]. }
  destruct (bool_decide (kind l = ctrl)) eqn:Ek; bools; cbn [negb].
  2:{ apply K, collected_skip; [done|]. by intros [? _]. }
  destruct (content_bytes l) as [b|] eqn:Eb.
  2:{ apply K, collected_skip; [done|]. intros [_ [? ?]]. congruence. }
  assert (carried l) as Hc by (split; [done|by rewrite Eb]).
  destruct (bind_payload l b sid) as [r|e] eqn:Er; cbn [mbind result_bind].
  - apply K, collected_take; [done..|]. by apply (bind_payload_spec l b).
  - right. split; [eauto|]. exists l. split; [left|]. split; [done|]. intros r Hr.
    apply (bind_payload_spec l b sid r Eb) in Hr. congruence.
Qed.

(** Two carried leaves of different senders. *)
Definition two_signers (leaves : list RelaySealLeaf) : Prop :=
  ∃ l1 l2, l1 ∈ leaves ∧ l2 ∈ leaves ∧ carried l1 ∧ carried l2 ∧ sender l1 ≠ sender l2.

Lemma last_carried_some leaves pk l :
  last_carried leaves pk = Some l → l ∈ leaves ∧ carried l ∧ sender l = pk.
Proof.
  intros E. apply find_some_elem in E as [Hl Hb]. bools. split; [|done].
  apply elem_of_reverse. unfold reverse. rewrite <- List.rev_alt. done.
Qed.

Lemma last_carried_exists leaves l :
  l ∈ leaves → carried l → ∃ l', last_carried leaves (sender l) = Some l'.
Proof.
  induction leaves as [|x leaves IH] using rev_ind; [by intros ?%not_elem_of_nil|].
  intros Hl Hc. rewrite last_carried_app. case_decide as E; [eauto|].
  apply elem_of_app in Hl as [Hl|Hl]; [by apply IH|].
  apply list_elem_of_singleton in Hl as ->. tauto.
Qed.

Lemma collected_keys sid leaves m k :
  collected sid leaves m →
  k ∈ jkeys m ↔ ∃ l, l ∈ leaves ∧ carried l ∧ hex (sender l) = k.
Proof.
  intros [Hw Hk Hg Ha]. split.
  - intros Hin. destruct (Hk k Hin) as [pk ->]. specialize (Hg pk).
    destruct (last_carried leaves pk) as [l|] eqn:E.
    + apply last_carried_some in E as (? & ? & <-). eauto.
    + by apply jget_None in Hg.
  - intros (l & Hl & Hc & <-). destruct (last_carried_exists _ _ Hl Hc) as [l' E].
    specialize (Hg (sender l)). rewrite E in Hg. destruct Hg as (r & Hr & _).
    apply jget_elem in Hr. by apply (list_elem_of_fmap_2 fst) in Hr.
Qed.

Lemma collected_two sid leaves m :
  collected sid leaves m → 2 <= length m ↔ two_signers leaves.
Proof.
  intros Hm. pose proof (cl_wf _ _ _ Hm) as Hw. pose proof (λ k, collected_keys sid leaves m k Hm) as HK.
  unfold two_signers, jwf in *. split.
  - destruct m as [|[k1 r1] [|[k2 r2] m]]; cbn; try lia. intros _. cbn in Hw.
    apply list.NoDup_cons in Hw as [Hn _].
    destruct (proj1 (HK k1)) as (l1 & ? & ? & E1); [left|].
    destruct (proj1 (HK k2)) as (l2 & ? & ? & E2); [right; left|].
    exists l1, l2. split_and!; try done. intros E. apply Hn. replace k1 with k2 by congruence. left.
  - intros (l1 & l2 & H1 & H2 & C1 & C2 & Hne).
    assert (hex (sender l1) ∈ jkeys m) as K1 by (apply HK; eauto).
    assert (hex (sender l2) ∈ jkeys m) as K2 by (apply HK; eauto).
    destruct m as [|[k1 r1] [|[k2 r2] m]]; cbn in *; [by apply not_elem_of_nil in K1| |lia].
    apply list_elem_of_singleton in K1, K2. exfalso. apply Hne, (inj hex). congruence.
Qed.

(** All values of a collected map. *)
Lemma collected_values sid leaves m root :
  collected sid leaves m →
  Forall (λ e, e.2 = root) m ↔
  (∀ pk l, last_carried leaves pk = Some l → commits_to sid l root).
Proof.
  intros Hm. pose proof (cl_get _ _ _ Hm) as Hg. pose proof (cl_wf _ _ _ Hm) as Hw.
  rewrite list.Forall_forall. split.
  - intros Hall pk l E. specialize (Hg pk). rewrite E in Hg. destruct Hg as (r & Hr & Hc).
    apply jget_elem, Hall in Hr. cbn in Hr. by subst.
  - intros Hall [k r] Hin. cbn. apply jget_elem_iff in Hin; [|done].
    assert (k ∈ jkeys m) as Hk by (by apply jget_elem, (list_elem_of_fmap_2 fst) in Hin).
    destruct (cl_keys _ _ _ Hm k Hk) as [pk ->]. specialize (Hg pk).
    destruct (last_carried leaves pk) as [l|] eqn:E; [|congruence].
    destruct Hg as (r' & Hr' & Hc). rewrite Hin in Hr'. injection Hr' as <-.
    destruct Hc as (b & f & p & Eb & Ef & _ & _ & Ep & _ & <-).
    destruct (Hall pk l E) as (b' & f' & p' & Eb' & _ & _ & _ & Ep' & _ & <-). congruence.
Qed.

Lemma verifySealFinalRoots_iff leaves sid participants cov root :
  verifySealFinalRoots leaves sid participants = Ok (cov, root) ↔
  verifyLeafProvenance cborDecode leaves sid participants = Ok tt ∧
  root = rootOverNonCtrlLeaves leaves ∧
  (∃ l, l ∈ leaves ∧ carried l) ∧
  (∀ l, l ∈ leaves → carried l → ∃ r, commits_to sid l r) ∧
  (∀ pk l, last_carried leaves pk = Some l → commits_to sid l root) ∧
  (cov = both ↔ two_signers leaves).
Proof.
  unfold verifySealFinalRoots.
  destruct (unit_result (verifyLeafProvenance cborDecode leaves sid participants)) as [[e ->]| ->];
    cbn [mbind result_bind]; [naive_solver|].
  destruct (collect_roots_ok sid [] [] leaves (collected_nil sid)) as [(m & -> & Hm)|[[e ->] (l & Hl & Hc & Hn)]];
    cbn [mbind result_bind].
  2:{ split; [done|]. intros (_ & _ & _ & Hall & _). destruct (Hall l Hl Hc) as [r Hr]. by apply Hn in Hr. }
  cbn [app] in Hm. pose proof (collected_values sid leaves m root Hm) as HV.
  pose proof (collected_two sid leaves m Hm) as H2. pose proof (cl_all _ _ _ Hm) as Hall.
  assert (m ≠ [] ↔ ∃ l, l ∈ leaves ∧ carried l) as HE.
  { pose proof (λ k, collected_keys sid leaves m k Hm) as HK. split.
    - destruct m as [|[k r] m]; [done|]. intros _. destruct (proj1 (HK k)) as (l & ? & ? & _); [left|]. eauto.
    - intros (l & Hl & Hc) ->. assert (hex (sender l) ∈ jkeys []) as Hin by (apply HK; eauto).
      by apply not_elem_of_nil in Hin. }
  destruct m as [|[k first] others]; [split; [done|naive_solver]|].
  assert (∃ l, l ∈ leaves ∧ carried l) as Hex by (by apply HE).
  assert (forallb (λ e, bool_decide (e.2 = first)) others = true ↔ Forall (λ e, e.2 = first) others) as HF.
  { rewrite List.forallb_forall, List.Forall_forall. by setoid_rewrite bool_decide_eq_true. }
  assert (root = rootOverNonCtrlLeaves leaves →
    (∀ pk l, last_carried leaves pk = Some l → commits_to sid l root) ↔
    (first = rootOverNonCtrlLeaves leaves ∧ Forall (λ e, e.2 = first) others)) as HR.
  { intros ->. rewrite <- HV, list.Forall_cons. cbn. split; intros [E ?]; (split; [done|by rewrite E in *]). }
  set (cv := if (2 <=? length ((k, first) :: others))%nat then both else one).
  assert (cov = cv ↔ (cov = both ↔ two_signers leaves)) as HC.
  { unfold cv. rewrite <- H2. destruct (2 <=? _)%nat eqn:E; [apply Nat.leb_le in E|apply Nat.leb_gt in E];
      destruct cov; naive_solver lia. }
  destruct (forallb _ others) eqn:Eo; cbn [negb].
  2:{ split; [done|]. intros (_ & Er & _ & _ & Hl & _). apply (HR Er) in Hl as [_ Hl]. apply HF in Hl. congruence. }
  assert (Forall (λ e, e.2 = first) others) as Ho by (by apply HF).
  destruct (bool_decide (first = _)) eqn:Ef; bools; cbn [negb].
  - split.
    + intros [= <- <-]. split_and!; try done; [by apply HR|by apply HC].
    + intros (_ & -> & _ & _ & _ & Hc). apply HC in Hc as ->. done.
  - split; [done|]. intros (_ & Er & _ & _ & Hl & _). by apply (HR Er) in Hl as [? _].
Qed.

(** The final-root check decides its specification.  It succeeds exactly when the
    leaves have provenance, at least one control leaf carries its payload,
    every carried payload is bound to its sender's signed bytes and to the
    session, and the last one of every sender commits to the root over the
    non-control leaves, which is what is returned.  The coverage is [both]
    exactly when two different keys carried one: repeating one party's leaf
    never counts as the other's approval. *)
Theorem final_roots_spec leaves sid participants cov root :
  verifySealFinalRoots leaves sid participants = Ok (cov, root) ↔
  verifyLeafProvenance cborDecode leaves sid participants = Ok tt ∧
  root = rootOverNonCtrlLeaves leaves ∧
  (∃ l, l ∈ leaves ∧ carried l) ∧
  (∀ l, l ∈ leaves → carried l → ∃ r, commits_to sid l r) ∧
  (∀ pk l, last_carried leaves pk = Some l → commits_to sid l root) ∧
  (cov = both ↔ two_signers leaves).
Proof. apply verifySealFinalRoots_iff. Qed.

End Roots.
End SealFinalRoot.
