(* ===== verification/SealCosign.v ===== *)
(** The verdict of a co-signing directory: what it rebuilds from the leaves before it
    lends its share to a seal (packages/directory/src/seal-cosign-evidence.ts), and
    its agreement with the verifying directory's own check (seal-final-root.ts).

    Signatures, CBOR, the Merkle tree of a list, SHA-256 and the seal TBS are
    parameters, as in the files this one builds on.  A refusal is its reason; the
    detail texts are not modelled. *)
From Stdlib Require Import Ascii.
From S2P Require Import Prelude JsMap Bytes Wire SealChain SealChainTheorems SealFinalRoot.
Import JsMap Bytes Wire SealChain SealChainTheorems SealFinalRoot.

Module SealCosign.

(** * Data *)

Definition SEAL_FROST_CONTEXT : bytes := "cello-frost-seal-v1".
Definition LEGIBILITY_HASH_BYTES : Z := 32.

Inductive SealCosignReason : Type :=
| EVIDENCE_MISSING
| EVIDENCE_MALFORMED
| LEAF_SIGNATURE_INVALID
| COSIGN_SESSION_MISMATCH
| THIRD_SIGNER
| ROOT_UNSUPPORTED
| NOT_A_SEAL_TBS
| APPROVAL_UNSUPPORTED.

Record CosignLeaf : Type := mkCosignLeaf {
  cs_structure1 : bytes;
  cs_sender : bytes;
  cs_signature : bytes;
  cs_content : option bytes;
  cs_kind : option string;
}.

(** * Reading the request *)

(** [indexOf(0x00)]: the bytes before the first NUL, and those after it. *)
Fixpoint split_nul (s : bytes) : option (bytes * bytes) :=
  match s with
  | EmptyString => None
  | String c r =>
      if Ascii.eqb c "000" then Some (EmptyString, r)
      else e ← split_nul r; Some (String c e.1, e.2)
  end.

Fixpoint has_nul (s : bytes) : bool :=
  match s with EmptyString => false | String c r => Ascii.eqb c "000" || has_nul r end.

Definition isSealFramedMessage (framedMsg : bytes) : bool :=
  match split_nul framedMsg with
  | None => false
  | Some (pre, _) => (0 <? String.length pre)%nat && bool_decide (pre = SEAL_FROST_CONTEXT)
  end.

Definition parse_leaf (item : jsval) : option CosignLeaf :=
  o ← object_fields item;
  s1 ← as_bytes (field "structure1_cbor" o);
  pk ← as_bytes (field "sender_pubkey" o);
  sig ← as_bytes (field "sender_signature" o);
  Some (mkCosignLeaf s1 pk sig (as_bytes (field "content_bytes" o))
          (match field "kind" o with VStr k => Some k | _ => None end)).

Definition parseCosignLeaves (raw : jsval) : option (list CosignLeaf) :=
  match raw with
  | VArr (e :: r) => mapM parse_leaf (e :: r)
  | _ => None
  end.

(** The close timestamp as a number. *)
Definition close_number (v : jsval) : option jsnum :=
  match v with VNum n => Some n | VBig z => Some (number_of_bigint z) | _ => None end.

(** Nothing was sent. *)
Definition absent (raw : jsval) : bool :=
  match raw with VUndef | VNull | VArr [] => true | _ => false end.

Section Cosign.
Variable verify : bytes → bytes → bytes → bool.
Variable cborDecode : bytes → option jsval.
Variable hash_tree_root : list bytes → bytes.
Variable decodeSealPayload : bytes → option SealPayload.
Variable sha256 : bytes → bytes.
Variable buildSealTbs : bytes → bytes → Z → jsnum → bytes.

Abbreviation decodeSigned := (decodeStructure1Signed cborDecode).

(** * The leaves *)

(** The loop, from the senders and content hashes of the earlier turns, and the
    session of the first leaf. *)
Fixpoint check_leaves (leaves : list CosignLeaf) (senders : list string) (contentHashes : list bytes)
    (sessionId : option bytes) : result SealCosignReason (list string * list bytes * option bytes) :=
  match leaves with
  | [] => Ok (senders, contentHashes, sessionId)
  | leaf :: rest =>
      if negb (verify (cs_sender leaf) (cs_structure1 leaf) (cs_signature leaf)) then Err LEAF_SIGNATURE_INVALID
      else match decodeSigned (cs_structure1 leaf) with
      | None => Err EVIDENCE_MALFORMED
      | Some (ch, sid) =>
          if match sessionId with None => false | Some s => negb (bool_decide (s = sid)) end
          then Err COSIGN_SESSION_MISMATCH
          else check_leaves rest (senders ++ [hex (cs_sender leaf)]) (contentHashes ++ [ch])
                 (Some (default sid sessionId))
      end
  end.

(** * The approvals *)

Definition is_ctrl (leaf : CosignLeaf) : bool := bool_decide (cs_kind leaf = Some "ctrl").

Definition signed_hash (leaf : CosignLeaf) : option bytes := fst <$> decodeSigned (cs_structure1 leaf).

Definition approval_root (leaves : list CosignLeaf) : bytes :=
  hash_tree_root (omap signed_hash (List.filter (λ l, negb (is_ctrl l)) leaves)).

(** The approvals carried, last one per sender. *)
Fixpoint collect_approvals (leaves : list CosignLeaf) (sessionId : bytes) (bySender : jsmap string bytes)
    : result SealCosignReason (jsmap string bytes) :=
  match leaves with
  | [] => Ok bySender
  | leaf :: rest =>
      match is_ctrl leaf, cs_content leaf with
      | true, Some cb =>
          match signed_hash leaf with
          | None => collect_approvals rest sessionId bySender
          | Some h =>
              if negb (bool_decide (sealContentHash sha256 cb = h)) then Err APPROVAL_UNSUPPORTED
              else match decodeSealPayload cb with
              | None => Err APPROVAL_UNSUPPORTED
              | Some payload =>
                  if negb (bool_decide (pl_session_id payload = sessionId)) then Err APPROVAL_UNSUPPORTED
                  else collect_approvals rest sessionId
                         (jset bySender (hex (cs_sender leaf)) (pl_final_root payload))
              end
          end
      | _, _ => collect_approvals rest sessionId bySender
      end
  end.

Definition verifyBilateralApprovals (leaves : list CosignLeaf) (sessionId : bytes) : result SealCosignReason unit :=
  bySender ← collect_approvals leaves sessionId [];
  if (length bySender <? 2)%nat then Err APPROVAL_UNSUPPORTED
  else if negb (forallb (λ e : string * bytes, bool_decide (e.2 = approval_root leaves)) bySender)
  then Err APPROVAL_UNSUPPORTED
  else Ok tt.

(** * The verdict *)

Definition framed (sessionId root : bytes) (count : nat) (ts : jsnum) : bytes :=
  SEAL_FROST_CONTEXT +:+ (String "000" (buildSealTbs sessionId root (Z.of_nat count) ts)).

Definition verifySealCosignEvidence (framedMsg : bytes) (rawLeaves closeTimestamp : jsval)
    : result SealCosignReason unit :=
  if negb (isSealFramedMessage framedMsg) then Err NOT_A_SEAL_TBS
  else match close_number closeTimestamp with
  | None => Err EVIDENCE_MISSING
  | Some ts =>
      if absent rawLeaves then Err EVIDENCE_MISSING
      else match parseCosignLeaves rawLeaves with
      | None => Err EVIDENCE_MALFORMED
      | Some leaves =>
          r ← check_leaves leaves [] [] None;
          match r with
          | (_, _, None) => Err EVIDENCE_MALFORMED
          | (senders, contentHashes, Some sessionId) =>
              if (2 <? length (remove_dups senders))%nat then Err THIRD_SIGNER
              else
                let expected := framed sessionId (hash_tree_root contentHashes) (length leaves) ts in
                let remainder := (Z.of_nat (String.length framedMsg) - Z.of_nat (String.length expected))%Z in
                if negb (remainder =? 0)%Z && negb (remainder =? LEGIBILITY_HASH_BYTES)%Z then Err ROOT_UNSUPPORTED
                else if negb (bool_decide (str_take (String.length expected) framedMsg = expected))
                then Err ROOT_UNSUPPORTED
                else if (remainder =? LEGIBILITY_HASH_BYTES)%Z then verifyBilateralApprovals leaves sessionId
                else Ok tt
          end
      end
  end.

(** * The same leaves, as the verifying directory holds them *)

(** A leaf as a [RelaySealLeaf] with the content hash its sender signed. *)
Definition as_relay_leaf (l : CosignLeaf) : RelaySealLeaf :=
  mkLeaf (if is_ctrl l then ctrl else msg)
    (mkS2 0 (cs_sender l) (default EmptyString (signed_hash l)) (cs_signature l) EmptyString)
    (cs_structure1 l) (cs_content l).

Definition leaf_ok (sid : bytes) (l : CosignLeaf) : Prop :=
  verify (cs_sender l) (cs_structure1 l) (cs_signature l) = true ∧
  ∃ h, decodeSigned (cs_structure1 l) = Some (h, sid).

Definition readable (sid : bytes) (l : CosignLeaf) : Prop := ∃ h, decodeSigned (cs_structure1 l) = Some (h, sid).

Lemma check_leaves_from leaves ss hs s r :
  check_leaves leaves ss hs (Some s) = Ok r ↔
  Forall (leaf_ok s) leaves ∧
  r = (ss ++ map (λ l, hex (cs_sender l)) leaves, hs ++ omap signed_hash leaves, Some s).
Proof.
  revert ss hs. induction leaves as [|l leaves IH]; intros ss hs; cbn [check_leaves].
  { rewrite !app_nil_r. split; [intros <-%Ok_inj; split; [constructor|done]|by intros [_ ->]]. }
  rewrite list.Forall_cons. unfold leaf_ok at 1. cbn [omap list_omap map].
  destruct (verify _ _ _) eqn:Ev; cbn [negb]; [|split; [done|by intros [[[? _] _] _]]].
  unfold signed_hash at 1. destruct (decodeSigned (cs_structure1 l)) as [[h sid]|] eqn:Ed; cbn [fmap option_fmap option_map fst].
  2:{ split; [done|]. by intros [[[_ [h Hh]] _] _]. }
  destruct (bool_decide (s = sid)) eqn:Es; bools; cbn [negb].
  - subst sid. cbn [default from_option id]. rewrite IH, <- !app_assoc. cbn [app]. split.
    + intros [HF ->]. split; [|done]. split; [|done]. split; [done|by eexists].
    + intros [[_ HF] ->]. done.
  - split; [done|]. intros [[[_ [h' Hh]] _] _]. congruence.
Qed.

Lemma check_leaves_spec leaves ss hs sid :
  leaves ≠ [] →
  check_leaves leaves [] [] None = Ok (ss, hs, sid) ↔
  ∃ s, Forall (leaf_ok s) leaves ∧ sid = Some s ∧ ss = map (λ l, hex (cs_sender l)) leaves ∧ hs = omap signed_hash leaves.
Proof.
  intros Hne. destruct leaves as [|l leaves]; [done|]. cbn [check_leaves].
  destruct (verify _ _ _) eqn:Ev; cbn [negb].
  2:{ split; [done|]. intros (s & HF & _). apply list.Forall_cons in HF as [[? _] _]. congruence. }
  destruct (decodeSigned (cs_structure1 l)) as [[h s]|] eqn:Ed.
  2:{ split; [done|]. intros (s & HF & _). apply list.Forall_cons in HF as [[_ [h ?]] _]. congruence. }
  cbn [default from_option id app]. rewrite check_leaves_from. cbn [map omap list_omap].
  unfold signed_hash at 2. rewrite Ed. cbn [fmap option_fmap option_map fst]. split.
  - intros [HF [= -> -> ->]]. exists s. split; [|done]. constructor; [|done]. split; [done|by eexists].
  - intros (s' & HF & -> & -> & ->). apply list.Forall_cons in HF as [[_ [h' Hh]] HF].
    rewrite Ed in Hh. injection Hh as <- <-. done.
Qed.

(** ** The approvals, against the final-root check *)

Abbreviation relay := (map as_relay_leaf).

Lemma signed_hash_readable sid l : readable sid l → ∃ h, signed_hash l = Some h ∧ decodeSigned (cs_structure1 l) = Some (h, sid).
Proof. intros [h Hh]. exists h. unfold signed_hash. by rewrite Hh. Qed.

Lemma collect_same sid leaves m :
  Forall (readable sid) leaves →
  (∃ m', collect_approvals leaves sid m = Ok m' ∧
     collect_roots cborDecode decodeSealPayload sha256 (relay leaves) sid m = Ok m') ∨
  ((∃ e, collect_approvals leaves sid m = Err e) ∧
   (∃ e, collect_roots cborDecode decodeSealPayload sha256 (relay leaves) sid m = Err e)).
Proof.
  intros HF. revert m. induction HF as [|l leaves Hl _ IH]; intros m; cbn [collect_approvals collect_roots map].
  { left. by exists m. }
  destruct (signed_hash_readable sid l Hl) as (h & Eh & Ed).
  change (kind (as_relay_leaf l)) with (if is_ctrl l then ctrl else msg).
  change (content_bytes (as_relay_leaf l)) with (cs_content l).
  destruct (is_ctrl l); cbn [negb].
  2:{ rewrite bool_decide_eq_false_2 by done. cbn [negb]. apply IH. }
  rewrite bool_decide_eq_true_2 by done. cbn [negb]. destruct (cs_content l) as [cb|]; [|apply IH].
  rewrite Eh. unfold bind_payload, as_relay_leaf. cbn [structure1_cbor content_hash s2]. rewrite Ed, Eh. cbn [default from_option id].
  rewrite (bool_decide_eq_true_2 (h = h)) by done. cbn [negb].
  destruct (bool_decide (sealContentHash sha256 cb = h)); cbn [negb]; [|right; split; by eexists].
  destruct (decodeSealPayload cb) as [p|]; [|right; split; by eexists].
  destruct (bool_decide (pl_session_id p = sid)); cbn [negb mbind result_bind]; [|right; split; by eexists].
  apply IH.
Qed.

Lemma approval_root_same sid leaves :
  Forall (readable sid) leaves → approval_root leaves = rootOverNonCtrlLeaves hash_tree_root (relay leaves).
Proof.
  intros HF. unfold approval_root, rootOverNonCtrlLeaves. f_equal.
  induction HF as [|l leaves Hl _ IH]; [done|]. cbn [List.filter map].
  destruct (signed_hash_readable sid l Hl) as (h & Eh & _).
  change (kind (as_relay_leaf l)) with (if is_ctrl l then ctrl else msg). destruct (is_ctrl l); cbn [negb].
  - by rewrite bool_decide_eq_true_2.
  - rewrite bool_decide_eq_false_2 by done. cbn [negb map omap list_omap]. rewrite Eh, IH.
    change (content_hash (s2 (as_relay_leaf l))) with (default EmptyString (signed_hash l)). by rewrite Eh.
Qed.

Lemma provenance_same sid leaves :
  Forall (readable sid) leaves →
  verifyLeafProvenance cborDecode (relay leaves) sid None =
  if (2 <? length (remove_dups (map (λ l, hex (cs_sender l)) leaves)))%nat then Err SENDER_NOT_PARTICIPANT else Ok tt.
Proof.
  intros HF. unfold verifyLeafProvenance.
  assert (provenance_loop cborDecode (relay leaves) sid None = Ok tt) as ->.
  { induction HF as [|l leaves [h Hh] _ IH]; [done|]. cbn [map provenance_loop]. cbn [as_relay_leaf structure1_cbor].
    rewrite Hh. by rewrite bool_decide_eq_true_2. }
  cbn [mbind result_bind]. unfold distinctSenders. by rewrite map_map.
Qed.

Lemma approvals_same sid leaves :
  Forall (readable sid) leaves → length (remove_dups (map (λ l, hex (cs_sender l)) leaves)) <= 2 →
  verifyBilateralApprovals leaves sid = Ok tt ↔
  ∃ root, verifySealFinalRoots cborDecode hash_tree_root decodeSealPayload sha256 (relay leaves) sid None = Ok (both, root).
Proof.
  intros HF Hle. unfold verifyBilateralApprovals, verifySealFinalRoots. rewrite provenance_same by done.
  replace (2 <? _)%nat with false by (symmetry; apply Nat.ltb_ge; done). cbn [mbind result_bind].
  rewrite <- (approval_root_same sid) by done.
  destruct (collect_same sid leaves [] HF) as [(m & -> & ->)|[[e ->] [e' ->]]]; cbn [mbind result_bind].
  2:{ split; [done|]. by intros [? ?]. }
  destruct m as [|[k first] others]; [cbn; split; [done|by intros [? ?]]|]. cbn [forallb snd].
  set (R := approval_root leaves). set (n := length ((k, first) :: others)).
  assert (∀ l : list (string * bytes), forallb (λ e, bool_decide (e.2 = R)) l = true ↔ Forall (λ e, e.2 = R) l) as FR.
  { intros l. rewrite List.forallb_forall, List.Forall_forall. by setoid_rewrite bool_decide_eq_true. }
  assert (∀ l : list (string * bytes), forallb (λ e, bool_decide (e.2 = first)) l = true ↔ Forall (λ e, e.2 = first) l) as FF.
  { intros l. rewrite List.forallb_forall, List.Forall_forall. by setoid_rewrite bool_decide_eq_true. }
  destruct (n <? 2)%nat eqn:En; [apply Nat.ltb_lt in En|apply Nat.ltb_ge in En].
  - split; [done|]. intros [root E]. replace (2 <=? n)%nat with false in E by (symmetry; apply Nat.leb_gt; done).
    repeat (case_match; try done).
  - replace (2 <=? n)%nat with true by (symmetry; apply Nat.leb_le; done).
    destruct (bool_decide (first = R)) eqn:Ef; bools; cbn [andb negb].
    + subst first. destruct (forallb _ others); cbn [negb]; [split; [by eexists|done]|split; [done|by intros [? ?]]].
    + split; [done|]. intros [root E]. repeat (case_match; try done).
Qed.

(** ** The frame *)

Lemma split_nul_app a b : has_nul a = false → split_nul (a +:+ String "000" b) = Some (a, b).
Proof.
  induction a as [|c a IH]; [done|]. cbn [has_nul]. rewrite orb_false_iff. intros [Hc Ha].
  rewrite str_app_cons. cbn [split_nul]. rewrite Hc, (IH Ha). done.
Qed.

Lemma split_nul_inv s a b : split_nul s = Some (a, b) → s = a +:+ String "000" b.
Proof.
  revert a b. induction s as [|c s IH]; intros a b E; [done|]. cbn [split_nul] in E.
  destruct (Ascii.eqb c "000") eqn:Ec.
  - injection E as <- <-. apply Ascii.eqb_eq in Ec as ->. done.
  - destruct (split_nul s) as [[x y]|]; [|done]. injection E as <- <-. rewrite str_app_cons. f_equal. by apply IH.
Qed.

(** A message is of the seal ceremony exactly when it starts with the context and a NUL. *)
Lemma framed_message_spec m : isSealFramedMessage m = true ↔ ∃ r, m = SEAL_FROST_CONTEXT +:+ String "000" r.
Proof.
  unfold isSealFramedMessage. split.
  - destruct (split_nul m) as [[a b]|] eqn:E; [|done]. intros Hb. bools. apply split_nul_inv in E as ->.
    subst a. by exists b.
  - intros [r ->]. by rewrite split_nul_app.
Qed.

Lemma parse_some raw leaves :
  parseCosignLeaves raw = Some leaves → absent raw = false ∧ leaves ≠ [].
Proof.
  unfold parseCosignLeaves. destruct raw as [| | | | | | |[|e r]|]; try done. intros E. split; [done|].
  intros ->. by apply mapM_Some, Forall2_nil_inv_r in E.
Qed.

(** Comparing with the expected frame. *)
Lemma frame_cases m x (k : result SealCosignReason unit) :
  (let remainder := (Z.of_nat (String.length m) - Z.of_nat (String.length x))%Z in
   if negb (remainder =? 0)%Z && negb (remainder =? LEGIBILITY_HASH_BYTES)%Z then Err ROOT_UNSUPPORTED
   else if negb (bool_decide (str_take (String.length x) m = x)) then Err ROOT_UNSUPPORTED
   else if (remainder =? LEGIBILITY_HASH_BYTES)%Z then k else Ok tt) = Ok tt ↔
  ∃ tail, m = x +:+ tail ∧ (tail = EmptyString ∨ (String.length tail = 32 ∧ k = Ok tt)).
Proof.
  cbv zeta. unfold LEGIBILITY_HASH_BYTES. split.
  - intros E. exists (str_drop (String.length x) m).
    destruct (bool_decide (str_take (String.length x) m = x)) eqn:Eb; bools.
    2:{ by destruct (negb _ && negb _). }
    assert (m = x +:+ str_drop (String.length x) m) as Em by (rewrite <- Eb at 1; by rewrite str_take_drop).
    split; [done|]. pose proof (f_equal String.length Em) as El. rewrite str_app_length in El.
    set (d := str_drop (String.length x) m) in *. clearbody d.
    destruct (Z.of_nat (String.length m) - Z.of_nat (String.length x) =? 0)%Z eqn:E0; bools.
    + left. destruct d; [done|]. cbn in El. lia.
    + destruct (Z.of_nat (String.length m) - Z.of_nat (String.length x) =? 32)%Z eqn:E3; [|done]. bools.
      right. cbn in E. split; [lia|done].
  - intros (tail & -> & Ht). rewrite (str_take_app (String.length x)), bool_decide_eq_true_2, str_app_length by done.
    replace (Z.of_nat (String.length x + String.length tail) - Z.of_nat (String.length x))%Z
      with (Z.of_nat (String.length tail)) by lia.
    destruct Ht as [->|[-> ->]]; done.
Qed.

Lemma verifySealCosignEvidence_iff framedMsg rawLeaves closeTimestamp :
  verifySealCosignEvidence framedMsg rawLeaves closeTimestamp = Ok tt ↔
  ∃ ts leaves sid tail,
    close_number closeTimestamp = Some ts ∧ parseCosignLeaves rawLeaves = Some leaves ∧
    Forall (leaf_ok sid) leaves ∧
    length (remove_dups (map (λ l, hex (cs_sender l)) leaves)) <= 2 ∧
    framedMsg = framed sid (hash_tree_root (omap signed_hash leaves)) (length leaves) ts +:+ tail ∧
    (tail = EmptyString ∨
     (String.length tail = 32 ∧
      ∃ root, verifySealFinalRoots cborDecode hash_tree_root decodeSealPayload sha256 (relay leaves) sid None =
        Ok (both, root))).
Proof.
  unfold verifySealCosignEvidence. destruct (isSealFramedMessage framedMsg) eqn:Ef; cbn [negb].
  2:{ split; [done|]. intros (ts & leaves & sid & tail & _ & _ & _ & _ & Em & _). exfalso.
      assert (isSealFramedMessage framedMsg = true) as Et; [|congruence]. apply framed_message_spec.
      unfold framed in Em. rewrite str_app_assoc, str_app_cons in Em. by eexists. }
  destruct (close_number closeTimestamp) as [ts|] eqn:Et.
  2:{ split; [done|]. by intros (ts & leaves & sid & tail & ? & _). }
  destruct (parseCosignLeaves rawLeaves) as [leaves|] eqn:Ep.
  2:{ destruct (absent rawLeaves); (split; [done|]); by intros (? & leaves & sid & tail & _ & ? & _). }
  destruct (parse_some _ _ Ep) as [-> Hne].
  assert (∀ s, Forall (leaf_ok s) leaves → Forall (readable s) leaves) as HR.
  { intros s HF. eapply list.Forall_impl; [exact HF|]. by intros l [_ ?]. }
  destruct (check_leaves leaves [] [] None) as [[[ss hs] sid]|e] eqn:Ec; cbn [mbind result_bind].
  2:{ split; [done|]. intros (ts' & leaves' & sid & tail & _ & [= <-] & HF & _). exfalso.
      assert (check_leaves leaves [] [] None = Ok (map (λ l, hex (cs_sender l)) leaves, omap signed_hash leaves, Some sid))
        as E by (apply check_leaves_spec; eauto). congruence. }
  pose proof Ec as Ec'. apply check_leaves_spec in Ec' as (s & HF & -> & -> & ->); [|done].
  assert (∀ s', Forall (leaf_ok s') leaves → s' = s) as Huniq.
  { intros s' HF'. destruct leaves as [|l leaves]; [done|]. apply list.Forall_cons in HF as [[_ [h Hh]] _].
    apply list.Forall_cons in HF' as [[_ [h' Hh']] _]. congruence. }
  destruct (2 <? _)%nat eqn:E2; [apply Nat.ltb_lt in E2|apply Nat.ltb_ge in E2].
  { split; [done|]. intros (ts' & leaves' & sid & tail & _ & [= <-] & _ & Hle & _). lia. }
  etransitivity; [apply frame_cases|]. setoid_rewrite (approvals_same s leaves (HR s HF) E2). split.
  - intros (tail & Em & Ht). by exists ts, leaves, s, tail.
  - intros (ts' & leaves' & s' & tail & [= <-] & [= <-] & HF' & _ & Em & Ht).
    apply Huniq in HF' as ->. by exists tail.
Qed.

(** What a co-signer lends its share to.  It signs a message exactly when leaves came
    with it whose senders' signatures all verify, whose signed bytes all name one
    session, from at most two keys; and the message is the seal statement over
    that session, the root and the number of those leaves and the given time,
    followed by nothing, or, for a two-party seal, by a 32-byte hash, and then
    the verifying directory's own final-root check, run on those same leaves,
    finds both parties' approvals. *)
Theorem cosign_spec framedMsg rawLeaves closeTimestamp :
  verifySealCosignEvidence framedMsg rawLeaves closeTimestamp = Ok tt ↔
  ∃ ts leaves sid tail,
    close_number closeTimestamp = Some ts ∧ parseCosignLeaves rawLeaves = Some leaves ∧
    Forall (leaf_ok sid) leaves ∧
    length (remove_dups (map (λ l, hex (cs_sender l)) leaves)) <= 2 ∧
    framedMsg = framed sid (hash_tree_root (omap signed_hash leaves)) (length leaves) ts +:+ tail ∧
    (tail = EmptyString ∨
     (String.length tail = 32 ∧
      ∃ root, verifySealFinalRoots cborDecode hash_tree_root decodeSealPayload sha256 (relay leaves) sid None =
        Ok (both, root))).
Proof. apply verifySealCosignEvidence_iff. Qed.

End Cosign.
End SealCosign.
