(* ===== verification/SealLegibility.v ===== *)
(** The receipt a seal publishes about its transcript, and its binding into the signed
    statement (packages/directory/src/seal-legibility.ts).

    Decoding of the signed bytes is that of [SealChain]; SHA-256 is a parameter.  Two
    fractions with one integer part are not told apart, which none of the values kept
    or written here can show. *)
From Stdlib Require Import Ascii.
From S2P Require Import Prelude JsMap Bytes Wire SealChain SealChainTheorems.
Import JsMap Bytes Wire SealChain SealChainTheorems.

Module SealLegibility.

(** * Data *)

Inductive AttestationMode : Type := live | recovered | absent.

#[global] Instance AttestationMode_eq_dec : EqDecision AttestationMode.
Proof. solve_decision. Defined.

Record SealLegibilityParticipant : Type := mkParticipant {
  pubkey : bytes;
  content_frontier_seq : jsnum;
  last_authored_seq : Z;
  attestation_mode : AttestationMode;
}.

Record SealLegibilityFinalMessage : Type := mkFinal {
  f_sender_pubkey : bytes;
  f_seq : Z;
  answered : bool;
}.

(** The constant fields ([attests], [implies_assent], [disclaimer]) are left out. *)
Record SealLegibility : Type := mkLegibility {
  participants : list SealLegibilityParticipant;
  final_message : SealLegibilityFinalMessage;
  countersigned_through_seq : jsnum;
}.

(** ** Numbers *)

(** [x > y] *)
Definition js_gt (x y : jsnum) : bool :=
  match x, y with
  | JNaN, _ | _, JNaN => false
  | JNegInf, _ | _, JPosInf => false
  | JPosInf, _ | _, JNegInf => true
  | JInt a, JInt b => (b <? a)%Z
  | JInt a, JFrac b => (b <? a)%Z
  | JFrac a, JInt b => (b <=? a)%Z
  | JFrac a, JFrac b => (b <? a)%Z
  end.

(** [Math.max] *)
Definition js_max (x y : jsnum) : jsnum :=
  match x, y with JNaN, _ | _, JNaN => JNaN | _, _ => if js_gt y x then y else x end.

(** [n >>> 0] *)
Definition to_uint32 (x : jsnum) : Z :=
  match x with
  | JInt z => (z mod 2 ^ 32)%Z
  | JFrac z => ((if z <? 0 then z + 1 else z) mod 2 ^ 32)%Z
  | _ => 0%Z
  end.

Section Legibility.
Variable cborDecode : bytes → option jsval.
Variable sha256 : bytes → bytes.

(** * The closing ceremony *)

Abbreviation senderHex l := (hex (sender_pubkey (s2 l))).

(** The indices of the control leaves, the last first. *)
Definition ctrl_indices (leaves : list RelaySealLeaf) : list nat :=
  rev (List.filter (λ i, match leaves !! i with Some l => bool_decide (kind l = ctrl) | None => false end)
         (seq 0 (length leaves))).

(** Initiator first. *)
Definition findSealCeremonyPair (leaves : list RelaySealLeaf) : option (nat * nat) :=
  match ctrl_indices leaves with
  | responder :: initiator :: _ =>
      match leaves !! responder, leaves !! initiator with
      | Some r, Some i => if bool_decide (senderHex r = senderHex i) then None else Some (initiator, responder)
      | _, _ => None
      end
  | _ => None
  end.

(** The control leaves after the last message, with their indices. *)
Fixpoint closing_from (back : list (nat * RelaySealLeaf)) : list (nat * RelaySealLeaf) :=
  match back with
  | [] => []
  | (i, l) :: rest =>
      match kind l with
      | msg => []
      | ctrl => (i, l) :: closing_from rest
      | doc | reject => closing_from rest
      end
  end.

Definition indexed (leaves : list RelaySealLeaf) : list (nat * RelaySealLeaf) :=
  zip (seq 0 (length leaves)) leaves.

Definition sealCeremonyRegion (leaves : list RelaySealLeaf) : list nat :=
  match findSealCeremonyPair leaves with
  | None => []
  | Some _ => map fst (closing_from (rev (indexed leaves)))
  end.

Definition trailingSealCtrlAuthors (leaves : list RelaySealLeaf) : list string :=
  map (λ e, senderHex e.2) (closing_from (rev (indexed leaves))).

(** * Participants *)

Definition decodeSignedLastSeenSeq (cbor : bytes) : option jsnum :=
  s1_last_seen_seq <$> decodeStructure1Fields cborDecode cbor.

(** The highest sequence number each participant's own leaves acknowledge and carry. *)
Definition raise_frontier (cur : jsnum) (l : RelaySealLeaf) : jsnum :=
  match decodeSignedLastSeenSeq (structure1_cbor l) with
  | Some n => if js_gt n cur then n else cur
  | None => cur
  end.

Definition own_leaves (leaves : list RelaySealLeaf) (pk : bytes) : list RelaySealLeaf :=
  List.filter (λ l, bool_decide (sender_pubkey (s2 l) = pk)) leaves.

Definition frontier (leaves : list RelaySealLeaf) (pk : bytes) : jsnum :=
  foldl raise_frontier (JInt 0) (own_leaves leaves pk).

Definition lastAuthored (leaves : list RelaySealLeaf) (pk : bytes) : Z :=
  foldl (λ cur l, Z.max cur (sequence_number (s2 l))) 0%Z (own_leaves leaves pk).

(** The senders in the order of their first leaf. *)
Fixpoint first_seen (seen : list bytes) (leaves : list RelaySealLeaf) : list bytes :=
  match leaves with
  | [] => seen
  | l :: rest =>
      first_seen (if bool_decide (sender_pubkey (s2 l) ∈ seen) then seen else seen ++ [sender_pubkey (s2 l)]) rest
  end.

(** [overrides] are the attestation modes set by the caller, by public key. *)
Definition participant_of (leaves : list RelaySealLeaf) (overrides : jsmap string AttestationMode) (pk : bytes)
    : SealLegibilityParticipant :=
  mkParticipant pk (frontier leaves pk) (lastAuthored leaves pk)
    (default (if bool_decide (hex pk ∈ trailingSealCtrlAuthors leaves) then live else absent)
       (jget overrides (hex pk))).

(** The least any participant's own signature reaches. *)
Definition reach (p : SealLegibilityParticipant) : jsnum :=
  js_max (content_frontier_seq p) (JInt (last_authored_seq p)).

Definition countersignedThroughSeq (ps : list SealLegibilityParticipant) : jsnum :=
  let lowest := foldl (λ lowest p, if js_gt lowest (reach p) then reach p else lowest) JPosInf ps in
  match lowest with JInt _ | JFrac _ => lowest | _ => JInt 0 end.

(** * The final message *)

(** The first leaf of the highest sequence number above [seq]. *)
Definition highest (seq : Z) (best : option RelaySealLeaf) (leaves : list RelaySealLeaf) : Z * option RelaySealLeaf :=
  foldl (λ b l, if (b.1 <? sequence_number (s2 l))%Z then (sequence_number (s2 l), Some l) else b) (seq, best) leaves.

(** Whether a leaf answers a message: of another sender, later, a message or a control
    leaf that is not of the ceremony. *)
Definition answers (region : list nat) (final : RelaySealLeaf) (finalSeq : Z) (e : nat * RelaySealLeaf) : bool :=
  negb (bool_decide (e.1 ∈ region)) &&
  negb (bool_decide (kind e.2 = doc) || bool_decide (kind e.2 = reject)) &&
  negb (bool_decide (senderHex e.2 = senderHex final)) && (finalSeq <? sequence_number (s2 e.2))%Z.

(** [None]: without leaves the code throws. *)
Definition final_of (leaves : list RelaySealLeaf) : option SealLegibilityFinalMessage :=
  match highest (-1) None (List.filter (λ l, bool_decide (kind l = msg)) leaves) with
  | (finalSeq, Some final) =>
      Some (mkFinal (sender_pubkey (s2 final)) finalSeq
              (existsb (answers (sealCeremonyRegion leaves) final finalSeq) (indexed leaves)))
  | (_, None) =>
      l ← (highest (-1) (head leaves) leaves).2;
      Some (mkFinal (sender_pubkey (s2 l)) (sequence_number (s2 l)) false)
  end.

Definition buildSealLegibility (leaves : list RelaySealLeaf) (overrides : jsmap string AttestationMode)
    : option SealLegibility :=
  let ps := map (participant_of leaves overrides) (first_seen [] leaves) in
  f ← final_of leaves;
  Some (mkLegibility ps f (countersignedThroughSeq ps)).

(** * The binding *)

Definition LEGIBILITY_HASH_DOMAIN : bytes := "CELLO-SEAL-LEGIBILITY-v1".

(** 32 bytes: the key, cut or padded. *)
Definition legPubkey32 (pk : bytes) : bytes :=
  str_take 32 pk +:+ zeros (32 - String.length pk).

Definition legU32 (n : jsnum) : bytes := be_bytes 4 (to_uint32 n).

Definition legModeByte (m : AttestationMode) : bytes :=
  String (match m with live => "001" | recovered => "002" | absent => "003" end)%char EmptyString.

Definition participant_bytes (p : SealLegibilityParticipant) : bytes :=
  legPubkey32 (pubkey p) +:+ legU32 (content_frontier_seq p) +:+ legU32 (JInt (last_authored_seq p)) +:+
  legModeByte (attestation_mode p).

Definition canonicalLegibilityBytes (g : SealLegibility) : bytes :=
  LEGIBILITY_HASH_DOMAIN +:+ be_bytes 4 (Z.of_nat (length (participants g)) mod 2 ^ 32) +:+
  sjoin (map participant_bytes (participants g)) +:+
  legPubkey32 (f_sender_pubkey (final_message g)) +:+ legU32 (JInt (f_seq (final_message g))) +:+
  String (if answered (final_message g) then "001" else "000")%char EmptyString.

Definition canonicalLegibilityHash (g : SealLegibility) : bytes := sha256 (canonicalLegibilityBytes g).

Definition bindLegibilityToTbs (tbs : bytes) (g : option SealLegibility) : bytes :=
  match g with None => tbs | Some g => tbs +:+ canonicalLegibilityHash g end.

End Legibility.
End SealLegibility.
