(* ===== verification/SealLegibilityTheorems.v ===== *)
(** What the published receipt says of the transcript it was derived from: its frontiers
    are signed, its binding determines it, and how far [answered] and the
    countersigned prefix can be trusted. *)
From Stdlib Require Import Ascii.
From S2P Require Import Prelude JsMap Bytes Wire SealChain SealChainTheorems SealLegibility.
Import JsMap Bytes Wire SealChain SealChainTheorems SealLegibility.

Module SealLegibilityTheorems.

Abbreviation seqno l := (sequence_number (s2 l)).

(** The relay's numbering. *)
Definition numbered (leaves : list RelaySealLeaf) : Prop :=
  ∀ i l, leaves !! i = Some l → seqno l = (Z.of_nat i + 1)%Z.

(** * Numbers *)

Lemma js_gt_irrefl x : js_gt x x = false.
Proof. destruct x; cbn; try done; by rewrite Z.ltb_irrefl. Qed.

Ltac js_order :=
  cbn in *; bools; try done; try (apply Z.ltb_ge; lia); try (apply Z.leb_gt; lia).

Lemma js_gt_below x y z : js_gt x y = true → js_gt x z = false → js_gt y z = false.
Proof. destruct x, y, z; intros; js_order. Qed.

Lemma js_gt_above x y z : y ≠ JNaN → js_gt x y = false → js_gt y z = false → js_gt x z = false.
Proof. destruct x, y, z; intros; js_order. Qed.

Lemma first_seen_spec seen leaves :
  NoDup seen → NoDup (first_seen seen leaves) ∧
  ∀ pk, pk ∈ first_seen seen leaves ↔ pk ∈ seen ∨ ∃ l, l ∈ leaves ∧ sender l = pk.
Proof.
  revert seen. induction leaves as [|l leaves IH]; intros seen Hs; cbn [first_seen].
  { split; [done|]. intros pk. split; [by left|]. intros [?|(? & ?%not_elem_of_nil & _)]; done. }
  destruct (IH (if bool_decide (sender l ∈ seen) then seen else seen ++ [sender l])) as [Hn Hall].
  { case_bool_decide; [done|]. apply list.NoDup_app. split; [done|]. split; [set_solver|apply NoDup_singleton]. }
  split; [exact Hn|]. intros pk. rewrite Hall. case_bool_decide; set_unfold; naive_solver.
Qed.

Section Legibility.
Variable cborDecode : bytes → option jsval.
Variable sha256 : bytes → bytes.
Abbreviation lastSeen l := (decodeSignedLastSeenSeq cborDecode (structure1_cbor l)).
Abbreviation build := (buildSealLegibility cborDecode).

(** * Frontiers *)

Lemma raise_spec cur leaves l :
  cur ≠ JNaN → foldl (raise_frontier cborDecode) cur leaves = l →
  (l = cur ∨ ∃ x, x ∈ leaves ∧ lastSeen x = Some l) ∧ js_gt cur l = false ∧
  (∀ x n, x ∈ leaves → lastSeen x = Some n → js_gt n l = false).
Proof.
  revert cur. induction leaves as [|y leaves IH]; intros cur Hc; cbn [foldl].
  { intros <-. split; [by left|]. split; [apply js_gt_irrefl|]. by intros ? ? ?%not_elem_of_nil. }
  intros El. unfold raise_frontier in El at 2. destruct (lastSeen y) as [n|] eqn:Ey; [destruct (js_gt n cur) eqn:Eg|].
  - destruct (IH n) as (Hor & Hn & Hall); [by destruct n|done|]. split; [right|split].
    + destruct Hor as [->|(x & Hx & Ex)]; [exists y|exists x]; split; try done; [left|by right].
    + by eapply js_gt_below.
    + intros x m [->|Hx]%elem_of_cons; [rewrite Ey; by intros [= <-]|by eauto].
  - destruct (IH cur Hc El) as (Hor & Hcur & Hall). split; [|split; [done|]].
    + destruct Hor as [->|(x & Hx & Ex)]; [by left|right]. exists x. split; [by right|done].
    + intros x m [->|Hx]%elem_of_cons; [|by eauto]. rewrite Ey. intros [= <-]. by eapply js_gt_above.
  - destruct (IH cur Hc El) as (Hor & Hcur & Hall). split; [|split; [done|]].
    + destruct Hor as [->|(x & Hx & Ex)]; [by left|right]. exists x. split; [by right|done].
    + intros x m [->|Hx]%elem_of_cons; [by rewrite Ey|by eauto].
Qed.

Lemma authored_spec cur leaves :
  let m := foldl (λ cur l, Z.max cur (seqno l)) cur leaves in
  (m = cur ∨ ∃ x, x ∈ leaves ∧ seqno x = m) ∧ (cur <= m)%Z ∧ (∀ x, x ∈ leaves → (seqno x <= m)%Z).
Proof.
  cbv zeta. revert cur. induction leaves as [|y leaves IH]; intros cur; cbn [foldl].
  { split; [by left|]. split; [lia|]. by intros ? ?%not_elem_of_nil. }
  destruct (IH (Z.max cur (seqno y))) as (Hor & Hcur & Hall). split; [|split; [lia|]].
  - destruct Hor as [E|(x & Hx & Ex)]; [|right; exists x; split; [by right|done]].
    destruct (Z.max_spec cur (seqno y)) as [[_ E']|[_ E']]; [right; exists y; split; [left|]|left]; lia.
  - intros x [->|Hx]%elem_of_cons; [lia|by apply Hall].
Qed.

Lemma elem_own leaves pk l : l ∈ own_leaves leaves pk ↔ l ∈ leaves ∧ sender l = pk.
Proof.
  unfold own_leaves. rewrite list_elem_of_In, List.filter_In, <- list_elem_of_In.
  by rewrite bool_decide_eq_true.
Qed.

(** The frontiers of a receipt are signed.  Its participants are exactly the senders of
    the leaves, each once.  A participant's content frontier is zero or a
    last-seen number inside bytes of its own leaves, and no own leaf acknowledges
    more; its last authored number is zero or that of an own leaf, and no own leaf
    has a higher one. *)
Theorem frontiers_are_signed leaves overrides g :
  build leaves overrides = Some g →
  NoDup (map pubkey (participants g)) ∧
  (∀ pk, pk ∈ map pubkey (participants g) ↔ ∃ l, l ∈ leaves ∧ sender l = pk) ∧
  (∀ p, p ∈ participants g →
     (content_frontier_seq p = JInt 0 ∨
      ∃ l, l ∈ leaves ∧ sender l = pubkey p ∧ lastSeen l = Some (content_frontier_seq p)) ∧
     (∀ l n, l ∈ leaves → sender l = pubkey p → lastSeen l = Some n → js_gt n (content_frontier_seq p) = false) ∧
     (last_authored_seq p = 0%Z ∨ ∃ l, l ∈ leaves ∧ sender l = pubkey p ∧ seqno l = last_authored_seq p) ∧
     (∀ l, l ∈ leaves → sender l = pubkey p → (seqno l <= last_authored_seq p)%Z)).
Proof.
  unfold buildSealLegibility. destruct (final_of leaves) as [f|]; [|done]. intros [= <-]. cbn [participants].
  rewrite map_map. cbn [pubkey participant_of]. rewrite map_id.
  destruct (first_seen_spec [] leaves) as [Hn Hall]; [constructor|]. split; [exact Hn|]. split.
  { intros pk. rewrite Hall. split; [intros [?%not_elem_of_nil|?]; done|by right]. }
  intros p (pk & -> & _)%list_elem_of_fmap. cbn. unfold frontier, lastAuthored.
  destruct (raise_spec (JInt 0) (own_leaves leaves pk) _ ltac:(done) eq_refl) as (F1 & _ & F2).
  destruct (authored_spec 0 (own_leaves leaves pk)) as (A1 & _ & A2). split_and!.
  - destruct F1 as [->|(l & [Hl Es]%elem_own & E)]; [by left|right]. by exists l.
  - intros l n Hl Es. apply F2, elem_own. done.
  - destruct A1 as [->|(l & [Hl Es]%elem_own & E)]; [by left|right]. by exists l.
  - intros l Hl Es. apply A2, elem_own. done.
Qed.

(** * The final message *)

Lemma highest_spec seq best leaves :
  let '(m, b) := highest seq best leaves in
  (b = best ∧ m = seq ∧ ∀ x, x ∈ leaves → (seqno x <= seq)%Z) ∨
  (∃ x, x ∈ leaves ∧ b = Some x ∧ m = seqno x ∧ (seq < m)%Z ∧ ∀ y, y ∈ leaves → (seqno y <= m)%Z).
Proof.
  unfold highest. revert seq best. induction leaves as [|l leaves IH]; intros seq best; cbn [foldl fst].
  { left. split; [done|]. split; [done|]. by intros ? ?%not_elem_of_nil. }
  destruct (seq <? seqno l)%Z eqn:E; bools.
  - specialize (IH (seqno l) (Some l)). destruct (foldl _ _ _) as [m b]. destruct IH as [(-> & -> & Hall)|(x & Hx & -> & -> & Hlt & Hall)]; right.
    + exists l. split; [left|]. split; [done|]. split; [done|]. split; [done|].
      intros y [->|Hy]%elem_of_cons; [lia|by apply Hall].
    + exists x. split; [by right|]. split; [done|]. split; [done|]. split; [lia|].
      intros y [->|Hy]%elem_of_cons; [lia|by apply Hall].
  - specialize (IH seq best). destruct (foldl _ _ _) as [m b]. destruct IH as [(-> & -> & Hall)|(x & Hx & -> & -> & Hlt & Hall)].
    + left. split; [done|]. split; [done|]. intros y [->|Hy]%elem_of_cons; [lia|by apply Hall].
    + right. exists x. split; [by right|]. split; [done|]. split; [done|]. split; [done|].
      intros y [->|Hy]%elem_of_cons; [lia|by apply Hall].
Qed.

Lemma indexed_snoc leaves l : indexed (leaves ++ [l]) = indexed leaves ++ [(length leaves, l)].
Proof.
  unfold indexed. rewrite length_app, Nat.add_comm. cbn [length Nat.add]. rewrite seq_S, zip_with_app by apply length_seq.
  done.
Qed.

Lemma elem_indexed leaves i l : (i, l) ∈ indexed leaves ↔ leaves !! i = Some l.
Proof.
  unfold indexed. rewrite list_elem_of_lookup. setoid_rewrite lookup_zip_with_Some. split.
  - intros (j & x & y & [= -> ->] & [-> _]%lookup_seq & Hy). done.
  - intros Hl. exists i, i, l. split; [done|]. split; [|done]. apply lookup_seq. split; [done|]. by apply lookup_lt_Some in Hl.
Qed.

(** The control leaves after the last message. *)
Lemma elem_closing leaves i l :
  (i, l) ∈ closing_from (rev (indexed leaves)) ↔
  leaves !! i = Some l ∧ kind l = ctrl ∧ ∀ j l', i < j → leaves !! j = Some l' → kind l' ≠ msg.
Proof.
  revert i l. induction leaves as [|x leaves IH] using rev_ind; intros i l; cbn.
  { split; [by intros ?%not_elem_of_nil|by intros [? _]]. }
  rewrite indexed_snoc, rev_unit. cbn [closing_from].
  assert (∀ j l', (leaves ++ [x]) !! j = Some l' ↔ leaves !! j = Some l' ∨ j = length leaves ∧ l' = x) as Hlk.
  { intros j l'. rewrite lookup_app_Some, list_lookup_singleton_Some. split; [intros [?|[? [? <-]]]; [by left|right; split; [lia|done]]|].
    intros [?|[-> ->]]; [by left|right]. split; [done|]. split; [lia|done]. }
  assert (∀ j l', leaves !! j = Some l' → j < length leaves) as Hlt by (intros j l'; apply lookup_lt_Some).
  setoid_rewrite Hlk. destruct (kind x) eqn:Ek.
  - split; [by intros ?%not_elem_of_nil|]. intros ([Hi|[-> ->]] & Hk & Hall); [|congruence].
    exfalso. apply (Hall (length leaves) x); [by eapply Hlt|by right|done].
  - rewrite elem_of_cons, IH. split.
    + intros [[= -> ->]|(Hi & Hk & Hall)].
      * split; [by right|]. split; [done|]. intros j l' Hj [?%Hlt|[-> ->]]; lia.
      * split; [by left|]. split; [done|]. intros j l' Hj [?|[-> ->]]; [by eapply Hall|congruence].
    + intros ([Hi|[-> ->]] & Hk & Hall); [right|by left]. split; [done|]. split; [done|].
      intros j l' Hj Hl'. eapply Hall; [exact Hj|by left].
  - rewrite IH. split; intros (Hi & Hk & Hall).
    + split; [by left|]. split; [done|]. intros j l' Hj [?|[-> ->]]; [by eapply Hall|congruence].
    + destruct Hi as [Hi|[-> ->]]; [|congruence]. split; [done|]. split; [done|].
      intros j l' Hj Hl'. eapply Hall; [exact Hj|by left].
  - rewrite IH. split; intros (Hi & Hk & Hall).
    + split; [by left|]. split; [done|]. intros j l' Hj [?|[-> ->]]; [by eapply Hall|congruence].
    + destruct Hi as [Hi|[-> ->]]; [|congruence]. split; [done|]. split; [done|].
      intros j l' Hj Hl'. eapply Hall; [exact Hj|by left].
Qed.

Lemma msgs_elem leaves l :
  l ∈ List.filter (λ l, bool_decide (kind l = msg)) leaves ↔ ∃ i, leaves !! i = Some l ∧ kind l = msg.
Proof.
  rewrite list_elem_of_In, List.filter_In, <- list_elem_of_In, bool_decide_eq_true, list_elem_of_lookup. naive_solver.
Qed.

(** When a final message counts as answered.  For leaves that the relay numbered, the
    final message is the last message leaf, and it counts as answered exactly when
    the log has no closing pair and a control leaf of the other party follows it:
    a seal that both parties closed never publishes an answered final message,
    whatever the transcript. *)
Theorem answered_spec leaves overrides g :
  numbered leaves → build leaves overrides = Some g →
  ((∀ l, l ∈ leaves → kind l ≠ msg) ∧ answered (final_message g) = false) ∨
  ∃ k final, leaves !! k = Some final ∧ kind final = msg ∧
    (∀ j l, k < j → leaves !! j = Some l → kind l ≠ msg) ∧
    f_sender_pubkey (final_message g) = sender final ∧ f_seq (final_message g) = (Z.of_nat k + 1)%Z ∧
    (answered (final_message g) = true ↔
     findSealCeremonyPair leaves = None ∧
     ∃ i l, leaves !! i = Some l ∧ k < i ∧ kind l = ctrl ∧ sender l ≠ sender final).
Proof.
  intros Hn. unfold buildSealLegibility, final_of.
  pose proof (highest_spec (-1) None (List.filter (λ l, bool_decide (kind l = msg)) leaves)) as H.
  destruct (highest (-1) None _) as [m b].
  assert (∀ l, l ∈ leaves → (1 <= seqno l)%Z) as Hpos.
  { intros l (i & Hi)%list_elem_of_lookup. rewrite (Hn i l Hi). lia. }
  destruct H as [(-> & -> & Hall)|(final & (k & Hk & Ek)%msgs_elem & -> & -> & _ & Hall)].
  { intros E. left. split.
    - intros l Hl Ek. assert (l ∈ List.filter (λ l, bool_decide (kind l = msg)) leaves) as Hin.
      { apply list_elem_of_lookup in Hl as [i Hi]. apply msgs_elem. by exists i. }
      specialize (Hall l Hin). specialize (Hpos l Hl). lia.
    - destruct (highest _ _ _) as [m' [l|]]; cbn in E; [by injection E as <-|done]. }
  intros [= <-]. right. exists k, final. cbn [final_message f_sender_pubkey f_seq answered].
  assert (∀ j l, k < j → leaves !! j = Some l → kind l ≠ msg) as Hlast.
  { intros j l Hj Hl El. assert (l ∈ List.filter (λ l, bool_decide (kind l = msg)) leaves) as Hin by (apply msgs_elem; eauto).
    specialize (Hall l Hin). rewrite (Hn _ _ Hl), (Hn _ _ Hk) in Hall. lia. }
  split; [done|]. split; [done|]. split; [exact Hlast|]. split; [done|]. split; [by rewrite (Hn _ _ Hk)|].
  rewrite existsb_exists. unfold answers. split.
  - intros ([i l] & Hin & Ha). apply list_elem_of_In, elem_indexed in Hin. cbn [fst snd] in Ha. bools.
    rewrite (Hn _ _ Hin), (Hn _ _ Hk) in *. assert (k < i) as Hi by lia.
    assert (kind l = ctrl) as Hc by (specialize (Hlast i l Hi Hin); destruct (kind l); congruence).
    assert (i ∈ map fst (closing_from (rev (indexed leaves)))) as Hcl.
    { apply list_elem_of_fmap. exists (i, l). split; [done|]. apply elem_closing. split; [done|]. split; [done|].
      intros j l' Hj. apply Hlast. lia. }
    unfold sealCeremonyRegion in *. destruct (findSealCeremonyPair leaves); [done|]. split; [done|].
    exists i, l. split; [done|]. split; [done|]. split; [done|]. intros Es.
    match goal with H : hex _ ≠ hex _ |- _ => apply H end. f_equal. exact Es.
  - intros (Hp & i & l & Hl & Hi & Hc & Hs). exists (i, l). split; [by apply list_elem_of_In, elem_indexed|].
    unfold sealCeremonyRegion. rewrite Hp. cbn [fst snd]. rewrite !andb_true_iff, !negb_true_iff, orb_false_iff, Hc.
    split_and!; try (apply bool_decide_eq_false; try done; try (by intros ?%not_elem_of_nil); try (intros E; by apply (inj hex) in E)).
    apply Z.ltb_lt. rewrite (Hn _ _ Hl), (Hn _ _ Hk). lia.
Qed.

(** * The binding *)

Definition u32 (n : Z) : Prop := (0 <= n < 2 ^ 32)%Z.

(** What fits the fixed layout: 32-byte keys and 32-bit numbers. *)
Record fits (g : SealLegibility) : Prop := mkFits {
  ft_length : u32 (Z.of_nat (length (participants g)));
  ft_participants : ∀ p, p ∈ participants g →
    String.length (pubkey p) = 32 ∧ (∃ n, content_frontier_seq p = JInt n ∧ u32 n) ∧ u32 (last_authored_seq p);
  ft_sender : String.length (f_sender_pubkey (final_message g)) = 32;
  ft_seq : u32 (f_seq (final_message g));
}.

Lemma legPubkey32_id pk : String.length pk = 32 → legPubkey32 pk = pk.
Proof.
  intros Hl. unfold legPubkey32. rewrite Hl. cbn [Nat.sub zeros]. rewrite str_app_nil_r.
  rewrite <- (str_app_nil_r pk) at 1. by apply str_take_app.
Qed.

Lemma legU32_length n : String.length (legU32 n) = 4.
Proof. apply be_bytes_length. Qed.

Lemma be_bytes_inj4 a b : u32 a → u32 b → be_bytes 4 a = be_bytes 4 b → a = b.
Proof.
  unfold u32. intros Ha Hb E. apply (f_equal be_value) in E. rewrite !be_value_bytes in E.
  by rewrite !Z.mod_small in E by (exact Ha || exact Hb).
Qed.

Lemma legU32_inj a b : u32 a → u32 b → legU32 (JInt a) = legU32 (JInt b) → a = b.
Proof.
  intros Ha Hb. unfold legU32, to_uint32. rewrite !Z.mod_small by (exact Ha || exact Hb). by apply be_bytes_inj4.
Qed.

Lemma legModeByte_inj m m' : legModeByte m = legModeByte m' → m = m'.
Proof. by destruct m, m'. Qed.

Lemma participant_bytes_inj p q :
  String.length (pubkey p) = 32 → String.length (pubkey q) = 32 →
  (∃ n, content_frontier_seq p = JInt n ∧ u32 n) → (∃ n, content_frontier_seq q = JInt n ∧ u32 n) →
  u32 (last_authored_seq p) → u32 (last_authored_seq q) → participant_bytes p = participant_bytes q → p = q.
Proof.
  destruct p as [pk f a m], q as [pk' f' a' m']. cbn [pubkey content_frontier_seq last_authored_seq]. intros Hl Hl' (n & -> & Hn) (n' & -> & Hn') Ha Ha'.
  unfold participant_bytes. cbn [pubkey content_frontier_seq last_authored_seq attestation_mode].
  rewrite !legPubkey32_id by done. intros E.
  apply str_app_inj_len in E as [-> E]; [|congruence].
  apply str_app_inj_len in E as [En E]; [|by rewrite !legU32_length].
  apply str_app_inj_len in E as [Ea Em]; [|by rewrite !legU32_length].
  apply legU32_inj in En as ->; try done. apply legU32_inj in Ea as ->; try done. by apply legModeByte_inj in Em as ->.
Qed.

Lemma participant_bytes_length p : String.length (pubkey p) = 32 → String.length (participant_bytes p) = 41.
Proof.
  intros Hl. unfold participant_bytes. rewrite legPubkey32_id by done. rewrite !str_app_length, !legU32_length, Hl.
  by destruct (attestation_mode p).
Qed.

Lemma participants_bytes_inj (ps qs : list SealLegibilityParticipant) :
  (∀ p, p ∈ ps ++ qs → String.length (pubkey p) = 32 ∧ (∃ n, content_frontier_seq p = JInt n ∧ u32 n) ∧ u32 (last_authored_seq p)) →
  map participant_bytes ps = map participant_bytes qs → ps = qs.
Proof.
  revert qs. induction ps as [|p ps IH]; intros [|q qs] Hall E; try done. cbn in E. injection E as Ep E.
  destruct (Hall p ltac:(left)) as (H1 & H2 & H3). destruct (Hall q ltac:(set_solver)) as (H1' & H2' & H3').
  f_equal; [by apply participant_bytes_inj|]. apply IH; [|done]. intros x Hx. apply Hall. set_solver.
Qed.

(** C10. The signed receipt cannot be altered.  For receipts that fit their layout (32-byte
    keys, 32-bit numbers), if two statements with their receipts bound are the same
    bytes and the hash is 32 bytes long, then the statements are the same, and so
    are the participants with their frontiers and modes and the final message with
    its answered flag, or the two receipts are a collision of the hash. *)
Theorem receipt_binding tbs tbs' g g' :
  (∀ b, String.length (sha256 b) = 32) → fits g → fits g' → String.length tbs = String.length tbs' →
  bindLegibilityToTbs sha256 tbs (Some g) = bindLegibilityToTbs sha256 tbs' (Some g') →
  tbs = tbs' ∧
  ((participants g = participants g' ∧ final_message g = final_message g') ∨
   (canonicalLegibilityBytes g ≠ canonicalLegibilityBytes g' ∧
    sha256 (canonicalLegibilityBytes g) = sha256 (canonicalLegibilityBytes g'))).
Proof.
  intros Hsha [Hc Hp Hs Hq] [Hc' Hp' Hs' Hq'] Hl E. unfold bindLegibilityToTbs in E.
  apply str_app_inj_len in E as [-> E]; [|done]. split; [done|].
  destruct (decide (canonicalLegibilityBytes g = canonicalLegibilityBytes g')) as [Eb|]; [left|by right].
  clear E. unfold canonicalLegibilityBytes in Eb. apply str_app_inj_l in Eb.
  rewrite !legPubkey32_id in Eb by done.
  apply str_app_inj_len in Eb as [En Eb]; [|by rewrite !be_bytes_length].
  rewrite !Z.mod_small in En by (exact Hc || exact Hc'). apply be_bytes_inj4 in En; [|done|done].
  apply Nat2Z.inj in En.
  assert (∀ g : SealLegibility, (∀ p, p ∈ participants g → String.length (pubkey p) = 32) →
    String.length (sjoin (map participant_bytes (participants g))) = 41 * length (participants g)) as Hj.
  { clear. intros g Hall. induction (participants g) as [|p ps IH]; [done|]. unfold sjoin in *. cbn [map foldr length].
    rewrite str_app_length, participant_bytes_length by (apply Hall; left).
    rewrite IH by (intros q Hq; apply Hall; by right). lia. }
  apply str_app_inj_len in Eb as [Ep Eb]; [|rewrite !Hj, En; [done|intros ? Hx; apply (Hp' _ Hx)|intros ? Hx; apply (Hp _ Hx)]].
  apply str_app_inj_len in Eb as [Ek Eb]; [|congruence].
  apply str_app_inj_len in Eb as [Ef Ea]; [|by rewrite !legU32_length]. apply legU32_inj in Ef; [|done|done].
  split.
  - apply participants_bytes_inj.
    + intros p [Hin|Hin]%elem_of_app; [by apply Hp|by apply Hp'].
    + apply (sjoin_inj_width 41); [done| | |exact Ep].
      all: apply list.Forall_forall; intros b (p & -> & Hin)%list_elem_of_fmap; apply participant_bytes_length;
        first [apply (Hp _ Hin)|apply (Hp' _ Hin)].
  - destruct (final_message g) as [s f a], (final_message g') as [s' f' a']. cbn in *. subst.
    f_equal. by destruct a, a'.
Qed.

(** * The countersigned prefix *)

Definition lowest_reach (low : jsnum) (ps : list SealLegibilityParticipant) : jsnum :=
  foldl (λ lowest p, if js_gt lowest (reach p) then reach p else lowest) low ps.

Lemma lowest_reach_spec low ps :
  (lowest_reach low ps = low ∨ ∃ p, p ∈ ps ∧ lowest_reach low ps = reach p).
Proof.
  unfold lowest_reach. revert low. induction ps as [|p ps IH]; intros low; [by left|]. cbn [foldl].
  destruct (IH (if js_gt low (reach p) then reach p else low)) as [->|(q & Hq & ->)].
  - destruct (js_gt low (reach p)); [|by left]. right. exists p. split; [left|done].
  - right. exists q. split; [by right|done].
Qed.

(** Signed last-seen numbers that are integers, as those of every client are. *)
Definition integral (leaves : list RelaySealLeaf) : Prop :=
  ∀ l n, l ∈ leaves → lastSeen l = Some n → js_is_integer n = true.

Lemma reach_integral leaves overrides pk n :
  integral leaves → (∃ own, own ∈ leaves ∧ sender own = pk ∧ (n <= seqno own)%Z) →
  ∃ z, reach (participant_of cborDecode leaves overrides pk) = JInt z ∧ (n <= z)%Z.
Proof.
  intros Hint (own & Ho & Es & Hle).
  assert (∃ f, frontier cborDecode leaves pk = JInt f) as [f Ef].
  { unfold frontier. destruct (raise_spec (JInt 0) (own_leaves leaves pk) _ ltac:(done) eq_refl) as ([->|(x & [Hx _]%elem_own & Ex)] & _); [by exists 0%Z|].
    apply Hint in Ex; [|done]. destruct (foldl _ _ _); try done. by eexists. }
  assert (n <= lastAuthored leaves pk)%Z as Ha.
  { etrans; [exact Hle|]. destruct (authored_spec 0 (own_leaves leaves pk)) as (_ & _ & Hmax). by apply Hmax, elem_own. }
  unfold reach, participant_of. cbn. rewrite Ef. cbn. destruct (f <? lastAuthored leaves pk)%Z eqn:E; bools;
    eexists; (split; [done|lia]).
Qed.

(** The countersigned prefix counts what was never read.  Whatever the parties
    acknowledged (in integers), the prefix published as signed by both reaches at
    least every number up to which each of them has authored some leaf: two
    parties whose messages crossed, and who acknowledged nothing of each other,
    are still published as having countersigned each other's messages. *)
Theorem countersigned_without_receipt leaves overrides g n :
  leaves ≠ [] → integral leaves → build leaves overrides = Some g →
  (∀ l, l ∈ leaves → ∃ own, own ∈ leaves ∧ sender own = sender l ∧ (n <= seqno own)%Z) →
  ∃ z, countersigned_through_seq g = JInt z ∧ (n <= z)%Z.
Proof.
  intros Hne Hint. unfold buildSealLegibility. destruct (final_of leaves) as [f|]; [|done]. intros [= <-] Hall.
  cbn [countersigned_through_seq]. unfold countersignedThroughSeq. cbv zeta.
  set (ps := map _ _). change (foldl _ JPosInf ps) with (lowest_reach JPosInf ps).
  destruct (first_seen_spec [] leaves) as [_ Hfs]; [constructor|].
  assert (∀ p, p ∈ ps → ∃ z, reach p = JInt z ∧ (n <= z)%Z) as Hps.
  { intros p (pk & -> & [?%not_elem_of_nil|(l & Hl & <-)]%Hfs)%list_elem_of_fmap; [done|].
    apply reach_integral; [done|]. by apply Hall. }
  assert (ps ≠ []) as Hps0.
  { destruct leaves as [|l leaves]; [done|]. intros E.
    assert (sender l ∈ first_seen [] (l :: leaves)) as Hin by (apply Hfs; right; exists l; split; [left|done]).
    unfold ps in E. apply List.map_eq_nil in E. rewrite E in Hin. by apply not_elem_of_nil in Hin. }
  destruct ps as [|p ps]; [done|]. destruct (Hps p ltac:(left)) as (z & Ez & Hz).
  assert (∃ q, q ∈ p :: ps ∧ lowest_reach JPosInf (p :: ps) = reach q) as (q & Hq & ->).
  { unfold lowest_reach. cbn [foldl]. rewrite Ez. cbn [js_gt].
    destruct (lowest_reach_spec (JInt z) ps) as [E|(q & Hq & E)].
    - exists p. split; [left|]. by rewrite Ez.
    - exists q. split; [by right|done]. }
  destruct (Hps q Hq) as (y & -> & Hy). by exists y.
Qed.

End Legibility.
End SealLegibilityTheorems.
