(* ===== verification/SealNotary.v ===== *)
(** How a directory seals a conversation (packages/directory/src/directory-node.ts:
    [processSeal], [#processSealFrostSignature], [#processSealUnilateral],
    [#completeUnilateralNotarization], [#processSealUpgradeRequest] and
    [#processSealCertificateRequest]), over the store of notarizations of
    packages/interfaces/src/stubs/in-memory-directory-store.ts, which is also the
    contract of the SQL one: one row per session and type, the first one wins.

    A call that leaves the process is answered by the environment, by a tick that
    counts the calls.  Handlers run to their end, but for [#processSealUnilateral],
    which other inputs may interrupt while it waits for the relay's answer.  A frame
    that cannot be sent now is queued; the node's queues are one list, and what is
    drained from them is not removed.  Left out: log lines, encoding failures of
    frames, the details of refusals, and the test-only inflation of frontiers. *)
From S2P Require Import Prelude Text JsMap Effects Wire SealChain SealChainTheorems SealFinalRoot SealCosign SealLegibility.
Import Text JsMap Effects Wire SealChain SealChainTheorems SealFinalRoot SealLegibility.

Module SealNotary.

(** * Data *)

Record RelaySealData : Type := mkSealData { leaves : list RelaySealLeaf; merkle_root : bytes }.

Inductive SealType : Type := unilateral | bilateral.

#[global] Instance SealType_eq_dec : EqDecision SealType.
Proof. solve_decision. Defined.

Inductive liveness : Type := Alive | GoneAway | Unseen.

#[global] Instance notary_liveness_eq_dec : EqDecision liveness.
Proof. solve_decision. Defined.

Inductive ConversationAttestation : Type := CLEAN | FLAGGED | PENDING | DELIVERED | ABSENT.

Record SealNotarization : Type := mkNotarization {
  n_session_id : bytes;
  n_sealed_root : bytes;
  participant_a_pubkey : bytes;
  participant_b_pubkey : bytes;
  close_timestamp : Z;
  frost_signature : bytes;
  seal_type : SealType;
  supersedes : option nat;
  leaf_count : option Z;
  signer_pubkey : option bytes;
  n_legibility : option SealLegibility;
}.

Record ConversationSealRecord : Type := mkConversation {
  cv_session : bytes;
  cv_root : bytes;
  cv_type : SealType;
  cv_timestamp : Z;
  cv_signature : bytes;
  cv_parties : list (bytes * ConversationAttestation);
}.

(** What completes a seal.  A seal of the directory's own key has no signer. *)
Record Certificate : Type := mkCertificate {
  c_session_id : bytes;
  c_sealed_root : bytes;
  c_signature : bytes;
  c_signer : option bytes;
  c_timestamp : Z;
  c_leaf_count : Z;
  c_legibility : SealLegibility;
}.

Inductive frame : Type :=
| FSealRejected (session_id : bytes) (reason : string)
| FSealVerified (session_id sealed_root : bytes) (leaf_count timestamp : Z) (legibility : option SealLegibility)
    (frontier_leaves : list SealCosign.CosignLeaf)
| FSessionSealed (c : Certificate) (frontier_leaves : option (list SealCosign.CosignLeaf))
| FUnilateralConfirmed (c : Certificate) (absent : bytes) (attestation : ConversationAttestation)
    (frontier_leaves : list SealCosign.CosignLeaf)
| FUnilateralNotification (c : Certificate) (present : bytes) (attestation : ConversationAttestation)
| FTooEarly (session_id : bytes) (cause : string) (remaining_seconds : option Z)
| FUpgradeRejected (session_id : bytes) (reason : string)
| FUpgradeConfirmed (session_id sealed_root : bytes) (leaf_count : jsnum) (close_timestamp : Z)
    (present present_signature : bytes) (frost : bool) (returning returning_signature : bytes)
| FCertificate (n : SealNotarization)
| FCertificateError (session_id : bytes).

Record PendingFrostSeal : Type := mkPending {
  p_initiatorHex : string;
  participantAHex : string;
  participantBHex : string;
  sealedRoot : bytes;
  leafCount : Z;
  timestamp : Z;
  tbs : bytes;
  p_attestation : option ConversationAttestation;
  p_legibility : SealLegibility;
  p_frontierLeaves : list SealCosign.CosignLeaf;
}.

Record SealUnilateral : Type := mkUnilateral {
  u_session_id : bytes;
  reported_root : bytes;
  seal_leaves : option (list SealUnilateralLeaf);
}.

(** A unilateral request whose relay was asked: what was read before the question. *)
Record UnilateralAsk : Type := mkAsk {
  ask_sender : string;
  ask_frame : SealUnilateral;
  ask_pair : string * string;
  ask_genesis : Z;
  ask_now : Z;
  ask_highStakes : bool;
}.

Record SealUpgradeRequest : Type := mkUpgrade {
  up_session_id : bytes;
  returning_pubkey : bytes;
  ack_signature : bytes;
  up_leaf_count : jsnum;
}.

(** [profile]: the primary key of a profile that has one; [None] is a failed lookup.
    [presence]: whether an agent is online, and the node that holds it. *)
Record NotaryEnv : Type := mkNotaryEnv {
  clock : nat → Z;
  verify : bytes → bytes → bytes → bool;
  verifyFrost : bytes → bytes → bytes → bool;
  sha256 : bytes → bytes;
  cborDecode : bytes → option jsval;
  encodeCbor : list jsval → bytes;
  encodeStructure2 : Structure2 → bytes;
  merkle_tree_root : list (leaf_kind * bytes) → bytes;
  leaf_hasher : leaf_kind → bytes → bytes;
  nodeHash : bytes → bytes → bytes;
  hash_tree_root : list bytes → bytes;
  buildRelayAckTbs : bytes → Z → jsnum → bytes;
  decodeSealPayload : bytes → option SealPayload;
  buildSealTbs : bytes → bytes → Z → jsnum → bytes;
  node_sign : nat → bytes → option bytes;
  profile : nat → string → option (option bytes);
  relay_liveness : nat → bytes → option liveness;
  presence : nat → string → bool * option string;
  manifest_nodes : list (string * option (string * string));
  nodeId : string;
  write_fate : nat → fate;
  reads : nat → bool;
  send_works : nat → bool;
  mmr_configured : bool;
  deliveryGraceSeconds : Z;
  highStakesGraceSeconds : Z;
}.

Record notary : Type := mkNotary {
  tick : nat;
  sessionParticipants : jsmap string (string * string);
  pendingSessions : jsmap string (string * string);
  sessionGenesisAt : jsmap string Z;
  sessionHighStakes : jsmap string bool;
  unilateralSeals : jsmap string (bytes * Z * string);
  pendingFrostSeals : jsmap string PendingFrostSeal;
  primaryPubkeys : jsmap string bytes;
  asking : jsmap nat UnilateralAsk;
  streams : list string;
  rows : list SealNotarization;
  conversationSeals : list ConversationSealRecord;
  mmrStaged : list (string * string);
  queued : list (string * frame);
  sent : list (string * frame);
}.

Definition initial : notary := mkNotary 0 [] [] [] [] [] [] [] [] [] [] [] [] [] [].

Definition with_tick (w : notary) n :=
  mkNotary n (sessionParticipants w) (pendingSessions w) (sessionGenesisAt w) (sessionHighStakes w) (unilateralSeals w)
    (pendingFrostSeals w) (primaryPubkeys w) (asking w) (streams w) (rows w) (conversationSeals w) (mmrStaged w) (queued w) (sent w).
Definition with_sessions (w : notary) ps pe ge hs :=
  mkNotary (tick w) ps pe ge hs (unilateralSeals w)
    (pendingFrostSeals w) (primaryPubkeys w) (asking w) (streams w) (rows w) (conversationSeals w) (mmrStaged w) (queued w) (sent w).
Definition with_unilateralSeals (w : notary) m :=
  mkNotary (tick w) (sessionParticipants w) (pendingSessions w) (sessionGenesisAt w) (sessionHighStakes w) m
    (pendingFrostSeals w) (primaryPubkeys w) (asking w) (streams w) (rows w) (conversationSeals w) (mmrStaged w) (queued w) (sent w).
Definition with_pendingFrost (w : notary) m :=
  mkNotary (tick w) (sessionParticipants w) (pendingSessions w) (sessionGenesisAt w) (sessionHighStakes w) (unilateralSeals w)
    m (primaryPubkeys w) (asking w) (streams w) (rows w) (conversationSeals w) (mmrStaged w) (queued w) (sent w).
Definition with_primary (w : notary) m :=
  mkNotary (tick w) (sessionParticipants w) (pendingSessions w) (sessionGenesisAt w) (sessionHighStakes w) (unilateralSeals w)
    (pendingFrostSeals w) m (asking w) (streams w) (rows w) (conversationSeals w) (mmrStaged w) (queued w) (sent w).
Definition with_asking (w : notary) m :=
  mkNotary (tick w) (sessionParticipants w) (pendingSessions w) (sessionGenesisAt w) (sessionHighStakes w) (unilateralSeals w)
    (pendingFrostSeals w) (primaryPubkeys w) m (streams w) (rows w) (conversationSeals w) (mmrStaged w) (queued w) (sent w).
Definition with_streams (w : notary) l :=
  mkNotary (tick w) (sessionParticipants w) (pendingSessions w) (sessionGenesisAt w) (sessionHighStakes w) (unilateralSeals w)
    (pendingFrostSeals w) (primaryPubkeys w) (asking w) l (rows w) (conversationSeals w) (mmrStaged w) (queued w) (sent w).
Definition with_rows (w : notary) l :=
  mkNotary (tick w) (sessionParticipants w) (pendingSessions w) (sessionGenesisAt w) (sessionHighStakes w) (unilateralSeals w)
    (pendingFrostSeals w) (primaryPubkeys w) (asking w) (streams w) l (conversationSeals w) (mmrStaged w) (queued w) (sent w).
Definition with_staged (w : notary) c m :=
  mkNotary (tick w) (sessionParticipants w) (pendingSessions w) (sessionGenesisAt w) (sessionHighStakes w) (unilateralSeals w)
    (pendingFrostSeals w) (primaryPubkeys w) (asking w) (streams w) (rows w) c m (queued w) (sent w).
Definition with_out (w : notary) q s :=
  mkNotary (tick w) (sessionParticipants w) (pendingSessions w) (sessionGenesisAt w) (sessionHighStakes w) (unilateralSeals w)
    (pendingFrostSeals w) (primaryPubkeys w) (asking w) (streams w) (rows w) (conversationSeals w) (mmrStaged w) q s.

(** A rejected promise. *)
Inductive exn : Type := Threw.

Abbreviation M := (act notary exn).

(** [Buffer.from(hex, "hex")] of the hexadecimal form of a key. *)
Definition from_hex (s : string) : bytes := default EmptyString (unhex s).

Section Notary.
Context (env : NotaryEnv).

(** * Outside calls *)

Definition next_tick : M nat := λ w, (with_tick w (S (tick w)), Ok (tick w)).

Definition now : M Z := t ← next_tick; mret (clock env t).

(** [streams.get(to)] and [#sendFrame]: whether the frame left. *)
Definition send_now (to : string) (f : frame) : M bool :=
  live ← gets (λ w, bool_decide (to ∈ streams w));
  if negb live then mret false
  else
    t ← next_tick;
    if send_works env t then _ ← modify (λ w, with_out w (queued w) (sent w ++ [(to, f)])); mret true else mret false.

(** On the stream a request came on. *)
Definition sendFrame (to : string) (f : frame) : M unit :=
  t ← next_tick;
  if send_works env t then modify (λ w, with_out w (queued w) (sent w ++ [(to, f)])) else throw Threw.

(** A failure is ignored. *)
Definition reply (to : string) (f : frame) : M unit := try_catch (sendFrame to f) (λ _, mret tt).

(** A question to the store. *)
Definition read {A} (f : notary → A) : M A :=
  t ← next_tick; if reads env t then gets f else throw Threw.

(** A write to the store whose failure is caught: a lost one is lost. *)
Definition best_effort (f : notary → notary) : M unit :=
  t ← next_tick;
  match write_fate env t with
  | FailsBefore => mret tt
  | Works | FailsAfter => modify f
  end.

Definition enqueue (to : string) (f : frame) : M unit :=
  modify (λ w, with_out w (queued w ++ [(to, f)]) (sent w)).

Definition send_or_enqueue (to : string) (f : frame) : M unit :=
  ok ← send_now to f; if (ok : bool) then mret tt else enqueue to f.

(** A stream that fails is dropped; nothing is queued for nobody. *)
Definition deliverOrEnqueue (to : string) (f : frame) : M unit :=
  ok ← send_now to f;
  if (ok : bool) then mret tt
  else
    _ ← modify (λ w, with_streams w (List.filter (λ s, negb (bool_decide (s = to))) (streams w)));
    if bool_decide (to = EmptyString) then mret tt else enqueue to f.

Definition notifySealRejected (sessionId : bytes) (reason : string) (recipients : option (list string)) : M unit :=
  match recipients with
  | Some ((_ :: _) as l) =>
      for_each (λ to, if bool_decide (to = EmptyString) then mret tt
                      else deliverOrEnqueue to (FSealRejected sessionId reason)) l
  | _ =>
      all ← gets streams;
      for_each (λ to, send_or_enqueue to (FSealRejected sessionId reason)) all
  end.

Definition resolvePrimaryPubkey (kLocalPubkeyHex : string) : M (option bytes) :=
  cached ← gets (λ w, jget (primaryPubkeys w) kLocalPubkeyHex);
  match cached with
  | Some pk => mret (Some pk)
  | None =>
      t ← next_tick;
      match profile env t kLocalPubkeyHex with
      | None => throw Threw
      | Some None => mret None
      | Some (Some pk) =>
          _ ← modify (λ w, with_primary w (jset (primaryPubkeys w) kLocalPubkeyHex pk)); mret (Some pk)
      end
  end.

(** * The store *)

Definition same_key (a b : SealNotarization) : bool :=
  bool_decide (n_session_id a = n_session_id b) && bool_decide (seal_type a = seal_type b).

(** The unique index: the first row of a session and type wins. *)
Definition insert_row (n : SealNotarization) (rs : list SealNotarization) : list SealNotarization :=
  if existsb (same_key n) rs then rs else rs ++ [n].

Definition recordNotarization (n : SealNotarization) : M unit :=
  best_effort (λ w, with_rows w (insert_row n (rows w))).

Definition is_row (sessionId : bytes) (ty : SealType) (n : SealNotarization) : bool :=
  bool_decide (n_session_id n = sessionId) && bool_decide (seal_type n = ty).

Definition find_row (rs : list SealNotarization) (sessionId : bytes) (ty : SealType) : option SealNotarization :=
  List.find (is_row sessionId ty) rs.

(** The bilateral row when there is one. *)
Definition getNotarization (rs : list SealNotarization) (sessionId : bytes) : option SealNotarization :=
  match find_row rs sessionId bilateral with Some n => Some n | None => find_row rs sessionId unilateral end.

(** Rows are numbered from one. *)
Definition getNotarizationId (rs : list SealNotarization) (sessionId : bytes) (ty : SealType) : option nat :=
  (λ e, S e.1) <$> list_find (λ n, is_row sessionId ty n = true) rs.

Definition has_fields (n : SealNotarization) : bool :=
  bool_decide (is_Some (leaf_count n)) && bool_decide (is_Some (signer_pubkey n)).

(** Only a row with the fields that make it verifiable. *)
Definition getSealCertificate (rs : list SealNotarization) (sessionId : bytes) : option SealNotarization :=
  let servable ty := n ← find_row rs sessionId ty; if has_fields n then Some n else None in
  match servable bilateral with Some n => Some n | None => servable unilateral end.

Definition recordConversationSeal (sessionId root : bytes) (ty : SealType) (parties : list (bytes * ConversationAttestation))
    (sig : bytes) (ts : Z) : M unit :=
  best_effort (λ w, with_staged w (conversationSeals w ++ [mkConversation sessionId root ty ts sig parties]) (mmrStaged w)).

Definition stage_mmr (sessionId root : bytes) : M unit :=
  if mmr_configured env then best_effort (λ w, with_staged w (conversationSeals w) (mmrStaged w ++ [(hex sessionId, hex root)]))
  else mret tt.

(** * The bilateral verdict *)

Abbreviation senderHex l := (hex (sender_pubkey (s2 l))).

Definition structure2_root (ls : list RelaySealLeaf) : bytes :=
  merkle_tree_root env (map (λ l, (kind l, encodeStructure2 env (s2 l))) ls).

Definition content_root (ls : list RelaySealLeaf) : bytes :=
  hash_tree_root env (map (λ l, content_hash (s2 l)) ls).

(** The loop over the leaves, after [before], from the root over them. *)
Fixpoint check_chain (before : list RelaySealLeaf) (runningRoot : bytes) (ls : list RelaySealLeaf) : result string unit :=
  match ls with
  | [] => Ok tt
  | leaf :: rest =>
      if negb (verify env (sender_pubkey (s2 leaf)) (structure1_cbor leaf) (sender_signature (s2 leaf)))
      then Err "leaf_signature_invalid"
      else match decodeStructure1Fields (cborDecode env) (structure1_cbor leaf) with
      | None => Err "leaf_signature_invalid"
      | Some f =>
          if negb (bool_decide (s1_content_hash f = content_hash (s2 leaf))) then Err "content_hash_mismatch"
          else if negb (bool_decide (prev_root (s2 leaf) = runningRoot)) then Err "prev_root_chain_broken"
          else if js_gtb (s1_last_seen_seq f) (effectiveSeen before (senderHex leaf)) then Err "causal_chain_violated"
          else check_chain (before ++ [leaf]) (structure2_root (before ++ [leaf])) rest
      end
  end.

Definition verifySealLeaves (ls : list RelaySealLeaf) : bool :=
  if (length ls <? 2)%nat then false
  else match findSealCeremonyPair ls with
  | None => false
  | Some (_, responder) => (responder =? length ls - 1)%nat
  end.

(** Both participants or no certificate. *)
Definition final_refusal (v : result string (Coverage * bytes)) : option string :=
  match v with
  | Err r => Some (if bool_decide (r = NOT_CARRIED) then APPROVAL_INCOMPLETE else r)
  | Ok (one, _) => Some APPROVAL_INCOMPLETE
  | Ok (both, _) => None
  end.

(** What the participants are told. *)
Definition final_wire (reason : string) : string :=
  if bool_decide (reason = SENDER_NOT_PARTICIPANT ∨ reason = LEAF_SESSION_MISMATCH) then "seal_leaves_invalid"
  else if bool_decide (reason = APPROVAL_INCOMPLETE) then "seal_approval_missing"
  else if bool_decide (reason = PARTIES_DISAGREE) then "seal_parties_disagree"
  else "merkle_root_mismatch".

(** Everything [processSeal] decides before it signs: the refusal, what is told to
    whom, or the receipt and the initiator.  The receipt of a verified log exists. *)
Definition judge (sessionId : bytes) (data : RelaySealData) (roster : option (bytes * bytes))
    : result (string * string * bool) (SealLegibility * RelaySealLeaf) :=
  let ls := leaves data in
  if negb (bool_decide (structure2_root ls = merkle_root data)) then Err ("merkle_root_mismatch", "merkle_root_mismatch", false)
  else match check_chain [] (initial_root ls) ls with
  | Err r => Err (r, if bool_decide (r = "content_hash_mismatch") then "leaf_signature_invalid" else r, false)
  | Ok _ =>
      if negb (verifySealLeaves ls) then Err ("seal_leaves_invalid", "seal_leaves_invalid", false)
      else match final_refusal (verifySealFinalRoots (cborDecode env) (hash_tree_root env) (decodeSealPayload env) (sha256 env)
                                  ls sessionId roster) with
      | Some r => Err (r, final_wire r, true)
      | None =>
          match buildSealLegibility (cborDecode env) ls [], findSealCeremonyPair ls with
          | Some g, Some (i, _) =>
              match ls !! i with Some l => Ok (g, l) | None => Err (EmptyString, EmptyString, false) end
          | _, _ => Err (EmptyString, EmptyString, false)
          end
      end
  end.

(** The pair the session was assigned to, when this node knows it. *)
Definition known_pair (w : notary) (key : string) : option (string * string) :=
  match jget (sessionParticipants w) key with Some p => Some p | None => jget (pendingSessions w) key end.

Definition roster_of (known : option (string * string)) : option (bytes * bytes) :=
  (λ p, (from_hex p.1, from_hex p.2)) <$> known.

Definition single_tbs (sessionId root : bytes) (ts : Z) : bytes :=
  encodeCbor env [VBytes sessionId; VBytes root; if (0xffffffff <? ts)%Z then VBig ts else VNum (JInt ts)].

Definition frontier_leaf (l : RelaySealLeaf) : SealCosign.CosignLeaf :=
  SealCosign.mkCosignLeaf (structure1_cbor l) (sender_pubkey (s2 l)) (sender_signature (s2 l)) (content_bytes l)
    (Some (match kind l with msg => "msg" | ctrl => "ctrl" | doc => "doc" | reject => "reject" end)).

Definition participants_hex (ls : list RelaySealLeaf) : list string := map hex (first_seen [] ls).

(** The first two senders. *)
Definition two_senders (ls : list RelaySealLeaf) : bytes * bytes :=
  match participants_hex ls with a :: b :: _ => (from_hex a, from_hex b) | _ => (zero32, zero32) end.

(** The key store's signature. *)
Definition sign (message : bytes) : M bytes :=
  t ← next_tick;
  match node_sign env t message with Some s => mret s | None => throw Threw end.

(** The seal of the directory's own key. *)
Definition seal_single (sessionId : bytes) (ls : list RelaySealLeaf) (g : SealLegibility) (ts : Z) : M unit :=
  let root := content_root ls in
  sig ← sign (single_tbs sessionId root ts);
  let '(a, b) := two_senders ls in
  _ ← recordNotarization (mkNotarization sessionId root a b ts sig bilateral None None None None);
  _ ← recordConversationSeal sessionId root bilateral [(a, DELIVERED); (b, DELIVERED)] sig ts;
  _ ← stage_mmr sessionId root;
  let event := FSessionSealed (mkCertificate sessionId root sig None ts (Z.of_nat (length ls)) g) None in
  let to i := default EmptyString (participants_hex ls !! i) in
  _ ← deliverOrEnqueue (to 0) event;
  if (2 <=? length (participants_hex ls))%nat then deliverOrEnqueue (to 1) event else mret tt.

(** The answer when the initiator has no stream here. *)
Definition route_to (initiatorHex : string) (f : frame) : M (result (string * option (string * string * string)) unit) :=
  t ← next_tick;
  let '(rawOnline, owner) := presence env t initiatorHex in
  _ ← enqueue initiatorHex f;
  mret (match owner with
  | Some node =>
      if rawOnline && negb (bool_decide (node = nodeId env)) then
        Err ("seal_initiator_not_local",
             match List.find (λ e, bool_decide (e.1 = node)) (manifest_nodes env) with
             | Some (_, Some (peerId, multiaddr)) => Some (node, peerId, multiaddr)
             | _ => None
             end)
      else Ok tt
  | None => Ok tt
  end).

Definition processSeal (sessionId : bytes) (data : RelaySealData)
    : M (result (string * option (string * string * string)) unit) :=
  let key := hex sessionId in
  let ls := leaves data in
  known ← gets (λ w, known_pair w key);
  match judge sessionId data (roster_of known) with
  | Err (reason, wire, to_pair) =>
      _ ← notifySealRejected sessionId wire
            (if (to_pair : bool) then (λ r, [hex r.1; hex r.2]) <$> roster_of known else None);
      mret (Err (reason, None))
  | Ok (g, initiator) =>
      let root := content_root ls in
      let count := Z.of_nat (length ls) in
      ts ← now;
      primary ← resolvePrimaryPubkey (senderHex initiator);
      match primary with
      | None => _ ← seal_single sessionId ls g ts; mret (Ok tt)
      | Some _ =>
          let event := FSealVerified sessionId root count ts (Some g) (map frontier_leaf ls) in
          let party i := default EmptyString (participants_hex ls !! i) in
          _ ← modify (λ w, with_pendingFrost w (jset (pendingFrostSeals w) key
                (mkPending (senderHex initiator) (party 0) (party 1) root count ts
                   (bindLegibilityToTbs (sha256 env) (buildSealTbs env sessionId root count (JInt ts)) (Some g)) None g
                   (map frontier_leaf ls))));
          live ← gets (λ w, bool_decide (senderHex initiator ∈ streams w));
          if (live : bool) then _ ← send_or_enqueue (senderHex initiator) event; mret (Ok tt)
          else route_to (senderHex initiator) event
      end
  end.

(** * Unilateral completion *)

Definition completeUnilateralNotarization (sessionId root : bytes) (presentHex absentHex : string) (ts count : Z) (sig : bytes)
    (signer : option bytes) (att : ConversationAttestation) (g : SealLegibility) (evidence : list SealCosign.CosignLeaf) : M unit :=
  let key := hex sessionId in
  let present := from_hex presentHex in
  let absentee := from_hex absentHex in
  _ ← recordNotarization (mkNotarization sessionId root present absentee ts sig unilateral None (Some count) signer (Some g));
  _ ← recordConversationSeal sessionId root unilateral [(present, DELIVERED); (absentee, att)] sig ts;
  _ ← stage_mmr sessionId root;
  let cert := mkCertificate sessionId root sig signer ts count g in
  _ ← send_now presentHex (FUnilateralConfirmed cert absentee att evidence);
  _ ← enqueue absentHex (FUnilateralNotification cert present att);
  modify (λ w, with_sessions w (jdel (sessionParticipants w) key) (pendingSessions w) (jdel (sessionGenesisAt w) key)
                 (jdel (sessionHighStakes w) key)).

(** * The initiator's threshold signature *)

Definition processSealFrostSignature (initiatorHex : string) (sessionId sig : bytes) : M unit :=
  let key := hex sessionId in
  pending ← gets (λ w, jget (pendingFrostSeals w) key);
  match pending with
  | None => mret tt
  | Some p =>
      if negb (bool_decide (p_initiatorHex p = initiatorHex)) then mret tt
      else
        _ ← modify (λ w, with_pendingFrost w (jdel (pendingFrostSeals w) key));
        primary ← resolvePrimaryPubkey initiatorHex;
        match primary with
        | None => mret tt
        | Some pk =>
            let a := from_hex (participantAHex p) in
            let b := from_hex (participantBHex p) in
            if negb (verifyFrost env sig (tbs p) pk) then
              _ ← deliverOrEnqueue (participantAHex p) (FSealRejected sessionId "seal_signature_invalid");
              if bool_decide (participantBHex p = EmptyString) then mret tt
              else deliverOrEnqueue (participantBHex p) (FSealRejected sessionId "seal_signature_invalid")
            else match p_attestation p with
            | Some att =>
                completeUnilateralNotarization sessionId (sealedRoot p) (participantAHex p) (participantBHex p) (timestamp p) (leafCount p) sig (Some pk) att
                  (p_legibility p) (p_frontierLeaves p)
            | None =>
                _ ← recordNotarization (mkNotarization sessionId (sealedRoot p) a b (timestamp p) sig bilateral None
                      (Some (leafCount p)) (Some pk) (Some (p_legibility p)));
                _ ← recordConversationSeal sessionId (sealedRoot p) bilateral [(a, DELIVERED); (b, DELIVERED)] sig (timestamp p);
                _ ← stage_mmr sessionId (sealedRoot p);
                let event := FSessionSealed (mkCertificate sessionId (sealedRoot p) sig (Some pk) (timestamp p) (leafCount p)
                                               (p_legibility p)) (Some (p_frontierLeaves p)) in
                _ ← deliverOrEnqueue (participantAHex p) event;
                if bool_decide (participantBHex p = EmptyString) then mret tt else deliverOrEnqueue (participantBHex p) event
            end
        end
  end.

(** * The unilateral seal *)

(** Up to the question to the relay. *)
Definition processSealUnilateral (request : nat) (senderHex : string) (f : SealUnilateral) : M unit :=
  let key := hex (u_session_id f) in
  sealed ← gets (λ w, jhas (unilateralSeals w) key);
  if (sealed : bool) then mret tt
  else
    genesis ← gets (λ w, jget (sessionGenesisAt w) key);
    match genesis with
    | None => mret tt
    | Some genesisAt =>
        n ← now;
        known ← gets (λ w, known_pair w key);
        match known with
        | None => mret tt
        | Some (a, b) =>
            if negb (bool_decide (senderHex = a) || bool_decide (senderHex = b)) then mret tt
            else
              modify (λ w, with_asking w (jset (asking w) request
                (mkAsk senderHex f (a, b) genesisAt n (default false (jget (sessionHighStakes w) key)))))
        end
    end.

Definition absent_party (pair : string * string) (senderHex : string) : string :=
  if bool_decide (pair.1 = senderHex) then pair.2 else pair.1.

Definition floor_seconds (highStakes : bool) : Z :=
  if highStakes then highStakesGraceSeconds env else deliveryGraceSeconds env.

(** The refusal of the gate, with the seconds that remain. *)
Definition unilateral_gate (highStakes : bool) (elapsedMs : Z) (live : liveness) : option (string * option Z) :=
  let floorMs := (floor_seconds highStakes * 1000)%Z in
  if bool_decide (live = Alive) then Some ("counterparty_present", None)
  else if (elapsedMs <? floorMs)%Z then Some ("too_early", Some (- ((elapsedMs - floorMs) / 1000))%Z)
  else if highStakes && negb (bool_decide (live = GoneAway)) then Some ("high_stakes_evidence_required", None)
  else None.

Definition verifyUnilateralChain (ls : list RelaySealLeaf) (reportedRoot : bytes) (presentHex : string) (sessionId : bytes)
    (roster : bytes * bytes) : result string bytes :=
  match verifySealLeafChain (verify env) (cborDecode env) (encodeStructure2 env) (leaf_hasher env) (nodeHash env)
          (hash_tree_root env) ls reportedRoot sessionId roster with
  | Err r => Err (if bool_decide (r ∈ DIRECTORY_COLLAPSED_CHAIN_REASONS) then "unilateral_root_unverifiable" else r)
  | Ok root => _ ← verifySealCtrlLeaf ls presentHex; Ok root
  end.

(** The receipt names the absent party, whether or not it authored a leaf. *)
Definition unilateral_legibility (ls : list RelaySealLeaf) (absentHex : string) : option SealLegibility :=
  g ← buildSealLegibility (cborDecode env) ls [(absentHex, absent)];
  let ps := if existsb (λ p, bool_decide (hex (pubkey p) = absentHex)) (participants g) then participants g
            else participants g ++ [mkParticipant (from_hex absentHex) (JInt 0) 0 absent] in
  Some (mkLegibility ps (final_message g) (countersignedThroughSeq ps)).

Definition unilateral_leaf (l : RelaySealLeaf) : SealCosign.CosignLeaf :=
  SealCosign.mkCosignLeaf (structure1_cbor l) (sender_pubkey (s2 l)) (sender_signature (s2 l)) None None.

(** What the carried leaves amount to. *)
Definition judge_unilateral (a : UnilateralAsk) : result string (list RelaySealLeaf * bytes * SealLegibility) :=
  let f := ask_frame a in
  ls ← reconstructCarriedSealLeaves (verify env) (cborDecode env) (buildRelayAckTbs env) (seal_leaves f) (ask_sender a) None;
  root ← verifyUnilateralChain ls (reported_root f) (ask_sender a) (u_session_id f)
           (from_hex (ask_pair a).1, from_hex (ask_pair a).2);
  match unilateral_legibility ls (absent_party (ask_pair a) (ask_sender a)) with
  | Some g => Ok (ls, root, g)
  | None => Err EmptyString
  end.

(** From the relay's answer on. *)
Definition livenessKnown (request : nat) : M unit :=
  waiting ← gets (λ w, jget (asking w) request);
  match waiting with
  | None => mret tt
  | Some a =>
      _ ← modify (λ w, with_asking w (jdel (asking w) request));
      let sid := u_session_id (ask_frame a) in
      let absentHex := absent_party (ask_pair a) (ask_sender a) in
      t ← next_tick;
      let live := default Unseen (relay_liveness env t (from_hex absentHex)) in
      match unilateral_gate (ask_highStakes a) (ask_now a - ask_genesis a) live with
      | Some (cause, remaining) => reply (ask_sender a) (FTooEarly sid cause remaining)
      | None =>
          match judge_unilateral a with
          | Err _ => mret tt
          | Ok (ls, root, g) =>
              let count := Z.of_nat (length ls) in
              let ts := ask_now a in
              let att := if bool_decide (live = GoneAway) then ABSENT else DELIVERED in
              _ ← modify (λ w, with_unilateralSeals w (jset (unilateralSeals w) (hex sid) (root, ts, ask_sender a)));
              primary ← resolvePrimaryPubkey (ask_sender a);
              match primary with
              | None =>
                  sig ← sign (single_tbs sid root ts);
                  completeUnilateralNotarization sid root (ask_sender a) absentHex ts count sig None att g
                    (map unilateral_leaf ls)
              | Some _ =>
                  _ ← modify (λ w, with_pendingFrost w (jset (pendingFrostSeals w) (hex sid)
                        (mkPending (ask_sender a) (ask_sender a) absentHex root count ts
                           (buildSealTbs env sid root count (JInt ts)) (Some att) g (map unilateral_leaf ls))));
                  send_or_enqueue (ask_sender a) (FSealVerified sid root count ts None (map unilateral_leaf ls))
              end
          end
      end
  end.

(** * The upgrade *)

Definition SEAL_UPGRADE_ACK_DOMAIN : string := "cello-seal-upgrade-ack-v1".

Definition ack_tbs (sessionId root : bytes) : bytes :=
  encodeCbor env [VStr SEAL_UPGRADE_ACK_DOMAIN; VBytes sessionId; VBytes root].

Definition processSealUpgradeRequest (senderHex : string) (f : SealUpgradeRequest) : M unit :=
  let sid := up_session_id f in
  let refuse reason := reply senderHex (FUpgradeRejected sid reason) in
  existing ← read (λ w, getNotarization (rows w) sid);
  match existing with
  | None => refuse "no_unilateral_seal"
  | Some n =>
      if bool_decide (seal_type n = bilateral) then refuse "already_bilateral"
      else
        let present := participant_a_pubkey n in
        let absentee := participant_b_pubkey n in
        if negb (bool_decide (senderHex = hex absentee)) then refuse "not_absent_party"
        else if negb (bool_decide (hex (returning_pubkey f) = hex absentee)) then refuse "not_absent_party"
        else if negb (verify env absentee (ack_tbs sid (n_sealed_root n)) (ack_signature f)) then refuse "ack_signature_invalid"
        else
          id ← read (λ w, getNotarizationId (rows w) sid unilateral);
          _ ← recordNotarization (mkNotarization sid (n_sealed_root n) present absentee (close_timestamp n) (ack_signature f)
                bilateral id None None None);
          primary ← resolvePrimaryPubkey (hex present);
          let confirmed := FUpgradeConfirmed sid (n_sealed_root n) (up_leaf_count f) (close_timestamp n) present
                             (frost_signature n) (bool_decide (is_Some primary)) absentee (ack_signature f) in
          _ ← reply senderHex confirmed;
          _ ← send_now (hex present) confirmed;
          enqueue (hex present) confirmed
  end.

(** * Pulling a certificate *)

Definition processSealCertificateRequest (authedHex : string) (sessionId : bytes) : M unit :=
  try_catch
    (found ← read (λ w, getSealCertificate (rows w) sessionId);
     match found with
     | Some n =>
         if bool_decide (hex (participant_a_pubkey n) = authedHex) || bool_decide (hex (participant_b_pubkey n) = authedHex)
         then sendFrame authedHex (FCertificate n)
         else sendFrame authedHex (FCertificateError sessionId)
     | None => sendFrame authedHex (FCertificateError sessionId)
     end)
    (λ _, sendFrame authedHex (FCertificateError sessionId)).

(** * Inputs *)

Inductive input : Type :=
| Assigned (sessionId : bytes) (initiatorHex targetHex : string) (highStakes : bool)
| Unassigned (sessionId : bytes)
| Restarted
| Restored (sessionId : bytes) (initiatorHex targetHex : string) (genesis : Z) (highStakes : bool)
| Registered (pubkeyHex : string) (primaryPubkey : bytes)
| Connected (pubkeyHex : string)
| Disconnected (pubkeyHex : string)
| SealSubmitted (sessionId : bytes) (data : RelaySealData)
| FrostSigned (initiatorHex : string) (sessionId sig : bytes)
| UnilateralAsked (request : nat) (senderHex : string) (f : SealUnilateral)
| LivenessKnown (request : nat)
| UpgradeAsked (senderHex : string) (f : SealUpgradeRequest)
| CertificateAsked (authedHex : string) (sessionId : bytes).

(** The pair of a session, its genesis and its tier, as an assignment leaves them. *)
Definition assign (sid : bytes) (a b : string) (highStakes : bool) : M unit :=
  n ← now;
  modify (λ w, with_sessions w (jset (sessionParticipants w) (hex sid) (a, b)) (jset (pendingSessions w) (hex sid) (a, b))
                 (jset (sessionGenesisAt w) (hex sid) n)
                 (if highStakes then jset (sessionHighStakes w) (hex sid) true else sessionHighStakes w)).

Definition restore (w : notary) (sid : bytes) (a b : string) (genesis : Z) (highStakes : bool) : notary :=
  with_sessions w (jset (sessionParticipants w) (hex sid) (a, b)) (pendingSessions w)
    (jset (sessionGenesisAt w) (hex sid) genesis)
    (if highStakes then jset (sessionHighStakes w) (hex sid) true else sessionHighStakes w).

(** The memory is lost; the store, the queues and what was sent remain. *)
Definition restart (w : notary) : notary :=
  mkNotary (tick w) [] [] [] [] [] [] [] [] [] (rows w) (conversationSeals w) (mmrStaged w) (queued w) (sent w).

Definition run_input (w : notary) (i : input) : notary :=
  match i with
  | Assigned sid a b highStakes => (assign sid a b highStakes w).1
  | Unassigned sid => with_sessions w (sessionParticipants w) (jdel (pendingSessions w) (hex sid)) (sessionGenesisAt w) (sessionHighStakes w)
  | Restarted => restart w
  | Restored sid a b genesis highStakes => restore w sid a b genesis highStakes
  | Registered who pk => with_primary w (jset (primaryPubkeys w) who pk)
  | Connected pk => with_streams w (list_union (streams w) [pk])
  | Disconnected pk => with_streams w (List.filter (λ s, negb (bool_decide (s = pk))) (streams w))
  | SealSubmitted sid data => (processSeal sid data w).1
  | FrostSigned who sid sig => (processSealFrostSignature who sid sig w).1
  | UnilateralAsked r who f => (processSealUnilateral r who f w).1
  | LivenessKnown r => (livenessKnown r w).1
  | UpgradeAsked who f => (processSealUpgradeRequest who f w).1
  | CertificateAsked who sid => (processSealCertificateRequest who sid w).1
  end.

Definition run (w : notary) (inputs : list input) : notary := foldl run_input w inputs.

End Notary.
End SealNotary.
