(* ===== verification/SealNotaryInvariant.v ===== *)
(** The invariant of a sealing directory: everything it has recorded, queued or sent
    about a seal was justified by what it was given.  The justifications are those of
    the inputs of a whole run; every step of every handler keeps them. *)
From S2P Require Import Prelude Text JsMap Effects Wire SealChain SealChainTheorems SealFinalRoot SealCosign SealLegibility.
From S2P Require Import SealLegibilityTheorems SealNotary.
Import Text JsMap Effects Wire SealChain SealChainTheorems SealFinalRoot SealLegibility SealLegibilityTheorems SealNotary.

Module SealNotaryInvariant.

(** * Maps whose entries all satisfy a property *)

Definition jall {V} (P : string → V → Prop) (m : jsmap string V) : Prop :=
  jwf m ∧ ∀ k v, jget m k = Some v → P k v.

Section Jall.
Context {V : Type} (P : string → V → Prop).

Lemma jall_nil : jall P [].
Proof. split; [constructor|done]. Qed.

Lemma jall_set m k v : jall P m → P k v → jall P (jset m k v).
Proof.
  intros [Hw Hm] Hv. split; [by apply jwf_jset|]. intros k' v'. rewrite jget_jset.
  case_decide as E; [by intros [= <-]; subst|apply Hm].
Qed.

Lemma jall_del m k : jall P m → jall P (jdel m k).
Proof.
  intros [Hw Hm]. split; [by apply jwf_jdel|]. intros k' v'. rewrite jget_jdel by done.
  case_decide; [done|apply Hm].
Qed.

End Jall.

(** * What a verdict rests on *)

Lemma nodup_length {A} `{EqDecision A} (l k : list A) : NoDup l → (∀ x, x ∈ l → x ∈ k) → length l <= length k.
Proof. intros Hn Hs. apply submseteq_length, NoDup_submseteq; [done|exact Hs]. Qed.

Lemma judge_ok env sid data roster g l :
  judge env sid data roster = Ok (g, l) →
  structure2_root env (leaves data) = merkle_root data ∧
  check_chain env [] (initial_root (leaves data)) (leaves data) = Ok tt ∧
  verifySealLeaves (leaves data) = true ∧
  (∃ root, verifySealFinalRoots (cborDecode env) (hash_tree_root env) (decodeSealPayload env) (sha256 env) (leaves data) sid roster
           = Ok (both, root)) ∧
  buildSealLegibility (cborDecode env) (leaves data) [] = Some g ∧
  ∃ i j, findSealCeremonyPair (leaves data) = Some (i, j) ∧ leaves data !! i = Some l.
Proof.
  unfold judge. destruct (bool_decide (_ = merkle_root data)) eqn:Er; bools; [|done]. cbn [negb].
  destruct (unit_result (check_chain env [] (initial_root (leaves data)) (leaves data))) as [[e ->]| ->]; [done|].
  destruct (verifySealLeaves _) eqn:Ev; [|done]. cbn [negb].
  destruct (verifySealFinalRoots _ _ _ _ _ _ _) as [[[] root]|r]; try done. cbn [final_refusal].
  destruct (buildSealLegibility _ _ _) as [g'|]; [|done].
  destruct (findSealCeremonyPair _) as [[i j]|]; [|done]. destruct (leaves data !! i) as [l'|] eqn:El; [|done].
  intros [= <- <-]. split_and!; try done; [by exists root|]. by exists i, j.
Qed.

(** Exactly two parties, of the roster when there is one. *)
Lemma judge_two env sid data roster g l :
  judge env sid data roster = Ok (g, l) →
  ∃ p q, first_seen [] (leaves data) = [p; q] ∧
    match roster with Some (x, y) => (p = x ∧ q = y) ∨ (p = y ∧ q = x) | None => True end.
Proof.
  intros Hj. apply judge_ok in Hj as (_ & _ & _ & (root & Hr) & _).
  apply verifySealFinalRoots_iff in Hr as (Hp & _ & _ & _ & _ & H2).
  destruct (proj1 H2 eq_refl) as (l1 & l2 & Hl1 & Hl2 & _ & _ & Hne).
  destruct (first_seen_spec [] (leaves data)) as [Hn Hall]; [constructor|].
  set (fs := first_seen [] (leaves data)) in *. clearbody fs.
  assert (∀ l, l ∈ leaves data → sender l ∈ fs) as Hin by (intros l' Hl'; apply Hall; right; by exists l').
  assert (2 <= length fs) as Hge.
  { apply (nodup_length [sender l1; sender l2]).
    - apply NoDup_cons_2; [by rewrite list_elem_of_singleton|apply NoDup_singleton].
    - intros x [->|Hx]%elem_of_cons; [by apply Hin|]. apply list_elem_of_singleton in Hx as ->. by apply Hin. }
  apply provenance_spec in Hp as [HF Hd].
  assert (length fs <= 2) as Hle.
  { destruct roster as [[x y]|].
    - apply (nodup_length fs [x; y]); [done|]. intros pk [?%not_elem_of_nil|(l' & Hl' & <-)]%Hall; [done|].
      rewrite List.Forall_forall in HF. apply list_elem_of_In in Hl'. destruct (HF _ Hl') as [[<-| <-] _]; set_solver.
    - etrans; [|apply (Hd eq_refl)]. apply nodup_length; [done|].
      intros pk [?%not_elem_of_nil|(l' & Hl' & <-)]%Hall; [done|]. apply elem_of_remove_dups, list_elem_of_fmap. by exists l'. }
  destruct fs as [|p [|q [|]]]; cbn in Hge, Hle; try lia. exists p, q. split; [done|].
  destruct roster as [[x y]|]; [|done]. 
  apply list.NoDup_cons in Hn as [Hpq _]. rewrite list_elem_of_singleton in Hpq.
  assert (∀ pk, pk ∈ [p; q] → pk = x ∨ pk = y) as Hxy.
  { intros pk [?%not_elem_of_nil|(l' & Hl' & <-)]%Hall; [done|]. rewrite List.Forall_forall in HF.
    apply list_elem_of_In in Hl'. destruct (HF _ Hl') as [[<-| <-] _]; tauto. }
  destruct (Hxy p), (Hxy q); try set_solver; naive_solver.
Qed.

Section Invariant.
Context (env : NotaryEnv) (all : list input).

(** * Justifications *)

(** An assignment or a restored session of the run, with its genesis and tier. *)
Definition declared (sid : bytes) (ab : string * string) (genesis : Z) (highStakes : bool) : Prop :=
  (∃ t, Assigned sid ab.1 ab.2 highStakes ∈ all ∧ genesis = clock env t) ∨
  Restored sid ab.1 ab.2 genesis highStakes ∈ all.

Definition roster_declared (sid : bytes) (roster : option (bytes * bytes)) : Prop :=
  match roster with
  | None => True
  | Some r => ∃ ab genesis highStakes, declared sid ab genesis highStakes ∧
      r = (from_hex ab.1, from_hex ab.2)
  end.

(** The pair that the node knows for a session after some inputs. *)
Definition roster_at (before : list input) (sid : bytes) : option (bytes * bytes) :=
  roster_of (known_pair (run env initial before) (hex sid)).

(** A submitted log that was judged good, for the pair the node knew when it came. *)
Definition concluded (sid : bytes) (ls : list RelaySealLeaf) (g : SealLegibility) (initiator : RelaySealLeaf) : Prop :=
  ∃ root before after, all = before ++ SealSubmitted sid (mkSealData ls root) :: after ∧
    roster_declared sid (roster_at before sid) ∧
    judge env sid (mkSealData ls root) (roster_at before sid) = Ok (g, initiator).

(** A group key of [who], from its profile or a key ceremony. *)
Definition group_key (who : string) (pk : bytes) : Prop :=
  (∃ t, profile env t who = Some (Some pk)) ∨ Registered who pk ∈ all.

(** The signature is of a group key of [who], or, without one, of this node's key. *)
Definition signed (who : string) (signer : option bytes) (sig tbs single : bytes) : Prop :=
  match signer with
  | Some pk => group_key who pk ∧ verifyFrost env sig tbs pk = true
  | None => ∃ t, node_sign env t single = Some sig
  end.

(** What both parties closed on, as [g] tells it. *)
Definition bilateral_tbs (sid root : bytes) (count ts : Z) (g : SealLegibility) : bytes :=
  bindLegibilityToTbs (sha256 env) (buildSealTbs env sid root count (JInt ts)) (Some g).

Definition bilaterally_sealed (sid root : bytes) (count ts : Z) (sig : bytes) (signer : option bytes) (g : SealLegibility)
    (a b : bytes) : Prop :=
  ∃ ls initiator, concluded sid ls g initiator ∧ root = content_root env ls ∧ count = Z.of_nat (length ls) ∧
    participants_hex ls = [hex a; hex b] ∧
    signed (hex (sender initiator)) signer sig (bilateral_tbs sid root count ts g) (single_tbs env sid root ts).

(** A request that passed the checks made before the relay was asked. *)
Definition asked (a : UnilateralAsk) : Prop :=
  let sid := u_session_id (ask_frame a) in
  (∃ r, UnilateralAsked r (ask_sender a) (ask_frame a) ∈ all) ∧ (∃ t, ask_now a = clock env t) ∧
  (ask_sender a = (ask_pair a).1 ∨ ask_sender a = (ask_pair a).2) ∧
  ∃ highStakes, declared sid (ask_pair a) (ask_genesis a) highStakes ∧ (highStakes = true → ask_highStakes a = true).

(** A request that was granted: what the relay said, and what the carried leaves gave. *)
Definition granted (a : UnilateralAsk) (ls : list RelaySealLeaf) (root : bytes) (g : SealLegibility)
    (att : ConversationAttestation) : Prop :=
  asked a ∧
  (∃ t, let live := default Unseen (relay_liveness env t (from_hex (absent_party (ask_pair a) (ask_sender a)))) in
     unilateral_gate env (ask_highStakes a) (ask_now a - ask_genesis a) live = None ∧
     att = if bool_decide (live = GoneAway) then ABSENT else DELIVERED) ∧
  judge_unilateral env a = Ok (ls, root, g).

Definition unilaterally_sealed (sid root : bytes) (count ts : Z) (sig : bytes) (signer : option bytes) (g : SealLegibility)
    (presentHex absentHex : string) (att : ConversationAttestation) : Prop :=
  ∃ a ls, granted a ls root g att ∧ u_session_id (ask_frame a) = sid ∧ count = Z.of_nat (length ls) ∧ ts = ask_now a ∧
    presentHex = ask_sender a ∧ absentHex = absent_party (ask_pair a) (ask_sender a) ∧
    signed (ask_sender a) signer sig (buildSealTbs env sid root count (JInt ts)) (single_tbs env sid root ts).

(** A row's claim, by its type.  A row without a receipt is one of this node's own key or
    an upgrade: the absent party of a unilateral row acknowledged its root. *)
Definition unilateral_row (n : SealNotarization) : Prop :=
  seal_type n = unilateral ∧ supersedes n = None ∧
  ∃ count g presentHex absentHex att, leaf_count n = Some count ∧ n_legibility n = Some g ∧
    participant_a_pubkey n = from_hex presentHex ∧ participant_b_pubkey n = from_hex absentHex ∧
    unilaterally_sealed (n_session_id n) (n_sealed_root n) count (close_timestamp n) (frost_signature n) (signer_pubkey n) g
      presentHex absentHex att.

Definition sealed_row (n : SealNotarization) : Prop :=
  supersedes n = None ∧
  ∃ count g, bilaterally_sealed (n_session_id n) (n_sealed_root n) count (close_timestamp n) (frost_signature n)
               (signer_pubkey n) g (participant_a_pubkey n) (participant_b_pubkey n) ∧
    match signer_pubkey n with
    | Some _ => leaf_count n = Some count ∧ n_legibility n = Some g
    | None => leaf_count n = None ∧ n_legibility n = None
    end.

Definition upgrade_row (n : SealNotarization) : Prop :=
  leaf_count n = None ∧ signer_pubkey n = None ∧ n_legibility n = None ∧
  ∃ u, unilateral_row u ∧ n_session_id n = n_session_id u ∧ n_sealed_root n = n_sealed_root u ∧
    participant_a_pubkey n = participant_a_pubkey u ∧ participant_b_pubkey n = participant_b_pubkey u ∧
    close_timestamp n = close_timestamp u ∧
    verify env (participant_b_pubkey u) (ack_tbs env (n_session_id u) (n_sealed_root u)) (frost_signature n) = true.

Definition row_ok (n : SealNotarization) : Prop :=
  match seal_type n with unilateral => unilateral_row n | bilateral => sealed_row n ∨ upgrade_row n end.

(** The certificate that a frame carries, and who it is for. *)
Definition frame_ok (to : string) (f : frame) : Prop :=
  match f with
  | FSessionSealed c _ => ∃ a b, (to = hex a ∨ to = hex b) ∧
      bilaterally_sealed (c_session_id c) (c_sealed_root c) (c_leaf_count c) (c_timestamp c) (c_signature c) (c_signer c)
        (c_legibility c) a b
  | FUnilateralConfirmed c absentee att _ => ∃ absentHex, absentee = from_hex absentHex ∧
      unilaterally_sealed (c_session_id c) (c_sealed_root c) (c_leaf_count c) (c_timestamp c) (c_signature c) (c_signer c)
        (c_legibility c) to absentHex att
  | FUnilateralNotification c present att => ∃ presentHex, present = from_hex presentHex ∧
      unilaterally_sealed (c_session_id c) (c_sealed_root c) (c_leaf_count c) (c_timestamp c) (c_signature c) (c_signer c)
        (c_legibility c) presentHex to att
  | FUpgradeConfirmed sid root _ ts present sig _ returning ack =>
      (to = hex present ∨ to = hex returning) ∧ verify env returning (ack_tbs env sid root) ack = true ∧
      ∃ u, unilateral_row u ∧ n_session_id u = sid ∧ n_sealed_root u = root ∧
        close_timestamp u = ts ∧ frost_signature u = sig ∧
        participant_a_pubkey u = present ∧ participant_b_pubkey u = returning
  | FCertificate n => row_ok n ∧ (to = hex (participant_a_pubkey n) ∨ to = hex (participant_b_pubkey n))
  | FSealVerified sid root count ts (Some g) _ => ∃ ls initiator, concluded sid ls g initiator ∧
      to = hex (sender initiator) ∧ root = content_root env ls ∧ count = Z.of_nat (length ls)
  | FSealVerified sid root count ts None _ => ∃ a ls g att, granted a ls root g att ∧
      u_session_id (ask_frame a) = sid ∧ to = ask_sender a ∧ count = Z.of_nat (length ls) ∧ ts = ask_now a
  | FSealRejected _ _ | FTooEarly _ _ _ | FUpgradeRejected _ _ | FCertificateError _ => True
  end.

(** What waits for a signature. *)
Definition pending_ok (key : string) (p : PendingFrostSeal) : Prop :=
  ∃ sid, key = hex sid ∧
  match p_attestation p with
  | None => ∃ ls initiator, concluded sid ls (p_legibility p) initiator ∧
      p_initiatorHex p = hex (sender initiator) ∧ participants_hex ls = [participantAHex p; participantBHex p] ∧
      sealedRoot p = content_root env ls ∧ leafCount p = Z.of_nat (length ls) ∧
      tbs p = bilateral_tbs sid (sealedRoot p) (leafCount p) (timestamp p) (p_legibility p)
  | Some att => ∃ a ls, granted a ls (sealedRoot p) (p_legibility p) att ∧ u_session_id (ask_frame a) = sid ∧
      p_initiatorHex p = ask_sender a ∧ participantAHex p = ask_sender a ∧
      participantBHex p = absent_party (ask_pair a) (ask_sender a) ∧
      leafCount p = Z.of_nat (length ls) ∧ timestamp p = ask_now a ∧
      tbs p = buildSealTbs env sid (sealedRoot p) (leafCount p) (JInt (timestamp p))
  end.

(** The pair, the genesis and the tier of a session come and go together. *)
Definition session_known (w : notary) (key : string) : Prop :=
  match jget (sessionParticipants w) key, jget (sessionGenesisAt w) key with
  | Some ab, Some genesis => ∃ sid highStakes, key = hex sid ∧ declared sid ab genesis highStakes ∧
      (highStakes = true → jget (sessionHighStakes w) key = Some true)
  | None, None => True
  | _, _ => False
  end.

Record inv (w : notary) : Prop := mkInv {
  iv_sessions : jwf (sessionParticipants w) ∧ jwf (sessionGenesisAt w) ∧ jwf (sessionHighStakes w) ∧
                ∀ key, session_known w key;
  iv_opening : jall (λ key ab, ∃ sid genesis highStakes, key = hex sid ∧ declared sid ab genesis highStakes) (pendingSessions w);
  iv_pending : jall pending_ok (pendingFrostSeals w);
  iv_primary : jall group_key (primaryPubkeys w);
  iv_asking : jwf (asking w) ∧ ∀ r a, jget (asking w) r = Some a → asked a;
  iv_rows : ∀ n, n ∈ rows w → row_ok n;
  iv_queued : ∀ e, e ∈ queued w → frame_ok e.1 e.2;
  iv_sent : ∀ e, e ∈ sent w → frame_ok e.1 e.2;
}.

(** * Every step keeps the invariant *)

Abbreviation keeps m := (preserves inv m).

Lemma notary_inv_tick w n : inv w → inv (with_tick w n).
Proof. intros []. by constructor. Qed.

Lemma inv_streams w l : inv w → inv (with_streams w l).
Proof. intros []. by constructor. Qed.

Lemma inv_unilateralSeals w m : inv w → inv (with_unilateralSeals w m).
Proof. intros []. by constructor. Qed.

Lemma inv_staged w c m : inv w → inv (with_staged w c m).
Proof. intros []. by constructor. Qed.

Lemma inv_pendingFrost w m : inv w → jall pending_ok m → inv (with_pendingFrost w m).
Proof. intros [] ?. by constructor. Qed.

Lemma inv_out w to f : inv w → frame_ok to f → inv (with_out w (queued w) (sent w ++ [(to, f)])).
Proof.
  intros [] Hf. constructor; try done. intros e [He|He]%elem_of_app; [by eauto|].
  by apply list_elem_of_singleton in He as ->.
Qed.

Lemma inv_queue w to f : inv w → frame_ok to f → inv (with_out w (queued w ++ [(to, f)]) (sent w)).
Proof.
  intros [] Hf. constructor; try done. intros e [He|He]%elem_of_app; [by eauto|].
  by apply list_elem_of_singleton in He as ->.
Qed.

Lemma next_tick_wp w (Q : nat → notary → Prop) R : Q (tick w) (with_tick w (S (tick w))) → wp next_tick w Q R.
Proof. done. Qed.

Ltac notary :=
  repeat first
    [ match goal with
      | |- wp next_tick _ _ _ => apply next_tick_wp
      | |- wp (if ?b then _ else _) _ _ _ => let E := fresh "E" in destruct b eqn:E
      end
    | wp_step ];
  try (eauto 8 using notary_inv_tick, inv_streams, inv_out, inv_queue, inv_unilateralSeals, inv_staged, inv_pendingFrost; fail).

Lemma send_now_keeps to f : frame_ok to f → keeps (send_now env to f).
Proof. intros Hf w Hw. unfold send_now. notary. Qed.

Lemma sendFrame_keeps to f : frame_ok to f → keeps (sendFrame env to f).
Proof. intros Hf w Hw. unfold sendFrame. notary. Qed.

Lemma reply_keeps to f : frame_ok to f → keeps (reply env to f).
Proof. intros Hf. apply preserves_try; [by apply sendFrame_keeps|]. intros _. apply preserves_ret. Qed.

Lemma enqueue_keeps to f : frame_ok to f → keeps (enqueue to f).
Proof. intros Hf w Hw. unfold enqueue. notary. Qed.

#[local] Hint Resolve send_now_keeps reply_keeps enqueue_keeps notary_inv_tick inv_streams inv_out inv_queue
  inv_unilateralSeals inv_staged inv_pendingFrost : preserves.

Lemma send_or_enqueue_keeps to f : frame_ok to f → keeps (send_or_enqueue env to f).
Proof. intros Hf. unfold send_or_enqueue. preserve. Qed.

Lemma deliverOrEnqueue_keeps to f : frame_ok to f → keeps (deliverOrEnqueue env to f).
Proof. intros Hf. unfold deliverOrEnqueue. preserve. Qed.

#[local] Hint Resolve send_or_enqueue_keeps deliverOrEnqueue_keeps : preserves.

Lemma notifySealRejected_keeps sid reason recipients : keeps (notifySealRejected env sid reason recipients).
Proof.
  unfold notifySealRejected. destruct recipients as [[|to l]|]; preserve; by apply deliverOrEnqueue_keeps || apply send_or_enqueue_keeps.
Qed.

Lemma next_tick_keeps : keeps next_tick.
Proof. intros w Hw. by apply next_tick_wp, notary_inv_tick. Qed.

#[local] Hint Resolve next_tick_keeps : preserves.

Lemma best_effort_keeps f : (∀ w, inv w → inv (f w)) → keeps (best_effort env f).
Proof. intros Hf. unfold best_effort. preserve; by apply Hf. Qed.

Lemma read_keeps {A} (f : notary → A) : keeps (read env f).
Proof. unfold read. preserve. Qed.

#[local] Hint Resolve read_keeps : preserves.

Lemma recordNotarization_keeps n : row_ok n → keeps (recordNotarization env n).
Proof.
  intros Hn. apply best_effort_keeps. intros w []. constructor; try done.
  intros n' Hn'. cbn [rows with_rows] in Hn'. unfold insert_row in Hn'. destruct (existsb _ _); [by eauto|].
  apply elem_of_app in Hn' as [?|Hn']; [by eauto|]. by apply list_elem_of_singleton in Hn' as ->.
Qed.

Lemma recordConversationSeal_keeps sid root ty parties sig ts : keeps (recordConversationSeal env sid root ty parties sig ts).
Proof. apply best_effort_keeps. intros w. apply inv_staged. Qed.

Lemma stage_mmr_keeps sid root : keeps (stage_mmr env sid root).
Proof. unfold stage_mmr. destruct (mmr_configured env); [|preserve]. apply best_effort_keeps. intros w. apply inv_staged. Qed.

Lemma sign_wp message w :
  inv w → wp (sign env message) w (λ sig w', inv w' ∧ ∃ t, node_sign env t message = Some sig) inv.
Proof.
  intros Hw. unfold sign. notary. destruct (node_sign _ _ _) eqn:E; notary.
Qed.

Lemma resolvePrimaryPubkey_wp who w :
  inv w → wp (resolvePrimaryPubkey env who) w
    (λ r w', inv w' ∧ match r with Some pk => group_key who pk | None => True end) inv.
Proof.
  intros Hw. unfold resolvePrimaryPubkey. notary. destruct (jget _ _) as [pk|] eqn:E; notary.
  - split; [done|]. by apply (iv_primary _ Hw).
  - destruct (profile _ _ _) as [[pk|]|] eqn:Ep; notary.
    assert (group_key who pk) as Hk by (left; by eexists). split; [|done]. destruct Hw. constructor; try done. by apply jall_set.
Qed.

#[local] Hint Resolve notifySealRejected_keeps recordNotarization_keeps recordConversationSeal_keeps stage_mmr_keeps : preserves.

Lemma from_hex_hex b : from_hex (hex b) = b.
Proof. unfold from_hex. by rewrite unhex_hex. Qed.

Lemma concluded_two sid ls g l : concluded sid ls g l → ∃ p q, participants_hex ls = [hex p; hex q].
Proof.
  intros (root & before & after & _ & _ & Hj). apply judge_two in Hj as (p & q & E & _). exists p, q.
  unfold participants_hex. cbn [leaves] in E. by rewrite E.
Qed.

(** ** The bilateral seal *)

Lemma seal_single_keeps sid ls g l ts : concluded sid ls g l → keeps (seal_single env sid ls g ts).
Proof.
  intros Hc w Hw. unfold seal_single. cbv zeta. destruct (concluded_two _ _ _ _ Hc) as (p & q & E).
  unfold two_senders. rewrite E. apply wp_bind. eapply wp_mono; [by apply sign_wp| |done].
  intros sig w' [Hw' Hs]. rewrite !from_hex_hex.
  assert (bilaterally_sealed sid (content_root env ls) (Z.of_nat (length ls)) ts sig None g p q) as Hb by (by exists ls, l).
  revert w' Hw'. cbn [length Nat.leb lookup list_lookup default]. preserve.
  - apply recordNotarization_keeps. left. split; [done|]. by exists (Z.of_nat (length ls)), g.
  - apply deliverOrEnqueue_keeps. exists p, q. split; [by left|done].
  - apply deliverOrEnqueue_keeps. exists p, q. split; [by right|done].
Qed.

Lemma route_to_keeps who f : frame_ok who f → keeps (route_to env who f).
Proof.
  intros Hf. unfold route_to. preserve.
Qed.

Lemma now_keeps : keeps (now env).
Proof. intros w Hw. unfold now. notary. Qed.

#[local] Hint Resolve now_keeps : preserves.

Lemma known_declared w sid : inv w → roster_declared sid (roster_of (known_pair w (hex sid))).
Proof.
  intros Hw. unfold known_pair, roster_of. destruct (iv_sessions _ Hw) as (_ & _ & _ & Hk). specialize (Hk (hex sid)).
  unfold session_known in Hk. destruct (jget (sessionParticipants w) _) as [ab|]; cbn.
  - destruct (jget (sessionGenesisAt w) _) as [ge|]; [|done]. destruct Hk as (s & hs & E & Hd & _).
    apply (inj hex) in E as <-. by exists ab, ge, hs.
  - destruct (jget (pendingSessions w) _) as [ab|] eqn:E; [|done]. cbn.
    apply (iv_opening _ Hw) in E as (s & ge & hs & E & Hd). apply (inj hex) in E as <-. by exists ab, ge, hs.
Qed.

Lemma processSeal_keeps sid data before after :
  all = before ++ SealSubmitted sid data :: after → inv (run env initial before) →
  wp (processSeal env sid data) (run env initial before) (λ _, inv) inv.
Proof.
  intros Hin Hw. unfold processSeal. cbv zeta. apply wp_bind, wp_gets.
  pose proof (known_declared _ sid Hw) as Hr. fold (roster_at before sid) in *.
  revert Hw. generalize (run env initial before). intros w Hw. set (roster := roster_at before sid) in *.
  destruct (judge env sid data roster) as [[g l]|[[reason wire] to_pair]] eqn:Ej.
  2:{ clearbody roster. revert w Hw. clear. intros w. revert w. preserve. }
  assert (concluded sid (leaves data) g l) as Hc by (exists (merkle_root data), before, after; by destruct data).
  destruct (concluded_two _ _ _ _ Hc) as (p & q & Epq). rewrite Epq.
  apply wp_bind. eapply wp_mono; [by apply now_keeps| |done]. intros ts w1 H1. clear w Hw Hr. clearbody roster.
  apply wp_bind. eapply wp_mono; [by apply resolvePrimaryPubkey_wp| |done]. intros [pk|] w2 [H2 _]; clear w1 H1.
  2:{ revert w2 H2. preserve. by eapply seal_single_keeps. }
  assert (∀ ts, frame_ok (hex (sender l)) (FSealVerified sid (content_root env (leaves data)) (Z.of_nat (length (leaves data))) ts
    (Some g) (map frontier_leaf (leaves data)))) as Hf by (intros ?; by exists (leaves data), l).
  revert w2 H2. cbn [lookup list_lookup default]. preserve.
  - apply inv_pendingFrost; [done|]. apply jall_set; [apply iv_pending; done|]. exists sid. split; [done|].
    by exists (leaves data), l.
  - by apply route_to_keeps.
Qed.

(** ** The unilateral seal *)

Lemma inv_evict w key : inv w →
  inv (with_sessions w (jdel (sessionParticipants w) key) (pendingSessions w) (jdel (sessionGenesisAt w) key)
         (jdel (sessionHighStakes w) key)).
Proof.
  intros []. constructor; try done. destruct iv_sessions0 as (W1 & W2 & W3 & Hk).
  split_and!; [by apply jwf_jdel..|]. intros k. specialize (Hk k). unfold session_known in *. cbn [sessionParticipants sessionGenesisAt sessionHighStakes with_sessions].
  rewrite !jget_jdel by done. by case_decide.
Qed.

Lemma completeUnilateral_keeps sid root present absentee ts count sig signer att g evidence :
  unilaterally_sealed sid root count ts sig signer g present absentee att →
  keeps (completeUnilateralNotarization env sid root present absentee ts count sig signer att g evidence).
Proof.
  intros Hu. unfold completeUnilateralNotarization. cbv zeta. preserve.
  - apply recordNotarization_keeps. split; [done|]. split; [done|]. by exists count, g, present, absentee, att.
  - apply send_now_keeps. by exists absentee.
  - apply enqueue_keeps. by exists present.
  - by apply inv_evict.
Qed.

Lemma processSealFrostSignature_keeps who sid sig : keeps (processSealFrostSignature env who sid sig).
Proof.
  intros w Hw. unfold processSealFrostSignature. cbv zeta. apply wp_bind, wp_gets.
  destruct (jget (pendingFrostSeals w) (hex sid)) as [p|] eqn:Ep; [|by apply wp_ret].
  apply (iv_pending _ Hw) in Ep as (s & E & Hp). apply (inj hex) in E as <-.
  destruct (bool_decide (p_initiatorHex p = who)) eqn:Ew; bools; cbn [negb]; [|by apply wp_ret].
  apply wp_bind, wp_modify. apply wp_bind. eapply wp_mono; [apply resolvePrimaryPubkey_wp| |done].
  { apply inv_pendingFrost; [done|]. apply jall_del, Hw. }
  intros [pk|] w2 [H2 Hpk]; [|by apply wp_ret]. clear w Hw.
  destruct (verifyFrost env sig (tbs p) pk) eqn:Ev; cbn [negb].
  2:{ revert w2 H2. preserve; by apply deliverOrEnqueue_keeps. }
  destruct (p_attestation p) as [att|].
  - destruct Hp as (a & ls & Hg & Es & Ei & EA & EB & Ec & Et & Etbs). revert w2 H2.
    apply completeUnilateral_keeps. exists a, ls. split_and!; try done. unfold signed. rewrite <- Ei, Ew, <- Etbs. done.
  - destruct Hp as (ls & l & Hc & Ei & Epair & Er & Ec & Etbs). destruct (concluded_two _ _ _ _ Hc) as (x & y & Exy).
    rewrite Exy in Epair. injection Epair as <- <-. rewrite !from_hex_hex.
    assert (bilaterally_sealed sid (sealedRoot p) (leafCount p) (timestamp p) sig (Some pk) (p_legibility p) x y) as Hb.
    { exists ls, l. split_and!; try done. unfold signed. rewrite <- Ei, Ew, <- Etbs. done. }
    revert w2 H2. preserve.
    + apply recordNotarization_keeps. left. split; [done|]. by exists (leafCount p), (p_legibility p).
    + apply deliverOrEnqueue_keeps. exists x, y. split; [by left|done].
    + apply deliverOrEnqueue_keeps. exists x, y. split; [by right|done].
Qed.

Lemma inv_asking w r a : inv w → asked a → inv (with_asking w (jset (asking w) r a)).
Proof.
  intros [] Ha. destruct iv_asking0 as [Hw Hk]. constructor; try done. split; [by apply jwf_jset|].
  intros r' a'. cbn [asking with_asking]. rewrite jget_jset. case_decide; [by intros [= <-]|apply Hk].
Qed.

Lemma inv_answered w r : inv w → inv (with_asking w (jdel (asking w) r)).
Proof.
  intros []. destruct iv_asking0 as [Hw Hk]. constructor; try done. split; [by apply jwf_jdel|].
  intros r' a'. cbn [asking with_asking]. rewrite jget_jdel by done. case_decide; [done|apply Hk].
Qed.

Lemma processSealUnilateral_keeps r who f :
  UnilateralAsked r who f ∈ all → keeps (processSealUnilateral env r who f).
Proof.
  intros Hin w Hw. unfold processSealUnilateral. cbv zeta. apply wp_bind, wp_gets. destruct (jhas _ _); [by apply wp_ret|].
  apply wp_bind, wp_gets. destruct (jget (sessionGenesisAt w) _) as [genesis|] eqn:Eg; [|by apply wp_ret].
  destruct (iv_sessions _ Hw) as (_ & _ & _ & Hk). specialize (Hk (hex (u_session_id f))). unfold session_known in Hk.
  rewrite Eg in Hk. destruct (jget (sessionParticipants w) _) as [ab|] eqn:Ep; [|done].
  destruct Hk as (s & highStakes & E & Hd & Hh). apply (inj hex) in E as <-.
  unfold now. apply wp_bind, wp_bind, next_tick_wp, wp_ret, wp_bind, wp_gets.
  assert (known_pair (with_tick w (S (tick w))) (hex (u_session_id f)) = Some ab) as -> by (unfold known_pair; cbn [sessionParticipants with_tick]; by rewrite Ep).
  destruct ab as [a b]. destruct (negb _) eqn:Es; [by apply wp_ret, notary_inv_tick|]. bools.
  apply wp_modify, inv_asking; [by apply notary_inv_tick|]. unfold asked. cbn [ask_frame ask_sender ask_now ask_pair ask_genesis ask_highStakes fst snd].
  split; [by exists r|]. split; [by eexists|]. split.
  { apply orb_true_iff in Es as [Es|Es]; bools; [by left|by right]. }
  exists highStakes. split; [done|]. intros Hs. cbn [sessionHighStakes with_tick]. by rewrite Hh.
Qed.

Lemma livenessKnown_keeps r : keeps (livenessKnown env r).
Proof.
  intros w Hw. unfold livenessKnown. cbv zeta. apply wp_bind, wp_gets.
  destruct (jget (asking w) r) as [a|] eqn:Ea; [|by apply wp_ret]. pose proof (proj2 (iv_asking _ Hw) _ _ Ea) as Hasked.
  apply wp_bind, wp_modify. apply inv_answered with (r := r) in Hw. revert Hw. generalize (with_asking w (jdel (asking w) r)).
  clear w Ea. intros w Hw. apply wp_bind, next_tick_wp.
  set (live := default Unseen (relay_liveness env (tick w) _)).
  destruct (unilateral_gate _ _ _ live) as [[cause remaining]|] eqn:Eg; [by apply reply_keeps, notary_inv_tick|].
  destruct (judge_unilateral env a) as [[[ls root] g]|e] eqn:Ej; [|by apply wp_ret, notary_inv_tick].
  set (att := if bool_decide (live = GoneAway) then ABSENT else DELIVERED).
  assert (granted a ls root g att) as Hgr by (split; [done|split; [by exists (tick w)|done]]).
  apply wp_bind, wp_modify. apply wp_bind. eapply wp_mono; [by apply resolvePrimaryPubkey_wp, inv_unilateralSeals, notary_inv_tick| |done].
  intros [pk|] w2 [H2 _].
  - revert w2 H2. preserve.
    + apply inv_pendingFrost; [done|]. apply jall_set; [by apply iv_pending|]. exists (u_session_id (ask_frame a)). split; [done|].
      by exists a, ls.
    + apply send_or_enqueue_keeps. by exists a, ls, g, att.
  - apply wp_bind. eapply wp_mono; [by apply sign_wp| |done]. intros sig w3 [H3 Hs].
    revert w3 H3. apply completeUnilateral_keeps. by exists a, ls.
Qed.

(** ** The upgrade and the pull *)

Lemma find_row_spec rs sid ty n :
  find_row rs sid ty = Some n → n ∈ rs ∧ n_session_id n = sid ∧ seal_type n = ty.
Proof.
  intros E. apply find_some_elem in E as [Hn Hb]. unfold is_row in Hb. by bools.
Qed.

Lemma read_rows_wp {A} (f : list SealNotarization → A) w :
  inv w → wp (read env (λ w, f (rows w))) w (λ a w', inv w' ∧ a = f (rows w)) inv.
Proof. intros Hw. unfold read. notary. Qed.

Lemma getNotarization_elem rs sid n : getNotarization rs sid = Some n → n ∈ rs ∧ n_session_id n = sid.
Proof.
  unfold getNotarization. destruct (find_row rs sid bilateral) as [n'|] eqn:E.
  - intros [= <-]. by apply find_row_spec in E as (? & ? & _).
  - by intros (? & ? & _)%find_row_spec.
Qed.

Lemma getSealCertificate_elem rs sid n : getSealCertificate rs sid = Some n → n ∈ rs.
Proof.
  unfold getSealCertificate. cbv zeta.
  assert (∀ ty, (find_row rs sid ty ≫= λ n, if has_fields n then Some n else None) = Some n → n ∈ rs) as K.
  { intros ty (n' & E & E')%bind_Some. apply find_row_spec in E as (? & _). destruct (has_fields n'); [by injection E' as <-|done]. }
  destruct (find_row rs sid bilateral ≫= _) as [n'|] eqn:E; [intros [= ->]; by eapply K|by intros ?%K].
Qed.

Lemma processSealUpgradeRequest_keeps who f : keeps (processSealUpgradeRequest env who f).
Proof.
  intros w Hw. unfold processSealUpgradeRequest. cbv zeta. apply wp_bind.
  eapply wp_mono; [by apply (read_rows_wp (λ rs, getNotarization rs (up_session_id f)))| |done]. intros r w1 [H1 En].
  destruct r as [n|]; [|by apply reply_keeps]. symmetry in En. apply getNotarization_elem in En as [Hn Hsid].
  apply (iv_rows _ Hw) in Hn. clear w Hw. destruct (bool_decide (seal_type n = bilateral)) eqn:Et; bools; [by apply reply_keeps|].
  unfold row_ok in Hn. destruct (seal_type n) eqn:Et'; [|done]. clear Et.
  destruct (negb _) eqn:Ew; bools; [by apply reply_keeps|]. destruct (negb (bool_decide (hex (returning_pubkey f) = _))); [by apply reply_keeps|].
  destruct (negb (verify _ _ _ _)) eqn:Ev; bools; [by apply reply_keeps|].
  rewrite <- Hsid in *. revert w1 H1. apply preserves_bind; [preserve|]. intros id. apply preserves_bind.
  { apply recordNotarization_keeps. right. split_and!; try done. by exists n. }
  intros _. apply preserves_bind.
  { intros w Hw. eapply wp_mono; [by apply resolvePrimaryPubkey_wp| |done]. by intros r w' [? _]. }
  intros primary.
  assert (∀ to, (to = hex (participant_a_pubkey n) ∨ to = hex (participant_b_pubkey n)) →
    frame_ok to (FUpgradeConfirmed (n_session_id n) (n_sealed_root n) (up_leaf_count f) (close_timestamp n) (participant_a_pubkey n)
      (frost_signature n) (bool_decide (is_Some primary)) (participant_b_pubkey n) (ack_signature f))) as Hf.
  { intros to Hto. split; [done|]. split; [done|]. by exists n. }
  preserve.
Qed.

Lemma processSealCertificateRequest_keeps who sid : keeps (processSealCertificateRequest env who sid).
Proof.
  unfold processSealCertificateRequest. apply preserves_try; [|intros _; by apply sendFrame_keeps]. intros w Hw. apply wp_bind.
  eapply wp_mono; [by apply (read_rows_wp (λ rs, getSealCertificate rs sid))| |done]. intros r w1 [H1 En].
  destruct r as [n|]; [|by apply sendFrame_keeps]. symmetry in En. apply getSealCertificate_elem, (iv_rows _ Hw) in En.
  destruct (_ || _) eqn:Eo; [|by apply sendFrame_keeps].
  apply sendFrame_keeps; [|done]. split; [done|]. apply orb_true_iff in Eo as [E|E]; bools; [by left|by right].
Qed.

(** ** Runs *)

Lemma inv_declare w sid a b genesis (highStakes : bool) :
  inv w → declared sid (a, b) genesis highStakes →
  inv (with_sessions w (jset (sessionParticipants w) (hex sid) (a, b)) (pendingSessions w) (jset (sessionGenesisAt w) (hex sid) genesis)
         (if highStakes then jset (sessionHighStakes w) (hex sid) true else sessionHighStakes w)).
Proof.
  intros [] Hd. destruct iv_sessions0 as (W1 & W2 & W3 & Hk). constructor; try done.
  split; [by apply jwf_jset|]. split; [by apply jwf_jset|]. split; [by destruct highStakes; [apply jwf_jset|]|].
  intros key. specialize (Hk key). unfold session_known in *. cbn [sessionParticipants sessionGenesisAt sessionHighStakes with_sessions].
  rewrite !jget_jset. case_decide as E.
  - exists sid, highStakes. split; [done|]. split; [done|]. intros ->. rewrite jget_jset. by rewrite decide_True.
  - destruct (jget (sessionParticipants w) key) as [ab|], (jget (sessionGenesisAt w) key) as [ge|]; try done.
    destruct Hk as (s & hs & ? & ? & Hs). exists s, hs. split; [done|]. split; [done|]. intros Hh.
    destruct highStakes; [rewrite jget_jset, decide_False by done|]; by apply Hs.
Qed.

Lemma run_input_notary before i after :
  all = before ++ i :: after → inv (run env initial before) → inv (run_input env (run env initial before) i).
Proof.
  intros Eall Hw. assert (i ∈ all) as Hin by (rewrite Eall; set_solver).
  assert ((∃ sid data, i = SealSubmitted sid data) ∨ ∀ sid data, i ≠ SealSubmitted sid data) as [(sid & data & ->)|Hns]
    by (destruct i; eauto).
  { cbn [run_input]. apply wp_final. by eapply processSeal_keeps. }
  revert Hw. generalize (run env initial before). clear Eall. intros w Hw. destruct i; cbn [run_input].
  - unfold assign, now. cbn -[hex jset]. assert (declared sessionId (initiatorHex, targetHex) (clock env (tick w)) highStakes) as Hd.
    { left. exists (tick w). done. }
    pose proof (inv_declare _ _ _ _ _ _ (notary_inv_tick _ (S (tick w)) Hw) Hd) as [].
    constructor; try done. cbn [pendingSessions with_sessions]. apply jall_set; [apply Hw|]. by exists sessionId, (clock env (tick w)), highStakes.
  - destruct Hw. constructor; try done. cbn. by apply jall_del.
  - destruct Hw. constructor; try done; try apply jall_nil; [|split; [constructor|done]].
    split_and!; try constructor.
  - apply inv_declare; [done|]. by right.
  - destruct Hw. constructor; try done. apply jall_set; [done|by right].
  - by apply inv_streams.
  - by apply inv_streams.
  - by destruct (Hns sessionId data).
  - by apply wp_final, processSealFrostSignature_keeps.
  - by apply wp_final, processSealUnilateral_keeps.
  - by apply wp_final, livenessKnown_keeps.
  - by apply wp_final, processSealUpgradeRequest_keeps.
  - by apply wp_final, processSealCertificateRequest_keeps.
Qed.

Lemma initial_notary_inv : inv initial.
Proof.
  constructor; try apply jall_nil; try (by intros ? ?%not_elem_of_nil); [|split; [constructor|done]].
  split_and!; try constructor.
Qed.

End Invariant.

Lemma run_notary_inv env inputs : inv env inputs (run env initial inputs).
Proof.
  assert (∀ after before, inputs = before ++ after → inv env inputs (run env initial before) →
            inv env inputs (run env initial inputs)) as K; [|apply (K inputs []); [done|exact (initial_notary_inv env inputs)]].
  induction after as [|i after IH]; intros before E Hw; [rewrite app_nil_r in E; by subst|].
  apply (IH (before ++ [i])); [by rewrite <- app_assoc|]. unfold run. rewrite foldl_app. by eapply run_input_notary.
Qed.

End SealNotaryInvariant.
