(* ===== verification/SealNotaryTheorems.v ===== *)
(** What a sealing directory promises: what its bilateral and unilateral rows rest on,
    what it sends to whom, that rows are never replaced, how its two chain checks
    relate, that co-signers follow its verdict, and the unilateral seal that a bad
    signature leaves for good. *)
From S2P Require Import Prelude Text JsMap Effects Wire SealChain Merkle SealChainTheorems SealFinalRoot SealCosign SealLegibility SealLegibilityTheorems SealNotary SealNotaryInvariant.
Import Text JsMap Effects Wire SealChain Merkle SealChainTheorems SealFinalRoot SealLegibility SealNotary SealNotaryInvariant.

Module SealNotaryTheorems.

(** The pair of a closing ceremony are control leaves. *)
Lemma ceremony_kind ls i j l : findSealCeremonyPair ls = Some (i, j) → ls !! i = Some l → kind l = ctrl.
Proof.
  intros E Hl. unfold findSealCeremonyPair in E. destruct (ctrl_indices ls) as [|r [|k rest]] eqn:Ec; try done.
  destruct (ls !! r); [|done]. destruct (ls !! k) eqn:Ek; [|done]. case_bool_decide; [done|]. injection E as <- <-.
  assert (k ∈ ctrl_indices ls) as Hk by (rewrite Ec; set_solver). unfold ctrl_indices in Hk.
  apply list_elem_of_In, List.in_rev, List.filter_In in Hk as [_ Hk]. rewrite Ek in Hk. bools. congruence.
Qed.

Section Theorems.
Context (env : NotaryEnv).

Abbreviation lhash := (leaf_hash (encodeStructure2 env) (leaf_hasher env)).
Abbreviation valid := (leaf_valid (verify env) (cborDecode env) (encodeStructure2 env) (leaf_hasher env) (nodeHash env)).
Abbreviation loop := (chain_loop (verify env) (cborDecode env) (encodeStructure2 env) (leaf_hasher env) (nodeHash env)).
Abbreviation decodeS1 := (decodeStructure1Fields (cborDecode env)).
Abbreviation commits := (commits_to (cborDecode env) (decodeSealPayload env) (sha256 env)).

(** * The two chain checks *)

(** The tree of a list of leaves is the RFC 6962 one that the incremental stack computes. *)
Definition tree_is_rfc6962 : Prop :=
  ∀ ls, ls ≠ [] → merkle_tree_root env ls = mth (nodeHash env) (map (λ e, leaf_hasher env e.1 e.2) ls).

(** What the bilateral loop checks of a leaf. *)
Record leaf_checked (before : list RelaySealLeaf) (l : RelaySealLeaf) (f : Structure1Fields) : Prop := mkChecked {
  lc_signature : verify env (sender l) (structure1_cbor l) (sender_signature (s2 l)) = true;
  lc_decodes : decodeS1 (structure1_cbor l) = Some f;
  lc_content : s1_content_hash f = content_hash (s2 l);
  lc_prev_root : before ≠ [] → prev_root (s2 l) = structure2_root env before;
  lc_causal : has_seen before (sender l) (s1_last_seen_seq f);
}.

Lemma check_chain_iff before r ls :
  (before = [] → r = initial_root ls) → (before ≠ [] → r = structure2_root env before) →
  check_chain env before r ls = Ok tt ↔ ∀ b l a, ls = b ++ l :: a → ∃ f, leaf_checked (before ++ b) l f.
Proof.
  revert before r. induction ls as [|l ls IH]; intros before r H0 H1; cbn [check_chain].
  { split; [|done]. by intros _ [|x b] l a E. }
  assert (prev_root (s2 l) = r ↔ (before ≠ [] → prev_root (s2 l) = structure2_root env before)) as Hr.
  { destruct (decide (before = [])) as [E|E]; [rewrite H0 by done; naive_solver|]. rewrite H1 by done. tauto. }
  change (sender_pubkey (s2 l)) with (sender l).
  assert ((∃ f, leaf_checked before l f) ∧ check_chain env (before ++ [l]) (structure2_root env (before ++ [l])) ls = Ok tt ↔
    ∀ b x a, l :: ls = b ++ x :: a → ∃ f, leaf_checked (before ++ b) x f) as <-.
  { rewrite IH; [|by destruct before|done]. split.
    - intros [Hl Hall] [|y b] x a E; injection E as <- E; [by rewrite app_nil_r|]. destruct (Hall b x a E) as [f Hf].
      exists f. by rewrite <- app_assoc in Hf.
    - intros Hall. split; [specialize (Hall [] l ls eq_refl); by rewrite app_nil_r in Hall|]. intros b x a ->.
      destruct (Hall (l :: b) x a eq_refl) as [f Hf]. exists f. by rewrite <- app_assoc. }
  destruct (verify _ _ _ _) eqn:Ev; cbn [negb]; [|split; [done|by intros [[f []] _]; congruence]].
  destruct (decodeS1 _) as [f|] eqn:Ed; [|split; [done|by intros [[f []] _]; congruence]].
  assert ((∃ f, leaf_checked before l f) ↔ s1_content_hash f = content_hash (s2 l) ∧ prev_root (s2 l) = r ∧
            js_gtb (s1_last_seen_seq f) (effectiveSeen before (hex (sender l))) = false) as ->.
  { rewrite Hr, effectiveSeen_spec. split; [intros [f' []]; naive_solver congruence|]. intros (? & ? & ?). by exists f. }
  do 2 (case_bool_decide; cbn [negb]; [|split; [done|tauto]]). destruct (js_gtb _ _); [split; [done|by intros [(_ & _ & ?) _]]|tauto].
Qed.

(** Every leaf names its sender's previous leaf. *)
Definition self_linked (ls : list RelaySealLeaf) : Prop :=
  ∀ before l after f p, ls = before ++ l :: after → decodeS1 (structure1_cbor l) = Some f →
    previous_own before (sender l) = Some p → s1_prev_own_hash f = content_hash (s2 p).

(** The two chain checks of a directory.  The loop that a bilateral seal runs over the
    leaves (with the whole tree rebuilt for every prefix) and the incremental verifier
    that a unilateral seal runs accept the same logs up to one clause: the incremental
    one also demands that every leaf names its sender's previous leaf. *)
Theorem chain_checks_agree ls :
  tree_is_rfc6962 →
  (∃ c, loop [] (mkChain [] (initial_root ls) []) ls = Ok c) ↔
  check_chain env [] (initial_root ls) ls = Ok tt ∧ self_linked ls.
Proof.
  intros Ht. rewrite (chain_loop_spec _ _ _ _ _ [] (mkChain [] (initial_root ls) []) ls (loop_inv_init _ _ _ _) (λ _, eq_refl)).
  rewrite (check_chain_iff [] (initial_root ls) ls (λ _, eq_refl)) by done. cbn [app].
  assert (∀ before, before ≠ [] → structure2_root env before = mth (nodeHash env) (map lhash before)) as Hroot.
  { intros before Hne. unfold structure2_root. rewrite Ht by (by destruct before). by rewrite map_map. }
  split.
  - intros Hall. split.
    + intros b l a E. destruct (Hall b l a E) as [f []]. exists f. split; try done. intros Hne. rewrite Hroot by done. auto.
    + intros b l a f p E Ef Hp. destruct (Hall b l a E) as [f' []]. rewrite Ef in *. simplify_eq. auto.
  - intros [Hall Hself] b l a E. destruct (Hall b l a E) as [f []]. exists f. split; try done.
    + intros Hne. rewrite <- Hroot by done. auto.
    + intros p Hp. by eapply Hself.
Qed.

(** * Rows *)

(** What a bilateral seal of [ls] rests on: signed, chained and causal leaves; a control
    leaf of each of two parties at the end; and a payload of each of them, bound to
    its signed leaf and the session, that commits to the root over the messages. *)
Record closed_by_both (sid : bytes) (ls : list RelaySealLeaf) : Prop := mkClosed {
  cb_chain : ∀ before l after, ls = before ++ l :: after → ∃ f, leaf_checked before l f;
  cb_session : Forall (names_session (cborDecode env) sid) ls;
  cb_ceremony : ∃ i, findSealCeremonyPair ls = Some (i, length ls - 1) ∧ 2 <= length ls;
  cb_signers : two_signers ls;
  cb_approved : ∀ l, l ∈ ls → carried l →
    ∃ l', last_carried ls (sender l) = Some l' ∧ commits sid l' (rootOverNonCtrlLeaves (hash_tree_root env) ls);
}.

Lemma judge_closed sid data roster g l :
  judge env sid data roster = Ok (g, l) → closed_by_both sid (leaves data).
Proof.
  intros (_ & Hc & Hv & (root & Hr) & _)%judge_ok.
  rewrite check_chain_iff in Hc by done.
  apply verifySealFinalRoots_iff in Hr as (Hp & -> & _ & _ & Hl & H2). apply provenance_spec in Hp as [HF _].
  split; [done| | |by apply H2|].
  - eapply List.Forall_impl; [|exact HF]. by intros ? [].
  - unfold verifySealLeaves in Hv. destruct (length (leaves data) <? 2) eqn:E2; [done|]. bools.
    destruct (findSealCeremonyPair _) as [[i j]|]; [|done]. apply Nat.eqb_eq in Hv as ->. exists i. apply Nat.ltb_ge in E2. done.
  - intros x Hx Hcx. destruct (last_carried_exists _ _ Hx Hcx) as [l' El]. exists l'. split; [done|]. by eapply Hl.
Qed.

(** C5. What a bilateral row rests on.  After any inputs, a bilateral row that is not an
    upgrade was sealed over leaves submitted for its session, which both parties had
    closed ([closed_by_both]); its root is the tree over their content hashes; its
    participants are their two senders, and, where the node knew a pair for the session
    when the leaves were submitted, they are that pair, which an assignment or a
    restored session had declared; and its signature is that of a group key of the
    closing initiator over the session, root, count, time and the receipt derived from
    the leaves, or of the node's own key over session, root and time. *)
Theorem bilateral_rows_are_closed inputs n :
  n ∈ rows (run env initial inputs) → seal_type n = bilateral →
  upgrade_row env inputs n ∨
  ∃ root ls before after g initiator,
    inputs = before ++ SealSubmitted (n_session_id n) (mkSealData ls root) :: after ∧
    closed_by_both (n_session_id n) ls ∧
    buildSealLegibility (cborDecode env) ls [] = Some g ∧ initiator ∈ ls ∧ kind initiator = ctrl ∧
    n_sealed_root n = hash_tree_root env (map (λ l, content_hash (s2 l)) ls) ∧
    first_seen [] ls = [participant_a_pubkey n; participant_b_pubkey n] ∧
    (∀ a b, known_pair (run env initial before) (hex (n_session_id n)) = Some (a, b) →
       {[participant_a_pubkey n; participant_b_pubkey n]} =@{gset bytes} {[from_hex a; from_hex b]} ∧
       ∃ a' b' genesis highStakes, declared env inputs (n_session_id n) (a', b') genesis highStakes ∧
         from_hex a' = from_hex a ∧ from_hex b' = from_hex b) ∧
    match signer_pubkey n with
    | Some pk => group_key env inputs (hex (sender initiator)) pk ∧
        verifyFrost env (frost_signature n) (bindLegibilityToTbs (sha256 env)
          (buildSealTbs env (n_session_id n) (n_sealed_root n) (Z.of_nat (length ls)) (JInt (close_timestamp n))) (Some g)) pk = true
    | None => ∃ t, node_sign env t (single_tbs env (n_session_id n) (n_sealed_root n) (close_timestamp n)) = Some (frost_signature n)
    end.
Proof.
  intros Hn Et. apply (iv_rows _ _ _ (run_notary_inv env inputs)) in Hn. unfold row_ok in Hn. rewrite Et in Hn.
  destruct Hn as [(_ & count & g & (ls & l & (root & before & after & Hin & Hr & Hj) & Eroot & -> & Epq & Hs) & _)|Hu]; [right|by left].
  exists root, ls, before, after, g, l. pose proof (judge_two _ _ _ _ _ _ Hj) as (p & q & Efs & Hpq). cbn [leaves] in Efs.
  unfold participants_hex in Epq. rewrite Efs in Epq. cbn in Epq. injection Epq as Ep Eq. apply (inj hex) in Ep as <-, Eq as <-.
  pose proof (judge_closed _ _ _ _ _ Hj) as Hc. apply judge_ok in Hj as (_ & _ & _ & _ & Hg & i & j & Hcp & Hl). cbn [leaves] in *.
  split_and!; try done.
  - by eapply list_elem_of_lookup_2.
  - by eapply ceremony_kind.
  - intros a b Ek. unfold roster_at in Hr, Hpq. rewrite Ek in Hr, Hpq. cbn [roster_of fmap option_fmap option_map fst snd] in Hr, Hpq.
    split; [destruct Hpq as [[-> ->]|[-> ->]]; set_solver|].
    destruct Hr as ([a' b'] & genesis & hs & Hd & [= Ea Eb]). by exists a', b', genesis, hs.
Qed.

Lemma gate_none highStakes elapsed live :
  unilateral_gate env highStakes elapsed live = None →
  live ≠ Alive ∧ (floor_seconds env highStakes * 1000 <= elapsed)%Z ∧ (highStakes = true → live = GoneAway).
Proof.
  unfold unilateral_gate. cbv zeta. destruct (bool_decide (live = Alive)) eqn:El; bools; [done|].
  destruct (_ <? _)%Z eqn:Ef; bools; [done|]. destruct highStakes; cbn [andb]; [|done].
  case_bool_decide; done.
Qed.

Lemma judge_unilateral_ok a ls root g :
  judge_unilateral env a = Ok (ls, root, g) →
  root = reported_root (ask_frame a) ∧ hash_tree_root env (map (λ l, content_hash (s2 l)) ls) = root ∧
  (∃ c, loop [] (mkChain [] (initial_root ls) []) ls = Ok c) ∧
  Forall (λ l, in_pair (Some (from_hex (ask_pair a).1, from_hex (ask_pair a).2)) l ∧
               names_session (cborDecode env) (u_session_id (ask_frame a)) l) ls ∧
  verifySealCtrlLeaf ls (ask_sender a) = Ok tt ∧
  reconstructCarriedSealLeaves (verify env) (cborDecode env) (buildRelayAckTbs env) (seal_leaves (ask_frame a)) (ask_sender a) None
    = Ok ls ∧
  unilateral_legibility env ls (absent_party (ask_pair a) (ask_sender a)) = Some g.
Proof.
  unfold judge_unilateral. cbv zeta. destruct (reconstructCarriedSealLeaves _ _ _ _ _ _) as [ls'|] eqn:Er; [|done].
  cbn [mbind result_bind]. unfold verifyUnilateralChain, verifySealLeafChain.
  destruct (bool_decide (_ = reported_root _)) eqn:Eroot; bools; [|done]. cbn [negb].
  destruct (loop [] _ ls') as [c|e] eqn:El; [|done]. cbn [mbind result_bind].
  destruct (unit_result (verifyLeafProvenance (cborDecode env) ls' (u_session_id (ask_frame a))
    (Some (from_hex (ask_pair a).1, from_hex (ask_pair a).2)))) as [[e Ep]|Ep]; rewrite Ep; [done|]. cbn [mbind result_bind].
  destruct (unit_result (verifySealCtrlLeaf ls' (ask_sender a))) as [[e Ec]|Ec]; rewrite Ec; [done|]. cbn [mbind result_bind].
  destruct (unilateral_legibility _ _ _) as [g'|] eqn:Eg; [|done]. intros [= -> <- ->].
  split; [done|]. split; [done|]. split; [by exists c|]. split; [by apply provenance_spec in Ep as [? _]|done].
Qed.

(** A unilateral request that could be granted: made by one of the two parties of a
    session declared at [genesis], the floor of its tier after that, while the relay did
    not see the other party, and had seen it leave if the session is of high stakes. *)
Definition grantable inputs (sid : bytes) (present absentee : string) (ts : Z) (att : ConversationAttestation) : Prop :=
  ∃ pair genesis declaredHigh highStakes t,
    (∃ r f, UnilateralAsked r present f ∈ inputs ∧ u_session_id f = sid) ∧ declared env inputs sid pair genesis declaredHigh ∧
    (pair = (present, absentee) ∨ pair = (absentee, present)) ∧ (declaredHigh = true → highStakes = true) ∧
    (floor_seconds env highStakes * 1000 <= ts - genesis)%Z ∧
    let live := default Unseen (relay_liveness env t (from_hex absentee)) in
    live ≠ Alive ∧ (highStakes = true → live = GoneAway) ∧ (att = ABSENT ↔ live = GoneAway).

(** C6. What a unilateral row rests on.  After any inputs, a unilateral row was asked for by
    one of the two parties of its session, while the relay did not see the other one;
    at least the floor of its tier had passed since the session was declared, and
    a session declared to be of high stakes was sealed only after the relay saw the
    other party leave.  Its root is the one that was asked for, over
    leaves of the two parties for this session that pass the chain verifier with one
    control leaf, the submitter's; and its signature is of the submitter's group key
    over session, root, count and time, or the node's own. *)
Theorem unilateral_rows_are_granted inputs n :
  n ∈ rows (run env initial inputs) → seal_type n = unilateral →
  ∃ present absentee att ls,
    participant_a_pubkey n = from_hex present ∧ participant_b_pubkey n = from_hex absentee ∧
    grantable inputs (n_session_id n) present absentee (close_timestamp n) att ∧
    chain_valid (verify env) (cborDecode env) (encodeStructure2 env) (leaf_hasher env) (nodeHash env) ls ∧
    Forall (λ l, (sender l = participant_a_pubkey n ∨ sender l = participant_b_pubkey n) ∧
                 names_session (cborDecode env) (n_session_id n) l) ls ∧
    verifySealCtrlLeaf ls present = Ok tt ∧
    n_sealed_root n = hash_tree_root env (map (λ l, content_hash (s2 l)) ls) ∧
    leaf_count n = Some (Z.of_nat (length ls)) ∧ n_legibility n = unilateral_legibility env ls absentee ∧
    match signer_pubkey n with
    | Some pk => group_key env inputs present pk ∧
        verifyFrost env (frost_signature n)
          (buildSealTbs env (n_session_id n) (n_sealed_root n) (Z.of_nat (length ls)) (JInt (close_timestamp n))) pk = true
    | None => ∃ t, node_sign env t (single_tbs env (n_session_id n) (n_sealed_root n) (close_timestamp n)) = Some (frost_signature n)
    end.
Proof.
  intros Hn Et. apply (iv_rows _ _ _ (run_notary_inv env inputs)) in Hn. unfold row_ok in Hn. rewrite Et in Hn.
  destruct Hn as (_ & _ & count & g & present & absentee & att & Ec & Eg & Ea & Eb & a & ls & Hg & Esid & -> & Ets & -> & -> & Hs).
  destruct Hg as (((r & Hr) & _ & Hp & highStakes & Hd & Hh) & (t & Hgate & Hatt) & Hj).
  apply gate_none in Hgate as (Hlive & Hfloor & Hgone). apply judge_unilateral_ok in Hj as (Eroot & Etree & Hloop & HF & Hctrl & _ & Hleg).
  assert ((ask_pair a = (ask_sender a, absent_party (ask_pair a) (ask_sender a))) ∨
          (ask_pair a = (absent_party (ask_pair a) (ask_sender a), ask_sender a))) as Hpair.
  { clear -Hp. unfold absent_party. destruct (ask_pair a) as [x y]. cbn [fst snd] in *. case_bool_decide as E; [left; by rewrite E|right].
    destruct Hp as [Hp|Hp]; [congruence|by rewrite Hp]. }
  exists (ask_sender a), (absent_party (ask_pair a) (ask_sender a)), att, ls. rewrite Esid in *. split_and!; try done.
  - exists (ask_pair a), (ask_genesis a), highStakes, (ask_highStakes a), t. rewrite Ets. split; [by exists r, (ask_frame a)|].
    split_and!; try done. rewrite Hatt. case_bool_decide; naive_solver.
  - exact (proj1 (chain_loop_spec _ _ _ _ _ [] (mkChain [] (initial_root ls) []) ls (loop_inv_init _ _ _ _) (λ _, eq_refl)) Hloop).
  - rewrite Ea, Eb. eapply List.Forall_impl; [|exact HF]. cbn [in_pair]. intros l [Hl ?]. split; [|done].
    destruct Hpair as [E|E]; rewrite E in Hl; cbn [fst snd] in Hl; tauto.
  - by rewrite Eg, Hleg.
Qed.

(** * Frames *)

(** C7. What leaves the node.  After any inputs, whatever was sent or queued carries a seal
    that was justified, and goes to whom it concerns: a sealed session to the two
    senders of its leaves; a unilateral confirmation to its submitter and the
    notification to the absent party; an upgrade, acknowledged by the absent party's
    signature over the root of a unilateral row, to the two of that row; a pulled
    certificate to a participant of its row; and a statement to sign only to the
    initiator of its closing, or to the submitter of its request. *)
Theorem frames_are_justified inputs to f :
  (to, f) ∈ sent (run env initial inputs) ++ queued (run env initial inputs) → frame_ok env inputs to f.
Proof.
  pose proof (run_notary_inv env inputs) as Hi. intros [H|H]%elem_of_app; [by apply (iv_sent _ _ _ Hi) in H|by apply (iv_queued _ _ _ Hi) in H].
Qed.

(** * The store of rows *)

Definition row_key (n : SealNotarization) : bytes * SealType := (n_session_id n, seal_type n).

(** The row a bilateral row says it replaces is there, of the same session and root. *)
Definition supersedes_ok (rs : list SealNotarization) (n : SealNotarization) : Prop :=
  ∀ id, supersedes n = Some id → seal_type n = bilateral ∧
    ∃ i u, id = S i ∧ rs !! i = Some u ∧ seal_type u = unilateral ∧
      n_session_id u = n_session_id n ∧ n_sealed_root u = n_sealed_root n.

(** The rows continue [base], one per session and type. *)
Definition rows_from (base : list SealNotarization) (w : notary) : Prop :=
  base `prefix_of` rows w ∧ NoDup (map row_key (rows w)) ∧ ∀ n, n ∈ rows w → supersedes_ok (rows w) n.

Lemma supersedes_app rs n x : supersedes_ok rs n → supersedes_ok (rs ++ [x]) n.
Proof.
  intros Hn id E. destruct (Hn id E) as (Hb & i & u & -> & Hu & ?). split; [done|]. exists i, u. split; [done|].
  split; [by apply lookup_app_l_Some|done].
Qed.

Lemma insert_row_from base w w' n :
  rows_from base w → supersedes_ok (rows w) n → rows w' = insert_row n (rows w) → rows_from base w'.
Proof.
  intros (Hp & Hn & Hs) Ho E. unfold rows_from. rewrite E. unfold insert_row.
  destruct (existsb (same_key n) (rows w)) eqn:Ex; [done|]. split; [by apply prefix_app_r|]. split.
  - rewrite map_app. apply list.NoDup_app. split; [done|]. split; [|apply NoDup_singleton].
    intros k (x & -> & Hx)%list_elem_of_fmap [=E1 E2]%list_elem_of_singleton.
    assert (existsb (same_key n) (rows w) = true) as Et; [|congruence].
    apply existsb_exists. exists x. split; [by apply list_elem_of_In|]. unfold same_key. rewrite E1, E2.
    by rewrite !bool_decide_eq_true_2.
  - intros x [Hx|Hx]%elem_of_app; apply supersedes_app; [by apply Hs|]. by apply list_elem_of_singleton in Hx as ->.
Qed.

Section Rows.
Context (base : list SealNotarization).

Abbreviation grows := (preserves (rows_from base)).

Lemma rows_from_same w w' : rows w' = rows w → rows_from base w → rows_from base w'.
Proof. unfold rows_from. by intros ->. Qed.

Lemma recordNotarization_wp n w :
  rows_from base w → supersedes_ok (rows w) n → wp (recordNotarization env n) w (λ _, rows_from base) (rows_from base).
Proof.
  intros Hw Hs. unfold recordNotarization, best_effort. apply wp_bind, next_tick_wp.
  assert (rows_from base (with_rows (with_tick w (S (tick w))) (insert_row n (rows w)))) as Hi by (by eapply (insert_row_from base w)).
  by destruct (write_fate _ _).
Qed.

Lemma record_grows n : supersedes n = None → grows (recordNotarization env n).
Proof. intros E w Hw. apply recordNotarization_wp; [done|]. intros id. by rewrite E. Qed.

Lemma modify_grows f : (∀ w, rows (f w) = rows w) → grows (modify f : M unit).
Proof. intros Hf. apply preserves_modify. intros w Hw. by apply (rows_from_same w). Qed.

Lemma tick_grows : grows next_tick.
Proof. intros w Hw. by apply next_tick_wp. Qed.

#[local] Hint Resolve modify_grows tick_grows record_grows : preserves.

Ltac grow := repeat first [match goal with |- preserves _ (modify _) => by apply modify_grows end | progress preserve].

Lemma best_effort_grows f : (∀ w, rows (f w) = rows w) → grows (best_effort env f).
Proof. intros Hf. unfold best_effort. grow; by apply (rows_from_same w). Qed.

Lemma read_grows {A} (f : notary → A) : grows (read env f).
Proof. unfold read. grow. Qed.

#[local] Hint Resolve best_effort_grows read_grows : preserves.

Lemma deliver_grows to f : grows (deliverOrEnqueue env to f).
Proof. unfold deliverOrEnqueue, send_now, enqueue. grow. Qed.

Lemma reply_grows to f : grows (reply env to f).
Proof. unfold reply, sendFrame. grow. Qed.

Lemma send_or_enqueue_grows to f : grows (send_or_enqueue env to f).
Proof. unfold send_or_enqueue, send_now, enqueue. grow. Qed.

#[local] Hint Resolve deliver_grows reply_grows send_or_enqueue_grows : preserves.

Lemma resolve_grows who : grows (resolvePrimaryPubkey env who).
Proof. unfold resolvePrimaryPubkey. grow. Qed.

Lemma complete_grows sid root a b ts count sig signer att g ev :
  grows (completeUnilateralNotarization env sid root a b ts count sig signer att g ev).
Proof. unfold completeUnilateralNotarization, recordConversationSeal, stage_mmr, send_now, enqueue. cbv zeta. grow. Qed.

#[local] Hint Resolve resolve_grows complete_grows : preserves.

Lemma processSeal_grows sid data : grows (processSeal env sid data).
Proof.
  unfold processSeal, notifySealRejected, seal_single, now, sign, route_to, enqueue, recordConversationSeal, stage_mmr.
  cbv zeta. grow.
Qed.

Lemma frost_grows who sid sig : grows (processSealFrostSignature env who sid sig).
Proof. unfold processSealFrostSignature, recordConversationSeal, stage_mmr. cbv zeta. grow. Qed.

Lemma unilateral_grows r who f : grows (processSealUnilateral env r who f).
Proof. unfold processSealUnilateral, now. cbv zeta. grow. Qed.

Lemma liveness_grows r : grows (livenessKnown env r).
Proof. unfold livenessKnown, sign. cbv zeta. grow. Qed.

Lemma certificate_grows who sid : grows (processSealCertificateRequest env who sid).
Proof. unfold processSealCertificateRequest, sendFrame. grow. Qed.

(** The number of a row is its place, counted from one. *)
Lemma getNotarizationId_spec rs sid ty i :
  getNotarizationId rs sid ty = Some i →
  ∃ k u, i = S k ∧ rs !! k = Some u ∧ find_row rs sid ty = Some u ∧ n_session_id u = sid ∧ seal_type u = ty.
Proof.
  unfold getNotarizationId. intros ([k u] & E & ->)%fmap_Some. apply list_find_Some in E as (Hk & Hr & Hb).
  exists k, u. split; [done|]. split; [done|]. split.
  - clear -Hk Hr Hb. revert k Hk Hb. induction rs as [|x rs IH]; intros [|k] Hk Hb; try done; cbn in *.
    + injection Hk as ->. unfold find_row. cbn. by rewrite Hr.
    + unfold find_row. cbn. destruct (is_row sid ty x) eqn:E; [by destruct (Hb 0 x eq_refl ltac:(lia))|].
      apply (IH k Hk). intros j y Hj Hlt. apply (Hb (S j) y Hj). lia.
  - unfold is_row in Hr. by bools.
Qed.

Lemma read_rows_from {A} (f : list SealNotarization → A) w :
  rows_from base w → wp (read env (λ w, f (rows w))) w (λ a w', rows_from base w' ∧ a = f (rows w')) (rows_from base).
Proof.
  intros Hw. unfold read. apply wp_bind, next_tick_wp. destruct (reads env _); [by apply wp_gets|by apply wp_throw].
Qed.

Lemma upgrade_grows who f : grows (processSealUpgradeRequest env who f).
Proof.
  intros w Hw. unfold processSealUpgradeRequest. cbv zeta. apply wp_bind.
  eapply wp_mono; [by apply (read_rows_from (λ rs, getNotarization rs (up_session_id f)))| |done]. clear w Hw. intros r w [Hw En].
  destruct r as [n|]; [|by apply reply_grows]. symmetry in En.
  do 4 (match goal with |- wp (if ?b then _ else _) _ _ _ => destruct b eqn:? end; [by apply reply_grows|]).
  unfold read. apply wp_bind, wp_bind, next_tick_wp. destruct (reads env _); [apply wp_gets|by apply wp_throw].
  apply wp_bind. eapply wp_mono; [apply recordNotarization_wp; [done|]|intros [] w' Hw'|done].
  - intros id E. cbn [supersedes] in E. split; [done|].
    apply getNotarizationId_spec in E as (k & u & -> & Hu & Ef & Es & Et). exists k, u. assert (u = n) as ->; [|by split_and!].
    unfold getNotarization in En. cbn [rows with_tick] in Ef. destruct (find_row (rows w) (up_session_id f) bilateral) as [b|] eqn:Eb; [|congruence].
    injection En as ->. apply find_row_spec in Eb as (_ & _ & Eb). bools. congruence.
  - revert w' Hw'. unfold send_now, enqueue. grow.
Qed.

Lemma run_input_grows i w : rows_from base w → rows_from base (run_input env w i).
Proof.
  intros Hw. destruct i; cbn [run_input].
  3: by apply (rows_from_same w).
  all: try (apply preserves_final; [|done]).
  all: first [by apply (rows_from_same w)|apply processSeal_grows|apply frost_grows|apply unilateral_grows|apply liveness_grows
             |apply upgrade_grows|apply certificate_grows|unfold assign, now; grow].
Qed.

End Rows.

Lemma run_grows base w inputs : rows_from base w → rows_from base (run env w inputs).
Proof. revert w. unfold run. induction inputs as [|i inputs IH]; intros w Hw; [done|]. by apply IH, run_input_grows. Qed.

(** Rows are never replaced.  Whatever comes later, the rows there are stay as they are,
    in their places; a session has at most one row of each type, the first one
    recorded; and a bilateral row that replaces a unilateral one names the place
    where that row still is, of the same session and root. *)
Theorem rows_are_append_only inputs more :
  let w := run env initial inputs in
  let w' := run env initial (inputs ++ more) in
  rows w `prefix_of` rows w' ∧ NoDup (map row_key (rows w')) ∧ (∀ n, n ∈ rows w' → supersedes_ok (rows w') n).
Proof.
  cbv zeta. assert (rows_from [] (run env initial inputs)) as (_ & Hn & Hs).
  { apply run_grows. split; [apply prefix_nil|]. split; [constructor|]. by intros ? ?%not_elem_of_nil. }
  assert (run env initial (inputs ++ more) = run env (run env initial inputs) more) as -> by apply foldl_app. apply (run_grows (rows (run env initial inputs)) (run env initial inputs) more).
  by split.
Qed.

End Theorems.
End SealNotaryTheorems.

(** The guard against a second unilateral seal outlives the seal it guards: what the
    submitter's bad signature leaves behind. *)
Import Text JsMap Effects Wire SealChain SealLegibility SealNotary SealNotaryInvariant.

Module SealNotaryRetry.

Section Retry.
Context (env : NotaryEnv).

(** * The guard is set while a unilateral seal waits for its signature *)

Definition guarded (w : notary) : Prop :=
  jall (λ key p, p_attestation p ≠ None → is_Some (jget (unilateralSeals w) key)) (pendingFrostSeals w).

Lemma guarded_same w w' :
  pendingFrostSeals w' = pendingFrostSeals w → unilateralSeals w' = unilateralSeals w → guarded w → guarded w'.
Proof. unfold guarded. by intros -> ->. Qed.

Abbreviation guards := (preserves guarded).


Lemma tick_guards : guards next_tick.
Proof. intros w Hw. by apply next_tick_wp. Qed.

Lemma deliver_guards to f : guards (deliverOrEnqueue env to f).
Proof. pose proof tick_guards. unfold deliverOrEnqueue, send_now, enqueue. preserve. Qed.

Lemma send_or_enqueue_guards to f : guards (send_or_enqueue env to f).
Proof. pose proof tick_guards. unfold send_or_enqueue, send_now, enqueue. preserve. Qed.

Lemma reply_guards to f : guards (reply env to f).
Proof. pose proof tick_guards. unfold reply, sendFrame. preserve. Qed.

Lemma record_guards n : guards (recordNotarization env n).
Proof. pose proof tick_guards. unfold recordNotarization, best_effort. preserve. Qed.

Lemma resolve_guards who : guards (resolvePrimaryPubkey env who).
Proof. pose proof tick_guards. unfold resolvePrimaryPubkey. preserve. Qed.

#[local] Hint Resolve tick_guards deliver_guards send_or_enqueue_guards reply_guards record_guards resolve_guards : preserves.

Lemma complete_guards sid root a b ts count sig signer att g ev :
  guards (completeUnilateralNotarization env sid root a b ts count sig signer att g ev).
Proof. unfold completeUnilateralNotarization, recordConversationSeal, stage_mmr, best_effort, send_now, enqueue. cbv zeta. preserve. Qed.

#[local] Hint Resolve complete_guards : preserves.

Lemma guarded_del w key : guarded w → guarded (with_pendingFrost w (jdel (pendingFrostSeals w) key)).
Proof. apply jall_del. Qed.

Lemma guarded_pending w key p :
  guarded w → (p_attestation p ≠ None → is_Some (jget (unilateralSeals w) key)) →
  guarded (with_pendingFrost w (jset (pendingFrostSeals w) key p)).
Proof. intros Hw Hp. by apply jall_set. Qed.

Lemma guarded_guard w key v : guarded w → guarded (with_unilateralSeals w (jset (unilateralSeals w) key v)).
Proof.
  intros [Hw Hp]. split; [done|]. intros k p Hk Ha. specialize (Hp k p Hk Ha). cbn [unilateralSeals with_unilateralSeals].
  rewrite jget_jset. by case_decide.
Qed.

#[local] Hint Resolve guarded_del guarded_guard : preserves.

Lemma processSeal_guards sid data : guards (processSeal env sid data).
Proof.
  unfold processSeal, notifySealRejected, seal_single, now, sign, route_to, enqueue, recordConversationSeal, stage_mmr, best_effort.
  cbv zeta. preserve. by apply guarded_pending.
Qed.

Lemma liveness_guards r : guards (livenessKnown env r).
Proof.
  intros w Hw. unfold livenessKnown, sign. cbv zeta. apply wp_bind, wp_gets. destruct (jget _ _) as [a|]; [|by apply wp_ret].
  apply wp_bind, wp_modify. apply wp_bind, next_tick_wp.
  destruct (unilateral_gate _ _ _ _) as [[]|]; [by apply reply_guards|].
  destruct (judge_unilateral env a) as [[[ls root] g]|]; [|done].
  apply wp_bind, wp_modify. apply wp_bind.
  set (key := hex (u_session_id (ask_frame a))). set (w1 := with_unilateralSeals _ _).
  assert (guarded w1) as H1 by (by apply guarded_guard). assert (is_Some (jget (unilateralSeals w1) key)) as Hs.
  { cbn [w1 unilateralSeals with_unilateralSeals]. by rewrite jget_jset_eq. }
  clearbody w1. unfold resolvePrimaryPubkey.
  assert (∀ w', guarded w' ∧ is_Some (jget (unilateralSeals w') key) → ∀ p : PendingFrostSeal,
     guarded (with_pendingFrost w' (jset (pendingFrostSeals w') key p))) as Hset.
  { intros w' [? ?] p. by apply guarded_pending. }
  eapply (wp_mono _ _ (λ _ w', guarded w' ∧ is_Some (jget (unilateralSeals w') key))); [| |by intros w' H'; exact H'].
  - apply wp_bind, wp_gets. destruct (jget (primaryPubkeys w1) _); [done|]. apply wp_bind, next_tick_wp.
    destruct (profile env _ _) as [[pk|]|]; [|done|done]. apply wp_bind, wp_modify, wp_ret. done.
  - intros [pk|] w' Hw'.
    + apply wp_bind, wp_modify. apply send_or_enqueue_guards. by apply Hset.
    + destruct Hw' as [Hw' _]. revert w' Hw'. preserve.
Qed.

Lemma run_input_guards i w : guarded w → guarded (run_input env w i).
Proof.
  intros Hw. destruct i; cbn [run_input].
  3: apply jall_nil.
  all: try (apply preserves_final; [|done]).
  all: first [by apply (guarded_same w)|apply processSeal_guards|apply liveness_guards|idtac].
  all: unfold assign, now, processSealFrostSignature, recordConversationSeal, stage_mmr, best_effort, processSealUnilateral, now,
    processSealUpgradeRequest, read, send_now, enqueue, processSealCertificateRequest, read, sendFrame; cbv zeta; preserve.
Qed.

Lemma run_guards inputs : guarded (run env initial inputs).
Proof.
  assert (∀ w, guarded w → guarded (run env w inputs)) as K.
  { unfold run. induction inputs as [|i inputs IH]; intros w Hw; [done|]. by apply IH, run_input_guards. }
  apply K. apply jall_nil.
Qed.

(** * What a bad signature leaves *)

Section Stuck.
Context (sid : bytes) (base : list SealNotarization).

(** The guard is set, and nothing that could still seal is under way. *)
Record stuck (w : notary) : Prop := mkStuck {
  st_guard : is_Some (jget (unilateralSeals w) (hex sid));
  st_asking : jwf (asking w) ∧ ∀ r a, jget (asking w) r = Some a → u_session_id (ask_frame a) ≠ sid;
  st_pending : jall (λ key p, key = hex sid → p_attestation p = None) (pendingFrostSeals w);
  st_rows : ∀ n, n ∈ rows w → n_session_id n = sid → seal_type n = unilateral → n ∈ base;
}.

Abbreviation sticks := (preserves stuck).

Lemma stuck_same w w' :
  unilateralSeals w' = unilateralSeals w → asking w' = asking w → pendingFrostSeals w' = pendingFrostSeals w →
  rows w' = rows w → stuck w → stuck w'.
Proof. intros E1 E2 E3 E4 []. split; by rewrite ?E1, ?E2, ?E3, ?E4. Qed.

#[local] Hint Extern 2 (stuck _) => eapply stuck_same; [| | | |eassumption]; reflexivity : preserves.

Lemma tick_sticks : sticks next_tick.
Proof. intros w Hw. apply next_tick_wp. by apply (stuck_same w). Qed.

#[local] Hint Resolve tick_sticks : preserves.

Lemma deliver_sticks to f : sticks (deliverOrEnqueue env to f).
Proof. unfold deliverOrEnqueue, send_now, enqueue. preserve. Qed.

Lemma send_or_enqueue_sticks to f : sticks (send_or_enqueue env to f).
Proof. unfold send_or_enqueue, send_now, enqueue. preserve. Qed.

Lemma reply_sticks to f : sticks (reply env to f).
Proof. unfold reply, sendFrame. preserve. Qed.

Lemma resolve_sticks who : sticks (resolvePrimaryPubkey env who).
Proof. unfold resolvePrimaryPubkey. preserve. Qed.

Lemma record_sticks n : seal_type n = bilateral ∨ n_session_id n ≠ sid → sticks (recordNotarization env n).
Proof.
  intros Hn. unfold recordNotarization, best_effort. preserve.
  all: match goal with H : stuck _ |- _ => destruct H end; split; try done; cbn [rows with_rows]; unfold insert_row; destruct (existsb _ _); [done|].
  all: intros x [Hx|Hx]%elem_of_app; [by auto|]; apply list_elem_of_singleton in Hx as ->; destruct Hn; congruence.
Qed.

#[local] Hint Resolve deliver_sticks send_or_enqueue_sticks reply_sticks resolve_sticks : preserves.

Lemma complete_sticks sid' root a b ts count sig signer att g ev :
  sid' ≠ sid → sticks (completeUnilateralNotarization env sid' root a b ts count sig signer att g ev).
Proof.
  intros Hne. unfold completeUnilateralNotarization, recordConversationSeal, stage_mmr, best_effort, send_now, enqueue. cbv zeta.
  apply preserves_bind; [by apply record_sticks; right|]. intros _. preserve.
Qed.

Lemma stuck_set w key p :
  stuck w → (key = hex sid → p_attestation p = None) → stuck (with_pendingFrost w (jset (pendingFrostSeals w) key p)).
Proof. intros [] Hp. split; try done. by apply jall_set. Qed.

Lemma stuck_del w key : stuck w → stuck (with_pendingFrost w (jdel (pendingFrostSeals w) key)).
Proof. intros []. split; try done. by apply jall_del. Qed.

Lemma stuck_guard w key v : stuck w → stuck (with_unilateralSeals w (jset (unilateralSeals w) key v)).
Proof. intros []. split; try done. cbn [unilateralSeals with_unilateralSeals]. rewrite jget_jset. by case_decide. Qed.

Lemma stuck_answered w r : stuck w → stuck (with_asking w (jdel (asking w) r)).
Proof.
  intros [? [Hw Ha] ? ?]. split; try done. split; [by apply jwf_jdel|]. intros r' a. cbn [asking with_asking].
  rewrite jget_jdel by done. case_decide; [done|apply Ha].
Qed.

Lemma stuck_ask w r a : stuck w → u_session_id (ask_frame a) ≠ sid → stuck (with_asking w (jset (asking w) r a)).
Proof.
  intros [? [Hw Ha] ? ?] Hne. split; try done. split; [by apply jwf_jset|]. intros r' a'. cbn [asking with_asking].
  rewrite jget_jset. case_decide; [by intros [= <-]|apply Ha].
Qed.

#[local] Hint Resolve stuck_del stuck_guard : preserves.
#[local] Hint Extern 1 (sticks (recordNotarization _ _)) => apply record_sticks; by left : preserves.

Lemma processSeal_sticks sid' data : sticks (processSeal env sid' data).
Proof.
  unfold processSeal, notifySealRejected, seal_single, now, sign, route_to, enqueue, recordConversationSeal, stage_mmr, best_effort.
  cbv zeta. preserve. by apply stuck_set.
Qed.

Lemma upgrade_sticks who f : sticks (processSealUpgradeRequest env who f).
Proof. unfold processSealUpgradeRequest, read, send_now, enqueue. cbv zeta. preserve. Qed.

Lemma frost_sticks who sid' sig : sticks (processSealFrostSignature env who sid' sig).
Proof.
  intros w Hw. unfold processSealFrostSignature, recordConversationSeal, stage_mmr, best_effort. cbv zeta. apply wp_bind, wp_gets.
  destruct (jget (pendingFrostSeals w) (hex sid')) as [p|] eqn:Ep; [|by apply wp_ret].
  pose proof (proj2 (st_pending _ Hw) _ _ Ep) as Hpend. cbv beta in Hpend. clear Ep. apply stuck_del with (key := hex sid') in Hw as Hw'. revert w Hw' Hw.
  destruct (negb _); [by intros w _ Hw; apply wp_ret|]. intros w Hw' _. apply wp_bind, wp_modify. revert Hw'.
  generalize (with_pendingFrost w (jdel (pendingFrostSeals w) (hex sid'))). clear w. preserve; try preserve.
  apply complete_sticks. intros ->. by specialize (Hpend eq_refl).
Qed.

Lemma ask_sticks r who f : sticks (processSealUnilateral env r who f).
Proof.
  intros w Hw. unfold processSealUnilateral, now. cbv zeta. apply wp_bind, wp_gets.
  destruct (jhas (unilateralSeals w) (hex (u_session_id f))) eqn:Eh; [by apply wp_ret|].
  assert (u_session_id f ≠ sid) as Hne.
  { intros E. rewrite E in Eh. unfold jhas in Eh. bools. apply Eh, Hw. }
  revert w Hw Eh. intros w Hw _. revert w Hw. preserve. by apply stuck_ask.
Qed.

Lemma liveness_sticks r : sticks (livenessKnown env r).
Proof.
  intros w Hw. unfold livenessKnown, sign. cbv zeta. apply wp_bind, wp_gets.
  destruct (jget (asking w) r) as [a|] eqn:Ea; [|by apply wp_ret]. apply (st_asking _ Hw) in Ea.
  apply wp_bind, wp_modify. apply stuck_answered with (r := r) in Hw. revert Hw. generalize (with_asking w (jdel (asking w) r)).
  clear w. preserve.
  - apply stuck_set; [done|]. by intros ?%(inj hex).
  - by apply complete_sticks.
Qed.

Lemma run_input_sticks i w : i ≠ Restarted → stuck w → stuck (run_input env w i).
Proof.
  intros Hr Hw. destruct i; cbn [run_input]; try done.
  all: try (apply preserves_final; [|done]).
  all: first [by apply (stuck_same w)|apply processSeal_sticks|apply frost_sticks|apply ask_sticks|apply liveness_sticks
             |apply upgrade_sticks|idtac].
  - unfold assign, now. preserve.
  - unfold processSealCertificateRequest, read, sendFrame. preserve.
Qed.

Lemma run_sticks inputs w : Restarted ∉ inputs → stuck w → stuck (run env w inputs).
Proof.
  unfold run. revert w. induction inputs as [|i inputs IH]; intros w Hr Hw; [done|]. cbn.
  apply IH; [set_solver|]. apply run_input_sticks; [set_solver|done].
Qed.

End Stuck.

(** A bad signature loses the unilateral seal.  When a unilateral seal of a session
    waits for its signature and no other request for the session is under way, a
    signature of the submitter that does not verify ends it, and no unilateral row of
    the session is ever written again, whatever is asked, until the node restarts. *)
Theorem bad_signature_is_final inputs more sid sig p :
  let w := run env initial inputs in
  jget (pendingFrostSeals w) (hex sid) = Some p → p_attestation p ≠ None →
  (∀ r a, jget (asking w) r = Some a → u_session_id (ask_frame a) ≠ sid) →
  (∀ pk, verifyFrost env sig (tbs p) pk = false) → Restarted ∉ more →
  ∀ n, n ∈ rows (run env w (FrostSigned (p_initiatorHex p) sid sig :: more)) →
    n_session_id n = sid → seal_type n = unilateral → n ∈ rows w.
Proof.
  cbv zeta. set (w := run env initial inputs). intros Hp Ha Hask Hv Hr.
  pose proof (run_notary_inv env inputs) as Hi. pose proof (run_guards inputs) as Hg. fold w in Hi, Hg.
  assert (stuck sid (rows w) (run_input env w (FrostSigned (p_initiatorHex p) sid sig))) as Hs.
  { assert (stuck sid (rows w) (with_pendingFrost w (jdel (pendingFrostSeals w) (hex sid)))) as Hs.
    { split; [by apply (proj2 Hg _ _ Hp)| |split; [by apply jwf_jdel; apply Hg|]|done].
      - split; [apply (iv_asking _ _ _ Hi)|exact Hask].
      - intros key q Hq ->. cbn [pendingFrostSeals with_pendingFrost] in Hq. rewrite jget_jdel in Hq by apply Hg.
        by rewrite decide_True in Hq. }
    cbn [run_input]. apply wp_final. unfold processSealFrostSignature. cbv zeta. apply wp_bind, wp_gets. rewrite Hp.
    rewrite bool_decide_eq_true_2 by done. cbn [negb]. apply wp_bind, wp_modify.
    revert Hs. generalize (with_pendingFrost w (jdel (pendingFrostSeals w) (hex sid))). intros w' Hw'.
    apply wp_bind. eapply wp_mono; [by apply resolve_sticks| |done]. intros [pk|] w2 H2; [|done].
    rewrite Hv. cbn [negb]. revert w2 H2. pose proof deliver_sticks. preserve. }
  intros n Hn. cbn [run foldl] in Hn. apply (run_sticks sid (rows w) more) in Hs; [|done]. by apply (st_rows _ _ _ Hs).
Qed.

End Retry.
End SealNotaryRetry.
