(* ===== verification/SealHandover.v ===== *)
(** How a seal crosses the parts: from the log that a relay ordered to the verdict of the
    directory it hands it to, and from that verdict to the directories that co-sign. *)
From Stdlib Require Import Ascii.
From S2P Require Import Prelude Text JsMap Effects Wire SealChain Merkle SealChainTheorems SealFinalRoot SealCosign SealLegibility.
From S2P Require Import SealLegibilityTheorems SealNotary SealNotaryInvariant SealNotaryTheorems.
From S2P Require Import Relay RelaySession RelaySessionInvariant RelaySessionTheorems.
Import Text JsMap Effects Wire SealChain Merkle SealChainTheorems SealFinalRoot SealLegibility.
Import SealLegibilityTheorems SealNotary SealNotaryInvariant SealNotaryTheorems.

Module SealHandover.

Abbreviation RelayEnv := RelaySession.RelayEnv.

(** * From the relay to the directory *)

(** A relay and a directory that compute the same hashes, signatures and encodings. *)
Record agree (renv : RelayEnv) (env : NotaryEnv) : Prop := mkAgree {
  ag_verify : RelaySession.verify renv = verify env;
  ag_decode : RelaySession.cborDecode renv = cborDecode env;
  ag_encode : RelaySession.encodeStructure2 renv = encodeStructure2 env;
  ag_leaf : RelaySession.leaf_hasher renv = leaf_hasher env;
  ag_node : RelaySession.nodeHash renv = nodeHash env;
  ag_root : RelaySession.merkle_tree_root renv = merkle_tree_root env;
}.

Section Handover.
Context (renv : RelayEnv) (env : NotaryEnv) (Hag : agree renv env) (Hrfc : tree_is_rfc6962 env).

Lemma handed_chain st before r ls :
  (before = [] → r = initial_root ls) → (before ≠ [] → r = structure2_root env before) →
  (∀ b l a, ls = b ++ l :: a → ∃ f, RelaySessionInvariant.in_order renv False st (before ++ b) l f) →
  check_chain env before r ls = Ok tt ∨
  (check_chain env before r ls = Err "causal_chain_violated" ∧ RelaySessionTheorems.unseen renv (before ++ ls)).
Proof.
  destruct Hag as [Av Ad Ae Al An Ar].
  revert before r. induction ls as [|l ls IH]; intros before r H0 H1 Hall; [by left|]. cbn [check_chain].
  destruct (Hall [] l ls eq_refl) as [f Hf]. rewrite app_nil_r in Hf. destruct Hf as [Hv Hd Hc _ _ _ Hp _ _].
  change (sender_pubkey (s2 l)) with (sender l). rewrite Av in Hv. rewrite Hv, <- Ad, Hd, Hc. rewrite bool_decide_eq_true_2 by done.
  assert (prev_root (s2 l) = r) as ->.
  { destruct (decide (before = [])) as [E|E]; [by rewrite H0|]. rewrite H1, Hp by done. rewrite An, Al, Ae.
    unfold structure2_root. rewrite Hrfc by (by destruct before). by rewrite map_map. }
  rewrite bool_decide_eq_true_2 by done. cbn [negb].
  destruct (js_gtb (s1_last_seen_seq f) (effectiveSeen before (hex (sender l)))) eqn:Es.
  - right. split; [done|]. exists before, l, ls, f. split; [done|]. split; [done|]. by rewrite <- effectiveSeen_spec, Es.
  - replace (before ++ l :: ls) with ((before ++ [l]) ++ ls) by (by rewrite <- app_assoc).
    apply IH; [by destruct before|done|]. intros b l' a ->. destruct (Hall (l :: b) l' a eq_refl) as [f' Hf'].
    exists f'. by rewrite <- app_assoc.
Qed.

(** C9. What the relay hands over is never refused for its arithmetic.  When a relay and a
    directory compute alike, and the relay hands over a log that is not empty, the
    directory rebuilds the root that was handed over, and its check of every leaf's
    signature, content hash and previous root passes, or the first failure is a leaf
    that acknowledges a position its sender had not been sent. *)
Theorem handover_passes_the_chain inputs sid r' data :
  RelaySessionInvariant.builds_structure2 renv →
  RelaySession.submitForSeal renv sid (RelaySession.run renv RelaySession.initial inputs) = (r', Ok (Ok data)) →
  RelaySession.sd_leaves data ≠ [] →
  let ls := RelaySession.sd_leaves data in
  structure2_root env ls = RelaySession.sd_merkle_root data ∧
  (check_chain env [] (initial_root ls) ls = Ok tt ∨
   (check_chain env [] (initial_root ls) ls = Err "causal_chain_violated" ∧ RelaySessionTheorems.unseen renv ls)).
Proof.
  intros Hb. unfold RelaySession.submitForSeal. cbv zeta. unfold mbind at 1, act_bind, RelaySession.get_session, gets, Relay.getSession.
  destruct (jget _ (hex sid)) as [st|] eqn:Eg; [|done].
  assert (RelaySessionInvariant.session_ok renv False st) as Hst by (by apply (RelaySessionTheorems.from_start_ok renv False inputs (hex sid))).
  destruct (negb _); [done|]. destruct (Relay.awaiting_replay _); [done|].
  unfold mbind, act_bind, RelaySession.set_session, RelaySession.date_now, modify. cbn [mbind act_bind].
  intros [= <- <-] Hne. cbn [RelaySession.sd_leaves RelaySession.sd_merkle_root RelaySession.seal_data]. split.
  - unfold structure2_root. by rewrite <- (ag_root _ _ Hag), <- (ag_encode _ _ Hag).
  - apply (handed_chain st); [done|done|]. intros b l a E. by apply (RelaySessionInvariant.so_leaves _ _ _ Hst b l a).
Qed.

End Handover.

(** * From the directory to its co-signers *)

Section Cosigners.
Context (env : NotaryEnv).

Abbreviation cosign := (SealCosign.verifySealCosignEvidence (verify env) (cborDecode env) (hash_tree_root env)
  (decodeSealPayload env) (sha256 env) (buildSealTbs env)).
Abbreviation roots ls sid roster :=
  (verifySealFinalRoots (cborDecode env) (hash_tree_root env) (decodeSealPayload env) (sha256 env) ls sid roster).

(** A carried leaf on the wire. *)
Definition wire_leaf (l : SealCosign.CosignLeaf) : jsval :=
  VObj (("structure1_cbor", VBytes (SealCosign.cs_structure1 l)) :: ("sender_pubkey", VBytes (SealCosign.cs_sender l)) ::
        ("sender_signature", VBytes (SealCosign.cs_signature l)) ::
        match SealCosign.cs_kind l with Some k => [("kind", VStr k)] | None => [] end ++
        match SealCosign.cs_content l with Some b => [("content_bytes", VBytes b)] | None => [] end).

Lemma parse_wire_leaf l : SealCosign.parse_leaf (wire_leaf l) = Some l.
Proof. destruct l as [s1 pk sig [b|] [k|]]; reflexivity. Qed.

Lemma parse_wire ls : ls ≠ [] → SealCosign.parseCosignLeaves (VArr (map wire_leaf ls)) = Some ls.
Proof.
  intros Hne. assert (mapM SealCosign.parse_leaf (map wire_leaf ls) = Some ls) as E.
  { clear. induction ls as [|l ls IH]; [done|]. cbn [map mapM]. rewrite parse_wire_leaf. cbn. by rewrite IH. }
  by destruct ls.
Qed.

(** Leaves that the final-root check cannot tell apart. *)
Definition same_evidence (l l' : RelaySealLeaf) : Prop :=
  (kind l = ctrl ↔ kind l' = ctrl) ∧ sender l = sender l' ∧ structure1_cbor l = structure1_cbor l' ∧
  content_bytes l = content_bytes l' ∧ content_hash (s2 l) = content_hash (s2 l').

Lemma collect_roots_same sid ls ls' m :
  Forall2 same_evidence ls ls' →
  collect_roots (cborDecode env) (decodeSealPayload env) (sha256 env) ls sid m =
  collect_roots (cborDecode env) (decodeSealPayload env) (sha256 env) ls' sid m.
Proof.
  intros H. revert m. induction H as [|l l' ls ls' (Hk & Hs & H1 & Hb & Hh) _ IH]; intros m; [done|]. cbn [collect_roots].
  rewrite (bool_decide_ext _ _ Hk). destruct (negb _); [done|]. rewrite Hb. destruct (content_bytes l') as [b|]; [|done].
  assert (bind_payload (cborDecode env) (decodeSealPayload env) (sha256 env) l b sid =
          bind_payload (cborDecode env) (decodeSealPayload env) (sha256 env) l' b sid) as -> by (unfold bind_payload; by rewrite H1, Hh).
  unfold sender in Hs. rewrite Hs. destruct (bind_payload _ _ _ l' b sid); [apply IH|done].
Qed.

Lemma root_same ls ls' :
  Forall2 same_evidence ls ls' → rootOverNonCtrlLeaves (hash_tree_root env) ls = rootOverNonCtrlLeaves (hash_tree_root env) ls'.
Proof.
  intros H. unfold rootOverNonCtrlLeaves. f_equal. induction H as [|l l' ls ls' (Hk & _ & _ & _ & Hh) _ IH]; [done|].
  cbn [List.filter]. rewrite (bool_decide_ext _ _ Hk). destruct (negb _); [|done]. cbn [map]. by rewrite Hh, IH.
Qed.

Lemma roots_same ls ls' sid roster :
  Forall2 same_evidence ls ls' → verifyLeafProvenance (cborDecode env) ls sid roster = Ok tt →
  verifyLeafProvenance (cborDecode env) ls' sid None = Ok tt → roots ls' sid None = roots ls sid roster.
Proof.
  intros H E E'. unfold verifySealFinalRoots. rewrite E, E'. cbn [mbind result_bind].
  by rewrite (collect_roots_same sid ls ls' []), (root_same ls ls').
Qed.

(** What the bilateral check established of one leaf, without its place. *)
Definition leaf_bound (sid : bytes) (l : RelaySealLeaf) : Prop :=
  verify env (sender l) (structure1_cbor l) (sender_signature (s2 l)) = true ∧
  decodeStructure1Signed (cborDecode env) (structure1_cbor l) = Some (content_hash (s2 l), sid).

Lemma closed_bound sid ls : closed_by_both env sid ls → Forall (leaf_bound sid) ls.
Proof.
  intros [Hc Hs _ _ _]. apply List.Forall_forall. intros l Hl. apply list_elem_of_In, list_elem_of_split in Hl as (b & a & E).
  destruct (Hc b l a E) as [f []]. split; [done|]. apply decodeSigned_spec. exists f. split; [done|]. split; [done|].
  rewrite List.Forall_forall in Hs. destruct (Hs l) as (f' & Ef' & <-); [rewrite E; apply list_elem_of_In; set_solver|]. congruence.
Qed.

Lemma bound_frontier sid l : leaf_bound sid l → same_evidence l (SealCosign.as_relay_leaf (cborDecode env) (frontier_leaf l)).
Proof.
  intros [_ Hd]. unfold same_evidence, SealCosign.as_relay_leaf, frontier_leaf, SealCosign.signed_hash, sender.
  cbn [kind s2 SealCosign.cs_sender SealCosign.cs_structure1 SealCosign.cs_content SealCosign.cs_kind SealCosign.cs_signature structure1_cbor content_bytes content_hash sender_pubkey].
  rewrite Hd. cbn. split_and!; try done. unfold SealCosign.is_ctrl. by destruct (kind l).
Qed.

Lemma bound_hashes sid ls :
  Forall (leaf_bound sid) ls →
  omap (SealCosign.signed_hash (cborDecode env)) (map frontier_leaf ls) = map (λ l, content_hash (s2 l)) ls.
Proof.
  intros H. induction H as [|l ls [_ Hd] _ IH]; [done|]. cbn [map omap list_omap]. unfold SealCosign.signed_hash at 1.
  cbn [frontier_leaf SealCosign.cs_structure1]. by rewrite Hd, IH.
Qed.

(** C8. Co-signers follow the verdict.  The statement that a directory asks the initiator to
    sign, framed for the group, is signed by every co-signer that is shown the
    leaves the directory sent with it: it vets that message over those leaves,
    without knowing the roster, as the directory did. *)
Theorem judged_seal_is_cosigned sid data roster g l ts :
  (∀ b, String.length (sha256 env b) = 32) →
  judge env sid data roster = Ok (g, l) →
  cosign (SealCosign.SEAL_FROST_CONTEXT +:+ String "000"%char
            (bilateral_tbs env sid (content_root env (leaves data)) (Z.of_nat (length (leaves data))) ts g))
    (VArr (map wire_leaf (map frontier_leaf (leaves data)))) (VNum (JInt ts)) = Ok tt.
Proof.
  intros Hsha Hj. pose proof (judge_closed env _ _ _ _ _ Hj) as Hc. pose proof (closed_bound _ _ Hc) as HB.
  pose proof (judge_two _ _ _ _ _ _ Hj) as (p & q & Efs & _). apply judge_ok in Hj as (_ & _ & _ & (root & Hr) & _).
  set (ls := leaves data) in *. clearbody ls.
  assert (ls ≠ []) as Hne by (destruct (cb_ceremony _ _ _ Hc) as (i & _ & ?); by destruct ls; [cbn in *; lia|]).
  assert (∀ l', l' ∈ ls → sender l' ∈ [p; q]) as Hin.
  { intros l' Hl'. destruct (first_seen_spec [] ls) as [_ Hall]; [constructor|]. rewrite <- Efs. apply Hall. right. by exists l'. }
  assert (length (remove_dups (map (λ l, hex (SealCosign.cs_sender l)) (map frontier_leaf ls))) <= 2) as Hle.
  { rewrite map_map. apply (nodup_length _ [hex p; hex q]); [apply NoDup_remove_dups|].
    intros x Hx. rewrite elem_of_remove_dups in Hx. apply list_elem_of_fmap in Hx as (l' & -> & Hl').
    change (SealCosign.cs_sender (frontier_leaf l')) with (sender l'). specialize (Hin l' Hl'). set_solver. }
  apply SealCosign.verifySealCosignEvidence_iff.
  exists (JInt ts), (map frontier_leaf ls), sid, (canonicalLegibilityHash (sha256 env) g). split; [done|].
  split; [apply parse_wire; by destruct ls|]. split.
  { apply List.Forall_forall. intros x (l' & <- & Hl')%List.in_map_iff. rewrite List.Forall_forall in HB.
    destruct (HB l' Hl') as [Hv Hd]. split; [done|]. by eexists. }
  split; [done|]. split.
  { rewrite (bound_hashes sid) by done. unfold SealCosign.framed, bilateral_tbs, bindLegibilityToTbs, content_root.
    by rewrite length_map, str_app_assoc. }
  right. split; [apply Hsha|]. exists root. rewrite <- Hr. apply roots_same.
  - clear -HB. induction HB; [constructor|]. constructor; [by eapply bound_frontier|done].
  - apply verifySealFinalRoots_iff in Hr. apply Hr.
  - apply provenance_spec. split.
    + apply List.Forall_forall. intros x (y & <- & (l' & <- & Hl')%List.in_map_iff)%List.in_map_iff. split; [done|].
      rewrite List.Forall_forall in HB. destruct (HB l' Hl') as [_ Hd]. by apply decodeSigned_spec in Hd as (f & ? & _ & ?); exists f.
    + intros _. rewrite !map_map. apply (nodup_length _ [p; q]); [apply NoDup_remove_dups|].
      intros x Hx. rewrite elem_of_remove_dups in Hx. apply list_elem_of_fmap in Hx as (l' & -> & Hl').
      change (sender (SealCosign.as_relay_leaf (cborDecode env) (frontier_leaf l'))) with (sender l'). by apply Hin.
Qed.

End Cosigners.
End SealHandover.
