(* ===== verification/SealNotaryDemo.v ===== *)
(** A directory on concrete functions: a conversation that both parties close, the same one
    closed by one of them alone, and what a bad signature and a seal after a seal
    leave behind.  The theorems about seals and receipts at these runs. *)
From S2P Require Import Prelude Text JsMap Effects Bytes Wire SealChain Merkle SealChainTheorems SealFinalRoot SealCosign SealLegibility.
From S2P Require Import SealLegibilityTheorems SealNotary SealNotaryInvariant SealNotaryTheorems SealHandover.
From S2P Require Import Relay RelaySession RelaySessionInvariant RelaySessionTheorems RelaySessionDemo.
Import Text JsMap Effects Bytes Wire SealChain Merkle SealChainTheorems SealFinalRoot SealLegibility.
Import SealLegibilityTheorems SealNotary SealNotaryInvariant SealNotaryTheorems SealNotaryRetry SealHandover.

Module SealNotaryDemo.

Abbreviation alice := RelaySessionDemo.alice.
Abbreviation bob := RelaySessionDemo.bob.
Abbreviation sid := RelaySessionDemo.sid.
Abbreviation genesis := RelaySessionDemo.genesis.
Abbreviation h := RelaySessionDemo.h.
Abbreviation s1 := RelaySessionDemo.s1.

Definition fit (n : nat) (s : string) : bytes := str_take n (s +:+ zeros n).

Definition sg (pk msg : bytes) : bytes := pk +:+ fit 32 msg.

(** * The leaves *)

Definition closing (payload : bytes) : bytes := sealContentHash (fit 32) payload.

Definition decode1 (cbor : bytes) : option jsval :=
  jget [("a1", s1 alice (h "1") 0 genesis genesis);
        ("b1", s1 bob (h "2") 1 (h "1") genesis);
        ("ac", s1 alice (closing "pa") 2 (h "2") (h "1"));
        ("bc", s1 bob (closing "pb") 3 (closing "pa") (h "2"))] cbor.

(** A node of 32 bytes. *)
Definition short_node (a b : bytes) : bytes := fit 32 ("(" +:+ str_take 15 a +:+ str_take 15 b +:+ ")").

Definition tree_of (nd : bytes → bytes → bytes) (ls : list (leaf_kind * bytes)) : bytes :=
  default EmptyString (stack_root nd (push_all nd [] (map snd ls))).

Definition root_before (ls : list RelaySealLeaf) : bytes :=
  match ls with [] => genesis | _ => tree_of short_node (map (λ l, (kind l, content_hash (s2 l))) ls) end.

Definition next (ls : list RelaySealLeaf) (k : leaf_kind) (pk : bytes) (name : string) (content : bytes) (payload : option bytes)
    : list RelaySealLeaf :=
  ls ++ [mkLeaf k (mkS2 (Z.of_nat (length ls) + 1) pk content (sg pk name) (root_before ls)) name payload].

Definition talk : list RelaySealLeaf := next (next [] msg alice "a1" (h "1") None) msg bob "b1" (h "2") None.
Definition solo : list RelaySealLeaf := next talk ctrl alice "ac" (closing "pa") (Some "pa").
Definition both_closed : list RelaySealLeaf := next solo ctrl bob "bc" (closing "pb") (Some "pb").

(** Leaf [l] as its envelope carries it, under the name of its signed bytes. *)
Definition structure2_of (l : RelaySealLeaf) : jsval :=
  VArr [VNum (JInt (sequence_number (s2 l))); VBytes (sender_pubkey (s2 l)); VBytes (content_hash (s2 l));
        VBytes (sender_signature (s2 l)); VUndef; VBytes (prev_root (s2 l))].

Definition decode (cbor : bytes) : option jsval :=
  match decode1 cbor with
  | Some v => Some v
  | None => jget (map (λ l, ("2:" +:+ structure1_cbor l, structure2_of l)) both_closed) cbor
  end.

Definition relay_pk : bytes := from_hex RelaySessionDemo.relay_hex.

Definition wire_of (l : RelaySealLeaf) : SealUnilateralLeaf :=
  mkWireLeaf (JInt (sequence_number (s2 l))) (JInt (match kind l with msg => 0 | ctrl => 2 | doc => 3 | reject => 4 end))
    ("2:" +:+ structure1_cbor l) (structure1_cbor l) (Some RelaySessionDemo.relay_hex) (Some (JInt 5))
    (Some (sg relay_pk (content_hash (s2 l)))) None.

(** * The directory *)

Definition notary_of (vf : bytes → bytes → bytes → bool) (dec : bytes → option jsval) (nd : bytes → bytes → bytes)
    : NotaryEnv := {|
  clock := λ t, (Z.of_nat t * 10000000)%Z;
  verify := vf;
  verifyFrost := λ sig _ pk, bool_decide (sig = "by " +:+ pk);
  sha256 := fit 32;
  cborDecode := dec;
  encodeCbor := λ _, "tbs";
  encodeStructure2 := content_hash;
  merkle_tree_root := tree_of nd;
  leaf_hasher := λ _ b, b;
  nodeHash := nd;
  hash_tree_root := sjoin;
  buildRelayAckTbs := λ ch _ _, ch;
  decodeSealPayload := λ p, jget [("pa", mkPayload sid (h "1" +:+ h "2")); ("pb", mkPayload sid (h "1" +:+ h "2"))] p;
  buildSealTbs := λ sid root _ _, sid +:+ root;
  node_sign := λ _ tbs, Some ("node:" +:+ tbs);
  profile := λ _ who, Some (jget [(hex alice, "GA"); (hex bob, "GB")] who);
  relay_liveness := λ _ _, Some GoneAway;
  presence := λ _ _, (false, None);
  manifest_nodes := [];
  nodeId := "n1";
  write_fate := λ _, Works;
  reads := λ _, true;
  send_works := λ _, true;
  mmr_configured := true;
  deliveryGraceSeconds := 600;
  highStakesGraceSeconds := 3600;
|}.

Definition env : NotaryEnv := notary_of (λ pk msg sig, bool_decide (sig = sg pk msg)) decode short_node.

Definition data : RelaySealData := mkSealData both_closed (structure2_root env both_closed).

Definition open (highStakes : bool) : list input :=
  [Assigned sid (hex alice) (hex bob) highStakes; Connected (hex alice)].

Definition bilateral_run : list input := open false ++ [SealSubmitted sid data; FrostSigned (hex alice) sid "by GA"].

Definition ask (r : nat) : input :=
  UnilateralAsked r (hex alice) (mkUnilateral sid (content_root env solo) (Some (map wire_of solo))).

Definition asked_run : list input := open true ++ [ask 0; LivenessKnown 0].

Definition unilateral_run : list input := asked_run ++ [FrostSigned (hex alice) sid "by GA"].

Definition no_row : SealNotarization := mkNotarization "" "" "" "" 0 "" bilateral None None None None.

Definition row (i : nat) (inputs : list input) : SealNotarization := default no_row (rows (run env initial inputs) !! i).

Example bilateral_run_rows :
  map (λ n, (seal_type n, signer_pubkey n, leaf_count n)) (rows (run env initial bilateral_run)) = [(bilateral, Some "GA", Some 4%Z)].
Proof. vm_compute. reflexivity. Qed.

Example unilateral_run_rows :
  map (λ n, (seal_type n, signer_pubkey n, leaf_count n)) (rows (run env initial unilateral_run)) = [(unilateral, Some "GA", Some 3%Z)].
Proof. vm_compute. reflexivity. Qed.

(** A session that both parties closed can still be sealed by one of them alone, with the
    other one recorded as absent. *)
Example sealed_twice :
  let w := run env initial (bilateral_run ++ [ask 0; LivenessKnown 0; FrostSigned (hex alice) sid "by GA"]) in
  map seal_type (rows w) = [bilateral; unilateral] ∧
  map (λ c, (cv_type c, map snd (cv_parties c))) (conversationSeals w) =
    [(bilateral, [DELIVERED; DELIVERED]); (unilateral, [DELIVERED; ABSENT])].
Proof. vm_compute. split; reflexivity. Qed.

(** The absent party comes back and acknowledges the root; the row it replaces stays. *)
Definition upgrade_run : list input :=
  unilateral_run ++ [UpgradeAsked (hex bob) (mkUpgrade sid bob (sg bob "tbs") (JInt 9)); CertificateAsked (hex bob) sid].

Example upgrade_run_rows :
  let w := run env initial upgrade_run in
  map (λ n, (seal_type n, supersedes n)) (rows w) = [(unilateral, None); (bilateral, Some 1)] ∧
  map (λ e, match e.2 with FUpgradeConfirmed _ _ n _ _ _ _ _ _ => Some n | _ => None end) (queued w) =
    [None; Some (JInt 9)] ∧
  last (sent w) = Some (hex bob, FCertificate (row 0 upgrade_run)).
Proof. vm_compute. split_and!; reflexivity. Qed.

(** Two requests that both wait for the relay are both granted. *)
Example granted_twice :
  let w := run env initial (open false ++ [ask 0; ask 1; LivenessKnown 0; LivenessKnown 1]) in
  length (List.filter (λ e, match e.2 with FSealVerified _ _ _ _ None _ => true | _ => false end) (sent w)) = 2.
Proof. vm_compute. reflexivity. Qed.

(** * The theorems at these runs *)

Lemma row_in i inputs : i < length (rows (run env initial inputs)) → row i inputs ∈ rows (run env initial inputs).
Proof.
  intros Hi. unfold row. destruct (rows (run env initial inputs) !! i) as [n|] eqn:E; [by apply list_elem_of_lookup_2 in E|].
  apply lookup_ge_None in E. lia.
Qed.

Lemma tree_of_rfc nd ls : ls ≠ [] → tree_of nd ls = mth nd (map snd ls).
Proof.
  intros Hne. unfold tree_of. rewrite (represents_root nd _ (map snd ls)); [done|apply represents_push_all|by destruct ls].
Qed.

Lemma notary_rfc vf dec nd : tree_is_rfc6962 (notary_of vf dec nd).
Proof. intros ls Hne. by apply tree_of_rfc. Qed.

Lemma bilateral_rows_are_closed_witness :
  let n := row 0 bilateral_run in
  seal_type n = bilateral ∧ known_pair (run env initial (open false)) (hex sid) = Some (hex alice, hex bob) ∧
  (upgrade_row env bilateral_run n ∨
   ∃ root ls before after, bilateral_run = before ++ SealSubmitted sid (mkSealData ls root) :: after ∧
     closed_by_both env sid ls ∧ n_sealed_root n = hash_tree_root env (map (λ l, content_hash (s2 l)) ls) ∧
     (known_pair (run env initial before) (hex sid) = Some (hex alice, hex bob) →
        {[participant_a_pubkey n; participant_b_pubkey n]} =@{gset bytes} {[from_hex (hex alice); from_hex (hex bob)]})).
Proof.
  split; [vm_compute; reflexivity|]. split; [vm_compute; reflexivity|].
  destruct (bilateral_rows_are_closed env bilateral_run (row 0 bilateral_run)) as
    [H|(root & ls & before & after & g & l & Hin & Hc & _ & _ & _ & Hr & _ & Hk & _)].
  - apply row_in. vm_compute. lia.
  - vm_compute. reflexivity.
  - left. exact H.
  - assert (n_session_id (row 0 bilateral_run) = sid) as Es by (vm_compute; reflexivity). rewrite Es in Hin, Hc, Hk.
    right. exists root, ls, before, after. split; [exact Hin|]. split; [exact Hc|]. split; [exact Hr|].
    intros Ek. destruct (Hk _ _ Ek) as [Hp _]. exact Hp.
Defined.

Lemma unilateral_rows_are_granted_witness :
  let n := row 0 unilateral_run in
  seal_type n = unilateral ∧
  ∃ present absentee att, grantable env unilateral_run (n_session_id n) present absentee (close_timestamp n) att.
Proof.
  split; [vm_compute; reflexivity|].
  destruct (unilateral_rows_are_granted env unilateral_run (row 0 unilateral_run)) as (p & a & att & ls & _ & _ & Hg & _).
  - apply row_in. vm_compute. lia.
  - vm_compute. reflexivity.
  - exists p, a, att. exact Hg.
Defined.

Definition last_queued (inputs : list input) : string * frame :=
  default (EmptyString, FCertificateError EmptyString) (last (queued (run env initial inputs))).

Lemma last_queued_in inputs e : last (queued (run env initial inputs)) = Some e → e ∈ sent (run env initial inputs) ++ queued (run env initial inputs).
Proof. intros E. apply elem_of_app. right. by apply last_Some_elem_of in E. Qed.

Lemma frames_are_justified_witness :
  (last_queued unilateral_run).1 = hex bob ∧ frame_ok env unilateral_run (hex bob) (last_queued unilateral_run).2.
Proof.
  split; [vm_compute; reflexivity|]. apply (frames_are_justified env unilateral_run). apply last_queued_in.
  vm_compute. reflexivity.
Defined.

Lemma chain_checks_agree_witness :
  (∃ c, chain_loop (verify env) (cborDecode env) (encodeStructure2 env) (leaf_hasher env) (nodeHash env) []
          (mkChain [] (initial_root both_closed) []) both_closed = Ok c) ∧ self_linked env both_closed.
Proof.
  assert (∃ c, chain_loop (verify env) (cborDecode env) (encodeStructure2 env) (leaf_hasher env) (nodeHash env) []
          (mkChain [] (initial_root both_closed) []) both_closed = Ok c) as H by (eexists; vm_compute; reflexivity).
  split; [exact H|]. apply (chain_checks_agree env both_closed); [apply notary_rfc|exact H].
Defined.

Definition pending_of (inputs : list input) : PendingFrostSeal :=
  default (mkPending "" "" "" "" 0 0 "" None (mkLegibility [] (mkFinal "" 0 false) (JInt 0)) [])
    (jget (pendingFrostSeals (run env initial inputs)) (hex sid)).

Lemma bad_signature_is_final_witness :
  let more := open true ++ [ask 1; LivenessKnown 1; FrostSigned (hex alice) sid "by GA"] in
  p_attestation (pending_of asked_run) ≠ None ∧
  ∀ n, n ∈ rows (run env (run env initial asked_run) (FrostSigned (p_initiatorHex (pending_of asked_run)) sid "forged" :: more)) →
    n_session_id n = sid → seal_type n = unilateral → n ∈ rows (run env initial asked_run).
Proof.
  split; [vm_compute; discriminate|].
  apply (bad_signature_is_final env asked_run).
  - vm_compute. reflexivity.
  - vm_compute. discriminate.
  - intros r a E. assert (asking (run env initial asked_run) = []) as E' by (vm_compute; reflexivity). rewrite E' in E. discriminate E.
  - reflexivity.
  - set_solver.
Defined.

(** The leaves of the relay's own demonstration. *)
Definition env_of_relay : NotaryEnv :=
  notary_of (RelaySession.verify RelaySessionDemo.signing) (RelaySession.cborDecode RelaySessionDemo.signing) RelaySessionDemo.node.

Lemma handover_passes_the_chain_witness :
  let ls := RelaySession.sd_leaves RelaySessionDemo.handed_data in
  length ls = 2 ∧ structure2_root env_of_relay ls = RelaySession.sd_merkle_root RelaySessionDemo.handed_data.
Proof.
  split; [vm_compute; reflexivity|].
  apply (handover_passes_the_chain RelaySessionDemo.signing env_of_relay) with
    (inputs := RelaySessionDemo.talk) (sid := sid) (r' := RelaySessionDemo.handed.1).
  - split; reflexivity.
  - apply notary_rfc.
  - apply RelaySessionDemo.demo_builds.
  - vm_compute. reflexivity.
  - vm_compute. discriminate.
Defined.

Definition judged : SealLegibility * RelaySealLeaf :=
  match judge env sid data (Some (alice, bob)) with
  | Ok r => r
  | Err _ => (mkLegibility [] (mkFinal "" 0 false) (JInt 0), mkLeaf msg (mkS2 0 "" "" "" "") "" None)
  end.

Lemma fit_length n s : String.length (fit n s) = n.
Proof. unfold fit. apply str_take_length. rewrite str_app_length, zeros_length. lia. Qed.

Lemma judged_seal_is_cosigned_witness :
  judge env sid data (Some (alice, bob)) = Ok judged ∧
  SealCosign.verifySealCosignEvidence (verify env) (cborDecode env) (hash_tree_root env) (decodeSealPayload env) (sha256 env)
    (buildSealTbs env)
    (SealCosign.SEAL_FROST_CONTEXT +:+ String (Ascii.ascii_of_nat 0) (bilateral_tbs env sid (content_root env both_closed) 4 77 judged.1))
    (VArr (map wire_leaf (map frontier_leaf both_closed))) (VNum (JInt 77)) = Ok tt.
Proof.
  split; [vm_compute; reflexivity|].
  apply (judged_seal_is_cosigned env sid data (Some (alice, bob)) judged.1 judged.2 77).
  - apply fit_length.
  - vm_compute. reflexivity.
Defined.

(** ** Receipts *)

Definition receipt : SealLegibility := judged.1.

Lemma frontiers_are_signed_witness :
  buildSealLegibility decode both_closed [] = Some receipt ∧ map pubkey (participants receipt) = [alice; bob] ∧
  NoDup (map pubkey (participants receipt)).
Proof.
  split; [vm_compute; reflexivity|]. split; [vm_compute; reflexivity|].
  apply (frontiers_are_signed decode both_closed [] receipt). vm_compute. reflexivity.
Defined.

Lemma both_numbered : numbered both_closed.
Proof. intros i l E. destruct i as [|[|[|[|]]]]; cbn in E; simplify_eq; reflexivity. Qed.

Lemma answered_spec_witness :
  f_sender_pubkey (final_message receipt) = bob ∧ answered (final_message receipt) = false.
Proof.
  split; [vm_compute; reflexivity|].
  destruct (answered_spec decode both_closed [] receipt) as [[_ H]|(k & final & _ & _ & _ & _ & _ & H)].
  - exact both_numbered.
  - vm_compute. reflexivity.
  - exact H.
  - destruct (answered (final_message receipt)); [|reflexivity]. destruct (proj1 H eq_refl) as [E _]. vm_compute in E. discriminate E.
Defined.

Lemma receipt_fits : fits receipt.
Proof.
  assert (participants receipt = [mkParticipant alice (JInt 2) 3 live; mkParticipant bob (JInt 3) 4 live]) as E by (vm_compute; reflexivity).
  split.
  - rewrite E. cbn. unfold u32. lia.
  - rewrite E. intros p [->|[->|?%not_elem_of_nil]%elem_of_cons]%elem_of_cons; [| |done].
    all: split; [reflexivity|]; (split; [eexists; split; [reflexivity|]|]); unfold u32; cbn; lia.
  - vm_compute. reflexivity.
  - vm_compute. split; [discriminate|reflexivity].
Qed.

Lemma receipt_binding_witness :
  fits receipt ∧
  ∀ g, fits g → bindLegibilityToTbs (fit 32) "tbs" (Some receipt) = bindLegibilityToTbs (fit 32) "tbs" (Some g) →
  (participants receipt = participants g ∧ final_message receipt = final_message g) ∨
  (canonicalLegibilityBytes receipt ≠ canonicalLegibilityBytes g ∧
   fit 32 (canonicalLegibilityBytes receipt) = fit 32 (canonicalLegibilityBytes g)).
Proof.
  split; [exact receipt_fits|]. intros g Hg E. apply (receipt_binding (fit 32) "tbs" "tbs" receipt g).
  - apply fit_length.
  - exact receipt_fits.
  - exact Hg.
  - reflexivity.
  - exact E.
Defined.

(** Two messages that crossed, neither read by the other party. *)
Definition crossed (cbor : bytes) : option jsval :=
  jget [("a1", s1 alice (h "1") 0 genesis genesis); ("b1", s1 bob (h "2") 0 genesis genesis)] cbor.

Definition crossed_receipt : SealLegibility :=
  default (mkLegibility [] (mkFinal "" 0 false) (JInt 0)) (buildSealLegibility crossed talk []).

Lemma countersigned_without_receipt_witness :
  map content_frontier_seq (participants crossed_receipt) = [JInt 0; JInt 0] ∧
  ∃ z, countersigned_through_seq crossed_receipt = JInt z ∧ (1 <= z)%Z.
Proof.
  split; [vm_compute; reflexivity|].
  apply (countersigned_without_receipt crossed talk [] crossed_receipt 1).
  - discriminate.
  - intros l n Hl El. apply list_elem_of_lookup in Hl as [[|[|]] Hl]; cbn in Hl; simplify_eq; vm_compute in El; by injection El as <-.
  - vm_compute. reflexivity.
  - intros l Hl. exists l. split; [exact Hl|]. split; [reflexivity|].
    apply list_elem_of_lookup in Hl as [[|[|]] Hl]; cbn in Hl; simplify_eq; vm_compute; discriminate.
Defined.

End SealNotaryDemo.
