(* ===== verification/FrostShares.v ===== *)
(** Custody of a directory's threshold shares: the in-memory store, the table of
    encrypted shares, what is written there and read back, and the epoch numbers
    in the names.  share-store.ts, persistent-share-store.ts,
    encrypted-share-store.ts. *)
From Stdlib Require Import Ascii.
From S2P Require Import Prelude Text JsMap Bytes Wire.
Import Text JsMap Bytes Wire.

Module FrostShares.

(** * Shares

    The parts of a share are objects of the FROST package, which the store treats
    as values; [secret_value] and [public_value] give their fields. *)

Record LocalShare := mkShare { secret : jsval; pub : jsval }.

Definition secret_value (identifier : string) (signingShare : bytes) : jsval :=
  VObj [("identifier", VStr identifier); ("signingShare", VBytes signingShare)].

Record Signers := mkSigners { min : jsnum; max : jsnum }.

Definition signers_value (s : Signers) : jsval := VObj [("min", VNum (min s)); ("max", VNum (max s))].

Definition public_value (signers : Signers) (commitments : list bytes) (verifyingShares : list (string * bytes)) : jsval :=
  VObj [("signers", signers_value signers);
        ("commitments", VArr (map VBytes commitments));
        ("verifyingShares", VObj (map (λ e, (e.1, VBytes e.2)) verifyingShares))].

(** [obj.k] of a value that may not be an object. *)
Definition prop (k : string) (v : jsval) : jsval := match v with VObj fs => field k fs | _ => VUndef end.

(** [new Uint8Array(pub.commitments[0])], the group's public key. *)
Definition group_key (p : jsval) : bytes :=
  match prop "commitments" p with VArr l => default EmptyString (as_bytes (at_index l 0)) | _ => EmptyString end.

(** * Epoch numbers *)

(** The double nearest to a natural number, ties to even; infinity is 2^1024, which is
    above every finite one. *)
Definition round_double (n : Z) : Z :=
  let e := (Z.log2 n - 52)%Z in
  if (e <=? 0)%Z then n
  else
    let m := Z.shiftr n e in
    let r := (n - Z.shiftl m e)%Z in
    let half := Z.shiftl 1 (e - 1) in
    let m' := if (r <? half)%Z then m else if (half <? r)%Z then (m + 1)%Z else if Z.even m then m else (m + 1)%Z in
    Z.min (Z.shiftl m' e) (2 ^ 1024).

Definition digits_value (l : list ascii) : Z :=
  foldl (λ acc c, acc * 10 + (Z.of_N (N_of_ascii c) - 48))%Z 0%Z l.

(** [parseInt(digits, 10)] *)
Definition parseInt10 (digits : list ascii) : Z := round_double (digits_value digits).

(** The longest prefix of characters with a property, and the rest. *)
Fixpoint span {A} (p : A → bool) (l : list A) : list A * list A :=
  match l with
  | [] => ([], [])
  | x :: r => if p x then let '(a, b) := span p r in (x :: a, b) else ([], l)
  end.

Fixpoint strip_list (p l : list ascii) : option (list ascii) :=
  match p, l with
  | [], _ => Some l
  | a :: p, b :: l => if bool_decide (a = b) then strip_list p l else None
  | _, _ => None
  end.

Definition epoch_mark : list ascii := rev (String.list_ascii_of_string ":epoch:").

(** [/:epoch:(\d+)$/]: what is before the match, from the end, and the number. *)
Definition epoch_suffix (s : string) : option (list ascii * Z) :=
  let '(ds, rest) := span is_digit (rev (String.list_ascii_of_string s)) in
  match ds with
  | [] => None
  | _ => pre ← strip_list epoch_mark rest; Some (pre, parseInt10 (rev ds))
  end.

(** No line terminator, as [.] wants it: \n, \r, U+2028, U+2029 (in UTF-8; the
    characters come from the end). *)
Fixpoint one_line (l : list ascii) : bool :=
  match l with
  | [] => true
  | c :: r =>
      let n := N_of_ascii c in
      negb (n =? 10)%N && negb (n =? 13)%N &&
      negb (((n =? 168) || (n =? 169))%N &&
            match r with a :: b :: _ => (N_of_ascii a =? 128)%N && (N_of_ascii b =? 226)%N | _ => false end) &&
      one_line r
  end.

(** [/^.*:epoch:(\d+)$/] *)
Definition parseEpochN (epochId : string) : option Z :=
  '(pre, n) ← epoch_suffix epochId; if one_line pre then Some n else None.

(** * InMemoryShareStore *)

Definition memory_store : Type := jsmap string LocalShare.

(** [`${agentPubkey}:${epochId}`] *)
Definition key_of (agentPubkey epochId : string) : string := agentPubkey +:+ ":" +:+ epochId.

Definition getShare (m : memory_store) (agentPubkey epochId : string) : option LocalShare :=
  jget m (key_of agentPubkey epochId).

Definition storeShare (m : memory_store) (agentPubkey epochId : string) (share : LocalShare) : memory_store :=
  jset m (key_of agentPubkey epochId) share.

Definition of_agent (agentPubkey key : string) : bool := String.prefix (agentPubkey +:+ ":") key.

Definition max_step (agentPubkey : string) (max : option Z) (key : string) : option Z :=
  if negb (of_agent agentPubkey key) then max
  else
    match epoch_suffix key with
    | None => max
    | Some (_, n) => match max with Some m => if (m <? n)%Z then Some n else max | None => Some n end
    end.

Definition getMaxEpoch (m : memory_store) (agentPubkey : string) : option Z :=
  foldl (max_step agentPubkey) None (jkeys m).

Definition destroy_memory (m : memory_store) (agentPubkey : string) : memory_store :=
  List.filter (λ e, negb (of_agent agentPubkey e.1)) m.

(** * Uint8Arrays through JSON *)

Definition replacer (v : jsval) : jsval :=
  match v with
  | VBytes b => VObj [("__type", VStr "Uint8Array"); ("hex", VStr (hex b))]
  | v => v
  end.

(** The value whose text [JSON.stringify(v, replacer)] is: the replacer sees every value
    before its parts. *)
Fixpoint replaced (v : jsval) : jsval :=
  match v with
  | VArr l => VArr (map replaced l)
  | VObj fs => VObj (map (λ e, (e.1, replaced e.2)) fs)
  | v => replacer v
  end.

Definition isLegacyUint8ArrayObject (fs : list (string * jsval)) : bool :=
  negb (bool_decide (fs = [] )) && forallb (λ e, all_chars is_digit e.1 && negb (bool_decide (e.1 = EmptyString))) fs.

Section Store.
(** What storing a value of any kind in an element of a [Uint8Array] leaves there. *)
Variable element_of : jsval → ascii.
(** [new TextEncoder().encode(JSON.stringify(v))], and [JSON.parse] after a strict UTF-8
    decoding, which may throw. *)
Variable json_text : jsval → bytes.
Variable json_value : bytes → option jsval.
(** The envelope provider; a call is named by its place among the calls that leave the
    process. *)
Variable encrypt : nat → bytes → string → option bytes.
Variable decrypt : nat → bytes → string → option bytes.

Definition legacyToUint8Array (fs : list (string * jsval)) : bytes :=
  String.string_of_list_ascii (map (λ i, element_of (field (pretty (Z.of_nat i)) fs)) (seq 0 (length fs))).

Definition reviver (v : jsval) : jsval :=
  match v with
  | VObj fs =>
      match field "__type" fs, field "hex" fs with
      | VStr "Uint8Array", VStr h => VBytes (hex_prefix h)
      | _, _ => if isLegacyUint8ArrayObject fs then VBytes (legacyToUint8Array fs) else v
      end
  | v => v
  end.

(** [JSON.parse(text, reviver)] of the text of a value: parts first. *)
Fixpoint revived (v : jsval) : jsval :=
  match v with
  | VArr l => reviver (VArr (map revived l))
  | VObj fs => reviver (VObj (map (λ e, (e.1, revived e.2)) fs))
  | v => reviver v
  end.

Definition serializeSecret (share : LocalShare) : bytes :=
  json_text (replaced (VObj [("secret", secret share); ("pub", pub share)])).

(** [typeof v === "object"] of a value that is not null. *)
Definition is_object (v : jsval) : bool :=
  match v with VObj _ | VArr _ | VBytes _ => true | _ => false end.

(** What [loadShares] makes of the bytes of a row. *)
Definition deserialize (plaintext : bytes) : option LocalShare :=
  v ← json_value plaintext;
  match revived v with
  | VObj record =>
      if is_object (field "secret" record) && is_object (field "pub" record)
      then Some (mkShare (field "secret" record) (field "pub" record)) else None
  | _ => None
  end.

(** * EncryptedPgShareStore *)

Record Row := mkRow { encrypted_share : bytes; key_version : string }.

(** agent_key_shares; (agent_id, epoch_id) is unique. *)
Definition share_table : Type := jsmap (string * string) Row.

Definition MIN_AEAD_OVERHEAD_BYTES : nat := 28.

(** The bytes that are written for a share, unless encryption fails or its output cannot
    be a ciphertext. *)
Definition encrypt_share (t : nat) (agentId epochId : string) (shareBytes : bytes) : option bytes :=
  ciphertext ← encrypt t shareBytes (key_of agentId epochId);
  if (String.length ciphertext =? 0)%nat || bool_decide (ciphertext = shareBytes)
     || (String.length ciphertext <? String.length shareBytes + MIN_AEAD_OVERHEAD_BYTES)%nat
  then None else Some ciphertext.

(** [INSERT … ON CONFLICT DO UPDATE] *)
Definition insert_row (tb : share_table) (agentId epochId : string) (ciphertext : bytes) : share_table :=
  jset tb (agentId, epochId) (mkRow ciphertext "v1").

(** [UPDATE … SET encrypted_share = ''] *)
Definition zero_rows (tb : share_table) (agentId : string) : share_table :=
  map (λ e, if bool_decide (e.1.1 = agentId) then (e.1, mkRow EmptyString "burned") else e) tb.

(** * PersistentShareStore.loadShares *)

(** The memory after a start and the number of rows that held no share; a row that cannot
    be decrypted is passed over. *)
Definition load_row (t : nat) (acc : memory_store * nat) (e : (string * string) * Row) : memory_store * nat :=
  match decrypt t (encrypted_share e.2) (key_of e.1.1 e.1.2) with
  | None => acc
  | Some plaintext =>
      match deserialize plaintext with
      | Some share => (storeShare acc.1 e.1.1 e.1.2 share, acc.2)
      | None => (acc.1, S acc.2)
      end
  end.

Fixpoint loadShares (t : nat) (tb : share_table) (acc : memory_store * nat) : memory_store * nat :=
  match tb with [] => acc | e :: r => loadShares (S t) r (load_row t acc e) end.

End Store.
End FrostShares.
