(* ===== verification/FrostSharesTheorems.v ===== *)
(** What is stored of a share is read back, epochs are read from names, and what the
    in-memory store holds of an agent. *)
From Stdlib Require Import Ascii.
From S2P Require Import Prelude Text JsMap Bytes Wire FrostShares.
Import Text JsMap Bytes Wire FrostShares.

Module FrostSharesTheorems.

(** * Names and epochs *)

Lemma prefix_app a b : String.prefix a (a +:+ b) = true.
Proof. induction a as [|c a IH]; [by destruct b|]. rewrite str_app_cons. cbn. by destruct (ascii_dec c c). Qed.

Lemma of_agent_key a e : of_agent a (key_of a e) = true.
Proof. unfold of_agent, key_of. rewrite <- str_app_assoc. apply prefix_app. Qed.

Lemma list_ascii_app a b :
  String.list_ascii_of_string (a +:+ b) = String.list_ascii_of_string a ++ String.list_ascii_of_string b.
Proof. induction a as [|c a IH]; [done|]. rewrite str_app_cons. cbn. by rewrite IH. Qed.

Lemma span_app {A} (p : A → bool) l x r l' :
  span p l = (l', x :: r) → ∀ m, span p (l ++ m) = (l', x :: r ++ m).
Proof.
  revert l'. induction l as [|y l IH]; intros l' E m; [done|]. cbn in *. destruct (p y).
  - destruct (span p l) as [a b] eqn:Es. injection E as <- ->. by rewrite (IH a eq_refl).
  - by injection E as <- -> ->.
Qed.

Lemma strip_list_app p l r m : strip_list p l = Some r → strip_list p (l ++ m) = Some (r ++ m).
Proof.
  revert l. induction p as [|c p IH]; intros [|b l] E; cbn in *; try done; [by injection E as <-|by injection E as <-|].
  case_bool_decide; [by apply IH|done].
Qed.

(** Text before a name does not change its epoch number. *)
Lemma epoch_suffix_app s e pre n :
  epoch_suffix e = Some (pre, n) → ∃ pre', epoch_suffix (s +:+ e) = Some (pre', n).
Proof.
  unfold epoch_suffix. rewrite list_ascii_app, rev_app_distr.
  destruct (span is_digit (rev (String.list_ascii_of_string e))) as [ds rest] eqn:E.
  destruct ds as [|d ds]; [done|]. destruct rest as [|x rest]; [done|]. rewrite (span_app _ _ _ _ _ E).
  destruct (strip_list epoch_mark (x :: rest)) as [pre0|] eqn:Es; [|done]. cbn [mbind option_bind].
  intros H. rewrite app_comm_cons, (strip_list_app _ _ _ _ Es). cbn [mbind option_bind].
  assert (parseInt10 (rev (d :: ds)) = n) as -> by congruence. by eexists.
Qed.

Lemma parseEpochN_suffix e n : parseEpochN e = Some n → ∃ pre, epoch_suffix e = Some (pre, n).
Proof.
  unfold parseEpochN. destruct (epoch_suffix e) as [[pre m]|]; [|done]. cbn. destruct (one_line pre); [|done].
  intros [= ->]. by exists pre.
Qed.

Lemma key_epoch a e n : parseEpochN e = Some n → ∃ pre, epoch_suffix (key_of a e) = Some (pre, n).
Proof.
  intros [pre E]%parseEpochN_suffix. unfold key_of. destruct (epoch_suffix_app ":" e pre n E) as [pre' E'].
  exact (epoch_suffix_app a _ pre' n E').
Qed.

(** The highest epoch is at least that of any name of the agent. *)
Lemma max_step_ge a mx k x : mx = Some x → ∃ y, max_step a mx k = Some y ∧ (x <= y)%Z.
Proof.
  intros ->. unfold max_step. destruct (of_agent a k); cbn [negb]; [|by exists x].
  destruct (epoch_suffix k) as [[pre n]|]; [|by exists x].
  destruct (x <? n)%Z eqn:E; [exists n|exists x]; (split; [done|]); bools; lia.
Qed.

Lemma max_fold_ge a l mx x : mx = Some x → ∃ y, foldl (max_step a) mx l = Some y ∧ (x <= y)%Z.
Proof.
  revert mx x. induction l as [|k l IH]; intros mx x E; [by exists x|]. cbn.
  destruct (max_step_ge a mx k x E) as (y & Ey & Hy). destruct (IH _ _ Ey) as (z & Ez & Hz). exists z. split; [done|lia].
Qed.

Lemma getMaxEpoch_ge m a k pre n :
  k ∈ jkeys m → of_agent a k = true → epoch_suffix k = Some (pre, n) → ∃ x, getMaxEpoch m a = Some x ∧ (n <= x)%Z.
Proof.
  unfold getMaxEpoch. generalize (@None Z). induction (jkeys m) as [|q l IH]; intros mx Hin Ha He; [by apply not_elem_of_nil in Hin|].
  apply elem_of_cons in Hin as [<-|Hin]; [|by apply IH]. cbn [foldl].
  assert (∃ y, max_step a mx k = Some y ∧ (n <= y)%Z) as (y & Ey & Hy).
  { unfold max_step. rewrite Ha, He. cbn [negb]. destruct mx as [m0|]; [|by exists n].
    destruct (m0 <? n)%Z eqn:E; [exists n|exists m0]; (split; [done|]); bools; lia. }
  destruct (max_fold_ge a l _ _ Ey) as (x & Ex & Hx). exists x. split; [done|lia].
Qed.

Lemma getMaxEpoch_held m a e share n :
  getShare m a e = Some share → parseEpochN e = Some n → ∃ x, getMaxEpoch m a = Some x ∧ (n <= x)%Z.
Proof.
  intros Hs He. destruct (key_epoch a e n He) as [pre Hk]. eapply getMaxEpoch_ge; [|apply of_agent_key|exact Hk].
  apply jget_elem in Hs. by apply (list_elem_of_fmap_2 fst) in Hs.
Qed.

(** Storing under an epoch makes it count. *)
Lemma getShare_stored m a e share : getShare (storeShare m a e share) a e = Some share.
Proof. apply jget_jset_eq. Qed.

(** * Through JSON and back *)

(** Induction on values with their parts. *)
Section Induction.
Variable P : jsval → Prop.
Hypothesis Hleaf : ∀ v, match v with VArr _ | VObj _ => False | _ => True end → P v.
Hypothesis Harr : ∀ l, Forall P l → P (VArr l).
Hypothesis Hobj : ∀ fs, Forall (λ e, P e.2) fs → P (VObj fs).

Fixpoint jsval_parts (v : jsval) : P v :=
  match v with
  | VArr l => Harr l ((fix go l := match l return Forall P l with [] => @List.Forall_nil _ _ | x :: r => @List.Forall_cons _ _ x r (jsval_parts x) (go r) end) l)
  | VObj fs => Hobj fs ((fix go fs := match fs return Forall (λ e, P e.2) fs with [] => @List.Forall_nil _ _ | (k, x) :: r => @List.Forall_cons _ _ (k, x) r (jsval_parts x) (go r) end) fs)
  | VUndef => Hleaf VUndef I | VNull => Hleaf VNull I | VBool b => Hleaf (VBool b) I | VNum n => Hleaf (VNum n) I
  | VBig z => Hleaf (VBig z) I | VStr s => Hleaf (VStr s) I | VBytes b => Hleaf (VBytes b) I
  end.
End Induction.

Definition integer (n : jsnum) : bool := match n with JInt _ => true | _ => false end.

(** A name that JSON does not reorder: not an array index. *)
Definition plain_key (k : string) : bool := negb (all_chars is_digit k) || (10 <? String.length k)%nat.

Definition plain_fields (fs : list (string * jsval)) : bool :=
  bool_decide (NoDup (map fst fs)) && forallb (λ e, plain_key e.1) fs.

(** Values that JSON text carries as they are. *)
Fixpoint json_ok (v : jsval) : bool :=
  match v with
  | VNull | VBool _ | VStr _ => true
  | VNum n => integer n
  | VArr l => forallb json_ok l
  | VObj fs => plain_fields fs && forallb (λ e, json_ok e.2) fs
  | VUndef | VBig _ | VBytes _ => false
  end.

(** Values whose text carries everything, bytes being written as objects. *)
Fixpoint textual (v : jsval) : bool :=
  match v with
  | VNull | VBool _ | VStr _ | VBytes _ => true
  | VNum n => integer n
  | VArr l => forallb textual l
  | VObj fs => plain_fields fs && forallb (λ e, textual e.2) fs
  | VUndef | VBig _ => false
  end.

(** Values that come back: no object in them is taken for bytes. *)
Fixpoint storable (v : jsval) : bool :=
  match v with
  | VArr l => forallb storable l
  | VObj fs =>
      negb (isLegacyUint8ArrayObject fs) && (match field "__type" fs with VStr _ => false | _ => true end)
      && forallb (λ e, storable e.2) fs
  | _ => true
  end.

Lemma map_fst_snd {A B} (f : B → B) (l : list (A * B)) : map fst (map (λ e, (e.1, f e.2)) l) = map fst l.
Proof. rewrite map_map. by apply map_ext. Qed.

Lemma forallb_map {A B} (f : A → B) (p : B → bool) l : forallb p (map f l) = forallb (λ x, p (f x)) l.
Proof. induction l as [|x l IH]; [done|]. cbn. by rewrite IH. Qed.

Lemma replaced_json v : textual v = true → json_ok (replaced v) = true.
Proof.
  induction v as [v Hv|l IH|fs IH] using jsval_parts.
  - by destruct v.
  - cbn. intros H. rewrite forallb_map. rewrite forallb_forall in *. intros x Hx. rewrite List.Forall_forall in IH. auto.
  - cbn [textual replaced json_ok]. intros [H1 H2]%andb_true_iff.
    apply andb_true_iff. split.
    + unfold plain_fields in *. by rewrite map_fst_snd, forallb_map.
    + rewrite forallb_map. rewrite forallb_forall in *. intros x Hx. rewrite List.Forall_forall in IH. cbn. auto.
Qed.

Section RoundTrip.
Variable element_of : jsval → ascii.

Lemma revived_replaced v : storable v = true → revived element_of (replaced v) = v.
Proof.
  induction v as [v Hv|l IH|fs IH] using jsval_parts.
  - destruct v; try done. intros _. cbn -[hex_prefix hex]. unfold reviver. cbn [field map fst snd].
    repeat rewrite bool_decide_eq_true_2 by reflexivity. rewrite bool_decide_eq_false_2 by done.
    cbn -[hex_prefix hex]. rewrite bool_decide_eq_true_2 by done. by rewrite hex_prefix_hex.
  - cbn. intros H. f_equal. rewrite map_map. rewrite <- (map_id l) at 2. apply map_ext_in. intros x Hx.
    rewrite List.Forall_forall in IH. rewrite forallb_forall in H. auto.
  - cbn [storable replaced revived].
    intros [[H1 H2]%andb_true_iff H3]%andb_true_iff.
    assert (map (λ e : string * jsval, (e.1, revived element_of e.2)) (map (λ e, (e.1, replaced e.2)) fs) = fs) as ->.
    { rewrite map_map. rewrite <- (map_id fs) at 2. apply map_ext_in. intros [k x] Hx. cbn. f_equal.
      rewrite List.Forall_forall in IH. rewrite forallb_forall in H3. by apply (IH _ Hx), (H3 (k, x)). }
    unfold reviver. apply negb_true_iff in H1. rewrite H1. by destruct (field "__type" fs).
Qed.

(** ** A share of the usual shape *)

Variable json_text : jsval → bytes.
Variable json_value : bytes → option jsval.

(** [JSON.parse] reads what [JSON.stringify] wrote of a value. *)
Definition json_carries (v : jsval) : Prop := json_ok v = true → json_value (json_text v) = Some v.

Definition decimal_name (k : string) : bool := all_chars is_digit k && negb (bool_decide (k = EmptyString)).

Definition shape (identifier : string) (sk : bytes) (min max : Z) (commitments : list bytes)
    (verifyingShares : list (string * bytes)) : LocalShare :=
  mkShare (secret_value identifier sk) (public_value (mkSigners (JInt min) (JInt max)) commitments verifyingShares).

Definition names_ok (verifyingShares : list (string * bytes)) : Prop :=
  NoDup (map fst verifyingShares) ∧ Forall (λ e, plain_key e.1 = true ∧ e.1 ≠ "__type"%string) verifyingShares.

Abbreviation values := (map (λ e : string * bytes, (e.1, VBytes e.2))).

Lemma names_plain vs : names_ok vs → plain_fields (values vs) = true.
Proof.
  intros [Hn Hp]. unfold plain_fields. rewrite map_map. cbn. rewrite forallb_map. apply andb_true_iff. split.
  - by apply bool_decide_eq_true_2.
  - apply forallb_forall. intros x Hx. rewrite List.Forall_forall in Hp. by apply Hp.
Qed.

Lemma names_untyped vs : names_ok vs → field "__type" (values vs) = VUndef.
Proof.
  intros [_ Hp]. induction Hp as [|[k b] vs [_ Hk] _ IH]; [done|]. cbn. by rewrite bool_decide_eq_false_2.
Qed.

Lemma forallb_true {A} (p : A → bool) l : (∀ x, p x = true) → forallb p l = true.
Proof. intros Hp. by apply forallb_forall. Qed.

Lemma legacy_names vs :
  isLegacyUint8ArrayObject (map (λ e, (e.1, VBytes e.2)) vs) =
  negb (bool_decide (vs = [])) && forallb (λ e, decimal_name e.1) vs.
Proof.
  unfold isLegacyUint8ArrayObject. rewrite forallb_map. f_equal. f_equal. apply bool_decide_ext.
  destruct vs; cbn; split; congruence.
Qed.

Definition share_object (share : LocalShare) : jsval := VObj [("secret", secret share); ("pub", pub share)].

Lemma shape_textual i sk mn mx cs vs : names_ok vs → textual (share_object (shape i sk mn mx cs vs)) = true.
Proof.
  intros Hn. unfold share_object, shape, secret_value, public_value, signers_value.
  cbn [textual forallb secret pub min max integer fst snd].
  rewrite (names_plain vs) by done.
  rewrite !forallb_map, (forallb_true (λ x : string * bytes, textual (x.1, VBytes x.2).2)) by done.
  rewrite (forallb_true (λ x, textual (VBytes x))) by done. by vm_compute.
Qed.

(** Whether the verifying shares are an object whose names all are decimal numbers. *)
Definition all_decimal (vs : list (string * bytes)) : bool :=
  negb (bool_decide (vs = [])) && forallb (λ e, decimal_name e.1) vs.

Lemma shape_storable i sk mn mx cs vs :
  names_ok vs → storable (share_object (shape i sk mn mx cs vs)) = negb (all_decimal vs).
Proof.
  intros Hn. unfold share_object, shape, secret_value, public_value, signers_value.
  cbn [storable forallb secret pub min max fst snd]. rewrite legacy_names, (names_untyped vs) by done.
  rewrite !forallb_map, (forallb_true (λ x : string * bytes, storable (x.1, VBytes x.2).2)) by done. fold (all_decimal vs).
  rewrite (forallb_true (λ x, storable (VBytes x))) by done.
  generalize (all_decimal vs). intros d. vm_compute. by destruct d.
Qed.

Lemma revived_object fs :
  revived element_of (replaced (VObj fs)) = reviver element_of (VObj (map (λ e, (e.1, revived element_of (replaced e.2))) fs)).
Proof. cbn [replaced revived]. by rewrite map_map. Qed.

(** Decimal names make bytes of the verifying shares. *)
Lemma decimal_revived vs :
  names_ok vs → all_decimal vs = true → ∃ b, revived element_of (replaced (VObj (values vs))) = VBytes b.
Proof.
  intros Hn Hd. rewrite revived_object.
  assert (map (λ e : string * jsval, (e.1, revived element_of (replaced e.2))) (values vs) = values vs) as E.
  { rewrite map_map. apply map_ext. intros [k b]. cbn [fst snd]. f_equal. by apply (revived_replaced (VBytes b)). }
  rewrite E. unfold reviver. rewrite (names_untyped vs) by done. rewrite legacy_names. fold (all_decimal vs). rewrite Hd.
  by eexists.
Qed.

(** C35. When a share survives its serialization.  Take a share of the usual shape whose
    verifying shares stand under distinct names that JSON keeps in order ([plain_key]),
    none of them the reviver's own mark, and suppose that [JSON.parse] reads the text
    that [JSON.stringify] made of it.  Then what was serialized is deserialized as that
    very share, byte strings included, if and only if the names of its verifying shares
    are not all decimal numbers: an object whose names are all decimal is read back as
    a byte string, and the share is lost. *)
Theorem share_roundtrip i sk mn mx cs vs :
  let share := shape i sk mn mx cs vs in
  names_ok vs → json_carries (replaced (share_object share)) →
  deserialize element_of json_value (serializeSecret json_text share) = Some share ↔ all_decimal vs = false.
Proof.
  intros share Hn Hj. unfold deserialize, serializeSecret. fold (share_object share).
  rewrite Hj by (by apply replaced_json, shape_textual). cbn [mbind option_bind].
  pose proof (shape_storable i sk mn mx cs vs Hn) as Hs. fold share in Hs.
  destruct (all_decimal vs) eqn:Hd; cbn [negb] in Hs.
  - split; [|done]. destruct (decimal_revived vs Hn Hd) as [b Eb]. intros E. exfalso. revert E.
    unfold share_object, share, shape, public_value. rewrite revived_object. cbn [map fst snd secret pub].
    rewrite (revived_object [_; _; _]). cbn [map fst snd]. rewrite Eb.
    generalize (revived element_of (replaced (secret_value i sk))), (revived element_of (replaced (signers_value (mkSigners (JInt mn) (JInt mx))))),
      (revived element_of (replaced (VArr (map VBytes cs)))).
    intros v1 v2 v3.
    assert (reviver element_of (VObj [("signers", v2); ("commitments", v3); ("verifyingShares", VBytes b)]) =
            VObj [("signers", v2); ("commitments", v3); ("verifyingShares", VBytes b)]) as -> by (vm_compute; reflexivity).
    set (p := VObj [_; _; ("verifyingShares", VBytes b)]).
    assert (reviver element_of (VObj [("secret", v1); ("pub", p)]) = VObj [("secret", v1); ("pub", p)]) as -> by (vm_compute; reflexivity).
    cbn [field]. repeat rewrite bool_decide_eq_true_2 by reflexivity. rewrite bool_decide_eq_false_2 by done.
    repeat rewrite bool_decide_eq_true_2 by reflexivity. destruct (_ && _); [|done].
    subst p. intros E. assert (VBytes b = VObj (values vs)) by congruence. done.
  - split; [done|]. intros _. by rewrite revived_replaced.
Qed.

End RoundTrip.

(** A share of two participants, whose names are hexadecimal; and one whose names are decimal. *)
Definition sample (a b : string) : LocalShare := shape "ab01" "secret" 2 3 ["group"; "c1"] [(a, "v1"); (b, "v2")].

Definition sample_text : bytes := "the text".

Lemma share_roundtrip_witness :
  let read_back a b :=
    deserialize (λ _, "000"%char) (λ _, Some (replaced (share_object (sample a b))))
      (serializeSecret (λ _, sample_text) (sample a b)) in
  read_back "00ab" "00cd" = Some (sample "00ab" "00cd") ∧
  read_back "00000000001" "00000000002" ≠ Some (sample "00000000001" "00000000002").
Proof.
  split.
  - apply (share_roundtrip (λ _, "000"%char) (λ _, sample_text) (λ _, Some (replaced (share_object (sample "00ab" "00cd"))))).
    + split; [|repeat constructor; done]. apply (bool_decide_unpack _). vm_compute. exact I.
    + intros _. reflexivity.
    + vm_compute. reflexivity.
  - intros E.
    apply (share_roundtrip (λ _, "000"%char) (λ _, sample_text)
             (λ _, Some (replaced (share_object (sample "00000000001" "00000000002"))))) in E.
    + vm_compute in E. discriminate E.
    + split; [|repeat constructor; done]. apply (bool_decide_unpack _). vm_compute. exact I.
    + intros _. reflexivity.
Defined.

End FrostSharesTheorems.
