(* ===== verification/FrostFrames.v ===== *)
(** The frames of the key generation rounds (frost-dkg-frames.ts) as decoded values: what
    each side writes, what each side accepts, and that accepting undoes writing. *)
From S2P Require Import Prelude Bytes Wire FrostShares.
Import Bytes Wire FrostShares.

Module FrostFrames.

Record DkgRound1Broadcast := mkBroadcast {
  b_identifier : string; commitment : list bytes; proofOfKnowledge : bytes }.

Record DkgRound2Share := mkRound2 { s_identifier : string; targetIdentifier : string; s_signingShare : bytes }.

Inductive DkgRequest :=
| Round1Request (agentPubkey epochId : string) (signers : Signers) (preAuthToken : option string)
| Round2Request (agentPubkey epochId : string) (othersRound1 : list DkgRound1Broadcast)
| Round3Request (agentPubkey epochId : string) (sharesForMe : list DkgRound2Share) (allRound1 : list DkgRound1Broadcast).

(** The error texts of a failed round are those of its type. *)
Inductive DkgResponse :=
| Round1Response (res : result string DkgRound1Broadcast)
| Round2Response (res : result string (list DkgRound2Share))
| Round3Response (res : result string bytes).

(** * What is written *)

Definition serializeRound1Broadcast (b : DkgRound1Broadcast) : jsval :=
  VObj [("identifier", VStr (b_identifier b)); ("commitment", VArr (map VBytes (commitment b)));
        ("proofOfKnowledge", VBytes (proofOfKnowledge b))].

Definition serializeRound2Share (s : DkgRound2Share) : jsval :=
  VObj [("signerIdentifier", VStr (s_identifier s)); ("targetIdentifier", VStr (targetIdentifier s));
        ("signingShare", VBytes (s_signingShare s))].

Definition encodeFrostDkgRequest (q : DkgRequest) : jsval :=
  match q with
  | Round1Request a e signers token =>
      VObj ([("type", VStr "frost_dkg_round1_request"); ("agentPubkey", VStr a); ("epochId", VStr e);
             ("signers", signers_value signers)] ++
            match token with Some t => [("preAuthToken", VStr t)] | None => [] end)
  | Round2Request a e others =>
      VObj [("type", VStr "frost_dkg_round2_request"); ("agentPubkey", VStr a); ("epochId", VStr e);
            ("othersRound1", VArr (map serializeRound1Broadcast others))]
  | Round3Request a e shares all_ =>
      VObj [("type", VStr "frost_dkg_round3_request"); ("agentPubkey", VStr a); ("epochId", VStr e);
            ("sharesForMe", VArr (map serializeRound2Share shares));
            ("allOthersRound1", VArr (map serializeRound1Broadcast all_))]
  end.

Definition encode_response {A} (type : string) (k : string) (value : A → jsval) (res : result string A) : jsval :=
  match res with
  | Ok a => VObj [("type", VStr type); ("ok", VBool true); (k, value a)]
  | Err reason => VObj [("type", VStr type); ("ok", VBool false); ("reason", VStr reason)]
  end.

Definition encodeFrostDkgResponse (resp : DkgResponse) : jsval :=
  match resp with
  | Round1Response res => encode_response "frost_dkg_round1_response" "broadcast" serializeRound1Broadcast res
  | Round2Response res =>
      encode_response "frost_dkg_round2_response" "sharesForOthers" (λ l, VArr (map serializeRound2Share l)) res
  | Round3Response res => encode_response "frost_dkg_round3_response" "shareCommitment" VBytes res
  end.

(** * What is accepted *)

(** [typeof v === "string" ? v : null] and then [!v]. *)
Definition text (v : jsval) : option string :=
  match v with VStr EmptyString => None | VStr s => Some s | _ => None end.

Definition number (v : jsval) : option jsnum := match v with VNum n => Some n | _ => None end.

Definition parseSigners (v : jsval) : option Signers :=
  match v with
  | VObj fs => n ← number (field "min" fs); m ← number (field "max" fs); Some (mkSigners n m)
  | _ => None
  end.

(** [Array.isArray(v)], and every item accepted. *)
Definition parse_array {A} (parse : jsval → option A) (v : jsval) : option (list A) :=
  match v with VArr l => mapM parse l | _ => None end.

Definition parseRound1Broadcast (v : jsval) : option DkgRound1Broadcast :=
  match v with
  | VObj fs =>
      identifier ← text (field "identifier" fs);
      proof ← as_bytes (field "proofOfKnowledge" fs);
      commitment ← parse_array as_bytes (field "commitment" fs);
      Some (mkBroadcast identifier commitment proof)
  | _ => None
  end.

Definition parseRound2Share (v : jsval) : option DkgRound2Share :=
  match v with
  | VObj fs =>
      signer ← text (match field "identifier" fs with VStr s => VStr s | _ => field "signerIdentifier" fs end);
      target ← text (field "targetIdentifier" fs);
      share ← as_bytes (field "signingShare" fs);
      Some (mkRound2 signer target share)
  | _ => None
  end.

(** [a ?? b] *)
Definition or_else (a b : jsval) : jsval := match a with VUndef | VNull => b | _ => a end.

Definition decodeFrostDkgRequest (frame : jsval) : option DkgRequest :=
  match frame with
  | VObj o =>
      match field "type" o with
      | VStr "frost_dkg_round1_request" =>
          a ← text (field "agentPubkey" o); e ← text (field "epochId" o); s ← parseSigners (field "signers" o);
          Some (Round1Request a e s (match field "preAuthToken" o with VStr t => Some t | _ => None end))
      | VStr "frost_dkg_round2_request" =>
          a ← text (field "agentPubkey" o); e ← text (field "epochId" o);
          others ← parse_array parseRound1Broadcast (field "othersRound1" o);
          Some (Round2Request a e others)
      | VStr "frost_dkg_round3_request" =>
          a ← text (field "agentPubkey" o); e ← text (field "epochId" o);
          shares ← parse_array parseRound2Share (field "sharesForMe" o);
          all_ ← parse_array parseRound1Broadcast (or_else (field "allOthersRound1" o) (field "allRound1" o));
          Some (Round3Request a e shares all_)
      | _ => None
      end
  | _ => None
  end.

Definition reason_of (known : list string) (o : list (string * jsval)) : option string :=
  match field "reason" o with VStr s => if bool_decide (s ∈ known) then Some s else None | _ => None end.

Definition is_true (v : jsval) : bool := match v with VBool true => true | _ => false end.

Definition share_commitment (v : jsval) : option bytes :=
  b ← match v with VStr s => Some (hex_prefix s) | VBytes b => Some b | _ => None end;
  if (String.length b =? 32)%nat then Some b else None.

Definition decodeFrostDkgResponse (frame : jsval) : option DkgResponse :=
  match frame with
  | VObj o =>
      match field "type" o with
      | VStr "frost_dkg_round1_response" =>
          if is_true (field "ok" o)
          then b ← parseRound1Broadcast (field "broadcast" o); Some (Round1Response (Ok b))
          else reason ← reason_of ["already_in_progress"; "internal_error"] o; Some (Round1Response (Err reason))
      | VStr "frost_dkg_round2_response" =>
          if is_true (field "ok" o)
          then l ← parse_array parseRound2Share (field "sharesForOthers" o); Some (Round2Response (Ok l))
          else reason ← reason_of ["round1_not_complete"; "verification_failed"; "internal_error"] o;
               Some (Round2Response (Err reason))
      | VStr "frost_dkg_round3_response" =>
          if is_true (field "ok" o)
          then b ← share_commitment (field "shareCommitment" o); Some (Round3Response (Ok b))
          else reason ← reason_of ["round2_not_complete"; "share_verification_failed"; "internal_error"] o;
               Some (Round3Response (Err reason))
      | _ => None
      end
  | _ => None
  end.

(** * Accepting undoes writing *)

(** Look the fields of a written object up. *)
Ltac fields :=
  repeat first [rewrite bool_decide_eq_true_2 by reflexivity | rewrite bool_decide_eq_false_2 by discriminate].

Lemma parse_array_map {A} (write : A → jsval) (parse : jsval → option A) l :
  Forall (λ a, parse (write a) = Some a) l → parse_array parse (VArr (map write l)) = Some l.
Proof. cbn. induction 1 as [|a l Ha _ IH]; [done|]. cbn. by rewrite Ha, IH. Qed.

Lemma text_some s : s ≠ EmptyString → text (VStr s) = Some s.
Proof. by destruct s. Qed.

Definition named (b : DkgRound1Broadcast) : Prop := b_identifier b ≠ EmptyString.

Definition routed (s : DkgRound2Share) : Prop := s_identifier s ≠ EmptyString ∧ targetIdentifier s ≠ EmptyString.

Lemma broadcast_roundtrip b : named b → parseRound1Broadcast (serializeRound1Broadcast b) = Some b.
Proof.
  destruct b as [i c p]. unfold named. cbn [b_identifier]. intros Hi.
  unfold parseRound1Broadcast, serializeRound1Broadcast. cbn -[text parse_array]. fields.
  rewrite (text_some i) by done. cbn -[parse_array]. rewrite (parse_array_map VBytes as_bytes); [done|].
  by apply Forall_true.
Qed.

Lemma share_frame_roundtrip s : routed s → parseRound2Share (serializeRound2Share s) = Some s.
Proof.
  destruct s as [i t g]. unfold routed. cbn [s_identifier targetIdentifier]. intros [Hi Ht].
  unfold parseRound2Share, serializeRound2Share. cbn -[text]. fields.
  by rewrite (text_some i), (text_some t).
Qed.

Definition request_ok (q : DkgRequest) : Prop :=
  match q with
  | Round1Request a e _ _ => a ≠ EmptyString ∧ e ≠ EmptyString
  | Round2Request a e others => a ≠ EmptyString ∧ e ≠ EmptyString ∧ Forall named others
  | Round3Request a e shares all_ =>
      a ≠ EmptyString ∧ e ≠ EmptyString ∧ Forall routed shares ∧ Forall named all_
  end.

Lemma request_roundtrip q : request_ok q → decodeFrostDkgRequest (encodeFrostDkgRequest q) = Some q.
Proof.
  destruct q as [a e [n m] token|a e others|a e shares all_]; cbn [request_ok].
  - intros [Ha He]. destruct token as [t|]; cbn -[text]; fields; by rewrite (text_some a), (text_some e).
  - intros (Ha & He & Ho). cbn -[text parse_array]. fields. rewrite (text_some a), (text_some e) by done.
    cbn -[parse_array]. rewrite parse_array_map; [done|]. eapply Forall_impl; [apply broadcast_roundtrip|exact Ho].
  - intros (Ha & He & Hs & Ho). cbn -[text parse_array]. fields. rewrite (text_some a), (text_some e) by done.
    cbn -[parse_array]. rewrite (parse_array_map serializeRound2Share) by (eapply Forall_impl; [apply share_frame_roundtrip|exact Hs]).
    cbn -[parse_array]. rewrite parse_array_map; [done|]. eapply Forall_impl; [apply broadcast_roundtrip|exact Ho].
Qed.

Definition response_ok (r : DkgResponse) : Prop :=
  match r with
  | Round1Response (Ok b) => named b
  | Round1Response (Err s) => s ∈ ["already_in_progress"; "internal_error"]
  | Round2Response (Ok l) => Forall routed l
  | Round2Response (Err s) => s ∈ ["round1_not_complete"; "verification_failed"; "internal_error"]
  | Round3Response (Ok b) => String.length b = 32
  | Round3Response (Err s) => s ∈ ["round2_not_complete"; "share_verification_failed"; "internal_error"]
  end.

Lemma reason_roundtrip known type s :
  s ∈ known → reason_of known [("type", VStr type); ("ok", VBool false); ("reason", VStr s)] = Some s.
Proof. intros Hs. unfold reason_of. cbn -[bool_decide]. fields. by rewrite bool_decide_eq_true_2. Qed.

Lemma response_roundtrip r : response_ok r → decodeFrostDkgResponse (encodeFrostDkgResponse r) = Some r.
Proof.
  destruct r as [[b|s]|[l|s]|[b|s]]; cbn [response_ok]; intros H; cbn -[parseRound1Broadcast serializeRound1Broadcast parse_array reason_of share_commitment]; fields.
  - by rewrite broadcast_roundtrip.
  - by rewrite reason_roundtrip.
  - rewrite parse_array_map; [done|]. eapply Forall_impl; [apply share_frame_roundtrip|exact H].
  - by rewrite reason_roundtrip.
  - unfold share_commitment. cbn -[Nat.eqb]. by rewrite H.
  - by rewrite reason_roundtrip.
Qed.

(** What a client writes a directory reads, and back: every frame of a key generation
    round survives, as long as names are not empty and a group key has 32 bytes. *)
Theorem dkg_frames_roundtrip q r :
  request_ok q → response_ok r →
  decodeFrostDkgRequest (encodeFrostDkgRequest q) = Some q ∧
  decodeFrostDkgResponse (encodeFrostDkgResponse r) = Some r.
Proof. intros Hq Hr. split; [by apply request_roundtrip|by apply response_roundtrip]. Qed.

End FrostFrames.
