(* ===== verification/FrostHandler.v ===== *)
(** The threshold signing handler of a directory (frost-handler.ts): commitments and
    their nonces, partial signatures, the rounds of key generation and of share
    refresh, in-flight ceremonies, over the share store of [FrostShares].  A call
    that waits for the database is two actions: up to the wait, and after it. *)
From Stdlib Require Import Ascii.
From S2P Require Import Prelude Text JsMap Effects Bytes Wire FrostShares FrostFrames.
Import Text JsMap Effects Bytes Wire FrostShares FrostFrames.

Module FrostHandler.

(** * Data *)

Inductive CeremonyReason := AGENT_NOT_BOOTSTRAPPED | CEREMONY_CONFLICT | EPOCH_EXPIRED.
Inductive DkgReason := already_in_progress | not_in_round1 | not_in_round2 | share_verification_failed.
Inductive RefreshReason := source_epoch_not_held | vss_check_failed | incomplete_roster | internal_error.

Inductive DkgStep := round1_complete | round2_complete.

(** The secret of a key generation is an object that the FROST package advances in place. *)
Record DkgState := mkDkg { d_secret : jsval; round1Public : DkgRound1Broadcast; d_step : DkgStep }.

Record InFlightEntry := mkInFlight { peerIdString : string; ceremonyId : string }.

Record Pending := mkPending { p_nonce : jsval; p_share : LocalShare; expiresAt : Z }.

(** A statement sent to the database that has not been executed yet. *)
Inductive Query := QInsert (agentId epochId : string) (ciphertext : bytes) | QZero (agentId : string).

(** A call of the handler that waits for its statement's answer. *)
Inductive Waiting :=
| WDkgRound3 (agentPubkey epochId : string) (share : LocalShare)
| WRefreshRound2 (agentPubkey toEpochId : string) (newShare : LocalShare)
| WDestroy (agentPubkey : string).

(** A call of the package's [signShare], whatever came of it. *)
Record SignCall := mkCall { c_share : LocalShare; c_nonce : jsval; c_commitments : list jsval; c_msg : bytes }.

(** [queries] are the statements that were sent, [landed] those that were executed, the last
    one first; [waiting] names the statement that a call waits for. *)
Record Handler := mkHandler {
  memory : memory_store;
  table : share_table;
  inFlight : jsmap string InFlightEntry;
  currentEpoch : jsmap string Z;
  dkgStates : jsmap string DkgState;
  pendingNonces : jsmap string Pending;
  queries : jsmap nat Query;
  landed : list (nat * Query);
  waiting : jsmap nat (nat * Waiting);
  tick : nat;
  calls : list SignCall }.

Definition initial_handler : Handler := mkHandler [] [] [] [] [] [] [] [] [] 0 [].

Definition with_memory h v := mkHandler v (table h) (inFlight h) (currentEpoch h) (dkgStates h) (pendingNonces h) (queries h) (landed h) (waiting h) (tick h) (calls h).
Definition with_table h v := mkHandler (memory h) v (inFlight h) (currentEpoch h) (dkgStates h) (pendingNonces h) (queries h) (landed h) (waiting h) (tick h) (calls h).
Definition with_inFlight h v := mkHandler (memory h) (table h) v (currentEpoch h) (dkgStates h) (pendingNonces h) (queries h) (landed h) (waiting h) (tick h) (calls h).
Definition with_currentEpoch h v := mkHandler (memory h) (table h) (inFlight h) v (dkgStates h) (pendingNonces h) (queries h) (landed h) (waiting h) (tick h) (calls h).
Definition with_dkgStates h v := mkHandler (memory h) (table h) (inFlight h) (currentEpoch h) v (pendingNonces h) (queries h) (landed h) (waiting h) (tick h) (calls h).
Definition with_pendingNonces h v := mkHandler (memory h) (table h) (inFlight h) (currentEpoch h) (dkgStates h) v (queries h) (landed h) (waiting h) (tick h) (calls h).
Definition with_queries h v := mkHandler (memory h) (table h) (inFlight h) (currentEpoch h) (dkgStates h) (pendingNonces h) v (landed h) (waiting h) (tick h) (calls h).
Definition with_landed h v := mkHandler (memory h) (table h) (inFlight h) (currentEpoch h) (dkgStates h) (pendingNonces h) (queries h) v (waiting h) (tick h) (calls h).
Definition with_waiting h v := mkHandler (memory h) (table h) (inFlight h) (currentEpoch h) (dkgStates h) (pendingNonces h) (queries h) (landed h) v (tick h) (calls h).
Definition with_tick h v := mkHandler (memory h) (table h) (inFlight h) (currentEpoch h) (dkgStates h) (pendingNonces h) (queries h) (landed h) (waiting h) v (calls h).
Definition with_calls h v := mkHandler (memory h) (table h) (inFlight h) (currentEpoch h) (dkgStates h) (pendingNonces h) (queries h) (landed h) (waiting h) (tick h) v.

(** What is outside: the clock, the FROST package (whose functions may throw and which
    draws its randomness afresh in every call), JSON and the envelope provider.  A call is
    named by its tick. *)
Record FrostEnv := mkFrostEnv {
  clock : nat → Z;
  is_test : bool;
  nodeId : string;
  derive : string → string;
  trustedDealer : nat → Signers → list string → option (list (string * jsval) * jsval);
  commit : nat → jsval → option (jsval * jsval);
  signShare : LocalShare → jsval → list jsval → bytes → option bytes;
  DKG_round1 : nat → string → Signers → option (DkgRound1Broadcast * jsval);
  DKG_round2 : jsval → list DkgRound1Broadcast → jsval * option (list (string * (string * bytes)));
  DKG_round3 : jsval → list DkgRound1Broadcast → list (string * bytes) → jsval * option LocalShare;
  generateRefreshContribution : nat → Signers → jsval → list string → option jsval;
  applyRefresh : LocalShare → list jsval → Signers → list string → result string LocalShare;
  element_of : jsval → ascii;
  json_text : jsval → bytes;
  json_value : bytes → option jsval;
  encrypt : nat → bytes → string → option bytes;
  decrypt : nat → bytes → string → option bytes }.

Definition PENDING_NONCE_TTL_MS : Z := 60000.

Definition M : Type → Type := act Handler string.

(** [/a|b|…/.test(s)] of plain words. *)
Fixpoint includes (p s : string) : bool :=
  String.prefix p s || match s with EmptyString => false | String _ r => includes p r end.

Definition test_words (ws : list string) (s : string) : bool := existsb (λ w, includes w s) ws.

(** [frameMessage]: context, a zero byte, the bytes to be signed. *)
Definition frameMessage (context : string) (tbs : bytes) : bytes := context +:+ String "000" tbs.

Section Handler.
Context (env : FrostEnv).

Definition next_tick : M nat := λ h, (with_tick h (S (tick h)), Ok (tick h)).

Definition now : M Z := t ← next_tick; mret (clock env t).

(** * The share store with its table *)

Definition share_bytes (share : LocalShare) : bytes := serializeSecret (json_text env) share.

(** [#encrypted.storeShare]: encrypts, checks and sends the statement, which is named by its
    tick. *)
Definition send_insert (agentPubkey epochId : string) (share : LocalShare) : M nat :=
  t ← next_tick;
  match encrypt_share (encrypt env) t agentPubkey epochId (share_bytes share) with
  | Some c =>
      _ ← modify (λ h, with_queries h (jset (queries h) t (QInsert agentPubkey epochId c)));
      mret t
  | None => mret t
  end.

Definition store_memory (agentPubkey epochId : string) (share : LocalShare) : M unit :=
  modify (λ h, with_memory h (storeShare (memory h) agentPubkey epochId share)).

(** [storeShare]: nobody waits for the write. *)
Definition storeShare_forget (agentPubkey epochId : string) (share : LocalShare) : M unit :=
  _ ← store_memory agentPubkey epochId share;
  _ ← send_insert agentPubkey epochId share;
  mret tt.

(** [r] waits for statement [t] and then goes on as [w] says. *)
Definition await (r t : nat) (w : Waiting) : M unit :=
  modify (λ h, with_waiting h (jset (waiting h) r (t, w))).

(** [await storeShareDurable(…)] *)
Definition storeShareDurable (r : nat) (agentPubkey epochId : string) (share : LocalShare) (w : Waiting) : M unit :=
  _ ← store_memory agentPubkey epochId share;
  t ← send_insert agentPubkey epochId share;
  await r t w.

Definition destroyShares (r : nat) (agentPubkey : string) : M unit :=
  _ ← modify (λ h, with_memory h (destroy_memory (memory h) agentPubkey));
  t ← next_tick;
  _ ← modify (λ h, with_queries h (jset (queries h) t (QZero agentPubkey)));
  await r t (WDestroy agentPubkey).

(** The database executes statement [t]. *)
Definition execute (tb : share_table) (q : Query) : share_table :=
  match q with QInsert a e c => insert_row tb a e c | QZero a => zero_rows tb a end.

Definition lands (t : nat) (h : Handler) : Handler :=
  match jget (queries h) t with
  | None => h
  | Some q =>
      let h := with_table h (execute (table h) q) in
      with_landed (with_queries h (jdel (queries h) t)) ((t, q) :: landed h)
  end.

(** A new process on the same table, and whether it starts: it does not when a row that
    could be decrypted held no share. *)
Definition restart (h : Handler) : Handler * bool :=
  let '(m, failed) := loadShares (element_of env) (json_value env) (decrypt env) (tick h) (table h) ([], 0) in
  (mkHandler m (table h) [] [] [] [] (queries h) (landed h) [] (tick h + length (table h)) (calls h), (failed =? 0)%nat).

(** * Epochs *)

Definition epoch_of (h : Handler) (agentPubkey : string) : option Z :=
  match jget (currentEpoch h) agentPubkey with
  | Some n => Some n
  | None => getMaxEpoch (memory h) agentPubkey
  end.

Definition isExpiredEpoch (h : Handler) (agentPubkey epochId : string) : bool :=
  match parseEpochN epochId, epoch_of h agentPubkey with
  | Some requested, Some current => (requested <? current)%Z
  | _, _ => false
  end.

Definition set_epoch (agentPubkey : string) (n : Z) : M unit :=
  modify (λ h, with_currentEpoch h (jset (currentEpoch h) agentPubkey n)).

(** * Shares made and injected by tests *)

Definition bootstrapKeyShares (agentPubkey : string) : M bytes :=
  if negb (is_test env) then throw "BootstrapNotAllowedInProduction"
  else
    let nodeIdentifier := derive env (nodeId env) in
    let dummyIdentifier := derive env (nodeId env +:+ ":director") in
    t ← next_tick;
    match trustedDealer env t (mkSigners (JInt 2) (JInt 2)) [nodeIdentifier; dummyIdentifier] with
    | None => throw "trustedDealer"
    | Some (secretShares, public) =>
        match jget secretShares nodeIdentifier with
        | None => throw "Failed to generate share"
        | Some sk =>
            _ ← storeShare_forget agentPubkey (agentPubkey +:+ ":epoch:1") (mkShare sk public);
            _ ← set_epoch agentPubkey 1;
            mret (group_key public)
        end
    end.

Definition injectShareForTest (agentPubkey epochId : string) (share : LocalShare) : M unit :=
  if negb (is_test env) then throw "BootstrapNotAllowedInProduction"
  else
    _ ← storeShare_forget agentPubkey epochId share;
    set_epoch agentPubkey (default 1%Z (parseEpochN epochId)).

(** * Commitments *)

Definition drop_nonce (key : string) : M unit :=
  modify (λ h, with_pendingNonces h (jdel (pendingNonces h) key)).

Definition sweep_nonces (at_ : Z) (h : Handler) : Handler :=
  with_pendingNonces h (List.filter (λ e, negb (expiresAt e.2 <? at_)%Z) (pendingNonces h)).

(** The nonce commitment, with the node's id. *)
Definition generateCommitment (agentPubkey epochId : string) : M (result CeremonyReason (string * jsval)) :=
  expired ← gets (λ h, isExpiredEpoch h agentPubkey epochId);
  if expired : bool then mret (Err EPOCH_EXPIRED)
  else
    held ← gets (λ h, getShare (memory h) agentPubkey epochId);
    match held with
    | None => mret (Err AGENT_NOT_BOOTSTRAPPED)
    | Some share =>
        let cacheKey := key_of agentPubkey epochId in
        at_ ← now;
        _ ← modify (sweep_nonces at_);
        _ ← drop_nonce cacheKey;
        t ← next_tick;
        match commit env t (secret share) with
        | None => mret (Err AGENT_NOT_BOOTSTRAPPED)
        | Some (nonces, commitments) =>
            _ ← modify (λ h, with_pendingNonces h
                   (jset (pendingNonces h) cacheKey (mkPending nonces share (at_ + PENDING_NONCE_TTL_MS))));
            mret (Ok (nodeId env, commitments))
        end
    end.

(** * Partial signatures *)

(** [ed25519_FROST.signShare] in its [try]. *)
Definition sign_with (share : LocalShare) (nonce : jsval) (commitmentList : list jsval) (msg : bytes)
    : M (result CeremonyReason bytes) :=
  _ ← modify (λ h, with_calls h (calls h ++ [mkCall share nonce commitmentList msg]));
  mret (match signShare env share nonce commitmentList msg with
        | Some partialSig => Ok partialSig
        | None => Err AGENT_NOT_BOOTSTRAPPED
        end).

(** A ceremony of another peer is in flight. *)
Definition checkConflict (h : Handler) (agentPubkey epochId peer : string) : bool :=
  match jget (inFlight h) (key_of agentPubkey epochId) with
  | Some e => negb (bool_decide (peerIdString e = peer))
  | None => false
  end.

Definition markInFlight (agentPubkey epochId peer ceremony : string) : M unit :=
  modify (λ h, with_inFlight h (jset (inFlight h) (key_of agentPubkey epochId) (mkInFlight peer ceremony))).

Definition clearInFlight (agentPubkey epochId : string) : M unit :=
  modify (λ h, with_inFlight h (jdel (inFlight h) (key_of agentPubkey epochId))).

Definition signWithShare (share : LocalShare) (tbs : bytes) (context : string) (commitmentList : list jsval)
    : M (result CeremonyReason bytes) :=
  let msg := frameMessage context tbs in
  t ← next_tick;
  match commit env t (secret share) with
  | None => throw "commit"
  | Some (nonces, commitments) => sign_with share nonces (commitmentList ++ [commitments]) msg
  end.

Definition handleCeremonyRound (agentPubkey epochId : string) (tbs : bytes) (context : string)
    (commitmentList : list jsval) (peer : string) : M (result CeremonyReason bytes) :=
  conflict ← gets (λ h, checkConflict h agentPubkey epochId peer);
  if conflict : bool then mret (Err CEREMONY_CONFLICT)
  else
    held ← gets (λ h, getShare (memory h) agentPubkey epochId);
    match held with
    | None =>
        expired ← gets (λ h, isExpiredEpoch h agentPubkey epochId);
        mret (Err (if expired : bool then EPOCH_EXPIRED else AGENT_NOT_BOOTSTRAPPED))
    | Some share => signWithShare share tbs context commitmentList
    end.

Definition signRawMessage (agentPubkey epochId : string) (framedMsg : bytes) (commitmentList : list jsval) (peer : string)
    : M (result CeremonyReason bytes) :=
  conflict ← gets (λ h, checkConflict h agentPubkey epochId peer);
  if conflict : bool then mret (Err CEREMONY_CONFLICT)
  else
    let cacheKey := key_of agentPubkey epochId in
    pending ← gets (λ h, jget (pendingNonces h) cacheKey);
    at_ ← now;
    match pending with
    | None => mret (Err AGENT_NOT_BOOTSTRAPPED)
    | Some p =>
        _ ← drop_nonce cacheKey;
        if (expiresAt p <? at_)%Z then mret (Err AGENT_NOT_BOOTSTRAPPED)
        else sign_with (p_share p) (p_nonce p) commitmentList framedMsg
    end.

(** * Key generation *)

Definition set_dkg (key : string) (s : DkgState) : M unit := modify (λ h, with_dkgStates h (jset (dkgStates h) key s)).

Definition drop_dkg (key : string) : M unit := modify (λ h, with_dkgStates h (jdel (dkgStates h) key)).

Definition dkgRound1 (agentPubkey epochId : string) (signers : Signers) : M (result DkgReason DkgRound1Broadcast) :=
  let stateKey := key_of agentPubkey epochId in
  busy ← gets (λ h, jhas (dkgStates h) stateKey);
  if busy : bool then mret (Err already_in_progress)
  else
    t ← next_tick;
    match DKG_round1 env t (derive env (nodeId env)) signers with
    | None => throw "round1"
    | Some (broadcast, sk) =>
        _ ← set_dkg stateKey (mkDkg sk broadcast round1_complete);
        mret (Ok broadcast)
    end.

Definition dkgRound2 (agentPubkey epochId : string) (othersRound1 : list DkgRound1Broadcast)
    : M (result DkgReason (list DkgRound2Share)) :=
  let stateKey := key_of agentPubkey epochId in
  state ← gets (λ h, jget (dkgStates h) stateKey);
  match state with
  | Some (mkDkg sk own round1_complete) =>
      match DKG_round2 env sk othersRound1 with
      | (sk', None) => _ ← set_dkg stateKey (mkDkg sk' own round1_complete); throw "round2"
      | (sk', Some shares) =>
          _ ← set_dkg stateKey (mkDkg sk' own round2_complete);
          mret (Ok (map (λ e, mkRound2 e.2.1 e.1 e.2.2) shares))
      end
  | _ => mret (Err not_in_round1)
  end.

(** [None]: the answer waits for the durable write. *)
Definition dkgRound3 (r : nat) (agentPubkey epochId : string) (sharesForMe : list DkgRound2Share)
    (allOthersRound1 : list DkgRound1Broadcast) : M (option (result DkgReason bytes)) :=
  let stateKey := key_of agentPubkey epochId in
  state ← gets (λ h, jget (dkgStates h) stateKey);
  match state with
  | Some (mkDkg sk own round2_complete) =>
      match DKG_round3 env sk allOthersRound1 (map (λ s, (s_identifier s, s_signingShare s)) sharesForMe) with
      | (_, None) => _ ← drop_dkg stateKey; mret (Some (Err share_verification_failed))
      | (sk', Some key) =>
          _ ← set_dkg stateKey (mkDkg sk' own round2_complete);
          _ ← storeShareDurable r agentPubkey epochId key (WDkgRound3 agentPubkey epochId key);
          mret None
      end
  | _ => mret (Some (Err not_in_round2))
  end.

(** After [await storeShareDurable], which threw unless [ok]. *)
Definition dkgRound3_stored (agentPubkey epochId : string) (share : LocalShare) (ok : bool) : M (result DkgReason bytes) :=
  let stateKey := key_of agentPubkey epochId in
  if negb ok then _ ← drop_dkg stateKey; mret (Err share_verification_failed)
  else
    _ ← set_epoch agentPubkey (default 1%Z (parseEpochN epochId));
    _ ← drop_dkg stateKey;
    mret (Ok (group_key (pub share))).

(** * Refresh *)

Definition refreshRound1 (agentPubkey fromEpochId : string) (signers : Signers) (participantIds : list string)
    : M (result RefreshReason jsval) :=
  held ← gets (λ h, getShare (memory h) agentPubkey fromEpochId);
  match held with
  | None => mret (Err source_epoch_not_held)
  | Some share =>
      t ← next_tick;
      mret (match generateRefreshContribution env t signers (prop "identifier" (secret share)) participantIds with
            | Some contribution => Ok contribution
            | None => Err internal_error
            end)
  end.

Definition refresh_reason (msg : string) : RefreshReason :=
  if test_words ["incomplete"; "missing"; "roster"; "duplicate"; "unexpected"] msg then incomplete_roster
  else if test_words ["VSS"; "identity"; "commitment"; "zero polynomial"] msg then vss_check_failed
  else internal_error.

Definition refreshRound2 (r : nat) (agentPubkey fromEpochId toEpochId : string) (signers : Signers)
    (participantIds : list string) (contributions : list jsval) : M (option (result RefreshReason bytes)) :=
  held ← gets (λ h, getShare (memory h) agentPubkey fromEpochId);
  match held with
  | None => mret (Some (Err source_epoch_not_held))
  | Some share =>
      match applyRefresh env share contributions signers participantIds with
      | Err msg => mret (Some (Err (refresh_reason msg)))
      | Ok newShare =>
          _ ← storeShareDurable r agentPubkey toEpochId newShare (WRefreshRound2 agentPubkey toEpochId newShare);
          mret None
      end
  end.

Definition refreshRound2_stored (agentPubkey toEpochId : string) (newShare : LocalShare) (ok : bool)
    : M (result RefreshReason bytes) :=
  if negb ok then mret (Err internal_error)
  else
    current ← gets (λ h, jget (currentEpoch h) agentPubkey);
    _ ← set_epoch agentPubkey
          (match parseEpochN toEpochId with Some n => n | None => default 1%Z current end);
    mret (Ok (group_key (pub newShare))).

(** * Answers of the database *)

Inductive Completion :=
| CDkgRound3 (agentPubkey : string) (res : result DkgReason bytes)
| CRefreshRound2 (res : result RefreshReason bytes)
| CDestroyed (agentPubkey : string) (ok : bool).

(** The call of [r] learns what became of its statement; only a statement that was executed
    is answered with success. *)
Definition answered (r : nat) (ok : bool) : M (option Completion) :=
  w ← gets (λ h, jget (waiting h) r);
  match w with
  | None => mret None
  | Some (t, w) =>
      done_ ← gets (λ h, bool_decide (t ∈ map fst (landed h)));
      if ok && negb done_ then mret None
      else
        _ ← modify (λ h, with_waiting h (jdel (waiting h) r));
        match w with
        | WDkgRound3 a e share => res ← dkgRound3_stored a e share ok; mret (Some (CDkgRound3 a res))
        | WRefreshRound2 a e share => res ← refreshRound2_stored a e share ok; mret (Some (CRefreshRound2 res))
        | WDestroy a => mret (Some (CDestroyed a ok))
        end
  end.

End Handler.
End FrostHandler.
