(* ===== verification/FrostNode.v ===== *)
(** The frost stream of a directory (directory-node.ts): who may ask for a commitment, a
    partial signature, a round of key generation or of refresh; the suspension check
    before it; the burning of shares; and the node that handles the requests of its
    streams, the answers of its database and restarts one at a time. *)
From Stdlib Require Import Ascii.
From S2P Require Import Prelude Text JsMap Effects Bytes Wire SealFinalRoot SealCosign FrostShares FrostFrames FrostHandler.
Import Text JsMap Effects Bytes Wire FrostShares FrostFrames FrostHandler.

Module FrostNode.

(** * Requests and answers *)

Inductive Request :=
| FrostBootstrap (agentPubkey epochId : string) (identifier : string) (sk : bytes) (signers : Signers)
    (commitments : list bytes) (verifyingShares : list (string * bytes))
| CommitRequest (agentPubkey epochId : string) (authSig : jsval)
| SignRequest (agentPubkey epochId : string) (framedMsg : bytes) (commitmentList : list jsval) (peer : string)
    (authSig seal_leaves seal_close_timestamp : jsval)
| DkgFrame (frame : jsval)
| RefreshRound1Request (agentPubkey fromEpochId : string) (signers : Signers) (participantIds : list string)
| RefreshRound2Request (agentPubkey fromEpochId toEpochId : string) (signers : Signers)
    (participantIds : list string) (contributions : list jsval).

Inductive AuthReason := AUTH_REQUIRED | AUTH_INVALID.

Inductive Refusal :=
| Unauthenticated (a : AuthReason)
| AGENT_SUSPENDED
| NoEvidence (s : SealCosign.SealCosignReason)
| Ceremony (c : CeremonyReason).

Inductive PreauthReason :=
| PRE_AUTH_TOKEN_MISSING | CLAIM_CODE_EXPIRED | CLAIM_CODE_INVALID | PRE_AUTH_TOKEN_EXPIRED
| PRE_AUTH_CAPABILITY_INVALID | PRE_AUTH_TOKEN_CONSUMED.

Inductive Response :=
| BootstrapOk
| CommitResponse (res : result Refusal (string * jsval))
| SignResponse (res : result Refusal bytes)
| PreauthError (reason : PreauthReason)
| DkgResponse1 (res : result DkgReason DkgRound1Broadcast)
| DkgResponse2 (res : result DkgReason (list DkgRound2Share))
| DkgResponse3 (res : result DkgReason bytes)
| RefreshSuspended
| RefreshResponse1 (res : result RefreshReason jsval)
| RefreshResponse2 (res : result RefreshReason bytes).

(** A decoded pre-auth capability: what the node reads of it, and the rest. *)
Record Capability := mkCapability { nonce : string; phone_stub_hash : string; email_domain : string; c_rest : jsval }.

Inductive ClaimAnswer := ClaimNotFound | ClaimExpired | ClaimOk (capability : string).

Inductive TokenAnswer := TokenValid (phoneStubHash emailStubHash : string) | TokenRefused (reason : string).

(** * The node *)

(** What a stream waits for. *)
Inductive Asking :=
| ASuspension (q : Request)
| AProfile (q : Request)
| ABurned (agentPubkey : string)
| AClaim (a e : string) (s : Signers) (code : string) (retries : nat)
| ABind (a e : string) (s : Signers) (cap : Capability)
| AToken (a e : string) (s : Signers).

Record Node := mkNode {
  handler : Handler;
  up : bool;
  steps : nat;
  asking : jsmap nat Asking;
  bindings : jsmap string string;
  pendingPreAuthData : jsmap string (string * string);
  pendingDkgCommitments : jsmap string bytes;
  delegatedSigners : jsmap string bytes;
  primaryPubkeys : jsmap string bytes;
  sent : list (nat * Response) }.

Definition initial : Node := mkNode initial_handler true 0 [] [] [] [] [] [] [].

Definition with_handler n v := mkNode v (up n) (steps n) (asking n) (bindings n) (pendingPreAuthData n) (pendingDkgCommitments n) (delegatedSigners n) (primaryPubkeys n) (sent n).
Definition with_steps n v := mkNode (handler n) (up n) v (asking n) (bindings n) (pendingPreAuthData n) (pendingDkgCommitments n) (delegatedSigners n) (primaryPubkeys n) (sent n).
Definition with_asking n v := mkNode (handler n) (up n) (steps n) v (bindings n) (pendingPreAuthData n) (pendingDkgCommitments n) (delegatedSigners n) (primaryPubkeys n) (sent n).
Definition with_bindings n v := mkNode (handler n) (up n) (steps n) (asking n) v (pendingPreAuthData n) (pendingDkgCommitments n) (delegatedSigners n) (primaryPubkeys n) (sent n).
Definition with_preauth n v := mkNode (handler n) (up n) (steps n) (asking n) (bindings n) v (pendingDkgCommitments n) (delegatedSigners n) (primaryPubkeys n) (sent n).
Definition with_commitments n v := mkNode (handler n) (up n) (steps n) (asking n) (bindings n) (pendingPreAuthData n) v (delegatedSigners n) (primaryPubkeys n) (sent n).
Definition with_signers n v u := mkNode (handler n) (up n) (steps n) (asking n) (bindings n) (pendingPreAuthData n) (pendingDkgCommitments n) v u (sent n).
Definition with_sent n v := mkNode (handler n) (up n) (steps n) (asking n) (bindings n) (pendingPreAuthData n) (pendingDkgCommitments n) (delegatedSigners n) (primaryPubkeys n) v.

Record NodeEnv := mkNodeEnv {
  frost :> FrostEnv;
  verify : bytes → bytes → bytes → bool;
  sha256 : bytes → bytes;
  cborDecode : bytes → option jsval;
  hash_tree_root : list bytes → bytes;
  decodeSealPayload : bytes → option SealFinalRoot.SealPayload;
  buildSealTbs : bytes → bytes → Z → jsnum → bytes;
  capabilityIssuerPubkey : option bytes;
  has_nonceBinder : bool;
  has_tokenValidator : bool;
  has_pgPool : bool;
  decodeCapability : string → option Capability;
  verifyCapability : nat → Capability → bytes → result string unit }.

Definition Task : Type → Type := act Node string.

Definition on_handler {A} (m : M A) : Task A := λ n,
  match m (handler n) with (h, res) => (with_handler n h, res) end.

(** * Proof of possession *)

Definition FROST_AUTH_DOMAIN : bytes := "CELLO-FROST-AUTH-v1".
Definition FROST_AUTH_COMMIT_TAIL : bytes := String "000" EmptyString.
Definition sign_tail (framedMsg : bytes) : bytes := String "001" framedMsg.

Section Node.
Context (env : NodeEnv).

(** [Buffer.from(agentPubkeyHex, "hex")] *)
Definition agent_key (agentPubkeyHex : string) : bytes := hex_prefix agentPubkeyHex.

Definition auth_digest (pubkey : bytes) (epochId : string) (tail : bytes) : bytes :=
  sha256 env (FROST_AUTH_DOMAIN +:+ pubkey +:+ epochId +:+ tail).

Definition verifyFrostAuth (agentPubkeyHex epochId : string) (tail : bytes) (authSig : jsval) : option AuthReason :=
  match authSig with
  | VUndef | VNull => Some AUTH_REQUIRED
  | VBytes sig =>
      let pubkeyBytes := agent_key agentPubkeyHex in
      if negb (String.length pubkeyBytes =? 32)%nat then Some AUTH_INVALID
      else if verify env pubkeyBytes (auth_digest pubkeyBytes epochId tail) sig then None
      else Some AUTH_INVALID
  | _ => Some AUTH_INVALID
  end.

Definition cosign (framedMsg : bytes) (leaves ts : jsval) : result SealCosign.SealCosignReason unit :=
  SealCosign.verifySealCosignEvidence (verify env) (cborDecode env) (hash_tree_root env) (decodeSealPayload env)
    (sha256 env) (buildSealTbs env) framedMsg leaves ts.

(** * Small steps *)

Definition respond (r : nat) (resp : Response) : Task unit := modify (λ n, with_sent n (sent n ++ [(r, resp)])).

Definition wait (r : nat) (a : Asking) : Task unit := modify (λ n, with_asking n (jset (asking n) r a)).

(** [registerThresholdSigner] and [registerPrimaryPubkey] of a signer that asks the client. *)
Definition register_signer (agentPubkey : string) (primary : bytes) : Task unit :=
  modify (λ n, with_signers n (jset (delegatedSigners n) agentPubkey primary) (jset (primaryPubkeys n) agentPubkey primary)).

Definition refusal_of {A} (res : result CeremonyReason A) : result Refusal A :=
  match res with Ok a => Ok a | Err c => Err (Ceremony c) end.

Definition agent_of (q : Request) : string :=
  match q with
  | FrostBootstrap a _ _ _ _ _ _ | CommitRequest a _ _ | SignRequest a _ _ _ _ _ _ _
  | RefreshRound1Request a _ _ _ | RefreshRound2Request a _ _ _ _ _ => a
  | DkgFrame _ => EmptyString
  end.

(** The answer to a request whose agent is suspended. *)
Definition suspended_response (q : Request) : Response :=
  match q with
  | CommitRequest _ _ _ => CommitResponse (Err AGENT_SUSPENDED)
  | SignRequest _ _ _ _ _ _ _ _ => SignResponse (Err AGENT_SUSPENDED)
  | _ => RefreshSuspended
  end.

(** * After the suspension check *)

Definition serve (r : nat) (q : Request) : Task unit :=
  match q with
  | CommitRequest a e _ =>
      res ← on_handler (generateCommitment env a e);
      respond r (CommitResponse (refusal_of res))
  | SignRequest a e msg commitmentList peer _ leaves ts =>
      match (if SealCosign.isSealFramedMessage msg then cosign msg leaves ts else Ok tt) with
      | Err reason => respond r (SignResponse (Err (NoEvidence reason)))
      | Ok _ =>
          res ← on_handler (signRawMessage env a e msg commitmentList peer);
          respond r (SignResponse (refusal_of res))
      end
  | RefreshRound1Request a from signers ids =>
      res ← on_handler (refreshRound1 env a from signers ids);
      respond r (RefreshResponse1 res)
  | RefreshRound2Request a from to signers ids contributions =>
      res ← on_handler (refreshRound2 env r a from to signers ids contributions);
      match res with Some res => respond r (RefreshResponse2 res) | None => mret tt end
  | _ => mret tt
  end.

(** * The gate of the first round of key generation *)

Definition start_dkg (r : nat) (a e : string) (signers : Signers) : Task unit :=
  res ← on_handler (dkgRound1 env a e signers);
  respond r (DkgResponse1 res).

(** [#nonceBinder.bind]: one nonce, one agent; whether it is bound to this one. *)
Definition bind_nonce (bs : jsmap string string) (nonce_ agentPubkey : string) : jsmap string string * bool :=
  match jget bs nonce_ with
  | None => (jset bs nonce_ agentPubkey, true)
  | Some existing => (bs, bool_decide (existing = agentPubkey))
  end.

Definition with_capability (r : nat) (a e : string) (signers : Signers) (capBlob : string) : Task unit :=
  match decodeCapability env capBlob, capabilityIssuerPubkey env with
  | Some cap, Some issuer =>
      t ← on_handler next_tick;
      match verifyCapability env t cap issuer with
      | Err reason =>
          respond r (PreauthError (if bool_decide (reason = "capability_expired") then PRE_AUTH_TOKEN_EXPIRED
                                   else PRE_AUTH_CAPABILITY_INVALID))
      | Ok _ => wait r (ABind a e signers cap)
      end
  | _, _ => respond r (PreauthError PRE_AUTH_TOKEN_MISSING)
  end.

Definition CLAIM_RETRIES : nat := 5.

Definition gate_dkg (r : nat) (a e : string) (signers : Signers) (preAuthToken : option string) : Task unit :=
  if bool_decide (is_Some (capabilityIssuerPubkey env)) && has_nonceBinder env then
    match truthy preAuthToken with
    | None => respond r (PreauthError PRE_AUTH_TOKEN_MISSING)
    | Some blob =>
        let capBlob := trim blob in
        if String.prefix "CELLO-" capBlob && has_pgPool env then wait r (AClaim a e signers capBlob CLAIM_RETRIES)
        else with_capability r a e signers capBlob
    end
  else if has_tokenValidator env then
    match truthy preAuthToken with
    | None => respond r (PreauthError PRE_AUTH_TOKEN_MISSING)
    | Some _ => wait r (AToken a e signers)
    end
  else start_dkg r a e signers.

Definition claim_answered (r : nat) (a e : string) (s : Signers) (code : string) (retries : nat) (ans : ClaimAnswer)
    : Task unit :=
  match ans, retries with
  | ClaimNotFound, S k => wait r (AClaim a e s code k)
  | ClaimOk blob, _ => with_capability r a e s blob
  | ClaimExpired, _ => respond r (PreauthError CLAIM_CODE_EXPIRED)
  | ClaimNotFound, O => respond r (PreauthError CLAIM_CODE_INVALID)
  end.

(** [bind] may fail before or after its row is written. *)
Definition bind_answered (r : nat) (a e : string) (s : Signers) (cap : Capability) (f : fate) : Task unit :=
  match f with
  | FailsBefore => throw "bind"
  | _ =>
      bs ← gets bindings;
      let '(bs', bound) := bind_nonce bs (nonce cap) a in
      _ ← modify (λ n, with_bindings n bs');
      match f with
      | Works =>
          if negb bound then respond r (PreauthError PRE_AUTH_TOKEN_CONSUMED)
          else
            _ ← modify (λ n, with_preauth n (jset (pendingPreAuthData n) a (phone_stub_hash cap, email_domain cap)));
            start_dkg r a e s
      | _ => throw "bind"
      end
  end.

Definition token_reason (reason : string) : PreauthReason :=
  if includes "CONSUMED" reason then PRE_AUTH_TOKEN_CONSUMED
  else if includes "EXPIRED" reason then PRE_AUTH_TOKEN_EXPIRED
  else PRE_AUTH_TOKEN_MISSING.

Definition token_answered (r : nat) (a e : string) (s : Signers) (ans : TokenAnswer) : Task unit :=
  match ans with
  | TokenRefused reason => respond r (PreauthError (token_reason reason))
  | TokenValid phone email =>
      _ ← modify (λ n, with_preauth n (jset (pendingPreAuthData n) a (phone, email)));
      start_dkg r a e s
  end.

(** What follows a finished third round on the stream. *)
Definition finish_dkg3 (r : nat) (a : string) (res : result DkgReason bytes) : Task unit :=
  match res with
  | Ok shareCommitment =>
      _ ← modify (λ n, with_commitments n (jset (pendingDkgCommitments n) a shareCommitment));
      _ ← register_signer a shareCommitment;
      respond r (DkgResponse3 res)
  | Err _ => respond r (DkgResponse3 res)
  end.

Definition handle_dkg (r : nat) (q : DkgRequest) : Task unit :=
  match q with
  | Round1Request a e signers token => gate_dkg r a e signers token
  | Round2Request a e others =>
      res ← on_handler (dkgRound2 env a e others);
      respond r (DkgResponse2 res)
  | Round3Request a e shares all_ =>
      res ← on_handler (dkgRound3 env r a e shares all_);
      match res with Some res => finish_dkg3 r a res | None => mret tt end
  end.

(** * [#handleFrostStream] up to its first wait *)

Definition handleFrostStream (r : nat) (q : Request) : Task unit :=
  match q with
  | FrostBootstrap a e identifier sk signers commitments verifyingShares =>
      let frostPub := public_value signers commitments verifyingShares in
      _ ← on_handler (injectShareForTest env a e (mkShare (secret_value identifier sk) frostPub));
      _ ← register_signer a (group_key frostPub);
      respond r BootstrapOk
  | CommitRequest a e authSig =>
      match verifyFrostAuth a e FROST_AUTH_COMMIT_TAIL authSig with
      | Some reason => respond r (CommitResponse (Err (Unauthenticated reason)))
      | None => wait r (ASuspension q)
      end
  | SignRequest a e msg _ _ authSig _ _ =>
      match verifyFrostAuth a e (sign_tail msg) authSig with
      | Some reason => respond r (SignResponse (Err (Unauthenticated reason)))
      | None => wait r (ASuspension q)
      end
  | DkgFrame frame =>
      match decodeFrostDkgRequest frame with Some q => handle_dkg r q | None => mret tt end
  | RefreshRound1Request _ _ _ _ | RefreshRound2Request _ _ _ _ _ _ => wait r (ASuspension q)
  end.

(** [#isAgentPaused] once the suspension is read ([None]: the read threw, and counts as
    suspended); a suspension starts the look for a burn. *)
Definition suspension_answered (r : nat) (q : Request) (ans : option bool) : Task unit :=
  match ans with
  | Some false => wait r (AProfile q)
  | Some true => _ ← wait r (ABurned (agent_of q)); respond r (suspended_response q)
  | None => respond r (suspended_response q)
  end.

(** * Inputs *)

Inductive input :=
| Asked (q : Request)                                 (* a stream with its request *)
| SuspensionKnown (r : nat) (paused : option bool)    (* isAgentSuspended *)
| ProfileKnown (r : nat)                              (* hasAgentProfile, whatever it says *)
| BurnKnown (r : nat) (burned : option bool)          (* isAgentBurned *)
| ClaimKnown (r : nat) (ans : ClaimAnswer)
| BindDone (r : nat) (f : fate)
| TokenKnown (r : nat) (ans : TokenAnswer)
| Lands (t : nat)                                     (* the database executes a statement *)
| Answered (r : nat) (ok : bool)                      (* … and its caller learns of it *)
| BurnSwept (agentPubkey : string)                    (* reconcileBurnedShares, one agent *)
| CeremonyBegins (initiatorHex ceremony : string)     (* the node's own session ceremony *)
| CeremonyEnds (initiatorHex : string)
| BootstrapCalled (agentPubkey : string)              (* the test harness *)
| RoundAsked (agentPubkey epochId : string) (tbs : bytes) (context : string) (commitmentList : list jsval) (peer : string)
| Restarted.

(** A stream that was waiting goes on; it waits no more unless it says so. *)
Definition resume (r : nat) (k : Asking → Task unit) : Task unit :=
  a ← gets (λ n, jget (asking n) r);
  match a with
  | Some a => _ ← modify (λ n, with_asking n (jdel (asking n) r)); k a
  | None => mret tt
  end.

Definition on_completion (r : nat) (c : option Completion) : Task unit :=
  match c with
  | Some (CDkgRound3 a res) => finish_dkg3 r a res
  | Some (CRefreshRound2 res) => respond r (RefreshResponse2 res)
  | Some (CDestroyed _ _) | None => mret tt
  end.

(** The conflict check and the mark of [#processSessionRequest]. *)
Definition begin_ceremony (initiatorHex ceremony : string) : Task unit :=
  let epochId := initiatorHex +:+ ":epoch:1" in
  conflict ← gets (λ n, checkConflict (handler n) initiatorHex epochId ceremony);
  if conflict : bool then mret tt else on_handler (markInFlight initiatorHex epochId ceremony ceremony).

Definition handle (r : nat) (i : input) : Task unit :=
  match i with
  | Asked q => handleFrostStream r q
  | SuspensionKnown r paused =>
      resume r (λ a, match a with ASuspension q => suspension_answered r q paused | a => wait r a end)
  | ProfileKnown r => resume r (λ a, match a with AProfile q => serve r q | a => wait r a end)
  | BurnKnown r burned =>
      resume r (λ a, match a with
        | ABurned agent => if bool_decide (burned = Some true) then on_handler (destroyShares r agent) else mret tt
        | a => wait r a end)
  | ClaimKnown r ans =>
      resume r (λ a, match a with AClaim a e s code k => claim_answered r a e s code k ans | a => wait r a end)
  | BindDone r f => resume r (λ a, match a with ABind a e s cap => bind_answered r a e s cap f | a => wait r a end)
  | TokenKnown r ans => resume r (λ a, match a with AToken a e s => token_answered r a e s ans | a => wait r a end)
  | Lands t => modify (λ n, with_handler n (lands t (handler n)))
  | Answered r ok => c ← on_handler (answered r ok); on_completion r c
  | BurnSwept agent => on_handler (destroyShares r agent)
  | CeremonyBegins a c => begin_ceremony a c
  | CeremonyEnds a => on_handler (clearInFlight a (a +:+ ":epoch:1"))
  | BootstrapCalled a => _ ← on_handler (bootstrapKeyShares env a); mret tt
  | RoundAsked a e tbs context commitmentList peer =>
      _ ← on_handler (handleCeremonyRound env a e tbs context commitmentList peer); mret tt
  | Restarted => mret tt
  end.

(** A new process: only the table, the bindings and what it has sent are left. *)
Definition reboot (n : Node) : Node :=
  let '(h, ok) := restart env (handler n) in
  mkNode h ok (steps n) [] (bindings n) [] [] [] [] (sent n).

(** One input; a stream is named by the place of its request among the inputs, and a
    process that did not start handles nothing. *)
Definition run_input (n : Node) (i : input) : Node :=
  let n' :=
    match i with
    | Restarted => reboot n
    | Lands t => (handle (steps n) (Lands t) n).1
    | _ => if up n then (handle (steps n) i n).1 else n
    end in
  with_steps n' (S (steps n)).

Definition run (n : Node) (inputs : list input) : Node := foldl run_input n inputs.

End Node.
End FrostNode.
