(* ===== verification/FrostInvariant.v ===== *)
(** What every run of the signing handler keeps: a nonce is used once, and every share
    that is held or signed with was dealt to this node or refreshed from one that was. *)
From S2P Require Import Prelude Text JsMap Effects Bytes Wire FrostShares FrostFrames FrostHandler FrostNode.
Import Text JsMap Effects Bytes Wire FrostShares FrostFrames FrostHandler FrostNode.

Module FrostInvariant.

Lemma elem_jset_key {K V} `{EqDecision K} (m : jsmap K V) k v e : e ∈ jset m k v → e ∈ m ∨ e = (k, v).
Proof.
  induction m as [|[q w] m IH]; cbn; [intros ->%list_elem_of_singleton; by right|].
  destruct (decide (q = k)) as [->|]; rewrite !elem_of_cons; [naive_solver|]. intros [->|H]; [by left; left|].
  destruct (IH H); [by left; right|by right].
Qed.

Lemma elem_jdel {K V} `{EqDecision K} (m : jsmap K V) k e : e ∈ jdel m k → e ∈ m.
Proof. intros H. eapply sublist_subseteq; [apply jdel_sublist|exact H]. Qed.

Lemma filter_sublist {A} (p : A → bool) l : List.filter p l `sublist_of` l.
Proof. induction l as [|x l IH]; cbn; [done|]. destruct (p x); by constructor. Qed.

Lemma elem_filter {A} (p : A → bool) l x : x ∈ List.filter p l → x ∈ l.
Proof. intros H. eapply sublist_subseteq; [apply filter_sublist|exact H]. Qed.

(** * The operations as equations *)

Section Equations.
Context (env : FrostEnv).

Lemma generateCommitment_eq a e h :
  generateCommitment env a e h =
  if isExpiredEpoch h a e then (h, Ok (Err EPOCH_EXPIRED))
  else match getShare (memory h) a e with
  | None => (h, Ok (Err AGENT_NOT_BOOTSTRAPPED))
  | Some share =>
      let live := pendingNonces (sweep_nonces (clock env (tick h)) h) in
      let h1 := with_pendingNonces (with_tick h (S (S (tick h)))) (jdel live (key_of a e)) in
      match commit env (S (tick h)) (secret share) with
      | None => (h1, Ok (Err AGENT_NOT_BOOTSTRAPPED))
      | Some (nonces, commitments) =>
          (with_pendingNonces h1 (jset (pendingNonces h1) (key_of a e)
             (mkPending nonces share (clock env (tick h) + PENDING_NONCE_TTL_MS))), Ok (Ok (nodeId env, commitments)))
      end
  end.
Proof.
  unfold generateCommitment, now, next_tick, drop_nonce, gets, modify, mbind, act_bind, mret, act_ret.
  destruct (isExpiredEpoch h a e); [done|]. destruct (getShare (memory h) a e) as [share|]; [|done].
  cbn. destruct (commit env _ _) as [[? ?]|]; reflexivity.
Qed.

Lemma signRawMessage_eq a e msg l peer h :
  signRawMessage env a e msg l peer h =
  if checkConflict h a e peer then (h, Ok (Err CEREMONY_CONFLICT))
  else
    let h1 := with_tick h (S (tick h)) in
    match jget (pendingNonces h) (key_of a e) with
    | None => (h1, Ok (Err AGENT_NOT_BOOTSTRAPPED))
    | Some p =>
        let h2 := with_pendingNonces h1 (jdel (pendingNonces h) (key_of a e)) in
        if (expiresAt p <? clock env (tick h))%Z then (h2, Ok (Err AGENT_NOT_BOOTSTRAPPED))
        else (with_calls h2 (calls h ++ [mkCall (p_share p) (p_nonce p) l msg]),
              Ok (match signShare env (p_share p) (p_nonce p) l msg with
                  | Some sig => Ok sig | None => Err AGENT_NOT_BOOTSTRAPPED end))
    end.
Proof.
  unfold signRawMessage, sign_with, now, next_tick, drop_nonce, gets, modify, mbind, act_bind, mret, act_ret.
  destruct (checkConflict h a e peer); [done|]. cbn. destruct (jget (pendingNonces h) (key_of a e)) as [p|]; [|done].
  cbn. destruct (expiresAt p <? _)%Z; reflexivity.
Qed.

Lemma handleCeremonyRound_eq a e tbs ctx l peer h :
  handleCeremonyRound env a e tbs ctx l peer h =
  if checkConflict h a e peer then (h, Ok (Err CEREMONY_CONFLICT))
  else match getShare (memory h) a e with
  | None => (h, Ok (Err (if isExpiredEpoch h a e then EPOCH_EXPIRED else AGENT_NOT_BOOTSTRAPPED)))
  | Some share =>
      let h1 := with_tick h (S (tick h)) in
      match commit env (tick h) (secret share) with
      | None => (h1, Err "commit")
      | Some (nonces, c) =>
          (with_calls h1 (calls h ++ [mkCall share nonces (l ++ [c]) (frameMessage ctx tbs)]),
           Ok (match signShare env share nonces (l ++ [c]) (frameMessage ctx tbs) with
               | Some sig => Ok sig | None => Err AGENT_NOT_BOOTSTRAPPED end))
      end
  end.
Proof.
  unfold handleCeremonyRound, signWithShare, sign_with, next_tick, gets, modify, throw, mbind, act_bind, mret, act_ret.
  destruct (checkConflict h a e peer); [done|]. destruct (getShare (memory h) a e) as [share|]; [|done].
  cbn. destruct (commit env _ _) as [[? ?]|]; reflexivity.
Qed.

End Equations.

(** * Properties of the handler that every input keeps *)

Section Runs.
Context (env : NodeEnv).

(** The agents whose shares and epochs an input may set satisfy [P]. *)
Definition resumes (P : string → Prop) (h : Handler) (r : nat) : Prop :=
  match jget (waiting h) r with
  | Some (_, WDkgRound3 a _ _) | Some (_, WRefreshRound2 a _ _) => P a
  | _ => True
  end.

Definition allowed (P : string → Prop) (n : Node) (i : input) : Prop :=
  match i with
  | Answered r _ => resumes P (handler n) r
  | BootstrapCalled a | Asked (FrostBootstrap a _ _ _ _ _ _) => P a
  | _ => True
  end.

(** A property of the handler that each of its operations keeps, and the database's
    progress too; what sets the epoch of an agent only for agents of [P]. *)
Record respected (P : string → Prop) (I : Handler → Prop) : Prop := {
  r_tick : preserves I next_tick;
  r_commit a e : preserves I (generateCommitment env a e);
  r_sign a e msg l peer : preserves I (signRawMessage env a e msg l peer);
  r_round a e tbs ctx l peer : preserves I (handleCeremonyRound env a e tbs ctx l peer);
  r_dkg1 a e s : preserves I (dkgRound1 env a e s);
  r_dkg2 a e o : preserves I (dkgRound2 env a e o);
  r_dkg3 r a e s o : preserves I (dkgRound3 env r a e s o);
  r_refresh1 a f s ids : preserves I (refreshRound1 env a f s ids);
  r_refresh2 r a f t s ids c : preserves I (refreshRound2 env r a f t s ids c);
  r_inject a e share : P a → preserves I (injectShareForTest env a e share);
  r_bootstrap a : P a → preserves I (bootstrapKeyShares env a);
  r_destroy r a : preserves I (destroyShares r a);
  r_mark a e p c : preserves I (markInFlight a e p c);
  r_clear a e : preserves I (clearInFlight a e);
  r_answered r ok h : resumes P h r → I h → wp (answered r ok) h (λ _, I) I;
  r_lands t h : I h → I (lands t h) }.

(** Steps of the node that leave the handler alone. *)
Definition apart (f : Node → Node) : Prop := ∀ n, handler (f n) = handler n.

Lemma preserves_apart (I : Handler → Prop) f : apart f → preserves (λ n, I (handler n)) (modify f : Task unit).
Proof. intros Hf n Hn. apply wp_modify. by rewrite Hf. Qed.

Lemma preserves_on_handler {A} (I : Handler → Prop) (m : M A) :
  preserves I m → preserves (λ n, I (handler n)) (on_handler m).
Proof.
  intros Hm n Hn. pose proof (Hm _ Hn) as H. unfold wp, on_handler in *. by destruct (m (handler n)) as [h [x|x]].
Qed.

Lemma handle_respects P I :
  respected P I → ∀ r i n, allowed P n i → I (handler n) → wp (handle env r i) n (λ _ n, I (handler n)) (λ n, I (handler n)).
Proof.
  intros HI r i n Ha Hn. destruct HI.
  assert (∀ r resp, preserves (λ n, I (handler n)) (respond r resp)) by (intros; by apply preserves_apart).
  assert (∀ r a, preserves (λ n, I (handler n)) (wait r a)) by (intros; by apply preserves_apart).
  assert (∀ a b, preserves (λ n, I (handler n)) (register_signer a b)) by (intros; by apply preserves_apart).
  pose proof (@preserves_on_handler) as Hon.
  assert (∀ r k, (∀ a, preserves (λ n, I (handler n)) (k a)) → preserves (λ n, I (handler n)) (resume r k)) as Hres.
  { intros r' k Hk. unfold resume. preserve; try by apply preserves_apart. }
  assert (∀ r a e s, preserves (λ n, I (handler n)) (start_dkg env r a e s)) by (intros; unfold start_dkg; preserve).
  assert (∀ r a e s b, preserves (λ n, I (handler n)) (with_capability env r a e s b)) by (intros; unfold with_capability; preserve).
  assert (∀ r a res, preserves (λ n, I (handler n)) (finish_dkg3 r a res)).
  { intros r' a [?|?]; unfold finish_dkg3; preserve; try by apply preserves_apart. }
  destruct i; cbn [handle allowed] in *; try (revert n Hn;
    match goal with |- ∀ n, _ → wp ?m n _ _ => change (preserves (λ n, I (handler n)) m) end).
  - destruct q; unfold handleFrostStream, handle_dkg, gate_dkg; preserve.
  - apply Hres. intros a. unfold suspension_answered. preserve.
  - apply Hres. intros a. unfold serve. preserve.
  - apply Hres. intros a. preserve.
  - apply Hres. intros a. unfold claim_answered. preserve.
  - apply Hres. intros a. unfold bind_answered. preserve; try by apply preserves_apart.
  - apply Hres. intros a. unfold token_answered. preserve; try by apply preserves_apart.
  - intros n Hn. apply wp_modify. cbn. eauto.
  - apply wp_bind. pose proof (r_answered0 r0 ok _ Ha Hn) as Hk. revert Hk. unfold wp at 1 2, on_handler.
    destruct (answered r0 ok (handler n)) as [h [c|x]]; intros Hk; [|done].
    assert (preserves (λ n, I (handler n)) (on_completion r0 c)) as Hc by (unfold on_completion; preserve). by apply Hc.
  - preserve.
  - unfold begin_ceremony. preserve.
  - preserve.
  - preserve.
  - preserve.
  - preserve.
Qed.

Lemma run_input_respects P I n i :
  respected P I → (i = Restarted → ∀ h, I h → I (restart env h).1) → allowed P n i →
  I (handler n) → I (handler (run_input env n i)).
Proof.
  intros HI Hr Ha Hn. unfold run_input. cbn [handler with_steps].
  assert (I (handler (handle env (steps n) i n).1)) as H.
  { apply (wp_final _ _ (λ n, I (handler n))). by eapply handle_respects. }
  destruct i; try (destruct (up n); done).
  unfold reboot. specialize (Hr eq_refl _ Hn). destruct (restart env (handler n)) as [h ok]. exact Hr.
Qed.

(** When every agent counts. *)
Lemma run_respects I :
  respected (λ _, True) I → (∀ h, I h → I (restart env h).1) →
  ∀ inputs n, I (handler n) → I (handler (run env n inputs)).
Proof.
  intros HI Hr inputs. induction inputs as [|i inputs IH]; intros n Hn; [done|]. apply IH.
  eapply run_input_respects; [exact HI|by intros _| |done].
  destruct i as [[]| | | | | | | | | | | | | |]; try done. cbn. unfold resumes. by repeat case_match.
Qed.

End Runs.

(** * Nonces *)

Section Nonces.
Context (env : NodeEnv).

Definition pending_nonces (m : jsmap string Pending) : list jsval := map (λ e, p_nonce e.2) m.

(** The nonces that were signed with, and those that wait for a message. *)
Definition nonces_of (h : Handler) : list jsval := map c_nonce (calls h) ++ pending_nonces (pendingNonces h).

Definition drawn (h : Handler) (n : jsval) : Prop := ∃ t s c, t < tick h ∧ commit env t s = Some (n, c).

Record nonces_inv (h : Handler) : Prop := {
  nv_wf : jwf (pendingNonces h);
  nv_drawn : Forall (drawn h) (nonces_of h);
  nv_once : NoDup (nonces_of h) }.

(** The package draws a nonce afresh in every call. *)
Definition fresh_commits : Prop :=
  ∀ t s c t' s' c' n, commit env t s = Some (n, c) → commit env t' s' = Some (n, c') → t = t'.

Lemma drawn_later h h' n : tick h <= tick h' → drawn h n → drawn h' n.
Proof. intros Ht (t & s & c & Hl & E). exists t, s, c. split; [lia|done]. Qed.

Lemma all_drawn_later h h' l : tick h <= tick h' → Forall (drawn h) l → Forall (drawn h') l.
Proof. intros Ht. apply List.Forall_impl. intros n. by apply drawn_later. Qed.

(** Less is pending, nothing more was signed, and time passed. *)
Lemma nonces_shrink h h' :
  pendingNonces h' `sublist_of` pendingNonces h → calls h' = calls h → tick h <= tick h' → nonces_inv h → nonces_inv h'.
Proof.
  intros Hp Hc Ht [Hw Hd Hn].
  assert (nonces_of h' `sublist_of` nonces_of h) as Hs.
  { unfold nonces_of. rewrite Hc. apply sublist_app; [done|]. by apply fmap_sublist. }
  split.
  - eapply sublist_NoDup; [exact Hw|]. by apply fmap_sublist.
  - rewrite list.Forall_forall in *. intros n Hin. eapply drawn_later; [exact Ht|].
    apply Hd. by eapply sublist_subseteq.
  - by eapply sublist_NoDup.
Qed.

Lemma nonces_same h h' :
  pendingNonces h' = pendingNonces h → calls h' = calls h → tick h <= tick h' → nonces_inv h → nonces_inv h'.
Proof. intros Hp. apply nonces_shrink. by rewrite Hp. Qed.

(** A nonce drawn at this very tick is none of the earlier ones. *)
Lemma drawn_now h n s c : fresh_commits → nonces_inv h → commit env (tick h) s = Some (n, c) → n ∉ nonces_of h.
Proof.
  intros Hf [_ Hd _] E Hin. rewrite List.Forall_forall in Hd. apply list_elem_of_In, Hd in Hin as (t & s' & c' & Hl & E').
  pose proof (Hf _ _ _ _ _ _ _ E E'). lia.
Qed.

(** A pending nonce moves to the signed ones. *)
Lemma pending_take (m : jsmap string Pending) k p :
  jget m k = Some p → pending_nonces m ≡ₚ p_nonce p :: pending_nonces (jdel m k).
Proof.
  unfold pending_nonces. induction m as [|[q w] m IH]; cbn; [done|]. destruct (decide (q = k)).
  - by intros [= ->].
  - intros H. cbn. rewrite (IH H). apply Permutation_swap.
Qed.

Lemma nonces_sign h t k p l msg :
  nonces_inv h → jget (pendingNonces h) k = Some p → tick h <= t →
  nonces_inv (with_calls (with_pendingNonces (with_tick h t) (jdel (pendingNonces h) k))
                (calls h ++ [mkCall (p_share p) (p_nonce p) l msg])).
Proof.
  intros [Hw Hd Hn] E Ht.
  assert (nonces_of h ≡ₚ nonces_of (with_calls (with_pendingNonces (with_tick h t) (jdel (pendingNonces h) k))
                (calls h ++ [mkCall (p_share p) (p_nonce p) l msg]))) as HP.
  { unfold nonces_of. cbn. rewrite map_app, (pending_take _ _ _ E), <- app_assoc. done. }
  split.
  - by apply jwf_jdel.
  - rewrite <- HP. by eapply all_drawn_later; [|exact Hd].
  - by rewrite <- HP.
Qed.

Lemma nonces_respected : fresh_commits → respected env (λ _, True) nonces_inv.
Proof.
  intros Hf.
  assert (∀ h h', pendingNonces h' = pendingNonces h → calls h' = calls h → tick h <= tick h' → nonces_inv h → nonces_inv h') as Hsame
    by apply nonces_same.
  assert (preserves nonces_inv next_tick) as Htick.
  { intros h Hh. unfold wp, next_tick. eapply nonces_same; [..|exact Hh]; cbn; auto. }
  assert (∀ f, (∀ h, pendingNonces (f h) = pendingNonces h ∧ calls (f h) = calls h ∧ tick h <= tick (f h)) →
               preserves nonces_inv (modify f : M unit)) as Hmod.
  { intros f H h Hh. apply wp_modify. destruct (H h) as (? & ? & ?). by eapply nonces_same. }
  assert (∀ a e share, preserves nonces_inv (send_insert env a e share)) as Hins.
  { intros. unfold send_insert. preserve. by eapply nonces_same; [..|eassumption]. }
  assert (∀ a e share, preserves nonces_inv (store_memory a e share)) as Hmem by (intros; apply Hmod; done).
  assert (∀ k s, preserves nonces_inv (set_dkg k s)) as Hset by (intros; apply Hmod; done).
  assert (∀ k, preserves nonces_inv (drop_dkg k)) as Hdrop by (intros; apply Hmod; done).
  assert (∀ a n, preserves nonces_inv (set_epoch a n)) as Hep by (intros; apply Hmod; done).
  assert (∀ a e share, preserves nonces_inv (storeShare_forget env a e share)) by (intros; unfold storeShare_forget; preserve).
  assert (∀ r a e share w, preserves nonces_inv (storeShareDurable env r a e share w)).
  { intros. unfold storeShareDurable, await. preserve. by eapply nonces_same; [..|eassumption]. }
  split.
  - done.
  - intros a e h Hh. unfold wp. rewrite generateCommitment_eq. destruct (isExpiredEpoch h a e); [done|].
    destruct (getShare (memory h) a e) as [share|]; [|done]. cbn [pendingNonces sweep_nonces with_pendingNonces].
    set (live := List.filter _ _).
    set (h1 := with_pendingNonces (with_tick h (S (tick h))) (jdel live (key_of a e))).
    assert (nonces_inv h1) as H1.
    { eapply nonces_shrink; [| | |exact Hh]; [|done|cbn; lia].
      etrans; [apply jdel_sublist|apply filter_sublist]. }
    destruct (commit env (S (tick h)) (secret share)) as [[n c]|] eqn:E.
    + pose proof (drawn_now h1 n _ _ Hf H1 E) as Hn. destruct H1 as [Hw Hd Ho].
      assert (key_of a e ∉ jkeys (jdel live (key_of a e))) as Hk.
      { apply jget_None. rewrite jget_jdel by (apply jwf_filter, Hh). by rewrite decide_True. }
      split; unfold nonces_of; cbn [pendingNonces calls with_pendingNonces with_tick].
      * by apply jwf_jset.
      * unfold pending_nonces. rewrite (jset_fresh _ _ _ Hk), map_app, app_assoc. apply Forall_app. split.
        -- eapply all_drawn_later; [|exact Hd]. cbn. lia.
        -- repeat constructor. exists (S (tick h)), (secret share), c. split; [cbn; lia|done].
      * unfold pending_nonces. rewrite (jset_fresh _ _ _ Hk), map_app, app_assoc. apply NoDup_app. split; [exact Ho|].
        split; [|apply NoDup_singleton]. intros x Hx ->%list_elem_of_singleton. done.
    + by eapply nonces_same; [..|exact H1]; cbn; auto.
  - intros a e msg l peer h Hh. unfold wp. rewrite signRawMessage_eq. destruct (checkConflict h a e peer); [done|].
    destruct (jget (pendingNonces h) (key_of a e)) as [p|] eqn:E; [|by eapply nonces_same; [..|exact Hh]; cbn; auto].
    destruct (expiresAt p <? _)%Z.
    + eapply nonces_shrink; [apply jdel_sublist|done|cbn; lia|exact Hh].
    + by apply nonces_sign; [..|cbn; lia].
  - intros a e tbs ctx l peer h Hh. unfold wp. rewrite handleCeremonyRound_eq. destruct (checkConflict h a e peer); [done|].
    destruct (getShare (memory h) a e) as [share|]; [|done].
    destruct (commit env (tick h) (secret share)) as [[n c]|] eqn:E; [|by eapply nonces_same; [..|exact Hh]; cbn; auto].
    pose proof (drawn_now h n _ _ Hf Hh E) as Hn. destruct Hh as [Hw Hd Ho].
    assert (nonces_of (with_calls (with_tick h (S (tick h))) (calls h ++ [mkCall share n (l ++ [c]) (frameMessage ctx tbs)]))
            ≡ₚ n :: nonces_of h) as HP.
    { unfold nonces_of. cbn. rewrite map_app, <- app_assoc. cbn. by rewrite Permutation_middle. }
    split; [done| |].
    + rewrite HP. constructor; [exists (tick h), (secret share), c; split; [cbn; lia|done]|].
      eapply all_drawn_later; [|exact Hd]. cbn. lia.
    + rewrite HP. by constructor.
  - intros. unfold dkgRound1. preserve.
  - intros. unfold dkgRound2. preserve.
  - intros. unfold dkgRound3. preserve.
  - intros. unfold refreshRound1. preserve.
  - intros. unfold refreshRound2. preserve.
  - intros. unfold injectShareForTest. preserve.
  - intros. unfold bootstrapKeyShares. preserve.
  - intros. unfold destroyShares, await. preserve; by eapply nonces_same; [..|eassumption].
  - intros. by apply Hmod.
  - intros. by apply Hmod.
  - intros r ok h _. revert h. change (preserves nonces_inv (answered r ok)).
    unfold answered, dkgRound3_stored, refreshRound2_stored. preserve; by eapply nonces_same; [..|eassumption].
  - intros r h Hh. unfold lands. destruct (jget (queries h) r); [|done]. by eapply nonces_same; [..|exact Hh].
Qed.

Lemma nonces_restart h : nonces_inv h → nonces_inv (restart env h).1.
Proof.
  intros Hh. unfold restart. destruct (loadShares _ _ _ _ _ _) as [m failed].
  cbn [fst]. eapply (nonces_shrink h); [apply sublist_nil_l|done|cbn; lia|exact Hh].
Qed.

Lemma initial_nonces : nonces_inv initial_handler.
Proof. split; constructor. Qed.

Lemma run_nonces inputs : fresh_commits → nonces_inv (handler (run env initial inputs)).
Proof. intros Hf. apply run_respects; [by apply nonces_respected|apply nonces_restart|apply initial_nonces]. Qed.

End Nonces.

(** * Statements *)

Section Writes.
Context (env : NodeEnv).

(** The statement that stores a share. *)
Definition stores (t : nat) (a e : string) (share : LocalShare) (q : Query) : Prop :=
  ∃ c, q = QInsert a e c ∧ encrypt_share (encrypt env) t a e (share_bytes env share) = Some c.

(** The statement that a call waits for. *)
Definition describes (t : nat) (w : Waiting) (q : Query) : Prop :=
  match w with
  | WDkgRound3 a e share | WRefreshRound2 a e share => stores t a e share q
  | WDestroy a => q = QZero a
  end.

Record writes_inv (h : Handler) : Prop := {
  wv_ids t q : (t, q) ∈ queries h ∨ (t, q) ∈ landed h → t < tick h;
  wv_waiting r t w : (r, (t, w)) ∈ waiting h →
    t < tick h ∧ ∀ q, (t, q) ∈ queries h ∨ (t, q) ∈ landed h → describes t w q;
  wv_table : table h = foldr (λ e tb, execute tb e.2) [] (landed h) }.

Lemma writes_same h h' :
  queries h' = queries h → landed h' = landed h → waiting h' ⊆ waiting h → table h' = table h → tick h <= tick h' →
  writes_inv h → writes_inv h'.
Proof.
  intros E1 E2 E3 E4 Ht [Hi Hw Hb]. split.
  - rewrite E1, E2. intros t q H. pose proof (Hi t q H). lia.
  - intros r t w H. rewrite E1, E2. destruct (Hw r t w) as [? ?]; [by apply E3|]. split; [lia|done].
  - by rewrite E4, E2.
Qed.

(** A statement is sent under the present tick. *)
Lemma writes_send h q :
  writes_inv h → writes_inv (with_queries (with_tick h (S (tick h))) (jset (queries h) (tick h) q)).
Proof.
  intros [Hi Hw Hb]. split; cbn; [| |done].
  - intros t p [[H|[= -> ->]]%elem_jset_key|H]; [|lia|]; pose proof (Hi t p ltac:(auto)); lia.
  - intros r t w H. destruct (Hw r t w H) as [Hl Hq]. split; [lia|].
    intros p [[Hp|[= -> ->]]%elem_jset_key|Hp]; [by apply Hq; left|lia|by apply Hq; right].
Qed.

Lemma writes_await r t w h :
  writes_inv h → t < tick h → (∀ q, (t, q) ∈ queries h ∨ (t, q) ∈ landed h → describes t w q) →
  writes_inv (with_waiting h (jset (waiting h) r (t, w))).
Proof.
  intros [Hi Hw Hb] Ht Hd. split; cbn; [done| |done].
  intros r' t' w' [H|[= -> -> ->]]%elem_jset_key; [eauto|done].
Qed.

Lemma writes_insert a e share h :
  writes_inv h → wp (send_insert env a e share) h
    (λ t h', writes_inv h' ∧ t < tick h' ∧ ∀ q, (t, q) ∈ queries h' ∨ (t, q) ∈ landed h' → stores t a e share q) writes_inv.
Proof.
  intros Hh. unfold send_insert, wp, next_tick, mbind, act_bind, modify, mret, act_ret.
  assert (∀ q, (tick h, q) ∈ queries h ∨ (tick h, q) ∈ landed h → False) as Hno.
  { intros q H. apply (wv_ids _ Hh) in H. lia. }
  destruct (encrypt_share (encrypt env) (tick h) a e (share_bytes env share)) as [c|] eqn:E.
  - split; [exact (writes_send h _ Hh)|]. cbn. split; [lia|]. intros q [[H|[= ->]]%elem_jset_key|H].
    + by destruct (Hno q); left.
    + by exists c.
    + by destruct (Hno q); right.
  - split; [by eapply writes_same; [..|exact Hh]; cbn; auto|]. cbn. split; [lia|]. intros q H. by destruct (Hno q).
Qed.

Lemma writes_durable r a e share w h :
  (∀ t q, stores t a e share q → describes t w q) →
  writes_inv h → wp (storeShareDurable env r a e share w) h (λ _, writes_inv) writes_inv.
Proof.
  intros Hd Hh. unfold storeShareDurable. apply wp_bind, wp_modify. apply wp_bind.
  eapply wp_mono; [apply writes_insert; by eapply writes_same; [..|exact Hh]| |done].
  intros t h' (Hh' & Ht & Hq). apply wp_modify. apply writes_await; [done|done|]. intros q Hin. by apply Hd, Hq.
Qed.

Lemma writes_respected : respected env (λ _, True) writes_inv.
Proof.
  assert (preserves writes_inv next_tick) as Htick.
  { intros h Hh. unfold wp, next_tick. by eapply writes_same; [..|exact Hh]; cbn; auto. }
  assert (∀ f, (∀ h, queries (f h) = queries h ∧ landed (f h) = landed h ∧ waiting (f h) ⊆ waiting h ∧
                     table (f h) = table h ∧ tick h <= tick (f h)) → preserves writes_inv (modify f : M unit)) as Hmod.
  { intros f H h Hh. apply wp_modify. destruct (H h) as (? & ? & ? & ? & ?). by eapply writes_same. }
  assert (∀ k s, preserves writes_inv (set_dkg k s)) as Hset by (intros; apply Hmod; done).
  assert (∀ k, preserves writes_inv (drop_dkg k)) as Hdrop by (intros; apply Hmod; done).
  assert (∀ a n, preserves writes_inv (set_epoch a n)) as Hep by (intros; apply Hmod; done).
  assert (∀ a e share, preserves writes_inv (storeShare_forget env a e share)).
  { intros a e share h Hh. unfold storeShare_forget. apply wp_bind, wp_modify. apply wp_bind.
    eapply wp_mono; [apply writes_insert; by eapply writes_same; [..|exact Hh]| |done]. by intros t h' (? & _). }
  assert (∀ r a e share, preserves writes_inv (storeShareDurable env r a e share (WDkgRound3 a e share))) by
    (intros r a e share h; by apply writes_durable).
  assert (∀ r a e share, preserves writes_inv (storeShareDurable env r a e share (WRefreshRound2 a e share))) by
    (intros r a e share h; by apply writes_durable).
  split.
  - done.
  - intros a e h Hh. unfold wp. rewrite generateCommitment_eq. destruct (isExpiredEpoch h a e); [done|].
    destruct (getShare (memory h) a e) as [share|]; [|done]. cbv zeta.
    destruct (commit env _ _) as [[? ?]|]; (eapply writes_same; [..|exact Hh]; cbn; auto).
  - intros a e msg l peer h Hh. unfold wp. rewrite signRawMessage_eq. destruct (checkConflict h a e peer); [done|].
    cbv zeta. destruct (jget (pendingNonces h) (key_of a e)) as [p|]; [destruct (expiresAt p <? _)%Z|];
      (eapply writes_same; [..|exact Hh]; cbn; auto).
  - intros a e tbs ctx l peer h Hh. unfold wp. rewrite handleCeremonyRound_eq. destruct (checkConflict h a e peer); [done|].
    destruct (getShare (memory h) a e) as [share|]; [|done]. cbv zeta.
    destruct (commit env _ _) as [[? ?]|]; (eapply writes_same; [..|exact Hh]; cbn; auto).
  - intros. unfold dkgRound1. preserve.
  - intros. unfold dkgRound2. preserve.
  - intros. unfold dkgRound3. preserve.
  - intros. unfold refreshRound1. preserve.
  - intros. unfold refreshRound2. preserve.
  - intros. unfold injectShareForTest. preserve.
  - intros. unfold bootstrapKeyShares. preserve.
  - intros r a h Hh. unfold destroyShares, await. apply wp_bind, wp_modify. apply wp_bind. unfold wp, next_tick.
    apply wp_bind, wp_modify, wp_modify. apply writes_await; [apply (writes_send (with_memory h _)); by eapply writes_same; [..|exact Hh]|cbn; lia|].
    cbn. intros q [[Hin|[= ->]]%elem_jset_key|Hin]; [|done|]; exfalso; pose proof (wv_ids _ Hh (tick h) q ltac:(auto)); lia.
  - intros. by apply Hmod.
  - intros. by apply Hmod.
  - intros r ok h _. revert h. change (preserves writes_inv (answered r ok)).
    unfold answered, dkgRound3_stored, refreshRound2_stored. preserve.
    all: eapply writes_same; [..|eassumption]; try done; intros x; apply elem_jdel.
  - intros t h [Hi Hw Hb]. unfold lands. destruct (jget (queries h) t) as [q|] eqn:E; [|done]. apply jget_elem in E.
    split; cbn.
    + intros t' p [H'%elem_jdel|[[= -> ->]|H']%elem_of_cons]; eauto.
    + intros r t' w Hin. destruct (Hw _ _ _ Hin) as [Hl Hq]. split; [done|].
      intros p [H'%elem_jdel|[[= -> ->]|H']%elem_of_cons]; eauto.
    + by rewrite Hb.
Qed.

Lemma writes_restart h : writes_inv h → writes_inv (restart env h).1.
Proof.
  intros Hh. unfold restart. destruct (loadShares _ _ _ _ _ _) as [m failed]. cbn [fst].
  eapply writes_same; [..|exact Hh]; cbn; try done; [set_solver|lia].
Qed.

Lemma initial_writes : writes_inv initial_handler.
Proof. split; cbn; set_solver. Qed.

Lemma run_writes inputs : writes_inv (handler (run env initial inputs)).
Proof. apply run_respects; [apply writes_respected|apply writes_restart|apply initial_writes]. Qed.

End Writes.
End FrostInvariant.
