(* ===== verification/FrostAuthorised.v ===== *)
(** Where a directory's shares come from: a key generation of its own that went through
    its rounds, or a refresh of such a share; also across a restart, from the
    encrypted table. *)
From S2P Require Import Prelude Text JsMap Bytes Effects Wire SealCosign FrostShares FrostFrames FrostHandler FrostNode FrostInvariant.
Import Text JsMap Effects Bytes Wire FrostShares FrostFrames FrostHandler FrostNode FrostInvariant.

Module FrostOrigin.

Section Origin.
Context (env : NodeEnv).

(** A secret of a key generation under a name, and the step it is at. *)
Inductive dkg_secret (key : string) : jsval → DkgStep → Prop :=
| secret_started t signers b s :
    DKG_round1 env t (derive env (nodeId env)) signers = Some (b, s) → dkg_secret key s round1_complete
| secret_refused s others s' :
    dkg_secret key s round1_complete → DKG_round2 env s others = (s', None) → dkg_secret key s' round1_complete
| secret_dealt s others s' shares :
    dkg_secret key s round1_complete → DKG_round2 env s others = (s', Some shares) → dkg_secret key s' round2_complete
| secret_again s all_ mine s' share :
    dkg_secret key s round2_complete → DKG_round3 env s all_ mine = (s', Some share) → dkg_secret key s' round2_complete.

(** A share of this node under a name. *)
Inductive origin : string → LocalShare → Prop :=
| origin_dealt key s all_ mine s' share :
    dkg_secret key s round2_complete → DKG_round3 env s all_ mine = (s', Some share) → origin key share
| origin_refreshed a from to signers ids cs share new :
    origin (key_of a from) share → applyRefresh env share cs signers ids = Ok new → origin (key_of a to) new
| origin_read_back key share share' :
    origin key share → deserialize (element_of env) (json_value env) (share_bytes env share) = Some share' → origin key share'
| origin_test key share : is_test env = true → origin key share.

(** A nonce drawn for a share. *)
Definition drawn_for (share : LocalShare) (n : jsval) : Prop := ∃ t c, commit env t (secret share) = Some (n, c).

(** The bytes of a row for a share. *)
Definition written (key : string) (c : bytes) : Prop :=
  ∃ t share, origin key share ∧ encrypt env t (share_bytes env share) key = Some c.

Record origin_inv (h : Handler) : Prop := {
  ov_memory k share : (k, share) ∈ memory h → origin k share;
  ov_pending k p : (k, p) ∈ pendingNonces h → origin k (p_share p) ∧ drawn_for (p_share p) (p_nonce p);
  ov_calls c : c ∈ calls h → (∃ k, origin k (c_share c)) ∧ drawn_for (c_share c) (c_nonce c);
  ov_dkg k s : (k, s) ∈ dkgStates h → dkg_secret k (d_secret s) (d_step s);
  ov_queries r a e c : (r, QInsert a e c) ∈ queries h → written (key_of a e) c;
  ov_table a e row : ((a, e), row) ∈ table h → encrypted_share row = EmptyString ∨ written (key_of a e) (encrypted_share row) }.

(** What the envelope provider decrypts is what was encrypted under that name, and the
    empty string is no ciphertext. *)
Definition provider_sound : Prop :=
  ∀ t c k p, decrypt env t c k = Some p → c ≠ EmptyString ∧ ∀ t' p', encrypt env t' p' k = Some c → p = p'.

Lemma origin_same h h' :
  memory h' = memory h → pendingNonces h' = pendingNonces h → calls h' = calls h → dkgStates h' = dkgStates h →
  queries h' = queries h → table h' = table h → origin_inv h → origin_inv h'.
Proof. intros E1 E2 E3 E4 E5 E6 []. by split; rewrite ?E1, ?E2, ?E3, ?E4, ?E5, ?E6. Qed.

Ltac same := by eapply origin_same; [..|eassumption].

Lemma origin_tick : preserves origin_inv next_tick.
Proof. intros h Hh. unfold wp, next_tick. same. Qed.

Lemma origin_store_memory a e share : origin (key_of a e) share → preserves origin_inv (store_memory a e share).
Proof.
  intros Ho h Hh. apply wp_modify. destruct Hh. split; cbn; try done.
  intros k s [H|[= -> ->]]%elem_jset_key; eauto.
Qed.

Lemma origin_send a e share : origin (key_of a e) share → preserves origin_inv (send_insert env a e share).
Proof.
  intros Ho h Hh. unfold send_insert, wp, next_tick, mbind, act_bind, modify.
  destruct (encrypt_share (encrypt env) (tick h) a e (share_bytes env share)) as [c|] eqn:E; [|same].
  assert (written (key_of a e) c) as Hw.
  { unfold encrypt_share in E. destruct (encrypt env (tick h) _ _) as [c'|] eqn:E'; [|done]. cbn in E.
    destruct (_ || _); [done|]. injection E as <-. by exists (tick h), share. }
  destruct Hh. split; cbn; try done.
  intros r' a' e' c' [H|[= -> -> -> ->]]%elem_jset_key; eauto.
Qed.

Lemma origin_store_forget a e share :
  origin (key_of a e) share → preserves origin_inv (storeShare_forget env a e share).
Proof. intros Ho. apply preserves_bind; [by apply origin_store_memory|]. intros [].
  apply preserves_bind; [by apply origin_send|]. intros t. apply preserves_ret. Qed.

Lemma origin_store_durable r a e share w :
  origin (key_of a e) share → preserves origin_inv (storeShareDurable env r a e share w).
Proof.
  intros Ho. apply preserves_bind; [by apply origin_store_memory|]. intros [].
  apply preserves_bind; [by apply origin_send|]. intros t. apply preserves_modify. intros h Hh. same.
Qed.

Lemma origin_set_dkg k s : dkg_secret k (d_secret s) (d_step s) → preserves origin_inv (set_dkg k s).
Proof.
  intros Hs h Hh. apply wp_modify. destruct Hh. split; cbn; try done.
  intros k' s' [H|[= -> ->]]%elem_jset_key; eauto.
Qed.

Lemma origin_drop_dkg k : preserves origin_inv (drop_dkg k).
Proof. intros h Hh. apply wp_modify. destruct Hh. split; cbn; try done. intros k' s' ?%elem_jdel. eauto. Qed.

Lemma origin_set_epoch a n : preserves origin_inv (set_epoch a n).
Proof. intros h Hh. apply wp_modify. same. Qed.

Hint Resolve origin_tick origin_drop_dkg origin_set_epoch : preserves.

(** A share that is loaded at the start is one that was written. *)
Lemma origin_load h t tb m failed :
  provider_sound → origin_inv h → tb ⊆ table h → (∀ k share, (k, share) ∈ m → origin k share) →
  ∀ k share, (k, share) ∈ (loadShares (element_of env) (json_value env) (decrypt env) t tb (m, failed)).1 → origin k share.
Proof.
  intros Hp Hh. revert t m failed. induction tb as [|[[a e] row] tb IH]; intros t m failed Ht Hm; [exact Hm|].
  cbn [loadShares]. set (acc := load_row _ _ _ _ _ _).
  assert (∀ k share, (k, share) ∈ acc.1 → origin k share) as Hacc.
  { subst acc. unfold load_row. cbn [fst snd]. destruct (decrypt env t _ _) as [p|] eqn:Ed; [|exact Hm].
    destruct (deserialize _ _ p) as [share|] eqn:Es; [|exact Hm]. cbn [fst].
    intros k s [H|[= -> ->]]%elem_jset_key; [by apply Hm|].
    destruct (Hp _ _ _ _ Ed) as [Hne Hsame].
    destruct (ov_table _ Hh a e row) as [?|(t' & s0 & Ho & Ee)]; [apply Ht; left|done|].
    rewrite (Hsame _ _ Ee) in Es. by eapply origin_read_back. }
  destruct acc as [m' f']. apply IH; [|exact Hacc]. intros x Hx. apply Ht. by right.
Qed.

Lemma origin_respected : provider_sound → respected env (λ _, True) origin_inv.
Proof.
  intros Hp. split; intros.
  - apply origin_tick.
  - intros h Hh. unfold wp. rewrite generateCommitment_eq. destruct (isExpiredEpoch h a e); [done|].
    destruct (getShare (memory h) a e) as [share|] eqn:Es; [|done]. apply jget_elem in Es.
    cbv zeta. cbn [pendingNonces sweep_nonces with_pendingNonces].
    set (live := List.filter _ _).
    assert (origin_inv (with_pendingNonces (with_tick h (S (S (tick h)))) (jdel live (key_of a e)))) as H1.
    { destruct Hh. split; cbn; try done. intros k p Hk%elem_jdel%elem_filter. eauto. }
    destruct (commit env (S (tick h)) (secret share)) as [[n c]|] eqn:E; [|exact H1].
    destruct H1. split; cbn in *; try done. intros k p [H|[= -> ->]]%elem_jset_key; [eauto|]. cbn.
    split; [by apply (ov_memory _ Hh)|by exists (S (tick h)), c].
  - intros h Hh. unfold wp. rewrite signRawMessage_eq. destruct (checkConflict h a e peer); [done|]. cbv zeta.
    destruct (jget (pendingNonces h) (key_of a e)) as [p|] eqn:E; [|same]. apply jget_elem in E.
    assert (origin_inv (with_pendingNonces (with_tick h (S (tick h))) (jdel (pendingNonces h) (key_of a e)))) as H1.
    { destruct Hh. split; cbn; try done. intros k q Hk%elem_jdel. eauto. }
    destruct (expiresAt p <? _)%Z; [exact H1|]. destruct (ov_pending _ Hh _ _ E) as [Ho Hd].
    destruct H1. split; cbn in *; try done. intros c [H| ->%list_elem_of_singleton]%elem_of_app; eauto.
  - intros h Hh. unfold wp. rewrite handleCeremonyRound_eq. destruct (checkConflict h a e peer); [done|].
    destruct (getShare (memory h) a e) as [share|] eqn:Es; [|done]. apply jget_elem in Es. cbv zeta.
    destruct (commit env (tick h) (secret share)) as [[n c]|] eqn:E; [|same].
    pose proof (ov_memory _ Hh _ _ Es) as Ho. destruct Hh. split; cbn; try done.
    intros x [H| ->%list_elem_of_singleton]%elem_of_app; [eauto|]. split; [by eexists|by exists (tick h), c].
  - intros h Hh. unfold dkgRound1. apply wp_bind, wp_gets. destruct (jhas _ _); [done|].
    unfold wp, next_tick, mbind, act_bind. destruct (DKG_round1 env (tick h) _ s) as [[b sk]|] eqn:E; [|same].
    apply (preserves_bind origin_inv (set_dkg _ _) (λ _, mret (Ok b))); [|eauto with preserves|same].
    apply origin_set_dkg. by eapply secret_started.
  - intros h Hh. unfold dkgRound2. apply wp_bind, wp_gets.
    destruct (jget (dkgStates h) (key_of a e)) as [[sk own [|]]|] eqn:E; [|done|done]. apply jget_elem in E.
    pose proof (ov_dkg _ Hh _ _ E) as Hs. cbn in Hs. revert h Hh E.
    destruct (DKG_round2 env sk o) as [sk' [shares|]] eqn:E2; intros h Hh _; revert h Hh.
    + apply preserves_bind; [|eauto with preserves]. apply origin_set_dkg. by eapply secret_dealt.
    + apply preserves_bind; [|eauto with preserves]. apply origin_set_dkg. by eapply secret_refused.
  - intros h Hh. unfold dkgRound3. apply wp_bind, wp_gets.
    destruct (jget (dkgStates h) (key_of a e)) as [[sk own [|]]|] eqn:E; [done| |done]. apply jget_elem in E.
    pose proof (ov_dkg _ Hh _ _ E) as Hs. cbn in Hs. revert h Hh E.
    destruct (DKG_round3 env sk o _) as [sk' [key|]] eqn:E2; intros h Hh _; revert h Hh.
    + apply preserves_bind; [apply origin_set_dkg; by eapply secret_again|]. intros [].
      apply preserves_bind; [|eauto with preserves]. apply origin_store_durable. by eapply origin_dealt.
    + preserve.
  - unfold refreshRound1. preserve.
  - intros h Hh. unfold refreshRound2. apply wp_bind, wp_gets.
    destruct (getShare (memory h) a f) as [share|] eqn:E; [|done]. apply jget_elem in E.
    pose proof (ov_memory _ Hh _ _ E) as Ho. destruct (applyRefresh env share c s ids) as [new|m] eqn:E2; [|done].
    revert h Hh E. intros h Hh _. revert h Hh.
    apply preserves_bind; [|eauto with preserves]. apply origin_store_durable. by eapply origin_refreshed.
  - unfold injectShareForTest. destruct (is_test env) eqn:Et; [|apply preserves_throw].
    apply preserves_bind; [|eauto with preserves]. apply origin_store_forget. by apply origin_test.
  - unfold bootstrapKeyShares. destruct (is_test env) eqn:Et; [|apply preserves_throw]. preserve.
    apply origin_store_forget. by apply origin_test.
  - unfold destroyShares, await. preserve.
    + destruct H. split; cbn; try done. intros k s ?%elem_filter. eauto.
    + destruct H. split; cbn; try done. intros r' a' e' c' [?|[= -> ->]]%elem_jset_key; eauto.
    + same.
  - intros h Hh. apply wp_modify. same.
  - intros h Hh. apply wp_modify. same.
  - revert h H H0. intros h _. revert h. change (preserves origin_inv (answered r ok)).
    unfold answered, dkgRound3_stored, refreshRound2_stored. preserve; same.
  - unfold lands. destruct (jget (queries h) t) as [q|] eqn:E; [|done]. apply jget_elem in E.
    destruct H. split; cbn; try done.
    + intros r' a' e' c' ?%elem_jdel. eauto.
    + intros a' e' row. destruct q as [a e c|a]; cbn [execute].
      * intros [?|[= -> -> ->]]%elem_jset_key; [eauto|]. cbn. right. eauto.
      * unfold zero_rows. intros ([[x y] z] & Eq & Hin)%list_elem_of_fmap. cbn in Eq. case_bool_decide; simplify_eq/=; eauto.
Qed.

Lemma origin_restart h : provider_sound → origin_inv h → origin_inv (restart env h).1.
Proof.
  intros Hp H. unfold restart. pose proof (origin_load h (tick h) (table h) [] 0 Hp H) as Hl.
  destruct (loadShares _ _ _ _ _ _) as [m failed]. cbn [fst] in *. destruct H. split; cbn; try done; try set_solver.
Qed.

Lemma initial_origin : origin_inv initial_handler.
Proof. split; cbn; set_solver. Qed.

Lemma run_origin inputs : provider_sound → origin_inv (handler (run env initial inputs)).
Proof. intros Hp. apply run_respects; [by apply origin_respected|intros h; by apply origin_restart|apply initial_origin]. Qed.

End Origin.
End FrostOrigin.

(** What stands behind every answer of the frost stream: the requests, the checks and the
    commitments that came before it. *)
Import Text JsMap Effects Bytes Wire FrostShares FrostFrames FrostHandler FrostNode FrostInvariant FrostOrigin.

Module FrostAuthorised.

Section Authorised.
Context (env : NodeEnv).

(** * Facts about a run's inputs *)

Definition asked_at (inputs : list input) (r : nat) (q : Request) : Prop := inputs !! r = Some (Asked q).

(** The request carries what it must be authenticated with; a refresh carries nothing. *)
Definition authentic (q : Request) : Prop :=
  match q with
  | CommitRequest a e sig => verifyFrostAuth env a e FROST_AUTH_COMMIT_TAIL sig = None
  | SignRequest a e msg _ _ sig _ _ => verifyFrostAuth env a e (sign_tail msg) sig = None
  | RefreshRound1Request _ _ _ _ | RefreshRound2Request _ _ _ _ _ _ => True
  | FrostBootstrap _ _ _ _ _ _ _ | DkgFrame _ => False
  end.

(** An authentic request whose agent was then read as not suspended. *)
Definition cleared (inputs : list input) (r : nat) (q : Request) : Prop :=
  asked_at inputs r q ∧ authentic q ∧ ∃ k, r < k ∧ inputs !! k = Some (SuspensionKnown r (Some false)).

(** The tick at which input [k] is handled. *)
Definition tick_at (inputs : list input) (k : nat) : nat := tick (handler (run env initial (take k inputs))).

(** A pending nonce: drawn at input [k] for a cleared request that was answered with its
    commitment. *)
Definition committed (inputs : list input) (out : list (nat * Response)) (key : string) (p : Pending) (k : nat) : Prop :=
  ∃ r a e sig c, key = key_of a e ∧ cleared inputs r (CommitRequest a e sig) ∧ inputs !! k = Some (ProfileKnown r) ∧
    (r, CommitResponse (Ok (nodeId env, c))) ∈ out ∧
    commit env (S (tick_at inputs k)) (secret (p_share p)) = Some (p_nonce p, c) ∧
    expiresAt p = (clock env (tick_at inputs k) + PENDING_NONCE_TTL_MS)%Z.

(** A partial signature: made at input [k] for a cleared request, with its evidence if it is
    a seal, by a nonce that was committed before and has not expired. *)
Definition authorised (inputs : list input) (out : list (nat * Response)) (r : nat) (partialSig : bytes) : Prop :=
  ∃ a e msg l peer sig leaves ts p k k', cleared inputs r (SignRequest a e msg l peer sig leaves ts) ∧
    (SealCosign.isSealFramedMessage msg = true → cosign env msg leaves ts = Ok tt) ∧
    inputs !! k = Some (ProfileKnown r) ∧ k' < k ∧ committed inputs out (key_of a e) p k' ∧
    (clock env (tick_at inputs k) <= expiresAt p)%Z ∧
    signShare env (p_share p) (p_nonce p) l msg = Some partialSig.

(** A first round of key generation that was asked for at [r]. *)
Definition first_round (inputs : list input) (r : nat) (a e : string) (s : Signers) : Prop :=
  ∃ frame token, asked_at inputs r (DkgFrame frame) ∧ decodeFrostDkgRequest frame = Some (Round1Request a e s token).

Definition verified (cap : Capability) : Prop :=
  ∃ t issuer u, capabilityIssuerPubkey env = Some issuer ∧ verifyCapability env t cap issuer = Ok u.

Definition capability_gate : Prop := is_Some (capabilityIssuerPubkey env) ∧ has_nonceBinder env = true.

(** A first round let through by a capability, whose nonce is the agent's. *)
Definition admitted (inputs : list input) (bs : jsmap string string) (r : nat) : Prop :=
  ∃ a e s cap, first_round inputs r a e s ∧ verified cap ∧ jget bs (nonce cap) = Some a.

(** A share stored durably: its insertion was executed. *)
Definition durable (n : Node) (groupKey : bytes) : Prop :=
  ∃ t a e share c, (t, QInsert a e c) ∈ landed (handler n) ∧
    encrypt_share (encrypt env) t a e (share_bytes env share) = Some c ∧ groupKey = group_key (pub share).

Definition asking_fact (inputs : list input) (r : nat) (a : Asking) : Prop :=
  match a with
  | ASuspension q => asked_at inputs r q ∧ authentic q
  | AProfile q => cleared inputs r q
  | ABurned _ => True
  | AClaim a e s _ _ => first_round inputs r a e s
  | ABind a e s cap => first_round inputs r a e s ∧ verified cap
  | AToken a e s => ¬ capability_gate ∧ first_round inputs r a e s
  end.

Definition response_fact (inputs : list input) (n : Node) (r : nat) (resp : Response) : Prop :=
  match resp with
  | SignResponse (Ok sig) => authorised inputs (sent n) r sig
  | CommitResponse (Ok _) => ∃ a e sig, cleared inputs r (CommitRequest a e sig)
  | DkgResponse1 _ => capability_gate → admitted inputs (bindings n) r
  | DkgResponse3 (Ok k) | RefreshResponse2 (Ok k) => durable n k
  | _ => True
  end.

Record stream_inv (inputs : list input) (n : Node) : Prop := {
  sv_pending k p : (k, p) ∈ pendingNonces (handler n) → ∃ j, committed inputs (sent n) k p j;
  sv_asking r a : (r, a) ∈ asking n → asking_fact inputs r a;
  sv_sent r resp : (r, resp) ∈ sent n → response_fact inputs n r resp }.

(** * The facts stay facts *)

Lemma asked_at_app inputs l r q : asked_at inputs r q → asked_at (inputs ++ l) r q.
Proof. apply lookup_app_l_Some. Qed.

Lemma cleared_app inputs l r q : cleared inputs r q → cleared (inputs ++ l) r q.
Proof.
  intros (Ha & Hq & k & Hk & Hs). split; [by apply asked_at_app|]. split; [done|]. exists k. split; [done|].
  by apply lookup_app_l_Some.
Qed.

Lemma tick_at_app inputs l k : k <= length inputs → tick_at (inputs ++ l) k = tick_at inputs k.
Proof. intros Hk. unfold tick_at. by rewrite take_app_le. Qed.

Lemma committed_more inputs l out out' key p k :
  out ⊆ out' → committed inputs out key p k → committed (inputs ++ l) out' key p k.
Proof.
  intros Ho (r & a & e & sig & c & Hkey & Hc & Hk & Hin & ?). exists r, a, e, sig, c.
  rewrite tick_at_app by (apply lookup_lt_Some in Hk; lia).
  split; [done|]. split; [by apply cleared_app|]. split; [by apply lookup_app_l_Some|]. split; [by apply Ho|done].
Qed.

Lemma pending_more inputs l out out' key p :
  out ⊆ out' → (∃ k, committed inputs out key p k) → ∃ k, committed (inputs ++ l) out' key p k.
Proof. intros Ho [k Hk]. exists k. by eapply committed_more. Qed.

Lemma authorised_more inputs l out out' r s :
  out ⊆ out' → authorised inputs out r s → authorised (inputs ++ l) out' r s.
Proof.
  intros Ho (a & e & msg & cl & peer & sig & lv & ts & p & k & k' & Hc & He & Hk & Hl & Hp & ?).
  exists a, e, msg, cl, peer, sig, lv, ts, p, k, k'. rewrite tick_at_app by (apply lookup_lt_Some in Hk; lia).
  split; [by apply cleared_app|]. split; [done|]. split; [by apply lookup_app_l_Some|]. split; [done|].
  split; [by eapply committed_more|done].
Qed.

Lemma first_round_app inputs l r a e s : first_round inputs r a e s → first_round (inputs ++ l) r a e s.
Proof. intros (f & tk & H & E). exists f, tk. split; [by apply asked_at_app|done]. Qed.

Definition extends (bs bs' : jsmap string string) : Prop := ∀ k v, jget bs k = Some v → jget bs' k = Some v.

Lemma admitted_more inputs l bs bs' r : extends bs bs' → admitted inputs bs r → admitted (inputs ++ l) bs' r.
Proof.
  intros Hb (a & e & s & cap & Hf & Hv & Hn). exists a, e, s, cap. split; [by apply first_round_app|]. eauto.
Qed.

Lemma asking_fact_app inputs l r a : asking_fact inputs r a → asking_fact (inputs ++ l) r a.
Proof.
  destruct a as [q|q|b|b e s c k|b e s cap|b e s]; cbn; [|apply cleared_app|done|apply first_round_app| |].
  - intros [? ?]. split; [by apply asked_at_app|done].
  - intros [? ?]. split; [by apply first_round_app|done].
  - intros [? ?]. split; [done|by apply first_round_app].
Qed.

Lemma response_fact_more inputs l n n' r resp :
  sent n ⊆ sent n' → extends (bindings n) (bindings n') → landed (handler n) ⊆ landed (handler n') →
  response_fact inputs n r resp → response_fact (inputs ++ l) n' r resp.
Proof.
  intros Ho Hb Hl.
  assert (∀ k, durable n k → durable n' k) as Hd.
  { intros k (t & a & e & share & c & Hin & H). exists t, a, e, share, c. auto. }
  destruct resp as [|[?|?]|[?|?]| | | |[?|?]| | |[?|?]]; cbn; try done; try apply Hd.
  - intros (a0 & e & sig & H). exists a0, e, sig. by apply cleared_app.
  - by apply authorised_more.
  - intros H Hg. eapply admitted_more; eauto.
Qed.

Lemma stream_inv_app inputs l n : stream_inv inputs n → stream_inv (inputs ++ l) n.
Proof.
  intros []. split.
  - intros k p H. eapply pending_more; eauto.
  - intros r a H. apply asking_fact_app. eauto.
  - intros r resp H. eapply response_fact_more; eauto; by intros ? ?.
Qed.

Section Step.
Context (inputs : list input).

Abbreviation kept := (preserves (stream_inv inputs)).

(** A step that sends more, binds more and has less pending and waiting. *)
Lemma stream_inv_step n n' :
  pendingNonces (handler n') ⊆ pendingNonces (handler n) → asking n' ⊆ asking n → sent n' = sent n →
  extends (bindings n) (bindings n') → landed (handler n) ⊆ landed (handler n') → stream_inv inputs n → stream_inv inputs n'.
Proof.
  intros Hp Ha Hs Hb Hl []. split.
  - intros k p H. rewrite Hs. eauto.
  - intros r a H. eauto.
  - intros r resp H. rewrite Hs in H. rewrite <- (app_nil_r inputs). eapply (response_fact_more inputs [] n n'); [by rewrite Hs|exact Hb|exact Hl|eauto].
Qed.

Ltac step := eapply stream_inv_step; [..|eassumption]; cbn; try done; try by intros ? ?.

Lemma kept_respond r resp :
  (∀ n, stream_inv inputs n → response_fact inputs n r resp) → kept (respond r resp).
Proof.
  intros Hr n Hn. apply wp_modify. pose proof (Hr n Hn) as H. destruct Hn. split; cbn.
  - intros k p Hk. rewrite <- (app_nil_r inputs). eapply pending_more; [|eauto]. set_solver.
  - done.
  - intros r' resp' [Hin|[= -> ->]%list_elem_of_singleton]%elem_of_app; rewrite <- (app_nil_r inputs);
      (eapply (response_fact_more _ _ n); [set_solver|by intros ? ?|done|eauto]).
Qed.

Lemma kept_wait r a : asking_fact inputs r a → kept (wait r a).
Proof.
  intros Ha n Hn. apply wp_modify. destruct Hn. split; cbn; try done.
  intros r' a' [Hin|[= -> ->]]%elem_jset_key; eauto.
Qed.

(** A handler call after which no more is pending and nothing else was executed. *)
Definition narrows {A} (m : M A) : Prop :=
  ∀ h, pendingNonces (m h).1 ⊆ pendingNonces h ∧ landed (m h).1 = landed h.

Lemma kept_on_handler {A} (m : M A) : narrows m → kept (on_handler m).
Proof.
  intros Hm n Hn. unfold wp, on_handler. pose proof (Hm (handler n)) as H.
  destruct (m (handler n)) as [h [x|x]]; cbn in H; destruct H as [H1 H2]; step; by rewrite H2.
Qed.

Lemma kept_resume r k : (∀ a, asking_fact inputs r a → kept (k a)) → kept (resume r k).
Proof.
  intros Hk n Hn. unfold resume. apply wp_bind, wp_gets. destruct (jget (asking n) r) as [a|] eqn:E; [|done].
  apply jget_elem in E. apply wp_bind, wp_modify. apply (Hk a); [by apply (sv_asking _ _ Hn)|].
  step. intros x. apply elem_jdel.
Qed.

End Step.

(** ** Handler calls that leave less pending *)

Definition within (h0 : Handler) (h : Handler) : Prop :=
  pendingNonces h ⊆ pendingNonces h0 ∧ landed h = landed h0.

Lemma narrows_kept {A} (m : M A) : (∀ h0, preserves (within h0) m) → narrows m.
Proof. intros Hm h. apply (wp_final m h (within h)). by apply Hm. Qed.

Lemma narrows_tick h0 : preserves (within h0) next_tick.
Proof. intros h Hh. exact Hh. Qed.

Lemma narrows_send h0 a e share : preserves (within h0) (send_insert env a e share).
Proof. unfold send_insert. pose proof narrows_tick. preserve; done. Qed.

Lemma narrows_forget h0 a e share : preserves (within h0) (storeShare_forget env a e share).
Proof. unfold storeShare_forget, store_memory. pose proof narrows_send. preserve; done. Qed.

Lemma narrows_durable h0 r a e share w : preserves (within h0) (storeShareDurable env r a e share w).
Proof. unfold storeShareDurable, store_memory, await. pose proof narrows_send. preserve; done. Qed.

Ltac narrow :=
  intros; apply narrows_kept; intros; pose proof narrows_forget; pose proof narrows_durable; pose proof narrows_tick;
  unfold dkgRound1, dkgRound2, dkgRound3, refreshRound1, refreshRound2, injectShareForTest, bootstrapKeyShares, destroyShares,
    markInFlight, clearInFlight, answered, dkgRound3_stored, refreshRound2_stored, await, set_dkg, drop_dkg, set_epoch;
  preserve; done.

Lemma narrows_dkg1 a e s : narrows (dkgRound1 env a e s). Proof. narrow. Qed.
Lemma narrows_dkg2 a e o : narrows (dkgRound2 env a e o). Proof. narrow. Qed.
Lemma narrows_dkg3 r a e s o : narrows (dkgRound3 env r a e s o). Proof. narrow. Qed.
Lemma narrows_refresh1 a f s ids : narrows (refreshRound1 env a f s ids). Proof. narrow. Qed.
Lemma narrows_refresh2 r a f t s ids c : narrows (refreshRound2 env r a f t s ids c). Proof. narrow. Qed.
Lemma narrows_inject a e share : narrows (injectShareForTest env a e share). Proof. narrow. Qed.
Lemma narrows_bootstrap a : narrows (bootstrapKeyShares env a). Proof. narrow. Qed.
Lemma narrows_destroy r a : narrows (destroyShares r a). Proof. narrow. Qed.
Lemma narrows_mark a e p c : narrows (markInFlight a e p c). Proof. narrow. Qed.
Lemma narrows_clear a e : narrows (clearInFlight a e). Proof. narrow. Qed.
Lemma narrows_answered r ok : narrows (answered r ok). Proof. narrow. Qed.
Lemma narrows_next : narrows next_tick. Proof. narrow. Qed.

Lemma narrows_round a e tbs ctx l peer : narrows (handleCeremonyRound env a e tbs ctx l peer).
Proof.
  intros h. rewrite handleCeremonyRound_eq. destruct (checkConflict h a e peer); [done|].
  destruct (getShare (memory h) a e) as [share|]; [|done]. cbv zeta. by destruct (commit env _ _) as [[? ?]|].
Qed.

(** * Every input keeps the facts *)

Section Handled.
Context (inputs : list input).

Abbreviation kept := (preserves (stream_inv inputs)).
Hint Resolve narrows_dkg1 narrows_dkg2 narrows_dkg3 narrows_refresh1 narrows_refresh2 narrows_inject narrows_bootstrap
  narrows_destroy narrows_mark narrows_clear narrows_answered narrows_next narrows_round kept_on_handler : preserves.

Lemma kept_modify f :
  (∀ n, pendingNonces (handler (f n)) = pendingNonces (handler n) ∧ asking (f n) = asking n ∧ sent (f n) = sent n ∧
        extends (bindings n) (bindings (f n)) ∧ landed (handler n) ⊆ landed (handler (f n))) → kept (modify f : Task unit).
Proof.
  intros H n Hn. apply wp_modify. destruct (H n) as (E1 & E2 & E3 & E4 & E5).
  eapply stream_inv_step; [..|exact Hn]; [by rewrite E1|by rewrite E2|done|done|done].
Qed.

Ltac keeps H := eapply stream_inv_step; [..|exact H]; cbn; try done; try by intros ? ?.

Ltac aside := apply kept_modify; intros n; split_and!; try done; by intros ? ?.

(** An answer about which nothing is promised. *)
Definition plain (resp : Response) : Prop :=
  match resp with
  | SignResponse (Ok _) | CommitResponse (Ok _) | DkgResponse1 _ | DkgResponse3 (Ok _) | RefreshResponse2 (Ok _) => False
  | _ => True
  end.

Lemma kept_plain r resp : plain resp → kept (respond r resp).
Proof. intros Hp. apply kept_respond. intros n _. by destruct resp as [|[?|?]|[?|?]| | | |[?|?]| | |[?|?]]. Qed.

Lemma kept_start_dkg r a e s :
  (∀ n, stream_inv inputs n → capability_gate → admitted inputs (bindings n) r) → kept (start_dkg env r a e s).
Proof.
  intros Hr. unfold start_dkg. apply preserves_bind; [eauto with preserves|]. intros res. by apply kept_respond.
Qed.

Lemma kept_with_capability r a e s blob : first_round inputs r a e s → kept (with_capability env r a e s blob).
Proof.
  intros Hf. unfold with_capability. destruct (decodeCapability env blob) as [cap|]; [|by apply kept_plain].
  destruct (capabilityIssuerPubkey env) as [issuer|] eqn:Ei; [|by apply kept_plain].
  apply preserves_bind; [eauto with preserves|]. intros t.
  destruct (verifyCapability env t cap issuer) as [u|reason] eqn:Ev; [|by apply kept_plain].
  apply kept_wait. split; [done|]. by exists t, issuer, u.
Qed.

Lemma kept_gate r a e s token : first_round inputs r a e s → kept (gate_dkg env r a e s token).
Proof.
  intros Hf. unfold gate_dkg. case_bool_decide as Hi; cbn [andb]; [destruct (has_nonceBinder env) eqn:Eb|].
  - destruct (truthy token) as [blob|]; [|by apply kept_plain]. case_match; [by apply kept_wait|].
    by apply kept_with_capability.
  - assert (¬ capability_gate) as Hg by (intros [_ ?]; congruence).
    destruct (has_tokenValidator env); [destruct (truthy token); [by apply kept_wait|by apply kept_plain]|].
    apply kept_start_dkg. tauto.
  - assert (¬ capability_gate) as Hg by (intros [? _]; done).
    destruct (has_tokenValidator env); [destruct (truthy token); [by apply kept_wait|by apply kept_plain]|].
    apply kept_start_dkg. tauto.
Qed.

(** The end of a third round, when its share is stored. *)
Lemma kept_finish r a res n :
  match res with Ok k => durable n k | Err _ => True end →
  stream_inv inputs n → wp (finish_dkg3 r a res) n (λ _, stream_inv inputs) (stream_inv inputs).
Proof.
  intros Hd Hn. destruct res as [k|x]; unfold finish_dkg3; [|by apply kept_plain]. unfold register_signer.
  apply wp_bind, wp_modify, wp_bind, wp_modify. set (n' := with_signers _ _ _).
  assert (stream_inv inputs n') as [] by keeps Hn. apply wp_modify. split; cbn.
  - intros q p Hin. rewrite <- (app_nil_r inputs). eapply pending_more; [|eauto]. set_solver.
  - done.
  - intros r' resp' [Hin|[= -> ->]%list_elem_of_singleton]%elem_of_app; [|exact Hd].
    rewrite <- (app_nil_r inputs). eapply (response_fact_more _ _ n'); [set_solver|by intros ? ?|done|eauto].
Qed.

(** Nothing finishes with success before its wait. *)
Lemma dkgRound3_waits r a e s o h h' k : dkgRound3 env r a e s o h ≠ (h', Ok (Some (Ok k))).
Proof.
  unfold dkgRound3, gets, mbind, act_bind. destruct (jget _ _) as [[sk own [|]]|]; [done| |done].
  destruct (DKG_round3 env sk o _) as [sk' [key|]]; [|done]. unfold set_dkg, modify, storeShareDurable, mbind, act_bind.
  destruct (store_memory _ _ _ _) as [h1 [[]|x]]; [|done]. destruct (send_insert _ _ _ _ _) as [h2 [t|x]]; done.
Qed.

Lemma refreshRound2_waits r a f t s ids c h h' k : refreshRound2 env r a f t s ids c h ≠ (h', Ok (Some (Ok k))).
Proof.
  unfold refreshRound2, gets, mbind, act_bind. destruct (getShare _ _ _) as [share|]; [|done].
  destruct (applyRefresh env share c s ids) as [new|m]; [|done]. unfold storeShareDurable, mbind, act_bind.
  destruct (store_memory _ _ _ _) as [h1 [[]|x]]; [|done]. destruct (send_insert _ _ _ _ _) as [h2 [q|x]]; done.
Qed.

Lemma extends_bind bs k a : extends bs (bind_nonce bs k a).1.
Proof.
  unfold bind_nonce. destruct (jget bs k) as [b|] eqn:E; [by intros ? ?|]. intros q v Hq. cbn. rewrite jget_jset.
  case_decide; [congruence|done].
Qed.

Lemma bound_nonce bs k a : (bind_nonce bs k a).2 = true → jget (bind_nonce bs k a).1 k = Some a.
Proof.
  unfold bind_nonce. destruct (jget bs k) as [b|] eqn:E; cbn.
  - intros ->%bool_decide_eq_true. done.
  - intros _. by rewrite jget_jset_eq.
Qed.

Lemma kept_bind r a e s cap f :
  first_round inputs r a e s → verified cap → kept (bind_answered env r a e s cap f).
Proof.
  intros Hf Hv n Hn. unfold bind_answered. destruct f; [|by apply preserves_throw|].
  all: apply wp_bind, wp_gets.
  all: pose proof (extends_bind (bindings n) (nonce cap) a) as He; pose proof (bound_nonce (bindings n) (nonce cap) a) as Hb.
  all: destruct (bind_nonce (bindings n) (nonce cap) a) as [bs bound]; cbn [fst snd] in *.
  all: apply wp_bind, wp_modify.
  2: { apply wp_throw. keeps Hn. }
  assert (stream_inv inputs (with_bindings n bs)) as Hn' by (keeps Hn).
  destruct bound; cbn [negb]; [|by apply kept_plain].
  apply wp_bind, wp_modify. unfold start_dkg. apply wp_bind. unfold wp at 1.
  set (n1 := with_preauth _ _).
  pose proof (kept_on_handler inputs (dkgRound1 env a e s) (narrows_dkg1 a e s) n1) as Hk.
  assert (stream_inv inputs n1) as H1 by (keeps Hn').
  specialize (Hk H1). unfold wp in Hk.
  assert (bindings (on_handler (dkgRound1 env a e s) n1).1 = bs) as Ebs.
  { unfold on_handler. by destruct (dkgRound1 env a e s (handler n1)). }
  destruct (on_handler (dkgRound1 env a e s) n1) as [n2 [res|x]]; [|done]. cbn [fst] in Ebs.
  apply wp_modify. destruct Hk. split; cbn.
  - intros k p Hin. rewrite <- (app_nil_r inputs). eapply pending_more; [|eauto]. set_solver.
  - done.
  - intros r' resp' [Hin|[= -> ->]%list_elem_of_singleton]%elem_of_app.
    + rewrite <- (app_nil_r inputs). eapply (response_fact_more _ _ n2); [set_solver|by intros ? ?|done|eauto].
    + cbn. intros _. exists a, e, s, cap. rewrite Ebs. auto.
Qed.

(** The state before the last input. *)
Definition before_last (n : Node) (r : nat) : Prop :=
  ∃ k, length inputs = S k ∧ inputs !! k = Some (ProfileKnown r) ∧ tick (handler n) = tick_at inputs k.

Abbreviation done_at m n := (wp m n (λ _, stream_inv inputs) (stream_inv inputs)).

Lemma kept_commit r a e sig n :
  cleared inputs r (CommitRequest a e sig) → before_last n r → stream_inv inputs n →
  done_at (serve env r (CommitRequest a e sig)) n.
Proof.
  intros Hc (k0 & Hk & Hi & Ht) Hn. cbn [serve]. unfold wp, on_handler, respond, modify, mbind, act_bind. rewrite generateCommitment_eq.
  assert (∀ h reason, pendingNonces h ⊆ pendingNonces (handler n) → landed h = landed (handler n) →
    stream_inv inputs (with_sent (with_handler n h) (sent n ++ [(r, CommitResponse (Err reason))]))) as Hno.
  { intros h reason Hp Hl. apply (kept_plain r (CommitResponse (Err reason)) I (with_handler n h)).
    keeps Hn. by rewrite Hl. }
  destruct (isExpiredEpoch (handler n) a e); [by apply Hno|].
  destruct (getShare (memory (handler n)) a e) as [share|]; [|by apply Hno].
  cbv zeta. cbn [pendingNonces sweep_nonces with_pendingNonces with_tick]. set (live := List.filter _ _).
  assert (jdel live (key_of a e) ⊆ pendingNonces (handler n)) as Hl.
  { intros x Hx. by eapply elem_filter, elem_jdel. }
  destruct (commit env _ (secret share)) as [[nn c]|] eqn:E; [|by apply Hno]. cbn.
  destruct Hn. split; cbn.
  - intros k p [Hin|[= -> ->]]%elem_jset_key.
    + rewrite <- (app_nil_r inputs). eapply pending_more; [|eauto]. set_solver.
    + exists k0, r, a, e, sig, c. cbn. rewrite <- Ht. split; [done|]. split; [done|]. split; [done|].
      split; [set_solver|done].
  - done.
  - intros r' resp' [Hin|[= -> ->]%list_elem_of_singleton]%elem_of_app; [|cbn; eauto].
    rewrite <- (app_nil_r inputs). eapply (response_fact_more _ _ n); [set_solver|by intros ? ?|done|eauto].
Qed.

Lemma kept_sign r a e msg l peer sig leaves ts n :
  cleared inputs r (SignRequest a e msg l peer sig leaves ts) → before_last n r → stream_inv inputs n →
  done_at (serve env r (SignRequest a e msg l peer sig leaves ts)) n.
Proof.
  intros Hc (k0 & Hk & Hi & Ht) Hn. cbn [serve].
  assert ((if SealCosign.isSealFramedMessage msg then cosign env msg leaves ts else Ok tt) = Ok tt →
          SealCosign.isSealFramedMessage msg = true → cosign env msg leaves ts = Ok tt) as He by (intros ? E; by rewrite E in *).
  destruct (if SealCosign.isSealFramedMessage msg then _ else _) as [[]|reason]; [|by apply kept_plain].
  specialize (He eq_refl). unfold wp, on_handler, respond, modify, mbind, act_bind. rewrite signRawMessage_eq.
  assert (∀ h reason, pendingNonces h ⊆ pendingNonces (handler n) → landed h = landed (handler n) →
    stream_inv inputs (with_sent (with_handler n h) (sent n ++ [(r, SignResponse (Err reason))]))) as Hno.
  { intros h reason Hp Hl. apply (kept_plain r (SignResponse (Err reason)) I (with_handler n h)).
    keeps Hn. by rewrite Hl. }
  destruct (checkConflict (handler n) a e peer); [by apply Hno|]. cbv zeta.
  destruct (jget (pendingNonces (handler n)) (key_of a e)) as [p|] eqn:Ep; [|by apply Hno].
  assert (jdel (pendingNonces (handler n)) (key_of a e) ⊆ pendingNonces (handler n)) as Hl by (intros x; apply elem_jdel).
  destruct (expiresAt p <? _)%Z eqn:Et; [by apply Hno|]. apply Z.ltb_ge in Et. apply jget_elem in Ep.
  destruct (signShare env _ _ l msg) as [ps|] eqn:E; [|by apply Hno]. cbn.
  destruct Hn. split; cbn.
  - intros k q Hin%Hl. rewrite <- (app_nil_r inputs). eapply pending_more; [|eauto]. set_solver.
  - done.
  - intros r' resp' [Hin|[= -> ->]%list_elem_of_singleton]%elem_of_app.
    + rewrite <- (app_nil_r inputs). eapply (response_fact_more _ _ n); [set_solver|by intros ? ?|done|eauto].
    + cbn. destruct (sv_pending0 _ _ Ep) as [k' Hp']. exists a, e, msg, l, peer, sig, leaves, ts, p, k0, k'. rewrite <- Ht.
      split; [done|]. split; [done|]. split; [done|]. split; [|split; [|done]].
      * destruct Hp' as (r1 & a1 & e1 & s1 & c1 & _ & Hc1 & Hi1 & _). pose proof (lookup_lt_Some _ _ _ Hi1).
        assert (k' ≠ k0); [|lia]. intros ->. rewrite Hi in Hi1. injection Hi1 as <-.
        destruct Hc as [Hc _], Hc1 as [Hc1 _]. unfold asked_at in *. congruence.
      * rewrite <- (app_nil_r inputs). eapply committed_more; [|exact Hp']. set_solver.
Qed.

Lemma kept_serve r q n :
  cleared inputs r q → before_last n r → stream_inv inputs n → done_at (serve env r q) n.
Proof.
  intros Hc Hb Hn. pose proof kept_plain as Hp. destruct q.
  - by destruct Hc as (_ & [] & _).
  - by eapply kept_commit.
  - by eapply kept_sign.
  - by destruct Hc as (_ & [] & _).
  - cbn [serve]. revert n Hb Hn. intros n _. revert n.
    apply (preserves_bind (stream_inv inputs)); [eauto with preserves|]. intros res. by apply Hp.
  - cbn [serve]. apply wp_bind.
    pose proof (kept_on_handler inputs _ (narrows_refresh2 r agentPubkey fromEpochId toEpochId signers participantIds contributions) n Hn) as Hk.
    pose proof (refreshRound2_waits r agentPubkey fromEpochId toEpochId signers participantIds contributions (handler n)) as Hw.
    revert Hk Hw. unfold wp at 1 2, on_handler.
    destruct (refreshRound2 _ _ _ _ _ _ _ _ _) as [h' [[[k|x]|]|x]]; intros Hk Hw; try done.
    + by destruct (Hw h' k).
    + by apply Hp.
Qed.

Lemma kept_request r q : asked_at inputs r q → kept (handleFrostStream env r q).
Proof.
  intros Hq. unfold handleFrostStream. destruct q as [a e i sk s cs vs|a e sig|a e msg l peer sig lv ts|frame|a f s ids|a f t s ids c].
  - apply preserves_bind; [eauto with preserves|]. intros []. unfold register_signer.
    apply preserves_bind; [aside|]. intros []. by apply kept_plain.
  - destruct (verifyFrostAuth _ _ _ _ _) eqn:E; [by apply kept_plain|by apply kept_wait].
  - destruct (verifyFrostAuth _ _ _ _ _) eqn:E; [by apply kept_plain|by apply kept_wait].
  - destruct (decodeFrostDkgRequest frame) as [d|] eqn:E; [|eauto with preserves]. destruct d as [a e s token|a e o|a e sh o]; cbn [handle_dkg].
    + apply kept_gate. by exists frame, token.
    + apply preserves_bind; [eauto with preserves|]. intros res. by apply kept_plain.
    + intros n Hn. apply wp_bind.
      pose proof (kept_on_handler inputs _ (narrows_dkg3 r a e sh o) n Hn) as Hk.
      pose proof (dkgRound3_waits r a e sh o (handler n)) as Hw. revert Hk Hw. unfold wp at 1 2, on_handler.
      destruct (dkgRound3 _ _ _ _ _ _ _) as [h' [[[k|x]|]|x]]; intros Hk Hw; try done.
      * by destruct (Hw h' k).
      * by apply kept_finish.
  - by apply kept_wait.
  - by apply kept_wait.
Qed.

Lemma kept_suspension r q ans k :
  asked_at inputs r q → authentic q → r < k → inputs !! k = Some (SuspensionKnown r ans) → kept (suspension_answered r q ans).
Proof.
  intros Ha Hq Hk Hi. unfold suspension_answered.
  assert (plain (suspended_response q)) as Hp by (by destruct q).
  destruct ans as [[|]|].
  - apply preserves_bind; [by apply kept_wait|]. intros []. by apply kept_plain.
  - apply kept_wait. split; [done|]. split; [done|]. by exists k.
  - by apply kept_plain.
Qed.

Lemma kept_claim r a e s code k ans : first_round inputs r a e s → kept (claim_answered env r a e s code k ans).
Proof.
  intros Hf. unfold claim_answered. destruct ans, k; try by apply kept_plain.
  - by apply kept_wait.
  - by apply kept_with_capability.
  - by apply kept_with_capability.
Qed.

Lemma kept_token r a e s ans :
  ¬ capability_gate → first_round inputs r a e s → kept (token_answered env r a e s ans).
Proof.
  intros Hg Hf. unfold token_answered. destruct ans; [|by apply kept_plain].
  apply preserves_bind; [aside|]. intros []. apply kept_start_dkg. tauto.
Qed.

(** A request waits with its number at an earlier place than its answer. *)
Lemma waiting_earlier r a i k :
  asking_fact inputs r a → (match a with ASuspension _ => True | _ => False end) → inputs !! k = Some i →
  (∀ q, i ≠ Asked q) → length inputs = S k → r < k.
Proof.
  intros Ha Hs Hi Hq Hl. destruct a as [q|q|b|b e s c m|b e s cap|b e s]; try done. destruct Ha as [Ha _]. unfold asked_at in Ha.
  pose proof (lookup_lt_Some _ _ _ Ha). destruct (decide (r = k)) as [->|]; [|lia]. rewrite Ha in Hi. injection Hi as <-. by destruct (Hq q).
Qed.

Lemma kept_profile k r n :
  length inputs = S k → inputs !! k = Some (ProfileKnown r) → tick (handler n) = tick_at inputs k → stream_inv inputs n →
  done_at (handle env k (ProfileKnown r)) n.
Proof.
  intros Hl Hi Ht Hn. cbn [handle]. unfold resume. apply wp_bind, wp_gets.
  destruct (jget (asking n) r) as [a|] eqn:E; [|done]. apply jget_elem in E. pose proof (sv_asking _ _ Hn _ _ E) as Ha.
  apply wp_bind, wp_modify.
  assert (stream_inv inputs (with_asking n (jdel (asking n) r))) as Hn' by (keeps Hn; intros x; apply elem_jdel).
  destruct a; try by apply kept_wait. apply kept_serve; [done| |done]. by exists k.
Qed.

(** A call that goes on with success has its share stored. *)
Lemma completion_durable r ok n h c :
  writes_inv env (handler n) → answered r ok (handler n) = (h, Ok (Some c)) →
  match c with
  | CDkgRound3 _ (Ok k) | CRefreshRound2 (Ok k) => durable (with_handler n h) k
  | _ => True
  end.
Proof.
  intros Hw. unfold answered, gets, modify, mret, act_ret, mbind, act_bind.
  destruct (jget (waiting (handler n)) r) as [[t w]|] eqn:E; [|done]. apply jget_elem in E.
  destruct (wv_waiting _ _ Hw _ _ _ E) as [_ Hd].
  destruct ok; cbn [andb].
  - case_bool_decide as Hin; cbn [negb]; [|done].
    apply list_elem_of_fmap in Hin as ([t' q] & Et & Hin). cbn in Et. subst t'. specialize (Hd q ltac:(by right)).
    destruct w as [a e share|a e share|a]; [| |by intros [= _ <-]].
    all: destruct Hd as (cc & -> & Ec); intros [= <- <-]; exists t, a, e, share, cc; split_and!; done.
  - destruct w; intros [= _ <-]; done.
Qed.

Lemma kept_answered k r ok n :
  writes_inv env (handler n) → stream_inv inputs n →
  wp (handle env k (Answered r ok)) n (λ _, stream_inv inputs) (stream_inv inputs).
Proof.
  intros Hw Hn. cbn [handle]. apply wp_bind.
  pose proof (kept_on_handler inputs _ (narrows_answered r ok) n Hn) as Hk.
  pose proof (completion_durable r ok n) as Hd. revert Hk. unfold wp at 1 2, on_handler.
  destruct (answered r ok (handler n)) as [h [c|x]]; intros Hk; [|done]. unfold on_completion.
  destruct c as [[a res|res|a done_]|]; try by apply preserves_ret.
  - apply kept_finish; [|exact Hk]. specialize (Hd h _ Hw eq_refl). by destruct res.
  - specialize (Hd h _ Hw eq_refl). destruct res as [g|x]; [|by apply kept_plain].
    apply wp_modify. destruct Hk. split; cbn.
    + intros q p Hin. rewrite <- (app_nil_r inputs). eapply pending_more; [|eauto]. set_solver.
    + done.
    + intros r' resp' [Hin|[= -> ->]%list_elem_of_singleton]%elem_of_app; [|exact Hd].
      rewrite <- (app_nil_r inputs). eapply (response_fact_more _ _ (with_handler n h)); [set_solver|by intros ? ?|done|eauto].
Qed.

Lemma kept_handle k i n :
  length inputs = S k → inputs !! k = Some i → writes_inv env (handler n) → tick (handler n) = tick_at inputs k →
  stream_inv inputs n → done_at (handle env k i) n.
Proof.
  intros Hl Hi Hw Ht Hn. destruct i; try (by apply kept_answered); try (by apply kept_profile); clear Hw Ht; revert n Hn;
    match goal with |- ∀ n, _ → wp ?m n _ _ => change (kept m) end; cbn [handle].
  - by apply kept_request.
  - apply kept_resume. intros a Ha. destruct a; try by apply kept_wait. pose proof (waiting_earlier r (ASuspension q) _ k Ha I Hi).
    destruct Ha as [Ha Hq]. eapply kept_suspension; [done|done| |exact Hi]. auto.
  - apply kept_resume. intros a Ha. destruct a; try by apply kept_wait. case_match; eauto with preserves.
  - apply kept_resume. intros a Ha. destruct a; try by apply kept_wait. by apply kept_claim.
  - apply kept_resume. intros a Ha. destruct a; try by apply kept_wait. destruct Ha. by apply kept_bind.
  - apply kept_resume. intros a Ha. destruct a; try by apply kept_wait. destruct Ha. by apply kept_token.
  - apply kept_modify. intros n. cbn. unfold lands. destruct (jget (queries (handler n)) t); split_and!; try done; try by intros ? ?.
    cbn. intros x. by right.
  - eauto with preserves.
  - unfold begin_ceremony. apply preserves_bind; [eauto with preserves|]. intros c. destruct c; eauto with preserves.
  - eauto with preserves.
  - apply preserves_bind; eauto with preserves.
  - apply preserves_bind; eauto with preserves.
  - eauto with preserves.
Qed.

End Handled.

Lemma run_steps n inputs : steps (run env n inputs) = steps n + length inputs.
Proof.
  revert n. induction inputs as [|i inputs IH]; intros n; cbn; [lia|]. unfold run in IH. rewrite IH. cbn. lia.
Qed.

Lemma run_app n l l' : run env n (l ++ l') = run env (run env n l) l'.
Proof. apply foldl_app. Qed.

Lemma run_stream_inv inputs : stream_inv inputs (run env initial inputs).
Proof.
  induction inputs as [|i inputs IH] using rev_ind; [split; cbn; set_solver|].
  rewrite run_app. cbn [run foldl]. set (n := run env initial inputs) in *.
  assert (steps n = length inputs) as Es by apply (run_steps initial).
  assert (stream_inv (inputs ++ [i]) n) as Hn by (by apply stream_inv_app).
  assert (∀ m, stream_inv (inputs ++ [i]) m → stream_inv (inputs ++ [i]) (with_steps m (S (steps n)))) as Hst.
  { intros m Hm. eapply stream_inv_step; [..|exact Hm]; try done; by intros ? ?. }
  apply Hst.
  assert (stream_inv (inputs ++ [i]) (handle env (steps n) i n).1) as Hh.
  { apply (wp_final _ _ (stream_inv (inputs ++ [i]))). apply kept_handle; [| |apply run_writes| |exact Hn].
    - rewrite length_app, Es. cbn. lia.
    - rewrite Es. by apply list_lookup_middle.
    - unfold tick_at. by rewrite Es, take_app_length. }
  destruct i; try (destruct (up n); [exact Hh|exact Hn]); [exact Hh|].
  unfold reboot. unfold restart. destruct (loadShares _ _ _ _ _ _) as [m failed].
  eapply stream_inv_step; [..|exact Hn]; cbn; try done; try set_solver. by intros ? ?.
Qed.

End Authorised.
End FrostAuthorised.
