(* ===== verification/FrostTheorems.v ===== *)
(** What the frost stream of a directory promises, after any requests, answers of its
    database and restarts: who gets a partial signature, how often a nonce signs, what
    is durable, which epochs are expired; and where a promise of the code fails. *)
From Stdlib Require Import Ascii.
From S2P Require Import Prelude Text JsMap Effects Bytes Wire SealCosign FrostShares FrostSharesTheorems FrostFrames FrostHandler FrostNode FrostInvariant FrostAuthorised.
Import Text JsMap Effects Bytes Wire FrostShares FrostSharesTheorems FrostFrames FrostHandler FrostNode FrostInvariant FrostOrigin FrostAuthorised.

Module FrostTheorems.

(** * The key behind a name *)

Lemma hex_prefix_take n s :
  String.length (hex_prefix s) = n → hex_prefix (str_take (2 * n) s) = hex_prefix s ∧ 2 * n <= String.length s.
Proof.
  revert s. induction n as [|n IH]; intros s Hl.
  - destruct (hex_prefix s) eqn:E; [|done]. split; [by destruct s|lia].
  - destruct s as [|a [|b r]]; [done|done|]. cbn -[N.mul N.add ascii_of_N str_take] in Hl |- *.
    destruct (unhex_digit a) as [x|] eqn:Ea; [|done]. destruct (unhex_digit b) as [y|] eqn:Eb; [|done].
    injection Hl as Hl. destruct (IH r Hl) as [E Hn]. replace (n + S (n + 0)) with (S (2 * n)) by lia.
    cbn -[N.mul N.add ascii_of_N Nat.mul]. rewrite Ea, Eb, E. split; [done|lia].
Qed.

Lemma str_take_prefix n a b : n <= String.length a → str_take n (a +:+ b) = str_take n a.
Proof.
  revert a. induction n as [|n IH]; intros [|c a] Hl; cbn in Hl; try done; [lia|].
  rewrite str_app_cons. cbn. rewrite IH by lia. done.
Qed.

(** Two names that begin with the 64 digits of a key, and share their store key, have one key. *)
Lemma same_agent_key a a' e e' :
  key_of a e = key_of a' e' → String.length (agent_key a) = 32 → String.length (agent_key a') = 32 →
  agent_key a = agent_key a'.
Proof.
  unfold agent_key, key_of. intros Ek Ha Ha'.
  destruct (hex_prefix_take 32 a Ha) as [E Hl]. destruct (hex_prefix_take 32 a' Ha') as [E' Hl'].
  rewrite <- E, <- E'. f_equal. rewrite <- (str_take_prefix _ a (":" +:+ e)) by done.
  rewrite <- (str_take_prefix _ a' (":" +:+ e')) by done. by rewrite Ek.
Qed.

Section Theorems.
Context (env : NodeEnv).

Lemma auth_key a e tail sig : verifyFrostAuth env a e tail sig = None → String.length (agent_key a) = 32.
Proof.
  unfold verifyFrostAuth. destruct sig; try done. destruct (String.length (agent_key a) =? 32)%nat eqn:E; [|done].
  intros _. by apply Nat.eqb_eq.
Qed.

(** * Partial signatures *)

(** C23. A partial signature leaves the stream only for a request that its agent's key signed
    together with the message, after the agent was read as not suspended, with the leaves
    for a seal; and with the nonce of a commitment that an earlier request of the same key
    under the same name was answered with, at most a minute before. *)
Theorem signature_is_authorised inputs r partialSig :
  let n := run env initial inputs in
  (r, SignResponse (Ok partialSig)) ∈ sent n →
  ∃ a e msg l peer sig leaves ts k, cleared env inputs r (SignRequest a e msg l peer sig leaves ts) ∧
    (SealCosign.isSealFramedMessage msg = true → cosign env msg leaves ts = Ok tt) ∧
    inputs !! k = Some (ProfileKnown r) ∧
  ∃ r' a' e' sig' k' share nonce_ c, k' < k ∧ cleared env inputs r' (CommitRequest a' e' sig') ∧
    inputs !! k' = Some (ProfileKnown r') ∧ (r', CommitResponse (Ok (nodeId env, c))) ∈ sent n ∧
    agent_key a' = agent_key a ∧ key_of a' e' = key_of a e ∧
    commit env (S (tick_at env inputs k')) (secret share) = Some (nonce_, c) ∧
    (clock env (tick_at env inputs k) <= clock env (tick_at env inputs k') + PENDING_NONCE_TTL_MS)%Z ∧
    signShare env share nonce_ l msg = Some partialSig.
Proof.
  cbv zeta. intros Hin. pose proof (sv_sent _ _ _ (run_stream_inv env inputs) _ _ Hin) as H.
  destruct H as (a & e & msg & l & peer & sig & leaves & ts & [n s x] & k & k' & Hc & He & Hk & Hl & Hp & Ht & Hs).
  destruct Hp as (r' & a' & e' & sig' & c & Ek & Hc' & Hk' & Hin' & Hcm & Hx). cbn [p_share p_nonce expiresAt] in *. subst x.
  exists a, e, msg, l, peer, sig, leaves, ts, k. split; [done|]. split; [done|]. split; [done|].
  exists r', a', e', sig', k', s, n, c. split_and!; try done.
  apply (same_agent_key _ _ e' e); [done| |]; eapply auth_key; [apply Hc'|apply Hc].
Qed.

(** C24. No nonce is used in two calls of [signShare], whatever the order of requests. *)
Theorem nonce_signs_once inputs :
  fresh_commits env → NoDup (map c_nonce (calls (handler (run env initial inputs)))).
Proof.
  intros Hf. destruct (run_nonces env inputs Hf) as [_ _ H]. unfold nonces_of in H. by apply NoDup_app in H as [H _].
Qed.

(** C25. Every share that is held, or that was ever signed with, was dealt to this node by a key
    generation that went through its rounds here, or refreshed from one that was; and every
    signature was made with a nonce drawn for that share. *)
Theorem shares_are_dealt inputs :
  provider_sound env → let h := handler (run env initial inputs) in
  (∀ a e share, getShare (memory h) a e = Some share → origin env (key_of a e) share) ∧
  (∀ c, c ∈ calls h → (∃ key, origin env key (c_share c)) ∧ drawn_for env (c_share c) (c_nonce c)).
Proof.
  intros Hp h. pose proof (run_origin env inputs Hp) as Hh. fold h in Hh. split.
  - intros a e share E. by apply (ov_memory _ _ Hh), jget_elem.
  - apply (ov_calls _ _ Hh).
Qed.

(** A node answers that a key generation or a refresh is complete only when the encrypted
    share is in the statements that the database executed; and the table is what these
    statements make of an empty one. *)
Theorem completed_share_is_durable inputs r groupKey :
  let n := run env initial inputs in
  (r, DkgResponse3 (Ok groupKey)) ∈ sent n ∨ (r, RefreshResponse2 (Ok groupKey)) ∈ sent n →
  (∃ t a e share c, (t, QInsert a e c) ∈ landed (handler n) ∧
     encrypt_share (encrypt env) t a e (share_bytes env share) = Some c ∧ groupKey = group_key (pub share)) ∧
  table (handler n) = foldr (λ e tb, execute tb e.2) [] (landed (handler n)).
Proof.
  intros n Hin. split; [|apply (wv_table _ _ (run_writes env inputs))].
  destruct Hin as [Hin|Hin]; exact (sv_sent _ _ _ (run_stream_inv env inputs) _ _ Hin).
Qed.

(** Where capabilities are required, a first round of key generation is answered only for
    an agent that owns a verified capability's nonce, and no nonce ever has two owners. *)
Theorem capability_admits_one_agent inputs :
  capability_gate env → ∃ owner : string → option string, ∀ r res,
  (r, DkgResponse1 res) ∈ sent (run env initial inputs) →
  ∃ a e s cap, first_round inputs r a e s ∧ verified env cap ∧ owner (nonce cap) = Some a.
Proof.
  intros Hg. exists (jget (bindings (run env initial inputs))). intros r res Hin.
  exact (sv_sent _ _ _ (run_stream_inv env inputs) _ _ Hin Hg).
Qed.

(** * Epochs *)

Lemma expired_spec h a e m n :
  parseEpochN e = Some m → epoch_of h a = Some n → isExpiredEpoch h a e = (m <? n)%Z.
Proof. intros Em En. unfold isExpiredEpoch. by rewrite Em, En. Qed.

Lemma expired_refused h a e : isExpiredEpoch h a e = true → generateCommitment env a e h = (h, Ok (Err EPOCH_EXPIRED)).
Proof. intros E. by rewrite generateCommitment_eq, E. Qed.

(** Inputs that leave the epoch of [a] alone: no key generation or refresh of it completes,
    no test sets it, and the process goes on. *)
Fixpoint undisturbed (a : string) (n : Node) (more : list input) : Prop :=
  match more with
  | [] => True
  | i :: more => allowed (λ b, b ≠ a) n i ∧ i ≠ Restarted ∧ undisturbed a (run_input env n i) more
  end.

Lemma epoch_respected a v : respected env (λ b, b ≠ a) (λ h, jget (currentEpoch h) a = v).
Proof.
  assert (∀ f, (∀ h, currentEpoch (f h) = currentEpoch h) → preserves (λ h, jget (currentEpoch h) a = v) (modify f : M unit)) as Hm.
  { intros f Hf h Hh. apply wp_modify. by rewrite Hf. }
  assert (preserves (λ h, jget (currentEpoch h) a = v) next_tick) as Ht by (intros h Hh; exact Hh).
  assert (∀ b n, b ≠ a → preserves (λ h, jget (currentEpoch h) a = v) (set_epoch b n)) as He.
  { intros b n Hb h Hh. apply wp_modify. cbn. by rewrite jget_jset_ne. }
  assert (∀ b e share, preserves (λ h, jget (currentEpoch h) a = v) (send_insert env b e share)) by
    (intros; unfold send_insert; preserve; done).
  assert (∀ b e share, preserves (λ h, jget (currentEpoch h) a = v) (storeShare_forget env b e share)) by
    (intros; unfold storeShare_forget, store_memory; preserve; done).
  assert (∀ r b e share w, preserves (λ h, jget (currentEpoch h) a = v) (storeShareDurable env r b e share w)) by
    (intros; unfold storeShareDurable, store_memory, await; preserve; done).
  split; intros.
  - done.
  - intros h Hh. unfold wp. rewrite generateCommitment_eq. destruct (isExpiredEpoch h a0 e); [done|].
    destruct (getShare (memory h) a0 e) as [share|]; [|done]. cbv zeta. by destruct (commit env _ _) as [[? ?]|].
  - intros h Hh. unfold wp. rewrite signRawMessage_eq. destruct (checkConflict h a0 e peer); [done|]. cbv zeta.
    destruct (jget (pendingNonces h) (key_of a0 e)) as [p|]; [|done]. by destruct (expiresAt p <? _)%Z.
  - intros h Hh. unfold wp. rewrite handleCeremonyRound_eq. destruct (checkConflict h a0 e peer); [done|].
    destruct (getShare (memory h) a0 e) as [share|]; [|done]. cbv zeta. by destruct (commit env _ _) as [[? ?]|].
  - unfold dkgRound1, set_dkg. preserve; done.
  - unfold dkgRound2, set_dkg. preserve; done.
  - unfold dkgRound3, set_dkg, drop_dkg. preserve; done.
  - unfold refreshRound1. preserve.
  - unfold refreshRound2. preserve.
  - unfold injectShareForTest. preserve.
  - unfold bootstrapKeyShares. preserve.
  - unfold destroyShares, await. preserve; done.
  - by apply Hm.
  - by apply Hm.
  - revert H2. unfold resumes, answered, dkgRound3_stored, refreshRound2_stored, drop_dkg. intros Hr.
    apply wp_bind, wp_gets. destruct (jget (waiting h) r) as [[t w]|]; [|done].
    apply wp_bind, wp_gets. destruct (ok && _); [done|]. apply wp_bind, wp_modify.
    set (h' := with_waiting _ _). assert (jget (currentEpoch h') a = v) as Hh' by done. clearbody h'. revert h' Hh'.
    destruct w as [b e share|b e share|b]; cbn in Hr; match goal with |- ∀ n, _ → wp ?m n _ _ =>
      change (preserves (λ h, jget (currentEpoch h) a = v) m) end; preserve; done.
  - unfold lands. by destruct (jget (queries h) t).
Qed.

Lemma undisturbed_epoch a n more :
  undisturbed a n more → jget (currentEpoch (handler (run env n more))) a = jget (currentEpoch (handler n)) a.
Proof.
  revert n. induction more as [|i more IH]; intros n Hu; [done|]. destruct Hu as (Ha & Hr & Hu).
  cbn [run foldl]. change (foldl (run_input env) ?x ?y) with (run env x y). rewrite (IH _ Hu).
  apply (run_input_respects env (λ b, b ≠ a) (λ h, jget (currentEpoch h) a = jget (currentEpoch (handler n)) a)); try done.
  apply epoch_respected.
Qed.

(** A row that can be read at any start. *)
Definition readable (k : string) (row : Row) : Prop :=
  ∀ t, ∃ plaintext share, decrypt env t (encrypted_share row) k = Some plaintext ∧
    deserialize (element_of env) (json_value env) plaintext = Some share.

Abbreviation load := (loadShares (element_of env) (json_value env) (decrypt env)).

Lemma elem_jkeys_jset {V} (m : jsmap string V) k v q : q ∈ jkeys m ∨ q = k → q ∈ jkeys (jset m k v).
Proof. rewrite jkeys_jset. case_decide; [by intros [?| ->]|]. rewrite elem_of_app. set_solver. Qed.

Lemma load_row_keeps t acc e k : k ∈ jkeys acc.1 → k ∈ jkeys (load_row (element_of env) (json_value env) (decrypt env) t acc e).1.
Proof.
  unfold load_row. destruct (decrypt env t _ _) as [p|]; [|done]. destruct (deserialize _ _ p) as [share|]; [|done].
  cbn. intros H. apply elem_jkeys_jset. by left.
Qed.

Lemma load_keeps t tb acc k : k ∈ jkeys acc.1 → k ∈ jkeys (load t tb acc).1.
Proof. revert t acc. induction tb as [|e tb IH]; intros t acc H; [done|]. cbn. by apply IH, load_row_keeps. Qed.

Lemma load_reads t tb acc a e row :
  ((a, e), row) ∈ tb → readable (key_of a e) row → key_of a e ∈ jkeys (load t tb acc).1.
Proof.
  revert t acc. induction tb as [|x tb IH]; intros t acc Hin Hr; [by apply not_elem_of_nil in Hin|].
  cbn. apply elem_of_cons in Hin as [<-|Hin]; [|by apply IH]. apply load_keeps. unfold load_row. cbn [fst snd].
  destruct (Hr t) as (p & share & -> & ->). cbn. apply elem_jkeys_jset. by right.
Qed.

(** When a refresh is answered with success, older epochs of the agent are refused: at
    once, as long as no other key generation or refresh of it completes, and after a
    restart as long as the new row can be read. *)
Theorem refresh_expires_old_epochs n r t a to share new_ :
  up n = true → jget (waiting (handler n)) r = Some (t, WRefreshRound2 a to share) →
  t ∈ map fst (landed (handler n)) → parseEpochN to = Some new_ →
  let n' := run_input env n (Answered r true) in
  sent n' = sent n ++ [(r, RefreshResponse2 (Ok (group_key (pub share))))] ∧
  ∀ more e old, undisturbed a n' more → parseEpochN e = Some old → (old < new_)%Z →
    let h := handler (run env n' more) in
    generateCommitment env a e h = (h, Ok (Err EPOCH_EXPIRED)) ∧
    ∀ row, jget (table h) (a, to) = Some row → readable (key_of a to) row →
      let h' := (restart env h).1 in generateCommitment env a e h' = (h', Ok (Err EPOCH_EXPIRED)).
Proof.
  intros Hup Hw Hl Hto n'.
  assert (sent n' = sent n ++ [(r, RefreshResponse2 (Ok (group_key (pub share))))] ∧
          jget (currentEpoch (handler n')) a = Some new_) as [Hs Hc].
  { subst n'. unfold run_input. rewrite Hup. cbn [handler sent with_steps handle].
    unfold on_handler, answered, refreshRound2_stored, set_epoch, gets, modify, on_completion, respond, mret, act_ret, mbind, act_bind.
    rewrite Hw, bool_decide_eq_true_2 by done. cbn. by rewrite Hto, jget_jset_eq. }
  split; [done|]. intros more e old Hu He Hlt h. split.
  - apply expired_refused. rewrite (expired_spec _ _ _ old new_); [by apply Z.ltb_lt|done|].
    unfold epoch_of. subst h. by rewrite (undisturbed_epoch _ _ _ Hu), Hc.
  - intros row Hrow Hread h'. apply expired_refused. apply jget_elem in Hrow.
    destruct (key_epoch a to new_ Hto) as [pre Hpre].
    assert (∃ x, getMaxEpoch (memory h') a = Some x ∧ (new_ <= x)%Z) as (x & Ex & Hx).
    { subst h'. unfold restart. pose proof (load_reads (tick h) (table h) ([], 0) a to row Hrow Hread) as Hk.
      destruct (load (tick h) (table h) ([], 0)) as [m failed]. cbn [fst memory] in *.
      eapply getMaxEpoch_ge; [exact Hk|apply of_agent_key|exact Hpre]. }
    rewrite (expired_spec _ _ _ old x); [apply Z.ltb_lt; lia|done|].
    unfold epoch_of. replace (jget (currentEpoch h') a) with (@None Z); [done|].
    subst h'. unfold restart. by destruct (load _ _ _) as [m failed].
Qed.

(** A refresh whose durable write fails is answered with an error and does not set the
    epoch; after a restart, when the epoch is read off the shares in memory, the old epoch
    is nevertheless refused from then on. *)
Theorem failed_refresh_expires_old_epoch h r a from to signers ids cs share new old_n new_n :
  jget (currentEpoch h) a = None → getShare (memory h) a from = Some share →
  applyRefresh env share cs signers ids = Ok new →
  parseEpochN from = Some old_n → parseEpochN to = Some new_n → (old_n < new_n)%Z →
  let h1 := (refreshRound2 env r a from to signers ids cs h).1 in
  let h2 := (answered r false h1).1 in
  (answered r false h1).2 = Ok (Some (CRefreshRound2 (Err internal_error))) ∧
  currentEpoch h2 = currentEpoch h ∧ getShare (memory h2) a to = Some new ∧
  generateCommitment env a from h2 = (h2, Ok (Err EPOCH_EXPIRED)).
Proof.
  intros Hc Hs Ha Hf Ht Hlt h1.
  assert (currentEpoch h1 = currentEpoch h ∧ memory h1 = storeShare (memory h) a to new ∧
          ∃ t, jget (waiting h1) r = Some (t, WRefreshRound2 a to new)) as (E1 & E2 & t & E3).
  { subst h1. unfold refreshRound2, storeShareDurable, store_memory, send_insert, await, next_tick, gets, modify, mret, act_ret, mbind, act_bind.
    rewrite Hs, Ha. destruct (encrypt_share _ _ _ _ _); cbn; (split; [done|]; split; [done|]; eexists; by rewrite jget_jset_eq). }
  clearbody h1. set (h2 := (answered r false h1).1).
  assert ((answered r false h1).2 = Ok (Some (CRefreshRound2 (Err internal_error))) ∧ h2 = with_waiting h1 (jdel (waiting h1) r)) as [Er ->].
  { subst h2. unfold answered, refreshRound2_stored, gets, modify, mret, act_ret, mbind, act_bind. rewrite E3. done. }
  split; [done|]. split; [done|]. cbn [memory with_waiting]. rewrite E2. split; [apply getShare_stored|].
  apply expired_refused. destruct (getMaxEpoch_held _ _ _ _ _ (getShare_stored (memory h) a to new) Ht) as (x & Ex & Hx).
  rewrite (expired_spec _ _ _ old_n x); [apply Z.ltb_lt; lia|done|]. unfold epoch_of. cbn [currentEpoch memory with_waiting]. by rewrite E1, Hc, E2, Ex.
Qed.

(** * Burning *)

Lemma destroyed_memory m a e : getShare (destroy_memory m a) a e = None.
Proof.
  unfold getShare, destroy_memory. induction m as [|[k s] m IH]; [done|]. cbn [List.filter fst].
  destruct (of_agent a k) eqn:E; cbn [negb]; [done|]. cbn [jget]. rewrite decide_False; [done|].
  intros ->. by rewrite of_agent_key in E.
Qed.

(** A loaded share comes from a row that could be decrypted. *)
Lemma load_from t tb acc k share :
  (k, share) ∈ (load t tb acc).1 →
  (k, share) ∈ acc.1 ∨ ∃ a e row t' p, ((a, e), row) ∈ tb ∧ k = key_of a e ∧ decrypt env t' (encrypted_share row) k = Some p.
Proof.
  revert t acc. induction tb as [|[[a e] row] tb IH]; intros t acc Hin; [by left|]. cbn in Hin.
  destruct (IH _ _ Hin) as [H|(a' & e' & row' & t' & p & H & ?)].
  - unfold load_row in H. cbn [fst snd] in H. destruct (decrypt env t _ _) as [p|] eqn:Ed; [|by left].
    destruct (deserialize _ _ p) as [s|]; [|by left]. cbn [fst] in H.
    apply elem_jset_key in H as [H|[= -> ->]]; [by left|]. right. exists a, e, row, t, p. split; [left|done].
  - right. exists a', e', row', t', p. split; [by right|done].
Qed.

(** A burn empties the memory of the agent at once and its rows when its statement is
    executed, and no restart brings a share back; but a nonce that is pending keeps its
    share, and is still there to be signed with. *)
Theorem burned_shares_are_gone h r a :
  (∀ t k, decrypt env t EmptyString k = None) → has_char ":" a = false →
  (∀ b e row, ((b, e), row) ∈ table h → has_char ":" b = false) →
  let h1 := (destroyShares r a h).1 in
  let h2 := lands (tick h) h1 in
  (∀ e, getShare (memory h1) a e = None) ∧
  (∀ e row, ((a, e), row) ∈ table h2 → encrypted_share row = EmptyString) ∧
  (∀ e, getShare (memory (restart env h2).1) a e = None) ∧
  pendingNonces h2 = pendingNonces h.
Proof.
  intros Hd Ha Hb h1 h2.
  assert (table h2 = zero_rows (table h) a) as Et.
  { subst h2. unfold lands. replace (jget (queries h1) (tick h)) with (Some (QZero a)); [done|].
    symmetry. subst h1. apply (jget_jset_eq (queries h)). }
  assert (∀ e row, ((a, e), row) ∈ table h2 → encrypted_share row = EmptyString) as Hz.
  { rewrite Et. intros e row ([[b e'] row'] & E & _)%list_elem_of_fmap. cbn in E. case_bool_decide; simplify_eq/=; congruence. }
  split; [intros e; apply destroyed_memory|]. split; [exact Hz|]. split.
  - intros e. destruct (getShare _ a e) as [s|] eqn:E; [|done]. exfalso. apply jget_elem in E. revert E.
    unfold restart. pose proof (load_from (tick h2) (table h2) ([], 0) (key_of a e) s) as Hl.
    destruct (load (tick h2) (table h2) ([], 0)) as [m failed]. cbn [fst memory] in *. intros E.
    destruct (Hl E) as [Hin|(b & e' & row & t' & p & Hin & Ek & Ed)]; [by apply not_elem_of_nil in Hin|].
    assert (has_char ":" b = false) as Hcb.
    { rewrite Et in Hin. apply list_elem_of_fmap in Hin as ([[b' e0] row'] & E' & Hin'). cbn in E'.
      case_bool_decide; simplify_eq/=; by eapply Hb. }
    apply (cut_at ":" a e b e') in Ek as [-> ->]; [|done|done]. rewrite (Hz _ _ Hin), Hd in Ed. done.
  - subst h2. unfold lands. destruct (jget (queries h1) (tick h)); done.
Qed.

(** * A name that is cut elsewhere *)

(** The agent [hex pk] and its epoch [k], under another cut of the same store key. *)
Definition split_agent (pk : bytes) : string := hex pk +:+ ":" +:+ hex pk.
Definition split_epoch (k : string) : string := "epoch:" +:+ k.
Definition true_epoch (pk : bytes) (k : string) : string := hex pk +:+ ":epoch:" +:+ k.

Lemma split_key pk k : key_of (split_agent pk) (split_epoch k) = key_of (hex pk) (true_epoch pk k).
Proof. unfold key_of, split_agent, split_epoch, true_epoch. rewrite !str_app_assoc. reflexivity. Qed.

Lemma split_agent_key pk : agent_key (split_agent pk) = pk.
Proof.
  unfold agent_key, split_agent. rewrite hex_prefix_app.
  replace (hex_prefix (":" +:+ hex pk)) with EmptyString; [apply str_app_nil_r|]. by destruct (hex pk).
Qed.

Lemma split_agent_ne pk : split_agent pk ≠ hex pk.
Proof. intros E. apply (f_equal String.length) in E. unfold split_agent in E. rewrite !str_app_length in E. cbn in E. lia. Qed.

Lemma span_all {A} (p : A → bool) l r : forallb p l = true → match r with [] => True | x :: _ => p x = false end → span p (l ++ r) = (l, r).
Proof.
  intros Hl Hr. induction l as [|x l IH]; cbn in *.
  - destruct r as [|x r]; [done|]. cbn. by rewrite Hr.
  - apply andb_true_iff in Hl as [-> Hl]. by rewrite (IH Hl).
Qed.

Lemma all_chars_list p s : all_chars p s = forallb p (String.list_ascii_of_string s).
Proof. induction s as [|c s IH]; [done|]. cbn. by rewrite IH. Qed.

Lemma forallb_rev {A} (p : A → bool) l : forallb p (rev l) = forallb p l.
Proof.
  induction l as [|x l IH]; [done|]. cbn [rev]. rewrite forallb_app, IH. cbn [forallb]. rewrite andb_true_r. apply andb_comm.
Qed.

(** The other cut has no epoch number at all. *)
Lemma split_epoch_unnumbered k : all_chars is_digit k = true → parseEpochN (split_epoch k) = None.
Proof.
  intros Hk. unfold parseEpochN, epoch_suffix, split_epoch. rewrite list_ascii_app, rev_app_distr.
  rewrite span_all; [|by rewrite forallb_rev, <- all_chars_list|done].
  by destruct (rev (String.list_ascii_of_string k)).
Qed.

Lemma unnumbered_never_expires h a e : parseEpochN e = None → isExpiredEpoch h a e = false.
Proof. intros E. unfold isExpiredEpoch. by rewrite E. Qed.

(** A request that is authentic and found not suspended is served in the state it came in. *)
Lemma request_served n q :
  up n = true → authentic env q →
  ∃ n1, handler n1 = handler n ∧ sent n1 = sent n ∧ up n1 = true ∧
    run env n [Asked q; SuspensionKnown (steps n) (Some false); ProfileKnown (steps n)] =
    with_steps (serve env (steps n) q n1).1 (S (S (S (steps n)))).
Proof.
  intros Hup Hq.
  set (m1 := with_steps (with_asking n (jset (asking n) (steps n) (ASuspension q))) (S (steps n))).
  assert (run_input env n (Asked q) = m1) as E1.
  { unfold run_input. rewrite Hup. cbn [handle].
    destruct q; cbn [authentic] in Hq; try done; unfold handleFrostStream; rewrite ?Hq; reflexivity. }
  set (m2 := with_steps (with_asking m1 (jset (jdel (asking m1) (steps n)) (steps n) (AProfile q))) (S (S (steps n)))).
  assert (run_input env m1 (SuspensionKnown (steps n) (Some false)) = m2) as E2.
  { unfold run_input. replace (up m1) with true by (by rewrite <- Hup). cbn [handle].
    unfold resume, gets, mbind, act_bind. replace (jget (asking m1) (steps n)) with (Some (ASuspension q)) by (cbn; by rewrite jget_jset_eq).
    reflexivity. }
  exists (with_asking m2 (jdel (asking m2) (steps n))). split; [done|]. split; [done|]. split; [done|].
  cbn [run foldl]. change (foldl (run_input env) ?x ?l) with (run env x l). rewrite E1. cbn [run foldl]. rewrite E2.
  unfold run_input at 1. replace (up m2) with true by (by rewrite <- Hup). cbn [handle].
  unfold resume, gets, mbind, act_bind. replace (jget (asking m2) (steps n)) with (Some (AProfile q)) by (cbn; by rewrite jget_jset_eq).
  reflexivity.
Qed.

(** Whoever holds the key of a suspended agent, or asks for an epoch that has expired, is
    still served under the other cut of the name: the store is asked about a name that is
    no agent's, the epoch has no number, and the share and the key are the agent's. *)
Theorem split_name_is_served n pk k share sig sig' :
  let a := split_agent pk in let e := split_epoch k in
  up n = true → String.length pk = 32 → all_chars is_digit k = true →
  getShare (memory (handler n)) (hex pk) (true_epoch pk k) = Some share →
  (∀ t, is_Some (commit env t (secret share))) →
  verify env pk (auth_digest env pk e FROST_AUTH_COMMIT_TAIL) sig = true →
  let n' := run env n [Asked (CommitRequest a e (VBytes sig)); SuspensionKnown (steps n) (Some false); ProfileKnown (steps n)] in
  agent_of (CommitRequest a e (VBytes sig)) ≠ hex pk ∧
  ∃ nonce_ c, sent n' = sent n ++ [(steps n, CommitResponse (Ok (nodeId env, c)))] ∧
    ∀ msg l peer partialSig, SealCosign.isSealFramedMessage msg = false →
      verify env pk (auth_digest env pk e (sign_tail msg)) sig' = true →
      checkConflict (handler n') a e peer = false →
      (clock env (tick (handler n')) <= clock env (tick (handler n)) + PENDING_NONCE_TTL_MS)%Z →
      signShare env share nonce_ l msg = Some partialSig →
      sent (run env n' [Asked (SignRequest a e msg l peer (VBytes sig') VUndef VUndef);
                        SuspensionKnown (steps n') (Some false); ProfileKnown (steps n')]) =
      sent n' ++ [(steps n', SignResponse (Ok partialSig))].
Proof.
  intros a e Hup Hpk Hk Hs Hc Hsig n'. split; [apply split_agent_ne|].
  assert (∀ tail sig, verify env pk (auth_digest env pk e tail) sig = true → verifyFrostAuth env a e tail (VBytes sig) = None) as Hauth.
  { intros tail s Hv. unfold verifyFrostAuth, a. rewrite split_agent_key, Hpk. cbn -[auth_digest]. by rewrite Hv. }
  destruct (request_served n (CommitRequest a e (VBytes sig)) Hup (Hauth _ _ Hsig)) as (n1 & Eh & Es & Eu & Erun).
  destruct (Hc (S (tick (handler n)))) as [[nonce_ c] Ec]. exists nonce_, c.
  assert (sent n' = sent n ++ [(steps n, CommitResponse (Ok (nodeId env, c)))] ∧ up n' = true ∧
    jget (pendingNonces (handler n')) (key_of a e) = Some (mkPending nonce_ share (clock env (tick (handler n)) + PENDING_NONCE_TTL_MS)))
    as (Es' & Eu' & Ep).
  { subst n'. rewrite Erun. cbn [serve]. unfold on_handler, respond, modify, mbind, act_bind.
    rewrite generateCommitment_eq, unnumbered_never_expires by (by apply split_epoch_unnumbered).
    unfold getShare, a, e. rewrite split_key. unfold getShare in Hs. rewrite Eh, Hs. cbv zeta.
    cbn [sweep_nonces pendingNonces with_pendingNonces]. rewrite Ec. cbn. rewrite Es, Eu, jget_jset_eq. done. }
  split; [exact Es'|]. intros msg l peer ps Hseal Hv Hconf Ht Hps.
  destruct (request_served n' (SignRequest a e msg l peer (VBytes sig') VUndef VUndef) Eu' (Hauth _ _ Hv)) as (n2 & Eh2 & Es2 & _ & ->).
  cbn [serve sent with_steps]. rewrite Hseal. unfold on_handler, respond, modify, mbind, act_bind.
  rewrite signRawMessage_eq, Eh2, Hconf, Ep. cbv zeta. cbn [expiresAt p_share p_nonce].
  replace (_ <? _)%Z with false by (symmetry; by apply Z.ltb_ge). cbn. by rewrite Hps, Es2.
Qed.

End Theorems.
End FrostTheorems.
