(* ===== verification/FrostDemo.v ===== *)
(** A directory on concrete functions: one key generation, a signature, a refresh and a
    restart; the theorems about the frost stream at these runs. *)
From Stdlib Require Import Ascii.
From S2P Require Import Prelude Text JsMap Effects Bytes Wire SealCosign FrostShares FrostSharesTheorems FrostFrames FrostHandler FrostNode FrostInvariant FrostAuthorised FrostTheorems.
Import Text JsMap Effects Bytes Wire FrostShares FrostSharesTheorems FrostFrames FrostHandler FrostNode FrostInvariant FrostOrigin FrostAuthorised FrostTheorems.

Module FrostDemo.

Definition pk : bytes := "agent key of thirty-two bytes 32".
Definition agent : string := hex pk.
Definition epoch (k : string) : string := true_epoch pk k.

Definition held : LocalShare := sample "00ab" "00cd".

Definition pad : bytes := "nonce and tag of an AEAD: 28".

(** Strips the pad. *)
Definition demo_decrypt (c : bytes) : option bytes := strip_prefix pad c.

Definition two : Signers := mkSigners (JInt 2) (JInt 3).

Definition frost_env : FrostEnv := {|
  clock := λ t, (Z.of_nat t * 1000)%Z;
  is_test := false;
  nodeId := "n1";
  derive := λ s, "id of " +:+ s;
  trustedDealer := λ _ _ _, None;
  commit := λ t _, Some (VNum (JInt (Z.of_nat t)), VStr "commitment");
  signShare := λ _ n _ msg, Some ("signed " +:+ msg);
  DKG_round1 := λ t id _, Some (mkBroadcast id ["c0"; "c1"] "proof", VStr "r1");
  DKG_round2 := λ _ _, (VStr "r2", Some [("id of n2", ("id of n1", "part"))]);
  DKG_round3 := λ _ _ _, (VStr "r3", Some held);
  generateRefreshContribution := λ _ _ _ _, Some VNull;
  applyRefresh := λ _ _ _ _, Ok held;
  element_of := λ _, "000"%char;
  json_text := λ _, "the text";
  json_value := λ _, Some (replaced (share_object held));
  encrypt := λ _ p _, Some (pad +:+ p);
  decrypt := λ _ c _, demo_decrypt c;
|}.

Definition sig_of (key msg : bytes) : bytes := "by " +:+ (key +:+ msg).

Definition env : NodeEnv := {|
  frost := frost_env;
  verify := λ key msg sig, bool_decide (sig = sig_of key msg);
  sha256 := id;
  cborDecode := λ _, None;
  hash_tree_root := sjoin;
  decodeSealPayload := λ _, None;
  buildSealTbs := λ _ root _ _, root;
  capabilityIssuerPubkey := Some "issuer";
  has_nonceBinder := true;
  has_tokenValidator := false;
  has_pgPool := true;
  decodeCapability := λ s, Some (mkCapability s "phone" "example.org" VNull);
  verifyCapability := λ _ _ _, Ok tt;
|}.

(** * Runs *)

Definition round (q : DkgRequest) : input := Asked (DkgFrame (encodeFrostDkgRequest q)).

Definition peer_broadcast : DkgRound1Broadcast := mkBroadcast "id of n2" ["c0"; "c1"] "proof".

(** Statement 3 stores the share. *)
Definition dealt (k : string) : list input :=
  [round (Round1Request agent (epoch k) two (Some "capability")); BindDone 0 Works;
   round (Round2Request agent (epoch k) [peer_broadcast]);
   round (Round3Request agent (epoch k) [mkRound2 "id of n2" "id of n1" "part"] [peer_broadcast]);
   Lands 2; Answered 3 true].

Definition commit_asked (a e : string) : input :=
  Asked (CommitRequest a e (VBytes (sig_of pk (auth_digest env pk e FROST_AUTH_COMMIT_TAIL)))).

Definition sign_asked (a e : string) (msg : bytes) : input :=
  Asked (SignRequest a e msg [VStr "commitment"] "peer" (VBytes (sig_of pk (auth_digest env pk e (sign_tail msg)))) VUndef VUndef).

(** A request at place [r], found not suspended. *)
Definition served (i : input) (r : nat) : list input := [i; SuspensionKnown r (Some false); ProfileKnown r].

Definition signed : list input :=
  dealt "1" ++ served (commit_asked agent (epoch "1")) 6 ++ served (sign_asked agent (epoch "1") "hello") 9.

Definition refresh_asked (k k' : string) : input :=
  Asked (RefreshRound2Request agent (epoch k) (epoch k') two ["id of n1"; "id of n2"] [VNull]).

Definition refreshed : list input := dealt "1" ++ served (refresh_asked "1" "2") 6 ++ [Lands 3].

Abbreviation at_end := (run env initial).

Example signed_answers :
  map snd (sent (at_end signed)) =
    [DkgResponse1 (Ok (mkBroadcast "id of n1" ["c0"; "c1"] "proof"));
     DkgResponse2 (Ok [mkRound2 "id of n1" "id of n2" "part"]); DkgResponse3 (Ok "group");
     CommitResponse (Ok ("n1", VStr "commitment")); SignResponse (Ok "signed hello")].
Proof. vm_compute. reflexivity. Qed.

(** The same request again finds no nonce, an old commitment has expired, and a suspended
    agent gets nothing. *)
Example refusals :
  last (sent (at_end (signed ++ served (sign_asked agent (epoch "1") "again") 12))) =
    Some (12, SignResponse (Err (Ceremony AGENT_NOT_BOOTSTRAPPED))) ∧
  last (sent (at_end (dealt "1" ++ [commit_asked agent (epoch "1"); SuspensionKnown 6 None]))) =
    Some (6, CommitResponse (Err AGENT_SUSPENDED)) ∧
  last (sent (at_end (refreshed ++ [Answered 6 true] ++ served (commit_asked agent (epoch "1")) 11))) =
    Some (11, CommitResponse (Err (Ceremony EPOCH_EXPIRED))).
Proof. vm_compute. split_and!; reflexivity. Qed.

(** A refresh needs no proof of anything: whoever can open a stream moves the agent to an
    epoch of its choice. *)
Example refresh_by_anyone :
  epoch_of (handler (at_end (dealt "1" ++ served (refresh_asked "1" "99") 6 ++ [Lands 3; Answered 6 true]))) agent = Some 99%Z.
Proof. vm_compute. reflexivity. Qed.

(** A second key generation for an agent, let through by any unused capability, replaces
    its share and its group key at this node. *)
Example dealt_again :
  let again := [round (Round1Request agent (epoch "1") two (Some "another")); BindDone 6 Works;
                round (Round2Request agent (epoch "1") [peer_broadcast]);
                round (Round3Request agent (epoch "1") [mkRound2 "id of n2" "id of n1" "part"] [peer_broadcast]);
                Lands 5; Answered 9 true] in
  last (sent (at_end (dealt "1" ++ again))) = Some (9, DkgResponse3 (Ok "group")).
Proof. vm_compute. reflexivity. Qed.

(** A commitment made before a burn still signs after it. *)
Example burned_signs :
  last (sent (at_end (dealt "1" ++ served (commit_asked agent (epoch "1")) 6 ++ [BurnSwept agent] ++
    served (sign_asked agent (epoch "1") "hello") 10))) = Some (10, SignResponse (Ok "signed hello")).
Proof. vm_compute. reflexivity. Qed.

(** * The theorems at these runs *)

Lemma strip_prefix_app p s : strip_prefix p (p +:+ s) = Some s.
Proof. induction p as [|c p IH]; [done|]. rewrite str_app_cons. cbn. by rewrite bool_decide_eq_true_2. Qed.

Lemma demo_provider : provider_sound env.
Proof.
  intros t c k p. cbn [decrypt encrypt frost env frost_env]. intros E. split; [by intros ->|].
  intros t' p' [= <-]. unfold demo_decrypt in E. rewrite strip_prefix_app in E. congruence.
Qed.

Lemma demo_fresh : fresh_commits env.
Proof. intros t s c t' s' c' n. cbn. intros [= <- _] [= E _]. lia. Qed.

Lemma signature_is_authorised_witness :
  last (sent (at_end signed)) = Some (9, SignResponse (Ok "signed hello")) ∧
  ∃ a e msg l peer sig leaves ts k, cleared env signed 9 (SignRequest a e msg l peer sig leaves ts) ∧
    signed !! k = Some (ProfileKnown 9).
Proof.
  split; [vm_compute; reflexivity|].
  destruct (signature_is_authorised env signed 9 "signed hello") as (a & e & msg & l & peer & sig & leaves & ts & k & H1 & _ & H2 & _).
  - apply last_Some_elem_of. vm_compute. reflexivity.
  - exists a, e, msg, l, peer, sig, leaves, ts, k. split; [exact H1|exact H2].
Defined.

Lemma nonce_signs_once_witness :
  length (calls (handler (at_end signed))) = 1 ∧ NoDup (map c_nonce (calls (handler (at_end signed)))).
Proof. split; [vm_compute; reflexivity|]. apply (nonce_signs_once env signed). exact demo_fresh. Defined.

Lemma shares_are_dealt_witness :
  getShare (memory (handler (at_end signed))) agent (epoch "1") = Some held ∧ origin env (key_of agent (epoch "1")) held.
Proof.
  split; [vm_compute; reflexivity|].
  destruct (shares_are_dealt env signed demo_provider) as [H _]. apply H. vm_compute. reflexivity.
Defined.

Lemma completed_share_is_durable_witness :
  (3, DkgResponse3 (Ok "group")) ∈ sent (at_end signed) ∧
  ∃ t a e share c, (t, QInsert a e c) ∈ landed (handler (at_end signed)) ∧ "group"%string = group_key (pub share).
Proof.
  assert ((3, DkgResponse3 (Ok "group")) ∈ sent (at_end signed)) as H.
  { apply (list_elem_of_lookup_2 _ 2). vm_compute. reflexivity. }
  split; [exact H|].
  destruct (completed_share_is_durable env signed 3 "group" (or_introl H)) as [(t & a & e & share & c & H1 & _ & H2) _].
  exists t, a, e, share, c. split; [exact H1|exact H2].
Defined.

Lemma capability_admits_one_agent_witness :
  (0, DkgResponse1 (Ok (mkBroadcast "id of n1" ["c0"; "c1"] "proof"))) ∈ sent (at_end signed) ∧
  ∃ a e s cap, first_round signed 0 a e s ∧ verified env cap.
Proof.
  assert ((0, DkgResponse1 (Ok (mkBroadcast "id of n1" ["c0"; "c1"] "proof"))) ∈ sent (at_end signed)) as H.
  { apply (list_elem_of_lookup_2 _ 0). vm_compute. reflexivity. }
  split; [exact H|].
  destruct (capability_admits_one_agent env signed) as [owner Ho].
  - split; [by eexists|reflexivity].
  - destruct (Ho _ _ H) as (a & e & s & cap & H1 & H2 & _). exists a, e, s, cap. split; [exact H1|exact H2].
Defined.

(** After the refresh the first epoch is refused, before and after a restart. *)
Lemma refresh_expires_old_epochs_witness :
  let n' := run_input env (at_end refreshed) (Answered 6 true) in
  last (sent n') = Some (6, RefreshResponse2 (Ok "group")) ∧
  generateCommitment env agent (epoch "1") (handler n') = (handler n', Ok (Err EPOCH_EXPIRED)) ∧
  let h' := (restart env (handler n')).1 in
  generateCommitment env agent (epoch "1") h' = (h', Ok (Err EPOCH_EXPIRED)).
Proof.
  split; [vm_compute; reflexivity|].
  destruct (refresh_expires_old_epochs env (at_end refreshed) 6 3 agent (epoch "2") held 2) as [_ H].
  - vm_compute. reflexivity.
  - vm_compute. reflexivity.
  - apply (bool_decide_unpack _). vm_compute. exact I.
  - vm_compute. reflexivity.
  - destruct (H [] (epoch "1") 1%Z I) as [H1 H2]; [vm_compute; reflexivity|reflexivity|]. split; [exact H1|].
    apply (H2 (mkRow (pad +:+ "the text") "v1")); [vm_compute; reflexivity|].
    intros t. exists "the text"%string, held. split; [reflexivity|vm_compute; reflexivity].
Defined.

(** A restarted node whose write of the refreshed share fails. *)
Definition restarted : Handler := (restart env (handler (at_end (dealt "1")))).1.

Lemma failed_refresh_expires_old_epoch_witness :
  let h2 := (answered 6 false (refreshRound2 env 6 agent (epoch "1") (epoch "2") two [] [] restarted).1).1 in
  isExpiredEpoch restarted agent (epoch "1") = false ∧
  generateCommitment env agent (epoch "1") h2 = (h2, Ok (Err EPOCH_EXPIRED)).
Proof.
  split; [vm_compute; reflexivity|].
  apply (failed_refresh_expires_old_epoch env restarted 6 agent (epoch "1") (epoch "2") two [] [] held held 1 2).
  all: vm_compute; reflexivity.
Defined.

(** The agent is served under another name, whatever its own suspension and epoch. *)
Lemma split_name_is_served_witness :
  let n := at_end (refreshed ++ [Answered 6 true]) in
  isExpiredEpoch (handler n) agent (epoch "1") = true ∧
  ∃ c, sent (run env n (served (commit_asked (split_agent pk) (split_epoch "1")) 11)) =
       sent n ++ [(11, CommitResponse (Ok (nodeId env, c)))].
Proof.
  split; [vm_compute; reflexivity|].
  destruct (split_name_is_served env (at_end (refreshed ++ [Answered 6 true])) pk "1" held
              (sig_of pk (auth_digest env pk (split_epoch "1") FROST_AUTH_COMMIT_TAIL)) "") as [_ (nn & c & H & _)].
  - vm_compute. reflexivity.
  - reflexivity.
  - reflexivity.
  - vm_compute. reflexivity.
  - intros t. eexists. reflexivity.
  - apply bool_decide_eq_true_2. reflexivity.
  - exists c. exact H.
Defined.

Lemma burned_shares_are_gone_witness :
  let h := handler (at_end (dealt "1")) in
  is_Some (getShare (memory h) agent (epoch "1")) ∧
  getShare (memory (restart env (lands (tick h) (destroyShares 9 agent h).1)).1) agent (epoch "1") = None.
Proof.
  split; [vm_compute; by eexists|].
  destruct (burned_shares_are_gone env (handler (at_end (dealt "1"))) 9 agent) as (_ & _ & H & _).
  - reflexivity.
  - vm_compute. reflexivity.
  - assert (Forall (λ x, has_char ":" x.1.1 = false) (table (handler (at_end (dealt "1"))))) as Ht by
      (vm_compute; repeat constructor).
    intros b e row Hin. rewrite list.Forall_forall in Ht. apply (Ht _ Hin).
  - apply H.
Defined.

Lemma dkg_frames_roundtrip_witness :
  decodeFrostDkgRequest (encodeFrostDkgRequest (Round2Request agent (epoch "1") [peer_broadcast])) =
    Some (Round2Request agent (epoch "1") [peer_broadcast]) ∧
  decodeFrostDkgResponse (encodeFrostDkgResponse (Round1Response (Ok peer_broadcast))) = Some (Round1Response (Ok peer_broadcast)).
Proof. apply dkg_frames_roundtrip; [split; [done|split; [done|repeat constructor; done]]|done]. Defined.

End FrostDemo.
