(* ===== verification/ContentStore.v ===== *)
(** The store of parked content, in the in-memory implementation
    (packages/interfaces/src/stubs/in-memory-content-store.ts, with the constants
    and the entry type of packages/interfaces/src/content-store.ts).

    [Date.now()] is an argument.  Log lines are not modelled.  Byte lengths and
    times are unbounded integers, below 2^53 in the code. *)
From S2P Require Import Prelude JsMap.
Import JsMap.

Module ContentStore.

(** * Data *)

Definition CONTENT_STORE_TTL_MS : Z := 30 * 24 * 60 * 60 * 1000.
Definition CONTENT_STORE_MAX_BYTES : Z := 256 * 1024 * 1024.
Definition CONTENT_STORE_MAX_ENTRIES : Z := 10000.
Definition CONTENT_STORE_MAX_RECIPIENT_BYTES : Z := 16 * 1024 * 1024.
Definition CONTENT_STORE_MAX_RECIPIENT_ENTRIES : Z := CONTENT_STORE_MAX_ENTRIES / 16.

Record ContentStoreEntry : Type := mkEntry {
  recipientPubkey : bytes;
  contentHash : bytes;
  sessionId : bytes;
  ciphertext : bytes;
  depositedAt : Z;
}.

Record Options : Type := mkOptions {
  ttlMs : Z;
  maxBytes : Z;
  maxEntries : Z;
  maxRecipientBytes : Z;
  maxRecipientEntries : Z;
}.

Definition default_options : Options :=
  mkOptions CONTENT_STORE_TTL_MS CONTENT_STORE_MAX_BYTES CONTENT_STORE_MAX_ENTRIES
    CONTENT_STORE_MAX_RECIPIENT_BYTES CONTENT_STORE_MAX_RECIPIENT_ENTRIES.

Abbreviation bucket := (jsmap string ContentStoreEntry).

Record Store : Type := mkStore {
  byRecipient : jsmap string bucket;
  totalBytes : Z;
  totalEntries : Z;
}.

Definition empty_store : Store := mkStore [] 0 0.

Definition ct_len (e : ContentStoreEntry) : Z := Z.of_nat (String.length (ciphertext e)).

(** The store after a recipient's bucket was changed to [b]:
    [if (bucket.size === 0) this.#byRecipient.delete(rKey)]. *)
Definition set_bucket (outer : jsmap string bucket) (rKey : string) (b : bucket) : jsmap string bucket :=
  match b with [] => jdel outer rKey | _ => jset outer rKey b end.

Section Options.
Variable opts : Options.

Definition isExpired (e : ContentStoreEntry) (now : Z) : bool := (ttlMs opts <=? now - depositedAt e)%Z.

(** * Deposit *)

(** The variables of the eviction loop. *)
Record evict_state : Type := mkEvict {
  ev_bucket : bucket;
  ev_totalBytes : Z;
  ev_totalEntries : Z;
  ev_bucketBytes : Z;
}.

Definition pressure (incoming : Z) (v : evict_state) : bool :=
  ((maxEntries opts <? ev_totalEntries v + 1) ||
   (maxBytes opts <? ev_totalBytes v + incoming) ||
   (maxRecipientBytes opts <? ev_bucketBytes v + incoming) ||
   (maxRecipientEntries opts <? Z.of_nat (length (ev_bucket v)) + 1))%Z.

(** [while (bucket.size > 0 && pressure)] drop the oldest entry. *)
Fixpoint evict_loop (incoming : Z) (b : bucket) (tb te bb : Z) : evict_state :=
  let v := mkEvict b tb te bb in
  match b with
  | [] => v
  | (_, oldest) :: rest =>
      if pressure incoming v
      then evict_loop incoming rest (tb - ct_len oldest) (te - 1) (bb - ct_len oldest)
      else v
  end.

Definition refused (incoming : Z) (tb te bb bsize : Z) : bool :=
  ((maxBytes opts - (tb - bb) <? incoming) ||
   (maxRecipientBytes opts <? incoming) ||
   (maxEntries opts - (te - bsize) <? 1) ||
   (maxRecipientEntries opts <? 1))%Z.

(** An error is what the promise rejects with; the state may have changed before. *)
Definition deposit (now : Z) (st : Store) (entry : ContentStoreEntry) : Store * option string :=
  let rKey := hex (recipientPubkey entry) in
  let cKey := hex (contentHash entry) in
  let b0 := default [] (jget (byRecipient st) rKey) in
  let live := match jget b0 cKey with Some e => negb (isExpired e now) | None => false end in
  if live then (st, None)
  else
    let gone := jget b0 cKey in
    let tb := (totalBytes st - from_option ct_len 0 gone)%Z in
    let te := (totalEntries st - from_option (λ _, 1) 0 gone)%Z in
    let b := jdel b0 cKey in
    let incoming := ct_len entry in
    let bb := jsum ct_len b in
    if refused incoming tb te bb (Z.of_nat (length b)) then
      (mkStore (set_bucket (byRecipient st) rKey b) tb te,
       Some (if ((maxRecipientBytes opts <? incoming) || (maxRecipientEntries opts <? 1))%Z
             then "content_store_recipient_full" else "content_store_full"))
    else
      let v := evict_loop incoming b tb te bb in
      (mkStore (jset (byRecipient st) rKey (jset (ev_bucket v) cKey entry))
         (ev_totalBytes v + incoming) (ev_totalEntries v + 1), None).

(** * Expiry *)

(** [#deleteExpiredFromBucket] on a bucket that is in the store. *)
Definition deleteExpiredFromBucket (st : Store) (rKey : string) (b : bucket) (now : Z) : Store :=
  let keep := List.filter (λ e, negb (isExpired e.2 now)) b in
  let dead := List.filter (λ e, isExpired e.2 now) b in
  mkStore (set_bucket (byRecipient st) rKey keep)
    (totalBytes st - jsum ct_len dead) (totalEntries st - Z.of_nat (length dead)).

(** * Reads *)

Definition with_fresh {A} (now : Z) (st : Store) (rKey : string) (read : bucket → A) : Store * A :=
  match jget (byRecipient st) rKey with
  | None => (st, read [])
  | Some b =>
      let st' := deleteExpiredFromBucket st rKey b now in
      (st', read (default [] (jget (byRecipient st') rKey)))
  end.

Definition hasContent (now : Z) (st : Store) (rKey : string) : Store * bool :=
  with_fresh now st rKey (λ b, negb (length b =? 0)).

Definition listContentHashesFor (now : Z) (st : Store) (rKey : string) : Store * list string :=
  with_fresh now st rKey jkeys.

Definition pull (now : Z) (st : Store) (rKey : string) : Store * list ContentStoreEntry :=
  with_fresh now st rKey jvals.

(** Remove one entry, and its bucket when it was the last. *)
Definition remove_entry (st : Store) (rKey cKey : string) (b : bucket) (e : ContentStoreEntry) : Store :=
  let b' := jdel b cKey in
  mkStore (set_bucket (byRecipient st) rKey b')
    (totalBytes st - ct_len e) (totalEntries st - 1).

Definition pullOne (now : Z) (st : Store) (rKey cKey : string) : Store * option ContentStoreEntry :=
  match jget (byRecipient st) rKey with
  | None => (st, None)
  | Some b =>
      match jget b cKey with
      | None => (st, None)
      | Some e => if isExpired e now then (remove_entry st rKey cKey b e, None) else (st, Some e)
      end
  end.

Definition confirmPickup (st : Store) (rKey cKey : string) : Store :=
  match jget (byRecipient st) rKey with
  | None => st
  | Some b => match jget b cKey with None => st | Some e => remove_entry st rKey cKey b e end
  end.

(** The sweep visits the buckets of a snapshot of the store. *)
Definition sweep_one (now : Z) (acc : Store * Z) (e : string * bucket) : Store * Z :=
  let '(st, deleted) := acc in
  let st' := deleteExpiredFromBucket st e.1 e.2 now in
  (st', deleted + Z.of_nat (length e.2)
        - Z.of_nat (length (default [] (jget (byRecipient st') e.1))))%Z.

Definition sweepExpired (now : Z) (st : Store) : Store * Z :=
  foldl (sweep_one now) (st, 0%Z) (byRecipient st).

End Options.
End ContentStore.
