(* ===== verification/ContentStoreTheorems.v ===== *)
(** Properties of the content store: the counters and the caps are invariants of
    every operation, a deposit never overwrites a live entry, refuses before it
    evicts and touches no other recipient, and expired content is never served. *)
From S2P Require Import Prelude JsMap ContentStore.
Import JsMap ContentStore.

Module ContentStoreTheorems.

(** * Buckets and lookups *)

Definition bucket_of (st : Store) (rKey : string) : bucket := default [] (jget (byRecipient st) rKey).
Definition lookup (st : Store) (rKey cKey : string) : option ContentStoreEntry :=
  jget (bucket_of st rKey) cKey.

Definition blen (b : bucket) : Z := Z.of_nat (length b).

Lemma jget_set_bucket outer r b r' :
  jwf outer →
  default [] (jget (set_bucket outer r b) r') = if decide (r = r') then b else default [] (jget outer r').
Proof.
  intros Hw. unfold set_bucket. destruct b as [|x b].
  - rewrite jget_jdel by done. by case_decide.
  - rewrite jget_jset. by case_decide.
Qed.

Lemma jwf_set_bucket outer r b : jwf outer → jwf (set_bucket outer r b).
Proof. intros. unfold set_bucket. destruct b; [by apply jwf_jdel|by apply jwf_jset]. Qed.

Lemma jsum_set_bucket (g : bucket → Z) outer r b :
  g [] = 0%Z →
  jsum g (set_bucket outer r b) = (jsum g outer + g b - g (default [] (jget outer r)))%Z.
Proof.
  intros Hg. unfold set_bucket. destruct b as [|x b].
  - rewrite jsum_jdel. destruct (jget outer r); cbn; lia.
  - rewrite jsum_jset. destruct (jget outer r); cbn; lia.
Qed.

Lemma set_bucket_cons outer r x b : set_bucket outer r (x :: b) = jset outer r (x :: b).
Proof. reflexivity. Qed.

(** * The invariant *)

Section Options.
Variable opts : Options.

(** Keys are unique, no bucket is empty, the counters count. *)
Record consistent (st : Store) : Prop := mkConsistent {
  cs_outer : jwf (byRecipient st);
  cs_buckets : ∀ r b, jget (byRecipient st) r = Some b → jwf b ∧ b ≠ [];
  cs_bytes : totalBytes st = jsum (jsum ct_len) (byRecipient st);
  cs_entries : totalEntries st = jsum blen (byRecipient st);
}.

(** The four caps. *)
Record capped (st : Store) : Prop := mkCapped {
  cp_bytes : (totalBytes st <= maxBytes opts)%Z;
  cp_entries : (totalEntries st <= maxEntries opts)%Z;
  cp_rbytes : ∀ r, (jsum ct_len (bucket_of st r) <= maxRecipientBytes opts)%Z;
  cp_rentries : ∀ r, (blen (bucket_of st r) <= maxRecipientEntries opts)%Z;
}.

Lemma ct_len_nonneg e : (0 <= ct_len e)%Z.
Proof. unfold ct_len. lia. Qed.

Lemma jsum_nonneg (b : bucket) : (0 <= jsum ct_len b)%Z.
Proof. apply sum_by_nonneg. intros. apply ct_len_nonneg. Qed.

Lemma bucket_wf st r : consistent st → jwf (bucket_of st r).
Proof.
  intros C. unfold bucket_of. destruct (jget _ r) as [b|] eqn:E; [|cbn; constructor].
  cbn. by apply (cs_buckets _ C) in E as [? _].
Qed.

(** Every operation replaces one bucket and moves the counters with it. *)
Lemma replace_bucket st r b tb te :
  consistent st → jwf b →
  tb = (totalBytes st + jsum ct_len b - jsum ct_len (bucket_of st r))%Z →
  te = (totalEntries st + blen b - blen (bucket_of st r))%Z →
  consistent (mkStore (set_bucket (byRecipient st) r b) tb te) ∧
  ∀ r', bucket_of (mkStore (set_bucket (byRecipient st) r b) tb te) r' =
        if decide (r = r') then b else bucket_of st r'.
Proof.
  intros [Hw Hb Hby Hen] Hwb -> ->.
  assert (∀ r', bucket_of (mkStore (set_bucket (byRecipient st) r b)
      (totalBytes st + jsum ct_len b - jsum ct_len (bucket_of st r))
      (totalEntries st + blen b - blen (bucket_of st r))) r' =
      if decide (r = r') then b else bucket_of st r') as HB.
  { intros r'. unfold bucket_of. cbn. by apply jget_set_bucket. }
  split; [|exact HB]. split; cbn [byRecipient totalBytes totalEntries].
  - by apply jwf_set_bucket.
  - intros r' b' E. specialize (HB r'). unfold bucket_of in HB. cbn in HB. rewrite E in HB. cbn in HB.
    destruct (decide (r = r')) as [<-|Hne].
    + subst b'. split; [done|]. intros ->. unfold set_bucket in E. rewrite jget_jdel, decide_True in E; done.
    + apply (Hb r'). unfold set_bucket in E.
      destruct b; [rewrite jget_jdel, decide_False in E by done|rewrite jget_jset, decide_False in E by done]; done.
  - rewrite jsum_set_bucket by done. unfold bucket_of. lia.
  - rewrite jsum_set_bucket by done. unfold bucket_of. lia.
Qed.

(** A smaller bucket keeps the caps. *)
Lemma capped_shrink st st' :
  capped st →
  (totalBytes st' <= totalBytes st)%Z → (totalEntries st' <= totalEntries st)%Z →
  (∀ r, (jsum ct_len (bucket_of st' r) <= jsum ct_len (bucket_of st r))%Z) →
  (∀ r, (blen (bucket_of st' r) <= blen (bucket_of st r))%Z) →
  capped st'.
Proof.
  intros [H1 H2 H3 H4] ? ? Hb He. split; [lia|lia| |]; intros r.
  - specialize (Hb r). specialize (H3 r). lia.
  - specialize (He r). specialize (H4 r). lia.
Qed.

Lemma replace_smaller st r b tb te :
  consistent st → capped st → jwf b →
  tb = (totalBytes st + jsum ct_len b - jsum ct_len (bucket_of st r))%Z →
  te = (totalEntries st + blen b - blen (bucket_of st r))%Z →
  (jsum ct_len b <= jsum ct_len (bucket_of st r))%Z → (blen b <= blen (bucket_of st r))%Z →
  consistent (mkStore (set_bucket (byRecipient st) r b) tb te) ∧
  capped (mkStore (set_bucket (byRecipient st) r b) tb te).
Proof.
  intros C K Hw Ht He Hb Hl. destruct (replace_bucket st r b tb te C Hw Ht He) as [C' HB].
  split; [done|]. eapply capped_shrink; [exact K|cbn; lia|cbn; lia| |]; intros r'; rewrite HB;
    case_decide; subst; lia.
Qed.

(** ** Removing entries from a bucket *)

Lemma jsum_jdel_bucket (b : bucket) c e :
  jget b c = Some e → jsum ct_len (jdel b c) = (jsum ct_len b - ct_len e)%Z ∧ blen (jdel b c) = (blen b - 1)%Z.
Proof.
  intros E. split; [by rewrite jsum_jdel, E|]. unfold blen.
  assert (∀ b : bucket, Z.of_nat (length b) = jsum (λ _, 1%Z) b) as HL.
  { clear. unfold jsum. induction b as [|x b IH]; [done|]. cbn in *. lia. }
  rewrite !HL, jsum_jdel, E. done.
Qed.

Lemma jsum_filter (P : string * ContentStoreEntry → bool) (b : bucket) :
  (jsum ct_len (List.filter P b) + jsum ct_len (List.filter (λ e, negb (P e)) b) = jsum ct_len b)%Z ∧
  (blen (List.filter P b) + blen (List.filter (λ e, negb (P e)) b) = blen b)%Z.
Proof.
  unfold jsum, blen. induction b as [|x b [IH1 IH2]]; [done|]. cbn [List.filter].
  destruct (P x); cbn [negb sum_by length] in *; lia.
Qed.

(** ** Expiry and removal *)

Abbreviation live now := (λ x : string * ContentStoreEntry, negb (isExpired opts x.2 now)).

Lemma delete_expired_spec st r now (b := bucket_of st r) :
  consistent st → capped st →
  let st' := deleteExpiredFromBucket opts st r b now in
  consistent st' ∧ capped st' ∧
  ∀ r', bucket_of st' r' = if decide (r = r') then List.filter (live now) b else bucket_of st r'.
Proof.
  intros C K. unfold deleteExpiredFromBucket.
  pose proof (jsum_filter (λ x, isExpired opts x.2 now) b) as [J1 J2].
  pose proof (jsum_nonneg (List.filter (λ x, isExpired opts x.2 now) b)) as J3.
  fold (blen (List.filter (λ e, isExpired opts e.2 now) b)).
  assert (jwf (List.filter (live now) b)) as Hw by (by apply jwf_filter, bucket_wf).
  assert (0 <= blen (List.filter (λ x, isExpired opts x.2 now) b))%Z by (unfold blen; lia).
  set (tb := (totalBytes st - _)%Z). set (te := (totalEntries st - _)%Z).
  destruct (replace_smaller st r (List.filter (live now) b) tb te) as [C' K']; try done;
    try (subst tb te; fold b; lia).
  destruct (replace_bucket st r (List.filter (live now) b) tb te) as [_ HB]; try done;
    try (subst tb te; fold b; lia).
Qed.

Lemma remove_entry_spec st r c e :
  consistent st → capped st → jget (bucket_of st r) c = Some e →
  let st' := remove_entry st r c (bucket_of st r) e in
  consistent st' ∧ capped st' ∧
  ∀ r', bucket_of st' r' = if decide (r = r') then jdel (bucket_of st r) c else bucket_of st r'.
Proof.
  intros C K E. unfold remove_entry. destruct (jsum_jdel_bucket _ _ _ E) as [J1 J2].
  pose proof (ct_len_nonneg e). assert (jwf (jdel (bucket_of st r) c)) by (by apply jwf_jdel, bucket_wf).
  destruct (replace_smaller st r (jdel (bucket_of st r) c) (totalBytes st - ct_len e) (totalEntries st - 1))
    as [C' K']; try done; try lia.
  destruct (replace_bucket st r (jdel (bucket_of st r) c) (totalBytes st - ct_len e) (totalEntries st - 1))
    as [_ HB]; try done; lia.
Qed.

(** ** The eviction loop *)

(** What is left of a bucket after its [k] oldest entries are gone. *)
Definition evicted (k : nat) (b : bucket) (tb te bb : Z) : evict_state :=
  mkEvict (drop k b) (tb - jsum ct_len (take k b)) (te - Z.of_nat k) (bb - jsum ct_len (take k b)).

Lemma evict_loop_spec incoming b tb te bb :
  ∃ k, k <= length b ∧ evict_loop opts incoming b tb te bb = evicted k b tb te bb ∧
    (drop k b = [] ∨ pressure opts incoming (evicted k b tb te bb) = false) ∧
    ∀ j, j < k → pressure opts incoming (evicted j b tb te bb) = true.
Proof.
  revert tb te bb. induction b as [|[c e] b IH]; intros tb te bb; cbn [evict_loop].
  { exists 0. split; [done|]. split; [unfold evicted, jsum; cbn; f_equal; lia|]. split; [by left|lia]. }
  assert (evicted 0 ((c, e) :: b) tb te bb = mkEvict ((c, e) :: b) tb te bb) as E0.
  { unfold evicted, jsum. cbn. f_equal; lia. }
  rewrite <- E0. destruct (pressure opts incoming _) eqn:Ep.
  - destruct (IH (tb - ct_len e)%Z (te - 1)%Z (bb - ct_len e)%Z) as (k & Hk & El & Hs & Hall).
    assert (∀ j, evicted j b (tb - ct_len e) (te - 1) (bb - ct_len e) =
                 evicted (S j) ((c, e) :: b) tb te bb) as ES.
    { intros j. unfold evicted, jsum. cbn. f_equal; lia. }
    rewrite ES in *. exists (S k). split; [cbn; lia|]. split; [done|]. split; [done|].
    intros [|j] Hj; [done|]. rewrite <- ES. apply Hall. lia.
  - exists 0. split; [cbn; lia|]. split; [done|]. split; [by right|lia].
Qed.

Lemma jsum_take_drop (b : bucket) k :
  (jsum ct_len (take k b) + jsum ct_len (drop k b) = jsum ct_len b)%Z.
Proof. rewrite <- (take_drop k b) at 3. unfold jsum. by rewrite sum_by_app. Qed.

(** ** Deposit *)

(** The bucket a deposit works on: without the expired entry of the same key. *)
Definition cleared (st : Store) (entry : ContentStoreEntry) : bucket :=
  jdel (bucket_of st (hex (recipientPubkey entry))) (hex (contentHash entry)).

Definition has_live (st : Store) (now : Z) (entry : ContentStoreEntry) : bool :=
  match lookup st (hex (recipientPubkey entry)) (hex (contentHash entry)) with
  | Some e => negb (isExpired opts e now)
  | None => false
  end.

Lemma cleared_sums st entry (gone := lookup st (hex (recipientPubkey entry)) (hex (contentHash entry))) :
  jsum ct_len (cleared st entry) =
    (jsum ct_len (bucket_of st (hex (recipientPubkey entry))) - from_option ct_len 0%Z gone)%Z ∧
  blen (cleared st entry) =
    (blen (bucket_of st (hex (recipientPubkey entry))) - from_option (λ _, 1%Z) 0%Z gone)%Z.
Proof.
  unfold cleared, gone, lookup. destruct (jget _ _) as [e|] eqn:E; cbn.
  - by apply jsum_jdel_bucket.
  - rewrite jdel_absent by (by apply jget_None). lia.
Qed.

(** The bytes and entries parked for everybody else. *)
Definition other_bytes (st : Store) (r : string) : Z := (totalBytes st - jsum ct_len (bucket_of st r))%Z.
Definition other_entries (st : Store) (r : string) : Z := (totalEntries st - blen (bucket_of st r))%Z.

(** The deposit could not fit even in an empty mailbox. *)
Definition cannot_fit (st : Store) (entry : ContentStoreEntry) : Prop :=
  let r := hex (recipientPubkey entry) in
  (maxRecipientBytes opts < ct_len entry)%Z ∨ (maxRecipientEntries opts < 1)%Z ∨
  (maxBytes opts < other_bytes st r + ct_len entry)%Z ∨ (maxEntries opts < other_entries st r + 1)%Z.

Lemma refused_spec st entry (r := hex (recipientPubkey entry))
    (gone := lookup st r (hex (contentHash entry))) :
  refused opts (ct_len entry) (totalBytes st - from_option ct_len 0%Z gone)
    (totalEntries st - from_option (λ _, 1%Z) 0%Z gone)
    (jsum ct_len (cleared st entry)) (blen (cleared st entry)) = true ↔ cannot_fit st entry.
Proof.
  destruct (cleared_sums st entry) as [J1 J2]. fold r in J1, J2. fold gone in J1, J2.
  unfold refused, cannot_fit, other_bytes, other_entries. fold r. rewrite J1, J2.
  rewrite !orb_true_iff, !Z.ltb_lt. lia.
Qed.

(** The outcome of a deposit, case by case. *)
Lemma deposit_cases st now entry
    (r := hex (recipientPubkey entry)) (c := hex (contentHash entry))
    (gone := lookup st r c) (b := cleared st entry)
    (tb := (totalBytes st - from_option ct_len 0%Z gone)%Z)
    (te := (totalEntries st - from_option (λ _, 1%Z) 0%Z gone)%Z) :
  deposit opts now st entry =
  if has_live st now entry then (st, None)
  else if refused opts (ct_len entry) tb te (jsum ct_len b) (blen b)
  then (mkStore (set_bucket (byRecipient st) r b) tb te,
        Some (if ((maxRecipientBytes opts <? ct_len entry) || (maxRecipientEntries opts <? 1))%Z
              then "content_store_recipient_full" else "content_store_full"))
  else let v := evict_loop opts (ct_len entry) b tb te (jsum ct_len b) in
       (mkStore (jset (byRecipient st) r (jset (ev_bucket v) c entry))
          (ev_totalBytes v + ct_len entry) (ev_totalEntries v + 1), None).
Proof. reflexivity. Qed.

(** What a refused deposit, and the first half of any other, does. *)
Lemma cleared_store st entry (r := hex (recipientPubkey entry))
    (gone := lookup st r (hex (contentHash entry))) (b := cleared st entry)
    (tb := (totalBytes st - from_option ct_len 0%Z gone)%Z)
    (te := (totalEntries st - from_option (λ _, 1%Z) 0%Z gone)%Z) :
  consistent st → capped st →
  consistent (mkStore (set_bucket (byRecipient st) r b) tb te) ∧
  capped (mkStore (set_bucket (byRecipient st) r b) tb te) ∧
  ∀ r', bucket_of (mkStore (set_bucket (byRecipient st) r b) tb te) r' =
        if decide (r = r') then b else bucket_of st r'.
Proof.
  intros C K. destruct (cleared_sums st entry) as [J1 J2]. fold r b in J1, J2. fold gone in J1, J2.
  assert (jwf b) by (by apply jwf_jdel, bucket_wf).
  assert (0 <= from_option ct_len 0%Z gone)%Z by (destruct gone; cbn; [apply ct_len_nonneg|lia]).
  assert (0 <= from_option (λ _, 1%Z) 0%Z gone)%Z by (destruct gone; cbn; lia).
  destruct (replace_smaller st r b tb te) as [C' K']; try done; try (subst tb te; lia).
  destruct (replace_bucket st r b tb te) as [_ HB]; try done; subst tb te; lia.
Qed.

Lemma jget_app_fresh (b : bucket) c e : c ∉ jkeys b → jget (b ++ [(c, e)]) c = Some e.
Proof. intros Hc. rewrite <- jset_fresh by done. apply jget_jset_eq. Qed.

Lemma jset_nonempty (b : bucket) c e : ∃ x y, jset b c e = x :: y.
Proof. destruct b as [|[q w] b]; cbn; [eauto|]. case_decide; eauto. Qed.

(** An accepted deposit drops the [k] oldest entries and appends the new one. *)
Lemma deposit_accepted st entry (r := hex (recipientPubkey entry)) (c := hex (contentHash entry))
    (gone := lookup st r c) (b := cleared st entry)
    (tb := (totalBytes st - from_option ct_len 0%Z gone)%Z)
    (te := (totalEntries st - from_option (λ _, 1%Z) 0%Z gone)%Z)
    (v := evict_loop opts (ct_len entry) b tb te (jsum ct_len b))
    (st' := mkStore (jset (byRecipient st) r (jset (ev_bucket v) c entry))
              (ev_totalBytes v + ct_len entry) (ev_totalEntries v + 1)) :
  consistent st → capped st → ¬ cannot_fit st entry →
  consistent st' ∧ capped st' ∧
  ∃ k, (∀ j, j < k → pressure opts (ct_len entry) (evicted j b tb te (jsum ct_len b)) = true) ∧
    (c ∉ jkeys (drop k b)) ∧
    ∀ r', bucket_of st' r' = if decide (r = r') then drop k b ++ [(c, entry)] else bucket_of st r'.
Proof.
  intros C K Hfit. subst st' v.
  destruct (evict_loop_spec (ct_len entry) b tb te (jsum ct_len b)) as (k & Hk & -> & Hs & Hall).
  destruct (cleared_sums st entry) as [J1 J2]. fold r b in J1, J2. fold c in J1, J2. fold gone in J1, J2.
  assert (jwf b) as Hwb by (by apply jwf_jdel, bucket_wf).
  assert (c ∉ jkeys b) as Hc.
  { apply jget_None. unfold b, cleared. fold r c. rewrite jget_jdel by (by apply bucket_wf).
    by rewrite decide_True. }
  assert (c ∉ jkeys (drop k b)) as Hcd.
  { intros Hin. apply Hc. unfold jkeys in *. rewrite <- (take_drop k b), map_app, elem_of_app. by right. }
  assert (jwf (drop k b)) as Hwd.
  { unfold jwf, jkeys in *. rewrite <- (take_drop k b), map_app in Hwb. by apply list.NoDup_app in Hwb as (_ & _ & ?). }
  cbn [evicted ev_bucket ev_totalBytes ev_totalEntries].
  destruct (jset_nonempty (drop k b) c entry) as (x & y & Exy). rewrite Exy, <- set_bucket_cons, <- Exy.
  rewrite (jset_fresh (drop k b) c entry Hcd).
  assert (jsum ct_len (drop k b ++ [(c, entry)]) = (jsum ct_len b - jsum ct_len (take k b) + ct_len entry)%Z) as JB.
  { pose proof (jsum_take_drop b k). unfold jsum in *. rewrite sum_by_app. cbn. lia. }
  assert (blen (drop k b ++ [(c, entry)]) = (blen b - Z.of_nat k + 1)%Z) as JL.
  { unfold blen. rewrite length_app, length_drop. cbn. lia. }
  destruct (replace_bucket st r (drop k b ++ [(c, entry)])
    (tb - jsum ct_len (take k b) + ct_len entry) (te - Z.of_nat k + 1)) as [C' HB]; try done.
  { rewrite <- (jset_fresh (drop k b) c entry Hcd). by apply jwf_jset. }
  { subst tb. lia. } { subst te. lia. }
  split; [exact C'|]. split; [|exists k; split; [exact Hall|split; [exact Hcd|exact HB]]].
  unfold cannot_fit, other_bytes, other_entries in Hfit. fold r in Hfit.
  assert (pressure opts (ct_len entry) (evicted k b tb te (jsum ct_len b)) = false) as Hp.
  { destruct Hs as [Hd|]; [|done].
    assert (jsum ct_len (take k b) = jsum ct_len b) as JT.
    { pose proof (jsum_take_drop b k) as J. rewrite Hd in J. unfold jsum in *. cbn in J. lia. }
    assert (Z.of_nat k = blen b) as JK.
    { unfold blen. apply (f_equal length) in Hd. rewrite length_drop in Hd. cbn in Hd. lia. }
    unfold pressure, evicted. cbn. rewrite Hd, JT, JK. subst tb te. rewrite !orb_false_iff, !Z.ltb_ge.
    cbn [length]. lia. }
  unfold pressure, evicted in Hp. cbn [ev_bucket ev_totalBytes ev_totalEntries ev_bucketBytes] in Hp. bools.
  rewrite length_drop in *. destruct K as [K1 K2 K3 K4].
  split; cbn [totalBytes totalEntries]; [lia|lia| |]; intros r'; rewrite HB; case_decide; try done.
  - rewrite JB. pose proof (jsum_take_drop b k). lia.
  - rewrite JL. unfold blen in *. lia.
Qed.

(** ** Reads *)

Lemma with_fresh_spec {A} st now r (read : bucket → A) (res := with_fresh opts now st r read) :
  consistent st → capped st →
  consistent res.1 ∧ capped res.1 ∧
  res.2 = read (List.filter (live now) (bucket_of st r)) ∧
  ∀ r', bucket_of res.1 r' =
        if decide (r = r') then List.filter (live now) (bucket_of st r) else bucket_of st r'.
Proof.
  intros C K. subst res. unfold with_fresh. destruct (jget (byRecipient st) r) as [b|] eqn:E.
  - assert (bucket_of st r = b) as Eb by (unfold bucket_of; by rewrite E).
    destruct (delete_expired_spec st r now C K) as (C' & K' & HB). rewrite Eb in *. cbn [fst snd].
    split; [done|]. split; [done|]. split; [|done].
    f_equal. specialize (HB r). rewrite decide_True in HB by done. exact HB.
  - assert (bucket_of st r = []) as Eb by (unfold bucket_of; by rewrite E). rewrite Eb.
    cbn. split_and!; try done. intros r'. by case_decide; subst.
Qed.

(** ** The operations as steps *)

Inductive op : Type :=
| Deposit (now : Z) (entry : ContentStoreEntry)
| HasContent (now : Z) (r : string)
| ListHashes (now : Z) (r : string)
| Pull (now : Z) (r : string)
| PullOne (now : Z) (r c : string)
| ConfirmPickup (r c : string)
| SweepExpired (now : Z).

Definition run (st : Store) (o : op) : Store :=
  match o with
  | Deposit now entry => (deposit opts now st entry).1
  | HasContent now r => (hasContent opts now st r).1
  | ListHashes now r => (listContentHashesFor opts now st r).1
  | Pull now r => (pull opts now st r).1
  | PullOne now r c => (pullOne opts now st r c).1
  | ConfirmPickup r c => confirmPickup st r c
  | SweepExpired now => (sweepExpired opts now st).1
  end.

Definition sound (st : Store) : Prop := consistent st ∧ capped st.

Lemma deposit_sound st now entry : sound st → sound (deposit opts now st entry).1.
Proof.
  intros [C K]. rewrite deposit_cases. destruct (has_live _ _ _); [done|].
  destruct (refused _ _ _ _ _ _) eqn:Er; cbn [fst].
  - by destruct (cleared_store st entry C K) as (? & ? & _).
  - assert (¬ cannot_fit st entry) as Hfit by (rewrite <- refused_spec, Er; done).
    by destruct (deposit_accepted st entry C K Hfit) as (? & ? & _).
Qed.

Lemma remove_sound st r c b e :
  sound st → jget (byRecipient st) r = Some b → jget b c = Some e → sound (remove_entry st r c b e).
Proof.
  intros [C K] Eb Ee. assert (bucket_of st r = b) as <- by (unfold bucket_of; by rewrite Eb).
  by destruct (remove_entry_spec st r c e C K Ee) as (? & ? & _).
Qed.

(** The sweep over any list of snapshot buckets that are still in the store. *)
Lemma sweep_fold now l st n :
  consistent st → capped st → jwf l → (∀ r b, (r, b) ∈ l → bucket_of st r = b) →
  let res := foldl (sweep_one opts now) (st, n) l in
  consistent res.1 ∧ capped res.1 ∧
  (∀ r, bucket_of res.1 r = if decide (r ∈ jkeys l) then List.filter (live now) (bucket_of st r)
                            else bucket_of st r) ∧
  (res.2 = n + totalEntries st - totalEntries res.1)%Z.
Proof.
  revert st n. induction l as [|[r b] l IH]; intros st n C K Hw Hl; cbn [foldl].
  { cbn. split_and!; try done. lia. }
  assert (bucket_of st r = b) as Eb by (apply Hl; left).
  destruct (delete_expired_spec st r now C K) as (C' & K' & HB). rewrite Eb in *.
  unfold jwf in Hw. cbn in Hw. apply list.NoDup_cons in Hw as [Hn Hw].
  set (st1 := deleteExpiredFromBucket opts st r b now) in *.
  assert (sweep_one opts now (st, n) (r, b) =
    (st1, n + Z.of_nat (length b) - Z.of_nat (length (bucket_of st1 r)))%Z) as -> by reflexivity.
  destruct (IH st1 (n + Z.of_nat (length b) - Z.of_nat (length (bucket_of st1 r)))%Z C' K' Hw)
    as (C2 & K2 & HB2 & En).
  { intros r' b' Hin. rewrite HB, decide_False; [by apply Hl; right|].
    intros ->. apply Hn. by apply (list_elem_of_fmap_2 fst) in Hin. }
  split; [exact C2|]. split; [exact K2|]. split.
  - intros r'. etransitivity; [apply HB2|]. rewrite HB. cbn [jkeys map fst].
    destruct (decide (r = r')) as [->|Hne].
    + rewrite (decide_True (P := r' ∈ r' :: _)) by left. rewrite decide_False by done. by rewrite Eb.
    + destruct (decide (r' ∈ jkeys l)) as [Hin|Hin].
      * rewrite decide_True by (by right). done.
      * rewrite decide_False; [done|]. rewrite not_elem_of_cons. naive_solver.
  - rewrite En. pose proof (HB r) as HBr. rewrite decide_True in HBr by done.
    pose proof (jsum_filter (λ x, isExpired opts x.2 now) b) as [_ J]. unfold blen in J.
    assert (totalEntries st1 = totalEntries st - Z.of_nat (length (List.filter (λ x, isExpired opts x.2 now) b)))%Z
      as Et by done.
    rewrite HBr, Et. lia.
Qed.

Lemma sweep_spec st now :
  consistent st → capped st →
  let res := sweepExpired opts now st in
  consistent res.1 ∧ capped res.1 ∧
  (∀ r, bucket_of res.1 r = List.filter (live now) (bucket_of st r)) ∧
  (res.2 = totalEntries st - totalEntries res.1)%Z.
Proof.
  intros C K. unfold sweepExpired.
  destruct (sweep_fold now (byRecipient st) st 0 C K (cs_outer _ C)) as (C' & K' & HB & En).
  { intros r b Hin. apply jget_elem_iff in Hin; [|apply C]. unfold bucket_of. by rewrite Hin. }
  split; [done|]. split; [done|]. split; [|lia].
  intros r. rewrite HB. case_decide as E; [done|]. apply jget_None in E. unfold bucket_of. by rewrite E.
Qed.

Lemma run_sound st o : sound st → sound (run st o).
Proof.
  intros [C K]. destruct o as [now entry|now r|now r|now r|now r c|r c|now]; cbn [run].
  - by apply deposit_sound.
  - by destruct (with_fresh_spec st now r (λ b, negb (length b =? 0)) C K) as (? & ? & _).
  - by destruct (with_fresh_spec st now r jkeys C K) as (? & ? & _).
  - by destruct (with_fresh_spec st now r jvals C K) as (? & ? & _).
  - unfold pullOne. destruct (jget (byRecipient st) r) as [b|] eqn:Eb; [|done].
    destruct (jget b c) as [e|] eqn:Ee; [|done]. destruct (isExpired _ _ _); [|done].
    by apply remove_sound.
  - unfold confirmPickup. destruct (jget (byRecipient st) r) as [b|] eqn:Eb; [|done].
    destruct (jget b c) as [e|] eqn:Ee; [|done]. by apply remove_sound.
  - by destruct (sweep_spec st now C K) as (? & ? & _).
Qed.

Lemma runs_sound ops st : sound st → sound (foldl run st ops).
Proof. revert st. induction ops as [|o ops IH]; intros st Hs; [done|]. by apply IH, run_sound. Qed.

Definition caps_nonneg : Prop :=
  (0 <= maxBytes opts ∧ 0 <= maxEntries opts ∧ 0 <= maxRecipientBytes opts ∧ 0 <= maxRecipientEntries opts)%Z.

Lemma empty_sound : caps_nonneg → sound empty_store.
Proof. intros (? & ? & ? & ?). split; split; cbn; try done. constructor. Qed.

(** Counters and caps.  Starting from an empty store (with non-negative caps), after
    any sequence of deposits, reads, pickups and sweeps at any times: keys are
    unique, no recipient keeps an empty mailbox, [totalBytes] and
    [totalEntries] are the sums over the mailboxes, and neither the store nor
    any mailbox exceeds its byte or entry cap. *)
Theorem store_invariant ops :
  caps_nonneg →
  consistent (foldl run empty_store ops) ∧ capped (foldl run empty_store ops).
Proof. intros Hc. by apply runs_sound, empty_sound. Qed.

(** What a deposit does, on every branch, to a store that satisfies the invariant.
    If the mailbox holds unexpired content under the same hash, nothing
    changes and the deposit succeeds: it never overwrites.  Otherwise it is
    refused exactly when it could not fit even if the mailbox were empty, and
    then no other content is touched (only an expired entry under the same
    hash goes); and if it fits, it is stored at the end of the mailbox, after
    dropping the oldest entries one by one only while some cap is exceeded.
    The mailboxes of other recipients never change. *)
Theorem deposit_spec st now entry (r := hex (recipientPubkey entry)) (c := hex (contentHash entry))
    (res := deposit opts now st entry) :
  consistent st → capped st →
  (has_live st now entry = true → res = (st, None)) ∧
  (has_live st now entry = false → cannot_fit st entry →
     is_Some res.2 ∧ ∀ r', bucket_of res.1 r' = if decide (r = r') then cleared st entry else bucket_of st r') ∧
  (has_live st now entry = false → ¬ cannot_fit st entry →
     res.2 = None ∧ lookup res.1 r c = Some entry ∧
     ∃ k, (∀ j, j < k → pressure opts (ct_len entry) (evicted j (cleared st entry)
             (totalBytes st - from_option ct_len 0%Z (lookup st r c))
             (totalEntries st - from_option (λ _, 1%Z) 0%Z (lookup st r c))
             (jsum ct_len (cleared st entry))) = true) ∧
       ∀ r', bucket_of res.1 r' =
             if decide (r = r') then drop k (cleared st entry) ++ [(c, entry)] else bucket_of st r').
Proof.
  intros C K. subst res. rewrite deposit_cases. fold r c. pose proof (refused_spec st entry) as HR. fold r c in HR.
  split; [by intros ->|]. split.
  - intros -> Hno. apply HR in Hno as ->. cbn [fst snd]. split; [done|].
    by destruct (cleared_store st entry C K) as (_ & _ & ?).
  - intros -> Hfit. assert (¬ cannot_fit st entry) as Hfit' by done. rewrite <- HR in Hfit.
    apply not_true_is_false in Hfit as ->. cbn [fst snd]. split; [done|].
    destruct (deposit_accepted st entry C K Hfit') as (_ & _ & k & Hall & Hc & HB). fold r c in HB, Hall, Hc.
    split; [|exists k; split; [exact Hall|exact HB]].
    unfold lookup at 1. rewrite HB, decide_True by done. by apply jget_app_fresh.
Qed.

(** Reads serve exactly the unexpired content of the mailbox, in the order it was
    deposited, and never change unexpired content of anybody; a sweep leaves
    exactly the unexpired content of every mailbox and returns how many
    entries it deleted. *)
Theorem expiry_spec st now r :
  consistent st → capped st →
  ((pull opts now st r).2 = jvals (List.filter (live now) (bucket_of st r)) ∧
   (listContentHashesFor opts now st r).2 = jkeys (List.filter (live now) (bucket_of st r)) ∧
   ((hasContent opts now st r).2 = true ↔ List.filter (live now) (bucket_of st r) ≠ [])) ∧
  (∀ r' c e, lookup (pull opts now st r).1 r' c = Some e ∧ isExpired opts e now = false ↔
             lookup st r' c = Some e ∧ isExpired opts e now = false) ∧
  (∀ r' c e, lookup (sweepExpired opts now st).1 r' c = Some e ↔
             lookup st r' c = Some e ∧ isExpired opts e now = false) ∧
  (sweepExpired opts now st).2 = (totalEntries st - totalEntries (sweepExpired opts now st).1)%Z.
Proof.
  intros C K.
  assert (∀ r' c e, jget (List.filter (live now) (bucket_of st r')) c = Some e ↔
    lookup st r' c = Some e ∧ isExpired opts e now = false) as HF.
  { intros r' c e. rewrite jget_filter by (by apply bucket_wf). unfold lookup.
    destruct (jget (bucket_of st r') c) as [e'|]; cbn; [|naive_solver].
    destruct (isExpired opts e' now) eqn:Ee; cbn.
    - split; [done|]. intros [[= <-] ?]. congruence.
    - split; [by intros [= <-]|]. by intros [[= <-] _]. }
  destruct (with_fresh_spec st now r jvals C K) as (_ & _ & E1 & HB1).
  destruct (with_fresh_spec st now r jkeys C K) as (_ & _ & E2 & _).
  destruct (with_fresh_spec st now r (λ b, negb (length b =? 0)) C K) as (_ & _ & E3 & _).
  destruct (sweep_spec st now C K) as (_ & _ & HS & En).
  split; [|split; [|split; [|exact En]]].
  - split; [exact E1|]. split; [exact E2|]. unfold hasContent. rewrite E3.
    destruct (List.filter _ _); cbn; naive_solver.
  - intros r' c e. unfold lookup at 1, pull. rewrite HB1. destruct (decide (r = r')) as [->|]; [|done].
    rewrite HF. naive_solver.
  - intros r' c e. unfold lookup at 1. by rewrite HS, HF.
Qed.

End Options.

(** * Witnesses *)

(** Room for ten bytes and three entries; two entries of six bytes per mailbox. *)
Definition small : Options := mkOptions 100 10 3 6 2.

Definition item (r c ct : string) (t : Z) : ContentStoreEntry := mkEntry r c "s" ct t.

Definition demo_ops : list op :=
  [Deposit 0 (item "A" "1" "xx" 0); Deposit 1 (item "A" "2" "xx" 1); Deposit 2 (item "B" "1" "xxxx" 2)].

Definition demo_store : Store := foldl (run small) empty_store demo_ops.

Lemma small_caps : caps_nonneg small.
Proof. repeat split; vm_compute; discriminate. Qed.

Lemma demo_sound : consistent demo_store ∧ capped small demo_store.
Proof. apply runs_sound, empty_sound, small_caps. Qed.

Lemma store_invariant_witness :
  (totalBytes demo_store <= 10)%Z ∧ totalEntries demo_store = jsum blen (byRecipient demo_store).
Proof.
  destruct (store_invariant small demo_ops) as [C K].
  - repeat split; vm_compute; discriminate.
  - split; [exact (cp_bytes _ _ K)|exact (cs_entries _ C)].
Defined.

(** A third entry for A rotates the oldest out; B's mailbox stays. *)
Lemma deposit_spec_witness :
  lookup (deposit small 3 demo_store (item "A" "3" "xx" 3)).1 (hex "A") (hex "3") = Some (item "A" "3" "xx" 3) ∧
  bucket_of (deposit small 3 demo_store (item "A" "3" "xx" 3)).1 (hex "B") = bucket_of demo_store (hex "B").
Proof.
  destruct demo_sound as [C K].
  destruct (deposit_spec small demo_store 3 (item "A" "3" "xx" 3) C K) as (_ & _ & Hacc).
  destruct Hacc as (_ & Hl & k & _ & HB).
  - vm_compute. reflexivity.
  - intros [E|[E|[E|E]]]; vm_compute in E; discriminate E.
  - split; [exact Hl|]. rewrite HB. reflexivity.
Defined.

Lemma expiry_spec_witness :
  (pull small 100 demo_store (hex "A")).2 = [item "A" "2" "xx" 1] ∧
  (sweepExpired small 101 demo_store).2 = 2%Z.
Proof.
  destruct demo_sound as [C K].
  destruct (expiry_spec small demo_store 100 (hex "A") C K) as ((E & _) & _).
  destruct (expiry_spec small demo_store 101 (hex "A") C K) as (_ & _ & _ & En).
  split; [rewrite E|rewrite En]; reflexivity.
Defined.

End ContentStoreTheorems.
