(* ===== verification/Json.v ===== *)
(** [JSON.stringify] of flat objects, as far as the hashed serializations use it:
    quoted strings with their escapes, object and array texts, and the fact that
    a text determines what it was made from. *)
From Stdlib Require Import Ascii.
From S2P Require Import Prelude Text.
Import Text.

Module Json.

(** * Strings *)

Definition quote_char : ascii := "034".
Definition backslash : ascii := "092".

Definition hex_low (n : N) : string := String (hex_digit (n / 16)) (String (hex_digit (n mod 16)) EmptyString).

(** The escapes of the JSON grammar; other characters, bytes of UTF-8 included, stand
    for themselves. *)
Definition escape_char (c : ascii) : string :=
  let n := N_of_ascii c in
  if (n =? 34)%N then String backslash (String quote_char EmptyString)
  else if (n =? 92)%N then String backslash (String backslash EmptyString)
  else if (n =? 8)%N then String backslash "b"
  else if (n =? 9)%N then String backslash "t"
  else if (n =? 10)%N then String backslash "n"
  else if (n =? 12)%N then String backslash "f"
  else if (n =? 13)%N then String backslash "r"
  else if (n <? 32)%N then String backslash ("u00" +:+ hex_low n)
  else String c EmptyString.

Fixpoint escape (s : string) : string :=
  match s with EmptyString => EmptyString | String c r => escape_char c +:+ escape r end.

Definition json_string (s : string) : string :=
  String quote_char (escape s +:+ String quote_char EmptyString).

(** Reading one escaped character back. *)
Definition unescape_char (s : string) : option (ascii * string) :=
  match s with
  | String c r =>
      if Ascii.eqb c quote_char then None
      else if Ascii.eqb c backslash then
        match r with
        | String d r' =>
            if Ascii.eqb d "b" then Some (ascii_of_N 8, r')
            else if Ascii.eqb d "t" then Some (ascii_of_N 9, r')
            else if Ascii.eqb d "n" then Some (ascii_of_N 10, r')
            else if Ascii.eqb d "f" then Some (ascii_of_N 12, r')
            else if Ascii.eqb d "r" then Some (ascii_of_N 13, r')
            else if Ascii.eqb d "u" then
              match r' with
              | String _ (String _ (String x (String y r''))) =>
                  h ← unhex_digit x; l ← unhex_digit y; Some (ascii_of_N (16 * h + l), r'')
              | _ => None
              end
            else Some (d, r')
        | _ => None
        end
      else Some (c, r)
  | EmptyString => None
  end.

Lemma unescape_escape c r : unescape_char (escape_char c +:+ r) = Some (c, r).
Proof. destruct c as [[][][][][][][][]]; vm_compute; reflexivity. Qed.

Lemma escape_inj s s' r r' :
  escape s +:+ String quote_char r = escape s' +:+ String quote_char r' → s = s' ∧ r = r'.
Proof.
  assert (∀ c x y, escape_char c +:+ x = String quote_char y → False) as Hq.
  { intros c x y E. pose proof (unescape_escape c x) as U. rewrite E in U. discriminate U. }
  revert s'. induction s as [|c s IH]; intros [|c' s'] E; cbn [escape] in E;
    rewrite ?str_app_nil_l, ?str_app_assoc in E.
  - by injection E.
  - symmetry in E. by apply Hq in E.
  - by apply Hq in E.
  - pose proof (unescape_escape c (escape s +:+ String quote_char r)) as U1.
    rewrite E, unescape_escape in U1. injection U1 as -> U1. symmetry in U1.
    by destruct (IH s' U1) as [-> ->].
Qed.

Lemma json_string_inj s s' r r' :
  json_string s +:+ r = json_string s' +:+ r' → s = s' ∧ r = r'.
Proof.
  unfold json_string. rewrite !str_app_cons, !str_app_assoc, !str_app_cons, !str_app_nil_l.
  intros E. injection E as E. by apply escape_inj.
Qed.

(** * Objects and arrays from the texts of their values *)

Section Fields.
Context {V : Type} (value_text : V → string).

Definition pair_text (e : string * V) : string := json_string e.1 +:+ (":" +:+ value_text e.2).

Fixpoint comma_sep {A} (text : A → string) (l : list A) : string :=
  match l with
  | [] => EmptyString
  | [x] => text x
  | x :: r => text x +:+ ("," +:+ comma_sep text r)
  end.

Definition object_text (fs : list (string * V)) : string := "{" +:+ (comma_sep pair_text fs +:+ "}").
Definition array_text (l : list V) : string := "[" +:+ (comma_sep value_text l +:+ "]").

(** A self-delimiting text: it can be read off the front of a longer one. *)
Definition self_delimiting {A} (text : A → string) : Prop :=
  ∀ x y r r', text x +:+ r = text y +:+ r' → x = y ∧ r = r'.

Lemma pair_delimiting : self_delimiting value_text → self_delimiting pair_text.
Proof.
  intros HV [k v] [k' v'] r r' E. unfold pair_text in E. cbn [fst snd] in E.
  rewrite !str_app_assoc in E. apply json_string_inj in E as [-> E].
  injection E as E. by apply HV in E as [-> ->].
Qed.

Lemma comma_sep_inj {A} (text : A → string) (c : ascii) l l' r r' :
  self_delimiting text → c ≠ ","%char → (∀ x s, text x +:+ s ≠ String c r) →
  (∀ x s, text x +:+ s ≠ String c r') →
  comma_sep text l +:+ String c r = comma_sep text l' +:+ String c r' → l = l' ∧ r = r'.
Proof.
  intros HT Hc Hr Hr'. revert l'. induction l as [|x l IH]; intros l' E.
  - destruct l' as [|y [|z l']]; cbn [comma_sep] in E; rewrite ?str_app_nil_l, ?str_app_assoc in E.
    + by injection E.
    + symmetry in E. by apply Hr in E.
    + symmetry in E. by apply Hr in E.
  - destruct l' as [|y l'].
    { destruct l; cbn [comma_sep] in E; rewrite ?str_app_nil_l, ?str_app_assoc in E; by apply Hr' in E. }
    assert (∀ a (l : list A) s, comma_sep text (a :: l) +:+ s =
      text a +:+ (match l with [] => s | _ => String ","%char (comma_sep text l +:+ s) end)) as Hcons.
    { intros a [|b k] s; [done|]. cbn [comma_sep]. by rewrite !str_app_assoc. }
    rewrite (Hcons x l), (Hcons y l') in E. apply HT in E as [-> E].
    destruct l as [|x' l], l' as [|y' l'].
    + by injection E as ->.
    + injection E as E _. congruence.
    + injection E as E _. congruence.
    + injection E as E. by destruct (IH (y' :: l') E) as [-> ->].
Qed.

Lemma object_delimiting : self_delimiting value_text → self_delimiting object_text.
Proof.
  intros HV fs fs' r r' E. unfold object_text in E. rewrite !str_app_assoc in E. injection E as E.
  apply comma_sep_inj in E; [done|by apply pair_delimiting|done| |];
    intros [k v] s; unfold pair_text, json_string; cbn; done.
Qed.

Lemma object_text_inj fs fs' : self_delimiting value_text → object_text fs = object_text fs' → fs = fs'.
Proof.
  intros HV E. apply (object_delimiting HV fs fs' EmptyString EmptyString). by rewrite E.
Qed.

End Fields.

Lemma json_string_delimiting : self_delimiting json_string.
Proof. intros x y r r'. apply json_string_inj. Qed.

(** ** Arrays of strings *)

Lemma string_array_inj l l' : array_text json_string l = array_text json_string l' → l = l'.
Proof.
  unfold array_text. intros E. injection E as E.
  apply comma_sep_inj in E as [? _]; [done|apply json_string_delimiting|done| |];
    intros x s; unfold json_string; cbn; done.
Qed.

(** * Canonical key order *)

Fixpoint insert_field {V} (e : string * V) (l : list (string * V)) : list (string * V) :=
  match l with
  | [] => [e]
  | x :: r => if String.leb e.1 x.1 then e :: l else x :: insert_field e r
  end.

(** [Object.keys(obj).sort()], with the values.  Keys are column names: they are not
    array indices, which JavaScript objects would list first. *)
Fixpoint sort_fields {V} (l : list (string * V)) : list (string * V) :=
  match l with [] => [] | e :: r => insert_field e (sort_fields r) end.

Lemma insert_field_perm {V} (e : string * V) l : insert_field e l ≡ₚ e :: l.
Proof.
  induction l as [|x l IH]; [done|]. cbn. destruct (String.leb _ _); [done|]. rewrite IH. constructor.
Qed.

Lemma sort_fields_perm {V} (l : list (string * V)) : sort_fields l ≡ₚ l.
Proof. induction l as [|e l IH]; [done|]. cbn. by rewrite insert_field_perm, IH. Qed.

Definition key_le {V} (a b : string * V) : Prop := String.leb a.1 b.1 = true.

Lemma leb_trans a b c : String.leb a b = true → String.leb b c = true → String.leb a c = true.
Proof. intros H1 H2. exact (str_geb_trans c b a H2 H1). Qed.

Lemma insert_field_sorted {V} (e : string * V) l :
  StronglySorted key_le l → StronglySorted key_le (insert_field e l).
Proof.
  induction 1 as [|x l Hs IH Hf]; cbn; [repeat constructor|].
  destruct (String.leb e.1 x.1) eqn:E.
  - constructor; [by constructor|]. constructor; [done|].
    eapply Forall_impl; [exact Hf|]. intros y Hy. by eapply leb_trans.
  - constructor; [done|]. rewrite insert_field_perm. constructor; [|done].
    unfold key_le. destruct (String.leb_total e.1 x.1); congruence.
Qed.

Lemma sort_fields_sorted {V} (l : list (string * V)) : StronglySorted key_le (sort_fields l).
Proof. induction l as [|e l IH]; cbn; [constructor|]. by apply insert_field_sorted. Qed.

(** Sorting does not depend on the order of the fields, keys being unique. *)
Lemma sort_fields_unique {V} (l l' : list (string * V)) :
  NoDup (map fst l) → l ≡ₚ l' → sort_fields l = sort_fields l'.
Proof.
  intros Hd E.
  assert (sort_fields l ≡ₚ sort_fields l') as Ep by (by rewrite !sort_fields_perm).
  assert (NoDup (map fst (sort_fields l))) as Hd' by (by rewrite sort_fields_perm).
  pose proof (sort_fields_sorted l) as S1. pose proof (sort_fields_sorted l') as S2.
  revert Ep Hd' S1 S2. generalize (sort_fields l), (sort_fields l'). clear.
  intros l. induction l as [|[k v] l IH]; intros [|[k' v'] l'] Ep Hd S1 S2.
  - done.
  - by apply Permutation_nil in Ep.
  - symmetry in Ep. by apply Permutation_nil in Ep.
  - inversion S1 as [|? ? S1' F1]; subst. inversion S2 as [|? ? S2' F2]; subst.
    cbn in Hd. apply list.NoDup_cons in Hd as [Hn Hd].
    rewrite list.Forall_forall in F1, F2.
    assert ((k', v') = (k, v)) as E.
    { assert ((k', v') ∈ (k, v) :: l) as H1 by (rewrite Ep; left).
      assert ((k, v) ∈ (k', v') :: l') as H2 by (rewrite <- Ep; left).
      apply elem_of_cons in H1 as [H1|H1]; [done|]. apply elem_of_cons in H2 as [H2|H2]; [done|].
      apply F1 in H1 as L1. apply F2 in H2. unfold key_le in *. cbn in *.
      assert (k = k') as -> by (by apply String.leb_antisym).
      exfalso. apply Hn. by apply (list_elem_of_fmap_2 fst) in H1. }
    injection E as -> ->. f_equal. apply IH; [|done..]. by apply Permutation_cons_inv in Ep.
Qed.

End Json.
