(* ===== verification/HashChain.v ===== *)
(** The hash chain of the append-only tables (packages/directory/src/hash-chain.ts).

    SHA-256 is the parameter [H] (hexadecimal digest of a string).  What the
    language prints for a number and for a date is a parameter too. *)
From Stdlib Require Import Ascii.
From S2P Require Import Prelude Text Json.
Import Text Json.

Module HashChain.

(** * Data *)

(** A column value as the driver or the application supplies it.  [CJson] stands for
    arrays, objects and buffers, by their JSON text; [CDate] holds
    milliseconds. *)
Inductive cell : Type :=
| CStr (s : string)
| CNum (n : jsnum)
| CBool (b : bool)
| CNull
| CUndef
| CDate (ms : Z)
| CJson (text : string).

Definition record : Type := list (string * cell).

Definition ALWAYS_EXCLUDED_FROM_CHAIN : list string :=
  ["chain_hash"; "id"; "created_at"; "registered_at"; "requested_at"; "attested_at"; "sent_at";
   "recorded_at"; "last_run_at"; "applied_at"; "signed_at"].

Definition TABLE_EXTRA_EXCLUDED (tableName : string) : list string :=
  if bool_decide (tableName = "notification_events") then ["sender_pseudonym"]
  else if bool_decide (tableName = "connection_requests")
  then ["conversation_id"; "escalation_expires_at"; "rejection_reason"; "via_alias_id"]
  else if bool_decide (tableName = "conversation_seals") then ["close_reason_code"; "seal_date"]
  else if bool_decide (tableName = "conversation_proof_leaves") then ["checkpoint_id"]
  else if bool_decide (tableName = "relay_registrations") then ["deregistered_at"]
  else if bool_decide (tableName = "user_accounts") then ["email_stub_hash"]
  else if bool_decide (tableName = "sessions")
  then ["initiator_pubkey_hex"; "target_pubkey_hex"; "high_stakes"]
  else if bool_decide (tableName = "seal_notarizations")
  then ["seal_type"; "supersedes_notarization_id"]
  else [].

Definition isExcluded (tableName column : string) : bool :=
  bool_decide (column ∈ ALWAYS_EXCLUDED_FROM_CHAIN) ||
  bool_decide (column ∈ TABLE_EXTRA_EXCLUDED tableName).

(** ** Numbers written as text *)

Definition digit_of (c : ascii) : option N :=
  let n := N_of_ascii c in if ((48 <=? n) && (n <=? 57))%N then Some (n - 48)%N else None.

Fixpoint digits_fold (acc : N) (s : string) : option N :=
  match s with
  | EmptyString => Some acc
  | String c r => d ← digit_of c; digits_fold (10 * acc + d)%N r
  end.

(** [/^-?\d+$/], with the integer that is written. *)
Definition int_text (s : string) : option Z :=
  match s with
  | EmptyString => None
  | String c r =>
      if Ascii.eqb c "-" then
        match r with EmptyString => None | _ => (λ n, (- Z.of_N n)%Z) <$> digits_fold 0 r end
      else Z.of_N <$> digits_fold 0 s
  end.

Definition is_digit (c : ascii) : bool := bool_decide (is_Some (digit_of c)).

(** [/^\d{4}-\d{2}-\d{2}$/] *)
Definition is_date_text (s : string) : bool :=
  match s with
  | String a (String b (String c (String d (String m1 (String e (String f (String m2
      (String g (String h EmptyString))))))))) =>
      is_digit a && is_digit b && is_digit c && is_digit d && Ascii.eqb m1 "-" &&
      is_digit e && is_digit f && Ascii.eqb m2 "-" && is_digit g && is_digit h
  | _ => false
  end.

(** ** Results *)

Record ChainVerificationResult : Type := mkVerification {
  valid : bool;
  rowCount : Z;
  breakAtSequence : option Z;
  storedHash : option string;
  recomputedHash : option string;
}.

Definition clean (n : Z) : ChainVerificationResult := mkVerification true n None None None.

Section Chain.
Variable H : string → string.
(** [String(n)] of a finite number, [toISOString] of a time, and [toISOString] of the
    midnight of a date text, which throws ([None]) when the date is invalid. *)
Variable number_text : jsnum → string.
Variable iso_text : Z → string.
Variable iso_midnight : string → option string.

Definition GENESIS_TEXT : string := "CELLO_CHAIN_GENESIS".
Definition CHAIN_GENESIS : string := H GENESIS_TEXT.

(** * Serialization *)

Definition normalize (v : cell) : option cell :=
  match v with
  | CStr s =>
      match int_text s with
      | Some z => Some (CNum (number_of_bigint z))
      | None => if is_date_text s then CStr <$> iso_midnight s else Some (CStr s)
      end
  | CDate ms => Some (CStr (iso_text ms))
  | _ => Some v
  end.

(** What [JSON.stringify] writes for a value; a field that is undefined is left out. *)
Definition cell_text (v : cell) : string :=
  match v with
  | CStr s => json_string s
  | CNum (JInt z) => number_text (JInt z)
  | CNum (JFrac z) => number_text (JFrac z)
  | CNum _ | CNull | CUndef => "null"
  | CBool true => "true"
  | CBool false => "false"
  | CDate ms => json_string (iso_text ms)
  | CJson text => text
  end.

Definition defined (e : string * cell) : bool :=
  match e.2 with CUndef => false | _ => true end.

Definition serializeRecord (r : record) (tableName : string) : option string :=
  let kept := sort_fields (List.filter (λ e, negb (isExcluded tableName e.1)) r) in
  obj ← mapM (λ e : string * cell, v ← normalize e.2; Some (e.1, v)) kept;
  Some (object_text cell_text (List.filter defined obj)).

Definition computeChainHash (serializedRecord previousChainHash : string) : string :=
  H (serializedRecord +:+ previousChainHash).

(** * Verification *)

Definition get_cell (r : record) (k : string) : cell :=
  match List.find (λ e, bool_decide (e.1 = k)) r with Some e => e.2 | None => CUndef end.

Definition stored_hash (row : record) : option string :=
  match get_cell row "chain_hash" with CStr h => Some h | _ => None end.

(** The loop from row [i] on; the outer [None] is the exception of an invalid date. *)
Fixpoint verify_rows (i : Z) (rows : list record) (tableName previousHash : string) (n : Z)
    : option ChainVerificationResult :=
  match rows with
  | [] => Some (clean n)
  | row :: rest =>
      serialized ← serializeRecord row tableName;
      let recomputed := computeChainHash serialized previousHash in
      if bool_decide (stored_hash row = Some recomputed)
      then verify_rows (i + 1) rest tableName recomputed n
      else Some (mkVerification false n (Some (i + 1)%Z) (stored_hash row) (Some recomputed))
  end.

Definition verifyChain (rows : list record) (tableName : string) : option ChainVerificationResult :=
  match rows with
  | [] => Some (clean 0)
  | _ => verify_rows 0 rows tableName CHAIN_GENESIS (Z.of_nat (length rows))
  end.

Definition HASH_CHAINED_TABLES : list string :=
  ["connection_requests"; "conversation_seals"; "conversation_attestations";
   "conversation_participation"; "notification_events"; "seal_notarizations"; "connections";
   "sessions"; "relay_registrations"; "user_accounts"].

(** * The chain as a predicate *)

(** [rows] extend a chain whose last hash is [prev] to one whose last hash is [last]. *)
Inductive chained (t : string) : string → list record → string → Prop :=
| chained_nil prev : chained t prev [] prev
| chained_cons prev row s rest last :
    serializeRecord row t = Some s →
    stored_hash row = Some (computeChainHash s prev) →
    chained t (computeChainHash s prev) rest last →
    chained t prev (row :: rest) last.

Lemma verify_rows_spec i rows t prev n :
  verify_rows i rows t prev n = Some (clean n) ↔ ∃ last, chained t prev rows last.
Proof.
  revert i prev. induction rows as [|row rows IH]; intros i prev; cbn [verify_rows].
  { split; [intros _; exists prev; constructor|done]. }
  destruct (serializeRecord row t) as [s|] eqn:Es; cbn [mbind option_bind].
  2:{ split; [done|]. intros [last Hc]. inversion Hc; congruence. }
  destruct (bool_decide _) eqn:E; bools.
  - rewrite IH. split; intros [last Hc]; exists last; [by econstructor|]. inversion Hc; subst. congruence.
  - split; [done|]. intros [last Hc]. inversion Hc; subst. congruence.
Qed.

Lemma verifyChain_spec rows t :
  verifyChain rows t = Some (clean (Z.of_nat (length rows))) ↔ ∃ last, chained t CHAIN_GENESIS rows last.
Proof.
  unfold verifyChain. destruct rows as [|row rows]; [|apply verify_rows_spec].
  split; [intros _; eexists; constructor|done].
Qed.

Lemma chained_snoc t prev rows row s last :
  chained t prev rows last → serializeRecord row t = Some s →
  stored_hash row = Some (computeChainHash s last) →
  chained t prev (rows ++ [row]) (computeChainHash s last).
Proof.
  induction 1 as [|prev r s' rest last' Hs Hh Hc IH]; intros Es Eh; cbn.
  - by repeat (econstructor; try done).
  - econstructor; [done..|]. by apply IH.
Qed.

End Chain.
End HashChain.
