(* ===== verification/HashChainTheorems.v ===== *)
(** Properties of the hash chain: rows appended with their chain hash verify, the
    last hash fixes every row before it, the reported break is the first, and
    which edits the serialization cannot see. *)
From Stdlib Require Import Ascii.
From S2P Require Import Prelude Text Json HashChain.
Import Text Json HashChain.

Module HashChainTheorems.

(** * Reading decimal numbers *)

Lemma digit_of_pretty d : (d < 10)%N → digit_of (pretty_N_char d) = Some d.
Proof.
  intros Hd.
  assert (d = 0 ∨ d = 1 ∨ d = 2 ∨ d = 3 ∨ d = 4 ∨ d = 5 ∨ d = 6 ∨ d = 7 ∨ d = 8 ∨ d = 9)%N as E by lia.
  by destruct_or! E; subst.
Qed.

Lemma digits_fold_pretty x acc s :
  ∃ k, digits_fold acc (pretty_N_go x s) = digits_fold (acc * 10 ^ k + x) s.
Proof.
  revert acc s. induction (N.lt_wf_0 x) as [x _ IH]; intros acc s.
  destruct (decide (0 < x)%N) as [Hx|].
  2:{ assert (x = 0)%N as -> by lia. exists 0%N. rewrite pretty_N_go_0. f_equal. lia. }
  rewrite pretty_N_go_step by done.
  destruct (IH (x `div` 10)%N ltac:(by apply N.div_lt) acc
    (String (pretty_N_char (x `mod` 10)) s)) as [k E].
  exists (N.succ k). rewrite E. cbn [digits_fold]. rewrite digit_of_pretty by (by apply N.mod_lt).
  cbn [mbind option_bind]. f_equal. rewrite N.pow_succ_r'.
  pose proof (N.div_mod x 10 ltac:(lia)). lia.
Qed.

Lemma digits_fold_N (n : N) : digits_fold 0 (pretty n) = Some n.
Proof.
  unfold pretty, pretty_N. case_decide as E; [by subst|].
  destruct (digits_fold_pretty n 0 EmptyString) as [k Ek]. rewrite Ek. reflexivity.
Qed.

Lemma pretty_N_cons (n : N) : ∃ c r, pretty n = String c r ∧ c ≠ "-"%char.
Proof.
  pose proof (digits_fold_N n) as E. destruct (pretty n) as [|c r] eqn:Ep.
  - injection E as <-. discriminate Ep.
  - exists c, r. split; [done|]. intros ->. discriminate E.
Qed.

Lemma int_text_pretty (z : Z) : int_text (pretty z) = Some z.
Proof.
  destruct z as [|p|p].
  - reflexivity.
  - change (pretty (Zpos p)) with (pretty (Npos p)). pose proof (digits_fold_N (Npos p)) as E.
    destruct (pretty_N_cons (Npos p)) as (c & r & Ep & Hc). rewrite Ep in *. unfold int_text.
    rewrite (proj2 (Ascii.eqb_neq c "-") Hc), E. done.
  - change (pretty (Zneg p)) with ("-" +:+ pretty (Npos p)). pose proof (digits_fold_N (Npos p)) as E.
    destruct (pretty_N_cons (Npos p)) as (c & r & Ep & Hc). rewrite Ep in *.
    change (int_text ("-" +:+ String c r)) with ((λ n, (- Z.of_N n)%Z) <$> digits_fold 0 (String c r)).
    by rewrite E.
Qed.

Section Chain.
Variable H : string → string.
Variable number_text : jsnum → string.
Variable iso_text : Z → string.
Variable iso_midnight : string → option string.

Abbreviation serialize := (serializeRecord number_text iso_text iso_midnight).
Abbreviation chain := (chained H number_text iso_text iso_midnight).
Abbreviation verifyAll := (verifyChain H number_text iso_text iso_midnight).
Abbreviation genesis := (CHAIN_GENESIS H).

(** The columns that are hashed. *)
Definition hashed (t : string) (r : record) : record := List.filter (λ e, negb (isExcluded t e.1)) r.

(** Two rows that agree on the hashed columns, in any order. *)
Definition same_content (t : string) (r r' : record) : Prop :=
  NoDup (map fst (hashed t r)) ∧ hashed t r ≡ₚ hashed t r'.

Lemma serialize_same t r r' : same_content t r r' → serialize r t = serialize r' t.
Proof.
  intros [Hd E]. unfold serializeRecord. fold (hashed t r) (hashed t r').
  by rewrite (sort_fields_unique _ _ Hd E).
Qed.

(** The hash the next row extends. *)
Definition last_hash (rows : list record) : string :=
  match last rows with Some row => default EmptyString (stored_hash row) | None => genesis end.

Lemma chained_last t prev rows lst :
  chain t prev rows lst → lst = match last rows with Some row => default EmptyString (stored_hash row) | None => prev end.
Proof.
  induction 1 as [|prev r s rest lst Hs Hh Hc IH]; [done|].
  destruct rest as [|r' rest].
  - inversion Hc; subst. cbn. by rewrite Hh.
  - change (last (r :: r' :: rest)) with (last (r' :: rest)).
    destruct (last (r' :: rest)) eqn:El; [exact IH|]. by apply last_None in El.
Qed.

(** Append then verify.  If a table verifies and a row is written whose
    [chain_hash] is computed from the inserted record and the last stored
    hash, then the longer table verifies, whatever the database added in
    excluded columns and in whatever order it returns the columns. *)
Theorem append_verifies t rows record s row :
  verifyAll rows t = Some (clean (Z.of_nat (length rows))) →
  serialize record t = Some s →
  same_content t record row →
  stored_hash row = Some (computeChainHash H s (last_hash rows)) →
  verifyAll (rows ++ [row]) t = Some (clean (Z.of_nat (length rows) + 1)).
Proof.
  intros Hv Hs Hrow Hh. apply verifyChain_spec in Hv as [lst Hc].
  pose proof (chained_last _ _ _ _ Hc) as El. fold (last_hash rows) in El. subst lst.
  rewrite (serialize_same _ _ _ Hrow) in Hs.
  assert (verifyAll (rows ++ [row]) t = Some (clean (Z.of_nat (length (rows ++ [row]))))) as ->.
  { apply verifyChain_spec. eexists. by eapply chained_snoc. }
  rewrite length_app. cbn. do 2 f_equal. lia.
Qed.

(** The reported break is the first.  When verification fails, the rows before the
    reported position chain, and the row at it does not: the stored and the
    recomputed hash that are reported differ. *)
Theorem break_is_first t rows n i sh rh :
  verifyAll rows t = Some (mkVerification false n (Some i) sh rh) →
  ∃ pre row rest lst s, rows = pre ++ row :: rest ∧ i = (Z.of_nat (length pre) + 1)%Z ∧
    n = Z.of_nat (length rows) ∧ chain t genesis pre lst ∧ serialize row t = Some s ∧
    sh = stored_hash row ∧ rh = Some (computeChainHash H s lst) ∧ sh ≠ rh.
Proof.
  assert (∀ rows i0 prev n0, verify_rows H number_text iso_text iso_midnight i0 rows t prev n0 =
      Some (mkVerification false n (Some i) sh rh) →
    ∃ pre row rest lst s, rows = pre ++ row :: rest ∧ i = (i0 + Z.of_nat (length pre) + 1)%Z ∧
      n = n0 ∧ chain t prev pre lst ∧ serialize row t = Some s ∧
      sh = stored_hash row ∧ rh = Some (computeChainHash H s lst) ∧ sh ≠ rh) as G.
  { clear rows. induction rows as [|row rows IH]; intros i0 prev n0 E; cbn [verify_rows] in E; [done|].
    destruct (serialize row t) as [s|] eqn:Es; cbn [mbind option_bind] in E; [|done].
    destruct (bool_decide _) eqn:Eb; bools.
    - destruct (IH _ _ _ E) as (pre & row' & rest & lst & s' & -> & -> & -> & Hc & Hr).
      exists (row :: pre), row', rest, lst, s'. split; [done|]. split; [cbn; lia|]. split; [done|].
      split; [by econstructor|done].
    - injection E as <- <- <- <-. exists [], row, rows, prev, s. split; [done|]. split; [cbn; lia|].
      split; [done|]. split; [constructor|done]. }
  intros E. unfold verifyChain in E. destruct rows as [|row rows]; [done|].
  destruct (G _ _ _ _ E) as (pre & row' & rest & lst & s & -> & -> & Hr).
  exists pre, row', rest, lst, s. split; [done|]. split; [lia|done].
Qed.

(** ** Tamper evidence *)

(** What the chain of some rows hashes, from the hash [prev] on. *)
Fixpoint chain_inputs (t prev : string) (rows : list record) : list string :=
  match rows with
  | [] => []
  | row :: rest =>
      match serialize row t with
      | Some s => (s +:+ prev) :: chain_inputs t (computeChainHash H s prev) rest
      | None => []
      end
  end.

Definition table_inputs (t : string) (rows : list record) : list string :=
  GENESIS_TEXT :: chain_inputs t genesis rows.

Lemma chained_snoc_inv t prev rows row lst :
  chain t prev (rows ++ [row]) lst →
  ∃ mid s, chain t prev rows mid ∧ serialize row t = Some s ∧ lst = computeChainHash H s mid ∧
    (s +:+ mid) ∈ chain_inputs t prev (rows ++ [row]) ∧
    chain_inputs t prev rows ⊆ chain_inputs t prev (rows ++ [row]).
Proof.
  revert prev. induction rows as [|r rows IH]; intros prev Hc; inversion Hc as [|? ? s ? ? Hs Hh Hc']; subst.
  - inversion Hc'; subst. exists prev, s. cbn [chain_inputs app]. rewrite Hs.
    split; [constructor|]. split; [done|]. split; [done|]. split; [left|].
    intros x Hx. by apply not_elem_of_nil in Hx.
  - destruct (IH _ Hc') as (mid & s' & H1 & H2 & H3 & H4 & H5). exists mid, s'.
    cbn [chain_inputs app]. rewrite Hs. split; [by econstructor|]. split; [done|]. split; [done|].
    split; [by right|]. intros x [->|Hx]%elem_of_cons; [left|]. right. by apply H5.
Qed.

(** The text of an object starts with a brace, the genesis text does not. *)
Lemma serialize_not_genesis r t s x : serialize r t = Some s → s +:+ x ≠ GENESIS_TEXT.
Proof.
  unfold serializeRecord. destruct (mapM _ _) as [obj|]; [|done]. cbn. intros [= <-].
  unfold object_text. discriminate.
Qed.

Lemma str_app_inj_r (a b c d : string) :
  String.length b = String.length d → a +:+ b = c +:+ d → a = c ∧ b = d.
Proof.
  intros Hl E. apply str_app_inj_len; [|done].
  apply (f_equal String.length) in E. rewrite !str_app_length in E. lia.
Qed.

Lemma chained_width t prev rows lst w :
  (∀ x, String.length (H x) = w) → String.length prev = w → chain t prev rows lst → String.length lst = w.
Proof. intros HH Hp. induction 1; [done|]. apply IHchained. apply HH. Qed.

(** Tamper evidence.  If two versions of a table verify and end in the same chain
    hash, then they have the same number of rows and row by row the same
    serialized content, or two of the strings hashed for them collide.  So
    under an unchanged last hash no row can be edited, removed or inserted. *)
Theorem last_hash_fixes_rows t rows rows' lst w :
  (∀ x, String.length (H x) = w) →
  chain t genesis rows lst → chain t genesis rows' lst →
  map (λ r, serialize r t) rows = map (λ r, serialize r t) rows' ∨
  collision_among H (table_inputs t rows ++ table_inputs t rows').
Proof.
  intros HH. revert rows' lst. induction rows as [|row rows IH] using rev_ind; intros rows' lst C1 C2.
  - inversion C1; subst. destruct rows' as [|row' rows' _] using rev_ind; [by left|]. right.
    destruct (chained_snoc_inv _ _ _ _ _ C2) as (mid & s & _ & Hs & El & Hin & _).
    exists GENESIS_TEXT, (s +:+ mid). split; [left|]. split.
    + unfold table_inputs. rewrite elem_of_app. right. by right.
    + split; [|done]. intros E. symmetry in E. by apply (serialize_not_genesis row' t s mid) in E.
  - destruct (chained_snoc_inv _ _ _ _ _ C1) as (mid & s & C1' & Hs & El & Hin & Hsub).
    destruct rows' as [|row' rows' _] using rev_ind.
    { inversion C2; subst. right. exists GENESIS_TEXT, (s +:+ mid). split; [left|].
      split; [unfold table_inputs; rewrite elem_of_app; left; by right|].
      split; [|done]. intros E. symmetry in E. by apply (serialize_not_genesis row t s mid) in E. }
    destruct (chained_snoc_inv _ _ _ _ _ C2) as (mid' & s' & C2' & Hs' & El' & Hin' & Hsub').
    set (inputs := table_inputs t (rows ++ [row]) ++ table_inputs t (rows' ++ [row'])).
    destruct (collision_or_eq H inputs (s +:+ mid) (s' +:+ mid')) as [E|]; [| | |..].
    + unfold inputs, table_inputs. rewrite elem_of_app. left. by right.
    + unfold inputs, table_inputs. rewrite elem_of_app. right. by right.
    + unfold computeChainHash in *. congruence.
    + assert (String.length mid = w) as W by (eapply (chained_width t genesis rows); [done|apply HH|done]).
      assert (String.length mid' = w) as W' by (eapply (chained_width t genesis rows'); [done|apply HH|done]).
      apply str_app_inj_r in E as [-> ->]; [|congruence].
      destruct (IH _ _ C1' C2') as [Em|Hcol].
      * left. rewrite !map_app, Em. cbn. by rewrite Hs, Hs'.
      * right. eapply collision_mono; [|exact Hcol]. unfold inputs, table_inputs.
        intros x. rewrite !elem_of_app, !elem_of_cons. intros [[?|?]|[?|?]]; auto.
    + by right.
Qed.

(** ** What the serialization cannot see *)

(** BIGINT columns round-trip: an integer that the application writes as a number
    and the driver reads back as decimal text serializes alike. *)
Theorem bigint_roundtrip t before k z after :
  (- 2 ^ 53 <= z <= 2 ^ 53)%Z →
  serializeRecord number_text iso_text iso_midnight (before ++ (k, CStr (pretty z)) :: after) t =
  serializeRecord number_text iso_text iso_midnight (before ++ (k, CNum (JInt z)) :: after) t.
Proof.
  intros Hz.
  assert (normalize iso_text iso_midnight (CStr (pretty z)) = normalize iso_text iso_midnight (CNum (JInt z))) as En.
  { unfold normalize. by rewrite int_text_pretty, number_of_bigint_small. }
  unfold serializeRecord. rewrite !List.filter_app. cbn [List.filter fst].
  destruct (isExcluded t k); cbn [negb]; [done|].
  set (b := List.filter _ before). set (a := List.filter _ after).
  assert (∀ (f : string * cell → option (string * cell)) l l',
    Forall2 (λ e e', f e = f e') l l' → mapM f l = mapM f l') as HM.
  { intros f. induction 1 as [|e e' l l' He _ IH]; [done|]. cbn. by rewrite He, IH. }
  assert (∀ l l', Forall2 (λ e e' : string * cell, e.1 = e'.1 ∧
      normalize iso_text iso_midnight e.2 = normalize iso_text iso_midnight e'.2) l l' →
    Forall2 (λ e e' : string * cell, e.1 = e'.1 ∧
      normalize iso_text iso_midnight e.2 = normalize iso_text iso_midnight e'.2)
      (sort_fields l) (sort_fields l')) as HS.
  { assert (∀ (R : string * cell → string * cell → Prop) e e' l l', (∀ x y, R x y → x.1 = y.1) →
      R e e' → Forall2 R l l' → Forall2 R (insert_field e l) (insert_field e' l')) as HI.
    { intros R e e' l l' HR He. induction 1 as [|x x' l l' Hx Hl IH]; cbn; [by repeat constructor|].
      rewrite <- (HR _ _ He), <- (HR _ _ Hx). destruct (String.leb _ _); repeat constructor; done. }
    induction 1; cbn; [constructor|]. apply HI; [naive_solver|done|done]. }
  rewrite (HM _ (sort_fields (b ++ (k, CStr (pretty z)) :: a)) (sort_fields (b ++ (k, CNum (JInt z)) :: a))); [done|].
  eapply Forall2_impl; [apply HS|].
  - apply Forall2_app; [by apply Forall_Forall2_diag, Forall_forall|].
    constructor; [done|]. by apply Forall_Forall2_diag, Forall_forall.
  - intros [k1 v1] [k2 v2] [E1 E2]. cbn in *. by rewrite E1, E2.
Qed.

(** A gap in tamper evidence: above 2^53 the coercion to a number merges different
    BIGINT values, and it merges different texts of one number.  Changing
    9007199254740993 to 9007199254740992, or the text 007 to 7, in a hashed
    column leaves the serialization, and so the chain, unchanged. *)
Theorem coercion_merges_values :
  serialize [("amount", CStr "9007199254740993")] "connections" =
  serialize [("amount", CStr "9007199254740992")] "connections" ∧
  serialize [("code", CStr "007")] "connections" = serialize [("code", CStr "7")] "connections".
Proof. split; reflexivity. Qed.

End Chain.
(** * Witnesses *)

Definition demo_number (n : jsnum) : string := match n with JInt z => pretty z | _ => "?" end.
Definition demo_iso (_ : Z) : string := "d".

Abbreviation demo_serialize := (serializeRecord demo_number demo_iso Some).
Abbreviation demo_verify := (verifyChain demo_digest demo_number demo_iso Some).
Abbreviation demo_chained := (chained demo_digest demo_number demo_iso Some).

Definition inserted (name : string) : record := [("name", CStr name); ("seq", CNum (JInt 5))].

(** The row as it is read back: columns in another order, the number as text. *)
Definition stored (name prev : string) : record :=
  let s := default EmptyString (demo_serialize (inserted name) "connections") in
  [("id", CStr "1"); ("seq", CNum (JInt 5)); ("name", CStr name); ("created_at", CDate 0);
   ("chain_hash", CStr (computeChainHash demo_digest s prev))].

Definition row1 : record := stored "a" (CHAIN_GENESIS demo_digest).
Definition row2 : record := stored "b" (last_hash demo_digest [row1]).

Lemma append_verifies_witness : demo_verify ([row1] ++ [row2]) "connections" = Some (clean 2).
Proof.
  apply (append_verifies demo_digest demo_number demo_iso Some "connections" [row1] (inserted "b")
    (default EmptyString (demo_serialize (inserted "b") "connections"))).
  - vm_compute. reflexivity.
  - vm_compute. reflexivity.
  - split.
    + vm_compute. apply list.NoDup_cons. split; [intros [?|?%not_elem_of_nil]%elem_of_cons; done|].
      apply NoDup_singleton.
    + change (hashed "connections" row2) with [("seq", CNum (JInt 5)); ("name", CStr "b")].
      apply perm_swap.
  - vm_compute. reflexivity.
Defined.

Lemma break_is_first_witness :
  ∃ pre row rest lst s, [row1; row1] = pre ++ row :: rest ∧ 2%Z = (Z.of_nat (length pre) + 1)%Z ∧
    demo_chained "connections" (CHAIN_GENESIS demo_digest) pre lst ∧
    demo_serialize row "connections" = Some s ∧ stored_hash row ≠ Some (computeChainHash demo_digest s lst).
Proof.
  destruct (break_is_first demo_digest demo_number demo_iso Some "connections" [row1; row1] 2 2
    (stored_hash row1)
    (Some (computeChainHash demo_digest (default EmptyString (demo_serialize row1 "connections"))
       (last_hash demo_digest [row1]))))
    as (pre & row & rest & lst & s & E1 & E2 & _ & E4 & E5 & E6 & E7 & E8).
  - vm_compute. reflexivity.
  - exists pre, row, rest, lst, s. split; [exact E1|]. split; [exact E2|]. split; [exact E4|].
    split; [exact E5|]. rewrite <- E6, <- E7. exact E8.
Defined.

Lemma last_hash_fixes_rows_witness :
  map (λ r, demo_serialize r "connections") [row1] = map (λ r, demo_serialize r "connections") [row1] ∨
  collision_among demo_digest
    (table_inputs demo_digest demo_number demo_iso Some "connections" [row1] ++
     table_inputs demo_digest demo_number demo_iso Some "connections" [row1]).
Proof.
  assert (demo_chained "connections" (CHAIN_GENESIS demo_digest) [row1] (last_hash demo_digest [row1])) as C.
  { eapply chained_cons; [vm_compute; reflexivity|vm_compute; reflexivity|].
    vm_compute. constructor. }
  apply (last_hash_fixes_rows demo_digest demo_number demo_iso Some "connections" [row1] [row1]
    (last_hash demo_digest [row1]) 64); [|exact C|exact C].
  intros x. apply demo_digest_hex64.
Defined.

Lemma bigint_roundtrip_witness :
  demo_serialize [("seq", CStr (pretty 42%Z))] "connections" =
  demo_serialize [("seq", CNum (JInt 42))] "connections".
Proof. apply (bigint_roundtrip demo_number demo_iso Some "connections" [] "seq" 42 []); lia. Defined.

End HashChainTheorems.
