(* ===== verification/Reconcile.v ===== *)
(** What two directory nodes compare in an anti-entropy round: record hashes
    (packages/directory/src/record-hash.ts), bucket and table digests
    (set-reconciliation.ts), version maps (version-reconcile.ts,
    ae-mutable-version.ts) and the plan of a round (ae-round.ts).

    SHA-256 and Unicode normalization are parameters. *)
From Stdlib Require Import Ascii.
From S2P Require Import Prelude Text JsMap Json.
Import Text JsMap Json.

Module Reconcile.

(** * Data *)

Inductive CanonicalValue : Type :=
| CvStr (s : string)
| CvBool (b : bool)
| CvNull.

#[global] Instance CanonicalValue_eq_dec : EqDecision CanonicalValue.
Proof. solve_decision. Defined.

Definition fields_t : Type := list (string * CanonicalValue).

(** A column of a mutable row as the driver yields it. *)
Inductive row_value : Type :=
| RvCanon (v : CanonicalValue)
| RvDate (ms : Z)
| RvUndef.

Definition MutableRow : Type := list (string * row_value).

Record TierBVersionSpec : Type := mkSpec {
  table : string;
  key : list string;
  versionColumns : list string;
}.

Definition SUSPENSION_VERSION_SPEC : TierBVersionSpec :=
  mkSpec "agent_suspensions" ["agent_id"]
    ["agent_id"; "paused"; "burned"; "reason"; "authorized_by_account"; "suspension_seq"; "origin_node"].

Definition PRESENCE_VERSION_SPEC : TierBVersionSpec :=
  mkSpec "agent_presence" ["k_local_pubkey"]
    ["k_local_pubkey"; "online"; "owning_node_id"; "last_seen_at"; "updated_at"].

Definition DIRECTORY_NODE_HEARTBEAT_VERSION_SPEC : TierBVersionSpec :=
  mkSpec "directory_nodes" ["node_id"] ["node_id"; "status"; "last_heartbeat_at"].

Definition TIER_B_SPECS : list TierBVersionSpec :=
  [SUSPENSION_VERSION_SPEC; PRESENCE_VERSION_SPEC; DIRECTORY_NODE_HEARTBEAT_VERSION_SPEC].

(** ** Errors *)

(** An [Error] object: the protocol error of the wire, known by its name, or any other. *)
Inductive ae_error : Type :=
| AeProtocolError (message : string)
| OtherError (message : string).

#[global] Instance ae_error_eq_dec : EqDecision ae_error.
Proof. solve_decision. Defined.

(** ** Helpers on strings and sets *)

Definition lower_hex_char (c : ascii) : bool :=
  let n := N_of_ascii c in (((48 <=? n) && (n <=? 57)) || ((97 <=? n) && (n <=? 102)))%N.

Fixpoint all_lower_hex (s : string) : bool :=
  match s with EmptyString => true | String c r => lower_hex_char c && all_lower_hex r end.

(** [RECORD_HASH_RE] *)
Definition is_record_hash (s : string) : bool := (String.length s =? 64)%nat && all_lower_hex s.

(** [[...new Set(l)]]: the first occurrence of each element. *)
Fixpoint set_from (seen l : list string) : list string :=
  match l with
  | [] => []
  | x :: r => if bool_decide (x ∈ seen) then set_from seen r else x :: set_from (x :: seen) r
  end.
Definition js_set (l : list string) : list string := set_from [] l.

(** [l.slice().sort()] *)
Definition sort_strings (l : list string) : list string :=
  map fst (sort_fields (map (λ s, (s, tt)) l)).

Definition BUCKET_COUNT : nat := 256.

(** [parseInt(s.slice(0, 2), 16)] of a record hash. *)
Definition bucketIndex (recordHashHex : string) : option nat :=
  match recordHashHex with
  | String a (String b _) =>
      x ← unhex_digit a; y ← unhex_digit b; Some (N.to_nat (16 * x + y))
  | _ => None
  end.

(** An error is the exception the function throws. *)
Definition validatedSet (hashes : list string) : result ae_error (list string) :=
  match List.find (λ h, negb (is_record_hash h)) hashes with
  | Some h => Err (OtherError ("malformed record hash: " +:+ json_string h +:+ " (expected 64 lowercase hex)"))
  | None => Ok (js_set hashes)
  end.

Definition bucket (hashes : list string) (i : nat) : list string :=
  List.filter (λ h, bool_decide (bucketIndex h = Some i)) hashes.

Definition missingLocally (mine peer : list string) : list string :=
  js_set (List.filter (λ h, negb (bool_decide (h ∈ mine))) peer).

Definition differingBuckets (a b : list string) : list nat :=
  List.filter (λ i, negb (bool_decide (a !! i = b !! i))) (seq 0 BUCKET_COUNT).

Definition versionKeysToPull (mine peer : jsmap string string) : list string :=
  map fst (List.filter (λ e : string * string, negb (bool_decide (jget mine e.1 = Some e.2))) peer).

(** [normalize] of ae-mutable-version.ts. *)
Definition normalize (v : row_value) : CanonicalValue :=
  match v with
  | RvUndef => CvNull
  | RvCanon (CvBool b) => CvStr (if b then "true" else "false")
  | RvDate ms => CvStr (pretty ms)
  | RvCanon c => c
  end.

Definition row_get (row : MutableRow) (col : string) : row_value :=
  match List.find (λ e, bool_decide (e.1 = col)) row with Some e => e.2 | None => RvUndef end.

(** [String(v)] *)
Definition value_string (v : CanonicalValue) : string :=
  match v with CvStr s => s | CvBool true => "true" | CvBool false => "false" | CvNull => "null" end.

Fixpoint join_with (sep : string) (l : list string) : string :=
  match l with [] => EmptyString | [x] => x | x :: r => x +:+ (sep +:+ join_with sep r) end.

Definition version_fields (spec : TierBVersionSpec) (row : MutableRow) : fields_t :=
  map (λ col, (col, normalize (row_get row col))) (versionColumns spec).

(** ** Round state *)

(** What a peer advertises: a digest, and a fetch of the detail that may fail. *)
Record LocalRoundState : Type := mkLocal {
  l_tierA : jsmap string (list string);
  l_tierB : jsmap string (jsmap string string);
  unreadableA : list string;
  unreadableB : list string;
}.

Record PeerRoundState : Type := mkPeer {
  p_tierA : jsmap string (string * (unit → result ae_error (list string)));
  p_tierB : jsmap string (string * (unit → result ae_error (jsmap string string)));
}.

Record RoundPlan : Type := mkPlan {
  planA : jsmap string (list string);
  planB : jsmap string (list string);
}.

Section Hashes.
Variable H : string → string.
Variable nfc : string → string.

(** * Record hashes *)

Definition RECORD_HASH_DOMAIN : string := "cello-ae-record-v1".

Definition cv_text (v : CanonicalValue) : string :=
  match v with CvStr s => json_string s | CvBool true => "true" | CvBool false => "false" | CvNull => "null" end.

Definition cv_nfc (v : CanonicalValue) : CanonicalValue :=
  match v with CvStr s => CvStr (nfc s) | _ => v end.

Definition nfc_fields (fs : fields_t) : fields_t := map (λ e, (e.1, cv_nfc e.2)) fs.

(** A value of the outer object: a string, or the fields. *)
Definition nested_text (v : CanonicalValue + fields_t) : string :=
  match v with inl c => cv_text c | inr fs => object_text cv_text fs end.

(** The canonical JSON, keys sorted at both levels: [d], [f], [t]. *)
Definition canonical_record (tbl : string) (fs : fields_t) : string :=
  object_text nested_text
    [("d", inl (CvStr (nfc RECORD_HASH_DOMAIN)));
     ("f", inr (sort_fields (nfc_fields fs)));
     ("t", inl (CvStr (nfc tbl)))].

Definition recordHash (tbl : string) (fs : fields_t) : string := H (canonical_record tbl fs).

(** * Digests *)

Definition bucket_text (hashes : list string) (i : nat) : string := sjoin (sort_strings (bucket hashes i)).

Definition bucketDigests (hashes : list string) : result ae_error (list string) :=
  s ← validatedSet hashes; Ok (map (λ i, H (bucket_text s i)) (seq 0 BUCKET_COUNT)).

Definition tableDigest (buckets : list string) : string := H (sjoin buckets).

Definition computeTableDigest (hashes : list string) : result ae_error string :=
  b ← bucketDigests hashes; Ok (tableDigest b).

Definition versions_text (versions : jsmap string string) : string :=
  array_text (λ e : string * string, array_text json_string [e.1; e.2]) (sort_fields versions).

Definition tierBTableDigest (versions : jsmap string string) : string := H (versions_text versions).

Definition encodeTierBVersion (spec : TierBVersionSpec) (row : MutableRow) : string * string :=
  (join_with (String "000" EmptyString) (map (λ k, value_string (normalize (row_get row k))) (key spec)),
   recordHash (table spec) (version_fields spec row)).

(** * The plan of a round *)

Fixpoint plan_tierA (l : LocalRoundState)
    (adv : jsmap string (string * (unit → result ae_error (list string)))) (plan : jsmap string (list string))
    : result ae_error (jsmap string (list string)) :=
  match adv with
  | [] => Ok plan
  | (tbl, (digest, recordHashes)) :: rest =>
      if bool_decide (tbl ∈ unreadableA l) then plan_tierA l rest plan
      else
        let localHashes := default [] (jget (l_tierA l) tbl) in
        mine ← computeTableDigest localHashes;
        if bool_decide (digest = mine) then plan_tierA l rest plan
        else
          theirs ← recordHashes tt;
          let pull := missingLocally localHashes theirs in
          plan_tierA l rest (if (0 <? length pull)%nat then jset plan tbl pull else plan)
  end.

Fixpoint plan_tierB (l : LocalRoundState)
    (adv : jsmap string (string * (unit → result ae_error (jsmap string string))))
    (plan : jsmap string (list string)) : result ae_error (jsmap string (list string)) :=
  match adv with
  | [] => Ok plan
  | (tbl, (digest, versions)) :: rest =>
      if bool_decide (tbl ∈ unreadableB l) then plan_tierB l rest plan
      else
        let localVersions := default [] (jget (l_tierB l) tbl) in
        if bool_decide (digest = tierBTableDigest localVersions) then plan_tierB l rest plan
        else
          theirs ← versions tt;
          let pull := versionKeysToPull localVersions theirs in
          plan_tierB l rest (if (0 <? length pull)%nat then jset plan tbl pull else plan)
  end.

Definition planRound (l : LocalRoundState) (peer : PeerRoundState) : result ae_error RoundPlan :=
  a ← plan_tierA l (p_tierA peer) [];
  b ← plan_tierB l (p_tierB peer) [];
  Ok (mkPlan a b).

End Hashes.
End Reconcile.
