(* ===== verification/ReconcileTheorems.v ===== *)
(** Properties of the comparison of two nodes: content addresses and digests are
    independent of order and determine what they summarize, the plan of a round
    asks for exactly what is missing, and converged tables cost one digest. *)
From Stdlib Require Import Ascii.
From S2P Require Import Prelude Text JsMap Json Reconcile.
Import Text JsMap Json Reconcile.

Module ReconcileTheorems.

(** * Sets and sorted lists of strings *)

Lemma set_from_elem seen l x : x ∈ set_from seen l ↔ x ∈ l ∧ x ∉ seen.
Proof.
  revert seen. induction l as [|y l IH]; intros seen; cbn.
  { split; [intros ?%not_elem_of_nil; done|]. intros [?%not_elem_of_nil _]. done. }
  destruct (bool_decide (y ∈ seen)) eqn:E; bools.
  - rewrite IH, elem_of_cons. split; [naive_solver|]. intros [[->|?] ?]; done.
  - rewrite elem_of_cons, IH. destruct (decide (x = y)); set_solver.
Qed.

Lemma js_set_elem l x : x ∈ js_set l ↔ x ∈ l.
Proof. unfold js_set. rewrite set_from_elem. split; [tauto|]. intros ?. split; [done|apply not_elem_of_nil]. Qed.

Lemma set_from_NoDup seen l : NoDup (set_from seen l).
Proof.
  revert seen. induction l as [|y l IH]; intros seen; cbn; [constructor|].
  destruct (bool_decide (y ∈ seen)); [apply IH|]. apply list.NoDup_cons. split; [|apply IH].
  rewrite set_from_elem. intros [_ Hn]. apply Hn. left.
Qed.

Lemma js_set_NoDup l : NoDup (js_set l).
Proof. apply set_from_NoDup. Qed.

Lemma sort_strings_perm l : sort_strings l ≡ₚ l.
Proof.
  unfold sort_strings. rewrite sort_fields_perm, map_map. cbn. by rewrite map_id.
Qed.

Lemma sort_strings_unique l l' : NoDup l → l ≡ₚ l' → sort_strings l = sort_strings l'.
Proof.
  intros Hd E. unfold sort_strings. f_equal. apply sort_fields_unique; [|by rewrite E].
  rewrite map_map. cbn. by rewrite map_id.
Qed.

Lemma filter_NoDup (P : string → bool) l : NoDup l → NoDup (List.filter P l).
Proof. rewrite !NoDup_ListNoDup. apply List.NoDup_filter. Qed.

Section Records.
Variable H : string → string.
Variable nfc : string → string.

(** * Record hashes *)

Lemma cv_text_delimiting : self_delimiting cv_text.
Proof.
  intros [s|[]|] [s'|[]|] r r' E; cbn [cv_text] in E; try (by injection E);
    try (by unfold json_string in E; cbn in E).
  apply json_string_inj in E as [-> ->]. done.
Qed.

Lemma nested_text_delimiting : self_delimiting nested_text.
Proof.
  intros [v|fs] [v'|fs'] r r' E; cbn [nested_text] in E.
  - by apply cv_text_delimiting in E as [-> ->].
  - destruct v as [s|[]|]; by injection E.
  - destruct v' as [s|[]|]; by injection E.
  - apply object_delimiting in E as [-> ->]; [done|exact cv_text_delimiting].
Qed.

Lemma canonical_record_inj t t' fs fs' :
  canonical_record nfc t fs = canonical_record nfc t' fs' →
  nfc t = nfc t' ∧ sort_fields (nfc_fields nfc fs) = sort_fields (nfc_fields nfc fs').
Proof.
  intros E. apply object_text_inj in E; [|exact nested_text_delimiting]. injection E as Ef Et. done.
Qed.

Lemma record_hash_exact t t' fs fs' :
  (NoDup (map fst fs) → fs ≡ₚ fs' → recordHash H nfc t fs = recordHash H nfc t fs') ∧
  (recordHash H nfc t fs = recordHash H nfc t' fs' →
   (nfc t = nfc t' ∧ nfc_fields nfc fs ≡ₚ nfc_fields nfc fs') ∨
   collision_among H [canonical_record nfc t fs; canonical_record nfc t' fs']).
Proof.
  split.
  - intros Hd E. unfold recordHash, canonical_record.
    assert (sort_fields (nfc_fields nfc fs) = sort_fields (nfc_fields nfc fs')) as ->; [|done].
    apply sort_fields_unique; [|by apply Permutation_map].
    unfold nfc_fields. rewrite map_map. exact Hd.
  - intros E. destruct (collision_or_eq H [canonical_record nfc t fs; canonical_record nfc t' fs']
      (canonical_record nfc t fs) (canonical_record nfc t' fs')) as [Et|]; [left|right; left|done| |by right].
    left. apply canonical_record_inj in Et as [Et Ef]. split; [done|].
    by rewrite <- (sort_fields_perm (nfc_fields nfc fs)), Ef, sort_fields_perm.
Qed.

(** A record hash is a content address.  It does not depend on the order of the
    columns; and if two records have one hash, then they are of the same table
    and have the same columns with the same values, up to Unicode
    normalization of the values, or their two canonical texts collide. *)
Theorem record_hash_is_address t t' fs fs' :
  (NoDup (map fst fs) → fs ≡ₚ fs' → recordHash H nfc t fs = recordHash H nfc t fs') ∧
  (recordHash H nfc t fs = recordHash H nfc t' fs' →
   (nfc t = nfc t' ∧ nfc_fields nfc fs ≡ₚ nfc_fields nfc fs') ∨
   collision_among H [canonical_record nfc t fs; canonical_record nfc t' fs']).
Proof. apply record_hash_exact. Qed.

(** ** Versions of mutable rows *)

(** A version hash speaks for every column of its table's spec.  Two rows whose
    version columns agree, up to the typing of the driver and Unicode
    normalization, have one version hash; and rows with one version hash agree
    on every version column in that sense, or their canonical texts collide. *)
Theorem version_hash_spec spec row row' :
  NoDup (versionColumns spec) →
  ((∀ c, c ∈ versionColumns spec →
      cv_nfc nfc (normalize (row_get row c)) = cv_nfc nfc (normalize (row_get row' c))) →
   (encodeTierBVersion H nfc spec row).2 = (encodeTierBVersion H nfc spec row').2) ∧
  ((encodeTierBVersion H nfc spec row).2 = (encodeTierBVersion H nfc spec row').2 →
   (∀ c, c ∈ versionColumns spec →
      cv_nfc nfc (normalize (row_get row c)) = cv_nfc nfc (normalize (row_get row' c))) ∨
   collision_among H [canonical_record nfc (table spec) (version_fields spec row);
                      canonical_record nfc (table spec) (version_fields spec row')]).
Proof.
  intros Hd. cbn [encodeTierBVersion snd].
  assert (∀ r, map fst (nfc_fields nfc (version_fields spec r)) = versionColumns spec) as HK.
  { intros r. unfold nfc_fields, version_fields. rewrite !map_map. cbn. apply map_id. }
  split.
  - intros E. unfold recordHash, canonical_record. do 7 f_equal.
    unfold nfc_fields, version_fields. rewrite !map_map. apply map_ext_in.
    intros c Hc. cbn. rewrite E; [done|]. by apply list_elem_of_In.
  - intros E. destruct (record_hash_exact (table spec) (table spec) (version_fields spec row)
      (version_fields spec row')) as [_ Hr]. destruct (Hr E) as [[_ Ep]|]; [left|by right].
    intros c Hc. assert (∀ r, (c, cv_nfc nfc (normalize (row_get r c))) ∈ nfc_fields nfc (version_fields spec r)) as Hin.
    { intros r. unfold nfc_fields, version_fields. rewrite map_map. cbn.
      by apply (list_elem_of_fmap_2 (λ x, (x, cv_nfc nfc (normalize (row_get r x))))). }
    pose proof (Hin row) as H1. rewrite Ep in H1. pose proof (Hin row') as H2.
    assert (jwf (nfc_fields nfc (version_fields spec row'))) as Hw by (unfold jwf, jkeys; by rewrite HK).
    apply (jget_elem_iff _ _ _ Hw) in H1, H2. congruence.
Qed.

End Records.

(** * Digests *)

Section Digests.
Variable H : string → string.

Definition same_set (l l' : list string) : Prop := ∀ x, x ∈ l ↔ x ∈ l'.

Lemma same_set_perm l l' : same_set l l' → js_set l ≡ₚ js_set l'.
Proof.
  intros E. apply NoDup_Permutation; [apply js_set_NoDup..|]. intros x. by rewrite !js_set_elem.
Qed.

Lemma bucket_text_perm l l' i : NoDup l → l ≡ₚ l' → bucket_text l i = bucket_text l' i.
Proof.
  intros Hd E. unfold bucket_text. f_equal. apply sort_strings_unique; [by apply filter_NoDup|].
  unfold bucket. clear Hd. induction E as [|x l l' _ IH|x y l|l1 l2 l3 _ IH1 _ IH2]; cbn.
  - done.
  - destruct (bool_decide _); [by constructor|done].
  - destruct (bool_decide (bucketIndex y = _)), (bool_decide (bucketIndex x = _)); try done. constructor.
  - by rewrite IH1.
Qed.

(** Everything hashed for the digest of a set. *)
Definition digest_inputs (l : list string) : list string :=
  let texts := map (bucket_text (js_set l)) (seq 0 BUCKET_COUNT) in
  sjoin (map H texts) :: texts.

Lemma validated_ok l s :
  validatedSet l = Ok s ↔ Forall (λ h, is_record_hash h = true) l ∧ s = js_set l.
Proof.
  unfold validatedSet. destruct (List.find _ l) as [h|] eqn:E.
  - split; [done|]. intros [HF _]. apply find_some_elem in E as [Hh Eh]. bools.
    rewrite list.Forall_forall in HF. apply HF in Hh. cbn in Eh. congruence.
  - split.
    + intros ->%Ok_inj. split; [|done]. apply list.Forall_forall. intros h Hh%list_elem_of_In.
      apply negb_false_iff. exact (List.find_none _ _ E h Hh).
    + by intros [_ ->].
Qed.

Lemma buckets_ok l b :
  bucketDigests H l = Ok b ↔
  Forall (λ h, is_record_hash h = true) l ∧ b = map H (map (bucket_text (js_set l)) (seq 0 BUCKET_COUNT)).
Proof.
  unfold bucketDigests. rewrite map_map. destruct (validatedSet l) as [s|e] eqn:E; cbn [mbind result_bind].
  - apply validated_ok in E as [HF ->]. split; [by intros <-%Ok_inj|by intros [_ ->]].
  - split; [done|]. intros [HF _]. rewrite (proj2 (validated_ok l _) (conj HF eq_refl)) in E. done.
Qed.

Lemma digest_ok l d :
  computeTableDigest H l = Ok d ↔
  Forall (λ h, is_record_hash h = true) l ∧
  d = H (sjoin (map H (map (bucket_text (js_set l)) (seq 0 BUCKET_COUNT)))).
Proof.
  unfold computeTableDigest, tableDigest. destruct (bucketDigests H l) as [b|e] eqn:E; cbn [mbind result_bind].
  - apply buckets_ok in E as [HF ->]. split; [by intros <-%Ok_inj|by intros [_ ->]].
  - split; [done|]. intros [HF ->]. rewrite (proj2 (buckets_ok l _) (conj HF eq_refl)) in E. done.
Qed.

(** A valid record hash falls into one of the 256 buckets. *)
Lemma bucketIndex_some h : is_record_hash h = true → ∃ i, bucketIndex h = Some i ∧ i < BUCKET_COUNT.
Proof.
  unfold is_record_hash. intros Hh. bools. destruct h as [|a [|b r]]; [done..|].
  cbn [all_lower_hex] in *. bools. cbn [bucketIndex].
  assert (∀ c, lower_hex_char c = true → ∃ x, unhex_digit c = Some x ∧ (x < 16)%N) as Hc.
  { intros c. destruct c as [[][][][][][][][]]; intros E; try discriminate E;
      eexists; (split; [reflexivity|reflexivity]). }
  destruct (Hc a) as (x & -> & Hx); [done|]. destruct (Hc b) as (y & -> & Hy); [done|].
  cbn [mbind option_bind]. eexists. split; [done|]. unfold BUCKET_COUNT. lia.
Qed.

Lemma bucket_width l i :
  Forall (λ h, is_record_hash h = true) l →
  Forall (λ s, String.length s = 64) (sort_strings (bucket (js_set l) i)).
Proof.
  intros Hl. rewrite sort_strings_perm. apply list.Forall_forall. intros x [Hx _]%filter_elem.
  apply (js_set_elem l) in Hx. rewrite list.Forall_forall in Hl. apply Hl in Hx.
  unfold is_record_hash in Hx. by bools.
Qed.

(** Equal bucket texts hold the same hashes. *)
Lemma bucket_text_inj l l' i x :
  Forall (λ h, is_record_hash h = true) l → Forall (λ h, is_record_hash h = true) l' →
  bucket_text (js_set l) i = bucket_text (js_set l') i → bucketIndex x = Some i → x ∈ l ↔ x ∈ l'.
Proof.
  intros Hl Hl' E Hx. apply (sjoin_inj_width 64) in E; [|done|by apply bucket_width..].
  assert (bucket (js_set l) i ≡ₚ bucket (js_set l') i) as Ep
    by (by rewrite <- (sort_strings_perm (bucket (js_set l) i)), E, sort_strings_perm).
  assert (∀ k, x ∈ k ↔ x ∈ bucket (js_set k) i) as HB.
  { intros k. unfold bucket. rewrite filter_elem, js_set_elem, bool_decide_eq_true. tauto. }
  by rewrite (HB l), (HB l'), Ep.
Qed.

Lemma lookup_map_seq {A} (f : nat → A) n i : i < n → map f (seq 0 n) !! i = Some (f i).
Proof. intros Hi. rewrite list_lookup_fmap, lookup_seq_lt by done. done. Qed.

Lemma map_eq_at {A} (f g : nat → A) n i :
  i < n → map f (seq 0 n) = map g (seq 0 n) → f i = g i.
Proof.
  intros Hi E. apply (f_equal (λ l, l !! i)) in E.
  rewrite !lookup_map_seq in E by done. by injection E.
Qed.

Lemma hash_list_inj (texts texts' : list string) inputs :
  texts ⊆ inputs → texts' ⊆ inputs → map H texts = map H texts' →
  texts = texts' ∨ collision_among H inputs.
Proof.
  revert texts'. induction texts as [|x texts IH]; intros [|y texts'] Hs Hs' E; try done; [by left|].
  cbn in E. injection E as E1 E2.
  destruct (collision_or_eq H inputs x y) as [->|]; [apply Hs; left|apply Hs'; left|done| |by right].
  destruct (IH texts') as [->|]; [| |done|by left|by right]; intros z Hz; [apply Hs|apply Hs']; by right.
Qed.

Lemma table_digest_exact l l' d d' :
  (∀ x, String.length (H x) = 64) →
  computeTableDigest H l = Ok d → computeTableDigest H l' = Ok d' →
  (same_set l l' → d = d') ∧
  (d = d' → same_set l l' ∨ collision_among H (digest_inputs l ++ digest_inputs l')).
Proof.
  intros HW E E'. apply digest_ok in E as [Hl ->]. apply digest_ok in E' as [Hl' ->]. split.
  - intros Hs. do 3 f_equal. apply map_ext. intros i. apply bucket_text_perm; [apply js_set_NoDup|].
    by apply same_set_perm.
  - intros E. set (texts := map (bucket_text (js_set l)) (seq 0 BUCKET_COUNT)) in *.
    set (texts' := map (bucket_text (js_set l')) (seq 0 BUCKET_COUNT)) in *.
    destruct (collision_or_eq H (digest_inputs l ++ digest_inputs l') (sjoin (map H texts))
      (sjoin (map H texts'))) as [Ej|]; [| |done| |by right].
    { rewrite elem_of_app. left. left. } { rewrite elem_of_app. right. left. }
    apply (sjoin_inj_width 64) in Ej; [|done|by apply Forall_map, list.Forall_forall|by apply Forall_map, list.Forall_forall].
    destruct (hash_list_inj texts texts' (digest_inputs l ++ digest_inputs l')) as [Et|]; [| |done| |by right].
    { intros z Hz. rewrite elem_of_app. left. by right. } { intros z Hz. rewrite elem_of_app. right. by right. }
    left. intros x. split; intros Hx.
    + assert (is_record_hash x = true) as Hv by (rewrite list.Forall_forall in Hl; by apply Hl).
      destruct (bucketIndex_some x Hv) as (i & Hi & Hlt). apply (bucket_text_inj l l' i); try done.
      by apply (map_eq_at _ _ BUCKET_COUNT).
    + assert (is_record_hash x = true) as Hv by (rewrite list.Forall_forall in Hl'; by apply Hl').
      destruct (bucketIndex_some x Hv) as (i & Hi & Hlt). apply (bucket_text_inj l l' i); try done.
      by apply (map_eq_at _ _ BUCKET_COUNT).
Qed.

(** The table digest is a digest of the set of record hashes: it is the same for
    any two lists with the same elements, in any order and with repetitions,
    and two nodes with equal digests hold the same hashes, or two of the
    strings hashed for the digests collide.  So a table skipped as converged
    has converged. *)
Theorem table_digest_spec l l' d d' :
  (∀ x, String.length (H x) = 64) →
  computeTableDigest H l = Ok d → computeTableDigest H l' = Ok d' →
  (same_set l l' → d = d') ∧
  (d = d' → same_set l l' ∨ collision_among H (digest_inputs l ++ digest_inputs l')).
Proof. apply table_digest_exact. Qed.

(** The drill-down finds everything: a record hash that only the peer holds lies in
    a bucket whose digests differ, or two of the hashed strings collide. *)
Theorem missing_in_differing_bucket mine peer dm dp h :
  bucketDigests H mine = Ok dm → bucketDigests H peer = Ok dp →
  h ∈ missingLocally mine peer →
  (∃ i, bucketIndex h = Some i ∧ i ∈ differingBuckets dm dp) ∨
  collision_among H (digest_inputs mine ++ digest_inputs peer).
Proof.
  intros Em Ep Hh. apply buckets_ok in Em as [Fm ->]. apply buckets_ok in Ep as [Fp ->].
  apply (js_set_elem _ h), filter_elem in Hh as [Hp Hm]. bools.
  destruct (bucketIndex_some h) as (i & Hi & Hlt); [by rewrite list.Forall_forall in Fp; apply Fp|].
  destruct (decide (H (bucket_text (js_set mine) i) = H (bucket_text (js_set peer) i))) as [E|E].
  - right. exists (bucket_text (js_set mine) i), (bucket_text (js_set peer) i).
    assert (i ∈ seq 0 BUCKET_COUNT) as Hs by (apply elem_of_seq; lia).
    split; [rewrite elem_of_app; left; right; by apply (list_elem_of_fmap_2 (bucket_text (js_set mine)))|].
    split; [rewrite elem_of_app; right; right; by apply (list_elem_of_fmap_2 (bucket_text (js_set peer)))|].
    split; [|done]. intros Et. apply Hm. by apply (bucket_text_inj mine peer i).
  - left. exists i. split; [done|]. unfold differingBuckets. apply list_elem_of_In, List.filter_In.
    split; [apply List.in_seq; lia|]. apply negb_true_iff, bool_decide_eq_false.
    rewrite !map_map, !lookup_map_seq by done. congruence.
Qed.

End Digests.

(** * What is pulled *)

Lemma missing_locally_exact mine peer :
  NoDup (missingLocally mine peer) ∧
  (∀ h, h ∈ missingLocally mine peer ↔ h ∈ peer ∧ h ∉ mine) ∧
  (∀ h, h ∈ mine ++ missingLocally mine peer ↔ h ∈ mine ∨ h ∈ peer).
Proof.
  assert (∀ h, h ∈ missingLocally mine peer ↔ h ∈ peer ∧ h ∉ mine) as E.
  { intros h. unfold missingLocally. rewrite js_set_elem, filter_elem, negb_true_iff, bool_decide_eq_false. done. }
  split; [apply js_set_NoDup|]. split; [done|]. intros h. rewrite elem_of_app, E.
  destruct (decide (h ∈ mine)); tauto.
Qed.

(** The set difference: what is missing locally is what the peer holds and the
    local node does not, each hash once; and pulling it makes the local set the
    union of both. *)
Theorem missing_locally_spec mine peer :
  NoDup (missingLocally mine peer) ∧
  (∀ h, h ∈ missingLocally mine peer ↔ h ∈ peer ∧ h ∉ mine) ∧
  (∀ h, h ∈ mine ++ missingLocally mine peer ↔ h ∈ mine ∨ h ∈ peer).
Proof. apply missing_locally_exact. Qed.

Lemma version_keys_elem mine peer k :
  jwf peer →
  k ∈ versionKeysToPull mine peer ↔ ∃ v, jget peer k = Some v ∧ jget mine k ≠ Some v.
Proof.
  intros Hp. unfold versionKeysToPull. change (@map (string * string) string) with (@fmap list _ (string * string) string).
  rewrite list_elem_of_fmap. split.
  - intros ([k' v] & -> & Hin). apply list_elem_of_In, List.filter_In in Hin as [Hin Hb].
    apply list_elem_of_In in Hin. bools. exists v. split; [by apply jget_elem_iff|done].
  - intros (v & Hv & Hn). exists (k, v). split; [done|]. apply list_elem_of_In, List.filter_In.
    split; [by apply list_elem_of_In, jget_elem|]. by apply negb_true_iff, bool_decide_eq_false.
Qed.

Lemma version_keys_NoDup mine peer : jwf peer → NoDup (versionKeysToPull mine peer).
Proof. intros Hp. unfold versionKeysToPull. exact (jwf_filter _ peer Hp). Qed.

Section Plans.
Variable H : string → string.

Lemma version_map_exact mine peer :
  jwf mine → jwf peer →
  (∀ k, k ∈ versionKeysToPull mine peer ↔ ∃ v, jget peer k = Some v ∧ jget mine k ≠ Some v) ∧
  (versionKeysToPull mine peer = [] ↔ ∀ k v, jget peer k = Some v → jget mine k = Some v) ∧
  ((∀ k, jget mine k = jget peer k) → tierBTableDigest H mine = tierBTableDigest H peer) ∧
  (tierBTableDigest H mine = tierBTableDigest H peer →
   (∀ k, jget mine k = jget peer k) ∨ collision_among H [versions_text mine; versions_text peer]).
Proof.
  intros Hm Hp. pose proof (λ k, version_keys_elem mine peer k Hp) as HK.
  assert ((∀ k, jget mine k = jget peer k) ↔ mine ≡ₚ peer) as HE.
  { split.
    - intros E. apply NoDup_Permutation.
      + by apply NoDup_fmap_1 in Hm.
      + by apply NoDup_fmap_1 in Hp.
      + intros [k v]. by rewrite <- !jget_elem_iff, E.
    - intros E k. apply option_eq. intros v. rewrite !jget_elem_iff by done. by rewrite E. }
  split; [done|]. split; [|split].
  - split.
    + intros E k v Hv. destruct (decide (jget mine k = Some v)) as [|Hn]; [done|].
      assert (k ∈ versionKeysToPull mine peer) as Hin by (apply HK; eauto). rewrite E in Hin.
      by apply not_elem_of_nil in Hin.
    + intros Hall. destruct (versionKeysToPull mine peer) as [|k l] eqn:E; [done|].
      destruct (proj1 (HK k)) as (v & Hv & Hn); [left|]. by apply Hall in Hv.
  - intros E. apply HE in E. unfold tierBTableDigest, versions_text.
    by rewrite (sort_fields_unique _ _ Hm E).
  - intros E. destruct (collision_or_eq H [versions_text mine; versions_text peer]
      (versions_text mine) (versions_text peer)) as [Et|]; [left|right; left|done| |by right].
    left. apply HE. rewrite <- (sort_fields_perm mine), <- (sort_fields_perm peer).
    assert (sort_fields mine = sort_fields peer) as ->; [|done].
    assert (self_delimiting (λ e : string * string, array_text json_string [e.1; e.2])) as HD.
    { intros [a b] [a' b'] r r' E1. unfold array_text in E1. cbn [fst snd comma_sep] in E1.
      rewrite !str_app_assoc in E1. apply str_app_inj_l in E1. apply json_string_inj in E1 as [-> E1].
      apply str_app_inj_l in E1. apply json_string_inj in E1 as [-> E1].
      by apply str_app_inj_l in E1 as ->. }
    unfold versions_text, array_text in Et. apply str_app_inj_l in Et.
    apply comma_sep_inj in Et as [Et _]; [exact Et|exact HD|done| |];
      intros [a b] s; unfold array_text; done.
Qed.

(** Version maps: the keys to pull are those whose version the local node lacks or
    disagrees with; none is left exactly when the peer's map is contained in
    the local one; and two maps have the same digest exactly when they are the
    same map, unless the two texts that are hashed collide. *)
Theorem version_map_spec mine peer :
  jwf mine → jwf peer →
  (∀ k, k ∈ versionKeysToPull mine peer ↔ ∃ v, jget peer k = Some v ∧ jget mine k ≠ Some v) ∧
  (versionKeysToPull mine peer = [] ↔ ∀ k v, jget peer k = Some v → jget mine k = Some v) ∧
  ((∀ k, jget mine k = jget peer k) → tierBTableDigest H mine = tierBTableDigest H peer) ∧
  (tierBTableDigest H mine = tierBTableDigest H peer →
   (∀ k, jget mine k = jget peer k) ∨ collision_among H [versions_text mine; versions_text peer]).
Proof. apply version_map_exact. Qed.

(** ** The plan *)

Section Plan.
Context {D : Type} (skip : string → bool) (mine : string → result ae_error string)
  (pull : string → D → list string).

(** The loop both tiers share. *)
Fixpoint plan_loop (adv : jsmap string (string * (unit → result ae_error D)))
    (plan : jsmap string (list string)) : result ae_error (jsmap string (list string)) :=
  match adv with
  | [] => Ok plan
  | (t, (digest, fetch)) :: rest =>
      if skip t then plan_loop rest plan
      else
        m ← mine t;
        if bool_decide (digest = m) then plan_loop rest plan
        else
          theirs ← fetch tt;
          plan_loop rest (if (0 <? length (pull t theirs))%nat then jset plan t (pull t theirs) else plan)
  end.

(** The entry of the advertisement asks for a pull of [p]. *)
Definition asks (t : string) (e : string * (unit → result ae_error D)) (p : list string) : Prop :=
  skip t = false ∧ p ≠ [] ∧
  ∃ m theirs, mine t = Ok m ∧ e.1 ≠ m ∧ e.2 tt = Ok theirs ∧ p = pull t theirs.

Lemma asks_skipped t e q : skip t = true → ¬ asks t e q.
Proof. intros E [E' _]. congruence. Qed.

Lemma asks_equal t e q : mine t = Ok e.1 → ¬ asks t e q.
Proof. intros E (_ & _ & m & theirs & E' & Hne & _). congruence. Qed.

Lemma asks_fetched t e q m theirs :
  skip t = false → mine t = Ok m → e.1 ≠ m → e.2 tt = Ok theirs →
  asks t e q ↔ q ≠ [] ∧ q = pull t theirs.
Proof.
  intros Es Em Hne Ef. split.
  - intros (_ & Hq & m' & theirs' & _ & _ & Ef' & ->). rewrite Ef in Ef'. injection Ef' as <-. done.
  - intros [Hq ->]. split; [done|]. split; [done|]. by exists m, theirs.
Qed.

Lemma plan_loop_spec adv plan plan' :
  jwf adv → (∀ t, t ∈ jkeys adv → jget plan t = None) → plan_loop adv plan = Ok plan' →
  ∀ t p, jget plan' t = Some p ↔ jget plan t = Some p ∨ ∃ e, jget adv t = Some e ∧ asks t e p.
Proof.
  revert plan. induction adv as [|[t [digest fetch]] adv IH]; intros plan Hw Hfresh E t' p; cbn [plan_loop] in E.
  { apply Ok_inj in E as <-. cbn. split; [by left|]. by intros [|(? & ? & _)]. }
  unfold jwf, jkeys in Hw. cbn in Hw. apply list.NoDup_cons in Hw as [Hn Hw].
  assert (jget adv t = None) as Hnone by (by apply jget_None).
  assert (∀ plan1, (∀ t0, t0 ∈ jkeys adv → jget plan1 t0 = None) → plan_loop adv plan1 = Ok plan' →
    (∀ q, jget plan1 t = Some q ↔ asks t (digest, fetch) q) → (∀ t0, t0 ≠ t → jget plan1 t0 = jget plan t0) →
    jget plan' t' = Some p ↔ jget plan t' = Some p ∨
      ∃ e, jget ((t, (digest, fetch)) :: adv) t' = Some e ∧ asks t' e p) as K.
  { intros plan1 Hf1 E1 Ht Ho. rewrite (IH plan1 Hw Hf1 E1 t' p). cbn [jget].
    destruct (decide (t = t')) as [<-|Hne].
    - rewrite Hnone, Ht, (Hfresh t) by (unfold jkeys; cbn; left). split.
      + intros [Ha|(? & ? & _)]; [|done]. right. eauto.
      + intros [|(? & E0 & ?)]; [done|]. injection E0 as <-. by left.
    - by rewrite Ho by congruence. }
  assert (∀ t0, t0 ∈ jkeys adv → jget plan t0 = None) as Hf by (intros t0 ?; apply Hfresh; unfold jkeys; cbn; by right).
  assert (jget plan t = None) as Hpt by (apply Hfresh; unfold jkeys; cbn; left).
  destruct (skip t) eqn:Es.
  { apply (K plan Hf E); [|done]. intros q. rewrite Hpt. split; [done|]. by intros ?%asks_skipped. }
  destruct (mine t) as [m|] eqn:Em; [|done]. cbn [mbind result_bind] in E.
  destruct (bool_decide (digest = m)) eqn:Ed; bools.
  { apply (K plan Hf E); [|done]. intros q. rewrite Hpt. split; [done|].
    intros ?%asks_equal; [done|]. by rewrite Em, Ed. }
  destruct (fetch tt) as [theirs|] eqn:Ef; [|done]. cbn [mbind result_bind] in E.
  destruct (pull t theirs) as [|x l] eqn:Ep; cbn [length Nat.ltb Nat.leb] in E.
  - apply (K plan Hf E); [|done]. intros q. rewrite Hpt, (asks_fetched t (digest, fetch) q m theirs Es Em Ed Ef), Ep.
    split; [done|]. by intros [].
  - apply (K _) with (2 := E).
    + intros t0 Ht0. rewrite jget_jset_ne; [by apply Hf|]. intros ->. by apply Hn.
    + intros q. rewrite jget_jset_eq, (asks_fetched t (digest, fetch) q m theirs Es Em Ed Ef), Ep. split.
      * intros [= <-]. done.
      * by intros [_ ->].
    + intros t0 Hne. by rewrite jget_jset_ne.
Qed.

Lemma plan_loop_total adv plan :
  (∀ t e, (t, e) ∈ adv → skip t = false → (∃ m, mine t = Ok m) ∧ (∃ d, e.2 tt = Ok d)) →
  ∃ plan', plan_loop adv plan = Ok plan'.
Proof.
  revert plan. induction adv as [|[t [d f]] adv IH]; intros plan Ht; cbn [plan_loop]; [by eexists|].
  assert (∀ plan, ∃ plan', plan_loop adv plan = Ok plan') as K.
  { intros q. apply IH. intros t' e He. apply (Ht t' e). by right. }
  destruct (skip t) eqn:Es; [apply K|].
  destruct (Ht t (d, f)) as [[m ->] [x Ex]]; [left|done|]. cbn [mbind result_bind].
  destruct (bool_decide (d = m)); [apply K|]. cbn [snd] in Ex. rewrite Ex. apply K.
Qed.

(** Entries that differ only in the fetchers of tables that are skipped or agree. *)
Definition same_needs (a b : string * (string * (unit → result ae_error D))) : Prop :=
  a.1 = b.1 ∧ a.2.1 = b.2.1 ∧
  (skip a.1 = false → mine a.1 ≠ Ok a.2.1 → a.2.2 = b.2.2).

Lemma plan_loop_lazy adv adv' plan :
  Forall2 same_needs adv adv' → plan_loop adv plan = plan_loop adv' plan.
Proof.
  intros HF. revert plan. induction HF as [|[t [d f]] [t' [d' f']] adv adv' (E1 & E2 & E3) _ IH]; intros plan; [done|].
  cbn in E1, E2, E3. subst. cbn [plan_loop]. destruct (skip t'); [apply IH|].
  destruct (mine t') as [m|]; [|done]. cbn [mbind result_bind].
  destruct (bool_decide (d' = m)) eqn:Ed; bools; [apply IH|].
  rewrite E3 by congruence. destruct (f' tt); [|done]. cbn [mbind result_bind]. apply IH.
Qed.
End Plan.

Definition skipA (l : LocalRoundState) (t : string) : bool := bool_decide (t ∈ unreadableA l).
Definition skipB (l : LocalRoundState) (t : string) : bool := bool_decide (t ∈ unreadableB l).
Definition hashesA (l : LocalRoundState) (t : string) : list string := default [] (jget (l_tierA l) t).
Definition versionsB (l : LocalRoundState) (t : string) : jsmap string string := default [] (jget (l_tierB l) t).
Definition mineA (l : LocalRoundState) (t : string) : result ae_error string := computeTableDigest H (hashesA l t).
Definition mineB (l : LocalRoundState) (t : string) : result ae_error string :=
  Ok (tierBTableDigest H (versionsB l t)).

Lemma plan_tierA_loop l adv plan :
  plan_tierA H l adv plan = plan_loop (skipA l) (mineA l) (λ t, missingLocally (hashesA l t)) adv plan.
Proof.
  revert plan. induction adv as [|[t [d f]] adv IH]; intros plan; [done|]. cbn [plan_tierA plan_loop].
  fold (hashesA l t). fold (mineA l t). fold (skipA l t). destruct (skipA l t); [apply IH|].
  destruct (mineA l t); [|done]. cbn [mbind result_bind].
  destruct (bool_decide _); [apply IH|]. destruct (f tt); [|done]. cbn [mbind result_bind]. apply IH.
Qed.

Lemma plan_tierB_loop l adv plan :
  plan_tierB H l adv plan = plan_loop (skipB l) (mineB l) (λ t, versionKeysToPull (versionsB l t)) adv plan.
Proof.
  revert plan. induction adv as [|[t [d f]] adv IH]; intros plan; [done|]. cbn [plan_tierB plan_loop].
  fold (versionsB l t). fold (skipB l t). destruct (skipB l t); [apply IH|]. change (mineB l t) with (@Ok ae_error string (tierBTableDigest H (versionsB l t))). cbn [mbind result_bind].
  destruct (bool_decide _); [apply IH|]. destruct (f tt); [|done]. cbn [mbind result_bind]. apply IH.
Qed.

Lemma plan_exact l peer plan :
  jwf (p_tierA peer) → jwf (p_tierB peer) → planRound H l peer = Ok plan →
  (∀ t p, jget (planA plan) t = Some p ↔ ∃ e, jget (p_tierA peer) t = Some e ∧
     asks (skipA l) (mineA l) (λ t, missingLocally (hashesA l t)) t e p) ∧
  (∀ t p, jget (planB plan) t = Some p ↔ ∃ e, jget (p_tierB peer) t = Some e ∧
     asks (skipB l) (mineB l) (λ t, versionKeysToPull (versionsB l t)) t e p) ∧
  (∀ peer', Forall2 (same_needs (skipA l) (mineA l)) (p_tierA peer) (p_tierA peer') →
     Forall2 (same_needs (skipB l) (mineB l)) (p_tierB peer) (p_tierB peer') →
     planRound H l peer' = Ok plan).
Proof.
  intros HA HB E. unfold planRound in *. rewrite plan_tierA_loop in E.
  destruct (plan_loop _ _ _ (p_tierA peer) []) as [a|] eqn:Ea; [|done]. cbn [mbind result_bind] in E.
  rewrite plan_tierB_loop in E.
  destruct (plan_loop _ _ _ (p_tierB peer) []) as [b|] eqn:Eb; [|done]. cbn in E.
  apply Ok_inj in E as <-. cbn [planA planB]. split; [|split].
  - intros t p. rewrite (plan_loop_spec _ _ _ (p_tierA peer) [] a HA (λ _ _, eq_refl) Ea t p).
    split; [by intros [|]|by right].
  - intros t p. rewrite (plan_loop_spec _ _ _ (p_tierB peer) [] b HB (λ _ _, eq_refl) Eb t p).
    split; [by intros [|]|by right].
  - intros peer' FA FB. rewrite plan_tierA_loop, <- (plan_loop_lazy _ _ _ _ _ _ FA), Ea. cbn [mbind result_bind].
    by rewrite plan_tierB_loop, <- (plan_loop_lazy _ _ _ _ _ _ FB), Eb.
Qed.

(** Planning succeeds when the local hashes are well formed and the peer answers. *)
Lemma plan_total l peer :
  (∀ t e, (t, e) ∈ p_tierA peer → skipA l t = false → (∃ m, mineA l t = Ok m) ∧ (∃ d, e.2 tt = Ok d)) →
  (∀ t e, (t, e) ∈ p_tierB peer → ∃ d, e.2 tt = Ok d) →
  ∃ plan, planRound H l peer = Ok plan.
Proof.
  intros HA HB. unfold planRound. rewrite plan_tierA_loop.
  destruct (plan_loop_total _ _ (λ t, missingLocally (hashesA l t)) _ [] HA) as [a ->]. cbn [mbind result_bind].
  rewrite plan_tierB_loop.
  destruct (plan_loop_total (skipB l) (mineB l) (λ t, versionKeysToPull (versionsB l t)) (p_tierB peer) []) as [b ->].
  - intros t e He _. split; [by eexists|]. by apply (HB t).
  - by eexists.
Qed.

(** The plan of a round.  A table is in the plan with a list of hashes or keys
    exactly when the peer advertises it with a digest that differs from the
    local one, its local read did not fail, and the list is what the peer's
    detail shows to be missing or changed, and not empty.  In particular a
    table that could not be read is never pulled.  And the detail of a table
    that is unreadable or whose digest agrees is not consulted. *)
Theorem plan_spec l peer plan :
  jwf (p_tierA peer) → jwf (p_tierB peer) → planRound H l peer = Ok plan →
  (∀ t p, jget (planA plan) t = Some p ↔ ∃ e, jget (p_tierA peer) t = Some e ∧
     asks (skipA l) (mineA l) (λ t, missingLocally (hashesA l t)) t e p) ∧
  (∀ t p, jget (planB plan) t = Some p ↔ ∃ e, jget (p_tierB peer) t = Some e ∧
     asks (skipB l) (mineB l) (λ t, versionKeysToPull (versionsB l t)) t e p) ∧
  (∀ peer', Forall2 (same_needs (skipA l) (mineA l)) (p_tierA peer) (p_tierA peer') →
     Forall2 (same_needs (skipB l) (mineB l)) (p_tierB peer) (p_tierB peer') →
     planRound H l peer' = Ok plan).
Proof. apply plan_exact. Qed.

End Plans.
(** * Instances at concrete inputs *)

Definition demo_a : string := demo_digest "a".
Definition demo_b : string := demo_digest "b".
Definition demo_c : string := demo_digest "c".

Lemma demo_width x : String.length (demo_digest x) = 64.
Proof. exact (proj1 (demo_digest_hex64 x)). Qed.

Lemma table_digest_spec_witness :
  ∃ d d', computeTableDigest demo_digest [demo_a; demo_b] = Ok d ∧
    computeTableDigest demo_digest [demo_b; demo_a; demo_b] = Ok d' ∧ d = d'.
Proof.
  eexists _, _. split; [reflexivity|]. split; [reflexivity|].
  refine (proj1 (table_digest_spec demo_digest [demo_a; demo_b] [demo_b; demo_a; demo_b] _ _
    demo_width eq_refl eq_refl) _).
  intros x. rewrite !elem_of_cons, elem_of_nil. tauto.
Defined.

Lemma missing_in_differing_bucket_witness :
  ∃ dm dp, bucketDigests demo_digest [demo_a] = Ok dm ∧ bucketDigests demo_digest [demo_a; demo_b] = Ok dp ∧
    ((∃ i, bucketIndex demo_b = Some i ∧ i ∈ differingBuckets dm dp) ∨
     collision_among demo_digest (digest_inputs demo_digest [demo_a] ++ digest_inputs demo_digest [demo_a; demo_b])).
Proof.
  eexists _, _. split; [reflexivity|]. split; [reflexivity|].
  apply (missing_in_differing_bucket demo_digest [demo_a] [demo_a; demo_b] _ _ demo_b eq_refl eq_refl).
  apply (bool_decide_eq_true_1 _). vm_compute. reflexivity.
Defined.

Lemma version_map_spec_witness :
  versionKeysToPull [("k1", "v1"); ("k2", "v2")] [("k2", "v3"); ("k1", "v1")] = ["k2"] ∧
  (tierBTableDigest tag_hash [("k1", "v1"); ("k2", "v2")] = tierBTableDigest tag_hash [("k2", "v2"); ("k1", "v1")]).
Proof.
  split; [reflexivity|].
  refine (proj1 (proj2 (proj2 (version_map_spec tag_hash [("k1", "v1"); ("k2", "v2")] [("k2", "v2"); ("k1", "v1")]
    _ _))) _).
  - apply (bool_decide_eq_true_1 _). vm_compute. reflexivity.
  - apply (bool_decide_eq_true_1 _). vm_compute. reflexivity.
  - intros k. cbn. repeat case_decide; congruence.
Defined.

(** A boolean and its text, a date and its epoch text, have one version. *)
Definition demo_row : MutableRow :=
  [("agent_id", RvCanon (CvStr "agent")); ("paused", RvCanon (CvBool true)); ("burned", RvCanon (CvBool false));
   ("reason", RvCanon CvNull); ("suspension_seq", RvCanon (CvStr "3")); ("origin_node", RvCanon (CvStr "n1"))].
Definition demo_row' : MutableRow :=
  [("origin_node", RvCanon (CvStr "n1")); ("agent_id", RvCanon (CvStr "agent")); ("paused", RvCanon (CvStr "true"));
   ("burned", RvCanon (CvStr "false")); ("reason", RvUndef); ("suspension_seq", RvCanon (CvStr "3"));
   ("updated_at", RvDate 1700000000000)].

Lemma version_hash_spec_witness :
  (encodeTierBVersion tag_hash id SUSPENSION_VERSION_SPEC demo_row).2 =
  (encodeTierBVersion tag_hash id SUSPENSION_VERSION_SPEC demo_row').2.
Proof.
  refine (proj1 (version_hash_spec tag_hash id SUSPENSION_VERSION_SPEC demo_row demo_row' _) _).
  - apply (bool_decide_eq_true_1 _). vm_compute. reflexivity.
  - intros c Hc. cbn [SUSPENSION_VERSION_SPEC versionColumns] in Hc.
    repeat (apply elem_of_cons in Hc as [->|Hc]; [reflexivity|]). by apply not_elem_of_nil in Hc.
Defined.

(** One table to pull, one that cannot be read, one that agrees. *)
Definition demo_local : LocalRoundState :=
  mkLocal [("signals", [demo_a]); ("keys", [demo_b])] [("agent_suspensions", [("agent", "v1")])] ["keys"] [].
Definition demo_peer : PeerRoundState :=
  mkPeer [("signals", ("other", λ _, Ok [demo_a; demo_b])); ("keys", ("other", λ _, Err (OtherError "not reached")))]
    [("agent_suspensions", ("stale", λ _, Ok [("agent", "v2")]))].

Lemma plan_spec_witness :
  planRound demo_digest demo_local demo_peer = Ok (mkPlan [("signals", [demo_b])] [("agent_suspensions", ["agent"])]) ∧
  (∀ p, jget [("signals", [demo_b])] "keys" = Some p ↔ ∃ e, jget (p_tierA demo_peer) "keys" = Some e ∧
     asks (skipA demo_local) (mineA demo_digest demo_local) (λ t, missingLocally (hashesA demo_local t)) "keys" e p).
Proof.
  assert (planRound demo_digest demo_local demo_peer =
    Ok (mkPlan [("signals", [demo_b])] [("agent_suspensions", ["agent"])])) as E by (vm_compute; reflexivity).
  split; [exact E|]. intros p.
  refine (proj1 (plan_spec demo_digest demo_local demo_peer _ _ _ E) "keys" p).
  - apply (bool_decide_eq_true_1 _). vm_compute. reflexivity.
  - apply (bool_decide_eq_true_1 _). vm_compute. reflexivity.
Defined.

End ReconcileTheorems.
