(* ===== verification/Merges.v ===== *)
(** The merges of the mutable tables: the kill switch (packages/directory/src/
    suspension-merge.ts), presence (presence-merge.ts) and node heartbeats
    (directory-node-heartbeat-merge.ts).

    Sequence numbers are integers.  The number a string reads as, [Number(s)], is
    a parameter: a finite double is an integer multiple of 2^-1074, so it is
    given as that integer, and [None] is an infinity or NaN. *)
From S2P Require Import Prelude Text JsMap Json Reconcile.
Import Text JsMap Json Reconcile.

Module Merges.

(** * Suspensions *)

Record SuspensionRecord : Type := mkSuspension {
  agent_id : string;
  paused : bool;
  burned : bool;
  reason : option string;
  authorized_by_account : option string;
  suspension_seq : Z;
  origin_node : string;
}.

Definition SUSPENSION_MERGE_COLUMNS : list string :=
  ["agent_id"; "paused"; "burned"; "reason"; "authorized_by_account"; "suspension_seq"; "origin_node"].

Definition nullable (o : option string) : CanonicalValue :=
  match o with Some s => CvStr s | None => CvNull end.

Definition tiebreak_fields (r : SuspensionRecord) : fields_t :=
  [("agent_id", CvStr (agent_id r));
   ("reason", nullable (reason r));
   ("authorized_by_account", nullable (authorized_by_account r));
   ("origin_node", CvStr (origin_node r));
   ("suspension_seq", CvStr (pretty (suspension_seq r)))].

Section Suspension.
Variable H : string → string.
Variable nfc : string → string.

Definition tiebreakHash (r : SuspensionRecord) : string :=
  recordHash H nfc "agent_suspensions.tiebreak" (tiebreak_fields r).

Definition mergeSuspension (a b : SuspensionRecord) : SuspensionRecord :=
  let bur := burned a || burned b in
  if negb (suspension_seq a =? suspension_seq b)%Z then
    let winner := if (suspension_seq b <? suspension_seq a)%Z then a else b in
    mkSuspension (agent_id winner) (paused winner) bur (reason winner)
      (authorized_by_account winner) (suspension_seq winner) (origin_node winner)
  else
    let pau := paused a || paused b in
    let winner := if str_geb (tiebreakHash a) (tiebreakHash b) then a else b in
    mkSuspension (agent_id winner) pau bur (reason winner)
      (authorized_by_account winner) (suspension_seq winner) (origin_node winner).

End Suspension.

(** * Presence *)

Record PresenceRecord : Type := mkPresence {
  k_local_pubkey : string;
  online : bool;
  owning_node_id : string;
  last_seen_at : string;
  updated_at : string;
}.

Definition PRESENCE_MERGE_COLUMNS : list string :=
  ["k_local_pubkey"; "online"; "owning_node_id"; "last_seen_at"; "updated_at"].

Definition canonical_presence (r : PresenceRecord) : string :=
  array_text cv_text
    [CvStr (k_local_pubkey r); CvBool (online r); CvStr (owning_node_id r);
     CvStr (last_seen_at r); CvStr (updated_at r)].

(** [ta > tb], where [None] is the minus infinity that a non-finite value becomes. *)
Definition ts_gtb (ta tb : option Z) : bool :=
  match ta, tb with
  | Some x, Some y => (y <? x)%Z
  | Some _, None => true
  | None, _ => false
  end.

(** * Node heartbeats *)

Record DirectoryNodeHeartbeatRecord : Type := mkHeartbeat {
  node_id : string;
  status : string;
  last_heartbeat_at : string;
}.

Definition DIRECTORY_NODE_HEARTBEAT_MERGE_COLUMNS : list string :=
  ["node_id"; "status"; "last_heartbeat_at"].

Definition canonical_heartbeat (r : DirectoryNodeHeartbeatRecord) : string :=
  array_text json_string [node_id r; last_heartbeat_at r].

Definition directoryNodeHeartbeatStillDivergent (loc incoming : DirectoryNodeHeartbeatRecord) : bool :=
  negb (bool_decide (status loc = status incoming)).

Section Clock.
Variable number_of : string → option Z.

Definition mergePresence (a b : PresenceRecord) : PresenceRecord :=
  let ta := number_of (updated_at a) in
  let tb := number_of (updated_at b) in
  if negb (bool_decide (ta = tb)) then (if ts_gtb ta tb then a else b)
  else if str_geb (canonical_presence a) (canonical_presence b) then a else b.

Definition mergeDirectoryNodeHeartbeat (a b : DirectoryNodeHeartbeatRecord) : DirectoryNodeHeartbeatRecord :=
  let ta := number_of (last_heartbeat_at a) in
  let tb := number_of (last_heartbeat_at b) in
  if negb (bool_decide (ta = tb)) then
    let winner := if ts_gtb ta tb then a else b in
    mkHeartbeat (node_id winner) (status a) (last_heartbeat_at winner)
  else
    let winner := if str_geb (canonical_heartbeat a) (canonical_heartbeat b) then a else b in
    mkHeartbeat (node_id winner) (status a) (last_heartbeat_at winner).

End Clock.
End Merges.
