(* ===== verification/MergesTheorems.v ===== *)
(** Convergence of the merges: however a set of records is merged, in whatever
    order, grouping and repetition, every node arrives at one row; a burn is
    never lost, a pause loses only to a newer write, and a node's status is
    never moved by a peer. *)
From S2P Require Import Prelude Text JsMap Json Reconcile ReconcileTheorems Merges.
Import Text JsMap Json Reconcile ReconcileTheorems Merges.

Module MergesTheorems.

(** * Merging in any order *)

Section Trees.
Context {R : Type}.

(** A way of merging records: which is merged with which, on which side. *)
Inductive mtree : Type :=
| MLeaf (r : R)
| MNode (l r : mtree).

Fixpoint leaves (t : mtree) : list R :=
  match t with MLeaf r => [r] | MNode l r => leaves l ++ leaves r end.

Fixpoint merged (merge : R → R → R) (t : mtree) : R :=
  match t with MLeaf r => r | MNode l r => merge (merged merge l) (merged merge r) end.

Definition same_records (l l' : list R) : Prop := ∀ r, r ∈ l ↔ r ∈ l'.

Lemma merged_rule (P : list R → R → Prop) merge :
  (∀ r, P [r] r) → (∀ l l' a b, P l a → P l' b → P (l ++ l') (merge a b)) → ∀ t, P (leaves t) (merged merge t).
Proof. intros H1 H2 t. induction t; cbn; auto. Qed.
End Trees.
Arguments mtree R : clear implicits.

(** [w] is the greatest of [l] in a total preorder. *)
Section Greatest.
Context {R : Type} (geb : R → R → bool).
Context (geb_total : ∀ a b, geb a b = false → geb b a = true).
Context (geb_trans : ∀ a b c, geb a b = true → geb b c = true → geb a c = true).

Definition greatest (l : list R) (w : R) : Prop := w ∈ l ∧ ∀ r, r ∈ l → geb w r = true.

Lemma geb_refl a : geb a a = true.
Proof. destruct (geb a a) eqn:E; [done|]. pose proof (geb_total a a E). congruence. Qed.

Lemma greatest_single r : greatest [r] r.
Proof. split; [left|]. intros ? ->%list_elem_of_singleton. apply geb_refl. Qed.

Lemma greatest_pick l l' a b :
  greatest l a → greatest l' b → greatest (l ++ l') (if geb a b then a else b).
Proof.
  intros [Ha Hl] [Hb Hl']. split.
  - rewrite elem_of_app. destruct (geb a b); [by left|by right].
  - intros r [Hr|Hr]%elem_of_app; destruct (geb a b) eqn:E; eauto.
Qed.

Lemma greatest_unique l l' a b :
  same_records l l' → greatest l a → greatest l' b → geb a b = true ∧ geb b a = true.
Proof. intros E [Ha Hl] [Hb Hl']. split; [apply Hl, E, Hb|apply Hl', E, Ha]. Qed.
End Greatest.

(** * Clocked records *)

Section Clock.
Variable number_of : string → option Z.

(** Order by time, then by canonical text. *)
Definition clock_geb {R} (time text : R → string) (a b : R) : bool :=
  let ta := number_of (time a) in
  let tb := number_of (time b) in
  if negb (bool_decide (ta = tb)) then ts_gtb ta tb else str_geb (text a) (text b).

Lemma ts_gtb_total a b : a ≠ b → ts_gtb a b = false → ts_gtb b a = true.
Proof.
  destruct a, b; cbn; try done. intros Hne ?. bools. apply Z.ltb_lt. destruct (decide (z = z0)); [congruence|lia].
Qed.

Lemma ts_gtb_trans a b c : ts_gtb a b = true → ts_gtb b c = true → ts_gtb a c = true.
Proof. destruct a, b, c; cbn; try done. intros. bools. apply Z.ltb_lt. lia. Qed.

Lemma ts_gtb_irrefl a : ts_gtb a a = false.
Proof. destruct a; cbn; [apply Z.ltb_irrefl|done]. Qed.

Lemma clock_geb_total {R} (time text : R → string) a b :
  clock_geb time text a b = false → clock_geb time text b a = true.
Proof.
  unfold clock_geb. destruct (decide (number_of (time a) = number_of (time b))) as [E|E].
  - rewrite !bool_decide_eq_true_2 by congruence. cbn. apply str_geb_total.
  - rewrite !bool_decide_eq_false_2 by congruence. cbn. by apply ts_gtb_total.
Qed.

Lemma clock_geb_trans {R} (time text : R → string) a b c :
  clock_geb time text a b = true → clock_geb time text b c = true → clock_geb time text a c = true.
Proof.
  unfold clock_geb. repeat case_bool_decide; cbn; intros E1 E2; try congruence.
  - by eapply str_geb_trans.
  - assert (number_of (time a) = number_of (time c)) as E by assumption.
    pose proof (ts_gtb_trans _ _ _ E1 E2) as E3. rewrite E, ts_gtb_irrefl in E3. done.
  - by eapply ts_gtb_trans.
Qed.

Lemma clock_geb_antisym {R} (time text : R → string) a b :
  clock_geb time text a b = true → clock_geb time text b a = true → text a = text b.
Proof.
  unfold clock_geb. repeat case_bool_decide; cbn; intros E1 E2; try congruence.
  - by apply str_geb_antisym.
  - pose proof (ts_gtb_trans _ _ _ E1 E2) as E3. by rewrite ts_gtb_irrefl in E3.
Qed.

Lemma canonical_presence_inj a b : canonical_presence a = canonical_presence b → a = b.
Proof.
  unfold canonical_presence. intros E. destruct a, b. cbn in E.
  assert (∀ l l', array_text cv_text l = array_text cv_text l' → l = l') as HA.
  { intros l l' E'. unfold array_text in E'. apply str_app_inj_l in E'.
    apply comma_sep_inj in E' as [? _]; [done|exact cv_text_delimiting|done| |];
      intros [?|[]|] ?; cbn; done. }
  apply HA in E. congruence.
Qed.

Lemma mergePresence_geb a b :
  mergePresence number_of a b = if clock_geb updated_at canonical_presence a b then a else b.
Proof.
  unfold mergePresence, clock_geb. by destruct (negb _).
Qed.

(** Presence converges: two nodes that merged the same records, each in its own
    order and grouping and with repetitions, hold the same row, whatever the
    timestamps say, malformed ones included; the row is one of the records,
    with the latest timestamp, and a finite timestamp beats a malformed one. *)
Theorem presence_converges t t' :
  same_records (leaves t) (leaves t') →
  merged (mergePresence number_of) t = merged (mergePresence number_of) t' ∧
  merged (mergePresence number_of) t ∈ leaves t ∧
  (∀ r, r ∈ leaves t → number_of (updated_at r) = number_of (updated_at (merged (mergePresence number_of) t)) ∨
     ts_gtb (number_of (updated_at (merged (mergePresence number_of) t))) (number_of (updated_at r)) = true).
Proof.
  intros Hs. set (geb := clock_geb updated_at canonical_presence).
  assert (∀ t, greatest geb (leaves t) (merged (mergePresence number_of) t)) as G.
  { intros u. apply merged_rule.
    - intros r. apply greatest_single, clock_geb_total.
    - intros l l' a b Ha Hb. rewrite mergePresence_geb.
      apply greatest_pick; [apply clock_geb_total|apply clock_geb_trans|done..]. }
  split; [|split].
  - destruct (greatest_unique geb _ _ _ _ Hs (G t) (G t')) as [E1 E2].
    by apply canonical_presence_inj, (clock_geb_antisym updated_at).
  - apply G.
  - intros r Hr. apply G in Hr. unfold geb, clock_geb in Hr. case_bool_decide; cbn in Hr; [by left|by right].
Qed.

(** ** Heartbeats *)

Lemma canonical_heartbeat_inj a b :
  canonical_heartbeat a = canonical_heartbeat b →
  node_id a = node_id b ∧ last_heartbeat_at a = last_heartbeat_at b.
Proof. intros E. apply string_array_inj in E. by injection E. Qed.

Fixpoint leftmost {R} (t : mtree R) : R := match t with MLeaf r => r | MNode l _ => leftmost l end.

(** The replicated half of the merge. *)
Definition heartbeat_pick (a b : DirectoryNodeHeartbeatRecord) : DirectoryNodeHeartbeatRecord :=
  if clock_geb last_heartbeat_at canonical_heartbeat a b then a else b.

Lemma mergeHeartbeat_pick a b :
  mergeDirectoryNodeHeartbeat number_of a b =
  mkHeartbeat (node_id (heartbeat_pick a b)) (status a) (last_heartbeat_at (heartbeat_pick a b)).
Proof. unfold mergeDirectoryNodeHeartbeat, heartbeat_pick, clock_geb. by destruct (negb _). Qed.

(** A record that carries the replicated columns of the greatest one. *)
Definition carries (l : list DirectoryNodeHeartbeatRecord) (m : DirectoryNodeHeartbeatRecord) : Prop :=
  ∃ w, greatest (clock_geb last_heartbeat_at canonical_heartbeat) l w ∧
    node_id m = node_id w ∧ last_heartbeat_at m = last_heartbeat_at w.

Lemma carries_merge l l' a b :
  carries l a → carries l' b → carries (l ++ l') (mergeDirectoryNodeHeartbeat number_of a b).
Proof.
  intros (v & Hv & Ea & Ea') (w & Hw & Eb & Eb'). rewrite mergeHeartbeat_pick. cbn.
  exists (if clock_geb last_heartbeat_at canonical_heartbeat v w then v else w). split.
  - apply greatest_pick; [apply clock_geb_total|apply clock_geb_trans|done..].
  - assert (clock_geb last_heartbeat_at canonical_heartbeat a b =
            clock_geb last_heartbeat_at canonical_heartbeat v w) as E.
    { unfold clock_geb, canonical_heartbeat. by rewrite Ea, Ea', Eb, Eb'. }
    unfold heartbeat_pick. rewrite E. by destruct (clock_geb _ _ v w).
Qed.

(** Heartbeats converge and move nothing else: however the same records are
    merged, the node and its freshest heartbeat are the same, while the status
    is always the one of the receiving node's own record, the first operand; so
    a disagreement on the status stays visible after any merge. *)
Theorem heartbeat_converges t t' :
  same_records (leaves t) (leaves t') →
  let m := merged (mergeDirectoryNodeHeartbeat number_of) t in
  let m' := merged (mergeDirectoryNodeHeartbeat number_of) t' in
  node_id m = node_id m' ∧ last_heartbeat_at m = last_heartbeat_at m' ∧
  status m = status (leftmost t) ∧
  (∀ incoming, directoryNodeHeartbeatStillDivergent (mergeDirectoryNodeHeartbeat number_of m incoming) incoming =
     directoryNodeHeartbeatStillDivergent m incoming).
Proof.
  intros Hs m m'.
  assert (∀ u, carries (leaves u) (merged (mergeDirectoryNodeHeartbeat number_of) u)) as G.
  { intros u. apply merged_rule; [|apply carries_merge]. intros r. exists r. split; [|done].
    apply greatest_single, clock_geb_total. }
  destruct (G t) as (w & Hw & E1 & E2), (G t') as (w' & Hw' & E1' & E2').
  destruct (greatest_unique _ _ _ _ _ Hs Hw Hw') as [L1 L2].
  pose proof (clock_geb_antisym _ _ _ _ L1 L2) as E. apply canonical_heartbeat_inj in E as [En Et].
  split; [unfold m, m'; congruence|]. split; [unfold m, m'; congruence|]. split.
  - unfold m. clear. induction t as [r|l IHl r IHr]; [done|]. cbn [merged leftmost].
    rewrite mergeHeartbeat_pick. cbn. exact IHl.
  - intros incoming. unfold directoryNodeHeartbeatStillDivergent. by rewrite mergeHeartbeat_pick.
Qed.

End Clock.

(** * The kill switch *)

Lemma perm_same_keys {V} (l l' : list (string * V)) :
  NoDup (map fst l) → map fst l = map fst l' → l ≡ₚ l' → l = l'.
Proof.
  revert l'. induction l as [|[k v] l IH]; intros [|[k' v'] l'] Hd E Ep; try done.
  cbn in Hd, E. injection E as -> E. apply list.NoDup_cons in Hd as [Hn Hd].
  assert (v = v') as ->.
  { assert ((k', v') ∈ (k', v) :: l) as Hin by (rewrite Ep; left).
    apply elem_of_cons in Hin as [[= ?]|Hin]; [done|]. exfalso. apply Hn.
    by apply (list_elem_of_fmap_2 fst) in Hin. }
  f_equal. apply IH; [done..|]. by apply Permutation_cons_inv in Ep.
Qed.

Section Suspension.
Variable H : string → string.
Variable nfc : string → string.

(** Higher sequence number first, then the greater tiebreak hash. *)
Definition suspension_geb (a b : SuspensionRecord) : bool :=
  if negb (suspension_seq a =? suspension_seq b)%Z then (suspension_seq b <? suspension_seq a)%Z
  else str_geb (tiebreakHash H nfc a) (tiebreakHash H nfc b).

Lemma suspension_geb_total a b : suspension_geb a b = false → suspension_geb b a = true.
Proof.
  unfold suspension_geb. rewrite (Z.eqb_sym (suspension_seq b)).
  destruct (suspension_seq a =? suspension_seq b)%Z eqn:E; cbn.
  - apply str_geb_total.
  - intros ?. bools. apply Z.ltb_lt. lia.
Qed.

Lemma suspension_geb_trans a b c :
  suspension_geb a b = true → suspension_geb b c = true → suspension_geb a c = true.
Proof.
  unfold suspension_geb.
  destruct (suspension_seq a =? suspension_seq b)%Z eqn:E1, (suspension_seq b =? suspension_seq c)%Z eqn:E2,
    (suspension_seq a =? suspension_seq c)%Z eqn:E3; cbn; intros; bools; try lia; try (apply Z.ltb_lt; lia).
  by eapply str_geb_trans.
Qed.

Lemma suspension_geb_seq a b : suspension_geb a b = true → (suspension_seq b <= suspension_seq a)%Z.
Proof. unfold suspension_geb. destruct (_ =? _)%Z eqn:E; cbn; intros; bools; lia. Qed.

Lemma suspension_geb_same a b a' b' :
  tiebreak_fields a = tiebreak_fields a' → suspension_seq a = suspension_seq a' →
  tiebreak_fields b = tiebreak_fields b' → suspension_seq b = suspension_seq b' →
  suspension_geb a b = suspension_geb a' b'.
Proof. unfold suspension_geb, tiebreakHash. by intros -> -> -> ->. Qed.

(** What a merge of the records [l] is. *)
Definition summary (l : list SuspensionRecord) (m : SuspensionRecord) : Prop :=
  (burned m = true ↔ ∃ r, r ∈ l ∧ burned r = true) ∧
  (paused m = true ↔ ∃ r, r ∈ l ∧ suspension_seq r = suspension_seq m ∧ paused r = true) ∧
  ∃ w, greatest suspension_geb l w ∧ suspension_seq m = suspension_seq w ∧ tiebreak_fields m = tiebreak_fields w.

Lemma summary_single r : summary [r] r.
Proof.
  split; [|split].
  - split; [intros ?; exists r; split; [left|done]|]. by intros (? & ->%list_elem_of_singleton & ?).
  - split; [intros ?; exists r; split; [left|done]|]. by intros (? & ->%list_elem_of_singleton & _ & ?).
  - exists r. split; [|done]. apply greatest_single, suspension_geb_total.
Qed.

Lemma summary_bound l m r : summary l m → r ∈ l → (suspension_seq r <= suspension_seq m)%Z.
Proof. intros (_ & _ & w & [_ Hw] & -> & _) Hr. by apply suspension_geb_seq, Hw. Qed.

(** The merge, as a choice of a winner and the two flags. *)
Lemma mergeSuspension_pick a b :
  let w := if suspension_geb a b then a else b in
  let m := mergeSuspension H nfc a b in
  burned m = burned a || burned b ∧ suspension_seq m = suspension_seq w ∧
  tiebreak_fields m = tiebreak_fields w ∧
  paused m = if (suspension_seq a =? suspension_seq b)%Z then paused a || paused b else paused w.
Proof.
  cbn. unfold mergeSuspension, suspension_geb.
  destruct (suspension_seq a =? suspension_seq b)%Z eqn:E; cbn [negb].
  - by destruct (str_geb _ _).
  - by destruct (_ <? _)%Z.
Qed.

Lemma summary_burned l l' a b :
  summary l a → summary l' b →
  burned a || burned b = true ↔ ∃ r, r ∈ l ++ l' ∧ burned r = true.
Proof.
  intros (Ha & _) (Hb & _). rewrite orb_true_iff, Ha, Hb. setoid_rewrite elem_of_app. naive_solver.
Qed.

Lemma summary_paused l l' a b :
  summary l a → summary l' b →
  let m := mergeSuspension H nfc a b in
  paused m = true ↔ ∃ r, r ∈ l ++ l' ∧ suspension_seq r = suspension_seq m ∧ paused r = true.
Proof.
  intros Sa Sb m. pose proof (λ r, summary_bound l a r Sa) as Ba. pose proof (λ r, summary_bound l' b r Sb) as Bb.
  destruct Sa as (_ & Ha & _), Sb as (_ & Hb & _).
  destruct (mergeSuspension_pick a b) as (_ & Es & _ & Ep). fold m in Es, Ep. rewrite Ep, Es. clear Ep Es m.
  setoid_rewrite elem_of_app. unfold suspension_geb.
  destruct (suspension_seq a =? suspension_seq b)%Z eqn:E; cbn [negb]; bools.
  - assert (suspension_seq (if str_geb (tiebreakHash H nfc a) (tiebreakHash H nfc b) then a else b) = suspension_seq a)
      as -> by (destruct (str_geb _ _); congruence).
    rewrite orb_true_iff, Ha, Hb, <- E. naive_solver.
  - destruct (suspension_seq b <? suspension_seq a)%Z eqn:El; bools.
    + rewrite Ha. split; [naive_solver|]. intros (r & [Hr|Hr] & ? & ?); [eauto|]. apply Bb in Hr. lia.
    + rewrite Hb. split; [naive_solver|]. intros (r & [Hr|Hr] & ? & ?); [|eauto]. apply Ba in Hr. lia.
Qed.

Lemma summary_merge l l' a b :
  summary l a → summary l' b → summary (l ++ l') (mergeSuspension H nfc a b).
Proof.
  intros Sa Sb. destruct (mergeSuspension_pick a b) as (Eb & Es & Et & _). split; [|split].
  - rewrite Eb. by apply summary_burned.
  - by apply summary_paused.
  - destruct Sa as (_ & _ & v & Hv & Ea & Fa), Sb as (_ & _ & w & Hw & Ebs & Fb).
    exists (if suspension_geb v w then v else w).
    rewrite <- (suspension_geb_same a b v w) by done. rewrite Es, Et.
    split; [|by destruct (suspension_geb a b)].
    rewrite (suspension_geb_same a b v w) by done.
    apply greatest_pick; [apply suspension_geb_total|apply suspension_geb_trans|done..].
Qed.

Lemma merged_summary t : summary (leaves t) (merged (mergeSuspension H nfc) t).
Proof. apply merged_rule; [apply summary_single|apply summary_merge]. Qed.

(** The same row up to Unicode normalization of its texts. *)
Definition same_row (a b : SuspensionRecord) : Prop :=
  burned a = burned b ∧ paused a = paused b ∧ suspension_seq a = suspension_seq b ∧
  nfc_fields nfc (tiebreak_fields a) = nfc_fields nfc (tiebreak_fields b).

Definition tiebreak_text (r : SuspensionRecord) : string :=
  canonical_record nfc "agent_suspensions.tiebreak" (tiebreak_fields r).

Lemma tiebreak_exact a b :
  tiebreakHash H nfc a = tiebreakHash H nfc b →
  nfc_fields nfc (tiebreak_fields a) = nfc_fields nfc (tiebreak_fields b) ∨
  collision_among H [tiebreak_text a; tiebreak_text b].
Proof.
  intros E. apply (record_hash_exact H nfc) in E as [[_ Ep]|]; [left|by right].
  apply perm_same_keys; [|done|done]. apply (bool_decide_eq_true_1 _). reflexivity.
Qed.

Lemma bool_iff (a b : bool) (P : Prop) : (a = true ↔ P) → (b = true ↔ P) → a = b.
Proof. destruct a, b; naive_solver. Qed.

(** C1. The kill switch converges.  Two nodes that merged the same suspension
    records, in whatever order, grouping and repetition, hold the same row, up
    to Unicode normalization of its texts, unless two of the hashed records
    collide.  The row is burned exactly when some record was, so a burn is
    never undone; its sequence number is the highest; and it is paused exactly
    when some record with that number is, so only a newer write un-pauses. *)
Theorem suspension_converges t t' :
  same_records (leaves t) (leaves t') →
  let m := merged (mergeSuspension H nfc) t in
  let m' := merged (mergeSuspension H nfc) t' in
  (same_row m m' ∨ collision_among H (map tiebreak_text (leaves t))) ∧
  (burned m = true ↔ ∃ r, r ∈ leaves t ∧ burned r = true) ∧
  (∀ r, r ∈ leaves t → (suspension_seq r <= suspension_seq m)%Z) ∧
  (∃ r, r ∈ leaves t ∧ suspension_seq r = suspension_seq m) ∧
  (paused m = true ↔ ∃ r, r ∈ leaves t ∧ suspension_seq r = suspension_seq m ∧ paused r = true).
Proof.
  intros Hs m m'. pose proof (merged_summary t) as S. pose proof (merged_summary t') as S'.
  fold m in S. fold m' in S'. pose proof (λ r, summary_bound _ _ r S) as B.
  destruct S as (Sb & Sp & w & Hw & Ew & Fw). destruct S' as (Sb' & Sp' & w' & Hw' & Ew' & Fw').
  split; [|split; [done|split; [done|split; [|done]]]].
  2:{ exists w. split; [apply Hw|done]. }
  destruct (greatest_unique _ _ _ _ _ Hs Hw Hw') as [L1 L2].
  pose proof (suspension_geb_seq _ _ L1). pose proof (suspension_geb_seq _ _ L2).
  assert (suspension_seq w = suspension_seq w') as Es by lia.
  unfold suspension_geb in L1, L2. rewrite Es, Z.eqb_refl in L1. rewrite Es, Z.eqb_refl in L2. cbn in L1, L2.
  destruct (tiebreak_exact w w' (str_geb_antisym _ _ L1 L2)) as [E|C].
  - left. split; [|split; [|split; [congruence|]]].
    + apply (bool_iff _ _ _ Sb). rewrite Sb'. setoid_rewrite (Hs _). done.
    + apply (bool_iff _ _ _ Sp). rewrite Sp'. setoid_rewrite (Hs _). by rewrite Ew, Ew', Es.
    + by rewrite Fw, Fw'.
  - right. revert C. apply collision_mono. intros x [->|[->|[]%not_elem_of_nil]%elem_of_cons]%elem_of_cons.
    + apply (list_elem_of_fmap_2 tiebreak_text), Hw.
    + apply (list_elem_of_fmap_2 tiebreak_text), Hs, Hw'.
Qed.

(** On a tie the texts of the row are those of the first operand: when two records
    of one sequence number differ only in the Unicode form of their texts, the
    merge keeps the form of the receiving node, so the two nodes' rows are not
    byte-identical, though their version hashes agree and nothing is pulled. *)
Theorem suspension_tie_keeps_form a b :
  suspension_seq a = suspension_seq b →
  nfc_fields nfc (tiebreak_fields a) = nfc_fields nfc (tiebreak_fields b) →
  tiebreak_fields (mergeSuspension H nfc a b) = tiebreak_fields a ∧
  tiebreak_fields (mergeSuspension H nfc b a) = tiebreak_fields b ∧
  (tiebreak_fields a ≠ tiebreak_fields b → mergeSuspension H nfc a b ≠ mergeSuspension H nfc b a).
Proof.
  intros Es E.
  assert (tiebreakHash H nfc a = tiebreakHash H nfc b) as Et by (unfold tiebreakHash, recordHash, canonical_record; by rewrite E).
  assert (∀ x y, suspension_seq x = suspension_seq y → tiebreakHash H nfc x = tiebreakHash H nfc y →
    tiebreak_fields (mergeSuspension H nfc x y) = tiebreak_fields x) as K.
  { intros x y Ex Ey. destruct (mergeSuspension_pick x y) as (_ & _ & -> & _). unfold suspension_geb.
    rewrite Ex, Z.eqb_refl, Ey. cbn [negb].
    destruct (str_geb (tiebreakHash H nfc y) (tiebreakHash H nfc y)) eqn:Eg; [done|].
    pose proof (str_geb_total _ _ Eg). congruence. }
  split; [by apply K|]. split; [by apply K|]. intros Hne Em. apply Hne.
  rewrite <- (K a b), <- (K b a) by done. by rewrite Em.
Qed.

End Suspension.

(** The version of a row covers its merge: every column a merge consults is a
    version column of the table's spec, so nodes whose rows a merge would treat
    as different have different versions and pull. *)
Theorem versions_cover_merges :
  SUSPENSION_MERGE_COLUMNS ⊆ versionColumns SUSPENSION_VERSION_SPEC ∧
  PRESENCE_MERGE_COLUMNS ⊆ versionColumns PRESENCE_VERSION_SPEC ∧
  DIRECTORY_NODE_HEARTBEAT_MERGE_COLUMNS ⊆ versionColumns DIRECTORY_NODE_HEARTBEAT_VERSION_SPEC ∧
  (∀ r : SuspensionRecord, map fst (tiebreak_fields r) ⊆ SUSPENSION_MERGE_COLUMNS) ∧
  (∀ spec, spec ∈ TIER_B_SPECS → NoDup (versionColumns spec) ∧ key spec ⊆ versionColumns spec).
Proof.
  split; [done|]. split; [done|]. split; [done|]. split; [intros r; cbn; set_solver|].
  intros spec. unfold TIER_B_SPECS.
  intros [->|[->|[->|[]%not_elem_of_nil]%elem_of_cons]%elem_of_cons]%elem_of_cons;
    (split; [apply (bool_decide_eq_true_1 _); reflexivity|cbn; set_solver]).
Qed.

(** * Instances at concrete inputs *)

(** Timestamps read as decimal numerals. *)
Fixpoint decimal (acc : Z) (s : string) : option Z :=
  match s with
  | EmptyString => Some acc
  | String c r => d ← unhex_digit c; if (d <? 10)%N then decimal (10 * acc + Z.of_N d) r else None
  end.
Definition demo_number (s : string) : option Z := decimal 0 s.

Definition demo_p1 : PresenceRecord := mkPresence "k" true "node1" "100" "100".
Definition demo_p2 : PresenceRecord := mkPresence "k" false "node2" "100" "100".
Definition demo_p3 : PresenceRecord := mkPresence "k" true "node3" "9" "NaN".

Ltac same_records_tac := intros r; cbn; rewrite !elem_of_cons, !elem_of_nil; tauto.

Lemma presence_converges_witness :
  merged (mergePresence demo_number) (MNode (MLeaf demo_p3) (MNode (MLeaf demo_p1) (MLeaf demo_p2))) =
  merged (mergePresence demo_number) (MNode (MNode (MLeaf demo_p2) (MLeaf demo_p3)) (MNode (MLeaf demo_p1) (MLeaf demo_p3))).
Proof.
  refine (proj1 (presence_converges demo_number
    (MNode (MLeaf demo_p3) (MNode (MLeaf demo_p1) (MLeaf demo_p2)))
    (MNode (MNode (MLeaf demo_p2) (MLeaf demo_p3)) (MNode (MLeaf demo_p1) (MLeaf demo_p3))) _)).
  same_records_tac.
Defined.

Definition demo_h1 : DirectoryNodeHeartbeatRecord := mkHeartbeat "n1" "active" "100".
Definition demo_h2 : DirectoryNodeHeartbeatRecord := mkHeartbeat "n1" "draining" "200".

Lemma heartbeat_converges_witness :
  last_heartbeat_at (mergeDirectoryNodeHeartbeat demo_number demo_h1 demo_h2) =
    last_heartbeat_at (mergeDirectoryNodeHeartbeat demo_number demo_h2 demo_h1) ∧
  status (mergeDirectoryNodeHeartbeat demo_number demo_h1 demo_h2) = "active".
Proof.
  destruct (heartbeat_converges demo_number (MNode (MLeaf demo_h1) (MLeaf demo_h2))
    (MNode (MLeaf demo_h2) (MLeaf demo_h1))) as (_ & E & Es & _).
  - same_records_tac.
  - split; [exact E|exact Es].
Defined.

Definition demo_s1 : SuspensionRecord := mkSuspension "agent" true false None (Some "acct") 3 "n1".
Definition demo_s2 : SuspensionRecord := mkSuspension "agent" false false (Some "reviewed") (Some "acct") 3 "n2".
Definition demo_s3 : SuspensionRecord := mkSuspension "agent" false true None None 2 "n2".

Lemma suspension_converges_witness :
  let m := merged (mergeSuspension tag_hash id) (MNode (MLeaf demo_s1) (MNode (MLeaf demo_s2) (MLeaf demo_s3))) in
  burned m = true ∧ paused m = true ∧ suspension_seq m = 3%Z.
Proof.
  destruct (suspension_converges tag_hash id (MNode (MLeaf demo_s1) (MNode (MLeaf demo_s2) (MLeaf demo_s3)))
    (MNode (MNode (MLeaf demo_s3) (MLeaf demo_s2)) (MLeaf demo_s1))) as (_ & Hb & _ & _ & Hp).
  - same_records_tac.
  - split; [|split].
    + apply Hb. exists demo_s3. split; [cbn; set_solver|reflexivity].
    + apply Hp. exists demo_s1. split; [cbn; set_solver|split; reflexivity].
    + reflexivity.
Defined.

(** A normalization that composes one pair of characters. *)
Definition demo_nfc (s : string) : string := if String.eqb s "e'" then "E" else s.
Definition demo_t1 : SuspensionRecord := mkSuspension "agent" true false (Some "E") None 3 "n1".
Definition demo_t2 : SuspensionRecord := mkSuspension "agent" true false (Some "e'") None 3 "n1".

Lemma suspension_tie_keeps_form_witness :
  mergeSuspension tag_hash demo_nfc demo_t1 demo_t2 ≠ mergeSuspension tag_hash demo_nfc demo_t2 demo_t1.
Proof.
  refine (proj2 (proj2 (suspension_tie_keeps_form tag_hash demo_nfc demo_t1 demo_t2 _ _)) _);
    [reflexivity|reflexivity|discriminate].
Defined.

End MergesTheorems.
