(* ===== verification/AntiEntropy.v ===== *)
(** One round of directory-to-directory state sync
    (packages/directory/src/anti-entropy-engine.ts): the local node reads its own
    state, the peer's advertisement, plans, pulls and applies, table by table.

    The stores are behind the interface [AeStoreView].  The local store's state is
    threaded through the round; an apply that fails may still have changed it.
    The peer is a view of one state: what it answers does not change within the
    round.  Awaiting is sequencing. *)
From S2P Require Import Prelude Text JsMap Json Reconcile.
Import Text JsMap Json Reconcile.

Module AntiEntropy.

(** * Data *)

Inductive tier : Type := TA | TB.

#[global] Instance tier_eq_dec : EqDecision tier.
Proof. solve_decision. Defined.

Inductive verdict : Type := content_fork | peer_behind.

#[global] Instance verdict_eq_dec : EqDecision verdict.
Proof. solve_decision. Defined.

(** A record body addressed by its record hash, or by its natural key. *)
Record TierARecord (Body : Type) : Type := mkA { rec_hash : string; rec_bodyA : Body }.
Record TierBRecord (Body : Type) : Type := mkB { rec_key : string; rec_bodyB : Body }.
Arguments mkA {Body} _ _. Arguments rec_hash {Body} _. Arguments rec_bodyA {Body} _.
Arguments mkB {Body} _ _. Arguments rec_key {Body} _. Arguments rec_bodyB {Body} _.

Record TierBApplyResult : Type := mkApply {
  ar_applied : Z;
  ar_divergent : Z;
  ar_divergentKeys : list string;
  ar_verdict : option verdict;
}.

Record failure : Type := mkFailure { f_tier : tier; f_table : string; f_reason : string }.

Record unconverged_entry : Type := mkUnconverged {
  u_tier : tier;
  u_table : string;
  u_planned : Z;
  u_pulled : Z;
  u_applied : Z;
  u_divergent : Z;
  u_verdict : verdict;
  u_divergentKeys : list string;
}.

Record RoundResult : Type := mkRound {
  tierAPulled : Z; tierBPulled : Z;
  tierAApplied : Z; tierBApplied : Z;
  tierAPlanned : Z; tierBPlanned : Z;
  failures : list failure;
  unconverged : list unconverged_entry;
}.

(** * The interface of a store *)

Class AeStoreView (S Body : Type) := {
  tierATables : S → result ae_error (list string);
  tierBTables : S → result ae_error (list string);
  tierATableDigest : S → string → result ae_error string;
  tierARecordHashes : S → string → result ae_error (list string);
  store_tierBTableDigest : S → string → result ae_error string;
  tierBVersions : S → string → result ae_error (jsmap string string);
  serveTierA : S → string → list string → result ae_error (list (TierARecord Body));
  serveTierB : S → string → list string → result ae_error (list (TierBRecord Body));
  applyTierA : S → string → list (TierARecord Body) → S * result ae_error Z;
  applyTierB : S → string → list (TierBRecord Body) → S * result ae_error TierBApplyResult;
}.

(** * Errors *)

Definition err_message (e : ae_error) : string :=
  match e with AeProtocolError m => m | OtherError m => m end.

Definition isWireError (e : ae_error) : bool :=
  match e with AeProtocolError _ => true | OtherError _ => false end.

Definition verdictOrThrow (tbl : string) (v : option verdict) : result ae_error verdict :=
  match v with
  | Some v => Ok v
  | None => Err (OtherError ("anti-entropy: store reported divergence in Tier-B '" +:+ tbl +:+
      "' without a verdict — refusing to label it, because both labels send an operator to a different subsystem"))
  end.

Section Engine.
Variable H : string → string.
Context {S P Body : Type} `{!AeStoreView S Body} `{!AeStoreView P Body}.

(** * The basis of comparison *)

(** One table: its hashes, or an entry in the unreadable set and a failure. *)
Fixpoint local_tierA (s : S) (ts : list string) (m : jsmap string (list string))
    (unreadable : list string) (fs : list failure) : jsmap string (list string) * list string * list failure :=
  match ts with
  | [] => (m, unreadable, fs)
  | t :: rest =>
      match tierARecordHashes s t with
      | Ok hs => local_tierA s rest (jset m t hs) unreadable fs
      | Err e => local_tierA s rest m (unreadable ++ [t]) (fs ++ [mkFailure TA t (err_message e)])
      end
  end.

Fixpoint local_tierB (s : S) (ts : list string) (m : jsmap string (jsmap string string))
    (unreadable : list string) (fs : list failure)
    : jsmap string (jsmap string string) * list string * list failure :=
  match ts with
  | [] => (m, unreadable, fs)
  | t :: rest =>
      match tierBVersions s t with
      | Ok vs => local_tierB s rest (jset m t vs) unreadable fs
      | Err e => local_tierB s rest m (unreadable ++ [t]) (fs ++ [mkFailure TB t (err_message e)])
      end
  end.

Definition localState (s : S) : result ae_error (LocalRoundState * list failure) :=
  ta ← tierATables s;
  let '(mA, uA, fA) := local_tierA s ta [] [] [] in
  tb ← tierBTables s;
  let '(mB, uB, fB) := local_tierB s tb [] [] fA in
  Ok (mkLocal mA mB uA uB, fB).

(** * The peer's advertisement *)

(** The tables reported to [onUnknown], and the advertisement; detail is fetched
    only when it is asked for. *)
Fixpoint advertise_tierA (peer : P) (known ts : list string)
    (m : jsmap string (string * (unit → result ae_error (list string))))
    : list (tier * string) * result ae_error (jsmap string (string * (unit → result ae_error (list string)))) :=
  match ts with
  | [] => ([], Ok m)
  | t :: rest =>
      if negb (bool_decide (t ∈ known)) then
        let '(log, r) := advertise_tierA peer known rest m in ((TA, t) :: log, r)
      else
        match tierATableDigest peer t with
        | Err e => ([], Err e)
        | Ok d => advertise_tierA peer known rest (jset m t (d, λ _, tierARecordHashes peer t))
        end
  end.

Fixpoint advertise_tierB (peer : P) (known ts : list string)
    (m : jsmap string (string * (unit → result ae_error (jsmap string string))))
    : list (tier * string) * result ae_error (jsmap string (string * (unit → result ae_error (jsmap string string)))) :=
  match ts with
  | [] => ([], Ok m)
  | t :: rest =>
      if negb (bool_decide (t ∈ known)) then
        let '(log, r) := advertise_tierB peer known rest m in ((TB, t) :: log, r)
      else
        match store_tierBTableDigest peer t with
        | Err e => ([], Err e)
        | Ok d => advertise_tierB peer known rest (jset m t (d, λ _, tierBVersions peer t))
        end
  end.

Definition peerAdvertisement (peer : P) (localTierA localTierB : list string)
    : list (tier * string) * result ae_error PeerRoundState :=
  match tierATables peer with
  | Err e => ([], Err e)
  | Ok ta =>
      let '(logA, rA) := advertise_tierA peer localTierA ta [] in
      match rA with
      | Err e => (logA, Err e)
      | Ok mA =>
          match tierBTables peer with
          | Err e => (logA, Err e)
          | Ok tb =>
              let '(logB, rB) := advertise_tierB peer localTierB tb [] in
              (logA ++ logB, mB ← rB; Ok (mkPeer mA mB))
          end
      end
  end.

(** * Pulling and applying *)

(** The counters of one tier, with the store and the reports so far. *)
Record progress : Type := mkProgress {
  pr_store : S;
  pr_pulled : Z;
  pr_applied : Z;
  pr_planned : Z;
  pr_failures : list failure;
  pr_unconverged : list unconverged_entry;
}.

Definition plan_more (p : progress) (n : nat) : progress :=
  mkProgress (pr_store p) (pr_pulled p) (pr_applied p) (pr_planned p + Z.of_nat n)
    (pr_failures p) (pr_unconverged p).

Definition with_store (p : progress) (s : S) : progress :=
  mkProgress s (pr_pulled p) (pr_applied p) (pr_planned p) (pr_failures p) (pr_unconverged p).

Definition count (p : progress) (pulled : nat) (applied : Z) : progress :=
  mkProgress (pr_store p) (pr_pulled p + Z.of_nat pulled) (pr_applied p + applied) (pr_planned p)
    (pr_failures p) (pr_unconverged p).

Definition report (p : progress) (u : unconverged_entry) : progress :=
  mkProgress (pr_store p) (pr_pulled p) (pr_applied p) (pr_planned p) (pr_failures p) (pr_unconverged p ++ [u]).

Definition fail (p : progress) (f : failure) : progress :=
  mkProgress (pr_store p) (pr_pulled p) (pr_applied p) (pr_planned p) (pr_failures p ++ [f]) (pr_unconverged p).

(** The body of the [try] of one Tier-A table: what it did before it threw, and
    what it threw. *)
Definition try_tierA (peer : P) (t : string) (hashes : list string) (p : progress) : progress * option ae_error :=
  match serveTierA peer t hashes with
  | Err e => (p, Some e)
  | Ok records =>
      let '(s', r) := applyTierA (pr_store p) t records in
      let p := with_store p s' in
      match r with
      | Err e => (p, Some e)
      | Ok applied =>
          let p := count p (length records) applied in
          (if (applied <? Z.of_nat (length records))%Z then
             report p (mkUnconverged TA t (Z.of_nat (length hashes)) (Z.of_nat (length records)) applied
                         (Z.of_nat (length records) - applied) content_fork [])
           else p, None)
      end
  end.

Definition try_tierB (peer : P) (t : string) (keys : list string) (p : progress) : progress * option ae_error :=
  match serveTierB peer t keys with
  | Err e => (p, Some e)
  | Ok records =>
      let '(s', r) := applyTierB (pr_store p) t records in
      let p := with_store p s' in
      match r with
      | Err e => (p, Some e)
      | Ok res =>
          let p := count p (length records) (ar_applied res) in
          if (0 <? ar_divergent res)%Z then
            match verdictOrThrow t (ar_verdict res) with
            | Err e => (p, Some e)
            | Ok v =>
                (report p (mkUnconverged TB t (Z.of_nat (length keys)) (Z.of_nat (length records))
                   (ar_applied res) (ar_divergent res) v (ar_divergentKeys res)), None)
            end
          else (p, None)
      end
  end.

(** The loop over the local tables, with its [catch]. *)
Fixpoint pull_tables (body : string → list string → progress → progress * option ae_error) (tr : tier)
    (plan : jsmap string (list string)) (tables : list string) (p : progress) : progress * option ae_error :=
  match tables with
  | [] => (p, None)
  | t :: rest =>
      match jget plan t with
      | None | Some [] => pull_tables body tr plan rest p
      | Some wanted =>
          let p := plan_more p (length wanted) in
          match body t wanted p with
          | (p, None) => pull_tables body tr plan rest p
          | (p, Some e) =>
              if isWireError e then (p, Some e)
              else pull_tables body tr plan rest (fail p (mkFailure tr t (err_message e)))
          end
      end
  end.

(** * The round *)

(** Everything before the first pull: the local tables, the failures of local reads
    and the plan; with the unknown tables reported. *)
Definition round_plan (s : S) (peer : P)
    : list (tier * string) * result ae_error (list string * list string * list failure * RoundPlan) :=
  match (a ← tierATables s; b ← tierBTables s; basis ← localState s; Ok (a, b, basis)) with
  | Err e => ([], Err e)
  | Ok (localTierA, localTierB, (basis, fs)) =>
      let '(log, adv) := peerAdvertisement peer localTierA localTierB in
      (log, adv ← adv; plan ← planRound H basis adv; Ok (localTierA, localTierB, fs, plan))
  end.

(** The store after the round, the unknown tables reported, and the result or the
    exception. *)
Definition runAntiEntropyRound (s : S) (peer : P) : S * list (tier * string) * result ae_error RoundResult :=
  match round_plan s peer with
  | (log, Err e) => (s, log, Err e)
  | (log, Ok (localTierA, localTierB, fs, plan)) =>
      match pull_tables (try_tierA peer) TA (planA plan) localTierA (mkProgress s 0 0 0 fs []) with
      | (pa, Some e) => (pr_store pa, log, Err e)
      | (pa, None) =>
          match pull_tables (try_tierB peer) TB (planB plan) localTierB
                  (mkProgress (pr_store pa) 0 0 0 (pr_failures pa) (pr_unconverged pa)) with
          | (pb, Some e) => (pr_store pb, log, Err e)
          | (pb, None) =>
              (pr_store pb, log,
               Ok (mkRound (pr_pulled pa) (pr_pulled pb) (pr_applied pa) (pr_applied pb)
                     (pr_planned pa) (pr_planned pb) (pr_failures pb) (pr_unconverged pb)))
          end
      end
  end.

End Engine.
End AntiEntropy.
