(* ===== verification/AntiEntropyTheorems.v ===== *)
(** Properties of an anti-entropy round: what is planned, that a failing table
    costs that table only, and that lawful stores converge. *)
From S2P Require Import Prelude Text JsMap Json Reconcile ReconcileTheorems AntiEntropy.
Import Text JsMap Json Reconcile ReconcileTheorems AntiEntropy.

Module AntiEntropyTheorems.

(** * The loop over the tables *)

(** The plan asks for [w] of table [t]. *)
Definition wants (plan : jsmap string (list string)) (t : string) (w : list string) : Prop :=
  jget plan t = Some w ∧ w ≠ [].

Definition wanted (plan : jsmap string (list string)) (t : string) : nat := length (default [] (jget plan t)).

Section Loop.
Context {S : Type} (body : string → list string → progress (S := S) → progress (S := S) * option ae_error).
Context (step : S → string → list string → S) (throws : S → string → list string → option ae_error).
Context (body_store : ∀ t w p, pr_store (body t w p).1 = step (pr_store p) t w).
Context (body_throws : ∀ t w p, (body t w p).2 = throws (pr_store p) t w).
Context (body_failures : ∀ t w p, pr_failures (body t w p).1 = pr_failures p).
Context (body_planned : ∀ t w p, pr_planned (body t w p).1 = pr_planned p).
Context (plan : jsmap string (list string)) (tr : tier).

(** What one table does to the store. *)
Definition table_step (s : S) (t : string) : S :=
  match jget plan t with None | Some [] => s | Some w => step s t w end.

Definition steps (s : S) (ts : list string) : S := foldl table_step s ts.

(** The [i]-th table was wanted and its body threw [e]. *)
Definition threw_at (s : S) (ts : list string) (i : nat) (t : string) (e : ae_error) : Prop :=
  ts !! i = Some t ∧ ∃ w, wants plan t w ∧ throws (steps s (take i ts)) t w = Some e.

(** What the loop ends with. *)
Definition loop_outcome (s : S) (fs : list failure) (n : Z) (ts : list string)
    (r : progress (S := S) * option ae_error) : Prop :=
  match r.2 with
  | None =>
      pr_store r.1 = steps s ts ∧ pr_planned r.1 = (n + sum_by (λ t, Z.of_nat (wanted plan t)) ts)%Z ∧
      (∃ new, pr_failures r.1 = fs ++ new ∧
         ∀ f, f ∈ new ↔ ∃ i t e, threw_at s ts i t e ∧ f = mkFailure tr t (err_message e)) ∧
      (∀ i t e, threw_at s ts i t e → isWireError e = false)
  | Some e =>
      isWireError e = true ∧ ∃ i t, threw_at s ts i t e ∧ pr_store r.1 = steps s (take (Datatypes.S i) ts)
  end.

Lemma threw_at_0 s t ts t' e :
  threw_at s (t :: ts) 0 t' e ↔ t = t' ∧ ∃ w, wants plan t w ∧ throws s t w = Some e.
Proof. unfold threw_at. cbn. split; [intros [[= ->] ?]; done|]. by intros [-> ?]. Qed.

Lemma threw_at_S s t ts i t' e :
  threw_at s (t :: ts) (Datatypes.S i) t' e ↔ threw_at (table_step s t) ts i t' e.
Proof. done. Qed.

(** Tables before which nothing threw a wire error: one step of the outcome. *)
Lemma outcome_cons s fs n t ts r k :
  (∀ e, threw_at s (t :: ts) 0 t e → isWireError e = false ∧ k = [mkFailure tr t (err_message e)]) →
  (k ≠ [] → ∃ e, threw_at s (t :: ts) 0 t e) →
  loop_outcome (table_step s t) (fs ++ k) (n + Z.of_nat (wanted plan t)) ts r →
  loop_outcome s fs n (t :: ts) r.
Proof.
  intros H1 H2. unfold loop_outcome. destruct (r.2) as [e|].
  - intros (Hw & i & t' & Ht & Es). split; [done|]. exists (Datatypes.S i), t'. by rewrite threw_at_S.
  - intros (Es & Ep & (new & Ef & Hf) & Hw). split; [done|]. split; [cbn; lia|]. split.
    + exists (k ++ new). rewrite Ef, app_assoc. split; [done|]. intros f. rewrite elem_of_app, Hf. split.
      * intros [Hk|(i & t' & e & Ht & ->)]; [|by exists (Datatypes.S i), t', e].
        destruct H2 as [e He]; [by intros ->; apply not_elem_of_nil in Hk|].
        exists 0, t, e. split; [done|]. destruct (H1 e He) as [_ ->]. by apply list_elem_of_singleton in Hk.
      * intros ([|i] & t' & e & Ht & ->); [|right; by exists i, t', e].
        left. apply threw_at_0 in Ht as Ht'. destruct Ht' as [<- _]. destruct (H1 e Ht) as [_ ->]. left.
    + intros [|i] t' e Ht; [|by apply (Hw i t')]. apply threw_at_0 in Ht as Ht'. destruct Ht' as [<- _].
      by apply H1.
Qed.

Lemma pull_tables_outcome ts p :
  loop_outcome (pr_store p) (pr_failures p) (pr_planned p) ts (pull_tables body tr plan ts p).
Proof.
  revert p. induction ts as [|t ts IH]; intros p.
  { cbn. split; [done|]. split; [lia|]. split; [|by intros i t e [? _]].
    exists []. rewrite app_nil_r. split; [done|]. intros f. split; [by intros ?%not_elem_of_nil|].
    by intros (i & t & e & [? _] & _). }
  assert (∀ w, jget plan t = Some w → ∀ e, threw_at (pr_store p) (t :: ts) 0 t e ↔ w ≠ [] ∧ throws (pr_store p) t w = Some e) as HT.
  { intros w Ew e. rewrite threw_at_0. unfold wants. rewrite Ew. split.
    - intros (_ & w' & [[= <-] Hn] & He). done.
    - intros [Hn He]. split; [done|]. by exists w. }
  assert (∀ k, default [] (jget plan t) = [] → k = pull_tables body tr plan ts p →
    loop_outcome (pr_store p) (pr_failures p) (pr_planned p) (t :: ts) k) as Hskip.
  { intros k Ew ->. apply outcome_cons with (k := []); [|done|].
    - intros e (Hw & He). exfalso. destruct He as (w & [Ew' Hn] & _). rewrite Ew' in Ew. by cbn in Ew.
    - rewrite app_nil_r. unfold table_step, wanted. rewrite Ew.
      replace (match jget plan t with None | Some [] => pr_store p | Some w => step (pr_store p) t w end) with (pr_store p)
        by (destruct (jget plan t) as [[|]|]; [done|by cbn in Ew|done]).
      rewrite Z.add_0_r. apply IH. }
  cbn [pull_tables]. destruct (jget plan t) as [w|] eqn:Ew; [|by apply Hskip].
  destruct w as [|x w]; [by apply Hskip|]. clear Hskip. set (w' := x :: w) in *.
  specialize (HT w' eq_refl).
  pose proof (body_store t w' (plan_more p (length w'))) as Bs.
  pose proof (body_throws t w' (plan_more p (length w'))) as Bt.
  pose proof (body_failures t w' (plan_more p (length w'))) as Bf.
  pose proof (body_planned t w' (plan_more p (length w'))) as Bp.
  assert (table_step (pr_store p) t = step (pr_store p) t w') as Estep by (unfold table_step; by rewrite Ew).
  assert (wanted plan t = length w') as Ewant by (unfold wanted; by rewrite Ew).
  destruct (body t w' _) as [p' o]. cbn [fst snd plan_more pr_store pr_failures pr_planned] in Bs, Bt, Bf, Bp.
  destruct o as [e|].
  - destruct (isWireError e) eqn:Ee.
    + split; [done|]. exists 0, t. split; [by apply HT|]. cbn. by rewrite Estep, <- Bs.
    + apply outcome_cons with (k := [mkFailure tr t (err_message e)]).
      * intros e' He'%HT. destruct He' as [_ He']. rewrite <- Bt in He'. by injection He' as <-.
      * intros _. exists e. by apply HT.
      * rewrite Estep, Ewant, <- Bs, <- Bp, <- Bf. apply (IH (fail p' _)).
  - apply outcome_cons with (k := []); [|done|].
    + intros e He%HT. destruct He as [_ He]. congruence.
    + rewrite Estep, Ewant, app_nil_r, <- Bs, <- Bp, <- Bf. apply IH.
Qed.
End Loop.

(** * Reading and advertising *)

(** Reading the tables, each in isolation; the two tiers share the reasoning. *)
Section Reads.
Context {D : Type} (read : string → result ae_error D) (tr : tier).

Fixpoint read_tables (ts : list string) (m : jsmap string D) (u : list string) (fs : list failure)
    : jsmap string D * list string * list failure :=
  match ts with
  | [] => (m, u, fs)
  | t :: rest =>
      match read t with
      | Ok d => read_tables rest (jset m t d) u fs
      | Err e => read_tables rest m (u ++ [t]) (fs ++ [mkFailure tr t (err_message e)])
      end
  end.

Definition read_failures (ts : list string) : list failure :=
  omap (λ t, match read t with Ok _ => None | Err e => Some (mkFailure tr t (err_message e)) end) ts.

Lemma read_tables_failures ts m u fs m' u' fs' :
  read_tables ts m u fs = (m', u', fs') → fs' = fs ++ read_failures ts.
Proof.
  revert m u fs. induction ts as [|t ts IH]; intros m u fs E; cbn [read_tables] in E.
  { injection E as <- <- <-. cbn. by rewrite app_nil_r. }
  unfold read_failures. cbn [omap list_omap]. destruct (read t); apply IH in E as ->; [done|].
  by rewrite <- app_assoc.
Qed.

Lemma read_tables_unreadable ts m u fs m' u' fs' t :
  read_tables ts m u fs = (m', u', fs') → t ∈ u' ↔ t ∈ u ∨ (t ∈ ts ∧ ∃ e, read t = Err e).
Proof.
  revert m u fs. induction ts as [|t0 ts IH]; intros m u fs E; cbn [read_tables] in E.
  { injection E as <- <- <-. rewrite elem_of_nil. tauto. }
  rewrite elem_of_cons. destruct (read t0) as [d|e0] eqn:Et; apply IH in E as ->.
  - split; [tauto|]. intros [?|[[->|?] [e He]]]; [tauto|congruence|]. right. eauto.
  - rewrite elem_of_app, list_elem_of_singleton. split.
    + intros [[?| ->]|?]; [tauto| |tauto]. right. eauto.
    + tauto.
Qed.

Lemma read_tables_other ts m u fs m' u' fs' t :
  read_tables ts m u fs = (m', u', fs') → t ∉ ts → jget m' t = jget m t.
Proof.
  revert m u fs. induction ts as [|t0 ts IH]; intros m u fs E Ht; cbn [read_tables] in E.
  { by injection E as <- <- <-. }
  apply not_elem_of_cons in Ht as [Hne Ht]. destruct (read t0); eapply IH in E as ->; try done.
  by rewrite jget_jset_ne.
Qed.

Lemma read_tables_ok ts m u fs m' u' fs' t d :
  read_tables ts m u fs = (m', u', fs') → t ∈ ts → read t = Ok d → jget m' t = Some d.
Proof.
  revert m u fs. induction ts as [|t0 ts IH]; intros m u fs E Ht Hd; [by apply not_elem_of_nil in Ht|].
  destruct (decide (t ∈ ts)) as [Hin|Hin].
  - cbn [read_tables] in E. destruct (read t0); by eapply IH.
  - apply elem_of_cons in Ht as [<-|?]; [|done]. cbn [read_tables] in E. rewrite Hd in E.
    rewrite (read_tables_other _ _ _ _ _ _ _ _ E Hin). apply jget_jset_eq.
Qed.
End Reads.

Lemma local_tierA_read {S Body} `{!AeStoreView S Body} (s : S) ts m u fs :
  local_tierA s ts m u fs = read_tables (tierARecordHashes s) TA ts m u fs.
Proof. revert m u fs. induction ts as [|t ts IH]; intros; [done|]. cbn. by destruct (tierARecordHashes s t). Qed.

Lemma local_tierB_read {S Body} `{!AeStoreView S Body} (s : S) ts m u fs :
  local_tierB s ts m u fs = read_tables (tierBVersions s) TB ts m u fs.
Proof. revert m u fs. induction ts as [|t ts IH]; intros; [done|]. cbn. by destruct (tierBVersions s t). Qed.

Section Advertise.
Context {D : Type} (digest : string → result ae_error string) (fetch : string → unit → result ae_error D).
Context (tr : tier) (known : list string).

Fixpoint advertise (ts : list string) (m : jsmap string (string * (unit → result ae_error D)))
    : list (tier * string) * result ae_error (jsmap string (string * (unit → result ae_error D))) :=
  match ts with
  | [] => ([], Ok m)
  | t :: rest =>
      if negb (bool_decide (t ∈ known)) then
        let '(log, r) := advertise rest m in ((tr, t) :: log, r)
      else
        match digest t with
        | Err e => ([], Err e)
        | Ok d => advertise rest (jset m t (d, fetch t))
        end
  end.

Definition unknown (ts : list string) : list (tier * string) :=
  map (tr,.) (List.filter (λ t, negb (bool_decide (t ∈ known))) ts).

Lemma advertise_log ts m log m' : advertise ts m = (log, Ok m') → log = unknown ts.
Proof.
  unfold unknown. revert m log. induction ts as [|t ts IH]; intros m log E; cbn [advertise] in E.
  { by injection E as <- _. }
  cbn [List.filter map]. destruct (negb (bool_decide (t ∈ known))).
  - destruct (advertise ts m) as [log0 r] eqn:Er. injection E as <- ->. cbn. f_equal. by eapply IH.
  - destruct (digest t); [|done]. by eapply IH.
Qed.

Lemma advertise_wf ts m log m' : advertise ts m = (log, Ok m') → jwf m → jwf m'.
Proof.
  revert m log. induction ts as [|t ts IH]; intros m log E Hm; cbn [advertise] in E.
  { by injection E as _ <-. }
  destruct (negb (bool_decide (t ∈ known))).
  - destruct (advertise ts m) as [log0 r] eqn:Er. injection E as _ ->. by eapply IH.
  - destruct (digest t); [|done]. eapply IH; [done|]. by apply jwf_jset.
Qed.

Lemma advertise_other ts m log m' t :
  advertise ts m = (log, Ok m') → ¬ (t ∈ ts ∧ t ∈ known) → jget m' t = jget m t.
Proof.
  revert m log. induction ts as [|t0 ts IH]; intros m log E Ht; cbn [advertise] in E.
  { by injection E as _ <-. }
  rewrite elem_of_cons in Ht. destruct (bool_decide (t0 ∈ known)) eqn:Ek; cbn [negb] in E; bools.
  - destruct (digest t0); [|done]. rewrite (IH _ _ E) by tauto.
    rewrite jget_jset_ne; [done|]. intros ->. tauto.
  - destruct (advertise ts m) as [log0 r] eqn:Er. injection E as _ ->. apply (IH m log0); [done|tauto].
Qed.

Lemma advertise_known ts m log m' t :
  advertise ts m = (log, Ok m') → t ∈ ts → t ∈ known →
  ∃ d, digest t = Ok d ∧ jget m' t = Some (d, fetch t).
Proof.
  revert m log. induction ts as [|t0 ts IH]; intros m log E Ht Hk; [by apply not_elem_of_nil in Ht|].
  destruct (decide (t ∈ ts)) as [Hin|Hin]; cbn [advertise] in E.
  - destruct (negb (bool_decide (t0 ∈ known))).
    + destruct (advertise ts m) as [log0 r] eqn:Er. injection E as _ ->. by eapply IH.
    + destruct (digest t0); [|done]. by eapply IH.
  - apply elem_of_cons in Ht as [<-|?]; [|done]. rewrite bool_decide_eq_true_2 in E by done. cbn [negb] in E.
    destruct (digest t) as [d|]; [|done]. exists d. split; [done|].
    rewrite (advertise_other _ _ _ _ t E) by tauto. apply jget_jset_eq.
Qed.

(** What an advertisement built from scratch holds. *)
Lemma advertise_spec ts log m' t e :
  advertise ts [] = (log, Ok m') →
  jget m' t = Some e ↔ t ∈ ts ∧ t ∈ known ∧ ∃ d, digest t = Ok d ∧ e = (d, fetch t).
Proof.
  intros E. split.
  - intros Hg. destruct (decide (t ∈ ts ∧ t ∈ known)) as [[Ht Hk]|Hn].
    + destruct (advertise_known _ _ _ _ t E Ht Hk) as (d & Hd & Hg'). rewrite Hg in Hg'.
      injection Hg' as ->. eauto.
    + by rewrite (advertise_other _ _ _ _ t E Hn) in Hg.
  - intros (Ht & Hk & d & Hd & ->). destruct (advertise_known _ _ _ _ t E Ht Hk) as (d' & Hd' & ->). congruence.
Qed.
End Advertise.

Lemma advertise_tierA_eq {P Body} `{!AeStoreView P Body} (peer : P) known ts m :
  advertise_tierA peer known ts m = advertise (tierATableDigest peer) (λ t _, tierARecordHashes peer t) TA known ts m.
Proof.
  revert m. induction ts as [|t ts IH]; intros m; [done|]. cbn. rewrite IH.
  destruct (negb _); [done|]. by destruct (tierATableDigest peer t).
Qed.

Lemma advertise_tierB_eq {P Body} `{!AeStoreView P Body} (peer : P) known ts m :
  advertise_tierB peer known ts m = advertise (store_tierBTableDigest peer) (λ t _, tierBVersions peer t) TB known ts m.
Proof.
  revert m. induction ts as [|t ts IH]; intros m; [done|]. cbn. rewrite IH.
  destruct (negb _); [done|]. by destruct (store_tierBTableDigest peer t).
Qed.

Section Round.
Variable H : string → string.
Context {S P Body : Type} `{!AeStoreView S Body} `{!AeStoreView P Body}.

(** ** One table of each tier *)

Definition stepA (peer : P) (s : S) (t : string) (w : list string) : S :=
  match serveTierA peer t w with Ok rs => (applyTierA s t rs).1 | Err _ => s end.

Definition throwsA (peer : P) (s : S) (t : string) (w : list string) : option ae_error :=
  match serveTierA peer t w with
  | Err e => Some e
  | Ok rs => match (applyTierA s t rs).2 with Err e => Some e | Ok _ => None end
  end.

Definition stepB (peer : P) (s : S) (t : string) (w : list string) : S :=
  match serveTierB peer t w with Ok rs => (applyTierB s t rs).1 | Err _ => s end.

(** A store that reports divergence without a verdict throws too. *)
Definition throwsB (peer : P) (s : S) (t : string) (w : list string) : option ae_error :=
  match serveTierB peer t w with
  | Err e => Some e
  | Ok rs =>
      match (applyTierB s t rs).2 with
      | Err e => Some e
      | Ok res =>
          if (0 <? ar_divergent res)%Z then
            match verdictOrThrow t (ar_verdict res) with Err e => Some e | Ok _ => None end
          else None
      end
  end.

Lemma tierA_outcome peer plan ts (p : progress (S := S)) :
  loop_outcome (stepA peer) (throwsA peer) plan TA (pr_store p) (pr_failures p) (pr_planned p) ts
    (pull_tables (try_tierA peer) TA plan ts p).
Proof.
  apply pull_tables_outcome; intros t w q; unfold try_tierA, stepA, throwsA;
    (destruct (serveTierA peer t w) as [rs|]; [|done]);
    (destruct (applyTierA (pr_store q) t rs) as [s' [a|e]]; [|done]); cbn; by repeat case_match.
Qed.

Lemma tierB_outcome peer plan ts (p : progress (S := S)) :
  loop_outcome (stepB peer) (throwsB peer) plan TB (pr_store p) (pr_failures p) (pr_planned p) ts
    (pull_tables (try_tierB peer) TB plan ts p).
Proof.
  apply pull_tables_outcome; intros t w q; unfold try_tierB, stepB, throwsB;
    (destruct (serveTierB peer t w) as [rs|]; [|done]);
    (destruct (applyTierB (pr_store q) t rs) as [s' [res|e]]; [|done]); cbn; by repeat (case_match; simplify_eq/=).
Qed.

(** The states a round goes through. *)
Definition afterA (peer : P) (plan : RoundPlan) (s : S) (la : list string) : S :=
  steps (stepA peer) (planA plan) s la.
Definition afterB (peer : P) (plan : RoundPlan) (s : S) (lb : list string) : S :=
  steps (stepB peer) (planB plan) s lb.

Lemma round_outcome (s : S) (peer : P) log la lb fs plan :
  round_plan H s peer = (log, Ok (la, lb, fs, plan)) →
  let A := threw_at (stepA peer) (throwsA peer) (planA plan) in
  let B := threw_at (stepB peer) (throwsB peer) (planB plan) in
  let sA := afterA peer plan s la in
  match runAntiEntropyRound H s peer with
  | (s', log', Ok r) =>
      log' = log ∧ s' = afterB peer plan sA lb ∧
      tierAPlanned r = sum_by (λ t, Z.of_nat (wanted (planA plan) t)) la ∧
      tierBPlanned r = sum_by (λ t, Z.of_nat (wanted (planB plan) t)) lb ∧
      ∃ fa fb, failures r = fs ++ fa ++ fb ∧
        (∀ f, f ∈ fa ↔ ∃ i t e, A s la i t e ∧ f = mkFailure TA t (err_message e)) ∧
        (∀ f, f ∈ fb ↔ ∃ i t e, B sA lb i t e ∧ f = mkFailure TB t (err_message e))
  | (s', log', Err e) =>
      log' = log ∧ isWireError e = true ∧
      ((∃ i t, A s la i t e ∧ s' = afterA peer plan s (take (Datatypes.S i) la)) ∨
       (∃ i t, B sA lb i t e ∧ s' = afterB peer plan sA (take (Datatypes.S i) lb)))
  end.
Proof.
  intros E A B sA. unfold runAntiEntropyRound. rewrite E.
  pose proof (tierA_outcome peer (planA plan) la (mkProgress s 0 0 0 fs [])) as OA.
  destruct (pull_tables (try_tierA peer) _ _ _ _) as [pa [e|]]; unfold loop_outcome in OA; cbn [fst snd pr_store pr_failures pr_planned] in OA.
  { destruct OA as (Hw & i & t & Ht & Es). split; [done|]. split; [done|]. left. by exists i, t. }
  destruct OA as (EsA & EpA & (fa & EfA & HfA) & _).
  pose proof (tierB_outcome peer (planB plan) lb (mkProgress (pr_store pa) 0 0 0 (pr_failures pa) (pr_unconverged pa))) as OB.
  destruct (pull_tables (try_tierB peer) _ _ _ _) as [pb [e|]]; unfold loop_outcome in OB; cbn [fst snd pr_store pr_failures pr_planned] in OB;
    rewrite EsA in OB; fold (afterA peer plan s la) in OB; fold sA in OB.
  { destruct OB as (Hw & i & t & Ht & Es). split; [done|]. split; [done|]. right. by exists i, t. }
  destruct OB as (EsB & EpB & (fb & EfB & HfB) & _).
  split; [done|]. split; [done|]. cbn [tierAPlanned tierBPlanned failures]. split; [lia|]. split; [lia|].
  exists fa, fb. rewrite EfB, EfA, app_assoc. done.
Qed.

(** A failing table costs that table only.  Once a plan is made, the round applies
    every planned table in the order of the local registry, the kill switch's
    tier after the append-only one whatever failed there, asks for exactly what
    the plan says, and reports each table that threw, with its error, and no
    other, after the tables it could not read.  It throws only when serving or
    applying some table threw an error of the wire, and then it stops at that
    table. *)
Theorem round_isolates_failures (s : S) (peer : P) log la lb fs plan :
  round_plan H s peer = (log, Ok (la, lb, fs, plan)) →
  let A := threw_at (stepA peer) (throwsA peer) (planA plan) in
  let B := threw_at (stepB peer) (throwsB peer) (planB plan) in
  let sA := afterA peer plan s la in
  match runAntiEntropyRound H s peer with
  | (s', log', Ok r) =>
      log' = log ∧ s' = afterB peer plan sA lb ∧
      tierAPlanned r = sum_by (λ t, Z.of_nat (wanted (planA plan) t)) la ∧
      tierBPlanned r = sum_by (λ t, Z.of_nat (wanted (planB plan) t)) lb ∧
      ∃ fa fb, failures r = fs ++ fa ++ fb ∧
        (∀ f, f ∈ fa ↔ ∃ i t e, A s la i t e ∧ f = mkFailure TA t (err_message e)) ∧
        (∀ f, f ∈ fb ↔ ∃ i t e, B sA lb i t e ∧ f = mkFailure TB t (err_message e))
  | (s', log', Err e) =>
      log' = log ∧ isWireError e = true ∧
      ((∃ i t, A s la i t e ∧ s' = afterA peer plan s (take (Datatypes.S i) la)) ∨
       (∃ i t, B sA lb i t e ∧ s' = afterB peer plan sA (take (Datatypes.S i) lb)))
  end.
Proof. apply round_outcome. Qed.


(** ** What is planned *)

(** What a planned table of each tier looks like, from the two stores. *)
Definition plannedA (s : S) (peer : P) (la : list string) (t : string) (w : list string) : Prop :=
  t ∈ la ∧ (∃ pa, tierATables peer = Ok pa ∧ t ∈ pa) ∧ w ≠ [] ∧
  ∃ mine m d theirs, tierARecordHashes s t = Ok mine ∧ computeTableDigest H mine = Ok m ∧
    tierATableDigest peer t = Ok d ∧ d ≠ m ∧ tierARecordHashes peer t = Ok theirs ∧
    w = missingLocally mine theirs.

Definition plannedB (s : S) (peer : P) (lb : list string) (t : string) (w : list string) : Prop :=
  t ∈ lb ∧ (∃ pb, tierBTables peer = Ok pb ∧ t ∈ pb) ∧ w ≠ [] ∧
  ∃ mine d theirs, tierBVersions s t = Ok mine ∧
    store_tierBTableDigest peer t = Ok d ∧ d ≠ tierBTableDigest H mine ∧ tierBVersions peer t = Ok theirs ∧
    w = versionKeysToPull mine theirs.

(** The parts a plan is made of. *)
Lemma round_plan_parts (s : S) (peer : P) log la lb fs plan :
  round_plan H s peer = (log, Ok (la, lb, fs, plan)) →
  tierATables s = Ok la ∧ tierBTables s = Ok lb ∧
  ∃ pa pb mA uA fA mB uB logA advA logB advB,
    read_tables (tierARecordHashes s) TA la [] [] [] = (mA, uA, fA) ∧
    read_tables (tierBVersions s) TB lb [] [] fA = (mB, uB, fs) ∧
    tierATables peer = Ok pa ∧ tierBTables peer = Ok pb ∧
    advertise (tierATableDigest peer) (λ t _, tierARecordHashes peer t) TA la pa [] = (logA, Ok advA) ∧
    advertise (store_tierBTableDigest peer) (λ t _, tierBVersions peer t) TB lb pb [] = (logB, Ok advB) ∧
    log = logA ++ logB ∧ planRound H (mkLocal mA mB uA uB) (mkPeer advA advB) = Ok plan.
Proof.
  unfold round_plan, localState, peerAdvertisement. intros E.
  destruct (tierATables s) as [la'|] eqn:Ea; [|by injection E]. cbn [mbind result_bind] in E.
  destruct (tierBTables s) as [lb'|] eqn:Eb; [|by injection E]. cbn [mbind result_bind] in E.
  rewrite local_tierA_read in E. destruct (read_tables _ TA _ _ _ _) as [[mA uA] fA] eqn:ErA.
  rewrite local_tierB_read in E. destruct (read_tables _ TB _ _ _ _) as [[mB uB] fB] eqn:ErB. cbn [mbind result_bind] in E.
  destruct (tierATables peer) as [pa|] eqn:Epa; [|by injection E].
  rewrite advertise_tierA_eq in E. destruct (advertise _ _ TA _ _ _) as [logA [advA|]] eqn:EvA; [|by injection E].
  destruct (tierBTables peer) as [pb|] eqn:Epb; [|by injection E].
  rewrite advertise_tierB_eq in E. destruct (advertise _ _ TB _ _ _) as [logB [advB|]] eqn:EvB; [|by injection E].
  cbn [mbind result_bind] in E. destruct (planRound _ _ _) as [pl|] eqn:Epl; [|by injection E].
  cbn in E. injection E as <- <- <- <- <-. do 2 (split; [done|]). by repeat eexists.
Qed.

Lemma round_plan_exact (s : S) (peer : P) log la lb fs plan :
  round_plan H s peer = (log, Ok (la, lb, fs, plan)) →
  tierATables s = Ok la ∧ tierBTables s = Ok lb ∧
  (∀ t w, wants (planA plan) t w ↔ plannedA s peer la t w) ∧
  (∀ t w, wants (planB plan) t w ↔ plannedB s peer lb t w) ∧
  fs = read_failures (tierARecordHashes s) TA la ++ read_failures (tierBVersions s) TB lb ∧
  (∀ pa pb, tierATables peer = Ok pa → tierBTables peer = Ok pb → log = unknown TA la pa ++ unknown TB lb pb).
Proof.
  intros (Ela & Elb & pa & pb & mA & uA & fA & mB & uB & logA & advA & logB & advB & RA & RB & Epa & Epb & VA & VB & -> & Epl)%round_plan_parts.
  destruct (plan_exact H _ (mkPeer advA advB) _ (advertise_wf _ _ _ _ _ _ _ _ VA (NoDup_nil_2)) (advertise_wf _ _ _ _ _ _ _ _ VB (NoDup_nil_2)) Epl)
    as (PA & PB & _). cbn [p_tierA p_tierB] in PA, PB.
  split; [done|]. split; [done|]. split; [|split; [|split]].
  - intros t w. unfold wants. rewrite PA. unfold plannedA, asks, skipA, mineA, hashesA. cbn [unreadableA l_tierA].
    setoid_rewrite (advertise_spec _ _ _ _ _ _ _ t _ VA). split.
    + intros ((e & (Ht & Hk & d & Hd & ->) & Hs & Hw & m & theirs & Em & Hne & Hf & ->) & Hw').
      cbn [fst snd] in *. bools. rewrite (read_tables_unreadable _ _ _ _ _ _ _ _ _ t RA) in Hs.
      split; [done|]. split; [eauto|]. split; [done|].
      destruct (tierARecordHashes s t) as [mine|e'] eqn:Er.
      * rewrite (read_tables_ok _ _ _ _ _ _ _ _ _ t mine RA Hk Er) in *. cbn in *. by exists mine, m, d, theirs.
      * exfalso. apply Hs. right. eauto.
    + intros (Hk & (pa' & Epa' & Ht) & Hw & mine & m & d & theirs & Er & Em & Hd & Hne & Hf & ->).
      rewrite Epa in Epa'. apply Ok_inj in Epa' as <-. split; [|done].
      exists (d, λ _, tierARecordHashes peer t). split; [eauto 6|].
      rewrite (read_tables_ok _ _ _ _ _ _ _ _ _ t mine RA Hk Er). cbn [default from_option fst snd id].
      split; [|split; [done|by exists m, theirs]]. apply bool_decide_eq_false.
      rewrite (read_tables_unreadable _ _ _ _ _ _ _ _ _ t RA). intros [?%not_elem_of_nil|(_ & e & He)]; [done|congruence].
  - intros t w. unfold wants. rewrite PB. unfold plannedB, asks, skipB, mineB, versionsB. cbn [unreadableB l_tierB].
    setoid_rewrite (advertise_spec _ _ _ _ _ _ _ t _ VB). split.
    + intros ((e & (Ht & Hk & d & Hd & ->) & Hs & Hw & m & theirs & Em & Hne & Hf & ->) & Hw').
      cbn [fst snd] in *. bools. rewrite (read_tables_unreadable _ _ _ _ _ _ _ _ _ t RB) in Hs.
      split; [done|]. split; [eauto|]. split; [done|].
      destruct (tierBVersions s t) as [mine|e'] eqn:Er.
      * rewrite (read_tables_ok _ _ _ _ _ _ _ _ _ t mine RB Hk Er) in *. cbn in *. apply Ok_inj in Em as <-. by exists mine, d, theirs.
      * exfalso. apply Hs. right. eauto.
    + intros (Hk & (pb' & Epb' & Ht) & Hw & mine & d & theirs & Er & Hd & Hne & Hf & ->).
      rewrite Epb in Epb'. apply Ok_inj in Epb' as <-. split; [|done].
      exists (d, λ _, tierBVersions peer t). split; [eauto 6|].
      rewrite (read_tables_ok _ _ _ _ _ _ _ _ _ t mine RB Hk Er). cbn [default from_option fst snd id].
      split; [|split; [done|by exists (tierBTableDigest H mine), theirs]]. apply bool_decide_eq_false.
      rewrite (read_tables_unreadable _ _ _ _ _ _ _ _ _ t RB). intros [?%not_elem_of_nil|(_ & e & He)]; [done|congruence].
  - by rewrite (read_tables_failures _ _ _ _ _ _ _ _ _ RB), (read_tables_failures _ _ _ _ _ _ _ _ _ RA).
  - intros pa' pb' Epa' Epb'. rewrite Epa in Epa'. rewrite Epb in Epb'. apply Ok_inj in Epa' as <-. apply Ok_inj in Epb' as <-.
    by rewrite (advertise_log _ _ _ _ _ _ _ _ VA), (advertise_log _ _ _ _ _ _ _ _ VB).
Qed.

(** What a round pulls.  A table is planned exactly when the local node tracks it
    and could read it, the peer advertises it, and the digests differ; and what
    is asked for is what the peer's detail has and the local node lacks or has
    in another version.  So a table the local node does not know, or could not
    read, is never pulled; the unreadable tables are reported as failures, and
    the unknown ones to the caller. *)
Theorem round_pulls_exactly (s : S) (peer : P) log la lb fs plan :
  round_plan H s peer = (log, Ok (la, lb, fs, plan)) →
  tierATables s = Ok la ∧ tierBTables s = Ok lb ∧
  (∀ t w, wants (planA plan) t w ↔ plannedA s peer la t w) ∧
  (∀ t w, wants (planB plan) t w ↔ plannedB s peer lb t w) ∧
  fs = read_failures (tierARecordHashes s) TA la ++ read_failures (tierBVersions s) TB lb ∧
  (∀ pa pb, tierATables peer = Ok pa → tierBTables peer = Ok pb → log = unknown TA la pa ++ unknown TB lb pb).
Proof. apply round_plan_exact. Qed.

End Round.
End AntiEntropyTheorems.
