(* ===== verification/AntiEntropyConvergence.v ===== *)
(** Convergence of anti-entropy: what the round promises when both nodes' stores
    keep the obligations the engine's header states.  A store that serves what
    it advertises, inserts what it lacks and merges versions by a join ends a
    round with the join of both states; after one round in each direction the
    two nodes agree, and a further round asks for nothing. *)
From S2P Require Import Prelude Text JsMap Json Reconcile ReconcileTheorems AntiEntropy AntiEntropyTheorems.
Import Text JsMap Json Reconcile ReconcileTheorems AntiEntropy AntiEntropyTheorems.

Module AntiEntropyConvergence.

(** * The obligations of a store *)

(** The join of two optional versions of one key. *)
Definition ojoin (vjoin : string → string → string) (a b : option string) : option string :=
  union_with (λ x y, Some (vjoin x y)) a b.

(** The version a list of records carries for a key. *)
Definition served_version {Body} (ver : TierBRecord Body → string) (rs : list (TierBRecord Body)) (k : string)
    : option string := ver <$> List.find (λ r, bool_decide (rec_key r = k)) rs.

(** [la] and [lb] are the registries; [hs] and [vs] what the store holds: the
    record hashes of a table, and the versions of its keys.  The Tier-A law says
    that no two records compete for a natural key. *)
Class LawfulStore {S Body : Type} `{!AeStoreView S Body} (H : string → string) (la lb : list string)
    (vjoin : string → string → string) (ver : string → TierBRecord Body → string)
    (ok : S → Prop) (hs : S → string → list string) (vs : S → string → jsmap string string) : Prop := {
  law_registry : NoDup la ∧ NoDup lb;
  law_tables s : ok s → tierATables s = Ok la ∧ tierBTables s = Ok lb;
  law_hashes s t : ok s → t ∈ la →
    tierARecordHashes s t = Ok (hs s t) ∧ Forall (λ h, is_record_hash h = true) (hs s t) ∧
    tierATableDigest s t = computeTableDigest H (hs s t);
  law_versions s t : ok s → t ∈ lb →
    tierBVersions s t = Ok (vs s t) ∧ jwf (vs s t) ∧
    store_tierBTableDigest s t = Ok (tierBTableDigest H (vs s t));
  law_serveA s t w : ok s → t ∈ la → w ⊆ hs s t →
    ∃ rs, serveTierA s t w = Ok rs ∧ map rec_hash rs = w;
  law_serveB s t w : ok s → t ∈ lb → NoDup w → w ⊆ jkeys (vs s t) →
    ∃ rs, serveTierB s t w = Ok rs ∧ map rec_key rs = w ∧
      ∀ r, r ∈ rs → jget (vs s t) (rec_key r) = Some (ver t r);
  law_applyA s t rs : ok s → t ∈ la → Forall (λ r, is_record_hash (rec_hash r) = true) rs →
    ∃ s' n, applyTierA s t rs = (s', Ok n) ∧ ok s' ∧
      (∀ x, x ∈ hs s' t ↔ x ∈ hs s t ∨ x ∈ map rec_hash rs) ∧
      (∀ t', t' ≠ t → hs s' t' = hs s t') ∧ (∀ t', vs s' t' = vs s t');
  law_applyB s t rs : ok s → t ∈ lb → NoDup (map rec_key rs) →
    ∃ s' res, applyTierB s t rs = (s', Ok res) ∧ ok s' ∧
      ((0 < ar_divergent res)%Z → is_Some (ar_verdict res)) ∧
      (∀ k, jget (vs s' t) k = ojoin vjoin (jget (vs s t) k) (served_version (ver t) rs k)) ∧
      (∀ t', t' ≠ t → vs s' t' = vs s t') ∧ (∀ t', hs s' t' = hs s t');
}.

(** The laws of the join of versions. *)
Class VersionJoin (vjoin : string → string → string) : Prop := {
  vjoin_idem a : vjoin a a = a;
  vjoin_comm a b : vjoin a b = vjoin b a;
  vjoin_assoc a b c : vjoin (vjoin a b) c = vjoin a (vjoin b c);
}.

Section Join.
Context (vjoin : string → string → string) `{!VersionJoin vjoin}.

Lemma ojoin_idem a : ojoin vjoin a a = a.
Proof. destruct a; cbn; [|done]. by rewrite vjoin_idem. Qed.

Lemma ojoin_comm a b : ojoin vjoin a b = ojoin vjoin b a.
Proof. destruct a, b; cbn; try done. by rewrite vjoin_comm. Qed.

Lemma ojoin_absorb a b : ojoin vjoin b (ojoin vjoin a b) = ojoin vjoin a b.
Proof.
  destruct a, b; cbn; try done; [|by rewrite vjoin_idem].
  by rewrite (vjoin_comm s s0), <- vjoin_assoc, vjoin_idem.
Qed.

Lemma ojoin_none_r a : ojoin vjoin a None = a.
Proof. by destruct a. Qed.

(** Pulling only where the versions differ gives the join everywhere. *)
Lemma ojoin_pulled a b c : (a ≠ b → c = b) → c = b ∨ c = None → ojoin vjoin a c = ojoin vjoin a b.
Proof.
  intros H1 [->| ->]; [done|]. destruct (decide (a = b)) as [->|Hn].
  - by rewrite ojoin_idem, ojoin_none_r.
  - by rewrite <- (H1 Hn).
Qed.
End Join.

(** * Totality of the first phase *)

Lemma advertise_total {D} digest (fetch : string → unit → result ae_error D) tr known ts m :
  (∀ t, t ∈ ts → ∃ d, digest t = Ok d) → ∃ log m', advertise digest fetch tr known ts m = (log, Ok m').
Proof.
  revert m. induction ts as [|t ts IH]; intros m Hd; cbn [advertise]; [by do 2 eexists|].
  assert (∀ t, t ∈ ts → ∃ d, digest t = Ok d) as Hd' by (intros t' Ht'; apply Hd; by right).
  destruct (negb _).
  - destruct (IH m Hd') as (log & m' & ->). by do 2 eexists.
  - destruct (Hd t) as [d ->]; [left|]. by apply IH.
Qed.

Lemma read_failures_nil {D} (read : string → result ae_error D) tr ts :
  (∀ t, t ∈ ts → ∃ d, read t = Ok d) → read_failures read tr ts = [].
Proof.
  induction ts as [|t ts IH]; intros Hr; [done|]. unfold read_failures. cbn [omap list_omap].
  destruct (Hr t) as [d ->]; [left|]. apply IH. intros t' Ht'. apply Hr. by right.
Qed.

Lemma unknown_nil tr known ts : ts ⊆ known → unknown tr known ts = [].
Proof.
  unfold unknown. induction ts as [|t ts IH]; intros Hs; [done|]. cbn [List.filter].
  rewrite bool_decide_eq_true_2 by (apply Hs; left). apply IH. intros x Hx. apply Hs. by right.
Qed.

Section Convergence.
Variable H : string → string.
Context {S Body : Type} `{!AeStoreView S Body} (la lb : list string) (vjoin : string → string → string)
  (ver : string → TierBRecord Body → string) (ok : S → Prop) (hs : S → string → list string)
  (vs : S → string → jsmap string string).
Context `{L : !LawfulStore H la lb vjoin ver ok hs vs}.

Lemma digest_total l : Forall (λ h, is_record_hash h = true) l → ∃ d, computeTableDigest H l = Ok d.
Proof. intros Hl. eexists. by apply digest_ok. Qed.

(** With lawful stores a plan is always made, and nothing fails before it. *)
Lemma round_plan_lawful (s p : S) :
  ok s → ok p → ∃ plan, round_plan H s p = ([], Ok (la, lb, [], plan)).
Proof.
  intros Hs Hp. destruct (law_tables s Hs) as [Ta Tb], (law_tables p Hp) as [Pa Pb].
  assert (∃ log fs plan, round_plan H s p = (log, Ok (la, lb, fs, plan))) as (log & fs & plan & E).
  { unfold round_plan, localState, peerAdvertisement. rewrite Ta, Tb. cbn [mbind result_bind].
    rewrite local_tierA_read. destruct (read_tables _ TA _ _ _ _) as [[mA uA] fA] eqn:RA.
    rewrite local_tierB_read. destruct (read_tables _ TB _ _ _ _) as [[mB uB] fB] eqn:RB.
    cbn [mbind result_bind]. rewrite Pa, advertise_tierA_eq.
    destruct (advertise_total (tierATableDigest p) (λ t _, tierARecordHashes p t) TA la la []) as (logA & advA & VA).
    { intros t Ht. destruct (law_hashes p t Hp Ht) as (_ & Hf & ->). by apply digest_total. }
    rewrite VA, Pb, advertise_tierB_eq.
    destruct (advertise_total (store_tierBTableDigest p) (λ t _, tierBVersions p t) TB lb lb []) as (logB & advB & VB).
    { intros t Ht. destruct (law_versions p t Hp Ht) as (_ & _ & ->). by eexists. }
    rewrite VB. cbn [mbind result_bind].
    assert (jwf advA) as WA by exact (advertise_wf _ _ _ _ _ _ _ _ VA NoDup_nil_2).
    assert (jwf advB) as WB by exact (advertise_wf _ _ _ _ _ _ _ _ VB NoDup_nil_2).
    destruct (plan_total H (mkLocal mA mB uA uB) (mkPeer advA advB)) as [plan Epl].
    - intros t e He%jget_elem_iff _; [|done]. apply (advertise_spec _ _ _ _ _ _ _ _ _ VA) in He as (_ & Ht & d & _ & ->).
      destruct (law_hashes p t Hp Ht) as (Eh & _ & _). split; [|by eexists].
      destruct (law_hashes s t Hs Ht) as (Eh' & Hf & _). unfold mineA, hashesA. cbn [l_tierA].
      rewrite (read_tables_ok _ _ _ _ _ _ _ _ _ t _ RA Ht Eh'). by apply digest_total.
    - intros t e He%jget_elem_iff; [|done]. apply (advertise_spec _ _ _ _ _ _ _ _ _ VB) in He as (_ & Ht & d & _ & ->).
      destruct (law_versions p t Hp Ht) as (Eh & _ & _). by eexists.
    - rewrite Epl. by do 3 eexists. }
  exists plan. destruct (round_plan_exact H s p _ _ _ _ _ E) as (_ & _ & _ & _ & Hf & Hl).
  rewrite E, Hf, (Hl la lb Pa Pb), !read_failures_nil, !unknown_nil; [done|done|done| |].
  - intros t Ht. destruct (law_versions s t Hs Ht) as (-> & _). by eexists.
  - intros t Ht. destruct (law_hashes s t Hs Ht) as (-> & _). by eexists.
Qed.

(** ** Tier A *)

Lemma one_tableA p s t w :
  ok p → ok s → t ∈ la → w ⊆ hs p t →
  let s' := stepA p s t w in
  throwsA p s t w = None ∧ ok s' ∧ (∀ x, x ∈ hs s' t ↔ x ∈ hs s t ∨ x ∈ w) ∧
  (∀ t', t' ≠ t → hs s' t' = hs s t') ∧ (∀ t', vs s' t' = vs s t').
Proof.
  intros Hp Hs Ht Hw. destruct (law_serveA p t w Hp Ht Hw) as (rs & Er & Em).
  destruct (law_applyA s t rs Hs Ht) as (s' & n & Ea & Hok & Hx & Ho & Hv).
  { destruct (law_hashes p t Hp Ht) as (_ & Hf & _). apply list.Forall_forall.
    intros r Hr. apply (proj1 (list.Forall_forall _ _) Hf), Hw. rewrite <- Em.
    by apply (list_elem_of_fmap_2 rec_hash). }
  unfold stepA, throwsA. rewrite Er, Ea. cbn [fst snd]. rewrite Em in Hx. done.
Qed.

(** The same for a table of the loop, wanted or not. *)
Lemma table_lawfulA p plan s t :
  ok p → ok s → t ∈ la → (∀ w, wants plan t w → w ⊆ hs p t) →
  let s' := table_step (stepA p) plan s t in
  (∀ w, wants plan t w → throwsA p s t w = None) ∧ ok s' ∧
  (∀ x, x ∈ hs s' t ↔ x ∈ hs s t ∨ x ∈ default [] (jget plan t)) ∧
  (∀ t', t' ≠ t → hs s' t' = hs s t') ∧ (∀ t', vs s' t' = vs s t').
Proof.
  intros Hp Hs Ht Hw. unfold table_step.
  destruct (jget plan t) as [[|x w]|] eqn:Ew; cbn [default from_option id].
  2: { assert (wants plan t (x :: w)) as Hww by done.
       destruct (one_tableA p s t (x :: w) Hp Hs Ht (Hw _ Hww)) as (E1 & ?).
       split; [|done]. intros w' [Ew' _]. rewrite Ew in Ew'. by injection Ew' as <-. }
  all: split; [intros w [Ew' Hne]; congruence|]; split; [done|]; split; [|done];
    intros x; rewrite elem_of_nil; tauto.
Qed.

Lemma steps_lawfulA p plan ts s :
  ok p → ok s → NoDup ts → ts ⊆ la → (∀ t w, wants plan t w → w ⊆ hs p t) →
  let s' := steps (stepA p) plan s ts in
  ok s' ∧ (∀ t x, x ∈ hs s' t ↔ x ∈ hs s t ∨ (t ∈ ts ∧ x ∈ default [] (jget plan t))) ∧
  (∀ t, vs s' t = vs s t) ∧ (∀ i t e, ¬ threw_at (stepA p) (throwsA p) plan s ts i t e).
Proof.
  intros Hp Hs Hd Hl Hw. revert s Hs Hd Hl. induction ts as [|t ts IH]; intros s Hs Hd Hl.
  { cbn. split; [done|]. split; [|split; [done|by intros i t e [? _]]].
    intros t x. rewrite elem_of_nil. tauto. }
  apply list.NoDup_cons in Hd as [Hn Hd].
  destruct (table_lawfulA p plan s t Hp Hs) as (Hno & Hok & Hx & Ho & Hv); [apply Hl; left|apply Hw|].
  destruct (IH (table_step (stepA p) plan s t) Hok Hd) as (K1 & K2 & K3 & K4); [intros x Hin; apply Hl; by right|].
  unfold steps in *. cbn [foldl]. split; [exact K1|]. split; [|split].
  - intros t' x. rewrite K2, elem_of_cons. destruct (decide (t' = t)) as [->|Hne].
    + rewrite Hx. tauto.
    + rewrite Ho by done. tauto.
  - intros t'. by rewrite <- Hv, <- K3.
  - intros [|i] t' e; [|apply K4].
    rewrite threw_at_0. intros (<- & w & Hww & He). rewrite Hno in He; done.
Qed.

(** ** Tier B *)

Lemma served_version_eq p t w rs k :
  map rec_key rs = w → (∀ r, r ∈ rs → jget (vs p t) (rec_key r) = Some (ver t r)) →
  served_version (ver t) rs k = if decide (k ∈ w) then jget (vs p t) k else None.
Proof.
  intros <- Hr. unfold served_version. induction rs as [|r rs IH]; cbn.
  - by rewrite decide_False by apply not_elem_of_nil.
  - case_bool_decide as E.
    + rewrite decide_True by (rewrite E; left). cbn. rewrite <- E. symmetry. apply Hr. left.
    + rewrite IH by (intros; apply Hr; by right).
      destruct (decide (k ∈ map rec_key rs)) as [Hi|Hi].
      * by rewrite decide_True by (by right).
      * rewrite decide_False; [done|]. rewrite elem_of_cons. intros [->|]; done.
Qed.

Lemma one_tableB p s t w :
  ok p → ok s → t ∈ lb → NoDup w → w ⊆ jkeys (vs p t) →
  let s' := stepB p s t w in
  throwsB p s t w = None ∧ ok s' ∧
  (∀ k, jget (vs s' t) k = ojoin vjoin (jget (vs s t) k) (if decide (k ∈ w) then jget (vs p t) k else None)) ∧
  (∀ t', t' ≠ t → vs s' t' = vs s t') ∧ (∀ t', hs s' t' = hs s t').
Proof.
  intros Hp Hs Ht Hd Hw. destruct (law_serveB p t w Hp Ht Hd Hw) as (rs & Er & Em & Hv).
  destruct (law_applyB s t rs Hs Ht) as (s' & res & Ea & Hok & Hdv & Hx & Ho & Hh); [by rewrite Em|].
  unfold stepB, throwsB. rewrite Er, Ea. cbn [fst snd]. split; [|split; [done|split; [|done]]].
  - destruct (0 <? ar_divergent res)%Z eqn:E; [|done]. bools. by destruct (Hdv E) as [v ->].
  - intros k. by rewrite Hx, (served_version_eq p t w rs k Em Hv).
Qed.

(** What a key of a table becomes when the keys of the plan are pulled. *)
Definition pulled_version (p : S) (plan : jsmap string (list string)) (s : S) (t k : string) : option string :=
  ojoin vjoin (jget (vs s t) k) (if decide (k ∈ default [] (jget plan t)) then jget (vs p t) k else None).

Lemma table_lawfulB p plan s t :
  ok p → ok s → t ∈ lb → (∀ w, wants plan t w → NoDup w ∧ w ⊆ jkeys (vs p t)) →
  let s' := table_step (stepB p) plan s t in
  (∀ w, wants plan t w → throwsB p s t w = None) ∧ ok s' ∧
  (∀ k, jget (vs s' t) k = pulled_version p plan s t k) ∧
  (∀ t', t' ≠ t → vs s' t' = vs s t') ∧ (∀ t', hs s' t' = hs s t').
Proof.
  intros Hp Hs Ht Hw. unfold table_step, pulled_version.
  destruct (jget plan t) as [[|x w]|] eqn:Ew; cbn [default from_option id].
  2: { assert (wants plan t (x :: w)) as Hww by done. destruct (Hw _ Hww) as [Hd Hi].
       destruct (one_tableB p s t (x :: w) Hp Hs Ht Hd Hi) as (E1 & ?).
       split; [|done]. intros w' [Ew' _]. rewrite Ew in Ew'. by injection Ew' as <-. }
  all: split; [intros w [Ew' Hne]; congruence|]; split; [done|]; split; [|done];
    intros k; by rewrite decide_False, ojoin_none_r by apply not_elem_of_nil.
Qed.

Lemma steps_lawfulB p plan ts s :
  ok p → ok s → NoDup ts → ts ⊆ lb → (∀ t w, wants plan t w → NoDup w ∧ w ⊆ jkeys (vs p t)) →
  let s' := steps (stepB p) plan s ts in
  ok s' ∧ (∀ t k, t ∈ ts → jget (vs s' t) k = pulled_version p plan s t k) ∧
  (∀ t, t ∉ ts → vs s' t = vs s t) ∧
  (∀ t, hs s' t = hs s t) ∧ (∀ i t e, ¬ threw_at (stepB p) (throwsB p) plan s ts i t e).
Proof.
  intros Hp Hs Hd Hl Hw. revert s Hs Hd Hl. induction ts as [|t ts IH]; intros s Hs Hd Hl.
  { cbn. split; [done|]. split; [by intros t k ?%not_elem_of_nil|]. split; [done|]. split; [done|by intros i t e [? _]]. }
  apply list.NoDup_cons in Hd as [Hn Hd].
  destruct (table_lawfulB p plan s t Hp Hs) as (Hno & Hok & Hx & Ho & Hv); [apply Hl; left|apply Hw|].
  destruct (IH (table_step (stepB p) plan s t) Hok Hd) as (K1 & K2 & K3 & K4 & K5); [intros x Hin; apply Hl; by right|].
  unfold steps in *. cbn [foldl]. split; [exact K1|]. split; [|split; [|split]].
  - intros t' k Hin. destruct (decide (t' = t)) as [->|Hne].
    + rewrite K3 by done. apply Hx.
    + apply elem_of_cons in Hin as [?|Hin]; [done|]. rewrite K2 by done. unfold pulled_version. by rewrite Ho.
  - intros t' [Hne Hnt]%not_elem_of_cons. rewrite K3 by done. by apply Ho.
  - intros t'. by rewrite <- Hv, <- K4.
  - intros [|i] t' e; [|apply K5].
    rewrite threw_at_0. intros (<- & w & Hww & He). rewrite Hno in He; done.
Qed.

(** ** One round *)

(** Everything two nodes hash to compare their tables. *)
Definition compared (s p : S) : list string :=
  concat (map (λ t, digest_inputs H (hs s t) ++ digest_inputs H (hs p t)) la) ++
  concat (map (λ t, [versions_text (vs s t); versions_text (vs p t)]) lb).

Lemma compared_A s p t : t ∈ la → digest_inputs H (hs s t) ++ digest_inputs H (hs p t) ⊆ compared s p.
Proof.
  intros Ht x Hx. unfold compared. rewrite elem_of_app. left. apply list_elem_of_In, in_concat.
  eexists. split; [|by apply list_elem_of_In]. apply in_map_iff. exists t. split; [done|]. by apply list_elem_of_In.
Qed.

Lemma compared_B s p t : t ∈ lb → [versions_text (vs s t); versions_text (vs p t)] ⊆ compared s p.
Proof.
  intros Ht x Hx. unfold compared. rewrite elem_of_app. right. apply list_elem_of_In, in_concat.
  eexists. split; [|by apply list_elem_of_In]. apply in_map_iff. exists t. split; [done|]. by apply list_elem_of_In.
Qed.

(** [s'] holds what [s] and [p] hold together. *)
Definition joined (s p s' : S) : Prop :=
  (∀ t, t ∈ la → ∀ x, x ∈ hs s' t ↔ x ∈ hs s t ∨ x ∈ hs p t) ∧
  (∀ t, t ∈ lb → ∀ k, jget (vs s' t) k = ojoin vjoin (jget (vs s t) k) (jget (vs p t) k)).

Lemma all_or {A} (P : A → Prop) (C : Prop) (l : list A) : (∀ t, t ∈ l → P t ∨ C) → (∀ t, t ∈ l → P t) ∨ C.
Proof.
  induction l as [|x l IH]; intros Hl; [left; by intros t ?%not_elem_of_nil|].
  destruct (Hl x) as [Hx|]; [left| |by right].
  destruct IH as [HA|]; [intros t Ht; apply Hl; by right| |by right].
  left. by intros t [->|Ht]%elem_of_cons; [|apply HA].
Qed.

Lemma elem_wanted plan t (x : string) : x ∈ default [] (jget plan t) ↔ ∃ w, wants plan t w ∧ x ∈ w.
Proof.
  unfold wants. destruct (jget plan t) as [w|]; cbn.
  - split; [|by intros (w' & [[= <-] _] & ?)]. intros Hx. exists w. split; [|done]. split; [done|].
    intros ->. by apply not_elem_of_nil in Hx.
  - split; [by intros ?%not_elem_of_nil|]. by intros (? & [? _] & _).
Qed.

(** Equal digests, or a difference that is asked for. *)
Lemma plannedA_covers s p plan t :
  (∀ x, String.length (H x) = 64) → ok s → ok p → t ∈ la →
  (∀ w, wants plan t w ↔ plannedA H s p la t w) →
  (∀ x, x ∈ hs s t ∨ x ∈ default [] (jget plan t) ↔ x ∈ hs s t ∨ x ∈ hs p t) ∨
  collision_among H (compared s p).
Proof.
  intros HW Hs Hp Ht HP. setoid_rewrite elem_wanted. setoid_rewrite HP.
  destruct (law_hashes s t Hs Ht) as (Rs & Fs & Ds), (law_hashes p t Hp Ht) as (Rp & Fp & Dp).
  destruct (digest_total _ Fs) as [m Em], (digest_total _ Fp) as [d Ed].
  destruct (missing_locally_exact (hs s t) (hs p t)) as (_ & HM & _).
  destruct (decide (d = m)) as [->|Hne].
  - destruct (table_digest_exact H _ _ _ _ HW Em Ed) as [_ [Hset|Hc]]; [done| |right].
    + left. intros x. rewrite <- (Hset x). split; [|tauto]. intros [?|(w & (_ & _ & _ & mine & m' & d' & theirs & R1 & E1 & E2 & Hn & _) & _)]; [by left|].
      exfalso. rewrite Rs in R1. apply Ok_inj in R1 as <-. rewrite Dp in E2. congruence.
    + exact (collision_mono _ _ _ (compared_A s p t Ht) Hc).
  - left. intros x. split.
    + intros [?|(w & (_ & _ & _ & mine & m' & d' & theirs & R1 & _ & _ & _ & R2 & ->) & Hx)]; [by left|right].
      rewrite Rs in R1. rewrite Rp in R2. apply Ok_inj in R1 as <-. apply Ok_inj in R2 as <-. by apply HM in Hx as [].
    + intros [?|Hx]; [by left|]. destruct (decide (x ∈ hs s t)) as [|Hn]; [by left|right].
      assert (x ∈ missingLocally (hs s t) (hs p t)) as Hin by (by apply HM).
      exists (missingLocally (hs s t) (hs p t)). split; [|done]. split; [done|].
      destruct (law_tables p Hp) as [Tp _]. split; [by exists la|].
      split; [intros E; rewrite E in Hin; by apply not_elem_of_nil in Hin|].
      exists (hs s t), m, d, (hs p t). by rewrite Dp.
Qed.

Lemma plannedB_covers `{!VersionJoin vjoin} s p plan t :
  ok s → ok p → t ∈ lb → (∀ w, wants plan t w ↔ plannedB H s p lb t w) →
  (∀ k, pulled_version p plan s t k = ojoin vjoin (jget (vs s t) k) (jget (vs p t) k)) ∨
  collision_among H (compared s p).
Proof.
  intros Hs Hp Ht HP.
  destruct (law_versions s t Hs Ht) as (Rs & Ws & Ds), (law_versions p t Hp Ht) as (Rp & Wp & Dp).
  destruct (version_map_exact H (vs s t) (vs p t) Ws Wp) as (HK & _ & _ & HD).
  destruct (decide (tierBTableDigest H (vs p t) = tierBTableDigest H (vs s t))) as [E|Hne].
  - destruct HD as [Hall|Hc]; [done| |right].
    + left. intros k. unfold pulled_version. apply ojoin_pulled; [done|intros []; apply Hall|]. case_decide; [by left|by right].
    + exact (collision_mono _ _ _ (compared_B s p t Ht) Hc).
  - left. intros k. unfold pulled_version. apply ojoin_pulled; [done| |case_decide; [by left|by right]].
    intros Hk. destruct (jget (vs p t) k) as [v|] eqn:Ev; [|by case_decide].
    rewrite decide_True; [done|]. apply elem_wanted.
    assert (k ∈ versionKeysToPull (vs s t) (vs p t)) as Hin by (apply HK; eauto).
    exists (versionKeysToPull (vs s t) (vs p t)). split; [|done]. apply HP. split; [done|].
    destruct (law_tables p Hp) as [_ Tp]. split; [by exists lb|].
    split; [intros E; rewrite E in Hin; by apply not_elem_of_nil in Hin|].
    exists (vs s t), (tierBTableDigest H (vs p t)), (vs p t). done.
Qed.

Lemma round_joins_exact `{!VersionJoin vjoin} (s p : S) :
  (∀ x, String.length (H x) = 64) → ok s → ok p →
  ∃ s' r, runAntiEntropyRound H s p = (s', [], Ok r) ∧ failures r = [] ∧ ok s' ∧
    (joined s p s' ∨ collision_among H (compared s p)).
Proof.
  intros HW Hs Hp. destruct (round_plan_lawful s p Hs Hp) as [plan E].
  destruct (round_plan_exact H s p _ _ _ _ _ E) as (_ & _ & PA & PB & _).
  pose proof (round_outcome H s p _ _ _ _ _ E) as O. cbv zeta in O.
  destruct law_registry as [Da Db].
  destruct (steps_lawfulA p (planA plan) la s Hp Hs Da) as (OkA & HA & HvA & NA); [done| |].
  { intros t w (Ht & _ & _ & mine & _ & _ & theirs & _ & _ & _ & _ & R & ->)%PA x Hx.
    destruct (law_hashes p t Hp Ht) as (Rp & _). rewrite Rp in R. apply Ok_inj in R as <-.
    by apply missing_locally_exact in Hx as []. }
  fold (afterA p plan s la) in *. set (sA := afterA p plan s la) in *.
  destruct (steps_lawfulB p (planB plan) lb sA Hp OkA Db) as (OkB & HB & _ & HhB & NB); [done| |].
  { intros t w (Ht & _ & _ & mine & _ & theirs & _ & _ & _ & R & ->)%PB.
    destruct (law_versions p t Hp Ht) as (Rp & Wp & _). rewrite Rp in R. apply Ok_inj in R as <-.
    split; [by apply version_keys_NoDup|]. intros k (v & Hv & _)%version_keys_elem; [|done].
    apply jget_elem in Hv. by apply (list_elem_of_fmap_2 fst) in Hv. }
  fold (afterB p plan sA lb) in *.
  destruct (runAntiEntropyRound H s p) as [[s' log'] [r|e]].
  2:{ exfalso. destruct O as (_ & _ & [(i & t & Ht & _)|(i & t & Ht & _)]); [by apply NA in Ht|by apply NB in Ht]. }
  destruct O as (-> & -> & _ & _ & fa & fb & Ef & Hfa & Hfb).
  assert (fa = []) as ->.
  { destruct fa as [|f fa]; [done|]. destruct (proj1 (Hfa f)) as (i & t & e & Ht & _); [left|]. by apply NA in Ht. }
  assert (fb = []) as ->.
  { destruct fb as [|f fb]; [done|]. destruct (proj1 (Hfb f)) as (i & t & e & Ht & _); [left|]. by apply NB in Ht. }
  eexists _, r. split; [reflexivity|]. split; [by rewrite Ef|]. split; [done|].
  destruct (all_or _ _ la (λ t Ht, plannedA_covers s p (planA plan) t HW Hs Hp Ht (PA t))) as [CA|]; [|by right].
  destruct (all_or _ _ lb (λ t Ht, plannedB_covers s p (planB plan) t Hs Hp Ht (PB t))) as [CB|]; [|by right].
  left. split.
  - intros t Ht x. rewrite HhB, HA, <- (CA t Ht x). tauto.
  - intros t Ht k. rewrite HB by done. rewrite <- CB by done. unfold pulled_version. by rewrite HvA.
Qed.

(** One round joins.  With lawful stores a round always completes, without a failure
    and without reporting an unknown table, and leaves the local node with the
    union of the two nodes' records and the join of their versions, unless two of
    the strings hashed in the comparison collide. *)
Theorem round_joins `{!VersionJoin vjoin} (s p : S) :
  (∀ x, String.length (H x) = 64) → ok s → ok p →
  ∃ s' r, runAntiEntropyRound H s p = (s', [], Ok r) ∧ failures r = [] ∧ ok s' ∧
    (joined s p s' ∨ collision_among H (compared s p)).
Proof. apply round_joins_exact. Qed.

(** ** Two rounds *)

Definition agree (s p : S) : Prop :=
  (∀ t, t ∈ la → same_set (hs s t) (hs p t)) ∧
  (∀ t, t ∈ lb → ∀ k, jget (vs s t) k = jget (vs p t) k).

Lemma steps_idle step plan (s : S) ts : (∀ t w, ¬ wants plan t w) → steps step plan s ts = s.
Proof.
  intros Hn. unfold steps. induction ts as [|t ts IH]; [done|]. cbn [foldl].
  replace (table_step step plan s t) with s; [done|]. unfold table_step.
  destruct (jget plan t) as [[|x w]|] eqn:Ew; [done| |done]. exfalso. by apply (Hn t (x :: w)).
Qed.

Lemma wanted_idle plan ts : (∀ t w, ¬ wants plan t w) → sum_by (λ t, Z.of_nat (wanted plan t)) ts = 0%Z.
Proof.
  intros Hn. induction ts as [|t ts IH]; [done|]. cbn. rewrite IH. unfold wanted.
  destruct (jget plan t) as [[|x w]|] eqn:Ew; [done| |done]. exfalso. by apply (Hn t (x :: w)).
Qed.

(** Nodes that agree leave each other alone. *)
Lemma agree_idle (s p : S) :
  (∀ x, String.length (H x) = 64) → ok s → ok p → agree s p →
  ∃ r, runAntiEntropyRound H s p = (s, [], Ok r) ∧ tierAPlanned r = 0%Z ∧ tierBPlanned r = 0%Z ∧ failures r = [].
Proof.
  intros HW Hs Hp [AA AB]. destruct (round_plan_lawful s p Hs Hp) as [plan E].
  destruct (round_plan_exact H s p _ _ _ _ _ E) as (_ & _ & PA & PB & _).
  assert (∀ t w, ¬ wants (planA plan) t w) as NA.
  { intros t w (Ht & _ & _ & mine & m & d & theirs & R & Em & Ed & Hne & _)%PA.
    destruct (law_hashes s t Hs Ht) as (Rs & _), (law_hashes p t Hp Ht) as (_ & _ & Dp).
    rewrite Rs in R. apply Ok_inj in R as <-. rewrite Dp in Ed.
    destruct (table_digest_exact H _ _ _ _ HW Em Ed) as [HD _]. apply Hne. symmetry. by apply HD, AA. }
  assert (∀ t w, ¬ wants (planB plan) t w) as NB.
  { intros t w (Ht & _ & _ & mine & d & theirs & R & Ed & Hne & _)%PB.
    destruct (law_versions s t Hs Ht) as (Rs & Ws & _), (law_versions p t Hp Ht) as (_ & Wp & Dp).
    rewrite Rs in R. apply Ok_inj in R as <-. rewrite Dp in Ed. apply Ok_inj in Ed as <-.
    destruct (version_map_exact H (vs s t) (vs p t) Ws Wp) as (_ & _ & HD & _). apply Hne. symmetry. by apply HD, AB. }
  pose proof (round_outcome H s p _ _ _ _ _ E) as O. cbv zeta in O. unfold afterA, afterB in O.
  destruct (runAntiEntropyRound H s p) as [[s' log'] [r|e]].
  - rewrite !steps_idle in O by done. destruct O as (-> & -> & Ea & Eb & fa & fb & Ef & Hfa & Hfb).
    exists r. split; [done|]. rewrite Ea, Eb, !wanted_idle by done. split; [done|]. split; [done|].
    rewrite Ef. destruct fa as [|f fa]; [destruct fb as [|f fb]; [done|]|]; exfalso.
    + destruct (proj1 (Hfb f)) as (? & t & ? & (_ & w & Hw & _) & _); [left|]. by apply NB in Hw.
    + destruct (proj1 (Hfa f)) as (? & t & ? & (_ & w & Hw & _) & _); [left|]. by apply NA in Hw.
  - exfalso. destruct O as (_ & _ & [(i & t & (_ & w & Hw & _) & _)|(i & t & (_ & w & Hw & _) & _)]).
    + by apply NA in Hw.
    + by apply NB in Hw.
Qed.

(** C40. Two nodes converge.  After the first node pulled from the second and the second
    from the first, their records and versions agree, and a further round plans
    nothing and leaves the store as it is, unless two of the strings hashed in
    the two comparisons collide. *)
Theorem two_rounds_converge `{!VersionJoin vjoin} (a b : S) :
  (∀ x, String.length (H x) = 64) → ok a → ok b →
  ∃ a' b' r r', runAntiEntropyRound H a b = (a', [], Ok r) ∧ runAntiEntropyRound H b a' = (b', [], Ok r') ∧
    ((agree a' b' ∧
      ∃ r'', runAntiEntropyRound H a' b' = (a', [], Ok r'') ∧
        tierAPlanned r'' = 0%Z ∧ tierBPlanned r'' = 0%Z ∧ failures r'' = []) ∨
     collision_among H (compared a b ++ compared b a')).
Proof.
  intros HW Ha Hb. destruct (round_joins_exact a b HW Ha Hb) as (a' & r & E & _ & Ha' & J).
  destruct (round_joins_exact b a' HW Hb Ha') as (b' & r' & E' & _ & Hb' & J').
  exists a', b', r, r'. split; [done|]. split; [done|].
  destruct J as [[JA JB]|C]; [|right; eapply collision_mono, C; intros x Hx; apply elem_of_app; by left].
  destruct J' as [[JA' JB']|C]; [|right; eapply collision_mono, C; intros x Hx; apply elem_of_app; by right].
  left. assert (agree a' b') as Hag.
  { split.
    - intros t Ht x. rewrite JA', JA by done. tauto.
    - intros t Ht k. rewrite JB', JB by done. symmetry. by apply ojoin_absorb. }
  split; [done|]. by apply agree_idle.
Qed.

End Convergence.

(** * An in-memory store *)

(** One table of each tier; the body of a mutable record is its version, and the
    greater version wins. *)
Record MemStore : Type := mkMem { mem_hashes : list string; mem_versions : jsmap string string }.

Definition vmax (a b : string) : string := if str_geb a b then a else b.

#[global] Instance vmax_join : VersionJoin vmax.
Proof.
  unfold vmax. split.
  - intros a. by destruct (str_geb a a).
  - intros a b. destruct (str_geb a b) eqn:E1, (str_geb b a) eqn:E2; try done.
    + by apply str_geb_antisym.
    + apply str_geb_total in E1. congruence.
  - intros a b c. destruct (str_geb a b) eqn:E1, (str_geb b c) eqn:E2; try done; rewrite ?E1, ?E2; try done.
    + by rewrite (str_geb_trans _ _ _ E1 E2).
    + apply str_geb_total in E1 as E1', E2 as E2'. destruct (str_geb a c) eqn:E3; [|done].
      apply str_geb_antisym; [by eapply str_geb_trans|done].
Qed.

Definition mem_apply_one (m : jsmap string string) (r : TierBRecord string) : jsmap string string :=
  jset m (rec_key r) (match jget m (rec_key r) with Some v => vmax v (rec_bodyB r) | None => rec_bodyB r end).

Definition mem_applyB (m : jsmap string string) (rs : list (TierBRecord string)) : jsmap string string :=
  foldl mem_apply_one m rs.

#[global] Instance mem_view : AeStoreView MemStore string := {|
  tierATables _ := Ok ["signals"];
  tierBTables _ := Ok ["presence"];
  tierATableDigest s _ := computeTableDigest demo_digest (mem_hashes s);
  tierARecordHashes s _ := Ok (mem_hashes s);
  store_tierBTableDigest s _ := Ok (tierBTableDigest demo_digest (mem_versions s));
  tierBVersions s _ := Ok (mem_versions s);
  serveTierA _ _ w := Ok (map (λ h, mkA h h) w);
  serveTierB s _ w := Ok (map (λ k, mkB k (default k (jget (mem_versions s) k))) w);
  applyTierA s _ rs := (mkMem (mem_hashes s ++ map rec_hash rs) (mem_versions s), Ok (Z.of_nat (length rs)));
  applyTierB s _ rs :=
    (mkMem (mem_hashes s) (mem_applyB (mem_versions s) rs), Ok (mkApply (Z.of_nat (length rs)) 0 [] None));
|}.

Definition mem_ok (s : MemStore) : Prop :=
  Forall (λ h, is_record_hash h = true) (mem_hashes s) ∧ jwf (mem_versions s).
Definition mem_hs (s : MemStore) (t : string) : list string := if decide (t = "signals") then mem_hashes s else [].
Definition mem_vs (s : MemStore) (t : string) : jsmap string string := if decide (t = "presence") then mem_versions s else [].

Lemma mem_applyB_wf m rs : jwf m → jwf (mem_applyB m rs).
Proof. revert m. induction rs as [|r rs IH]; intros m Hm; [done|]. cbn. apply IH. by apply jwf_jset. Qed.

Lemma mem_applyB_get m rs k :
  NoDup (map rec_key rs) → jget (mem_applyB m rs) k = ojoin vmax (jget m k) (served_version rec_bodyB rs k).
Proof.
  revert m. induction rs as [|r rs IH]; intros m Hd; [cbn; by destruct (jget m k)|].
  cbn in Hd. apply list.NoDup_cons in Hd as [Hn Hd]. cbn [mem_applyB foldl].
  fold (mem_applyB (mem_apply_one m r) rs). rewrite IH by done. unfold mem_apply_one, served_version. cbn [List.find].
  rewrite jget_jset. case_decide as E; case_bool_decide as E'; try done.
  - subst. destruct (List.find _ rs) as [r'|] eqn:Ef.
    + exfalso. apply find_some_elem in Ef as [Hin Ek]. bools. apply Hn. rewrite <- Ek.
      by apply (list_elem_of_fmap_2 rec_key).
    + cbn. by destruct (jget m (rec_key r)).
Qed.

#[global] Instance mem_lawful :
  LawfulStore demo_digest ["signals"] ["presence"] vmax (λ _, rec_bodyB) mem_ok mem_hs mem_vs.
Proof.
  assert (∀ x y : string, x ∈ [y] → x = y) as K by (by intros x y ?%list_elem_of_singleton).
  split.
  - split; apply NoDup_singleton.
  - done.
  - intros s t [Hf _] ->%K. done.
  - intros s t [_ Hw] ->%K. done.
  - intros s t w _ ->%K _. eexists. split; [done|]. rewrite map_map. apply map_id.
  - intros s t w [_ Hw] ->%K Hd Hs. eexists. split; [done|]. rewrite map_map. split; [apply map_id|].
    intros r (k & -> & Hk)%list_elem_of_fmap. apply Hs in Hk. cbn.
    destruct (jget (mem_versions s) k) as [v|] eqn:E; [done|]. by apply jget_None in E.
  - intros s t rs [Hf Hw] ->%K Hr. do 2 eexists. split; [done|]. split; [|split; [|split; [|done]]].
    + split; [|done]. cbn. apply Forall_app. split; [done|]. by apply Forall_map.
    + intros x. cbn. apply elem_of_app.
    + intros t' Hne. unfold mem_hs. by rewrite !decide_False by done.
  - intros s t rs [Hf Hw] ->%K Hd. do 2 eexists. split; [done|]. split; [|split; [done|split; [|split; [|done]]]].
    + split; [done|]. by apply mem_applyB_wf.
    + intros k. by apply mem_applyB_get.
    + intros t' Hne. unfold mem_vs. by rewrite !decide_False by done.
Qed.

Definition demo_n1 : MemStore := mkMem [demo_a; demo_b] [("k1", "v1"); ("k2", "v5")].
Definition demo_n2 : MemStore := mkMem [demo_b; demo_c] [("k2", "v7"); ("k3", "v1")].

Lemma demo_ok1 : mem_ok demo_n1.
Proof. split; [repeat (constructor; [vm_compute; reflexivity|]); constructor|]. apply (bool_decide_eq_true_1 _). vm_compute. reflexivity. Qed.

Lemma demo_ok2 : mem_ok demo_n2.
Proof. split; [repeat (constructor; [vm_compute; reflexivity|]); constructor|]. apply (bool_decide_eq_true_1 _). vm_compute. reflexivity. Qed.

Lemma round_joins_witness :
  ∃ s' r, runAntiEntropyRound demo_digest demo_n1 demo_n2 = (s', [], Ok r) ∧ failures r = [] ∧ mem_ok s' ∧
    (joined ["signals"] ["presence"] vmax mem_hs mem_vs demo_n1 demo_n2 s' ∨
     collision_among demo_digest (compared demo_digest ["signals"] ["presence"] mem_hs mem_vs demo_n1 demo_n2)).
Proof.
  refine (round_joins demo_digest ["signals"] ["presence"] vmax (λ _, rec_bodyB) mem_ok mem_hs mem_vs
    demo_n1 demo_n2 _ _ _); [exact demo_width|exact demo_ok1|exact demo_ok2].
Defined.

Lemma two_rounds_converge_witness :
  ∃ a' b' r r', runAntiEntropyRound demo_digest demo_n1 demo_n2 = (a', [], Ok r) ∧
    runAntiEntropyRound demo_digest demo_n2 a' = (b', [], Ok r').
Proof.
  destruct (two_rounds_converge demo_digest ["signals"] ["presence"] vmax (λ _, rec_bodyB) mem_ok mem_hs mem_vs
    demo_n1 demo_n2) as (a' & b' & r & r' & E & E' & _); [exact demo_width|exact demo_ok1|exact demo_ok2|].
  exists a', b', r, r'. split; [exact E|exact E'].
Defined.

Definition demo_plan : RoundPlan := mkPlan [("signals", [demo_c])] [("presence", ["k2"; "k3"])].

Lemma demo_round_plan :
  round_plan demo_digest demo_n1 demo_n2 = ([], Ok (["signals"], ["presence"], [], demo_plan)).
Proof. vm_compute. reflexivity. Qed.

Lemma round_pulls_exactly_witness :
  wants (planA demo_plan) "signals" [demo_c] ↔ plannedA demo_digest demo_n1 demo_n2 ["signals"] "signals" [demo_c].
Proof.
  refine (proj1 (proj2 (proj2 (round_pulls_exactly demo_digest demo_n1 demo_n2 _ _ _ _ _ demo_round_plan))) _ _).
Defined.

Lemma round_isolates_failures_witness :
  ∃ s' r, runAntiEntropyRound demo_digest demo_n1 demo_n2 = (s', [], Ok r) ∧ tierBPlanned r = 2%Z ∧
    s' = afterB demo_n2 demo_plan (afterA demo_n2 demo_plan demo_n1 ["signals"]) ["presence"].
Proof.
  assert (∃ s' r, runAntiEntropyRound demo_digest demo_n1 demo_n2 = (s', [], Ok r)) as (s' & r & E).
  { eexists _, _. vm_compute. reflexivity. }
  pose proof (round_isolates_failures demo_digest demo_n1 demo_n2 _ _ _ _ _ demo_round_plan) as P.
  rewrite E in P. destruct P as (_ & Es & _ & Ep & _). exists s', r. split; [exact E|]. split; [exact Ep|exact Es].
Defined.

End AntiEntropyConvergence.
