(* ===== verification/Registration.v ===== *)
(** Registration of operators: the texts, the table and the repository
    (packages/operations-agent/src/registration/otp.ts, phone.ts, repository.ts,
    with the types of packages/interfaces/src/registration-state.ts and the table and its unique
    index of packages/directory/db/migrations/V24__registrations.sql).

    The program runs against an environment: every database statement, message,
    e-mail, gate call and token request may fail, before or after it took
    effect; clocks and random values are functions of a tick that each such call
    advances.  Handlers are actions on the world with exceptions; an exception
    keeps the effects made before it.  Messages are ASCII text; the prose of the
    replies is not modelled, their purpose and the data in them is. *)
From Stdlib Require Import Ascii.
From S2P Require Import Prelude Text JsMap Bytes Effects.
Import Text JsMap Bytes Effects.

Module Registration.

(** * Texts *)

(** [message.match(/^CONTACT:(\S+):(\S+)$/)]: the first group is greedy. *)
Definition contactMatch (message : string) : option (string * string) :=
  match strip_prefix "CONTACT:" message with
  | Some (String c r) =>
      if all_chars (λ x, negb (is_space x)) (String c r) then
        match last_split ":" r with
        | Some (a, b) => Some (String c a, b)
        | None => None
        end
      else None
  | _ => None
  end.

Definition isValidEmail (s : string) : bool :=
  match indexOf "@" s with
  | None | Some 0 => false
  | Some at_ =>
      if negb (bool_decide (lastIndexOf "@" s = Some at_)) then false
      else
        let domain := str_drop (S at_) s in
        match indexOf "." domain with
        | None => false
        | Some dotPos => (0 <? dotPos)%nat && (dotPos <? String.length domain - 1)%nat
        end
  end.

(** [replace(/\D/g, "")], keeping a leading plus. *)
Definition normalizePhone (raw : string) : string :=
  match raw with
  | String "+" r => String "+" (filter_chars is_digit r)
  | _ => filter_chars is_digit raw
  end.

(** [padStart(6, "0")] of the decimal form. *)
Definition pad6 (s : string) : string :=
  sjoin (replicate (6 - String.length s) "0") +:+ s.

(** * The table *)

Inductive channel : Type := telegram | whatsapp | cli.

#[global] Instance channel_eq_dec : EqDecision channel.
Proof. solve_decision. Defined.

(** The keys that the code reads and writes in [state_data]. *)
Record state_data : Type := mkData {
  sd_expectedEmailStubHash : option string;
  sd_contactPrompt : option (Z * Z);
  sd_reason : option string;
}.

Record RegistrationRow : Type := mkRow {
  id : string;
  phone_stub_hash : string;
  r_channel : channel;
  channel_user_id : string;
  r_state : string;
  r_data : state_data;
  email_stub_hash : option string;
  otp_hash : option string;
  otp_salt : option string;
  otp_expires_at : option Z;
  otp_attempt_count : Z;
  created_at : Z;
  updated_at : Z;
  expires_at : Z;
  chain_hash : string;
}.

Inductive RegistrationState : Type :=
| INITIAL
| AWAITING_WAITLIST_TOKEN
| AWAITING_CONTACT
| PHONE_CONFIRMED
| AWAITING_EMAIL
| AWAITING_EMAIL_OTP (otpHash : string) (otpExpiresAt attemptCount : Z)
| EMAIL_CONFIRMED
| PRE_AUTH_TOKEN_ISSUED
| EXPIRED
| FAILED (reason : string).

#[global] Instance RegistrationState_eq_dec : EqDecision RegistrationState.
Proof. solve_decision. Defined.

Record RegistrationRecord : Type := mkRecord {
  rec_id : string;
  phoneStubHash : string;
  rec_channel : channel;
  channelUserId : string;
  createdAt : Z;
  updatedAt : Z;
  expiresAt : Z;
  emailStubHash : option string;
  state : RegistrationState;
}.

Definition deserializeState (row : RegistrationRow) : RegistrationState :=
  let s := r_state row in
  if bool_decide (s = "INITIAL") then INITIAL
  else if bool_decide (s = "AWAITING_WAITLIST_TOKEN") then AWAITING_WAITLIST_TOKEN
  else if bool_decide (s = "AWAITING_CONTACT") then AWAITING_CONTACT
  else if bool_decide (s = "PHONE_CONFIRMED") then PHONE_CONFIRMED
  else if bool_decide (s = "AWAITING_EMAIL") then AWAITING_EMAIL
  else if bool_decide (s = "AWAITING_EMAIL_OTP") then
    AWAITING_EMAIL_OTP (default EmptyString (otp_hash row)) (default 0%Z (otp_expires_at row))
      (otp_attempt_count row)
  else if bool_decide (s = "EMAIL_CONFIRMED") then EMAIL_CONFIRMED
  else if bool_decide (s = "PRE_AUTH_TOKEN_ISSUED") then PRE_AUTH_TOKEN_ISSUED
  else if bool_decide (s = "EXPIRED") then EXPIRED
  else if bool_decide (s = "FAILED") then FAILED (default "unknown" (sd_reason (r_data row)))
  else FAILED ("legacy/unknown state: " +:+ s).

Definition rowToRecord (row : RegistrationRow) : RegistrationRecord :=
  mkRecord (id row) (phone_stub_hash row) (r_channel row) (channel_user_id row)
    (created_at row) (updated_at row) (expires_at row) (email_stub_hash row) (deserializeState row).

Definition TERMINAL : list string := ["EXPIRED"; "FAILED"; "PRE_AUTH_TOKEN_ISSUED"].

Definition active (row : RegistrationRow) : Prop := r_state row ∉ TERMINAL.

#[global] Instance active_dec row : Decision (active row).
Proof. unfold active. apply _. Defined.

(** The partial unique index on [phone_stub_hash]. *)
Definition unique_active (rows : list RegistrationRow) : bool :=
  bool_decide (NoDup (map phone_stub_hash (List.filter (λ r, bool_decide (active r)) rows))).

Definition find_row (rid : string) (rows : list RegistrationRow) : option RegistrationRow :=
  List.find (λ r, bool_decide (id r = rid)) rows.

Definition update_row (rid : string) (f : RegistrationRow → RegistrationRow)
    (rows : list RegistrationRow) : list RegistrationRow :=
  map (λ r, if bool_decide (id r = rid) then f r else r) rows.

End Registration.
