(* ===== verification/RegistrationRepository.v ===== *)
(** The registration repository as actions: the world they run in, the environment
    that answers, and each statement of
    packages/operations-agent/src/registration/repository.ts.

    A statement is atomic.  The database's [now()] and [Date.now()] are one clock. *)
From S2P Require Import Prelude Text JsMap Effects Registration.
Import Text JsMap Effects Registration.

Module RegistrationRepository.

(** * The environment *)

Inductive gate_decision : Type :=
| Allowed (alreadyLinked : bool)
| NotAllowed (error message : string).

Inductive redemption : Type := Redeemed | NotRedeemed (error message : string).

Record WaitlistGateClient : Type := mkGate {
  check : nat → string → gate_decision;
  redeem : nat → string → string → redemption;
}.

(** Everything outside the process, by the tick at which it is asked. *)
Record Env : Type := mkEnv {
  fate_of : nat → fate;
  clock : nat → Z;
  new_uuid : nat → string;
  random_otp : nat → N;
  random_salt : nat → string;
  waitlistGate : option WaitlistGateClient;
  requestToken : nat → string → string → string → option string * string;
  sha256 : string → string;
  toISOString : Z → string;
}.

(** What a reply is for. *)
Inductive notice : Type :=
| WELCOME | WELCOME_BACK | ADMITTED | SHARE_PHONE | REMINDER (n : Z)
| GATED (message : string) | NO_LONGER_ABLE
| GATE_FAILED_CHECK | GATE_FAILED_REDEEM | GATE_MISCONFIGURED | SEND_TOKEN | TOO_MANY_TOKENS
| TOKEN_REFUSED (message : string)
| NOT_YOUR_PHONE | ENTER_SAME_EMAIL | ENTER_EMAIL | INVALID_EMAIL | LIMIT_CHECK_FAILED
| RATE_LIMITED | DELIVERY_FAILED | CODE_SENT (email : string)
| CODE_INVALIDATED | CODE_EXPIRED | VERIFICATION_FAILED | TOO_MANY_ATTEMPTS
| INCORRECT_CODE (remaining : Z) | SAME_EMAIL_REQUIRED | PREAUTH_SERVER_ERROR
| INSTRUCTIONS (token : string) | BARE_TOKEN (token : string)
| ALREADY_REGISTERED | REPLY_CONFIRM.

(** The replies with the prefix that attaches the button for sharing the phone number. *)
Definition is_contact_prompt (n : notice) : bool :=
  match n with WELCOME | WELCOME_BACK | ADMITTED | SHARE_PHONE | REMINDER _ => true | _ => false end.

(** What happened: messages, decisions of the gate, mails; and two marks of the model, of
    a code drawn (at a tick) for an address, and of a returning user's new row that is
    about to be welcomed, with the address of the earlier registration. *)
Inductive event : Type :=
| Received (from message : string)
| Sent (to : string) (n : notice)
| GateAdmitted (user : string)
| RedeemAsked (user token : string)
| Emailed (email code : string)
| Drawn (user email : string) (at_ : nat)
| Continuing (rid : string) (emailStubHash : option string).

Record TelegramContact : Type := mkContact {
  phone_number : string;
  contact_user_id : option Z;
  contact_fromId : Z;
}.

Record world : Type := mkWorld {
  tick : nat;
  rows : list RegistrationRow;
  otp_send_log : list (channel * string * Z);
  channel_identities : jsmap (string * channel) string;
  tokenAttempts : jsmap string (list Z);
  gateFaultAt : jsmap string Z;
  activeRecords : jsmap string RegistrationRecord;
  pendingReregistration : jsmap string Z;
  lastContactByFrom : jsmap string TelegramContact;
  trace : list event;
}.

Definition with_tick (w : world) n :=
  mkWorld n (rows w) (otp_send_log w) (channel_identities w) (tokenAttempts w) (gateFaultAt w)
    (activeRecords w) (pendingReregistration w) (lastContactByFrom w) (trace w).
Definition with_rows (w : world) rs :=
  mkWorld (tick w) rs (otp_send_log w) (channel_identities w) (tokenAttempts w) (gateFaultAt w)
    (activeRecords w) (pendingReregistration w) (lastContactByFrom w) (trace w).
Definition with_log (w : world) l :=
  mkWorld (tick w) (rows w) l (channel_identities w) (tokenAttempts w) (gateFaultAt w)
    (activeRecords w) (pendingReregistration w) (lastContactByFrom w) (trace w).
Definition with_identities (w : world) ids :=
  mkWorld (tick w) (rows w) (otp_send_log w) ids (tokenAttempts w) (gateFaultAt w)
    (activeRecords w) (pendingReregistration w) (lastContactByFrom w) (trace w).
Definition with_attempts (w : world) m :=
  mkWorld (tick w) (rows w) (otp_send_log w) (channel_identities w) m (gateFaultAt w)
    (activeRecords w) (pendingReregistration w) (lastContactByFrom w) (trace w).
Definition with_faults (w : world) m :=
  mkWorld (tick w) (rows w) (otp_send_log w) (channel_identities w) (tokenAttempts w) m
    (activeRecords w) (pendingReregistration w) (lastContactByFrom w) (trace w).
Definition with_active (w : world) m :=
  mkWorld (tick w) (rows w) (otp_send_log w) (channel_identities w) (tokenAttempts w) (gateFaultAt w)
    m (pendingReregistration w) (lastContactByFrom w) (trace w).
Definition with_pending (w : world) m :=
  mkWorld (tick w) (rows w) (otp_send_log w) (channel_identities w) (tokenAttempts w) (gateFaultAt w)
    (activeRecords w) m (lastContactByFrom w) (trace w).
Definition with_contacts (w : world) m :=
  mkWorld (tick w) (rows w) (otp_send_log w) (channel_identities w) (tokenAttempts w) (gateFaultAt w)
    (activeRecords w) (pendingReregistration w) m (trace w).
Definition occurred (e : event) (w : world) :=
  mkWorld (tick w) (rows w) (otp_send_log w) (channel_identities w) (tokenAttempts w) (gateFaultAt w)
    (activeRecords w) (pendingReregistration w) (lastContactByFrom w) (e :: trace w).

Inductive exn : Type :=
| ExternalFailure | UniqueViolation | NotFound | GateCooldown | RangeError | InvariantBroken.

Abbreviation M := (act world exn).

Section Repository.
Context (env : Env).

(** A call that leaves the process: it may fail before or after it took effect. *)
Definition external {A} (op : M A) : M A := λ w,
  let w1 := with_tick w (S (tick w)) in
  match fate_of env (tick w) with
  | Works => op w1
  | FailsBefore => (w1, Err ExternalFailure)
  | FailsAfter => ((op w1).1, Err ExternalFailure)
  end.

(** [Date.now()], [new Date()], and the random generators. *)
Definition ticking {A} (f : nat → A) : M A := λ w, (with_tick w (S (tick w)), Ok (f (tick w))).

Definition date_now : M Z := ticking (clock env).

Definition query {A} (f : world → A) : M A := external (gets f).

(** * One-time passwords and hashes *)

Definition generateOtp : M string := ticking (λ n, pad6 (pretty (random_otp env n mod 1000000)%N)).

Definition generateOtpSalt : M string := ticking (random_salt env).

Definition hashOtp (otp salt : string) : string := sha256 env (otp +:+ salt).

(** [timingSafeEqual] throws on buffers of different lengths. *)
Definition verifyOtp (candidateOtp salt storedHash : string) : M bool :=
  let candidateHash := hashOtp candidateOtp salt in
  if bool_decide (String.length candidateHash = String.length storedHash)
  then mret (bool_decide (candidateHash = storedHash))
  else throw RangeError.

Definition hashPhone (normalizedPhone : string) : string := sha256 env normalizedPhone.

Definition hashEmail (email : string) : string := sha256 env (to_lower (trim email)).

(** * Statements *)

Definition computeRootChainHash (rid : string) : string := sha256 env rid.

Definition computeTransitionChainHash (prevChainHash rid newState : string) (newUpdatedAt : Z) : string :=
  sha256 env (prevChainHash +:+ rid +:+ newState +:+ toISOString env newUpdatedAt).

Definition of_user (ch : channel) (user : string) (r : RegistrationRow) : bool :=
  bool_decide (r_channel r = ch ∧ channel_user_id r = user).

Definition findActiveByChannelUser (ch : channel) (channelUserId : string) : M (option RegistrationRecord) :=
  query (λ w, rowToRecord <$>
    List.find (λ r, of_user ch channelUserId r && bool_decide (active r)) (rows w)).

(** The latest row created, the first one of equals. *)
Fixpoint latest_created (rs : list RegistrationRow) : option RegistrationRow :=
  match rs with
  | [] => None
  | r :: rs =>
      match latest_created rs with
      | Some r' => if (created_at r <? created_at r')%Z then Some r' else Some r
      | None => Some r
      end
  end.

Definition findCompletedByChannelUser (ch : channel) (channelUserId : string) (maxAgeMs : Z)
    : M (option (string * Z * option string)) :=
  now ← date_now;
  let since := (now - maxAgeMs)%Z in
  query (λ w, (λ r, (id r, created_at r, email_stub_hash r)) <$>
    latest_created (List.filter (λ r, of_user ch channelUserId r &&
      bool_decide (r_state r = "PRE_AUTH_TOKEN_ISSUED") && (since <? created_at r)%Z) (rows w))).

Definition findById (rid : string) : M (option RegistrationRecord) :=
  query (λ w, rowToRecord <$> find_row rid (rows w)).

Definition loadAllActive : M (list RegistrationRecord) :=
  query (λ w, map rowToRecord (List.filter (λ r, bool_decide (active r)) (rows w))).

Definition findExpiredActive (now : Z) : M (list RegistrationRecord) :=
  query (λ w, map rowToRecord
    (List.filter (λ r, bool_decide (active r) && (expires_at r <? now)%Z) (rows w))).

(** Store the rows when the unique indexes allow it, and return the row [rid]. *)
Definition commit_rows (rid : string) (rs : list RegistrationRow) : M RegistrationRecord := λ w,
  if unique_active rs then
    match find_row rid rs with
    | Some r => (with_rows w rs, Ok (rowToRecord r))
    | None => (w, Err NotFound)
    end
  else (w, Err UniqueViolation).

Definition insert (phoneStubHash : string) (ch : channel) (channelUserId state : string) (expiresAt : Z)
    : M RegistrationRecord :=
  rid ← ticking (new_uuid env);
  now ← date_now;
  external (λ w,
    match find_row rid (rows w) with
    | Some _ => (w, Err UniqueViolation)
    | None =>
        commit_rows rid (rows w ++
          [mkRow rid phoneStubHash ch channelUserId state (mkData None None None) None None None None
             0 now now expiresAt (computeRootChainHash rid)]) w
    end).

Record updates : Type := mkUpdates {
  u_phoneStubHash : option string;
  u_emailStubHash : option string;
  u_otpHash : option string;
  u_otpSalt : option string;
  u_otpExpiresAt : option Z;
  u_otpAttemptCount : option Z;
  u_stateData : option state_data;
  u_expiresAt : option Z;
  u_clearOtp : bool;
}.

Definition no_updates : updates := mkUpdates None None None None None None None None false.

(** [COALESCE(new, old)] *)
Definition coalesce {A} (new old : option A) : option A :=
  match new with Some x => Some x | None => old end.

Definition set_columns (newState : string) (u : updates) (now : Z) (newChainHash : string)
    (r : RegistrationRow) : RegistrationRow :=
  mkRow (id r) (default (phone_stub_hash r) (u_phoneStubHash u)) (r_channel r) (channel_user_id r)
    newState (default (r_data r) (u_stateData u)) (coalesce (u_emailStubHash u) (email_stub_hash r))
    (if u_clearOtp u then None else coalesce (u_otpHash u) (otp_hash r))
    (if u_clearOtp u then None else coalesce (u_otpSalt u) (otp_salt r))
    (if u_clearOtp u then None else coalesce (u_otpExpiresAt u) (otp_expires_at r))
    (default (otp_attempt_count r) (u_otpAttemptCount u))
    (created_at r) now (default (expires_at r) (u_expiresAt u)) newChainHash.

Definition transition (rid newState : string) (u : updates) : M RegistrationRecord :=
  prev ← query (λ w, chain_hash <$> find_row rid (rows w));
  match prev with
  | None => throw NotFound
  | Some prevChainHash =>
      now ← date_now;
      let newChainHash := computeTransitionChainHash prevChainHash rid newState now in
      external (λ w, commit_rows rid (update_row rid (set_columns newState u now newChainHash) (rows w)) w)
  end.

(** One transaction. *)
Definition transitionOnOtpLockout (rid : string) : M RegistrationRecord :=
  now ← date_now;
  external (λ w,
    match find_row rid (rows w) with
    | None => (w, Err NotFound)
    | Some r =>
        commit_rows rid (update_row rid
          (set_columns "AWAITING_EMAIL" (mkUpdates None None None None None (Some 0%Z) None None true) now
             (computeTransitionChainHash (chain_hash r) rid "AWAITING_EMAIL" now)) (rows w)) w
    end).

Definition incrementOtpAttempt (rid : string) : M RegistrationRecord :=
  prev ← query (λ w, (λ r, (chain_hash r, r_state r)) <$> find_row rid (rows w));
  match prev with
  | None => throw NotFound
  | Some (prevChainHash, st) =>
      now ← date_now;
      let newChainHash := computeTransitionChainHash prevChainHash rid st now in
      external (λ w, commit_rows rid (update_row rid (λ r,
        mkRow (id r) (phone_stub_hash r) (r_channel r) (channel_user_id r) (r_state r) (r_data r)
          (email_stub_hash r) (otp_hash r) (otp_salt r) (otp_expires_at r) (otp_attempt_count r + 1)
          (created_at r) now (expires_at r) newChainHash) (rows w)) w)
  end.

Definition recordContactPrompt (rid : string) (count lastAt : Z) : M unit :=
  prev ← query (λ w, (λ r, (chain_hash r, r_state r)) <$> find_row rid (rows w));
  match prev with
  | None => mret tt
  | Some (prevChainHash, st) =>
      now ← date_now;
      let newChainHash := computeTransitionChainHash prevChainHash rid st now in
      external (λ w,
        (with_rows w (update_row rid (λ r,
          mkRow (id r) (phone_stub_hash r) (r_channel r) (channel_user_id r) (r_state r)
            (mkData (sd_expectedEmailStubHash (r_data r)) (Some (count, lastAt)) (sd_reason (r_data r)))
            (email_stub_hash r) (otp_hash r) (otp_salt r) (otp_expires_at r) (otp_attempt_count r)
            (created_at r) now (expires_at r) newChainHash) (rows w)), Ok tt))
  end.

Definition getContactPromptProgress (rid : string) : M (Z * Z) :=
  query (λ w,
    match find_row rid (rows w) with
    | None => (0, 0)%Z
    | Some r => default (0%Z, updated_at r) (sd_contactPrompt (r_data r))
    end).

Definition getOtpSalt (rid : string) : M (option string) :=
  query (λ w, r ← find_row rid (rows w); otp_salt r).

Definition getExpectedEmailStubHash (rid : string) : M (option string) :=
  query (λ w, r ← find_row rid (rows w); sd_expectedEmailStubHash (r_data r)).

Definition getEmailStubHash (rid : string) : M (option string) :=
  query (λ w, r ← find_row rid (rows w); email_stub_hash r).

Definition upsertChannelIdentity (phoneStubHash : string) (ch : channel) (channelUserId : string) : M unit :=
  external (modify (λ w,
    with_identities w (jset (channel_identities w) (phoneStubHash, ch) channelUserId))).

Definition countOtpSendsSince (ch : channel) (channelUserId : string) (since : Z) : M Z :=
  query (λ w, Z.of_nat (length (List.filter
    (λ e, bool_decide (e.1 = (ch, channelUserId)) && (since <? e.2)%Z) (otp_send_log w)))).

Definition recordOtpSend (ch : channel) (channelUserId : string) : M unit :=
  external (modify (λ w,
    with_log w (otp_send_log w ++ [(ch, channelUserId, clock env (tick w - 1))]))).

(** * The channel, the gate and the mail *)

Definition send (to : string) (n : notice) : M unit := external (modify (occurred (Sent to n))).

Definition gate_check (g : WaitlistGateClient) (user : string) : M gate_decision :=
  external (λ w,
    let d := check g (tick w) user in
    (match d with Allowed _ => occurred (GateAdmitted user) w | _ => w end, Ok d)).

Definition gate_redeem (g : WaitlistGateClient) (user token : string) : M redemption :=
  external (λ w,
    let d := redeem g (tick w) user token in
    let w := occurred (RedeemAsked user token) w in
    (match d with Redeemed => occurred (GateAdmitted user) w | _ => w end, Ok d)).

Definition sendOtp (email otp : string) : M unit := external (modify (occurred (Emailed email otp))).

Definition request_token (phoneStubHash emailStubHash rid : string) : M (option string * string) :=
  external (gets (λ w, requestToken env (tick w) phoneStubHash emailStubHash rid)).

End Repository.
End RegistrationRepository.
