(* ===== verification/RegistrationMachine.v ===== *)
(** The registration state machine
    (packages/operations-agent/src/registration/state-machine.ts): one action per
    handler, with the guards and early returns of the code. *)
From S2P Require Import Prelude Text JsMap Effects Registration RegistrationRepository.
Import Text JsMap Effects Registration RegistrationRepository.

Module RegistrationMachine.

(** * Bounds *)

Definition OTP_TTL_MS : Z := 15 * 60 * 1000.
Definition MAX_OTP_ATTEMPTS : Z := 3.
Definition MAX_TOKEN_ATTEMPTS : nat := 5.
Definition TOKEN_ATTEMPT_WINDOW_MS : Z := 60 * 60 * 1000.
Definition GATE_FAULT_COOLDOWN_MS : Z := 60 * 1000.
Definition REGISTRATION_TTL_MS : Z := 7 * 24 * 60 * 60 * 1000.
Definition OTP_RATE_LIMIT_PER_HOUR : Z := 5.
Definition OTP_RATE_WINDOW_MS : Z := 60 * 60 * 1000.

(** * Attempts to redeem a token *)

(** Keep what is inside the window, per user. *)
Fixpoint live_attempts (cutoff : Z) (m : jsmap string (list Z)) : jsmap string (list Z) :=
  match m with
  | [] => []
  | (user, stamps) :: m =>
      match List.filter (λ t, (cutoff <? t)%Z) stamps with
      | [] => live_attempts cutoff m
      | live => (user, live) :: live_attempts cutoff m
      end
  end.

(** The map after an attempt, and whether the attempt is refused. *)
Definition overTokenLimit (m : jsmap string (list Z)) (from : string) (now : Z)
    : jsmap string (list Z) * bool :=
  let m := live_attempts (now - TOKEN_ATTEMPT_WINDOW_MS) m in
  let mine := default [] (jget m from) in
  if (MAX_TOKEN_ATTEMPTS <=? length mine)%nat then (m, true)
  else (jset m from (mine ++ [now]), false).

Definition refundTokenAttempt (m : jsmap string (list Z)) (from : string) : jsmap string (list Z) :=
  match default [] (jget m from) with
  | [] => m
  | mine =>
      match removelast mine with
      | [] => jdel m from
      | rest => jset m from rest
      end
  end.

Inductive gate_call : Type := check_call | redeem_call.

Section Machine.
Context (env : Env).

(** ** The gate *)

Definition tellGateFailed (from : string) (kind : gate_call) : M unit :=
  try_catch
    (send env from (match kind with redeem_call => GATE_FAILED_REDEEM | check_call => GATE_FAILED_CHECK end))
    (λ _, mret tt).

Definition askGate {T} (call : M T) (from : string) (kind : gate_call) : M T :=
  now ← date_now env;
  _ ← modify (λ w, with_faults w
        (List.filter (λ e, negb (GATE_FAULT_COOLDOWN_MS <=? now - e.2)%Z) (gateFaultAt w)));
  faultedAt ← gets (λ w, jget (gateFaultAt w) from);
  if match faultedAt with Some at_ => (now - at_ <? GATE_FAULT_COOLDOWN_MS)%Z | None => false end then
    _ ← tellGateFailed from kind; throw GateCooldown
  else
    try_catch
      (result ← call;
       _ ← modify (λ w, with_faults w (jdel (gateFaultAt w) from));
       mret result)
      (λ error,
       _ ← modify (λ w, with_faults w (jset (gateFaultAt w) from now));
       _ ← tellGateFailed from kind;
       throw error).

(** The gate's refusal of a user, if there is a gate and it refuses. *)
Definition gate_refusal (user : string) : M (option string) :=
  match waitlistGate env with
  | None => mret None
  | Some gate =>
      decision ← askGate (gate_check env gate user) user check_call;
      mret (match decision with Allowed _ => None | NotAllowed _ message => Some message end)
  end.

(** ** Waiting for a waitlist token *)

Definition handleAwaitingWaitlistToken (record : RegistrationRecord) (message from : string)
    : M RegistrationRecord :=
  let token := trim message in
  match waitlistGate env with
  | None => _ ← send env from GATE_MISCONFIGURED; mret record
  | Some gate =>
      if bool_decide (token = EmptyString) then _ ← send env from SEND_TOKEN; mret record
      else
        now ← date_now env;
        over ← (λ w, let '(m, over) := overTokenLimit (tokenAttempts w) from now in
                     (with_attempts w m, Ok over));
        if (over : bool) then _ ← send env from TOO_MANY_TOKENS; mret record
        else
          result ← try_catch (askGate (gate_redeem env gate from token) from redeem_call)
            (λ error, _ ← modify (λ w, with_attempts w (refundTokenAttempt (tokenAttempts w) from));
                      throw error);
          match result with
          | NotRedeemed _ message => _ ← send env from (TOKEN_REFUSED message); mret record
          | Redeemed =>
              admitted ← transition env (rec_id record) "AWAITING_CONTACT" no_updates;
              _ ← send env from ADMITTED;
              mret admitted
          end
  end.

(** ** Waiting for the phone number *)

Definition ask_email (expected : option string) : notice :=
  match truthy expected with Some _ => ENTER_SAME_EMAIL | None => ENTER_EMAIL end.

Definition handleAwaitingContact (record : RegistrationRecord) (message from : string)
    : M RegistrationRecord :=
  match contactMatch message with
  | Some (contactUserId, phoneNumber) =>
      if negb (bool_decide (contactUserId = from)) then _ ← send env from NOT_YOUR_PHONE; mret record
      else
        let phone := hashPhone env (normalizePhone phoneNumber) in
        phoneConfirmed ← transition env (rec_id record) "PHONE_CONFIRMED"
          (mkUpdates (Some phone) None None None None None None None false);
        awaitingEmail ← transition env (rec_id phoneConfirmed) "AWAITING_EMAIL" no_updates;
        expectedEmailHash ← getExpectedEmailStubHash env (rec_id record);
        _ ← send env from (ask_email expectedEmailHash);
        mret awaitingEmail
  | None =>
      now ← date_now env;
      _ ← recordContactPrompt env (rec_id record) 0 now;
      _ ← send env from SHARE_PHONE;
      mret record
  end.

(** ** Waiting for the e-mail address *)

Definition otpSendCount (ch : channel) (from : string) : M Z :=
  now ← date_now env;
  countOtpSendsSince env ch from (now - OTP_RATE_WINDOW_MS).

(** A failure to record is logged only. *)
Definition record_otp_send (ch : channel) (from : string) : M unit :=
  try_catch (recordOtpSend env ch from) (λ _, mret tt).

Definition handleAwaitingEmail (record : RegistrationRecord) (message from : string)
    : M RegistrationRecord :=
  if negb (isValidEmail (trim message)) then _ ← send env from INVALID_EMAIL; mret record
  else
    let email := trim message in
    let stub := hashEmail env email in
    count ← try_catch (otpSendCount (rec_channel record) from)
      (λ err, _ ← send env from LIMIT_CHECK_FAILED; throw err);
    if (OTP_RATE_LIMIT_PER_HOUR <=? count)%Z then _ ← send env from RATE_LIMITED; mret record
    else
      drawnAt ← gets tick;
      otp ← generateOtp env;
      _ ← modify (occurred (Drawn from email drawnAt));
      salt ← generateOtpSalt env;
      now ← date_now env;
      updated ← transition env (rec_id record) "AWAITING_EMAIL_OTP"
        (mkUpdates None (Some stub) (Some (hashOtp env otp salt)) (Some salt) (Some (now + OTP_TTL_MS)%Z)
           (Some 0%Z) None None false);
      delivered ← try_catch (_ ← sendOtp env email otp; mret true) (λ _, mret false);
      if (delivered : bool) then
        _ ← record_otp_send (rec_channel record) from;
        _ ← send env from (CODE_SENT email);
        mret updated
      else
        rolledBack ← transition env (rec_id record) "AWAITING_EMAIL"
          (mkUpdates None None None None None None None None true);
        _ ← send env from DELIVERY_FAILED;
        mret rolledBack.

(** ** Waiting for the code *)

(** The token, its delivery and the identity: the end of both completing paths. *)
Definition sendTokenDelivery (from token : string) : M unit :=
  _ ← send env from (INSTRUCTIONS token); send env from (BARE_TOKEN token).

Definition finish (rid : string) (from : string) (result : option string * string) : M RegistrationRecord :=
  let token := default result.2 result.1 in
  completed ← transition env rid "PRE_AUTH_TOKEN_ISSUED" no_updates;
  _ ← try_catch (upsertChannelIdentity env (phoneStubHash completed) (rec_channel completed)
        (channelUserId completed)) (λ _, mret tt);
  _ ← sendTokenDelivery from token;
  mret completed.

(** The token of a request, or nothing when it failed. *)
Definition try_token (record : RegistrationRecord) (rid : string) : M (option (option string * string)) :=
  try_catch
    (r ← request_token env (phoneStubHash record) (default EmptyString (emailStubHash record)) rid;
     mret (Some r))
    (λ _, mret None).

Definition retryPreAuth (record : RegistrationRecord) (from : string) : M RegistrationRecord :=
  result ← try_token record (rec_id record);
  match result with
  | None => _ ← send env from PREAUTH_SERVER_ERROR; mret record
  | Some r => finish (rec_id record) from r
  end.

(** Back to the address, with the code cleared. *)
Definition reenter_email (rid from : string) (attempts : option Z) (n : notice) : M RegistrationRecord :=
  awaitingEmail ← transition env rid "AWAITING_EMAIL" (mkUpdates None None None None None attempts None None true);
  _ ← send env from n;
  mret awaitingEmail.

(** A wrong code. *)
Definition wrong_code (record : RegistrationRecord) (attemptCount : Z) (from : string) : M RegistrationRecord :=
  let newAttemptCount := (attemptCount + 1)%Z in
  if (MAX_OTP_ATTEMPTS <=? newAttemptCount)%Z then
    awaitingEmail ← transitionOnOtpLockout env (rec_id record);
    _ ← send env from TOO_MANY_ATTEMPTS;
    mret awaitingEmail
  else
    _ ← incrementOtpAttempt env (rec_id record);
    _ ← send env from (INCORRECT_CODE (MAX_OTP_ATTEMPTS - newAttemptCount));
    updated ← findById env (rec_id record);
    mret (default record updated).

(** The verified address differs from the one of the earlier registration. *)
Definition continuity_broken (record : RegistrationRecord) : M bool :=
  expected ← getExpectedEmailStubHash env (rec_id record);
  match truthy expected with
  | None => mret false
  | Some expectedHash =>
      actual ← (match emailStubHash record with
                | Some h => mret (Some h)
                | None => getEmailStubHash env (rec_id record)
                end);
      mret (match truthy actual with
            | Some actualHash => negb (bool_decide (actualHash = expectedHash))
            | None => false
            end)
  end.

(** The right code. *)
Definition right_code (record : RegistrationRecord) (from : string) : M RegistrationRecord :=
  broken ← continuity_broken record;
  if (broken : bool) then
    _ ← send env from SAME_EMAIL_REQUIRED;
    transition env (rec_id record) "AWAITING_EMAIL" (mkUpdates None None None None None None None None true)
  else
    emailConfirmed ← transition env (rec_id record) "EMAIL_CONFIRMED"
      (mkUpdates None None None None None None None None true);
    result ← try_token emailConfirmed (rec_id record);
    match result with
    | None => _ ← send env from PREAUTH_SERVER_ERROR; mret emailConfirmed
    | Some r => finish (rec_id emailConfirmed) from r
    end.

Definition handleAwaitingEmailOtp (record : RegistrationRecord) (message from : string)
    : M RegistrationRecord :=
  match state record with
  | AWAITING_EMAIL_OTP otpHash otpExpiresAt attemptCount =>
      let candidate := trim message in
      if bool_decide (otpHash = EmptyString) then reenter_email (rec_id record) from (Some 0%Z) CODE_INVALIDATED
      else
        now ← date_now env;
        if (otpExpiresAt <? now)%Z then reenter_email (rec_id record) from (Some 0%Z) CODE_EXPIRED
        else
          salt ← getOtpSalt env (rec_id record);
          match truthy salt with
          | None => reenter_email (rec_id record) from (Some 0%Z) VERIFICATION_FAILED
          | Some salt =>
              correct ← verifyOtp env candidate salt otpHash;
              if (correct : bool) then right_code record from
              else wrong_code record attemptCount from
          end
  | _ => throw InvariantBroken
  end.

(** ** Transient states *)

Definition recoverFromInitial (record : RegistrationRecord) (message from : string) : M RegistrationRecord :=
  refusal ← gate_refusal (channelUserId record);
  match refusal with
  | Some _ =>
      gated ← transition env (rec_id record) "AWAITING_WAITLIST_TOKEN" no_updates;
      _ ← send env from NO_LONGER_ABLE;
      mret gated
  | None =>
      healed ← transition env (rec_id record) "AWAITING_CONTACT" no_updates;
      handleAwaitingContact healed message from
  end.

Definition recoverFromPhoneConfirmed (record : RegistrationRecord) (from : string) : M RegistrationRecord :=
  awaitingEmail ← transition env (rec_id record) "AWAITING_EMAIL" no_updates;
  expectedEmailHash ← getExpectedEmailStubHash env (rec_id record);
  _ ← send env from (ask_email expectedEmailHash);
  mret awaitingEmail.

(** * The machine *)

Definition handleMessage (record : RegistrationRecord) (message from : string) : M RegistrationRecord :=
  match state record with
  | AWAITING_WAITLIST_TOKEN => handleAwaitingWaitlistToken record message from
  | AWAITING_CONTACT => handleAwaitingContact record message from
  | AWAITING_EMAIL => handleAwaitingEmail record message from
  | AWAITING_EMAIL_OTP _ _ _ => handleAwaitingEmailOtp record message from
  | PRE_AUTH_TOKEN_ISSUED | EXPIRED | FAILED _ => mret record
  | INITIAL => recoverFromInitial record message from
  | PHONE_CONFIRMED => recoverFromPhoneConfirmed record from
  | EMAIL_CONFIRMED => retryPreAuth record from
  end.

Definition handleNewUser (user : string) (ch : channel) (phone : string) : M RegistrationRecord :=
  now ← date_now env;
  let expiresAt := (now + REGISTRATION_TTL_MS)%Z in
  refusal ← gate_refusal user;
  record ← insert env phone ch user
    (match refusal with None => "AWAITING_CONTACT" | Some _ => "AWAITING_WAITLIST_TOKEN" end) expiresAt;
  match refusal with
  | Some message => _ ← send env user (GATED message); mret record
  | None => _ ← send env user WELCOME; mret record
  end.

Definition handleExistingUser (user : string) (ch : channel) (phone : string)
    (expectedEmailStubHash : option string) : M RegistrationRecord :=
  now ← date_now env;
  let expiresAt := (now + REGISTRATION_TTL_MS)%Z in
  refusal ← gate_refusal user;
  match refusal with
  | Some _ =>
      gatedRecord ← insert env phone ch user "INITIAL" expiresAt;
      gated ← transition env (rec_id gatedRecord) "AWAITING_WAITLIST_TOKEN" no_updates;
      _ ← send env user NO_LONGER_ABLE;
      mret gated
  | None =>
      record ← insert env phone ch user "AWAITING_CONTACT" expiresAt;
      _ ← (match truthy expectedEmailStubHash with
           | Some h =>
               _ ← transition env (rec_id record) "AWAITING_CONTACT"
                 (mkUpdates None None None None None None (Some (mkData (Some h) None None)) None false);
               mret tt
           | None => mret tt
           end);
      _ ← modify (occurred (Continuing (rec_id record) expectedEmailStubHash));
      _ ← send env user WELCOME_BACK;
      mret record
  end.

Definition resendContactPrompt (record : RegistrationRecord) (reminderNumber : Z) : M unit :=
  now ← date_now env;
  _ ← recordContactPrompt env (rec_id record) reminderNumber now;
  send env (channelUserId record) (REMINDER reminderNumber).

End Machine.
End RegistrationMachine.
