(* ===== verification/RegistrationEngine.v ===== *)
(** The registration engine (packages/operations-agent/src/registration/engine.ts)
    behind the Telegram adapter's dispatch of updates
    (packages/operations-agent/src/telegram-adapter.ts).

    The adapter awaits each update before the next one, so messages are handled
    one at a time; a sweep is taken to run between two messages. *)
From S2P Require Import Prelude Text JsMap Effects Registration RegistrationRepository RegistrationMachine.
Import Text JsMap Effects Registration RegistrationRepository RegistrationMachine.

Module RegistrationEngine.

(** * Reminders *)

Definition MAX_CONTACT_REMINDERS : Z := 2.
Definition FIRST_REMINDER_DELAY_MS : Z := 10 * 60 * 1000.
Definition SECOND_REMINDER_DELAY_MS : Z := 60 * 60 * 1000.
Definition REREGISTRATION_WINDOW_MS : Z := 30 * 24 * 60 * 60 * 1000.
Definition PENDING_REREGISTRATION_TTL_MS : Z := 30 * 60 * 1000.

Definition dueReminderNumber (count lastAt now : Z) : option Z :=
  if (MAX_CONTACT_REMINDERS <=? count)%Z then None
  else
    let required := if (count =? 0)%Z then FIRST_REMINDER_DELAY_MS else SECOND_REMINDER_DELAY_MS in
    let waited := (now - lastAt)%Z in
    if (required <=? waited)%Z then Some (count + 1)%Z else None.

(** An update: the sender, and a contact or a text. *)
Record TelegramUpdate : Type := mkUpdate {
  up_from : option Z;
  up_contact : option (string * option Z);
  up_text : option string;
}.

Section Engine.
Context (env : Env) (channelType : channel).

(** [resolveIdentity(from).phoneNumber]: a phone number only when the stored contact is
    the sender's own; the other channels have none. *)
Definition resolvePhone (w : world) (from : string) : option string :=
  match channelType with
  | telegram =>
      match jget (lastContactByFrom w) from with
      | Some c => if bool_decide (contact_user_id c = Some (contact_fromId c))
                  then Some (phone_number c) else None
      | None => None
      end
  | _ => None
  end.

(** [None]: the warning was sent. *)
Definition handleCompletedOrNew (from message phone : string) : M (option RegistrationRecord) :=
  completed ← findCompletedByChannelUser env channelType from REREGISTRATION_WINDOW_MS;
  match completed with
  | Some (_, _, emailStubHash) =>
      pending ← gets (λ w, jhas (pendingReregistration w) from);
      if pending && bool_decide (message = "CONFIRM") then
        _ ← modify (λ w, with_pending w (jdel (pendingReregistration w) from));
        r ← handleExistingUser env from channelType phone emailStubHash;
        mret (Some r)
      else
        _ ← (if (pending : bool) then mret tt
             else now ← date_now env;
                  modify (λ w, with_pending w (jset (pendingReregistration w) from now)));
        _ ← date_now env;
        _ ← send env from ALREADY_REGISTERED;
        _ ← send env from REPLY_CONFIRM;
        mret None
  | None => r ← handleNewUser env from channelType phone; mret (Some r)
  end.

Definition is_terminal (s : RegistrationState) : bool :=
  match s with PRE_AUTH_TOKEN_ISSUED | EXPIRED | FAILED _ => true | _ => false end.

Definition remember (from : string) (record : RegistrationRecord) : M unit :=
  modify (λ w, with_active w
    (if is_terminal (state record) then jdel (activeRecords w) from
     else jset (activeRecords w) from record)).

(** The body of the [try]. *)
Definition dispatch (from message : string) : M unit :=
  existing ← findActiveByChannelUser env channelType from;
  identity ← gets (λ w, resolvePhone w from);
  let phone := hashPhone env (normalizePhone (default from identity)) in
  result ← (match existing with
            | None => handleCompletedOrNew from message phone
            | Some existing =>
                now ← date_now env;
                if (expiresAt existing <? now)%Z then
                  _ ← transition env (rec_id existing) "EXPIRED" no_updates;
                  _ ← modify (λ w, with_active w (jdel (activeRecords w) from));
                  handleCompletedOrNew from message phone
                else
                  record ← handleMessage env existing message from;
                  mret (Some record)
            end);
  match result with None => mret tt | Some record => remember from record end.

Definition handleInboundMessage (from message : string) : M unit :=
  try_catch (dispatch from message) (λ _, mret tt).

(** ** Sweeps *)

Definition prompt_one (e : string * RegistrationRecord) : M unit :=
  let '(userId, record) := e in
  match state record with
  | AWAITING_CONTACT =>
      progress ← getContactPromptProgress env (rec_id record);
      now ← date_now env;
      match dueReminderNumber progress.1 progress.2 now with
      | None => mret tt
      | Some due =>
          _ ← resendContactPrompt env record due;
          refreshed ← findActiveByChannelUser env channelType userId;
          match refreshed with
          | Some r => modify (λ w, with_active w (jset (activeRecords w) userId r))
          | None => mret tt
          end
      end
  | _ => mret tt
  end.

Definition runContactPromptSweep : M unit :=
  entries ← gets activeRecords;
  for_each prompt_one entries.

Definition expire_one (record : RegistrationRecord) : M unit :=
  _ ← transition env (rec_id record) "EXPIRED" no_updates;
  modify (λ w, with_active w (jdel (activeRecords w) (channelUserId record))).

Definition runExpirySweep : M unit :=
  now ← date_now env;
  expired ← findExpiredActive env now;
  for_each expire_one expired.

Definition sweepStalePendingReregistrations : M unit :=
  now ← date_now env;
  modify (λ w, with_pending w
    (List.filter (λ e, negb (PENDING_REREGISTRATION_TTL_MS <? now - e.2)%Z) (pendingReregistration w))).

Definition start : M unit :=
  records ← loadAllActive env;
  for_each (λ r, modify (λ w, with_active w (jset (activeRecords w) (channelUserId r) r))) records.

(** ** The adapter *)

(** The trace notes what reaches the handler. *)
Definition deliver (from message : string) : M unit :=
  _ ← modify (occurred (Received from message));
  handleInboundMessage from message.

Definition processUpdate (u : TelegramUpdate) : M unit :=
  match up_from u with
  | None => mret tt
  | Some fromId =>
      let from := pretty fromId in
      match up_contact u with
      | Some (phone, contactUserId) =>
          _ ← modify (λ w, with_contacts w
                (jset (lastContactByFrom w) from (mkContact phone contactUserId fromId)));
          if bool_decide (contactUserId = Some fromId)
          then deliver from ("CONTACT:" +:+ from +:+ ":" +:+ phone)
          else deliver from "__contact_mismatch__"
      | None =>
          match truthy (up_text u) with
          | Some text => deliver from text
          | None => mret tt
          end
      end
  end.

(** * Runs *)

(** What happens to the process: an update, a timer, or a restart, which loses
    what is kept in memory. *)
Inductive input : Type :=
| Update (u : TelegramUpdate) | PromptSweep | ExpirySweep | PendingSweep | Restart.

Definition lose_memory (w : world) : world :=
  with_contacts (with_pending (with_active (with_faults (with_attempts w []) []) []) []) [].

(** The rejections of the timers are logged. *)
Definition run_input (w : world) (i : input) : world :=
  match i with
  | Update u => (processUpdate u w).1
  | PromptSweep => (runContactPromptSweep w).1
  | ExpirySweep => (runExpirySweep w).1
  | PendingSweep => (sweepStalePendingReregistrations w).1
  | Restart => (start (lose_memory w)).1
  end.

Definition run (w : world) (inputs : list input) : world := foldl run_input w inputs.

Definition initial : world := mkWorld 0 [] [] [] [] [] [] [] [] [].

Definition reachable (w : world) : Prop := ∃ inputs, w = run initial inputs.

End Engine.
End RegistrationEngine.
