(* ===== verification/RegistrationSafety.v ===== *)
(** What holds of the registration table, the messages sent and the records kept in
    memory after any run, whatever fails: nobody is registered or asked for a
    phone number without having been admitted, and a registration completes only
    with a contact message, an address, and the code issued for that address. *)
From S2P Require Import Prelude Text JsMap Effects Registration RegistrationRepository RegistrationMachine RegistrationEngine.
Import Text JsMap Effects Registration RegistrationRepository RegistrationMachine RegistrationEngine.

Module RegistrationInvariant.

(** * Rows *)

Lemma find_update rid f rows r :
  find_row rid rows = Some r → NoDup (map id rows) →
  ∃ l1 l2, rows = l1 ++ r :: l2 ∧ update_row rid f rows = l1 ++ f r :: l2 ∧ id r = rid.
Proof.
  unfold find_row, update_row. induction rows as [|x rows IH]; [done|]. cbn.
  intros E [Hx Hn]%list.NoDup_cons. destruct (decide (id x = rid)) as [Hid|Hid].
  - rewrite bool_decide_eq_true_2 in E by done. injection E as ->. exists [], rows.
    split; [done|]. split; [|done]. cbn. rewrite bool_decide_eq_true_2 by done. f_equal.
    rewrite <- (map_id rows) at 2. apply map_ext_in. intros y Hy%list_elem_of_In.
    rewrite bool_decide_eq_false_2; [done|]. intros E'. apply Hx. rewrite Hid, <- E'.
    by apply list_elem_of_fmap_2.
  - rewrite bool_decide_eq_false_2 in E by done. destruct (IH E Hn) as (l1 & l2 & -> & E' & ?).
    exists (x :: l1), l2. split; [done|]. split; [|done]. cbn.
    rewrite bool_decide_eq_false_2 by done. by f_equal.
Qed.

Definition active_keys {K} (key : RegistrationRow → K) (rows : list RegistrationRow) : list K :=
  map key (List.filter (λ r, bool_decide (active r)) rows).

Lemma active_keys_app {K} (key : RegistrationRow → K) l1 l2 :
  active_keys key (l1 ++ l2) = active_keys key l1 ++ active_keys key l2.
Proof. unfold active_keys. by rewrite List.filter_app, map_app. Qed.

Lemma active_keys_cons {K} (key : RegistrationRow → K) r l :
  active_keys key (r :: l) = (if decide (active r) then [key r] else []) ++ active_keys key l.
Proof.
  unfold active_keys. cbn [List.filter]. case_decide as E.
  - by rewrite bool_decide_eq_true_2.
  - by rewrite bool_decide_eq_false_2.
Qed.

(** Changing a row without changing its key, and without reviving it. *)
Lemma active_keys_change {K} (key : RegistrationRow → K) l1 r r' l2 :
  key r' = key r → (active r' → active r) →
  NoDup (active_keys key (l1 ++ r :: l2)) → NoDup (active_keys key (l1 ++ r' :: l2)).
Proof.
  intros Hk Ha. rewrite !active_keys_app, !active_keys_cons, Hk.
  destruct (decide (active r')) as [H'|H'].
  - rewrite decide_True by auto. exact (λ x, x).
  - destruct (decide (active r)); [|exact (λ x, x)]. cbn [app].
    rewrite !list.NoDup_app, list.NoDup_cons. intros (HA & Hd & _ & HB).
    split; [exact HA|]. split; [|exact HB]. intros x Hx Hx'. apply (Hd x Hx). by right.
Qed.

Definition owners (rs : list RegistrationRow) : list (string * string) :=
  map (λ r, (id r, channel_user_id r)) rs.

Lemma owners_update rid f rs :
  (∀ r, id (f r) = id r ∧ channel_user_id (f r) = channel_user_id r) →
  owners (update_row rid f rs) = owners rs.
Proof.
  intros Hf. unfold owners, update_row. rewrite map_map. apply map_ext. intros r.
  case_bool_decide; [|done]. by destruct (Hf r) as [-> ->].
Qed.

Section Invariant.
Context (env : Env) (ch : channel).

(** * What a run has shown *)

(** A code that may stand in a row without having been mailed: the answer to the write
    that stored it was lost, or both its mail failed and the write that takes it back.
    The calls are numbered from the one that draws the code. *)
Definition undelivered (n : nat) : Prop :=
  fate_of env (n + 5) = FailsAfter ∨
  fate_of env (n + 6) = FailsBefore ∧ (fate_of env (n + 7) ≠ Works ∨ fate_of env (n + 9) = FailsBefore).

Definition admitted (H : list event) (user : string) : Prop :=
  waitlistGate env = None ∨ GateAdmitted user ∈ H.

(** The user sent a contact message for themselves with that number. *)
Definition phone_shown (H : list event) (user stub : string) : Prop :=
  ∃ msg ph, Received user msg ∈ H ∧ contactMatch msg = Some (user, ph) ∧
    stub = hashPhone env (normalizePhone ph).

(** A code was drawn for an address the user sent, and mailed there. *)
Definition issued (mailed : nat → string → string → Prop) (H : list event) (user : string)
    (stub : option string) (code : string) : Prop :=
  ∃ msg n, Received user msg ∈ H ∧ isValidEmail (trim msg) = true ∧
    stub = Some (hashEmail env (trim msg)) ∧ Drawn user (trim msg) n ∈ H ∧
    code = pad6 (pretty (random_otp env n mod 1000000)%N) ∧ mailed n (trim msg) code.

(** The user sent a message with the digest of such a code. *)
Definition verified (mailed : nat → string → string → Prop) (H : list event) (user : string)
    (stub : option string) : Prop :=
  ∃ code salt msg, issued mailed H user stub code ∧ Received user msg ∈ H ∧
    hashOtp env (trim msg) salt = hashOtp env code salt.

Definition code_kept (mailed : nat → string → string → Prop) (H : list event) (r : RegistrationRow) : Prop :=
  ∀ h, truthy (otp_hash r) = Some h →
    ∃ code salt, otp_salt r = Some salt ∧ h = hashOtp env code salt ∧
      issued mailed H (channel_user_id r) (email_stub_hash r) code.

(** The address is the one the row expects. *)
Definition same_email (r : RegistrationRow) : Prop :=
  ∀ h h', truthy (sd_expectedEmailStubHash (r_data r)) = Some h →
    truthy (email_stub_hash r) = Some h' → h = h'.

(** How far a state is along the way; a dead row claims nothing. *)
Definition stage (s : string) : nat :=
  if bool_decide (s = "AWAITING_CONTACT") then 1
  else if bool_decide (s ∈ ["PHONE_CONFIRMED"; "AWAITING_EMAIL"]) then 2
  else if bool_decide (s = "AWAITING_EMAIL_OTP") then 3
  else if bool_decide (s ∈ ["EMAIL_CONFIRMED"; "PRE_AUTH_TOKEN_ISSUED"]) then 4
  else 0.

Definition STATES : list string :=
  ["INITIAL"; "AWAITING_WAITLIST_TOKEN"; "AWAITING_CONTACT"; "PHONE_CONFIRMED"; "AWAITING_EMAIL";
   "AWAITING_EMAIL_OTP"; "EMAIL_CONFIRMED"; "PRE_AUTH_TOKEN_ISSUED"; "EXPIRED"].

Record row_ok (mailed : nat → string → string → Prop) (H : list event) (r : RegistrationRow) : Prop := mkRowOk {
  ro_count : (0 <= otp_attempt_count r < MAX_OTP_ATTEMPTS)%Z;
  ro_state : r_state r ∈ STATES;
  ro_admitted : 1 <= stage (r_state r) → admitted H (channel_user_id r);
  ro_phone : 2 <= stage (r_state r) → phone_shown H (channel_user_id r) (phone_stub_hash r);
  ro_code : stage (r_state r) = 3 → code_kept mailed H r;
  ro_verified : stage (r_state r) = 4 →
    verified mailed H (channel_user_id r) (email_stub_hash r) ∧ same_email r;
  ro_prompt : match sd_contactPrompt (r_data r) with Some (c, _) => (0 <= c)%Z | None => True end;
}.

(** A record in memory, which reminders may be sent for: it is of a row, and of an
    admitted user. *)
Definition record_ok (w : world) (rec : RegistrationRecord) : Prop :=
  (state rec = AWAITING_CONTACT → admitted (trace w) (channelUserId rec)) ∧
  (rec_id rec, channelUserId rec) ∈ owners (rows w).

(** Nobody was sent the button before being admitted. *)
Fixpoint prompts_ok (H : list event) : Prop :=
  match H with
  | [] => True
  | e :: H =>
      match e with Sent to n => is_contact_prompt n = true → admitted H to | _ => True end ∧ prompts_ok H
  end.

(** Codes about to be mailed: of which row, drawn when, for which address. *)
Definition codes : Type := string → nat → string → string → Prop.

Definition mailed (extra : codes) (w : world) (rid : string) (n : nat) (email code : string) : Prop :=
  Emailed email code ∈ trace w ∨ undelivered n ∨ extra rid n email code.

(** A row continues an earlier registration, completed by the same user with that
    address: it expects the address. *)
Definition continues (rs : list RegistrationRow) (rid : string) (stub : option string) : Prop :=
  ∃ r0 r, r0 ∈ rs ∧ r ∈ rs ∧ id r = rid ∧ id r0 ≠ rid ∧
    r_channel r0 = r_channel r ∧ channel_user_id r0 = channel_user_id r ∧
    r_state r0 = "PRE_AUTH_TOKEN_ISSUED" ∧ email_stub_hash r0 = stub ∧
    sd_expectedEmailStubHash (r_data r) = truthy stub.

Definition history_ok (rs : list RegistrationRow) (H : list event) : Prop :=
  prompts_ok H ∧ ∀ rid stub, Continuing rid stub ∈ H → continues rs rid stub.

(** The invariant; [extra] are codes about to be mailed. *)
Record inv_with (extra : codes) (w : world) : Prop := mkInv {
  i_ids : NoDup (map id (rows w));
  i_phones : NoDup (active_keys phone_stub_hash (rows w));
  i_users : NoDup (active_keys (λ r, (r_channel r, channel_user_id r)) (rows w));
  i_rows : ∀ r, r ∈ rows w → row_ok (mailed extra w (id r)) (trace w) r;
  i_active : ∀ e, e ∈ activeRecords w → record_ok w e.2;
  i_history : history_ok (rows w) (trace w);
}.

Definition none : codes := λ _ _ _ _, False.

Abbreviation inv := (inv_with none).

(** What a change of a row leaves alone: a completed registration and its address; and
    what the row expects, once its user was welcomed back. *)
Definition kept (H : list event) (r r' : RegistrationRow) : Prop :=
  (r_state r = "PRE_AUTH_TOKEN_ISSUED" →
     r_state r' = "PRE_AUTH_TOKEN_ISSUED" ∧ email_stub_hash r' = email_stub_hash r) ∧
  (sd_expectedEmailStubHash (r_data r') = sd_expectedEmailStubHash (r_data r) ∨
   ∀ stub, Continuing (id r) stub ∉ H).

(** ** Monotonicity *)

Lemma admitted_mono H H' user : H ⊆ H' → admitted H user → admitted H' user.
Proof. intros HS [?|?]; [by left|right; by apply HS]. Qed.

Lemma issued_mono (m m' : nat → string → string → Prop) H H' user stub code :
  (∀ n e c, m n e c → m' n e c) → H ⊆ H' → issued m H user stub code → issued m' H' user stub code.
Proof.
  intros Hm HS (msg & n & Hr & ? & ? & ? & ? & ?). exists msg, n.
  split_and!; try done; [by apply HS|by apply HS|by apply Hm].
Qed.

Lemma row_ok_mono (m m' : nat → string → string → Prop) H H' r :
  (∀ n e c, m n e c → m' n e c) → H ⊆ H' → row_ok m H r → row_ok m' H' r.
Proof.
  intros Hm HS [Hc Hs Ha Hp Ho Hv Hpr]. split; [done|done| | | | |done].
  - intros E. by eapply admitted_mono, Ha.
  - intros E. destruct (Hp E) as (msg & ph & ? & ? & ?). exists msg, ph. split_and!; try done. by apply HS.
  - intros E h Hh. destruct (Ho E h Hh) as (code & salt & ? & ? & Hi). exists code, salt.
    split_and!; try done. by eapply issued_mono.
  - intros E. destruct (Hv E) as [(code & salt & msg & Hi & Hr & ?) ?]. split; [|done].
    exists code, salt, msg. split_and!; try done; [by eapply issued_mono|by apply HS].
Qed.

Lemma record_ok_mono w w' rec :
  trace w ⊆ trace w' → owners (rows w) ⊆ owners (rows w') → record_ok w rec → record_ok w' rec.
Proof. intros HS Ho [Ha Hr]. split; [|by apply Ho]. intros E. by eapply admitted_mono, Ha. Qed.

(** A world with the rows and records of another, a longer trace and a later tick. *)
Record extends (w w' : world) : Prop := mkExtends {
  ex_rows : rows w' = rows w;
  ex_trace : trace w ⊆ trace w';
  ex_tick : tick w <= tick w';
}.

Lemma extends_refl w : extends w w.
Proof. done. Qed.

Lemma extends_trans w1 w2 w3 : extends w1 w2 → extends w2 w3 → extends w1 w3.
Proof. intros [? ? ?] [? ? ?]. split; [congruence|by etransitivity|lia]. Qed.

Lemma mailed_mono extra w w' rid n e c : trace w ⊆ trace w' → mailed extra w rid n e c → mailed extra w' rid n e c.
Proof. intros HS [?|?]; [left; by apply HS|by right]. Qed.

Lemma inv_extends extra w w' :
  inv_with extra w → extends w w' → (∀ e, e ∈ activeRecords w' → record_ok w' e.2) →
  history_ok (rows w) (trace w') → inv_with extra w'.
Proof.
  intros [H1 H2 H3 H4 H5 H6] [Er Et Ek] Ha Hp. split; rewrite ?Er; try done.
  intros r Hr. eapply row_ok_mono; [|done|by apply H4]. intros n e c. by apply mailed_mono.
Qed.

(** What is pending was mailed, or will never be. *)
Lemma inv_resolve extra w :
  (∀ rid n e c, extra rid n e c → Emailed e c ∈ trace w ∨ undelivered n) → inv_with extra w → inv w.
Proof.
  intros Hf [H1 H2 H3 H4 H5 H6]. split; try done. intros r Hr.
  eapply row_ok_mono; [|reflexivity|by apply H4].
  intros n e c [?|[?|Hx]]; [by left|by right; left|]. destruct (Hf _ _ _ _ Hx); [by left|by right; left].
Qed.

(** ** Changing a row *)

Lemma find_row_middle rid l1 r l2 :
  id r = rid → rid ∉ map id l1 → find_row rid (l1 ++ r :: l2) = Some r.
Proof.
  intros Hid. unfold find_row. induction l1 as [|x l1 IH]; cbn.
  - by rewrite bool_decide_eq_true_2.
  - rewrite not_elem_of_cons. intros [Hx Hl]. rewrite bool_decide_eq_false_2 by congruence. by apply IH.
Qed.

(** A changed row still continues what it continued, and stays completed. *)
Lemma continues_change l1 r r' l2 H rid stub :
  kept H r r' → id r' = id r → channel_user_id r' = channel_user_id r → r_channel r' = r_channel r →
  Continuing rid stub ∈ H → continues (l1 ++ r :: l2) rid stub → continues (l1 ++ r' :: l2) rid stub.
Proof.
  intros [Hp He] Hid Hu Hc Hin (r0 & x & Hr0 & Hx & Hxid & Hne & Ec & Eu & Es & Em & Ex).
  assert (∀ y, y ∈ l1 ++ r :: l2 → ∃ y', y' ∈ l1 ++ r' :: l2 ∧ (y' = y ∨ y = r ∧ y' = r')) as Hy.
  { intros y [?|[->|?]%elem_of_cons]%elem_of_app; [exists y|exists r'|exists y]; set_solver. }
  destruct (Hy r0 Hr0) as (r0' & Hr0' & E0), (Hy x Hx) as (x' & Hx' & E1). exists r0', x'.
  assert (id r0' = id r0 ∧ r_channel r0' = r_channel r0 ∧ channel_user_id r0' = channel_user_id r0 ∧
          r_state r0' = "PRE_AUTH_TOKEN_ISSUED" ∧ email_stub_hash r0' = stub) as (-> & -> & -> & -> & ->).
  { destruct E0 as [->|[-> ->]]; [done|]. destruct (Hp Es) as [-> ->]. done. }
  assert (id x' = id x ∧ r_channel x' = r_channel x ∧ channel_user_id x' = channel_user_id x ∧
          sd_expectedEmailStubHash (r_data x') = sd_expectedEmailStubHash (r_data x)) as (-> & -> & -> & ->).
  { destruct E1 as [->|[-> ->]]; [done|]. split_and!; try done. destruct He as [He|He]; [done|]. subst rid. by destruct (He stub). }
  by split_and!.
Qed.

Lemma inv_change (ex0 ex1 : codes) w w' rid f r :
  inv_with ex0 w → (∀ i n e c, i ≠ rid → ex0 i n e c → ex1 i n e c) → find_row rid (rows w) = Some r →
  id (f r) = id r → channel_user_id (f r) = channel_user_id r → r_channel (f r) = r_channel r →
  (active (f r) → active r) → kept (trace w) r (f r) →
  rows w' = update_row rid f (rows w) → trace w' = trace w → activeRecords w' = activeRecords w →
  tick w <= tick w' → NoDup (active_keys phone_stub_hash (rows w')) →
  row_ok (mailed ex1 w rid) (trace w) (f r) →
  inv_with ex1 w' ∧ find_row rid (rows w') = Some (f r).
Proof.
  intros [H1 H2 H3 H4 H5 [H6 H7]] Hex Hf Hid Hu Hc Ha Hk Er Et Ea Ek Hn Hok.
  destruct (find_update rid f _ _ Hf H1) as (l1 & l2 & E & E' & Hr).
  rewrite E' in Er. rewrite E in H1, H3, H4, H7.
  assert (∀ x, x ∈ l1 ++ l2 → x ∈ l1 ++ r :: l2 ∧ id x ≠ rid) as Hothers.
  { intros x Hx. split; [set_solver|]. rewrite map_app in H1. apply list.NoDup_app in H1 as (_ & Hd & [Hd' _]%list.NoDup_cons).
    rewrite <- Hr. intros Ex. apply elem_of_app in Hx as [Hx|Hx].
    - apply (Hd (id x)); [by apply list_elem_of_fmap_2|]. rewrite Ex. left.
    - apply Hd'. rewrite <- Ex. by apply list_elem_of_fmap_2. }
  assert (∀ x, x ∈ l1 ++ l2 → row_ok (mailed ex1 w' (id x)) (trace w) x) as Hrest.
  { intros x Hx. destruct (Hothers x Hx) as [Hin Hne]. eapply row_ok_mono; [|reflexivity|by apply H4].
    intros n e c [?|[?|?]]; [left; by rewrite Et|by right; left|right; right; by apply Hex]. }
  split; [|rewrite Er; apply find_row_middle; [congruence|]].
  2:{ intros (x & Ex & Hx)%list_elem_of_fmap. destruct (Hothers x) as [_ Hne]; [apply elem_of_app; by left|done]. }
  split; rewrite ?Et, ?Ea; try done.
  4:{ intros x Hx. apply H5 in Hx. apply (record_ok_mono w); [by rewrite Et| |exact Hx].
      rewrite Er, E. unfold owners. rewrite !map_app. cbn. by rewrite Hid, Hu. }
  - rewrite Er. rewrite !map_app in *. cbn in *. by rewrite Hid.
  - rewrite Er. eapply active_keys_change; [|exact Ha|exact H3]. by rewrite Hu, Hc.
  - rewrite Er. intros x [Hx|[->|Hx]%elem_of_cons]%elem_of_app.
    + apply Hrest, elem_of_app. by left.
    + rewrite Hid, Hr. eapply row_ok_mono; [|reflexivity|exact Hok]. intros n e c. apply mailed_mono. by rewrite Et.
    + apply Hrest, elem_of_app. by right.
  - split; [done|]. intros i stub Hin. rewrite Er. eapply continues_change; try done. by apply H7.
Qed.

Lemma find_row_elem rid rs r : find_row rid rs = Some r → r ∈ rs ∧ id r = rid.
Proof. intros [H1 H2]%find_some_elem. by apply bool_decide_eq_true in H2. Qed.

(** ** Calls that leave the rows alone *)

Lemma wp_external {A} (op : M A) w Q R :
  let w1 := with_tick w (S (tick w)) in
  wp op w1 (λ a w', Q a w' ∧ (fate_of env (tick w) ≠ Works → R w')) R →
  (fate_of env (tick w) ≠ Works → R w1) → wp (external env op) w Q R.
Proof.
  intros w1 H1 H2. unfold wp, external in *. fold w1. destruct (fate_of env (tick w)) eqn:Ef.
  - destruct (op w1) as [w' [a|e]]; [by destruct H1|done].
  - by apply H2.
  - destruct (op w1) as [w' [a|e]]; [|done]. by apply H1.
Qed.

(** The action extends the world, whether it returns or throws. *)
Definition extending {A} (extra : codes) (m : M A) (w : world) (P : A → world → Prop) : Prop :=
  wp m w (λ a w', inv_with extra w' ∧ extends w w' ∧ P a w') (λ w', inv_with extra w' ∧ extends w w').

Lemma inv_tick extra w n : inv_with extra w → tick w <= n → inv_with extra (with_tick w n) ∧ extends w (with_tick w n).
Proof.
  intros Hi Hn. assert (extends w (with_tick w n)) as He by (split; done). split; [|done].
  eapply inv_extends; [done|done| |]; apply Hi.
Qed.

(** What an event needs to happen. *)
Definition event_ok (w : world) (e : event) : Prop :=
  match e with
  | Sent to n => is_contact_prompt n = true → admitted (trace w) to
  | Continuing rid stub => continues (rows w) rid stub
  | _ => True
  end.

Lemma inv_event extra w e :
  inv_with extra w → event_ok w e →
  inv_with extra (occurred e w) ∧ extends w (occurred e w).
Proof.
  intros Hi He. assert (extends w (occurred e w)) as Hx by (split; cbn; [done|set_solver|done]). split; [|done].
  eapply inv_extends; [done|done| |].
  - intros x Hx'. apply (record_ok_mono w); [cbn; set_solver|done|by apply (i_active _ _ Hi)].
  - cbn. split.
    + split; [by destruct e|apply Hi].
    + intros rid stub [<-|Hin]%elem_of_cons; [exact He|by apply (i_history _ _ Hi)].
Qed.

Lemma ext_ticking {A} extra (f : nat → A) w :
  inv_with extra w → extending extra (ticking f) w (λ a w', a = f (tick w) ∧ trace w' = trace w).
Proof.
  intros Hi. destruct (inv_tick extra w (S (tick w)) Hi ltac:(lia)) as [? ?]. done.
Qed.

(** The same, with the clock. *)
Lemma wp_ticking {A B} extra (f : nat → A) (k : A → M B) w Q R :
  inv_with extra w →
  (∀ w', inv_with extra w' → extends w w' → tick w' = S (tick w) → trace w' = trace w → wp (k (f (tick w))) w' Q R) →
  wp (ticking f ≫= k) w Q R.
Proof.
  intros Hi Hk. destruct (inv_tick extra w (S (tick w)) Hi ltac:(lia)) as [? ?]. by apply wp_bind, Hk.
Qed.

Lemma ext_query {A} extra (f : world → A) w :
  inv_with extra w →
  extending extra (query env f) w (λ a w', a = f (with_tick w (S (tick w))) ∧ trace w' = trace w).
Proof.
  intros Hi. destruct (inv_tick extra w (S (tick w)) Hi ltac:(lia)) as [? ?].
  apply wp_external; [|done]. by apply wp_gets.
Qed.

Lemma ext_event extra e w :
  inv_with extra w → event_ok w e →
  extending extra (external env (modify (occurred e))) w (λ _ w', e ∈ trace w').
Proof.
  intros Hi He. destruct (inv_tick extra w (S (tick w)) Hi ltac:(lia)) as [Hi1 Hx1].
  destruct (inv_event extra (with_tick w (S (tick w))) e Hi1) as [Hi2 Hx2]; [by destruct e|].
  pose proof (extends_trans _ _ _ Hx1 Hx2).
  apply wp_external; [|done]. apply wp_modify. split; [|done]. split; [done|]. split; [done|]. cbn. left.
Qed.

Lemma ext_send extra to n w :
  inv_with extra w → (is_contact_prompt n = true → admitted (trace w) to) →
  extending extra (send env to n) w (λ _ _, True).
Proof. intros Hi Ha. eapply wp_mono; [by apply ext_event| |done]. naive_solver. Qed.

(** Changes of the memory that reminders do not read. *)
Lemma ext_memory extra (f : world → world) w :
  inv_with extra w → extends w (f w) → trace (f w) = trace w → activeRecords (f w) = activeRecords w →
  extending extra (modify f) w (λ _ w', trace w' = trace w).
Proof.
  intros Hi Hx Ht Ha. apply wp_modify. split; [|by split]. eapply inv_extends; [done|done| |].
  - rewrite Ha. intros e He. apply (record_ok_mono w); [by rewrite Ht|by rewrite (ex_rows _ _ Hx)|].
    by apply (i_active _ _ Hi).
  - rewrite Ht. apply Hi.
Qed.

(** ** Sequencing *)

Lemma ext_bind {A B} extra (m : M A) (k : A → M B) w P Q :
  extending extra m w P →
  (∀ a w', inv_with extra w' → extends w w' → P a w' → extending extra (k a) w' Q) →
  extending extra (m ≫= k) w Q.
Proof.
  intros Hm Hk. apply wp_bind. eapply wp_mono; [exact Hm| |done].
  intros a w' (Hi & Hx & HP). eapply wp_mono; [by apply Hk| |].
  - intros b w'' (? & ? & ?). split_and!; try done. by eapply extends_trans.
  - intros w'' [? ?]. split; [done|]. by eapply extends_trans.
Qed.

Lemma ext_ret {A} extra (a : A) w P : inv_with extra w → P a w → extending extra (mret a) w P.
Proof. intros. apply wp_ret. by split_and!. Qed.

Lemma ext_throw {A} extra e w P : inv_with extra w → extending (A:=A) extra (throw e) w P.
Proof. intros. by apply wp_throw. Qed.

Lemma ext_try {A} extra (m : M A) h w P :
  extending extra m w P →
  (∀ e w', inv_with extra w' → extends w w' → extending extra (h e) w' P) →
  extending extra (try_catch m h) w P.
Proof.
  intros Hm Hh. apply wp_try. eapply wp_mono; [exact Hm|done|].
  intros w' [Hi Hx] e. eapply wp_mono; [by apply Hh| |].
  - intros b w'' (? & ? & ?). split_and!; try done. by eapply extends_trans.
  - intros w'' [? ?]. split; [done|]. by eapply extends_trans.
Qed.

Lemma ext_weaken {A} extra (m : M A) w (P Q : A → world → Prop) :
  extending extra m w P → (∀ a w', extends w w' → P a w' → Q a w') → extending extra m w Q.
Proof. intros Hm Hq. eapply wp_mono; [exact Hm| |done]. naive_solver. Qed.

(** From an action that extends to one that need only keep the invariant. *)
Lemma wp_extending {A B} extra (m : M A) (k : A → M B) w P Q R :
  extending extra m w P → (∀ w', inv_with extra w' → R w') →
  (∀ a w', inv_with extra w' → extends w w' → P a w' → wp (k a) w' Q R) →
  wp (m ≫= k) w Q R.
Proof.
  intros Hm HR Hk. apply wp_bind. eapply wp_mono; [exact Hm| |].
  - intros a w' (? & ? & ?). by apply Hk.
  - intros w' [? _]. by apply HR.
Qed.

End Invariant.
End RegistrationInvariant.

(** Every handler of the registration machine, every sweep and every restart keeps
    the invariant of [RegistrationInvariant], whatever fails on the way. *)
Import Text JsMap Effects Registration RegistrationRepository RegistrationMachine RegistrationEngine RegistrationInvariant.

Module RegistrationSafety.

(** A state the machine writes reads back as itself. *)
Lemma deserialize_spec r : r_state r ∈ STATES →
  match deserializeState r with
  | INITIAL => r_state r = "INITIAL"
  | AWAITING_WAITLIST_TOKEN => r_state r = "AWAITING_WAITLIST_TOKEN"
  | AWAITING_CONTACT => r_state r = "AWAITING_CONTACT"
  | PHONE_CONFIRMED => r_state r = "PHONE_CONFIRMED"
  | AWAITING_EMAIL => r_state r = "AWAITING_EMAIL"
  | AWAITING_EMAIL_OTP h t n =>
      r_state r = "AWAITING_EMAIL_OTP" ∧ h = default EmptyString (otp_hash r) ∧
      t = default 0%Z (otp_expires_at r) ∧ n = otp_attempt_count r
  | EMAIL_CONFIRMED => r_state r = "EMAIL_CONFIRMED"
  | PRE_AUTH_TOKEN_ISSUED => r_state r = "PRE_AUTH_TOKEN_ISSUED"
  | EXPIRED => r_state r = "EXPIRED"
  | FAILED _ => False
  end.
Proof.
  unfold deserializeState, STATES. intros Hs.
  repeat (apply elem_of_cons in Hs as [Hs|Hs]; [rewrite Hs; cbn; done|]).
  by apply not_elem_of_nil in Hs.
Qed.

(** The row after a move is alive by the name of its state. *)
Ltac alive := intros _; apply (bool_decide_unpack (active _)); vm_compute; exact I.

Ltac nostage := let E := fresh in intros E; exfalso; vm_compute in E; lia.

Section Safety.
Context (env : Env) (ch : channel).

Abbreviation inv_with := (inv_with env).
Abbreviation inv := (RegistrationInvariant.inv_with env none).
Abbreviation extending := (extending env).

(** * Statements *)

(** A write of one row: it fails before, which leaves [ex0] pending; or it takes effect,
    after which [ex1] is, and its answer may be lost. *)
Lemma wp_change_ex (ex0 ex1 : codes) w rid f r Q (R : world → Prop) :
  inv_with ex0 w → (∀ i n e c, i ≠ rid → ex0 i n e c → ex1 i n e c) → find_row rid (rows w) = Some r →
  id (f r) = id r → channel_user_id (f r) = channel_user_id r → r_channel (f r) = r_channel r →
  (active (f r) → active r) → kept (trace w) r (f r) → row_ok env (mailed env ex1 w rid) (trace w) (f r) →
  (∀ w', inv_with ex0 w' →
     fate_of env (tick w) = FailsBefore ∨ phone_stub_hash (f r) ≠ phone_stub_hash r → R w') →
  (∀ w', inv_with ex1 w' → fate_of env (tick w) = FailsAfter → R w') →
  (∀ w', inv_with ex1 w' → find_row rid (rows w') = Some (f r) → trace w' = trace w →
     rows w' = update_row rid f (rows w) → tick w' = S (tick w) → Q (rowToRecord (f r)) w') →
  wp (external env (λ w, commit_rows rid (update_row rid f (rows w)) w)) w Q R.
Proof.
  intros Hi Hex Hf Hid Hu Hc Ha Hk Hok HB HA HQ.
  destruct (inv_tick env ex0 w (S (tick w)) Hi ltac:(lia)) as [Hi1 _].
  assert (unique_active (update_row rid f (rows w)) = false → phone_stub_hash (f r) ≠ phone_stub_hash r) as Hun.
  { intros Hn%bool_decide_eq_false Ep. apply Hn. destruct (find_update rid f _ _ Hf (i_ids _ _ _ Hi)) as (l1 & l2 & E & E' & _).
    rewrite E'. apply (active_keys_change phone_stub_hash l1 r); [done|done|]. rewrite <- E. apply Hi. }
  unfold wp, external. cbv zeta. unfold commit_rows. cbn [rows with_tick].
  destruct (fate_of env (tick w)) eqn:Efate.
  2: apply HB; [exact Hi1|by left].
  all: destruct (unique_active _) eqn:Eu; [|apply HB; [exact Hi1|right; by apply Hun]].
  all: apply bool_decide_eq_true in Eu;
    destruct (inv_change env ex0 ex1 w (with_rows (with_tick w (S (tick w))) (update_row rid f (rows w))) rid f r)
      as [Hi' Hf']; try done; try (cbn; lia); cbn [rows with_rows] in Hf'; rewrite Hf'.
  - by apply HQ.
  - by apply HA.
Qed.

Lemma kept_active w r r' :
  active r → sd_expectedEmailStubHash (r_data r') = sd_expectedEmailStubHash (r_data r) → kept (trace w) r r'.
Proof.
  intros Ha Hd. split; [|by left]. intros E. exfalso. apply Ha. rewrite E. apply (bool_decide_unpack (_ ∈ TERMINAL)). by vm_compute.
Qed.

Lemma wp_change w rid f r Q :
  inv w → find_row rid (rows w) = Some r →
  id (f r) = id r → channel_user_id (f r) = channel_user_id r → r_channel (f r) = r_channel r →
  active r → r_data (f r) = r_data r → row_ok env (mailed env none w rid) (trace w) (f r) →
  (∀ w', inv w' → find_row rid (rows w') = Some (f r) → trace w' = trace w →
     rows w' = update_row rid f (rows w) → Q (rowToRecord (f r)) w') →
  wp (external env (λ w, commit_rows rid (update_row rid f (rows w)) w)) w Q inv.
Proof.
  intros Hi Hf Hid Hu Hc Ha Hd Hok HQ.
  eapply (wp_change_ex none none w rid f r); try done; [|by eauto].
  apply kept_active; [done|by rewrite Hd].
Qed.

Lemma wp_transition_ex (ex0 ex1 : codes) w rid st u Q (R : world → Prop) :
  inv_with ex0 w → (∀ i n e c, i ≠ rid → ex0 i n e c → ex1 i n e c) →
  (∀ r, find_row rid (rows w) = Some r →
     (st ∉ TERMINAL → active r) ∧
     ∀ now hash, kept (trace w) r (set_columns st u now hash r) ∧
       row_ok env (mailed env ex1 w rid) (trace w) (set_columns st u now hash r)) →
  (∀ w', inv_with ex0 w' →
     fate_of env (tick w) ≠ Works ∨ fate_of env (tick w + 2) = FailsBefore ∨ u_phoneStubHash u ≠ None ∨
     find_row rid (rows w) = None → R w') →
  (∀ w', inv_with ex1 w' → fate_of env (tick w + 2) = FailsAfter → R w') →
  (∀ r now hash w', find_row rid (rows w) = Some r → inv_with ex1 w' →
     find_row rid (rows w') = Some (set_columns st u now hash r) → trace w' = trace w →
     rows w' = update_row rid (set_columns st u now hash) (rows w) → tick w' = tick w + 3 →
     Q (rowToRecord (set_columns st u now hash r)) w') →
  wp (transition env rid st u) w Q R.
Proof.
  intros Hi Hex Hok HB HA HQ. unfold transition.
  destruct (inv_tick env ex0 w (S (tick w)) Hi ltac:(lia)) as [Hi1 Hx1].
  apply wp_bind, wp_external; [|intros Hf; apply HB; [done|by left]]. apply wp_gets.
  split; [|intros Hf; apply HB; [done|by left]]. cbn [rows with_tick].
  destruct (find_row rid (rows w)) as [r|] eqn:Ef; cbn; [|apply HB; [done|auto]].
  eapply wp_ticking; [exact Hi1|]. intros w2 Hi2 Hx2 Et2 Ht2. cbn [tick with_tick] in Et2.
  pose proof (extends_trans _ _ _ Hx1 Hx2) as Hx. destruct (Hok r eq_refl) as [Hact Hrow].
  destruct (Hrow (clock env (tick (with_tick w (S (tick w)))))
              (computeTransitionChainHash env (chain_hash r) rid st (clock env (tick (with_tick w (S (tick w))))))) as [Hkept Hrow'].
  replace (tick w + 2) with (tick w2) in HB, HA by lia.
  eapply (wp_change_ex ex0 ex1) with (r := r); try done.
  - by rewrite (ex_rows _ _ Hx).
  - by rewrite Ht2.
  - eapply row_ok_mono; [|by rewrite Ht2|exact Hrow'].
    intros n e c. apply mailed_mono, Hx.
  - intros w' Hi' [Hf|Hf]; apply HB; try done; [by auto|]. right; right; left. intros Hn. apply Hf. cbn. by rewrite Hn.
  - intros w' Hi' Hf' Ht' Hr' Ek'. eapply HQ; try done; [by rewrite Ht', Ht2| |lia].
    by rewrite Hr', (ex_rows _ _ Hx).
Qed.

Lemma wp_transition w rid st u Q :
  inv w → u_stateData u = None →
  (∀ r, find_row rid (rows w) = Some r →
     active r ∧ ∀ now hash, row_ok env (mailed env none w rid) (trace w) (set_columns st u now hash r)) →
  (∀ r now hash w', find_row rid (rows w) = Some r → inv w' →
     find_row rid (rows w') = Some (set_columns st u now hash r) → trace w' = trace w →
     rows w' = update_row rid (set_columns st u now hash) (rows w) → Q (rowToRecord (set_columns st u now hash r)) w') →
  wp (transition env rid st u) w Q inv.
Proof.
  intros Hi Hu Hok HQ. eapply (wp_transition_ex none none); try done; [|by eauto].
  intros r Hr. destruct (Hok r Hr) as [Ha Hrow]. split; [done|]. intros now hash. split; [|apply Hrow].
  apply kept_active; [done|]. cbn. by rewrite Hu.
Qed.

(** The user's row of an id, alive. *)
Definition at_row (w : world) (rid user : string) (r : RegistrationRow) : Prop :=
  find_row rid (rows w) = Some r ∧ active r ∧ channel_user_id r = user.

(** The row a record was read from. *)
Definition here (w : world) (rec : RegistrationRecord) (user : string) (r : RegistrationRow) : Prop :=
  at_row w (rec_id rec) user r ∧ rowToRecord r = rec.

Lemma at_row_extends w w' rid user r : extends w w' → at_row w rid user r → at_row w' rid user r.
Proof. intros Hx (? & ? & ?). split_and!; try done. by rewrite (ex_rows _ _ Hx). Qed.

Lemma here_extends w w' rec user r : extends w w' → here w rec user r → here w' rec user r.
Proof. intros Hx [? ?]. split; [by eapply at_row_extends|done]. Qed.

Lemma at_row_ok ex w rid user r : inv_with ex w → at_row w rid user r → row_ok env (mailed env ex w rid) (trace w) r.
Proof. intros Hi (Hf & _). apply find_row_elem in Hf as [Hf <-]. by apply (i_rows _ _ _ Hi). Qed.

Lemma row_record_ok ex w r : inv_with ex w → r ∈ rows w → record_ok env w (rowToRecord r).
Proof.
  intros Hi Hin. pose proof (i_rows _ _ _ Hi r Hin) as Hr.
  split; [|unfold owners; apply list_elem_of_fmap; by exists r]. intros E. cbn in *. pose proof (deserialize_spec r (ro_state _ _ _ _ Hr)) as Hd. rewrite E in Hd.
  apply (ro_admitted _ _ _ _ Hr). rewrite Hd. vm_compute. lia.
Qed.

Lemma found_record_ok ex w rid r : inv_with ex w → find_row rid (rows w) = Some r → record_ok env w (rowToRecord r).
Proof. intros Hi [Hf _]%find_row_elem. by eapply row_record_ok. Qed.

Lemma here_record_ok ex w rec user r : inv_with ex w → here w rec user r → record_ok env w rec.
Proof. intros Hi [(Hf & _) <-]. by eapply found_record_ok. Qed.

(** What a handler has to keep. *)
Definition keeps (m : M RegistrationRecord) (w : world) : Prop :=
  wp m w (λ rec w', inv w' ∧ record_ok env w' rec) inv.

Lemma keeps_ret rec w : inv w → record_ok env w rec → keeps (mret rec) w.
Proof. intros. by apply wp_ret. Qed.

Lemma record_ok_extends w w' rec : extends w w' → record_ok env w rec → record_ok env w' rec.
Proof. intros Hx. apply record_ok_mono; [apply Hx|by rewrite (ex_rows _ _ Hx)]. Qed.

(** Reply and return. *)
Lemma keeps_reply to n rec w :
  inv w → record_ok env w rec → (is_contact_prompt n = true → admitted env (trace w) to) →
  keeps (_ ← send env to n; mret rec) w.
Proof.
  intros Hi Hr Ha. eapply wp_extending; [by apply ext_send|done|]. intros _ w' Hi' Hx' _.
  apply keeps_ret; [done|]. by eapply record_ok_extends.
Qed.

(** * The gate *)

Lemma ext_faults ex w m : inv_with ex w → extending ex (modify (λ w, with_faults w (m w))) w (λ _ w', trace w' = trace w).
Proof. intros Hi. by apply ext_memory. Qed.

Lemma ext_tell ex from kind w : inv_with ex w → extending ex (tellGateFailed env from kind) w (λ _ _, True).
Proof.
  intros Hi. unfold tellGateFailed. apply ext_try.
  - apply ext_send; [done|]. by destruct kind.
  - intros _ w' Hi' _. by apply ext_ret.
Qed.

Lemma ext_askGate {T} ex (call : M T) from kind w (P : T → world → Prop) :
  inv_with ex w →
  (∀ w', inv_with ex w' → extends w w' → extending ex call w' P) →
  (∀ a w1 w2, extends w1 w2 → P a w1 → P a w2) →
  extending ex (askGate env call from kind) w P.
Proof.
  intros Hi Hcall HP. unfold askGate.
  eapply ext_bind; [by apply ext_ticking|]. intros now w1 Hi1 Hx1 _.
  eapply ext_bind; [by apply ext_faults|]. intros _ w2 Hi2 Hx2 _.
  eapply (ext_bind env ex (gets _) _ w2 (λ _ _, True)); [by apply ext_ret|]. intros fa w2' Hi2' Hx2' _.
  case_match.
  - eapply ext_bind; [by apply ext_tell|]. intros _ w3 Hi3 Hx3 _. by apply ext_throw.
  - apply ext_try.
    + eapply ext_bind; [apply Hcall; [done|]|].
      { by eapply extends_trans; [|eapply extends_trans]. }
      intros a w3 Hi3 Hx3 Ha. eapply ext_bind; [by apply ext_faults|]. intros _ w4 Hi4 Hx4 _.
      apply ext_ret; [done|]. by eapply HP.
    + intros e w3 Hi3 Hx3. eapply ext_bind; [by apply ext_faults|]. intros _ w4 Hi4 Hx4 _.
      eapply ext_bind; [by apply ext_tell|]. intros _ w5 Hi5 Hx5 _. by apply ext_throw.
Qed.

(** An answer that admits is noted. *)
Lemma ext_check ex g user w :
  inv_with ex w →
  extending ex (gate_check env g user) w (λ d w', match d with Allowed _ => GateAdmitted user ∈ trace w' | _ => True end).
Proof.
  intros Hi. destruct (inv_tick env ex w (S (tick w)) Hi ltac:(lia)) as [Hi1 Hx1].
  destruct (inv_event env ex _ (GateAdmitted user) Hi1 I) as [Hi2 Hx2].
  pose proof (extends_trans _ _ _ Hx1 Hx2).
  apply wp_external; [|done]. unfold wp. cbv zeta. destruct (check g _ _); [|done].
  split; [|done]. split_and!; [done|done|]. cbn. left.
Qed.

Lemma ext_redeem ex g user token w :
  inv_with ex w →
  extending ex (gate_redeem env g user token) w (λ d w', match d with Redeemed => GateAdmitted user ∈ trace w' | _ => True end).
Proof.
  intros Hi. destruct (inv_tick env ex w (S (tick w)) Hi ltac:(lia)) as [Hi1 Hx1].
  destruct (inv_event env ex _ (RedeemAsked user token) Hi1 I) as [Hi2 Hx2].
  destruct (inv_event env ex _ (GateAdmitted user) Hi2 I) as [Hi3 Hx3].
  pose proof (extends_trans _ _ _ Hx1 Hx2) as Hx12. pose proof (extends_trans _ _ _ Hx12 Hx3).
  apply wp_external; [|done]. unfold wp. cbv zeta. destruct (redeem g _ _ _); [|done].
  split; [|done]. split_and!; [done|done|]. cbn. left.
Qed.

(** Whether the gate refuses a user; when it does not, the user is admitted. *)
Lemma ext_gate ex user w :
  inv_with ex w →
  extending ex (gate_refusal env user) w (λ o w', o = None → admitted env (trace w') user).
Proof.
  intros Hi. unfold gate_refusal. destruct (waitlistGate env) as [g|] eqn:Eg.
  - eapply ext_bind.
    + apply (ext_askGate ex (gate_check env g user) user check_call w
        (λ d w', match d with Allowed _ => GateAdmitted user ∈ trace w' | _ => True end)); [done| |].
      * intros w' Hi' _. by apply ext_check.
      * intros [b|] w1 w2 Hx Ha; [|done]. by apply (ex_trace _ _ Hx).
    + intros d w' Hi' Hx' Hd. apply ext_ret; [done|]. destruct d; [|done]. intros _. by right.
  - apply ext_ret; [done|]. intros _. by left.
Qed.

(** * Moving a row to another state *)

Lemma row_ok_move m0 m H r st u now hash :
  row_ok env m0 H r → st ∈ STATES → (u_otpAttemptCount u = None ∨ u_otpAttemptCount u = Some 0%Z) →
  match u_stateData u with Some d => sd_contactPrompt d = None | None => True end →
  (1 <= stage st → admitted env H (channel_user_id r)) →
  (2 <= stage st → phone_shown env H (channel_user_id r) (default (phone_stub_hash r) (u_phoneStubHash u))) →
  (stage st = 3 → code_kept env m H (set_columns st u now hash r)) →
  (stage st = 4 → verified env m H (channel_user_id r) (coalesce (u_emailStubHash u) (email_stub_hash r)) ∧
     same_email (set_columns st u now hash r)) →
  row_ok env m H (set_columns st u now hash r).
Proof.
  intros [Hc _ _ _ _ _ Hpr] Hs Hu Hd H1 H2 H3 H4. split; try done; cbn.
  - destruct Hu as [->| ->]; cbn; unfold MAX_OTP_ATTEMPTS in *; lia.
  - destruct (u_stateData u); cbn; [by rewrite Hd|done].
Qed.

(** Move the row of a record, reply, and return it.  A code of the row that was about to be
    mailed is taken back, unless the write fails. *)
Lemma keeps_move_ex (ex : codes) w rid user r st u n :
  inv_with ex w → at_row w rid user r → st ∈ STATES →
  (∀ i m e c, ex i m e c → i = rid ∧ u_phoneStubHash u = None ∧
     (fate_of env (tick w) ≠ Works ∨ fate_of env (tick w + 2) = FailsBefore → undelivered env m)) →
  (u_otpAttemptCount u = None ∨ u_otpAttemptCount u = Some 0%Z) → u_stateData u = None →
  stage st < 3 → (1 <= stage st → admitted env (trace w) user) →
  (2 <= stage st → phone_shown env (trace w) user (default (phone_stub_hash r) (u_phoneStubHash u))) →
  (is_contact_prompt n = true → admitted env (trace w) user) →
  keeps (a ← transition env rid st u; _ ← send env user n; mret a) w.
Proof.
  intros Hi Hh Hs Hex Hu Hd Hst H1 H2 Hn. pose proof Hh as (Hf & Ha & Hus).
  apply wp_bind. eapply (wp_transition_ex ex none); try done.
  - intros i m e c Hne [? _]%Hex. done.
  - intros r' Hr'. rewrite Hf in Hr'. injection Hr' as <-. split; [done|]. intros now hash.
    split; [apply kept_active; [done|]; cbn; by rewrite Hd|].
    pose proof (at_row_ok _ _ _ _ _ Hi Hh) as Hok.
    apply (row_ok_move _ _ _ _ _ _ _ _ Hok); rewrite ?Hus, ?Hd; try done; intros; lia.
  - intros w' Hi' Hfate. apply (inv_resolve env ex); [|done]. intros i m e c (-> & Hp & Hf')%Hex. right. apply Hf'.
    destruct Hfate as [?|[?|[?|E]]]; [by left|by right|done|]. congruence.
  - intros r' now hash w' Hr' Hi' Hf' Ht' Hk' _. rewrite Hf in Hr'. injection Hr' as <-.
    apply keeps_reply; [done|by eapply found_record_ok|]. by rewrite Ht'.
Qed.

Lemma keeps_move w rid user r st u n :
  inv w → at_row w rid user r → st ∈ STATES →
  (u_otpAttemptCount u = None ∨ u_otpAttemptCount u = Some 0%Z) → u_stateData u = None →
  stage st < 3 → (1 <= stage st → admitted env (trace w) user) →
  (2 <= stage st → phone_shown env (trace w) user (default (phone_stub_hash r) (u_phoneStubHash u))) →
  (is_contact_prompt n = true → admitted env (trace w) user) →
  keeps (a ← transition env rid st u; _ ← send env user n; mret a) w.
Proof. intros. by eapply (keeps_move_ex none). Qed.

(** Noting a reminder leaves the registration as it is. *)
Lemma wp_recordContactPrompt w rid n t Q :
  inv w → (0 <= n)%Z →
  (∀ w', inv w' → trace w' = trace w → owners (rows w') = owners (rows w) → Q tt w') →
  wp (recordContactPrompt env rid n t) w Q inv.
Proof.
  intros Hi Hn HQ. unfold recordContactPrompt.
  eapply wp_extending; [by apply ext_query|done|]. intros prev w1 Hi1 Hx1 [-> Ht1]. cbn [rows with_tick].
  destruct (find_row rid (rows w)) as [r|] eqn:Ef; cbn [fmap option_fmap option_map].
  2:{ apply wp_ret. apply HQ; [done|done|by rewrite (ex_rows _ _ Hx1)]. }
  eapply wp_extending; [by apply ext_ticking|done|]. intros now w2 Hi2 Hx2 [_ Ht2].
  pose proof (extends_trans _ _ _ Hx1 Hx2) as Hx.
  destruct (inv_tick env _ w2 (S (tick w2)) Hi2 ltac:(lia)) as [Hi3 _].
  apply wp_external; [|done]. unfold wp. cbv zeta.
  assert (find_row rid (rows w2) = Some r) as Hf by (by rewrite (ex_rows _ _ Hx)).
  match goal with |- context [update_row rid ?f _] => set (g := f) end.
  assert (r ∈ rows w2) as Hin by (by apply find_row_elem in Hf as [? _]).
  pose proof (i_rows _ _ _ Hi2 r Hin) as Hok.
  destruct (inv_change env none none w2
    (with_rows (with_tick w2 (S (tick w2))) (update_row rid g (rows (with_tick w2 (S (tick w2)))))) rid g r)
    as [Hi' _]; try done; cbn [rows with_rows with_tick tick]; [split; [done|by left]|lia| | |].
  - destruct (find_update rid g _ _ Hf (i_ids _ _ _ Hi2)) as (l1 & l2 & E & E' & _). rewrite E'.
    apply (active_keys_change phone_stub_hash l1 r); [done|done|]. rewrite <- E. apply Hi2.
  - apply find_row_elem in Hf as [_ Hid]. rewrite Hid in Hok. destruct Hok as [? ? ? ? ? ? ?]. by split.
  - split; [|done]. apply HQ; [done|cbn; by rewrite Ht2, Ht1|].
    cbn [rows with_rows with_tick]. rewrite owners_update by done. by rewrite (ex_rows _ _ Hx).
Qed.

Lemma keeps_contact w rec message from r :
  inv w → here w rec from r → Received from message ∈ trace w → admitted env (trace w) from →
  keeps (handleAwaitingContact env rec message from) w.
Proof.
  intros Hi Hh Hm Ha. unfold handleAwaitingContact. pose proof (here_record_ok _ _ _ _ _ Hi Hh) as Hrec.
  destruct (contactMatch message) as [[uid ph]|] eqn:Ec.
  - case_bool_decide as Eu; cbn [negb]; [subst uid|by apply keeps_reply].
    pose proof Hh as [Hr _]. pose proof Hr as (Hf & Hact & Hus). apply find_row_elem in Hf as Hf'. destruct Hf' as [_ Hid].
    assert (phone_shown env (trace w) from (hashPhone env (normalizePhone ph))) as Hp by (by exists message, ph).
    apply wp_bind. eapply wp_transition; try done.
    { intros r' Hr'. rewrite Hf in Hr'. injection Hr' as <-. split; [done|]. intros now hash.
      eapply row_ok_move; rewrite ?Hus; try done; try nostage; [by eapply at_row_ok| |by left].
      set_unfold. tauto. }
    intros r' now hash w1 Hr' Hi1 Hf1 Ht1 _. rewrite Hf in Hr'. injection Hr' as <-.
    cbn [rec_id rowToRecord set_columns id]. rewrite Hid.
    apply wp_bind. eapply wp_transition; try done.
    { intros r' Hr'. rewrite Hf1 in Hr'. injection Hr' as <-. split; [by apply (bool_decide_unpack (active _)); vm_compute|]. intros now' hash'.
      eapply row_ok_move; cbn [channel_user_id set_columns phone_stub_hash u_phoneStubHash]; rewrite ?Hus, ?Ht1;
        try done; try nostage; [|set_unfold; tauto|by left].
      apply find_row_elem in Hf1 as [Hin _]. rewrite <- Ht1. by apply (i_rows _ _ _ Hi1). }
    intros r' now' hash' w2 Hr' Hi2 Hf2 Ht2 _. rewrite Hf1 in Hr'. injection Hr' as <-.
    eapply wp_extending; [by apply ext_query|done|]. intros ex w3 Hi3 Hx3 _.
    eapply wp_mono; [eapply (keeps_reply from); [done| |]|done|done].
    + eapply record_ok_extends; [done|]. by eapply found_record_ok.
    + unfold ask_email. by destruct (truthy ex).
  - eapply wp_extending; [by apply ext_ticking|done|]. intros now w1 Hi1 Hx1 _.
    apply wp_bind. apply wp_recordContactPrompt; [done|done|]. intros w2 Hi2 Ht2 Ho2.
    eapply (keeps_reply from); [done| |].
    + apply (record_ok_mono env w1); [by rewrite Ht2|by rewrite Ho2|]. by eapply record_ok_extends.
    + intros _. rewrite Ht2. eapply admitted_mono; [|done]. apply Hx1.
Qed.

(** * The handlers *)

Lemma ext_attempts ex w (f : jsmap string (list Z) → jsmap string (list Z) * bool) :
  inv_with ex w →
  extending ex (λ w, let '(m, over) := f (tokenAttempts w) in (with_attempts w m, Ok over)) w (λ _ _, True).
Proof.
  intros Hi. unfold RegistrationInvariant.extending, wp. destruct (f _) as [m over].
  assert (extends w (with_attempts w m)) by done. split_and!; try done.
  eapply inv_extends; [done|done|apply Hi|apply Hi].
Qed.

Lemma keeps_token w rec message from r :
  inv w → here w rec from r → keeps (handleAwaitingWaitlistToken env rec message from) w.
Proof.
  intros Hi Hh. pose proof (here_record_ok _ _ _ _ _ Hi Hh) as Hrec. unfold handleAwaitingWaitlistToken.
  destruct (waitlistGate env) as [g|] eqn:Eg; [|by apply keeps_reply].
  case_bool_decide; [by apply keeps_reply|].
  eapply wp_extending; [by apply ext_ticking|done|]. intros now w1 Hi1 Hx1 _.
  eapply wp_extending; [by apply (ext_attempts _ w1 (λ m, overTokenLimit m from now))|done|].
  intros over w2 Hi2 Hx2 _. pose proof (extends_trans _ _ _ Hx1 Hx2) as Hx12.
  destruct over; [apply keeps_reply; [done|by eapply record_ok_extends|done]|].
  eapply wp_extending; [|done|].
  { apply (ext_try env _ _ _ _ (λ d w', match d with Redeemed => GateAdmitted from ∈ trace w' | _ => True end)).
    - apply ext_askGate; [done| |].
      + intros w' Hi' _. by apply ext_redeem.
      + intros [|] x y Hx Ha; [|done]. by apply (ex_trace _ _ Hx).
    - intros e w' Hi' _. eapply ext_bind; [|intros; by apply ext_throw]. by apply ext_memory. }
  intros d w3 Hi3 Hx3 Hd. pose proof (extends_trans _ _ _ Hx12 Hx3) as Hx.
  destruct d as [|err msg]; [|apply keeps_reply; [done|by eapply record_ok_extends|done]].
  assert (admitted env (trace w3) from) by (by right).
  eapply (keeps_move w3 _ from r); try done; try nostage.
  - eapply at_row_extends; [exact Hx|apply Hh].
  - set_unfold; tauto.
  - by left.
  - vm_compute. lia.
Qed.

Lemma keeps_initial w rec message from r :
  inv w → here w rec from r → Received from message ∈ trace w →
  keeps (recoverFromInitial env rec message from) w.
Proof.
  intros Hi Hh Hm. unfold recoverFromInitial.
  pose proof Hh as [(_ & _ & Hus) Erec]. rewrite <- Erec at 1. cbn [channelUserId rowToRecord]. rewrite Hus.
  eapply wp_extending; [by apply ext_gate|done|]. intros refusal w1 Hi1 Hx1 Hadm.
  pose proof (here_extends _ _ _ _ _ Hx1 Hh) as Hh1.
  destruct refusal as [msg|].
  - eapply (keeps_move w1 _ from r); try done; try nostage; [apply Hh1|set_unfold; tauto|by left|vm_compute; lia].
  - specialize (Hadm eq_refl). pose proof Hh1 as [(Hf & Hact & _) _]. pose proof Hh1 as [Hr1 _].
    pose proof Hf as [_ Hid]%find_row_elem.
    apply wp_bind. eapply wp_transition; try done.
    { intros r' Hr'. rewrite Hf in Hr'. injection Hr' as <-. split; [done|]. intros now hash.
      eapply row_ok_move; rewrite ?Hus; try done; try nostage; [by eapply at_row_ok|set_unfold; tauto|by left]. }
    intros r' now hash w2 Hr' Hi2 Hf2 Ht2 _. rewrite Hf in Hr'. injection Hr' as <-.
    apply (keeps_contact _ _ _ _ (set_columns "AWAITING_CONTACT" no_updates now hash r)); [done| | |by rewrite Ht2].
    + split; [|done]. split_and!; [|by apply (bool_decide_unpack (active _)); vm_compute|done]. cbn [rec_id rowToRecord set_columns id]. by rewrite Hid.
    + rewrite Ht2. by apply (ex_trace _ _ Hx1).
Qed.

Lemma keeps_phone_confirmed w rec from r :
  inv w → here w rec from r → r_state r = "PHONE_CONFIRMED" →
  keeps (recoverFromPhoneConfirmed env rec from) w.
Proof.
  intros Hi Hh Hst. unfold recoverFromPhoneConfirmed. pose proof Hh as [Hr _].
  pose proof (at_row_ok _ _ _ _ _ Hi Hr) as Hok. pose proof Hr as (Hf & Hact & Hus). pose proof (ro_admitted _ _ _ _ Hok) as Ha. pose proof (ro_phone _ _ _ _ Hok) as Hp.
  rewrite Hst, Hus in Ha, Hp.
  apply wp_bind. eapply wp_transition; try done.
  { intros r' Hr'. rewrite Hf in Hr'. injection Hr' as <-. split; [done|]. intros now hash.
    eapply row_ok_move; rewrite ?Hus; try done; try nostage; [set_unfold; tauto|by left]. }
  intros r' now hash w1 Hr' Hi1 Hf1 Ht1 _. rewrite Hf in Hr'. injection Hr' as <-.
  eapply wp_extending; [by apply ext_query|done|]. intros ex w2 Hi2 Hx2 _.
  eapply (keeps_reply from); [done| |unfold ask_email; by destruct (truthy ex)].
  eapply record_ok_extends; [done|]. by eapply found_record_ok.
Qed.

(** ** The address *)

(** The code of a row that is about to be mailed. *)
Definition pending (rid : string) (n : nat) (email code : string) : codes :=
  λ i m e c, i = rid ∧ m = n ∧ e = email ∧ c = code.

Lemma inv_mailed rid n email code w :
  inv_with (pending rid n email code) w → Emailed email code ∈ trace w → inv w.
Proof. intros Hi Hm. eapply inv_resolve; [|exact Hi]. intros i m e c (_ & _ & -> & ->). by left. Qed.

Lemma deliver_code rid n email otp w :
  inv_with (pending rid n email otp) w → tick w = n + 6 →
  wp (try_catch (_ ← sendOtp env email otp; mret true) (λ _, mret false)) w
    (λ b w', extends w w' ∧ tick w' = n + 7 ∧
       (inv w' ∨ b = false ∧ inv_with (pending rid n email otp) w' ∧ fate_of env (n + 6) = FailsBefore))
    (λ _, False).
Proof.
  intros Hi Ek. destruct (inv_tick env _ w (S (tick w)) Hi ltac:(lia)) as [Hi1 Hx1].
  destruct (inv_event env _ _ (Emailed email otp) Hi1 I) as [Hi2 Hx2].
  pose proof (extends_trans _ _ _ Hx1 Hx2) as Hx.
  assert (inv (occurred (Emailed email otp) (with_tick w (S (tick w))))) as Hi3.
  { eapply inv_mailed; [exact Hi2|]. cbn. left. }
  unfold wp, try_catch, sendOtp, mbind, act_bind, external, modify. cbv zeta. rewrite <- Ek.
  destruct (fate_of env (tick w)) eqn:Ef; cbn -[occurred with_tick]; (split_and!; [done|cbn; lia|]).
  - by left.
  - by right.
  - by left.
Qed.

Lemma ext_count ex w rch from : inv_with ex w → extending ex (otpSendCount env rch from) w (λ _ _, True).
Proof.
  intros Hi. eapply ext_bind; [by apply ext_ticking|]. intros now w1 Hi1 Hx1 _.
  eapply ext_weaken; [by apply ext_query|done].
Qed.

Lemma ext_record_send ex w rch from : inv_with ex w → extending ex (record_otp_send env rch from) w (λ _ _, True).
Proof.
  intros Hi. destruct (inv_tick env _ w (S (tick w)) Hi ltac:(lia)) as [Hi1 Hx1].
  unfold record_otp_send. apply ext_try; [|intros _ w' Hi' _; by apply ext_ret].
  apply wp_external; [|done]. apply wp_modify. cbv zeta.
  assert (∀ l, inv_with ex (with_log (with_tick w (S (tick w))) l)) as HL.
  { intros l. eapply inv_extends; [exact Hi1|done|apply Hi1|apply Hi1]. }
  assert (∀ l, extends w (with_log (with_tick w (S (tick w))) l)) as HX by (intros l; split; cbn; [done|done|lia]).
  split; [|intros _; split; [apply HL|apply HX]]. split_and!; [apply HL|apply HX|done].
Qed.

(** From the drawing of a code to the end of the handler. *)
Lemma keeps_code w w5 rec message from r n otp salt now :
  here w rec from r → Received from message ∈ trace w → r_state r = "AWAITING_EMAIL" →
  isValidEmail (trim message) = true → inv w5 → extends w w5 → tick w5 = n + 3 →
  Drawn from (trim message) n ∈ trace w5 → otp = pad6 (pretty (random_otp env n mod 1000000)%N) →
  keeps (updated ← transition env (rec_id rec) "AWAITING_EMAIL_OTP"
           (mkUpdates None (Some (hashEmail env (trim message))) (Some (hashOtp env otp salt)) (Some salt)
              (Some (now + OTP_TTL_MS)%Z) (Some 0%Z) None None false);
         delivered ← try_catch (_ ← sendOtp env (trim message) otp; mret true) (λ _, mret false);
         if (delivered : bool) then
           _ ← record_otp_send env (rec_channel rec) from;
           _ ← send env from (CODE_SENT (trim message));
           mret updated
         else
           rolledBack ← transition env (rec_id rec) "AWAITING_EMAIL"
             (mkUpdates None None None None None None None None true);
           _ ← send env from DELIVERY_FAILED;
           mret rolledBack) w5.
Proof.
  intros Hh Hm Hst Ev Hi5 Hx Ek Hd Eotp.
  pose proof (here_extends _ _ _ _ _ Hx Hh) as [Hr _]. pose proof Hr as (Hf & Hact & Hus).
  pose proof (at_row_ok _ _ _ _ _ Hi5 Hr) as Hok.
  pose proof (ro_admitted _ _ _ _ Hok) as Ha. pose proof (ro_phone _ _ _ _ Hok) as Hp. rewrite Hst, Hus in Ha, Hp.
  set (ex := pending (rec_id rec) n (trim message) otp). set (u := mkUpdates None (Some _) _ _ _ _ _ _ _).
  apply wp_bind. eapply (wp_transition_ex none ex); try done.
  { intros r' Hr'. rewrite Hf in Hr'. injection Hr' as <-. split; [done|]. intros now' hash.
    split; [by apply kept_active|].
    apply (row_ok_move _ _ _ _ _ _ _ _ Hok); rewrite ?Hus; try done; try nostage;
      [set_unfold; tauto|by right|intros _; apply Ha; vm_compute; lia|intros _; apply Hp; vm_compute; lia|].
    intros _ h Hh'. cbn in Hh'. destruct (hashOtp env otp salt) eqn:Eh; [done|]. injection Hh' as <-.
    exists otp, salt. split_and!; [done|by rewrite Eh|]. exists message, n. cbn. rewrite Hus.
    split_and!; try done; [by apply (ex_trace _ _ Hx)|]. by right; right. }
  { intros w' Hi' Hfate. eapply inv_resolve; [|exact Hi']. intros i m e c (-> & -> & -> & ->). right. left.
    rewrite <- Hfate. f_equal. lia. }
  intros r' now' hash w6 Hr' Hi6 Hf6 Ht6 _ Ek6. rewrite Hf in Hr'. injection Hr' as <-.
  apply wp_bind. eapply wp_mono; [apply (deliver_code (rec_id rec) n); [exact Hi6|lia]| |done].
  intros delivered w7 (Hx7 & Ek7 & Hi7). pose proof (find_row_elem _ _ _ Hf) as [_ Hid].
  assert (find_row (rec_id rec) (rows w7) = Some (set_columns "AWAITING_EMAIL_OTP" u now' hash r)) as Hf7
    by (by rewrite (ex_rows _ _ Hx7)).
  destruct delivered.
  - destruct Hi7 as [Hi7|[? _]]; [|done].
    eapply wp_extending; [by apply ext_record_send|done|]. intros _ w8 Hi8 Hx8 _.
    apply keeps_reply; [done| |done]. eapply record_ok_extends; [exact Hx8|]. by eapply found_record_ok.
  - assert (admitted env (trace w7) from) as Ha7.
    { eapply admitted_mono; [apply (ex_trace _ _ Hx7)|]. rewrite Ht6. apply Ha. vm_compute. lia. }
    assert (phone_shown env (trace w7) from (phone_stub_hash r)) as Hp7.
    { destruct Hp as (msg & ph & Hin & ? & ?); [vm_compute; lia|]. exists msg, ph.
      split_and!; try done. apply (ex_trace _ _ Hx7). by rewrite Ht6. }
    assert (at_row w7 (rec_id rec) from (set_columns "AWAITING_EMAIL_OTP" u now' hash r)) as Hr7.
    { split_and!; [done|by apply (bool_decide_unpack (active _)); vm_compute|done]. }
    destruct Hi7 as [Hi7|(_ & Hi7 & Hfate)].
    + eapply (keeps_move w7 _ from); try done; [set_unfold; tauto|by left|vm_compute; lia].
    + eapply (keeps_move_ex ex w7 _ from); try done; [set_unfold; tauto| |by left|vm_compute; lia].
      intros i m e c (-> & -> & _). split; [done|]. split; [done|]. intros Hf8. right. split; [done|].
      by replace (n + 9) with (tick w7 + 2) by lia; rewrite <- Ek7.
Qed.

Lemma keeps_email w rec message from r :
  inv w → here w rec from r → Received from message ∈ trace w → r_state r = "AWAITING_EMAIL" →
  keeps (handleAwaitingEmail env rec message from) w.
Proof.
  intros Hi Hh Hm Hst. pose proof (here_record_ok _ _ _ _ _ Hi Hh) as Hrec. unfold handleAwaitingEmail.
  destruct (isValidEmail (trim message)) eqn:Ev; cbn [negb]; [|by apply keeps_reply].
  eapply wp_extending; [|done|].
  { apply ext_try; [by apply ext_count|]. intros e w' Hi' _.
    eapply ext_bind; [by apply ext_send|]. intros; by apply ext_throw. }
  intros count w1 Hi1 Hx1 _. case_match; [apply keeps_reply; [done|by eapply record_ok_extends|done]|].
  apply wp_bind, wp_gets. set (n := tick w1).
  eapply wp_ticking; [exact Hi1|]. intros w2 Hi2 Hx2 Ek2 _. fold n in Ek2 |- *. set (otp := pad6 _).
  apply wp_bind, wp_modify. destruct (inv_event env none w2 (Drawn from (trim message) n) Hi2 I) as [Hi3 Hx3].
  assert (Drawn from (trim message) n ∈ trace (occurred (Drawn from (trim message) n) w2)) as Hd3 by (cbn; left).
  assert (tick (occurred (Drawn from (trim message) n) w2) = n + 1) as Ek3 by (cbn; lia). revert Hi3 Hx3 Hd3 Ek3.
  generalize (occurred (Drawn from (trim message) n) w2). intros w3 Hi3 Hx3 Hd3 Ek3.
  eapply wp_ticking; [exact Hi3|]. intros w4 Hi4 Hx4 Ek4 _. set (salt := random_salt env (tick w3)).
  eapply wp_ticking; [exact Hi4|]. intros w5 Hi5 Hx5 Ek5 _. set (now := clock env (tick w4)).
  assert (tick w5 = n + 3) as Ek by lia. assert (extends w3 w5) as Hx35 by (by eapply extends_trans).
  assert (extends w w5) as Hx by (do 3 (eapply extends_trans; [eassumption|]); done).
  apply (ex_trace _ _ Hx35) in Hd3. clear Hi2 Hi3 Hi4 Hx2 Hx3 Hx4 Hx5 Hx35 Ek2 Ek3 Ek4 Ek5. clearbody salt now.
  by apply (keeps_code w w5 rec message from r n).
Qed.

(** ** The token *)

Lemma ext_token ex w rec rid : inv_with ex w → extending ex (try_token env rec rid) w (λ _ _, True).
Proof.
  intros Hi. unfold try_token. apply ext_try; [|intros _ w' Hi' _; by apply ext_ret].
  eapply ext_bind; [by apply ext_query|]. intros; by apply ext_ret.
Qed.

Lemma keeps_finish w rid from r result :
  inv w → at_row w rid from r → stage (r_state r) = 4 → keeps (finish env rid from result) w.
Proof.
  intros Hi Hr Hst. unfold finish. pose proof Hr as (Hf & Hact & Hus).
  pose proof (at_row_ok _ _ _ _ _ Hi Hr) as Hok.
  pose proof (ro_admitted _ _ _ _ Hok) as Ha. pose proof (ro_phone _ _ _ _ Hok) as Hp.
  pose proof (ro_verified _ _ _ _ Hok Hst) as Hv. rewrite Hst in Ha, Hp.
  apply wp_bind. eapply wp_transition; try done.
  { intros r' Hr'. rewrite Hf in Hr'. injection Hr' as <-. split; [done|]. intros now hash.
    eapply row_ok_move; try done; [set_unfold; tauto|by left]. }
  intros r' now hash w1 Hr' Hi1 Hf1 Ht1 _.
  assert (record_ok env w1 (rowToRecord (set_columns "PRE_AUTH_TOKEN_ISSUED" no_updates now hash r'))) as Hrec
    by (by eapply found_record_ok).
  eapply wp_extending; [|done|].
  { apply (ext_try env _ _ _ _ (λ _ _, True)); [|intros _ w' Hi' _; by apply ext_ret].
    destruct (inv_tick env _ w1 (S (tick w1)) Hi1 ltac:(lia)) as [Hi2 Hx2].
    apply wp_external; [|done]. apply wp_modify.
    match goal with |- (?P ∧ ?Q ∧ ?R) ∧ _ => assert (P ∧ Q) as [? ?]; [|done] end.
    split; [|split; cbn; [done|done|lia]]. eapply inv_extends; [exact Hi2|done|apply Hi2|apply Hi2]. }
  intros _ w2 Hi2 Hx2 _. eapply wp_extending; [|done|].
  { eapply ext_bind; [by apply ext_send|]. intros _ w3 Hi3 Hx3 _. by apply ext_send. }
  intros _ w3 Hi3 Hx3 _. apply keeps_ret; [done|].
  eapply record_ok_extends; [|exact Hrec]. by eapply extends_trans.
Qed.

Lemma keeps_retry w rec from r :
  inv w → here w rec from r → r_state r = "EMAIL_CONFIRMED" → keeps (retryPreAuth env rec from) w.
Proof.
  intros Hi Hh Hst. pose proof (here_record_ok _ _ _ _ _ Hi Hh) as Hrec. unfold retryPreAuth.
  eapply wp_extending; [by apply ext_token|done|]. intros result w1 Hi1 Hx1 _.
  pose proof (here_extends _ _ _ _ _ Hx1 Hh) as [Hr1 _].
  destruct result.
  - eapply keeps_finish; [done|done|]. by rewrite Hst.
  - apply keeps_reply; [done|by eapply record_ok_extends|done].
Qed.

(** ** The code *)

Lemma keeps_reenter w rid from r attempts n :
  inv w → at_row w rid from r → 2 <= stage (r_state r) → (attempts = None ∨ attempts = Some 0%Z) →
  is_contact_prompt n = false → keeps (reenter_email env rid from attempts n) w.
Proof.
  intros Hi Hr Hst Hat Hn. pose proof Hr as (_ & _ & Hus). pose proof (at_row_ok _ _ _ _ _ Hi Hr) as Hok.
  pose proof (ro_admitted _ _ _ _ Hok) as Ha. pose proof (ro_phone _ _ _ _ Hok) as Hp. rewrite Hus in Ha, Hp.
  unfold reenter_email. eapply (keeps_move w _ from r); try done;
    [set_unfold; tauto|vm_compute; lia|intros _; apply Ha; lia|intros _; apply Hp; lia|by rewrite Hn].
Qed.

Lemma external_eq {A} (op op' : M A) w :
  op (with_tick w (S (tick w))) = op' (with_tick w (S (tick w))) → external env op w = external env op' w.
Proof. intros E. unfold external. by destruct (fate_of env (tick w)); rewrite ?E. Qed.

Lemma keeps_wrong w rec from r n :
  inv w → here w rec from r → stage (r_state r) = 3 → n = otp_attempt_count r →
  keeps (wrong_code env rec n from) w.
Proof.
  intros Hi Hh Hst ->. pose proof Hh as [Hr Erec]. pose proof Hr as (Hf & Hact & Hus).
  pose proof (at_row_ok _ _ _ _ _ Hi Hr) as Hok. unfold wrong_code.
  pose proof (ro_admitted _ _ _ _ Hok) as Ha. pose proof (ro_phone _ _ _ _ Hok) as Hp. rewrite Hst in Ha, Hp.
  destruct (MAX_OTP_ATTEMPTS <=? otp_attempt_count r + 1)%Z eqn:Ec; bools.
  - unfold transitionOnOtpLockout. apply wp_bind.
    eapply wp_extending; [by apply ext_ticking|done|]. intros now w1 Hi1 Hx1 [_ Ht1].
    pose proof (at_row_extends _ _ _ _ _ Hx1 Hr) as Hr1. pose proof Hr1 as (Hf1 & _ & _).
    pose proof (at_row_ok _ _ _ _ _ Hi1 Hr1) as Hok1.
    unfold wp. erewrite external_eq by (cbn [rows with_tick]; rewrite Hf1; reflexivity).
    refine (wp_change w1 (rec_id rec) _ r _ Hi1 Hf1 _ _ _ _ _ _ _); try done.
    + eapply row_ok_move; try done; try nostage; [set_unfold; tauto|by right| |]; intros _; cbn; rewrite Ht1;
        [apply Ha|apply Hp]; lia.
    + intros w2 Hi2 Hf2 Ht2 _. apply keeps_reply; [done|by eapply found_record_ok|done].
  - unfold incrementOtpAttempt. apply wp_bind.
    eapply wp_extending; [by apply ext_query|done|]. intros prev w1 Hi1 Hx1 [-> _]. cbn [rows with_tick].
    rewrite Hf. cbn [fmap option_fmap option_map].
    eapply wp_extending; [by apply ext_ticking|done|]. intros now w2 Hi2 Hx2 _.
    pose proof (extends_trans _ _ _ Hx1 Hx2) as Hx.
    pose proof (at_row_extends _ _ _ _ _ Hx Hr) as Hr2. pose proof Hr2 as (Hf2 & _ & _).
    pose proof (at_row_ok _ _ _ _ _ Hi2 Hr2) as Hok2.
    eapply wp_change; try done.
    { destruct Hok2 as [? ? ? ? ? ? ?]. split; try done. cbn. lia. }
    intros w3 Hi3 Hf3 Ht3 _. eapply wp_extending; [by apply ext_send|done|]. intros _ w4 Hi4 Hx4 _.
    eapply wp_extending; [by apply ext_query|done|]. intros upd w5 Hi5 Hx5 [-> _]. cbn [rows with_tick].
    rewrite (ex_rows _ _ Hx4), Hf3. cbn [fmap option_fmap option_map default].
    apply keeps_ret; [done|].
    eapply record_ok_extends; [by eapply extends_trans; [exact Hx4|]|]. by eapply found_record_ok.
Qed.

(** When continuity is not broken the addresses agree. *)
Lemma ext_continuity ex w rec from r :
  inv_with ex w → here w rec from r →
  extending ex (continuity_broken env rec) w (λ b _, b = false → same_email r).
Proof.
  intros Hi [Hr Erec]. unfold continuity_broken.
  eapply ext_bind; [by apply ext_query|]. intros expected w1 Hi1 Hx1 [-> _]. cbn [rows with_tick].
  pose proof Hr as (Hf & _). rewrite Hf. cbn [mbind option_bind]. unfold same_email.
  destruct (truthy (sd_expectedEmailStubHash (r_data r))) as [h|]; [|by apply ext_ret].
  eapply (ext_bind env ex _ _ w1 (λ a _, a = email_stub_hash r)).
  - destruct (emailStubHash rec) as [a|] eqn:Ea; rewrite <- Erec in Ea; cbn in Ea; [by apply ext_ret|].
    eapply ext_weaken; [by apply ext_query|]. intros a w' _ [-> _]. cbn [rows with_tick].
    pose proof (at_row_extends _ _ _ _ _ Hx1 Hr) as (-> & _). cbn. done.
  - intros a w2 Hi2 Hx2 ->. apply ext_ret; [done|].
    destruct (truthy (email_stub_hash r)) as [h'|]; [|done].
    intros Hb%negb_false_iff%bool_decide_eq_true h1 h2 [= <-] [= <-]. done.
Qed.

Lemma keeps_right w rec from message r :
  inv w → here w rec from r → Received from message ∈ trace w → r_state r = "AWAITING_EMAIL_OTP" →
  (∃ code salt, issued env (mailed env none w (rec_id rec)) (trace w) from (email_stub_hash r) code ∧
     hashOtp env (trim message) salt = hashOtp env code salt) →
  keeps (right_code env rec from) w.
Proof.
  intros Hi Hh Hm Hst (code & salt & Hiss & Eh). unfold right_code.
  eapply wp_extending; [by eapply ext_continuity|done|]. intros broken w1 Hi1 Hx1 Hb.
  pose proof (here_extends _ _ _ _ _ Hx1 Hh) as [Hr1 _]. pose proof Hr1 as (Hf1 & Hact & Hus).
  pose proof (at_row_ok _ _ _ _ _ Hi1 Hr1) as Hok.
  pose proof (ro_admitted _ _ _ _ Hok) as Ha. pose proof (ro_phone _ _ _ _ Hok) as Hp. rewrite Hst in Ha, Hp.
  destruct broken.
  - eapply wp_extending; [by apply ext_send|done|]. intros _ w2 Hi2 Hx2 _.
    pose proof (at_row_extends _ _ _ _ _ Hx2 Hr1) as Hr2. pose proof Hr2 as (Hf2 & _).
    eapply wp_transition; try done.
    2:{ intros r' now hash w3 _ Hi3 Hf3 _ _. split; [done|]. by eapply found_record_ok. }
    intros r' Hr'. rewrite Hf2 in Hr'. injection Hr' as <-. split; [done|]. intros now hash.
    pose proof (at_row_ok _ _ _ _ _ Hi2 Hr2) as Hok2.
    eapply row_ok_move; try done; try nostage; [set_unfold; tauto|by left| |]; intros _.
    + apply (ro_admitted _ _ _ _ Hok2). rewrite Hst. vm_compute. lia.
    + apply (ro_phone _ _ _ _ Hok2). rewrite Hst. vm_compute. lia.
  - apply wp_bind. eapply wp_transition; try done.
    { intros r' Hr'. rewrite Hf1 in Hr'. injection Hr' as <-. split; [done|]. intros now hash.
      eapply row_ok_move; try done; try nostage; [set_unfold; tauto|by left| | |]; intros _;
        [apply Ha; vm_compute; lia|apply Hp; vm_compute; lia|]. split; [|by apply Hb].
      exists code, salt, message. cbn. rewrite Hus. split_and!; [|by apply (ex_trace _ _ Hx1)|done].
      eapply issued_mono; [|apply (ex_trace _ _ Hx1)|exact Hiss].
      intros n e c. apply mailed_mono, Hx1. }
    intros r' now hash w2 Hr' Hi2 Hf2 Ht2 _. rewrite Hf1 in Hr'. injection Hr' as <-.
    pose proof (find_row_elem _ _ _ Hf2) as [_ Hid].
    eapply wp_extending; [by apply ext_token|done|]. intros result w3 Hi3 Hx3 _.
    destruct result as [res|].
    + apply (keeps_finish _ _ _ (set_columns "EMAIL_CONFIRMED"
        (mkUpdates None None None None None None None None true) now hash r)); [done| |done].
      cbn [rec_id rowToRecord]. rewrite Hid. eapply at_row_extends; [exact Hx3|].
      split_and!; [exact Hf2|by apply (bool_decide_unpack (active _)); vm_compute|done].
    + apply keeps_reply; [done| |done]. eapply record_ok_extends; [exact Hx3|]. by eapply found_record_ok.
Qed.

Lemma keeps_otp w rec message from r :
  inv w → here w rec from r → Received from message ∈ trace w → r_state r = "AWAITING_EMAIL_OTP" →
  keeps (handleAwaitingEmailOtp env rec message from) w.
Proof.
  intros Hi Hh Hm Hst. unfold handleAwaitingEmailOtp. pose proof Hh as [Hr Erec].
  pose proof (at_row_ok _ _ _ _ _ Hi Hr) as Hok.
  pose proof (deserialize_spec r (ro_state _ _ _ _ Hok)) as Hd. rewrite Hst in Hd.
  assert (stage (r_state r) = 3) as Hs3 by (by rewrite Hst).
  assert (state rec = deserializeState r) as -> by (by rewrite <- Erec).
  destruct (deserializeState r) as [| | | | |h t n| | | |]; try done. destruct Hd as (_ & -> & -> & ->).
  case_bool_decide as Eh; [apply (keeps_reenter _ _ _ r); try done; [lia|by right]|].
  eapply wp_extending; [by apply ext_ticking|done|]. intros now w1 Hi1 Hx1 _.
  pose proof (here_extends _ _ _ _ _ Hx1 Hh) as Hh1.
  case_match; [apply (keeps_reenter _ _ _ r); try done; [apply Hh1|lia|by right]|].
  eapply wp_extending; [by apply ext_query|done|]. intros salt w2 Hi2 Hx2 [-> _]. cbn [rows with_tick].
  pose proof (here_extends _ _ _ _ _ Hx2 Hh1) as Hh2. pose proof Hh1 as [(Hf1 & _ & Hus) _]. rewrite Hf1.
  cbn [mbind option_bind].
  destruct (truthy (otp_salt r)) as [salt|] eqn:Es;
    [|apply (keeps_reenter _ _ _ r); try done; [apply Hh2|lia|by right]].
  unfold verifyOtp. case_bool_decide as El; [|exact Hi2].
  eapply (wp_extending env _ (mret _) _ _ (λ b _, b = bool_decide _)); [by apply ext_ret|done|].
  intros correct w3 Hi3 Hx3 ->. pose proof (here_extends _ _ _ _ _ Hx3 Hh2) as Hh3.
  case_bool_decide as Ec; [|by eapply keeps_wrong].
  assert (extends w w3) as Hx by (do 2 (eapply extends_trans; [eassumption|]); done).
  pose proof (at_row_ok _ _ _ _ _ Hi3 (proj1 Hh3)) as Hok3.
  destruct (otp_hash r) as [h|] eqn:Eo; [|done]. cbn [default id] in *.
  destruct (ro_code _ _ _ _ Hok3 Hs3 h) as (code & salt' & Es' & Ehh & Hiss); [rewrite Eo; by destruct h|].
  apply (keeps_right _ _ from message r); try done; [by apply (ex_trace _ _ Hx)|].
  rewrite Es' in Es. assert (salt' = salt) as -> by (destruct salt'; cbn in Es; congruence).
  exists code, salt. split; [by rewrite <- Hus|]. by rewrite Ec.
Qed.

(** ** New rows *)

(** The user has no active row. *)
Definition free (w : world) (user : string) : Prop :=
  ∀ r, r ∈ rows w → active r → ¬ (r_channel r = ch ∧ channel_user_id r = user).

Lemma free_extends w w' user : extends w w' → free w user → free w' user.
Proof. intros Hx Hfr r. rewrite (ex_rows _ _ Hx). apply Hfr. Qed.

Lemma find_row_unique r rs : r ∈ rs → NoDup (map id rs) → find_row (id r) rs = Some r.
Proof.
  unfold find_row. induction rs as [|x rs IH]; [by intros ?%not_elem_of_nil|].
  intros [->|Hr]%elem_of_cons [Hx Hn]%list.NoDup_cons; cbn.
  - by rewrite bool_decide_eq_true_2.
  - rewrite bool_decide_eq_false_2; [by apply IH|]. intros E. apply Hx. rewrite E. by apply list_elem_of_fmap_2.
Qed.

Lemma not_found_id rid rs : find_row rid rs = None → rid ∉ map id rs.
Proof.
  unfold find_row. induction rs as [|x rs IH]; cbn; [by intros _ ?%not_elem_of_nil|].
  case_bool_decide; [done|]. intros E. rewrite not_elem_of_cons. split; [congruence|by apply IH].
Qed.

Lemma elem_active_keys {K} (key : RegistrationRow → K) k rs :
  k ∈ active_keys key rs → ∃ r, r ∈ rs ∧ active r ∧ key r = k.
Proof.
  unfold active_keys. intros (r & -> & Hr)%list_elem_of_fmap.
  apply list_elem_of_In, List.filter_In in Hr as [Hr Ha%bool_decide_eq_true].
  exists r. split_and!; [by apply list_elem_of_In|done|done].
Qed.

Lemma continues_mono rs rs' rid stub : rs ⊆ rs' → continues rs rid stub → continues rs' rid stub.
Proof. intros Hs (r0 & r & Hr0 & Hr & H). exists r0, r. split_and!; try apply H; by apply Hs. Qed.

Lemma inv_append w w' r :
  inv w → rows w' = rows w ++ [r] → trace w' = trace w → activeRecords w' = activeRecords w →
  tick w <= tick w' → id r ∉ map id (rows w) → free w (channel_user_id r) → r_channel r = ch →
  NoDup (active_keys phone_stub_hash (rows w')) →
  row_ok env (mailed env none w (id r)) (trace w) r → inv w'.
Proof.
  intros [H1 H2 H3 H4 H5 [H6 H7]] Er Et Ea Ek Hid Hfr Hch Hn Hok. split; rewrite ?Et, ?Ea; try done.
  5:{ split; [done|]. intros rid stub Hin. eapply continues_mono; [|by apply H7]. rewrite Er. set_solver. }
  4:{ intros e He. apply (record_ok_mono env w); [by rewrite Et| |by apply H5].
      rewrite Er. unfold owners. rewrite map_app. set_solver. }
  - rewrite Er, map_app. apply list.NoDup_app. split; [done|]. split; [|apply NoDup_singleton].
    intros x Hx Hx'%list_elem_of_singleton. cbn in Hx'. by subst.
  - rewrite Er, active_keys_app. apply list.NoDup_app. split; [done|].
    rewrite active_keys_cons. cbn. case_decide; cbn; (split; [|first [apply NoDup_singleton|apply NoDup_nil_2]]).
    + intros x Hx Hx'%list_elem_of_singleton. subst x.
      apply elem_active_keys in Hx as (q & Hq & Haq & [= Hc Hu]).
      apply (Hfr q Hq Haq). by rewrite Hc, Hu.
    + by intros x _ ?%not_elem_of_nil.
  - assert (∀ i n e c, mailed env none w i n e c → mailed env none w' i n e c) as Hm.
    { intros i n e c. apply mailed_mono. by rewrite Et. }
    rewrite Er. intros x [Hx|Hx]%elem_of_app.
    + eapply row_ok_mono; [apply Hm|reflexivity|by apply H4].
    + apply list_elem_of_singleton in Hx as ->. eapply row_ok_mono; [apply Hm|reflexivity|exact Hok].
Qed.

(** A row just inserted. *)
Definition inserted (w w' : world) (r : RegistrationRow) (st : string) : Prop :=
  r_state r = st ∧ r_channel r = ch ∧ sd_expectedEmailStubHash (r_data r) = None ∧ rows w ⊆ rows w' ∧
  ∀ stub, Continuing (id r) stub ∉ trace w'.

Lemma wp_insert w phone user st expiry Q :
  inv w → free w user → st ∈ STATES → stage st < 2 → (1 <= stage st → admitted env (trace w) user) →
  (∀ r w', inv w' → at_row w' (id r) user r → trace w' = trace w → inserted w w' r st → Q (rowToRecord r) w') →
  st ∉ TERMINAL →
  wp (insert env phone ch user st expiry) w Q inv.
Proof.
  intros Hi Hfr Hst Hs Ha HQ Hal. unfold insert.
  eapply wp_extending; [by apply ext_ticking|done|]. intros rid w1 Hi1 Hx1 [_ Ht1].
  eapply wp_extending; [by apply ext_ticking|done|]. intros now w2 Hi2 Hx2 [_ Ht2].
  pose proof (free_extends _ _ _ (extends_trans _ _ _ Hx1 Hx2) Hfr) as Hfr2.
  destruct (inv_tick env _ w2 (S (tick w2)) Hi2 ltac:(lia)) as [Hi3 Hx3].
  apply wp_external; [|done]. unfold wp. cbv zeta. cbn [rows with_tick].
  destruct (find_row rid (rows w2)) eqn:Ef; [done|]. apply not_found_id in Ef.
  match goal with |- context [rows w2 ++ [?x]] => set (r := x) end.
  unfold commit_rows. destruct (unique_active _) eqn:Eu; [|done]. apply bool_decide_eq_true in Eu.
  assert (inv (with_rows (with_tick w2 (S (tick w2))) (rows w2 ++ [r]))) as Hi4.
  { eapply (inv_append w2 _ r); try done; [cbn; lia|].
    split; cbn; [done|done|by rewrite Ht2, Ht1|intros; lia|intros; lia|intros; lia|done]. }
  assert (find_row rid (rows w2 ++ [r]) = Some r) as ->.
  { apply (find_row_middle rid (rows w2) r []); [done|exact Ef]. }
  split; [|done]. apply HQ; [done| |cbn; by rewrite Ht2, Ht1|].
  - split_and!; [|done|done]. apply find_row_unique; [|apply Hi4]. cbn. apply elem_of_app. right. left.
  - split_and!; try done.
    + cbn. rewrite <- (ex_rows _ _ Hx1), <- (ex_rows _ _ Hx2). set_solver.
    + intros stub Hin. cbn in Hin. destruct (proj2 (i_history _ _ _ Hi2) _ _ Hin) as (_ & x & _ & Hx & Ex & _).
      apply Ef. change (id r) with rid in Ex. rewrite <- Ex. by apply list_elem_of_fmap_2.
Qed.

Lemma at_row_record_ok w rid user r : inv w → at_row w rid user r → record_ok env w (rowToRecord r).
Proof. intros Hi (Hf & _). by eapply found_record_ok. Qed.

Lemma keeps_new w user phone : inv w → free w user → keeps (handleNewUser env user ch phone) w.
Proof.
  intros Hi Hfr. unfold handleNewUser.
  eapply wp_extending; [by apply ext_ticking|done|]. intros now w1 Hi1 Hx1 _.
  eapply wp_extending; [by apply ext_gate|done|]. intros refusal w2 Hi2 Hx2 Hadm.
  pose proof (free_extends _ _ _ (extends_trans _ _ _ Hx1 Hx2) Hfr) as Hfr2.
  apply wp_bind. destruct refusal as [msg|]; apply wp_insert; try done; try nostage;
    try (set_unfold; tauto); try (vm_compute; lia).
  - intros r w3 Hi3 Hr3 Ht3 _. apply keeps_reply; [done|by eapply at_row_record_ok|done].
  - apply (bool_decide_unpack _). by vm_compute.
  - intros r w3 Hi3 Hr3 Ht3 _. apply keeps_reply; [done|by eapply at_row_record_ok|].
    intros _. rewrite Ht3. by apply Hadm.
  - apply (bool_decide_unpack _). by vm_compute.
Qed.

(** A completed registration of the user with that address. *)
Definition earlier (w : world) (user : string) (stub : option string) : Prop :=
  ∃ r0, r0 ∈ rows w ∧ r_channel r0 = ch ∧ channel_user_id r0 = user ∧
    r_state r0 = "PRE_AUTH_TOKEN_ISSUED" ∧ email_stub_hash r0 = stub.

Lemma earlier_mono w w' user stub : rows w ⊆ rows w' → earlier w user stub → earlier w' user stub.
Proof. intros Hs (r0 & Hr0 & H). exists r0. split; [by apply Hs|done]. Qed.

(** The row of a returning user that expects the earlier address continues it. *)
Lemma earlier_continues w w' user r r' stub :
  inv w → at_row w (id r) user r → earlier w user stub → r_channel r = ch →
  rows w' = update_row (id r) (λ _, r') (rows w) → id r' = id r → channel_user_id r' = channel_user_id r →
  r_channel r' = r_channel r → sd_expectedEmailStubHash (r_data r') = truthy stub →
  continues (rows w') (id r) stub.
Proof.
  intros Hi (Hf & Ha & Hu) (r0 & Hr0 & Hc0 & Hu0 & Hs0 & He0) Hc Er Hid' Hu' Hc' Hd.
  assert (id r0 ≠ id r) as Hne.
  { intros E. pose proof (find_row_unique _ _ Hr0 (i_ids _ _ _ Hi)) as Hf0. rewrite E, Hf in Hf0. injection Hf0 as ->.
    apply Ha. rewrite Hs0. set_unfold. tauto. }
  pose proof (find_row_elem _ _ _ Hf) as [Hr _].
  exists r0, r'. rewrite Er. unfold update_row. split_and!; try congruence.
  - apply list_elem_of_fmap. exists r0. rewrite bool_decide_eq_false_2; done.
  - apply list_elem_of_fmap. exists r. rewrite bool_decide_eq_true_2; done.
Qed.

Lemma update_row_same rid (f g : RegistrationRow → RegistrationRow) r rs :
  find_row rid rs = Some r → NoDup (map id rs) → f r = g r → update_row rid f rs = update_row rid g rs.
Proof.
  intros Hf Hn E. apply map_ext_in. intros x Hx%list_elem_of_In. case_bool_decide as Ex; [|done].
  pose proof (find_row_unique x rs Hx Hn) as Hx'. rewrite Ex, Hf in Hx'. by injection Hx' as <-.
Qed.

Lemma keeps_welcome_back w rec user stub :
  inv w → record_ok env w rec → admitted env (trace w) user → continues (rows w) (rec_id rec) stub →
  keeps (_ ← modify (occurred (Continuing (rec_id rec) stub)); _ ← send env user WELCOME_BACK; mret rec) w.
Proof.
  intros Hi Hrec Ha Hc. destruct (inv_event env none w (Continuing (rec_id rec) stub) Hi Hc) as [Hi1 Hx1].
  apply wp_bind, wp_modify. apply keeps_reply; [done|by eapply record_ok_extends|].
  intros _. eapply admitted_mono; [apply (ex_trace _ _ Hx1)|done].
Qed.

Lemma keeps_existing w user phone expected :
  inv w → free w user → earlier w user expected → keeps (handleExistingUser env user ch phone expected) w.
Proof.
  intros Hi Hfr He. unfold handleExistingUser.
  eapply wp_extending; [by apply ext_ticking|done|]. intros now w1 Hi1 Hx1 _.
  eapply wp_extending; [by apply ext_gate|done|]. intros refusal w2 Hi2 Hx2 Hadm.
  pose proof (extends_trans _ _ _ Hx1 Hx2) as Hx. pose proof (free_extends _ _ _ Hx Hfr) as Hfr2.
  apply (earlier_mono w w2) in He; [|by rewrite (ex_rows _ _ Hx)].
  destruct refusal as [msg|]; apply wp_bind; apply wp_insert; try done; try nostage;
    try (set_unfold; tauto); try (vm_compute; lia); try (apply (bool_decide_unpack _); by vm_compute).
  - intros r w3 Hi3 Hr3 Ht3 _.
    eapply (keeps_move w3 _ user r); try done; try nostage; [set_unfold; tauto|by left|vm_compute; lia].
  - specialize (Hadm eq_refl). intros r w3 Hi3 Hr3 Ht3 (Hst & Hc & Hd & Hsub & Hnew). rewrite <- Ht3 in Hadm.
    pose proof (at_row_record_ok _ _ _ _ Hi3 Hr3) as Hrec. pose proof Hr3 as (Hf & Hact & Hus).
    pose proof (at_row_ok _ _ _ _ _ Hi3 Hr3) as Hok. apply (earlier_mono w2 w3) in He; [|done].
    apply wp_bind. destruct (truthy expected) as [h|] eqn:Eh.
    + apply wp_bind. eapply (wp_transition_ex none none); try done.
      { intros r' Hr'. cbn [rec_id rowToRecord] in Hr'. rewrite Hf in Hr'. injection Hr' as <-.
        split; [done|]. intros now' hash. split.
        - split; [intros E; rewrite E in Hst; done|by right].
        - eapply row_ok_move; try done; try nostage; [set_unfold; tauto|by left|by rewrite Hus]. }
      cbn [rec_id rowToRecord]. intros r' now' hash w4 Hr' Hi4 _ Ht4 Hrows _. rewrite Hf in Hr'. injection Hr' as <-.
      apply wp_ret. apply keeps_welcome_back; [done| |by rewrite Ht4|].
      * apply (record_ok_mono env w3); [by rewrite Ht4| |done]. by rewrite Hrows, owners_update.
      * match type of Hrows with _ = update_row _ ?f _ => set (g := f) in * end.
        apply (earlier_continues w3 w4 user r (g r)); try done.
        rewrite Hrows. by eapply update_row_same; [|apply Hi3|].
    + apply wp_ret. apply keeps_welcome_back; [done|done|done|].
      cbn [rec_id rowToRecord]. eapply (earlier_continues w3 w3 user r r); try done; [|by rewrite Eh].
      destruct (find_update (id r) (λ _, r) _ _ Hf (i_ids _ _ _ Hi3)) as (l1 & l2 & E & E' & _). by rewrite E'.
Qed.

(** * The machine *)

Lemma keeps_message w rec message from r :
  inv w → here w rec from r → Received from message ∈ trace w →
  keeps (handleMessage env rec message from) w.
Proof.
  intros Hi Hh Hm. pose proof (here_record_ok _ _ _ _ _ Hi Hh) as Hrec. unfold handleMessage.
  pose proof Hh as [Hr Erec]. pose proof (at_row_ok _ _ _ _ _ Hi Hr) as Hok. pose proof Hr as (_ & _ & Hus).
  pose proof (deserialize_spec r (ro_state _ _ _ _ Hok)) as Hd.
  assert (state rec = deserializeState r) as -> by (by rewrite <- Erec).
  destruct (deserializeState r) as [| | | | |h t n| | | |]; try by apply keeps_ret.
  - by eapply keeps_initial.
  - by eapply keeps_token.
  - eapply keeps_contact; try done. rewrite <- Hus. apply (ro_admitted _ _ _ _ Hok). rewrite Hd. vm_compute. lia.
  - by eapply keeps_phone_confirmed.
  - by eapply keeps_email.
  - eapply keeps_otp; try done. apply Hd.
  - by eapply keeps_retry.
Qed.

(** * The engine *)

(** The row of an active registration, or none. *)
Lemma found_active w from :
  inv w →
  match rowToRecord <$> List.find (λ r, of_user ch from r && bool_decide (active r)) (rows w) with
  | Some rec => ∃ r, here w rec from r ∧ r_channel r = ch
  | None => free w from
  end.
Proof.
  intros Hi. destruct (List.find _ _) as [r|] eqn:Ef; cbn.
  - apply find_some_elem in Ef as [Hin Hf]. apply andb_true_iff in Hf as [Hu Ha]. unfold of_user in Hu.
    apply bool_decide_eq_true in Hu as [Hc Hu]. apply bool_decide_eq_true in Ha. exists r. split; [|done].
    split; [|done]. split_and!; [|done|done]. apply find_row_unique; [done|apply Hi].
  - intros r Hr Ha Hu. apply List.find_none with (x := r) in Ef; [|by apply list_elem_of_In].
    apply andb_false_iff in Ef as [Ef|Ef]; apply bool_decide_eq_false in Ef; done.
Qed.

(** A user whose row was expired has none. *)
Lemma free_after_expiry w w' rid user r f :
  inv w → at_row w rid user r → r_channel r = ch → ¬ active (f r) →
  rows w' = update_row rid f (rows w) → free w' user.
Proof.
  intros Hi (Hf & Ha & Hu) Hc Hn Er q Hq Haq [Hqc Hqu].
  destruct (find_update rid f _ _ Hf (i_ids _ _ _ Hi)) as (l1 & l2 & E & E' & _).
  rewrite Er, E' in Hq. pose proof (i_users _ _ _ Hi) as Hn'. rewrite E, active_keys_app, active_keys_cons in Hn'.
  rewrite decide_True in Hn' by done. cbn in Hn'. rewrite Hc, Hu in Hn'.
  apply list.NoDup_app in Hn' as (_ & Hd & [Hd' _]%list.NoDup_cons).
  assert (∀ l, q ∈ l → (ch, user) ∈ active_keys (λ r, (r_channel r, channel_user_id r)) l) as Hk.
  { intros l Hl. unfold active_keys. apply list_elem_of_fmap. exists q. split; [by rewrite Hqc, Hqu|].
    apply list_elem_of_In, List.filter_In. split; [by apply list_elem_of_In|by apply bool_decide_eq_true]. }
  apply elem_of_app in Hq as [Hq|[->|Hq]%elem_of_cons]; [|done|].
  - apply (Hd _ (Hk _ Hq)). left.
  - apply Hd'. by apply Hk.
Qed.

Lemma inv_active w m : inv w → (∀ e, e ∈ m → record_ok env w e.2) → inv (with_active w m).
Proof. intros Hi Hm. eapply inv_extends; [exact Hi|done|exact Hm|apply Hi]. Qed.

Lemma wp_remember w from rec : inv w → record_ok env w rec → wp (remember from rec) w (λ _, inv) inv.
Proof.
  intros Hi Hr. apply wp_modify. apply inv_active; [done|]. intros e He. case_match.
  - apply (i_active _ _ _ Hi). eapply sublist_subseteq; [apply jdel_sublist|exact He].
  - apply elem_jset in He as [He| ->]; [by apply (i_active _ _ _ Hi)|done].
Qed.

(** What the completed-or-new helper has to keep. *)
Definition keeps_option (m : M (option RegistrationRecord)) (w : world) : Prop :=
  wp m w (λ o w', inv w' ∧ ∀ rec, o = Some rec → record_ok env w' rec) inv.

Lemma keeps_some m w : keeps m w → keeps_option (r ← m; mret (Some r)) w.
Proof.
  intros Hm. apply wp_bind. eapply wp_mono; [exact Hm| |done]. intros r w' [Hi Hr]. apply wp_ret.
  split; [done|]. by intros ? [= <-].
Qed.

Lemma latest_created_elem rs r : latest_created rs = Some r → r ∈ rs.
Proof.
  revert r. induction rs as [|x rs IH]; [done|]. intros r. cbn. destruct (latest_created rs) as [r'|].
  - destruct (_ <? _)%Z; intros [= <-]; [right; by apply IH|left].
  - intros [= <-]. left.
Qed.

Lemma keeps_completed w from message phone :
  inv w → free w from → keeps_option (handleCompletedOrNew env ch from message phone) w.
Proof.
  intros Hi Hfr. unfold handleCompletedOrNew. eapply wp_extending; [|done|].
  { eapply ext_bind; [by apply ext_ticking|]. intros now w1 Hi1 Hx1 _.
    apply (ext_weaken env _ _ _ _ (λ o w', ∀ c t stub, o = Some (c, t, stub) → earlier w' from stub))
      with (1 := ext_query env _ _ _ Hi1).
    intros o w2 Hx2 [-> _] c t stub E. rewrite fmap_Some in E. destruct E as (r & Er%latest_created_elem & [= -> -> ->]).
    apply list_elem_of_In, List.filter_In in Er as [Hr Hb]. apply list_elem_of_In in Hr.
    apply andb_true_iff in Hb as [[Hu%bool_decide_eq_true Hs%bool_decide_eq_true]%andb_true_iff _].
    exists r. rewrite (ex_rows _ _ Hx2). split_and!; try done; apply Hu. }
  intros completed w1 Hi1 Hx1 Hcomp. pose proof (free_extends _ _ _ Hx1 Hfr) as Hfr1.
  destruct completed as [[[cid cat] stub]|]; [|by apply keeps_some, keeps_new].
  specialize (Hcomp _ _ _ eq_refl).
  apply wp_bind, wp_gets. destruct (jhas _ _ && _).
  - eapply wp_extending; [by apply ext_memory|done|]. intros _ w2 Hi2 Hx2 _.
    apply keeps_some, keeps_existing; [done|by eapply free_extends|].
    eapply earlier_mono; [|exact Hcomp]. by rewrite (ex_rows _ _ Hx2).
  - eapply (wp_extending env _ _ _ _ (λ _ _, True)); [|done|].
    { destruct (jhas _ _); [by apply ext_ret|].
      eapply ext_bind; [by apply ext_ticking|]. intros now w2 Hi2 Hx2 _.
      eapply ext_weaken; [by apply ext_memory|done]. }
    intros _ w2 Hi2 Hx2 _. eapply wp_extending; [by apply ext_ticking|done|]. intros _ w3 Hi3 Hx3 _.
    eapply wp_extending; [by apply ext_send|done|]. intros _ w4 Hi4 Hx4 _.
    eapply wp_extending; [by apply ext_send|done|]. intros _ w5 Hi5 Hx5 _. by apply wp_ret.
Qed.

Lemma keeps_dispatch w from message :
  inv w → Received from message ∈ trace w → wp (dispatch env ch from message) w (λ _, inv) inv.
Proof.
  intros Hi Hm. unfold dispatch.
  eapply wp_extending; [by apply ext_query|done|]. intros existing w1 Hi1 Hx1 [-> _]. cbn [rows with_tick].
  apply wp_bind, wp_gets, wp_bind.
  eapply wp_mono with (Q := λ o w', inv w' ∧ ∀ rec, o = Some rec → record_ok env w' rec) (R := inv); [| |done].
  2:{ intros [rec|] w' [Hi' Hr']; [apply wp_remember; [done|by apply Hr']|done]. }
  pose proof (found_active w from Hi) as Hfound. destruct (_ <$> _) as [rec|].
  2:{ apply keeps_completed; [done|]. by eapply free_extends. }
  destruct Hfound as (r & Hh & Hc). pose proof (here_extends _ _ _ _ _ Hx1 Hh) as Hh1.
  eapply wp_extending; [by apply ext_ticking|done|]. intros now w2 Hi2 Hx2 _.
  pose proof (here_extends _ _ _ _ _ Hx2 Hh1) as Hh2. case_match.
  - apply wp_bind. eapply wp_transition; try done.
    { intros r' Hr'. pose proof Hh2 as [Hr2 _]. pose proof Hr2 as (Hf2 & Ha2 & _). rewrite Hf2 in Hr'.
      injection Hr' as <-. split; [done|]. intros now' hash. pose proof (at_row_ok _ _ _ _ _ Hi2 Hr2).
      eapply row_ok_move; try done; try nostage; [set_unfold; tauto|by left]. }
    intros r' now' hash w3 Hr' Hi3 Hf3 Ht3 Hrows.
    apply wp_bind, wp_modify. apply keeps_completed.
    + apply inv_active; [done|]. intros e He. apply (i_active _ _ _ Hi3).
      eapply sublist_subseteq; [apply jdel_sublist|exact He].
    + eapply (free_after_expiry w2 w3 _ _ r); [done|apply Hh2|done| |exact Hrows].
      cbn. intros Hna. apply Hna. set_unfold. tauto.
  - apply keeps_some. eapply keeps_message; try done.
    apply (ex_trace _ _ Hx2), (ex_trace _ _ Hx1), Hm.
Qed.

Lemma keeps_deliver w from message : inv w → wp (deliver env ch from message) w (λ _, inv) inv.
Proof.
  intros Hi. unfold deliver. apply wp_bind, wp_modify.
  destruct (inv_event env _ w (Received from message) Hi I) as [Hi1 _].
  apply wp_try. eapply wp_mono; [apply keeps_dispatch; [done|cbn; left]|done|].
  intros w' Hi' e. by apply wp_ret.
Qed.

Lemma keeps_update w u : inv w → wp (processUpdate env ch u) w (λ _, inv) inv.
Proof.
  intros Hi. unfold processUpdate. destruct (up_from u) as [n|]; [|done]. cbv zeta.
  destruct (up_contact u) as [[phone cuid]|].
  - eapply wp_extending; [by apply ext_memory|done|]. intros _ w1 Hi1 _ _.
    case_bool_decide; by apply keeps_deliver.
  - destruct (truthy (up_text u)); [by apply keeps_deliver|done].
Qed.

(** ** Sweeps *)

Lemma due_next count lastAt now n : dueReminderNumber count lastAt now = Some n → n = (count + 1)%Z ∧ (count < MAX_CONTACT_REMINDERS)%Z.
Proof.
  unfold dueReminderNumber. destruct (MAX_CONTACT_REMINDERS <=? count)%Z eqn:E; [done|]. cbv zeta.
  destruct (_ <=? now - lastAt)%Z; [|done]. intros [= <-]. bools. lia.
Qed.

(** The reminders a row has counted. *)
Definition prompted (rid : string) (rs : list RegistrationRow) : Z :=
  match find_row rid rs with
  | Some r => default 0%Z (fst <$> sd_contactPrompt (r_data r))
  | None => 0%Z
  end.

Lemma prompted_nonneg ex w rid : inv_with ex w → (0 <= prompted rid (rows w))%Z.
Proof.
  intros Hi. unfold prompted. destruct (find_row rid (rows w)) as [r|] eqn:Ef; [|done].
  apply find_row_elem in Ef as [Hin _]. pose proof (ro_prompt _ _ _ _ (i_rows _ _ _ Hi r Hin)) as Hp.
  by destruct (sd_contactPrompt (r_data r)) as [[c t]|].
Qed.

Lemma progress_prompted rid rs (p : Z * Z) :
  p = match find_row rid rs with
      | None => (0, 0)%Z
      | Some r => default (0%Z, updated_at r) (sd_contactPrompt (r_data r))
      end → p.1 = prompted rid rs.
Proof.
  intros ->. unfold prompted. destruct (find_row rid rs) as [r|]; [|done].
  by destruct (sd_contactPrompt (r_data r)) as [[c t]|].
Qed.

Lemma keeps_prompt_one w user rec :
  inv w → (state rec = AWAITING_CONTACT → admitted env (trace w) (channelUserId rec)) →
  wp (prompt_one env ch (user, rec)) w
    (λ _ w', inv w' ∧ trace w ⊆ trace w' ∧ owners (rows w') = owners (rows w)) inv.
Proof.
  intros Hi Hrec. unfold prompt_one. destruct (state rec) eqn:Est; try by apply wp_ret. specialize (Hrec eq_refl).
  eapply wp_extending; [by apply ext_query|done|]. intros progress w2 Hi2 Hx2 [Ep%progress_prompted _].
  eapply wp_extending; [by apply ext_ticking|done|]. intros now w3 Hi3 Hx3 _.
  pose proof (extends_trans _ _ _ Hx2 Hx3) as Hx13. pose proof (prompted_nonneg _ _ (rec_id rec) Hi) as Hpos.
  destruct (dueReminderNumber _ _ _) as [due|] eqn:Ed;
    [|apply wp_ret; split_and!; [done|apply Hx13|by rewrite (ex_rows _ _ Hx13)]].
  unfold resendContactPrompt. apply wp_bind.
  eapply wp_extending; [by apply ext_ticking|done|]. intros now' w4 Hi4 Hx4 _.
  apply due_next in Ed as [Ed _]. cbn [rows with_tick] in Ep.
  apply wp_bind, wp_recordContactPrompt; [done|lia|]. intros w5 Hi5 Ht5 Ho5.
  assert (trace w ⊆ trace w5) as Ht by (rewrite Ht5; etransitivity; [apply Hx13|apply Hx4]).
  assert (owners (rows w5) = owners (rows w)) as Ho
    by (by rewrite Ho5, (ex_rows _ _ Hx4), (ex_rows _ _ Hx13)).
  eapply wp_mono; [apply ext_send; [done|]| |by intros w' [? _]].
  { intros _. by eapply admitted_mono. }
  intros _ w6 (Hi6 & Hx6 & _). eapply wp_extending; [by apply ext_query|done|].
  intros refreshed w7 Hi7 Hx7 [-> Ht7]. cbn [rows with_tick]. pose proof (extends_trans _ _ _ Hx6 Hx7) as Hx57.
  assert (trace w ⊆ trace w7) as Ht' by (etransitivity; [exact Ht|apply Hx57]).
  assert (owners (rows w7) = owners (rows w)) as Ho' by (by rewrite (ex_rows _ _ Hx57)).
  pose proof (found_active w6 user Hi6) as Hfound. destruct (_ <$> _) as [r|]; [|by apply wp_ret].
  destruct Hfound as (row & Hh & _). apply wp_modify. split; [|done]. apply inv_active; [done|].
  intros e [?| ->]%elem_jset; [by apply (i_active _ _ _ Hi7)|].
  eapply record_ok_extends; [exact Hx7|]. by eapply here_record_ok.
Qed.

(** The loop of the reminders keeps whatever each of its rounds keeps besides. *)
Lemma prompts_loop w (J : world → Prop) :
  inv w → J w →
  (∀ user rec w1, inv w1 → J w1 → (rec_id rec, channelUserId rec) ∈ owners (rows w1) →
     wp (prompt_one env ch (user, rec)) w1 (λ _, J) J) →
  wp (runContactPromptSweep env ch) w (λ _ w', inv w' ∧ J w') (λ w', inv w' ∧ J w').
Proof.
  intros Hi HJ Hone. unfold runContactPromptSweep. apply wp_bind, wp_gets.
  eapply wp_mono; [apply (wp_for_each _ _
      (λ w', (inv w' ∧ trace w ⊆ trace w' ∧ owners (rows w') = owners (rows w)) ∧ J w') (λ w', inv w' ∧ J w'))
    |by intros _ w' [[? _] ?]|done]; [|done].
  intros [user rec] w1 He [(Hi1 & Ht1 & Ho1) HJ1].
  pose proof (i_active _ _ _ Hi _ He) as [Hrec Hown]. cbn [snd] in Hrec, Hown. rewrite <- Ho1 in Hown.
  eapply wp_mono; [apply wp_conj; [apply (keeps_prompt_one w1 user rec Hi1)|by apply Hone]| |done].
  - intros E. eapply admitted_mono; [exact Ht1|by apply Hrec].
  - intros _ w2 [(? & Ht & Ho) ?]. split; [|done]. split_and!; [done|by etransitivity|congruence].
Qed.

Lemma keeps_prompts w : inv w → wp (runContactPromptSweep env ch) w (λ _, inv) inv.
Proof.
  intros Hi. eapply wp_mono; [apply (prompts_loop w (λ _, True) Hi I)|by intros _ w' [? _]|by intros w' [? _]].
  intros user rec w1 _ _ _. unfold wp. by destruct (prompt_one _ _ _ _) as [w' [a|e]].
Qed.

(** The rows a sweep goes through are not completed meanwhile. *)
Definition unfinished (recs : list RegistrationRecord) (w : world) : Prop :=
  ∀ rec r, rec ∈ recs → r ∈ rows w → id r = rec_id rec → r_state r ≠ "PRE_AUTH_TOKEN_ISSUED".

Lemma unfinished_expired recs w w' rid u now hash :
  unfinished recs w → rows w' = update_row rid (set_columns "EXPIRED" u now hash) (rows w) → unfinished recs w'.
Proof.
  intros Hu Er rec r Hrec Hr. rewrite Er in Hr. apply list_elem_of_fmap in Hr as (x & -> & Hx).
  case_bool_decide; [done|by apply (Hu rec)].
Qed.

Lemma unfinished_active w p :
  inv w → unfinished (map rowToRecord (List.filter (λ r, bool_decide (active r) && p r) (rows w))) w.
Proof.
  intros Hi rec r (x & -> & Hx)%list_elem_of_fmap Hr Hid Hs.
  apply list_elem_of_In, List.filter_In in Hx as [Hx%list_elem_of_In [Ha%bool_decide_eq_true _]%andb_true_iff].
  pose proof (find_row_unique r _ Hr (i_ids _ _ _ Hi)) as Hf. cbn in Hid.
  rewrite Hid, (find_row_unique x _ Hx (i_ids _ _ _ Hi)) in Hf. injection Hf as ->.
  apply Ha. rewrite Hs. set_unfold. tauto.
Qed.

Lemma keeps_expiry w : inv w → wp (runExpirySweep env) w (λ _, inv) inv.
Proof.
  intros Hi. unfold runExpirySweep.
  eapply wp_extending; [by apply ext_ticking|done|]. intros now w1 Hi1 Hx1 _.
  eapply wp_extending; [by apply ext_query|done|]. intros expired w2 Hi2 Hx2 [-> _]. cbn [rows with_tick].
  set (recs := map _ _). assert (unfinished recs w2) as Hu2.
  { pose proof (unfinished_active w1 (λ r, (expires_at r <? now)%Z) Hi1) as Hu.
    intros rec r Hrec Hr. rewrite (ex_rows _ _ Hx2) in Hr. by apply Hu. }
  clearbody recs. eapply wp_mono; [apply (wp_for_each _ _ (λ w', inv w' ∧ unfinished recs w') inv)|by intros _ w' [? _]|done];
    [|done]. intros rec w3 Hrec [Hi3 Hu3]. unfold expire_one.
  apply wp_bind. eapply (wp_transition_ex none none); try done.
  - intros r Hr. split; [intros Hn; exfalso; apply Hn; set_unfold; tauto|]. intros now' hash.
    pose proof (find_row_elem _ _ _ Hr) as [Hin Hid]. split.
    + split; [|by left]. intros Hs. by destruct (Hu3 rec r Hrec Hin Hid).
    + pose proof (i_rows _ _ _ Hi3 r Hin) as Hok.
      eapply row_ok_move; try done; try nostage; [set_unfold; tauto|by left].
  - intros r now' hash w4 _ Hi4 _ _ Hrows _. apply wp_modify. split.
    + apply inv_active; [done|]. intros e He.
      apply (i_active _ _ _ Hi4). eapply sublist_subseteq; [apply jdel_sublist|exact He].
    + by eapply (unfinished_expired _ w3).
Qed.

Lemma keeps_start w : inv w → wp (start env) w (λ _, inv) inv.
Proof.
  intros Hi. unfold start. eapply wp_extending; [by apply ext_query|done|].
  intros records w1 Hi1 Hx1 [-> Ht1]. cbn [rows with_tick].
  eapply wp_mono; [apply (wp_for_each _ _ (λ w', inv w' ∧ trace w' = trace w ∧ rows w' = rows w) inv)
    |by intros _ w' [? _]|done]; [|split_and!; [done|done|apply Hx1]]. intros rec w2 Hrec (Hi2 & Ht2 & Hr2). apply wp_modify. split; [|done]. apply inv_active; [done|].
  intros e [?| ->]%elem_jset; [by apply (i_active _ _ _ Hi2)|].
  apply list_elem_of_fmap in Hrec as (r & -> & Hr). eapply row_record_ok; [done|]. rewrite Hr2.
  apply list_elem_of_In, List.filter_In in Hr as [Hr _]. by apply list_elem_of_In.
Qed.

(** * Runs *)

Lemma run_input_inv w i : inv w → inv (run_input env ch w i).
Proof.
  intros Hi. destruct i as [u| | | |]; cbn [run_input]; apply wp_final.
  - by apply keeps_update.
  - by apply keeps_prompts.
  - by apply keeps_expiry.
  - eapply wp_extending; [by apply ext_ticking|done|]. intros now w1 Hi1 Hx1 _.
    eapply wp_mono; [by apply ext_memory|naive_solver|by intros ? [? _]].
  - apply keeps_start. eapply inv_extends; [exact Hi|done|by intros ? ?%not_elem_of_nil|apply Hi].
Qed.

Lemma reachable_inv w : reachable env ch w → inv w.
Proof.
  intros [inputs ->]. unfold run.
  assert (inv initial) as Hi.
  { split; [apply NoDup_nil_2|apply NoDup_nil_2|apply NoDup_nil_2| | |split; [done|]];
      [by intros ? ?%not_elem_of_nil|by intros ? ?%not_elem_of_nil|by intros ? ? ?%not_elem_of_nil]. }
  revert Hi. generalize initial. induction inputs as [|i inputs IH]; intros w Hi; [done|].
  cbn. by apply IH, run_input_inv.
Qed.

End Safety.
End RegistrationSafety.
