(* ===== verification/RegistrationTheorems.v ===== *)
(** Properties of registration: what a completed registration has gone through,
    what is asked of whom, and what the table never holds. *)
From S2P Require Import Prelude Text JsMap Effects Registration RegistrationRepository RegistrationMachine.
From S2P Require Import RegistrationEngine RegistrationSafety.
Import Text JsMap Effects Registration RegistrationRepository RegistrationMachine RegistrationEngine
  RegistrationInvariant RegistrationSafety.

Module RegistrationTheorems.

Section Theorems.
Context (env : Env) (ch : channel).

(** A code was mailed; or it is one of those that [undelivered] describes. *)
Definition mailed_or_lost (w : world) (n : nat) (email code : string) : Prop :=
  Emailed email code ∈ trace w ∨ undelivered env n.

(** A returning user's row has the address of an earlier registration that the same
    user completed, if that one had an address. *)
Definition continues_with_same_email (w : world) (r : RegistrationRow) (stub : option string) : Prop :=
  (∃ r0, r0 ∈ rows w ∧ id r0 ≠ id r ∧ r_channel r0 = r_channel r ∧ channel_user_id r0 = channel_user_id r ∧
     r_state r0 = "PRE_AUTH_TOKEN_ISSUED" ∧ email_stub_hash r0 = stub) ∧
  ∀ h h', truthy stub = Some h → truthy (email_stub_hash r) = Some h' → h' = h.

(** C2. However messages, sweeps and restarts follow one another, and whatever call
    fails on the way, a registration that is complete, or lacks only its token, is
    of a user whom the gate admitted (if there is a gate), who sent a contact
    message for themselves with the number whose hash the row holds, and who sent
    an address and then a code with the digest of the one that was drawn for this
    user and this very address.  That code was mailed to the address, unless the
    answer to the write that stored it was lost, or both its mail failed and the
    write that takes it back.  A row that was told to expect an address has that
    address; and a row whose user was welcomed back has the address of an earlier
    registration that the same user completed, if that one had any.  (A returning
    user whom the gate refuses first is not welcomed back, and nothing is expected
    of that row.) *)
Theorem completed_registration_is_verified w r :
  reachable env ch w → r ∈ rows w → r_state r ∈ ["EMAIL_CONFIRMED"; "PRE_AUTH_TOKEN_ISSUED"] →
  admitted env (trace w) (channel_user_id r) ∧
  phone_shown env (trace w) (channel_user_id r) (phone_stub_hash r) ∧
  verified env (mailed_or_lost w) (trace w) (channel_user_id r) (email_stub_hash r) ∧
  same_email r ∧
  ∀ stub, Continuing (id r) stub ∈ trace w → continues_with_same_email w r stub.
Proof.
  intros Hw%reachable_inv Hr Hs.
  pose proof (i_rows _ _ _ Hw r Hr) as Hok.
  assert (stage (r_state r) = 4) as E.
  { apply elem_of_cons in Hs as [Hs|Hs]; [by rewrite Hs|apply list_elem_of_singleton in Hs; by rewrite Hs]. }
  destruct (ro_verified _ _ _ _ Hok E) as [(code & salt & msg & Hi & Hm & Eh) Hsame].
  split_and!; [apply (ro_admitted _ _ _ _ Hok); lia|apply (ro_phone _ _ _ _ Hok); lia| |done|].
  - exists code, salt, msg. split_and!; try done. eapply issued_mono; [|reflexivity|exact Hi].
    intros n e c [?|[?|[]]]; [by left|by right].
  - intros stub (r0 & x & Hr0 & Hx & Ex & Hne & Hc & Hu & Hst & Hem & Hd)%(proj2 (i_history _ _ _ Hw)).
    pose proof (find_row_unique x _ Hx (i_ids _ _ _ Hw)) as Hf.
    rewrite Ex, (find_row_unique r _ Hr (i_ids _ _ _ Hw)) in Hf. injection Hf as <-. split; [by exists r0|].
    intros h h' Eh1 Eh2. symmetry. eapply Hsame; [|exact Eh2]. rewrite Hd. by destruct stub as [[]|].
Qed.

Lemma prompts_ok_split H H1 to n H2 :
  prompts_ok env H → H = H1 ++ Sent to n :: H2 → is_contact_prompt n = true → admitted env H2 to.
Proof.
  revert H. induction H1 as [|e H1 IH]; intros H Hp -> Hn; destruct Hp as [Hp Hp'].
  - by apply Hp.
  - by eapply IH.
Qed.

(** Nobody is shown the button that shares a phone number before the gate
    admitted them: an admission precedes every such reply in the trace, whatever
    failed before. *)
Theorem no_phone_prompt_before_admission w later to n earlier :
  reachable env ch w → trace w = later ++ Sent to n :: earlier → is_contact_prompt n = true →
  waitlistGate env = None ∨ GateAdmitted to ∈ earlier.
Proof. intros Hw%reachable_inv E Hn. by eapply prompts_ok_split; [apply Hw| |]. Qed.

(** C4. The registrations table after any run: ids are unique, no two active rows
    hold one phone hash or belong to one user of a channel, no row holds three
    failed attempts, and every row has a state that reads back as itself, never as
    the failure of an unknown state. *)
Theorem registration_table_invariant w :
  reachable env ch w →
  NoDup (map id (rows w)) ∧
  NoDup (active_keys phone_stub_hash (rows w)) ∧
  NoDup (active_keys (λ r, (r_channel r, channel_user_id r)) (rows w)) ∧
  (∀ r, r ∈ rows w → (0 <= otp_attempt_count r < MAX_OTP_ATTEMPTS)%Z ∧
     ∀ reason, deserializeState r ≠ FAILED reason) ∧
  (∀ r, r ∈ rows w → 2 <= stage (r_state r) →
     phone_shown env (trace w) (channel_user_id r) (phone_stub_hash r)).
Proof.
  intros Hw%reachable_inv. pose proof Hw as [H1 H2 H3 H4 _ _]. split_and!; try done.
  - intros r Hr. destruct (H4 r Hr) as [Hc Hs _ _ _ _ _]. split; [done|]. intros reason E.
    pose proof (deserialize_spec r Hs) as Hd. by rewrite E in Hd.
  - intros r Hr. apply (ro_phone _ _ _ _ (H4 r Hr)).
Qed.

End Theorems.
End RegistrationTheorems.
