(* ===== verification/RegistrationReminders.v ===== *)
(** How many reminders a user can get: a potential, the reminders sent plus those
    the rows still allow, which only the user's own messages raise. *)
From S2P Require Import Prelude Text JsMap Effects Registration RegistrationRepository RegistrationMachine.
From S2P Require Import RegistrationEngine RegistrationSafety.
Import Text JsMap Effects Registration RegistrationRepository RegistrationMachine RegistrationEngine
  RegistrationInvariant RegistrationSafety.

Module RegistrationReminders.

Definition is_reminder_to (user : string) (e : event) : bool :=
  match e with Sent to (REMINDER _) => bool_decide (to = user) | _ => false end.

Definition reminders (user : string) (H : list event) : nat := length (List.filter (is_reminder_to user) H).

Definition is_from (user : string) (e : event) : bool :=
  match e with Received from _ => bool_decide (from = user) | _ => false end.

(** The messages of a user that reached the handler. *)
Definition messages (user : string) (H : list event) : nat := length (List.filter (is_from user) H).

(** The reminders a row still allows. *)
Definition allowance (d : state_data) : Z :=
  Z.max 0 (MAX_CONTACT_REMINDERS - default 0%Z (fst <$> sd_contactPrompt d)).

Definition row_budget (user : string) (r : RegistrationRow) : Z :=
  if decide (channel_user_id r = user) then allowance (r_data r) else 0%Z.

Definition budget (user : string) (rs : list RegistrationRow) : Z := sum_by (row_budget user) rs.

(** Reminders sent and reminders allowed. *)
Definition spent (user : string) (w : world) : Z :=
  (Z.of_nat (reminders user (trace w)) + budget user (rows w))%Z.

Lemma budget_nonneg user rs : (0 <= budget user rs)%Z.
Proof.
  unfold budget. induction rs as [|r rs IH]; cbn; [lia|].
  assert (0 <= row_budget user r)%Z; [|lia]. unfold row_budget, allowance. case_decide; lia.
Qed.

Lemma update_row_length rid f rs : length (update_row rid f rs) = length rs.
Proof. apply length_map. Qed.

(** A change that leaves owner and allowance alone. *)
Lemma budget_map user rid f rs :
  (∀ r, r ∈ rs → id r = rid →
     channel_user_id (f r) = channel_user_id r ∧ allowance (r_data (f r)) = allowance (r_data r)) →
  budget user (update_row rid f rs) = budget user rs.
Proof.
  unfold budget, update_row. induction rs as [|r rs IH]; intros Hf; [done|]. cbn [map sum_by].
  rewrite IH by (intros; apply Hf; [by right|done]).
  case_bool_decide as E; [|done]. unfold row_budget. by destruct (Hf r ltac:(left) E) as [-> ->].
Qed.

Lemma budget_update user rid f rs r :
  find_row rid rs = Some r → NoDup (map id rs) → channel_user_id (f r) = channel_user_id r →
  budget user (update_row rid f rs) = (budget user rs + (row_budget user (f r) - row_budget user r))%Z.
Proof.
  intros Hf Hn Hu. destruct (find_update rid f _ _ Hf Hn) as (l1 & l2 & -> & -> & _).
  unfold budget. rewrite !sum_by_app. cbn. lia.
Qed.

Lemma reminders_cons user e H :
  reminders user (e :: H) = ((if is_reminder_to user e then 1 else 0) + reminders user H)%nat.
Proof. unfold reminders. cbn. by destruct (is_reminder_to user e). Qed.

Lemma messages_cons user e H :
  messages user (e :: H) = ((if is_from user e then 1 else 0) + messages user H)%nat.
Proof. unfold messages. cbn. by destruct (is_from user e). Qed.

Section Reminders.
Context (env : Env) (ch : channel) (user : string).

(** * What an action costs *)

(** From [w], the action adds at most [k] to what is spent, and no message. *)
Definition within (S0 : Z) (n : nat) (w : world) : Prop :=
  (spent user w <= S0)%Z ∧ messages user (trace w) = n.

Definition costs {A} (k : Z) (m : M A) (w : world) (P : A → world → Prop) : Prop :=
  wp m w (λ a w', within (spent user w + k) (messages user (trace w)) w' ∧ P a w')
    (within (spent user w + k) (messages user (trace w))).

Lemma within_le S0 S1 n w : within S0 n w → (S0 <= S1)%Z → within S1 n w.
Proof. intros [? ?] ?. split; [lia|done]. Qed.

Lemma costs_weaken {A} k k' (m : M A) w (P Q : A → world → Prop) :
  costs k m w P → (k <= k')%Z → (∀ a w', P a w' → Q a w') → costs k' m w Q.
Proof.
  intros Hm Hk HQ. eapply wp_mono; [exact Hm| |].
  - intros a w' [Hw HP]. split; [eapply within_le; [done|lia]|by apply HQ].
  - intros w' Hw. eapply within_le; [done|lia].
Qed.

Lemma costs_bind {A B} k1 k2 k (m : M A) (f : A → M B) w P Q :
  costs k1 m w P → (0 <= k2)%Z → (k1 + k2 <= k)%Z →
  (∀ a w', P a w' → costs k2 (f a) w' Q) → costs k (m ≫= f) w Q.
Proof.
  intros Hm H2 Hk Hf. apply wp_bind. eapply wp_mono; [exact Hm| |].
  - intros a w' [[Hs Hn] HP]. eapply wp_mono; [by apply Hf| |]; rewrite Hn.
    + intros b w'' [Hw HQ]. split; [|done]. eapply within_le; [done|lia].
    + intros w'' Hw. eapply within_le; [done|lia].
  - intros w' Hw. eapply within_le; [done|lia].
Qed.

(** The usual case: one part is free. *)
Lemma costs_free {A B} k (m : M A) (f : A → M B) w P Q :
  costs 0 m w P → (0 <= k)%Z → (∀ a w', P a w' → costs k (f a) w' Q) → costs k (m ≫= f) w Q.
Proof. intros Hm Hk Hf. by eapply (costs_bind 0 k); [|done|lia|]. Qed.

Lemma costs_ret {A} k (a : A) w (P : A → world → Prop) : (0 <= k)%Z → P a w → costs k (mret a) w P.
Proof. intros Hk HP. apply wp_ret. split; [split; [lia|done]|done]. Qed.

Lemma costs_throw {A} k e w P : (0 <= k)%Z → costs (A:=A) k (throw e) w P.
Proof. intros Hk. apply wp_throw. split; [lia|done]. Qed.

Lemma costs_try {A} k (m : M A) h w P :
  costs 0 m w P → (0 <= k)%Z → (∀ e w', costs k (h e) w' P) → costs k (try_catch m h) w P.
Proof.
  intros Hm Hk Hh. apply wp_try. eapply wp_mono; [exact Hm| |].
  - intros a w' [Hw HP]. split; [|done]. eapply within_le; [done|lia].
  - intros w' [Hs Hn] e. eapply wp_mono; [by apply Hh| |]; rewrite Hn.
    + intros b w'' [Hw HQ]. split; [|done]. eapply within_le; [done|lia].
    + intros w'' Hw. eapply within_le; [done|lia].
Qed.

(** ** Actions that cost nothing and leave the rows alone *)

Definition same (w w' : world) : Prop :=
  rows w' = rows w ∧ reminders user (trace w') = reminders user (trace w) ∧
  messages user (trace w') = messages user (trace w).

Definition quiet {A} (m : M A) : Prop := ∀ w, wp m w (λ _, same w) (same w).

Lemma same_trans w1 w2 w3 : same w1 w2 → same w2 w3 → same w1 w3.
Proof. intros (? & ? & ?) (? & ? & ?). split_and!; congruence. Qed.

Lemma quiet_bind {A B} (m : M A) (f : A → M B) : quiet m → (∀ a, quiet (f a)) → quiet (m ≫= f).
Proof.
  intros Hm Hf w. apply wp_bind. eapply wp_mono; [apply Hm| |done]. intros a w1 H1.
  eapply wp_mono; [apply Hf| |]; [intros b w2 H2|intros w2 H2]; by apply (same_trans w w1).
Qed.

Lemma quiet_try {A} (m : M A) h : quiet m → (∀ e, quiet (h e)) → quiet (try_catch m h).
Proof.
  intros Hm Hh w. apply wp_try. eapply wp_mono; [apply Hm|done|]. intros w1 H1 e.
  eapply wp_mono; [apply Hh| |]; [intros b w2 H2|intros w2 H2]; by apply (same_trans w w1).
Qed.

Lemma quiet_ret {A} (a : A) : quiet (mret a).
Proof. done. Qed.

Lemma quiet_throw {A} e : quiet (throw (A:=A) e).
Proof. done. Qed.

Lemma quiet_gets {A} (f : world → A) : quiet (gets f).
Proof. done. Qed.

Lemma quiet_ticking {A} (f : nat → A) : quiet (ticking f).
Proof. done. Qed.

Lemma quiet_external {A} (op : M A) : quiet op → quiet (external env op).
Proof.
  intros Hop w. specialize (Hop (with_tick w (S (tick w)))). unfold wp, external in *.
  destruct (fate_of env (tick w)); [done|done|]. by destruct (op _) as [w' [a|e]].
Qed.

Lemma quiet_modify f : (∀ w, same w (f w)) → quiet (modify f).
Proof. intros Hf w. apply Hf. Qed.

Lemma quiet_event e :
  is_reminder_to user e = false → is_from user e = false → quiet (modify (occurred e)).
Proof.
  intros Hr Hf w. split; [done|]. split; cbn [trace occurred]; [by rewrite reminders_cons, Hr|by rewrite messages_cons, Hf].
Qed.

Lemma quiet_send to n : match n with REMINDER _ => False | _ => True end → quiet (send env to n).
Proof. intros Hn. by apply quiet_external, quiet_event; destruct n. Qed.

Lemma quiet_check g u : quiet (gate_check env g u).
Proof.
  apply quiet_external. intros w. unfold wp. by destruct (check g (tick w) u).
Qed.

Lemma quiet_redeem g u token : quiet (gate_redeem env g u token).
Proof.
  apply quiet_external. intros w. unfold wp. cbv zeta. by destruct (redeem g (tick w) u token).
Qed.

Create HintDb quiet.
#[local] Hint Resolve quiet_ret quiet_throw quiet_gets quiet_ticking quiet_check quiet_redeem : quiet.

(** Straight-line actions made of quiet ones. *)
Ltac quiet :=
  repeat match goal with
  | |- quiet (_ ≫= _) => apply quiet_bind; [|intros ?]
  | |- quiet (try_catch _ _) => apply quiet_try; [|intros ?]
  | |- quiet (query _ _) => unfold query
  | |- quiet (external _ _) => apply quiet_external
  | |- quiet (send _ _ _) => first [apply quiet_send; exact I|solve [eauto with quiet]]
  | |- quiet (modify (occurred _)) => apply quiet_event; reflexivity
  | |- quiet (modify _) => apply quiet_modify; intros ?; split_and!; reflexivity
  | |- quiet (if ?b then _ else _) => destruct b
  | |- quiet (match ?x with _ => _ end) => destruct x
  | |- quiet _ => solve [eauto with quiet]
  end.

Lemma quiet_tell from kind : quiet (tellGateFailed env from kind).
Proof. unfold tellGateFailed. destruct kind; quiet. Qed.
#[local] Hint Resolve quiet_tell : quiet.

Lemma quiet_askGate {T} (call : M T) from kind : quiet call → quiet (askGate env call from kind).
Proof. intros Hc. unfold askGate. quiet. Qed.
#[local] Hint Resolve quiet_askGate : quiet.

Lemma quiet_gate u : quiet (gate_refusal env u).
Proof. unfold gate_refusal. quiet. Qed.

Lemma quiet_count c from : quiet (otpSendCount env c from).
Proof. unfold otpSendCount, countOtpSendsSince. quiet. Qed.

Lemma quiet_record_send c from : quiet (record_otp_send env c from).
Proof. unfold record_otp_send, recordOtpSend. quiet. Qed.

Lemma quiet_continuity rec : quiet (continuity_broken env rec).
Proof. unfold continuity_broken, getExpectedEmailStubHash, getEmailStubHash. quiet. Qed.

Lemma quiet_token rec rid : quiet (try_token env rec rid).
Proof. unfold try_token, request_token. quiet. Qed.

Lemma quiet_verify candidate salt stored : quiet (verifyOtp env candidate salt stored).
Proof. unfold verifyOtp. cbv zeta. quiet. Qed.

Lemma quiet_expected rid : quiet (getExpectedEmailStubHash env rid).
Proof. unfold getExpectedEmailStubHash. quiet. Qed.

Lemma quiet_ask from h : quiet (send env from (ask_email h)).
Proof. unfold ask_email. destruct (truthy h); quiet. Qed.

Lemma quiet_attempts (f : jsmap string (list Z) → jsmap string (list Z) * bool) :
  quiet (λ w, let '(m, over) := f (tokenAttempts w) in (with_attempts w m, Ok over)).
Proof. intros w. unfold wp. by destruct (f _). Qed.

#[local] Hint Resolve quiet_expected quiet_ask quiet_gate quiet_count quiet_record_send quiet_continuity quiet_token quiet_verify : quiet.

(** A quiet action before one that costs. *)
Lemma costs_quiet {A B} k (m : M A) (f : A → M B) w Q :
  quiet m → (0 <= k)%Z → (∀ a w', rows w' = rows w → costs k (f a) w' Q) → costs k (m ≫= f) w Q.
Proof.
  intros Hm Hk Hf. eapply (costs_free _ _ _ _ (λ _ w', rows w' = rows w)); [|done|done].
  eapply wp_mono; [apply Hm| |]; unfold within, spent.
  - intros a w' (-> & -> & ->). split; [split; [lia|done]|done].
  - intros w' (-> & -> & ->). split; [lia|done].
Qed.

Lemma costs_of_quiet {A} k (m : M A) w : quiet m → (0 <= k)%Z → costs k m w (λ _ w', rows w' = rows w).
Proof.
  intros Hm Hk. eapply wp_mono; [apply Hm| |]; unfold within, spent.
  - intros a w' (-> & -> & ->). split; [split; [lia|done]|done].
  - intros w' (-> & -> & ->). split; [lia|done].
Qed.

(** ** Statements that change the rows *)

(** The row of the id, if there is one, is the user's. *)
Definition mine (rid from : string) (rs : list RegistrationRow) : Prop :=
  NoDup (map fst (owners rs)) ∧ ∀ u, (rid, u) ∈ owners rs → u = from.

(** What one message of a user allows. *)
Definition share (from : string) : Z := if decide (from = user) then MAX_CONTACT_REMINDERS else 0%Z.

Lemma share_nonneg from : (0 <= share from)%Z.
Proof. unfold share, MAX_CONTACT_REMINDERS. case_decide; lia. Qed.

Lemma mine_owners rid from rs rs' : owners rs' = owners rs → mine rid from rs → mine rid from rs'.
Proof. unfold mine. by intros ->. Qed.

Lemma owners_ids rs : map fst (owners rs) = map id rs.
Proof. unfold owners. by rewrite map_map. Qed.

Lemma costs_external {A} k (op : M A) w P :
  (0 <= k)%Z → costs k op (with_tick w (S (tick w))) P → costs k (external env op) w P.
Proof.
  intros Hk Hop. unfold costs, wp, external in *.
  assert (within (spent user w + k) (messages user (trace w)) (with_tick w (S (tick w)))) by (split; [change (spent user (with_tick w (S (tick w)))) with (spent user w); lia|done]).
  destruct (fate_of env (tick w)); [done|done|].
  destruct (op _) as [w' [a|e]]; [by destruct Hop|done].
Qed.

Lemma costs_query {A} (f : world → A) w :
  costs 0 (query env f) w (λ a w', a = f (with_tick w (S (tick w))) ∧ rows w' = rows w).
Proof.
  apply costs_external; [done|]. split; [|done]. split; [|done].
  change (spent user (with_tick w (S (tick w)))) with (spent user w). lia.
Qed.

Lemma costs_commit k rid rs w P :
  (0 <= k)%Z → (budget user rs <= budget user (rows w) + k)%Z →
  (∀ r, find_row rid rs = Some r → P (rowToRecord r) (with_rows w rs)) →
  costs k (commit_rows rid rs) w P.
Proof.
  intros Hk Hb HP. unfold costs, wp, commit_rows.
  destruct (unique_active rs); [|split; [lia|done]].
  destruct (find_row rid rs) as [r|]; [|split; [lia|done]].
  split; [|by apply HP]. split; [|done]. unfold spent. cbn [trace rows with_rows]. lia.
Qed.

(** A statement that leaves owners and allowances alone. *)
Lemma costs_change rid f w :
  (∀ r, id (f r) = id r ∧ channel_user_id (f r) = channel_user_id r) →
  (∀ r, r ∈ rows w → id r = rid → allowance (r_data (f r)) = allowance (r_data r)) →
  costs 0 (external env (λ w, commit_rows rid (update_row rid f (rows w)) w)) w
    (λ rec w', rec_id rec = rid ∧ owners (rows w') = owners (rows w)).
Proof.
  intros Hf Hd. apply costs_external; [done|].
  assert (owners (update_row rid f (rows w)) = owners (rows w)) as Ho by by apply owners_update.
  eapply costs_weaken; [apply (costs_commit 0 rid (update_row rid f (rows w)) (with_tick w (S (tick w)))
    (λ rec w', rec_id rec = rid ∧ owners (rows w') = owners (rows w)))|done|done]; [done| |].
  - cbn [rows with_tick]. rewrite budget_map; [lia|]. intros r Hr Hid. split; [apply Hf|by apply Hd].
  - intros r [_ Hr]%find_row_elem. by split.
Qed.

Lemma costs_move rid st u w :
  (∀ r d, r ∈ rows w → id r = rid → u_stateData u = Some d → allowance d = allowance (r_data r)) →
  costs 0 (transition env rid st u) w (λ rec w', rec_id rec = rid ∧ owners (rows w') = owners (rows w)).
Proof.
  intros Hu. unfold transition. apply costs_quiet; [quiet|done|]. intros prev w1 H1.
  destruct prev; [|by apply costs_throw]. apply costs_quiet; [quiet|done|]. intros now w2 H2.
  eapply costs_weaken; [apply costs_change|done|by rewrite H2, H1]; [done|]. rewrite H2, H1.
  intros r Hr Hid. cbn. destruct (u_stateData u) as [d|] eqn:E; [|done]. by apply Hu.
Qed.

Lemma costs_transition rid st u w :
  u_stateData u = None →
  costs 0 (transition env rid st u) w (λ rec w', rec_id rec = rid ∧ owners (rows w') = owners (rows w)).
Proof. intros Hu. apply costs_move. by rewrite Hu. Qed.

Lemma costs_lockout rid w : costs 0 (transitionOnOtpLockout env rid) w (λ _ _, True).
Proof.
  unfold transitionOnOtpLockout. apply costs_quiet; [quiet|done|]. intros now w1 _.
  apply costs_external; [done|]. unfold costs, wp. cbv beta. cbn [rows with_tick].
  destruct (find_row rid (rows w1)) as [r|]; [|split; [unfold spent; cbn [trace rows with_tick]; lia|done]].
  apply (costs_commit 0 rid _ (with_tick w1 (S (tick w1))) (λ _ _, True)); [done| |done].
  cbn [rows with_tick]. rewrite budget_map; [lia|done].
Qed.

Lemma costs_increment rid w : costs 0 (incrementOtpAttempt env rid) w (λ _ _, True).
Proof.
  unfold incrementOtpAttempt. apply costs_quiet; [quiet|done|]. intros prev w1 H1.
  destruct prev as [[? ?]|]; [|by apply costs_throw]. apply costs_quiet; [quiet|done|]. intros now w2 H2.
  eapply costs_weaken; [by apply costs_change|done|done].
Qed.

(** What noting a count does to the allowances. *)
Definition recorded (rid : string) (n : Z) (w w' : world) : Prop :=
  trace w' = trace w ∧
  budget user (rows w') = (budget user (rows w) +
    match find_row rid (rows w) with
    | Some r => if decide (channel_user_id r = user)
                then Z.max 0 (MAX_CONTACT_REMINDERS - n) - allowance (r_data r) else 0
    | None => 0
    end)%Z.

Lemma wp_recorded rid n t w :
  NoDup (map id (rows w)) →
  wp (recordContactPrompt env rid n t) w (λ _, recorded rid n w) (λ w', same w w' ∨ recorded rid n w w').
Proof.
  intros Hn. unfold recordContactPrompt, query, external, ticking, date_now, gets.
  unfold wp, mbind, act_bind. cbn [rows with_tick tick].
  destruct (find_row rid (rows w)) as [r|] eqn:Ef; cbn [fmap option_fmap option_map].
  2:{ destruct (fate_of env (tick w)); [|by left|by left]. split; [done|].
      cbn [rows with_tick]. rewrite Ef. lia. }
  destruct (fate_of env (tick w)); [|by left|by left]. cbv beta iota zeta. unfold ticking. cbn [rows with_tick tick].
  match goal with |- context [update_row rid ?f _] => set (g := f) end.
  assert (recorded rid n w (with_rows (with_tick w (S (S (S (tick w))))) (update_row rid g (rows w)))) as Hr.
  { split; [done|]. cbn [rows with_rows]. rewrite Ef, (budget_update _ _ _ _ r) by done.
    unfold row_budget, allowance. cbn. case_decide; lia. }
  destruct (fate_of env (S (S (tick w)))); [exact Hr|by left|by right].
Qed.

(** Counting anew, after a message of the row's user. *)
Lemma costs_record rid from n t w :
  mine rid from (rows w) → (0 <= n)%Z →
  costs (share from) (recordContactPrompt env rid n t) w (λ _ _, True).
Proof.
  intros [Hn Hm] Hpos. pose proof (share_nonneg from) as Hs. rewrite owners_ids in Hn.
  assert (∀ w', recorded rid n w w' → within (spent user w + share from) (messages user (trace w)) w') as Hrec.
  { intros w' [Ht Hb]. unfold within, spent. rewrite Ht, Hb. split; [|done].
    destruct (find_row rid (rows w)) as [r|] eqn:Ef; [|lia]. apply find_row_elem in Ef as [Hin Hid].
    assert (channel_user_id r = from) as ->.
    { apply Hm. unfold owners. apply list_elem_of_fmap. exists r. by rewrite Hid. }
    clear Hb Hs. unfold share, allowance, MAX_CONTACT_REMINDERS. destruct (decide (from = user)); lia. }
  eapply wp_mono; [by apply wp_recorded|by intros _ w' ?%Hrec|].
  intros w' [(Hr & Hre & Hme)|?%Hrec]; [|done]. unfold within, spent. rewrite Hr, Hre, Hme. split; [lia|done].
Qed.

Lemma costs_insert phone from st expiry w :
  costs (share from) (insert env phone ch from st expiry) w (λ rec w', ∃ r, rec_id rec = id r ∧
    rows w' = rows w ++ [r] ∧ (id r ∉ map id (rows w)) ∧ channel_user_id r = from ∧ sd_contactPrompt (r_data r) = None).
Proof.
  pose proof (share_nonneg from). unfold insert.
  apply costs_quiet; [quiet|done|]. intros rid w1 H1. apply costs_quiet; [quiet|done|]. intros now w2 H2.
  rewrite <- H1, <- H2. apply costs_external; [done|]. unfold costs, wp. cbn [rows with_tick].
  destruct (find_row rid (rows w2)) eqn:Ef; [split; [lia|done]|].
  match goal with |- context [rows w2 ++ [?x]] => set (r := x) end.
  apply costs_commit; [done| |].
  - cbn [rows with_tick]. unfold budget. rewrite sum_by_app. cbn [sum_by]. unfold row_budget, share. cbn.
    case_decide; unfold allowance, MAX_CONTACT_REMINDERS; cbn; lia.
  - intros x [Hx Hid]%find_row_elem. exists r. split_and!; try done.
    intros (y & Hy & Hin)%list_elem_of_fmap. apply list_elem_of_In in Hin.
    apply (List.find_none _ _ Ef) in Hin. by apply bool_decide_eq_false in Hin.
Qed.

(** * The handlers *)

(** Quiet steps, moves of the row, and their branches. *)
Ltac cheap :=
  repeat match goal with
  | |- costs _ (mret _) _ _ => apply costs_ret; [done|try done]
  | |- costs _ (throw _) _ _ => by apply costs_throw
  | |- costs _ (transition _ _ _ _ ≫= _) _ _ =>
      eapply costs_free; [by apply costs_transition|done|intros ? ? [? ?]]
  | |- costs _ (_ ≫= _) _ _ => apply costs_quiet; [solve [quiet]|done|intros ? ? ?]
  | |- costs _ (if ?b then _ else _) _ _ => destruct b
  | |- costs _ (match ?x with _ => _ end) _ _ => destruct x
  end.

Lemma costs_token rec message from w :
  costs 0 (handleAwaitingWaitlistToken env rec message from) w (λ _ _, True).
Proof.
  unfold handleAwaitingWaitlistToken. cbv zeta. cheap.
  apply costs_quiet; [apply (quiet_attempts (λ m, overTokenLimit m from a))|done|intros ? ? ?]. cheap.
Qed.

Lemma costs_contact rec message from w :
  mine (rec_id rec) from (rows w) →
  costs (share from) (handleAwaitingContact env rec message from) w (λ _ _, True).
Proof.
  intros Hm. pose proof (share_nonneg from). unfold handleAwaitingContact. cbv zeta. cheap.
  eapply (costs_bind (share from) 0); [apply costs_record; [by rewrite H0|done]|done|lia|].
  intros _ w2 _. cheap.
Qed.

Lemma costs_email rec message from w : costs 0 (handleAwaitingEmail env rec message from) w (λ _ _, True).
Proof. unfold handleAwaitingEmail, sendOtp. cbv zeta. cheap. Qed.

Lemma costs_finish rid from result w : costs 0 (finish env rid from result) w (λ _ _, True).
Proof. unfold finish, upsertChannelIdentity, sendTokenDelivery. cbv zeta. cheap. Qed.

Lemma costs_retry rec from w : costs 0 (retryPreAuth env rec from) w (λ _ _, True).
Proof. unfold retryPreAuth. cheap. apply costs_finish. Qed.

Lemma costs_reenter rid from attempts n w :
  match n with REMINDER _ => False | _ => True end →
  costs 0 (reenter_email env rid from attempts n) w (λ _ _, True).
Proof. intros Hn. unfold reenter_email. cheap. apply costs_quiet; [by apply quiet_send|done|intros ? ? ?]. cheap. Qed.

Lemma costs_wrong rec n from w : costs 0 (wrong_code env rec n from) w (λ _ _, True).
Proof.
  unfold wrong_code, findById. cbv zeta. destruct (_ <=? _)%Z.
  - eapply costs_free; [apply costs_lockout|done|intros ? ? _]. cheap.
  - eapply costs_free; [apply costs_increment|done|intros ? ? _]. cheap.
Qed.

Lemma costs_right rec from w : costs 0 (right_code env rec from) w (λ _ _, True).
Proof.
  unfold right_code. cheap.
  - eapply costs_weaken; [by apply costs_transition|done|done].
  - apply costs_finish.
Qed.

Lemma costs_otp rec message from w : costs 0 (handleAwaitingEmailOtp env rec message from) w (λ _ _, True).
Proof.
  unfold handleAwaitingEmailOtp, getOtpSalt. cbv zeta. cheap;
    first [by apply costs_reenter|apply costs_right|apply costs_wrong].
Qed.

Lemma costs_message rec message from w :
  mine (rec_id rec) from (rows w) →
  costs (share from) (handleMessage env rec message from) w (λ _ _, True).
Proof.
  intros Hm. pose proof (share_nonneg from) as Hs. unfold handleMessage.
  destruct (state rec); try (by apply costs_ret); try by apply costs_contact.
  all: try (eapply costs_weaken; [first [apply costs_token|apply costs_email|apply costs_otp|apply costs_retry]|done|done]).
  - unfold recoverFromInitial. cheap. apply costs_contact.
    match goal with H : rec_id ?a = rec_id rec |- mine (rec_id ?a) _ _ => rewrite H end. eapply mine_owners; [|exact Hm]. congruence.
  - unfold recoverFromPhoneConfirmed. cheap.
Qed.

Lemma costs_new from phone w : costs (share from) (handleNewUser env from ch phone) w (λ _ _, True).
Proof.
  pose proof (share_nonneg from). unfold handleNewUser. cbv zeta.
  apply costs_quiet; [quiet|done|intros now w1 _]. apply costs_quiet; [quiet|done|intros refusal w2 _].
  eapply (costs_bind (share from) 0); [apply costs_insert|done|lia|]. intros rec w3 _. cheap.
Qed.

(** The second write of the fresh row allows nothing more. *)
Lemma costs_existing from phone stub w :
  costs (share from) (handleExistingUser env from ch phone stub) w (λ _ _, True).
Proof.
  pose proof (share_nonneg from). unfold handleExistingUser. cbv zeta.
  apply costs_quiet; [quiet|done|intros now w1 _]. apply costs_quiet; [quiet|done|intros refusal w2 _].
  destruct refusal.
  all: eapply (costs_bind (share from) 0); [apply costs_insert|done|lia|].
  { intros rec w3 _. cheap. }
  intros rec w3 (r & Hid & Hr & Hn & Hu & Hp).
  eapply (costs_free _ _ _ _ (λ _ _, True)); [|done|intros _ w4 _; cheap].
  destruct (truthy stub); [|by apply costs_ret].
  eapply costs_free; [apply costs_move|done|intros ? ? _; by apply costs_ret].
  cbn. intros x d Hx Hxid [= <-]. unfold allowance. cbn. rewrite Hr in Hx. apply elem_of_app in Hx as [Hx|Hx].
  - destruct Hn. rewrite <- Hid, <- Hxid. by apply list_elem_of_fmap_2.
  - apply list_elem_of_singleton in Hx as ->. by rewrite Hp.
Qed.

(** * Runs *)

Lemma found_mine rid from r rs :
  NoDup (map id rs) → r ∈ rs → id r = rid → channel_user_id r = from → mine rid from rs.
Proof.
  intros Hn Hr Hid Hu. split; [by rewrite owners_ids|]. intros u Hin.
  apply list_elem_of_fmap in Hin as (q & [= -> ->] & Hq).
  apply find_row_unique in Hq; [|done]. apply find_row_unique in Hr; [|done]. congruence.
Qed.

Lemma costs_completed from message phone w :
  costs (share from) (handleCompletedOrNew env ch from message phone) w (λ _ _, True).
Proof.
  pose proof (share_nonneg from). unfold handleCompletedOrNew, findCompletedByChannelUser. cbv zeta.
  apply costs_quiet; [quiet|done|intros completed w1 _].
  destruct completed as [[[? ?] stub]|].
  - apply costs_quiet; [quiet|done|intros pending w2 _]. destruct (pending && _).
    + apply costs_quiet; [quiet|done|intros _ w3 _].
      eapply (costs_bind (share from) 0); [apply costs_existing|done|lia|intros ? ? _; by apply costs_ret].
    + eapply costs_weaken; [apply (costs_of_quiet 0)|done|done]; [quiet|done].
  - eapply (costs_bind (share from) 0); [apply costs_new|done|lia|intros ? ? _; by apply costs_ret].
Qed.

Lemma costs_dispatch from message w :
  NoDup (map id (rows w)) → costs (share from) (dispatch env ch from message) w (λ _ _, True).
Proof.
  intros Hn. pose proof (share_nonneg from). unfold dispatch. unfold findActiveByChannelUser.
  eapply costs_free; [apply costs_query|done|]. intros existing w1 [-> H1]. cbn [rows with_tick].
  apply costs_quiet; [quiet|done|intros identity w2 H2].
  eapply (costs_bind (share from) 0 _ _ _ _ (λ _ _, True)); [|done|lia|].
  2:{ intros o w3 _. destruct o; [|by apply costs_ret].
      eapply costs_weaken; [apply (costs_of_quiet 0); [unfold remember; quiet|done]|done|done]. }
  destruct (List.find _ _) as [r|] eqn:Ef; cbn [fmap option_fmap option_map]; [|apply costs_completed].
  apply costs_quiet; [quiet|done|intros now w3 H3].
  destruct (_ <? _)%Z.
  - eapply costs_free; [by apply costs_transition|done|intros ? ? _].
    apply costs_quiet; [quiet|done|intros ? ? _]. apply costs_completed.
  - eapply (costs_bind (share from) 0); [apply costs_message|done|lia|intros ? ? _; by apply costs_ret].
    rewrite H3, H2, H1. apply find_some_elem in Ef as [Hr Hf].
    apply andb_true_iff in Hf as [Hf _]. unfold of_user in Hf. apply bool_decide_eq_true in Hf as [_ Hf].
    by apply (found_mine _ _ r).
Qed.

(** A message: its user may be reminded again, nobody else. *)
Lemma deliver_cost from message w :
  NoDup (map id (rows w)) →
  let w' := (deliver env ch from message w).1 in
  (spent user w' <= spent user w + share from)%Z ∧
  messages user (trace w') = ((if decide (from = user) then 1 else 0) + messages user (trace w))%nat.
Proof.
  intros Hn. unfold deliver, handleInboundMessage.
  pose proof (costs_dispatch from message (occurred (Received from message) w) Hn) as Hc.
  assert (spent user (occurred (Received from message) w) = spent user w) as Hs.
  { unfold spent. cbn [rows trace occurred]. by rewrite reminders_cons. }
  assert (messages user (trace (occurred (Received from message) w)) =
          (if decide (from = user) then 1 else 0) + messages user (trace w))%nat as Hm.
  { cbn [trace occurred]. rewrite messages_cons. cbn. by case_bool_decide; case_decide. }
  unfold costs, wp in Hc. rewrite Hs, Hm in Hc. unfold mbind, act_bind, modify, try_catch.
  destruct (dispatch _ _ _ _ _) as [w' [a|e]]; cbn; apply Hc.
Qed.

Lemma update_cost u w :
  NoDup (map id (rows w)) →
  let w' := (processUpdate env ch u w).1 in
  (spent user w' + 2 * Z.of_nat (messages user (trace w)) <=
   spent user w + 2 * Z.of_nat (messages user (trace w')))%Z.
Proof.
  intros Hn. unfold processUpdate.
  assert (∀ from m w, NoDup (map id (rows w)) →
    (spent user (deliver env ch from m w).1 + 2 * Z.of_nat (messages user (trace w)) <=
     spent user w + 2 * Z.of_nat (messages user (trace (deliver env ch from m w).1)))%Z) as Hd.
  { intros from m w0 H0. pose proof (deliver_cost from m w0 H0) as [Hs ->]. revert Hs. unfold share, MAX_CONTACT_REMINDERS.
    case_decide; lia. }
  destruct (up_from u) as [n|]; [|cbn; lia]. cbv zeta.
  destruct (up_contact u) as [[phone cuid]|].
  - case_bool_decide; match goal with |- context [modify ?f ≫= _] => exact (Hd _ _ (f w) Hn) end.
  - destruct (truthy (up_text u)); [by apply Hd|cbn; lia].
Qed.

(** A reminder is taken from what the row allows. *)
Lemma resend_cost rec due w :
  NoDup (map id (rows w)) → (rec_id rec, channelUserId rec) ∈ owners (rows w) →
  due = (prompted (rec_id rec) (rows w) + 1)%Z →
  (0 <= prompted (rec_id rec) (rows w) < MAX_CONTACT_REMINDERS)%Z →
  costs 0 (resendContactPrompt env rec due) w (λ _ _, True).
Proof.
  intros Hn Hown Hdue Hlt. unfold resendContactPrompt.
  apply costs_quiet; [quiet|done|intros now w1 H1]. rewrite <- H1 in Hn, Hown, Hdue, Hlt.
  apply list_elem_of_fmap in Hown as (r & [= Hid Hu] & Hin).
  apply find_row_unique in Hin; [|done]. rewrite <- Hid in Hin. unfold prompted in *. rewrite Hin in Hdue, Hlt.
  assert (∀ w', recorded (rec_id rec) due w1 w' →
    within (spent user w1 - if decide (channelUserId rec = user) then 1 else 0) (messages user (trace w1)) w') as Hrec.
  { intros w' [Ht Hb]. unfold within, spent. rewrite Ht, Hb, Hin. split; [|done].
    rewrite <- Hu. unfold allowance, MAX_CONTACT_REMINDERS in *. case_decide; lia. }
  apply wp_bind. eapply wp_mono; [by apply wp_recorded| |].
  - intros _ w2 [Hs Hm]%Hrec. unfold send, external, wp, modify.
    assert (within (spent user w1 + 0) (messages user (trace w1)) (with_tick w2 (S (tick w2)))).
    { split; [|done]. change (spent user (with_tick w2 (S (tick w2)))) with (spent user w2). case_decide; lia. }
    assert (within (spent user w1 + 0) (messages user (trace w1))
      (occurred (Sent (channelUserId rec) (REMINDER due)) (with_tick w2 (S (tick w2))))).
    { unfold within. rewrite <- Hm. unfold spent in *. cbn [rows trace occurred with_tick].
      rewrite reminders_cons, messages_cons. cbn [is_reminder_to is_from].
      split; [|done]. case_bool_decide; case_decide; try done; lia. }
    by destruct (fate_of env (tick w2)).
  - intros w2 [(Hr & Hre & Hme)|[Hs Hm]%Hrec]; unfold within.
    + unfold spent. rewrite Hr, Hre, Hme. split; [lia|done].
    + split; [|done]. case_decide; lia.
Qed.

Lemma prompt_one_cost u rec w :
  inv_with env none w → (rec_id rec, channelUserId rec) ∈ owners (rows w) →
  costs 0 (prompt_one env ch (u, rec)) w (λ _ _, True).
Proof.
  intros Hi Hown. pose proof (i_ids _ _ _ Hi) as Hn. pose proof (prompted_nonneg _ _ _ (rec_id rec) Hi) as Hpos.
  unfold prompt_one. destruct (state rec); try by apply costs_ret.
  unfold getContactPromptProgress.
  eapply costs_free; [apply costs_query|done|]. intros progress w1 [Ep%progress_prompted H1]. cbn [rows with_tick] in Ep.
  apply costs_quiet; [quiet|done|intros now w2 H2].
  destruct (dueReminderNumber _ _ _) as [due|] eqn:Ed; [|by apply costs_ret]. apply due_next in Ed as [Ed Hlt].
  rewrite <- H1, <- H2 in *.
  eapply costs_free; [apply resend_cost; [done|done|lia|lia]|done|intros _ w3 _].
  unfold findActiveByChannelUser. cheap. eapply costs_weaken; [apply (costs_of_quiet 0); [quiet|done]|done|done].
Qed.

Lemma costs_within {A} k (m : M A) w P S0 n :
  costs k m w P → within (S0 - k) n w → wp m w (λ _, within S0 n) (within S0 n).
Proof.
  intros Hm [Hs <-]. eapply wp_mono; [exact Hm| |]; [intros a w' [Hw _]|intros w' Hw];
    (eapply within_le; [exact Hw|lia]).
Qed.

Lemma quiet_within {A} (m : M A) w S0 n :
  quiet m → within S0 n w → wp m w (λ _, within S0 n) (within S0 n).
Proof.
  intros Hm Hw. eapply (costs_within 0); [by apply costs_of_quiet|]. eapply within_le; [done|lia].
Qed.

Lemma within_prompts w S0 n :
  inv_with env none w → within S0 n w →
  wp (runContactPromptSweep env ch) w (λ _, within S0 n) (within S0 n).
Proof.
  intros Hi Hw. eapply wp_mono; [apply (prompts_loop env ch w (within S0 n) Hi Hw)|by intros _ w' [_ ?]|by intros w' [_ ?]].
  intros u rec w1 Hi1 Hw1 Hown. eapply (costs_within 0); [by apply prompt_one_cost|].
  eapply within_le; [done|lia].
Qed.

Lemma within_expiry w S0 n : within S0 n w → wp (runExpirySweep env) w (λ _, within S0 n) (within S0 n).
Proof.
  intros Hw. unfold runExpirySweep, findExpiredActive.
  apply wp_bind. eapply wp_mono; [apply (quiet_within _ _ S0 n); [quiet|done]| |done]. intros now w1 H1.
  apply wp_bind. eapply wp_mono; [apply (quiet_within _ _ S0 n); [quiet|done]| |done]. intros expired w2 H2.
  apply wp_for_each; [|done]. intros rec w3 _ H3.
  eapply (costs_within 0 _ _ (λ _ _, True)); [|eapply within_le; [done|lia]]. unfold expire_one.
  eapply costs_free; [by apply costs_transition|done|intros ? w4 _].
  eapply costs_weaken; [apply (costs_of_quiet 0); [quiet|done]|done|done].
Qed.

Lemma within_start w S0 n : within S0 n w → wp (start env) w (λ _, within S0 n) (within S0 n).
Proof.
  intros Hw. unfold start, loadAllActive.
  apply wp_bind. eapply wp_mono; [apply (quiet_within _ _ S0 n); [quiet|done]| |done]. intros records w1 H1.
  apply wp_for_each; [|done]. intros rec w2 _ H2. apply quiet_within; [quiet|done].
Qed.

(** A timer or a restart adds nothing to what is spent. *)
Lemma sweep_cost w i :
  inv_with env none w → match i with Update _ => False | _ => True end →
  within (spent user w) (messages user (trace w)) (run_input env ch w i).
Proof.
  intros Hi Hup. destruct i as [u| | | |]; [done| | | |]; cbn [run_input]; apply wp_final.
  - apply within_prompts; [done|split; [lia|done]].
  - apply within_expiry. split; [lia|done].
  - apply quiet_within; [|split; [lia|done]]. unfold sweepStalePendingReregistrations. quiet.
  - apply within_start. split; [|done].
    change (spent user (lose_memory w)) with (spent user w). lia.
Qed.

Lemma input_cost w i :
  inv_with env none w →
  (spent user (run_input env ch w i) + 2 * Z.of_nat (messages user (trace w)) <=
   spent user w + 2 * Z.of_nat (messages user (trace (run_input env ch w i))))%Z.
Proof.
  intros Hi. destruct i as [u| | | |]; [apply (update_cost u w), Hi|..];
    match goal with |- context [run_input env ch w ?i] => destruct (sweep_cost w i Hi I) as [Hs ->]; lia end.
Qed.

End Reminders.

(** C3. Whatever fails and however the timers and restarts fall, a user gets at
    most two reminders for each message they sent; and while nobody writes, a
    user gets at most what their rows still allow, two for a row that was never
    reminded and none for one reminded twice. *)
Theorem reminders_bounded env ch user w :
  reachable env ch w →
  reminders user (trace w) <= 2 * messages user (trace w) ∧
  (∀ inputs, Forall (λ i, match i with Update _ => False | _ => True end) inputs →
     (Z.of_nat (reminders user (trace (run env ch w inputs))) <=
      Z.of_nat (reminders user (trace w)) + budget user (rows w))%Z).
Proof.
  intros Hw. split.
  - destruct Hw as [inputs ->]. unfold run.
    assert (∀ w, inv_with env none w → (spent user w <= 2 * Z.of_nat (messages user (trace w)))%Z →
      let w' := foldl (run_input env ch) w inputs in
      (spent user w' <= 2 * Z.of_nat (messages user (trace w')))%Z) as Hgen.
    { induction inputs as [|i inputs IH]; [done|]. intros w Hi Hw. cbn. apply IH; [by apply run_input_inv|].
      pose proof (input_cost env ch user w i Hi). lia. }
    specialize (Hgen initial (reachable_inv env ch initial (ex_intro _ [] eq_refl)) ltac:(unfold spent; cbn; lia)).
    cbv zeta in Hgen. unfold spent in Hgen. pose proof (budget_nonneg user (rows (foldl (run_input env ch) initial inputs))). lia.
  - apply reachable_inv in Hw. intros inputs Hin. unfold run.
    assert (spent user (foldl (run_input env ch) w inputs) <= spent user w)%Z as Hs.
    { revert w Hw. induction Hin as [|i inputs Hi Hin IH]; intros w Hw; cbn; [lia|].
      etransitivity; [apply IH; by apply run_input_inv|]. by destruct (sweep_cost env ch user w i Hw Hi). }
    unfold spent in Hs. pose proof (budget_nonneg user (rows (foldl (run_input env ch) w inputs))). lia.
Qed.

End RegistrationReminders.
