(* ===== verification/RegistrationDemo.v ===== *)
(** Registrations that complete, in an environment where nothing fails: the theorems
    at concrete runs, and a registration whose phone number was never shared. *)
From S2P Require Import Prelude Text JsMap Effects Registration RegistrationRepository RegistrationMachine.
From S2P Require Import RegistrationEngine RegistrationSafety RegistrationTheorems.
From S2P Require Import RegistrationReminders.
Import Text JsMap Effects Registration RegistrationRepository RegistrationMachine RegistrationEngine
  RegistrationInvariant RegistrationSafety RegistrationTheorems RegistrationReminders.

Module RegistrationDemo.

(** A gate that admits whoever redeems one token. *)
Definition demo_gate : WaitlistGateClient :=
  mkGate (λ _ _, NotAllowed "not_linked" "Send your waitlist token.")
    (λ _ _ token, if bool_decide (token = "tok") then Redeemed else NotRedeemed "unknown" "Unknown token.").

(** A minute passes from one call to the next. *)
Definition demo_env (gate : option WaitlistGateClient) (step : Z) : Env :=
  mkEnv (λ _, Works) (λ n, (Z.of_nat n * step)%Z) (λ n, pretty n) (λ n, N.of_nat n)
    (λ n, "s" +:+ pretty n) gate (λ _ _ _ _, (Some "claim", "blob")) (λ s, "h" +:+ s) (λ z, pretty z).

Definition text (s : string) : input := Update (mkUpdate (Some 42%Z) None (Some s)).

Definition contact (phone : string) : input := Update (mkUpdate (Some 42%Z) (Some (phone, Some 42%Z)) None).

Definition demo_world : world :=
  run (demo_env (Some demo_gate) 1) telegram initial
    [text "hi"; text "tok"; contact "+155"; text " a@b.co "; text "000033"].

Definition state_of (w : world) : list string := map r_state (rows w).

Example demo_completes : state_of demo_world = ["PRE_AUTH_TOKEN_ISSUED"].
Proof. vm_compute. reflexivity. Qed.

Definition nagged : world :=
  run (demo_env None 600000) telegram initial
    [text "hi"; PromptSweep; PromptSweep; PromptSweep; PromptSweep; PromptSweep; PromptSweep].

Example nagged_twice : reminders "42" (trace nagged) = 2 ∧ messages "42" (trace nagged) = 1.
Proof. vm_compute. split; reflexivity. Qed.

Definition typed : list input := [text "hi"; text "CONTACT:42:+1999"; text "a@b.co"; text "000022"].

Definition row_of (w : world) : RegistrationRow :=
  List.hd (mkRow "" "" cli "" "" (mkData None None None) None None None None 0 0 0 0 "") (rows w).

Lemma typed_completes :
  map (λ r, (r_state r, phone_stub_hash r)) (rows (run (demo_env None 1) telegram initial typed)) = [("PRE_AUTH_TOKEN_ISSUED", "h+1999")].
Proof. vm_compute. reflexivity. Qed.

Lemma typed_row :
  ∃ r, r ∈ rows (run (demo_env None 1) telegram initial typed) ∧ r_state r = "PRE_AUTH_TOKEN_ISSUED" ∧
    phone_stub_hash r = hashPhone (demo_env None 1) (normalizePhone "+1999").
Proof.
  pose proof typed_completes as E.
  destruct (rows (run (demo_env None 1) telegram initial typed)) as [|r [|]]; [done| |done].
  injection E as Es Ep. exists r. split; [left|]. split; [done|]. rewrite Ep. vm_compute. reflexivity.
Qed.

(** Typing what the adapter says of a shared contact is taken for sharing it: the
    handler gets the same message, in any world, and a registration completes with
    a phone number that no contact update ever carried. *)
Theorem typed_contact_is_accepted :
  (∀ env ch w n phone,
     let message := "CONTACT:" +:+ pretty n +:+ ":" +:+ phone in
     let shared := with_contacts w (jset (lastContactByFrom w) (pretty n) (mkContact phone (Some n) n)) in
     processUpdate env ch (mkUpdate (Some n) None (Some message)) w = deliver env ch (pretty n) message w ∧
     processUpdate env ch (mkUpdate (Some n) (Some (phone, Some n)) None) w = deliver env ch (pretty n) message shared) ∧
  ∃ env inputs r,
    (∀ u, Update u ∈ inputs → up_contact u = None) ∧ r ∈ rows (run env telegram initial inputs) ∧
    r_state r = "PRE_AUTH_TOKEN_ISSUED" ∧ phone_stub_hash r = hashPhone env (normalizePhone "+1999").
Proof.
  split.
  - intros env ch w n phone message shared. split; [done|]. unfold processUpdate. cbn [up_from up_contact].
    by rewrite bool_decide_eq_true_2.
  - exists (demo_env None 1), typed.
    destruct typed_row as (r & Hr & Es & Ep). exists r. split; [|exact (conj Hr (conj Es Ep))].
    intros u Hu. unfold typed, text in Hu.
    repeat (apply elem_of_cons in Hu as [[= ->]|Hu]; [done|]). by apply not_elem_of_nil in Hu.
Qed.

Lemma demo_reachable : reachable (demo_env (Some demo_gate) 1) telegram demo_world.
Proof. by eexists. Qed.

(** The user comes back, confirms, and completes a second registration with the address
    of the first. *)
Definition again : world :=
  run (demo_env None 1) telegram initial
    (typed ++ [text "hi"; text "CONFIRM"; text "CONTACT:42:+1999"; text "a@b.co"; text "000078"]).

Definition second_row (w : world) : RegistrationRow := row_of (with_rows w (List.tl (rows w))).

Lemma again_reachable : reachable (demo_env None 1) telegram again.
Proof. by eexists. Qed.

Lemma completed_registration_is_verified_witness :
  (state_of again = ["PRE_AUTH_TOKEN_ISSUED"; "PRE_AUTH_TOKEN_ISSUED"] ∧
   continues_with_same_email again (second_row again) (Some "ha@b.co")) ∧
  row_of demo_world ∈ rows demo_world ∧
  admitted (demo_env (Some demo_gate) 1) (trace demo_world) (channel_user_id (row_of demo_world)) ∧
  phone_shown (demo_env (Some demo_gate) 1) (trace demo_world) (channel_user_id (row_of demo_world)) (phone_stub_hash (row_of demo_world)).
Proof.
  assert (row_of demo_world ∈ rows demo_world) as Hr by (vm_compute; left).
  split.
  { split; [vm_compute; reflexivity|].
    destruct (completed_registration_is_verified (demo_env None 1) telegram again (second_row again) again_reachable)
      as (_ & _ & _ & _ & Hc); [vm_compute; right; left|vm_compute; right; left|].
    apply Hc. vm_compute. repeat first [left; done|right]. }
  split; [exact Hr|].
  destruct (completed_registration_is_verified (demo_env (Some demo_gate) 1) telegram demo_world (row_of demo_world)
    demo_reachable Hr ltac:(vm_compute; right; left)) as (? & ? & _). by split.
Defined.

Lemma no_phone_prompt_before_admission_witness :
  waitlistGate (demo_env (Some demo_gate) 1) = None ∨ GateAdmitted "42" ∈ trace demo_world.
Proof.
  assert (∃ later earlier, trace demo_world = later ++ Sent "42" ADMITTED :: earlier) as (later & earlier & E).
  { exists (take 9 (trace demo_world)), (drop 10 (trace demo_world)). vm_compute. reflexivity. }
  destruct (no_phone_prompt_before_admission (demo_env (Some demo_gate) 1) telegram demo_world later "42" ADMITTED earlier
    demo_reachable E eq_refl) as [?|?]; [by left|right].
  rewrite E. apply elem_of_app. right. by right.
Defined.

Lemma registration_table_invariant_witness : NoDup (map id (rows demo_world)).
Proof. apply (registration_table_invariant (demo_env (Some demo_gate) 1) telegram demo_world demo_reachable). Defined.

Lemma reminders_bounded_witness :
  reminders "42" (trace nagged) = 2 ∧ reminders "42" (trace nagged) <= 2 * messages "42" (trace nagged).
Proof.
  split; [vm_compute; reflexivity|].
  apply (reminders_bounded (demo_env None 600000) telegram "42" nagged). by eexists.
Defined.

End RegistrationDemo.
