(* ===== verification/DkgTopology.v ===== *)
(** Who takes part in a key generation and how many of them sign
    (dkg-topology.ts), and what a discovery answers (discovery-lookup.ts). *)
From S2P Require Import Prelude.

Module DkgTopology.

Record ConsortiumNode := mkConsortiumNode { nodeId : string; role : option string }.

Record Topology := mkTopology {
  hasManifest : bool;
  replicaOnly : bool;
  consortiumNodeCount : Z;
  quorumNodeIds : list string;
  dkgThreshold : Z;
  dkgParticipants : Z;
  belowQuorum : bool;
  duplicateNodeIds : list string }.

(** A JavaScript set of strings: insertion order, one entry each. *)
Definition set_add (s : list string) (x : string) : list string := if bool_decide (x ∈ s) then s else s ++ [x].

Definition to_set (l : list string) : list string := foldl set_add [] l.

(** One node of the loop: the ids seen, and those seen twice. *)
Definition dupe_step (acc : list string * list string) (id : string) : list string * list string :=
  (set_add acc.1 id, if bool_decide (id ∈ acc.1) then set_add acc.2 id else acc.2).

Section Topology.
(** The validators among the nodes of a manifest. *)
Variable validatorNodes : list ConsortiumNode → list ConsortiumNode.

Definition computeDkgTopology (allManifestNodes : list ConsortiumNode) (reachableNodeIds : option (list string)) : Topology :=
  let validators := map nodeId (validatorNodes allManifestNodes) in
  let present := negb (bool_decide (allManifestNodes = [])) in
  let ids := to_set validators in
  let n := Z.of_nat (length ids) in
  let count := if (n =? 0)%Z then 1%Z else n in
  let quorum := match reachableNodeIds with
                | Some r => List.filter (λ id, bool_decide (id ∈ r)) ids
                | None => ids
                end in
  let threshold := if (count =? 1)%Z then 2%Z else (count / 2 + 1)%Z in
  let participants := if (0 <? n)%Z then Z.of_nat (length quorum) else 1%Z in
  mkTopology present (present && bool_decide (validators = [])) count quorum threshold participants
    ((1 <? count)%Z && (participants <? threshold)%Z) (foldl dupe_step ([], []) validators).2.

(** What the registration refuses. *)
Definition topology_refused (t : Topology) : bool :=
  negb (bool_decide (duplicateNodeIds t = [])) || replicaOnly t || belowQuorum t.

End Topology.

(** * Discovery *)

Inductive DiscoveryState := unknown_agent | online | offline.

Record AgentPresenceLookup := mkPresence { hasRow : bool; rawOnline : bool; owningNodeId : option string; nodeFresh : bool }.

Definition resolveDiscoveryState (profileExists : bool) (p : AgentPresenceLookup) : DiscoveryState * list string * bool :=
  if negb profileExists then (unknown_agent, [], false)
  else
    match owningNodeId p with
    | Some (String _ _ as node) =>
        if hasRow p && rawOnline p then (online, [node], negb (nodeFresh p)) else (offline, [], false)
    | _ => (offline, [], false)
    end.

End DkgTopology.
