(* ===== verification/Signaling.v ===== *)
(** The signaling streams of a directory (directory-node.ts): what a node keeps of its
    streams, of the connection requests and sessions it brokers and of the agents it
    registers; how a stream is authenticated, displaced and closed, and what is
    delivered when an agent comes back.  Waits for a store, for a client or for a timer
    split a handler: it goes on with a later input, which carries the answer. *)
From S2P Require Import Prelude Text JsMap Effects Bytes Wire FrostShares FrostFrames FrostHandler DkgTopology.
Import Text JsMap Effects Bytes Wire FrostHandler DkgTopology.

Module Signaling.

(** * Frames *)

Inductive Mode := direct | relayed.

Record Endpoint := mkEndpoint { peer_id : string; addrs : list string }.

(** A session request as decoded; absent fields are [None]. *)
Record SessionAsk := mkAsk {
  target_pubkey : bytes;
  connection_id : option string;
  relay_rtt : jsval;
  initiator_session_peer_id : option string;
  initiator_session_addrs : option (list string);
  transport_mode : option Mode;
  wants_session_offer : bool;
  a_moniker : option string;
  trust_signals : option (list (string * bytes));
  high_stakes : bool }.

Record RegisterRequest := mkRegister {
  phone_stub : string; k_local_pubkey : string; ml_dsa_pubkey : string; reachable_node_ids : option (list string) }.

Record Revocation := mkRevocation {
  rv_agent_id : string; rv_epoch : option string; rv_reason : option string; rv_at : Z; rv_signature : string }.

Inductive Verdict := accept | reject (reason : option string) | insufficient (unmet : list jsval) | other_verdict.

Inductive Frame :=
| AuthResponse (pubkey signature : bytes) (visiting : bool)
| CeremonyResult (ceremony_id : string) (signature : option bytes)
| PeerInfoAnnounce (info : Endpoint)
| DkgComplete (primary_pubkey key_binding : string)
| Register (frame : RegisterRequest)
| RevokeAgent (rv : Revocation)
| SessionRequest (ask : SessionAsk)
| SessionOfferAccept (session_id : bytes) (endpoint : Endpoint)
| SessionOfferReject (session_id : option bytes)
| ConnectionRequest (target : string) (package : bytes)
| ConnectionResponse (id : string) (verdict : Verdict)
| DisclosureRequest (id : string) (items : jsval)
| DisclosureResponse (id : string) (package : bytes)
| Ping (ts : jsnum)
| SealInterrupted (recipient : string) (payload : jsval)
| Undecodable
| OtherFrame.

(** An assignment as it is sent; [signature] is of the threshold key, [relay_signature] of
    the directory's own. *)
Record Assignment := mkAssignment {
  session_id : bytes;
  participant_a : bytes;
  participant_b : bytes;
  info_a : Endpoint;
  info_b : Endpoint;
  relay_endpoint : Endpoint;
  session_timestamp : Z;
  directory_signature : bytes;
  signer_pubkey : bytes;
  a_key_binding : option bytes;
  b_primary_pubkey : option bytes;
  b_key_binding : option bytes;
  initiator_session : option string * option (list string);
  counterparty_session : Endpoint;
  as_mode : Mode;
  as_high_stakes : bool;
  moniker : option string;
  as_signals : option (list (string * bytes));
  relay_directory_signature : option bytes }.

Record Profile := mkProfile {
  p_k_local : string; primary_pubkey : string; p_ml_dsa : string; phone_stub_hash : string;
  registered_at : Z; active_status : bool; agent_id : string; key_binding : option string; account_id : option string }.

Inductive FrameOut :=
| AuthChallenge (nonce : bytes)
| NotAuthenticated
| AuthFailed (reason : string)
| AuthOk (proof : option bytes) (token : option bytes) (absent : option string)
| ConnectionInbound (from id : string) (package : bytes) (sender_registered_at : Z) (provisional : bool)
| ConnectionError (reason : string) (id : option string)
| ConnectionEstablished (counterparty id : string)
| ConnectionRejected (target reason : string)
| ConnectionInsufficient (target : string) (unmet : list jsval)
| DisclosureRequestInbound (from id : string) (items : jsval)
| DisclosureResponseInbound (id : string) (package : bytes)
| SessionError (reason : string)
| SessionOffer (session_id : bytes) (initiator : option string * option (list string))
| CeremonyRequest (ceremony_id : string) (tbs : bytes)
| SessionAssigned (a : Assignment)
| SessionAbandoned (session_id : bytes)
| RegisterError (reason : string) (existing : option Profile)
| DkgReady (epoch : string) (participants threshold : Z)
| RegisterSuccess (agent primary : string) (token : option bytes)
| RevocationError (reason agent : string)
| RevocationAck (agent : string)
| Pong (ts : jsnum)
| Forwarded (payload : jsval)
| SealNotice (payload : jsval).

(** * State *)

(** Every open authenticated stream of an agent, oldest first, and whether it is visiting;
    the one frames go to; the agents that had a home stream; the presence writes that the
    running process issued, in order.  Nobody waits for these: those not yet answered, and
    the rows of agent_presence that name this node (whether online). *)
Record Table := mkTable {
  streams : jsmap string nat;
  agentStreams : jsmap string (list (nat * bool));
  agentHomeSeen : list string;
  presence : list (string * bool);
  presencePending : list (string * bool);
  presenceRows : jsmap string bool }.

Record PendingRequest := mkPendingRequest { pr_sender : string; pr_target : string; pr_package : bytes; pr_round : Z }.

Record QueuedRequest := mkQueued { q_id : string; q_sender : string; q_frame : FrameOut; q_package : bytes; q_at : Z }.

Record Connection := mkConnection { c_id : string; c_a : string; c_b : string; c_at : Z }.

Inductive ActiveWrite := SaveActive (id : string) (p : PendingRequest) (expires : Z) | DeleteActive (id : string).

Record Desk := mkDesk {
  pendingConnectionRequests : jsmap string PendingRequest;
  queuedRequests : jsmap string (list QueuedRequest);
  connections : list Connection;
  notifications : jsmap string (list FrameOut);
  activeWrites : jsmap nat ActiveWrite;
  activeRequests : jsmap string (PendingRequest * Z) }.

Record PendingSession := mkPendingSession {
  ps_id : bytes; ps_initiator : string; ps_target : string;
  initiatorGot : bool; targetGot : bool; fullyEstablished : bool }.

Record Offers := mkOffers {
  offerTargets : jsmap string string;
  offerAccepts : jsmap string Endpoint;
  offerWaiters : jsmap string nat;
  rejectedOffers : list string;
  pendingSessions : jsmap string PendingSession;
  sessionParticipants : jsmap string (string * string);
  sessionGenesisAt : jsmap string Z;
  sessionHighStakes : jsmap string bool }.

(** A session whose participants are read back when a node starts. *)
Record SessionRow := mkSessionRow { sr_id : string; sr_initiator : string; sr_target : string; sr_genesis : Z; sr_high_stakes : bool }.

(** A [ClientDelegatedSigner]: its ceremonies, by id, and the flow that waits for each. *)
Record Signer := mkSigner { sg_agent : string; sg_primary : bytes; sg_pending : jsmap string nat }.

(** A row of agent_revocations. *)
Record RevocationRow := mkRevocationRow {
  ar_agent_id : string; ar_epoch : string; ar_reason : string; ar_signature : bytes; ar_at : Z }.

(** The stored revocations ([agent_revocations]) are not what is enforced: that are the
    indexes in memory, of which [revocationsByAgentId] has the key of the agent too (empty:
    not known). *)
Record Registry := mkRegistry {
  profiles : jsmap string Profile;
  phoneIndex : jsmap string string;
  agent_revocations : jsmap string RevocationRow;
  revocationsByAgentId : jsmap string (string * RevocationRow);
  revokedPubkeys : list string;
  pendingDkgComplete : jsmap string nat;
  pendingPreAuthData : jsmap string (string * string);
  pendingDkgCommitments : jsmap string bytes;
  signers : list Signer;
  thresholdSigners : jsmap string nat;
  delegatedSigners : jsmap string nat;
  primaryPubkeys : jsmap string bytes;
  peerInfo : jsmap string Endpoint;
  peerInfoAnnounced : list string }.

(** What a stream's loop waits for before it reads the next frame. *)
Inductive Wait :=
| Idle
| WaitToken
| WaitNotifications
| WaitRequests
| WaitTargetPause (ask : SessionAsk)
| WaitInitiatorPause (ask : SessionAsk).

Record Conn := mkConn { nonce : bytes; authedPubkeyHex : option string; authed : bool; is_visiting : bool; c_wait : Wait }.

(** What is known of a session request when its flow waits. *)
Record Setup := mkSetup {
  su_stream : nat; su_initiator : string; su_target : string; su_ask : SessionAsk }.

(** ... and once a session id has been drawn; the transport info of the two parties as it
    was then. *)
Record Drawn := mkDrawn {
  dr_target_stream : nat; dr_signer : nat; dr_id : bytes; dr_timestamp : Z; dr_info_a : Endpoint; dr_info_b : Endpoint }.

Record Bindings := mkBindings { bd_initiator : option string; bd_target : option string; bd_primary : option string }.

Inductive CeremonyFailure := DIRECTORY_BELOW_THRESHOLD | CEREMONY_TIMEOUT | CEREMONY_EXHAUSTED.

Inductive Flow :=
| SConnection (s : Setup)
| SPrimary (s : Setup) (target_stream : nat)
| SOffer (s : Setup) (d : Drawn) (offered : bool) (resolved : option bool)
| SProfiles (s : Setup) (d : Drawn) (counterparty : Endpoint)
| SCeremony (s : Setup) (d : Drawn) (counterparty : Endpoint) (b : Bindings) (resolved : option (result CeremonyFailure bytes))
| SSignals (s : Setup) (d : Drawn) (counterparty : Endpoint) (b : Bindings) (sig : bytes)
| CSender (stream : nat) (sender target : string) (package : bytes)
| CExisting (stream : nat) (sender target : string) (package : bytes) (profile : option Profile)
| CCreating (id : string) (p : PendingRequest) (sender_stream : option nat) (connection : string)
| RDkg (stream : nat) (frame : RegisterRequest) (resolved : option (option (string * string)))
| RAccount (stream : nat) (frame : RegisterRequest) (primary binding phoneHash agent : string)
| RToken (stream : nat) (primary agent : string)
| RRevoke (stream : nat) (rv : Revocation) (k_local : string).

Record Node := mkNode {
  tick : nat;
  steps : nat;
  frost : Handler;
  nonces : jsmap string Z;
  conns : jsmap nat Conn;
  table : Table;
  desk : Desk;
  offers : Offers;
  registry : Registry;
  flows : jsmap nat Flow;
  sent : list (nat * FrameOut) }.

Definition empty_table : Table := mkTable [] [] [] [] [] [].
Definition empty_desk : Desk := mkDesk [] [] [] [] [] [].
Definition empty_offers : Offers := mkOffers [] [] [] [] [] [] [] [].
Definition empty_registry : Registry := mkRegistry [] [] [] [] [] [] [] [] [] [] [] [] [] [].

Definition initial : Node := mkNode 0 0 initial_handler [] [] empty_table empty_desk empty_offers empty_registry [] [].

Definition with_tick n v := mkNode v (steps n) (frost n) (nonces n) (conns n) (table n) (desk n) (offers n) (registry n) (flows n) (sent n).
Definition with_steps n v := mkNode (tick n) v (frost n) (nonces n) (conns n) (table n) (desk n) (offers n) (registry n) (flows n) (sent n).
Definition with_frost n v := mkNode (tick n) (steps n) v (nonces n) (conns n) (table n) (desk n) (offers n) (registry n) (flows n) (sent n).
Definition with_nonces n v := mkNode (tick n) (steps n) (frost n) v (conns n) (table n) (desk n) (offers n) (registry n) (flows n) (sent n).
Definition with_conns n v := mkNode (tick n) (steps n) (frost n) (nonces n) v (table n) (desk n) (offers n) (registry n) (flows n) (sent n).
Definition with_table n v := mkNode (tick n) (steps n) (frost n) (nonces n) (conns n) v (desk n) (offers n) (registry n) (flows n) (sent n).
Definition with_desk n v := mkNode (tick n) (steps n) (frost n) (nonces n) (conns n) (table n) v (offers n) (registry n) (flows n) (sent n).
Definition with_offers n v := mkNode (tick n) (steps n) (frost n) (nonces n) (conns n) (table n) (desk n) v (registry n) (flows n) (sent n).
Definition with_registry n v := mkNode (tick n) (steps n) (frost n) (nonces n) (conns n) (table n) (desk n) (offers n) v (flows n) (sent n).
Definition with_flows n v := mkNode (tick n) (steps n) (frost n) (nonces n) (conns n) (table n) (desk n) (offers n) (registry n) v (sent n).
Definition with_sent n v := mkNode (tick n) (steps n) (frost n) (nonces n) (conns n) (table n) (desk n) (offers n) (registry n) (flows n) v.
End Signaling.
