(* ===== verification/SignalStreams.v ===== *)
(** The streams of a directory: authentication, the stream that frames to an agent go
    to, presence, and what an agent is given when it comes back
    (directory-node.ts, the frame of [#handleSignalingStream]). *)
From S2P Require Import Prelude Text JsMap Effects Bytes Wire FrostHandler DkgTopology Signaling.
Import Text JsMap Effects Bytes Wire DkgTopology Signaling.

Module SignalStreams.

(** What is outside.  A call of the clock, of the random source, of a stream or of the
    directory's own key is named by its tick. *)
Record SigEnv := mkSigEnv {
  clock : nat → Z;
  rand : nat → nat → bytes;
  send_works : nat → bool;
  verify : bytes → bytes → bytes → bool;
  sha256 : bytes → bytes;
  directory_sign : nat → bytes → option bytes;
  requireRegistration : bool;
  requireConnectionGate : bool;
  has_pool : bool;
  has_tokenValidator : bool;
  forceDkgFailure : bool;
  manifest_nodes : nat → list ConsortiumNode;
  validatorNodes : list ConsortiumNode → list ConsortiumNode;
  computeGenesisPrevRoot : bytes → bytes → bytes → Z → bytes;
  tbs_short : bytes → bytes → bytes → bytes → Z → bytes;
  tbs_long : bytes → bytes → bytes → bytes → Z → Endpoint → Endpoint → Mode → bool → string → bytes;
  relay_tbs : bytes → bytes → bytes → Z → option (string * string) → bytes;
  revocation_tbs : string → string → string → string → Z → bytes;
  pickRelay : nat → jsval → option Endpoint }.

Definition Task : Type → Type := act Node string.

Section Streams.
Context (env : SigEnv).

(** * Small steps *)

Definition next_tick : Task nat := λ n, (with_tick n (S (tick n)), Ok (tick n)).

Definition now : Task Z := t ← next_tick; mret (clock env t).

Definition randomBytes (size : nat) : Task bytes := t ← next_tick; mret (rand env t size).

(** [#sendFrame], which throws when the stream is gone. *)
Definition sendFrame (stream : nat) (f : FrameOut) : Task unit :=
  t ← next_tick;
  if send_works env t then modify (λ n, with_sent n (sent n ++ [(stream, f)])) else throw "send".

(** [try { sendFrame } catch {}] *)
Definition try_send (stream : nat) (f : FrameOut) : Task unit := try_catch (sendFrame stream f) (λ _, mret tt).

(** A promise that nobody awaits. *)
Definition detached (m : Task unit) : Task unit := try_catch m (λ _, mret tt).

Definition on_table (f : Table → Table) : Task unit := modify (λ n, with_table n (f (table n))).
Definition on_desk (f : Desk → Desk) : Task unit := modify (λ n, with_desk n (f (desk n))).
Definition on_offers (f : Offers → Offers) : Task unit := modify (λ n, with_offers n (f (offers n))).
Definition on_registry (f : Registry → Registry) : Task unit := modify (λ n, with_registry n (f (registry n))).

Definition set_flow (r : nat) (f : Flow) : Task unit := modify (λ n, with_flows n (jset (flows n) r f)).
Definition drop_flow (r : nat) : Task unit := modify (λ n, with_flows n (jdel (flows n) r)).
Definition set_conn (s : nat) (c : Conn) : Task unit := modify (λ n, with_conns n (jset (conns n) s c)).

Definition set_wait (s : nat) (w : Wait) : Task unit :=
  c ← gets (λ n, jget (conns n) s);
  match c with
  | Some c => set_conn s (mkConn (nonce c) (authedPubkeyHex c) (authed c) (is_visiting c) w)
  | None => mret tt
  end.

(** [#streams.get(agent)] *)
Definition stream_of (agent : string) : Task (option nat) := gets (λ n, jget (streams (table n)) agent).

(** * The table of streams *)

(** A home stream of the agent is open, other than [s]. *)
Definition homeStreamLive (s : nat) (live : list (nat * bool)) : bool :=
  existsb (λ e, negb e.2 && negb (e.1 =? s)%nat) live.

Definition live_of (t : Table) (agent : string) : list (nat * bool) := default [] (jget (agentStreams t) agent).

(** [#recordPresence]: one more write, where there is a database. *)
Definition recordPresence (online : bool) (agent : string) (writes : list (string * bool)) : list (string * bool) :=
  if has_pool env then writes ++ [(agent, online)] else writes.

Definition register_stream (s : nat) (agent : string) (visiting : bool) (t : Table) : Table :=
  let live := live_of t agent in
  mkTable
    (if negb visiting || negb (homeStreamLive s live) then jset (streams t) agent s else streams t)
    (jset (agentStreams t) agent (live ++ [(s, visiting)]))
    (if visiting then agentHomeSeen t else set_add (agentHomeSeen t) agent)
    (if visiting then presence t else recordPresence true agent (presence t))
    (if visiting then presencePending t else recordPresence true agent (presencePending t))
    (presenceRows t).

Fixpoint remove_entry (s : nat) (live : list (nat * bool)) : list (nat * bool) :=
  match live with
  | [] => []
  | e :: live => if (e.1 =? s)%nat then live else e :: remove_entry s live
  end.

(** The newest open home stream, or the newest one. *)
Definition survivor_of (live : list (nat * bool)) : option (nat * bool) :=
  match last (List.filter (λ e, negb e.2) live) with Some e => Some e | None => last live end.

Definition unregister_stream (s : nat) (agent : string) (visiting : bool) (t : Table) : Table :=
  let remaining := remove_entry s (live_of t agent) in
  let current := bool_decide (jget (streams t) agent = Some s) in
  match survivor_of remaining with
  | Some survivor =>
      mkTable (if current then jset (streams t) agent survivor.1 else streams t)
        (jset (agentStreams t) agent remaining) (agentHomeSeen t) (presence t) (presencePending t) (presenceRows t)
  | None =>
      let sawHomeStream := bool_decide (agent ∈ agentHomeSeen t) in
      let gone := current && (negb visiting || sawHomeStream) in
      mkTable (if current then jdel (streams t) agent else streams t)
        (jdel (agentStreams t) agent)
        (List.filter (λ a, negb (bool_decide (a = agent))) (agentHomeSeen t))
        (if gone then recordPresence false agent (presence t) else presence t)
        (if gone then recordPresence false agent (presencePending t) else presencePending t)
        (presenceRows t)
  end.

(** [#streams.delete(agent)] where a seal could not be sent. *)
Definition drop_stream (agent : string) (t : Table) : Table :=
  mkTable (jdel (streams t) agent) (agentStreams t) (agentHomeSeen t) (presence t) (presencePending t) (presenceRows t).

(** * Presence *)

(** What was written last of the agent. *)
Definition written (l : list (string * bool)) (agent : string) : option bool :=
  snd <$> last (List.filter (λ e, bool_decide (e.1 = agent)) l).

(** [upsertPresenceOnline] takes the row of the agent, whoever's it was;
    [upsertPresenceOffline] changes it only where it names this node. *)
Definition apply_presence (row : option bool) (online : bool) : option bool :=
  if online then Some true else (λ _, false) <$> row.

Definition upsert_presence (w : string * bool) (rows : jsmap string bool) : jsmap string bool :=
  match apply_presence (jget rows w.1) w.2 with Some b => jset rows w.1 b | None => rows end.

Definition with_writes (t : Table) p r := mkTable (streams t) (agentStreams t) (agentHomeSeen t) (presence t) p r.

(** A write that is not answered yet is applied, or fails, whichever it is of those that
    wait: no write waits for another. *)
Definition presence_lands (i : nat) (t : Table) : Table :=
  match presencePending t !! i with
  | Some w => with_writes t (base.delete i (presencePending t)) (upsert_presence w (presenceRows t))
  | None => t
  end.

Definition presence_lost (i : nat) (t : Table) : Table := with_writes t (base.delete i (presencePending t)) (presenceRows t).

(** Another node wrote the agent online, here or through anti-entropy. *)
Definition presence_taken (agent : string) (t : Table) : Table := with_writes t (presencePending t) (jdel (presenceRows t) agent).

(** [reconcileNodeOffline]: whoever is online at this node is written offline. *)
Definition reconcileNodeOffline (rows : jsmap string bool) : jsmap string bool := map (λ e, (e.1, false)) rows.

(** * Notifications *)

Definition NOTIFICATION_QUEUE_BOUND : nat := 256.

Definition push_bounded {A} (bound : nat) (q : list A) (x : A) : list A :=
  (if (bound <=? length q)%nat then tail q else q) ++ [x].

Definition with_notifications (d : Desk) v := mkDesk (pendingConnectionRequests d) (queuedRequests d) (connections d) v (activeWrites d) (activeRequests d).

Definition enqueueNotification (agent : string) (f : FrameOut) : Task unit :=
  on_desk (λ d, with_notifications d
    (jset (notifications d) agent (push_bounded NOTIFICATION_QUEUE_BOUND (default [] (jget (notifications d) agent)) f))).

(** [#deliverOrEnqueue] and, where nothing is [kept], [#deliverFrostSealed]: the result of a
    seal, for its party. *)
Definition deliver (agent : string) (f : jsval) (kept : bool) : Task unit :=
  stream ← stream_of agent;
  told ← match stream with
         | Some s => try_catch (_ ← sendFrame s (SealNotice f); mret true) (λ _, _ ← on_table (drop_stream agent); mret false)
         | None => mret false
         end;
  if told || negb kept || bool_decide (agent = EmptyString) then mret tt else enqueueNotification agent (SealNotice f).

(** Each frame in turn until one cannot be sent. *)
Fixpoint send_until_failure (stream : nat) (l : list FrameOut) : Task unit :=
  match l with
  | [] => mret tt
  | f :: l => try_catch (_ ← sendFrame stream f; send_until_failure stream l) (λ _, mret tt)
  end.

(** * The end of a stream *)

Definition with_pendingSessions (o : Offers) v :=
  mkOffers (offerTargets o) (offerAccepts o) (offerWaiters o) (rejectedOffers o) v (sessionParticipants o) (sessionGenesisAt o) (sessionHighStakes o).

(** One provisional session of the loop. *)
Definition abandon_session (agent : string) (e : string * PendingSession) : Task unit :=
  let '(sid, p) := e in
  if negb (bool_decide (ps_initiator p = agent) || bool_decide (ps_target p = agent)) then mret tt
  else
    _ ← on_offers (λ o, with_pendingSessions o (jdel (pendingSessions o) sid));
    if fullyEstablished p then mret tt
    else
      let is_initiator := bool_decide (ps_initiator p = agent) in
      let counterparty := if is_initiator then ps_target p else ps_initiator p in
      if if is_initiator then targetGot p else initiatorGot p then
        let f := SessionAbandoned (ps_id p) in
        stream ← stream_of counterparty;
        match stream with
        | Some stream => try_catch (sendFrame stream f) (λ _, enqueueNotification counterparty f)
        | None => enqueueNotification counterparty f
        end
      else mret tt.

(** The [finally] of the stream's loop. *)
Definition finish (s : nat) : Task unit :=
  c ← gets (λ n, jget (conns n) s);
  match c with
  | None => mret tt
  | Some c =>
      _ ← modify (λ n, with_conns n (jdel (conns n) s));
      match authedPubkeyHex c with
      | None => mret tt
      | Some agent =>
          _ ← on_table (unregister_stream s agent (is_visiting c));
          pending ← gets (λ n, pendingSessions (offers n));
          for_each (abandon_session agent) pending
      end
  end.

(** The body of the loop, whose exceptions end the stream. *)
Definition guarded (s : nat) (m : Task unit) : Task unit := try_catch m (λ _, finish s).

(** * Authentication *)

Definition NONCE_TTL_MS : Z := 30000.

Definition AUTH_DOMAIN : bytes := "CELLO-DIR-AUTH-v1".

Definition sweep_nonces (at_ : Z) (m : jsmap string Z) : jsmap string Z :=
  List.filter (λ e, negb (e.2 <? at_)%Z) m.

(** A stream is opened; [s] names it. *)
Definition open_stream (s : nat) : Task unit :=
  at_ ← now;
  _ ← modify (λ n, with_nonces n (sweep_nonces at_ (nonces n)));
  nc ← randomBytes 32;
  t ← now;
  _ ← modify (λ n, with_nonces n (jset (nonces n) (hex nc) (t + NONCE_TTL_MS)%Z));
  try_catch (_ ← sendFrame s (AuthChallenge nc); set_conn s (mkConn nc None false false Idle)) (λ _, mret tt).

Definition auth_hash (nc pubkey : bytes) : bytes := sha256 env (AUTH_DOMAIN +:+ nc +:+ pubkey).

Definition refuse (s : nat) (f : FrameOut) : Task unit := _ ← sendFrame s f; finish s.

(** The stream is the agent's. *)
Definition admit_stream (s : nat) (c : Conn) (agent : string) (visiting : bool) : Task unit :=
  _ ← set_conn s (mkConn (nonce c) (Some agent) false visiting WaitToken);
  on_table (register_stream s agent visiting).

Definition authenticate (s : nat) (c : Conn) (pubkey signature : bytes) (visiting : bool) : Task unit :=
  entry ← gets (λ n, jget (nonces n) (hex (nonce c)));
  match entry with
  | None => refuse s (AuthFailed "nonce_unknown")
  | Some expiresAt =>
      t ← now;
      _ ← modify (λ n, with_nonces n (jdel (nonces n) (hex (nonce c))));
      if (expiresAt <? t)%Z then refuse s (AuthFailed "nonce_expired")
      else if negb (verify env pubkey (auth_hash (nonce c) pubkey) signature) then refuse s (AuthFailed "signature_invalid")
      else admit_stream s c (hex pubkey) visiting
  end.

(** The acknowledgement.  [proof]: the node's signed challenge, if it has a key for it
    ([Some None]: signing failed). *)
Definition acknowledge (s : nat) (c : Conn) (agent : string) (token : option bytes) (absent : option string)
    (proof : option (option bytes)) : Task unit :=
  _ ← match proof with
      | Some (Some p) => try_catch (sendFrame s (AuthOk (Some p) token absent)) (λ _, sendFrame s (AuthOk None token absent))
      | _ => sendFrame s (AuthOk None token absent)
      end;
  _ ← on_registry (λ g,
        if jhas (peerInfo g) agent then g
        else mkRegistry (profiles g) (phoneIndex g) (agent_revocations g) (revocationsByAgentId g) (revokedPubkeys g) (pendingDkgComplete g) (pendingPreAuthData g) (pendingDkgCommitments g)
               (signers g) (thresholdSigners g) (delegatedSigners g) (primaryPubkeys g)
               (jset (peerInfo g) agent (mkEndpoint "" [])) (peerInfoAnnounced g));
  set_conn s (mkConn (nonce c) (Some agent) true (is_visiting c) WaitNotifications).

(** * What an agent is given when it comes back *)

(** [drainNotifications] takes the queue; what is not sent is lost. *)
Definition drain_notifications (s : nat) (agent : string) : Task unit :=
  queued ← gets (λ n, default [] (jget (notifications (desk n)) agent));
  _ ← on_desk (λ d, with_notifications d (jdel (notifications d) agent));
  _ ← send_until_failure s queued;
  set_wait s WaitRequests.

(** ** Connection requests kept while the target was away *)

Definition with_pending (d : Desk) v := mkDesk v (queuedRequests d) (connections d) (notifications d) (activeWrites d) (activeRequests d).
Definition with_queued (d : Desk) v := mkDesk (pendingConnectionRequests d) v (connections d) (notifications d) (activeWrites d) (activeRequests d).
Definition with_connections (d : Desk) v := mkDesk (pendingConnectionRequests d) (queuedRequests d) v (notifications d) (activeWrites d) (activeRequests d).
Definition with_active (d : Desk) w v := mkDesk (pendingConnectionRequests d) (queuedRequests d) (connections d) (notifications d) w v.

Definition REQUEST_TTL_MS : Z := (24 * 60 * 60 * 1000)%Z.

(** A write to active_connection_requests that nobody waits for. *)
Definition forget_write (w : ActiveWrite) : Task unit :=
  t ← next_tick;
  on_desk (λ d, with_active d (jset (activeWrites d) t w) (activeRequests d)).

(** The request is open: its answer finds it here. *)
Definition open_request (id : string) (p : PendingRequest) : Task unit :=
  _ ← on_desk (λ d, with_pending d (jset (pendingConnectionRequests d) id p));
  t ← now;
  forget_write (SaveActive id p (t + REQUEST_TTL_MS)).

Fixpoint deliver_requests (s : nat) (agent : string) (l : list QueuedRequest) : Task unit :=
  match l with
  | [] => mret tt
  | q :: l =>
      try_catch
        (_ ← sendFrame s (q_frame q);
         _ ← open_request (q_id q) (mkPendingRequest (q_sender q) agent (q_package q) 1);
         deliver_requests s agent l)
        (λ _, mret tt)
  end.

Definition dequeue_requests (s : nat) (agent : string) : Task unit :=
  queued ← gets (λ n, default [] (jget (queuedRequests (desk n)) agent));
  _ ← on_desk (λ d, with_queued d (jdel (queuedRequests d) agent));
  _ ← deliver_requests s agent queued;
  set_wait s Idle.

End Streams.
End SignalStreams.
