(* ===== verification/SignalConnections.v ===== *)
(** Brokering of connection requests (directory-node.ts: [#processConnectionRequest],
    [#processConnectionResponse], [#processDisclosureRequest],
    [#processDisclosureResponse]). *)
From S2P Require Import Prelude Text JsMap Effects Bytes Wire FrostHandler DkgTopology Signaling SignalStreams.
Import Text JsMap Effects Bytes Wire Signaling SignalStreams.

Module SignalConnections.

Definition PENDING_CONNECTION_REQUEST_BOUND : nat := 32.

(** [[a, b].sort().join(":")] *)
Definition pair_key (a b : string) : string := if str_geb b a then a +:+ ":" +:+ b else b +:+ ":" +:+ a.

(** [hasConnection]: the newest connection of the pair. *)
Definition find_connection (cs : list Connection) (a b : string) : option Connection :=
  last (List.filter (λ c, bool_decide (pair_key (c_a c) (c_b c) = pair_key a b)) cs).

Section Connections.
Context (env : SigEnv).

Definition connection_error (stream : nat) (reason : string) : Task unit :=
  sendFrame env stream (ConnectionError reason None).

(** [queuePendingConnectionRequest]: whether nothing was dropped. *)
Definition queue_request (target : string) (q : QueuedRequest) : Task bool :=
  queue ← gets (λ n, default [] (jget (queuedRequests (desk n)) target));
  _ ← on_desk (λ d, with_queued d (jset (queuedRequests d) target (push_bounded PENDING_CONNECTION_REQUEST_BOUND queue q)));
  mret (length queue <? PENDING_CONNECTION_REQUEST_BOUND)%nat.

Definition queue_or_tell (stream : nat) (target : string) (q : QueuedRequest) : Task unit :=
  queued ← queue_request target q;
  if queued : bool then mret tt else connection_error stream "target_unavailable".

Definition delete_active (id : string) : Task unit := forget_write (DeleteActive id).

(** Up to the read of the sender's profile. *)
Definition processConnectionRequest (r stream : nat) (sender target : string) (package : bytes) : Task unit :=
  set_flow r (CSender stream sender target package).

Definition sender_known (r stream : nat) (sender target : string) (package : bytes) (profile : option Profile) : Task unit :=
  if requireRegistration env && negb (bool_decide (is_Some profile)) then connection_error stream "not_registered"
  else
    known ← gets (λ n, jhas (profiles (registry n)) target);
    if negb known then connection_error stream "target_not_found"
    else set_flow r (CExisting stream sender target package profile).

Definition relay_request (stream : nat) (sender target : string) (package : bytes) (profile : option Profile) : Task unit :=
  id ← randomBytes env 16;
  let id := hex id in
  registered ← match profile with Some p => mret (registered_at p) | None => now env end;
  let provisional := match profile with Some p => negb (active_status p) | None => true end in
  let inbound := ConnectionInbound sender id package registered provisional in
  target_stream ← stream_of target;
  match target_stream with
  | Some ts =>
      _ ← open_request env id (mkPendingRequest sender target package 1);
      try_catch (sendFrame env ts inbound) (λ _,
        _ ← on_desk (λ d, with_pending d (jdel (pendingConnectionRequests d) id));
        _ ← delete_active id;
        t ← now env;
        queue_or_tell stream target (mkQueued id sender inbound package t))
  | None =>
      t ← now env;
      queue_or_tell stream target (mkQueued id sender inbound package t)
  end.

(** [existing]: the id of the pair's connection, as it was read. *)
Definition existing_known (stream : nat) (sender target : string) (package : bytes) (profile : option Profile)
    (existing : option string) : Task unit :=
  match existing with
  | Some id => sendFrame env stream (ConnectionError "already_connected" (Some id))
  | None => relay_request stream sender target package profile
  end.

(** * Answers *)

Definition tell_stream (stream : option nat) (f : FrameOut) : Task unit :=
  match stream with Some s => try_send env s f | None => mret tt end.

Definition tell (agent : string) (f : FrameOut) : Task unit := stream ← stream_of agent; tell_stream stream f.

Definition processConnectionResponse (r : nat) (responder id : string) (verdict : Verdict) : Task unit :=
  pending ← gets (λ n, jget (pendingConnectionRequests (desk n)) id);
  match pending with
  | None => mret tt
  | Some p =>
      if negb (bool_decide (pr_target p = responder)) then mret tt
      else
        _ ← on_desk (λ d, with_pending d (jdel (pendingConnectionRequests d) id));
        _ ← delete_active id;
        sender_stream ← stream_of (pr_sender p);
        match verdict with
        | accept =>
            connection ← randomBytes env 16;
            set_flow r (CCreating id p sender_stream (hex connection))
        | reject reason => tell_stream sender_stream (ConnectionRejected (pr_target p) (default "rejected" reason))
        | insufficient unmet => tell_stream sender_stream (ConnectionInsufficient (pr_target p) unmet)
        | other_verdict => mret tt
        end
  end.

(** After [recordAcceptedConnectionRequest] and [createConnection], which wrote the row. *)
Definition connection_created (p : PendingRequest) (sender_stream : option nat) (connection : string) : Task unit :=
  t ← now env;
  _ ← on_desk (λ d, with_connections d (connections d ++ [mkConnection connection (pr_sender p) (pr_target p) t]));
  _ ← enqueueNotification (pr_sender p) (ConnectionEstablished (pr_target p) connection);
  _ ← tell_stream sender_stream (ConnectionEstablished (pr_target p) connection);
  tell (pr_target p) (ConnectionEstablished (pr_sender p) connection).

Definition processDisclosureRequest (requester id : string) (items : jsval) : Task unit :=
  pending ← gets (λ n, jget (pendingConnectionRequests (desk n)) id);
  match pending with
  | None => mret tt
  | Some p =>
      if negb (bool_decide (pr_target p = requester)) then mret tt
      else
        _ ← on_desk (λ d, with_pending d
              (jset (pendingConnectionRequests d) id (mkPendingRequest (pr_sender p) (pr_target p) (pr_package p) 2)));
        tell (pr_sender p) (DisclosureRequestInbound requester id items)
  end.

Definition processDisclosureResponse (sender id : string) (package : bytes) : Task unit :=
  pending ← gets (λ n, jget (pendingConnectionRequests (desk n)) id);
  match pending with
  | None => mret tt
  | Some p =>
      if negb (bool_decide (pr_sender p = sender)) then mret tt
      else tell (pr_target p) (DisclosureResponseInbound id package)
  end.

(** * active_connection_requests *)

Definition execute_write (m : jsmap string (PendingRequest * Z)) (w : ActiveWrite) : jsmap string (PendingRequest * Z) :=
  match w with SaveActive id p e => jset m id (p, e) | DeleteActive id => jdel m id end.

Definition write_lands (t : nat) : Task unit :=
  on_desk (λ d,
    match jget (activeWrites d) t with
    | Some w => with_active d (jdel (activeWrites d) t) (execute_write (activeRequests d) w)
    | None => d
    end).

(** [loadActiveConnectionRequests] and [restorePendingConnectionRequests]. *)
Definition restore_requests (at_ : Z) (m : jsmap string (PendingRequest * Z)) : jsmap string PendingRequest :=
  map (λ e, (e.1, e.2.1)) (List.filter (λ e, (at_ <? e.2.2)%Z) m).

End Connections.
End SignalConnections.
