(* ===== verification/SignalSessions.v ===== *)
(** Establishing a session (directory-node.ts: [#processSessionRequest], the offer frames of
    the stream loop, [buildAssignmentTbs], [ClientDelegatedSigner]). *)
From S2P Require Import Prelude Text JsMap Effects Bytes Wire FrostShares FrostHandler DkgTopology Signaling SignalStreams.
Import Text JsMap Effects Bytes Wire FrostHandler DkgTopology Signaling SignalStreams.

Module SignalSessions.

Definition with_offers_of (o : Offers) t a w r := mkOffers t a w r (pendingSessions o) (sessionParticipants o) (sessionGenesisAt o) (sessionHighStakes o).

Definition with_signers (g : Registry) s th de := mkRegistry (profiles g) (phoneIndex g) (agent_revocations g) (revocationsByAgentId g) (revokedPubkeys g) (pendingDkgComplete g) (pendingPreAuthData g) (pendingDkgCommitments g) s th de (primaryPubkeys g) (peerInfo g) (peerInfoAnnounced g).

Definition with_primaryPubkeys (g : Registry) v := mkRegistry (profiles g) (phoneIndex g) (agent_revocations g) (revocationsByAgentId g) (revokedPubkeys g) (pendingDkgComplete g) (pendingPreAuthData g) (pendingDkgCommitments g) (signers g) (thresholdSigners g) (delegatedSigners g) v (peerInfo g) (peerInfoAnnounced g).

(** [!!s] of an optional text, and a list that is not empty. *)
Definition known_peer (p : option string) : bool := bool_decide (is_Some (truthy p)).
Definition some_addrs (l : option (list string)) : bool := match l with Some (_ :: _) => true | _ => false end.

Definition no_endpoint : Endpoint := mkEndpoint EmptyString [].

Section Sessions.
Context (env : SigEnv).

Definition session_error (stream : nat) (reason : string) : Task unit := sendFrame env stream (SessionError reason).

(** * Signers *)

Definition new_signer (agent : string) (primary : bytes) : Task nat :=
  i ← gets (λ n, length (signers (registry n)));
  _ ← on_registry (λ g, with_signers g (signers g ++ [mkSigner agent primary []])
        (jset (thresholdSigners g) agent i) (jset (delegatedSigners g) agent i));
  mret i.

Definition set_pending_ceremonies (i : nat) (f : jsmap string nat → jsmap string nat) : Task unit :=
  on_registry (λ g, with_signers g (alter (λ s, mkSigner (sg_agent s) (sg_primary s) (f (sg_pending s))) i (signers g))
    (thresholdSigners g) (delegatedSigners g)).

(** [participateInCeremony] up to the wait for the client: whether the client was asked. *)
Definition ask_ceremony (r i : nat) (ceremonyId : string) (tbs : bytes) : Task bool :=
  s ← gets (λ n, signers (registry n) !! i);
  match s with
  | None => mret false
  | Some s =>
      stream ← stream_of (sg_agent s);
      match stream with
      | None => mret false
      | Some stream =>
          sent_ ← try_catch (_ ← sendFrame env stream (CeremonyRequest ceremonyId tbs); mret true) (λ _, mret false);
          if sent_ : bool then _ ← set_pending_ceremonies i (λ m, jset m ceremonyId r); mret true
          else mret false
      end
  end.

Definition resolve_ceremony (r : nat) (res : result CeremonyFailure bytes) : Task unit :=
  f ← gets (λ n, jget (flows n) r);
  match f with
  | Some (SCeremony su d cp b None) => set_flow r (SCeremony su d cp b (Some res))
  | _ => mret tt
  end.

(** [resolveFromClient] of the agent's delegated signer. *)
Definition ceremony_result (agent ceremonyId : string) (sig : option bytes) : Task unit :=
  i ← gets (λ n, jget (delegatedSigners (registry n)) agent);
  if bool_decide (ceremonyId = EmptyString) then mret tt
  else
    match i with
    | None => mret tt
    | Some i =>
        r ← gets (λ n, s ← signers (registry n) !! i; jget (sg_pending s) ceremonyId);
        match r with
        | None => mret tt
        | Some r =>
            _ ← set_pending_ceremonies i (λ m, jdel m ceremonyId);
            resolve_ceremony r (match sig with Some sig => Ok sig | None => Err CEREMONY_EXHAUSTED end)
        end
    end.

(** * The statement that is signed *)

Definition buildAssignmentTbs (sid pubA pubB genesis : bytes) (timestamp : Z) (initiatorPeer : option string)
    (initiatorAddrs : option (list string)) (counterparty : Endpoint) (mode : Mode) (highStakes : bool) (prior : string) : bytes :=
  match truthy initiatorPeer, initiatorAddrs with
  | Some p, Some ((_ :: _) as l) =>
      if known_peer (Some (peer_id counterparty)) && some_addrs (Some (addrs counterparty))
      then tbs_long env sid pubA pubB genesis timestamp (mkEndpoint p l) counterparty mode highStakes prior
      else tbs_short env sid pubA pubB genesis timestamp
  | _, _ => tbs_short env sid pubA pubB genesis timestamp
  end.

Definition genesis_of (initiator target : string) (sid : bytes) (timestamp : Z) : bytes :=
  computeGenesisPrevRoot env (hex_prefix initiator) (hex_prefix target) sid timestamp.

(** What the threshold key signs for a set-up session. *)
Definition setup_tbs (su : Setup) (d : Drawn) (cp : Endpoint) : bytes :=
  let a := su_ask su in
  buildAssignmentTbs (dr_id d) (hex_prefix (su_initiator su)) (hex_prefix (su_target su))
    (genesis_of (su_initiator su) (su_target su) (dr_id d) (dr_timestamp d)) (dr_timestamp d)
    (initiator_session_peer_id a) (initiator_session_addrs a) cp (default relayed (transport_mode a)) (high_stakes a) EmptyString.

(** * Up to the offer *)

(** A session id is drawn and the offer is made, if it is wanted. *)
Definition draw_session (r : nat) (su : Setup) (target_stream signer : nat) : Task unit :=
  sid ← randomBytes env 16;
  timestamp ← now env;
  infos ← gets (λ n, peerInfo (registry n));
  let info agent := default no_endpoint (jget infos agent) in
  let d := mkDrawn target_stream signer sid timestamp (info (su_initiator su)) (info (su_target su)) in
  let sidHex := hex sid in
  _ ← on_offers (λ o, with_offers_of o (jset (offerTargets o) sidHex (su_target su)) (offerAccepts o) (offerWaiters o) (rejectedOffers o));
  existing ← gets (λ n, jget (offerAccepts (offers n)) sidHex);
  match existing with
  | Some ep =>
      _ ← on_offers (λ o, with_offers_of o (jdel (offerTargets o) sidHex) (jdel (offerAccepts o) sidHex) (offerWaiters o)
                            (List.filter (λ x, negb (bool_decide (x = sidHex))) (rejectedOffers o)));
      set_flow r (SProfiles su d ep)
  | None =>
      stream ← stream_of (su_target su);
      match wants_session_offer (su_ask su), stream with
      | true, Some ts =>
          _ ← sendFrame env ts (SessionOffer sid (initiator_session_peer_id (su_ask su), initiator_session_addrs (su_ask su)));
          _ ← on_offers (λ o, with_offers_of o (offerTargets o) (offerAccepts o) (jset (offerWaiters o) sidHex r) (rejectedOffers o));
          set_flow r (SOffer su d true None)
      | _, _ =>
          _ ← on_offers (λ o, with_offers_of o (offerTargets o) (offerAccepts o) (jset (offerWaiters o) sidHex r) (rejectedOffers o));
          set_flow r (SOffer su d false None)
      end
  end.

(** The target is here: who signs for the initiator? *)
Definition find_signer (r : nat) (su : Setup) : Task unit :=
  ts ← stream_of (su_target su);
  match ts with
  | None => session_error (su_stream su) "target_offline"
  | Some ts =>
      signer ← gets (λ n, jget (thresholdSigners (registry n)) (su_initiator su));
      match signer with
      | Some i => draw_session r su ts i
      | None => set_flow r (SPrimary su ts)
      end
  end.

Definition processSessionRequest (r : nat) (su : Setup) : Task unit :=
  if requireConnectionGate env then
    match truthy (connection_id (su_ask su)) with
    | None => session_error (su_stream su) "connection_id_required"
    | Some _ => set_flow r (SConnection su)
    end
  else find_signer r su.

Definition connection_known (r : nat) (su : Setup) (found : option string) : Task unit :=
  match found with
  | Some id => if bool_decide (connection_id (su_ask su) = Some id) then find_signer r su else session_error (su_stream su) "no_connection"
  | None => session_error (su_stream su) "no_connection"
  end.

(** [#resolvePrimaryPubkey]: the cached key, or the one that was read. *)
Definition primary_known (r : nat) (su : Setup) (ts : nat) (read : option bytes) : Task unit :=
  cached ← gets (λ n, jget (primaryPubkeys (registry n)) (su_initiator su));
  match cached, read with
  | None, None => session_error (su_stream su) "frost_signer_not_configured"
  | Some primary, _ => i ← new_signer (su_initiator su) primary; draw_session r su ts i
  | None, Some primary =>
      _ ← on_registry (λ g, with_primaryPubkeys g (jset (primaryPubkeys g) (su_initiator su) primary));
      i ← new_signer (su_initiator su) primary; draw_session r su ts i
  end.

(** * The offer *)

(** The promise that the flow waits for; only the first answer counts. *)
Definition resolve_offer (r : nat) (b : bool) : Task unit :=
  f ← gets (λ n, jget (flows n) r);
  match f with
  | Some (SOffer su d offered None) => set_flow r (SOffer su d offered (Some b))
  | _ => mret tt
  end.

Definition settle_waiter (sidHex : string) (b : bool) : Task unit :=
  w ← gets (λ n, jget (offerWaiters (offers n)) sidHex);
  match w with
  | None => mret tt
  | Some r =>
      _ ← resolve_offer r b;
      on_offers (λ o, with_offers_of o (offerTargets o) (offerAccepts o) (jdel (offerWaiters o) sidHex) (rejectedOffers o))
  end.

Definition offer_accepted (agent : string) (sid : bytes) (ep : Endpoint) : Task unit :=
  if bool_decide (peer_id ep = EmptyString) || bool_decide (addrs ep = []) then mret tt
  else
    let sidHex := hex sid in
    expected ← gets (λ n, jget (offerTargets (offers n)) sidHex);
    if negb (bool_decide (expected = Some agent)) then mret tt
    else
      _ ← on_offers (λ o, with_offers_of o (offerTargets o) (jset (offerAccepts o) sidHex ep) (offerWaiters o) (rejectedOffers o));
      settle_waiter sidHex true.

Definition offer_rejected (agent : string) (sid : option bytes) : Task unit :=
  match sid with
  | None => mret tt
  | Some sid =>
      let sidHex := hex sid in
      expected ← gets (λ n, jget (offerTargets (offers n)) sidHex);
      if negb (bool_decide (expected = Some agent)) then mret tt
      else
        _ ← on_offers (λ o, with_offers_of o (offerTargets o) (offerAccepts o) (offerWaiters o) (set_add (rejectedOffers o) sidHex));
        settle_waiter sidHex false
  end.

(** The wait is over. *)
Definition offer_settled (r : nat) (su : Setup) (d : Drawn) (offered accepted : bool) : Task unit :=
  let sidHex := hex (dr_id d) in
  data ← gets (λ n, jget (offerAccepts (offers n)) sidHex);
  _ ← on_offers (λ o, with_offers_of o (offerTargets o) (offerAccepts o) (jdel (offerWaiters o) sidHex) (rejectedOffers o));
  if accepted && negb (bool_decide (is_Some data)) then throw "acceptData"
  else
    _ ← on_offers (λ o, with_offers_of o (jdel (offerTargets o) sidHex) (jdel (offerAccepts o) sidHex) (offerWaiters o)
                          (List.filter (λ x, negb (bool_decide (x = sidHex))) (rejectedOffers o)));
    if offered && negb accepted then session_error (su_stream su) "counterparty_did_not_accept"
    else set_flow r (SProfiles su d (if accepted then default no_endpoint data else no_endpoint)).

(** * The ceremony *)

Definition ceremony_id (sid : bytes) : string := "session-" +:+ hex sid.
Definition session_epoch (initiator : string) : string := initiator +:+ ":epoch:1".

Definition on_frost (f : Handler → Handler) : Task unit := modify (λ n, with_frost n (f (frost n))).

Definition mark_in_flight (initiator ceremony : string) : Task unit :=
  on_frost (λ h, (markInFlight initiator (session_epoch initiator) ceremony ceremony h).1).

Definition clear_in_flight (initiator : string) : Task unit :=
  on_frost (λ h, (clearInFlight initiator (session_epoch initiator) h).1).

(** [try { m } finally { clearInFlight }] where [m] does not wait again. *)
Definition finally_clear (su : Setup) (m : Task unit) : Task unit :=
  _ ← try_catch m (λ e, _ ← clear_in_flight (su_initiator su); throw e);
  clear_in_flight (su_initiator su).

Definition failure_reason (f : CeremonyFailure) : string :=
  match f with
  | CEREMONY_TIMEOUT => "ceremony_timeout"
  | CEREMONY_EXHAUSTED => "ceremony_exhausted"
  | DIRECTORY_BELOW_THRESHOLD => "directory_below_threshold"
  end.

Definition ceremony_failed (su : Setup) (f : CeremonyFailure) : Task unit :=
  finally_clear su (session_error (su_stream su) (failure_reason f)).

Definition profiles_known (r : nat) (su : Setup) (d : Drawn) (cp : Endpoint) (initiator target : option Profile) : Task unit :=
  let b := mkBindings (initiator ≫= key_binding) (target ≫= key_binding) (primary_pubkey <$> target) in
  let ceremony := ceremony_id (dr_id d) in
  conflict ← gets (λ n, checkConflict (frost n) (su_initiator su) (session_epoch (su_initiator su)) ceremony);
  if conflict : bool then session_error (su_stream su) "ceremony_conflict"
  else
    _ ← mark_in_flight (su_initiator su) ceremony;
    asked ← ask_ceremony r (dr_signer d) ceremony (setup_tbs su d cp);
    if asked : bool then set_flow r (SCeremony su d cp b None) else ceremony_failed su DIRECTORY_BELOW_THRESHOLD.

(** * The assignment *)

Definition of_hex (o : option string) : option bytes := hex_prefix <$> truthy o.

Definition build_assignment (su : Setup) (d : Drawn) (cp : Endpoint) (b : Bindings) (sig primary : bytes)
    (relay : Endpoint) (signals : option (list (string * bytes))) (relay_sig : option bytes) : Assignment :=
  let a := su_ask su in
  mkAssignment (dr_id d) (hex_prefix (su_initiator su)) (hex_prefix (su_target su)) (dr_info_a d) (dr_info_b d) relay (dr_timestamp d)
    sig primary (of_hex (bd_initiator b)) (of_hex (bd_primary b)) (of_hex (bd_target b))
    (initiator_session_peer_id a, initiator_session_addrs a) cp (default relayed (transport_mode a)) (high_stakes a)
    (a_moniker a) signals relay_sig.

Definition relay_statement (su : Setup) (d : Drawn) (cp : Endpoint) : bytes :=
  relay_tbs env (dr_id d) (hex_prefix (su_initiator su)) (hex_prefix (su_target su)) (dr_timestamp d)
    (match truthy (initiator_session_peer_id (su_ask su)), truthy (Some (peer_id cp)) with
     | Some a, Some b => Some (a, b) | _, _ => None end).

Definition sign_for_relay (su : Setup) (d : Drawn) (cp : Endpoint) : Task (option bytes) :=
  match default relayed (transport_mode (su_ask su)) with
  | direct => mret None
  | relayed =>
      t ← next_tick;
      match directory_sign env t (relay_statement su d cp) with
      | Some sig => mret (Some sig)
      | None => throw "sign"
      end
  end.

Definition record_session (su : Setup) (d : Drawn) : Task unit :=
  t ← now env;
  on_offers (λ o,
    let sidHex := hex (dr_id d) in
    mkOffers (offerTargets o) (offerAccepts o) (offerWaiters o) (rejectedOffers o)
      (jset (pendingSessions o) sidHex (mkPendingSession (dr_id d) (su_initiator su) (su_target su) false false false))
      (jset (sessionParticipants o) sidHex (su_initiator su, su_target su)) (jset (sessionGenesisAt o) sidHex t)
      (if high_stakes (su_ask su) then jset (sessionHighStakes o) sidHex true else sessionHighStakes o)).

(** The entry that delivery keeps is the one in the map, as long as it is there. *)
Definition mark_delivered (sid : bytes) (both : bool) : Task unit :=
  on_offers (λ o,
    match jget (pendingSessions o) (hex sid) with
    | Some p => with_pendingSessions o (jset (pendingSessions o) (hex sid)
                  (mkPendingSession (ps_id p) (ps_initiator p) (ps_target p) true (targetGot p || both) (fullyEstablished p || both)))
    | None => o
    end).

Definition deliver_assignment (su : Setup) (d : Drawn) (a : Assignment) : Task unit :=
  told ← try_catch (_ ← sendFrame env (su_stream su) (SessionAssigned a); mret true) (λ _, mret false);
  if negb told then mret tt
  else
    _ ← mark_delivered (dr_id d) false;
    told ← try_catch (_ ← sendFrame env (dr_target_stream d) (SessionAssigned a); mret true) (λ _, mret false);
    if told : bool then mark_delivered (dr_id d) true else mret tt.

Definition issue_assignment (su : Setup) (d : Drawn) (cp : Endpoint) (b : Bindings) (sig : bytes)
    (signals : option (list (string * bytes))) : Task unit :=
  primary ← gets (λ n, from_option sg_primary EmptyString (signers (registry n) !! dr_signer d));
  t ← next_tick;
  match pickRelay env t (relay_rtt (su_ask su)) with
  | None => session_error (su_stream su) "relay_unavailable"
  | Some relay =>
      relay_sig ← sign_for_relay su d cp;
      _ ← record_session su d;
      deliver_assignment su d
        (build_assignment su d cp b sig primary relay signals relay_sig)
  end.

Definition ceremony_done (r : nat) (su : Setup) (d : Drawn) (cp : Endpoint) (b : Bindings) (res : result CeremonyFailure bytes) : Task unit :=
  match res with
  | Err f => ceremony_failed su f
  | Ok sig =>
      match trust_signals (su_ask su) with
      | Some (_ :: _) => if has_pool env then set_flow r (SSignals su d cp b sig) else finally_clear su (issue_assignment su d cp b sig None)
      | _ => finally_clear su (issue_assignment su d cp b sig None)
      end
  end.

(** The presented signals that were read as active ([None]: the read failed). *)
Definition surviving_signals (presented : list (string * bytes)) (active : option (list string)) : option (list (string * bytes)) :=
  match active with
  | None => None
  | Some active =>
      match List.filter (λ s, bool_decide (s.1 ∈ active)) presented with [] => None | l => Some l end
  end.

Definition signals_known (su : Setup) (d : Drawn) (cp : Endpoint) (b : Bindings) (sig : bytes) (active : option (list string)) : Task unit :=
  finally_clear su (issue_assignment su d cp b sig (surviving_signals (default [] (trust_signals (su_ask su))) active)).

End Sessions.
End SignalSessions.
