(* ===== verification/SignalRegister.v ===== *)
(** Registration and revocation of an agent over its signaling stream
    (directory-node.ts: [#processRegisterRequest], [#processRevokeAgent], the
    [dkg_complete] frame). *)
From S2P Require Import Prelude Text JsMap Effects Bytes Wire FrostShares FrostHandler DkgTopology Signaling SignalStreams SignalSessions.
Import Text JsMap Effects Bytes Wire DkgTopology Signaling SignalStreams SignalSessions.

Module SignalRegister.

Definition with_profiles (g : Registry) p i := mkRegistry p i (agent_revocations g) (revocationsByAgentId g) (revokedPubkeys g) (pendingDkgComplete g) (pendingPreAuthData g) (pendingDkgCommitments g) (signers g) (thresholdSigners g) (delegatedSigners g) (primaryPubkeys g) (peerInfo g) (peerInfoAnnounced g).
Definition with_revocations (g : Registry) v i k := mkRegistry (profiles g) (phoneIndex g) v i k (pendingDkgComplete g) (pendingPreAuthData g) (pendingDkgCommitments g) (signers g) (thresholdSigners g) (delegatedSigners g) (primaryPubkeys g) (peerInfo g) (peerInfoAnnounced g).
Definition with_dkg (g : Registry) d p c := mkRegistry (profiles g) (phoneIndex g) (agent_revocations g) (revocationsByAgentId g) (revokedPubkeys g) d p c (signers g) (thresholdSigners g) (delegatedSigners g) (primaryPubkeys g) (peerInfo g) (peerInfoAnnounced g).
Definition with_peers (g : Registry) i a := mkRegistry (profiles g) (phoneIndex g) (agent_revocations g) (revocationsByAgentId g) (revokedPubkeys g) (pendingDkgComplete g) (pendingPreAuthData g) (pendingDkgCommitments g) (signers g) (thresholdSigners g) (delegatedSigners g) (primaryPubkeys g) i a.

(** [setProfile] *)
Definition setProfile (p : Profile) (g : Registry) : Registry :=
  with_profiles g (jset (profiles g) (p_k_local p) p) (jset (phoneIndex g) (phone_stub_hash p) (p_k_local p)).

(** [isAgentRevoked] *)
Definition isAgentRevoked (g : Registry) (agent : string) : bool := bool_decide (agent ∈ revokedPubkeys g).

(** The INSERT: the first row of an agent stays. *)
Definition store_revocation (row : RevocationRow) (g : Registry) : Registry :=
  if jhas (agent_revocations g) (ar_agent_id row) then g
  else with_revocations g (jset (agent_revocations g) (ar_agent_id row) row) (revocationsByAgentId g) (revokedPubkeys g).

(** The indexes in memory learn of a row; without a key nobody can be refused. *)
Definition index_revocation (k_local : string) (row : RevocationRow) (g : Registry) : Registry :=
  with_revocations g (agent_revocations g) (jset (revocationsByAgentId g) (ar_agent_id row) (k_local, row))
    (if bool_decide (k_local = EmptyString) then revokedPubkeys g else set_add (revokedPubkeys g) k_local).

(** [insertAgentRevocation], once the row is durable. *)
Definition insertAgentRevocation (k_local : string) (row : RevocationRow) (g : Registry) : Registry :=
  index_revocation k_local row (store_revocation row g).

(** A row of agent_revocations joined with the profiles of its agent. *)
Definition joined_keys (g : Registry) (row : RevocationRow) : list string :=
  match map p_k_local (List.filter (λ p, bool_decide (agent_id p = ar_agent_id row)) (jvals (profiles g))) with
  | [] => [EmptyString]
  | keys => keys
  end.

(** [#loadRevocations]: every stored row, its own and those of other nodes. *)
Definition loadRevocations (g : Registry) : Registry :=
  foldl (λ g' row, foldl (λ g' k, index_revocation k row g') g' (joined_keys g row)) g (jvals (agent_revocations g)).

(** [registerPeerInfo] *)
Definition registerPeerInfo (agent : string) (ep : Endpoint) (g : Registry) : Registry :=
  with_peers g (jset (peerInfo g) agent ep) (set_add (peerInfoAnnounced g) agent).

(** What the FROST stream leaves for the registration: the facts of a consumed token,
    and the group key of a finished round 3. *)
Definition pre_authorised (k phoneHash email : string) (g : Registry) : Registry :=
  with_dkg g (pendingDkgComplete g) (jset (pendingPreAuthData g) k (phoneHash, email)) (pendingDkgCommitments g).
Definition dkg_finished (k : string) (commitment : bytes) (g : Registry) : Registry :=
  with_dkg g (pendingDkgComplete g) (pendingPreAuthData g) (jset (pendingDkgCommitments g) k commitment).

Section Register.
Context (env : SigEnv).

Definition on_pre_auth (f : jsmap string (string * string) → jsmap string (string * string)) : Task unit :=
  on_registry (λ g, with_dkg g (pendingDkgComplete g) (f (pendingPreAuthData g)) (pendingDkgCommitments g)).
Definition on_waiters (f : jsmap string nat → jsmap string nat) : Task unit :=
  on_registry (λ g, with_dkg g (f (pendingDkgComplete g)) (pendingPreAuthData g) (pendingDkgCommitments g)).
Definition drop_commitment (k : string) : Task unit :=
  on_registry (λ g, with_dkg g (pendingDkgComplete g) (pendingPreAuthData g) (jdel (pendingDkgCommitments g) k)).

(** An early return of the handler. *)
Definition register_refused (stream : nat) (k reason : string) (existing : option Profile) : Task unit :=
  _ ← on_pre_auth (λ m, jdel m k);
  sendFrame env stream (RegisterError reason existing).

(** [getVerifiedManifest()?.nodes], as it is when it is read. *)
Definition read_manifest : Task (list ConsortiumNode) := t ← next_tick; mret (manifest_nodes env t).

(** Up to the wait for [dkg_complete]. *)
Definition processRegisterRequest (r stream : nat) (f : RegisterRequest) : Task unit :=
  let k := k_local_pubkey f in
  let refused := register_refused stream k in
  if bool_decide (phone_stub f = EmptyString) && negb (has_tokenValidator env) then refused "invalid_verification" None
  else
    existing ← gets (λ n, jget (profiles (registry n)) k);
    match existing with
    | Some p => refused "already_registered" (Some p)
    | None =>
        if forceDkgFailure env then refused "dkg_failed" None
        else
          nodes ← read_manifest;
          let topo := computeDkgTopology (validatorNodes env) nodes (reachable_node_ids f) in
          if topology_refused topo then refused "dkg_failed" None
          else
            _ ← sendFrame env stream (DkgReady (k +:+ ":epoch:1") (dkgParticipants topo) (dkgThreshold topo));
            _ ← on_waiters (λ m, jset m k r);
            set_flow r (RDkg stream f None)
    end.

(** The promise of the flow; only the first answer counts. *)
Definition resolve_dkg (r : nat) (answer : option (string * string)) : Task unit :=
  f ← gets (λ n, jget (flows n) r);
  match f with
  | Some (RDkg stream frame None) => set_flow r (RDkg stream frame (Some answer))
  | _ => mret tt
  end.

(** The frame [dkg_complete]. *)
Definition dkg_complete (agent primary binding : string) : Task unit :=
  w ← gets (λ n, jget (pendingDkgComplete (registry n)) agent);
  match w with
  | None => mret tt
  | Some r => _ ← on_waiters (λ m, jdel m agent); resolve_dkg r (Some (primary, binding))
  end.

(** The timer of a registration, cleared once it is answered. *)
Definition dkg_timeout (r : nat) : Task unit :=
  f ← gets (λ n, jget (flows n) r);
  match f with
  | Some (RDkg _ frame None) => _ ← on_waiters (λ m, jdel m (k_local_pubkey frame)); resolve_dkg r None
  | _ => mret tt
  end.

(** The key of the client against round 3's: whether the registration goes on. *)
Definition check_commitment (stream : nat) (k primary : string) : Task bool :=
  stored ← gets (λ n, jget (pendingDkgCommitments (registry n)) k);
  _ ← drop_commitment k;
  if match stored with Some c => negb (bool_decide (primary = hex c)) | None => false end
  then _ ← register_refused stream k "dkg_verification_failed" None; mret false
  else
    _ ← new_signer k (hex_prefix primary);
    _ ← on_registry (λ g, with_primaryPubkeys g (jset (primaryPubkeys g) k (hex_prefix primary)));
    mret true.

(** The profile is written; the online token is minted next. *)
Definition write_profile (r stream : nat) (f : RegisterRequest) (primary binding phoneHash agent : string) (account : option string) : Task unit :=
  t ← now env;
  _ ← on_registry (setProfile (mkProfile (k_local_pubkey f) primary (ml_dsa_pubkey f) phoneHash t true agent (Some binding) account));
  set_flow r (RToken stream primary agent).

(** The hash of the phone: the token's, or of the stub that the client sent. *)
Definition phone_hash (f : RegisterRequest) (pre : option (string * string)) : option string :=
  match pre with
  | Some (h, _) => Some h
  | None => if bool_decide (phone_stub f = EmptyString) then None else Some (hex (sha256 env (phone_stub f)))
  end.

Definition claim_phone (r stream : nat) (f : RegisterRequest) (primary binding : string) : Task unit :=
  let k := k_local_pubkey f in
  pre ← gets (λ n, jget (pendingPreAuthData (registry n)) k);
  match phone_hash f pre with
  | None => register_refused stream k "invalid_verification" None
  | Some h =>
      claimed ← gets (λ n, jhas (phoneIndex (registry n)) h);
      if claimed : bool then register_refused stream k "phone_already_claimed" None
      else
        id ← randomBytes env 16;
        _ ← on_pre_auth (λ m, jdel m k);
        match pre with
        | Some _ => set_flow r (RAccount stream f primary binding h (hex id))
        | None => write_profile r stream f primary binding h (hex id) None
        end
  end.

(** The wait for [dkg_complete] is over ([None]: it timed out). *)
Definition dkg_resumed (r stream : nat) (f : RegisterRequest) (answer : option (string * string)) : Task unit :=
  match answer with
  | None => register_refused stream (k_local_pubkey f) "dkg_failed" None
  | Some (primary, binding) =>
      ok ← try_catch (check_commitment stream (k_local_pubkey f) primary)
             (λ _, _ ← register_refused stream (k_local_pubkey f) "dkg_failed" None; mret false);
      if ok : bool then claim_phone r stream f primary binding else mret tt
  end.

Definition register_done (stream : nat) (primary agent : string) (token : option bytes) : Task unit :=
  try_send env stream (RegisterSuccess agent primary token).

(** * Revocation *)

Definition revocation_statement (rv : Revocation) (k_local : string) : bytes :=
  revocation_tbs env (rv_agent_id rv) k_local (default EmptyString (rv_epoch rv)) (default EmptyString (rv_reason rv)) (rv_at rv).

(** The signature that the frame carries is the agent's. *)
Definition revocation_signed (agent : string) (rv : Revocation) (k_local : string) : bool :=
  let sig := hex_prefix (rv_signature rv) in
  (String.length sig =? 64)%nat && verify env (hex_prefix agent) (revocation_statement rv k_local) sig.

Definition processRevokeAgent (r stream : nat) (agent : string) (rv : Revocation) : Task unit :=
  let error reason := sendFrame env stream (RevocationError reason (rv_agent_id rv)) in
  profile ← gets (λ n, jget (profiles (registry n)) agent);
  match profile with
  | None => error "unknown_agent"
  | Some p =>
      if negb (bool_decide (agent_id p = rv_agent_id rv)) then error "not_self_authorized"
      else if negb (revocation_signed agent rv (p_k_local p)) then error "signature_invalid"
      else
        known_ ← gets (λ n, jhas (revocationsByAgentId (registry n)) (rv_agent_id rv));
        if known_ : bool then sendFrame env stream (RevocationAck (rv_agent_id rv))
        else set_flow r (RRevoke stream rv (p_k_local p))
  end.

Definition row_of (rv : Revocation) : RevocationRow :=
  mkRevocationRow (rv_agent_id rv) (default EmptyString (rv_epoch rv)) (default EmptyString (rv_reason rv)) (hex_prefix (rv_signature rv)) (rv_at rv).

(** [durable]: the row was written, at the first attempt or at the second. *)
Definition revocation_stored (stream : nat) (rv : Revocation) (k_local : string) (durable : bool) : Task unit :=
  if durable then
    _ ← on_registry (insertAgentRevocation k_local (row_of rv));
    sendFrame env stream (RevocationAck (rv_agent_id rv))
  else sendFrame env stream (RevocationError "persist_failed" (rv_agent_id rv)).

End Register.
End SignalRegister.
