(* ===== verification/SignalNode.v ===== *)
(** The signaling loop of a directory: which handler a frame goes to, and what the node
    does with every input it can receive (directory-node.ts: [#handleSignalingStream]). *)
From S2P Require Import Prelude Text JsMap Effects Bytes Wire FrostShares FrostHandler DkgTopology Signaling SignalStreams SignalConnections SignalSessions SignalRegister.
Import Text JsMap Effects Bytes Wire DkgTopology Signaling SignalStreams SignalConnections SignalSessions SignalRegister.

Module SignalNode.

(** What a node could read and write when it started: the open requests, the sessions that
    are not sealed ([None]: not read), the presence rows that it writes offline. *)
Record Loaded := mkLoaded { ld_requests : bool; ld_sessions : option (list SessionRow); ld_reconciled : bool }.

Inductive Input :=
| Opened
| Received (s : nat) (f : Frame)
| Closed (s : nat)
(* answers that the loop of a stream waits for *)
| TokenKnown (s : nat) (token : option bytes) (absent : option string) (proof : option (option bytes))
| NotificationsDrained (s : nat) (ok : bool)
| RequestsDequeued (s : nat) (ok : bool)
| PauseKnown (s : nat) (suspended : option bool)
(* answers that a handler waits for *)
| Answered (r : nat)
| ReadFailed (r : nat)
| SignalsKnown (r : nat) (active : option (list string))
| AccountKnown (r : nat) (account : option string)
| TokenMinted (r : nat) (token : option bytes)
| RevocationInserted (r : nat)
| RevocationStored (r : nat) (durable : bool)
(* timers *)
| OfferTimeout (r : nat)
| CeremonyTimeout (r : nat)
| DkgTimeout (r : nat)
(* writes that nobody waits for *)
| WriteLands (t : nat)
| PresenceLands (i : nat)
| PresenceLost (i : nat)
(* what other parts of the node do, and anti-entropy *)
| SealDelivered (agent : string) (f : jsval) (kept : bool)
| PreAuthorised (k phoneHash email : string)
| DkgFinished (k : string) (commitment : bytes)
| ProfileReplicated (p : Profile)
| ConnectionReplicated (c : Connection)
| RevocationReplicated (row : RevocationRow)
| PresenceTaken (agent : string)
| Restarted (at_ : Z) (ld : Loaded).

Section Loop.
Context (env : SigEnv).

(** * Session requests *)

Definition refuse_session (s : nat) (reason : string) : Task unit :=
  _ ← set_wait s Idle; session_error env s reason.

(** Up to the read of the target's pause. *)
Definition session_request (s : nat) (agent : string) (ask : SessionAsk) : Task unit :=
  registered ← gets (λ n, jhas (profiles (registry n)) agent);
  announced ← gets (λ n, bool_decide (agent ∈ peerInfoAnnounced (registry n)));
  revoked_ ← gets (λ n, isAgentRevoked (registry n) (hex (target_pubkey ask)) || isAgentRevoked (registry n) agent);
  if requireRegistration env && negb registered then refuse_session s "not_registered"
  else if negb announced then refuse_session s "peer_not_registered"
  else if revoked_ : bool then refuse_session s "agent_revoked"
  else set_wait s (WaitTargetPause ask).

Definition missing_peer (ask : SessionAsk) : bool :=
  negb (known_peer (initiator_session_peer_id ask)) || negb (some_addrs (initiator_session_addrs ask)).

(** Neither party is paused. *)
Definition request_session (s : nat) (agent : string) (ask : SessionAsk) : Task unit :=
  if missing_peer ask then refuse_session s "session_request_missing_peer_id"
  else
    _ ← set_wait s Idle;
    r ← gets steps;
    detached (processSessionRequest env r (mkSetup s agent (hex (target_pubkey ask)) ask)).

Definition pause_known (s : nat) (agent : string) (w : Wait) (suspended : option bool) : Task unit :=
  match w, suspended with
  | (WaitTargetPause _ | WaitInitiatorPause _), None => throw "isAgentSuspended"
  | (WaitTargetPause _ | WaitInitiatorPause _), Some true => refuse_session s "agent_suspended"
  | WaitTargetPause ask, Some false => set_wait s (WaitInitiatorPause ask)
  | WaitInitiatorPause ask, Some false => request_session s agent ask
  | _, _ => mret tt
  end.

(** * Frames *)

Definition forward (recipient : string) (payload : jsval) : Task unit :=
  tell env recipient (Forwarded payload).

(** A frame of an authenticated agent. *)
Definition dispatch (s : nat) (agent : string) (f : Frame) : Task unit :=
  r ← gets steps;
  match f with
  | CeremonyResult ceremony sig => ceremony_result agent ceremony sig
  | Undecodable => sendFrame env s NotAuthenticated
  | PeerInfoAnnounce info => on_registry (registerPeerInfo agent info)
  | DkgComplete primary binding => dkg_complete agent primary binding
  | Register frame => detached (processRegisterRequest env r s frame)
  | RevokeAgent rv => detached (processRevokeAgent env r s agent rv)
  | SessionRequest ask => session_request s agent ask
  | SessionOfferAccept sid ep => offer_accepted agent sid ep
  | SessionOfferReject sid => offer_rejected agent sid
  | ConnectionRequest target package => processConnectionRequest r s agent target package
  | ConnectionResponse id verdict => detached (processConnectionResponse env r agent id verdict)
  | DisclosureRequest id items => detached (processDisclosureRequest env agent id items)
  | DisclosureResponse id package => detached (processDisclosureResponse env agent id package)
  | Ping ts => try_send env s (Pong ts)
  | SealInterrupted recipient payload => forward recipient payload
  | AuthResponse _ _ _ | OtherFrame => mret tt
  end.

(** The first frame of a stream. *)
Definition first_frame (s : nat) (c : Conn) (f : Frame) : Task unit :=
  match f with
  | AuthResponse pubkey signature visiting => authenticate env s c pubkey signature visiting
  | _ => refuse env s NotAuthenticated
  end.

(** A frame is read when the loop is not waiting. *)
Definition received (s : nat) (f : Frame) : Task unit :=
  c ← gets (λ n, jget (conns n) s);
  match c with
  | Some c =>
      match c_wait c, authedPubkeyHex c with
      | Idle, Some agent => dispatch s agent f
      | Idle, None => first_frame s c f
      | _, _ => mret tt
      end
  | None => mret tt
  end.

Definition closed (s : nat) : Task unit :=
  c ← gets (λ n, jget (conns n) s);
  match c_wait <$> c with Some Idle => finish env s | _ => mret tt end.

(** The loop of [s] goes on with an answer. *)
Definition resume (s : nat) (k : Conn → string → Task unit) : Task unit :=
  c ← gets (λ n, jget (conns n) s);
  match c with
  | Some c => match authedPubkeyHex c with Some agent => guarded env s (k c agent) | None => mret tt end
  | None => mret tt
  end.

Definition token_known (s : nat) (token : option bytes) (absent : option string) (proof : option (option bytes)) : Task unit :=
  resume s (λ c agent, match c_wait c with WaitToken => acknowledge env s c agent token absent proof | _ => mret tt end).

Definition notifications_drained (s : nat) (ok : bool) : Task unit :=
  resume s (λ c agent, match c_wait c with
    | WaitNotifications => if ok then drain_notifications env s agent else throw "drainNotifications"
    | _ => mret tt end).

Definition requests_dequeued (s : nat) (ok : bool) : Task unit :=
  resume s (λ c agent, match c_wait c with
    | WaitRequests => if ok then dequeue_requests env s agent else throw "dequeuePendingConnectionRequests"
    | _ => mret tt end).

(** * Handlers that go on *)

(** The flow [r] goes on. *)
Definition continue (r : nat) (k : Flow → Task unit) : Task unit :=
  f ← gets (λ n, jget (flows n) r);
  match f with
  | Some f => detached (k f)
  | None => mret tt
  end.

Definition profile_of (agent : string) : Task (option Profile) := gets (λ n, jget (profiles (registry n)) agent).

Definition connection_between (a b : string) : Task (option string) :=
  gets (λ n, c_id <$> find_connection (connections (desk n)) a b).

(** The promise that the flow waits for is settled, or its read is answered. *)
Definition answered (r : nat) (f : Flow) : Task unit :=
  match f with
  | SConnection su =>
      found ← connection_between (su_initiator su) (su_target su);
      _ ← drop_flow r; connection_known env r su found
  | SPrimary su ts =>
      p ← profile_of (su_initiator su);
      _ ← drop_flow r; primary_known env r su ts (hex_prefix <$> (p ← p; truthy (Some (primary_pubkey p))))
  | SOffer su d offered (Some b) => _ ← drop_flow r; offer_settled env r su d offered b
  | SProfiles su d cp =>
      a ← profile_of (su_initiator su);
      b ← profile_of (su_target su);
      _ ← drop_flow r; profiles_known env r su d cp a b
  | SCeremony su d cp b (Some res) => _ ← drop_flow r; ceremony_done env r su d cp b res
  | CSender s sender target package =>
      p ← profile_of sender;
      _ ← drop_flow r; sender_known env r s sender target package p
  | CExisting s sender target package p =>
      found ← connection_between sender target;
      _ ← drop_flow r; existing_known env s sender target package p found
  | CCreating id p s connection => _ ← drop_flow r; connection_created env p s connection
  | RDkg s frame (Some answer) => _ ← drop_flow r; dkg_resumed env r s frame answer
  | _ => mret tt
  end.

(** A read or a write that throws, where nothing catches it. *)
Definition read_failed (r : nat) (f : Flow) : Task unit :=
  match f with
  | SConnection _ | SPrimary _ _ | SProfiles _ _ _ | CSender _ _ _ _ | CExisting _ _ _ _ _ | CCreating _ _ _ _ => drop_flow r
  | _ => mret tt
  end.

Definition account_known (r : nat) (account : option string) (f : Flow) : Task unit :=
  match f with
  | RAccount s frame primary binding h agent => _ ← drop_flow r; write_profile env r s frame primary binding h agent account
  | _ => mret tt
  end.

Definition token_minted (r : nat) (token : option bytes) (f : Flow) : Task unit :=
  match f with RToken s primary agent => _ ← drop_flow r; register_done env s primary agent token | _ => mret tt end.

(** The INSERT of the flow is done, at the first attempt or at the second; the answer may
    be lost. *)
Definition revocation_inserted (f : Flow) : Task unit :=
  match f with RRevoke _ rv _ => on_registry (store_revocation (row_of rv)) | _ => mret tt end.

Definition revocation_answered (r : nat) (durable : bool) (f : Flow) : Task unit :=
  match f with RRevoke s rv k => _ ← drop_flow r; revocation_stored env s rv k durable | _ => mret tt end.

Definition signals_answered (r : nat) (active : option (list string)) (f : Flow) : Task unit :=
  match f with SSignals su d cp b sig => _ ← drop_flow r; signals_known env su d cp b sig active | _ => mret tt end.

(** * Timers *)

Definition offer_timeout (r : nat) : Task unit := resolve_offer r false.

Definition ceremony_timeout (r : nat) : Task unit :=
  f ← gets (λ n, jget (flows n) r);
  match f with
  | Some (SCeremony su d cp b None) =>
      _ ← set_pending_ceremonies (dr_signer d) (λ m, jdel m (ceremony_id (dr_id d)));
      resolve_ceremony r (Err CEREMONY_TIMEOUT)
  | _ => mret tt
  end.

(** * Restart *)

Definition restoreSessionParticipants (rows : list SessionRow) (o : Offers) : Offers :=
  foldl (λ o x, mkOffers (offerTargets o) (offerAccepts o) (offerWaiters o) (rejectedOffers o) (pendingSessions o)
    (jset (sessionParticipants o) (sr_id x) (sr_initiator x, sr_target x)) (sessionGenesisAt o)
    (if sr_high_stakes x then jset (sessionHighStakes o) (sr_id x) true else sessionHighStakes o)) o rows.

Definition restoreSessionGenesis (rows : list SessionRow) (o : Offers) : Offers :=
  foldl (λ o x, mkOffers (offerTargets o) (offerAccepts o) (offerWaiters o) (rejectedOffers o) (pendingSessions o)
    (sessionParticipants o) (jset (sessionGenesisAt o) (sr_id x) (sr_genesis x)) (sessionHighStakes o)) o rows.

(** What is kept is what a store keeps: profiles, stored revocations, connections, the
    queues and the open requests, which are read back, as are the participants of sessions.
    The indexes of the revocations are made from all the rows that are stored.  Presence
    writes on the way may still land; the rows that are online are written offline. *)
Definition restart (at_ : Z) (ld : Loaded) (n : Node) : Node :=
  let d := desk n in
  let g := registry n in
  let rows := default [] (ld_sessions ld) in
  mkNode (tick n) (steps n) (FrostHandler.with_inFlight (frost n) []) [] []
    (mkTable [] [] [] [] (presencePending (table n))
      (if has_pool env && ld_reconciled ld then reconcileNodeOffline (presenceRows (table n)) else presenceRows (table n)))
    (mkDesk (if ld_requests ld then restore_requests at_ (activeRequests d) else []) (queuedRequests d) (connections d) (notifications d) [] (activeRequests d))
    (restoreSessionGenesis rows (restoreSessionParticipants rows empty_offers))
    (loadRevocations (mkRegistry (profiles g) (phoneIndex g) (agent_revocations g) [] [] [] [] [] [] [] [] [] [] [])) [] (sent n).

(** * One input *)

Definition handle (i : Input) : Task unit :=
  match i with
  | Opened => s ← gets steps; open_stream env s
  | Received s f => guarded env s (received s f)
  | Closed s => closed s
  | TokenKnown s token absent proof => token_known s token absent proof
  | NotificationsDrained s ok => notifications_drained s ok
  | RequestsDequeued s ok => requests_dequeued s ok
  | PauseKnown s suspended => resume s (λ c agent, pause_known s agent (c_wait c) suspended)
  | Answered r => continue r (answered r)
  | ReadFailed r => continue r (read_failed r)
  | SignalsKnown r active => continue r (signals_answered r active)
  | AccountKnown r account => continue r (account_known r account)
  | TokenMinted r token => continue r (token_minted r token)
  | RevocationInserted r => continue r revocation_inserted
  | RevocationStored r durable => continue r (revocation_answered r durable)
  | OfferTimeout r => offer_timeout r
  | CeremonyTimeout r => ceremony_timeout r
  | DkgTimeout r => dkg_timeout r
  | WriteLands t => write_lands t
  | PresenceLands i => on_table (presence_lands i)
  | PresenceLost i => on_table (presence_lost i)
  | SealDelivered agent f kept => deliver env agent f kept
  | PreAuthorised k h e => on_registry (pre_authorised k h e)
  | DkgFinished k c => on_registry (dkg_finished k c)
  | ProfileReplicated p => on_registry (setProfile p)
  | ConnectionReplicated c => on_desk (λ d, with_connections d (connections d ++ [c]))
  | RevocationReplicated row => on_registry (store_revocation row)
  | PresenceTaken agent => on_table (presence_taken agent)
  | Restarted at_ ld => modify (restart at_ ld)
  end.

(** The number of a step names the stream that it opens, or the flow that it starts. *)
Definition step (n : Node) (i : Input) : Node := with_steps (handle i n).1 (S (steps n)).

Definition run (inputs : list Input) : Node := foldl step initial inputs.

End Loop.
End SignalNode.
