(* ===== verification/SignalInvariant.v ===== *)
(** The table of streams against what it is a table of: the open authenticated streams of
    each agent, the one that frames go to, and the presence that is written. *)
From S2P Require Import Prelude Text JsMap Bytes Effects Wire FrostShares FrostHandler FrostInvariant DkgTopology Signaling SignalStreams SignalConnections SignalSessions SignalRegister SignalNode.
Import JsMap Effects DkgTopology Signaling SignalStreams.

Module SignalTable.

Lemma set_add_elem s x y : y ∈ set_add s x ↔ y ∈ s ∨ y = x.
Proof. unfold set_add. case_bool_decide; [naive_solver|]. rewrite elem_of_app, list_elem_of_singleton. naive_solver. Qed.

(** * The open streams of an agent *)

Lemma remove_entry_elem s l e : NoDup l.*1 → e ∈ remove_entry s l ↔ e ∈ l ∧ e.1 ≠ s.
Proof.
  induction l as [|[x v] l IH]; cbn [remove_entry fmap list_fmap fst]; [intros _; rewrite elem_of_nil; naive_solver|].
  intros [Hx Hl]%list.NoDup_cons. destruct (Nat.eqb_spec x s) as [->|Hne].
  - rewrite elem_of_cons. split.
    + intros He. split; [by right|]. intros <-. by apply Hx, list_elem_of_fmap_2.
    + intros [[->|He] Hs]; [by cbn in Hs|done].
  - rewrite !elem_of_cons, IH by done. split; [intros [->|[? ?]]|intros [[->|?] ?]]; naive_solver.
Qed.

Lemma remove_entry_sublist s l : remove_entry s l `sublist_of` l.
Proof. induction l as [|e l IH]; cbn; [done|]. destruct (_ =? _)%nat; by constructor. Qed.

Lemma remove_entry_nodup s l : NoDup l.*1 → NoDup (remove_entry s l).*1.
Proof. intros H. eapply sublist_NoDup; [exact H|]. apply fmap_sublist, remove_entry_sublist. Qed.

Lemma remove_absent s l : s ∉ l.*1 → remove_entry s l = l.
Proof.
  induction l as [|e l IH]; cbn; [done|]. rewrite not_elem_of_cons. intros [Hne Hn].
  destruct (Nat.eqb_spec e.1 s); [congruence|]. by rewrite IH.
Qed.

Lemma remove_filter (p : nat * bool → bool) s l :
  NoDup l.*1 → List.filter p (remove_entry s l) = remove_entry s (List.filter p l).
Proof.
  induction l as [|[x v] l IH]; cbn; [done|]. intros [Hx Hl]%list.NoDup_cons.
  destruct (Nat.eqb_spec x s) as [->|Hne].
  - destruct (p (s, v)); cbn; [by rewrite Nat.eqb_refl|]. symmetry. apply remove_absent. intros Hs. apply Hx.
    apply list_elem_of_fmap in Hs as (e & -> & [He _]%filter_elem). by apply list_elem_of_fmap_2.
  - cbn. destruct (p (x, v)); cbn; [|by apply IH]. destruct (Nat.eqb_spec x s); [done|]. by rewrite IH.
Qed.

(** Removing an entry that is not the last one keeps the last one. *)
Lemma last_remove s l e : last l = Some e → e.1 ≠ s → last (remove_entry s l) = Some e.
Proof.
  induction l as [|x l IH]; [done|]. intros Hl Hs. destruct l as [|y l].
  - injection Hl as ->. cbn. by destruct (Nat.eqb_spec e.1 s).
  - specialize (IH Hl Hs). remember (y :: l) as l'. cbn. destruct (x.1 =? s)%nat; [by subst|].
    by destruct (remove_entry s l').
Qed.

Lemma survivor_elem l e : survivor_of l = Some e → e ∈ l.
Proof.
  unfold survivor_of. destruct (last (List.filter _ l)) as [e'|] eqn:E; [intros [= ->]|].
  - apply last_Some_elem_of, filter_elem in E. apply E.
  - apply last_Some_elem_of.
Qed.

Lemma survivor_some l : l ≠ [] → is_Some (survivor_of l).
Proof.
  intros Hl. unfold survivor_of. destruct (last (List.filter _ l)); [done|].
  destruct (last l) eqn:E; [done|]. by apply last_None in E.
Qed.

Lemma survivor_none l : survivor_of l = None → l = [].
Proof. destruct l as [|e l]; [done|]. intros E. by destruct (survivor_some (e :: l)) as [? ?]; [|congruence]. Qed.

(** A home stream is preferred. *)
Lemma survivor_home l s : (s, false) ∈ l → ∃ s', survivor_of l = Some (s', false) ∧ (s', false) ∈ l.
Proof.
  intros H. unfold survivor_of. destruct (last (List.filter (λ e, negb e.2) l)) as [[s' v]|] eqn:E.
  - apply last_Some_elem_of, filter_elem in E as [Hin Hv]. destruct v; [done|]. by exists s'.
  - apply last_None in E. assert ((s, false) ∈ List.filter (λ e : nat * bool, negb e.2) l) as Hf by by apply filter_elem.
    rewrite E in Hf. by apply not_elem_of_nil in Hf.
Qed.

Lemma survivor_remove s l e :
  NoDup l.*1 → survivor_of l = Some e → e.1 ≠ s → survivor_of (remove_entry s l) = Some e.
Proof.
  intros Hd. unfold survivor_of. rewrite remove_filter by done.
  destruct (last (List.filter _ l)) as [e'|] eqn:E.
  - intros [= ->] Hs. by rewrite (last_remove _ _ _ E Hs).
  - apply last_None in E. rewrite E. cbn. apply last_remove.
Qed.

Lemma survivor_app s v l :
  s ∉ l.*1 →
  survivor_of (l ++ [(s, v)]) = if negb v || negb (homeStreamLive s l) then Some (s, v) else survivor_of l.
Proof.
  intros Hs. unfold survivor_of, homeStreamLive. rewrite List.filter_app. cbn [List.filter snd]. destruct v; cbn [negb orb].
  - rewrite app_nil_r. destruct (last (List.filter (λ e, negb e.2) l)) as [[s' v']|] eqn:E.
    + apply last_Some_elem_of, filter_elem in E as [Hin Hv].
      replace (existsb _ l) with true; [done|]. symmetry. apply existsb_exists. exists (s', v').
      split; [by apply list_elem_of_In|]. apply andb_true_intro. split; [exact Hv|]. cbn.
      destruct (Nat.eqb_spec s' s) as [->|]; [|done]. destruct Hs. apply list_elem_of_fmap. by exists (s, v').
    + rewrite last_snoc. replace (existsb _ l) with false; [done|]. symmetry. apply not_true_iff_false.
      rewrite existsb_exists. intros (e & He & [Hv _]%andb_prop). apply last_None in E.
      assert (e ∈ List.filter (λ e : nat * bool, negb e.2) l) as Hf by (apply filter_elem; by rewrite list_elem_of_In).
      rewrite E in Hf. by apply not_elem_of_nil in Hf.
  - by rewrite last_snoc.
Qed.

(** * The table *)

Lemma to_set_nodup l : NoDup (to_set l) ∧ ∀ x, x ∈ to_set l ↔ x ∈ l.
Proof.
  unfold to_set. assert (∀ acc, NoDup acc → NoDup (foldl set_add acc l) ∧ ∀ x, x ∈ foldl set_add acc l ↔ x ∈ acc ∨ x ∈ l) as H.
  { induction l as [|y l IH]; intros acc Ha; cbn; [split; [done|set_solver]|].
    destruct (IH (set_add acc y)) as [H1 H2].
    - unfold set_add. case_bool_decide; [done|]. apply list.NoDup_app. split; [done|]. split; [set_solver|apply NoDup_singleton].
    - split; [done|]. intros x. rewrite H2, set_add_elem. set_solver. }
  destruct (H []) as [H1 H2]; [constructor|]. split; [done|]. intros x. rewrite H2. set_solver.
Qed.

(** Once reconciled, no row is online. *)
Lemma reconcile_offline rows agent : jget (reconcileNodeOffline rows) agent ≠ Some true.
Proof. intros H%jget_elem. by apply list_elem_of_fmap in H as ([? ?] & [=] & _). Qed.

Lemma written_snoc l a b agent : written (l ++ [(a, b)]) agent = if bool_decide (a = agent) then Some b else written l agent.
Proof.
  unfold written. rewrite List.filter_app. cbn. case_bool_decide; cbn; [by rewrite last_snoc|by rewrite app_nil_r].
Qed.

(** ** Writes on the way *)

Definition for_agent (agent : string) (l : list (string * bool)) : list (string * bool) :=
  List.filter (λ w, bool_decide (w.1 = agent)) l.

(** What the row of the agent will be when the writes on the way have landed in order. *)
Definition settled (t : Table) (agent : string) : option bool :=
  foldl apply_presence (jget (presenceRows t) agent) (for_agent agent (presencePending t)).*2.

(** ... which is what was written last. *)
Definition rows_ok (t : Table) (agent : string) : Prop := settled t agent = Some true ↔ written (presence t) agent = Some true.

Lemma for_agent_app agent l l' : for_agent agent (l ++ l') = for_agent agent l ++ for_agent agent l'.
Proof. apply List.filter_app. Qed.

Lemma jdel_other (m : jsmap string bool) k k' : k ≠ k' → jget (jdel m k) k' = jget m k'.
Proof.
  intros Hk. induction m as [|[q w] m IH]; cbn; [done|]. destruct (decide (q = k)) as [->|]; cbn; [by rewrite decide_False|by rewrite IH].
Qed.

Lemma upsert_other w rows agent : w.1 ≠ agent → jget (upsert_presence w rows) agent = jget rows agent.
Proof. intros H. unfold upsert_presence. destruct (apply_presence _ _); [|done]. by rewrite jget_jset_ne. Qed.

Lemma upsert_same w rows : jget (upsert_presence w rows) w.1 = apply_presence (jget rows w.1) w.2.
Proof.
  unfold upsert_presence. destruct (apply_presence (jget rows w.1) w.2) eqn:E; [by rewrite jget_jset_eq|].
  destruct w as [a []]; [done|]. unfold apply_presence in E. cbn in *. by destruct (jget rows a).
Qed.

(** The write [i] leaves those of another agent as they are, ... *)
Lemma delete_other i l agent w : l !! i = Some w → w.1 ≠ agent → for_agent agent (base.delete i l) = for_agent agent l.
Proof.
  intros Hi Hw. rewrite <- (take_drop_middle l i w Hi) at 2. rewrite delete_take_drop, !for_agent_app. f_equal.
  cbn. by rewrite bool_decide_eq_false_2.
Qed.

(** ... and is the first of those of its agent if none is before it. *)
Lemma delete_first i l w : l !! i = Some w → (∀ v, v ∈ take i l → v.1 ≠ w.1) →
  for_agent w.1 l = w :: for_agent w.1 (base.delete i l).
Proof.
  intros Hi Hv. assert (for_agent w.1 (take i l) = []) as Hno.
  { unfold for_agent. destruct (List.filter _ (take i l)) as [|v vs] eqn:E; [done|]. exfalso.
    assert (v ∈ List.filter (λ v : string * bool, bool_decide (v.1 = w.1)) (take i l)) as [H1 H2%bool_decide_eq_true]%filter_elem by (rewrite E; left).
    by apply (Hv v). }
  rewrite <- (take_drop_middle l i w Hi) at 1. rewrite delete_take_drop, !for_agent_app, Hno. cbn.
  by rewrite bool_decide_eq_true_2.
Qed.

Lemma settled_issued env online agent a t s l h :
  let t' := mkTable s l h (recordPresence env online a (presence t)) (recordPresence env online a (presencePending t)) (presenceRows t) in
  rows_ok t agent → rows_ok t' agent.
Proof.
  unfold rows_ok, settled, recordPresence. destruct (has_pool env); [|done]. cbn [presence presencePending presenceRows]. intros H.
  rewrite written_snoc, for_agent_app, fmap_app, foldl_app. cbn. case_bool_decide; [|exact H].
  cbn. unfold apply_presence. destruct online; [done|]. by destruct (foldl _ _ _).
Qed.

(** [m]: the open streams; [k]: the streams there have been. *)
Record table_ok (k : nat) (t : Table) (m : jsmap nat Conn) : Prop := {
  tk_wf : jwf (agentStreams t) ∧ jwf (streams t) ∧ jwf m;
  tk_live : ∀ agent s v, (s, v) ∈ live_of t agent ↔
    ∃ c, jget m s = Some c ∧ authedPubkeyHex c = Some agent ∧ is_visiting c = v;
  tk_nodup : ∀ agent, NoDup (live_of t agent).*1;
  tk_stream : ∀ agent s, jget (streams t) agent = Some s → s ∈ (live_of t agent).*1;
  tk_fresh : ∀ s c, jget m s = Some c → s < k }.

(** Frames go to the newest home stream, or to the newest one. *)
Definition delivery_ok (t : Table) : Prop :=
  ∀ agent, jget (streams t) agent = fst <$> survivor_of (live_of t agent).

(** The agents that are online are those that had a home stream since they were last away. *)
Definition presence_ok (t : Table) : Prop :=
  (∀ agent, written (presence t) agent = Some true ↔ agent ∈ agentHomeSeen t) ∧
  (∀ agent, agent ∈ agentHomeSeen t → live_of t agent ≠ []) ∧
  (∀ agent s, (s, false) ∈ live_of t agent → agent ∈ agentHomeSeen t).

Definition known (c : option Conn) : option (option string * bool) := (λ c, (authedPubkeyHex c, is_visiting c)) <$> c.

(** Only who a stream belongs to counts. *)
Lemma table_ok_conns k t m m' :
  table_ok k t m → jwf m' → (∀ s, known (jget m' s) = known (jget m s)) → table_ok k t m'.
Proof.
  intros [[? [? ?]] Hl ? ? Hf] Hm' Hk. unfold known in Hk. split; try done.
  - intros agent s v. rewrite Hl. specialize (Hk s). split; intros (c & Hc & <- & <-); rewrite Hc in Hk.
    + destruct (jget m' s) as [c'|]; [|done]. injection Hk as Ha Hv. by exists c'.
    + destruct (jget m s) as [c'|]; [|done]. injection Hk as Ha Hv. by exists c'.
  - intros s c Hc. specialize (Hk s). rewrite Hc in Hk. destruct (jget m s) as [c'|] eqn:E; [|done]. by eapply Hf.
Qed.

Lemma table_ok_weaken k k' t m : table_ok k t m → k <= k' → table_ok k' t m.
Proof. intros [? ? ? ? Hf] Hk. split; try done. intros s c Hc. specialize (Hf s c Hc). lia. Qed.

Section Table.
Context (env : SigEnv).

Lemma live_register s agent v t a :
  live_of (register_stream env s agent v t) a = if bool_decide (agent = a) then live_of t agent ++ [(s, v)] else live_of t a.
Proof. unfold live_of, register_stream. cbn. rewrite jget_jset. case_bool_decide; by case_decide. Qed.

Lemma live_unregister s agent v t a : jwf (agentStreams t) →
  live_of (unregister_stream env s agent v t) a = if bool_decide (agent = a) then remove_entry s (live_of t agent) else live_of t a.
Proof.
  intros Hw. unfold unregister_stream. destruct (survivor_of (remove_entry s (live_of t agent))) as [e|] eqn:E; unfold live_of at 1; cbn.
  - rewrite jget_jset. case_bool_decide; by case_decide.
  - rewrite jget_jdel by done. case_bool_decide as Ha; case_decide; try done. cbn.
    apply survivor_none in E. by rewrite E.
Qed.

(** ** A stream is admitted *)

Lemma register_ok k t m s c c' agent v :
  table_ok k t m → jget m s = Some c → authedPubkeyHex c = None → authedPubkeyHex c' = Some agent → is_visiting c' = v →
  table_ok k (register_stream env s agent v t) (jset m s c').
Proof.
  intros [[? [? ?]] Hl Hd Hst Hf] Hs Hc Ha Hv.
  assert (∀ a w, (s, w) ∉ live_of t a) as Hno by (intros a w (c0 & ? & ? & ?)%Hl; congruence). split.
  - unfold register_stream. cbn. repeat split; [by apply jwf_jset| |by apply jwf_jset]. case_match; [by apply jwf_jset|done].
  - intros a s' v'. rewrite live_register, jget_jset. case_bool_decide as Ea.
    + subst a. rewrite elem_of_app, list_elem_of_singleton, Hl. destruct (decide (s = s')) as [<-|Hne].
      * split; [intros [(?&?&?&?)|[= ->]]; [congruence|eauto]|]. intros (? & [= <-] & ? & <-). right. congruence.
      * split; [intros [?|[= -> ->]]; [done|congruence]|by left].
    + rewrite Hl. destruct (decide (s = s')) as [<-|]; [|done].
      split; intros (c0 & ? & ? & ?); simplify_eq; congruence.
  - intros a. rewrite live_register. case_bool_decide; [|done]. rewrite fmap_app. apply list.NoDup_app.
    split; [done|]. split; [|apply NoDup_singleton]. intros x Hx ->%list_elem_of_singleton. cbn in *.
    apply list_elem_of_fmap in Hx as ([x w] & -> & Hx). by eapply Hno.
  - intros a s'. rewrite live_register. unfold register_stream. cbn. intros Hs'.
    assert (jget (streams t) a = Some s' ∨ agent = a ∧ s' = s) as [Hold|[-> ->]].
    { revert Hs'. destruct (_ || _); [|by left]. rewrite jget_jset. case_decide; [intros [= ->]; by right|by left]. }
    + apply Hst in Hold. case_bool_decide; [|done]. subst. rewrite fmap_app. set_solver.
    + rewrite bool_decide_eq_true_2, fmap_app by done. set_solver.
  - intros s' c0. rewrite jget_jset. case_decide; [subst; intros _; by eapply Hf|by apply Hf].
Qed.

Lemma register_delivery k t m s c agent v :
  table_ok k t m → jget m s = Some c → authedPubkeyHex c = None → delivery_ok t → delivery_ok (register_stream env s agent v t).
Proof.
  intros Ht Hs Hc Hd a. rewrite live_register.
  assert (s ∉ (live_of t agent).*1) as Hno.
  { intros ([x w] & E & Hx)%list_elem_of_fmap. cbn in E. subst x. apply (tk_live _ _ _ Ht) in Hx as (? & ? & ? & ?). congruence. }
  case_bool_decide as Ea.
  - subst a. rewrite survivor_app by done. unfold register_stream. cbn. destruct (_ || _); [by rewrite jget_jset_eq|]. apply Hd.
  - unfold register_stream. cbn. destruct (_ || _); [rewrite jget_jset_ne by done|]; apply Hd.
Qed.

Lemma register_presence t s agent v :
  has_pool env = true → presence_ok t → presence_ok (register_stream env s agent v t).
Proof.
  intros Hp (Hw & Hl & Hs). split; [|split].
  - intros a. unfold register_stream, recordPresence. cbn [presence agentHomeSeen]. rewrite Hp. destruct v; [apply Hw|].
    rewrite written_snoc, set_add_elem. case_bool_decide; [naive_solver|]. rewrite Hw. naive_solver.
  - intros a Ha. rewrite live_register. case_bool_decide as E; [by destruct (live_of t agent)|].
    apply Hl. revert Ha. unfold register_stream. cbn. destruct v; [done|]. rewrite set_add_elem. naive_solver.
  - intros a s' Hs'. rewrite live_register in Hs'. unfold register_stream. cbn. revert Hs'. case_bool_decide as E.
    + subst a. rewrite elem_of_app, list_elem_of_singleton. intros [?%Hs|[= -> <-]]; [|by apply set_add_elem; right].
      destruct v; [done|]. by apply set_add_elem; left.
    + intros ?%Hs. destruct v; [done|]. by apply set_add_elem; left.
Qed.

(** ** A stream is closed *)

Lemma unregister_ok k t m s c agent v :
  table_ok k t m → jget m s = Some c → authedPubkeyHex c = Some agent → is_visiting c = v →
  table_ok k (unregister_stream env s agent v t) (jdel m s).
Proof.
  intros [[? [? ?]] Hl Hd Hst Hf] Hs Hc Hv. split.
  - unfold unregister_stream. destruct (survivor_of _); cbn; (split; [by eauto using jwf_jset, jwf_jdel|split; [|by apply jwf_jdel]]);
      case_bool_decide; eauto using jwf_jset, jwf_jdel.
  - intros a s' v'. rewrite live_unregister, jget_jdel by done. case_bool_decide as Ea.
    + subst a. rewrite remove_entry_elem, Hl by done. cbn. case_decide; naive_solver.
    + rewrite Hl. case_decide; [|done]. subst s'. split; [|naive_solver]. intros (c0 & ? & ? & ?). simplify_eq; congruence.
  - intros a. rewrite live_unregister by done. case_bool_decide; [|done]. by apply remove_entry_nodup.
  - intros a s' Hs'. rewrite live_unregister by done.
    assert (Hin : ∀ x, x ≠ s → x ∈ (live_of t agent).*1 → x ∈ (remove_entry s (live_of t agent)).*1).
    { intros x Hx ([y w] & -> & Hy)%list_elem_of_fmap. apply list_elem_of_fmap. exists (y, w). split; [done|].
      by apply remove_entry_elem. }
    revert Hs'. unfold unregister_stream. destruct (survivor_of (remove_entry s (live_of t agent))) as [e|] eqn:E; cbn.
    + case_bool_decide as Ec; [rewrite jget_jset; case_decide as Ea|].
      * intros [= <-]. subst a. rewrite bool_decide_eq_true_2 by done.
        apply list_elem_of_fmap_2. by apply survivor_elem.
      * intros ?%Hst. by rewrite bool_decide_eq_false_2.
      * intros Hs'. case_bool_decide; [|by apply Hst]. subst a. apply Hin; [congruence|by apply Hst].
    + case_bool_decide as Ec; [rewrite jget_jdel by done; case_decide as Ea; [done|]|].
      * intros ?%Hst. by rewrite bool_decide_eq_false_2.
      * intros Hs'. case_bool_decide; [|by apply Hst]. subst a. apply Hin; [congruence|by apply Hst].
  - intros s' c0. rewrite jget_jdel by done. case_decide; [done|by apply Hf].
Qed.

(** An open stream that was not admitted. *)
Lemma close_unknown k t m s c :
  table_ok k t m → jget m s = Some c → authedPubkeyHex c = None → table_ok k t (jdel m s).
Proof.
  intros [[? [? ?]] Hl Hd Hst Hf] Hs Hc. split; try done.
  - repeat split; try done. by apply jwf_jdel.
  - intros a s' v'. rewrite Hl, jget_jdel by done. case_decide; [|done]. subst s'. split; [|naive_solver].
    intros (? & ? & ? & ?). congruence.
  - intros s' c0. rewrite jget_jdel by done. case_decide; [done|by apply Hf].
Qed.

Lemma unregister_delivery k t m s c agent v :
  table_ok k t m → jget m s = Some c → authedPubkeyHex c = Some agent → delivery_ok t →
  delivery_ok (unregister_stream env s agent v t).
Proof.
  intros [[? [? ?]] Hl Hd Hst Hf] Hs Hc Hdel a. rewrite live_unregister by done. specialize (Hdel a) as Ha.
  case_bool_decide as E.
  - subst a. unfold unregister_stream. destruct (survivor_of (remove_entry s (live_of t agent))) as [e|] eqn:Er; cbn.
    + case_bool_decide as Ec; [by rewrite jget_jset_eq|]. rewrite Ha. destruct (survivor_of (live_of t agent)) as [e'|] eqn:El.
      * rewrite Ha in Ec. rewrite (survivor_remove s _ e') in Er by (done || (intros Ee; apply Ec; cbn; by rewrite Ee)). by injection Er as ->.
      * apply survivor_none in El. by rewrite El in Er.
    + case_bool_decide as Ec; [by rewrite jget_jdel, decide_True|]. rewrite Ha.
      destruct (survivor_of (live_of t agent)) as [e'|] eqn:El; [|done]. rewrite Ha in Ec.
      rewrite (survivor_remove s _ e') in Er by (done || (intros Ee; apply Ec; cbn; by rewrite Ee)). done.
  - unfold unregister_stream. destruct (survivor_of (remove_entry s (live_of t agent))); cbn [streams]; case_bool_decide; try done.
    + by rewrite jget_jset_ne.
    + rewrite jget_jdel by done. by rewrite decide_False.
Qed.

Lemma unregister_presence k t m s c agent v :
  has_pool env = true → table_ok k t m → jget m s = Some c → authedPubkeyHex c = Some agent → is_visiting c = v →
  delivery_ok t → presence_ok t → presence_ok (unregister_stream env s agent v t).
Proof.
  intros Hp Ht Hs Hc Hv Hdel (Hw & Hlv & Hh). assert (jwf (agentStreams t)) as Hwf by apply Ht.
  assert ((s, v) ∈ live_of t agent) as Hin by (apply (tk_live _ _ _ Ht); eauto).
  destruct (survivor_of (remove_entry s (live_of t agent))) as [e|] eqn:E.
  - assert (∀ f : Table → Prop, (∀ st ag, f (mkTable st ag (agentHomeSeen t) (presence t) (presencePending t) (presenceRows t))) → f (unregister_stream env s agent v t)) as Hf.
    { intros f Hf. unfold unregister_stream. rewrite E. apply Hf. }
    split; [|split].
    + by apply (Hf (λ t', ∀ a, written (presence t') a = Some true ↔ a ∈ agentHomeSeen t')).
    + intros a Ha. rewrite live_unregister by done. case_bool_decide; [|].
      * intros En. apply survivor_elem in E. rewrite En in E. by apply not_elem_of_nil in E.
      * apply Hlv. revert Ha. by apply (Hf (λ t', a ∈ agentHomeSeen t' → a ∈ agentHomeSeen t)).
    + intros a s' Hs'. apply (Hf (λ t', a ∈ agentHomeSeen t')). intros ? ?. apply (Hh a s').
      rewrite live_unregister in Hs' by done. revert Hs'. case_bool_decide; [|done]. subst a.
      intros Hr. eapply sublist_subseteq; [apply remove_entry_sublist|exact Hr].
  - assert (remove_entry s (live_of t agent) = []) as Hnil.
    { by apply survivor_none. }
    assert (jget (streams t) agent = Some s) as Hcur.
    { rewrite Hdel. destruct (survivor_some (live_of t agent)) as [e He]; [intros En; rewrite En in Hin; by apply not_elem_of_nil in Hin|].
      rewrite He. cbn. f_equal. destruct (decide (e.1 = s)) as [|Hne]; [done|]. exfalso.
      assert (e ∈ remove_entry s (live_of t agent)) as Hr by (apply remove_entry_elem; [apply Ht|split; [by apply survivor_elem|done]]).
      rewrite Hnil in Hr. by apply not_elem_of_nil in Hr. }
    assert (∀ a, a ∈ List.filter (λ x, negb (bool_decide (x = agent))) (agentHomeSeen t) ↔ a ∈ agentHomeSeen t ∧ a ≠ agent) as Hseen.
    { intros a. rewrite filter_elem. case_bool_decide; naive_solver. }
    split; [|split].
    + intros a. unfold unregister_stream, recordPresence. rewrite E. cbn [presence agentHomeSeen]. rewrite Hcur, bool_decide_eq_true_2, Hp, Hseen by done. cbn [andb].
      destruct (negb v || bool_decide (agent ∈ agentHomeSeen t)) eqn:Ev; rewrite ?written_snoc.
      * destruct (bool_decide_reflect (agent = a)); [split; [done|naive_solver]|]. rewrite Hw. naive_solver.
      * rewrite Hw. apply orb_false_elim in Ev as [_ Ev%bool_decide_eq_false]. naive_solver.
    + intros a Ha. rewrite live_unregister by done. unfold unregister_stream in Ha. rewrite E in Ha. cbn in Ha.
      apply Hseen in Ha as [Ha Hne]. rewrite bool_decide_eq_false_2 by done. by apply Hlv.
    + intros a s' Hs'. rewrite live_unregister in Hs' by done. unfold unregister_stream. rewrite E. cbn. apply Hseen.
      revert Hs'. case_bool_decide as Ea; [rewrite Hnil; by intros ?%not_elem_of_nil|]. intros Hl. split; [by eapply Hh|done].
Qed.

(** ** Rows *)

Lemma register_rows t s agent v a : rows_ok t a → rows_ok (register_stream env s agent v t) a.
Proof. intros H. unfold register_stream. destruct v; [exact H|]. by apply settled_issued. Qed.

Lemma unregister_rows t s agent v a : rows_ok t a → rows_ok (unregister_stream env s agent v t) a.
Proof.
  intros H. unfold unregister_stream. destruct (survivor_of _); [exact H|]. destruct (_ && _); [|exact H]. by apply settled_issued.
Qed.

(** A write of another agent may land or fail at any time, one of this agent in its turn. *)
Definition in_turn (t : Table) (agent : string) (i : nat) : Prop :=
  ∀ w, presencePending t !! i = Some w → w.1 = agent → ∀ v, v ∈ take i (presencePending t) → v.1 ≠ agent.

Lemma lands_rows t i agent : in_turn t agent i → rows_ok t agent → rows_ok (presence_lands i t) agent.
Proof.
  unfold rows_ok, presence_lands. intros Hi Hr. destruct (presencePending t !! i) as [w|] eqn:E; [|exact Hr]. rewrite <- Hr.
  unfold settled, with_writes. cbn [presence presencePending presenceRows]. destruct (decide (w.1 = agent)) as [Ha|Ha].
  - subst agent. by rewrite upsert_same, (delete_first i _ w E (Hi w E eq_refl)).
  - by rewrite upsert_other, (delete_other i _ agent w).
Qed.

Lemma lost_rows t i agent : (∀ w, presencePending t !! i = Some w → w.1 ≠ agent) → rows_ok t agent → rows_ok (presence_lost i t) agent.
Proof.
  unfold rows_ok, presence_lost, settled, with_writes. cbn [presence presencePending presenceRows]. intros Hi Hr. destruct (presencePending t !! i) as [w|] eqn:E.
  - by rewrite (delete_other i _ agent w) by auto.
  - apply lookup_ge_None in E. by rewrite delete_take_drop, take_ge, drop_ge, app_nil_r by lia.
Qed.

Lemma taken_rows t agent a : a ≠ agent → rows_ok t agent → rows_ok (presence_taken a t) agent.
Proof. unfold rows_ok, presence_taken, settled, with_writes. cbn [presence presencePending presenceRows]. intros Ha. by rewrite jdel_other. Qed.

(** ** A delivery that failed *)

Lemma drop_ok k t m agent : table_ok k t m → table_ok k (drop_stream agent t) m.
Proof.
  intros [[? [? ?]] Hl Hd Hst Hf]. split; try done.
  - cbn. repeat split; try done. by apply jwf_jdel.
  - intros a s. cbn. rewrite jget_jdel by done. case_decide; [done|apply Hst].
Qed.

End Table.
End SignalTable.

(** What the inputs of a run justify: who owns a stream, what an agent said on it, and
    when a session, a connection, a profile or a revocation may exist; and the
    invariant that everything a directory keeps and sends is justified. *)
Import Text JsMap Effects Bytes Wire FrostInvariant DkgTopology Signaling SignalStreams SignalConnections SignalSessions SignalRegister SignalNode SignalTable.

Module SignalTrace.

Section Trace.
Context (env : SigEnv).

(** * Evidence *)

(** The input [i] came after [tr1]. *)
Definition after (tr : list Input) (i : Input) (tr1 : list Input) : Prop := ∃ tr2, tr = tr1 ++ i :: tr2.

(** The stream is the agent's and a frame on it is read. *)
Definition speaks (n : Node) (s : nat) (agent : string) : Prop :=
  ∃ c, jget (conns n) s = Some c ∧ authedPubkeyHex c = Some agent ∧ c_wait c = Idle.

(** The agent sent [f] on a stream of its own, when the node was as [P] says. *)
Definition said_when (tr : list Input) (agent : string) (f : Frame) (P : Node → Prop) : Prop :=
  ∃ tr1 s, after tr (Received s f) tr1 ∧ speaks (run env tr1) s agent ∧ P (run env tr1).

Definition said (tr : list Input) (agent : string) (f : Frame) : Prop := said_when tr agent f (λ _, True).

(** The holder of the agent's key answered the challenge that was sent on [s]. *)
Definition owns (tr : list Input) (s : nat) (agent : string) : Prop :=
  ∃ tr1 c pk sig v, after tr (Received s (AuthResponse pk sig v)) tr1 ∧
    jget (conns (run env tr1)) s = Some c ∧ (s, AuthChallenge (nonce c)) ∈ sent (run env tr1) ∧
    verify env pk (auth_hash env (nonce c) pk) sig = true ∧ agent = hex pk.

(** ** Sessions *)

Definition may_request (n : Node) (agent : string) (ask : SessionAsk) : Prop :=
  (requireRegistration env = true → is_Some (jget (profiles (registry n)) agent)) ∧
  agent ∈ peerInfoAnnounced (registry n) ∧
  isAgentRevoked (registry n) (hex (target_pubkey ask)) = false ∧ isAgentRevoked (registry n) agent = false.

(** The agent asked on [s] when it might, and [k] parties were read as not paused since. *)
Definition requested (tr : list Input) (s : nat) (agent : string) (ask : SessionAsk) (k : nat) : Prop :=
  ∃ tr1 tr2, tr = tr1 ++ Received s (SessionRequest ask) :: tr2 ∧ speaks (run env tr1) s agent ∧
    may_request (run env tr1) agent ask ∧ replicate k (PauseKnown s (Some false)) `sublist_of` tr2.

Definition session_ok (tr : list Input) (su : Setup) : Prop :=
  requested tr (su_stream su) (su_initiator su) (su_ask su) 2 ∧ owns tr (su_stream su) (su_initiator su) ∧
  su_target su = hex (target_pubkey (su_ask su)) ∧ missing_peer (su_ask su) = false.

(** The pair asked for [c] and agreed to it here, or at another node. *)
Definition connection_ok (tr : list Input) (c : Connection) : Prop :=
  ConnectionReplicated c ∈ tr ∨
  ∃ id package, said tr (c_a c) (ConnectionRequest (c_b c) package) ∧
    said_when tr (c_b c) (ConnectionResponse id accept)
      (λ n, ∃ p, jget (pendingConnectionRequests (desk n)) id = Some p ∧ pr_sender p = c_a c ∧ pr_target p = c_b c).

Definition gate_ok (tr : list Input) (su : Setup) : Prop :=
  requireConnectionGate env = true →
  ∃ c, connection_ok tr c ∧ pair_key (c_a c) (c_b c) = pair_key (su_initiator su) (su_target su) ∧
    connection_id (su_ask su) = Some (c_id c).

(** Nothing was offered, or the target accepted with this endpoint. *)
Definition endpoint_ok (tr : list Input) (target : string) (sid : bytes) (cp : Endpoint) : Prop :=
  cp = no_endpoint ∨ said tr target (SessionOfferAccept sid cp).

Definition drawn (t : nat) (sid : bytes) : Prop := ∃ t', t' < t ∧ sid = rand env t' 16.

Definition signed (tr : list Input) (initiator : string) (sid : bytes) (sig : bytes) : Prop :=
  said tr initiator (CeremonyResult (ceremony_id sid) (Some sig)).

(** ** Agents *)

Definition phone_ok (tr : list Input) (f : RegisterRequest) (h : string) : Prop :=
  (∃ e, PreAuthorised (k_local_pubkey f) h e ∈ tr) ∨ (phone_stub f ≠ EmptyString ∧ h = hex (sha256 env (phone_stub f))).

Definition registering (tr : list Input) (f : RegisterRequest) : Prop := ∃ agent, said tr agent (Register f).

Definition profile_ok (tr : list Input) (p : Profile) : Prop :=
  ProfileReplicated p ∈ tr ∨
  ∃ f b, registering tr f ∧ k_local_pubkey f = p_k_local p ∧ ml_dsa_pubkey f = p_ml_dsa p ∧ phone_ok tr f (phone_stub_hash p) ∧
    said tr (p_k_local p) (DkgComplete (primary_pubkey p) b) ∧ key_binding p = Some b.

(** A group key that the agent reported, or that a replicated profile has. *)
Definition key_ok (tr : list Input) (agent : string) (key : bytes) : Prop :=
  (∃ p b, said tr agent (DkgComplete p b) ∧ key = hex_prefix p) ∨
  (∃ p, ProfileReplicated p ∈ tr ∧ p_k_local p = agent ∧ key = hex_prefix (primary_pubkey p)).

(** The holder of [k] sent the revocation on its own stream when [k] was the key of the
    agent that it names, and signed it. *)
Definition self_revoked (tr : list Input) (k : string) (rv : Revocation) : Prop :=
  said_when tr k (RevokeAgent rv) (λ n, ∃ p, jget (profiles (registry n)) k = Some p ∧ agent_id p = rv_agent_id rv) ∧
  revocation_signed env k rv k = true.

(** A stored row came from another node or is what a holder here said. *)
Definition row_ok (tr : list Input) (id : string) (row : RevocationRow) : Prop :=
  ar_agent_id row = id ∧ (RevocationReplicated row ∈ tr ∨ ∃ k rv, self_revoked tr k rv ∧ row = row_of rv).

(** The node once started with a stored row of the agent whose key [k] was. *)
Definition loaded_revocation (tr : list Input) (k : string) : Prop :=
  ∃ tr1 at_ ld id row p, after tr (Restarted at_ ld) tr1 ∧
    (id, row) ∈ agent_revocations (registry (run env tr1)) ∧ row_ok tr1 id row ∧
    (k, p) ∈ profiles (registry (run env tr1)) ∧ agent_id p = id.

Definition revocation_ok (tr : list Input) (k : string) : Prop := (∃ rv, self_revoked tr k rv) ∨ loaded_revocation tr k.

Definition request_ok (tr : list Input) (p : PendingRequest) : Prop :=
  said tr (pr_sender p) (ConnectionRequest (pr_target p) (pr_package p)).

(** ** Frames *)

(** What [a] states is what was asked, consented to and signed. *)
Definition assignment_ok (tr : list Input) (out : list (nat * FrameOut)) (a : Assignment) : Prop :=
  ∃ su d b signals relay_sig relay cp sig key,
    a = build_assignment su d cp b sig key relay signals relay_sig ∧
    session_ok tr su ∧ gate_ok tr su ∧ endpoint_ok tr (su_target su) (dr_id d) cp ∧
    key_ok tr (su_initiator su) key ∧ signed tr (su_initiator su) (dr_id d) sig ∧
    ∃ s, (s, CeremonyRequest (ceremony_id (dr_id d)) (setup_tbs env su d cp)) ∈ out.

(** The frames that are for one agent, and why it may have them. *)
Definition meant (tr : list Input) (out : list (nat * FrameOut)) (agent : string) (f : FrameOut) : Prop :=
  match f with
  | ConnectionInbound from _ package _ _ => said tr from (ConnectionRequest agent package)
  | DisclosureRequestInbound from id items =>
      said tr from (DisclosureRequest id items) ∧ ∃ package, said tr agent (ConnectionRequest from package)
  | DisclosureResponseInbound id package =>
      ∃ from first, said tr from (DisclosureResponse id package) ∧ said tr from (ConnectionRequest agent first)
  | ConnectionEstablished peer _ =>
      ∃ id package,
        (said tr agent (ConnectionRequest peer package) ∧ said tr peer (ConnectionResponse id accept)) ∨
        (said tr peer (ConnectionRequest agent package) ∧ said tr agent (ConnectionResponse id accept))
  | ConnectionRejected target _ | ConnectionInsufficient target _ =>
      (∃ package, said tr agent (ConnectionRequest target package)) ∧ ∃ id verdict, said tr target (ConnectionResponse id verdict)
  | SessionOffer sid ep =>
      ∃ su, session_ok tr su ∧ gate_ok tr su ∧ su_target su = agent ∧
        ep = (initiator_session_peer_id (su_ask su), initiator_session_addrs (su_ask su))
  | CeremonyRequest ceremony tbs =>
      ∃ su d cp, session_ok tr su ∧ gate_ok tr su ∧ su_initiator su = agent ∧ endpoint_ok tr (su_target su) (dr_id d) cp ∧
        ceremony = ceremony_id (dr_id d) ∧ tbs = setup_tbs env su d cp
  | SessionAssigned a =>
      assignment_ok tr out a ∧ (hex_prefix agent = participant_a a ∨ hex_prefix agent = participant_b a)
  | _ => True
  end.

Definition personal (f : FrameOut) : bool :=
  match f with
  | ConnectionInbound _ _ _ _ _ | DisclosureRequestInbound _ _ _ | DisclosureResponseInbound _ _ | ConnectionEstablished _ _
  | ConnectionRejected _ _ | ConnectionInsufficient _ _ | SessionOffer _ _ | CeremonyRequest _ _ | SessionAssigned _ => true
  | _ => false
  end.

Definition frame_ok (tr : list Input) (out : list (nat * FrameOut)) (s : nat) (f : FrameOut) : Prop :=
  personal f = true → ∃ agent, owns tr s agent ∧ meant tr out agent f.

(** * The invariant *)

Definition all_in {K V} (P : K → V → Prop) (m : jsmap K V) : Prop := ∀ k v, (k, v) ∈ m → P k v.

Definition wait_ok (tr : list Input) (s : nat) (c : Conn) : Prop :=
  match c_wait c with
  | WaitTargetPause ask => ∀ agent, authedPubkeyHex c = Some agent → requested tr s agent ask 0
  | WaitInitiatorPause ask => ∀ agent, authedPubkeyHex c = Some agent → requested tr s agent ask 1
  | _ => True
  end.

Definition conn_ok (tr : list Input) (out : list (nat * FrameOut)) (s : nat) (c : Conn) : Prop :=
  (s, AuthChallenge (nonce c)) ∈ out ∧ (∀ agent, authedPubkeyHex c = Some agent → owns tr s agent) ∧ wait_ok tr s c.

Definition active_ok (tr : list Input) (w : ActiveWrite) : Prop :=
  match w with SaveActive _ p _ => request_ok tr p | DeleteActive _ => True end.

Definition queued_ok (tr : list Input) (target : string) (q : QueuedRequest) : Prop :=
  request_ok tr (mkPendingRequest (q_sender q) target (q_package q) 1) ∧
  ∃ at_ provisional, q_frame q = ConnectionInbound (q_sender q) (q_id q) (q_package q) at_ provisional.

Record desk_ok (tr : list Input) (out : list (nat * FrameOut)) (d : Desk) : Prop := {
  d_pending : all_in (λ _ p, request_ok tr p) (pendingConnectionRequests d);
  d_queued : all_in (λ target l, Forall (queued_ok tr target) l) (queuedRequests d);
  d_connections : Forall (connection_ok tr) (connections d);
  d_notifications : all_in (λ agent l, Forall (λ f, ∀ out', out ⊆ out' → meant tr out' agent f) l) (notifications d);
  d_writes : all_in (λ _ w, active_ok tr w) (activeWrites d);
  d_active : all_in (λ _ e, request_ok tr e.1) (activeRequests d) }.

Definition signer_of (g : Registry) (i : nat) (agent : string) : Prop := ∃ s, signers g !! i = Some s ∧ sg_agent s = agent.

Record registry_ok (tr : list Input) (g : Registry) : Prop := {
  g_profiles : all_in (λ k p, p_k_local p = k ∧ profile_ok tr p) (profiles g);
  g_rows : all_in (row_ok tr) (agent_revocations g);
  g_revoked : Forall (revocation_ok tr) (revokedPubkeys g);
  g_pre_auth : all_in (λ k v, PreAuthorised k v.1 v.2 ∈ tr) (pendingPreAuthData g);
  g_signers : Forall (λ s, key_ok tr (sg_agent s) (sg_primary s)) (signers g);
  g_threshold : all_in (λ a i, signer_of g i a) (thresholdSigners g);
  g_delegated : all_in (λ a i, signer_of g i a) (delegatedSigners g);
  g_primary : all_in (key_ok tr) (primaryPubkeys g) }.

Record offers_ok (tr : list Input) (t : nat) (o : Offers) : Prop := {
  o_targets : all_in (λ h _, ∃ sid, h = hex sid ∧ drawn t sid) (offerTargets o);
  o_accepts : ∀ h ep, jget (offerAccepts o) h = Some ep →
    ∃ target sid, jget (offerTargets o) h = Some target ∧ h = hex sid ∧ said tr target (SessionOfferAccept sid ep);
  o_wf : jwf (offerTargets o) ∧ jwf (offerAccepts o) }.

Definition drawn_ok (tr : list Input) (t : nat) (g : Registry) (su : Setup) (d : Drawn) : Prop :=
  session_ok tr su ∧ gate_ok tr su ∧ owns tr (dr_target_stream d) (su_target su) ∧
  signer_of g (dr_signer d) (su_initiator su) ∧ drawn t (dr_id d).

Definition asked (out : list (nat * FrameOut)) (su : Setup) (d : Drawn) (cp : Endpoint) : Prop :=
  ∃ s, (s, CeremonyRequest (ceremony_id (dr_id d)) (setup_tbs env su d cp)) ∈ out.

Definition flow_ok (tr : list Input) (t : nat) (out : list (nat * FrameOut)) (g : Registry) (f : Flow) : Prop :=
  match f with
  | SConnection su => session_ok tr su
  | SPrimary su ts => session_ok tr su ∧ gate_ok tr su ∧ owns tr ts (su_target su)
  | SOffer su d _ _ => drawn_ok tr t g su d
  | SProfiles su d cp => drawn_ok tr t g su d ∧ endpoint_ok tr (su_target su) (dr_id d) cp
  | SCeremony su d cp _ res =>
      drawn_ok tr t g su d ∧ endpoint_ok tr (su_target su) (dr_id d) cp ∧ asked out su d cp ∧
      ∀ sig, res = Some (Ok sig) → signed tr (su_initiator su) (dr_id d) sig
  | SSignals su d cp _ sig =>
      drawn_ok tr t g su d ∧ endpoint_ok tr (su_target su) (dr_id d) cp ∧ asked out su d cp ∧ signed tr (su_initiator su) (dr_id d) sig
  | CSender _ sender target package | CExisting _ sender target package _ => said tr sender (ConnectionRequest target package)
  | CCreating id p ss _ =>
      request_ok tr p ∧ (∀ s, ss = Some s → owns tr s (pr_sender p)) ∧
      said_when tr (pr_target p) (ConnectionResponse id accept)
        (λ n, ∃ q, jget (pendingConnectionRequests (desk n)) id = Some q ∧ pr_sender q = pr_sender p ∧ pr_target q = pr_target p)
  | RDkg _ f res =>
      registering tr f ∧ ∀ a b, res = Some (Some (a, b)) → said tr (k_local_pubkey f) (DkgComplete a b)
  | RAccount _ f a b h _ => registering tr f ∧ said tr (k_local_pubkey f) (DkgComplete a b) ∧ phone_ok tr f h
  | RToken _ _ _ => True
  | RRevoke _ rv k => self_revoked tr k rv
  end.

(** What a flow is when something that an agent can say leads to it. *)
Definition in_ceremony (agent cid : string) (f : Flow) : Prop :=
  match f with
  | SCeremony su d _ _ _ | SSignals su d _ _ _ => su_initiator su = agent ∧ cid = ceremony_id (dr_id d)
  | _ => False
  end.

Definition awaits_dkg (agent : string) (f : Flow) : Prop :=
  match f with RDkg _ fr None => k_local_pubkey fr = agent | _ => False end.

(** What leads to a flow fits it. *)
Record ptr_ok (k : nat) (fl : jsmap nat Flow) (g : Registry) : Prop := {
  p_wf : jwf fl ∧ jwf (pendingDkgComplete g);
  p_flows : all_in (λ r _, r < k) fl;
  p_ceremony : ∀ i s cid r, signers g !! i = Some s → (cid, r) ∈ sg_pending s →
    r < k ∧ ∀ f, jget fl r = Some f → in_ceremony (sg_agent s) cid f;
  p_dkg : ∀ a r, (a, r) ∈ pendingDkgComplete g → r < k ∧ ∀ f, jget fl r = Some f → awaits_dkg a f }.

(** The flow [r] is the one its target was recorded for. *)
Definition offered_ok (fl : jsmap nat Flow) (o : Offers) : Prop :=
  ∀ r su d offered res, (r, SOffer su d offered res) ∈ fl →
  ∀ t, jget (offerTargets o) (hex (dr_id d)) = Some t → t = su_target su.

(** No delivery of a seal failed. *)
Definition calm (tr : list Input) : Prop := ∀ tr1 agent f kept,
  after tr (SealDelivered agent f kept) tr1 → send_works env (tick (run env tr1)) = true.

(** The presence writes of the agent landed in the order in which they were issued, none
    failed, no other node wrote its row, and the node started only when none was on the
    way and wrote the rows it found offline. *)
Record orderly (tr : list Input) (agent : string) : Prop := {
  or_lands : ∀ tr1 i, after tr (PresenceLands i) tr1 → in_turn (table (run env tr1)) agent i;
  or_lost : ∀ tr1 i w, after tr (PresenceLost i) tr1 → presencePending (table (run env tr1)) !! i = Some w → w.1 ≠ agent;
  or_taken : PresenceTaken agent ∉ tr;
  or_started : ∀ tr1 at_ ld, after tr (Restarted at_ ld) tr1 →
    ld_reconciled ld = true ∧ for_agent agent (presencePending (table (run env tr1))) = [] }.

Record Inv (tr : list Input) (k : nat) (n : Node) : Prop := {
  i_table : table_ok k (table n) (conns n);
  i_delivery : calm tr → delivery_ok (table n);
  i_presence : has_pool env = true → calm tr → presence_ok (table n);
  i_rows : has_pool env = true → ∀ agent, orderly tr agent → rows_ok (table n) agent;
  i_conns : all_in (conn_ok tr (sent n)) (conns n);
  i_desk : desk_ok tr (sent n) (desk n);
  i_registry : registry_ok tr (registry n);
  i_offers : offers_ok tr (tick n) (offers n);
  i_offered : offered_ok (flows n) (offers n);
  i_flows : all_in (λ _ f, flow_ok tr (tick n) (sent n) (registry n) f) (flows n);
  i_ptr : ptr_ok k (flows n) (registry n);
  i_sent : Forall (λ e, frame_ok tr (sent n) e.1 e.2) (sent n);
  i_steps : steps n <= k }.

End Trace.
End SignalTrace.

(** The invariant of [SignalTrace] is kept by every small step: evidence only grows, and
    each change of the node's state keeps what the other parts rely on. *)
Import Text JsMap Effects Bytes Wire FrostInvariant DkgTopology Signaling SignalStreams SignalConnections SignalSessions SignalRegister SignalNode SignalTable SignalTrace.

Module SignalInvariant.

Create HintDb evidence.

Section Evidence.
Context (env : SigEnv).

(** * Evidence grows *)

Section Growth.
Context (tr tr' : list Input) (ext : ∃ l, tr' = tr ++ l).

Lemma after_grows i tr1 : after tr i tr1 → after tr' i tr1.
Proof. intros [tr2 ->]. destruct ext as [l ->]. exists (tr2 ++ l). by rewrite <- app_assoc. Qed.

Lemma input_grows i : i ∈ tr → i ∈ tr'.
Proof. destruct ext as [l ->]. set_solver. Qed.

Lemma said_when_grows a f P : said_when env tr a f P → said_when env tr' a f P.
Proof. intros (tr1 & s & H & ?). exists tr1, s. split; [by apply after_grows|done]. Qed.

Lemma said_grows a f : said env tr a f → said env tr' a f.
Proof. apply said_when_grows. Qed.

Lemma owns_grows s a : owns env tr s a → owns env tr' s a.
Proof. intros (tr1 & c & pk & sig & v & H & ?). exists tr1, c, pk, sig, v. split; [by apply after_grows|done]. Qed.

Lemma requested_grows s a ask k : requested env tr s a ask k → requested env tr' s a ask k.
Proof.
  intros (tr1 & tr2 & -> & ? & ? & Hs). destruct ext as [l ->]. exists tr1, (tr2 ++ l).
  rewrite <- app_assoc. repeat (split; [done|]). by apply sublist_inserts_r.
Qed.

Lemma session_grows su : session_ok env tr su → session_ok env tr' su.
Proof. intros (? & ? & ?). split; [by apply requested_grows|split; [by apply owns_grows|done]]. Qed.

Lemma connection_grows c : connection_ok env tr c → connection_ok env tr' c.
Proof.
  intros [?|(id & p & ? & ?)]; [left; by apply input_grows|right].
  exists id, p. split; [by apply said_grows|by apply said_when_grows].
Qed.

Lemma gate_grows su : gate_ok env tr su → gate_ok env tr' su.
Proof. intros Hg Hr. destruct (Hg Hr) as (c & ? & ?). exists c. split; [by apply connection_grows|done]. Qed.

Lemma endpoint_grows t sid cp : endpoint_ok env tr t sid cp → endpoint_ok env tr' t sid cp.
Proof. intros [?|?]; [by left|right; by apply said_grows]. Qed.

Lemma phone_grows f h : phone_ok env tr f h → phone_ok env tr' f h.
Proof. intros [[e ?]|?]; [left; exists e; by apply input_grows|by right]. Qed.

Lemma registering_grows f : registering env tr f → registering env tr' f.
Proof. intros [a ?]. exists a. by apply said_grows. Qed.

Lemma profile_grows p : profile_ok env tr p → profile_ok env tr' p.
Proof.
  intros [?|(f & b & ? & ? & ? & ? & ? & ?)]; [left; by apply input_grows|right]. exists f, b.
  split; [by apply registering_grows|]. repeat (split; [done|]). split; [by apply phone_grows|]. split; [by apply said_grows|done].
Qed.

Lemma key_grows a key : key_ok env tr a key → key_ok env tr' a key.
Proof.
  intros [(p & b & ? & ?)|(p & ? & ?)]; [left; exists p, b; split; [by apply said_grows|done]|].
  right. exists p. split; [by apply input_grows|done].
Qed.

Lemma self_revoked_grows k rv : self_revoked env tr k rv → self_revoked env tr' k rv.
Proof. intros [? ?]. split; [by apply said_when_grows|done]. Qed.

Lemma row_grows id row : row_ok env tr id row → row_ok env tr' id row.
Proof.
  intros [? [?|(k & rv & ? & ?)]]; (split; [done|]); [left; by apply input_grows|right].
  exists k, rv. split; [by apply self_revoked_grows|done].
Qed.

Lemma revocation_grows k : revocation_ok env tr k → revocation_ok env tr' k.
Proof.
  intros [[rv ?]|(tr1 & at_ & ld & id & row & p & ? & ?)]; [left; exists rv; by apply self_revoked_grows|right].
  exists tr1, at_, ld, id, row, p. split; [by apply after_grows|done].
Qed.

Lemma orderly_shrinks agent : orderly env tr' agent → orderly env tr agent.
Proof.
  intros [H1 H2 H3 H4]. split.
  - intros tr1 i Ha. by eapply H1, after_grows.
  - intros tr1 i w Ha. by eapply H2, after_grows.
  - intros Ha. by apply H3, input_grows.
  - intros tr1 at_ ld Ha. by eapply H4, after_grows.
Qed.

Lemma assignment_grows out a : assignment_ok env tr out a → assignment_ok env tr' out a.
Proof.
  intros (su & d & b & si & rs & re & cp & sig & key & ? & ? & ? & ? & ? & ? & ?).
  exists su, d, b, si, rs, re, cp, sig, key. split; [done|]. split; [by apply session_grows|]. split; [by apply gate_grows|].
  split; [by apply endpoint_grows|]. split; [by apply key_grows|]. split; [by apply said_grows|done].
Qed.

Lemma meant_grows out a f : meant env tr out a f → meant env tr' out a f.
Proof.
  destruct f; cbn; try done.
  - by apply said_grows.
  - intros (id0 & p & [[? ?]|[? ?]]); exists id0, p; [left|right]; split; by apply said_grows.
  - intros ((p & ?) & id & v & ?). split; [exists p|exists id, v]; by apply said_grows.
  - intros ((p & ?) & id & v & ?). split; [exists p|exists id, v]; by apply said_grows.
  - intros (? & p & ?). split; [|exists p]; by apply said_grows.
  - intros (x & p & ? & ?). exists x, p. split; by apply said_grows.
  - intros (su & ? & ? & ?). exists su. split; [by apply session_grows|]. split; [by apply gate_grows|done].
  - intros (su & d & cp & ? & ? & ? & ? & ?). exists su, d, cp. split; [by apply session_grows|]. split; [by apply gate_grows|].
    split; [done|]. split; [by apply endpoint_grows|done].
  - intros (? & ?). split; [by apply assignment_grows|done].
Qed.

Lemma drawn_ok_grows t g su d : drawn_ok env tr t g su d → drawn_ok env tr' t g su d.
Proof.
  intros (? & ? & ? & ?). split; [by apply session_grows|]. split; [by apply gate_grows|]. split; [by apply owns_grows|done].
Qed.

Lemma flow_grows t out g f : flow_ok env tr t out g f → flow_ok env tr' t out g f.
Proof.
  destruct f; cbn; try done.
  - by apply session_grows.
  - intros (? & ? & ?). split; [by apply session_grows|]. split; [by apply gate_grows|by apply owns_grows].
  - apply drawn_ok_grows.
  - intros (? & ?). split; [by apply drawn_ok_grows|by apply endpoint_grows].
  - intros (? & ? & ? & H). split; [by apply drawn_ok_grows|]. split; [by apply endpoint_grows|]. split; [done|].
    intros sig Hs. by apply said_grows, H.
  - intros (? & ? & ? & ?). split; [by apply drawn_ok_grows|]. split; [by apply endpoint_grows|]. split; [done|by apply said_grows].
  - by apply said_grows.
  - by apply said_grows.
  - intros (? & H & ?). split; [by apply said_grows|]. split; [intros s Hs; by apply owns_grows, H|by apply said_when_grows].
  - intros (? & H). split; [by apply registering_grows|]. intros a b Hr. by apply said_grows, H.
  - intros (? & ? & ?). split; [by apply registering_grows|]. split; [by apply said_grows|by apply phone_grows].
  - by apply self_revoked_grows.
Qed.

Lemma conn_grows out s c : conn_ok env tr out s c → conn_ok env tr' out s c.
Proof.
  intros (? & H & Hw). split; [done|]. split; [intros a Ha; by apply owns_grows, H|].
  unfold wait_ok in *. destruct (c_wait c); try done; intros a Ha; by apply requested_grows, Hw.
Qed.

Lemma desk_grows out d : desk_ok env tr out d → desk_ok env tr' out d.
Proof.
  assert (∀ p, request_ok env tr p → request_ok env tr' p) as Hr by (intros p; apply said_grows).
  intros [H1 H2 H3 H4 H5 H6]. split.
  - intros k v Hv. by eapply Hr, H1.
  - intros k l Hl. eapply Forall_impl; [by eapply H2|]. intros q [? ?]. split; [by apply Hr|done].
  - eapply Forall_impl; [exact H3|]. intros c. apply connection_grows.
  - intros k l Hl. eapply Forall_impl; [by eapply H4|]. intros f Hf out' Ho. by apply meant_grows, Hf.
  - intros k w Hw. specialize (H5 k w Hw). destruct w; [by apply Hr|done].
  - intros k e He. by eapply Hr, H6.
Qed.

Lemma registry_grows g : registry_ok env tr g → registry_ok env tr' g.
Proof.
  intros [H1 H2 H2' H3 H4 H5 H6 H7]. split; try done.
  - intros k p Hp. destruct (H1 k p Hp). split; [done|by apply profile_grows].
  - intros k row Hr. by apply row_grows, H2.
  - eapply Forall_impl; [exact H2'|]. intros k. apply revocation_grows.
  - intros k v Hv. by apply input_grows, H3.
  - eapply Forall_impl; [exact H4|]. intros s. apply key_grows.
  - intros k a Ha. by apply key_grows, H7.
Qed.

Lemma inv_grows k n : Inv env tr k n → Inv env tr' k n.
Proof.
  intros [H1 H2 H3 H3' H4 H5 H6 [Ho1 Ho2 Ho3] H8 H9 H10 H11 H12]. split; try done.
  - intros Hc. apply H2. intros tr1 a f kept Ha. by eapply Hc, after_grows.
  - intros Hp Hc. apply H3; [done|]. intros tr1 a f kept Ha. by eapply Hc, after_grows.
  - intros Hp agent Ho. by apply H3', orderly_shrinks.
  - intros s c Hs. by apply conn_grows, H4.
  - by apply desk_grows.
  - by apply registry_grows.
  - split; try done. intros h ep He. destruct (Ho2 h ep He) as (t & sid & ? & ? & ?).
    exists t, sid. split; [done|]. split; [done|by apply said_grows].
  - intros r f Hf. by eapply flow_grows, H9.
  - eapply Forall_impl; [exact H11|]. intros [s f] Hf Hp. destruct (Hf Hp) as (a & ? & ?). exists a.
    split; [by apply owns_grows|by apply meant_grows].
Qed.

End Growth.

(** More is sent. *)
Section Sent.
Context (tr : list Input) (out out' : list (nat * FrameOut)) (ext : out ⊆ out').

Lemma asked_sent su d cp : asked env out su d cp → asked env out' su d cp.
Proof. intros [s ?]. exists s. by apply ext. Qed.

Lemma assignment_sent a : assignment_ok env tr out a → assignment_ok env tr out' a.
Proof.
  intros (su & d & b & si & rs & re & cp & sig & key & ? & ? & ? & ? & ? & ? & ?).
  exists su, d, b, si, rs, re, cp, sig, key. repeat (split; [done|]). by apply asked_sent.
Qed.

Lemma meant_sent a f : meant env tr out a f → meant env tr out' a f.
Proof. destruct f; cbn; try done. intros [? ?]. split; [by apply assignment_sent|done]. Qed.

Lemma frame_sent s f : frame_ok env tr out s f → frame_ok env tr out' s f.
Proof. intros H Hp. destruct (H Hp) as (a & ? & ?). exists a. split; [done|by apply meant_sent]. Qed.

Lemma flow_sent t g f : flow_ok env tr t out g f → flow_ok env tr t out' g f.
Proof.
  destruct f; cbn; try done.
  - intros (? & ? & ? & ?). repeat (split; [done|]). split; [by apply asked_sent|done].
  - intros (? & ? & ? & ?). repeat (split; [done|]). split; [by apply asked_sent|done].
Qed.

Lemma desk_sent d : desk_ok env tr out d → desk_ok env tr out' d.
Proof.
  intros [H1 H2 H3 H4 H5 H6]. split; try done. intros k l Hl. eapply Forall_impl; [by eapply H4|].
  intros f Hf o Ho. apply Hf. by transitivity out'.
Qed.

End Sent.

Lemma drawn_mono t t' sid : t <= t' → drawn env t sid → drawn env t' sid.
Proof. intros Ht (x & ? & ?). exists x. split; [lia|done]. Qed.

(** Signers keep their agent. *)
Definition signers_grow (g g' : Registry) : Prop := ∀ i a, signer_of g i a → signer_of g' i a.

Lemma flow_world tr t t' out g g' f :
  t <= t' → signers_grow g g' → flow_ok env tr t out g f → flow_ok env tr t' out g' f.
Proof.
  intros Ht Hg. assert (∀ su d, drawn_ok env tr t g su d → drawn_ok env tr t' g' su d) as Hd.
  { intros su d (? & ? & ? & ? & ?). repeat (split; [done|]). split; [by apply Hg|by eapply drawn_mono]. }
  destruct f; cbn; try done.
  - apply Hd.
  - intros (? & ?). split; [by apply Hd|done].
  - intros (? & ?). split; [by apply Hd|done].
  - intros (? & ?). split; [by apply Hd|done].
Qed.

(** * Maps *)

Lemma all_jset {K V} `{EqDecision K} (P : K → V → Prop) m k v : all_in P m → P k v → all_in P (jset m k v).
Proof. intros H Hv k' v' [?|[= -> ->]]%elem_jset_key; [by apply H|done]. Qed.

Lemma all_jdel {K V} `{EqDecision K} (P : K → V → Prop) m k : all_in P m → all_in P (jdel m k).
Proof. intros H k' v' Hv. by eapply H, elem_jdel. Qed.

Lemma all_filter {K V} (P : K → V → Prop) (p : K * V → bool) m : all_in P m → all_in P (List.filter p m).
Proof. intros H k v Hv. by eapply H, elem_filter. Qed.

Lemma all_get {K V} `{EqDecision K} (P : K → V → Prop) m k v : all_in P m → jget m k = Some v → P k v.
Proof. intros H Hv. by apply H, jget_elem. Qed.

Lemma all_nil {K V} (P : K → V → Prop) : all_in P [].
Proof. intros k v ?%not_elem_of_nil. done. Qed.

Lemma forall_set_add (P : string → Prop) l x : Forall P l → P x → Forall P (set_add l x).
Proof. intros Hl Hx. unfold set_add. case_bool_decide; [done|]. apply Forall_app. split; [done|]. by apply Forall_singleton. Qed.

(** ** The revocations that are loaded *)

Lemma index_only k row g :
  index_revocation k row g = with_revocations g (agent_revocations g) (revocationsByAgentId (index_revocation k row g)) (revokedPubkeys (index_revocation k row g)).
Proof. done. Qed.

Lemma index_revoked k row g x :
  x ∈ revokedPubkeys (index_revocation k row g) ↔ x ∈ revokedPubkeys g ∨ x = k ∧ k ≠ EmptyString.
Proof. unfold index_revocation. cbn. case_bool_decide; [naive_solver|]. rewrite set_add_elem. naive_solver. Qed.

(** Nothing but the indexes changes, and they get the key of every row that is joined with one. *)
Lemma loadRevocations_spec g :
  ∃ i ks, loadRevocations g = with_revocations g (agent_revocations g) i ks ∧
    ∀ k, k ∈ ks ↔ k ∈ revokedPubkeys g ∨ ∃ row, row ∈ jvals (agent_revocations g) ∧ k ∈ joined_keys g row ∧ k ≠ EmptyString.
Proof.
  unfold loadRevocations. set (J := joined_keys g).
  assert (∀ row l g', ∃ i ks, foldl (λ g' k, index_revocation k row g') g' l = with_revocations g' (agent_revocations g') i ks ∧
    ∀ k, k ∈ ks ↔ k ∈ revokedPubkeys g' ∨ k ∈ l ∧ k ≠ EmptyString) as Hrow.
  { intros row l. induction l as [|x l IH]; intros g'; cbn [foldl].
    - exists (revocationsByAgentId g'), (revokedPubkeys g'). split; [by destruct g'|]. set_solver.
    - destruct (IH (index_revocation x row g')) as (i & ks & -> & Hk). exists i, ks. split; [done|]. intros k.
      rewrite Hk, index_revoked. set_solver. }
  assert (∀ rows g', ∃ i ks, foldl (λ g' row, foldl (λ g' k, index_revocation k row g') g' (J row)) g' rows =
      with_revocations g' (agent_revocations g') i ks ∧
    ∀ k, k ∈ ks ↔ k ∈ revokedPubkeys g' ∨ ∃ row, row ∈ rows ∧ k ∈ J row ∧ k ≠ EmptyString) as Hrows; [|apply Hrows].
  intros rows. induction rows as [|row rows IH]; intros g'; cbn [foldl].
  - exists (revocationsByAgentId g'), (revokedPubkeys g'). split; [by destruct g'|]. set_solver.
  - destruct (Hrow row (J row) g') as (i & ks & -> & Hk). destruct (IH (with_revocations g' (agent_revocations g') i ks)) as (i' & ks' & -> & Hk').
    exists i', ks'. split; [done|]. intros k. rewrite Hk'. cbn. rewrite Hk. set_solver.
Qed.

Lemma joined_key g row k : k ≠ EmptyString →
  k ∈ joined_keys g row ↔ ∃ p, p ∈ jvals (profiles g) ∧ agent_id p = ar_agent_id row ∧ p_k_local p = k.
Proof.
  intros Hk. unfold joined_keys. set (l := List.filter _ _).
  assert (∀ p, p ∈ l ↔ p ∈ jvals (profiles g) ∧ agent_id p = ar_agent_id row) as Hl.
  { intros p. unfold l. by rewrite filter_elem, bool_decide_eq_true. }
  assert (k ∈ map p_k_local l ↔ ∃ p, p ∈ jvals (profiles g) ∧ agent_id p = ar_agent_id row ∧ p_k_local p = k) as Hm.
  { split.
    - intros (p & -> & [? ?]%Hl)%list_elem_of_fmap. by exists p.
    - intros (p & ? & ? & <-). apply list_elem_of_fmap. exists p. split; [done|by apply Hl]. }
  destruct (map p_k_local l) as [|x xs]; [|exact Hm]. rewrite <- Hm. set_solver.
Qed.

(** * Small steps *)

Lemma node_tick tr k n t : Inv env tr k n → tick n <= t → Inv env tr k (with_tick n t).
Proof.
  intros [H1 H2 H3 H3' H4 H5 H6 [Ho1 Ho2 Ho3] H8 H9 H10 H11 H12] Ht. split; try done.
  - split; try done. intros h v Hv. destruct (Ho1 h v Hv) as (sid & ? & ?). exists sid. split; [done|by eapply drawn_mono].
  - intros r f Hf. eapply flow_world; [exact Ht| |by eapply H9]. by intros i a.
Qed.

Lemma inv_frost tr k n v : Inv env tr k n → Inv env tr k (with_frost n v).
Proof. intros []. by split. Qed.

Lemma node_nonces tr k n v : Inv env tr k n → Inv env tr k (with_nonces n v).
Proof. intros []. by split. Qed.

Lemma inv_sent tr k n s f :
  Inv env tr k n → frame_ok env tr (sent n) s f → Inv env tr k (with_sent n (sent n ++ [(s, f)])).
Proof.
  intros [H1 H2 H3 H3' H4 H5 H6 H7 H8 H9 H10 H11 H12] Hf.
  assert (sent n ⊆ sent n ++ [(s, f)]) as Hext by set_solver. split; try done.
  - intros s' c Hc. destruct (H4 s' c Hc) as (? & ?). split; [by apply Hext|done].
  - by eapply desk_sent.
  - intros r fl Hr. eapply flow_sent; [exact Hext|by eapply H9].
  - cbn. apply Forall_app. split; [|apply Forall_singleton; by eapply frame_sent].
    eapply Forall_impl; [exact H11|]. intros e. by apply frame_sent.
Qed.

Lemma inv_desk tr k n d : Inv env tr k n → desk_ok env tr (sent n) d → Inv env tr k (with_desk n d).
Proof. intros [] Hd. by split. Qed.

Lemma inv_offers tr k n o :
  Inv env tr k n → offers_ok env tr (tick n) o → offered_ok (flows n) o → Inv env tr k (with_offers n o).
Proof. intros [] ? ?. by split. Qed.

(** The offers that a handler does not speak of. *)
Lemma inv_offers_same tr k n o :
  Inv env tr k n → offerTargets o = offerTargets (offers n) → offerAccepts o = offerAccepts (offers n) → Inv env tr k (with_offers n o).
Proof.
  intros Hn Et Ea. destruct (i_offers _ _ _ _ Hn) as [H1 H2 H3]. apply inv_offers; [done| |].
  - split; rewrite ?Et, ?Ea; done.
  - unfold offered_ok. rewrite Et. apply (i_offered _ _ _ _ Hn).
Qed.

Lemma inv_registry tr k n g :
  Inv env tr k n → registry_ok env tr g → signers_grow (registry n) g → ptr_ok k (flows n) g → Inv env tr k (with_registry n g).
Proof.
  intros [] ? ? ?. split; try done. intros r f Hf. by eapply flow_world; [reflexivity| |eauto].
Qed.

(** The registry without its signers and waiters. *)
Lemma inv_registry_same tr k n g :
  Inv env tr k n → registry_ok env tr g → signers g = signers (registry n) → pendingDkgComplete g = pendingDkgComplete (registry n) →
  Inv env tr k (with_registry n g).
Proof.
  intros Hn Hg Es Ed. apply inv_registry; [done|done| |].
  - intros i a. unfold signer_of. by rewrite Es.
  - destruct (i_ptr _ _ _ _ Hn) as [? ? ? ?]. split; rewrite ?Es, ?Ed; done.
Qed.

Lemma inv_drop_flow tr k n r : Inv env tr k n → Inv env tr k (with_flows n (jdel (flows n) r)).
Proof.
  intros Hn. destruct (i_ptr _ _ _ _ Hn) as [[Hw Hw'] Hp1 Hp2 Hp3]. destruct Hn. split; try done.
  - intros r' su d o res Hr. apply (i_offered0 r' su d o res). eapply elem_jdel, Hr.
  - by apply all_jdel.
  - split; [by split; [apply jwf_jdel|]|by apply all_jdel| |].
    + intros i s cid r' Hs Hr. destruct (Hp2 i s cid r' Hs Hr) as [? H]. split; [done|]. intros f.
      cbn. rewrite jget_jdel by done. case_decide; [done|]. apply H.
    + intros a r' Hr. destruct (Hp3 a r' Hr) as [? H]. split; [done|]. intros f.
      cbn. rewrite jget_jdel by done. case_decide; [done|]. apply H.
Qed.

(** What is led to at [r]. *)
Record fits (n : Node) (r : nat) (f : Flow) : Prop := {
  f_ceremony : ∀ i s cid, signers (registry n) !! i = Some s → (cid, r) ∈ sg_pending s → in_ceremony (sg_agent s) cid f;
  f_dkg : ∀ a, (a, r) ∈ pendingDkgComplete (registry n) → awaits_dkg a f;
  f_offer : ∀ su d o res, f = SOffer su d o res → ∀ t, jget (offerTargets (offers n)) (hex (dr_id d)) = Some t → t = su_target su }.

Lemma inv_set_flow tr k n r f :
  Inv env tr k n → r < k → flow_ok env tr (tick n) (sent n) (registry n) f → fits n r f → Inv env tr k (with_flows n (jset (flows n) r f)).
Proof.
  intros Hn Hr Hf [F1 F2 F3]. destruct (i_ptr _ _ _ _ Hn) as [[Hw Hw'] Hp1 Hp2 Hp3]. destruct Hn. split; try done.
  - intros r' su d o res [?|[= -> <-]]%elem_jset_key; [by apply (i_offered0 r' su d o res)|by apply (F3 su d o res)].
  - by apply all_jset.
  - split; [by split; [apply jwf_jset|]|by apply all_jset| |].
    + intros i s cid r' Hs Hr'. destruct (Hp2 i s cid r' Hs Hr') as [? H]. split; [done|]. intros f'.
      cbn. rewrite jget_jset. case_decide; [|apply H]. subst r'. intros [= <-]. by eapply F1.
    + intros a r' Hr'. destruct (Hp3 a r' Hr') as [? H]. split; [done|]. intros f'.
      cbn. rewrite jget_jset. case_decide; [|apply H]. subst r'. intros [= <-]. by eapply F2.
Qed.

(** Nothing leads to [r]. *)
Definition unpointed (n : Node) (r : nat) : Prop :=
  (∀ i s cid, signers (registry n) !! i = Some s → (cid, r) ∉ sg_pending s) ∧ (∀ a, (a, r) ∉ pendingDkgComplete (registry n)).

Lemma fits_unpointed n r f :
  unpointed n r → (∀ su d o res, f = SOffer su d o res → ∀ t, jget (offerTargets (offers n)) (hex (dr_id d)) = Some t → t = su_target su) →
  fits n r f.
Proof. intros [H1 H2] H3. split; [|intros a Ha; by destruct (H2 a)|done]. intros i s cid Hs Hc. by destruct (H1 i s cid). Qed.

Lemma unpointed_fresh tr k n : Inv env tr k n → unpointed n k.
Proof.
  intros Hn. destruct (i_ptr _ _ _ _ Hn) as [_ _ H1 H2]. split.
  - intros i s cid Hs Hc. destruct (H1 i s cid k Hs Hc). lia.
  - intros a Ha. destruct (H2 a k Ha). lia.
Qed.

(** A flow that nothing can lead to. *)
Lemma unpointed_flow tr k n r f :
  Inv env tr k n → jget (flows n) r = Some f → (∀ a c, ¬ in_ceremony a c f) → (∀ a, ¬ awaits_dkg a f) → unpointed n r.
Proof.
  intros Hn Hf H1 H2. destruct (i_ptr _ _ _ _ Hn) as [_ _ Hp Hq]. split.
  - intros i s cid Hs Hc. destruct (Hp i s cid r Hs Hc) as [_ H]. by eapply H1, H.
  - intros a Ha. destruct (Hq a r Ha) as [_ H]. by eapply H2, H.
Qed.

Lemma inv_weaken tr k k' n : Inv env tr k n → k <= k' → Inv env tr k' n.
Proof.
  intros Hn Hk. destruct (i_ptr _ _ _ _ Hn) as [? Hp1 Hp2 Hp3]. destruct Hn. split; try done.
  - by eapply table_ok_weaken.
  - split; [done| | |].
    + intros r f Hf. specialize (Hp1 r f Hf). cbn in *. lia.
    + intros i s cid r Hs Hc. destruct (Hp2 i s cid r Hs Hc). split; [lia|done].
    + intros a r Ha. destruct (Hp3 a r Ha). split; [lia|done].
  - lia.
Qed.

(** The stream that frames to an agent go to is the agent's. *)
Lemma node_stream tr k n agent s : Inv env tr k n → jget (streams (table n)) agent = Some s → owns env tr s agent.
Proof.
  intros Hn Hs. apply (tk_stream _ _ _ (i_table _ _ _ _ Hn)) in Hs.
  apply list_elem_of_fmap in Hs as ([x v] & -> & Hx). apply (tk_live _ _ _ (i_table _ _ _ _ Hn)) in Hx as (c & Hc & Ha & _).
  apply (i_conns _ _ _ _ Hn x c (jget_elem _ _ _ Hc)). done.
Qed.

(** A change of what a stream's loop waits for. *)
Lemma inv_conn tr k n s c c' :
  Inv env tr k n → jget (conns n) s = Some c → authedPubkeyHex c' = authedPubkeyHex c → is_visiting c' = is_visiting c →
  nonce c' = nonce c → wait_ok env tr s c' → Inv env tr k (with_conns n (jset (conns n) s c')).
Proof.
  intros Hn Hc Ha Hv Hno Hw. pose proof (i_table _ _ _ _ Hn) as Ht. pose proof (i_conns _ _ _ _ Hn) as Hcs. destruct Hn. split; try done.
  - apply (table_ok_conns _ _ (conns n)); [done|apply jwf_jset, Ht|]. intros s'. cbn. rewrite jget_jset. case_decide; [|done].
    subst s'. rewrite Hc. unfold known. cbn. by rewrite Ha, Hv.
  - apply all_jset; [done|]. destruct (Hcs s c (jget_elem _ _ _ Hc)) as (? & ? & _). split; [by rewrite Hno|].
    split; [by rewrite Ha|done].
Qed.

End Evidence.

#[export] Hint Resolve said_grows owns_grows requested_grows session_grows connection_grows gate_grows endpoint_grows : evidence.

End SignalInvariant.
