(* ===== verification/SignalHandlers.v ===== *)
(** Every handler of the signaling streams keeps the invariant of [SignalTrace]. *)
From S2P Require Import Prelude Text JsMap Bytes Effects Wire FrostShares FrostHandler FrostInvariant DkgTopology Signaling SignalStreams SignalConnections SignalSessions SignalRegister SignalNode SignalInvariant.
Import Text JsMap Effects Bytes Wire FrostInvariant DkgTopology Signaling SignalStreams SignalConnections SignalSessions SignalRegister SignalNode SignalTable SignalTrace SignalInvariant.

Module SignalHandlers.

Section Handlers.
Context (env : SigEnv) (tr : list Input) (k : nat).

Abbreviation Keeps := (preserves (Inv env tr k)).

(** * Calls *)

Lemma wp_send s f n Q R :
  Q tt (with_sent (with_tick n (S (tick n))) (sent n ++ [(s, f)])) → R (with_tick n (S (tick n))) → wp (sendFrame env s f) n Q R.
Proof.
  intros HQ HR. unfold sendFrame, next_tick, wp, modify, throw, mbind, act_bind. cbn. by destruct (send_works env (tick n)).
Qed.

Lemma wp_send_fails s f n Q R :
  send_works env (tick n) = false → R (with_tick n (S (tick n))) → wp (sendFrame env s f) n Q R.
Proof. intros Hs HR. unfold wp, sendFrame, next_tick, mbind, act_bind. by rewrite Hs. Qed.

Lemma wp_tick n (Q : nat → Node → Prop) R : Q (tick n) (with_tick n (S (tick n))) → wp next_tick n Q R.
Proof. done. Qed.

Lemma wp_now n (Q : Z → Node → Prop) R : Q (clock env (tick n)) (with_tick n (S (tick n))) → wp (now env) n Q R.
Proof. done. Qed.

Lemma wp_random size n (Q : bytes → Node → Prop) R :
  Q (rand env (tick n) size) (with_tick n (S (tick n))) → wp (randomBytes env size) n Q R.
Proof. done. Qed.

Lemma inv_next n : Inv env tr k n → Inv env tr k (with_tick n (S (tick n))).
Proof. intros Hn. apply node_tick; [done|lia]. Qed.

Lemma keeps_tick : Keeps next_tick.
Proof. intros n Hn. by apply wp_tick, inv_next. Qed.

Lemma keeps_now : Keeps (now env).
Proof. intros n Hn. by apply wp_now, inv_next. Qed.

Lemma keeps_random size : Keeps (randomBytes env size).
Proof. intros n Hn. by apply wp_random, inv_next. Qed.

(** A frame that [s] may have, whatever was sent. *)
Definition may_have (s : nat) (f : FrameOut) : Prop :=
  personal f = true → ∃ agent, owns env tr s agent ∧ ∀ out, meant env tr out agent f.

Lemma may_have_ok s f out : may_have s f → frame_ok env tr out s f.
Proof. intros H Hp. destruct (H Hp) as (a & ? & ?). by exists a. Qed.

Lemma keeps_send s f : may_have s f → Keeps (sendFrame env s f).
Proof.
  intros Hf n Hn. apply wp_send; [|by apply inv_next]. apply (inv_sent env tr k (with_tick n (S (tick n)))); [by apply inv_next|].
  by apply may_have_ok.
Qed.

Lemma keeps_plain s f : personal f = false → Keeps (sendFrame env s f).
Proof. intros Hf. apply keeps_send. intros H. congruence. Qed.

Lemma keeps_try s f : may_have s f → Keeps (try_send env s f).
Proof. intros Hf. unfold try_send. apply preserves_try; [by apply keeps_send|intros; apply preserves_ret]. Qed.

Lemma keeps_detached m : Keeps m → Keeps (detached m).
Proof. intros Hm. unfold detached. apply preserves_try; [done|intros; apply preserves_ret]. Qed.

Lemma may_have_for s agent f : owns env tr s agent → (∀ out, meant env tr out agent f) → may_have s f.
Proof. intros Ho Hm _. by exists agent. Qed.

(** A frame to an agent, on the stream where it is reached. *)
Lemma keeps_tell agent f : (∀ out, meant env tr out agent f) → Keeps (tell env agent f).
Proof.
  intros Hm n Hn. unfold tell, stream_of. apply wp_bind, wp_gets. unfold tell_stream.
  destruct (jget (streams (table n)) agent) as [s|] eqn:E; [|by apply wp_ret].
  apply keeps_try; [|done]. eapply may_have_for; [by eapply node_stream|done].
Qed.

Lemma keeps_tell_stream st agent f :
  (∀ s, st = Some s → owns env tr s agent) → (∀ out, meant env tr out agent f) → Keeps (tell_stream env st f).
Proof.
  intros Ho Hm. unfold tell_stream. destruct st as [s|]; [|apply preserves_ret]. apply keeps_try.
  by apply (may_have_for _ agent); [apply Ho|].
Qed.

Lemma keeps_desk f : (∀ out d, desk_ok env tr out d → desk_ok env tr out (f d)) → Keeps (on_desk f).
Proof. intros Hf. apply preserves_modify. intros n Hn. apply inv_desk; [done|]. apply Hf, Hn. Qed.

Lemma keeps_set_wait s w : (∀ n c, Inv env tr k n → jget (conns n) s = Some c → wait_ok env tr s (mkConn (nonce c) (authedPubkeyHex c) (authed c) (is_visiting c) w)) → Keeps (set_wait s w).
Proof.
  intros Hw n Hn. unfold set_wait. apply wp_bind, wp_gets. destruct (jget (conns n) s) as [c|] eqn:E; [|by apply wp_ret].
  apply wp_modify. eapply inv_conn; try done. by eapply Hw.
Qed.

Lemma keeps_idle s w : (match w with WaitTargetPause _ | WaitInitiatorPause _ => False | _ => True end) → Keeps (set_wait s w).
Proof. intros Hw. apply keeps_set_wait. intros n c _ _. by destruct w. Qed.

Lemma keeps_drop r : Keeps (drop_flow r).
Proof. apply preserves_modify. intros n. apply inv_drop_flow. Qed.

(** * The desk *)

Lemma desk_pending out d v : desk_ok env tr out d → all_in (λ _ p, request_ok env tr p) v → desk_ok env tr out (with_pending d v).
Proof. intros [] Hv. by split. Qed.

Lemma desk_queued out d v : desk_ok env tr out d → all_in (λ t l, Forall (queued_ok env tr t) l) v → desk_ok env tr out (with_queued d v).
Proof. intros [] Hv. by split. Qed.

Lemma keeps_pending f :
  (∀ m, all_in (λ _ p, request_ok env tr p) m → all_in (λ _ p, request_ok env tr p) (f m)) →
  Keeps (on_desk (λ d, with_pending d (f (pendingConnectionRequests d)))).
Proof. intros Hf. apply keeps_desk. intros out d Hd. apply desk_pending; [done|]. apply Hf, Hd. Qed.

Lemma keeps_write w : active_ok env tr w → Keeps (forget_write w).
Proof.
  intros Hw. unfold forget_write. apply preserves_bind; [apply keeps_tick|]. intros t. apply keeps_desk. intros out d [].
  split; try done. by apply all_jset.
Qed.

Lemma keeps_open id p : request_ok env tr p → Keeps (open_request env id p).
Proof.
  intros Hp. unfold open_request. apply preserves_bind; [|intros _].
  - apply (keeps_pending (λ m, jset m id p)). intros m Hm. by apply all_jset.
  - apply preserves_bind; [apply keeps_now|]. intros t. by apply keeps_write.
Qed.

Lemma push_forall {A} (P : A → Prop) b q x : Forall P q → P x → Forall P (push_bounded b q x).
Proof.
  intros Hq Hx. unfold push_bounded. apply Forall_app. split; [|by apply Forall_singleton].
  destruct (_ <=? _)%nat; [|done]. destruct q; [done|]. by apply Forall_inv_tail in Hq.
Qed.

Lemma got_forall {K A} `{EqDecision K} (P : K → A → Prop) (m : jsmap K (list A)) key :
  all_in (λ k l, Forall (P k) l) m → Forall (P key) (default [] (jget m key)).
Proof. intros Hm. destruct (jget m key) eqn:E; [|constructor]. by apply (all_get _ _ _ _ Hm E). Qed.

Lemma keeps_notify agent f : (∀ out, meant env tr out agent f) → Keeps (enqueueNotification agent f).
Proof.
  intros Hf. apply keeps_desk. intros out d [H1 H2 H3 H4 H5 H6]. split; try done. apply all_jset; [done|].
  apply push_forall; [|by intros out' _]. by apply (got_forall (λ a f, ∀ out', out ⊆ out' → meant env tr out' a f)).
Qed.

Lemma keeps_queue_request target q : queued_ok env tr target q → Keeps (queue_request target q).
Proof.
  intros Hq n Hn. unfold queue_request. apply wp_bind, wp_gets, wp_bind, wp_modify, wp_ret. apply inv_desk; [done|].
  apply desk_queued; [apply Hn|]. apply all_jset; [apply Hn|]. apply push_forall; [|done].
  apply (got_forall (queued_ok env tr)), Hn.
Qed.

Lemma keeps_queue_or_tell s target q : queued_ok env tr target q → Keeps (queue_or_tell env s target q).
Proof.
  intros Hq. unfold queue_or_tell. apply preserves_bind; [by apply keeps_queue_request|]. intros [|]; [apply preserves_ret|by apply keeps_plain].
Qed.

(** * Connections *)

Lemma keeps_relay s sender target package profile :
  said env tr sender (ConnectionRequest target package) → Keeps (relay_request env s sender target package profile).
Proof.
  intros Hs. unfold relay_request. apply preserves_bind; [apply keeps_random|]. intros id. apply preserves_bind.
  { destruct profile; [apply preserves_ret|apply keeps_now]. }
  intros at_. set (f := ConnectionInbound _ _ _ _ _).
  assert (∀ t, queued_ok env tr target (mkQueued (hex id) sender f package t)) as Hq by (intros t; split; [done|by eexists _, _]).
  intros n Hn. apply wp_bind, wp_gets. destruct (jget (streams (table n)) target) as [ts|] eqn:E.
  - apply (node_stream _ _ _ _ _ _ Hn) in E. revert n Hn.
    change (Keeps (_ ← open_request env (hex id) (mkPendingRequest sender target package 1);
      try_catch (sendFrame env ts f) (λ _, _ ← on_desk (λ d, with_pending d (jdel (pendingConnectionRequests d) (hex id)));
        _ ← delete_active (hex id); t ← now env; queue_or_tell env s target (mkQueued (hex id) sender f package t)))).
    apply preserves_bind; [by apply keeps_open|]. intros _. apply preserves_try.
    + apply keeps_send. by apply (may_have_for _ target).
    + intros _. apply preserves_bind; [apply (keeps_pending (λ m, jdel m (hex id))); intros m; apply all_jdel|]. intros _.
      apply preserves_bind; [by apply keeps_write|]. intros _. apply preserves_bind; [apply keeps_now|]. intros t.
      by apply keeps_queue_or_tell.
  - apply wp_bind, wp_now. by apply keeps_queue_or_tell, inv_next.
Qed.

Lemma existing_keeps s sender target package profile existing :
  said env tr sender (ConnectionRequest target package) → Keeps (existing_known env s sender target package profile existing).
Proof. intros Hs. unfold existing_known. destruct existing; [by apply keeps_plain|by apply keeps_relay]. Qed.

Lemma keeps_created p ss connection :
  request_ok env tr p → (∀ s, ss = Some s → owns env tr s (pr_sender p)) →
  ∀ id, said_when env tr (pr_target p) (ConnectionResponse id accept)
    (λ n, ∃ q, jget (pendingConnectionRequests (desk n)) id = Some q ∧ pr_sender q = pr_sender p ∧ pr_target q = pr_target p) →
  Keeps (connection_created env p ss connection).
Proof.
  intros Hp Ho id Hs. assert (said env tr (pr_target p) (ConnectionResponse id accept)) as Hy.
  { destruct Hs as (tr1 & s & ? & ? & _). by exists tr1, s. }
  unfold connection_created. apply preserves_bind; [apply keeps_now|]. intros t. apply preserves_bind; [|intros _].
  { apply keeps_desk. intros out d []. split; try done. apply Forall_app. split; [done|]. apply Forall_singleton. right.
    by exists id, (pr_package p). }
  apply preserves_bind; [|intros _].
  { apply keeps_notify. intros out. exists id, (pr_package p). by left. }
  apply preserves_bind; [|intros _].
  { apply (keeps_tell_stream _ (pr_sender p)); [done|]. intros out. exists id, (pr_package p). by left. }
  apply keeps_tell. intros out. exists id, (pr_package p). by right.
Qed.

Lemma pending_ok n id p : Inv env tr k n → jget (pendingConnectionRequests (desk n)) id = Some p → request_ok env tr p.
Proof. intros Hn. apply (all_get (λ _ p, request_ok env tr p)), Hn. Qed.

Lemma keeps_disclosure_request requester id items :
  said env tr requester (DisclosureRequest id items) → Keeps (processDisclosureRequest env requester id items).
Proof.
  intros Hs n Hn. unfold processDisclosureRequest. apply wp_bind, wp_gets.
  destruct (jget _ id) as [p|] eqn:E; [|by apply wp_ret]. apply (pending_ok _ _ _ Hn) in E as Hp.
  case_bool_decide as Ht; [cbn [negb]|by apply wp_ret]. subst requester. revert n Hn E.
  intros n Hn _. revert n Hn. apply preserves_bind; [|intros _].
  - apply (keeps_pending (λ m, jset m id (mkPendingRequest (pr_sender p) (pr_target p) (pr_package p) 2))). intros m Hm. by apply all_jset.
  - apply keeps_tell. intros out. split; [done|]. by exists (pr_package p).
Qed.

Lemma keeps_disclosure_response sender id package :
  said env tr sender (DisclosureResponse id package) → Keeps (processDisclosureResponse env sender id package).
Proof.
  intros Hs n Hn. unfold processDisclosureResponse. apply wp_bind, wp_gets.
  destruct (jget _ id) as [p|] eqn:E; [|by apply wp_ret]. apply (pending_ok _ _ _ Hn) in E as Hp.
  case_bool_decide as Ht; [cbn [negb]|by apply wp_ret]. subst sender. apply keeps_tell; [|done].
  intros out. exists (pr_sender p), (pr_package p). done.
Qed.

Lemma keeps_lands t : Keeps (write_lands t).
Proof.
  apply keeps_desk. intros out d Hd. destruct (jget (activeWrites d) t) as [w|] eqn:E; [|done].
  pose proof (all_get _ _ _ _ (d_writes _ _ _ _ Hd) E) as Hw. destruct Hd. split; try done; cbn; [by apply all_jdel|].
  destruct w; [by apply all_jset|by apply all_jdel].
Qed.

End Handlers.
End SignalHandlers.

(** The handlers that establish a session keep the invariant of [SignalTrace]. *)
Import Text JsMap Effects Bytes Wire FrostInvariant DkgTopology Signaling SignalStreams SignalConnections SignalSessions SignalRegister SignalNode SignalTable SignalTrace SignalInvariant SignalHandlers.

Module SignalSessionHandlers.

Section Handlers.
Context (env : SigEnv) (tr : list Input) (k : nat).
(** Random ids are not drawn twice. *)
Hypothesis ids_unique : ∀ t t', rand env t 16 = rand env t' 16 → t = t'.

Abbreviation Keeps := (preserves (Inv env tr k)).
Abbreviation I := (Inv env tr k).

Lemma keeps_set_flow r f n :
  I n → r < k → flow_ok env tr (tick n) (sent n) (registry n) f → fits n r f → wp (set_flow r f) n (λ _, I) I.
Proof. intros. apply wp_modify. by apply inv_set_flow. Qed.

(** A flow that changes and that the same things lead to. *)
Lemma fits_same n r f f' :
  I n → jget (flows n) r = Some f → (∀ a c, in_ceremony a c f → in_ceremony a c f') → (∀ a, awaits_dkg a f → awaits_dkg a f') →
  (∀ su d o res, f' = SOffer su d o res → ∀ t, jget (offerTargets (offers n)) (hex (dr_id d)) = Some t → t = su_target su) →
  fits n r f'.
Proof.
  intros Hn Hf H1 H2 H3. destruct (i_ptr _ _ _ _ Hn) as [_ _ Hp Hq]. split; [| |done].
  - intros i s cid Hs Hc. destruct (Hp i s cid r Hs Hc) as [_ H]. by apply H1, H.
  - intros a Ha. destruct (Hq a r Ha) as [_ H]. by apply H2, H.
Qed.

Lemma inv_bound n r f : I n → jget (flows n) r = Some f → r < k.
Proof. intros Hn Hf. destruct (i_ptr _ _ _ _ Hn) as [_ Hp _ _]. by apply (all_get _ _ _ _ Hp Hf). Qed.

Lemma inv_flow n r f : I n → jget (flows n) r = Some f → flow_ok env tr (tick n) (sent n) (registry n) f.
Proof. intros Hn Hf. by apply (all_get _ _ _ _ (i_flows _ _ _ _ Hn) Hf). Qed.

(** * The offer *)

(** A key that is drawn now is not in use. *)
Lemma fresh_target n h t : I n → jget (offerTargets (offers n)) h = Some t → h ≠ hex (rand env (tick n) 16).
Proof.
  intros Hn Hh. destruct (i_offers _ _ _ _ Hn) as [Ho _ _]. destruct (all_get _ _ _ _ Ho Hh) as (sid & -> & t' & Ht & ->).
  intros E%(inj hex)%ids_unique. lia.
Qed.

Lemma inv_draw n target :
  I n → I (with_offers (with_tick n (S (S (tick n)))) (with_offers_of (offers n)
            (jset (offerTargets (offers n)) (hex (rand env (tick n) 16)) target) (offerAccepts (offers n)) (offerWaiters (offers n)) (rejectedOffers (offers n)))).
Proof.
  intros Hn. apply inv_offers; [apply node_tick; [done|lia]| |].
  - destruct (i_offers _ _ _ _ Hn) as [H1 H2 [H3 H4]]. split; cbn [offerTargets offerAccepts with_offers_of tick with_tick].
    + apply all_jset; [|by eexists; split; [|exists (tick n); split; [lia|]]].
      intros h v Hv. destruct (H1 h v Hv) as (sid & ? & ?). exists sid. split; [done|]. eapply drawn_mono; [|done]. lia.
    + intros h ep He. destruct (H2 h ep He) as (t & sid & Ht & ? & ?). exists t, sid. split; [|done].
      rewrite jget_jset_ne; [done|]. intros E. by apply (fresh_target n h t).
    + split; [by apply jwf_jset|done].
  - intros r su d o res Hr t. cbn. rewrite jget_jset. case_decide as E; [|by apply (i_offered _ _ _ _ Hn) with (1 := Hr)].
    apply (inj hex) in E. apply (i_flows _ _ _ _ Hn) in Hr as (_ & _ & _ & _ & t' & Ht & Hd). cbn in *.
    rewrite Hd in E. apply ids_unique in E. lia.
Qed.

Lemma no_accept n : I n → jget (offerAccepts (offers n)) (hex (rand env (tick n) 16)) = None.
Proof.
  intros Hn. destruct (jget (offerAccepts (offers n)) _) as [ep|] eqn:E; [|done].
  destruct (i_offers _ _ _ _ Hn) as [_ H2 _]. destruct (H2 _ _ E) as (t & sid & Ht & _). by apply fresh_target in Ht.
Qed.

Lemma draw_ok r su ts i n :
  I n → r < k → unpointed n r → session_ok env tr su → gate_ok env tr su → owns env tr ts (su_target su) →
  signer_of (registry n) i (su_initiator su) → wp (draw_session env r su ts i) n (λ _, I) I.
Proof.
  intros Hn Hr Hu Hs Hg Ho Hi. pose proof (no_accept n Hn) as Hno. apply (inv_draw n (su_target su)) in Hn as Hn1.
  unfold draw_session. apply wp_bind, wp_random, wp_bind, wp_now, wp_bind, wp_gets, wp_bind, wp_modify, wp_bind, wp_gets.
  set (sid := rand env (tick n) 16) in *. set (d := mkDrawn ts i sid _ _ _).
  match goal with |- wp _ ?m _ _ => set (n1 := m) in * end.
  replace (jget (offerAccepts (offers n1)) (hex sid)) with (None : option Endpoint) by (symmetry; exact Hno).
  assert (∀ m, I m → tick n1 <= tick m → unpointed m r → signer_of (registry m) i (su_initiator su) →
    jget (offerTargets (offers m)) (hex sid) = Some (su_target su) → ∀ o,
    wp (_ ← on_offers (λ o, with_offers_of o (offerTargets o) (offerAccepts o) (jset (offerWaiters o) (hex sid) r) (rejectedOffers o));
        set_flow r (SOffer su d o None)) m (λ _, I) I) as Hend.
  { intros m Hm Ht Hmu Hmi Hmt o. apply wp_bind, wp_modify. apply keeps_set_flow; [by apply inv_offers_same|done| |].
    - split; [done|]. split; [done|]. split; [done|]. split; [done|]. exists (tick n). split; [|done]. cbn in *. lia.
    - apply fits_unpointed; [done|]. intros su' d' o' res [= <- <- <- <-] t Hst. cbn in Hst. congruence. }
  assert (jget (offerTargets (offers n1)) (hex sid) = Some (su_target su)) as Ht1 by (cbn; by rewrite jget_jset_eq).
  apply wp_bind, wp_gets. destruct (wants_session_offer (su_ask su)); [|by apply Hend].
  destruct (jget (streams (table n1)) (su_target su)) as [ts'|] eqn:E; [|by apply Hend].
  apply (node_stream _ _ _ _ _ _ Hn1) in E. apply wp_bind, wp_send; [|by apply inv_next].
  apply Hend; try done; [|cbn; lia]. apply (inv_sent env tr k (with_tick n1 (S (tick n1)))); [by apply inv_next|].
  apply may_have_ok, (may_have_for env tr _ (su_target su)); [done|]. intros out. by exists su.
Qed.

Lemma find_signer_ok r su n :
  I n → r < k → unpointed n r → session_ok env tr su → gate_ok env tr su → wp (find_signer env r su) n (λ _, I) I.
Proof.
  intros Hn Hr Hu Hs Hg. unfold find_signer. apply wp_bind, wp_gets.
  destruct (jget (streams (table n)) (su_target su)) as [ts|] eqn:E; [|by apply (keeps_plain env tr k)].
  apply (node_stream _ _ _ _ _ _ Hn) in E. apply wp_bind, wp_gets. destruct (jget (thresholdSigners _) _) as [i|] eqn:Ei.
  - apply draw_ok; try done. by apply (all_get _ _ _ _ (g_threshold _ _ _ (i_registry _ _ _ _ Hn)) Ei).
  - apply keeps_set_flow; [done|done|done|]. by apply fits_unpointed.
Qed.

Lemma process_session_ok r su n :
  I n → r < k → unpointed n r → session_ok env tr su → wp (processSessionRequest env r su) n (λ _, I) I.
Proof.
  intros Hn Hr Hu Hs. unfold processSessionRequest. destruct (requireConnectionGate env) eqn:Eg.
  - destruct (truthy _); [|by apply (keeps_plain env tr k)]. apply keeps_set_flow; [done|done|done|]. by apply fits_unpointed.
  - apply find_signer_ok; try done. intros H. congruence.
Qed.

Lemma connection_known_ok r su n c :
  I n → r < k → unpointed n r → session_ok env tr su →
  (∀ id, c = Some id → ∃ x, connection_ok env tr x ∧ pair_key (c_a x) (c_b x) = pair_key (su_initiator su) (su_target su) ∧ id = c_id x) →
  wp (connection_known env r su c) n (λ _, I) I.
Proof.
  intros Hn Hr Hu Hs Hc. unfold connection_known. destruct c as [id|]; [|by apply (keeps_plain env tr k)].
  case_bool_decide as E; [|by apply (keeps_plain env tr k)]. apply find_signer_ok; try done. intros _.
  destruct (Hc id eq_refl) as (x & ? & ? & ->). by exists x.
Qed.

(** ** Signers *)

Lemma keeps_new_signer agent primary r :
  key_ok env tr agent primary → ∀ n, I n → unpointed n r →
  wp (new_signer agent primary) n (λ i n', I n' ∧ unpointed n' r ∧ signer_of (registry n') i agent ∧ tick n' = tick n ∧
    offers n' = offers n ∧ flows n' = flows n) I.
Proof.
  intros Hk n Hn [Hu1 Hu2]. unfold new_signer. apply wp_bind, wp_gets, wp_bind, wp_modify, wp_ret.
  set (g := registry n). set (i := length (signers g)). set (s := mkSigner agent primary []).
  assert (∀ j s', (signers g ++ [s]) !! j = Some s' → signers g !! j = Some s' ∨ s' = s) as Hlk.
  { intros j s' [?|[_ Hj]]%lookup_app_Some; [by left|right]. by apply list_lookup_singleton_Some in Hj as [_ <-]. }
  assert (signers_grow g (with_signers g (signers g ++ [s]) (jset (thresholdSigners g) agent i) (jset (delegatedSigners g) agent i))) as Hgr.
  { intros j a (s' & Hs' & ?). exists s'. split; [|done]. cbn. by apply lookup_app_l_Some. }
  assert (signer_of (with_signers g (signers g ++ [s]) (jset (thresholdSigners g) agent i) (jset (delegatedSigners g) agent i)) i agent) as Hi.
  { exists s. split; [|done]. cbn. apply lookup_app_Some. right. split; [done|]. by rewrite Nat.sub_diag. }
  split; [|split; [|done]].
  - apply inv_registry; [done| |done|].
    + destruct (i_registry _ _ _ _ Hn). split; try done.
      * cbn. apply Forall_app. split; [done|]. by apply Forall_singleton.
      * cbn. apply all_jset; [|done]. intros a j Hj. by apply Hgr, g_threshold0.
      * cbn. apply all_jset; [|done]. intros a j Hj. by apply Hgr, g_delegated0.
    + destruct (i_ptr _ _ _ _ Hn) as [? ? Hp ?]. split; try done. cbn. intros j s' cid r' [Hj| ->]%Hlk; [by apply (Hp j)|].
      by intros ?%not_elem_of_nil.
  - split; [|done]. cbn. intros j s' cid [Hj| ->]%Hlk; [by eapply Hu1|]. apply not_elem_of_nil.
Qed.

Lemma primary_known_ok r su ts read n :
  I n → r < k → unpointed n r → session_ok env tr su → gate_ok env tr su → owns env tr ts (su_target su) →
  (∀ key, read = Some key → key_ok env tr (su_initiator su) key) → wp (primary_known env r su ts read) n (λ _, I) I.
Proof.
  intros Hn Hr Hu Hs Hg Ho Hk. unfold primary_known. apply wp_bind, wp_gets.
  assert (∀ key m, I m → unpointed m r → key_ok env tr (su_initiator su) key →
    wp (i ← new_signer (su_initiator su) key; draw_session env r su ts i) m (λ _, I) I) as Hgo.
  { intros key m Hm Hmu Hkey. apply wp_bind. eapply wp_mono; [by apply keeps_new_signer| |done].
    intros i n' (? & ? & ? & _). by apply draw_ok. }
  destruct (jget (primaryPubkeys (registry n)) (su_initiator su)) as [key|] eqn:E.
  - apply Hgo; [done|done|]. by apply (all_get _ _ _ _ (g_primary _ _ _ (i_registry _ _ _ _ Hn)) E).
  - destruct read as [key|]; [|by apply (keeps_plain env tr k)]. apply wp_bind, wp_modify. apply Hgo; [|done|by apply Hk].
    apply inv_registry_same; [done| |done|done]. destruct (i_registry _ _ _ _ Hn). split; try done. cbn.
    apply all_jset; [done|by apply Hk].
Qed.

(** ** The answer of the target *)

Lemma resolve_offer_keeps r b : Keeps (resolve_offer r b).
Proof.
  intros n Hn. unfold resolve_offer. apply wp_bind, wp_gets.
  destruct (jget (flows n) r) as [[| |su d o []| | | | | | | | | |]|] eqn:E; try by apply wp_ret.
  apply keeps_set_flow; [done|by eapply inv_bound|by apply (inv_flow n r _ Hn E)|].
  eapply fits_same; [done|done|by intros []|by intros|]. intros su' d' o' res [= <- <- <- <-].
  apply (i_offered _ _ _ _ Hn r su d o None). by apply jget_elem.
Qed.

Lemma settle_keeps h b : Keeps (settle_waiter h b).
Proof.
  unfold settle_waiter. apply preserves_bind; [apply preserves_gets|]. intros [r|]; [|apply preserves_ret].
  apply preserves_bind; [apply resolve_offer_keeps|]. intros _. apply preserves_modify. intros n Hn. by apply inv_offers_same.
Qed.

Lemma offer_accepted_keeps agent sid ep : said env tr agent (SessionOfferAccept sid ep) → Keeps (offer_accepted agent sid ep).
Proof.
  intros Hs n Hn. unfold offer_accepted. destruct (_ || _); [by apply wp_ret|]. apply wp_bind, wp_gets.
  case_bool_decide as E; [cbn [negb]|by apply wp_ret]. apply wp_bind, wp_modify. apply settle_keeps.
  destruct (i_offers _ _ _ _ Hn) as [H1 H2 [H3 H4]]. apply inv_offers; [done| |by apply (i_offered _ _ _ _ Hn)].
  split; cbn; [done| |split; [done|by apply jwf_jset]]. intros h ep'. rewrite jget_jset. case_decide as Eh; [|apply H2].
  intros [= <-]. subst h. by exists agent, sid.
Qed.

Lemma offer_rejected_keeps agent sid : Keeps (offer_rejected agent sid).
Proof.
  intros n Hn. unfold offer_rejected. destruct sid as [sid|]; [|by apply wp_ret]. apply wp_bind, wp_gets.
  case_bool_decide as E; [cbn [negb]|by apply wp_ret]. apply wp_bind, wp_modify. apply settle_keeps. by apply inv_offers_same.
Qed.

Lemma inv_settled n h w r :
  I n → I (with_offers n (with_offers_of (offers n) (jdel (offerTargets (offers n)) h) (jdel (offerAccepts (offers n)) h) w r)).
Proof.
  intros Hn. destruct (i_offers _ _ _ _ Hn) as [H1 H2 [H3 H4]].
  assert (∀ h' t, jget (jdel (offerTargets (offers n)) h) h' = Some t → jget (offerTargets (offers n)) h' = Some t) as Hsub.
  { intros h' t. rewrite jget_jdel by done. by case_decide. }
  apply inv_offers; [done| |].
  - split; cbn; [by apply all_jdel| |split; by apply jwf_jdel]. intros h' ep. rewrite !jget_jdel by done. case_decide; [done|apply H2].
  - intros r' su d o res Hr t Ht. cbn in Ht. apply Hsub in Ht. by apply (i_offered _ _ _ _ Hn r' su d o res).
Qed.

Lemma offer_settled_ok r su d offered accepted n :
  I n → r < k → unpointed n r → drawn_ok env tr (tick n) (registry n) su d →
  (∀ t, jget (offerTargets (offers n)) (hex (dr_id d)) = Some t → t = su_target su) →
  wp (offer_settled env r su d offered accepted) n (λ _, I) I.
Proof.
  intros Hn Hr Hu Hd Ht. unfold offer_settled. apply wp_bind, wp_gets, wp_bind, wp_modify.
  match goal with |- wp _ ?m _ _ => set (n1 := m) end. assert (I n1) as Hn1 by by apply inv_offers_same.
  assert (endpoint_ok env tr (su_target su) (dr_id d)
    (if accepted then default no_endpoint (jget (offerAccepts (offers n)) (hex (dr_id d))) else no_endpoint)) as He.
  { destruct accepted; [|by left]. destruct (jget (offerAccepts (offers n)) _) as [ep|] eqn:E; [|by left]. right.
    destruct (i_offers _ _ _ _ Hn) as [_ H2 _]. destruct (H2 _ _ E) as (t & sid & Et & Eh & Hsaid).
    apply (inj hex) in Eh. subst sid. by apply Ht in Et as ->. }
  destruct (accepted && _); [by apply wp_throw|]. apply wp_bind, wp_modify.
  match goal with |- wp _ ?m _ _ => set (n2 := m) end. assert (I n2) as Hn2 by by apply (inv_settled n1).
  destruct (offered && negb accepted); [by apply (keeps_plain env tr k)|].
  apply keeps_set_flow; [done|done|done|]. by apply fits_unpointed.
Qed.

End Handlers.
End SignalSessionHandlers.

(** The ceremony and the assignment keep the invariant of [SignalTrace]: what is sent is
    what the target accepted, what the client was asked to sign and what it returned. *)
Import Text JsMap Effects Bytes Wire FrostInvariant DkgTopology Signaling SignalStreams SignalConnections SignalSessions SignalRegister SignalNode SignalTable SignalTrace SignalInvariant SignalHandlers SignalSessionHandlers.

Module SignalCeremonyHandlers.

Section Handlers.
Context (env : SigEnv) (tr : list Input) (k : nat).

Abbreviation Keeps := (preserves (Inv env tr k)).
Abbreviation I := (Inv env tr k).

(** * Signers and their ceremonies *)

Lemma signers_alter n i f j s :
  alter (λ s, mkSigner (sg_agent s) (sg_primary s) (f (sg_pending s))) i (signers (registry n)) !! j = Some s →
  ∃ s0, signers (registry n) !! j = Some s0 ∧ sg_agent s = sg_agent s0 ∧ sg_primary s = sg_primary s0 ∧
    sg_pending s = if decide (i = j) then f (sg_pending s0) else sg_pending s0.
Proof.
  destruct (decide (i = j)) as [<-|Hne].
  - rewrite list_lookup_alter_eq. destruct (signers (registry n) !! i) as [s0|]; [|done]. intros [= <-]. by exists s0.
  - rewrite list_lookup_alter_ne by done. intros ?. by exists s.
Qed.

Lemma inv_pending n i f :
  I n →
  (∀ s cid r, signers (registry n) !! i = Some s → (cid, r) ∈ f (sg_pending s) →
    r < k ∧ ∀ fl, jget (flows n) r = Some fl → in_ceremony (sg_agent s) cid fl) →
  I (with_registry n (with_signers (registry n)
       (alter (λ s, mkSigner (sg_agent s) (sg_primary s) (f (sg_pending s))) i (signers (registry n)))
       (thresholdSigners (registry n)) (delegatedSigners (registry n)))).
Proof.
  intros Hn Hf. set (g := with_signers _ _ _ _).
  assert (signers_grow (registry n) g) as Hg.
  { intros j a (s & Hs & Ha). destruct (decide (i = j)) as [<-|Hne].
    - exists (mkSigner (sg_agent s) (sg_primary s) (f (sg_pending s))). split; [|done]. cbn. by rewrite list_lookup_alter_eq, Hs.
    - exists s. split; [|done]. cbn. by rewrite list_lookup_alter_ne. }
  apply inv_registry; [done| |done|].
  - destruct (i_registry _ _ _ _ Hn). split; try done.
    + cbn. apply list.Forall_lookup. intros j s Hj. apply signers_alter in Hj as (s0 & Hj & -> & -> & _).
      by eapply (Forall_lookup_1 _ _ _ _ g_signers0).
    + intros a j Hj. by apply Hg, g_threshold0.
    + intros a j Hj. by apply Hg, g_delegated0.
  - destruct (i_ptr _ _ _ _ Hn) as [? ? Hp ?]. split; try done. intros j s cid r Hj. cbn in Hj.
    apply signers_alter in Hj as (s0 & Hj & -> & _ & ->). case_decide; [subst j; by apply Hf|by apply (Hp j)].
Qed.

Lemma keeps_forget i cid : Keeps (set_pending_ceremonies i (λ m, jdel m cid)).
Proof.
  intros n Hn. apply wp_modify. apply (inv_pending n i (λ m, jdel m cid)); [done|]. intros s c r Hs Hr.
  destruct (i_ptr _ _ _ _ Hn) as [_ _ Hp _]. apply (Hp i); [done|]. by eapply elem_jdel.
Qed.

Lemma resolve_ceremony_ok r res n :
  I n → (∀ su d cp b, jget (flows n) r = Some (SCeremony su d cp b None) → ∀ sig, res = Ok sig →
    signed env tr (su_initiator su) (dr_id d) sig) → wp (resolve_ceremony r res) n (λ _, I) I.
Proof.
  intros Hn Hres. unfold resolve_ceremony. apply wp_bind, wp_gets.
  destruct (jget (flows n) r) as [[| | | |su d cp b []| | | | | | | |]|] eqn:E; try by apply wp_ret.
  apply keeps_set_flow; [done|by eapply inv_bound| |].
  - destruct (inv_flow env tr k n r _ Hn E) as (? & ? & ? & _). repeat (split; [done|]).
    intros sig [= ->]. by eapply Hres.
  - by eapply fits_same; [done|done|..].
Qed.

Lemma ceremony_result_keeps agent cid sig :
  said env tr agent (CeremonyResult cid sig) → Keeps (ceremony_result agent cid sig).
Proof.
  intros Hs n Hn. unfold ceremony_result. apply wp_bind, wp_gets. case_bool_decide; [by apply wp_ret|].
  destruct (jget (delegatedSigners (registry n)) agent) as [i|] eqn:Ei; [|by apply wp_ret].
  apply (all_get _ _ _ _ (g_delegated _ _ _ (i_registry _ _ _ _ Hn))) in Ei as (s & Hi & Ha).
  apply wp_bind, wp_gets. rewrite Hi. cbn [mbind option_bind]. destruct (jget (sg_pending s) cid) as [r|] eqn:Er; [|by apply wp_ret].
  destruct (i_ptr _ _ _ _ Hn) as [_ _ Hp _]. destruct (Hp i s cid r Hi (jget_elem _ _ _ Er)) as [_ Hin].
  apply wp_bind. apply wp_modify. apply resolve_ceremony_ok.
  - by apply (keeps_forget i cid).
  - intros su d cp b Hf sig' Hsig. destruct sig as [sig0|]; [|done]. injection Hsig as <-.
    destruct (Hin _ Hf) as [Hsu ->]. unfold signed. by rewrite Hsu, Ha.
Qed.

Lemma ceremony_timeout_keeps r : Keeps (ceremony_timeout r).
Proof.
  intros n Hn. unfold ceremony_timeout. apply wp_bind, wp_gets.
  destruct (jget (flows n) r) as [[| | | |su d cp b []| | | | | | | |]|] eqn:E; try by apply wp_ret.
  apply wp_bind, wp_modify, resolve_ceremony_ok; [by apply (keeps_forget (dr_signer d) (ceremony_id (dr_id d)))|done].
Qed.

(** * The ceremony is started *)

Definition asked_ok (r : nat) (su : Setup) (d : Drawn) (cp : Endpoint) (n : Node) : Prop :=
  I n ∧ asked env (sent n) su d cp ∧ drawn_ok env tr (tick n) (registry n) su d ∧ ∀ b, fits n r (SCeremony su d cp b None).

Lemma ask_ok r su d cp n :
  I n → r < k → unpointed n r → jget (flows n) r = None → drawn_ok env tr (tick n) (registry n) su d →
  endpoint_ok env tr (su_target su) (dr_id d) cp →
  wp (ask_ceremony env r (dr_signer d) (ceremony_id (dr_id d)) (setup_tbs env su d cp)) n
     (λ b n', if b : bool then asked_ok r su d cp n' else I n') I.
Proof.
  intros Hn Hr [Hu1 Hu2] Hno Hd He. destruct Hd as (Hs & Hg & Ho & (s & Hi & Ha) & Hdr).
  unfold ask_ceremony. apply wp_bind, wp_gets. rewrite Hi. apply wp_bind, wp_gets. rewrite Ha.
  destruct (jget (streams (table n)) (su_initiator su)) as [st|] eqn:E; [|by apply wp_ret].
  apply (node_stream _ _ _ _ _ _ Hn) in E. set (f := CeremonyRequest _ _).
  assert (may_have env tr st f) as Hf.
  { apply (may_have_for env tr _ (su_initiator su)); [done|]. intros out. exists su, d, cp. done. }
  apply wp_bind, wp_try, wp_bind, wp_send; [|intros _; apply wp_ret; by apply wp_ret, inv_next].
  apply wp_ret. match goal with |- wp _ ?m _ _ => set (n1 := m) end.
  assert (I n1) as Hn1 by (apply (inv_sent env tr k (with_tick n (S (tick n)))); [by apply inv_next|by apply may_have_ok]).
  apply wp_bind, wp_modify, wp_ret. split; [|split; [|split]].
  - apply (inv_pending n1 (dr_signer d) (λ m, jset m (ceremony_id (dr_id d)) r)); [done|].
    intros s' cid r' Hs' [Hin|[= -> ->]]%elem_jset_key.
    + destruct (i_ptr _ _ _ _ Hn1) as [_ _ Hp _]. by apply (Hp (dr_signer d)).
    + split; [done|]. intros fl Hfl. change (jget (flows n) r = Some fl) in Hfl. congruence.
  - exists st. cbn. set_solver.
  - split; [done|]. split; [done|]. split; [done|]. split.
    + exists (mkSigner (sg_agent s) (sg_primary s) (jset (sg_pending s) (ceremony_id (dr_id d)) r)). split; [|done].
      cbn. by rewrite list_lookup_alter_eq, Hi.
    + eapply drawn_mono; [|done]. cbn. lia.
  - intros b. split; [| |done].
    + intros j s' cid Hj Hin. cbn in Hj. apply (signers_alter n1) with (f := λ m, jset m (ceremony_id (dr_id d)) r) in Hj as (s0 & Hj & -> & _ & Ep).
      rewrite Ep in Hin. case_decide.
      * subst j. change (signers (registry n) !! dr_signer d = Some s0) in Hj. apply elem_jset_key in Hin as [Hin|[= ->]].
        -- by destruct (Hu1 _ _ cid Hj).
        -- simplify_eq. done.
      * change (signers (registry n) !! j = Some s0) in Hj. by destruct (Hu1 _ _ cid Hj).
    + intros a Hin. by destruct (Hu2 a).
Qed.

Lemma keeps_mark a c : Keeps (mark_in_flight a c).
Proof. apply preserves_modify. intros n. apply inv_frost. Qed.

Lemma keeps_clear a : Keeps (clear_in_flight a).
Proof. apply preserves_modify. intros n. apply inv_frost. Qed.

Lemma finally_ok su m n : wp m n (λ _, I) I → wp (finally_clear su m) n (λ _, I) I.
Proof.
  intros Hm. unfold finally_clear. apply wp_bind, wp_try. eapply wp_mono; [exact Hm| |].
  - intros ? n'. apply keeps_clear.
  - intros n' Hn' e. apply wp_bind, wp_modify. by apply wp_throw, inv_frost.
Qed.

Lemma ceremony_failed_keeps su f : Keeps (ceremony_failed env su f).
Proof. intros n Hn. unfold ceremony_failed. by apply finally_ok, (keeps_plain env tr k). Qed.

Lemma profiles_known_ok r su d cp p q n :
  I n → r < k → unpointed n r → jget (flows n) r = None → drawn_ok env tr (tick n) (registry n) su d →
  endpoint_ok env tr (su_target su) (dr_id d) cp → wp (profiles_known env r su d cp p q) n (λ _, I) I.
Proof.
  intros Hn Hr Hu Hno Hd He. unfold profiles_known. apply wp_bind, wp_gets. destruct (FrostHandler.checkConflict _ _ _ _); [by apply (keeps_plain env tr k)|].
  apply wp_bind, wp_modify. match goal with |- wp _ ?m _ _ => set (n1 := m) end.
  assert (I n1) as Hn1 by by apply inv_frost. apply wp_bind. eapply wp_mono; [by apply (ask_ok r su d cp n1)| |done].
  intros [|] n2 H2; [|by apply ceremony_failed_keeps]. destruct H2 as (? & ? & ? & ?). by apply keeps_set_flow.
Qed.

(** * The assignment *)

Lemma keeps_mark_delivered sid both : Keeps (mark_delivered sid both).
Proof. apply preserves_modify. intros n Hn. destruct (jget (pendingSessions (offers n)) (hex sid)); by apply inv_offers_same. Qed.

Lemma keeps_record su d : Keeps (record_session env su d).
Proof.
  unfold record_session. apply preserves_bind; [apply keeps_now|]. intros t. apply preserves_modify.
  intros n Hn. by apply inv_offers_same.
Qed.

Lemma deliver_keeps su d a :
  owns env tr (su_stream su) (su_initiator su) → owns env tr (dr_target_stream d) (su_target su) →
  participant_a a = hex_prefix (su_initiator su) → participant_b a = hex_prefix (su_target su) →
  ∀ n, I n → assignment_ok env tr (sent n) a → wp (deliver_assignment env su d a) n (λ _, I) I.
Proof.
  intros Ho1 Ho2 Ha Hb n Hn Hok. unfold deliver_assignment. apply wp_bind, wp_try.
  assert (∀ m s agent, I m → assignment_ok env tr (sent m) a → owns env tr s agent →
    (hex_prefix agent = participant_a a ∨ hex_prefix agent = participant_b a) →
    wp (_ ← sendFrame env s (SessionAssigned a); mret true) m
      (λ _ m', I m' ∧ assignment_ok env tr (sent m') a) (λ m', I m' ∧ assignment_ok env tr (sent m') a)) as Hsend.
  { intros m s agent Hm Hmo Hs Hp. apply wp_bind, wp_send; [apply wp_ret; split|split; [by apply inv_next|done]].
    - apply (inv_sent env tr k (with_tick m (S (tick m)))); [by apply inv_next|]. intros _. by exists agent.
    - eapply assignment_sent; [|done]. cbn. set_solver. }
  eapply wp_mono; [apply (Hsend n _ (su_initiator su)); [done|done|done|by left]| |]; cycle 1.
  { intros n' [? ?] e. apply wp_ret. by apply wp_ret. }
  intros [] n' [Hn' Hok']; [|by apply wp_ret]. apply wp_bind, wp_modify.
  match goal with |- wp _ ?m _ _ => set (n2 := m) end.
  assert (I n2) as Hn2 by by apply (keeps_mark_delivered (dr_id d) false).
  apply wp_bind, wp_try. eapply wp_mono; [apply (Hsend n2 _ (su_target su)); [done|done|done|by right]| |].
  - intros [] n3 [? ?]; [by apply keeps_mark_delivered|by apply wp_ret].
  - intros n3 [? ?] e. apply wp_ret. by apply wp_ret.
Qed.

Lemma issue_ok su d cp b sig signals n :
  I n → drawn_ok env tr (tick n) (registry n) su d → endpoint_ok env tr (su_target su) (dr_id d) cp →
  asked env (sent n) su d cp → signed env tr (su_initiator su) (dr_id d) sig →
  wp (issue_assignment env su d cp b sig signals) n (λ _, I) I.
Proof.
  intros Hn (Hs & Hg & Ho & (s & Hi & Ha) & Hdr) He Hask Hsig. unfold issue_assignment.
  apply wp_bind, wp_gets. rewrite Hi. cbn [from_option]. apply wp_bind, wp_tick.
  match goal with |- wp _ ?m _ _ => set (n1 := m) end. assert (I n1) as Hn1 by by apply inv_next.
  destruct (pickRelay env _ _) as [relay|]; [|by apply (keeps_plain env tr k)].
  assert (key_ok env tr (su_initiator su) (sg_primary s)) as Hkey.
  { rewrite <- Ha. apply (Forall_lookup_1 _ _ _ _ (g_signers _ _ _ (i_registry _ _ _ _ Hn)) Hi). }
  apply wp_bind. assert (wp (sign_for_relay env su d cp) n1 (λ _ m, I m ∧ asked env (sent m) su d cp) I) as Hsign.
  { unfold sign_for_relay. destruct (default relayed _); [by apply wp_ret|]. apply wp_bind, wp_tick.
    destruct (directory_sign env _ _); [apply wp_ret; split; [by apply inv_next|done]|apply wp_throw; by apply inv_next]. }
  eapply wp_mono; [exact Hsign| |done]. intros rs n2 [Hn2 Hask2]. apply wp_bind. unfold record_session.
  apply wp_bind, wp_now, wp_modify. match goal with |- wp _ ?m _ _ => set (n3 := m) end.
  assert (I n3) as Hn3. { apply inv_offers_same; [by apply inv_next|done|done]. }
  apply deliver_keeps; try done; [apply Hs|]. by eexists su, d, b, signals, rs, relay, cp, sig, (sg_primary s).
Qed.

Lemma ceremony_done_ok r su d cp b res n :
  I n → r < k → (∀ sig, fits n r (SSignals su d cp b sig)) → drawn_ok env tr (tick n) (registry n) su d →
  endpoint_ok env tr (su_target su) (dr_id d) cp → asked env (sent n) su d cp →
  (∀ sig, res = Ok sig → signed env tr (su_initiator su) (dr_id d) sig) →
  wp (ceremony_done env r su d cp b res) n (λ _, I) I.
Proof.
  intros Hn Hr Hfit Hd He Hask Hsig. unfold ceremony_done. destruct res as [sig|f]; [|by apply ceremony_failed_keeps].
  specialize (Hsig sig eq_refl).
  destruct (trust_signals (su_ask su)) as [[|]|]; [by apply finally_ok, issue_ok| |by apply finally_ok, issue_ok].
  destruct (has_pool env); [|by apply finally_ok, issue_ok]. by apply keeps_set_flow.
Qed.

Lemma signals_known_ok su d cp b sig active n :
  I n → drawn_ok env tr (tick n) (registry n) su d → endpoint_ok env tr (su_target su) (dr_id d) cp →
  asked env (sent n) su d cp → signed env tr (su_initiator su) (dr_id d) sig →
  wp (signals_known env su d cp b sig active) n (λ _, I) I.
Proof. intros. unfold signals_known. by apply finally_ok, issue_ok. Qed.

End Handlers.
End SignalCeremonyHandlers.

(** Registration, revocation and the life of a stream keep the invariant of
    [SignalTrace]. *)
Import Text JsMap Effects Bytes Wire FrostInvariant DkgTopology Signaling SignalStreams SignalConnections SignalSessions SignalRegister SignalNode SignalTable SignalTrace SignalInvariant SignalHandlers SignalSessionHandlers.

Module SignalStreamHandlers.

Section Handlers.
Context (env : SigEnv) (tr : list Input) (k : nat).

Abbreviation Keeps := (preserves (Inv env tr k)).
Abbreviation I := (Inv env tr k).

(** * Registration *)

Lemma registry_waiters g w p c :
  registry_ok env tr g → all_in (λ k v, PreAuthorised k v.1 v.2 ∈ tr) p → registry_ok env tr (with_dkg g w p c).
Proof. intros [] Hp. by split. Qed.

Lemma keeps_pre_auth key : Keeps (on_pre_auth (λ m, jdel m key)).
Proof.
  intros n Hn. apply wp_modify. apply inv_registry_same; [done| |done|done].
  apply registry_waiters; [apply Hn|]. apply all_jdel, (i_registry _ _ _ _ Hn).
Qed.

Lemma keeps_refused s key reason p : Keeps (register_refused env s key reason p).
Proof. unfold register_refused. apply preserves_bind; [apply keeps_pre_auth|]. intros _. by apply keeps_plain. Qed.

Lemma inv_waiters n w :
  I n → jwf w → (∀ a r, (a, r) ∈ w → r < k ∧ ∀ f, jget (flows n) r = Some f → awaits_dkg a f) →
  I (with_registry n (with_dkg (registry n) w (pendingPreAuthData (registry n)) (pendingDkgCommitments (registry n)))).
Proof.
  intros Hn Hw Hp. destruct (i_ptr _ _ _ _ Hn) as [[? ?] ? ? ?]. apply inv_registry; [done| |by intros i a|by split].
  apply registry_waiters; apply (i_registry _ _ _ _ Hn).
Qed.

Lemma keeps_unwait key : Keeps (on_waiters (λ m, jdel m key)).
Proof.
  intros n Hn. apply wp_modify. destruct (i_ptr _ _ _ _ Hn) as [[? ?] ? ? Hp]. apply inv_waiters; [done|by apply jwf_jdel|].
  intros a r Ha. eapply Hp, elem_jdel, Ha.
Qed.

Lemma register_request_ok r s f n :
  I n → r < k → unpointed n r → jget (flows n) r = None → registering env tr f →
  wp (processRegisterRequest env r s f) n (λ _, I) I.
Proof.
  intros Hn Hr [Hu1 Hu2] Hno Hf. unfold processRegisterRequest. destruct (_ && _); [by apply keeps_refused|].
  apply wp_bind, wp_gets. destruct (jget (profiles (registry n)) _); [by apply keeps_refused|].
  destruct (forceDkgFailure env); [by apply keeps_refused|]. apply wp_bind. unfold read_manifest. apply wp_bind, wp_tick, wp_ret.
  destruct (topology_refused _); [by apply keeps_refused, inv_next|].
  apply wp_bind, wp_send; [|by apply inv_next, inv_next]. match goal with |- wp _ ?m _ _ => set (n1 := m) end.
  assert (I n1) as Hn1.
  { apply (inv_sent env tr k (with_tick n (S (S (tick n))))); [apply node_tick; [done|lia]|done]. }
  apply wp_bind, wp_modify. match goal with |- wp _ ?m _ _ => set (n2 := m) end. assert (I n2) as Hn2.
  { destruct (i_ptr _ _ _ _ Hn1) as [[? ?] ? ? Hp]. apply inv_waiters; [done|by apply jwf_jset|].
    intros a r' [Ha|[= -> ->]]%elem_jset_key; [by apply Hp|]. split; [done|]. intros fl Hfl.
    change (jget (flows n) r = Some fl) in Hfl. congruence. }
  apply keeps_set_flow; [done|done|by split|]. split; [| |done].
  - intros i s' cid Hi Hc. by destruct (Hu1 i s' cid).
  - intros a [Ha|[= ->]]%elem_jset_key; [by destruct (Hu2 a)|done].
Qed.

(** The promise is settled; nothing leads to the flow any more. *)
Lemma resolve_dkg_ok r answer n :
  I n → (∀ s f, jget (flows n) r = Some (RDkg s f None) → (∀ a b, answer = Some (a, b) → said env tr (k_local_pubkey f) (DkgComplete a b)) ∧
    (k_local_pubkey f, r) ∉ pendingDkgComplete (registry n)) →
  wp (resolve_dkg r answer) n (λ _, I) I.
Proof.
  intros Hn Ha. unfold resolve_dkg. apply wp_bind, wp_gets.
  destruct (jget (flows n) r) as [[| | | | | | | | |s f []| | |]|] eqn:E; try by apply wp_ret.
  destruct (Ha s f eq_refl) as [H1 H2]. destruct (inv_flow env tr k n r _ Hn E) as [Hf _].
  destruct (i_ptr _ _ _ _ Hn) as [_ _ Hp Hq]. apply keeps_set_flow; [done|by eapply inv_bound| |].
  - split; [done|]. intros a b [= ->]. by apply H1.
  - split; [| |done].
    + intros i s' cid Hi Hc. destruct (Hp i s' cid r Hi Hc) as [_ H]. by destruct (H _ E).
    + intros a Hin. destruct (Hq a r Hin) as [_ H]. specialize (H _ E). cbn in H. by subst a.
Qed.

Lemma unwaited n key : I n → ∀ r, (key, r) ∉ jdel (pendingDkgComplete (registry n)) key.
Proof.
  intros Hn r Hin. destruct (i_ptr _ _ _ _ Hn) as [[_ Hw] _ _ _].
  apply jget_elem_iff in Hin; [|by apply jwf_jdel]. rewrite jget_jdel, decide_True in Hin by done. done.
Qed.

Lemma dkg_complete_keeps agent a b : said env tr agent (DkgComplete a b) → Keeps (dkg_complete agent a b).
Proof.
  intros Hs n Hn. unfold dkg_complete. apply wp_bind, wp_gets.
  destruct (jget (pendingDkgComplete (registry n)) agent) as [r|] eqn:E; [|by apply wp_ret].
  destruct (i_ptr _ _ _ _ Hn) as [_ _ _ Hq]. destruct (Hq agent r (jget_elem _ _ _ E)) as [_ H].
  apply wp_bind, wp_modify, resolve_dkg_ok; [by apply (keeps_unwait agent)|].
  intros s f Hf. specialize (H _ Hf). cbn in H. split; [intros ? ? [= <- <-]; by rewrite H|]. rewrite H. by apply unwaited.
Qed.

Lemma dkg_timeout_keeps r : Keeps (dkg_timeout r).
Proof.
  intros n Hn. unfold dkg_timeout. apply wp_bind, wp_gets.
  destruct (jget (flows n) r) as [[| | | | | | | | |s f []| | |]|] eqn:E; try by apply wp_ret.
  apply wp_bind, wp_modify, resolve_dkg_ok; [by apply (keeps_unwait (k_local_pubkey f))|].
  intros s' f' Hf. change (jget (flows n) r = Some (RDkg s' f' None)) in Hf. simplify_eq. split; [done|]. by apply unwaited.
Qed.

Lemma commitment_ok s r key primary n :
  I n → unpointed n r → key_ok env tr key (hex_prefix primary) →
  wp (check_commitment env s key primary) n (λ _ n', I n' ∧ unpointed n' r) (λ n', I n' ∧ unpointed n' r).
Proof.
  intros Hn Hu Hk. unfold check_commitment. apply wp_bind, wp_gets, wp_bind, wp_modify.
  match goal with |- wp _ ?m _ _ => set (n1 := m) end. assert (I n1) as Hn1.
  { apply inv_registry_same; [done| |done|done]. apply registry_waiters; apply (i_registry _ _ _ _ Hn). }
  destruct (match jget _ _ with Some _ => _ | None => _ end).
  - apply wp_bind. eapply wp_mono; [apply (wp_conj _ _ (λ _, I) (λ _ m, unpointed m r) I (λ m, unpointed m r))| |done].
    + by apply keeps_refused.
    + unfold register_refused. apply wp_bind, wp_modify. by apply wp_send.
    + intros ? n' H. by apply wp_ret.
  - apply wp_bind. pose proof (keeps_new_signer env tr k key (hex_prefix primary) r Hk n1 Hn1 Hu) as Hs.
    assert (total (new_signer key (hex_prefix primary))) as Ht by (unfold new_signer, on_registry; total).
    apply (wp_total _ _ _ _ (λ n', I n' ∧ unpointed n' r) Ht) in Hs. eapply wp_mono; [exact Hs| |done].
    intros i n2 (Hn2 & Hu2 & _). apply wp_bind, wp_modify, wp_ret. split; [|exact Hu2].
    apply inv_registry_same; [done| |done|done]. destruct (i_registry _ _ _ _ Hn2). split; try done. by apply all_jset.
Qed.

Lemma profile_written n p : I n → profile_ok env tr p → I (with_registry n (setProfile p (registry n))).
Proof.
  intros Hn Hp. apply inv_registry_same; [done| |done|done]. destruct (i_registry _ _ _ _ Hn). split; try done. by apply all_jset.
Qed.

Lemma write_profile_ok r s f a b h agent account n :
  I n → r < k → unpointed n r → registering env tr f → said env tr (k_local_pubkey f) (DkgComplete a b) → phone_ok env tr f h →
  wp (write_profile env r s f a b h agent account) n (λ _, I) I.
Proof.
  intros Hn Hr Hu Hf Hs Hh. unfold write_profile. apply wp_bind, wp_now, wp_bind, wp_modify.
  match goal with |- wp _ ?m _ _ => set (n1 := m) end. assert (I n1) as Hn1.
  { apply (profile_written (with_tick n (S (tick n)))); [by apply inv_next|]. right. by exists f, b. }
  apply keeps_set_flow; [done|done|done|]. by apply fits_unpointed.
Qed.

Lemma claim_ok r s f a b n :
  I n → r < k → unpointed n r → registering env tr f → said env tr (k_local_pubkey f) (DkgComplete a b) →
  wp (claim_phone env r s f a b) n (λ _, I) I.
Proof.
  intros Hn Hr Hu Hf Hs. unfold claim_phone. apply wp_bind, wp_gets. destruct (phone_hash env f _) as [h|] eqn:Eh; [|by apply keeps_refused].
  assert (phone_ok env tr f h) as Hh.
  { unfold phone_hash in Eh. destruct (jget _ _) as [[h' e]|] eqn:E.
    - injection Eh as ->. left. exists e. by apply (all_get _ _ _ _ (g_pre_auth _ _ _ (i_registry _ _ _ _ Hn)) E).
    - case_bool_decide; [done|]. injection Eh as <-. by right. }
  apply wp_bind, wp_gets. destruct (jhas _ h); [by apply keeps_refused|].
  apply wp_bind, wp_random, wp_bind, wp_modify. match goal with |- wp _ ?m _ _ => set (n1 := m) end.
  assert (I n1) as Hn1 by (apply keeps_pre_auth; by apply inv_next).
  destruct (jget _ _); [|by apply write_profile_ok]. apply keeps_set_flow; [done|done|done|]. by apply fits_unpointed.
Qed.

Lemma dkg_resumed_ok r s f answer n :
  I n → r < k → unpointed n r → registering env tr f →
  (∀ a b, answer = Some (a, b) → said env tr (k_local_pubkey f) (DkgComplete a b)) →
  wp (dkg_resumed env r s f answer) n (λ _, I) I.
Proof.
  intros Hn Hr Hu Hf Hs. unfold dkg_resumed. destruct answer as [[a b]|]; [|by apply keeps_refused].
  specialize (Hs a b eq_refl). apply wp_bind, wp_try.
  eapply wp_mono; [apply (commitment_ok s r); [done|done|left; by exists a, b]| |].
  - intros [] n' [? ?]; [by apply claim_ok|by apply wp_ret].
  - intros n' [? ?] e. apply wp_bind. eapply wp_mono; [by apply keeps_refused| |done]. intros ? n2 H2. by apply wp_ret, wp_ret.
Qed.

(** * Revocation *)

Lemma revoke_ok r s agent rv n :
  I n → r < k → unpointed n r → said_when env tr agent (RevokeAgent rv) (λ m, m = n) → wp (processRevokeAgent env r s agent rv) n (λ _, I) I.
Proof.
  intros Hn Hr Hu (tr1 & st & Ha & Hs & Em). unfold processRevokeAgent. apply wp_bind, wp_gets.
  destruct (jget (profiles (registry n)) agent) as [p|] eqn:E; [|by apply (keeps_plain env tr k)].
  destruct (all_get _ _ _ _ (g_profiles _ _ _ (i_registry _ _ _ _ Hn)) E) as [Hp _]. rewrite Hp.
  destruct (negb _) eqn:Ei; [by apply (keeps_plain env tr k)|]. apply negb_false_iff, bool_decide_eq_true in Ei.
  destruct (revocation_signed env agent rv agent) eqn:Es; [|by apply (keeps_plain env tr k)].
  apply wp_bind, wp_gets. destruct (jhas _ _); [by apply (keeps_plain env tr k)|].
  apply keeps_set_flow; [done|done| |by apply fits_unpointed]. split; [|done]. exists tr1, st. rewrite Em. split; [done|].
  split; [by rewrite <- Em|]. by exists p.
Qed.

Lemma store_row_keeps row : row_ok env tr (ar_agent_id row) row → Keeps (on_registry (store_revocation row)).
Proof.
  intros Hr. apply preserves_modify. intros n Hn. unfold store_revocation.
  destruct (jhas _ _); [by apply inv_registry_same; [|apply Hn|done|done]|].
  apply inv_registry_same; [done| |done|done]. destruct (i_registry _ _ _ _ Hn). split; try done. by apply all_jset.
Qed.

Lemma self_row key rv : self_revoked env tr key rv → row_ok env tr (ar_agent_id (row_of rv)) (row_of rv).
Proof. intros Hr. split; [done|right]. by exists key, rv. Qed.

Lemma inserted_keeps f n : I n → flow_ok env tr (tick n) (sent n) (registry n) f → wp (revocation_inserted f) n (λ _, I) I.
Proof.
  intros Hn Hf. unfold revocation_inserted. destruct f; try by apply wp_ret. by apply store_row_keeps; [eapply self_row|].
Qed.

Lemma revocation_stored_keeps s rv key durable : self_revoked env tr key rv → Keeps (revocation_stored env s rv key durable).
Proof.
  intros Hr. unfold revocation_stored. destruct durable; [|by apply keeps_plain]. apply preserves_bind; [|intros _; by apply keeps_plain].
  apply preserves_modify. intros n Hn. unfold insertAgentRevocation.
  pose proof (store_row_keeps _ (self_row key rv Hr) n Hn : I (with_registry n (store_revocation (row_of rv) (registry n)))) as Hs.
  set (g := store_revocation (row_of rv) (registry n)) in *.
  apply (inv_registry_same env tr k (with_registry n g)); [exact Hs| |done|done].
  destruct (i_registry _ _ _ _ Hs). split; try done. unfold index_revocation. cbn [revokedPubkeys with_revocations].
  case_bool_decide; [done|]. by apply forall_set_add; [|left; exists rv].
Qed.

(** * Streams *)

Lemma keeps_abandon agent e : Keeps (abandon_session env agent e).
Proof.
  unfold abandon_session. destruct e as [sid p]. destruct (negb _); [apply preserves_ret|]. apply preserves_bind; [|intros _].
  { apply preserves_modify. intros n Hn. by apply inv_offers_same. }
  destruct (fullyEstablished p); [apply preserves_ret|]. destruct (if bool_decide _ then _ else _); [|apply preserves_ret].
  apply preserves_bind; [apply preserves_gets|]. intros [st|]; [|by apply keeps_notify].
  apply preserves_try; [by apply keeps_plain|]. intros _. by apply keeps_notify.
Qed.

Lemma finish_keeps s : Keeps (finish env s).
Proof.
  intros n Hn. unfold finish. apply wp_bind, wp_gets. destruct (jget (conns n) s) as [c|] eqn:Ec; [|by apply wp_ret].
  pose proof (i_table _ _ _ _ Hn) as Ht. apply wp_bind, wp_modify. destruct (authedPubkeyHex c) as [agent|] eqn:Ea.
  - apply wp_bind, wp_modify. match goal with |- wp _ ?m _ _ => set (n1 := m) end. assert (I n1) as Hn1.
    { pose proof (i_delivery _ _ _ _ Hn). pose proof (i_presence _ _ _ _ Hn). pose proof (i_rows _ _ _ _ Hn). destruct Hn. split; try done; cbn.
      - by eapply unregister_ok.
      - intros Hc. eapply unregister_delivery; eauto.
      - intros Hp Hc. eapply unregister_presence; eauto.
      - intros Hp a Ho. by apply unregister_rows; auto.
      - by apply all_jdel. }
    apply wp_bind, wp_gets. apply wp_for_each; [|done]. intros e m _ Hm. by apply keeps_abandon.
  - apply wp_ret. destruct Hn. split; try done; cbn; [by eapply close_unknown|by apply all_jdel].
Qed.

Lemma keeps_guarded s m : Keeps m → Keeps (guarded env s m).
Proof. intros Hm. unfold guarded. apply preserves_try; [done|]. intros _. apply finish_keeps. Qed.

Lemma refuse_keeps s f : personal f = false → Keeps (refuse env s f).
Proof. intros Hf. unfold refuse. apply preserves_bind; [by apply keeps_plain|]. intros _. apply finish_keeps. Qed.

(** A stream is opened under a name that no stream had. *)
Lemma open_ok n : I n → (∀ s c, jget (conns n) s = Some c → s < steps n) → steps n < k → wp (open_stream env (steps n)) n (λ _, I) I.
Proof.
  intros Hn Hfresh Hlt. unfold open_stream. apply wp_bind, wp_now, wp_bind, wp_modify, wp_bind, wp_random, wp_bind, wp_now, wp_bind, wp_modify.
  match goal with |- wp _ ?m _ _ => set (n1 := m) end. assert (I n1) as Hn1.
  { apply node_nonces, inv_next, inv_next, node_nonces, inv_next. done. }
  assert (jget (conns n1) (steps n) = None) as Hno.
  { destruct (jget (conns n1) (steps n)) as [c|] eqn:E; [|done]. specialize (Hfresh _ c E). lia. }
  apply wp_try, wp_bind, wp_send; [|intros _; apply wp_ret; by apply inv_next].
  apply wp_modify. set (nc := rand env (S (tick n)) 32). match goal with |- I (with_conns ?m _) => set (n2 := m) end.
  assert (I n2) as Hn2 by (apply (inv_sent env tr k (with_tick n1 (S (tick n1)))); [by apply inv_next|done]).
  assert (jget (conns n2) (steps n) = None) as Hno2 by exact Hno.
  assert ((steps n, AuthChallenge nc) ∈ sent n2) as Hsent by (apply elem_of_app; right; by apply list_elem_of_singleton).
  generalize dependent n2. intros n2 Hn2 Hno2 Hsent.
  pose proof (i_table _ _ _ _ Hn2) as Ht. pose proof (i_conns _ _ _ _ Hn2) as Hcs. destruct Hn2. split; try done.
  - destruct Ht as [[? [? ?]] Hl ? ? Hf]. split; try done.
    + repeat split; try done. by apply jwf_jset.
    + intros a s v. rewrite Hl. cbn. rewrite jget_jset. case_decide; [|done]. subst s.
      rewrite Hno2. split; [naive_solver|]. intros (c & [= <-] & ? & ?). done.
    + intros s c. cbn. rewrite jget_jset. case_decide; [by subst|]. apply Hf.
  - cbn. apply all_jset; [done|]. by split.
Qed.

Lemma admit_ok s c agent v n :
  I n → jget (conns n) s = Some c → authedPubkeyHex c = None → owns env tr s agent → wp (admit_stream env s c agent v) n (λ _, I) I.
Proof.
  intros Hn Hc Ha Ho. unfold admit_stream. apply wp_bind, wp_modify, wp_modify.
  pose proof (i_table _ _ _ _ Hn) as Ht. pose proof (i_conns _ _ _ _ Hn) as Hcs.
  pose proof (i_delivery _ _ _ _ Hn). pose proof (i_presence _ _ _ _ Hn). pose proof (i_rows _ _ _ _ Hn). destruct Hn. split; try done; cbn.
  - by eapply register_ok.
  - intros Hcalm. eapply register_delivery; eauto.
  - intros Hp Hcalm. apply register_presence; eauto.
  - intros Hp a Hor. by apply register_rows; auto.
  - apply all_jset; [done|]. destruct (Hcs s c (jget_elem _ _ _ Hc)) as (? & _). split; [done|]. split; [|done].
    intros a [= <-]. done.
Qed.

Lemma authenticate_ok s c pk sig v n :
  I n → jget (conns n) s = Some c → authedPubkeyHex c = None →
  (verify env pk (auth_hash env (nonce c) pk) sig = true → owns env tr s (hex pk)) →
  wp (authenticate env s c pk sig v) n (λ _, I) I.
Proof.
  intros Hn Hc Ha Ho. unfold authenticate. apply wp_bind, wp_gets.
  destruct (jget (nonces n) _) as [expires|]; [|by apply refuse_keeps]. apply wp_bind, wp_now, wp_bind, wp_modify.
  match goal with |- wp _ ?m _ _ => set (n1 := m) end. assert (I n1) as Hn1 by by apply node_nonces, inv_next.
  destruct (_ <? _)%Z; [by apply refuse_keeps|]. destruct (verify env _ _ _) eqn:Ev; [|by apply refuse_keeps].
  apply admit_ok; try done. by apply Ho.
Qed.

Lemma acknowledge_ok s c agent token absent proof n :
  I n → jget (conns n) s = Some c → authedPubkeyHex c = Some agent → wp (acknowledge env s c agent token absent proof) n (λ _, I) I.
Proof.
  intros Hn Hc Ha. unfold acknowledge. set (J := λ m, I m ∧ conns m = conns n).
  assert (∀ p, preserves J (sendFrame env s (AuthOk p token absent))) as Hs.
  { intros p m [Hm E]. apply wp_send; (split; [|done]); [|by apply inv_next].
    apply (inv_sent env tr k (with_tick m (S (tick m)))); [by apply inv_next|done]. }
  apply wp_bind. eapply (wp_mono _ _ (λ _, J) _ J); [| |by intros m [? ?]].
  { assert (preserves J (match proof with
      | Some (Some p) => try_catch (sendFrame env s (AuthOk (Some p) token absent)) (λ _, sendFrame env s (AuthOk None token absent))
      | _ => sendFrame env s (AuthOk None token absent) end)) as H by (destruct proof as [[p|]|]; auto using preserves_try). by apply H. }
  intros ? m [Hm E]. apply wp_bind, wp_modify. match goal with |- wp _ ?m _ _ => set (m2 := m) end. assert (I m2) as Hm2.
  { unfold m2. destruct (jhas _ _); apply inv_registry_same; try done; [apply Hm|]. destruct (i_registry _ _ _ _ Hm). by split. }
  apply wp_modify. apply (inv_conn env tr k m2 s c); try done. by change (conns m2) with (conns m); rewrite E.
Qed.

Lemma send_until_ok s agent l n :
  owns env tr s agent → I n → Forall (λ f, ∀ out, sent n ⊆ out → meant env tr out agent f) l →
  wp (send_until_failure env s l) n (λ _, I) I.
Proof.
  intros Ho. revert n. induction l as [|f l IH]; intros n Hn Hl; [by apply wp_ret|]. inversion Hl as [|? ? Hf Hl']; subst.
  cbn [send_until_failure]. apply wp_try, wp_bind, wp_send; [|intros _; apply wp_ret; by apply inv_next].
  match goal with |- wp _ ?m _ _ => set (n1 := m) end. assert (I n1) as Hn1.
  { apply (inv_sent env tr k (with_tick n (S (tick n)))); [by apply inv_next|]. intros _. exists agent. split; [done|by apply Hf]. }
  assert (sent n ⊆ sent n1) as Hsub by (cbn; set_solver).
  eapply wp_mono; [apply IH; [done|]|done|].
  - eapply Forall_impl; [exact Hl'|]. intros f' Hf' out Hout. apply Hf'. by transitivity (sent n1).
  - intros m Hm _. by apply wp_ret.
Qed.

Lemma drain_ok s agent n : I n → owns env tr s agent → wp (drain_notifications env s agent) n (λ _, I) I.
Proof.
  intros Hn Ho. unfold drain_notifications. apply wp_bind, wp_gets, wp_bind, wp_modify. pose proof (i_desk _ _ _ _ Hn) as Hd.
  match goal with |- wp _ ?m _ _ => set (n1 := m) end. assert (I n1) as Hn1.
  { apply inv_desk; [done|]. destruct Hd. split; try done. by apply all_jdel. }
  apply wp_bind. eapply wp_mono; [apply (send_until_ok s agent); [done|done|]| |done].
  - apply (got_forall (λ a f, ∀ out, sent n ⊆ out → meant env tr out a f)), Hd.
  - intros ? m Hm. by apply keeps_idle.
Qed.

Lemma deliver_ok s agent l : owns env tr s agent → Forall (queued_ok env tr agent) l → Keeps (deliver_requests env s agent l).
Proof.
  intros Ho. induction l as [|q l IH]; intros Hl; [apply preserves_ret|]. inversion Hl as [|? ? [Hq (at_ & pr & Hf)] Hl']; subst.
  cbn [deliver_requests]. apply preserves_try; [|intros; apply preserves_ret]. apply preserves_bind; [|intros _].
  - apply keeps_send, (may_have_for env tr _ agent); [done|]. intros out. rewrite Hf. exact Hq.
  - apply preserves_bind; [by apply keeps_open|]. intros _. by apply IH.
Qed.

Lemma dequeue_ok s agent n : I n → owns env tr s agent → wp (dequeue_requests env s agent) n (λ _, I) I.
Proof.
  intros Hn Ho. unfold dequeue_requests. apply wp_bind, wp_gets, wp_bind, wp_modify. pose proof (i_desk _ _ _ _ Hn) as Hd.
  match goal with |- wp _ ?m _ _ => set (n1 := m) end. assert (I n1) as Hn1.
  { apply inv_desk; [done|]. apply desk_queued; [done|]. apply all_jdel, Hd. }
  apply wp_bind. eapply wp_mono; [apply (deliver_ok s agent); [done| |done]| |done].
  - apply (got_forall (queued_ok env tr)), Hd.
  - intros ? m Hm. by apply keeps_idle.
Qed.

End Handlers.
End SignalStreamHandlers.
