(* ===== verification/SignalTheorems.v ===== *)
(** Every run of a directory keeps the invariant of [SignalTrace]. *)
From S2P Require Import Prelude Text JsMap Bytes Effects Wire FrostShares FrostHandler FrostInvariant DkgTopology Signaling SignalStreams SignalConnections SignalSessions SignalRegister SignalNode SignalInvariant SignalHandlers.
Import Text JsMap Effects Bytes Wire FrostInvariant DkgTopology Signaling SignalStreams SignalConnections SignalSessions SignalRegister SignalNode SignalTable SignalTrace SignalInvariant SignalHandlers SignalSessionHandlers SignalCeremonyHandlers SignalStreamHandlers.

Module SignalRuns.

Section Runs.
Context (env : SigEnv).
Hypothesis ids_unique : ∀ t t', rand env t 16 = rand env t' 16 → t = t'.

(** * One input *)

Section Step.
Context (tr : list Input) (i : Input).

Let n : Node := run env tr.
Let tr' : list Input := tr ++ [i].
Let k : nat := S (steps n).

Hypothesis Hold : Inv env tr (steps n) n.

Abbreviation I := (Inv env tr' k).
Abbreviation Keeps := (preserves (Inv env tr' k)).

Lemma now_ok : I n.
Proof. apply (inv_grows env tr); [by exists [i]|]. eapply inv_weaken; [exact Hold|]. unfold k. lia. Qed.

Lemma now_unpointed : unpointed n (steps n).
Proof. by eapply unpointed_fresh. Qed.

Lemma now_free : jget (flows n) (steps n) = None.
Proof.
  destruct (jget (flows n) (steps n)) as [f|] eqn:E; [|done]. destruct (i_ptr _ _ _ _ Hold) as [_ Hp _ _].
  pose proof (all_get _ _ _ _ Hp E) as H. cbn in H. lia.
Qed.

Lemma now_bound : steps n < k.
Proof. unfold k. lia. Qed.

Lemma i_last : i ∈ tr'.
Proof. unfold tr'. set_solver. Qed.

Lemma saying s agent f : i = Received s f → speaks n s agent → said env tr' agent f.
Proof. intros Hi Hs. exists tr, s. split; [by exists []; rewrite <- Hi|done]. Qed.

(** ** Frames *)

Lemma disclosing s agent f : i = Received s f → speaks n s agent → said env tr' agent f ∧ I n.
Proof. intros Hi Hs. split; [by eapply saying|apply now_ok]. Qed.

Lemma session_request_ok s agent ask :
  i = Received s (SessionRequest ask) → speaks n s agent → wp (session_request env s agent ask) n (λ _, I) I.
Proof.
  intros Hi Hs. pose proof now_ok as Hn. unfold session_request, refuse_session. apply wp_bind, wp_gets, wp_bind, wp_gets, wp_bind, wp_gets.
  assert (∀ reason, Keeps (_ ← set_wait s Idle; session_error env s reason)) as Hrefuse.
  { intros reason. apply preserves_bind; [by apply keeps_idle|]. intros _. by apply keeps_plain. }
  destruct (requireRegistration env && _) eqn:E1; [by apply Hrefuse|].
  case_bool_decide as E2; [cbn [negb]|by apply Hrefuse].
  destruct (isAgentRevoked _ _ || _) eqn:E3; [by apply Hrefuse|]. apply orb_false_elim in E3 as [? ?].
  destruct Hs as (c & Hc & Ha & Hw). unfold set_wait. apply wp_bind, wp_gets. rewrite Hc. apply wp_modify.
  apply (inv_conn env tr' k n s c); try done. intros agent' Ha'. cbn in Ha'. assert (agent' = agent) as -> by congruence.
  exists tr, []. split; [by rewrite <- Hi|]. split; [by exists c|]. split; [|apply sublist_nil_l].
  split; [|done]. intros Hr. rewrite Hr in E1. cbn in E1. unfold jhas in E1. by case_bool_decide.
Qed.

Lemma connection_response_ok s agent id v :
  i = Received s (ConnectionResponse id v) → speaks n s agent →
  wp (processConnectionResponse env (steps n) agent id v) n (λ _, I) I.
Proof.
  intros Hi Hs. pose proof now_ok as Hn. pose proof (saying _ _ _ Hi Hs) as Hsaid.
  unfold processConnectionResponse. apply wp_bind, wp_gets.
  destruct (jget (pendingConnectionRequests (desk n)) id) as [p|] eqn:E; [|by apply wp_ret]. apply (pending_ok _ _ _ _ _ _ Hn) in E as Hp.
  case_bool_decide as Et; [cbn [negb]|by apply wp_ret]. apply wp_bind, wp_modify.
  match goal with |- wp _ ?m _ _ => set (n1 := m) end. assert (I n1) as Hn1.
  { apply inv_desk; [done|]. apply desk_pending; [apply Hn|]. apply all_jdel, Hn. }
  apply wp_bind. unfold delete_active, forget_write. apply wp_bind, wp_tick, wp_modify.
  match goal with |- wp _ ?m _ _ => set (n2 := m) end. assert (I n2) as Hn2.
  { apply inv_desk; [by apply inv_next|]. destruct (i_desk _ _ _ _ Hn1). split; try done. by apply all_jset. }
  apply wp_bind, wp_gets.
  assert (∀ st, jget (streams (table n2)) (pr_sender p) = Some st → owns env tr' st (pr_sender p)) as Ho.
  { intros st. by apply (node_stream env tr' k n2). }
  destruct v as [|reason|unmet|].
  - apply wp_bind, wp_random. subst agent. apply keeps_set_flow; [by apply inv_next|apply now_bound| |].
    + split; [done|]. split; [done|]. exists tr, s. split; [by exists []; rewrite <- Hi|]. split; [done|]. by exists p.
    + apply fits_unpointed; [apply now_unpointed|done].
  - apply (keeps_tell_stream env tr' k _ (pr_sender p)); [done| |done]. intros out. subst agent. split; [by exists (pr_package p)|by exists id, (reject reason)].
  - apply (keeps_tell_stream env tr' k _ (pr_sender p)); [done| |done]. intros out. subst agent. split; [by exists (pr_package p)|by exists id, (insufficient unmet)].
  - by apply wp_ret.
Qed.

Lemma dispatch_ok s agent f : i = Received s f → speaks n s agent → wp (dispatch env s agent f) n (λ _, I) I.
Proof.
  intros Hi Hs. pose proof now_ok as Hn. pose proof (saying _ _ _ Hi Hs) as Hsaid.
  pose proof now_unpointed as Hu. pose proof now_bound as Hb. pose proof now_free as Hf.
  assert (∀ m, wp m n (λ _, I) I → wp (detached m) n (λ _, I) I) as Hdet.
  { intros m Hm. unfold detached. apply wp_try. eapply wp_mono; [exact Hm|done|]. intros m' Hm' _. by apply wp_ret. }
  unfold dispatch. apply wp_bind, wp_gets. destruct f.
  - by apply wp_ret.
  - by apply ceremony_result_keeps.
  - apply wp_modify, inv_registry_same; [done| |done|done]. destruct (i_registry _ _ _ _ Hn). by split.
  - by apply dkg_complete_keeps.
  - apply Hdet, register_request_ok; try done. by exists agent.
  - apply Hdet, revoke_ok; [done..|]. exists tr, s. split; [by exists []; rewrite <- Hi|done].
  - by apply session_request_ok.
  - by apply (offer_accepted_keeps env tr' k).
  - by apply (offer_rejected_keeps env tr' k).
  - apply keeps_set_flow; [done|done|done|]. by apply fits_unpointed.
  - apply Hdet. by eapply connection_response_ok.
  - by apply Hdet, keeps_disclosure_request.
  - by apply Hdet, keeps_disclosure_response.
  - apply keeps_try; [done|exact Hn].
  - by apply keeps_tell.
  - by apply (keeps_plain env tr' k).
  - by apply wp_ret.
Qed.

Lemma received_ok s f : i = Received s f → wp (guarded env s (received env s f)) n (λ _, I) I.
Proof.
  intros Hi. pose proof now_ok as Hn. unfold guarded. apply wp_try.
  eapply (wp_mono _ _ (λ _, I) _ I); [|done|intros m Hm _; by apply finish_keeps].
  unfold received. apply wp_bind, wp_gets. destruct (jget (conns n) s) as [c|] eqn:Ec; [|by apply wp_ret].
  destruct (c_wait c) eqn:Ew; try by apply wp_ret. destruct (authedPubkeyHex c) as [agent|] eqn:Ea.
  - apply dispatch_ok; [done|]. by exists c.
  - unfold first_frame. destruct f; try by apply refuse_keeps. apply authenticate_ok; [done|done|done|]. intros Hv.
    exists tr, c, pubkey, signature, visiting. split; [by exists []; rewrite <- Hi|]. split; [done|]. split; [|done].
    apply (i_conns _ _ _ _ Hold s c (jget_elem _ _ _ Ec)).
Qed.

(** ** Answers that a loop waits for *)

Lemma resume_ok s m :
  (∀ c agent, jget (conns n) s = Some c → authedPubkeyHex c = Some agent → owns env tr' s agent → wp (m c agent) n (λ _, I) I) →
  wp (resume env s m) n (λ _, I) I.
Proof.
  intros Hm. pose proof now_ok as Hn. unfold resume. apply wp_bind, wp_gets. destruct (jget (conns n) s) as [c|] eqn:Ec; [|by apply wp_ret].
  destruct (authedPubkeyHex c) as [agent|] eqn:Ea; [|by apply wp_ret]. unfold guarded. apply wp_try.
  eapply (wp_mono _ _ (λ _, I) _ I); [apply Hm; [done|done|]|done|intros m' Hm' _; by apply finish_keeps].
  by apply (i_conns _ _ _ _ Hn s c (jget_elem _ _ _ Ec)).
Qed.

Lemma requested_next s agent ask j :
  requested env tr s agent ask j → i = PauseKnown s (Some false) → requested env tr' s agent ask (S j).
Proof.
  intros (tr1 & tr2 & E & ? & ? & Hs) ->. exists tr1, (tr2 ++ [PauseKnown s (Some false)]).
  unfold tr'. rewrite E, <- app_assoc. split; [done|]. split; [done|]. split; [done|].
  rewrite replicate_S_end. by apply sublist_app.
Qed.

Lemma pause_ok s suspended c agent :
  i = PauseKnown s suspended → jget (conns n) s = Some c → authedPubkeyHex c = Some agent → owns env tr' s agent →
  wp (pause_known env s agent (c_wait c) suspended) n (λ _, I) I.
Proof.
  intros Hi Hc Ha Ho. pose proof now_ok as Hn. unfold pause_known, refuse_session.
  assert (∀ reason, Keeps (_ ← set_wait s Idle; session_error env s reason)) as Hrefuse.
  { intros reason. apply preserves_bind; [by apply keeps_idle|]. intros _. by apply keeps_plain. }
  assert (wp (throw "isAgentSuspended" : Task unit) n (λ _, I) I) as throws by exact Hn.
  destruct (i_conns _ _ _ _ Hold s c (jget_elem _ _ _ Hc)) as (_ & _ & Hw). unfold wait_ok in Hw.
  destruct (c_wait c) as [| | | |ask|ask] eqn:Ew; destruct suspended as [[]|]; try by apply wp_ret.
  - by apply Hrefuse.
  - specialize (Hw agent Ha). unfold set_wait. apply wp_bind, wp_gets. rewrite Hc. apply wp_modify.
    apply (inv_conn env tr' k n s c); try done. intros agent' Ha'. cbn in Ha'. assert (agent' = agent) as -> by congruence. by apply requested_next.
  - by apply throws.
  - by apply Hrefuse.
  - specialize (Hw agent Ha). unfold request_session. destruct (missing_peer ask) eqn:Em; [by apply Hrefuse|].
    apply wp_bind. assert (wp (set_wait s Idle) n (λ _ m, I m ∧ unpointed m (steps n) ∧ steps m = steps n) I) as Hset.
    { unfold set_wait. apply wp_bind, wp_gets. rewrite Hc. apply wp_modify. split; [|split; [apply now_unpointed|done]].
      by apply (inv_conn env tr' k n s c). }
    eapply wp_mono; [exact Hset| |done]. intros _ m (Hm & Hu & Es). apply wp_bind, wp_gets. rewrite Es.
    unfold detached. apply wp_try. eapply wp_mono; [apply (process_session_ok env tr' k ids_unique); [done|apply now_bound|done|]|done|].
    + split; [by apply requested_next|]. done.
    + intros m' Hm' _. by apply wp_ret.
  - by apply throws.
Qed.

(** ** Answers that a handler waits for *)

Lemma continue_ok r m :
  (∀ f, jget (flows n) r = Some f → wp (m f) n (λ _, I) I) → wp (continue r m) n (λ _, I) I.
Proof.
  intros Hm. pose proof now_ok as Hn. unfold continue. apply wp_bind, wp_gets. destruct (jget (flows n) r) as [f|] eqn:E; [|by apply wp_ret].
  unfold detached. apply wp_try. eapply wp_mono; [by apply Hm|done|]. intros m' Hm' _. by apply wp_ret.
Qed.

(** The flow is taken off: what is known of it, and of what leads to it. *)
Lemma taken r f :
  jget (flows n) r = Some f →
  let n1 := with_flows n (jdel (flows n) r) in
  I n1 ∧ r < k ∧ jget (flows n1) r = None ∧ flow_ok env tr' (tick n1) (sent n1) (registry n1) f ∧
  ((∀ a c, ¬ in_ceremony a c f) → (∀ a, ¬ awaits_dkg a f) → unpointed n1 r).
Proof.
  intros E n1. pose proof now_ok as Hn. split; [by apply inv_drop_flow|]. split; [by apply (inv_bound env tr' k n r f)|].
  split; [|split; [by apply (inv_flow env tr' k n r f Hn E)|]].
  - cbn. destruct (i_ptr _ _ _ _ Hn) as [[? ?] _ _ _]. by rewrite jget_jdel, decide_True.
  - intros H1 H2. by apply (unpointed_flow env tr' k n r f).
Qed.

Lemma profile_key agent p key :
  jget (profiles (registry n)) agent = Some p → hex_prefix <$> truthy (Some (primary_pubkey p)) = Some key → key_ok env tr' agent key.
Proof.
  intros Hp Hk. destruct (all_get _ _ _ _ (g_profiles _ _ _ (i_registry _ _ _ _ now_ok)) Hp) as [Ha Hok].
  assert (key = hex_prefix (primary_pubkey p)) as -> by (destruct (primary_pubkey p); [done|by injection Hk as <-]).
  destruct Hok as [Hr|(f & b & _ & _ & _ & _ & Hs & _)]; [right; by exists p|left]. rewrite Ha in Hs. by eexists _, b.
Qed.

Lemma found_connection a b id :
  c_id <$> find_connection (connections (desk n)) a b = Some id →
  ∃ x, connection_ok env tr' x ∧ pair_key (c_a x) (c_b x) = pair_key a b ∧ id = c_id x.
Proof.
  unfold find_connection. destruct (last _) as [x|] eqn:E; [|done]. intros [= <-]. exists x.
  apply last_Some_elem_of, filter_elem in E as [Hx Hp%bool_decide_eq_true]. split; [|done].
  by apply (proj1 (list.Forall_forall _ _) (d_connections _ _ _ _ (i_desk _ _ _ _ now_ok))).
Qed.

Lemma answered_ok r f : jget (flows n) r = Some f → wp (answered env r f) n (λ _, I) I.
Proof.
  intros E. pose proof now_ok as Hn. destruct (taken r f E) as (Hn1 & Hr & Hno & Hok & Hu). cbn [flows with_flows] in *.
  unfold answered, connection_between, profile_of, drop_flow.
  destruct f as [su|su ts|su d o []|su d cp|su d cp b []|su d cp b sig|s a t p|s a t p q|id p ss c|s f []|s f a b h x|s a x|s rv x]; try by apply wp_ret.
  - apply wp_bind, wp_gets, wp_bind, wp_modify. apply (connection_known_ok env tr' k ids_unique); try done; [apply Hu; [by intros ? ? []|by intros ? []]|].
    intros id. apply found_connection.
  - destruct Hok as (? & ? & ?). apply wp_bind, wp_gets, wp_bind, wp_modify.
    apply (primary_known_ok env tr' k ids_unique); try done; [apply Hu; [by intros ? ? []|by intros ? []]|].
    intros key. destruct (jget (profiles (registry n)) (su_initiator su)) as [p|] eqn:Ep; [|done]. by apply profile_key.
  - apply wp_bind, wp_modify. apply (offer_settled_ok env tr' k); try done; [apply Hu; [by intros ? ? []|by intros ? []]|].
    intros t Ht. by apply (i_offered _ _ _ _ Hn r su d o _ (jget_elem _ _ _ E)).
  - destruct Hok as (? & ?). apply wp_bind, wp_gets, wp_bind, wp_gets, wp_bind, wp_modify.
    apply (profiles_known_ok env tr' k); try done. apply Hu; [by intros ? ? []|by intros ? []].
  - destruct Hok as (? & ? & ? & Hs). apply wp_bind, wp_modify. apply (ceremony_done_ok env tr' k); try done.
    + intros sig. destruct (fits_same env tr' k n r _ (SSignals su d cp b sig) Hn E); [done..|]. by split.
    + intros sig ->. by apply Hs.
  - apply wp_bind, wp_gets, wp_bind, wp_modify. unfold sender_known.
    destruct (_ && _); [by apply (keeps_plain env tr' k)|]. apply wp_bind, wp_gets.
    destruct (negb _); [by apply (keeps_plain env tr' k)|]. apply keeps_set_flow; [done|done|done|].
    apply fits_unpointed; [|done]. apply Hu; [by intros ? ? []|by intros ? []].
  - apply wp_bind, wp_gets, wp_bind, wp_modify. by apply existing_keeps.
  - destruct Hok as (? & ? & ?). apply wp_bind, wp_modify. by eapply keeps_created.
  - destruct Hok as (? & Hs). apply wp_bind, wp_modify. apply (dkg_resumed_ok env tr' k); try done.
    + apply Hu; [by intros ? ? []|by intros ? []].
    + intros a b ->. by apply Hs.
Qed.

Lemma deliver_seal_ok agent f kept : i = SealDelivered agent f kept → wp (deliver env agent f kept) n (λ _, I) I.
Proof.
  intros Hi. pose proof now_ok as Hn. unfold deliver.
  assert (∀ b : bool, Keeps (if b || negb kept || bool_decide (agent = EmptyString) then mret tt else enqueueNotification agent (SealNotice f))) as Hend.
  { intros b. destruct (_ || _); [apply preserves_ret|by apply keeps_notify]. }
  apply wp_bind, wp_gets, wp_bind. destruct (jget (streams (table n)) agent) as [s|]; [|by apply wp_ret, Hend].
  apply wp_try, wp_bind. destruct (send_works env (tick n)) eqn:Es.
  - eapply wp_mono; [apply (wp_conj _ _ (λ _, I) (λ _ _, True) I (λ _, False)); [by apply keeps_plain|]|..].
    + unfold wp, sendFrame, next_tick, modify, mbind, act_bind. cbn. by rewrite Es.
    + intros ? m [Hm _]. apply wp_ret. by apply Hend.
    + by intros m [_ ?].
  - apply wp_send_fails; [done|]. intros _. apply wp_bind, wp_modify, wp_ret. apply Hend.
    apply inv_next in Hn. destruct Hn. split; try done; cbn.
    + by apply drop_ok.
    + intros Hc. exfalso. enough (send_works env (tick n) = true) by congruence. apply (Hc tr agent f kept). exists []. by rewrite <- Hi.
Qed.

(** ** A start *)

Lemma restored_offers rows :
  let o := restoreSessionGenesis rows (restoreSessionParticipants rows empty_offers) in
  offerTargets o = [] ∧ offerAccepts o = [].
Proof.
  assert (∀ o, offerTargets (restoreSessionParticipants rows o) = offerTargets o ∧
    offerAccepts (restoreSessionParticipants rows o) = offerAccepts o) as Hp by (induction rows as [|x rows IH]; intros o; [done|exact (IH _)]).
  assert (∀ o, offerTargets (restoreSessionGenesis rows o) = offerTargets o ∧
    offerAccepts (restoreSessionGenesis rows o) = offerAccepts o) as Hg by (clear Hp; induction rows as [|x rows IH]; intros o; [done|exact (IH _)]).
  cbn. rewrite (proj1 (Hg _)), (proj2 (Hg _)). apply Hp.
Qed.

Lemma no_presence p rows : presence_ok (mkTable [] [] [] [] p rows).
Proof.
  split; [|split]; cbn.
  - intros agent. split; [done|by intros ?%not_elem_of_nil].
  - by intros agent ?%not_elem_of_nil.
  - by intros agent s ?%not_elem_of_nil.
Qed.

(** The table is as it was but for the rows and the writes on the way. *)
Lemma inv_rows t :
  streams t = streams (table n) → agentStreams t = agentStreams (table n) → agentHomeSeen t = agentHomeSeen (table n) →
  presence t = presence (table n) → (has_pool env = true → ∀ agent, orderly env tr' agent → rows_ok t agent) → I (with_table n t).
Proof.
  intros E1 E2 E3 E4 Hr. pose proof now_ok as Hn. destruct Hn as [Ht Hd Hp]. split; try done; cbn.
  - destruct Ht as [? ? ? ? ?]. unfold live_of in *. split; unfold live_of; rewrite ?E1, ?E2; done.
  - intros Hc a. specialize (Hd Hc a). unfold live_of in *. by rewrite E1, E2.
  - intros Hpool Hc. destruct (Hp Hpool Hc) as (H1 & H2 & H3). unfold presence_ok, live_of in *. by rewrite E2, E3, E4.
Qed.

(** The agents whose revocation a start enforces. *)
Lemma loaded_ok at_ ld g row p x :
  i = Restarted at_ ld → g = registry n → row ∈ jvals (agent_revocations g) → p ∈ jvals (profiles g) →
  agent_id p = ar_agent_id row → p_k_local p = x → revocation_ok env tr' x.
Proof.
  intros Hi -> Hrow Hp He Hx. right. apply list_elem_of_fmap in Hrow as ([id row'] & -> & Hrow), Hp as ([k' p'] & -> & Hp). cbn in *.
  destruct (g_rows _ _ _ (i_registry _ _ _ _ Hold) _ _ Hrow) as [Hid Hok].
  destruct (g_profiles _ _ _ (i_registry _ _ _ _ Hold) _ _ Hp) as [<- _]. exists tr, at_, ld, id, row', p'.
  split; [by exists []; rewrite <- Hi|]. split; [done|]. split; [by split|]. rewrite <- Hx. split; [done|]. by rewrite He.
Qed.

Lemma handle_ok : wp (handle env i) n (λ _, I) I.
Proof.
  pose proof now_ok as Hn. enough (∀ j, i = j → wp (handle env j) n (λ _, I) I) as H by by apply H.
  intros j Hi. destruct j; cbn [handle].
  - apply wp_bind, wp_gets, open_ok; [done| |apply now_bound]. apply (i_table _ _ _ _ Hold).
  - by apply received_ok.
  - unfold closed. apply wp_bind, wp_gets. destruct (c_wait <$> _) as [[]|]; try by apply wp_ret. by apply finish_keeps.
  - apply resume_ok. intros c agent Hc Ha Ho. destruct (c_wait c); try by apply wp_ret. by apply acknowledge_ok.
  - apply resume_ok. intros c agent Hc Ha Ho. destruct (c_wait c); try by apply wp_ret. destruct ok; [by apply drain_ok|by apply wp_throw].
  - apply resume_ok. intros c agent Hc Ha Ho. destruct (c_wait c); try by apply wp_ret. destruct ok; [by apply dequeue_ok|by apply wp_throw].
  - apply resume_ok. intros c agent Hc Ha Ho. by apply pause_ok.
  - apply continue_ok. intros f. apply answered_ok.
  - apply continue_ok. intros f E. unfold read_failed. destruct f; (by apply wp_ret) || (by apply keeps_drop).
  - apply continue_ok. intros f E. destruct (taken r f E) as (Hn1 & Hr & Hno & Hok & Hu). unfold signals_answered.
    destruct f; try by apply wp_ret. destruct Hok as (? & ? & ? & ?). apply wp_bind, wp_modify. by apply signals_known_ok.
  - apply continue_ok. intros f E. destruct (taken r f E) as (Hn1 & Hr & Hno & Hok & Hu). unfold account_known.
    destruct f; try by apply wp_ret. destruct Hok as (? & ? & ?). apply wp_bind, wp_modify. apply write_profile_ok; try done.
    apply Hu; [by intros ? ? []|by intros ? []].
  - apply continue_ok. intros f E. destruct (taken r f E) as (Hn1 & Hr & Hno & Hok & Hu). unfold token_minted.
    destruct f; try by apply wp_ret. apply wp_bind, wp_modify. unfold register_done. by apply keeps_try.
  - apply continue_ok. intros f E. destruct (taken r f E) as (Hn1 & Hr & Hno & Hok & Hu). unfold revocation_answered.
    by apply inserted_keeps; [|apply (inv_flow env tr' k n r f Hn E)].
  - apply continue_ok. intros f E. destruct (taken r f E) as (Hn1 & Hr & Hno & Hok & Hu). unfold revocation_answered.
    destruct f; try by apply wp_ret. apply wp_bind, wp_modify. by apply revocation_stored_keeps.
  - by apply resolve_offer_keeps.
  - by apply ceremony_timeout_keeps.
  - by apply dkg_timeout_keeps.
  - by apply keeps_lands.
  - apply wp_modify, inv_rows; [by unfold presence_lands; destruct (_ !! _)..|]. intros Hp agent Ho. apply lands_rows.
    + apply (or_lands _ _ _ Ho tr). exists []. by rewrite <- Hi.
    + by apply (i_rows _ _ _ _ Hn Hp).
  - apply wp_modify, inv_rows; [done..|]. intros Hp agent Ho. apply lost_rows.
    + intros w Hw. eapply (or_lost _ _ _ Ho tr); [|exact Hw]. exists []. by rewrite <- Hi.
    + by apply (i_rows _ _ _ _ Hn Hp).
  - by eapply deliver_seal_ok.
  - apply wp_modify, inv_registry_same; [done| |done|done]. apply registry_waiters; [apply Hn|].
    apply all_jset; [apply Hn|]. cbn. rewrite <- Hi. apply i_last.
  - apply wp_modify, inv_registry_same; [done| |done|done]. apply registry_waiters; apply Hn.
  - apply wp_modify, profile_written; [done|]. left. rewrite <- Hi. apply i_last.
  - apply wp_modify, inv_desk; [done|]. destruct (i_desk _ _ _ _ Hn). split; try done. apply Forall_app. split; [done|].
    apply Forall_singleton. left. rewrite <- Hi. apply i_last.
  - apply (store_row_keeps env tr' k); [|exact Hn]. split; [done|left]. rewrite <- Hi. apply i_last.
  - apply wp_modify, inv_rows; [done..|]. intros Hp a Ho. apply taken_rows; [|by apply (i_rows _ _ _ _ Hn Hp)].
    intros ->. apply (or_taken _ _ _ Ho). rewrite <- Hi. apply i_last.
  - apply wp_modify. destruct Hn as [? ? ? ? ? Hd Hg ? ? ? Hp ? ?]. unfold restart.
    match goal with |- context [loadRevocations ?g] => set (g0 := g); destruct (loadRevocations_spec g0) as (idx & ks & -> & Hks) end.
    split; try done; cbn.
    + split; cbn; try done; [repeat split; constructor| |intros ?; constructor].
      intros agent s v. unfold live_of. cbn. rewrite elem_of_nil. naive_solver.
    + intros _ _. apply no_presence.
    + intros Hpool agent Ho. destruct (or_started _ _ _ Ho tr at_ ld) as [Hl Hw]; [by exists []; rewrite <- Hi|].
      unfold rows_ok, settled. cbn -[for_agent]. rewrite Hpool, Hl. change (table (run env tr)) with (table n) in Hw. rewrite Hw. cbn.
      split; [by intros ?%reconcile_offline|done].
    + apply all_nil.
    + destruct Hd. split; try done; cbn; [|apply all_nil]. destruct (ld_requests ld); [|apply all_nil]. intros id p Hin.
      apply list_elem_of_fmap in Hin as ([id' [p' e]] & [= -> ->] & Hin%elem_filter). by apply (d_active0 id' (p', e)).
    + destruct Hg. split; try done; cbn; try match goal with |- all_in _ _ => apply all_nil end. apply (proj2 (list.Forall_forall _ _)). intros x Hx%Hks.
      destruct Hx as [?%not_elem_of_nil|(row & Hrow & Hj & Hne)]; [done|]. apply joined_key in Hj as (p & ? & ? & ?); [|done].
      by eapply (loaded_ok at_ ld (registry n) row p).
    + destruct (restored_offers (default [] (ld_sessions ld))) as [E1 E2].
      split; rewrite ?E1, ?E2; [apply all_nil|done|split; constructor].
    + by intros r su d o res ?%not_elem_of_nil.
    + apply all_nil.
    + split; cbn; [split; constructor|apply all_nil|done|]. intros a r ?%not_elem_of_nil. done.
Qed.

End Step.

(** * Runs *)

Lemma run_last tr i : run env (tr ++ [i]) = step env (run env tr) i.
Proof. unfold run. by rewrite foldl_app. Qed.

Lemma initial_ok : Inv env [] 0 initial.
Proof.
  split; try done.
  - split; cbn; try done; [repeat split; constructor| |intros ?; constructor].
    intros agent s v. unfold live_of. cbn. rewrite elem_of_nil. naive_solver.
  - intros _ _. apply no_presence.
  - apply all_nil.
  - split; first [apply Forall_nil_2|apply all_nil].
  - split; first [apply Forall_nil_2|apply all_nil].
  - split; [apply all_nil|done|split; constructor].
  - apply all_nil.
  - split; [split; constructor|apply all_nil|done|]. intros a r ?%not_elem_of_nil. done.
Qed.

Lemma run_ok tr : Inv env tr (steps (run env tr)) (run env tr).
Proof.
  induction tr as [|i tr IH] using rev_ind; [apply initial_ok|]. rewrite run_last. unfold step.
  pose proof (handle_ok tr i IH) as H. apply wp_final in H. cbn [steps with_steps].
  destruct H. by split.
Qed.

End Runs.
End SignalRuns.

(** What holds of every run of a directory's signaling. *)
Import Text JsMap Effects Bytes Wire FrostInvariant DkgTopology Signaling SignalStreams SignalConnections SignalSessions SignalRegister SignalNode SignalTable SignalTrace SignalInvariant SignalHandlers SignalRuns.

Module SignalTheorems.

Definition ids_unique (env : SigEnv) : Prop := ∀ t t', rand env t 16 = rand env t' 16 → t = t'.

(** The statement that the fields of an assignment make. *)
Definition assignment_tbs (env : SigEnv) (a : Assignment) : bytes :=
  buildAssignmentTbs env (session_id a) (participant_a a) (participant_b a)
    (computeGenesisPrevRoot env (participant_a a) (participant_b a) (session_id a) (session_timestamp a)) (session_timestamp a)
    (initiator_session a).1 (initiator_session a).2 (counterparty_session a) (as_mode a) (as_high_stakes a) EmptyString.

(** C11. Every session assignment that a directory sends was asked for by the initiator on
    its own authenticated stream, when neither party was revoked and after both were read
    as not paused; the pair is connected by agreement if the gate is on; the target is
    the key that was asked for, and its endpoint is empty or what the target itself
    accepted the session with; the signature is what the initiator returned for this
    session's ceremony, and the statement it was asked to sign is that of the
    assignment's own fields. *)
Theorem assignment_is_consented env tr s a :
  ids_unique env → (s, SessionAssigned a) ∈ sent (run env tr) →
  ∃ su, session_ok env tr su ∧ gate_ok env tr su ∧
    participant_a a = hex_prefix (su_initiator su) ∧ participant_b a = target_pubkey (su_ask su) ∧
    initiator_session a = (initiator_session_peer_id (su_ask su), initiator_session_addrs (su_ask su)) ∧
    as_high_stakes a = high_stakes (su_ask su) ∧
    endpoint_ok env tr (su_target su) (session_id a) (counterparty_session a) ∧
    key_ok env tr (su_initiator su) (signer_pubkey a) ∧
    signed env tr (su_initiator su) (session_id a) (directory_signature a) ∧
    ∃ s', (s', CeremonyRequest (ceremony_id (session_id a)) (assignment_tbs env a)) ∈ sent (run env tr).
Proof.
  intros Hu Ha. pose proof (i_sent _ _ _ _ (run_ok env Hu tr)) as Hs.
  destruct (proj1 (list.Forall_forall _ _) Hs _ Ha eq_refl) as (agent & _ & Hok & _).
  destruct Hok as (su & d & b & si & rs & re & cp & sig & key & -> & H1 & H2 & H3 & H4 & H5 & s' & H6).
  exists su. destruct H1 as (? & ? & Ht & ?). assert (hex_prefix (su_target su) = target_pubkey (su_ask su)) as Hp.
  { by rewrite Ht, hex_prefix_hex. }
  repeat (split; [done|]). by exists s'.
Qed.

(** C12. A frame that is for one agent is only ever sent on a stream whose challenge was
    answered with that agent's key, and for the reason that [meant] states: a connection
    request was sent by the agent it names to the agent that gets it, a disclosure is
    passed between the two parties of a request, a connection was requested by one and
    accepted by the other, an offer, a ceremony or an assignment is for a party of the
    session. *)
Theorem frames_reach_their_agent env tr s f :
  ids_unique env → (s, f) ∈ sent (run env tr) → personal f = true →
  ∃ agent, owns env tr s agent ∧ meant env tr (sent (run env tr)) agent f.
Proof.
  intros Hu Hf Hp. pose proof (i_sent _ _ _ _ (run_ok env Hu tr)) as Hs.
  by apply (proj1 (list.Forall_forall _ _) Hs _ Hf).
Qed.

(** C13. The incremental table of streams is the table it is meant to be: the listed
    streams of an agent are the open streams that authenticated as it, and frames go to
    the newest of its home streams, or to its newest stream when it has no home stream,
    whatever opened, closed, authenticated or failed before.  Only the removal of a
    stream after a failed delivery breaks this. *)
Theorem delivery_is_newest_home env tr agent :
  ids_unique env → calm env tr →
  let n := run env tr in
  jget (streams (table n)) agent = fst <$> survivor_of (live_of (table n) agent) ∧
  ∀ s v, (s, v) ∈ live_of (table n) agent ↔
    ∃ c, jget (conns n) s = Some c ∧ authedPubkeyHex c = Some agent ∧ is_visiting c = v.
Proof.
  intros Hu Hc n. pose proof (run_ok env Hu tr) as Hn. split; [by apply (i_delivery _ _ _ _ Hn)|].
  apply (tk_live _ _ _ (i_table _ _ _ _ Hn)).
Qed.


(** C29. Every connection that a directory holds was asked for by one party and accepted by
    the other, which was the target of that very request when it answered; or another
    node of the consortium held it. *)
Theorem connections_are_agreed env tr c :
  ids_unique env → c ∈ connections (desk (run env tr)) → connection_ok env tr c.
Proof.
  intros Hu Hc. by apply (proj1 (list.Forall_forall _ _) (d_connections _ _ _ _ (i_desk _ _ _ _ (run_ok env Hu tr)))).
Qed.

(** C30. A profile that a directory has of an agent either is a row that came from another
    node, of which nothing is known here, or was made here: then some agent asked, on a
    stream of its own, to register this key with this post-quantum key, the holder of the
    agent's key said on its own authenticated stream that a key generation for it was
    complete, with this group key and this key binding, and the hash of the phone is that
    of a pre-authorisation token of the key or of the stub that was sent. *)
Theorem profiles_are_completed env tr k p :
  ids_unique env → jget (profiles (registry (run env tr))) k = Some p →
  p_k_local p = k ∧
  (ProfileReplicated p ∈ tr ∨
   ∃ f b asker, said env tr asker (Register f) ∧ k_local_pubkey f = k ∧ ml_dsa_pubkey f = p_ml_dsa p ∧
     phone_ok env tr f (phone_stub_hash p) ∧ said env tr k (DkgComplete (primary_pubkey p) b) ∧ key_binding p = Some b).
Proof.
  intros Hu Hp. destruct (all_get _ _ _ _ (g_profiles _ _ _ (i_registry _ _ _ _ (run_ok env Hu tr))) Hp) as [Hk Hok].
  split; [done|]. destruct Hok as [?|(f & b & [asker ?] & ? & ? & ? & ? & ?)]; [by left|right]. subst k. by exists f, b, asker.
Qed.


(** * What is lost *)

(** Streams that close one after the other. *)
Definition close_all (env : SigEnv) (agent : string) (es : list (nat * bool)) (t : Table) : Table :=
  foldl (λ t e, unregister_stream env e.1 agent e.2 t) t es.

Lemma close_all_stranded env agent es t :
  jget (streams t) agent = None →
  jget (streams (close_all env agent es t)) agent = None ∧ presence (close_all env agent es t) = presence t.
Proof.
  revert t. induction es as [|[s v] es IH]; intros t Ht; [done|]. unfold close_all. cbn [foldl fst snd].
  assert (jget (streams (unregister_stream env s agent v t)) agent = None ∧ presence (unregister_stream env s agent v t) = presence t) as [H1 <-].
  { unfold unregister_stream. rewrite (bool_decide_eq_false_2 (jget (streams t) agent = Some s)) by congruence. by destruct (survivor_of _). }
  by apply IH.
Qed.

(** C32. When the result of a seal cannot be sent to a party, the party's entry is removed
    and nothing but a new authentication puts one back: however many of its other
    streams stay open or close afterwards, the agent has no stream that frames go to,
    and that it is gone is never written: no presence write is issued. *)
Theorem failed_delivery_strands_agent env agent s f kept es n :
  jget (streams (table n)) agent = Some s → jwf (streams (table n)) → send_works env (tick n) = false →
  let t := close_all env agent es (table (deliver env agent f kept n).1) in
  jget (streams t) agent = None ∧ presence t = presence (table n).
Proof.
  intros Hs Hw Hf t. subst t. assert (table (deliver env agent f kept n).1 = drop_stream agent (table n)) as ->.
  { apply (wp_final _ _ (λ m, table m = drop_stream agent (table n))). unfold deliver.
    apply wp_bind, wp_gets, wp_bind. rewrite Hs. apply wp_try, wp_bind, wp_send_fails; [done|]. intros _.
    apply wp_bind, wp_modify, wp_ret. destruct (_ || _); [by apply wp_ret|by apply wp_modify]. }
  apply (close_all_stranded env agent es (drop_stream agent (table n))). cbn. by rewrite jget_jdel, decide_True.
Qed.

(** When an agent comes back and the first of its queued connection requests cannot be
    sent, all of them are gone: they are out of the queue, none is open for an answer
    and nothing was sent. *)
Theorem undelivered_requests_are_lost env s agent q l n :
  jget (queuedRequests (desk n)) agent = Some (q :: l) → jwf (queuedRequests (desk n)) → send_works env (tick n) = false →
  let n' := (dequeue_requests env s agent n).1 in
  jget (queuedRequests (desk n')) agent = None ∧
  pendingConnectionRequests (desk n') = pendingConnectionRequests (desk n) ∧ sent n' = sent n.
Proof.
  intros Hq Hw Hs n'. subst n'.
  apply (wp_final _ _ (λ m, jget (queuedRequests (desk m)) agent = None ∧
    pendingConnectionRequests (desk m) = pendingConnectionRequests (desk n) ∧ sent m = sent n)).
  unfold dequeue_requests. apply wp_bind, wp_gets. rewrite Hq. apply wp_bind, wp_modify, wp_bind. cbn [default deliver_requests].
  apply wp_try, wp_bind, wp_send_fails; [exact Hs|]. intros _. apply wp_ret. unfold set_wait. apply wp_bind, wp_gets.
  assert (jget (jdel (queuedRequests (desk n)) agent) agent = None) as Hno by by rewrite jget_jdel, decide_True.
  destruct (jget _ s); [by apply wp_modify|by apply wp_ret].
Qed.

(** * The topology of a key generation *)

Lemma dupes_none l acc : (foldl dupe_step (acc, []) l).2 = [] → NoDup l ∧ ∀ x, x ∈ l → x ∉ acc.
Proof.
  revert acc. assert (∀ l s d, d ≠ [] → (foldl dupe_step (s, d) l).2 ≠ []) as Hgrow.
  { clear. induction l as [|x l IH]; intros s d Hd; [done|]. cbn. unfold dupe_step at 2. cbn. apply IH.
    case_bool_decide; [|done]. unfold set_add. case_bool_decide; [done|]. by destruct d. }
  induction l as [|x l IH]; intros acc Hl; [split; [constructor|set_solver]|]. cbn in Hl. unfold dupe_step at 2 in Hl. cbn in Hl.
  case_bool_decide as E; [by apply Hgrow in Hl|]. destruct (IH _ Hl) as [H1 H2]. split.
  - apply list.NoDup_cons. split; [|done]. intros Hx. apply (H2 x Hx), set_add_elem. by right.
  - intros y [->|Hy]%elem_of_cons; [done|]. intros Ha. apply (H2 y Hy), set_add_elem. by left.
Qed.

(** A key generation that the topology allows with more than one validator is sound:
    the validators' node ids are distinct, those that take part are validators that the
    client can reach, each once, they are as many as the threshold asks for, and the
    threshold is a majority of the validators. *)
Theorem topology_is_majority vs nodes reachable :
  let t := computeDkgTopology vs nodes reachable in
  topology_refused t = false → (1 < consortiumNodeCount t)%Z →
  let ids := map nodeId (vs nodes) in
  NoDup ids ∧ consortiumNodeCount t = Z.of_nat (length ids) ∧ NoDup (quorumNodeIds t) ∧
  (∀ x, x ∈ quorumNodeIds t ↔ x ∈ ids ∧ ∀ r, reachable = Some r → x ∈ r) ∧
  dkgParticipants t = Z.of_nat (length (quorumNodeIds t)) ∧ (dkgThreshold t <= dkgParticipants t)%Z ∧
  (consortiumNodeCount t < 2 * dkgThreshold t)%Z ∧ (dkgThreshold t <= consortiumNodeCount t)%Z.
Proof.
  intros t. subst t. unfold topology_refused, computeDkgTopology. set (ids := map nodeId (vs nodes)). cbn.
  destruct (to_set_nodup ids) as [Hnd Hin]. set (m := Z.of_nat (length (to_set ids))).
  intros H Hc. apply orb_false_elim in H as [H Hbelow]. apply orb_false_elim in H as [Hdup Hrep].
  apply negb_false_iff, bool_decide_eq_true in Hdup. destruct (dupes_none _ _ Hdup) as [Hids _].
  assert (length (to_set ids) = length ids) as Hlen.
  { apply Permutation_length. apply NoDup_Permutation; [done|done|]. intros x. apply Hin. }
  destruct (Z.eqb_spec m 0) as [E|E]; [cbn in Hc; lia|]. assert (0 < m)%Z as Hpos by lia.
  rewrite (proj2 (Z.ltb_lt _ _) Hpos) in *. destruct (Z.eqb_spec m 1) as [E1|E1]; [lia|].
  rewrite (proj2 (Z.ltb_lt _ _) Hc) in Hbelow. cbn in Hbelow. apply Z.ltb_ge in Hbelow.
  split; [done|]. split; [unfold m; lia|]. split; [|split; [|split; [done|split; [done|]]]].
  - destruct reachable; [|done]. eapply sublist_NoDup; [exact Hnd|]. apply filter_sublist.
  - intros x. destruct reachable as [r|].
    + rewrite filter_elem, Hin, bool_decide_eq_true. naive_solver.
    + rewrite Hin. naive_solver.
  - split; [|]; pose proof (Z.div_mod m 2); pose proof (Z.mod_pos_bound m 2); lia.
Qed.

End SignalTheorems.
