(* ===== verification/SignalDemo.v ===== *)
(** Runs of a directory's signaling: two agents register, connect and establish a session;
    an agent with several streams; a registration that another agent takes over.  The
    theorems of [SignalTheorems] at these runs. *)
From S2P Require Import Prelude Text JsMap Effects Bytes Wire FrostShares FrostHandler FrostInvariant DkgTopology Signaling SignalStreams SignalConnections SignalSessions SignalRegister SignalNode SignalInvariant SignalHandlers SignalTheorems.
Import Text JsMap Effects Bytes Wire FrostInvariant DkgTopology Signaling SignalStreams SignalConnections SignalSessions SignalRegister SignalNode SignalTable SignalTrace SignalInvariant SignalHandlers SignalRuns SignalTheorems.

Module SignalDemo.

(** A random source that never repeats itself, and a scheme in which a signature starts with
    the key and what is signed. *)
Definition demo_env : SigEnv := {|
  clock := λ t, Z.of_nat t;
  rand := λ t _, zeros t;
  send_works := λ _, true;
  verify := λ pk h sig, String.prefix (pk +:+ h) sig;
  sha256 := λ b, b;
  directory_sign := λ _ b, Some b;
  requireRegistration := true;
  requireConnectionGate := true;
  has_pool := true;
  has_tokenValidator := false;
  forceDkgFailure := false;
  manifest_nodes := λ _, [];
  validatorNodes := λ l, l;
  computeGenesisPrevRoot := λ a b sid _, a +:+ b +:+ sid;
  tbs_short := λ sid a b g _, sid +:+ a +:+ b;
  tbs_long := λ sid a b g _ e1 e2 _ _ _, sid +:+ a +:+ b +:+ peer_id e1 +:+ peer_id e2;
  relay_tbs := λ sid a b _ _, sid +:+ a +:+ b;
  revocation_tbs := λ a b c d _, a +:+ b;
  pickRelay := λ _ _, Some (mkEndpoint "relay" ["/dns/relay"]) |}.

Lemma demo_unique : ids_unique demo_env.
Proof. intros t t' H. cbn in H. by rewrite <- (zeros_length t), <- (zeros_length t'), H. Qed.

Abbreviation at_end := (run demo_env).

(** The agent opens a stream and answers its challenge; what it was sent is drained. *)
Definition connect (tr : list Input) (pk : bytes) (visiting : bool) : list Input :=
  let n := at_end (tr ++ [Opened]) in
  let s := length tr in
  let nc := from_option nonce EmptyString (jget (conns n) s) in
  tr ++ [Opened; Received s (AuthResponse pk (pk +:+ auth_hash demo_env nc pk) visiting); TokenKnown s None None None;
         NotificationsDrained s true; RequestsDequeued s true].

Definition register_frame (pk : bytes) (ml_dsa phone : string) : RegisterRequest :=
  mkRegister phone (hex pk) ml_dsa None.

(** The agent of stream [s] registers its own key. *)
Definition registered (tr : list Input) (s : nat) (pk : bytes) : list Input :=
  let r := length tr in
  tr ++ [Received s (Register (register_frame pk ("ml" +:+ pk) ("phone" +:+ pk))); Received s (DkgComplete (hex ("G" +:+ pk)) ("bind" +:+ pk));
         Answered r; TokenMinted r None; Received s (PeerInfoAnnounce (mkEndpoint ("peer" +:+ pk) []))].

Definition alice : nat := 0.
Definition both_here : list Input := Eval vm_compute in connect (connect [] "A" false) "B" false.
Definition bob : nat := 5.
Definition both_registered : list Input := Eval vm_compute in registered (registered both_here alice "A") bob "B".

(** Alice asks for a connection and Bob accepts. *)
Definition request_id : string := Eval vm_compute in
  let n := at_end (both_registered ++ [Received alice (ConnectionRequest "42" "hello"); Answered 20; Answered 20]) in
  default EmptyString (head (jkeys (pendingConnectionRequests (desk n)))).

Definition connected : list Input := Eval vm_compute in
  both_registered ++ [Received alice (ConnectionRequest "42" "hello"); Answered 20; Answered 20;
    Received bob (ConnectionResponse request_id accept); Answered 23].

Definition connection : Connection := Eval vm_compute in
  default (mkConnection "" "" "" 0) (head (connections (desk (at_end connected)))).

Definition ask : SessionAsk :=
  mkAsk "B" (Some (c_id connection)) VUndef (Some "peerA") (Some ["/ip4/a"]) (Some relayed) true None None true.

Definition asked_for : list Input := Eval vm_compute in
  connected ++ [Received alice (SessionRequest ask); PauseKnown alice (Some false); PauseKnown alice (Some false); Answered 27].

Definition offered_id : bytes := Eval vm_compute in
  default EmptyString (hex_prefix <$> head (jkeys (offerTargets (offers (at_end asked_for))))).

Definition session : list Input := Eval vm_compute in
  asked_for ++ [Received bob (SessionOfferAccept offered_id (mkEndpoint "peerB" ["/ip4/b"])); Answered 27; Answered 27;
    Received alice (CeremonyResult (ceremony_id offered_id) (Some "signed")); Answered 27].

Definition issued : option Assignment := Eval vm_compute in
  match last (sent (at_end session)) with Some (_, SessionAssigned a) => Some a | _ => None end.

Example session_issued : is_Some issued ∧ (session_id <$> issued) = Some offered_id.
Proof. vm_compute. split; [by eexists|done]. Qed.

(** The entry of a list at a position. *)
Lemma at_position {A} (l : list A) (i : nat) (x : A) : l !! i = Some x → x ∈ l.
Proof. apply list_elem_of_lookup_2. Qed.

Definition the_assignment : Assignment := Eval vm_compute in
  match issued with Some a => a | None => mkAssignment "" "" "" no_endpoint no_endpoint no_endpoint 0 "" "" None None None (None, None) no_endpoint direct false None None None end.

Definition last_sent : nat := Eval vm_compute in pred (length (sent (at_end session))).

Lemma assignment_is_consented_witness :
  (bob, SessionAssigned the_assignment) ∈ sent (at_end session) ∧
  ∃ su, session_ok demo_env session su ∧ su_initiator su = hex "A" ∧ participant_b the_assignment = target_pubkey (su_ask su).
Proof.
  assert ((bob, SessionAssigned the_assignment) ∈ sent (at_end session)) as Hin by (apply (at_position _ last_sent); vm_compute; reflexivity).
  split; [exact Hin|].
  destruct (assignment_is_consented demo_env session bob the_assignment demo_unique Hin) as (su & Hs & _ & Ha & Hb & _).
  exists su. split; [exact Hs|]. split; [|exact Hb]. destruct Hs as (_ & (_ & _ & pk & _ & _ & _ & _ & _ & _ & E) & _).
  rewrite E, hex_prefix_hex in Ha. by rewrite E, <- Ha.
Defined.

Lemma frames_reach_their_agent_witness :
  (bob, SessionAssigned the_assignment) ∈ sent (at_end session) ∧
  ∃ agent, owns demo_env session bob agent ∧ meant demo_env session (sent (at_end session)) agent (SessionAssigned the_assignment).
Proof.
  assert ((bob, SessionAssigned the_assignment) ∈ sent (at_end session)) as Hin by (apply (at_position _ last_sent); vm_compute; reflexivity).
  split; [exact Hin|]. exact (frames_reach_their_agent demo_env session bob _ demo_unique Hin eq_refl).
Defined.

Lemma connections_are_agreed_witness :
  connection ∈ connections (desk (at_end connected)) ∧ connection_ok demo_env connected connection.
Proof.
  assert (connection ∈ connections (desk (at_end connected))) as Hin by (apply (at_position _ 0); vm_compute; reflexivity).
  split; [exact Hin|]. exact (connections_are_agreed demo_env connected connection demo_unique Hin).
Defined.

Definition alices_profile : Profile := Eval vm_compute in
  match jget (profiles (registry (at_end both_registered))) "41" with Some p => p | None => mkProfile "" "" "" "" 0 false "" None None end.

Lemma profiles_are_completed_witness :
  jget (profiles (registry (at_end both_registered))) "41" = Some alices_profile ∧
  ∃ b, said demo_env both_registered "41" (DkgComplete (primary_pubkey alices_profile) b).
Proof.
  assert (jget (profiles (registry (at_end both_registered))) "41" = Some alices_profile) as H by (vm_compute; reflexivity).
  split; [exact H|].
  destruct (proj2 (profiles_are_completed demo_env both_registered "41" alices_profile demo_unique H)) as [Hin|(f & b & asker & _ & _ & _ & _ & Hs & _)].
  - apply list_elem_of_In in Hin. cbn in Hin. intuition discriminate.
  - exists b. exact Hs.
Defined.

(** * Streams *)

(** Alice opens a home stream, a visiting one and another home stream, which closes. *)
Definition three_streams : list Input := Eval vm_compute in connect (connect (connect [] "A" false) "A" true) "A" false ++ [Closed 10].

Lemma demo_calm tr : calm demo_env tr.
Proof. by intros. Qed.

Lemma delivery_is_newest_home_witness :
  calm demo_env three_streams ∧ jget (streams (table (at_end three_streams))) "41" = Some 0.
Proof.
  split; [apply demo_calm|].
  rewrite (proj1 (delivery_is_newest_home demo_env three_streams "41" demo_unique (demo_calm _))). vm_compute. reflexivity.
Defined.







(** Where the offline write of an agent lands before its online write, the row says that
    the agent is online when it has no stream. *)
Definition crossed : list Input := Eval vm_compute in connect [] "A" false ++ [Closed 0; PresenceLands 1; PresenceLands 0].

Example crossed_writes_leave_online :
  jget (presenceRows (table (at_end crossed))) "41" = Some true ∧ conns (at_end crossed) = [] ∧
  presencePending (table (at_end crossed)) = [].
Proof. vm_compute. done. Qed.

(** * Revocation *)







(** * Failures *)

(** The same directory, where a send fails from the given call on. *)
Definition failing_env (from : nat) : SigEnv := {|
  clock := clock demo_env; rand := rand demo_env; send_works := λ t, (t <? from)%nat; verify := verify demo_env; sha256 := sha256 demo_env;
  directory_sign := directory_sign demo_env; requireRegistration := false; requireConnectionGate := false; has_pool := true;
  has_tokenValidator := false; forceDkgFailure := false; manifest_nodes := manifest_nodes demo_env; validatorNodes := validatorNodes demo_env;
  computeGenesisPrevRoot := computeGenesisPrevRoot demo_env; tbs_short := tbs_short demo_env; tbs_long := tbs_long demo_env;
  relay_tbs := relay_tbs demo_env; revocation_tbs := revocation_tbs demo_env; pickRelay := pickRelay demo_env |}.

Definition two_streams : list Input := Eval vm_compute in connect (connect [] "A" false) "A" false.

(** Alice has two home streams; the result of a seal cannot be sent on the newer one. *)
Lemma failed_delivery_strands_agent_witness :
  let n := at_end two_streams in
  let env := failing_env (tick n) in
  jget (streams (table n)) "41" = Some 5 ∧
  let t := close_all env "41" [(5, false)] (table (deliver env "41" VUndef true n).1) in
  jget (streams t) "41" = None ∧ live_of t "41" = [(0, false)] ∧ written (presence t) "41" = Some true.
Proof.
  intros n env. assert (jget (streams (table n)) "41" = Some 5) as H by (vm_compute; reflexivity). split; [exact H|]. intros t.
  assert (jwf (streams (table n))) as Hw by apply (i_table _ _ _ _ (run_ok demo_env demo_unique two_streams)).
  destruct (failed_delivery_strands_agent env "41" 5 VUndef true [(5, false)] n H Hw) as [H1 H2]; [vm_compute; reflexivity|].
  split; [exact H1|]. split; [vm_compute; reflexivity|]. fold t in H2. rewrite H2. vm_compute. reflexivity.
Defined.

(** Alice asks for a connection while Bob is away; Bob comes back on a stream that fails. *)
Definition bob_away : list Input := Eval vm_compute in
  both_registered ++ [Closed bob; Received alice (ConnectionRequest "42" "hello"); Answered 21; Answered 21].

Lemma undelivered_requests_are_lost_witness :
  let n := at_end bob_away in
  let env := failing_env (tick n) in
  is_Some (jget (queuedRequests (desk n)) "42") ∧
  jget (queuedRequests (desk (dequeue_requests env bob "42" n).1)) "42" = None.
Proof.
  intros n env. destruct (jget (queuedRequests (desk n)) "42") as [[|q l]|] eqn:E; [vm_compute in E; discriminate| |vm_compute in E; discriminate].
  split; [by eexists|]. apply (undelivered_requests_are_lost env bob "42" q l n E).
  - vm_compute. apply NoDup_singleton.
  - vm_compute. reflexivity.
Defined.

(** * Key generations *)

Definition three_nodes : list ConsortiumNode := [mkConsortiumNode "n1" None; mkConsortiumNode "n2" None; mkConsortiumNode "n3" None].

Lemma topology_is_majority_witness :
  let t := computeDkgTopology id three_nodes (Some ["n3"; "n1"]) in
  topology_refused t = false ∧ NoDup (quorumNodeIds t) ∧ (consortiumNodeCount t < 2 * dkgThreshold t)%Z.
Proof.
  intros t. assert (topology_refused t = false) as H by (vm_compute; reflexivity). split; [exact H|].
  destruct (topology_is_majority id three_nodes (Some ["n3"; "n1"]) H) as (_ & _ & H1 & _ & _ & _ & H2 & _); [vm_compute; reflexivity|].
  split; [exact H1|exact H2].
Defined.

(** ** A registration that is taken over *)

Definition eve : nat := 5.
Definition with_eve : list Input := Eval vm_compute in connect (connect [] "A" false) "E" false.

(** Alice registers; before her key generation is complete Eve, on a stream of her own,
    registers under Alice's key. *)
Definition taken_over : list Input :=
  with_eve ++ [Received alice (Register (register_frame "A" "alices-key" "alices-phone"));
    Received eve (Register (register_frame "A" "eves-key" "eves-phone"));
    Received alice (DkgComplete (hex "GA") (hex "bind")); Answered 11; TokenMinted 11 None; DkgTimeout 10; Answered 10].

(** The handler of a registration takes the key from the frame and never compares it
    with the key that the stream authenticated as: any agent that registers under
    another's key while that other's key generation runs gets the answer to it.  The
    profile of the other's key then holds the intruder's post-quantum key and phone, the
    intruder is told that the registration succeeded, and the owner of the key is told
    that it failed and that its key is taken. *)
Theorem registration_of_another :
  let n := at_end (taken_over ++ [Received alice (Register (register_frame "A" "alices-key" "alices-phone"))]) in
  (∃ p, jget (profiles (registry n)) (hex "A") = Some p ∧ p_ml_dsa p = "eves-key" ∧ phone_stub_hash p = hex "eves-phone" ∧
    (alice, RegisterError "already_registered" (Some p)) ∈ sent n ∧ (eve, RegisterSuccess (agent_id p) (hex "GA") None) ∈ sent n) ∧
  (alice, RegisterError "dkg_failed" None) ∈ sent n ∧
  ∀ f, Received alice (Register f) ∈ taken_over → ml_dsa_pubkey f = "alices-key".
Proof.
  intros n. split; [|split].
  - destruct (jget (profiles (registry n)) (hex "A")) as [p|] eqn:E; [|vm_compute in E; discriminate].
    exists p. vm_compute in E. injection E as <-. repeat (split; [reflexivity|]).
    split; [apply (at_position _ 8)|apply (at_position _ 6)]; vm_compute; reflexivity.
  - apply (at_position _ 7). vm_compute. reflexivity.
  - intros f H. apply list_elem_of_In in H. cbn in H. intuition (try discriminate). by simplify_eq.
Qed.

End SignalDemo.
