(* ===== verification/SignalFlights.v ===== *)
(** The ceremonies that are in flight: an agent has at most one, it is marked exactly while
    a session request of the agent waits for it, and it can always be brought to an end. *)
From S2P Require Import Prelude Text JsMap Bytes Effects Wire FrostShares FrostHandler FrostInvariant DkgTopology Signaling SignalStreams SignalConnections SignalSessions SignalRegister SignalNode SignalInvariant SignalHandlers SignalTheorems SignalDemo.
Import Text JsMap Effects Bytes Wire FrostInvariant DkgTopology Signaling SignalStreams SignalConnections SignalSessions SignalRegister SignalNode SignalTable SignalTrace SignalInvariant SignalHandlers SignalSessionHandlers SignalRuns.

Module SignalFlights.

(** * Actions that start and end no flow *)

Section Quiet.
Context (env : SigEnv).

Definition quiet {A} (m : Task A) : Prop :=
  ∀ F H T, preserves (λ n, flows n = F ∧ frost n = H ∧ T <= tick n) m.

Lemma silent_ret {A} (a : A) : quiet (mret a).
Proof. intros F H T. apply preserves_ret. Qed.

Lemma silent_throw {A} e : quiet (throw e : Task A).
Proof. intros F H T. apply preserves_throw. Qed.

Lemma silent_gets {A} (f : Node → A) : quiet (gets f).
Proof. intros F H T. apply preserves_gets. Qed.

Lemma silent_bind {A B} (m : Task A) (f : A → Task B) : quiet m → (∀ a, quiet (f a)) → quiet (m ≫= f).
Proof. intros Hm Hf F H T. apply preserves_bind; [apply Hm|]. intros a. apply Hf. Qed.

Lemma silent_try {A} (m : Task A) h : quiet m → (∀ e, quiet (h e)) → quiet (try_catch m h).
Proof. intros Hm Hh F H T. apply preserves_try; [apply Hm|]. intros e. apply Hh. Qed.

Lemma silent_modify f : (∀ n, flows (f n) = flows n ∧ frost (f n) = frost n ∧ tick (f n) = tick n) → quiet (modify f).
Proof. intros Hf F H T. apply preserves_modify. intros n. destruct (Hf n) as (-> & -> & ->). done. Qed.

Lemma quiet_for_each {A} (body : A → Task unit) l : (∀ x, quiet (body x)) → quiet (for_each body l).
Proof. intros Hb. induction l as [|x l IH]; [apply silent_ret|]. by apply silent_bind; [|intros _]. Qed.

Lemma quiet_tick : quiet next_tick.
Proof. intros F H T n (? & ? & ?). apply wp_tick. cbn. repeat split; [done|done|lia]. Qed.

Lemma silent_send s f : quiet (sendFrame env s f).
Proof.
  intros F H T n (? & ? & ?). apply wp_send; cbn; (repeat split; [done|done|lia]).
Qed.

End Quiet.

Create HintDb quiet.
#[local] Hint Resolve silent_ret silent_throw silent_gets quiet_tick silent_send : quiet.

Ltac quiet :=
  repeat match goal with
  | |- quiet (_ ≫= _) => apply silent_bind; [|intros ?]
  | |- quiet (try_catch _ _) => apply silent_try; [|intros ?]
  | |- quiet (for_each _ _) => apply quiet_for_each; intros ?
  | |- quiet (if ?b then _ else _) => destruct b
  | |- quiet (match ?b with _ => _ end) => destruct b
  | |- quiet (modify _) => apply silent_modify; done
  | |- quiet _ => solve [eauto with quiet]
  end.

Section Handlers.
Context (env : SigEnv).

Lemma quiet_now : quiet (now env). Proof. unfold now. quiet. Qed.
Lemma quiet_random k : quiet (randomBytes env k). Proof. unfold randomBytes. quiet. Qed.
Lemma quiet_try_send s f : quiet (try_send env s f). Proof. unfold try_send. quiet. Qed.
Lemma quiet_table f : quiet (on_table f). Proof. unfold on_table. quiet. Qed.
Lemma quiet_desk f : quiet (on_desk f). Proof. unfold on_desk. quiet. Qed.
Lemma quiet_offers f : quiet (on_offers f). Proof. unfold on_offers. quiet. Qed.
Lemma quiet_registry f : quiet (on_registry f). Proof. unfold on_registry. quiet. Qed.
Lemma quiet_conn s c : quiet (set_conn s c). Proof. unfold set_conn. quiet. Qed.
Lemma quiet_stream a : quiet (stream_of a). Proof. unfold stream_of. quiet. Qed.
#[local] Hint Resolve quiet_now quiet_random quiet_try_send quiet_table quiet_desk quiet_offers quiet_registry quiet_conn quiet_stream : quiet.

Lemma quiet_wait s w : quiet (set_wait s w). Proof. unfold set_wait. quiet. Qed.
Lemma quiet_notify a f : quiet (enqueueNotification a f). Proof. apply quiet_desk. Qed.
Lemma quiet_tell_stream s f : quiet (tell_stream env s f). Proof. unfold tell_stream. quiet. Qed.
#[local] Hint Resolve quiet_wait quiet_notify quiet_tell_stream : quiet.

Lemma silent_tell a f : quiet (tell env a f). Proof. unfold tell. quiet. Qed.
Lemma quiet_finish s : quiet (finish env s). Proof. unfold finish, abandon_session. quiet. Qed.
Lemma quiet_write w : quiet (forget_write w). Proof. unfold forget_write. quiet. Qed.
#[local] Hint Resolve silent_tell quiet_finish quiet_write : quiet.

Lemma quiet_guarded s m : quiet m → quiet (guarded env s m). Proof. intros. unfold guarded. quiet. Qed.
Lemma quiet_refuse s f : quiet (refuse env s f). Proof. unfold refuse. quiet. Qed.
Lemma quiet_open id p : quiet (open_request env id p). Proof. unfold open_request. quiet. Qed.
#[local] Hint Resolve quiet_guarded quiet_refuse quiet_open : quiet.

Lemma quiet_until s l : quiet (send_until_failure env s l).
Proof. induction l; cbn [send_until_failure]; quiet. Qed.
Lemma quiet_deliver s a l : quiet (deliver_requests env s a l).
Proof. induction l; cbn [deliver_requests]; quiet. Qed.
#[local] Hint Resolve quiet_until quiet_deliver : quiet.

Lemma quiet_open_stream s : quiet (open_stream env s). Proof. unfold open_stream. quiet. Qed.
Lemma quiet_authenticate s c pk sig v : quiet (authenticate env s c pk sig v). Proof. unfold authenticate, admit_stream. quiet. Qed.
Lemma quiet_acknowledge s c a t b p : quiet (acknowledge env s c a t b p). Proof. unfold acknowledge. quiet. Qed.
Lemma quiet_drain s a : quiet (drain_notifications env s a). Proof. unfold drain_notifications. quiet. Qed.
Lemma quiet_dequeue s a : quiet (dequeue_requests env s a). Proof. unfold dequeue_requests. quiet. Qed.
Lemma quiet_deliver_seal a f b : quiet (deliver env a f b). Proof. unfold deliver. quiet. Qed.
Lemma quiet_lands t : quiet (write_lands t). Proof. unfold write_lands. quiet. Qed.
Lemma quiet_existing s a t p q c : quiet (existing_known env s a t p q c).
Proof. unfold existing_known, relay_request, queue_or_tell, queue_request, delete_active, connection_error. quiet. Qed.
Lemma quiet_created p s c : quiet (connection_created env p s c). Proof. unfold connection_created. quiet. Qed.
Lemma quiet_disclosure_request a id l : quiet (processDisclosureRequest env a id l). Proof. unfold processDisclosureRequest. quiet. Qed.
Lemma quiet_disclosure_response a id l : quiet (processDisclosureResponse env a id l). Proof. unfold processDisclosureResponse. quiet. Qed.
Lemma quiet_error s r : quiet (session_error env s r). Proof. unfold session_error. quiet. Qed.
Lemma quiet_connection_error s r : quiet (connection_error env s r). Proof. unfold connection_error. quiet. Qed.
Lemma quiet_signer a p : quiet (new_signer a p). Proof. unfold new_signer. quiet. Qed.
Lemma quiet_ceremonies i f : quiet (set_pending_ceremonies i f). Proof. unfold set_pending_ceremonies. quiet. Qed.
#[local] Hint Resolve quiet_error quiet_connection_error quiet_signer quiet_ceremonies : quiet.

Lemma silent_ask r i c t : quiet (ask_ceremony env r i c t). Proof. unfold ask_ceremony. quiet. Qed.
Lemma quiet_issue su d cp b sig l : quiet (issue_assignment env su d cp b sig l).
Proof. unfold issue_assignment, sign_for_relay, record_session, deliver_assignment, mark_delivered. quiet. Qed.
Lemma quiet_pre_auth f : quiet (on_pre_auth f). Proof. unfold on_pre_auth. quiet. Qed.
Lemma quiet_waiters f : quiet (on_waiters f). Proof. unfold on_waiters. quiet. Qed.
#[local] Hint Resolve quiet_pre_auth quiet_waiters : quiet.
Lemma quiet_refused s k r p : quiet (register_refused env s k r p). Proof. unfold register_refused. quiet. Qed.
Lemma quiet_commitment s k p : quiet (check_commitment env s k p).
Proof. unfold check_commitment, drop_commitment, register_refused. quiet. Qed.
Lemma quiet_stored s rv k b : quiet (revocation_stored env s rv k b). Proof. unfold revocation_stored. quiet. Qed.
Lemma quiet_session_request s a q : quiet (session_request env s a q). Proof. unfold session_request, refuse_session. quiet. Qed.

End Handlers.

#[export] Hint Resolve silent_ret silent_throw silent_gets quiet_tick silent_send quiet_now quiet_random quiet_try_send quiet_table quiet_desk
  quiet_offers quiet_registry quiet_conn quiet_stream quiet_wait quiet_notify quiet_tell_stream silent_tell quiet_finish quiet_write
  quiet_guarded quiet_refuse quiet_open quiet_until quiet_deliver quiet_open_stream quiet_authenticate quiet_acknowledge quiet_drain
  quiet_dequeue quiet_deliver_seal quiet_lands quiet_existing quiet_created quiet_disclosure_request quiet_disclosure_response quiet_error
  quiet_connection_error quiet_signer quiet_ceremonies silent_ask quiet_issue quiet_pre_auth quiet_waiters quiet_refused quiet_commitment
  quiet_stored quiet_session_request : quiet.

(** * What is in flight *)

Definition running (f : Flow) : option (Setup * Drawn) :=
  match f with SCeremony su d _ _ _ | SSignals su d _ _ _ => Some (su, d) | _ => None end.

Definition flow_draw (f : Flow) : option Drawn :=
  match f with SOffer _ d _ _ | SProfiles _ d _ | SCeremony _ d _ _ _ | SSignals _ d _ _ _ => Some d | _ => None end.

Definition flight_key (agent : string) : string := FrostShares.key_of agent (session_epoch agent).

Definition flight_of (sid : bytes) : FrostHandler.InFlightEntry := FrostHandler.mkInFlight (ceremony_id sid) (ceremony_id sid).

Definition in_flight (n : Node) (agent : string) : option FrostHandler.InFlightEntry :=
  jget (FrostHandler.inFlight (frost n)) (flight_key agent).

Lemma flight_key_inj a b : flight_key a = flight_key b → a = b.
Proof.
  unfold flight_key, FrostShares.key_of, session_epoch. intros E.
  pose proof (f_equal String.length E) as L. rewrite !str_app_length in L.
  apply str_app_inj_len in E as [E _]; [done|lia].
Qed.

Lemma ceremony_id_inj a b : ceremony_id a = ceremony_id b → a = b.
Proof. unfold ceremony_id. intros E%str_app_inj_l. by apply hex_inj. Qed.

Lemma flight_of_inj a b : Some (flight_of a) = Some (flight_of b) → a = b.
Proof. intros E. apply ceremony_id_inj. exact (f_equal (from_option FrostHandler.peerIdString EmptyString) E). Qed.

Section Flights.
Context (env : SigEnv).

(** [x]: an agent whose flow is at work, which is then not among the flows. *)
Record flights (x : option string) (n : Node) : Prop := {
  fl_wf : jwf (flows n) ∧ jwf (FrostHandler.inFlight (frost n));
  fl_mark : ∀ r f su d, jget (flows n) r = Some f → running f = Some (su, d) →
    x ≠ Some (su_initiator su) ∧ in_flight n (su_initiator su) = Some (flight_of (dr_id d));
  fl_back : ∀ key e, jget (FrostHandler.inFlight (frost n)) key = Some e →
    (∃ a, x = Some a ∧ key = flight_key a) ∨
    ∃ r f su d, jget (flows n) r = Some f ∧ running f = Some (su, d) ∧ key = flight_key (su_initiator su);
  fl_ids : ∀ r1 r2 f1 f2 d1 d2, jget (flows n) r1 = Some f1 → jget (flows n) r2 = Some f2 →
    flow_draw f1 = Some d1 → flow_draw f2 = Some d2 → dr_id d1 = dr_id d2 → r1 = r2;
  fl_drawn : ∀ r f d, jget (flows n) r = Some f → flow_draw f = Some d → drawn env (tick n) (dr_id d) }.

Lemma flights_same x n n' :
  flows n' = flows n → frost n' = frost n → tick n <= tick n' → flights x n → flights x n'.
Proof.
  intros Ef Eh Ht [H1 H2 H3 H4 H5]. unfold in_flight in *. split; rewrite ?Ef, ?Eh; try done.
  - intros r f su d. unfold in_flight. rewrite Eh. apply H2.
  - intros r f d Hr Hd. eapply drawn_mono; [exact Ht|by eapply H5].
Qed.

(** No other flow has the id. *)
Definition own_id (n : Node) (r : nat) (sid : bytes) : Prop :=
  drawn env (tick n) sid ∧
  ∀ r' f d, r' ≠ r → jget (flows n) r' = Some f → flow_draw f = Some d → dr_id d ≠ sid.

(** The flow [r] is at work, with the id [sid] if it has drawn one. *)
Record at_work (r : nat) (sid : option bytes) (n : Node) : Prop := {
  w_flights : flights None n;
  w_idle : ∀ f, jget (flows n) r = Some f → running f = None;
  w_id : ∀ i, sid = Some i → own_id n r i }.

Abbreviation Keeps r sid := (preserves (at_work r sid)).

Lemma at_work_same r sid n n' :
  flows n' = flows n → frost n' = frost n → tick n <= tick n' → at_work r sid n → at_work r sid n'.
Proof.
  intros Ef Eh Ht [H1 H2 H3]. split; [by eapply flights_same|by rewrite Ef|]. intros i Hi. destruct (H3 i Hi) as [H4 H5].
  split; [by eapply drawn_mono|]. by rewrite Ef.
Qed.

Lemma quiet_keeps {A} (m : Task A) r sid : quiet m → Keeps r sid m.
Proof.
  intros Hm n Hn. eapply wp_mono; [by apply (Hm (flows n) (frost n) (tick n))| |]; cbn.
  - intros _ n' (? & ? & ?). by eapply at_work_same.
  - intros n' (? & ? & ?). by eapply at_work_same.
Qed.

(** ** Changes of the flows *)

Lemma work_set r sid n f :
  at_work r sid n → running f = None → (∀ d, flow_draw f = Some d → sid = Some (dr_id d)) →
  at_work r sid (with_flows n (jset (flows n) r f)).
Proof.
  intros [[[Hw Hw'] H2 H3 H4 H5] Hi Ho] Hr Hd.
  assert (∀ d, flow_draw f = Some d → own_id n r (dr_id d)) as Hown by (intros d Hf; by apply Ho, Hd).
  split; [split|..]; cbn [flows frost tick with_flows].
  - split; [by apply jwf_jset|done].
  - intros r' f' su d. rewrite jget_jset. case_decide; [intros [= <-]; congruence|]. apply H2.
  - intros key e He. destruct (H3 key e He) as [?|(r' & f' & su & d & Hf & ? & ?)]; [by left|right].
    exists r', f', su, d. rewrite jget_jset_ne; [done|]. intros <-. specialize (Hi _ Hf). congruence.
  - intros r1 r2 f1 f2 d1 d2. rewrite !jget_jset. repeat case_decide; subst; try done.
    + intros [= <-] Hf2 Hd1 Hd2 E. destruct (Hown d1 Hd1) as [_ Hn]. by destruct (Hn r2 f2 d2 ltac:(congruence) Hf2 Hd2).
    + intros Hf1 [= <-] Hd1 Hd2 E. destruct (Hown d2 Hd2) as [_ Hn]. by destruct (Hn r1 f1 d1 ltac:(congruence) Hf1 Hd1).
    + by apply H4.
  - intros r' f' d. rewrite jget_jset. case_decide; [|apply H5]. intros [= <-] Hf. by destruct (Hown d Hf).
  - intros f'. cbn. rewrite jget_jset_eq. congruence.
  - intros i Hs. destruct (Ho i Hs) as [? Hn]. split; [done|]. intros r' f' d Hne. cbn. rewrite jget_jset_ne by done. by apply Hn.
Qed.

Lemma aloft_set r sid f : running f = None → (∀ d, flow_draw f = Some d → sid = Some (dr_id d)) → Keeps r sid (set_flow r f).
Proof. intros Hr Hd. apply preserves_modify. intros n Hn. by apply work_set. Qed.

(** A flow is settled. *)
Lemma work_settle r sid n r' f f' :
  at_work r sid n → jget (flows n) r' = Some f → running f' = running f → flow_draw f' = flow_draw f →
  at_work r sid (with_flows n (jset (flows n) r' f')).
Proof.
  intros [[[Hw Hw'] H2 H3 H4 H5] Hi Ho] Hf Hr Hd.
  assert (∀ q g, jget (jset (flows n) r' f') q = Some g → ∃ g0, jget (flows n) q = Some g0 ∧ running g = running g0 ∧ flow_draw g = flow_draw g0) as Hback.
  { intros q g. rewrite jget_jset. case_decide; [subst q; intros [= <-]; by exists f|]. intros ?. by exists g. }
  split; [split|..]; cbn [flows frost tick with_flows].
  - split; [by apply jwf_jset|done].
  - intros q g su d (g0 & Hq & E & _)%Hback. rewrite E. by apply H2 with (1 := Hq).
  - intros key e He. destruct (H3 key e He) as [?|(q & g & su & d & Hq & ? & ?)]; [by left|right].
    destruct (decide (r' = q)) as [<-|]; [exists r', f', su, d|exists q, g, su, d].
    + rewrite jget_jset_eq. split; [done|]. split; [congruence|done].
    + by rewrite jget_jset_ne.
  - intros r1 r2 f1 f2 d1 d2 (g1 & Hg1 & _ & E1)%Hback (g2 & Hg2 & _ & E2)%Hback. rewrite E1, E2. by eapply H4.
  - intros q g d (g0 & Hq & _ & E)%Hback. rewrite E. by eapply H5.
  - intros g (g0 & Hq & E & _)%Hback. rewrite E. by apply Hi.
  - intros i Hs. destruct (Ho i Hs) as [? Hn]. split; [done|]. intros q g d Hne (g0 & Hq & _ & E)%Hback. rewrite E. by eapply Hn.
Qed.

(** A flow that is not in flight is taken off. *)
Lemma flights_drop x n r : flights x n → (∀ f, jget (flows n) r = Some f → running f = None) → flights x (with_flows n (jdel (flows n) r)).
Proof.
  intros [[Hw Hw'] H2 H3 H4 H5] Hi.
  assert (∀ q g, jget (jdel (flows n) r) q = Some g → jget (flows n) q = Some g) as Hback.
  { intros q g. rewrite jget_jdel by done. by case_decide. }
  split; cbn [flows frost tick with_flows].
  - split; [by apply jwf_jdel|done].
  - intros q g su d Hq%Hback. by apply (H2 q g).
  - intros key e He. destruct (H3 key e He) as [?|(q & g & su & d & Hq & ? & ?)]; [by left|right].
    exists q, g, su, d. rewrite jget_jdel by done. rewrite decide_False; [done|]. intros <-. specialize (Hi _ Hq). congruence.
  - intros r1 r2 f1 f2 d1 d2 ?%Hback ?%Hback. by eapply H4.
  - intros q g d ?%Hback. by eapply H5.
Qed.

Lemma work_drop n r f :
  flights None n → jget (flows n) r = Some f → running f = None → at_work r (dr_id <$> flow_draw f) (with_flows n (jdel (flows n) r)).
Proof.
  intros Hn Hf Hr. destruct (fl_wf _ _ Hn) as [Hw _]. split; [apply flights_drop; [done|congruence]|..]; cbn [flows with_flows].
  - intros g. by rewrite jget_jdel, decide_True.
  - intros i Hi. destruct (flow_draw f) as [d|] eqn:Ed; [|done]. injection Hi as <-. split; [by apply (fl_drawn _ _ Hn r f)|].
    cbn. intros r' g d' Hne Hg Hd' E. rewrite jget_jdel, decide_False in Hg by done. apply Hne. by eapply (fl_ids _ _ Hn).
Qed.

Lemma quiet_flights {A} (m : Task A) x : quiet m → preserves (flights x) m.
Proof.
  intros Hm n Hn. eapply wp_mono; [by apply (Hm (flows n) (frost n) (tick n))| |]; cbn.
  - intros _ n' (? & ? & ?). by eapply flights_same.
  - intros n' (? & ? & ?). by eapply flights_same.
Qed.

(** ** Take-off and landing *)

(** The ceremony of [a] is marked and its flow [r] is at work. *)
Record aloft (a : string) (r : nat) (sid : bytes) (n : Node) : Prop := {
  a_flights : flights (Some a) n;
  a_mark : in_flight n a = Some (flight_of sid);
  a_idle : ∀ f, jget (flows n) r = Some f → running f = None;
  a_id : own_id n r sid }.

Lemma quiet_aloft {A} (m : Task A) a r sid : quiet m → preserves (aloft a r sid) m.
Proof.
  intros Hm n Hn. assert (∀ n', flows n' = flows n → frost n' = frost n → tick n <= tick n' → aloft a r sid n') as H.
  { intros n' Ef Eh Ht. destruct Hn as [? H2 ? [? Ho]]. split; [by eapply flights_same| |by rewrite Ef|].
    - unfold in_flight in *. by rewrite Eh.
    - split; [by eapply drawn_mono|]. by rewrite Ef. }
  eapply wp_mono; [by apply (Hm (flows n) (frost n) (tick n))| |]; cbn.
  - intros _ n' (? & ? & ?). by apply H.
  - intros n' (? & ? & ?). by apply H.
Qed.

(** Two flows in flight are of different agents. *)
Lemma flights_one x n r1 r2 f1 f2 su1 su2 d1 d2 :
  flights x n → jget (flows n) r1 = Some f1 → jget (flows n) r2 = Some f2 →
  running f1 = Some (su1, d1) → running f2 = Some (su2, d2) → su_initiator su1 = su_initiator su2 → r1 = r2.
Proof.
  intros [_ H2 _ H4 _] Hf1 Hf2 Hr1 Hr2 E. destruct (H2 _ _ _ _ Hf1 Hr1) as [_ M1], (H2 _ _ _ _ Hf2 Hr2) as [_ M2].
  rewrite E, M2 in M1. apply flight_of_inj in M1.
  assert (∀ f su d, running f = Some (su, d) → flow_draw f = Some d) as Hd by (intros [] ? ?; cbn; try done; intros [= _ <-]; done).
  by eapply (H4 r1 r2 f1 f2 d1 d2); eauto.
Qed.

Lemma take_off n r f su d :
  flights None n → jget (flows n) r = Some f → running f = Some (su, d) → aloft (su_initiator su) r (dr_id d) (with_flows n (jdel (flows n) r)).
Proof.
  intros Hn Hf Hr. destruct (fl_wf _ _ Hn) as [Hw Hw'].
  assert (∀ q g, jget (jdel (flows n) r) q = Some g → q ≠ r ∧ jget (flows n) q = Some g) as Hback.
  { intros q g. rewrite jget_jdel by done. case_decide; [done|]. split; [congruence|done]. }
  assert (flow_draw f = Some d) as Hd by (destruct f; cbn in *; congruence).
  split; [split|..]; cbn [flows frost tick with_flows].
  - split; [by apply jwf_jdel|done].
  - intros q g su' d' (Hne & Hq)%Hback Hg. split; [|by apply (fl_mark _ _ Hn q g)]. intros [= E].
    apply Hne. symmetry. by eapply (flights_one None n).
  - intros key e He. destruct (fl_back _ _ Hn key e He) as [(? & ? & _)|(q & g & su' & d' & Hq & Hg & ->)]; [done|].
    destruct (decide (r = q)) as [<-|].
    + left. exists (su_initiator su). split; [done|]. assert (su = su') by congruence. by subst.
    + right. exists q, g, su', d'. rewrite jget_jdel by done. by rewrite decide_False.
  - intros r1 r2 f1 f2 d1 d2 [_ ?]%Hback [_ ?]%Hback. by eapply (fl_ids _ _ Hn).
  - intros q g d' [_ ?]%Hback. by eapply (fl_drawn _ _ Hn).
  - by apply (fl_mark _ _ Hn r f).
  - intros g. by rewrite jget_jdel, decide_True.
  - split; [by apply (fl_drawn _ _ Hn r f)|]. intros q g d' Hne [_ Hq]%Hback Hg E. apply Hne. by eapply (fl_ids _ _ Hn).
Qed.

(** The flow goes on in flight. *)
Lemma stay_aloft n r f su d :
  aloft (su_initiator su) r (dr_id d) n → running f = Some (su, d) → flights None (with_flows n (jset (flows n) r f)).
Proof.
  intros [[[Hw Hw'] H2 H3 H4 H5] Hm Hi [Hdr Ho]] Hr. assert (flow_draw f = Some d) as Hd by (destruct f; cbn in *; congruence).
  split; cbn [flows frost tick with_flows].
  - split; [by apply jwf_jset|done].
  - intros q g su' d'. rewrite jget_jset. case_decide.
    + intros [= <-] E. assert (su = su' ∧ d = d') as [-> ->] by (split; congruence). by split.
    + intros Hq Hg. split; [done|]. by apply (H2 q g).
  - intros key e He. right. destruct (H3 key e He) as [(a & [= <-] & ->)|(q & g & su' & d' & Hq & Hg & ->)].
    + exists r, f, su, d. by rewrite jget_jset_eq.
    + exists q, g, su', d'. rewrite jget_jset_ne; [done|]. intros <-. specialize (Hi _ Hq). congruence.
  - intros r1 r2 f1 f2 d1 d2. rewrite !jget_jset. repeat case_decide; subst; try done.
    + intros [= <-] Hf2 Hd1 Hd2 E. destruct (Ho r2 f2 d2); [congruence|done|done|congruence].
    + intros Hf1 [= <-] Hd1 Hd2 E. destruct (Ho r1 f1 d1); [congruence|done|done|congruence].
    + by apply H4.
  - intros q g d'. rewrite jget_jset. case_decide; [|apply H5]. intros [= <-] E. congruence.
Qed.

(** The mark is cleared. *)
Lemma land a r sid n : aloft a r sid n → flights None (clear_in_flight a n).1.
Proof.
  intros [[[Hw Hw'] H2 H3 H4 H5] Hm Hi Ho]. cbn. split; cbn; try done.
  - split; [done|by apply jwf_jdel].
  - intros q g su d Hq Hg. destruct (H2 q g su d Hq Hg) as [Hne Hmk]. split; [done|]. unfold in_flight. cbn.
    rewrite jget_jdel by done. rewrite decide_False; [done|]. intros E. apply Hne. f_equal. by apply flight_key_inj.
  - intros key e. rewrite jget_jdel by done. case_decide as E; [done|]. intros He. right.
    destruct (H3 key e He) as [(a' & [= <-] & ->)|?]; [done|done].
Qed.

Lemma finally_lands su m r sid n :
  quiet m → aloft (su_initiator su) r sid n → wp (finally_clear su m) n (λ _, flights None) (flights None).
Proof.
  intros Hm Hn. unfold finally_clear. apply wp_bind, wp_try. eapply wp_mono; [by apply (quiet_aloft m)| |].
  - intros ? n' Hn'. by apply wp_modify, (land _ _ _ _ Hn').
  - intros n' Hn' e. apply wp_bind, wp_modify. by apply wp_throw, (land _ _ _ _ Hn').
Qed.

(** An agent without a ceremony gets one. *)
Lemma mark_off r sid a n :
  at_work r (Some sid) n → in_flight n a = None → aloft a r sid (mark_in_flight a (ceremony_id sid) n).1.
Proof.
  intros [[[Hw Hw'] H2 H3 H4 H5] Hi Ho] Hno. cbn. split; [split|..]; cbn; try done.
  - split; [done|by apply jwf_jset].
  - intros q g su d Hq Hg. destruct (H2 q g su d Hq Hg) as [_ Hmk].
    assert (a ≠ su_initiator su) as Hne by (intros ->; congruence). split; [congruence|]. unfold in_flight. cbn.
    rewrite jget_jset_ne; [done|]. intros E. by apply Hne, flight_key_inj.
  - intros key e. rewrite jget_jset. case_decide as E; [left; by exists a|]. intros He. right.
    destruct (H3 key e He) as [(? & ? & _)|?]; [done|done].
  - unfold in_flight. cbn. by rewrite jget_jset_eq.
  - by apply Ho.
Qed.

(** A ceremony of another session is in the way, or there is none. *)
Lemma no_conflict r su d n :
  at_work r (Some (dr_id d)) n →
  FrostHandler.checkConflict (frost n) (su_initiator su) (session_epoch (su_initiator su)) (ceremony_id (dr_id d)) = false →
  in_flight n (su_initiator su) = None.
Proof.
  intros [Hn Hi Ho] Hc. unfold FrostHandler.checkConflict in Hc. fold (flight_key (su_initiator su)) in Hc. unfold in_flight.
  destruct (jget (FrostHandler.inFlight (frost n)) (flight_key (su_initiator su))) as [e|] eqn:E; [exfalso|done].
  apply negb_false_iff, bool_decide_eq_true in Hc. destruct (fl_back _ _ Hn _ _ E) as [(? & ? & _)|(q & g & su' & d' & Hq & Hg & Ek)]; [done|].
  destruct (fl_mark _ _ Hn q g su' d' Hq Hg) as [_ Hm]. unfold in_flight in Hm. rewrite <- Ek, E in Hm. injection Hm as ->.
  cbn in Hc. apply ceremony_id_inj in Hc. destruct (Ho _ eq_refl) as [_ Hown].
  destruct (decide (q = r)) as [->|Hne]; [specialize (Hi _ Hq); congruence|].
  apply (Hown q g d' Hne Hq); [|done]. destruct g; cbn in *; congruence.
Qed.

End Flights.

End SignalFlights.

(** Every run keeps the ceremonies in flight as [SignalFlights] states, and each of them can
    be brought to an end. *)
Import Text JsMap Effects Bytes Wire FrostInvariant DkgTopology Signaling SignalStreams SignalConnections SignalSessions SignalRegister SignalNode SignalTable SignalTrace SignalInvariant SignalHandlers SignalSessionHandlers SignalRuns SignalTheorems SignalFlights SignalDemo.

Module SignalFlightsTheorems.

Section Handlers.
Context (env : SigEnv).
Hypothesis unique : ids_unique env.

Abbreviation Keeps r sid := (preserves (at_work env r sid)).
Abbreviation F := (flights env None).

Lemma work_flights {A} (m : Task A) r sid n : at_work env r sid n → Keeps r sid m → wp m n (λ _, F) F.
Proof. intros Hn Hm. eapply wp_mono; [by apply Hm| |]; [intros ? n' [? _ _]|intros n' [? _ _]]; done. Qed.

(** Steps of a handler that keep its flow at work. *)
Ltac work :=
  repeat match goal with
  | |- preserves _ (_ ≫= _) => apply preserves_bind; [|intros ?]
  | |- preserves _ (try_catch _ _) => apply preserves_try; [|intros ?]
  | |- preserves _ (if ?b then _ else _) => destruct b
  | |- preserves _ (set_flow _ _) => apply aloft_set; [done|by intros ? [= <-]]
  | |- preserves _ _ => solve [apply quiet_keeps; quiet]
  | |- preserves _ (match ?b with _ => _ end) => destruct b
  end.

(** * Settling *)

Lemma keeps_resolve_offer r sid r' b : Keeps r sid (resolve_offer r' b).
Proof.
  intros n Hn. unfold resolve_offer. apply wp_bind, wp_gets.
  destruct (jget (flows n) r') as [[| |su d o []| | | | | | | | | |]|] eqn:E; try by apply wp_ret.
  apply wp_modify. by eapply work_settle.
Qed.

Lemma keeps_resolve_ceremony r sid r' res : Keeps r sid (resolve_ceremony r' res).
Proof.
  intros n Hn. unfold resolve_ceremony. apply wp_bind, wp_gets.
  destruct (jget (flows n) r') as [[| | | |su d cp b []| | | | | | | |]|] eqn:E; try by apply wp_ret.
  apply wp_modify. by eapply work_settle.
Qed.

Lemma keeps_resolve_dkg r sid r' res : Keeps r sid (resolve_dkg r' res).
Proof.
  intros n Hn. unfold resolve_dkg. apply wp_bind, wp_gets.
  destruct (jget (flows n) r') as [[| | | | | | | | |s f []| | |]|] eqn:E; try by apply wp_ret.
  apply wp_modify. by eapply work_settle.
Qed.

Lemma keeps_offer_accepted r sid a i ep : Keeps r sid (offer_accepted a i ep).
Proof. unfold offer_accepted, settle_waiter. work; apply keeps_resolve_offer. Qed.

Lemma keeps_offer_rejected r sid a i : Keeps r sid (offer_rejected a i).
Proof. unfold offer_rejected, settle_waiter. work; apply keeps_resolve_offer. Qed.

Lemma keeps_ceremony_result r sid a c s : Keeps r sid (ceremony_result a c s).
Proof. unfold ceremony_result. work; apply keeps_resolve_ceremony. Qed.

Lemma keeps_ceremony_timeout r sid r' : Keeps r sid (ceremony_timeout r').
Proof. unfold ceremony_timeout. work; apply keeps_resolve_ceremony. Qed.

Lemma keeps_dkg_complete r sid a p b : Keeps r sid (dkg_complete a p b).
Proof. unfold dkg_complete. work; apply keeps_resolve_dkg. Qed.

Lemma keeps_dkg_timeout r sid r' : Keeps r sid (dkg_timeout r').
Proof. unfold dkg_timeout. work; apply keeps_resolve_dkg. Qed.

(** * Session requests *)

Lemma draw_flights r su ts i n : at_work env r None n → wp (draw_session env r su ts i) n (λ _, F) F.
Proof.
  intros Hn. unfold draw_session. apply wp_bind, wp_random. set (sid := rand env (tick n) 16).
  assert (at_work env r (Some sid) (with_tick n (S (tick n)))) as Hw.
  { destruct Hn as [Hf Hi _]. split; [apply (flights_same env None n); [done|done|cbn; lia|done]|done|].
    intros x [= <-]. split; [exists (tick n); split; [cbn; lia|done]|].
    intros q f d _ Hq Hd E. destruct (fl_drawn _ _ _ Hf q f d Hq Hd) as (t & Ht & Ed). rewrite E in Ed.
    apply unique in Ed. lia. }
  apply (work_flights _ r (Some sid)); [exact Hw|]. work.
Qed.

Lemma find_flights r su n : at_work env r None n → wp (find_signer env r su) n (λ _, F) F.
Proof.
  intros Hn. unfold find_signer. apply wp_bind, wp_gets. destruct (jget (streams (table n)) _); [|apply (work_flights _ r None); [done|work]].
  apply wp_bind, wp_gets. destruct (jget (thresholdSigners _) _); [by apply draw_flights|]. apply (work_flights _ r None); [done|work].
Qed.

Lemma process_flights r su n : at_work env r None n → wp (processSessionRequest env r su) n (λ _, F) F.
Proof.
  intros Hn. unfold processSessionRequest. destruct (requireConnectionGate env); [|by apply find_flights].
  apply (work_flights _ r None); [done|work].
Qed.

Lemma connection_flights r su c n : at_work env r None n → wp (connection_known env r su c) n (λ _, F) F.
Proof.
  intros Hn. unfold connection_known. destruct c as [id|]; [case_bool_decide; [by apply find_flights|]|]; (apply (work_flights _ r None); [done|work]).
Qed.

Lemma primary_flights r su ts read n : at_work env r None n → wp (primary_known env r su ts read) n (λ _, F) F.
Proof.
  intros Hn. unfold primary_known. apply wp_bind, wp_gets.
  assert (∀ key m, at_work env r None m → wp (i ← new_signer (su_initiator su) key; draw_session env r su ts i) m (λ _, F) F) as Hgo.
  { intros key m Hm. apply wp_bind. eapply wp_mono; [apply (quiet_keeps env (new_signer (su_initiator su) key) r None); [quiet|done]|..].
    - intros i m' Hm'. by apply draw_flights.
    - intros m' [? _ _]. done. }
  destruct (jget (primaryPubkeys _) _); [by apply Hgo|]. destruct read; [|apply (work_flights _ r None); [done|work]].
  apply wp_bind, wp_modify. apply Hgo. by apply (at_work_same env r None n).
Qed.

Lemma settled_flights r su d o b n : at_work env r (Some (dr_id d)) n → wp (offer_settled env r su d o b) n (λ _, F) F.
Proof. intros Hn. apply (work_flights _ r (Some (dr_id d))); [done|]. unfold offer_settled. work. Qed.

Lemma failed_lands su f r sid n : aloft env (su_initiator su) r sid n → wp (ceremony_failed env su f) n (λ _, F) F.
Proof. intros Hn. unfold ceremony_failed. eapply finally_lands; [quiet|exact Hn]. Qed.

(** The request for a ceremony answers, whatever happens to the stream. *)
Lemma ask_total r i c t : total (ask_ceremony env r i c t).
Proof.
  unfold ask_ceremony. apply total_bind; [apply total_gets|]. intros [s|]; [|apply total_ret].
  apply total_bind; [apply total_gets|]. intros [st|]; [|apply total_ret]. apply total_bind.
  - intros n. unfold try_catch, mbind, act_bind, sendFrame, next_tick, mret, act_ret, modify, throw, mbind, act_bind.
    destruct (send_works env (tick n)); by eexists _, _.
  - intros [|]; [|apply total_ret]. apply total_bind; [apply total_modify|]. intros _. apply total_ret.
Qed.

Lemma profiles_flights r su d cp p q n : at_work env r (Some (dr_id d)) n → wp (profiles_known env r su d cp p q) n (λ _, F) F.
Proof.
  intros Hn. unfold profiles_known. apply wp_bind, wp_gets.
  destruct (FrostHandler.checkConflict _ _ _ _) eqn:Ec; [apply (work_flights _ r (Some (dr_id d))); [done|work]|].
  pose proof (no_conflict env r su d n Hn Ec) as Hno. apply wp_bind, wp_modify.
  pose proof (mark_off env r (dr_id d) (su_initiator su) n Hn Hno) as Ha. apply wp_bind.
  pose proof (quiet_aloft env _ _ r _ (silent_ask env r (dr_signer d) (ceremony_id (dr_id d)) (setup_tbs env su d cp)) _ Ha) as Hask.
  apply (wp_total _ _ _ _ (λ _, False) (ask_total _ _ _ _)) in Hask. eapply wp_mono; [exact Hask| |].
  - intros b m Hm. destruct b; [|by eapply failed_lands]. apply wp_modify. by eapply stay_aloft.
  - done.
Qed.

Lemma done_flights r su d cp b res n : aloft env (su_initiator su) r (dr_id d) n → wp (ceremony_done env r su d cp b res) n (λ _, F) F.
Proof.
  intros Hn. assert (∀ l sig, wp (finally_clear su (issue_assignment env su d cp b sig l)) n (λ _, F) F) as Hi.
  { intros l sig. eapply finally_lands; [quiet|exact Hn]. }
  unfold ceremony_done. destruct res as [sig|f]; [|by eapply failed_lands].
  destruct (trust_signals _) as [[|]|]; [by apply Hi| |by apply Hi]. destruct (has_pool env); [|by apply Hi].
  apply wp_modify. by eapply stay_aloft.
Qed.

(** * Registration *)

Lemma register_flights r s f : Keeps r None (processRegisterRequest env r s f).
Proof. unfold processRegisterRequest, read_manifest. work. Qed.

Lemma resumed_flights r s f answer : Keeps r None (dkg_resumed env r s f answer).
Proof. unfold dkg_resumed, claim_phone, write_profile. work. Qed.

Lemma written_flights r s f a b h g x : Keeps r None (write_profile env r s f a b h g x).
Proof. unfold write_profile. work. Qed.

Lemma revoke_flights r s a rv : Keeps r None (processRevokeAgent env r s a rv).
Proof. unfold processRevokeAgent. work. Qed.

Lemma response_flights r a id v : Keeps r None (processConnectionResponse env r a id v).
Proof. unfold processConnectionResponse, delete_active. work. Qed.

Lemma sender_flights r s a t p q : Keeps r None (sender_known env r s a t p q).
Proof. unfold sender_known. work. Qed.

(** * One input *)

Lemma detached_flights m n : wp m n (λ _, F) F → wp (detached m) n (λ _, F) F.
Proof. intros Hm. unfold detached. apply wp_try. eapply wp_mono; [exact Hm|done|]. intros n' Hn' _. by apply wp_ret. Qed.

Lemma guarded_flights s m n : wp m n (λ _, F) F → wp (guarded env s m) n (λ _, F) F.
Proof.
  intros Hm. unfold guarded. apply wp_try. eapply wp_mono; [exact Hm|done|]. intros n' Hn' _.
  by apply (quiet_flights env (finish env s)); [quiet|].
Qed.

Lemma quiet_wp {A} (m : Task A) n : F n → quiet m → wp m n (λ _, F) F.
Proof. intros Hn Hm. by apply (quiet_flights env m). Qed.

Lemma dispatch_flights s a f n : at_work env (steps n) None n → wp (dispatch env s a f) n (λ _, F) F.
Proof.
  intros Hn. assert (F n) as Hf by apply Hn. unfold dispatch. apply wp_bind, wp_gets.
  assert (∀ m, Keeps (steps n) None m → wp (detached m) n (λ _, F) F) as Hd.
  { intros m Hm. by eapply detached_flights, work_flights. }
  destruct f; try solve [apply quiet_wp; [done|quiet]].
  - by eapply work_flights, keeps_ceremony_result.
  - by eapply work_flights, keeps_dkg_complete.
  - apply Hd, register_flights.
  - apply Hd, revoke_flights.
  - by eapply work_flights, keeps_offer_accepted.
  - by eapply work_flights, keeps_offer_rejected.
  - eapply work_flights; [done|]. unfold processConnectionRequest. work.
  - apply Hd, response_flights.
  - apply detached_flights, quiet_wp; [done|quiet].
  - apply detached_flights, quiet_wp; [done|quiet].
Qed.

Lemma pause_flights s a w b n : at_work env (steps n) None n → wp (pause_known env s a w b) n (λ _, F) F.
Proof.
  intros Hn. assert (F n) as Hf by apply Hn. unfold pause_known, refuse_session.
  assert (∀ ask, wp (request_session env s a ask) n (λ _, F) F) as Hr.
  { intros ask. unfold request_session, refuse_session. destruct (missing_peer ask); [apply quiet_wp; [done|quiet]|].
    apply wp_bind. assert (wp (set_wait s Idle) n (λ _ m, at_work env (steps n) None m ∧ steps m = steps n) F) as Hs.
    { unfold set_wait. apply wp_bind, wp_gets. destruct (jget (conns n) s); [|by apply wp_ret].
      apply wp_modify. split; [|done]. by apply (at_work_same env _ None n). }
    eapply wp_mono; [exact Hs| |done]. intros ? m [Hm E]. apply wp_bind, wp_gets. rewrite E. by apply detached_flights, process_flights. }
  destruct w; destruct b as [[]|]; try solve [apply quiet_wp; [done|quiet]]. apply Hr.
Qed.

Lemma answered_flights r f n : F n → jget (flows n) r = Some f → wp (answered env r f) n (λ _, F) F.
Proof.
  intros Hn Hf. pose proof (work_drop env n r f Hn Hf) as Hw. pose proof (take_off env n r f) as Ht.
  unfold answered, connection_between, profile_of, drop_flow.
  destruct f as [su|su ts|su d o []|su d cp|su d cp b []|su d cp b sig|s a t p|s a t p q|id p ss c|s f []|s f a b h x|s a x|s rv x];
    try (by apply wp_ret); try (specialize (Hw eq_refl); cbn in Hw).
  - by apply wp_bind, wp_gets, wp_bind, wp_modify, connection_flights.
  - by apply wp_bind, wp_gets, wp_bind, wp_modify, primary_flights.
  - by apply wp_bind, wp_modify, (settled_flights r).
  - by apply wp_bind, wp_gets, wp_bind, wp_gets, wp_bind, wp_modify, profiles_flights.
  - apply wp_bind, wp_modify, done_flights. by apply Ht.
  - apply wp_bind, wp_gets, wp_bind, wp_modify. eapply work_flights; [exact Hw|apply sender_flights].
  - apply wp_bind, wp_gets, wp_bind, wp_modify, quiet_wp; [apply Hw|quiet].
  - apply wp_bind, wp_modify, quiet_wp; [apply Hw|quiet].
  - apply wp_bind, wp_modify. eapply work_flights; [exact Hw|apply resumed_flights].
Qed.

Lemma continue_flights r m n :
  F n → (∀ f, jget (flows n) r = Some f → wp (m f) n (λ _, F) F) → wp (continue r m) n (λ _, F) F.
Proof.
  intros Hn Hm. unfold continue. apply wp_bind, wp_gets. destruct (jget (flows n) r) as [f|] eqn:E; [|by apply wp_ret].
  by apply detached_flights, Hm.
Qed.

Lemma resume_flights s m n : F n → (∀ c a, wp (m c a) n (λ _, F) F) → wp (resume env s m) n (λ _, F) F.
Proof.
  intros Hn Hm. unfold resume. apply wp_bind, wp_gets. destruct (jget (conns n) s); [|by apply wp_ret].
  destruct (authedPubkeyHex _); [|by apply wp_ret]. by apply guarded_flights, Hm.
Qed.

(** Every input keeps the ceremonies in flight in order. *)
Lemma handle_flights n i : at_work env (steps n) None n → wp (handle env i) n (λ _, F) F.
Proof.
  intros Hn. assert (F n) as Hf by apply Hn. destruct i; cbn [handle].
  - apply wp_bind, wp_gets, quiet_wp; [done|quiet].
  - apply guarded_flights. unfold received. apply wp_bind, wp_gets. destruct (jget (conns n) s) as [c|]; [|by apply wp_ret].
    destruct (c_wait c); try (by apply wp_ret). destruct (authedPubkeyHex c); [by apply dispatch_flights|].
    unfold first_frame. apply quiet_wp; [done|quiet].
  - unfold closed. apply quiet_wp; [done|quiet].
  - apply resume_flights; [done|]. intros c a. apply quiet_wp; [done|quiet].
  - apply resume_flights; [done|]. intros c a. apply quiet_wp; [done|quiet].
  - apply resume_flights; [done|]. intros c a. apply quiet_wp; [done|quiet].
  - apply resume_flights; [done|]. intros c a. by apply pause_flights.
  - apply continue_flights; [done|]. intros f. by apply answered_flights.
  - apply continue_flights; [done|]. intros f E. unfold read_failed, drop_flow.
    destruct f; (by apply wp_ret) || (apply wp_modify; by apply (w_flights _ _ _ _ (work_drop env n r _ Hf E eq_refl))).
  - apply continue_flights; [done|]. intros f E. unfold signals_answered, drop_flow. destruct f; try (by apply wp_ret).
    apply wp_bind, wp_modify. unfold signals_known. eapply finally_lands; [quiet|]. by eapply (take_off env n r _ _ _ Hf E).
  - apply continue_flights; [done|]. intros f E. unfold account_known, drop_flow. destruct f; try (by apply wp_ret).
    apply wp_bind, wp_modify. eapply work_flights; [apply (work_drop env n r _ Hf E eq_refl)|apply written_flights].
  - apply continue_flights; [done|]. intros f E. unfold token_minted, drop_flow. destruct f; try (by apply wp_ret).
    apply wp_bind, wp_modify, quiet_wp; [apply (work_drop env n r _ Hf E eq_refl)|unfold register_done; quiet].
  - apply continue_flights; [done|]. intros f E. unfold revocation_inserted. destruct f; apply quiet_wp; done || quiet.
  - apply continue_flights; [done|]. intros f E. unfold revocation_answered, drop_flow. destruct f; try (by apply wp_ret).
    apply wp_bind, wp_modify, quiet_wp; [apply (work_drop env n r _ Hf E eq_refl)|quiet].
  - eapply work_flights; [done|apply keeps_resolve_offer].
  - eapply work_flights; [done|apply keeps_ceremony_timeout].
  - eapply work_flights; [done|apply keeps_dkg_timeout].
  - apply quiet_wp; [done|quiet].
  - apply quiet_wp; [done|quiet].
  - apply quiet_wp; [done|quiet].
  - apply quiet_wp; [done|quiet].
  - apply quiet_wp; [done|quiet].
  - apply quiet_wp; [done|quiet].
  - apply quiet_wp; [done|quiet].
  - apply quiet_wp; [done|quiet].
  - apply quiet_wp; [done|quiet].
  - apply quiet_wp; [done|quiet].
  - apply wp_modify. split; cbn; try done. split; constructor.
Qed.

End Handlers.

Lemma initial_flights env : flights env None initial.
Proof. split; cbn; try done. split; constructor. Qed.

Lemma run_flights env tr : ids_unique env → flights env None (run env tr).
Proof.
  intros Hu. induction tr as [|i tr IH] using rev_ind; [apply initial_flights|]. rewrite run_last. unfold step.
  assert (at_work env (steps (run env tr)) None (run env tr)) as Hw.
  { split; [done| |done]. intros f Hf. destruct (i_ptr _ _ _ _ (run_ok env Hu tr)) as [_ Hp _ _].
    pose proof (all_get _ _ _ _ Hp Hf) as H. cbn in H. lia. }
  pose proof (handle_flights env Hu _ i Hw) as H. apply wp_final in H. by apply (flights_same env None (handle env i (run env tr)).1).
Qed.

(** * The end of a ceremony *)

Section Ending.
Context (env : SigEnv) (unique : ids_unique env) (agent : string) (r : nat).

(** The agent has nothing in flight and the flow is gone. *)
Definition ended (n : Node) : Prop := in_flight n agent = None ∧ jget (flows n) r = None.

(** The flow waits for the revocations of the signals that were presented. *)
Definition at_signals (n : Node) : Prop :=
  ∃ su d cp b sig, jget (flows n) r = Some (SSignals su d cp b sig) ∧ su_initiator su = agent.

Definition at_result (n : Node) : Prop :=
  ∃ su d cp b res, jget (flows n) r = Some (SCeremony su d cp b (Some res)) ∧ su_initiator su = agent.

Lemma quiet_ends su m n :
  quiet m → su_initiator su = agent → jwf (FrostHandler.inFlight (frost n)) → jget (flows n) r = None →
  wp (finally_clear su m) n (λ _, ended) ended.
Proof.
  intros Hm Ea Hw Hr. assert (∀ n', flows n' = flows n → frost n' = frost n → ended (clear_in_flight (su_initiator su) n').1) as Hend.
  { intros n' Ef Eh. unfold ended, in_flight. cbn. rewrite Ef, Eh, Ea, jget_jdel by done. split; [|done].
    by rewrite decide_True. }
  unfold finally_clear. apply wp_bind, wp_try. eapply wp_mono; [by apply (Hm (flows n) (frost n) (tick n))| |].
  - intros ? n' (? & ? & _). by apply wp_modify, Hend.
  - intros n' (? & ? & _) e. apply wp_bind, wp_modify. by apply wp_throw, Hend.
Qed.

Lemma ended_idle n b : ended n → ended (step env n (SignalsKnown r b)).
Proof. intros [H1 H2]. unfold step. cbn. unfold continue, mbind, act_bind, gets. by rewrite H2. Qed.

Lemma signals_end n : flights env None n → at_signals n → ended (step env n (SignalsKnown r None)).
Proof.
  intros Hf (su & d & cp & b & sig & Hr & Ha). destruct (fl_wf _ _ _ Hf) as [Hw Hw'].
  apply (wp_final (handle env (SignalsKnown r None)) n ended). cbn [handle]. unfold continue. apply wp_bind, wp_gets. rewrite Hr.
  unfold detached. apply wp_try. eapply (wp_mono _ _ (λ _, ended) _ ended); [|done|intros n' Hn' _; by apply wp_ret].
  unfold signals_answered, drop_flow. apply wp_bind, wp_modify. unfold signals_known. apply quiet_ends; [quiet|done|done|].
  cbn. by rewrite jget_jdel, decide_True.
Qed.

Lemma result_ends n : flights env None n → at_result n → ended (step env n (Answered r)) ∨ at_signals (step env n (Answered r)).
Proof.
  intros Hf (su & d & cp & b & res & Hr & Ha). destruct (fl_wf _ _ _ Hf) as [Hw Hw'].
  apply (wp_final (handle env (Answered r)) n (λ m, ended m ∨ at_signals m)). cbn [handle]. unfold continue. apply wp_bind, wp_gets. rewrite Hr.
  unfold detached. apply wp_try. eapply (wp_mono _ _ (λ _ m, ended m ∨ at_signals m) _ (λ m, ended m ∨ at_signals m)); [|done|intros n' Hn' _; by apply wp_ret].
  unfold answered, drop_flow. apply wp_bind, wp_modify. set (n1 := with_flows n _).
  assert (jget (flows n1) r = None) as Hr1 by (cbn; by rewrite jget_jdel, decide_True).
  assert (∀ m, quiet m → wp (finally_clear su m) n1 (λ _ m, ended m ∨ at_signals m) (λ m, ended m ∨ at_signals m)) as Hend.
  { intros m Hm. eapply wp_mono; [by apply quiet_ends| |]; [intros ? ? ?|intros ? ?]; by left. }
  unfold ceremony_done. destruct res as [sig|f]; [|apply Hend; quiet].
  destruct (trust_signals _) as [[|]|]; [apply Hend; quiet| |apply Hend; quiet]. destruct (has_pool env); [|apply Hend; quiet].
  apply wp_modify. right. exists su, d, cp, b, sig. cbn. by rewrite jget_jset_eq.
Qed.

Lemma signals_wait n : at_signals n → at_signals (step env n (Answered r)).
Proof.
  intros (su & d & cp & b & sig & Hr & Ha). exists su, d, cp, b, sig. split; [|done].
  unfold step. cbn. unfold continue, mbind, act_bind, gets. by rewrite Hr.
Qed.

(** The timer of the ceremony. *)
Lemma timer_resolves n f su d :
  jget (flows n) r = Some f → running f = Some (su, d) → su_initiator su = agent →
  at_result (step env n (CeremonyTimeout r)) ∨ at_signals (step env n (CeremonyTimeout r)).
Proof.
  intros Hr Hf Ha. unfold step. cbn [handle]. unfold ceremony_timeout, mbind, act_bind, gets. rewrite Hr.
  destruct f as [| | | |su' d' cp b [res|]|su' d' cp b sig| | | | | | |]; try done; injection Hf as -> ->.
  - left. by exists su, d, cp, b, res.
  - left. exists su, d, cp, b, (Err CEREMONY_TIMEOUT). split; [|done].
    unfold set_pending_ceremonies, resolve_ceremony, on_registry, modify, gets, mbind, act_bind. cbn. rewrite Hr. cbn. by rewrite jget_jset_eq.
  - right. by exists su, d, cp, b, sig.
Qed.

End Ending.

(** * Properties *)

(** C26. At any time an agent has at most one ceremony in flight, and the mark that keeps a
    second one out is there exactly while a session request of the agent waits for its
    ceremony or for what follows it: no mark is left behind by a failure, a timeout, a
    stream that closed or a restart. *)
Theorem one_ceremony_per_agent env tr agent :
  ids_unique env →
  let n := run env tr in
  (∀ r1 r2 f1 f2 su1 su2 d1 d2, jget (flows n) r1 = Some f1 → jget (flows n) r2 = Some f2 →
    running f1 = Some (su1, d1) → running f2 = Some (su2, d2) → su_initiator su1 = agent → su_initiator su2 = agent → r1 = r2) ∧
  (is_Some (in_flight n agent) ↔ ∃ r f su d, jget (flows n) r = Some f ∧ running f = Some (su, d) ∧ su_initiator su = agent).
Proof.
  intros Hu n. pose proof (run_flights env tr Hu) as Hf. split.
  - intros r1 r2 f1 f2 su1 su2 d1 d2 H1 H2 R1 R2 <- E. by eapply (flights_one env None).
  - split.
    + intros [e He]. destruct (fl_back _ _ _ Hf _ _ He) as [(? & ? & _)|(r & f & su & d & ? & ? & E)]; [done|].
      exists r, f, su, d. split; [done|]. split; [done|]. symmetry. by apply flight_key_inj.
    + intros (r & f & su & d & Hr & Hd & <-). destruct (fl_mark _ _ _ Hf r f su d Hr Hd) as [_ Hm]. by eexists.
Qed.

Lemma one_ceremony_per_agent_witness :
  ids_unique demo_env ∧ is_Some (in_flight (at_end (take 32 session)) (hex "A")) ∧ in_flight (at_end session) (hex "A") = None.
Proof.
  split; [exact demo_unique|]. split.
  - apply (one_ceremony_per_agent demo_env (take 32 session) (hex "A") demo_unique).
    exists 27. vm_compute. eexists _, _, _. repeat split.
  - destruct (in_flight (at_end session) (hex "A")) as [e|] eqn:E; [|reflexivity].
    destruct (proj1 (proj2 (one_ceremony_per_agent demo_env session (hex "A") demo_unique))) as (r & f & su & d & Hr & Hf & _).
    { rewrite E. by eexists. }
    vm_compute in Hr. discriminate.
Defined.

(** C27. A ceremony that is in flight can always be brought to an end without the client:
    once its timer has fired, the handler has gone on and the last read that it may wait
    for has failed, nothing is in flight for the agent any more, whatever the streams
    and the other parts of the node do when they are called. *)
Theorem ceremony_ends env tr agent :
  ids_unique env → is_Some (in_flight (run env tr) agent) →
  ∃ r, in_flight (run env (tr ++ [CeremonyTimeout r; Answered r; SignalsKnown r None])) agent = None.
Proof.
  intros Hu Hs. destruct (proj1 (proj2 (one_ceremony_per_agent env tr agent Hu)) Hs) as (r & f & su & d & Hr & Hf & Ha). exists r.
  change (tr ++ [CeremonyTimeout r; Answered r; SignalsKnown r None]) with (tr ++ [CeremonyTimeout r] ++ [Answered r] ++ [SignalsKnown r None]).
  rewrite !app_assoc, run_last. pose proof (run_flights env (tr ++ [CeremonyTimeout r]) Hu) as H1.
  pose proof (run_flights env ((tr ++ [CeremonyTimeout r]) ++ [Answered r]) Hu) as H2. rewrite run_last in H1. rewrite !run_last in *.
  destruct (timer_resolves env agent r _ f su d Hr Hf Ha) as [Ht|Ht].
  - apply (result_ends env agent r _ H1) in Ht as [Ht|Ht]; [by apply ended_idle|]. by apply (signals_end env agent r _ H2).
  - apply (signals_wait env agent r) in Ht. by apply (signals_end env agent r _ H2).
Qed.

Lemma ceremony_ends_witness :
  is_Some (in_flight (at_end (take 32 session)) (hex "A")) ∧
  ∃ r, in_flight (at_end (take 32 session ++ [CeremonyTimeout r; Answered r; SignalsKnown r None])) (hex "A") = None.
Proof.
  assert (is_Some (in_flight (at_end (take 32 session)) (hex "A"))) as H by (vm_compute; by eexists).
  split; [exact H|]. exact (ceremony_ends demo_env (take 32 session) (hex "A") demo_unique H).
Defined.

End SignalFlightsTheorems.
