(* ===== verification/ApiStore.v ===== *)
(** The tables behind the directory's internal API, the statements that
    packages/directory/src/ (signal-write.ts, signal-present.ts, account-facts.ts,
    account-lookup.ts, agent-write-repository.ts, submission-queue-repository.ts,
    submission-results-repository.ts, pre-auth-token-repository.ts,
    internal-api-server.ts) send to them, and programs of such statements.

    A statement is atomic and a program is interrupted between any two of its
    statements.  The view [signal_records_effective] is the one of migration V62.
    Rows keep the order of their insertion; a [SELECT] without an order gives that one. *)
From Stdlib Require Import Ascii.
From S2P Require Import Prelude Text Effects Json Merges.
Import Text.

Module ApiStore.

(** * Strings *)

(** [s.length] of a string kept as UTF-8: a code unit for each lead byte, two for the
    four-byte ones, none for continuation bytes. *)
Definition code_units (c : ascii) : nat :=
  let n := N_of_ascii c in
  if (n <? 128)%N then 1 else if (n <? 192)%N then 0 else if (n <? 240)%N then 1 else 2.

Fixpoint js_length (s : string) : nat :=
  match s with EmptyString => 0 | String c r => code_units c + js_length r end.

Definition lower_hex_digit (c : ascii) : bool :=
  let n := N_of_ascii c in (((48 <=? n) && (n <=? 57)) || ((97 <=? n) && (n <=? 102)))%N.

(** [/^[0-9a-f]{64}$/] *)
Definition is_hex64 (s : string) : bool := (String.length s =? 64) && all_chars lower_hex_digit s.

(** * Tables *)

Inductive SubjectKind : Type := SubjectAccount | SubjectAgent.
Inductive IssuerKind : Type := portal | directory | agent.
Inductive Status : Type := active | revoked | superseded.

#[global] Instance SubjectKind_eq_dec : EqDecision SubjectKind.
Proof. solve_decision. Defined.
#[global] Instance IssuerKind_eq_dec : EqDecision IssuerKind.
Proof. solve_decision. Defined.
#[global] Instance Status_eq_dec : EqDecision Status.
Proof. solve_decision. Defined.

(** signal_records (V46, as amended through V55); its key is hash and node. *)
Record SignalRecord : Type := mkRecord {
  signal_hash : string;
  accepting_node : string;
  subject_kind : SubjectKind;
  issuer_kind : IssuerKind;
  issuer_pubkey : string;
  type_ : string;
  supersedes_hash : option string;
  status : Status;
  scanner_version : string;
  is_tombstone : bool;
  revoker_pubkey : option string;
  revoker_signature : option bytes;
}.

Definition with_status (r : SignalRecord) (s : Status) : SignalRecord :=
  mkRecord (signal_hash r) (accepting_node r) (subject_kind r) (issuer_kind r) (issuer_pubkey r)
    (type_ r) (supersedes_hash r) s (scanner_version r) (is_tombstone r) (revoker_pubkey r)
    (revoker_signature r).

Definition same_key (r r' : SignalRecord) : bool :=
  bool_decide (signal_hash r = signal_hash r' ∧ accepting_node r = accepting_node r').

(** signal_revocations (V62). *)
Record SignalRevocation : Type := mkRevocation {
  rv_hash : string;
  rv_pubkey : string;
  rv_signature : bytes;
}.

(** pickup_queue (V52): one pending row for an agent, kind and hash. *)
Record Pickup : Type := mkPickup {
  pk_agent : string;
  pk_kind : string;
  pk_ciphertext : bytes;
  pk_owner : string;
  pk_hash : string;
  pk_acked : bool;
}.

Record QueuedSubmission : Type := mkSubmission {
  submissionId : string;
  intakeKeyId : string;
  ciphertext : bytes;
  sub_created_at : Z;
}.

Record SubmissionResult : Type := mkResult {
  rs_submission : string;
  rs_node : string;
  rs_issuer : string;
  rs_outcome : string;
  rs_reason : option string;
  rs_signal_hash : option string;
  rs_ciphertext : option bytes;
  rs_created_at : Z;
}.

(** pre_authorization_tokens; instants are milliseconds. *)
Record PreAuthRow : Type := mkToken {
  tk_id : string;
  tk_token : string;
  tk_phone_stub : string;
  tk_email_stub : string;
  tk_registration : string;
  tk_issued_at : Z;
  tk_expires_at : Z;
  tk_consumed_at : option Z;
  tk_chain_hash : string;
}.

Record ClaimCode : Type := mkClaim {
  cc_code : string;
  cc_capability : string;
  cc_expires_at : Z;
  cc_redeemed_at : option Z;
}.

Record AgentProfile : Type := mkProfile {
  pr_k_local : string;
  pr_agent_id : option string;
  pr_phone_stub : option string;
  pr_account_id : option string;
}.

Record SealRow : Type := mkSeal {
  sl_a : string;
  sl_b : string;
  sl_close : Z;
  sl_mutual : option bool;      (* the close type of the conversation, where there is one *)
}.

Record Store : Type := mkStore {
  authorized_issuers : gmap string (string * string);      (* role, status *)
  signal_records : list SignalRecord;
  signal_revocations : list SignalRevocation;
  pickup_queue : list Pickup;
  registry_document : option (Z * bytes);
  phone_stubs : gmap string (option string);               (* user_accounts *)
  email_stubs : list (string * string);                    (* account_email_stubs: stub, account *)
  account_links : gmap string string;                      (* agent_account_links *)
  agent_suspensions : gmap string Merges.SuspensionRecord;
  agent_profiles : list AgentProfile;
  agent_presence : gmap string (bool * option Z);
  submission_queue : list QueuedSubmission;
  submission_results : list SubmissionResult;
  pre_authorization_tokens : list PreAuthRow;
  capability_claim_codes : list ClaimCode;
  seal_rows : list SealRow;
}.

Definition empty_store : Store := mkStore ∅ [] [] [] None ∅ [] ∅ ∅ [] ∅ [] [] [] [] [].

Definition with_issuers (s : Store) x : Store :=
  mkStore x (signal_records s) (signal_revocations s) (pickup_queue s) (registry_document s) (phone_stubs s) (email_stubs s) (account_links s) (agent_suspensions s) (agent_profiles s) (agent_presence s) (submission_queue s) (submission_results s) (pre_authorization_tokens s) (capability_claim_codes s) (seal_rows s).
Definition with_records (s : Store) x : Store :=
  mkStore (authorized_issuers s) x (signal_revocations s) (pickup_queue s) (registry_document s) (phone_stubs s) (email_stubs s) (account_links s) (agent_suspensions s) (agent_profiles s) (agent_presence s) (submission_queue s) (submission_results s) (pre_authorization_tokens s) (capability_claim_codes s) (seal_rows s).
Definition with_revocations (s : Store) x : Store :=
  mkStore (authorized_issuers s) (signal_records s) x (pickup_queue s) (registry_document s) (phone_stubs s) (email_stubs s) (account_links s) (agent_suspensions s) (agent_profiles s) (agent_presence s) (submission_queue s) (submission_results s) (pre_authorization_tokens s) (capability_claim_codes s) (seal_rows s).
Definition with_pickups (s : Store) x : Store :=
  mkStore (authorized_issuers s) (signal_records s) (signal_revocations s) x (registry_document s) (phone_stubs s) (email_stubs s) (account_links s) (agent_suspensions s) (agent_profiles s) (agent_presence s) (submission_queue s) (submission_results s) (pre_authorization_tokens s) (capability_claim_codes s) (seal_rows s).
Definition with_registry (s : Store) x : Store :=
  mkStore (authorized_issuers s) (signal_records s) (signal_revocations s) (pickup_queue s) x (phone_stubs s) (email_stubs s) (account_links s) (agent_suspensions s) (agent_profiles s) (agent_presence s) (submission_queue s) (submission_results s) (pre_authorization_tokens s) (capability_claim_codes s) (seal_rows s).
Definition with_links (s : Store) x : Store :=
  mkStore (authorized_issuers s) (signal_records s) (signal_revocations s) (pickup_queue s) (registry_document s) (phone_stubs s) (email_stubs s) x (agent_suspensions s) (agent_profiles s) (agent_presence s) (submission_queue s) (submission_results s) (pre_authorization_tokens s) (capability_claim_codes s) (seal_rows s).
Definition with_suspensions (s : Store) x : Store :=
  mkStore (authorized_issuers s) (signal_records s) (signal_revocations s) (pickup_queue s) (registry_document s) (phone_stubs s) (email_stubs s) (account_links s) x (agent_profiles s) (agent_presence s) (submission_queue s) (submission_results s) (pre_authorization_tokens s) (capability_claim_codes s) (seal_rows s).
Definition with_queue (s : Store) x : Store :=
  mkStore (authorized_issuers s) (signal_records s) (signal_revocations s) (pickup_queue s) (registry_document s) (phone_stubs s) (email_stubs s) (account_links s) (agent_suspensions s) (agent_profiles s) (agent_presence s) x (submission_results s) (pre_authorization_tokens s) (capability_claim_codes s) (seal_rows s).
Definition with_results (s : Store) x : Store :=
  mkStore (authorized_issuers s) (signal_records s) (signal_revocations s) (pickup_queue s) (registry_document s) (phone_stubs s) (email_stubs s) (account_links s) (agent_suspensions s) (agent_profiles s) (agent_presence s) (submission_queue s) x (pre_authorization_tokens s) (capability_claim_codes s) (seal_rows s).
Definition with_tokens (s : Store) x : Store :=
  mkStore (authorized_issuers s) (signal_records s) (signal_revocations s) (pickup_queue s) (registry_document s) (phone_stubs s) (email_stubs s) (account_links s) (agent_suspensions s) (agent_profiles s) (agent_presence s) (submission_queue s) (submission_results s) x (capability_claim_codes s) (seal_rows s).
Definition with_codes (s : Store) x : Store :=
  mkStore (authorized_issuers s) (signal_records s) (signal_revocations s) (pickup_queue s) (registry_document s) (phone_stubs s) (email_stubs s) (account_links s) (agent_suspensions s) (agent_profiles s) (agent_presence s) (submission_queue s) (submission_results s) (pre_authorization_tokens s) x (seal_rows s).

(** [INSERT ... ON CONFLICT DO NOTHING], with the number of rows written. *)
Definition insert_absent {A} (same : A → A → bool) (x : A) (l : list A) : list A * nat :=
  if existsb (same x) l then (l, 0) else (l ++ [x], 1).

(** [UPDATE ... SET f WHERE p], with the number of rows written. *)
Definition update_where {A} (p : A → bool) (f : A → A) (l : list A) : list A * nat :=
  (map (λ x, if p x then f x else x) l, length (List.filter p l)).

Definition delete_where {A} (p : A → bool) (l : list A) : list A * nat :=
  (List.filter (λ x, negb (p x)) l, length (List.filter p l)).

(** * The view signal_records_effective *)

Definition rows_of (s : Store) (h : string) : list SignalRecord :=
  List.filter (λ r, bool_decide (signal_hash r = h)) (signal_records s).

Definition real_rows (s : Store) (h : string) : list SignalRecord :=
  List.filter (λ r, negb (is_tombstone r)) (rows_of s h).

(** The revokers of the tombstones of [h], those without one included. *)
Definition tomb (s : Store) (h : string) : list (option string) :=
  map (λ v, Some (rv_pubkey v)) (List.filter (λ v, bool_decide (rv_hash v = h)) (signal_revocations s)) ++
  map revoker_pubkey (List.filter is_tombstone (rows_of s h)).

Definition kind_text (k : IssuerKind) : string :=
  match k with portal => "portal" | directory => "directory" | agent => "agent" end.

(** [MIN(issuer_kind)], by the text. *)
Fixpoint min_kind (l : list IssuerKind) : option IssuerKind :=
  match l with
  | [] => None
  | k :: l =>
      match min_kind l with
      | Some k' => if String.leb (kind_text k) (kind_text k') then Some k else Some k'
      | None => Some k
      end
  end.

Definition is_nil {A} (l : list A) : bool := match l with [] => true | _ => false end.

Definition institutional (k : option IssuerKind) : bool :=
  bool_decide (k = Some portal ∨ k = Some directory).

(** [revoked_state.is_revoked] *)
Definition is_revoked (s : Store) (h : string) : bool :=
  let real := real_rows s h in
  let t := tomb s h in
  if is_nil real && negb (is_nil t) then true
  else if existsb (λ r, bool_decide (status r = revoked)) real then true
  else if negb (is_nil t) && institutional (min_kind (map issuer_kind real)) then true
  else existsb (λ r, existsb (λ k, bool_decide (k = Some (issuer_pubkey r))) t) real.

Definition has_successor (s : Store) (h : string) : bool :=
  existsb (λ r, bool_decide (supersedes_hash r = Some h) && negb (is_revoked s (signal_hash r)))
    (signal_records s).

(** [effective_status]; a hash without rows is not in the view. *)
Definition effective_status (s : Store) (h : string) : option Status :=
  if is_nil (rows_of s h) then None
  else if is_revoked s h then Some revoked
  else if has_successor s h then Some superseded
  else if existsb (λ r, bool_decide (status r = superseded)) (rows_of s h) then Some superseded
  else Some active.

Definition is_active (s : Store) (h : string) : bool := bool_decide (effective_status s h = Some active).

(** * Statements *)

(** A statement by the type of its answer.  [InsertToken] and [InsertClaimCode] answer
    [None] for a violated unique index, which their callers tell from other failures. *)
Inductive sql : Type → Type :=
| SelectIssuer (pubkey : string) : sql (option (string * string))
| InsertSignalRecord (r : SignalRecord) : sql nat
| UpdateSuperseded (hash node : string) : sql nat
| SelectNotarized (hash : string) : sql bool
| UpsertPickup (p : Pickup) : sql unit
| InsertRevocation (v : SignalRevocation) : sql nat
| UpsertRegistry (version : Z) (document : bytes) : sql nat
| SelectRegistry : sql (option (Z * bytes))
| SelectPhoneStub (account : string) : sql (option (option string))
| SelectEmailStub (account : string) : sql (option string)
| SelectActive (hashes : list string) : sql (list string)
| SelectSubject (hash : string) : sql Empty_set
| SelectOwned (agent_id account : string) : sql bool
| UpdateCleared (agent_id node : string) : sql nat
| SelectBurned (agent_id : string) : sql (option bool)
| UpsertSuspension (agent_id : string) (burn : bool) (account node : string) : sql unit
| SelectAccountByEmailStub (stub : string) : sql (option string)
| SelectAgents (account : string) : sql (list (string * (option string * bool * option Z * bool * bool)))
| SelectAgentByPubkey (pubkey : string) : sql (option (option string * option string * option string))
| InsertSubmission (q : QueuedSubmission) : sql nat
| SelectSubmissions (limit : nat) : sql (list QueuedSubmission)
| DeleteSubmission (id : string) : sql nat
| DeleteStaleSubmissions (ttl_ms : Z) : sql nat
| InsertResult (r : SubmissionResult) : sql nat
| SelectResults (issuer : string) (limit : nat) : sql (list SubmissionResult)
| DeleteResults (issuer : string) (ids : list string) : sql nat
| InsertToken (r : PreAuthRow) : sql (option string)
| InsertClaimCode (c : ClaimCode) : sql (option unit)
| UpdateConsumed (token : string) : sql (option PreAuthRow)
| SelectToken (token : string) : sql (option PreAuthRow)
| UpdateRedeemed (code : string) : sql (option (string * Z * bool))
| SelectTrackRecord (pubkey : string) : sql (nat * nat * option Z)
| SelectAgentId (pubkey : string) : sql (option (option string))
| InsertLink (agent_id account : string) : sql nat.

Definition upsert_pickup (p : Pickup) (l : list Pickup) : list Pickup :=
  let same q := negb (pk_acked q) && bool_decide (pk_agent q = pk_agent p ∧ pk_kind q = pk_kind p ∧ pk_hash q = pk_hash p) in
  if existsb same l
  then map (λ q, if same q then mkPickup (pk_agent q) (pk_kind q) (pk_ciphertext p) (pk_owner q) (pk_hash q) false else q) l
  else l ++ [p].

Definition cleared (node : string) (r : Merges.SuspensionRecord) : Merges.SuspensionRecord :=
  Merges.mkSuspension (Merges.agent_id r) false (Merges.burned r) (Merges.reason r)
    (Merges.authorized_by_account r) (Merges.suspension_seq r + 1)%Z node.

Definition suspended (agent_id : string) (burn : bool) (account node : string)
    (old : option Merges.SuspensionRecord) : Merges.SuspensionRecord :=
  match old with
  | None => Merges.mkSuspension agent_id true burn None (Some account) 1 node
  | Some r => Merges.mkSuspension (Merges.agent_id r) true (Merges.burned r || burn) (Merges.reason r)
                (Some account) (Merges.suspension_seq r + 1)%Z node
  end.

Definition agent_row (s : Store) (p : AgentProfile) : string * (option string * bool * option Z * bool * bool) :=
  let pres := agent_presence s !! pr_k_local p in
  let sus := pr_agent_id p ≫= λ a, agent_suspensions s !! a in
  (pr_k_local p,
   (pr_agent_id p, from_option fst false pres, pres ≫= snd,
    from_option Merges.paused false sus, from_option Merges.burned false sus)).

Definition older (q q' : QueuedSubmission) : Prop :=
  (sub_created_at q < sub_created_at q')%Z ∨
  (sub_created_at q = sub_created_at q' ∧ String.leb (submissionId q) (submissionId q') = true).

Definition older_result (r r' : SubmissionResult) : Prop :=
  (rs_created_at r < rs_created_at r')%Z ∨
  (rs_created_at r = rs_created_at r' ∧ String.leb (rs_submission r) (rs_submission r') = true).

#[global] Instance older_dec : RelDecision older.
Proof. intros q q'. unfold older. apply _. Defined.
#[global] Instance older_result_dec : RelDecision older_result.
Proof. intros r r'. unfold older_result. apply _. Defined.

(** [token = $1 AND consumed_at IS NULL AND expires_at > now()] *)
Definition open_token (now : Z) (token : string) (r : PreAuthRow) : bool :=
  bool_decide (tk_token r = token ∧ tk_consumed_at r = None) && (now <? tk_expires_at r)%Z.

(** [SET consumed_at = now()] *)
Definition consume_token (now : Z) (r : PreAuthRow) : PreAuthRow :=
  mkToken (tk_id r) (tk_token r) (tk_phone_stub r) (tk_email_stub r) (tk_registration r)
    (tk_issued_at r) (tk_expires_at r) (Some now) (tk_chain_hash r).

Definition nonempty (o : option string) : option string := truthy o.

Definition last_close (l : list SealRow) : option Z :=
  match l with [] => None | r :: l => Some (foldr Z.max (sl_close r) (map sl_close l)) end.

(** What a statement does to the tables at [now], and its answer; [None] is an error. *)
Definition exec {B} (now : Z) (q : sql B) (s : Store) : Store * option B :=
  match q in sql B return Store * option B with
  | SelectIssuer k => (s, Some (authorized_issuers s !! k))
  | InsertSignalRecord r =>
      let (l, n) := insert_absent same_key r (signal_records s) in (with_records s l, Some n)
  | UpdateSuperseded h node =>
      let (l, n) := update_where (λ r, bool_decide (signal_hash r = h ∧ accepting_node r = node ∧ status r = active))
                      (λ r, with_status r superseded) (signal_records s) in (with_records s l, Some n)
  | SelectNotarized h => (s, Some (negb (is_nil (real_rows s h))))
  | UpsertPickup p => (with_pickups s (upsert_pickup p (pickup_queue s)), Some tt)
  | InsertRevocation v =>
      let (l, n) := insert_absent (λ a b, bool_decide (rv_hash a = rv_hash b ∧ rv_pubkey a = rv_pubkey b)) v
                      (signal_revocations s) in (with_revocations s l, Some n)
  | UpsertRegistry v d =>
      match registry_document s with
      | Some (v', _) => if (v' <? v)%Z then (with_registry s (Some (v, d)), Some 1) else (s, Some 0)
      | None => (with_registry s (Some (v, d)), Some 1)
      end
  | SelectRegistry => (s, Some (registry_document s))
  | SelectPhoneStub a => (s, Some (phone_stubs s !! a))
  | SelectEmailStub a => (s, Some (fst <$> List.find (λ e, bool_decide (e.2 = a)) (email_stubs s)))
  | SelectActive hs =>
      (s, Some (List.filter (λ h, bool_decide (h ∈ hs) && is_active s h)
                  (list.remove_dups (map signal_hash (signal_records s)))))
  | SelectSubject _ => (s, None)        (* V55 dropped the column [subject] *)
  | SelectOwned a acc => (s, Some (bool_decide (account_links s !! a = Some acc)))
  | UpdateCleared a node =>
      match agent_suspensions s !! a with
      | Some r => if Merges.burned r then (s, Some 0)
                  else (with_suspensions s (<[a := cleared node r]> (agent_suspensions s)), Some 1)
      | None => (s, Some 0)
      end
  | SelectBurned a => (s, Some (Merges.burned <$> agent_suspensions s !! a))
  | UpsertSuspension a b acc node =>
      (with_suspensions s (<[a := suspended a b acc node (agent_suspensions s !! a)]> (agent_suspensions s)), Some tt)
  | SelectAccountByEmailStub stub => (s, Some (snd <$> List.find (λ e, bool_decide (e.1 = stub)) (email_stubs s)))
  | SelectAgents a =>
      (s, Some (Json.Json.sort_fields (map (agent_row s)
                  (List.filter (λ p, bool_decide (pr_account_id p = Some a)) (agent_profiles s)))))
  | SelectAgentByPubkey k =>
      (s, Some ((λ p, (pr_agent_id p, pr_agent_id p ≫= λ a, account_links s !! a, nonempty (pr_phone_stub p))) <$>
                List.find (λ p, bool_decide (to_lower (pr_k_local p) = k)) (agent_profiles s)))
  | InsertSubmission q =>
      let (l, n) := insert_absent (λ a b, bool_decide (submissionId a = submissionId b))
                      (mkSubmission (submissionId q) (intakeKeyId q) (ciphertext q) now) (submission_queue s) in (with_queue s l, Some n)
  | SelectSubmissions n => (s, Some (take n (merge_sort older (submission_queue s))))
  | DeleteSubmission i =>
      let (l, n) := delete_where (λ q, bool_decide (submissionId q = i)) (submission_queue s) in
      (with_queue s l, Some n)
  | DeleteStaleSubmissions ttl =>
      let (l, n) := delete_where (λ q, (sub_created_at q <? now - ttl)%Z) (submission_queue s) in
      (with_queue s l, Some n)
  | InsertResult r =>
      let (l, n) := insert_absent (λ a b, bool_decide (rs_submission a = rs_submission b ∧ rs_node a = rs_node b))
                      (mkResult (rs_submission r) (rs_node r) (rs_issuer r) (rs_outcome r) (rs_reason r)
                         (rs_signal_hash r) (rs_ciphertext r) now) (submission_results s) in (with_results s l, Some n)
  | SelectResults k n =>
      (s, Some (take n (merge_sort older_result
                  (List.filter (λ r, bool_decide (rs_issuer r = k)) (submission_results s)))))
  | DeleteResults k ids =>
      let (l, n) := delete_where (λ r, bool_decide (rs_issuer r = k ∧ rs_submission r ∈ ids))
                      (submission_results s) in (with_results s l, Some n)
  | InsertToken r =>
      let (l, n) := insert_absent (λ a b, bool_decide (tk_token a = tk_token b)) r (pre_authorization_tokens s) in
      (with_tokens s l, Some (if n =? 0 then None else Some (tk_id r)))
  | InsertClaimCode c =>
      let (l, n) := insert_absent (λ a b, bool_decide (cc_code a = cc_code b)) c (capability_claim_codes s) in
      (with_codes s l, Some (if n =? 0 then None else Some tt))
  | UpdateConsumed t =>
      let (l, _) := update_where (open_token now t) (consume_token now) (pre_authorization_tokens s) in
      (with_tokens s l, Some (consume_token now <$> List.find (open_token now t) (pre_authorization_tokens s)))
  | SelectToken t => (s, Some (List.find (λ r, bool_decide (tk_token r = t)) (pre_authorization_tokens s)))
  | UpdateRedeemed c =>
      let redeem r := mkClaim (cc_code r) (cc_capability r) (cc_expires_at r)
                        (Some (default now (cc_redeemed_at r))) in
      let here r := bool_decide (cc_code r = c) in
      let (l, _) := update_where here redeem (capability_claim_codes s) in
      (with_codes s l, Some ((λ r, (cc_capability r, cc_expires_at r, (cc_expires_at r <=? now)%Z)) <$>
                             List.find here (capability_claim_codes s)))
  | SelectTrackRecord k =>
      let l := List.filter (λ r, bool_decide (sl_a r = k ∨ sl_b r = k)) (seal_rows s) in
      (s, Some (length l, length (List.filter (λ r, bool_decide (sl_mutual r = Some true)) l), last_close l))
  | SelectAgentId k =>
      (s, Some (pr_agent_id <$> List.find (λ p, bool_decide (pr_k_local p = k)) (agent_profiles s)))
  | InsertLink a acc =>
      match account_links s !! a with
      | Some _ => (s, Some 0)
      | None => (with_links s (<[a := acc]> (account_links s)), Some 1)
      end
  end.

(** ** What a statement does to one table *)

Lemma exec_records {B} now (q : sql B) s : signal_records (exec now q s).1 =
  match q with
  | InsertSignalRecord r => (insert_absent same_key r (signal_records s)).1
  | UpdateSuperseded h node =>
      (update_where (λ r, bool_decide (signal_hash r = h ∧ accepting_node r = node ∧ status r = active))
         (λ r, with_status r superseded) (signal_records s)).1
  | _ => signal_records s
  end.
Proof. destruct q; cbn; try done; unfold insert_absent; repeat case_match; done. Qed.

Lemma exec_revocations {B} now (q : sql B) s : signal_revocations (exec now q s).1 =
  match q with
  | InsertRevocation v =>
      (insert_absent (λ a b, bool_decide (rv_hash a = rv_hash b ∧ rv_pubkey a = rv_pubkey b)) v (signal_revocations s)).1
  | _ => signal_revocations s
  end.
Proof. destruct q; cbn; try done; unfold insert_absent; repeat case_match; done. Qed.

Lemma exec_pickups {B} now (q : sql B) s : pickup_queue (exec now q s).1 =
  match q with UpsertPickup p => upsert_pickup p (pickup_queue s) | _ => pickup_queue s end.
Proof. destruct q; cbn; try done; unfold insert_absent; repeat case_match; done. Qed.

Lemma exec_suspensions {B} now (q : sql B) s : agent_suspensions (exec now q s).1 =
  match q with
  | UpdateCleared a node =>
      match agent_suspensions s !! a with
      | Some r => if Merges.burned r then agent_suspensions s else <[a := cleared node r]> (agent_suspensions s)
      | None => agent_suspensions s
      end
  | UpsertSuspension a b acc node => <[a := suspended a b acc node (agent_suspensions s !! a)]> (agent_suspensions s)
  | _ => agent_suspensions s
  end.
Proof. destruct q; cbn; try done; unfold insert_absent; repeat case_match; done. Qed.

Lemma exec_registry {B} now (q : sql B) s : registry_document (exec now q s).1 =
  match q with
  | UpsertRegistry v d =>
      match registry_document s with
      | Some (v', d') => if (v' <? v)%Z then Some (v, d) else Some (v', d')
      | None => Some (v, d)
      end
  | _ => registry_document s
  end.
Proof. destruct q; cbn; try done; unfold insert_absent; repeat case_match; done. Qed.

Lemma exec_issuers {B} now (q : sql B) s : authorized_issuers (exec now q s).1 = authorized_issuers s.
Proof. destruct q; cbn; try done; unfold insert_absent; repeat case_match; done. Qed.

Lemma insert_absent_elem {A} same (x y : A) l :
  y ∈ (insert_absent same x l).1 ↔ y ∈ l ∨ (y = x ∧ existsb (same x) l = false).
Proof.
  unfold insert_absent. destruct (existsb (same x) l); cbn; [naive_solver|].
  rewrite elem_of_app, list_elem_of_singleton. naive_solver.
Qed.

(** Something like [x] is there afterwards. *)
Lemma insert_absent_has {A} (same : A → A → bool) x l : (∀ a, same a a = true) →
  ∃ y, y ∈ (insert_absent same x l).1 ∧ same x y = true.
Proof.
  intros Hr. unfold insert_absent. destruct (existsb (same x) l) eqn:E; cbn.
  - apply existsb_exists in E as (y & Hy & E). exists y. by rewrite list_elem_of_In.
  - exists x. rewrite elem_of_app, list_elem_of_singleton. auto.
Qed.

(** Any statement, whoever sends it, at its instant. *)
Inductive statement : Type :=
| Statement {B : Type} (now : Z) (q : sql B).

Definition effect (s : Store) (c : statement) : Store := match c with Statement now q => (exec now q s).1 end.

(** The tables after statements of any programs, in the order in which they took effect. *)
Definition after (l : list statement) (s : Store) : Store := foldl effect s l.

Lemma after_preserves (P : Store → Prop) l s : (∀ s c, P s → P (effect s c)) → P s → P (after l s).
Proof. intros Hp. revert s. induction l as [|c l IH]; intros s Hs; [done|]. cbn. by apply IH, Hp. Qed.

Lemma after_app l l' s : after (l ++ l') s = after l' (after l s).
Proof. apply foldl_app. Qed.

(** * Programs *)

(** Why the code throws: a [SubmitRejected] with its reason, or any other error. *)
Inductive SubmitRejection : Type :=
| malformed_request | unknown_issuer | issuer_revoked | issuer_wrong_role | signature_invalid
| revoker_authorization_invalid | stale_request | envelope_undecodable | envelope_invalid
| envelope_hash_mismatch | invalid_delivery | signal_not_notarized.

#[global] Instance SubmitRejection_eq_dec : EqDecision SubmitRejection.
Proof. solve_decision. Defined.

Inductive exn : Type := SubmitRejected (reason : SubmitRejection) | OtherError.

(** A program ends, throws, or sends a statement and goes on with its answer, which is
    [None] where the statement fails. *)
Inductive prog (A : Type) : Type :=
| Done (a : A)
| Throws (e : exn)
| Query {B : Type} (q : sql B) (k : option B → prog A).
#[global] Arguments Done {A} _.
#[global] Arguments Throws {A} _.
#[global] Arguments Query {A B} _ _.

#[global] Instance prog_ret : MRet prog := λ _ a, Done a.
#[global] Instance prog_bind : MBind prog :=
  λ A B f, fix bind (p : prog A) : prog B :=
    match p with
    | Done a => f a
    | Throws e => Throws e
    | Query q k => Query q (λ o, bind (k o))
    end.

(** [try { p } catch (e) { h(e) }] *)
Fixpoint catch {A} (p : prog A) (h : exn → prog A) : prog A :=
  match p with
  | Done a => Done a
  | Throws e => h e
  | Query q k => Query q (λ o, catch (k o) h)
  end.

(** [await pool.query(q)] *)
Definition query {B} (q : sql B) : prog B :=
  Query q (λ o, match o with Some b => Done b | None => Throws OtherError end).

(** [if (!b) throw new SubmitRejected(e)] *)
Definition demand (b : bool) (e : SubmitRejection) : prog unit :=
  if b then Done tt else Throws (SubmitRejected e).

(** [for (const x of l) await body(x)] *)
Fixpoint each {A} (body : A → prog unit) (l : list A) : prog unit :=
  match l with [] => Done tt | x :: l => _ ← body x; each body l end.

(** Without interruption and with every statement answered, at one instant. *)
Fixpoint run_prog {A} (now : Z) (p : prog A) (s : Store) : Store * result exn A :=
  match p with
  | Done a => (s, Ok a)
  | Throws e => (s, Err e)
  | Query q k => let (s', o) := exec now q s in run_prog now (k o) s'
  end.

End ApiStore.
