(* ===== verification/TrustSignals.v ===== *)
(** Trust signals at the directory (packages/directory/src/signal-write.ts,
    signal-present.ts, account-facts.ts): the one door through which a signal's hash
    enters the ledger, its revocation, its delivery to the holder's agents, the type
    registry, the facts an account can be attested, and the check of presented hashes.

    Each operation is a program of statements ([ApiStore.prog]).  The envelope codec,
    CBOR, SHA-256 and Ed25519 are other packages: [Lib].  A decoded envelope has the
    declared kinds; what the directory never reads of it is [env_rest].  Left out: log
    lines and the texts of refusals. *)
From Stdlib Require Import Ascii.
From S2P Require Import Prelude Text Effects Wire ApiStore.
Import Text Wire ApiStore.

Module TrustSignals.

(** * Parameters *)

Record TrustSignalEnvelope : Type := mkEnvelope {
  env_subject_kind : SubjectKind;
  env_issuer_kind : IssuerKind;
  env_issuer_pubkey : string;
  env_type : string;
  env_supersedes_hash : option bytes;
  env_rest : bytes;
}.

Record Lib : Type := mkLib {
  sha256 : bytes → bytes;
  decodeCbor : bytes → option jsval;                   (* [None]: throws *)
  encodeCbor : jsval → bytes;
  decodeTrustSignalEnvelope : bytes → option TrustSignalEnvelope;
  hashTrustSignalEnvelope : TrustSignalEnvelope → option bytes;
  verify : bytes → bytes → bytes → option bool;        (* key, message, signature *)
}.

(** * Fields of a decoded body *)

(** [r.k]; what is not a map has no field that is read here. *)
Definition prop (k : string) (v : jsval) : jsval :=
  match v with VObj fs => field k fs | _ => VUndef end.

Definition as_string (v : jsval) : option string := match v with VStr s => Some s | _ => None end.

(** [Number.isInteger(v)] *)
Definition as_integer (v : jsval) : option Z := match v with VNum (JInt z) => Some z | _ => None end.

Definition is_object (v : jsval) : bool :=
  match v with VObj _ | VArr _ | VBytes _ => true | _ => false end.

Definition is_undefined (v : jsval) : bool := match v with VUndef => true | _ => false end.

(** The value, or the refusal. *)
Definition need {A} (o : option A) (e : SubmitRejection) : prog A :=
  match o with Some a => Done a | None => Throws (SubmitRejected e) end.

Definition filtered {A} (p : A → bool) (o : option A) : option A :=
  a ← o; if p a then Some a else None.

(** [v !== 1], [op !== ...] *)
Definition check_version (op : string) (r : jsval) : prog unit :=
  _ ← demand (is_object r) malformed_request;
  _ ← demand (bool_decide (as_integer (prop "v" r) = Some 1%Z)) malformed_request;
  demand (bool_decide (as_string (prop "op" r) = Some op)) malformed_request.

Definition signal_hash_of (r : jsval) : prog string :=
  need (filtered is_hex64 (as_string (prop "signal_hash" r))) malformed_request.

Definition issued_at_of (r : jsval) : prog Z := need (as_integer (prop "issued_at" r)) malformed_request.

Definition CLOCK_SKEW_SECONDS : Z := 600.

(** [Math.abs(nowSec - issuedAt) > CLOCK_SKEW_SECONDS] *)
Definition check_fresh (nowSec issuedAt : Z) : prog unit :=
  demand (Z.abs (nowSec - issuedAt) <=? CLOCK_SKEW_SECONDS)%Z stale_request.

Section Signals.
Context (lib : Lib).

Definition decoded (bodyCbor : bytes) : prog jsval := need (decodeCbor lib bodyCbor) malformed_request.

(** * Who may ask *)

Definition SIGNAL_REQUEST_DOMAIN : bytes := "CELLO-TSIG-REQ-v1".

Definition buildSignalRequestTbs (bodyCbor : bytes) : bytes := SIGNAL_REQUEST_DOMAIN +:+ sha256 lib bodyCbor.

Definition hexToBytes (h : string) : bytes := hex_prefix h.

Definition authorizeIssuer (pubkey required : string) : prog unit :=
  row ← query (SelectIssuer pubkey);
  match row with
  | None => Throws (SubmitRejected unknown_issuer)
  | Some (role, status) =>
      _ ← demand (bool_decide (status = "active")) issuer_revoked;
      demand (bool_decide (role = required)) issuer_wrong_role
  end.

Definition verifySignedRequest (signerPubkeyHex signatureHex : string) (bodyCbor : bytes) (requiredRole : string)
    : prog unit :=
  _ ← demand (is_hex64 signerPubkeyHex) malformed_request;
  _ ← authorizeIssuer signerPubkeyHex requiredRole;
  demand (bool_decide (verify lib (hexToBytes signerPubkeyHex) (buildSignalRequestTbs bodyCbor)
                         (hexToBytes signatureHex) = Some true)) signature_invalid.

(** * Submission *)

Record SignalSubmitRequest : Type := mkSubmit {
  sr_envelope : bytes;
  sr_signal_hash : string;
  sr_scanner_version : string;
  sr_issued_at : Z;
}.

Definition parseRequest (bodyCbor : bytes) : prog SignalSubmitRequest :=
  r ← decoded bodyCbor;
  _ ← check_version "submit" r;
  envelope ← need (as_bytes (prop "envelope" r)) malformed_request;
  h ← signal_hash_of r;
  scanner ← need (filtered (λ s, negb (bool_decide (s = EmptyString))) (as_string (prop "scanner_version" r)))
              malformed_request;
  t ← issued_at_of r;
  mret (mkSubmit envelope h scanner t).

(** The bytes have the outer shape of an envelope. *)
Definition structural (envelopeBytes : bytes) : bool :=
  match decodeCbor lib envelopeBytes with
  | Some (VArr l) => (length l =? 12) && bool_decide (as_string (at_index l 0) = Some "CELLO-TSIG-v1")
  | _ => false
  end.

Definition decode_envelope (envelopeBytes : bytes) : prog TrustSignalEnvelope :=
  need (decodeTrustSignalEnvelope lib envelopeBytes)
    (if structural envelopeBytes then envelope_invalid else envelope_undecodable).

(** The row of a notarized envelope. *)
Definition record_of (acceptingNode scanner : string) (e : TrustSignalEnvelope) (derived : string) : SignalRecord :=
  mkRecord derived acceptingNode (env_subject_kind e) (env_issuer_kind e) (env_issuer_pubkey e) (env_type e)
    (hex <$> env_supersedes_hash e) active scanner false None None.

(** The envelope of a request, when the bytes hash to what is claimed. *)
Definition checked_envelope (req : SignalSubmitRequest) : prog (TrustSignalEnvelope * string) :=
  e ← decode_envelope (sr_envelope req);
  digest ← need (hashTrustSignalEnvelope lib e) envelope_invalid;
  let derived := hex digest in
  _ ← demand (negb (bool_decide (env_issuer_kind e = agent)) || is_hex64 (env_issuer_pubkey e)) envelope_invalid;
  _ ← demand (bool_decide (derived = sr_signal_hash req)) envelope_hash_mismatch;
  mret (e, derived).

(** The hash, and whether this node saw it for the first time. *)
Definition submitSignal (acceptingNode : string) (bodyCbor : bytes) (signerPubkeyHex signatureHex : string) (nowSec : Z)
    : prog (string * bool) :=
  _ ← verifySignedRequest signerPubkeyHex signatureHex bodyCbor "submitter";
  req ← parseRequest bodyCbor;
  _ ← check_fresh nowSec (sr_issued_at req);
  ed ← checked_envelope req;
  let (e, derived) := (ed : TrustSignalEnvelope * string) in
  n ← query (InsertSignalRecord (record_of acceptingNode (sr_scanner_version req) e derived));
  let inserted := 0 <? n in
  _ ← match env_supersedes_hash e with
      | Some old => if inserted then _ ← query (UpdateSuperseded (hex old) acceptingNode); mret tt else mret tt
      | None => mret tt
      end;
  mret (derived, inserted).

(** * Delivery *)

Definition MAX_DELIVERIES : N := 256.
Definition MAX_CIPHERTEXT_BYTES : N := 65536.
Definition MAX_AGENT_ID_LEN : N := 256.

Record SignalDeliverRequest : Type := mkDeliver {
  dr_signal_hash : string;
  dr_signal_kind : string;
  dr_deliveries : list (string * bytes);
  dr_issued_at : Z;
}.

(** A length between one and [n]. *)
Definition sized (n : N) (k : nat) : bool := (0 <? k) && (N.of_nat k <=? n)%N.

Definition parse_delivery (d : jsval) : prog (string * bytes) :=
  _ ← demand (is_object d) invalid_delivery;
  a ← need (filtered (λ s, sized MAX_AGENT_ID_LEN (js_length s)) (as_string (prop "agent_id" d))) invalid_delivery;
  c ← need (filtered (λ b, sized MAX_CIPHERTEXT_BYTES (String.length b)) (as_bytes (prop "ciphertext" d))) invalid_delivery;
  mret (a, c).

Fixpoint parse_deliveries (l : list jsval) : prog (list (string * bytes)) :=
  match l with
  | [] => mret []
  | d :: l => x ← parse_delivery d; r ← parse_deliveries l; mret (x :: r)
  end.

Definition parseDeliverRequest (bodyCbor : bytes) : prog SignalDeliverRequest :=
  r ← decoded bodyCbor;
  _ ← check_version "deliver" r;
  h ← signal_hash_of r;
  kind ← need (filtered (λ s, sized 128 (js_length s)) (as_string (prop "signal_kind" r))) malformed_request;
  t ← issued_at_of r;
  ds ← match prop "deliveries" r with
       | VArr l => _ ← demand (sized MAX_DELIVERIES (length l)) invalid_delivery; parse_deliveries l
       | _ => Throws (SubmitRejected invalid_delivery)
       end;
  mret (mkDeliver h kind ds t).

Definition pickup_of (acceptingNode : string) (req : SignalDeliverRequest) (d : string * bytes) : Pickup :=
  mkPickup d.1 (dr_signal_kind req) d.2 acceptingNode (dr_signal_hash req) false.

(** How many sealed copies were queued. *)
Definition deliverSignal (acceptingNode : string) (bodyCbor : bytes) (signerPubkeyHex signatureHex : string) (nowSec : Z)
    : prog nat :=
  _ ← verifySignedRequest signerPubkeyHex signatureHex bodyCbor "submitter";
  req ← parseDeliverRequest bodyCbor;
  _ ← check_fresh nowSec (dr_issued_at req);
  known ← query (SelectNotarized (dr_signal_hash req));
  _ ← demand known signal_not_notarized;
  _ ← each (λ d, query (UpsertPickup (pickup_of acceptingNode req d))) (dr_deliveries req);
  mret (length (dr_deliveries req)).

(** * Revocation *)

Definition SIGNAL_REVOKE_AUTH_DOMAIN : string := "CELLO-SIGREVOKE-v1".

Definition buildSignalRevokeAuthorizationTbs (signalHash : string) (issuedAt : Z) : bytes :=
  encodeCbor lib (VArr [VStr SIGNAL_REVOKE_AUTH_DOMAIN; VStr signalHash; VNum (JInt issuedAt)]).

(** The revoker that authorised the revocation itself, where one is named. *)
Definition inner_authorization (r : jsval) (signalHash : string) (issuedAt : Z) : prog (option (string * bytes)) :=
  if is_undefined (prop "revoker_pubkey" r) && is_undefined (prop "revoker_signature" r) then mret None
  else
    k ← need (filtered is_hex64 (as_string (prop "revoker_pubkey" r))) malformed_request;
    sig ← need (bytes_of_length 64 (prop "revoker_signature" r)) malformed_request;
    match verify lib (hexToBytes k) (buildSignalRevokeAuthorizationTbs signalHash issuedAt) sig with
    | None => Throws OtherError
    | Some false => Throws (SubmitRejected revoker_authorization_invalid)
    | Some true => mret (Some (k, sig))
    end.

Definition tombstone (acceptingNode signalHash : string) (revoker : option (string * bytes)) : SignalRecord :=
  mkRecord signalHash ("revoke:" +:+ acceptingNode) SubjectAgent portal "(tombstone)" "(tombstone)" None revoked
    "(tombstone)" true (fst <$> revoker) (snd <$> revoker).

(** The hash, and how many tombstones were written. *)
Definition revokeSignal (acceptingNode : string) (bodyCbor : bytes) (signerPubkeyHex signatureHex : string) (nowSec : Z)
    : prog (string * nat) :=
  _ ← verifySignedRequest signerPubkeyHex signatureHex bodyCbor "submitter";
  r ← decoded bodyCbor;
  _ ← check_version "revoke" r;
  h ← signal_hash_of r;
  t ← issued_at_of r;
  _ ← check_fresh nowSec t;
  revoker ← inner_authorization r h t;
  n ← query (InsertSignalRecord (tombstone acceptingNode h revoker));
  _ ← match revoker with
      | Some (k, sig) => _ ← query (InsertRevocation (mkRevocation h k sig)); mret tt
      | None => mret tt
      end;
  mret (h, n).

(** * The type registry *)

Definition MAX_SAFE_INTEGER : Z := 2 ^ 53 - 1.

(** The version, and whether it replaced the stored document. *)
Definition publishRegistry (bodyCbor : bytes) (signerPubkeyHex signatureHex : string) (nowSec : Z)
    : prog (Z * bool) :=
  _ ← verifySignedRequest signerPubkeyHex signatureHex bodyCbor "registry";
  r ← decoded bodyCbor;
  _ ← check_version "registry-publish" r;
  document ← need (as_bytes (prop "document" r)) malformed_request;
  version ← need (filtered (λ v, (0 <=? v)%Z) (as_integer (prop "version" r))) malformed_request;
  _ ← demand (version <=? MAX_SAFE_INTEGER)%Z malformed_request;
  t ← issued_at_of r;
  _ ← check_fresh nowSec t;
  n ← query (UpsertRegistry version document);
  mret (version, 0 <? n).

Definition getRegistryDocument : prog (option (Z * bytes)) := query SelectRegistry.

(** * Account facts *)

Record AccountFacts : Type := mkFacts { phone_stub : option string; email_stub : option string }.

Definition readAccountFacts (accountId : string) : prog (option AccountFacts) :=
  account ← query (SelectPhoneStub accountId);
  match account with
  | None => mret None
  | Some phone => email ← query (SelectEmailStub accountId); mret (Some (mkFacts phone email))
  end.

Definition hex_digit_i (c : ascii) : bool := lower_hex_digit (lower_char c).

(** The groups of a UUID, each of so many hexadecimal digits. *)
Fixpoint uuid_groups (l : list nat) (s : string) : bool :=
  match l with
  | [] => false
  | [n] => (String.length s =? n) && all_chars hex_digit_i s
  | n :: l =>
      all_chars hex_digit_i (String.substring 0 n s) && (String.length (String.substring 0 n s) =? n) &&
      match strip_prefix "-" (String.substring n (String.length s - n) s) with
      | Some r => uuid_groups l r
      | None => false
      end
  end.

Definition is_uuid (s : string) : bool := uuid_groups [8; 4; 4; 4; 12] s.

Definition queryAccountFacts (bodyCbor : bytes) (signerPubkeyHex signatureHex : string) (nowSec : Z)
    : prog (option AccountFacts) :=
  _ ← verifySignedRequest signerPubkeyHex signatureHex bodyCbor "submitter";
  r ← decoded bodyCbor;
  _ ← check_version "query" r;
  _ ← demand (bool_decide (as_string (prop "query" r) = Some "account-facts")) malformed_request;
  a ← need (filtered is_uuid (as_string (prop "account_id" r))) malformed_request;
  t ← issued_at_of r;
  _ ← check_fresh nowSec t;
  readAccountFacts a.

End Signals.

(** * The check of presented hashes *)

(** The presented hashes that are active, in the order of their presentation. *)
Definition checkPresentedSignals (hashes : list string) : prog (list string) :=
  if is_nil hashes then mret []
  else live ← query (SelectActive hashes); mret (List.filter (λ h, bool_decide (h ∈ live)) hashes).

End TrustSignals.
