(* ===== verification/PreAuthTokens.v ===== *)
(** Pre-authorization tokens, capabilities and claim codes
    (packages/directory/src/pre-auth-token-repository.ts): how a token's text is drawn
    from random bytes, how it is issued, consumed at most once, and how a claim code is
    redeemed for its capability.

    Random bytes, instants and row ids are drawn by number from [Draws]; SHA-256 (in
    hexadecimal), [toISOString] and the signing of a capability are parameters. *)
From Stdlib Require Import Ascii.
From S2P Require Import Prelude Text Bytes Effects ApiStore.
Import Text Bytes ApiStore.

Module PreAuthTokens.

(** * The text of a token *)

Definition BASE58_ALPHABET : string := "123456789ABCDEFGHJKLMNPQRSTUVWXYZabcdefghijkmnopqrstuvwxyz".

Definition base58_char (d : Z) : ascii := default "1"%char (String.get (Z.to_nat d) BASE58_ALPHABET).

(** [while (n > 0n) digits.unshift(n % 58n), n = n / 58n] *)
Fixpoint digits58 (fuel : nat) (n : Z) (digits : list Z) : list Z :=
  match fuel with
  | O => digits
  | S fuel => if (0 <? n)%Z then digits58 fuel (n / 58) (n mod 58 :: digits)%Z else digits
  end.

(** [while (digits.length < 33) digits.unshift("1")] *)
Definition pad33 (digits : list Z) : list Z := replicate (33 - length digits) 0%Z ++ digits.

(** The digits of 25 random bytes; a number of 200 bits has at most 35. *)
Definition token_digits (raw : bytes) : list Z := pad33 (digits58 35 (be_value raw) []).

Definition token_text (digits : list Z) : string :=
  "CELLO-" +:+ String.string_of_list_ascii (map base58_char digits).

(** One turn of the loop. *)
Definition accept (raw : bytes) : option string :=
  if length (token_digits raw) =? 33 then Some (token_text (token_digits raw)) else None.

(** [for (;;)], from the [i]-th draw on: the token, and the number of the next draw. *)
Fixpoint generatePreAuthToken (fuel : nat) (raw : nat → bytes) (i : nat) : option (string * nat) :=
  match fuel with
  | O => None
  | S fuel =>
      match accept (raw i) with
      | Some t => Some (t, S i)
      | None => generatePreAuthToken fuel raw (S i)
      end
  end.

(** * Issuing *)

Record Draws : Type := mkDraws {
  raw25 : nat → bytes;         (* [randomBytes(25)] *)
  raw16 : nat → bytes;         (* [randomBytes(16)] *)
  instant : nat → Z;           (* [new Date()] of an attempt *)
  row_id : nat → string;       (* [gen_random_uuid()] *)
  draws_fuel : nat;
}.

Record IssuePreAuthTokenParams : Type := mkParams {
  phoneStubHash : string;
  emailStubHash : string;
  registrationId : string;
}.

Definition TTL_MS : Z := 24 * 60 * 60 * 1000.

Section Repository.
Context (sha256_hex : string → string) (toISOString : Z → string).
(** nonce, phone stub, email stub, issued at, expires at; [None]: throws *)
Context (capability_of : string → string → string → string → string → option string).

Definition token_row (d : Draws) (attempt : nat) (token : string) (params : IssuePreAuthTokenParams) : PreAuthRow :=
  let issuedAt := instant d attempt in
  mkToken (row_id d attempt) token (phoneStubHash params) (emailStubHash params) (registrationId params)
    issuedAt (issuedAt + TTL_MS)%Z None (sha256_hex (token +:+ toISOString issuedAt)).

(** Token, row and expiry; [n] attempts are left. *)
Fixpoint issue_attempts (d : Draws) (params : IssuePreAuthTokenParams) (n attempt i : nat) : prog (string * string * Z) :=
  match n with
  | O => Throws OtherError
  | S n =>
      match generatePreAuthToken (draws_fuel d) (raw25 d) i with
      | None => Throws OtherError
      | Some (token, i') =>
          let row := token_row d attempt token params in
          o ← query (InsertToken row);
          match o with
          | Some tokenId => mret (token, tokenId, tk_expires_at row)
          | None => issue_attempts d params n (S attempt) i'
          end
      end
  end.

Definition issuePreAuthToken (d : Draws) (params : IssuePreAuthTokenParams) : prog (string * string * Z) :=
  issue_attempts d params 3 0 0.

(** Capability, claim code, nonce, row and expiry. *)
Fixpoint capability_attempts (d : Draws) (params : IssuePreAuthTokenParams) (n attempt i : nat)
    : prog (string * string * string * string * Z) :=
  match n with
  | O => Throws OtherError
  | S n =>
      let nonce := hex (raw16 d attempt) in
      let row := token_row d attempt nonce params in
      o ← query (InsertToken row);
      match o with
      | None => capability_attempts d params n (S attempt) i
      | Some tokenId =>
          match capability_of nonce (phoneStubHash params) (emailStubHash params)
                  (toISOString (tk_issued_at row)) (toISOString (tk_expires_at row)) with
          | None => Throws OtherError
          | Some capability =>
              match generatePreAuthToken (draws_fuel d) (raw25 d) i with
              | None => Throws OtherError
              | Some (claimCode, i') =>
                  o ← query (InsertClaimCode (mkClaim claimCode capability (tk_expires_at row) None));
                  match o with
                  | Some _ => mret (capability, claimCode, nonce, tokenId, tk_expires_at row)
                  | None => capability_attempts d params n (S attempt) i'
                  end
              end
          end
      end
  end.

Definition issuePreAuthCapability (d : Draws) (params : IssuePreAuthTokenParams)
    : prog (string * string * string * string * Z) :=
  capability_attempts d params 3 0 0.

End Repository.

(** * Consuming *)

Inductive TokenRefusal : Type :=
| PRE_AUTH_TOKEN_MISSING | PRE_AUTH_TOKEN_CONSUMED | PRE_AUTH_TOKEN_EXPIRED | PRE_AUTH_TOKEN_NOT_FOUND.

(** Row, phone stub and email stub of the token, or why not. *)
Definition consumePreAuthToken (token : string) : prog (result TokenRefusal (string * string * string)) :=
  o ← query (UpdateConsumed token);
  match o with
  | Some r => mret (Ok (tk_id r, tk_phone_stub r, tk_email_stub r))
  | None =>
      row ← query (SelectToken token);
      mret (Err match row with
                | None => PRE_AUTH_TOKEN_NOT_FOUND
                | Some r => if bool_decide (tk_consumed_at r = None) then PRE_AUTH_TOKEN_EXPIRED else PRE_AUTH_TOKEN_CONSUMED
                end)
  end.

Definition validatePreAuthTokenForDkg (token : option string) : prog (result TokenRefusal (string * string * string)) :=
  match truthy token with
  | None => mret (Err PRE_AUTH_TOKEN_MISSING)
  | Some t =>
      r ← consumePreAuthToken t;
      mret match r with
           | Err PRE_AUTH_TOKEN_CONSUMED => Err PRE_AUTH_TOKEN_CONSUMED
           | Err PRE_AUTH_TOKEN_EXPIRED => Err PRE_AUTH_TOKEN_EXPIRED
           | Err _ => Err PRE_AUTH_TOKEN_MISSING
           | Ok v => Ok v
           end
  end.

(** * Linking and redeeming *)

Definition linkAgentToAccount (kLocalPubkey accountId : string) : prog string :=
  row ← query (SelectAgentId kLocalPubkey);
  match truthy (row ≫= id) with
  | None => Throws OtherError
  | Some agentId => _ ← query (InsertLink agentId accountId); mret accountId
  end.

Inductive RedeemClaimCodeResult : Type :=
| Redeemed (capability : string) (expiresAt : Z) | CodeExpired | CodeNotFound.

Definition redeemClaimCode (code : string) : prog RedeemClaimCodeResult :=
  row ← query (UpdateRedeemed code);
  mret match row with
       | None => CodeNotFound
       | Some (capability, expiresAt, expired) => if (expired : bool) then CodeExpired else Redeemed capability expiresAt
       end.

(** * The digits *)

Definition value58 (ds : list Z) : Z := foldl (λ a d, a * 58 + d)%Z 0%Z ds.

Definition digit (d : Z) : Prop := (0 <= d < 58)%Z.

Lemma value58_snoc ds d : value58 (ds ++ [d]) = (value58 ds * 58 + d)%Z.
Proof. unfold value58. by rewrite foldl_app. Qed.

Lemma value58_zeros k ds : value58 (replicate k 0%Z ++ ds) = value58 ds.
Proof.
  unfold value58. rewrite foldl_app. f_equal. induction k as [|k IH]; [done|].
  cbn [replicate foldl]. exact IH.
Qed.

(** The digits of [n] have its value, and are as many as it needs. *)
Lemma digits58_spec fuel n acc : (0 <= n < 58 ^ Z.of_nat fuel)%Z →
  ∃ ds, digits58 fuel n acc = ds ++ acc ∧ value58 ds = n ∧ Forall digit ds ∧
        ∀ k, length ds <= k ↔ (n < 58 ^ Z.of_nat k)%Z.
Proof.
  revert n acc. induction fuel as [|fuel IH]; intros n acc Hn.
  - exists []. change (Z.of_nat 0) with 0%Z in Hn. split_and!; [done|cbn; lia|done|].
    intros k. cbn. split; [intros _|lia]. assert (0 < 58 ^ Z.of_nat k)%Z by (apply Z.pow_pos_nonneg; lia). lia.
  - cbn [digits58]. destruct (0 <? n)%Z eqn:E; bools.
    + rewrite Nat2Z.inj_succ, Z.pow_succ_r in Hn by lia.
      pose proof (Z.div_mod n 58 ltac:(lia)) as Hd. pose proof (Z.mod_pos_bound n 58 ltac:(lia)) as Hm.
      destruct (IH (n / 58)%Z (n mod 58 :: acc)%Z) as (ds & -> & Hv & Hf & Hl).
      { split; [apply Z.div_pos; lia|apply Z.div_lt_upper_bound; lia]. }
      exists (ds ++ [n mod 58]%Z). split_and!.
      * by rewrite <- app_assoc.
      * rewrite value58_snoc. lia.
      * apply Forall_app; split; [done|]. by apply Forall_singleton.
      * intros k. rewrite length_app. cbn [length]. destruct k as [|k]; [cbn; lia|].
        rewrite Nat2Z.inj_succ, Z.pow_succ_r by lia. specialize (Hl k).
        split; intros H.
        -- assert (n / 58 < 58 ^ Z.of_nat k)%Z by (apply Hl; lia). lia.
        -- assert (length ds <= k) by (apply Hl, Z.div_lt_upper_bound; lia). lia.
    + exists []. split_and!; [done|cbn; lia|done|]. intros k. cbn. split; [intros _|lia].
      assert (0 < 58 ^ Z.of_nat k)%Z by (apply Z.pow_pos_nonneg; lia). lia.
Qed.

Lemma raw_value_bound raw : String.length raw = 25 → (0 <= be_value raw < 58 ^ Z.of_nat 35)%Z.
Proof.
  intros Hl. pose proof (be_value_range raw) as Hr. rewrite Hl in Hr.
  assert (256 ^ Z.of_nat 25 < 58 ^ Z.of_nat 35)%Z by (vm_compute; done). lia.
Qed.

Lemma token_digits_spec raw : String.length raw = 25 →
  value58 (token_digits raw) = be_value raw ∧ Forall digit (token_digits raw) ∧
  (length (token_digits raw) = 33 ↔ (be_value raw < 58 ^ 33)%Z).
Proof.
  intros Hl. destruct (digits58_spec 35 (be_value raw) []) as (ds & Ed & Hv & Hf & Hk); [by apply raw_value_bound|].
  unfold token_digits. rewrite Ed, app_nil_r. unfold pad33. split_and!.
  - by rewrite value58_zeros.
  - apply Forall_app; split; [|done]. apply Forall_replicate. unfold digit. lia.
  - rewrite length_app, length_replicate. specialize (Hk 33). change (Z.of_nat 33) with 33%Z in Hk. lia.
Qed.

Lemma accept_spec raw : String.length raw = 25 →
  accept raw = if (be_value raw <? 58 ^ 33)%Z then Some (token_text (token_digits raw)) else None.
Proof.
  intros Hl. destruct (token_digits_spec raw Hl) as (_ & _ & H). unfold accept.
  destruct (Nat.eqb_spec (length (token_digits raw)) 33) as [E|E]; destruct (Z.ltb_spec (be_value raw) (58 ^ 33)); done || lia.
Qed.

(** * The text *)

Lemma base58_char_inj d d' : digit d → digit d' → base58_char d = base58_char d' → d = d'.
Proof.
  assert (Forall (λ d, Forall (λ d', base58_char d = base58_char d' → d = d') (seqZ 0 58)) (seqZ 0 58)) as H.
  { apply Forall_forall. intros x Hx. apply Forall_forall. intros y Hy.
    cut (forallb (λ x, forallb (λ y, negb (Ascii.eqb (base58_char x) (base58_char y)) || (x =? y)%Z) (seqZ 0 58)) (seqZ 0 58) = true).
    { intros Hb. rewrite forallb_forall in Hb. specialize (Hb x (proj1 (list_elem_of_In _ _) Hx)).
      rewrite forallb_forall in Hb. specialize (Hb y (proj1 (list_elem_of_In _ _) Hy)).
      intros E. rewrite E, Ascii.eqb_refl in Hb. cbn in Hb. by apply Z.eqb_eq. }
    vm_compute. reflexivity. }
  intros Hd Hd' E. unfold digit in *. rewrite Forall_forall in H.
  assert (d ∈ seqZ 0 58) as Hi by (apply elem_of_seqZ; lia). specialize (H d Hi). rewrite Forall_forall in H.
  apply H; [|done]. apply elem_of_seqZ; lia.
Qed.

Lemma token_text_inj ds ds' : Forall digit ds → Forall digit ds' → token_text ds = token_text ds' → ds = ds'.
Proof.
  intros H H' E. unfold token_text in E. apply str_app_inj_l in E.
  assert (map base58_char ds = map base58_char ds') as Em.
  { rewrite <- (String.list_ascii_of_string_of_list_ascii (map base58_char ds)), E.
    apply String.list_ascii_of_string_of_list_ascii. }
  clear E. revert ds' H' Em. induction H as [|d ds Hd Hds IH]; intros [|d' ds'] H' Em; try done.
  cbn in Em. injection Em as Ed Em. inversion H'; subst. f_equal; [by apply base58_char_inj|by apply IH].
Qed.

(** ** The loop *)

Lemma generate_first fuel raw i k : k < fuel → (∀ j, j < k → accept (raw (i + j)) = None) →
  accept (raw (i + k)) ≠ None →
  generatePreAuthToken fuel raw i = (λ t, (t, S (i + k))) <$> accept (raw (i + k)).
Proof.
  revert i k. induction fuel as [|fuel IH]; intros i k Hk Hb Ha; [lia|]. cbn.
  destruct k as [|k].
  - rewrite Nat.add_0_r in *. by destruct (accept (raw i)).
  - pose proof (Hb 0 ltac:(lia)) as H0. rewrite Nat.add_0_r in H0. rewrite H0.
    replace (i + S k) with (S i + k) in * by lia. apply IH; [lia| |done].
    intros j Hj. replace (S i + j) with (i + S j) by lia. apply Hb. lia.
Qed.

(** ** Consumption *)

(** A token has one row, and a row once consumed stays. *)
Definition tokens_unique (s : Store) : Prop := NoDup (map tk_token (pre_authorization_tokens s)).

Definition consumed (t : string) (s : Store) : Prop :=
  ∃ r, r ∈ pre_authorization_tokens s ∧ tk_token r = t ∧ tk_consumed_at r ≠ None.

Lemma effect_tokens c s :
  pre_authorization_tokens (effect s c) = pre_authorization_tokens s ∨
  (∃ r, (∀ r', r' ∈ pre_authorization_tokens s → tk_token r' ≠ tk_token r) ∧
     pre_authorization_tokens (effect s c) = pre_authorization_tokens s ++ [r]) ∨
  (∃ f, (∀ r, tk_token (f r) = tk_token r ∧ (tk_consumed_at r ≠ None → tk_consumed_at (f r) ≠ None)) ∧
     pre_authorization_tokens (effect s c) = map f (pre_authorization_tokens s)).
Proof.
  destruct c as [B now q]. destruct q; cbn; unfold insert_absent;
    try (by left); try (repeat case_match; by left).
  - destruct (existsb _ _) eqn:E; [by left|]. right; left. exists r. split; [|done]. intros r' Hr' Et.
    apply not_true_iff_false in E. apply E, existsb_exists. exists r'.
    split; [by apply list_elem_of_In|]. by apply bool_decide_eq_true_2.
  - right; right. eexists. split; [|reflexivity]. intros r. cbn. case_match; done.
Qed.

Lemma tokens_unique_after l : tokens_unique (after l empty_store).
Proof.
  apply (after_preserves tokens_unique); [|constructor]. intros s c H. unfold tokens_unique in *.
  destruct (effect_tokens c s) as [->|[(r & Hr & ->)|(f & Hf & ->)]]; [done| |].
  - rewrite map_app. apply NoDup_app. split_and!; [done| |apply NoDup_singleton].
    intros x (r' & -> & Hx)%list_elem_of_fmap Ex%list_elem_of_singleton. by apply (Hr r').
  - rewrite map_map. erewrite map_ext; [exact H|]. intros r. apply Hf.
Qed.

Lemma consumed_after t l s : consumed t s → consumed t (after l s).
Proof.
  apply (after_preserves (consumed t)). clear. intros s c (r & Hr & Ht & Hc). unfold consumed.
  destruct (effect_tokens c s) as [->|[(r' & _ & ->)|(f & Hf & ->)]].
  - by exists r.
  - exists r. rewrite elem_of_app. auto.
  - exists (f r). split_and!; [by apply list_elem_of_fmap_2|by rewrite (proj1 (Hf r))|by apply Hf].
Qed.

(** The one row of a token. *)
Lemma token_row_unique s r r' : tokens_unique s → r ∈ pre_authorization_tokens s →
  r' ∈ pre_authorization_tokens s → tk_token r = tk_token r' → r = r'.
Proof.
  unfold tokens_unique. generalize (pre_authorization_tokens s). intros l Hd Hr Hr' E.
  apply list_elem_of_lookup in Hr as [i Hi]. apply list_elem_of_lookup in Hr' as [j Hj].
  assert (i = j) as ->; [|congruence].
  eapply NoDup_lookup; [exact Hd|rewrite list_lookup_fmap, Hi; done|rewrite list_lookup_fmap, Hj]. by rewrite E.
Qed.

Lemma find_token (p : PreAuthRow → bool) s r : tokens_unique s → r ∈ pre_authorization_tokens s →
  (∀ r', p r' = true → tk_token r' = tk_token r) →
  List.find p (pre_authorization_tokens s) = if p r then Some r else None.
Proof.
  intros Hd Hr Hp. destruct (List.find p _) as [r'|] eqn:E.
  - apply find_some in E as [Hi Hb]. apply list_elem_of_In in Hi.
    rewrite (token_row_unique s r' r) in * by auto. by rewrite Hb.
  - destruct (p r) eqn:Eb; [|done]. eapply find_none in E; [|by apply list_elem_of_In]. congruence.
Qed.

(** What a consumed token answers, whatever the clock says. *)
Lemma consumed_answers now t s : tokens_unique s → consumed t s →
  exec now (UpdateConsumed t) s = (s, Some None) ∧
  ∃ r, exec now (SelectToken t) s = (s, Some (Some r)) ∧ tk_consumed_at r ≠ None.
Proof.
  intros Hu (r & Hr & Ht & Hc). split.
  - cbn. set (open := open_token now t).
    assert (∀ r', r' ∈ pre_authorization_tokens s → open r' = false) as Hn.
    { intros r' Hr'. unfold open, open_token. destruct (bool_decide _) eqn:E; [|done]. bools. destruct E as [Et Ec].
      assert (r' = r) as -> by (apply (token_row_unique s); auto; congruence). done. }
    destruct (List.find open _) as [r'|] eqn:E.
    { apply find_some in E as [Hi Ho]. apply list_elem_of_In in Hi. rewrite Hn in Ho; done. }
    cbn. f_equal. erewrite map_ext_in, map_id; [by destruct s|].
    intros r' Hr'. cbn. apply list_elem_of_In, Hn in Hr'. by rewrite Hr'.
  - exists r. split; [|done]. cbn.
    rewrite (find_token _ s r); [by rewrite bool_decide_eq_true_2|done..|].
    intros r' Hb. bools. congruence.
Qed.

(** * What makes tokens correct *)

(** The space of tokens is 58 to the 33: of 25 random bytes exactly the values below it are
    accepted, distinct bytes give distinct tokens, so that a token carries more than 193 bits
    but not 194, and fewer than one draw in 103 is accepted. *)
Theorem token_space :
  (∀ raw, String.length raw = 25 → accept raw ≠ None ↔ (be_value raw < 58 ^ 33)%Z) ∧
  (∀ raw raw' t, String.length raw = 25 → String.length raw' = 25 →
     accept raw = Some t → accept raw' = Some t → raw = raw') ∧
  (2 ^ 193 < 58 ^ 33 < 2 ^ 194)%Z ∧ (103 * 58 ^ 33 < 256 ^ 25)%Z.
Proof.
  split_and!; [| |done..].
  - intros raw Hl. rewrite accept_spec by done. destruct (Z.ltb_spec (be_value raw) (58 ^ 33)); naive_solver lia.
  - intros raw raw' t Hl Hl'. rewrite !accept_spec by done.
    destruct (token_digits_spec raw Hl) as (Hv & Hd & _). destruct (token_digits_spec raw' Hl') as (Hv' & Hd' & _).
    destruct (_ <? _)%Z; [|done]. destruct (_ <? _)%Z; [|done]. intros E E'.
    assert (token_text (token_digits raw) = token_text (token_digits raw')) as Et by congruence.
    apply token_text_inj in Et; [|done..]. apply be_value_inj; [congruence|]. by rewrite <- Hv, <- Hv', Et.
Qed.

(** C20. A pre-authorization is used once: where, after any statements, a token was consumed,
    it was one that had not expired, and after any further statements and at any clock it is
    not consumed again, and the check before a key generation refuses it as consumed. *)
Theorem token_is_consumed_once l now t r l' now' :
  let s := after l empty_store in
  (exec now (UpdateConsumed t) s).2 = Some (Some r) →
  let s' := after l' (exec now (UpdateConsumed t) s).1 in
  (tk_token r = t ∧ (now < tk_expires_at r)%Z) ∧
  (exec now' (UpdateConsumed t) s').2 = Some None ∧
  run_prog now' (validatePreAuthTokenForDkg (Some t)) s' =
    (s', Ok (Err (if bool_decide (t = EmptyString) then PRE_AUTH_TOKEN_MISSING else PRE_AUTH_TOKEN_CONSUMED))).
Proof.
  cbn zeta. set (s := after l empty_store). set (s' := after l' _). intros E.
  pose proof (tokens_unique_after l) as Hu. fold s in Hu.
  cbn in E. injection E as E. apply fmap_Some in E as (r0 & Hf & ->).
  apply find_some in Hf as [Hr Hb]. unfold open_token in Hb. apply andb_true_iff in Hb as [Hb Hlt]. bools. destruct Hb as [Ht Hc].
  assert (consumed t s') as (r1 & Hr1 & Ht1 & Hc1).
  { apply consumed_after. eexists. split; [|split].
    - cbn. apply list_elem_of_fmap_2. apply list_elem_of_In, Hr.
    - cbn. unfold open_token. rewrite bool_decide_eq_true_2, (proj2 (Z.ltb_lt _ _)) by done. done.
    - cbn. unfold open_token. rewrite bool_decide_eq_true_2, (proj2 (Z.ltb_lt _ _)) by done. done. }
  assert (tokens_unique s') as Hu'.
  { pose proof (tokens_unique_after (l ++ Statement now (UpdateConsumed t) :: l')) as H.
    by rewrite after_app in H. }
  assert (consumed t s') as Hcs by (exists r1; auto).
  destruct (consumed_answers now' t s' Hu' Hcs) as (Eu & r2 & Es & Hc2).
  split_and!; [done|done|by rewrite Eu|].
  unfold validatePreAuthTokenForDkg. destruct (decide (t = EmptyString)) as [->|Hne]; [done|].
  rewrite bool_decide_eq_false_2 by done. replace (truthy (Some t)) with (Some t) by (by destruct t).
  unfold consumePreAuthToken, query. cbn [mbind prog_bind run_prog]. rewrite Eu. cbn [mbind prog_bind run_prog].
  rewrite Es. cbn. by rewrite bool_decide_eq_false_2.
Qed.

Lemma token_is_consumed_once_witness :
  let r := mkToken "id" "t" "p" "e" "reg" 0 10 (Some 0%Z) "h" in
  let s := after [Statement 0 (InsertToken (mkToken "id" "t" "p" "e" "reg" 0 10 None "h"))] empty_store in
  let s' := (exec 0 (UpdateConsumed "t") s).1 in
  (tk_token r = "t" ∧ (0 < tk_expires_at r)%Z) ∧ (exec 5 (UpdateConsumed "t") s').2 = Some None ∧
  run_prog 5 (validatePreAuthTokenForDkg (Some "t")) s' = (s', Ok (Err PRE_AUTH_TOKEN_CONSUMED)).
Proof. cbn zeta. by apply (token_is_consumed_once _ 0 "t" _ [] 5). Defined.

End PreAuthTokens.
