(* ===== verification/InternalApi.v ===== *)
(** The directory's internal API (packages/directory/src/internal-api-server.ts), with the
    write seam behind it (agent-write-validation.ts, agent-write-repository.ts,
    account-lookup.ts, agent-presence-repository.ts, submission-queue-repository.ts,
    submission-results-repository.ts): each route as a program of statements, and a node
    that serves requests whose statements interleave.

    Bodies are JSON or CBOR; [JSON.parse], [Number(v)] of what is not a number, and the
    decoding of base64 are parameters of the environment.  An answer is a status and a
    decoded JSON value.  Left out: log lines, headers of answers, details of refusals.
    Of what anti-entropy applies, only the records and revocations of signals are inputs. *)
From Stdlib Require Import Ascii.
From S2P Require Import Prelude Text Effects Wire ApiStore TrustSignals PreAuthTokens.
Import Text Wire ApiStore TrustSignals PreAuthTokens.

Module InternalApi.

(** * Data *)

Record Env : Type := mkEnv {
  lib : Lib;
  internalApiKey : string;
  owningNodeId : string;
  issuerKey : bool;                    (* an issuer's key provider is wired *)
  capability_of : string → string → string → string → string → option string;
  JSON_parse : bytes → option jsval;
  number_of : jsval → jsnum;
  from_base64 : string → bytes;
  sha256_hex : string → string;
  toISOString : Z → string;
  draws : nat → Draws;                 (* by request *)
}.

Record Request : Type := mkRequest {
  method : string;
  url : string;
  key_header : option string;
  signer_header : option string;
  signature_header : option string;
  chunks : list bytes;
  aborted : bool;                      (* the stream of the body ended in an error *)
}.

Definition MAX_BODY_BYTES : N := 256 * 1024.

(** The chunks joined; [None] once they exceed the cap, or the stream errors. *)
Fixpoint read_chunks (total : N) (l : list bytes) : option bytes :=
  match l with
  | [] => Some EmptyString
  | c :: l =>
      let total := (total + N.of_nat (String.length c))%N in
      if (MAX_BODY_BYTES <? total)%N then None
      else r ← read_chunks total l; Some (c +:+ r)
  end.

Definition readBody (r : Request) : option bytes :=
  b ← read_chunks 0 (chunks r); if aborted r then None else Some b.

(** An answer, or an exception that nothing catches: it ends the process. *)
Inductive outcome : Type := Answer (code : Z) (body : jsval) | Uncaught.

Definition refuse (code : Z) (error : string) : outcome := Answer code (VObj [("error", VStr error)]).

Definition opt_str (o : option string) : jsval := match o with Some s => VStr s | None => VNull end.

Definition num (z : Z) : jsval := VNum (JInt z).

(** [v[k]], which throws on null. *)
Definition member (k : string) (v : jsval) : option jsval :=
  match v with VUndef | VNull => None | VObj fs => Some (field k fs) | _ => Some VUndef end.

(** A string that is not empty, as [if (!s)] has it. *)
Definition text_of (v : jsval) : option string := truthy (as_string v).

Definition reason_text (r : SubmitRejection) : string :=
  match r with
  | malformed_request => "malformed_request" | unknown_issuer => "unknown_issuer"
  | issuer_revoked => "issuer_revoked" | issuer_wrong_role => "issuer_wrong_role"
  | signature_invalid => "signature_invalid"
  | revoker_authorization_invalid => "revoker_authorization_invalid"
  | stale_request => "stale_request" | envelope_undecodable => "envelope_undecodable"
  | envelope_invalid => "envelope_invalid" | envelope_hash_mismatch => "envelope_hash_mismatch"
  | invalid_delivery => "invalid_delivery" | signal_not_notarized => "signal_not_notarized"
  end.

(** [try { p } catch { 500 }] *)
Definition or_500 (error : string) (p : prog outcome) : prog outcome :=
  catch p (λ _, mret (refuse 500 error)).

(** The catch of the signed routes. *)
Definition or_rejected (error : string) (p : prog outcome) : prog outcome :=
  catch p (λ e, mret match e with
                     | SubmitRejected r => refuse 422 (reason_text r)
                     | OtherError => refuse 500 error
                     end).

(** * The write seam *)

Inductive RevocationMode : Type := pause | clear | burn.

#[global] Instance RevocationMode_eq_dec : EqDecision RevocationMode.
Proof. solve_decision. Defined.

Definition mode_of (v : jsval) : option RevocationMode :=
  match v with
  | VStr s => if bool_decide (s = "pause") then Some pause
              else if bool_decide (s = "clear") then Some clear
              else if bool_decide (s = "burn") then Some burn else None
  | _ => None
  end.

(** The mode of a valid write, or the reason; the only kind is [revocation_flag]. *)
Definition validateWritePayload (writeKind : string) (payload : jsval) : result string RevocationMode :=
  if negb (bool_decide (writeKind = "revocation_flag")) then Err "unsupported_kind"
  else match payload with
       | VObj [(k, v)] =>
           if bool_decide (k = "mode") then
             match mode_of v with Some m => Ok m | None => Err "invalid_payload" end
           else Err "invalid_payload"
       | VObj _ => Err "invalid_payload"
       | _ => Err "not_object"
       end.

Definition isAgentOwnedByAccount (agentId accountId : string) : prog bool := query (SelectOwned agentId accountId).

(** [false]: burned, and so not cleared. *)
Definition applyRevocationFlag (agentId : string) (mode : RevocationMode) (accountId originNode : string) : prog bool :=
  match mode with
  | clear =>
      n ← query (UpdateCleared agentId originNode);
      if n =? 0 then
        existing ← query (SelectBurned agentId);
        mret (negb (bool_decide (existing = Some true)))
      else mret true
  | pause => _ ← query (UpsertSuspension agentId false accountId originNode); mret true
  | burn => _ ← query (UpsertSuspension agentId true accountId originNode); mret true
  end.

Definition getAccountByEmailStub (emailStubHash : string) : prog (option string) :=
  query (SelectAccountByEmailStub emailStubHash).

Definition listAccountAgentsWithPresence (accountId : string)
    : prog (list (string * (option string * bool * option Z * bool * bool))) := query (SelectAgents accountId).

(** * The queue of sealed submissions and their results *)

Definition enqueueSubmission (q : QueuedSubmission) : prog bool := n ← query (InsertSubmission q); mret (0 <? n).

Definition drainSubmissions (limit : nat) : prog (list QueuedSubmission) := query (SelectSubmissions limit).

Definition deleteSubmission (submissionId : string) : prog bool := n ← query (DeleteSubmission submissionId); mret (0 <? n).

(** How many were swept. *)
Definition sweepStaleSubmissions (ttlHours : jsnum) : prog nat :=
  match ttlHours with
  | JInt h => if (h <? 1)%Z then Throws OtherError else query (DeleteStaleSubmissions (h * 3600000))
  | _ => Throws OtherError
  end.

Definition recordSubmissionResult (r : SubmissionResult) : prog bool :=
  n ← query (InsertResult (mkResult (rs_submission r) (rs_node r) (to_lower (rs_issuer r)) (rs_outcome r)
                             (rs_reason r) (rs_signal_hash r) (rs_ciphertext r) (rs_created_at r)));
  mret (0 <? n).

Definition listSubmissionResults (issuerPubkey : string) (limit : Z) : prog (list SubmissionResult) :=
  query (SelectResults (to_lower issuerPubkey) (Z.to_nat (Z.max 1 (Z.min limit 200)))).

Definition ackSubmissionResults (issuerPubkey : string) (submissionIds : list string) : prog nat :=
  if is_nil submissionIds then mret 0 else query (DeleteResults (to_lower issuerPubkey) submissionIds).

(** * Routes *)

Definition DEFAULT_DRAIN_LIMIT : Z := 100.
Definition MAX_DRAIN_LIMIT : Z := 500.

Section Routes.
Context (env : Env).

(** The two spellings of the check of the shared key. *)
Definition keyed (r : Request) : bool :=
  match truthy (key_header r) with Some k => bool_decide (k = internalApiKey env) | None => false end.

Definition keyed_strict (r : Request) : bool :=
  negb (bool_decide (internalApiKey env = EmptyString)) && bool_decide (key_header r = Some (internalApiKey env)).

Definition unauthorized : outcome := refuse 401 "unauthorized".

(** The JSON body of the routes that answer 400 to what cannot be read or parsed. *)
Definition with_json (r : Request) (k : jsval → prog outcome) : prog outcome :=
  match readBody r with
  | None => mret (refuse 400 "could not read request body")
  | Some b =>
      match JSON_parse env b with
      | None => mret (refuse 400 "invalid JSON body")
      | Some v => k v
      end
  end.

(** The value that is read inside the [try] that answers [malformed_request]. *)
Definition well_formed {A} (o : option A) (k : A → prog outcome) : prog outcome :=
  match o with Some a => k a | None => mret (refuse 400 "malformed_request") end.

Definition json_body (r : Request) : option jsval := readBody r ≫= JSON_parse env.

Definition missing (fields : string) : outcome := refuse 400 ("missing required " +:+ fields).

Definition pre_authorize (id : nat) (r : Request) : prog outcome :=
  if negb (keyed r) then mret unauthorized
  else with_json r (λ p,
    match member "phoneStubHash" p with
    | None => mret Uncaught
    | Some phone =>
        match text_of phone, text_of (prop "emailStubHash" p), text_of (prop "registrationId" p) with
        | Some phoneStub, Some emailStub, Some registration =>
            let params := mkParams phoneStub emailStub registration in
            if issuerKey env then
              or_500 "capability issuance failed"
                (c ← issuePreAuthCapability (sha256_hex env) (toISOString env) (capability_of env) (draws env id) params;
                 let '(capability, claimCode, _, _, expiresAt) := (c : string * string * string * string * Z) in
                 mret (Answer 200 (VObj [("token", VStr capability); ("claim_code", VStr claimCode);
                                         ("expiresAt", VStr (toISOString env expiresAt))])))
            else
              or_500 "token issuance failed"
                (t ← issuePreAuthToken (sha256_hex env) (toISOString env) (draws env id) params;
                 let '(token, _, expiresAt) := (t : string * string * Z) in
                 mret (Answer 200 (VObj [("token", VStr token); ("expiresAt", VStr (toISOString env expiresAt))])))
        | _, _, _ => mret (missing "fields: phoneStubHash, emailStubHash, registrationId")
        end
    end).

Definition account_by_email_stub (r : Request) : prog outcome :=
  if negb (keyed r) then mret unauthorized
  else with_json r (λ p,
    match member "emailStubHash" p with
    | None => mret Uncaught
    | Some v =>
        match text_of v with
        | None => mret (missing "field: emailStubHash")
        | Some stub =>
            or_500 "account lookup failed"
              (o ← getAccountByEmailStub stub;
               mret match truthy o with
                    | None => refuse 404 "not found"
                    | Some a => Answer 200 (VObj [("account_id", VStr a)])
                    end)
        end
    end).

Definition agent_json (a : string * (option string * bool * option Z * bool * bool)) : jsval :=
  let '(k, (agentId, online, seen, paused, burned)) := a in
  VObj [("k_local_pubkey", VStr k); ("agent_id", opt_str agentId); ("online", VBool online);
        ("last_seen_at", opt_str (toISOString env <$> seen)); ("paused", VBool paused); ("burned", VBool burned)].

Definition agents_by_account (r : Request) : prog outcome :=
  if negb (keyed r) then mret unauthorized
  else with_json r (λ p,
    match member "accountId" p with
    | None => mret Uncaught
    | Some v =>
        match text_of v with
        | None => mret (missing "field: accountId")
        | Some a =>
            or_500 "agents lookup failed"
              (l ← listAccountAgentsWithPresence a;
               mret (Answer 200 (VObj [("agents", VArr (map agent_json l))])))
        end
    end).

Definition refuse_write (code : Z) (error reason : string) : outcome :=
  Answer code (VObj [("error", VStr error); ("reason", VStr reason)]).

Definition agent_write (r : Request) : prog outcome :=
  if negb (keyed r) then mret unauthorized
  else with_json r (λ p,
    match member "accountId" p with
    | None => mret Uncaught
    | Some account =>
        match text_of account, text_of (prop "agentId" p), as_string (prop "writeKind" p) with
        | Some accountId, Some agentId, Some writeKind =>
            match validateWritePayload writeKind (prop "payload" p) with
            | Err reason => mret (refuse_write 422 "invalid write" reason)
            | Ok mode =>
                or_500 "write failed"
                  (owned ← isAgentOwnedByAccount agentId accountId;
                   if negb owned then mret (refuse_write 403 "forbidden" "not_owner")
                   else
                     applied ← applyRevocationFlag agentId mode accountId (owningNodeId env);
                     mret (if (applied : bool)
                           then Answer 200 (VObj [("ok", VBool true); ("writeKind", VStr writeKind)])
                           else refuse_write 409 "burned" "burned_immutable"))
            end
        | _, _, _ => mret (missing "fields: accountId, agentId, writeKind")
        end
    end).

(** ** The signed routes *)

Definition header (o : option string) : string := default EmptyString o.

Definition with_body (r : Request) (k : bytes → prog outcome) : prog outcome :=
  match readBody r with
  | None => mret (refuse 400 "could not read request body")
  | Some b => k b
  end.

Definition signal_submit (r : Request) (nowSec : Z) : prog outcome :=
  with_body r (λ b, or_rejected "submission failed"
    (x ← submitSignal (lib env) (owningNodeId env) b (header (signer_header r)) (header (signature_header r)) nowSec;
     let (h, inserted) := (x : string * bool) in
     mret (Answer 200 (VObj [("ok", VBool true); ("signal_hash", VStr h); ("inserted", VBool inserted)])))).

Definition signal_revoke (r : Request) (nowSec : Z) : prog outcome :=
  with_body r (λ b, or_rejected "revocation failed"
    (x ← revokeSignal (lib env) (owningNodeId env) b (header (signer_header r)) (header (signature_header r)) nowSec;
     let (h, n) := (x : string * nat) in
     mret (Answer 200 (VObj [("ok", VBool true); ("signal_hash", VStr h); ("revoked_rows", num (Z.of_nat n))])))).

Definition signal_deliver (r : Request) (nowSec : Z) : prog outcome :=
  with_body r (λ b, or_rejected "delivery failed"
    (n ← deliverSignal (lib env) (owningNodeId env) b (header (signer_header r)) (header (signature_header r)) nowSec;
     mret (Answer 200 (VObj [("ok", VBool true); ("delivered", num (Z.of_nat (n : nat)))])))).

Definition registry_publish (r : Request) (nowSec : Z) : prog outcome :=
  with_body r (λ b, or_rejected "registry publish failed"
    (x ← publishRegistry (lib env) b (header (signer_header r)) (header (signature_header r)) nowSec;
     let (v, stored) := (x : Z * bool) in
     mret (Answer 200 (VObj [("ok", VBool true); ("version", num v); ("stored", VBool stored)])))).

Definition registry_get : prog outcome :=
  or_500 "registry unavailable"
    (d ← getRegistryDocument;
     mret match d with
          | None => refuse 404 "no_registry_published"
          | Some (_, document) => Answer 200 (VBytes document)
          end).

Definition fact_json (stub : option string) : jsval :=
  VObj [("verified", VBool (bool_decide (stub ≠ None))); ("stub", opt_str stub)].

Definition signal_query (r : Request) (nowSec : Z) : prog outcome :=
  with_body r (λ b, or_rejected "query failed"
    (o ← queryAccountFacts (lib env) b (header (signer_header r)) (header (signature_header r)) nowSec;
     mret (Answer 200 match (o : option AccountFacts) with
                      | None => VObj [("found", VBool false)]
                      | Some f => VObj [("found", VBool true);
                          ("facts", VObj [("phone", fact_json (phone_stub f)); ("email", fact_json (email_stub f))])]
                      end))).

(** ** Reads for the portal *)

(** A field of the body that is 64 hexadecimal characters in either case, in lower case. *)
Definition hex64_field (k : string) (r : Request) : option string :=
  v ← json_body r; f ← member k v; filtered is_hex64 (Some (to_lower (default EmptyString (as_string f)))).

(** The statement names the column that V55 dropped, so it fails. *)
Definition signal_by_hash (r : Request) : prog outcome :=
  if negb (keyed_strict r) then mret unauthorized
  else well_formed (hex64_field "signal_hash" r) (λ h,
    or_500 "lookup failed"
      (row ← query (SelectSubject h); match (row : Empty_set) return prog outcome with end)).

Definition agent_by_pubkey (r : Request) : prog outcome :=
  if negb (keyed_strict r) then mret unauthorized
  else well_formed (hex64_field "k_local_pubkey" r) (λ k,
    or_500 "resolve failed"
      (row ← query (SelectAgentByPubkey k);
       mret (Answer 200 (VObj match row with
         | Some (Some a, account, phone) =>
             if bool_decide (a = EmptyString)
             then [("found", VBool false); ("agent_id", VNull); ("account_id", VNull); ("phone_stub_hash", VNull)]
             else [("found", VBool true); ("agent_id", VStr a); ("account_id", opt_str account);
                   ("phone_stub_hash", opt_str phone)]
         | _ => [("found", VBool false); ("agent_id", VNull); ("account_id", VNull); ("phone_stub_hash", VNull)]
         end)))).

Definition js_number (v : jsval) : jsnum := match v with VNum n => n | _ => number_of env v end.

(** [Math.min(Math.floor(n), MAX_DRAIN_LIMIT)] of a finite [n >= 1]. *)
Definition clamp (n : jsnum) : option Z :=
  match n with
  | JInt z | JFrac z => if (z <? 1)%Z then None else Some (Z.min z MAX_DRAIN_LIMIT)
  | _ => None
  end.

Definition drain_limit (r : Request) : option Z :=
  b ← readBody r;
  if bool_decide (b = EmptyString) then Some DEFAULT_DRAIN_LIMIT
  else v ← JSON_parse env b; l ← member "limit" v;
       if is_undefined l then Some DEFAULT_DRAIN_LIMIT else clamp (js_number l).

Definition submission_json (q : QueuedSubmission) : jsval :=
  VObj [("submission_id", VStr (submissionId q)); ("intake_key_id", VStr (intakeKeyId q));
        ("ciphertext", VStr (hex (ciphertext q)))].

Definition submissions_drain (r : Request) : prog outcome :=
  if negb (keyed_strict r) then mret unauthorized
  else well_formed (drain_limit r) (λ limit,
    or_500 "drain failed"
      (l ← drainSubmissions (Z.to_nat limit);
       mret (Answer 200 (VObj [("limit", num limit); ("submissions", VArr (map submission_json l))])))).

Definition result_of (r : Request) : option SubmissionResult :=
  p ← json_body r;
  i ← member "submission_id" p;
  submission ← text_of i;
  issuer ← filtered is_hex64 (to_lower <$> as_string (prop "issuer_pubkey" p));
  outcome ← text_of (prop "outcome" p);
  Some (mkResult submission (owningNodeId env) issuer outcome (as_string (prop "reason" p))
          (as_string (prop "signal_hash" p)) (from_base64 env <$> as_string (prop "ciphertext" p)) 0).

Definition submissions_result (r : Request) : prog outcome :=
  if negb (keyed_strict r) then mret unauthorized
  else well_formed (result_of r) (λ x,
    or_500 "record failed"
      (inserted ← recordSubmissionResult x;
       mret (Answer 200 (VObj [("ok", VBool true); ("inserted", VBool inserted)])))).

Definition submissions_ack (r : Request) : prog outcome :=
  if negb (keyed_strict r) then mret unauthorized
  else well_formed (v ← json_body r; i ← member "submission_id" v; text_of i) (λ i,
    or_500 "ack failed"
      (removed ← deleteSubmission i; mret (Answer 200 (VObj [("removed", VBool removed)])))).

Fixpoint hashes_of (l : list jsval) : option (list string) :=
  match l with
  | [] => Some []
  | v :: l => h ← filtered is_hex64 (as_string v); r ← hashes_of l; Some (h :: r)
  end.

Definition active_among (r : Request) : prog outcome :=
  if negb (keyed_strict r) then mret unauthorized
  else with_body r (λ b,
    well_formed (v ← JSON_parse env b; f ← member "hashes" v;
                 match f with VArr l => hashes_of l | _ => None end) (λ hashes,
      if is_nil hashes then mret (Answer 200 (VObj [("active", VArr [])]))
      else
        or_500 "query failed"
          (l ← query (SelectActive hashes); mret (Answer 200 (VObj [("active", VArr (map VStr l))]))))).

(** [cleanCloseCount / sessionCount] is left as the pair. *)
Definition track_record (r : Request) (agentPubkeyHex : string) : prog outcome :=
  if negb (keyed r) then mret unauthorized
  else if negb ((String.length agentPubkeyHex =? 64) && all_chars hex_digit_i agentPubkeyHex)
  then mret (refuse 400 "invalid agent pubkey")
  else
    or_500 "track record query failed"
      (x ← query (SelectTrackRecord (to_lower agentPubkeyHex));
       let '(sessions, clean, last) := (x : nat * nat * option Z) in
       mret (Answer 200 (VObj [("session_count", num (Z.of_nat sessions)); ("clean_close_count", num (Z.of_nat clean));
         ("clean_close_rate", if sessions =? 0 then VNull else VArr [num (Z.of_nat clean); num (Z.of_nat sessions)]);
         ("last_sealed_at", from_option num VNull last)]))).

(** ** The dispatch *)

(** The request [id], at [now] milliseconds. *)
Definition serve (id : nat) (now : Z) (r : Request) : prog outcome :=
  let post u := bool_decide (method r = "POST" ∧ url r = u) in
  let nowSec := (now / 1000)%Z in
  if post "/internal/pre-authorize" then pre_authorize id r
  else if post "/internal/account-by-email-stub" then account_by_email_stub r
  else if post "/internal/agents-by-account" then agents_by_account r
  else if post "/internal/agent-write" then agent_write r
  else if post "/internal/signal/submit" then signal_submit r nowSec
  else if post "/internal/signal/revoke" then signal_revoke r nowSec
  else if post "/internal/signal/deliver" then signal_deliver r nowSec
  else if post "/internal/signal/registry-publish" then registry_publish r nowSec
  else if bool_decide (method r = "GET" ∧ url r = "/registry") then registry_get
  else if post "/internal/signal/query" then signal_query r nowSec
  else if post "/internal/signal-by-hash" then signal_by_hash r
  else if post "/internal/agent-by-pubkey" then agent_by_pubkey r
  else if post "/internal/submissions/drain" then submissions_drain r
  else if post "/internal/submissions/result" then submissions_result r
  else if post "/internal/submissions/ack" then submissions_ack r
  else if post "/internal/signals/active-among" then active_among r
  else
    match strip_prefix "/internal/track-record/" (url r) with
    | Some k => if bool_decide (method r = "GET") then track_record r k else mret (refuse 404 "not found")
    | None => mret (refuse 404 "not found")
    end.

End Routes.

(** * A node that serves requests *)

(** What was read of the issuers, and the rows that were written. *)
Inductive event : Type :=
| IssuerRead (pubkey : string) (answer : option (string * string))
| RecordWritten (r : SignalRecord)
| RevocationWritten (v : SignalRevocation)
| PickupWritten (p : Pickup) | NotarizedRead (hash : string) (answer : bool)
| RegistryWritten (version : Z) (document : bytes)
| OwnedRead (agent_id account : string) (answer : bool)
| SuspensionWritten (agent_id account : string)
| OtherStatement.

(** The statement [q] was answered [a]. *)
Definition event_of {B} (q : sql B) (a : B) : event :=
  match q in sql B return B → event with
  | SelectIssuer k => λ a, IssuerRead k a
  | InsertSignalRecord r => λ _, RecordWritten r
  | InsertRevocation v => λ _, RevocationWritten v
  | UpsertPickup p => λ _, PickupWritten p
  | SelectNotarized h => λ a, NotarizedRead h a
  | UpsertRegistry v d => λ _, RegistryWritten v d
  | SelectOwned g acc => λ a, OwnedRead g acc a
  | UpdateCleared g _ => λ _, SuspensionWritten g EmptyString
  | UpsertSuspension g _ acc _ => λ _, SuspensionWritten g acc
  | _ => λ _, OtherStatement
  end a.

Record Node : Type := mkNode {
  store : Store;
  arrivals : nat;
  in_flight : gmap nat (prog outcome);
  answered : list (nat * outcome);
  journal : list (nat * event);          (* newest last *)
  running : bool;
}.

Definition boot (s : Store) : Node := mkNode s 0 ∅ [] [] true.

(** A request whose program has ended is answered; an exception ends the process. *)
Definition settle (id : nat) (p : prog outcome) (n : Node) : Node :=
  match p with
  | Done Uncaught | Throws _ =>
      mkNode (store n) (arrivals n) ∅ (answered n) (journal n) false
  | Done o => mkNode (store n) (arrivals n) (delete id (in_flight n)) (answered n ++ [(id, o)]) (journal n) (running n)
  | Query _ _ => mkNode (store n) (arrivals n) (<[id := p]> (in_flight n)) (answered n) (journal n) (running n)
  end.

(** What may happen: a request comes; the next statement of one is carried out, fails,
    or fails after it took effect; a peer's rows are applied by anti-entropy, a tombstone
    never among them; an operator edits the issuers; the process starts again. *)
Inductive input : Type :=
| Arrives (r : Request) (now : Z)
| Proceeds (id : nat) (f : Effects.fate) (now : Z)
| AppliesRecord (r : SignalRecord)
| AppliesRevocation (v : SignalRevocation)
| EditsIssuer (pubkey role status : string)
| Restarts.

Section Node.
Context (env : Env).

Definition proceed (id : nat) (f : Effects.fate) (now : Z) (n : Node) : Node :=
  match in_flight n !! id with
  | Some (Query q k) =>
      match f with
      | Effects.FailsBefore => settle id (k None) n
      | Effects.FailsAfter =>
          let (s, o) := exec now q (store n) in
          let j := match o with Some a => [(id, event_of q a)] | None => [] end in
          settle id (k None) (mkNode s (arrivals n) (in_flight n) (answered n) (journal n ++ j) (running n))
      | Effects.Works =>
          let (s, o) := exec now q (store n) in
          let j := match o with Some a => [(id, event_of q a)] | None => [] end in
          settle id (k o) (mkNode s (arrivals n) (in_flight n) (answered n) (journal n ++ j) (running n))
      end
  | _ => n
  end.

(** The columns of a replicated record; the others take their defaults. *)
Definition replicated (r : SignalRecord) : SignalRecord :=
  mkRecord (signal_hash r) (accepting_node r) (subject_kind r) (issuer_kind r) (issuer_pubkey r) (type_ r)
    (supersedes_hash r) active (scanner_version r) false None None.

Definition with_store (n : Node) (s : Store) : Node :=
  mkNode s (arrivals n) (in_flight n) (answered n) (journal n) (running n).

Definition step (n : Node) (i : input) : Node :=
  if negb (running n) then
    match i with Restarts => mkNode (store n) (arrivals n) ∅ (answered n) (journal n) true | _ => n end
  else
    match i with
    | Arrives r now =>
        settle (arrivals n) (serve env (arrivals n) now r)
          (mkNode (store n) (S (arrivals n)) (in_flight n) (answered n) (journal n) true)
    | Proceeds id f now => proceed id f now n
    | AppliesRecord r => with_store n (exec 0 (InsertSignalRecord (replicated r)) (store n)).1
    | AppliesRevocation v => with_store n (exec 0 (InsertRevocation v) (store n)).1
    | EditsIssuer k role status => with_store n (with_issuers (store n) (<[k := (role, status)]> (authorized_issuers (store n))))
    | Restarts => mkNode (store n) (arrivals n) ∅ (answered n) (journal n) true
    end.

Definition run (n : Node) (l : list input) : Node := foldl step n l.

End Node.
End InternalApi.
