(* ===== verification/ApiRuns.v ===== *)
(** What stands behind the statements of the internal API: a logic for programs of
    statements that remembers what a request has already read and written, and its
    lifting to every interleaving of requests, failures, replication and restarts. *)
From S2P Require Import Prelude Text Effects Wire ApiStore TrustSignals PreAuthTokens InternalApi.
Import Text Wire ApiStore TrustSignals PreAuthTokens InternalApi.

(** * Programs *)

Module ApiLogic.

Section Logic.
(** [J h e]: the event [e] is right for a request whose earlier events are [h]. *)
Context (J : list event → event → Prop).

(** Every event of [p] is right after those before it, and [p] ends in [Q] or throws in [R]. *)
Fixpoint pw {A} (Q : list event → A → Prop) (R : list event → exn → Prop) (h : list event) (p : prog A) : Prop :=
  match p with
  | Done a => Q h a
  | Throws e => R h e
  | Query q k =>
      (∀ a, J h (event_of q a) ∧ pw Q R (h ++ [event_of q a]) (k (Some a)) ∧ pw Q R (h ++ [event_of q a]) (k None)) ∧
      pw Q R h (k None)
  end.

Lemma pw_mono {A} (Q Q' : list event → A → Prop) (R R' : list event → exn → Prop) h p :
  (∀ h a, Q h a → Q' h a) → (∀ h e, R h e → R' h e) → pw Q R h p → pw Q' R' h p.
Proof.
  intros HQ HR. revert h. induction p as [a|e|B q k IH]; intros h; cbn; [apply HQ|apply HR|].
  intros [H1 H2]. split; [|by apply IH]. intros a. destruct (H1 a) as (Hj & Hs & Hn). eauto.
Qed.

Lemma pw_bind {A B} (Q : list event → B → Prop) R h (p : prog A) (f : A → prog B) :
  pw (λ h a, pw Q R h (f a)) R h p → pw Q R h (p ≫= f).
Proof.
  revert h. induction p as [a|e|C q k IH]; intros h; cbn; [done|done|].
  intros [H1 H2]. split; [|by apply IH]. intros a. destruct (H1 a) as (Hj & Hs & Hn).
  split_and!; [done|by apply IH|by apply IH].
Qed.

Lemma pw_catch {A} (Q : list event → A → Prop) R h p (c : exn → prog A) :
  pw Q (λ h e, pw Q R h (c e)) h p → pw Q R h (catch p c).
Proof.
  revert h. induction p as [a|e|C q k IH]; intros h; cbn; [done|done|].
  intros [H1 H2]. split; [|by apply IH]. intros a. destruct (H1 a) as (Hj & Hs & Hn).
  split_and!; [done|by apply IH|by apply IH].
Qed.

Lemma pw_ret {A} (Q : list event → A → Prop) R h a : Q h a → pw Q R h (mret a).
Proof. done. Qed.

Lemma pw_query {B} (q : sql B) (Q : list event → B → Prop) (R : list event → exn → Prop) h :
  (∀ a, J h (event_of q a) ∧ Q (h ++ [event_of q a]) a ∧ R (h ++ [event_of q a]) OtherError) → R h OtherError →
  pw Q R h (query q).
Proof. intros H HR. split; [exact H|exact HR]. Qed.

Lemma pw_need {A} (Q : list event → A → Prop) (R : list event → exn → Prop) h o e :
  (∀ a, o = Some a → Q h a) → R h (SubmitRejected e) → pw Q R h (need o e).
Proof. intros HQ HR. destruct o; cbn; auto. Qed.

Lemma pw_demand (Q : list event → unit → Prop) (R : list event → exn → Prop) h b e :
  (b = true → Q h tt) → R h (SubmitRejected e) → pw Q R h (demand b e).
Proof. intros HQ HR. destruct b; cbn; auto. Qed.

Lemma pw_each {A} (body : A → prog unit) l (I : list event → Prop) R h :
  (∀ x h, x ∈ l → I h → pw (λ h _, I h) R h (body x)) → I h → pw (λ h _, I h) R h (each body l).
Proof.
  revert h. induction l as [|x l IH]; intros h Hb Hi; [done|]. cbn [each]. apply pw_bind.
  eapply pw_mono; [| |apply Hb; [left|done]]; [|done]. intros h' [] Hi'. apply IH; [|done].
  intros y h'' Hy. apply Hb. by right.
Qed.

End Logic.

(** ** Programs without statements *)

Definition pure {A} (p : prog A) : Prop := match p with Query _ _ => False | _ => True end.

Lemma pure_bind {A B} (p : prog A) (f : A → prog B) : pure p → (∀ a, pure (f a)) → pure (p ≫= f).
Proof. destruct p; cbn; auto. Qed.

Lemma pure_need {A} (o : option A) e : pure (need o e).
Proof. by destruct o. Qed.

Lemma pure_demand b e : pure (demand b e).
Proof. by destruct b. Qed.

Lemma pure_ret {A} (a : A) : pure (mret a).
Proof. done. Qed.

Lemma pw_pure {A} J (Q : list event → A → Prop) (R : list event → exn → Prop) h p :
  pure p → (∀ a, p = Done a → Q h a) → (∀ e, R h e) → pw J Q R h p.
Proof. intros Hp HQ HR. destruct p; [by apply HQ|by apply HR|done]. Qed.

Create HintDb pure.
#[export] Hint Resolve pure_need pure_demand pure_ret : pure.

Ltac pure :=
  repeat match goal with
  | |- pure (_ ≫= _) => apply pure_bind; [|intros ?]
  | |- pure (if ?b then _ else _) => destruct b
  | |- pure (match ?b with _ => _ end) => destruct b
  | |- pure _ => solve [eauto with pure | done]
  end.

Lemma pure_check_version op r : pure (check_version op r).
Proof. unfold check_version. pure. Qed.
#[export] Hint Resolve pure_check_version : pure.

Lemma pure_decoded lib b : pure (decoded lib b).
Proof. apply pure_need. Qed.
Lemma pure_signal_hash_of r : pure (signal_hash_of r).
Proof. apply pure_need. Qed.
Lemma pure_issued_at_of r : pure (issued_at_of r).
Proof. apply pure_need. Qed.
Lemma pure_check_fresh t t' : pure (check_fresh t t').
Proof. apply pure_demand. Qed.
#[export] Hint Resolve pure_decoded pure_signal_hash_of pure_issued_at_of pure_check_fresh : pure.

Lemma pure_parseRequest lib b : pure (parseRequest lib b).
Proof. unfold parseRequest. pure. Qed.

Lemma pure_checked_envelope lib req : pure (checked_envelope lib req).
Proof. unfold checked_envelope, decode_envelope. pure. Qed.

Lemma pure_parse_deliveries l : pure (parse_deliveries l).
Proof. induction l as [|d l IH]; cbn; [done|]. unfold parse_delivery. pure. Qed.
#[export] Hint Resolve pure_parse_deliveries : pure.

Lemma pure_parseDeliverRequest lib b : pure (parseDeliverRequest lib b).
Proof. unfold parseDeliverRequest. pure. Qed.

Lemma pure_inner_authorization lib r h t : pure (inner_authorization lib r h t).
Proof. unfold inner_authorization. pure. Qed.
#[export] Hint Resolve pure_parseRequest pure_checked_envelope pure_parseDeliverRequest pure_inner_authorization : pure.

End ApiLogic.

(** * What stands behind an event *)

Module ApiRuns.
Import ApiLogic.

Section Justified.
Context (env : Env).

Definition asks (r : Request) (u : string) : Prop := method r = "POST" ∧ url r = u.

(** [K e]: the request did or learnt [e] before. *)

(** The body was signed by a key that was read as an active issuer of the role. *)
Definition signed (r : Request) (b : bytes) (role : string) (K : event → Prop) : Prop :=
  let k := header (signer_header r) in
  readBody r = Some b ∧ is_hex64 k = true ∧ K (IssuerRead k (Some (role, "active"))) ∧
  verify (lib env) (hexToBytes k) (buildSignalRequestTbs (lib env) b)
    (hexToBytes (header (signature_header r))) = Some true.

Definition fresh (now issuedAt : Z) : Prop := (Z.abs (now / 1000 - issuedAt) <= CLOCK_SKEW_SECONDS)%Z.

(** The record is of an envelope whose bytes were carried and hash to what was claimed. *)
Definition submitted (r : Request) (now : Z) (K : event → Prop) (row : SignalRecord) : Prop :=
  ∃ b req e digest, asks r "/internal/signal/submit" ∧ signed r b "submitter" K ∧
    parseRequest (lib env) b = Done req ∧ fresh now (sr_issued_at req) ∧
    decodeTrustSignalEnvelope (lib env) (sr_envelope req) = Some e ∧
    hashTrustSignalEnvelope (lib env) e = Some digest ∧ sr_signal_hash req = hex digest ∧
    (env_issuer_kind e = agent → is_hex64 (env_issuer_pubkey e) = true) ∧
    row = record_of (owningNodeId env) (sr_scanner_version req) e (hex digest).

(** The hash was revoked, with the inner authorization of the revoker where there is one. *)
Definition revocation (r : Request) (now : Z) (K : event → Prop) (hash : string) (revoker : option (string * bytes)) : Prop :=
  ∃ b v t, asks r "/internal/signal/revoke" ∧ signed r b "submitter" K ∧
    decodeCbor (lib env) b = Some v ∧ signal_hash_of v = Done hash ∧ issued_at_of v = Done t ∧ fresh now t ∧
    match revoker with
    | Some (k, sig) => is_hex64 k = true ∧
        verify (lib env) (hexToBytes k) (buildSignalRevokeAuthorizationTbs (lib env) hash t) sig = Some true
    | None => True
    end.

Definition delivered (r : Request) (now : Z) (K : event → Prop) (p : Pickup) : Prop :=
  ∃ b req d, asks r "/internal/signal/deliver" ∧ signed r b "submitter" K ∧
    parseDeliverRequest (lib env) b = Done req ∧ fresh now (dr_issued_at req) ∧
    K (NotarizedRead (dr_signal_hash req) true) ∧ d ∈ dr_deliveries req ∧
    p = pickup_of (owningNodeId env) req d.

Definition published (r : Request) (K : event → Prop) (version : Z) (document : bytes) : Prop :=
  ∃ b v, asks r "/internal/signal/registry-publish" ∧ signed r b "registry" K ∧
    decodeCbor (lib env) b = Some v ∧ prop "document" v = VBytes document ∧
    prop "version" v = VNum (JInt version) ∧ (0 <= version <= MAX_SAFE_INTEGER)%Z.

(** The switch of an agent is worked by the holder of the key, for the agent's account. *)
Definition switched (r : Request) (K : event → Prop) (g : string) : Prop :=
  ∃ p account mode, asks r "/internal/agent-write" ∧ keyed env r = true ∧ json_body env r = Some p ∧
    prop "accountId" p = VStr account ∧ prop "agentId" p = VStr g ∧
    validateWritePayload "revocation_flag" (prop "payload" p) = Ok mode ∧ K (OwnedRead g account true).

Definition justified_by (r : Request) (now : Z) (K : event → Prop) (e : event) : Prop :=
  match e with
  | RecordWritten row => submitted r now K row ∨
      ∃ revoker, revocation r now K (signal_hash row) revoker ∧ row = tombstone (owningNodeId env) (signal_hash row) revoker
  | RevocationWritten v => revocation r now K (rv_hash v) (Some (rv_pubkey v, rv_signature v))
  | PickupWritten p => delivered r now K p
  | RegistryWritten v d => published r K v d
  | SuspensionWritten g _ => switched r K g
  | _ => True
  end.

(** By the earlier events of the request. *)
Definition justified (r : Request) (now : Z) (h : list event) (e : event) : Prop := justified_by r now (.∈ h) e.

(** ** One lemma per program *)

Lemma signed_pw role r b (now : Z) Q R h :
  readBody r = Some b → (∀ h', h ⊆ h' → signed r b role (.∈ h') → Q h' tt) → (∀ h e, R h e) →
  pw (justified r now) Q R h
    (verifySignedRequest (lib env) (header (signer_header r)) (header (signature_header r)) b role).
Proof.
  intros Hb HQ HR. unfold verifySignedRequest, authorizeIssuer.
  apply pw_bind, pw_demand; [|done]. intros Hhex. apply pw_bind, pw_bind, pw_query; [|done].
  intros a. split_and!; [done| |done]. destruct a as [[ro st]|]; [|apply HR].
  apply pw_bind, pw_demand; [|done]. intros Hs. apply pw_demand; [|done]. intros Hr. bools. subst.
  apply pw_demand; [|done]. intros Hv. bools. apply HQ; [set_solver|].
  split_and!; [done..| |done]. set_solver.
Qed.

Lemma signed_mono r b role (K K' : event → Prop) : (∀ e, K e → K' e) → signed r b role K → signed r b role K'.
Proof. intros Hs (? & ? & Hi & ?). split_and!; try done. by apply Hs. Qed.

Lemma justified_by_mono r now (K K' : event → Prop) e : (∀ e, K e → K' e) → justified_by r now K e → justified_by r now K' e.
Proof.
  intros Hs. destruct e; cbn; try done.
  - intros [(b & req & v & d & Ha & Hsg & H)|(rv & (b & v & t & Ha & Hsg & H) & He)]; [left|right].
    + exists b, req, v, d. split_and!; try apply H; try done. by eapply signed_mono.
    + exists rv. split; [|done]. exists b, v, t. split_and!; try apply H; try done. by eapply signed_mono.
  - intros (b & w & t & Ha & Hsg & H). exists b, w, t. split_and!; try apply H; try done. by eapply signed_mono.
  - intros (b & req & d & Ha & Hsg & Hp & Hf & Hn & H). exists b, req, d. split_and!; try apply H; try done;
      [by eapply signed_mono|by apply Hs].
  - intros (b & v & Ha & Hsg & H). exists b, v. split_and!; try apply H; try done. by eapply signed_mono.
  - intros (p & acc & mode & H1 & H2 & H3 & H4 & H5 & H6 & H7). exists p, acc, mode. split_and!; try done. by apply Hs.
Qed.

(** Requests that no answer is given to: the body is null where fields are read of it. *)
Definition null_body (r : Request) : Prop :=
  keyed env r = true ∧
  (asks r "/internal/pre-authorize" ∨ asks r "/internal/account-by-email-stub" ∨
   asks r "/internal/agents-by-account" ∨ asks r "/internal/agent-write") ∧
  ∃ v, json_body env r = Some v ∧ (v = VNull ∨ v = VUndef).

Definition revocation_done (r : Request) (now : Z) (h : list event) : Prop :=
  ∃ hash revoker, revocation r now (.∈ h) hash revoker ∧
    RecordWritten (tombstone (owningNodeId env) hash revoker) ∈ h ∧
    match revoker with Some (k, sig) => RevocationWritten (mkRevocation hash k sig) ∈ h | None => True end.

(** What an end of the program says. *)
Definition concluded (r : Request) (now : Z) (h : list event) (o : outcome) : Prop :=
  (o = Uncaught → null_body r) ∧
  (∀ body, o = Answer 200 body → asks r "/internal/signal/revoke" → revocation_done r now h).

Abbreviation concludes r now h p := (pw (justified r now) (concluded r now) (λ _ _, False) h p).

(** An answer other than 200. *)
Lemma refuse_concludes r now h c e : c ≠ 200%Z → concludes r now h (mret (refuse c e)).
Proof. intros Hc. split; [done|]. intros body [= ->]. done. Qed.

Lemma other_concludes u r now h o : asks r u → u ≠ "/internal/signal/revoke" → o ≠ Uncaught → concludes r now h (mret o).
Proof. intros [_ Hu] Hn Ho. split; [done|]. intros body _ [_ Hu']. congruence. Qed.

Lemma or_500_concludes r now h e p :
  pw (justified r now) (concluded r now) (λ _ _, True) h p → concludes r now h (or_500 e p).
Proof.
  intros H. apply pw_catch. eapply pw_mono; [| |exact H]; [done|]. intros h' x _. by apply refuse_concludes.
Qed.

Lemma or_rejected_concludes r now h e p :
  pw (justified r now) (concluded r now) (λ _ _, True) h p → concludes r now h (or_rejected e p).
Proof.
  intros H. apply pw_catch. eapply pw_mono; [| |exact H]; [done|]. intros h' x _.
  destruct x; by apply refuse_concludes.
Qed.

Lemma with_body_concludes r now h k :
  (∀ b, readBody r = Some b → concludes r now h (k b)) → concludes r now h (with_body r k).
Proof. intros H. unfold with_body. destruct (readBody r); [by apply H|by apply refuse_concludes]. Qed.

Lemma well_formed_concludes {A} r now h (o : option A) k :
  (∀ a, o = Some a → concludes r now h (k a)) → concludes r now h (well_formed o k).
Proof. intros H. destruct o; [by apply H|by apply refuse_concludes]. Qed.

Lemma with_json_concludes r now h k :
  (∀ v, json_body env r = Some v → concludes r now h (k v)) → concludes r now h (with_json env r k).
Proof.
  intros H. unfold with_json, json_body in *. destruct (readBody r) as [b|]; [|by apply refuse_concludes].
  cbn in H. destruct (JSON_parse env b) eqn:E; [by apply H|by apply refuse_concludes].
Qed.

(** ** The signed routes *)

Lemma checked_envelope_done req e derived : checked_envelope (lib env) req = Done (e, derived) →
  derived = sr_signal_hash req ∧ ∃ digest, decodeTrustSignalEnvelope (lib env) (sr_envelope req) = Some e ∧
    hashTrustSignalEnvelope (lib env) e = Some digest ∧ derived = hex digest ∧
    (env_issuer_kind e = agent → is_hex64 (env_issuer_pubkey e) = true).
Proof.
  unfold checked_envelope, decode_envelope, need, demand. cbn.
  destruct (decodeTrustSignalEnvelope _ _) as [e'|]; cbn; [|done].
  destruct (hashTrustSignalEnvelope _ _) as [d|] eqn:Ed; cbn; [|done].
  destruct (negb _ || _) eqn:Ek; cbn; [|done].
  destruct (bool_decide (hex d = _)) eqn:Eh; cbn; [|done]. intros [= <- <-]. bools. split; [done|]. exists d. split_and!; try done.
  intros Ha. rewrite bool_decide_eq_true_2 in Ek by done. done.
Qed.

Lemma check_fresh_done now t u : check_fresh (now / 1000) t = Done u → fresh now t.
Proof. unfold check_fresh, demand, fresh. destruct (_ <=? _)%Z eqn:E; [|done]. by bools. Qed.

Lemma submit_concludes r now h : asks r "/internal/signal/submit" → concludes r now h (signal_submit env r (now / 1000)).
Proof.
  intros Ha. apply with_body_concludes. intros b Hb. apply or_rejected_concludes, pw_bind.
  unfold submitSignal. apply pw_bind, (signed_pw "submitter" r b now); [done| |done]. intros h1 Hh1 Hsig.
  apply pw_bind, pw_pure; [apply pure_parseRequest| |done]. intros req Hreq.
  apply pw_bind, pw_pure; [apply pure_check_fresh| |done]. intros [] Hf%check_fresh_done.
  apply pw_bind, pw_pure; [apply pure_checked_envelope| |done]. intros [e derived] He.
  apply checked_envelope_done in He as (-> & d & Hdec & Hd & Ed & Hk).
  assert (justified r now h1 (RecordWritten (record_of (owningNodeId env) (sr_scanner_version req) e (sr_signal_hash req)))) as Hj.
  { left. exists b, req, e, d. rewrite Ed. by split_and!. }
  apply pw_bind, pw_query; [|done]. intros n. split_and!; [exact Hj| |done].
  apply pw_bind.
  apply (pw_mono _ (λ _ _, True) _ (λ _ _, True)); [|done|].
  - intros h2 [] _. by eapply other_concludes.
  - destruct (env_supersedes_hash e); [|done]. destruct (0 <? n); [|done].
    apply pw_bind, pw_query; [|done]. by intros m.
Qed.

Lemma inner_done v hash t revoker : inner_authorization (lib env) v hash t = Done revoker →
  match revoker with
  | Some (k, sig) => is_hex64 k = true ∧
      verify (lib env) (hexToBytes k) (buildSignalRevokeAuthorizationTbs (lib env) hash t) sig = Some true
  | None => True
  end.
Proof.
  unfold inner_authorization, need, filtered. destruct (_ && _); [by intros [= <-]|].
  destruct (as_string _) as [k|]; cbn; [|done]. destruct (is_hex64 k) eqn:Ek; cbn; [|done].
  destruct (bytes_of_length 64 _) as [sig|]; cbn; [|done].
  destruct (verify _ _ _ _) as [[]|] eqn:Ev; try done. by intros [= <-].
Qed.

Lemma decoded_done b v : decoded (lib env) b = Done v → decodeCbor (lib env) b = Some v.
Proof. unfold decoded, need. by destruct (decodeCbor _ _) eqn:E; intros [= <-]. Qed.

Lemma revoke_concludes r now h : asks r "/internal/signal/revoke" → concludes r now h (signal_revoke env r (now / 1000)).
Proof.
  intros Ha. apply with_body_concludes. intros b Hb. apply or_rejected_concludes, pw_bind.
  unfold revokeSignal. apply pw_bind, (signed_pw "submitter" r b now); [done| |done]. intros h1 Hh1 Hsig.
  apply pw_bind, pw_pure; [apply pure_decoded| |done]. intros v Hv%decoded_done.
  apply pw_bind, pw_pure; [apply pure_check_version| |done]. intros [] _.
  apply pw_bind, pw_pure; [apply pure_signal_hash_of| |done]. intros hash Hh.
  apply pw_bind, pw_pure; [apply pure_issued_at_of| |done]. intros t Ht.
  apply pw_bind, pw_pure; [apply pure_check_fresh| |done]. intros [] Hf%check_fresh_done.
  apply pw_bind, pw_pure; [apply pure_inner_authorization| |done]. intros revoker Hi%inner_done.
  assert (∀ h', h1 ⊆ h' → revocation r now (.∈ h') hash revoker) as Hr.
  { intros h' Hs. exists b, v, t. split_and!; try done. by apply (signed_mono r b "submitter" (.∈ h1)). }
  apply pw_bind, pw_query; [|done]. intros n. set (e := RecordWritten (tombstone (owningNodeId env) hash revoker)).
  set (h2 := h1 ++ [e]). assert (e ∈ h2) as He by (unfold h2; set_solver).
  assert (h1 ⊆ h2) as Hh2 by (unfold h2; set_solver).
  split_and!; [right; by exists revoker; split; [apply Hr|]| |done]. apply pw_bind.
  apply (pw_mono _ (λ h' _, RecordWritten (tombstone (owningNodeId env) hash revoker) ∈ h' ∧ h1 ⊆ h' ∧
           match revoker with Some (k, sig) => RevocationWritten (mkRevocation hash k sig) ∈ h' | None => True end)
         _ (λ _ _, True)); [|done|].
  - intros h3 [] (Hi1 & Hs & Hi2). split; [done|]. intros body _ _. exists hash, revoker. auto.
  - destruct revoker as [[k sig]|]; [|split_and!; [done|unfold h2; set_solver|done]].
    apply pw_bind, pw_query; [|done]. intros m. split_and!; [|split_and!; [set_solver..]|done].
    apply (Hr h2). unfold h2. set_solver.
Qed.

Lemma deliver_concludes r now h : asks r "/internal/signal/deliver" → concludes r now h (signal_deliver env r (now / 1000)).
Proof.
  intros Ha. apply with_body_concludes. intros b Hb. apply or_rejected_concludes, pw_bind.
  unfold deliverSignal. apply pw_bind, (signed_pw "submitter" r b now); [done| |done]. intros h1 Hh1 Hsig.
  apply pw_bind, pw_pure; [apply pure_parseDeliverRequest| |done]. intros req Hreq.
  apply pw_bind, pw_pure; [apply pure_check_fresh| |done]. intros [] Hf%check_fresh_done.
  apply pw_bind, pw_query; [|done]. intros known. split_and!; [done| |done].
  apply pw_bind, pw_demand; [|done]. intros ->. set (h2 := h1 ++ _).
  apply pw_bind.
  apply (pw_mono _ (λ h' _, h2 ⊆ h') _ (λ _ _, True)); [|done|].
  - intros h3 [] _. by eapply other_concludes.
  - apply pw_each; [|done]. intros d h3 Hd Hs. apply pw_query; [|done]. intros [].
    split_and!; [|set_solver|done]. exists b, req, d. split_and!; try done.
    + apply (signed_mono r b "submitter" (.∈ h1)); [|done]. unfold h2 in Hs. set_solver.
    + apply Hs. unfold h2. set_solver.
Qed.

Lemma filtered_some {A} (p : A → bool) o a : filtered p o = Some a → o = Some a ∧ p a = true.
Proof. unfold filtered. destruct o as [x|]; cbn; [|done]. destruct (p x) eqn:E; naive_solver. Qed.

Lemma as_integer_some v z : as_integer v = Some z → v = VNum (JInt z).
Proof. destruct v as [| | |[]| | | | |]; cbn; congruence. Qed.

Lemma as_string_some v z : as_string v = Some z → v = VStr z.
Proof. destruct v; cbn; congruence. Qed.

Lemma publish_concludes r now h :
  asks r "/internal/signal/registry-publish" → concludes r now h (registry_publish env r (now / 1000)).
Proof.
  intros Ha. apply with_body_concludes. intros b Hb. apply or_rejected_concludes, pw_bind.
  unfold publishRegistry. apply pw_bind, (signed_pw "registry" r b now); [done| |done]. intros h1 Hh1 Hsig.
  apply pw_bind, pw_pure; [apply pure_decoded| |done]. intros v Hv%decoded_done.
  apply pw_bind, pw_pure; [apply pure_check_version| |done]. intros [] _.
  apply pw_bind, pw_need; [|done]. intros d Hd.
  apply pw_bind, pw_need; [|done]. intros version [Hz%as_integer_some Hp]%filtered_some.
  apply pw_bind, pw_demand; [|done]. intros Hm.
  apply pw_bind, pw_pure; [apply pure_issued_at_of| |done]. intros t _.
  apply pw_bind, pw_pure; [apply pure_check_fresh| |done]. intros [] _.
  apply pw_bind, pw_query; [|done]. intros n. split_and!; [|by eapply other_concludes|done].
  bools. exists b, v. split_and!; try done. destruct (prop "document" v); cbn in Hd; congruence.
Qed.

(** ** The keyed routes *)

Lemma validate_kind kind payload mode : validateWritePayload kind payload = Ok mode → kind = "revocation_flag".
Proof. unfold validateWritePayload. destruct (bool_decide (kind = _)) eqn:E; [|done]. by bools. Qed.

Lemma text_of_some v s : text_of v = Some s → v = VStr s.
Proof. destruct v; try done. unfold text_of. cbn. case_match; naive_solver. Qed.

Lemma member_null k v : member k v = None → v = VNull ∨ v = VUndef.
Proof. destruct v; cbn; auto; congruence. Qed.

Lemma member_prop k v f : member k v = Some f → f = prop k v.
Proof. destruct v; cbn; congruence. Qed.

Lemma uncaught_concludes r now h u v k : keyed env r = true → asks r u →
  u ∈ ["/internal/pre-authorize"; "/internal/account-by-email-stub"; "/internal/agents-by-account"; "/internal/agent-write"] →
  json_body env r = Some v → member k v = None → concludes r now h (mret Uncaught).
Proof.
  intros Hk Ha Hu Hv Hm%member_null. split; [|done]. intros _. split_and!; [done| |by exists v].
  set_solver.
Qed.

Lemma apply_flag_pw r now h g mode account node (Q : list event → bool → Prop) :
  switched r (.∈ h) g → (∀ h' b, Q h' b) →
  pw (justified r now) Q (λ _ _, True) h (applyRevocationFlag g mode account node).
Proof.
  intros Hs HQ. destruct mode; cbn [applyRevocationFlag]; apply pw_bind, pw_query; [|done| |done| |done];
    intros a; split_and!; try done; [apply HQ| |apply HQ].
  destruct (a =? 0); [|apply HQ]. apply pw_bind, pw_query; [|done]. intros b. split_and!; [done|apply HQ|done].
Qed.

Lemma agent_write_concludes r now h : asks r "/internal/agent-write" → concludes r now h (agent_write env r).
Proof.
  intros Ha. unfold agent_write. destruct (keyed env r) eqn:Hk; [|by apply refuse_concludes].
  apply with_json_concludes. intros p Hp. destruct (member "accountId" p) as [f|] eqn:Em.
  2:{ eapply uncaught_concludes; [done|done|set_solver|done|done]. }
  apply member_prop in Em as ->.
  destruct (text_of (prop "accountId" p)) as [account|] eqn:E1; [|by apply refuse_concludes].
  destruct (text_of (prop "agentId" p)) as [g|] eqn:E2; [|by apply refuse_concludes].
  destruct (as_string (prop "writeKind" p)) as [kind|] eqn:E3; [|by apply refuse_concludes].
  destruct (validateWritePayload kind (prop "payload" p)) as [mode|reason] eqn:E4; [|by eapply other_concludes].
  apply or_500_concludes, pw_bind, pw_query; [|done]. intros owned. split_and!; [done| |done].
  destruct owned; cbn [negb]; [|by eapply other_concludes].
  apply pw_bind, apply_flag_pw.
  - exists p, account, mode. pose proof (validate_kind _ _ _ E4) as ->.
    apply text_of_some in E1, E2. split_and!; try done. set_solver.
  - intros h' []; by eapply other_concludes.
Qed.

Lemma issue_pw r now sha iso d params n attempt i h Q :
  (∀ h' x, Q h' x) → pw (justified r now) Q (λ _ _, True) h (issue_attempts sha iso d params n attempt i).
Proof.
  intros HQ. revert h attempt i. induction n as [|n IH]; intros h attempt i; [done|]. cbn [issue_attempts].
  destruct (generatePreAuthToken _ _ _) as [[token i']|]; [|done].
  apply pw_bind, pw_query; [|done]. intros o. split_and!; [done| |done]. destruct o; [apply HQ|apply IH].
Qed.

Lemma capability_pw r now sha iso cap d params n attempt i h Q :
  (∀ h' x, Q h' x) → pw (justified r now) Q (λ _ _, True) h (capability_attempts sha iso cap d params n attempt i).
Proof.
  intros HQ. revert h attempt i. induction n as [|n IH]; intros h attempt i; [done|]. cbn [capability_attempts].
  apply pw_bind, pw_query; [|done]. intros o. split_and!; [done| |done]. destruct o; [|apply IH].
  destruct (cap _ _ _ _ _); [|done]. destruct (generatePreAuthToken _ _ _) as [[code i']|]; [|done].
  apply pw_bind, pw_query; [|done]. intros o'. split_and!; [done| |done]. destruct o'; [apply HQ|apply IH].
Qed.

Lemma pre_authorize_concludes id r now h : asks r "/internal/pre-authorize" → concludes r now h (pre_authorize env id r).
Proof.
  intros Ha. unfold pre_authorize. destruct (keyed env r) eqn:Hk; [|by apply refuse_concludes].
  apply with_json_concludes. intros p Hp. destruct (member "phoneStubHash" p) as [f|] eqn:Em.
  2:{ eapply uncaught_concludes; [done|done|set_solver|done|done]. }
  destruct (text_of f); [|by apply refuse_concludes]. destruct (text_of (prop "emailStubHash" p)); [|by apply refuse_concludes].
  destruct (text_of (prop "registrationId" p)); [|by apply refuse_concludes].
  destruct (issuerKey env); apply or_500_concludes, pw_bind.
  - apply capability_pw. intros h' [[[[c co] n] i] e]. by eapply other_concludes.
  - apply issue_pw. intros h' [[t i] e]. by eapply other_concludes.
Qed.

Definition no_revoke (r : Request) : Prop := ¬ asks r "/internal/signal/revoke".

Lemma no_revoke_url r u : url r = u → u ≠ "/internal/signal/revoke" → no_revoke r.
Proof. intros Hu Hn [_ Hr]. congruence. Qed.

Lemma quiet_concludes r now h o : no_revoke r → o ≠ Uncaught → concludes r now h (mret o).
Proof. intros Hn Ho. split; [done|]. by intros. Qed.

(** A route of one harmless statement. *)
Lemma one_query_concludes {B} r now h (q : sql B) e (f : B → outcome) :
  no_revoke r → (∀ b, event_of q b = OtherStatement) → (∀ b, f b ≠ Uncaught) →
  concludes r now h (or_500 e (b ← query q; mret (f b))).
Proof.
  intros Ha He Hf. apply or_500_concludes, pw_bind, pw_query; [|done]. intros b. rewrite He.
  split_and!; [done| |done]. by apply quiet_concludes.
Qed.

Lemma account_by_email_stub_concludes r now h :
  asks r "/internal/account-by-email-stub" → concludes r now h (account_by_email_stub env r).
Proof.
  intros Ha. assert (no_revoke r) as Hn by (by eapply no_revoke_url; [apply Ha|]).
  unfold account_by_email_stub. destruct (keyed env r) eqn:Hk; [|by apply refuse_concludes].
  apply with_json_concludes. intros p Hp. destruct (member "emailStubHash" p) as [f|] eqn:Em.
  2:{ eapply uncaught_concludes; [done|done|set_solver|done|done]. }
  destruct (text_of f); [|by apply refuse_concludes].
  apply one_query_concludes; [done|done|]. intros b. by destruct (truthy b).
Qed.

Lemma agents_by_account_concludes r now h :
  asks r "/internal/agents-by-account" → concludes r now h (agents_by_account env r).
Proof.
  intros Ha. assert (no_revoke r) as Hn by (by eapply no_revoke_url; [apply Ha|]).
  unfold agents_by_account. destruct (keyed env r) eqn:Hk; [|by apply refuse_concludes].
  apply with_json_concludes. intros p Hp. destruct (member "accountId" p) as [f|] eqn:Em.
  2:{ eapply uncaught_concludes; [done|done|set_solver|done|done]. }
  destruct (text_of f); [|by apply refuse_concludes]. by apply one_query_concludes.
Qed.

Lemma signal_query_concludes r now h :
  asks r "/internal/signal/query" → concludes r now h (signal_query env r (now / 1000)).
Proof.
  intros Ha. assert (no_revoke r) as Hn by (by eapply no_revoke_url; [apply Ha|]).
  apply with_body_concludes. intros b Hb. apply or_rejected_concludes, pw_bind.
  unfold queryAccountFacts. apply pw_bind, (signed_pw "submitter" r b now); [done| |done]. intros h1 _ _.
  apply pw_bind, pw_pure; [apply pure_decoded| |done]. intros v _.
  apply pw_bind, pw_pure; [apply pure_check_version| |done]. intros [] _.
  apply pw_bind, pw_demand; [|done]. intros _. apply pw_bind, pw_need; [|done]. intros a _.
  apply pw_bind, pw_pure; [apply pure_issued_at_of| |done]. intros t _.
  apply pw_bind, pw_pure; [apply pure_check_fresh| |done]. intros [] _.
  unfold readAccountFacts. apply pw_bind, pw_query; [|done]. intros acc. split_and!; [done| |done].
  destruct acc; [|by apply quiet_concludes].
  apply pw_bind, pw_query; [|done]. intros em. split_and!; [done| |done]. by apply quiet_concludes.
Qed.

Lemma keyed_route_concludes {A} r now h (o : option A) k :
  (∀ a, concludes r now h (k a)) → concludes r now h (if negb (keyed_strict env r) then mret unauthorized else well_formed o k).
Proof. intros H. destruct (keyed_strict env r); [|by apply refuse_concludes]. apply well_formed_concludes. auto. Qed.

Lemma serve_concludes id r now : concludes r now [] (serve env id now r).
Proof.
  unfold serve. repeat (case_bool_decide as Hu; [|clear Hu]).
  - by apply pre_authorize_concludes.
  - by apply account_by_email_stub_concludes.
  - by apply agents_by_account_concludes.
  - by apply agent_write_concludes.
  - by apply submit_concludes.
  - by apply revoke_concludes.
  - by apply deliver_concludes.
  - by apply publish_concludes.
  - destruct Hu as [_ Hu]. apply one_query_concludes; [by eapply no_revoke_url|done|]. by intros [[]|].
  - by apply signal_query_concludes.
  - apply keyed_route_concludes. intros a. apply or_500_concludes, pw_bind, pw_query; [|done]. intros [].
  - destruct Hu as [_ Hu]. apply keyed_route_concludes. intros a.
    apply one_query_concludes; [by eapply no_revoke_url|done|done].
  - destruct Hu as [_ Hu]. apply keyed_route_concludes. intros a.
    apply one_query_concludes; [by eapply no_revoke_url|done|done].
  - destruct Hu as [_ Hu]. apply keyed_route_concludes. intros a.
    apply or_500_concludes, pw_bind. unfold recordSubmissionResult. apply pw_bind, pw_query; [|done]. intros n.
    split_and!; [done| |done]. apply quiet_concludes; [by eapply no_revoke_url|done].
  - destruct Hu as [_ Hu]. apply keyed_route_concludes. intros a.
    apply or_500_concludes, pw_bind. unfold deleteSubmission. apply pw_bind, pw_query; [|done]. intros n.
    split_and!; [done| |done]. apply quiet_concludes; [by eapply no_revoke_url|done].
  - destruct Hu as [_ Hu]. assert (no_revoke r) as Hn by (by eapply no_revoke_url).
    unfold active_among. destruct (keyed_strict env r); [|by apply refuse_concludes].
    apply with_body_concludes. intros b _. apply well_formed_concludes. intros l _.
    destruct (is_nil l); [by apply quiet_concludes|]. by apply one_query_concludes.
  - destruct (strip_prefix _ _) as [k|] eqn:Ek; [|by apply refuse_concludes].
    assert (no_revoke r) as Hn by (intros [Hp _]; congruence).
    unfold track_record. destruct (keyed env r); [|by apply refuse_concludes].
    destruct (_ && _); [|by apply refuse_concludes]. apply or_500_concludes, pw_bind, pw_query; [|done].
    intros [[a b] c]. split_and!; [done|by apply quiet_concludes|done].
  - destruct (strip_prefix _ _); by apply refuse_concludes.
Qed.

End Justified.

(** * Runs *)

Definition history (id : nat) (j : list (nat * event)) : list event :=
  map snd (List.filter (λ x, x.1 =? id) j).

Lemma history_app id j k : history id (j ++ k) = history id j ++ history id k.
Proof. unfold history. by rewrite List.filter_app, map_app. Qed.

Lemma history_one id id' e : history id [(id', e)] = if id' =? id then [e] else [].
Proof. unfold history. cbn. by destruct (id' =? id). Qed.

Lemma history_elem id j e : e ∈ history id j ↔ (id, e) ∈ j.
Proof.
  unfold history. rewrite list_elem_of_fmap. split.
  - intros ([id' e'] & -> & [H E]%filter_elem). cbn in E. apply Nat.eqb_eq in E as ->. done.
  - intros H. exists (id, e). split; [done|]. apply filter_elem. by rewrite Nat.eqb_refl.
Qed.

Section Runs.
Context (env : Env) (s0 : Store).

Abbreviation at_ l := (run env (boot s0) l).

(** The request [id] came as [r] at [now]. *)
Definition asked (l : list input) (id : nat) (r : Request) (now : Z) : Prop :=
  ∃ k, l !! k = Some (Arrives r now) ∧ running (at_ (take k l)) = true ∧ arrivals (at_ (take k l)) = id.

Lemma asked_app l l' id r now : asked l id r now → asked (l ++ l') id r now.
Proof.
  intros (k & Hk & Hr). exists k. apply lookup_lt_Some in Hk as Hlt. split; [by apply lookup_app_l_Some|].
  by rewrite take_app_le by lia.
Qed.

Lemma run_extend n l i : run env n (l ++ [i]) = step env (run env n l) i.
Proof. unfold run. by rewrite foldl_app. Qed.

(** What a run has done: every event and answer is right for its request, and what is in
    flight will do only what is right. *)
Record explained (l : list input) (n : Node) : Prop := mkExplained {
  flight_explained : ∀ id p, in_flight n !! id = Some p →
    ∃ r now, asked l id r now ∧
      pw (justified env r now) (concluded env r now) (λ _ _, False) (history id (journal n)) p ∧
      match p with Query _ _ => True | _ => False end;
  journal_explained : ∀ i id e, journal n !! i = Some (id, e) →
    ∃ r now, asked l id r now ∧ justified env r now (history id (take i (journal n))) e;
  answers_explained : ∀ id o, (id, o) ∈ answered n →
    ∃ r now, asked l id r now ∧ concluded env r now (history id (journal n)) o;
  ids_known : ∀ id, (∃ p, in_flight n !! id = Some p) ∨ (∃ e, (id, e) ∈ journal n) → id < arrivals n;
  death_explained : running n = false → ∃ id r now, asked l id r now ∧ null_body env r;
}.

Lemma revocation_done_mono r now h h' : h ⊆ h' → revocation_done env r now h → revocation_done env r now h'.
Proof.
  intros Hs (hash & rv & (b & v & t & Ha & Hsg & H) & Hi & Hm). exists hash, rv. split_and!.
  - exists b, v, t. split_and!; try apply H; try done. eapply signed_mono; [|done]. exact Hs.
  - by apply Hs.
  - destruct rv as [[]|]; [by apply Hs|done].
Qed.

Lemma concluded_mono r now h h' o : h ⊆ h' → concluded env r now h o → concluded env r now h' o.
Proof. intros Hs [H1 H2]. split; [done|]. intros b Hb Ha. eapply revocation_done_mono; [done|by eapply H2]. Qed.

(** One more event of a request, and the rest of its program. *)
Lemma explained_settle l n n' id p r now es :
  explained l n → asked l id r now → running n' = running n → arrivals n' = arrivals n →
  in_flight n' = in_flight n → answered n' = answered n →
  journal n' = journal n ++ map (pair id) es → length es <= 1 → id < arrivals n →
  (∀ e, e ∈ es → justified env r now (history id (journal n)) e) →
  pw (justified env r now) (concluded env r now) (λ _ _, False) (history id (journal n) ++ es) p →
  explained l (settle id p n').
Proof.
  intros [Hf Hj Ha Hk Hd] Hid Er Ean Ef Eas Ej Hes Hlt Hnew Hp.
  assert (∀ i, history i (journal n') = history i (journal n) ++ (if i =? id then es else [])) as Eh.
  { intros i. rewrite Ej, history_app. f_equal. destruct es as [|e [|]]; [by destruct (i =? id)| |cbn in Hes; lia].
    cbn [map]. rewrite history_one. rewrite Nat.eqb_sym. by destruct (i =? id). }
  assert (∀ j i e, journal n' !! j = Some (i, e) →
    ∃ r now, asked l i r now ∧ justified env r now (history i (take j (journal n'))) e) as Hj'.
  { intros j i e Hi. rewrite Ej in Hi |- *. apply lookup_app_Some in Hi as [Hi|[Hge Hi]].
    - apply lookup_lt_Some in Hi as Hlt'. rewrite take_app_le by lia. by apply Hj.
    - rewrite list_lookup_fmap in Hi. destruct (es !! (j - length (journal n))) as [e'|] eqn:Ee; [|done].
      injection Hi as <- ->. apply lookup_lt_Some in Ee as Hlt'. assert (j = length (journal n)) as -> by lia.
      rewrite take_app_length. exists r, now. split; [done|]. apply Hnew. by eapply list_elem_of_lookup_2. }
  assert (∀ i o, (i, o) ∈ answered n → ∃ r now, asked l i r now ∧ concluded env r now (history i (journal n')) o) as Ha'.
  { intros i o Hi. destruct (Ha i o Hi) as (r' & now' & ? & Hc). exists r', now'. split; [done|].
    eapply concluded_mono; [|exact Hc]. rewrite Eh. set_solver. }
  assert (∀ i e, (i, e) ∈ journal n' → i < arrivals n) as Hk'.
  { intros i e Hi. rewrite Ej, elem_of_app in Hi. destruct Hi as [Hi|(e' & [= -> ->] & _)%list_elem_of_fmap]; [|done].
    apply Hk. eauto. }
  assert (pw (justified env r now) (concluded env r now) (λ _ _, False) (history id (journal n')) p) as Hp'.
  { by rewrite Eh, Nat.eqb_refl. }
  destruct p as [o|e|B q k]; [|done|].
  - destruct o as [c v|]; cbn [settle].
    + constructor; cbn [settle in_flight journal answered arrivals].
      * intros i q. rewrite Ef. intros [Hne Hq]%lookup_delete_Some. destruct (Hf i q Hq) as (r' & now' & ? & ? & ?).
        exists r', now'. rewrite Eh. replace (i =? id) with false by (symmetry; apply Nat.eqb_neq; congruence).
        by rewrite app_nil_r.
      * exact Hj'.
      * intros i o. rewrite Eas, elem_of_app. intros [Hi|[= -> ->]%list_elem_of_singleton]; [by apply Ha'|].
        exists r, now. split; [done|exact Hp'].
      * rewrite Ean. intros i [[q Hq]|[e Hi]]; [|by eapply Hk'].
        rewrite Ef in Hq. apply lookup_delete_Some in Hq as [_ Hq]. apply Hk. eauto.
      * rewrite Er. exact Hd.
    + constructor; cbn [settle in_flight journal answered arrivals].
      * done.
      * exact Hj'.
      * by rewrite Eas.
      * rewrite Ean. intros i [[q Hq]|[e Hi]]; [by rewrite lookup_empty in Hq|by eapply Hk'].
      * intros _. exists id, r, now. split; [done|]. by apply Hp'.
  - constructor; cbn [settle in_flight journal answered arrivals].
    + intros i q'. rewrite Ef. intros [[<- <-]|[Hne Hq]]%lookup_insert_Some; [by exists r, now|].
      destruct (Hf i q' Hq) as (r' & now' & ? & ? & ?). exists r', now'. rewrite Eh.
      replace (i =? id) with false by (symmetry; apply Nat.eqb_neq; congruence). by rewrite app_nil_r.
    + exact Hj'.
    + by rewrite Eas.
    + rewrite Ean. intros i [[q' Hq]|[e Hi]]; [|by eapply Hk'].
      rewrite Ef in Hq. apply lookup_insert_Some in Hq as [[<- _]|[_ Hq]]; [done|]. apply Hk. eauto.
    + rewrite Er. exact Hd.
Qed.

Lemma explained_same l n n' :
  explained l n → in_flight n' = in_flight n ∨ in_flight n' = ∅ → journal n' = journal n →
  answered n' = answered n → (running n' = false → running n = false) → arrivals n <= arrivals n' → explained l n'.
Proof.
  intros [Hf Hj Ha Hk Hd] Ef Ej Ea Hr Hle. constructor; rewrite ?Ej, ?Ea; [|done|done| |by eauto].
  - intros id p. destruct Ef as [->| ->]; [by apply Hf|by rewrite lookup_empty].
  - intros id [[p Hp]|He]; [|apply Nat.lt_le_trans with (arrivals n); [by eauto|done]].
    destruct Ef as [Ef|Ef]; rewrite Ef in Hp; [|by rewrite lookup_empty in Hp].
    apply Nat.lt_le_trans with (arrivals n); [by eauto|done].
Qed.

Lemma explained_app l l' n : explained l n → explained (l ++ l') n.
Proof.
  intros [Hf Hj Ha Hk Hd]. constructor; [| | |done|].
  - intros id p H. destruct (Hf id p H) as (r & now & ? & ?). exists r, now. by split; [apply asked_app|].
  - intros i id e H. destruct (Hj i id e H) as (r & now & ? & ?). exists r, now. by split; [apply asked_app|].
  - intros id o H. destruct (Ha id o H) as (r & now & ? & ?). exists r, now. by split; [apply asked_app|].
  - intros H. destruct (Hd H) as (id & r & now & ? & ?). exists id, r, now. by split; [apply asked_app|].
Qed.

Lemma explained_proceed l n id f now : explained l n → explained l (proceed id f now n).
Proof.
  intros He. unfold proceed. destruct (in_flight n !! id) as [p|] eqn:Ep; [|done].
  destruct (flight_explained _ _ He id p Ep) as (r & t & Hid & Hp & Hq). destruct p as [| |B q k]; try done.
  assert (id < arrivals n) as Hlt by (apply (ids_known _ _ He); eauto). destruct Hp as [Hs Hn].
  assert (∀ s a o, o = Some a ∨ o = None → explained l (settle id (k o)
    (mkNode s (arrivals n) (in_flight n) (answered n) (journal n ++ [(id, event_of q a)]) (running n)))) as Hev.
  { intros s a o Ho. destruct (Hs a) as (Hj & H1 & H2).
    apply (explained_settle l n _ id _ r t [event_of q a]); try done.
    - by intros e ->%list_elem_of_singleton.
    - by destruct Ho as [->| ->]. }
  assert (∀ s, explained l (settle id (k None)
    (mkNode s (arrivals n) (in_flight n) (answered n) (journal n ++ []) (running n)))) as Hnone.
  { intros s. apply (explained_settle l n _ id _ r t []); try done; [cbn; lia| |by rewrite app_nil_r].
    by intros e ?%elem_of_nil. }
  destruct f.
  - destruct (exec now q (store n)) as [s [a|]]; [apply Hev; auto|apply Hnone].
  - pose proof (Hnone (store n)) as H. rewrite app_nil_r in H. by destruct n.
  - destruct (exec now q (store n)) as [s [a|]]; [apply Hev; auto|apply Hnone].
Qed.

Lemma explained_arrives l n r now : running n = true → at_ l = n → explained l n →
  explained (l ++ [Arrives r now]) (step env n (Arrives r now)).
Proof.
  intros Hr En He. unfold step. rewrite Hr. cbn [negb]. set (n1 := mkNode _ _ _ _ _ _).
  assert (explained (l ++ [Arrives r now]) n1) as He1.
  { apply explained_app. apply (explained_same l n); cbn; auto; done. }
  assert (history (arrivals n) (journal n) = []) as Hh.
  { destruct (history _ _) as [|e h] eqn:E; [done|]. assert (e ∈ history (arrivals n) (journal n)) as Hi by (rewrite E; left).
    apply history_elem in Hi. assert (arrivals n < arrivals n); [|lia]. apply (ids_known _ _ He). eauto. }
  apply (explained_settle _ n1 n1 (arrivals n) _ r now []); try done;
    [|by rewrite app_nil_r|cbn; lia|cbn; lia| |rewrite app_nil_r].
  - exists (length l). rewrite lookup_app_r, Nat.sub_diag by lia. split; [done|].
    rewrite take_app_length, En. done.
  - by intros e ?%elem_of_nil.
  - change (journal n1) with (journal n). rewrite Hh. apply serve_concludes.
Qed.

Lemma run_explained l : explained l (at_ l).
Proof.
  induction l as [|i l IH] using rev_ind.
  - constructor.
    + intros id p H. cbn in H. by rewrite lookup_empty in H.
    + done.
    + by intros id o ?%elem_of_nil.
    + intros id [[p Hp]|[e ?%elem_of_nil]]; [|done]. cbn in Hp. by rewrite lookup_empty in Hp.
    + done.
  - rewrite run_extend. destruct (running (at_ l)) eqn:Hr.
    + destruct i; [by apply explained_arrives|..]; apply explained_app; unfold step; rewrite Hr; cbn [negb].
      * by apply explained_proceed.
      * eapply explained_same; [exact IH|..]; cbn; auto; done.
      * eapply explained_same; [exact IH|..]; cbn; auto; done.
      * eapply explained_same; [exact IH|..]; cbn; auto; done.
      * eapply explained_same; [exact IH|..]; cbn; auto; done.
    + apply explained_app. unfold step. rewrite Hr. cbn [negb].
      destruct i; try done. eapply explained_same; [exact IH|..]; cbn; auto.
Qed.

(** ** What was read of the issuers is true, and rows come from statements *)

(** The issuers' table at some moment of the run said so. *)
Definition issuer_at (l : list input) (k : string) (a : option (string * string)) : Prop :=
  ∃ m, authorized_issuers (store (at_ (take m l))) !! k = a.

End Runs.
End ApiRuns.
