(* ===== verification/ApiLedger.v ===== *)
(** What the tables of the internal API hold after any run: each row and the request it
    came from, what cannot be undone, and what the answers mean. *)
From Stdlib Require Import Ascii.
From S2P Require Import Prelude Text Effects Wire Merges ApiStore TrustSignals PreAuthTokens InternalApi ApiRuns.
Import Text Wire ApiStore TrustSignals PreAuthTokens InternalApi ApiLogic ApiRuns.

Module ApiLedger.

(** * One step *)

(** What a step does to the tables and the journal. *)
Inductive stepped (n : Node) (i : input) (n' : Node) : Prop :=
| stepped_quiet : store n' = store n → journal n' = journal n → stepped n i n'
| stepped_query {B} id now (q : sql B) o :
    exec now q (store n) = (store n', o) → is_Some (in_flight n !! id) →
    journal n' = journal n ++ match o with Some a => [(id, event_of q a)] | None => [] end → stepped n i n'
| stepped_record r : i = AppliesRecord r → journal n' = journal n →
    store n' = (exec 0 (InsertSignalRecord (replicated r)) (store n)).1 → stepped n i n'
| stepped_revocation v : i = AppliesRevocation v → journal n' = journal n →
    store n' = (exec 0 (InsertRevocation v) (store n)).1 → stepped n i n'
| stepped_issuer x : journal n' = journal n → store n' = with_issuers (store n) x → stepped n i n'.

Lemma settle_store id p n : store (settle id p n) = store n.
Proof. by destruct p as [[]|?|? ? ?]. Qed.
Lemma settle_journal id p n : journal (settle id p n) = journal n.
Proof. by destruct p as [[]|?|? ? ?]. Qed.
Lemma settle_arrivals id p n : arrivals (settle id p n) = arrivals n.
Proof. by destruct p as [[]|?|? ? ?]. Qed.

Lemma step_stepped env n i : stepped n i (step env n i).
Proof.
  unfold step. destruct (running n); cbn [negb]; [|by destruct i; apply stepped_quiet].
  destruct i as [r now|id f now|r|v|k role st|].
  - apply stepped_quiet; by rewrite ?settle_store, ?settle_journal.
  - unfold proceed. destruct (in_flight n !! id) as [[| |B q k]|] eqn:Ef; try by apply stepped_quiet.
    assert (is_Some (in_flight n !! id)) as Hs by by rewrite Ef.
    destruct f; try (apply stepped_quiet; by rewrite ?settle_store, ?settle_journal);
      destruct (exec now q (store n)) as [s o] eqn:Eq; eapply (stepped_query _ _ _ id now q o);
      rewrite ?settle_store, ?settle_journal; done.
  - by eapply stepped_record.
  - by eapply stepped_revocation.
  - by eapply stepped_issuer.
  - by apply stepped_quiet.
Qed.

Lemma step_arrivals env n i : arrivals n <= arrivals (step env n i).
Proof.
  unfold step. destruct (running n); cbn [negb]; [|by destruct i].
  destruct i; cbn; rewrite ?settle_arrivals; cbn; try lia.
  unfold proceed. destruct (in_flight n !! _) as [[| |]|]; try lia.
  destruct f; try destruct (exec _ _ _); rewrite ?settle_arrivals; cbn; lia.
Qed.

Lemma update_superseded_elem row h node l :
  row ∈ (update_where (λ r, bool_decide (signal_hash r = h ∧ accepting_node r = node ∧ status r = active))
           (λ r, with_status r superseded) l).1 →
  ∃ row', row' ∈ l ∧ (row = row' ∨ row = with_status row' superseded ∧ status row' = active).
Proof.
  intros (r & -> & Hr)%list_elem_of_fmap. exists r. split; [done|]. case_bool_decide; naive_solver.
Qed.

(** The row as it was written, but for a status that was active. *)
Definition came_as (row row' : SignalRecord) : Prop :=
  row = row' ∨ row = with_status row' superseded ∧ status row' = active.

Lemma came_as_key row row' : came_as row row' →
  signal_hash row = signal_hash row' ∧ accepting_node row = accepting_node row' ∧ is_tombstone row = is_tombstone row' ∧
  issuer_kind row = issuer_kind row' ∧ issuer_pubkey row = issuer_pubkey row' ∧ revoker_pubkey row = revoker_pubkey row' ∧
  supersedes_hash row = supersedes_hash row' ∧ (status row = revoked → status row' = revoked).
Proof. intros [->|[-> ?]]; by split_and!. Qed.

(** * What is not undone *)

Lemma came_as_trans r1 r2 r3 : came_as r1 r2 → came_as r2 r3 → came_as r1 r3.
Proof. intros [->|[-> H]]; [done|]. intros [->|[-> ?]]; [by right|done]. Qed.

(** The later state of a switch. *)
Definition later (r r' : Merges.SuspensionRecord) : Prop :=
  r' = r ∨ (Merges.suspension_seq r < Merges.suspension_seq r')%Z ∧ (Merges.burned r = true → Merges.burned r' = true).

Record grows (s s' : Store) : Prop := mkGrows {
  records_grow : ∀ row, row ∈ signal_records s → ∃ row', row' ∈ signal_records s' ∧ came_as row' row;
  revocations_grow : ∀ v, v ∈ signal_revocations s → v ∈ signal_revocations s';
  suspensions_grow : ∀ g r, agent_suspensions s !! g = Some r → ∃ r', agent_suspensions s' !! g = Some r' ∧ later r r';
  registry_grows : ∀ v d, registry_document s = Some (v, d) →
    ∃ v' d', registry_document s' = Some (v', d') ∧ (v <= v')%Z ∧ (v = v' → d = d');
}.

#[export] Instance grows_preorder : PreOrder grows.
Proof.
  split.
  - intros s. split; [|done| |]; [intros row H; exists row; split; [done|by left]|..].
    + intros g r H. exists r. split; [done|by left].
    + intros v d H. exists v, d. split_and!; [done|lia|done].
  - intros s1 s2 s3 [R1 V1 S1 D1] [R2 V2 S2 D2]. split.
    + intros row (r2 & H2 & C2)%R1. destruct (R2 r2 H2) as (r3 & H3 & C3). exists r3. split; [done|].
      by eapply came_as_trans.
    + auto.
    + intros g r (r2 & H2 & L2)%S1. destruct (S2 g r2 H2) as (r3 & H3 & L3). exists r3. split; [done|].
      destruct L2 as [->|[? ?]]; [done|]. destruct L3 as [->|[? ?]]; right; [done|]. split; [lia|auto].
    + intros v d (v2 & d2 & H2 & L2 & E2)%D1. destruct (D2 v2 d2 H2) as (v3 & d3 & H3 & L3 & E3).
      exists v3, d3. split_and!; [done|lia|]. intros ->. rewrite E2, E3 by lia. done.
Qed.

Lemma exec_grows {B} now (q : sql B) s : grows s (exec now q s).1.
Proof.
  split.
  - intros row H. rewrite exec_records. destruct q; try by (exists row; split; [|by left]).
    + exists row. split; [|by left]. apply insert_absent_elem. by left.
    + cbn. eexists. split; [by apply list_elem_of_fmap; exists row|]. case_bool_decide; [right|left]; naive_solver.
  - intros v H. rewrite exec_revocations. destruct q; try done. apply insert_absent_elem. by left.
  - intros g r H. rewrite exec_suspensions. destruct q; try by (exists r; split; [|by left]).
    + destruct (agent_suspensions s !! agent_id) as [x|] eqn:E; [|by exists r; split; [|left]].
      destruct (Merges.burned x) eqn:Eb; [by exists r; split; [|left]|].
      destruct (decide (agent_id = g)) as [->|]; [|rewrite lookup_insert_ne by done; by exists r; split; [|left]].
      rewrite lookup_insert_eq. eexists. split; [done|]. assert (x = r) as -> by congruence. right. cbn. split; [lia|done].
    + destruct (decide (agent_id = g)) as [->|]; [|rewrite lookup_insert_ne by done; by exists r; split; [|left]].
      rewrite lookup_insert_eq. eexists. split; [done|]. rewrite H. right. cbn. split; [lia|]. by intros ->.
  - intros v d H. rewrite exec_registry. destruct q; try by (exists v, d; split_and!; [done|lia|done]).
    rewrite H. destruct (v <? version)%Z eqn:E; bools; eexists _, _; split_and!; try done; lia.
Qed.

Lemma step_grows env n i : grows (store n) (store (step env n i)).
Proof.
  destruct (step_stepped env n i) as [-> _|B id now q o Hq _ _|r _ _ ->|v _ _ ->|x _ ->];
    [done| |apply exec_grows|apply exec_grows|].
  - pose proof (exec_grows now q (store n)) as H. by rewrite Hq in H.
  - split; [intros row H; exists row; split; [done|by left]|done|..].
    + intros g r H. exists r. split; [done|by left].
    + intros v d H. exists v, d. split_and!; [done|lia|done].
Qed.

Lemma tables_grow env n l : grows (store n) (store (run env n l)).
Proof.
  revert n. induction l as [|i l IH]; intros n; [done|]. etrans; [apply step_grows|apply (IH (step env n i))].
Qed.

(** * The view *)

Lemma rows_of_elem s h row : row ∈ rows_of s h ↔ row ∈ signal_records s ∧ signal_hash row = h.
Proof. unfold rows_of. rewrite filter_elem, bool_decide_eq_true. done. Qed.

Lemma real_rows_elem s h row :
  row ∈ real_rows s h ↔ row ∈ signal_records s ∧ signal_hash row = h ∧ is_tombstone row = false.
Proof. unfold real_rows. rewrite filter_elem, rows_of_elem, negb_true_iff. tauto. Qed.

Lemma tomb_elem s h k : k ∈ tomb s h ↔
  (∃ v, v ∈ signal_revocations s ∧ rv_hash v = h ∧ k = Some (rv_pubkey v)) ∨
  (∃ row, row ∈ signal_records s ∧ signal_hash row = h ∧ is_tombstone row = true ∧ k = revoker_pubkey row).
Proof.
  unfold tomb. rewrite elem_of_app, !list_elem_of_fmap. f_equiv.
  - split; intros (v & H); exists v; rewrite filter_elem, bool_decide_eq_true in *; naive_solver.
  - split; intros (row & H); exists row; rewrite filter_elem, rows_of_elem in *; naive_solver.
Qed.

Lemma is_nil_true {A} (l : list A) : is_nil l = true ↔ l = [].
Proof. by destruct l. Qed.

Lemma is_nil_elem {A} (x : A) l : x ∈ l → is_nil l = false.
Proof. destruct l; [by intros ?%elem_of_nil|done]. Qed.

Lemma existsb_elem {A} (p : A → bool) l : existsb p l = true ↔ ∃ x, x ∈ l ∧ p x = true.
Proof. rewrite existsb_exists. by setoid_rewrite list_elem_of_In. Qed.

Lemma min_kind_institutional l : l ≠ [] → (∀ k, k ∈ l → k ≠ agent) → institutional (min_kind l) = true.
Proof.
  intros Hn Ha. unfold institutional. apply bool_decide_eq_true.
  assert (∀ k, min_kind l = Some k → k ∈ l) as Hin.
  { clear. induction l as [|x l IH]; cbn; [done|]. intros k. destruct (min_kind l) as [y|]; [|intros [= ->]; left].
    destruct (String.leb _ _); intros [= ->]; [left|right; by apply IH]. }
  destruct l as [|x l]; [done|]. assert (is_Some (min_kind (x :: l))) as [k Hk].
  { cbn. destruct (min_kind l); [destruct (String.leb _ _)|]; eauto. }
  rewrite Hk in *. specialize (Ha k (Hin k eq_refl)). destruct k; [auto|auto|done].
Qed.

(** With an agent's record among them the least kind is its: tombstones alone do not revoke. *)
Lemma min_kind_agent l : agent ∈ l → institutional (min_kind l) = false.
Proof.
  intros H. assert (min_kind l = Some agent) as ->; [|done].
  induction l as [|x l IH]; [by apply elem_of_nil in H|]. cbn.
  apply elem_of_cons in H as [<-|H].
  - destruct (min_kind l) as [[]|]; done.
  - rewrite IH by done. by destruct x.
Qed.

(** What is revoked is revoked by a record's own status, by tombstones over institutions'
    records or none, or by the key of an issuer. *)
Lemma is_revoked_spec s h : is_revoked s h = true ↔
  (real_rows s h = [] ∧ tomb s h ≠ []) ∨ (∃ row, row ∈ real_rows s h ∧ status row = revoked) ∨
  (tomb s h ≠ [] ∧ institutional (min_kind (map issuer_kind (real_rows s h))) = true) ∨
  (∃ row, row ∈ real_rows s h ∧ Some (issuer_pubkey row) ∈ tomb s h).
Proof.
  assert (∀ l : list (option string), negb (is_nil l) = true ↔ l ≠ []) as Hnil.
  { intros l. rewrite negb_true_iff, <- not_true_iff_false, is_nil_true. done. }
  assert (existsb (λ r, bool_decide (status r = revoked)) (real_rows s h) = true ↔
    ∃ row, row ∈ real_rows s h ∧ status row = revoked) as E1.
  { rewrite existsb_elem. by setoid_rewrite bool_decide_eq_true. }
  assert (existsb (λ r, existsb (λ k, bool_decide (k = Some (issuer_pubkey r))) (tomb s h)) (real_rows s h) = true ↔
    ∃ row, row ∈ real_rows s h ∧ Some (issuer_pubkey row) ∈ tomb s h) as E2.
  { rewrite existsb_elem. setoid_rewrite existsb_elem. setoid_rewrite bool_decide_eq_true. naive_solver. }
  unfold is_revoked. rewrite <- E1, <- E2, <- !Hnil, <- is_nil_true.
  destruct (is_nil (real_rows s h)), (negb (is_nil (tomb s h))), (existsb _ (real_rows s h)),
    (institutional _); cbn; naive_solver.
Qed.

Lemma is_active_spec s h : is_active s h = true ↔
  real_rows s h ≠ [] ∧ is_revoked s h = false ∧ has_successor s h = false ∧
  ∀ row, row ∈ rows_of s h → status row ≠ superseded.
Proof.
  unfold is_active, effective_status. rewrite bool_decide_eq_true.
  destruct (is_nil (rows_of s h)) eqn:En.
  { apply is_nil_true in En. split; [done|]. intros [Hr _]. destruct Hr. unfold real_rows. by rewrite En. }
  destruct (is_revoked s h) eqn:Er; [naive_solver|]. destruct (has_successor s h); [naive_solver|].
  destruct (existsb _ _) eqn:Ee.
  - split; [done|]. intros (_ & _ & _ & Hs). apply existsb_elem in Ee as (row & Hr & Ee). bools. by destruct (Hs row).
  - split; [|done]. intros _. split_and!; try done.
    + intros Hr. assert (is_revoked s h = true); [|congruence]. apply is_revoked_spec. left. split; [done|].
      destruct (rows_of s h) as [|row rs] eqn:E; [done|]. assert (row ∈ rows_of s h) as Hrow by (rewrite E; left).
      apply rows_of_elem in Hrow as [H1 H2]. intros Ht.
      assert (revoker_pubkey row ∈ tomb s h) as Hk; [|rewrite Ht in Hk; by apply elem_of_nil in Hk].
      apply tomb_elem. right. exists row. split_and!; try done. apply not_false_iff_true. intros Hf.
      assert (row ∈ real_rows s h) as Hx by by apply real_rows_elem. rewrite Hr in Hx. by apply elem_of_nil in Hx.
    + intros row Hrow Hs. assert (existsb (λ r, bool_decide (status r = superseded)) (rows_of s h) = true); [|congruence].
      apply existsb_elem. exists row. by rewrite bool_decide_eq_true.
Qed.

Section Runs.
Context (env : Env) (s0 : Store).

Abbreviation at_ l := (run env (boot s0) l).

Lemma run_ind (P : list input → Node → Prop) :
  P [] (boot s0) → (∀ l i, P l (at_ l) → P (l ++ [i]) (step env (at_ l) i)) → ∀ l, P l (at_ l).
Proof.
  intros H0 Hs l. induction l as [|i l IH] using rev_ind; [exact H0|]. rewrite run_extend. by apply Hs.
Qed.

Lemma arrivals_mono l l' : arrivals (at_ l) <= arrivals (at_ (l ++ l')).
Proof.
  induction l' as [|i l' IH] using rev_ind; [by rewrite app_nil_r|].
  rewrite app_assoc, run_extend. etrans; [exact IH|apply step_arrivals].
Qed.

(** ** What was read *)

(** The tables, at some moment after the request [id] came, said so. *)
Definition was_read (l : list input) (id : nat) (e : event) : Prop :=
  match e with
  | IssuerRead k a => ∃ m, id < arrivals (at_ (take m l)) ∧ authorized_issuers (store (at_ (take m l))) !! k = a
  | NotarizedRead h b => ∃ m, id < arrivals (at_ (take m l)) ∧ b = negb (is_nil (real_rows (store (at_ (take m l))) h))
  | OwnedRead g acc b =>
      ∃ m, id < arrivals (at_ (take m l)) ∧ b = bool_decide (account_links (store (at_ (take m l))) !! g = Some acc)
  | _ => True
  end.

Lemma was_read_snoc l i id e : was_read l id e → was_read (l ++ [i]) id e.
Proof.
  assert (∀ m, ∃ m', take m' (l ++ [i]) = take m l) as H.
  { intros m. exists (m `min` length l). rewrite take_app_le by lia. by rewrite <- firstn_firstn, firstn_all. }
  destruct e; cbn; try done; intros (m & Hm); destruct (H m) as [m' E]; exists m'; by rewrite E.
Qed.

Lemma event_was_read l id {B} (q : sql B) now s a :
  id < arrivals (at_ l) → exec now q (store (at_ l)) = (s, Some a) → was_read l id (event_of q a).
Proof.
  intros Hid Hq. destruct q; cbn in *; try done; injection Hq as <- <-; exists (length l); by rewrite firstn_all.
Qed.

Lemma journal_was_read l id e : (id, e) ∈ journal (at_ l) → was_read l id e.
Proof.
  revert l. apply (run_ind (λ l n, (id, e) ∈ journal n → was_read l id e)); [by intros ?%elem_of_nil|].
  intros l i IH. pose proof (run_explained env s0 l) as He.
  destruct (step_stepped env (at_ l) i) as [_ ->|B id' now q o Hq Hs ->|r _ -> _|v _ -> _|x -> _];
    try (intros; apply was_read_snoc; by apply IH).
  rewrite elem_of_app. intros [H|H]; [by apply was_read_snoc, IH|]. apply was_read_snoc.
  destruct o as [a|]; [|by apply elem_of_nil in H]. apply list_elem_of_singleton in H as [= -> ->].
  eapply event_was_read; [|done]. apply (ids_known _ _ _ _ He). left. destruct Hs as [p Hp]. eauto.
Qed.

(** Whatever was written stands on a request, and on what the tables said to it. *)
Lemma written_justified l id e : (id, e) ∈ journal (at_ l) →
  ∃ r now, asked env s0 l id r now ∧ justified_by env r now (was_read l id) e.
Proof.
  intros (i & Hi)%list_elem_of_lookup_1. destruct (journal_explained _ _ _ _ (run_explained env s0 l) _ _ _ Hi) as (r & now & Ha & Hj).
  exists r, now. split; [done|]. eapply justified_by_mono; [|exact Hj]. intros e' He'. cbn in He'.
  apply history_elem in He'. apply journal_was_read. rewrite <- (take_drop i (journal _)), elem_of_app. by left.
Qed.

Definition written (l : list input) (e : event) : Prop := ∃ id, (id, e) ∈ journal (at_ l).

(** ** What the rows stand on *)

Lemma step_journal n i e : e ∈ journal n → e ∈ journal (step env n i).
Proof. destruct (step_stepped env n i) as [_ ->|B id now q o _ _ ->|r _ -> _|v _ -> _|x -> _]; set_solver. Qed.

Lemma written_later l i e : written l e → written (l ++ [i]) e.
Proof. intros [id H]. exists id. rewrite run_extend. by apply step_journal. Qed.

(** Where a row came from: it was there, a request wrote it, or a peer's was applied. *)
Definition origin (l : list input) (row : SignalRecord) : Prop :=
  row ∈ signal_records s0 ∨ written l (RecordWritten row) ∨ ∃ x, AppliesRecord x ∈ l ∧ row = replicated x.

Lemma origin_snoc l i row : origin l row → origin (l ++ [i]) row.
Proof.
  intros [H|[H|(x & Hx & ->)]]; [by left|right; left; by apply written_later|].
  right; right. exists x. split; [set_solver|done].
Qed.

(** One statement makes no row but the one it inserts. *)
Lemma exec_records_elem {B} now (q : sql B) s row : row ∈ signal_records (exec now q s).1 →
  (∃ row', row' ∈ signal_records s ∧ came_as row row') ∨ is_Some (exec now q s).2 ∧ ∀ a, event_of q a = RecordWritten row.
Proof.
  rewrite exec_records. destruct q; try (intros H; left; exists row; split; [exact H|by left]).
  - rewrite insert_absent_elem. intros [H|[-> H]]; [left; exists row; split; [exact H|by left]|right].
    cbn. unfold insert_absent. by rewrite H.
  - intros (row' & H & Hc)%update_superseded_elem. left. by exists row'.
Qed.

Lemma records_written l row : row ∈ signal_records (store (at_ l)) → ∃ row', came_as row row' ∧ origin l row'.
Proof.
  revert l row. apply (run_ind (λ l n, ∀ row, row ∈ signal_records (store n) → ∃ row', came_as row row' ∧ origin l row')).
  { intros row H. exists row. split; [by left|by left]. }
  intros l i IH row.
  assert (∀ r, r ∈ signal_records (store (at_ l)) → came_as row r → ∃ row', came_as row row' ∧ origin (l ++ [i]) row') as Hold.
  { intros r Hr Hc. destruct (IH r Hr) as (row' & Hc' & H). exists row'.
    split; [by eapply came_as_trans|by apply origin_snoc]. }
  assert (came_as row row) as Hid by by left.
  destruct (step_stepped env (at_ l) i) as [-> _|B id now q o Hq _ Hj|r -> _ Hr|v -> _ Hr|x _ ->].
  - intros H. by apply (Hold row).
  - intros H. rewrite (surjective_pairing (exec _ _ _)) in Hq. injection Hq as Hs <-. rewrite <- Hs in H.
    apply exec_records_elem in H as [(r & Hr & Hc)|[[a Ha] He]]; [by apply (Hold r)|].
    exists row. split; [done|]. right; left. exists id. rewrite run_extend, Hj, Ha, (He a). set_solver.
  - rewrite Hr, exec_records, insert_absent_elem. intros [H|[-> _]]; [by apply (Hold row)|].
    eexists. split; [done|]. right; right. exists r. split; [set_solver|done].
  - rewrite Hr, exec_records. intros H. by apply (Hold row).
  - intros H. by apply (Hold row).
Qed.

Lemma revocations_written l v : v ∈ signal_revocations (store (at_ l)) →
  v ∈ signal_revocations s0 ∨ written l (RevocationWritten v) ∨ AppliesRevocation v ∈ l.
Proof.
  revert l. apply (run_ind (λ l n, v ∈ signal_revocations (store n) →
    v ∈ signal_revocations s0 ∨ written l (RevocationWritten v) ∨ AppliesRevocation v ∈ l)); [by left|].
  intros l i IH.
  assert (v ∈ signal_revocations (store (at_ l)) →
    v ∈ signal_revocations s0 ∨ written (l ++ [i]) (RevocationWritten v) ∨ AppliesRevocation v ∈ l ++ [i]) as Hold.
  { intros [H|[H|H]]%IH; [by left|right; left; by apply written_later|right; right; set_solver]. }
  destruct (step_stepped env (at_ l) i) as [-> _|B id now q o Hq _ Hj|r -> _ Hr|w -> _ Hr|x _ ->]; [done| | | |done].
  - rewrite (surjective_pairing (exec _ _ _)) in Hq. injection Hq as <- <-. rewrite exec_revocations.
    destruct q; try exact Hold. rewrite insert_absent_elem. intros [H| [-> _]]; [by apply Hold|].
    right; left. exists id. rewrite run_extend, Hj. cbn. destruct (insert_absent _ _ _). set_solver.
  - by rewrite Hr, exec_revocations.
  - rewrite Hr, exec_revocations, insert_absent_elem. intros [H| [-> _]]; [by apply Hold|]. right; right. set_solver.
Qed.

(** ** What the journal left behind *)

Lemma same_key_refl row : same_key row row = true.
Proof. by apply bool_decide_eq_true. Qed.

Lemma store_grows l i : grows (store (at_ l)) (store (step env (at_ l) i)).
Proof. apply step_grows. Qed.

Lemma record_present l row : written l (RecordWritten row) →
  ∃ row', row' ∈ signal_records (store (at_ l)) ∧ signal_hash row' = signal_hash row ∧ accepting_node row' = accepting_node row.
Proof.
  intros [id H]. revert l H. apply (run_ind (λ l n, (id, RecordWritten row) ∈ journal n → ∃ row', row' ∈ signal_records (store n) ∧
    signal_hash row' = signal_hash row ∧ accepting_node row' = accepting_node row)); [by intros ?%elem_of_nil|].
  intros l i IH.
  assert ((id, RecordWritten row) ∈ journal (at_ l) → ∃ row', row' ∈ signal_records (store (step env (at_ l) i)) ∧
    signal_hash row' = signal_hash row ∧ accepting_node row' = accepting_node row) as Hold.
  { intros (r & Hr & E1 & E2)%IH. destruct (records_grow _ _ (store_grows l i) r Hr) as (r' & Hr' & Hc%came_as_key).
    destruct Hc as (? & ? & _). exists r'. split_and!; [done|congruence..]. }
  destruct (step_stepped env (at_ l) i) as [_ Hj|B id' now q o Hq _ Hj|r _ Hj _|v _ Hj _|x Hj _]; rewrite Hj; try exact Hold.
  rewrite elem_of_app. intros [H|H]; [by apply Hold|].
  destruct o as [a|]; [|by apply elem_of_nil in H]. apply list_elem_of_singleton in H as [= _ He].
  rewrite (surjective_pairing (exec _ _ _)) in Hq. injection Hq as <- _. rewrite exec_records.
  destruct q; try discriminate He. injection He as <-.
  destruct (insert_absent_has same_key row (signal_records (store (at_ l))) same_key_refl) as (y & Hy & Hk).
  unfold same_key in Hk. bools. exists y. naive_solver.
Qed.

Lemma revocation_present l v : written l (RevocationWritten v) →
  ∃ v', v' ∈ signal_revocations (store (at_ l)) ∧ rv_hash v' = rv_hash v ∧ rv_pubkey v' = rv_pubkey v.
Proof.
  intros [id H]. revert l H. apply (run_ind (λ l n, (id, RevocationWritten v) ∈ journal n → ∃ v', v' ∈ signal_revocations (store n) ∧
    rv_hash v' = rv_hash v ∧ rv_pubkey v' = rv_pubkey v)); [by intros ?%elem_of_nil|].
  intros l i IH.
  assert ((id, RevocationWritten v) ∈ journal (at_ l) → ∃ v', v' ∈ signal_revocations (store (step env (at_ l) i)) ∧
    rv_hash v' = rv_hash v ∧ rv_pubkey v' = rv_pubkey v) as Hold.
  { intros (w & Hw & ?)%IH. exists w. split; [|done]. by apply (revocations_grow _ _ (store_grows l i)). }
  destruct (step_stepped env (at_ l) i) as [_ Hj|B id' now q o Hq _ Hj|r _ Hj _|w _ Hj _|x Hj _]; rewrite Hj; try exact Hold.
  rewrite elem_of_app. intros [H|H]; [by apply Hold|].
  destruct o as [a|]; [|by apply elem_of_nil in H]. apply list_elem_of_singleton in H as [= _ He].
  rewrite (surjective_pairing (exec _ _ _)) in Hq. injection Hq as <- _. rewrite exec_revocations.
  destruct q; try discriminate He. injection He as <-.
  edestruct (insert_absent_has (λ a b, bool_decide (rv_hash a = rv_hash b ∧ rv_pubkey a = rv_pubkey b)) v) as (y & Hy & Hk);
    [intros; by apply bool_decide_eq_true|]. exists y. bools. naive_solver.
Qed.

Lemma asked_unique l id r now r' now' : asked env s0 l id r now → asked env s0 l id r' now' → r = r' ∧ now = now'.
Proof.
  assert (∀ k k' r now r' now', k < k' → l !! k = Some (Arrives r now) → running (at_ (take k l)) = true →
    arrivals (at_ (take k l)) = arrivals (at_ (take k' l)) → l !! k' = Some (Arrives r' now') → False) as H.
  { intros k k' x t x' t' Hlt Hk Hr He Hk'. assert (arrivals (at_ (take (S k) l)) <= arrivals (at_ (take k' l))) as Hle.
    { replace (take k' l) with (take (S k) l ++ drop (S k) (take k' l)); [apply arrivals_mono|].
      rewrite <- (take_drop (S k) (take k' l)) at 2. f_equal. rewrite take_take. f_equal. lia. }
    rewrite (take_S_r _ _ _ Hk), run_extend in Hle. unfold step in Hle. rewrite Hr in Hle. cbn in Hle.
    rewrite settle_arrivals in Hle. cbn in Hle. lia. }
  intros (k & Hk & Hr & He) (k' & Hk' & Hr' & He'). destruct (decide (k = k')) as [->|Hne]; [split; congruence|].
  exfalso. destruct (decide (k < k')); [apply (H k k' r now r' now')|apply (H k' k r' now' r now)]; try done; try congruence; lia.
Qed.

(** Every record that is not a tombstone was submitted here or is a peer's. *)
Lemma real_row_origin l row : signal_records s0 = [] → row ∈ signal_records (store (at_ l)) → is_tombstone row = false →
  (∃ x, AppliesRecord x ∈ l ∧ came_as row (replicated x)) ∨
  (∃ id r now row', asked env s0 l id r now ∧ submitted env r now (was_read l id) row' ∧ came_as row row').
Proof.
  intros H0 (row' & Hc & [H|[[id H]|(x & Hx & ->)]])%records_written Ht.
  - rewrite H0 in H. by apply elem_of_nil in H.
  - right. apply written_justified in H as (r & now & Ha & [Hj|(rv & _ & He)]).
    + by exists id, r, now, row'.
    + rewrite He in Hc. apply came_as_key in Hc as (_ & _ & Hc & _). by rewrite Ht in Hc.
  - left. by exists x.
Qed.

(** * Theorems *)

(** C14. Nothing enters the ledger of signals but through its door: in every interleaving of
    requests, statements that fail or are cut off, restarts, and rows from peers, a record that
    is not a tombstone was either applied from a peer or notarized for a submission of this
    node, whose body was signed by a key that the table of issuers, after the request came,
    had as an active submitter, that was fresh, and whose carried envelope decodes and hashes
    to the hash that was claimed; the record is that envelope's, but for its status. *)
Theorem notarized_is_submitted l row :
  signal_records s0 = [] → row ∈ signal_records (store (at_ l)) → is_tombstone row = false →
  (∃ x, AppliesRecord x ∈ l ∧ came_as row (replicated x)) ∨
  (∃ id r now row', asked env s0 l id r now ∧ submitted env r now (was_read l id) row' ∧ came_as row row').
Proof. apply real_row_origin. Qed.

(** C15. A signal of which some record was issued by an agent is revoked only by an issuer: when
    its effective status is revoked, a row of its revocation carries the key of the issuer of
    one of its records, and either a peer's row says so, or a request to this node came with
    that issuer's own signature over the hash and the time, besides the submitter's. *)
Theorem agent_signal_revoked_by_issuer l h :
  signal_records s0 = [] → signal_revocations s0 = [] → effective_status (store (at_ l)) h = Some revoked →
  (∃ row, row ∈ real_rows (store (at_ l)) h ∧ issuer_kind row = agent) →
  ∃ row, row ∈ real_rows (store (at_ l)) h ∧
    ((∃ v, AppliesRevocation v ∈ l ∧ rv_hash v = h ∧ rv_pubkey v = issuer_pubkey row) ∨
     (∃ id r now sig, asked env s0 l id r now ∧ revocation env r now (was_read l id) h (Some (issuer_pubkey row, sig)))).
Proof.
  intros H0 H0' He (ra & Hra & Ha).
  assert (is_revoked (store (at_ l)) h = true) as Hr.
  { unfold effective_status in He. destruct (is_nil _); [done|]. destruct (is_revoked _ _); [done|].
    destruct (has_successor _ _); [done|]. destruct (existsb _ _); done. }
  assert (institutional (min_kind (map issuer_kind (real_rows (store (at_ l)) h))) = false) as Hi.
  { apply min_kind_agent, list_elem_of_fmap. exists ra. done. }
  apply is_revoked_spec in Hr as [[Hn _]|[(row & Hrow & Hs)|[[_ Hi']|(row & Hrow & Ht)]]].
  - rewrite Hn in Hra. by apply elem_of_nil in Hra.
  - exfalso. apply real_rows_elem in Hrow as (Hrow & _ & Ht).
    destruct (real_row_origin l row H0 Hrow Ht) as [(x & _ & Hc)|(id & r & now & row' & _ & Hsub & Hc)];
      apply came_as_key in Hc as (_ & _ & _ & _ & _ & _ & _ & Hc); specialize (Hc Hs); [done|].
    destruct Hsub as (b & req & e & d & _ & _ & _ & _ & _ & _ & _ & _ & ->). done.
  - congruence.
  - exists row. split; [done|]. apply tomb_elem in Ht as [(v & Hv & Hh & Hk)|(t & Ht & Hh & Htomb & Hk)].
    + injection Hk as Hk. apply revocations_written in Hv as [Hv|[[id Hv]|Hv]].
      * rewrite H0' in Hv. by apply elem_of_nil in Hv.
      * right. apply written_justified in Hv as (r & now & Hq & Hj). cbn in Hj. rewrite Hh, <- Hk in Hj. eauto 7.
      * left. by exists v.
    + apply records_written in Ht as (t' & Hc & Ho). apply came_as_key in Hc as (Ec & _ & Et & _ & _ & Ek & _).
      destruct Ho as [H|[[id H]|(x & Hx & ->)]].
      * rewrite H0 in H. by apply elem_of_nil in H.
      * right. apply written_justified in H as (r & now & Hq & [Hj|(rv & Hj & E)]).
        { destruct Hj as (? & ? & ? & ? & _ & _ & _ & _ & _ & _ & _ & _ & ->). cbn in Et. congruence. }
        assert (signal_hash t' = h) as Eh by congruence. rewrite Eh in Hj.
        destruct rv as [[k sig]|]; rewrite E in Ek; cbn in Ek; [|congruence].
        exists id, r, now, sig. assert (issuer_pubkey row = k) as -> by congruence. done.
      * cbn in Et. congruence.
Qed.

(** The node's own tombstones share their key with nothing else: no row, at first or from a
    peer, names as its accepting node the mark under which they are written. *)
Definition marks_free (l : list input) : Prop :=
  let mark := "revoke:" +:+ owningNodeId env in
  (∀ row, row ∈ signal_records s0 → accepting_node row ≠ mark) ∧ (∀ x, AppliesRecord x ∈ l → accepting_node x ≠ mark).

Lemma mark_is_tombstone l row : marks_free l → row ∈ signal_records (store (at_ l)) →
  accepting_node row = "revoke:" +:+ owningNodeId env → is_tombstone row = true.
Proof.
  intros [Hm1 Hm2] (row' & Hc & Ho)%records_written Hn.
  apply came_as_key in Hc as (_ & En & -> & _). rewrite En in Hn.
  destruct Ho as [H|[[id H]|(x & Hx & ->)]]; [by destruct (Hm1 row')| |by destruct (Hm2 x)].
  apply written_justified in H as (r & now & _ & [Hj|(rv & _ & ->)]); [|done]. exfalso.
  destruct Hj as (? & ? & ? & ? & _ & _ & _ & _ & _ & _ & _ & _ & ->). cbn in Hn.
  apply (f_equal String.length) in Hn. rewrite str_app_length in Hn. cbn in Hn. lia.
Qed.

(** A revocation that was carried out is among the tombstones from then on. *)
Lemma revocation_tomb l l' id r now : asked env s0 l id r now → revocation_done env r now (history id (journal (at_ l))) →
  marks_free (l ++ l') →
  ∃ hash revoker, revocation env r now (was_read l id) hash revoker ∧ tomb (store (at_ (l ++ l'))) hash ≠ [] ∧
    ∀ k sig, revoker = Some (k, sig) → Some k ∈ tomb (store (at_ (l ++ l'))) hash.
Proof.
  intros Hq (hash & rv & Hr & Hw & Hv) [Hm1 Hm2]. exists hash, rv.
  assert (grows (store (at_ l)) (store (at_ (l ++ l')))) as Hg by (unfold run; rewrite foldl_app; apply tables_grow).
  assert (marks_free l) as Hm by (split; [done|intros x Hx; apply Hm2; set_solver]).
  split_and!.
  - destruct Hr as (b & v & t & Ha & Hs & H). exists b, v, t. split_and!; try apply H; try done.
    eapply signed_mono; [|exact Hs]. intros e He. by apply journal_was_read, history_elem.
  - apply history_elem in Hw. destruct (record_present l _ (ex_intro _ id Hw)) as (row & Hrow & Eh & En).
    destruct (records_grow _ _ Hg row Hrow) as (row' & Hrow' & Hc%came_as_key).
    destruct Hc as (Eh' & _ & Et' & _). intros Hn.
    assert (revoker_pubkey row' ∈ tomb (store (at_ (l ++ l'))) hash) as Hk; [|rewrite Hn in Hk; by apply elem_of_nil in Hk].
    apply tomb_elem. right. exists row'. cbn in Eh. split_and!; [done|congruence| |done].
    rewrite Et'. by apply (mark_is_tombstone l).
  - intros k sig ->. apply history_elem in Hv. destruct (revocation_present l _ (ex_intro _ id Hv)) as (v & Hvi & Eh & Ek).
    apply tomb_elem. left. exists v. cbn in *. split_and!; [|done|congruence]. by apply (revocations_grow _ _ Hg).
Qed.

(** C16. An answered revocation stands.  Where a request to revoke was answered with success,
    it was signed by an active submitter, its revoker's signature verified where it names one,
    and from then on, whatever comes later (the record itself among it, from a peer or a
    submission), the hash is not active, and reads as revoked, as long as its records are all
    institutions' or one of them was issued by the revoker, or there are none. *)
Theorem answered_revocation_stands l l' id r now body :
  asked env s0 l id r now → asks r "/internal/signal/revoke" → (id, Answer 200 body) ∈ answered (at_ l) →
  marks_free (l ++ l') →
  ∃ hash revoker, revocation env r now (was_read l id) hash revoker ∧
    let s := store (at_ (l ++ l')) in
    ((∀ row, row ∈ real_rows s hash → issuer_kind row ≠ agent) ∨
     (∃ row sig, row ∈ real_rows s hash ∧ revoker = Some (issuer_pubkey row, sig))) →
    is_revoked s hash = true ∧ is_active s hash = false.
Proof.
  intros Hq Ha Hi Hm. destruct (answers_explained _ _ _ _ (run_explained env s0 l) _ _ Hi) as (r' & now' & Hq' & Hc).
  destruct (asked_unique _ _ _ _ _ _ Hq Hq') as [-> ->]. destruct Hc as [_ Hc].
  destruct (revocation_tomb l l' id r' now' Hq (Hc _ eq_refl Ha) Hm) as (hash & rv & Hr & Hn & Hk).
  exists hash, rv. split; [done|]. cbn zeta. intros H.
  assert (is_revoked (store (at_ (l ++ l'))) hash = true) as Hv.
  { apply is_revoked_spec. destruct H as [H|(row & sig & Hrow & ->)].
    - destruct (decide (real_rows (store (at_ (l ++ l'))) hash = [])) as [E|E]; [by left|].
      right; right; left. split; [done|]. apply min_kind_institutional; [by destruct (real_rows _ _)|].
      intros k (row & -> & Hrow)%list_elem_of_fmap. by apply H.
    - right; right; right. exists row. split; [done|]. by eapply Hk. }
  split; [done|]. apply not_true_iff_false. intros (_ & Hf & _)%is_active_spec. congruence.
Qed.

Lemma upsert_pickup_elem p q l : q ∈ upsert_pickup p l →
  q ∈ l ∨ pk_agent q = pk_agent p ∧ pk_kind q = pk_kind p ∧ pk_hash q = pk_hash p ∧ pk_ciphertext q = pk_ciphertext p.
Proof.
  unfold upsert_pickup. destruct (existsb _ l).
  - intros (x & -> & Hx)%list_elem_of_fmap. destruct (_ && _) eqn:E; [|by left]. right. bools. cbn. tauto.
  - rewrite elem_of_app, list_elem_of_singleton. intros [H| ->]; [by left|by right].
Qed.

Lemma pickups_written l q : pickup_queue s0 = [] → q ∈ pickup_queue (store (at_ l)) →
  ∃ id p, (id, PickupWritten p) ∈ journal (at_ l) ∧
    pk_agent q = pk_agent p ∧ pk_kind q = pk_kind p ∧ pk_hash q = pk_hash p ∧ pk_ciphertext q = pk_ciphertext p.
Proof.
  intros H0. revert l. apply (run_ind (λ l n, q ∈ pickup_queue (store n) → ∃ id p, (id, PickupWritten p) ∈ journal n ∧
    pk_agent q = pk_agent p ∧ pk_kind q = pk_kind p ∧ pk_hash q = pk_hash p ∧ pk_ciphertext q = pk_ciphertext p)).
  { cbn. rewrite H0. by intros ?%elem_of_nil. }
  intros l i IH.
  assert (q ∈ pickup_queue (store (at_ l)) → ∃ id p, (id, PickupWritten p) ∈ journal (step env (at_ l) i) ∧
    pk_agent q = pk_agent p ∧ pk_kind q = pk_kind p ∧ pk_hash q = pk_hash p ∧ pk_ciphertext q = pk_ciphertext p) as Hold.
  { intros (id & p & H & ?)%IH. exists id, p. split; [by apply step_journal|done]. }
  destruct (step_stepped env (at_ l) i) as [-> _|B id now c o Hq _ Hj|r -> _ Hr|w -> _ Hr|x _ ->]; try done.
  - rewrite (surjective_pairing (exec _ _ _)) in Hq. injection Hq as <- <-. rewrite exec_pickups.
    destruct c; try exact Hold. intros [H|H]%upsert_pickup_elem; [by apply Hold|].
    exists id, p. rewrite Hj. cbn. split; [set_solver|done].
  - by rewrite Hr, exec_pickups.
  - by rewrite Hr, exec_pickups.
Qed.

Lemma real_rows_grow s s' h : grows s s' → real_rows s h ≠ [] → real_rows s' h ≠ [].
Proof.
  intros Hg Hn. destruct (real_rows s h) as [|row rs] eqn:E; [done|].
  assert (row ∈ real_rows s h) as Hr by (rewrite E; left). apply real_rows_elem in Hr as (Hr & <- & Ht).
  destruct (records_grow _ _ Hg row Hr) as (row' & Hr' & (Eh & _ & Et & _)%came_as_key).
  intros En. assert (row' ∈ real_rows s' (signal_hash row)) as Hx; [|rewrite En in Hx; by apply elem_of_nil in Hx].
  apply real_rows_elem. split_and!; congruence.
Qed.

Lemma at_take_grows l m : grows (store (at_ (take m l))) (store (at_ l)).
Proof.
  assert (at_ l = run env (at_ (take m l)) (drop m l)) as ->; [|apply tables_grow].
  unfold run. by rewrite <- foldl_app, take_drop.
Qed.

(** C18. What waits for an agent is a copy of a notarized signal: every row of the pickup queue
    names a hash that has a record, never one of which there is but a tombstone, and was put
    there, with its sealed bytes, for a fresh delivery signed by an active submitter after the
    record was seen; a later delivery of the same hash and kind replaces only the bytes. *)
Theorem pickups_are_notarized l q :
  pickup_queue s0 = [] → q ∈ pickup_queue (store (at_ l)) →
  real_rows (store (at_ l)) (pk_hash q) ≠ [] ∧
  ∃ id r now p, asked env s0 l id r now ∧ delivered env r now (was_read l id) p ∧
    pk_agent q = pk_agent p ∧ pk_kind q = pk_kind p ∧ pk_hash q = pk_hash p ∧ pk_ciphertext q = pk_ciphertext p.
Proof.
  intros H0 Hq. destruct (pickups_written l q H0 Hq) as (id & p & Hw & He).
  apply written_justified in Hw as (r & now & Ha & Hd). split; [|by exists id, r, now, p].
  destruct Hd as (b & req & d & _ & _ & _ & _ & (m & _ & Hm) & _ & ->). destruct He as (_ & _ & -> & _). cbn.
  apply (real_rows_grow _ _ _ (at_take_grows l m)). intros En. rewrite En in Hm. done.
Qed.

Lemma registry_written l v d : registry_document s0 = None → registry_document (store (at_ l)) = Some (v, d) →
  ∃ id, (id, RegistryWritten v d) ∈ journal (at_ l).
Proof.
  intros H0. revert l. apply (run_ind (λ l n, registry_document (store n) = Some (v, d) → ∃ id, (id, RegistryWritten v d) ∈ journal n)).
  { cbn. by rewrite H0. }
  intros l i IH.
  assert (registry_document (store (at_ l)) = Some (v, d) → ∃ id, (id, RegistryWritten v d) ∈ journal (step env (at_ l) i)) as Hold.
  { intros (id & H)%IH. exists id. by apply step_journal. }
  destruct (step_stepped env (at_ l) i) as [-> _|B id now c o Hq _ Hj|r -> _ Hr|w -> _ Hr|x _ ->]; try done.
  - pose proof (exec_registry now c (store (at_ l))) as Hx. rewrite Hq in Hx. cbn in Hx. rewrite Hx. clear Hx.
    destruct c; try exact Hold. cbn in Hq.
    destruct (registry_document (store (at_ l))) as [[v' d']|]; [destruct (v' <? version)%Z|];
      intros H; try (by apply Hold); injection H as -> ->; injection Hq as _ <-; exists id; rewrite Hj; set_solver.
  - by rewrite Hr, exec_registry.
  - by rewrite Hr, exec_registry.
Qed.

(** The registry of signal types only moves forward: the stored document was published
    with its version by a request signed by an active issuer of the role registry, and at
    every later moment the stored version is no lower, and the same version is the same bytes. *)
Theorem registry_moves_forward l l' v d :
  registry_document s0 = None → registry_document (store (at_ l)) = Some (v, d) →
  (∃ id r now, asked env s0 l id r now ∧ published env r (was_read l id) v d) ∧
  ∃ v' d', registry_document (store (at_ (l ++ l'))) = Some (v', d') ∧ (v <= v')%Z ∧ (v = v' → d = d').
Proof.
  intros H0 Hd. split.
  - destruct (registry_written l v d H0 Hd) as (id & Hw). apply written_justified in Hw as (r & now & Ha & Hj). eauto.
  - apply (registry_grows (store (at_ l))); [|done]. unfold run. rewrite foldl_app. apply tables_grow.
Qed.

Lemma switch_written l l' g :
  agent_suspensions (store (at_ (l ++ l'))) !! g = agent_suspensions (store (at_ l)) !! g ∨
  ∃ id acc, (id, SuspensionWritten g acc) ∈ journal (at_ (l ++ l')).
Proof.
  induction l' as [|i l' IH] using rev_ind; [left; by rewrite app_nil_r|].
  rewrite app_assoc, run_extend. destruct IH as [<-|(id & acc & IH)]; [|right; exists id, acc; by apply step_journal].
  destruct (step_stepped env (at_ (l ++ l')) i) as [-> _|B id now c o Hq _ Hj|r -> _ Hr|w -> _ Hr|x _ ->]; try by left.
  - pose proof (exec_suspensions now c (store (at_ (l ++ l')))) as Hx. rewrite Hq in Hx. cbn in Hx. rewrite Hx. clear Hx.
    destruct c; try by left. all: cbn in Hq.
    + destruct (agent_suspensions _ !! agent_id) as [r|]; [|by left]. destruct (Merges.burned r); [by left|].
      destruct (decide (agent_id = g)) as [->|]; [|left; by rewrite lookup_insert_ne].
      right. injection Hq as _ <-. exists id, EmptyString. rewrite Hj. set_solver.
    + destruct (decide (agent_id = g)) as [->|]; [|left; by rewrite lookup_insert_ne].
      right. injection Hq as _ <-. exists id, account. rewrite Hj. set_solver.
  - left. by rewrite Hr, exec_suspensions.
  - left. by rewrite Hr, exec_suspensions.
Qed.

Lemma merge_later hash nfc r r' : later r r' → Merges.mergeSuspension hash nfc r r' = r'.
Proof.
  unfold Merges.mergeSuspension. destruct r' as [a p b re au sq o]. intros [E|[Hlt Hb]]; cbn in *.
  - subst r. cbn. rewrite Z.eqb_refl. cbn. rewrite !orb_diag. by destruct (str_geb _ _).
  - replace (Merges.suspension_seq r =? sq)%Z with false by (symmetry; apply Z.eqb_neq; lia). cbn.
    replace (sq <? Merges.suspension_seq r)%Z with false by (symmetry; apply Z.ltb_ge; lia). cbn.
    f_equal. destruct (Merges.burned r); [by rewrite Hb|done].
Qed.

(** C19. The kill switch, as far as the node's own writes go: an agent's suspension differs later only if a request with the shared
    key asked for it with a valid mode, in the name of an account that the tables, after the
    request came, had as the agent's; whatever was burned stays burned, each change carries a
    higher number, and a peer that holds the earlier state and merges the later one, under
    any digest and normalization of the tiebreak, has the later. *)
Theorem kill_switch_is_owned l l' g r :
  agent_suspensions (store (at_ (l ++ l'))) !! g = Some r →
  (agent_suspensions (store (at_ l)) !! g ≠ Some r →
    ∃ id q now, asked env s0 (l ++ l') id q now ∧ switched env q (was_read (l ++ l') id) g) ∧
  ∀ r0, agent_suspensions (store (at_ l)) !! g = Some r0 →
    (Merges.burned r0 = true → Merges.burned r = true) ∧ (Merges.suspension_seq r0 <= Merges.suspension_seq r)%Z ∧
    (Merges.suspension_seq r0 = Merges.suspension_seq r → r0 = r) ∧
    ∀ hash nfc, Merges.mergeSuspension hash nfc r0 r = r.
Proof.
  intros Hr. split.
  - intros Hn. destruct (switch_written l l' g) as [E|(id & acc & Hw)]; [congruence|].
    apply written_justified in Hw as (q & now & Ha & Hj). eauto.
  - intros r0 H0. assert (grows (store (at_ l)) (store (at_ (l ++ l')))) as Hg by (unfold run; rewrite foldl_app; apply tables_grow).
    destruct (suspensions_grow _ _ Hg g r0 H0) as (r' & Hr' & Hl). assert (r' = r) as -> by congruence.
    split_and!; [..|intros hash nfc; by apply merge_later]; destruct Hl as [->|[? ?]]; try done; try lia.
Qed.

End Runs.

(** ** Operations that are not interrupted *)

(** C17. The check of presented hashes answers exactly the active among them, in the order of
    their presentation and as often as presented, and changes nothing; and a hash is active
    just when it has a record that is not a tombstone, is not revoked, no record that supersedes
    it is left unrevoked, and no record of it is marked superseded. *)
Theorem presented_are_the_active now hashes s :
  run_prog now (checkPresentedSignals hashes) s = (s, Ok (List.filter (is_active s) hashes)) ∧
  ∀ h, is_active s h = true ↔
    real_rows s h ≠ [] ∧ is_revoked s h = false ∧
    (∀ row, row ∈ signal_records s → supersedes_hash row = Some h → is_revoked s (signal_hash row) = true) ∧
    ∀ row, row ∈ rows_of s h → status row ≠ superseded.
Proof.
  split.
  - unfold checkPresentedSignals. destruct hashes as [|h0 hs]; [done|]. cbn [is_nil]. set (l := h0 :: hs).
    cbn -[List.filter]. do 2 f_equal. apply List.filter_ext_in. intros h Hh%list_elem_of_In.
    apply eq_true_iff_eq. rewrite bool_decide_eq_true, filter_elem. rewrite andb_true_iff, bool_decide_eq_true.
    split; [tauto|]. intros Ha. split_and!; try done. apply list.elem_of_remove_dups, list_elem_of_fmap.
    apply is_active_spec in Ha as (Hr & _). destruct (real_rows s h) as [|row rs] eqn:E; [done|].
    assert (row ∈ real_rows s h) as Hrow by (rewrite E; left). apply real_rows_elem in Hrow as (? & <- & _). by exists row.
  - intros h. rewrite is_active_spec. do 2 f_equiv. f_equiv. unfold has_successor.
    rewrite <- not_true_iff_false, existsb_elem. split.
    + intros Hn row Hrow Hs. apply not_false_iff_true. intros Hf. apply Hn. exists row. split; [done|].
      by rewrite bool_decide_eq_true_2, Hf.
    + intros Ha (row & Hrow & H). bools. rewrite (Ha row) in *; done.
Qed.

Lemma run_prog_bind {A B} now (p : prog A) (f : A → prog B) s :
  run_prog now (p ≫= f) s =
  match run_prog now p s with (s', Ok a) => run_prog now (f a) s' | (s', Err e) => (s', Err e) end.
Proof.
  revert s. induction p as [a|e|C q k IH]; intros s; cbn; [done|done|].
  destruct (exec now q s) as [s' o]. apply IH.
Qed.

Lemma run_prog_pure {A} now (p : prog A) s s' (a : A) : pure p → run_prog now p s = (s', Ok a) → s' = s ∧ p = Done a.
Proof. destruct p; cbn; [|done|done]. by intros _ [= <- <-]. Qed.

(** The check of the signature reads nothing but the issuers. *)
Lemma run_verify lib now k sig b role s :
  run_prog now (verifySignedRequest lib k sig b role) s =
  (s, (run_prog 0 (verifySignedRequest lib k sig b role) (with_issuers empty_store (authorized_issuers s))).2).
Proof.
  unfold verifySignedRequest, authorizeIssuer, demand. rewrite !run_prog_bind. destruct (is_hex64 k); [cbn|done].
  destruct (authorized_issuers s !! k) as [[ro st]|]; [cbn|done].
  destruct (bool_decide (st = "active")); [cbn|done]. destruct (bool_decide (ro = role)); [cbn|done].
  by destruct (bool_decide _).
Qed.

(** What a submission that succeeds has done. *)
Lemma run_submit lib node b k sig nowSec now s s' h ins :
  run_prog now (submitSignal lib node b k sig nowSec) s = (s', Ok (h, ins)) →
  ∃ req e, run_prog now (verifySignedRequest lib k sig b "submitter") s = (s, Ok tt) ∧
    parseRequest lib b = Done req ∧ checked_envelope lib req = Done (e, h) ∧
    let row := record_of node (sr_scanner_version req) e h in
    let s1 := with_records s (insert_absent same_key row (signal_records s)).1 in
    ins = negb (existsb (same_key row) (signal_records s)) ∧
    s' = match env_supersedes_hash e with
         | Some old => if ins then (exec now (UpdateSuperseded (hex old) node) s1).1 else s1
         | None => s1
         end.
Proof.
  unfold submitSignal. rewrite run_prog_bind, run_verify. destruct (run_prog 0 _ _).2 as [[]|]; [|done].
  intros H. rewrite run_prog_bind in H. destruct (run_prog now (parseRequest lib b) s) as [s2 [req|]] eqn:Ep; [|done].
  apply run_prog_pure in Ep as [-> Ep]; [|apply pure_parseRequest].
  rewrite run_prog_bind in H. destruct (run_prog now (check_fresh _ _) s) as [s2 [[]|]] eqn:Ef; [|done].
  apply run_prog_pure in Ef as [-> _]; [|apply pure_check_fresh].
  rewrite run_prog_bind in H. destruct (run_prog now (checked_envelope lib req) s) as [s2 [[e d]|]] eqn:Ee; [|done].
  apply run_prog_pure in Ee as [-> Ee]; [|apply pure_checked_envelope].
  exists req, e. cbn in H. unfold insert_absent in *.
  assert (h = d ∧ ins = negb (existsb (same_key (record_of node (sr_scanner_version req) e d)) (signal_records s))) as [-> Ei].
  { destruct (existsb _ _), (env_supersedes_hash e); cbn in H; by injection H as _ <- <-. }
  split_and!; try done. rewrite Ei. destruct (existsb _ _), (env_supersedes_hash e); cbn in H |- *; by injection H as <- _.
Qed.

Lemma statements_grow l s : grows s (after l s).
Proof.
  revert s. induction l as [|[B now q] l IH]; intros s; [done|]. etrans; [apply (exec_grows now q)|apply IH].
Qed.

Lemma after_issuers l s : authorized_issuers (after l s) = authorized_issuers s.
Proof. revert s. induction l as [|[B now q] l IH]; intros s; [done|].
  change (authorized_issuers (after l (exec now q s).1) = authorized_issuers s). rewrite IH. apply exec_issuers. Qed.

Lemma submit_grows lib node b k sig nowSec now s s' h ins :
  run_prog now (submitSignal lib node b k sig nowSec) s = (s', Ok (h, ins)) →
  ∃ req e row, parseRequest lib b = Done req ∧ checked_envelope lib req = Done (e, h) ∧ row ∈ signal_records s' ∧
    same_key (record_of node (sr_scanner_version req) e h) row = true ∧ authorized_issuers s' = authorized_issuers s.
Proof.
  intros (req & e & _ & Hp & He & _ & ->)%run_submit. set (new := record_of _ _ _ _).
  destruct (insert_absent_has same_key new (signal_records s) same_key_refl) as (y & Hy & Hk).
  set (s1 := with_records s _). assert (y ∈ signal_records s1) as Hy1 by done.
  destruct (env_supersedes_hash e) as [old|]; [destruct ins|]; try (by exists req, e, y).
  destruct (records_grow _ _ (exec_grows now (UpdateSuperseded (hex old) node) s1) y Hy1) as (y' & Hy' & Hc).
  exists req, e, y'. split_and!; try done.
  apply came_as_key in Hc as (E1 & E2 & _). unfold same_key in *. by rewrite E1, E2.
Qed.

(** A submission that is sent again changes nothing: after any statements of any requests,
    the same body with the same signature answers the same hash and that nothing was inserted
    and leaves every table as it is, or is refused as stale once it is out of the window; so a
    record that a successor has replaced is not brought back by its old submission. *)
Theorem replayed_submission_is_noop lib node b k sig nowSec now s s1 h ins :
  run_prog now (submitSignal lib node b k sig nowSec) s = (s1, Ok (h, ins)) →
  ∃ req, parseRequest lib b = Done req ∧ ∀ l now' nowSec',
    run_prog now' (submitSignal lib node b k sig nowSec') (after l s1) =
    (after l s1, if (Z.abs (nowSec' - sr_issued_at req) <=? CLOCK_SKEW_SECONDS)%Z then Ok (h, false)
                 else Err (SubmitRejected stale_request)).
Proof.
  intros H. destruct (run_submit _ _ _ _ _ _ _ _ _ _ _ H) as (req & e & Hv & Hp & He & _).
  destruct (submit_grows _ _ _ _ _ _ _ _ _ _ _ H) as (req' & e' & row & Hp' & He' & Hrow & Hk & Ei).
  assert (req' = req) as -> by congruence. assert (e' = e) as -> by congruence.
  exists req. split; [done|]. intros l now' nowSec'. unfold submitSignal.
  rewrite run_prog_bind, run_verify, after_issuers, Ei. rewrite run_verify in Hv. injection Hv as ->.
  rewrite Hp. unfold check_fresh, demand. cbn. destruct (_ <=? _)%Z; [|done]. cbn. rewrite He. cbn.
  destruct (records_grow _ _ (statements_grow l s1) row Hrow) as (row' & Hrow' & (E1 & E2 & _)%came_as_key).
  assert (existsb (same_key (record_of node (sr_scanner_version req) e h)) (signal_records (after l s1)) = true) as Hx.
  { apply existsb_elem. exists row'. split; [done|]. unfold same_key in *. by rewrite E1, E2. }
  unfold insert_absent. rewrite Hx. cbn. destruct (env_supersedes_hash e); cbn; by destruct (after l s1).
Qed.

(** C21. Supersession is for good on the node that has the predecessor: once a submission whose
    envelope supersedes it was inserted there, the predecessor is not active again, whatever
    happens, the revocation of the successor included, although the view would have it so. *)
Theorem superseded_never_returns lib node b k sig nowSec now s s1 h req e old row :
  run_prog now (submitSignal lib node b k sig nowSec) s = (s1, Ok (h, true)) →
  parseRequest lib b = Done req → checked_envelope lib req = Done (e, h) → env_supersedes_hash e = Some old →
  row ∈ signal_records s → signal_hash row = hex old → accepting_node row = node → status row = active →
  ∀ env n l, store n = s1 → is_active (store (run env n l)) (hex old) = false.
Proof.
  intros H Hp He Ho Hrow Eh En Es env n l Hn.
  apply run_submit in H as (req' & e' & _ & Hp' & He' & _ & H).
  assert (req' = req) as -> by congruence. assert (e' = e) as -> by congruence. rewrite Ho in H.
  assert (with_status row superseded ∈ signal_records s1) as Hs.
  { rewrite H. cbn. apply list_elem_of_fmap. exists row. rewrite bool_decide_eq_true_2 by done. split; [done|].
    apply insert_absent_elem. by left. }
  rewrite <- Hn in Hs. destruct (records_grow _ _ (tables_grow env n l) _ Hs) as (row' & Hr' & Hc).
  assert (row' = with_status row superseded) as -> by (by destruct Hc as [->|[_ ?]]).
  apply not_true_iff_false. intros (_ & _ & _ & Ha)%is_active_spec. apply (Ha (with_status row superseded)); [|done].
  by apply rows_of_elem.
Qed.

(** ** Bodies that end the process *)

Lemma serve_null env id now r : null_body env r → serve env id now r = Done Uncaught.
Proof.
  intros (Hk & Hu & v & Hv & Hn). unfold json_body in Hv. unfold serve.
  destruct (readBody r) as [b|] eqn:Eb; [|done]. cbn in Hv.
  assert (∀ f, member f v = None) as Hm by (by destruct Hn as [->| ->]).
  destruct Hu as [[Em Eu]|[[Em Eu]|[[Em Eu]|[Em Eu]]]]; rewrite Em, Eu; cbn zeta;
    repeat first [rewrite bool_decide_eq_true_2 by done|rewrite bool_decide_eq_false_2 by (by intros [_ ?])];
    unfold pre_authorize, account_by_email_stub, agents_by_account, agent_write, with_json;
    rewrite Hk, Eb, Hv; cbn [negb]; by rewrite Hm.
Qed.

(** C22. The process that serves the internal API goes down exactly by bodies of null: in a run
    without restarts, under every interleaving and every failure of statements, it is down just
    when a request came with the shared key and a body that parses to null, at one of the four
    routes that read fields of the body before their try. *)
Theorem api_goes_down_by_null env s0 l :
  Restarts ∉ l →
  running (run env (boot s0) l) = false ↔ ∃ r now, Arrives r now ∈ l ∧ null_body env r.
Proof.
  intros Hr. split.
  - intros H. destruct (death_explained _ _ _ _ (run_explained env s0 l) H) as (id & r & now & (k & Hk & _) & Hn).
    exists r, now. split; [by eapply list_elem_of_lookup_2|done].
  - intros (r & now & Hi & Hn). assert (∀ l n, Restarts ∉ l → running n = false → running (run env n l) = false) as Hd.
    { clear. induction l as [|i l IH]; intros n Hl Hn; [done|]. apply not_elem_of_cons in Hl as [Hi Hl].
      apply (IH (step env n i)); [done|]. unfold step. rewrite Hn. cbn. by destruct i. }
    apply list_elem_of_split in Hi as (l1 & l2 & ->). unfold run. rewrite foldl_app. cbn.
    apply Hd; [set_solver|]. unfold step. destruct (running (foldl _ _ l1)) eqn:E; cbn; [|done].
    by rewrite serve_null.
Qed.

(** * The theorems at concrete runs *)

Module Example_.

Definition times (n : nat) (c : ascii) : string := Nat.iter n (String c) EmptyString.

Definition K : string := times 64 "a".
Definition G : string := times 64 "b".
Definition d1 : bytes := times 32 "x".
Definition d2 : bytes := times 32 "y".

Definition e1 : TrustSignalEnvelope := mkEnvelope SubjectAgent agent K "t" None d1.
Definition e2 : TrustSignalEnvelope := mkEnvelope SubjectAgent agent K "t" (Some d1) d2.

Definition op (name : string) (fs : list (string * jsval)) : jsval :=
  VObj (("v", VNum (JInt 1)) :: ("op", VStr name) :: ("issued_at", VNum (JInt 0)) :: fs).

Definition bodies : list (bytes * jsval) :=
  [("S", op "submit" [("envelope", VBytes "e1"); ("signal_hash", VStr (hex d1)); ("scanner_version", VStr "s")]);
   ("T", op "submit" [("envelope", VBytes "e2"); ("signal_hash", VStr (hex d2)); ("scanner_version", VStr "s")]);
   ("R", op "revoke" [("signal_hash", VStr (hex d1)); ("revoker_pubkey", VStr K); ("revoker_signature", VBytes (times 64 "s"))]);
   ("U", op "revoke" [("signal_hash", VStr (hex d2)); ("revoker_pubkey", VStr K); ("revoker_signature", VBytes (times 64 "s"))]);
   ("D", op "deliver" [("signal_hash", VStr (hex d1)); ("signal_kind", VStr "t");
                       ("deliveries", VArr [VObj [("agent_id", VStr "g"); ("ciphertext", VBytes "c")]])]);
   ("P", op "registry-publish" [("document", VBytes "doc"); ("version", VNum (JInt 7))])].

Definition lib0 : Lib :=
  mkLib (λ b, b) (λ b, snd <$> List.find (λ x, bool_decide (x.1 = b)) bodies) (λ _, EmptyString)
    (λ b, if bool_decide (b = "e1") then Some e1 else if bool_decide (b = "e2") then Some e2 else None)
    (λ e, Some (env_rest e)) (λ _ _ _, Some true).

Definition json (b : bytes) : option jsval :=
  if bool_decide (b = "null") then Some VNull
  else Some (VObj [("accountId", VStr "acc"); ("agentId", VStr "g"); ("writeKind", VStr "revocation_flag");
                   ("payload", VObj [("mode", VStr "burn")])]).

Definition env0 : Env :=
  mkEnv lib0 "key" "n1" false (λ _ _ _ _ _, None) json (λ _, JNaN) (λ b, b) (λ b, b) (λ _, EmptyString)
    (λ _, PreAuthTokens.mkDraws (λ _, EmptyString) (λ _, EmptyString) (λ _, 0%Z) (λ _, EmptyString) 0).

Definition s_issuers : Store :=
  with_links (with_issuers empty_store (<[K := ("submitter", "active")]> {[G := ("registry", "active")]})) {["g" := "acc"]}.

Definition request (u signer : string) (b : bytes) : Request :=
  mkRequest "POST" u (Some "key") (Some signer) (Some EmptyString) [b] false.

Definition submit_ : Request := request "/internal/signal/submit" K "S".
Definition revoke_ : Request := request "/internal/signal/revoke" K "R".
Definition withdraw_ : Request := request "/internal/signal/revoke" K "U".
Definition deliver_ : Request := request "/internal/signal/deliver" K "D".
Definition publish_ : Request := request "/internal/signal/registry-publish" G "P".
Definition burn_ : Request := request "/internal/agent-write" K "w".
Definition null_ : Request := request "/internal/agent-write" K "null".

Definition works (id : nat) : input := Proceeds id Effects.Works 0.

Definition l_submit : list input := [Arrives submit_ 0; works 0; works 0].
Definition l_revoke : list input := [Arrives revoke_ 0; works 1; works 1; works 1].
Definition row1 : SignalRecord := record_of "n1" "s" e1 (hex d1).

Abbreviation after_ l := (run env0 (boot s_issuers) l).

Lemma row1_there : row1 ∈ signal_records (store (after_ l_submit)).
Proof. assert (signal_records (store (after_ l_submit)) = [row1]) as -> by (vm_compute; reflexivity). left. Defined.

End Example_.
Import Example_.

Lemma notarized_is_submitted_witness :
  (∃ x, AppliesRecord x ∈ l_submit ∧ came_as row1 (replicated x)) ∨
  (∃ id r now row', asked env0 s_issuers l_submit id r now ∧
     submitted env0 r now (was_read env0 s_issuers l_submit id) row' ∧ came_as row1 row').
Proof. apply notarized_is_submitted; [reflexivity|apply row1_there|reflexivity]. Defined.

Lemma agent_signal_revoked_by_issuer_witness :
  let l := l_submit ++ l_revoke in
  ∃ row, row ∈ real_rows (store (run env0 (boot s_issuers) l)) (hex d1) ∧
    ((∃ v, AppliesRevocation v ∈ l ∧ rv_hash v = hex d1 ∧ rv_pubkey v = issuer_pubkey row) ∨
     (∃ id r now sig, asked env0 s_issuers l id r now ∧
        revocation env0 r now (was_read env0 s_issuers l id) (hex d1) (Some (issuer_pubkey row, sig)))).
Proof.
  cbn zeta. apply agent_signal_revoked_by_issuer; [reflexivity|reflexivity|vm_compute; reflexivity|].
  exists row1. split; [|reflexivity].
  assert (real_rows (store (run env0 (boot s_issuers) (l_submit ++ l_revoke))) (hex d1) = [row1]) as -> by (vm_compute; reflexivity).
  left.
Defined.

Lemma answered_revocation_stands_witness :
  ∃ hash revoker, revocation env0 revoke_ 0 (was_read env0 s_issuers (l_submit ++ l_revoke) 1) hash revoker ∧
    let s := store (run env0 (boot s_issuers) ((l_submit ++ l_revoke) ++ [Arrives submit_ 0])) in
    ((∀ row, row ∈ real_rows s hash → issuer_kind row ≠ agent) ∨
     (∃ row sig, row ∈ real_rows s hash ∧ revoker = Some (issuer_pubkey row, sig))) →
    is_revoked s hash = true ∧ is_active s hash = false.
Proof.
  apply (answered_revocation_stands env0 s_issuers (l_submit ++ l_revoke) [Arrives submit_ 0] 1 revoke_ 0
    (VObj [("ok", VBool true); ("signal_hash", VStr (hex d1)); ("revoked_rows", num 1)])).
  - exists 3. split_and!; vm_compute; reflexivity.
  - by split.
  - match goal with |- _ ∈ ?x => let y := eval vm_compute in x in assert (x = y) as -> by (vm_compute; reflexivity) end.
    vm_compute. right. left.
  - split; [by intros row ?%elem_of_nil|]. intros x Hx%list_elem_of_In. cbn in Hx. naive_solver.
Defined.

Lemma pickups_are_notarized_witness :
  let l := l_submit ++ [Arrives deliver_ 0; works 1; works 1; works 1] in
  let q := mkPickup "g" "t" "c" "n1" (hex d1) false in
  real_rows (store (run env0 (boot s_issuers) l)) (pk_hash q) ≠ [] ∧
  ∃ id r now p, asked env0 s_issuers l id r now ∧ delivered env0 r now (was_read env0 s_issuers l id) p ∧
    pk_agent q = pk_agent p ∧ pk_kind q = pk_kind p ∧ pk_hash q = pk_hash p ∧ pk_ciphertext q = pk_ciphertext p.
Proof.
  cbn zeta. apply pickups_are_notarized; [reflexivity|].
  match goal with |- _ ∈ ?x => assert (x = [mkPickup "g" "t" "c" "n1" (hex d1) false]) as -> by (vm_compute; reflexivity) end.
  left.
Defined.

Lemma registry_moves_forward_witness :
  let l := [Arrives publish_ 0; works 0; works 0] in
  (∃ id r now, asked env0 s_issuers l id r now ∧ published env0 r (was_read env0 s_issuers l id) 7 "doc") ∧
  ∃ v' d', registry_document (store (run env0 (boot s_issuers) (l ++ l_submit))) = Some (v', d') ∧
    (7 <= v')%Z ∧ ((7 = v')%Z → "doc" = d').
Proof. cbn zeta. apply registry_moves_forward; [reflexivity|vm_compute; reflexivity]. Defined.

Lemma kill_switch_is_owned_witness :
  let l := [Arrives burn_ 0; works 0; works 0] in
  let r := Merges.mkSuspension "g" true true None (Some "acc") 1 "n1" in
  (agent_suspensions (store (run env0 (boot s_issuers) [])) !! "g" ≠ Some r →
    ∃ id q now, asked env0 s_issuers l id q now ∧ switched env0 q (was_read env0 s_issuers l id) "g") ∧
  ∀ r0, agent_suspensions (store (run env0 (boot s_issuers) [])) !! "g" = Some r0 →
    (Merges.burned r0 = true → Merges.burned r = true) ∧ (Merges.suspension_seq r0 <= Merges.suspension_seq r)%Z ∧
    (Merges.suspension_seq r0 = Merges.suspension_seq r → r0 = r) ∧
    ∀ hash nfc, Merges.mergeSuspension hash nfc r0 r = r.
Proof.
  cbn zeta. apply (kill_switch_is_owned env0 s_issuers [] [Arrives burn_ 0; works 0; works 0]). vm_compute. reflexivity.
Defined.

Lemma replayed_submission_is_noop_witness :
  let s1 := store (run env0 (boot s_issuers) l_submit) in
  ∃ req, parseRequest lib0 "S" = Done req ∧ ∀ l now' nowSec',
    run_prog now' (submitSignal lib0 "n1" "S" K EmptyString nowSec') (after l s1) =
    (after l s1, if (Z.abs (nowSec' - sr_issued_at req) <=? CLOCK_SKEW_SECONDS)%Z then Ok (hex d1, false)
                 else Err (SubmitRejected stale_request)).
Proof.
  cbn zeta. apply (replayed_submission_is_noop lib0 "n1" "S" K EmptyString 0 0 s_issuers _ (hex d1) true).
  vm_compute. reflexivity.
Defined.

Lemma superseded_never_returns_witness :
  let s := store (run env0 (boot s_issuers) l_submit) in
  let s1 := (run_prog 0 (submitSignal lib0 "n1" "T" K EmptyString 0) s).1 in
  let s2 := store (run env0 (boot s1) [Arrives withdraw_ 0; works 0; works 0; works 0]) in
  is_revoked s2 (hex d2) = true ∧ is_active s2 (hex d1) = false.
Proof.
  cbn zeta. split; [vm_compute; reflexivity|]. set (p := run_prog 0 _ _).
  assert (p.2 = Ok (hex d2, true)) as E by (vm_compute; reflexivity).
  apply (superseded_never_returns lib0 "n1" "T" K EmptyString 0 0 (store (run env0 (boot s_issuers) l_submit)) p.1 (hex d2)
    (mkSubmit "e2" (hex d2) "s" 0) e2 d1 row1).
  - rewrite <- E. apply surjective_pairing.
  - vm_compute. reflexivity.
  - vm_compute. reflexivity.
  - reflexivity.
  - apply row1_there.
  - reflexivity.
  - reflexivity.
  - reflexivity.
  - reflexivity.
Defined.

Lemma api_goes_down_by_null_witness :
  running (run env0 (boot s_issuers) [Arrives null_ 0]) = false ↔
  ∃ r now, Arrives r now ∈ [Arrives null_ 0] ∧ null_body env0 r.
Proof.
  apply api_goes_down_by_null. intros H%list_elem_of_In. cbn in H. naive_solver.
Defined.

End ApiLedger.
